(* ===== verification/_CoqProject ===== *)
-Q . S2P
Prelude.v
BtreeFormat.v
BtreeCell.v
BtreePage.v
BtreeSplit.v
BtreeTransaction.v
BtreeUpdate.v
BtreeQuery.v
BtreeNode.v
BtreeOverlay.v
BtreeMutation.v
BtreeTree.v
BtreeClimb.v
BtreeChain.v
BtreePlace.v
BtreeStore.v
BtreeExtend.v
BtreeLinks.v
BtreeWal.v
BtreeRecovery.v
BtreeCrash.v
BtreeDurable.v
BtreeSpec.v
BtreeRead.v
BtreeLookup.v
BtreeCursor.v
BtreeRange.v
BtreeLocators.v
BtreeReaders.v
BtreeVerify.v
BtreeBuild.v
BtreeStored.v
BtreeLevels.v
BtreeCreate.v
TsClock.v
TsPes.v
TsLayout.v
TsTimeline.v
TsRender.v
TsStream.v
ProviderPool.v
ProviderLineup.v
ProviderManager.v
ProviderAccounting.v
ActiveConnections.v
ActiveIndex.v
ActiveLedger.v
ActiveTable.v
ActiveVictim.v
ActiveManager.v
ActiveAccounting.v
ActiveCount.v
ActiveReservations.v
ActiveSystem.v
