(* ===== verification/Prelude.v ===== *)
(** * Verification of tuliprox

    tuliprox is an IPTV proxy: it stores playlists in its own B+tree files,
    serves live and recorded MPEG transport streams, and shares the provider
    connections of its users.  This library models the parts that carry the
    program's own algorithms and proves that they are correct.

    ** The parts and the files that model them

    - [Prelude]: results and errors, machine integers, slices of buffers,
      little-endian integers, the proof automation of the library.
    - The storage engine (backend/btree/src/v3).
      [BtreeFormat]: database and page headers (format.rs).
      [BtreeCell]: cells, stored values, locators (format.rs).
      [BtreePage]: slotted pages (page.rs).
      [BtreeWal]: the records of the write-ahead log and [read_wal] (wal.rs).
      [BtreeRecovery]: the commit protocol and recovery as programs over a
      disk with a durable and a pending part, and the crash model (wal.rs).
      [BtreeCrash]: crash safety of commit and recovery.
      [BtreeSplit]: page usage, where overfull pages are cut, the searches
      inside a page (tree.rs).
      [BtreeTransaction]: the write transaction: its overlay of dirty pages,
      the free list, overflow chains, leaf and internal splits, the staged
      upsert, deletion and query (tree.rs).
      [BtreeUpdate]: beginning a transaction, the checks before a commit, batches
      (tree.rs).
      [BtreeQuery]: the query handle of a committed file with its caches, point
      queries, cursors, ranges and locators (tree.rs).
      [BtreeNode], [BtreeOverlay], [BtreeMutation]: what single pages hold, the
      pages of a transaction and its free list, and the effect of a mutation on
      one page.
      [BtreeTree], [BtreeClimb], [BtreeChain], [BtreePlace]: the tree the pages
      form, promotions on the way up, overflow chains, and placing a cell.
      [BtreeStore]: what a transaction holds as a map, and the staged operations
      on it.  [BtreeExtend]: what no operation changes.  [BtreeLinks]: the
      checks before a commit accept what the operations build.
      [BtreeDurable]: the commit of a transaction and the reopened file.
      [BtreeSpec]: the refinement of maps from keys to byte strings.
      [BtreeRead], [BtreeLookup], [BtreeCursor], [BtreeRange], [BtreeLocators],
      [BtreeReaders]: what the methods of the query handle return on a file that
      holds a map, and that sequences of reads refine the map.
      [BtreeVerify]: the full verification of a file (tree.rs).
      [BtreeBuild]: the tree in memory, the bulk builder that writes it to a new
      file, and loading (tree.rs).  [BtreeStored], [BtreeLevels], [BtreeCreate]:
      the leaves and the internal levels the builder writes, and that the file
      holds the tree.
      The CRC-32 function and the LZ4 codec are parameters: CRC-32 is any
      function to 32-bit values, LZ4 any codec whose decoder inverts its
      encoder.  Keys are any type with a total order and an encoding that decodes
      to the key.  The disk has a durable and a pending part: a crash keeps a
      prefix of the unsynced bytes of the log, and of the other unsynced writes
      any may be lost or kept in part.
    - The transport stream buffer
      (backend/mpegts/src/transport_stream_buffer.rs).
      [TsClock]: 90 kHz and 27 MHz clocks, their wire encodings, timestamp
      profiles and splice anchors.
      [TsPes]: transport packets, the reassembly of PES headers that are split
      over packets, the streaming profile scanner.
      [TsLayout]: the layout of a finite asset: every timestamp field and
      programme clock, and the table from packets to fields.
      [TsTimeline]: presentation timelines, cadences and durations.
      [TsRender]: rewriting of timestamps through the layout, rendered and
      finalized HLS segments.
      [TsStream]: [TransportStreamBuffer::new] and the endless stream
      [next_chunk].  The number of packets of a chunk, which the source computes
      once per process, is a parameter.
    - Provider connections (backend/core/src/model/provider.rs,
      backend/session/src/provider_lineup_manager.rs).
      [ProviderPool]: the shared connection counters and the atomic operations
      on them, with a semaphore as their specification.
      [ProviderLineup]: lineups by priority, round robin, grace.
      [ProviderManager]: the lineup manager: configuration, registry of
      counters, acquisition with its reports, reconciliation.
      [ProviderAccounting]: the manager with the connections its clients hold,
      as a transition system, and its invariant.
      [ActiveConnections]: the table of active connections
      (backend/session/src/active_provider_manager.rs) with its indices by
      provider and priority, its operations and the choice of a victim.
      [ActiveIndex], [ActiveLedger], [ActiveTable]: when the views of the table
      agree, and where its allocations go.  [ActiveVictim]: the victim is the
      least important connection.
      [ActiveManager]: the active provider manager: reservations, acquisition with
      preemption, release, sharing.  [ActiveAccounting], [ActiveCount],
      [ActiveReservations], [ActiveSystem]: its counters against its table, and
      its reservations, as a transition system over the manager.
      Clocks are arguments, counters and round-robin indices live in a shared
      store, configurations refer to their counter by address; masking of
      credentials in reports is a parameter.

    ** Conventions

    A [Result] is the type [result], with the error as a value; [usize] has 64
    bits; every operation of the source that can overflow is one of
    [checked_add], [saturating_add], [wrapping_add64] and so on.  Buffers are
    lists: of [byte] in the storage engine, of 8-bit integers in the stream
    buffer.  Loops are structural recursions or folds; the only fuel is that
    of the log reader, of the round-robin loop and of the walks over pages, and
    it is proved to suffice.  A walk over pages (a descent, a chain, the free
    list) meets each page id below [next_page_id] once, since the source keeps
    the set of visited pages, so [walk_fuel] is one step for each of them.

    The theorems on transactions bound the number of pages by 2^44 (or 2^60
    where no file is written), so that lengths in bytes and the sizes the
    readers allow fit 64 bits; 2^44 pages are 64 pebibytes.

    ** What the theorems show

    Storage: encodings round trip and are canonical; a page that opens is
    well formed, rebuilding it is exact about capacity and order; a log cut
    anywhere reads back its complete records; a transaction is atomic and
    durable across crashes, including crashes during recovery.  The staged
    operations of a write transaction refine a map from keys to byte strings:
    every upsert and deletion succeeds and changes one key, a query reads it
    back, a batch applies its items in the order of the caller, overfull pages
    are cut at the best balanced place, and the commit passes its own checks and
    leaves a file that holds the map, or after a crash the map before or after
    the whole transaction.  Readers answer every sequence of reads as that map,
    whatever their caches learned; cursors give its entries in order, locators
    read back the values they were made for and never the value of another key;
    full verification accepts every file that holds a map, with exact counts; a
    tree stored in a new file is loaded again as it was.  Two theorems are on
    defects: a failed locator read makes valid locators fail, and an empty batch
    recurses without end.

    Streams: clocks and their encodings agree modulo their cycles, profiles
    cover what was observed, a splice is placed right; split headers are
    reassembled as if they had not been split; the layout locates valid and
    disjoint fields and its packet table is exact; timelines cover their
    timestamps and durations span the timelines; rewriting shifts every clock
    and nothing else; rendered segments continue each other's counters and
    preparing a segment before its anchor is known changes nothing; every packet
    of the endless stream is that rewriting and the stream never ends.

    Providers: the counters implement a semaphore that lends one connection
    beyond its limit; requests are served by priority and in turn; across
    reconfigurations and reconciliations a provider keeps one counter, which is
    the number of connections held and the number last announced.

    The active provider manager relies on its callers: a connection should be
    shared only under a key that has no stream, and no client should share or
    join while it watches another stream.  The source does not check this, and the
    models of sharing and joining do not either.  [orderly] (in [ActiveLedger]) is
    this sharing protocol.  Without it, every allocation of the table is still in
    it, released once, or overwritten by sharing under a taken key, and the
    counters are those of the table and of the streams overwritten since the last
    reconciliation; [sharing_taken_key_leaks] shows that such a stream is lost.
    With it, nothing is lost, the table never disagrees with its indices, a
    preemption takes the least important connection, and a granted connection
    leaves the places that other sessions reserved.  The operations of the active provider manager are
    sequences of critical sections; on the counters and on the table their
    interleavings are covered ([connections_accounted], [table_views_agree]), the
    agreement of the two and the reservations are proved for operations that do
    not overlap.

    ** Not modelled

    In tree.rs: compaction, the background writer, file locks, and the shell of
    the updater with its flush policy, so that a batch is staged and its commit is
    the caller's.  The sorted index, the publication of a prepared file (its
    rename and the sync of its directory) and the migration of files; the MPEG-TS inspector, which probes codecs; the
    user and connection managers of the sessions and the shared streams, of which
    the active provider manager only records what it tells them; and the
    asynchronous HTTP, HLS, DVR, metadata and user
    interface code around them, which is I/O and glue. *)


From stdpp Require Export base option list strings.
From Stdlib Require Export ZArith Lia.
From coqutil Require Export Byte Word.LittleEndianList.

#[global] Open Scope Z_scope.


(** ** Results

    [Result<T, E>] of the source.  The monad instances give the notation
    [x ← e; k] for the source's [let x = e?; k]. *)

Inductive result (E A : Type) : Type :=
| Ok (a : A)
| Err (e : E).
Arguments Ok {E A} _.
Arguments Err {E A} _.

#[export] Instance result_ret {E} : MRet (result E) := λ A a, Ok a.

#[export] Instance result_bind {E} : MBind (result E) :=
  λ A B f m, match m with Ok a => f a | Err e => Err e end.

#[export] Instance result_eq_dec {E A} `{EqDecision E, EqDecision A} :
  EqDecision (result E A).
Proof. solve_decision. Defined.

(** [Option::ok_or_else]. *)
Definition ok_or {E A} (o : option A) (e : E) : result E A :=
  match o with Some a => Ok a | None => Err e end.

(** [Result::map_err]. *)
Definition map_err {E F A} (f : E → F) (r : result E A) : result F A :=
  match r with Ok a => Ok a | Err e => Err (f e) end.

Definition is_ok {E A} (r : result E A) : bool :=
  match r with Ok _ => true | Err _ => false end.

(** [std::io::ErrorKind] and [std::io::Error], as far as the storage engine
    distinguishes them. *)
Inductive error_kind :=
| InvalidData | InvalidInput | OutOfMemory | UnexpectedEof | AlreadyExists | NotFound | OtherKind.

Record io_error := IoError { err_kind : error_kind; err_message : string }.

#[export] Instance error_kind_eq_dec : EqDecision error_kind.
Proof. solve_decision. Defined.
#[export] Instance io_error_eq_dec : EqDecision io_error.
Proof. solve_decision. Defined.

Abbreviation io_result := (result io_error).

Definition invalid_data (message : string) : io_error := IoError InvalidData message.
Definition invalid_input (message : string) : io_error := IoError InvalidInput message.

Lemma bind_ok {E A B} (a : A) (f : A → result E B) : Ok a ≫= f = f a.
Proof. done. Qed.

(** Forward execution: the first computation succeeds, or the guard is decided. *)
Lemma bind_step {E A B} (m : result E A) (f : A → result E B) a r :
  m = Ok a → f a = r → m ≫= f = r.
Proof. by intros -> <-. Qed.

Lemma skip_guard {A} (c : bool) (x y r : A) : c = false → y = r → (if c then x else y) = r.
Proof. by intros -> <-. Qed.

Lemma take_guard {A} (c : bool) (x y r : A) : c = true → x = r → (if c then x else y) = r.
Proof. by intros -> <-. Qed.

Lemma bind_ok_inv {E A B} (m : result E A) (f : A → result E B) b :
  m ≫= f = Ok b → ∃ a, m = Ok a ∧ f a = Ok b.
Proof. destruct m; cbn; [eauto | discriminate]. Qed.

Lemma ok_or_inv {E A} (o : option A) (e : E) a : ok_or o e = Ok a → o = Some a.
Proof. destruct o; cbn; congruence. Qed.

Lemma map_err_ok_inv {E F A} (f : E → F) (r : result E A) a :
  map_err f r = Ok a → r = Ok a.
Proof. destruct r; cbn; congruence. Qed.

(** [bind_inv] walks a successful computation backwards: every bound
    sub-computation succeeded and every early return was not taken. *)
Ltac bind_inv :=
  repeat match goal with
  | H : Ok ?a = Ok ?b |- _ => injection H as H; try subst
  | H : Err _ = Ok _ |- _ => discriminate H
  | H : mbind _ _ = Ok _ |- _ => apply bind_ok_inv in H as (? & ? & H)
  | H : ok_or _ _ = Ok _ |- _ => apply ok_or_inv in H
  | H : map_err _ _ = Ok _ |- _ => apply map_err_ok_inv in H
  | H : (if ?c then Err _ else _) = Ok _ |- _ =>
      let E := fresh "Hc" in destruct c eqn:E; [discriminate H |]
  | H : (if ?c then _ else Err _) = Ok _ |- _ =>
      let E := fresh "Hc" in destruct c eqn:E; [| discriminate H]
  | H : Some _ = Some _ |- _ => injection H as H; try subst
  | H : unit |- _ => destruct H
  end.

(** Boolean comparisons as propositions, for [lia] under [Z.of_nat]. *)
Ltac bool_to_prop :=
  rewrite ?andb_true_iff, ?orb_true_iff, ?andb_false_iff, ?orb_false_iff, ?negb_true_iff,
    ?negb_false_iff, ?Z.ltb_lt, ?Z.leb_le, ?Z.eqb_eq, ?Z.ltb_ge, ?Z.leb_gt, ?Z.eqb_neq in *.
Ltac blia := first [ lia | bool_to_prop; lia | symmetry; bool_to_prop; lia ].

(** [decide_ifs] resolves the conditionals of the goal that arithmetic settles. *)
Ltac decide_ifs :=
  repeat match goal with
  | |- context [if ?c then _ else _] =>
      first [ replace c with true by blia | replace c with false by blia ]; cbv beta iota; rewrite ?bind_ok
  end.

(** ** Machine integers *)

Definition fits (w z : Z) : Prop := 0 ≤ z < 2 ^ w.
Abbreviation is_u8 := (fits 8).
Abbreviation is_u16 := (fits 16).
Abbreviation is_u32 := (fits 32).
Abbreviation is_u64 := (fits 64).

#[export] Instance fits_dec w z : Decision (fits w z).
Proof. unfold fits. apply _. Defined.

(** [usize] is 64 bits wide. *)
Definition checked_add (a b : Z) : option Z := if a + b <? 2 ^ 64 then Some (a + b) else None.
Definition checked_mul (a b : Z) : option Z := if a * b <? 2 ^ 64 then Some (a * b) else None.
Definition checked_sub (a b : Z) : option Z := if b <=? a then Some (a - b) else None.
Definition saturating_add (a b : Z) : Z := Z.min (a + b) (2 ^ 64 - 1).
Definition saturating_mul (a b : Z) : Z := Z.min (a * b) (2 ^ 64 - 1).
Definition saturating_sub (a b : Z) : Z := Z.max (a - b) 0.
Definition wrapping_add64 (a b : Z) : Z := (a + b) mod 2 ^ 64.
Definition wrapping_sub64 (a b : Z) : Z := (a - b) mod 2 ^ 64.
(** [uN::try_from] of a wider unsigned value. *)
Definition try_fit (w z : Z) : option Z := if z <? 2 ^ w then Some z else None.

Lemma checked_add_inv a b c : checked_add a b = Some c → c = a + b ∧ a + b < 2 ^ 64.
Proof. unfold checked_add. destruct (Z.ltb_spec (a + b) (2 ^ 64)); intros [=]; lia. Qed.
Lemma checked_mul_inv a b c : checked_mul a b = Some c → c = a * b ∧ a * b < 2 ^ 64.
Proof. unfold checked_mul. destruct (Z.ltb_spec (a * b) (2 ^ 64)); intros [=]; lia. Qed.
Lemma checked_sub_inv a b c : checked_sub a b = Some c → c = a - b ∧ b ≤ a.
Proof. unfold checked_sub. destruct (Z.leb_spec b a); intros [=]; lia. Qed.
Lemma try_fit_inv w z c : try_fit w z = Some c → c = z ∧ z < 2 ^ w.
Proof. unfold try_fit. destruct (Z.ltb_spec z (2 ^ w)); intros [=]; lia. Qed.
Lemma checked_add_small a b : a + b < 2 ^ 64 → checked_add a b = Some (a + b).
Proof. intros. unfold checked_add. by rewrite (proj2 (Z.ltb_lt _ _)). Qed.
Lemma checked_mul_small a b : a * b < 2 ^ 64 → checked_mul a b = Some (a * b).
Proof. intros. unfold checked_mul. by rewrite (proj2 (Z.ltb_lt _ _)). Qed.
Lemma checked_sub_small a b : b ≤ a → checked_sub a b = Some (a - b).
Proof. intros. unfold checked_sub. by rewrite (proj2 (Z.leb_le _ _)). Qed.
Lemma try_fit_small w z : z < 2 ^ w → try_fit w z = Some z.
Proof. intros. unfold try_fit. by rewrite (proj2 (Z.ltb_lt _ _)). Qed.

(** ** Slices *)

Section Slices.
Context {A : Type}.
Implicit Types b v : list A.

Definition len b : Z := Z.of_nat (length b).

(** [&b[lo..hi]] inside bounds. *)
Definition slice b (lo hi : Z) : list A := take (Z.to_nat (hi - lo)) (drop (Z.to_nat lo) b).

(** [b.get(lo..hi)]. *)
Definition get_range b (lo hi : Z) : option (list A) :=
  if (0 <=? lo) && (lo <=? hi) && (hi <=? len b) then Some (slice b lo hi) else None.

(** [b[lo..lo + v.len()].copy_from_slice(v)] inside bounds; the length of [b]
    never changes. *)
Definition put b (lo : Z) v : list A :=
  take (length b) (take (Z.to_nat lo) b ++ v ++ drop (Z.to_nat (lo + len v)) b).

(** [b.get(i)]. *)
Definition get b (i : Z) : option A := if 0 <=? i then b !! Z.to_nat i else None.

Lemma len_nonneg b : 0 ≤ len b.
Proof. unfold len. lia. Qed.

Lemma len_app b v : len (b ++ v) = len b + len v.
Proof. unfold len. rewrite length_app. lia. Qed.

Lemma len_nil : len [] = 0.
Proof. done. Qed.

Lemma len_cons x b : len (x :: b) = 1 + len b.
Proof. unfold len. cbn [length]. lia. Qed.

Lemma len_replicate n (x : A) : 0 ≤ n → len (replicate (Z.to_nat n) x) = n.
Proof. intros. unfold len. rewrite length_replicate. lia. Qed.

Lemma len_zero b : len b = 0 ↔ b = [].
Proof. unfold len. destruct b; cbn; split; (lia || done). Qed.

Lemma len_slice b lo hi : 0 ≤ lo → lo ≤ hi → hi ≤ len b → len (slice b lo hi) = hi - lo.
Proof. unfold len, slice. intros. rewrite length_take, length_drop. lia. Qed.

Lemma get_range_some b lo hi :
  0 ≤ lo → lo ≤ hi → hi ≤ len b → get_range b lo hi = Some (slice b lo hi).
Proof.
  intros. unfold get_range.
  by replace ((0 <=? lo) && (lo <=? hi) && (hi <=? len b)) with true by lia.
Qed.

Lemma get_range_inv b lo hi s :
  get_range b lo hi = Some s → s = slice b lo hi ∧ 0 ≤ lo ≤ hi ∧ hi ≤ len b.
Proof. unfold get_range. case_match; intros [= <-]. split; [done | lia]. Qed.

Lemma len_put b lo v : len (put b lo v) = len b.
Proof.
  unfold len, put. rewrite length_take, !length_app, length_take, length_drop. unfold len. lia.
Qed.

Lemma put_inside b lo v :
  0 ≤ lo → lo + len v ≤ len b →
  put b lo v = take (Z.to_nat lo) b ++ v ++ drop (Z.to_nat (lo + len v)) b.
Proof.
  unfold len, put. intros. apply take_ge. rewrite !length_app, length_take, length_drop.
  unfold len. lia.
Qed.

Lemma slice_lookup b lo hi (i : nat) :
  0 ≤ lo → slice b lo hi !! i = if Z.of_nat i <? hi - lo then b !! (Z.to_nat lo + i)%nat else None.
Proof.
  intros. unfold slice. destruct (Z.ltb_spec (Z.of_nat i) (hi - lo)).
  - rewrite lookup_take_lt by lia. by rewrite lookup_drop.
  - apply lookup_take_ge. lia.
Qed.

Lemma put_lookup b lo v (i : nat) :
  0 ≤ lo → lo + len v ≤ len b →
  put b lo v !! i =
    if (lo <=? Z.of_nat i) && (Z.of_nat i <? lo + len v)
    then v !! (i - Z.to_nat lo)%nat else b !! i.
Proof.
  intros Hlo Hle. rewrite put_inside by done. unfold len in *.
  destruct (decide (Z.of_nat i < lo)) as [Hlt|Hge].
  { rewrite lookup_app_l by (rewrite length_take; lia).
    rewrite lookup_take_lt by lia.
    by decide_ifs. }
  rewrite lookup_app_r by (rewrite length_take; lia).
  rewrite length_take. replace (Z.to_nat lo `min` length b)%nat with (Z.to_nat lo) by lia.
  destruct (decide (Z.of_nat i < lo + Z.of_nat (length v))).
  - rewrite lookup_app_l by lia. by decide_ifs.
  - rewrite lookup_app_r by lia. rewrite lookup_drop.
    decide_ifs. f_equal. lia.
Qed.

Lemma slice_eq_lookup b b' lo hi :
  0 ≤ lo → (∀ i : nat, lo ≤ Z.of_nat i < hi → b !! i = b' !! i) → slice b lo hi = slice b' lo hi.
Proof.
  intros Hlo Heq. apply list_eq. intros i. rewrite !slice_lookup by done.
  case_match; [|done]. apply Heq. lia.
Qed.

Lemma slice_put_same b lo hi v :
  0 ≤ lo → hi = lo + len v → hi ≤ len b → slice (put b lo v) lo hi = v.
Proof.
  intros Hlo -> Hle. apply list_eq. intros i. rewrite slice_lookup by done.
  destruct (Z.ltb_spec (Z.of_nat i) (lo + len v - lo)) as [Hi|Hi].
  - rewrite put_lookup by lia.
    decide_ifs. f_equal. lia.
  - symmetry. apply lookup_ge_None. unfold len in *. lia.
Qed.

Lemma slice_put_l b lo v lo' hi' :
  0 ≤ lo' → hi' ≤ lo → lo + len v ≤ len b → slice (put b lo v) lo' hi' = slice b lo' hi'.
Proof.
  intros ? ? Hle. apply slice_eq_lookup; [done|]. intros i Hi.
  rewrite put_lookup by lia. by decide_ifs.
Qed.

Lemma slice_put_r b lo v lo' hi' :
  0 ≤ lo → lo + len v ≤ lo' → lo + len v ≤ len b → slice (put b lo v) lo' hi' = slice b lo' hi'.
Proof.
  intros ? ? Hle. pose proof (len_nonneg v). apply slice_eq_lookup; [lia|]. intros i Hi.
  rewrite put_lookup by lia. by decide_ifs.
Qed.

Lemma slice_full b : slice b 0 (len b) = b.
Proof.
  unfold slice, len. rewrite Z.sub_0_r, drop_0, Nat2Z.id. apply take_ge. lia.
Qed.

Lemma slice_nat b (lo hi : nat) : slice b (Z.of_nat lo) (Z.of_nat hi) = take (hi - lo) (drop lo b).
Proof. unfold slice. f_equal; [lia|]. by rewrite Nat2Z.id. Qed.

Lemma slice_take b hi : slice b 0 hi = take (Z.to_nat hi) b.
Proof. unfold slice. by rewrite Z.sub_0_r, drop_0. Qed.

Lemma slice_drop b lo : 0 ≤ lo → slice b lo (len b) = drop (Z.to_nat lo) b.
Proof. intros. unfold slice, len. apply take_ge. rewrite length_drop. lia. Qed.

Lemma slice_all b lo hi : lo = 0 → hi = len b → slice b lo hi = b.
Proof. intros -> ->. apply slice_full. Qed.

Lemma slice_cut b lo mid hi :
  0 ≤ lo → lo ≤ mid → mid ≤ hi → slice b lo hi = slice b lo mid ++ slice b mid hi.
Proof.
  intros. unfold slice.
  replace (Z.to_nat (hi - lo)) with (Z.to_nat (mid - lo) + Z.to_nat (hi - mid))%nat by lia.
  rewrite <- take_take_drop, drop_drop.
  by replace (Z.to_nat lo + Z.to_nat (mid - lo))%nat with (Z.to_nat mid) by lia.
Qed.

Lemma slice_slice b lo hi lo' hi' :
  0 ≤ lo → 0 ≤ lo' → hi' ≤ hi - lo → slice (slice b lo hi) lo' hi' = slice b (lo + lo') (lo + hi').
Proof.
  intros. apply list_eq. intros i. rewrite !slice_lookup by lia.
  replace (lo + hi' - (lo + lo')) with (hi' - lo') by lia.
  destruct (Z.ltb_spec (Z.of_nat i) (hi' - lo')); [|done].
  replace (Z.of_nat (Z.to_nat lo' + i) <? hi - lo) with true by blia. f_equal. lia.
Qed.

(** Buffers that agree on a range agree on every range inside it. *)
Lemma slice_sub b b' lo hi lo' hi' :
  slice b lo hi = slice b' lo hi → 0 ≤ lo → lo ≤ lo' → hi' ≤ hi → slice b lo' hi' = slice b' lo' hi'.
Proof.
  intros Hs ? ? ?.
  pose proof (slice_slice b lo hi (lo' - lo) (hi' - lo) ltac:(lia) ltac:(lia) ltac:(lia)) as E.
  pose proof (slice_slice b' lo hi (lo' - lo) (hi' - lo) ltac:(lia) ltac:(lia) ltac:(lia)) as E'.
  rewrite Hs in E. replace (lo + (lo' - lo)) with lo' in * by lia.
  replace (lo + (hi' - lo)) with hi' in * by lia. congruence.
Qed.

Lemma slice_empty b lo hi : hi ≤ lo → slice b lo hi = [].
Proof. intros. unfold slice. by replace (Z.to_nat (hi - lo)) with 0%nat by lia. Qed.

Lemma slice_app_l b v lo hi : 0 ≤ lo → hi ≤ len b → slice (b ++ v) lo hi = slice b lo hi.
Proof.
  intros. apply slice_eq_lookup; [done|]. intros i ?. apply lookup_app_l. unfold len in *. lia.
Qed.

Lemma slice_app_r b v lo hi :
  len b ≤ lo → slice (b ++ v) lo hi = slice v (lo - len b) (hi - len b).
Proof.
  intros. pose proof (len_nonneg b). apply list_eq. intros i. rewrite !slice_lookup by lia.
  replace (hi - len b - (lo - len b)) with (hi - lo) by lia. case_match; [|done].
  rewrite lookup_app_r by (unfold len in *; lia). f_equal. unfold len in *. lia.
Qed.

(** Two buffers that agree on both sides of a cut agree. *)
Lemma eq_by_cut b b' lo mid hi :
  0 ≤ lo → lo ≤ mid → mid ≤ hi →
  slice b lo mid = slice b' lo mid → slice b mid hi = slice b' mid hi →
  slice b lo hi = slice b' lo hi.
Proof. intros. rewrite (slice_cut b lo mid hi), (slice_cut b' lo mid hi) by done. congruence. Qed.

Lemma eq_by_slices b b' n :
  len b = n → len b' = n → slice b 0 n = slice b' 0 n → b = b'.
Proof. intros <- Hl. rewrite slice_full. rewrite <- Hl. by rewrite slice_full. Qed.

Lemma put_put_same b lo v v' :
  0 ≤ lo → len v = len v' → lo + len v ≤ len b → put (put b lo v) lo v' = put b lo v'.
Proof.
  intros. apply list_eq. intros i.
  rewrite put_lookup by (rewrite ?len_put; lia). rewrite !put_lookup by lia.
  replace (len v') with (len v) by lia. by case_match.
Qed.

Lemma put_same b lo v : 0 ≤ lo → lo + len v ≤ len b → slice b lo (lo + len v) = v → put b lo v = b.
Proof.
  intros Hlo Hle Hs. apply list_eq. intros i. rewrite put_lookup by lia. case_match eqn:E; [|done].
  transitivity (slice b lo (lo + len v) !! (i - Z.to_nat lo)%nat); [by rewrite Hs|].
  rewrite slice_lookup by lia. bool_to_prop. decide_ifs. f_equal. lia.
Qed.
End Slices.

Lemma Forall_slice {A} (Q : A → Prop) b lo hi : Forall Q b → Forall Q (slice b lo hi).
Proof. intros. by apply Forall_take, Forall_drop. Qed.

Lemma Forall2_slice {A B} (Q : A → B → Prop) b c lo hi :
  Forall2 Q b c → Forall2 Q (slice b lo hi) (slice c lo hi).
Proof. intros. by apply Forall2_take, Forall2_drop. Qed.

Lemma slice_map {A B} (f : A → B) b lo hi : slice (map f b) lo hi = map f (slice b lo hi).
Proof. unfold slice. by rewrite skipn_map, firstn_map. Qed.

Lemma slice_sublist {A} (b : list A) lo hi : slice b lo hi `sublist_of` b.
Proof. etransitivity; [apply sublist_take | apply sublist_drop]. Qed.

Create Rewrite HintDb slices.
#[export] Hint Rewrite @len_app @len_nil @len_cons @len_put : slices.

(** ** Bytes and little-endian integers *)

#[export] Instance byte_eq_dec : EqDecision Init.Byte.byte.
Proof. intros x y. apply Strings.Byte.byte_eq_dec. Defined.

Definition zeros (n : Z) : list byte := replicate (Z.to_nat n) (byte.of_Z 0).

(** [uN::to_le_bytes] for a width of [n] bytes. *)
Definition le_bytes (n : nat) (z : Z) : list byte := le_split n z.

Definition all_zero (b : list byte) : bool := forallb (λ x, byte.unsigned x =? 0) b.

Lemma len_zeros n : 0 ≤ n → len (zeros n) = n.
Proof. apply len_replicate. Qed.

Lemma zeros_nonpos n : n ≤ 0 → zeros n = [].
Proof. intros. unfold zeros. by replace (Z.to_nat n) with 0%nat by lia. Qed.

Lemma len_le_bytes n z : len (le_bytes n z) = Z.of_nat n.
Proof. unfold len, le_bytes. by rewrite length_le_split. Qed.

#[export] Hint Rewrite len_le_bytes : slices.
#[export] Hint Rewrite len_zeros using lia : slices.

Lemma le_combine_bytes n z : fits (8 * Z.of_nat n) z → le_combine (le_bytes n z) = z.
Proof.
  intros [? ?]. unfold le_bytes. rewrite le_combine_split, Z.mul_comm. by apply Z.mod_small.
Qed.

Lemma le_bytes_combine n b : len b = Z.of_nat n → le_bytes n (le_combine b) = b.
Proof. unfold le_bytes, len. intros. apply split_le_combine'. lia. Qed.

Lemma le_combine_fits n b : len b = Z.of_nat n → fits (8 * Z.of_nat n) (le_combine b).
Proof. unfold len, fits. intros <-. apply le_combine_bound. Qed.

Lemma byte_zero x : (byte.unsigned x =? 0) = true → x = byte.of_Z 0.
Proof. intros H%Z.eqb_eq. apply byte.unsigned_inj. by rewrite H. Qed.

Lemma all_zero_iff b : all_zero b = true ↔ b = zeros (len b).
Proof.
  unfold all_zero, zeros, len. rewrite Nat2Z.id. induction b as [|x b IH]; [done|]. cbn.
  rewrite andb_true_iff, IH. split.
  - intros [->%byte_zero ->]. by rewrite length_replicate.
  - intros [= -> ->]. by rewrite length_replicate.
Qed.

Lemma slice_zeros n lo hi : 0 ≤ lo → lo ≤ hi → hi ≤ n → slice (zeros n) lo hi = zeros (hi - lo).
Proof.
  intros. unfold slice, zeros. rewrite drop_replicate, take_replicate. f_equal. lia.
Qed.

Lemma all_zero_zeros n : all_zero (zeros n) = true.
Proof.
  destruct (Z.leb_spec 0 n).
  - apply all_zero_iff. by rewrite len_zeros.
  - unfold zeros. by replace (Z.to_nat n) with 0%nat by lia.
Qed.

(** [slice_simpl] reads a slice of a buffer built by updates: it returns the
    update that covers the slice and skips the updates that miss it. *)
Ltac slice_side := autorewrite with slices; lia.
Ltac slice_simpl :=
  repeat first
    [ rewrite slice_put_same by slice_side
    | rewrite slice_put_l by slice_side
    | rewrite slice_put_r by slice_side
    | rewrite slice_zeros by lia ].

(** Buffers are reasoned about through the lemmas above; evaluation by
    [vm_compute] is not affected. *)
#[global] Opaque put slice zeros le_bytes.
