(* ===== verification/BtreeFormat.v ===== *)
(** The on-disk format of the version 3 B+Tree (backend/btree/src/v3/format.rs):
    the database header page, page headers with their checksums, slots and the
    internal preamble.  Encoders are compared with decoders in both directions:
    what is encoded decodes to the same value, and a page that decodes is the
    encoding of what it decodes to. *)

From S2P Require Import Prelude.

(** ** The checksum interface

    [crc32fast] is a third-party crate.  The storage engine uses it as a pure
    function from bytes to [u32]; feeding a hasher several chunks is hashing
    their concatenation. *)
Class Checksum := {
  crc32 : list byte → Z;
  crc32_u32 : ∀ b, is_u32 (crc32 b);
}.

Definition PAGE_SIZE : Z := 4096.
Definition PAGE_SIZE_U32 : Z := 4096.
Definition STORAGE_VERSION_V3 : Z := 3.
Definition MAX_ENCODED_KEY_LEN : Z := 2004.
Definition MAX_CELL_FOOTPRINT : Z := 2032.
Definition MAX_INLINE_STORED_VALUE : Z := 512.
Definition OVERFLOW_PAYLOAD_LEN : Z := 4056.
Definition MAGIC : list byte := [Byte.x42; Byte.x54; Byte.x52; Byte.x45].
Definition DATABASE_CHECKSUM_OFFSET : Z := 72.
Definition PAGE_CHECKSUM_OFFSET : Z := 24.
Definition DATABASE_METADATA_OFFSET : Z := 76.
Definition PAGE_HEADER_LEN : Z := 32.
Definition INTERNAL_PREAMBLE_LEN : Z := 8.
Definition SLOT_LEN : Z := 4.
Definition INTERNAL_CELL_PREFIX_LEN : Z := 12.
Definition LEAF_CELL_PREFIX_LEN : Z := 24.
Definition COMPRESSION_MIN_LENGTH : Z := 64.
Definition COMPRESSION_PERCENT : Z := 85.

(** ** Fields *)

Definition checked_end (offset length : Z) : io_result Z :=
  ok_or (checked_add offset length) (invalid_data "format offset overflow").

Definition bytes_at (N : Z) (bytes : list byte) (offset : Z) : io_result (list byte) :=
  end_ ← checked_end offset N;
  ok_or (get_range bytes offset end_) (invalid_data "truncated format field").

Definition write_at (bytes : list byte) (offset : Z) (value : list byte) : io_result (list byte) :=
  end_ ← checked_end offset (len value);
  _ ← ok_or (get_range bytes offset end_) (invalid_data "truncated format destination");
  Ok (put bytes offset value).

Definition read_u16 (bytes : list byte) (offset : Z) : io_result Z :=
  b ← bytes_at 2 bytes offset; Ok (le_combine b).
Definition read_u32 (bytes : list byte) (offset : Z) : io_result Z :=
  b ← bytes_at 4 bytes offset; Ok (le_combine b).
Definition read_u64 (bytes : list byte) (offset : Z) : io_result Z :=
  b ← bytes_at 8 bytes offset; Ok (le_combine b).
Definition read_u8 (bytes : list byte) (offset : Z) : io_result Z :=
  b ← bytes_at 1 bytes offset; Ok (le_combine b).

Definition require_zero (bytes : list byte) (message : string) : io_result unit :=
  if all_zero bytes then Ok tt else Err (invalid_data message).

Definition exact_page (bytes : list byte) : io_result unit :=
  if len bytes =? PAGE_SIZE then Ok tt else Err (invalid_data "page must be exactly 4096 bytes").

(** ** Database header *)

Inductive BPlusTreeMetadata :=
| MetadataEmpty
| TargetIdMapping (value : Z).

Record DatabaseHeader := {
  root_page_id : Z;
  next_page_id : Z;
  free_page_head : Z;
  generation : Z;
  database_id : list byte;
  metadata : BPlusTreeMetadata;
}.

#[export] Instance BPlusTreeMetadata_eq_dec : EqDecision BPlusTreeMetadata.
Proof. solve_decision. Defined.
#[export] Instance DatabaseHeader_eq_dec : EqDecision DatabaseHeader.
Proof. solve_decision. Defined.

Definition validate_database_header (header : DatabaseHeader) : io_result unit :=
  if (root_page_id header =? 0) || (next_page_id header <=? root_page_id header)
  then Err (invalid_data "invalid root page id")
  else if negb (free_page_head header =? 0)
          && ((next_page_id header <=? free_page_head header)
              || (free_page_head header =? root_page_id header))
  then Err (invalid_data "invalid free page head")
  else if generation header =? 0
  then Err (invalid_data "generation must be nonzero")
  else if all_zero (database_id header)
  then Err (invalid_data "database identity must be nonzero")
  else Ok tt.

(** ** Page headers *)

Inductive PageType := Leaf | Internal | Overflow | Free.

#[export] Instance PageType_eq_dec : EqDecision PageType.
Proof. solve_decision. Defined.

Definition page_type_u8 (t : PageType) : Z :=
  match t with Leaf => 1 | Internal => 2 | Overflow => 3 | Free => 4 end.

Definition page_type_try_from (value : Z) : io_result PageType :=
  if value =? 1 then Ok Leaf
  else if value =? 2 then Ok Internal
  else if value =? 3 then Ok Overflow
  else if value =? 4 then Ok Free
  else Err (invalid_data "unknown page type").

Definition validate_page_id (page_id next_page_id : Z) (kind : error_kind) : io_result unit :=
  if negb (page_id =? 0) && (page_id <? next_page_id) then Ok tt
  else Err (IoError kind "invalid page id bounds").

Definition validate_reference (reference page_id next_page_id : Z) (kind : error_kind)
    : io_result unit :=
  if (reference =? 0) || ((reference <? next_page_id) && negb (reference =? page_id)) then Ok tt
  else Err (IoError kind "invalid page reference").

Definition expected_slot_end (base cell_count : Z) (kind : error_kind) : io_result Z :=
  slots ← ok_or (checked_mul cell_count SLOT_LEN) (IoError kind "slot directory size overflow");
  end_ ← ok_or (checked_add base slots) (IoError kind "slot directory offset overflow");
  ok_or (try_fit 16 end_) (IoError kind "slot directory exceeds page").

Record PageHeader := {
  page_type : PageType;
  cell_count : Z;
  free_start : Z;
  free_end : Z;
  left : Z;
  right : Z;
}.

#[export] Instance PageHeader_eq_dec : EqDecision PageHeader.
Proof. solve_decision. Defined.

Definition page_header_validate (h : PageHeader) (page_id next_page_id : Z) (kind : error_kind)
    : io_result unit :=
  _ ← validate_page_id page_id next_page_id kind;
  match page_type h with
  | Leaf =>
      slot_end ← expected_slot_end PAGE_HEADER_LEN (cell_count h) kind;
      if negb (free_start h =? slot_end) then Err (IoError kind "invalid leaf free_start")
      else
        _ ← (if cell_count h =? 0
             then if negb (free_end h =? PAGE_SIZE)
                  then Err (IoError kind "invalid empty leaf free_end") else Ok tt
             else if (free_end h <? free_start h) || (PAGE_SIZE <=? free_end h)
                  then Err (IoError kind "invalid leaf free_end") else Ok tt);
        _ ← validate_reference (left h) page_id next_page_id kind;
        validate_reference (right h) page_id next_page_id kind
  | Internal =>
      if cell_count h =? 0 then Err (IoError kind "invalid internal page header")
      else
        slot_end ← expected_slot_end (PAGE_HEADER_LEN + INTERNAL_PREAMBLE_LEN) (cell_count h) kind;
        if negb (free_start h =? slot_end)
           || (free_end h <? free_start h)
           || (PAGE_SIZE <=? free_end h)
           || negb (left h =? 0)
           || negb (right h =? 0)
        then Err (IoError kind "invalid internal page header")
        else Ok tt
  | Overflow | Free =>
      if negb (cell_count h =? 0) || negb (free_start h =? 0) || negb (free_end h =? 0)
         || negb (left h =? 0)
      then Err (IoError kind "invalid chain page header")
      else validate_reference (right h) page_id next_page_id kind
  end.

Record Slot := { slot_offset : Z; slot_length : Z }.

#[export] Instance Slot_eq_dec : EqDecision Slot.
Proof. solve_decision. Defined.

Definition slot_encode (s : Slot) : list byte :=
  le_bytes 2 (slot_offset s) ++ le_bytes 2 (slot_length s).

Definition slot_decode (bytes : list byte) : io_result Slot :=
  if negb (len bytes =? SLOT_LEN) then Err (invalid_data "invalid slot length")
  else
    offset ← read_u16 bytes 0;
    length ← read_u16 bytes 2;
    Ok {| slot_offset := offset; slot_length := length |}.

Record InternalPreamble := { leftmost_child : Z }.

Definition internal_preamble_encode_into (p : InternalPreamble) (page : list byte)
    (page_id next_page_id : Z) : io_result (list byte) :=
  _ ← exact_page page;
  if leftmost_child p =? 0 then Err (invalid_input "internal leftmost child must be nonzero")
  else
    _ ← validate_reference (leftmost_child p) page_id next_page_id InvalidInput;
    write_at page PAGE_HEADER_LEN (le_bytes 8 (leftmost_child p)).

Definition internal_preamble_decode (page : list byte) (page_id next_page_id : Z)
    : io_result InternalPreamble :=
  _ ← exact_page page;
  child ← read_u64 page PAGE_HEADER_LEN;
  if child =? 0 then Err (invalid_data "internal leftmost child must be nonzero")
  else
    _ ← validate_reference child page_id next_page_id InvalidData;
    Ok {| leftmost_child := child |}.

(** [page[lo..].fill(0)]. *)
Definition fill_zero_from (page : list byte) (lo : Z) : option (list byte) :=
  match get_range page lo (len page) with
  | Some tail => Some (put page lo (zeros (len tail)))
  | None => None
  end.

Record OverflowHeader := { payload_length : Z }.

Definition overflow_header_encode_into (h : OverflowHeader) (page : list byte)
    : io_result (list byte) :=
  _ ← exact_page page;
  if OVERFLOW_PAYLOAD_LEN <? payload_length h then Err (invalid_input "overflow payload is too large")
  else
    page ← write_at page PAGE_HEADER_LEN (le_bytes 2 (payload_length h));
    page ← write_at page (PAGE_HEADER_LEN + 2) (zeros 6);
    tail_start ← checked_end 40 (payload_length h);
    ok_or (fill_zero_from page tail_start) (invalid_data "overflow payload exceeds page").

Definition overflow_header_decode (page : list byte) : io_result OverflowHeader :=
  _ ← exact_page page;
  payload ← read_u16 page PAGE_HEADER_LEN;
  if OVERFLOW_PAYLOAD_LEN <? payload then Err (invalid_data "overflow payload is too large")
  else
    reserved ← ok_or (get_range page 34 40) (invalid_data "missing overflow reserved bytes");
    _ ← require_zero reserved "overflow reserved bytes must be zero";
    tail_start ← checked_end 40 payload;
    tail ← ok_or (get_range page tail_start (len page)) (invalid_data "overflow payload exceeds page");
    _ ← require_zero tail "overflow page tail must be zero";
    Ok {| payload_length := payload |}.

Definition encode_free_body (page : list byte) : io_result (list byte) :=
  _ ← exact_page page;
  ok_or (fill_zero_from page PAGE_HEADER_LEN) (invalid_data "missing free page body").

Definition validate_free_body (page : list byte) : io_result unit :=
  _ ← exact_page page;
  body ← ok_or (get_range page PAGE_HEADER_LEN (len page)) (invalid_data "missing free page body");
  require_zero body "free page body must be zero".

(** ** Checksummed pages *)

Section Checksummed.
Context {CK : Checksum}.

Definition checksum_with_zeroed_field (page : list byte) (offset : Z) : io_result Z :=
  _ ← exact_page page;
  checksum_end ← checked_end offset 4;
  before ← ok_or (get_range page 0 offset) (invalid_data "missing checksum prefix");
  after ← ok_or (get_range page checksum_end (len page)) (invalid_data "missing checksum suffix");
  Ok (crc32 (before ++ zeros 4 ++ after)).

Definition write_checksum (page : list byte) (offset : Z) : io_result (list byte) :=
  _ ← exact_page page;
  page ← write_at page offset (zeros 4);
  checksum ← checksum_with_zeroed_field page offset;
  write_at page offset (le_bytes 4 checksum).

Definition verify_checksum (page : list byte) (offset : Z) : io_result unit :=
  stored ← read_u32 page offset;
  computed ← checksum_with_zeroed_field page offset;
  if stored =? computed then Ok tt else Err (invalid_data "page checksum mismatch").

Definition write_page_checksum (page : list byte) : io_result (list byte) :=
  write_checksum page PAGE_CHECKSUM_OFFSET.

Definition verify_page_checksum (page : list byte) : io_result unit :=
  verify_checksum page PAGE_CHECKSUM_OFFSET.

Definition database_header_encode (h : DatabaseHeader) : io_result (list byte) :=
  _ ← validate_database_header h;
  let page := zeros PAGE_SIZE in
  page ← write_at page 0 MAGIC;
  page ← write_at page 4 (le_bytes 4 STORAGE_VERSION_V3);
  page ← write_at page 8 (le_bytes 4 PAGE_SIZE_U32);
  page ← write_at page 16 (le_bytes 8 (root_page_id h));
  page ← write_at page 24 (le_bytes 8 (next_page_id h));
  page ← write_at page 32 (le_bytes 8 (free_page_head h));
  page ← write_at page 40 (le_bytes 8 (generation h));
  page ← write_at page 48 (database_id h);
  page ← match metadata h with
         | MetadataEmpty => Ok page
         | TargetIdMapping value =>
             page ← write_at page 64 (le_bytes 4 5);
             page ← write_at page DATABASE_METADATA_OFFSET (le_bytes 1 1);
             write_at page (DATABASE_METADATA_OFFSET + 1) (le_bytes 4 value)
         end;
  write_checksum page DATABASE_CHECKSUM_OFFSET.

Definition database_header_decode (page : list byte) : io_result DatabaseHeader :=
  _ ← exact_page page;
  magic ← bytes_at 4 page 0;
  if negb (bool_decide (magic = MAGIC)) then Err (invalid_data "invalid database magic") else
  version ← read_u32 page 4;
  if negb (version =? STORAGE_VERSION_V3) then Err (invalid_data "unsupported storage version") else
  page_size ← read_u32 page 8;
  if negb (page_size =? PAGE_SIZE_U32) then Err (invalid_data "invalid page size") else
  flags ← read_u32 page 12;
  if negb (flags =? 0) then Err (invalid_data "unknown database feature flags") else
  reserved ← ok_or (get_range page 68 72) (invalid_data "missing database reserved bytes");
  _ ← require_zero reserved "database reserved bytes must be zero";
  _ ← verify_checksum page DATABASE_CHECKSUM_OFFSET;
  metadata_length ← read_u32 page 64;
  meta ← (if metadata_length =? 0 then Ok MetadataEmpty
          else if metadata_length =? 5 then
            encoded ← bytes_at 5 page DATABASE_METADATA_OFFSET;
            if negb (le_combine (slice encoded 0 1) =? 1)
            then Err (invalid_data "unknown metadata tag")
            else Ok (TargetIdMapping (le_combine (slice encoded 1 5)))
          else Err (invalid_data "invalid metadata length"));
  tail_start ← checked_end DATABASE_METADATA_OFFSET metadata_length;
  tail ← ok_or (get_range page tail_start (len page)) (invalid_data "metadata extends beyond header");
  _ ← require_zero tail "database header tail must be zero";
  root ← read_u64 page 16;
  next ← read_u64 page 24;
  free ← read_u64 page 32;
  gen ← read_u64 page 40;
  identity ← bytes_at 16 page 48;
  let header := {| root_page_id := root; next_page_id := next; free_page_head := free;
                   generation := gen; database_id := identity; metadata := meta |} in
  _ ← validate_database_header header;
  Ok header.

Definition page_header_encode_into (h : PageHeader) (page : list byte) (page_id next_page_id : Z)
    : io_result (list byte) :=
  _ ← exact_page page;
  _ ← page_header_validate h page_id next_page_id InvalidInput;
  page ← write_at page 0 (le_bytes 1 (page_type_u8 (page_type h)));
  page ← write_at page 1 (zeros 1);
  page ← write_at page 2 (le_bytes 2 (cell_count h));
  page ← write_at page 4 (le_bytes 2 (free_start h));
  page ← write_at page 6 (le_bytes 2 (free_end h));
  page ← write_at page 8 (le_bytes 8 (left h));
  page ← write_at page 16 (le_bytes 8 (right h));
  page ← write_at page 28 (zeros 4);
  write_page_checksum page.

Definition page_header_decode (page : list byte) (page_id next_page_id : Z)
    : io_result PageHeader :=
  _ ← exact_page page;
  _ ← verify_page_checksum page;
  tag ← read_u8 page 0;
  ty ← page_type_try_from tag;
  flags ← read_u8 page 1;
  if negb (flags =? 0) then Err (invalid_data "unknown page flags") else
  reserved ← ok_or (get_range page 28 32) (invalid_data "missing page reserved bytes");
  _ ← require_zero reserved "page reserved bytes must be zero";
  count ← read_u16 page 2;
  start ← read_u16 page 4;
  end_ ← read_u16 page 6;
  l ← read_u64 page 8;
  r ← read_u64 page 16;
  let header := {| page_type := ty; cell_count := count; free_start := start;
                   free_end := end_; left := l; right := r |} in
  _ ← page_header_validate header page_id next_page_id InvalidData;
  Ok header.
End Checksummed.

(** ** Field access lemmas *)

Lemma checked_end_ok offset length :
  offset + length < 2 ^ 64 → checked_end offset length = Ok (offset + length).
Proof. intros. unfold checked_end. by rewrite checked_add_small. Qed.

Lemma bytes_at_ok N bytes offset :
  0 ≤ offset → 0 ≤ N → offset + N ≤ len bytes → offset + N < 2 ^ 64 →
  bytes_at N bytes offset = Ok (slice bytes offset (offset + N)).
Proof.
  intros. unfold bytes_at. rewrite checked_end_ok by lia. cbn. by rewrite get_range_some by lia.
Qed.

Lemma bytes_at_inv N bytes offset s :
  bytes_at N bytes offset = Ok s →
  s = slice bytes offset (offset + N) ∧ 0 ≤ offset ≤ offset + N ∧ offset + N ≤ len bytes.
Proof.
  unfold bytes_at, checked_end. intros H. bind_inv.
  match goal with H : checked_add _ _ = Some _ |- _ => apply checked_add_inv in H as [-> ?] end.
  match goal with H : get_range _ _ _ = Some _ |- _ => apply get_range_inv in H end. done.
Qed.

Lemma write_at_ok bytes offset value :
  0 ≤ offset → offset + len value ≤ len bytes → offset + len value < 2 ^ 64 →
  write_at bytes offset value = Ok (put bytes offset value).
Proof.
  intros. pose proof (len_nonneg value). unfold write_at.
  rewrite checked_end_ok by lia. cbn. by rewrite get_range_some by lia.
Qed.

Lemma write_at_inv bytes offset value b :
  write_at bytes offset value = Ok b →
  b = put bytes offset value ∧ 0 ≤ offset ∧ offset + len value ≤ len bytes.
Proof.
  unfold write_at, checked_end. intros H. bind_inv.
  match goal with H : checked_add _ _ = Some _ |- _ => apply checked_add_inv in H as [-> ?] end.
  match goal with H : get_range _ _ _ = Some _ |- _ => apply get_range_inv in H end. intuition.
Qed.

Lemma read_ok bytes offset n :
  0 ≤ offset → offset + Z.of_nat n ≤ len bytes → offset + Z.of_nat n < 2 ^ 64 →
  (b ← bytes_at (Z.of_nat n) bytes offset; Ok (le_combine b) : io_result Z)
  = Ok (le_combine (slice bytes offset (offset + Z.of_nat n))).
Proof. intros. by rewrite bytes_at_ok by lia. Qed.

(** A field that reads as [z] holds the little-endian bytes of [z], which fits. *)
Lemma read_inv bytes offset n z :
  (b ← bytes_at (Z.of_nat n) bytes offset; Ok (le_combine b) : io_result Z) = Ok z →
  slice bytes offset (offset + Z.of_nat n) = le_bytes n z ∧ fits (8 * Z.of_nat n) z.
Proof.
  intros H. bind_inv. apply bytes_at_inv in H0 as (-> & ? & ?).
  pose proof (len_slice bytes offset (offset + Z.of_nat n) ltac:(lia) ltac:(lia) ltac:(lia)).
  rewrite le_bytes_combine by lia. split; [done|]. apply le_combine_fits. lia.
Qed.

(** ... and conversely. *)
Lemma read_field bytes offset n z :
  0 ≤ offset → offset + Z.of_nat n ≤ len bytes → offset + Z.of_nat n < 2 ^ 64 →
  fits (8 * Z.of_nat n) z → slice bytes offset (offset + Z.of_nat n) = le_bytes n z →
  (b ← bytes_at (Z.of_nat n) bytes offset; Ok (le_combine b) : io_result Z) = Ok z.
Proof. intros ? ? ? ? Hs. rewrite read_ok by done. by rewrite Hs, le_combine_bytes. Qed.

Lemma require_zero_inv b m u : require_zero b m = Ok u → b = zeros (len b).
Proof. unfold require_zero. intros H. bind_inv. by apply all_zero_iff. Qed.

Lemma require_zero_zeros n m : require_zero (zeros n) m = Ok tt.
Proof. unfold require_zero. by rewrite all_zero_zeros. Qed.

Lemma exact_page_inv b u : exact_page b = Ok u → len b = PAGE_SIZE.
Proof. unfold exact_page. intros H. bind_inv. lia. Qed.

Lemma exact_page_ok b : len b = PAGE_SIZE → exact_page b = Ok tt.
Proof. intros Hb. unfold exact_page. by rewrite Hb, Z.eqb_refl. Qed.

Lemma validate_reference_kind r p n k k' :
  validate_reference r p n k = Ok tt → validate_reference r p n k' = Ok tt.
Proof. unfold validate_reference. by case_match. Qed.

(** Reading a field of width [n] in a hypothesis, a goal. *)
Ltac field_inv :=
  repeat match goal with
  | H : read_u8 _ _ = Ok _ |- _ => apply (read_inv _ _ 1) in H as [? ?]
  | H : read_u16 _ _ = Ok _ |- _ => apply (read_inv _ _ 2) in H as [? ?]
  | H : read_u32 _ _ = Ok _ |- _ => apply (read_inv _ _ 4) in H as [? ?]
  | H : read_u64 _ _ = Ok _ |- _ => apply (read_inv _ _ 8) in H as [? ?]
  | H : bytes_at _ _ _ = Ok _ |- _ => apply bytes_at_inv in H as (? & ? & ?)
  | H : write_at _ _ _ = Ok _ |- _ => apply write_at_inv in H as (? & ? & ?)
  | H : exact_page _ = Ok _ |- _ => apply exact_page_inv in H
  | H : require_zero _ _ = Ok _ |- _ => apply require_zero_inv in H
  | H : get_range _ _ _ = Some _ |- _ => apply get_range_inv in H as (? & ? & ?)
  | H : checked_end _ _ = Ok _ |- _ => unfold checked_end in H; bind_inv
  | H : checked_add _ _ = Some _ |- _ => apply checked_add_inv in H as [? ?]
  | H : checked_mul _ _ = Some _ |- _ => apply checked_mul_inv in H as [? ?]
  | H : checked_sub _ _ = Some _ |- _ => apply checked_sub_inv in H as [? ?]
  | H : try_fit _ _ = Some _ |- _ => apply try_fit_inv in H as [? ?]
  end.

(** ** Checksum field *)

Section ChecksumField.
Context {CK : Checksum}.

(** The contents of the checksum field at [offset]: the CRC of the page with
    that field zeroed. *)
Definition checksum_field (page : list byte) (offset : Z) : list byte :=
  le_bytes 4 (crc32 (slice page 0 offset ++ zeros 4 ++ slice page (offset + 4) PAGE_SIZE)).

Definition checksummed (page : list byte) (offset : Z) : Prop :=
  slice page offset (offset + 4) = checksum_field page offset.

Lemma checksum_with_zeroed_field_ok page offset :
  len page = PAGE_SIZE → 0 ≤ offset → offset + 4 ≤ PAGE_SIZE →
  checksum_with_zeroed_field page offset =
    Ok (crc32 (slice page 0 offset ++ zeros 4 ++ slice page (offset + 4) PAGE_SIZE)).
Proof.
  intros Hl ? ?. assert (PAGE_SIZE = 4096) by done. unfold checksum_with_zeroed_field.
  rewrite exact_page_ok by done. cbn [mbind result_bind]. rewrite checked_end_ok by lia.
  cbn [mbind result_bind]. rewrite !get_range_some by lia. cbn. by rewrite Hl.
Qed.

Lemma len_checksum_field page offset : len (checksum_field page offset) = 4.
Proof. apply len_le_bytes. Qed.

Lemma checksum_field_ext page page' offset :
  slice page 0 offset = slice page' 0 offset →
  slice page (offset + 4) PAGE_SIZE = slice page' (offset + 4) PAGE_SIZE →
  checksum_field page offset = checksum_field page' offset.
Proof. unfold checksum_field. by intros -> ->. Qed.

Lemma write_checksum_ok page offset :
  len page = PAGE_SIZE → 0 ≤ offset → offset + 4 ≤ PAGE_SIZE →
  write_checksum page offset = Ok (put page offset (checksum_field page offset)).
Proof.
  intros Hl ? ?. assert (PAGE_SIZE = 4096) by done.
  assert (len (zeros 4) = 4) as Hz by done.
  unfold write_checksum. rewrite exact_page_ok by done. cbn [mbind result_bind].
  rewrite write_at_ok by lia. cbn [mbind result_bind].
  rewrite checksum_with_zeroed_field_ok by (rewrite ?len_put; lia). cbn [mbind result_bind].
  rewrite slice_put_l, slice_put_r by lia.
  rewrite write_at_ok by (rewrite ?len_put; rewrite ?len_le_bytes; lia).
  f_equal. apply put_put_same; rewrite ?len_checksum_field, ?len_le_bytes; lia.
Qed.

Lemma checksummed_put page offset :
  len page = PAGE_SIZE → 0 ≤ offset → offset + 4 ≤ PAGE_SIZE →
  checksummed (put page offset (checksum_field page offset)) offset.
Proof.
  intros. unfold checksummed. pose proof (len_checksum_field page offset).
  rewrite slice_put_same by lia.
  apply checksum_field_ext; [rewrite slice_put_l | rewrite slice_put_r]; by try lia.
Qed.

Lemma verify_checksum_iff page offset :
  len page = PAGE_SIZE → 0 ≤ offset → offset + 4 ≤ PAGE_SIZE →
  verify_checksum page offset = Ok tt ↔ checksummed page offset.
Proof.
  intros Hl ? ?. assert (PAGE_SIZE = 4096) by done. unfold verify_checksum, checksummed.
  rewrite checksum_with_zeroed_field_ok by done. unfold read_u32.
  rewrite (read_ok _ _ 4) by lia. cbn [mbind result_bind].
  change (Z.of_nat 4) with 4. unfold checksum_field. split.
  - intros. bind_inv. apply Z.eqb_eq in Hc. rewrite <- Hc, le_bytes_combine; [done|].
    rewrite len_slice; lia.
  - intros ->. rewrite le_combine_bytes by apply crc32_u32. by rewrite Z.eqb_refl.
Qed.
End ChecksumField.

(** ** Layout of the database header page

    [database_layout h p] is the format specification: which bytes of the page
    hold which field.  [encode] produces the one page with this layout and
    [decode] accepts exactly the pages with this layout. *)

Definition metadata_length_of (m : BPlusTreeMetadata) : Z :=
  match m with MetadataEmpty => 0 | TargetIdMapping _ => 5 end.

Definition metadata_body (m : BPlusTreeMetadata) : list byte :=
  match m with
  | MetadataEmpty => []
  | TargetIdMapping v => le_bytes 1 1 ++ le_bytes 4 v
  end.

Definition metadata_wf (m : BPlusTreeMetadata) : Prop :=
  match m with MetadataEmpty => True | TargetIdMapping v => is_u32 v end.

(** The field widths the Rust types give. *)
Record database_header_wf (h : DatabaseHeader) : Prop := {
  wf_root : is_u64 (root_page_id h);
  wf_next : is_u64 (next_page_id h);
  wf_free : is_u64 (free_page_head h);
  wf_generation : is_u64 (generation h);
  wf_database_id : len (database_id h) = 16;
  wf_metadata : metadata_wf (metadata h);
}.

Section DatabaseLayout.
Context {CK : Checksum}.

Record database_layout (h : DatabaseHeader) (p : list byte) : Prop := {
  dl_len : len p = PAGE_SIZE;
  dl_magic : slice p 0 4 = MAGIC;
  dl_version : slice p 4 8 = le_bytes 4 STORAGE_VERSION_V3;
  dl_page_size : slice p 8 12 = le_bytes 4 PAGE_SIZE_U32;
  dl_flags : slice p 12 16 = zeros 4;
  dl_root : slice p 16 24 = le_bytes 8 (root_page_id h);
  dl_next : slice p 24 32 = le_bytes 8 (next_page_id h);
  dl_free : slice p 32 40 = le_bytes 8 (free_page_head h);
  dl_generation : slice p 40 48 = le_bytes 8 (generation h);
  dl_database_id : slice p 48 64 = database_id h;
  dl_metadata_length : slice p 64 68 = le_bytes 4 (metadata_length_of (metadata h));
  dl_reserved : slice p 68 72 = zeros 4;
  dl_checksum : checksummed p 72;
  dl_metadata : slice p 76 (76 + metadata_length_of (metadata h)) = metadata_body (metadata h);
  dl_tail : slice p (76 + metadata_length_of (metadata h)) PAGE_SIZE
            = zeros (PAGE_SIZE - (76 + metadata_length_of (metadata h)));
}.

(** The layout determines the page. *)
Lemma database_layout_unique h p p' :
  database_layout h p → database_layout h p' → p = p'.
Proof.
  intros L L'. apply (eq_by_slices _ _ PAGE_SIZE); [apply L | apply L' |].
  assert (PAGE_SIZE = 4096) as HP by done.
  assert (0 ≤ metadata_length_of (metadata h) ≤ 5) as Hm by (destruct (metadata h); cbn; lia).
  assert (slice p 0 72 = slice p' 0 72) as Hpre.
  { apply (eq_by_cut _ _ _ 4); [lia..| by rewrite (dl_magic _ _ L), (dl_magic _ _ L')|].
    apply (eq_by_cut _ _ _ 8); [lia..| by rewrite (dl_version _ _ L), (dl_version _ _ L')|].
    apply (eq_by_cut _ _ _ 12); [lia..| by rewrite (dl_page_size _ _ L), (dl_page_size _ _ L')|].
    apply (eq_by_cut _ _ _ 16); [lia..| by rewrite (dl_flags _ _ L), (dl_flags _ _ L')|].
    apply (eq_by_cut _ _ _ 24); [lia..| by rewrite (dl_root _ _ L), (dl_root _ _ L')|].
    apply (eq_by_cut _ _ _ 32); [lia..| by rewrite (dl_next _ _ L), (dl_next _ _ L')|].
    apply (eq_by_cut _ _ _ 40); [lia..| by rewrite (dl_free _ _ L), (dl_free _ _ L')|].
    apply (eq_by_cut _ _ _ 48); [lia..| by rewrite (dl_generation _ _ L), (dl_generation _ _ L')|].
    apply (eq_by_cut _ _ _ 64); [lia..| by rewrite (dl_database_id _ _ L), (dl_database_id _ _ L')|].
    apply (eq_by_cut _ _ _ 68);
      [lia..| by rewrite (dl_metadata_length _ _ L), (dl_metadata_length _ _ L')|].
    by rewrite (dl_reserved _ _ L), (dl_reserved _ _ L'). }
  assert (slice p 76 PAGE_SIZE = slice p' 76 PAGE_SIZE) as Hpost.
  { apply (eq_by_cut _ _ _ (76 + metadata_length_of (metadata h))); [lia..| |].
    - by rewrite (dl_metadata _ _ L), (dl_metadata _ _ L').
    - by rewrite (dl_tail _ _ L), (dl_tail _ _ L'). }
  apply (eq_by_cut _ _ _ 72); [lia..|done|].
  apply (eq_by_cut _ _ _ 76); [lia..| |done].
  pose proof (dl_checksum _ _ L) as C; pose proof (dl_checksum _ _ L') as C'.
  etransitivity; [exact C|]. etransitivity; [|symmetry; exact C']. by apply checksum_field_ext.
Qed.

(** A valid header encodes, to a page with its layout. *)
Lemma database_header_encode_layout h :
  database_header_wf h → validate_database_header h = Ok tt →
  ∃ p, database_header_encode h = Ok p ∧ database_layout h p.
Proof.
  intros W V. assert (PAGE_SIZE = 4096) as HP by done.
  pose proof (wf_database_id _ W) as Hid.
  unfold database_header_encode. rewrite V. rewrite ?bind_ok.
  repeat (rewrite write_at_ok by (unfold MAGIC, PAGE_SIZE in *; slice_side); rewrite ?bind_ok).
  unfold DATABASE_METADATA_OFFSET, DATABASE_CHECKSUM_OFFSET.
  destruct (metadata h) as [|v] eqn:Hm; rewrite ?bind_ok.
  all: repeat (rewrite write_at_ok by (unfold MAGIC, PAGE_SIZE in *; slice_side); rewrite ?bind_ok).
  all: rewrite write_checksum_ok by (unfold MAGIC, PAGE_SIZE in *; slice_side).
  all: eexists; split; [reflexivity|].
  all: match goal with |- database_layout _ (put ?b _ _) =>
         assert (len b = PAGE_SIZE) as Hb by (unfold MAGIC, PAGE_SIZE in *; slice_side);
         pose proof (len_checksum_field b 72) as Hcl; pose proof (checksummed_put b 72 Hb) as Hck;
         set (ck := checksum_field b 72) in *; clearbody ck; clear Hb end.
  all: constructor; rewrite ?Hm; cbn [metadata_length_of metadata_body].
  all: try (apply Hck; lia).
  all: clear Hck.
  all: rewrite HP in *.
  all: try slice_side.
  all: slice_simpl.
  all: try reflexivity.
  rewrite (slice_cut _ 76 77) by lia. slice_simpl. reflexivity.
Qed.

Lemma metadata_decode_inv p n m :
  81 ≤ len p →
  (if n =? 0 then Ok MetadataEmpty
   else if n =? 5 then
     encoded ← bytes_at 5 p 76;
     if negb (le_combine (slice encoded 0 1) =? 1)
     then Err (invalid_data "unknown metadata tag")
     else Ok (TargetIdMapping (le_combine (slice encoded 1 5)))
   else Err (invalid_data "invalid metadata length")) = Ok m →
  metadata_wf m ∧ n = metadata_length_of m ∧
  slice p 76 (76 + metadata_length_of m) = metadata_body m.
Proof.
  intros Hl H. destruct (Z.eqb_spec n 0) as [->|_].
  { bind_inv. cbn. rewrite slice_empty by lia. done. }
  destruct (Z.eqb_spec n 5) as [->|_]; [|done]. bind_inv. field_inv. subst.
  bool_to_prop. rewrite !slice_slice in * by lia. change (76 + 0) with 76 in *; change (76 + 1) with 77 in *; change (76 + 5) with 81 in *.
  pose proof (len_slice p 76 77 ltac:(lia) ltac:(lia) ltac:(lia)).
  pose proof (len_slice p 77 81 ltac:(lia) ltac:(lia) ltac:(lia)). cbn [metadata_wf metadata_length_of metadata_body].
  split; [by apply (le_combine_fits 4)|]. split; [done|]. change (76 + 5) with 81.
  rewrite le_bytes_combine by lia. rewrite <- Hc, le_bytes_combine by lia.
  apply slice_cut; lia.
Qed.

Lemma metadata_decode_ok p m :
  81 ≤ len p → metadata_wf m →
  slice p 76 (76 + metadata_length_of m) = metadata_body m →
  (if metadata_length_of m =? 0 then Ok MetadataEmpty
   else if metadata_length_of m =? 5 then
     encoded ← bytes_at 5 p 76;
     if negb (le_combine (slice encoded 0 1) =? 1)
     then Err (invalid_data "unknown metadata tag")
     else Ok (TargetIdMapping (le_combine (slice encoded 1 5)))
   else Err (invalid_data "invalid metadata length")) = Ok m.
Proof.
  intros Hl Hwf Hs. destruct m as [|v]; [done|].
  apply skip_guard; [done|]. apply take_guard; [done|].
  eapply bind_step; [apply bytes_at_ok; lia|].
  cbn [metadata_length_of metadata_body metadata_wf] in *. rewrite Hs.
  rewrite slice_app_l, slice_app_r by slice_side.
  rewrite !slice_all by slice_side. rewrite (le_combine_bytes 1), (le_combine_bytes 4); done.
Qed.

(** The decoder accepts a page exactly when it has the layout of the header
    it returns, and that header is valid. *)
Lemma database_header_decode_layout h p :
  database_header_decode p = Ok h →
  database_layout h p ∧ database_header_wf h ∧ validate_database_header h = Ok tt.
Proof.
  unfold database_header_decode. intros H. bind_inv. field_inv.
  match goal with H : verify_checksum _ _ = Ok _ |- _ =>
    apply verify_checksum_iff in H; [|unfold DATABASE_CHECKSUM_OFFSET, PAGE_SIZE in *; lia..] end.
  bool_to_prop. subst.
  assert (PAGE_SIZE = 4096) as HP by done.
  assert (DATABASE_METADATA_OFFSET = 76) as HM by done. rewrite HM in *.
  match goal with H : (if _ then Ok MetadataEmpty else _) = Ok ?m |- _ =>
    assert (metadata_wf m ∧ x7 = metadata_length_of m ∧
            slice p 76 (76 + metadata_length_of m) = metadata_body m) as (Hwf & Hlen & Hbody) end.
  { apply metadata_decode_inv; [lia | done]. }
  subst x7. repeat match goal with H : slice p ?a (?a + _) = _ |- _ => progress cbn [Z.add] in H end.
  split_and!; [|constructor; cbn; try done|done].
  - constructor; cbn [metadata root_page_id next_page_id free_page_head generation database_id];
      try done.
    + by apply bool_decide_eq_true in Hc.
    + by rewrite len_slice in * by lia.
    + rewrite H0 in *. by rewrite len_slice in * by lia.
  - by rewrite len_slice by lia.
Qed.

Lemma database_layout_decode h p :
  database_layout h p → database_header_wf h → validate_database_header h = Ok tt →
  database_header_decode p = Ok h.
Proof.
  intros [] [] V. assert (PAGE_SIZE = 4096) as HP by done. unfold database_header_decode.
  eapply bind_step; [by apply exact_page_ok|].
  eapply bind_step; [apply bytes_at_ok; lia|].
  apply skip_guard; [change (0 + 4) with 4; by rewrite dl_magic0, bool_decide_eq_true_2|].
  eapply bind_step; [eapply (read_field _ _ 4); [lia..| |eassumption]; done|].
  apply skip_guard; [done|].
  eapply bind_step; [eapply (read_field _ _ 4); [lia..| |eassumption]; done|].
  apply skip_guard; [done|].
  eapply bind_step; [eapply (read_field _ _ 4 0); [lia..| |eassumption]; done|].
  apply skip_guard; [done|].
  eapply bind_step; [by rewrite get_range_some by lia|].
  eapply bind_step; [rewrite dl_reserved0; apply require_zero_zeros|].
  eapply bind_step; [by apply verify_checksum_iff; try done; try lia|].
  assert (0 ≤ metadata_length_of (metadata h) ≤ 5) as Hm by (destruct (metadata h); cbn; lia).
  eapply bind_step; [eapply (read_field _ _ 4); [lia..| |eassumption]; unfold fits; lia|].
  eapply bind_step; [by apply metadata_decode_ok; try done; lia|].
  eapply bind_step; [apply checked_end_ok; unfold DATABASE_METADATA_OFFSET; lia|].
  eapply bind_step; [rewrite get_range_some by (unfold DATABASE_METADATA_OFFSET; lia); done|].
  eapply bind_step; [change DATABASE_METADATA_OFFSET with 76; rewrite dl_len0, dl_tail0; apply require_zero_zeros|].
  do 4 (eapply bind_step; [eapply (read_field _ _ 8); [lia..| |eassumption]; done|]).
  eapply bind_step; [apply bytes_at_ok; lia|].
  change (48 + 16) with 64. rewrite dl_database_id0. cbv zeta.
  destruct h; cbn [root_page_id next_page_id free_page_head generation database_id metadata] in *.
  eapply bind_step; [exact V|done].
Qed.
End DatabaseLayout.

(** ** Layout of page headers *)

Record page_header_wf (h : PageHeader) : Prop := {
  phwf_count : is_u16 (cell_count h);
  phwf_start : is_u16 (free_start h);
  phwf_end : is_u16 (free_end h);
  phwf_left : is_u64 (left h);
  phwf_right : is_u64 (right h);
}.

Lemma page_type_tag t : page_type_try_from (page_type_u8 t) = Ok t.
Proof. by destruct t. Qed.

Lemma page_type_tag_inv v t : page_type_try_from v = Ok t → v = page_type_u8 t.
Proof.
  unfold page_type_try_from. intros H.
  repeat (case_match; [bind_inv; cbn; lia|]). done.
Qed.

Lemma page_type_u8_fits t : is_u8 (page_type_u8 t).
Proof. by destruct t. Qed.

(** The error kind passed to a validator does not decide whether it succeeds. *)
Lemma expected_slot_end_kind base count e k k' :
  expected_slot_end base count k = Ok e → expected_slot_end base count k' = Ok e.
Proof.
  unfold expected_slot_end. destruct (checked_mul _ _); [|done]. cbn [ok_or]. rewrite !bind_ok.
  destruct (checked_add _ _); [|done]. cbn [ok_or]. rewrite !bind_ok. by destruct (try_fit _ _).
Qed.

Lemma validate_page_id_kind p n k k' :
  validate_page_id p n k = Ok tt → validate_page_id p n k' = Ok tt.
Proof. unfold validate_page_id. by case_match. Qed.

Lemma page_header_validate_kind h page_id next k k' :
  page_header_validate h page_id next k = Ok tt → page_header_validate h page_id next k' = Ok tt.
Proof.
  unfold page_header_validate. intros H. apply bind_ok_inv in H as ([] & Hid & H).
  eapply bind_step; [by eapply validate_page_id_kind|].
  destruct (page_type h).
  - apply bind_ok_inv in H as (e & He & H).
    eapply bind_step; [by eapply expected_slot_end_kind|]. case_match; [done|].
    apply bind_ok_inv in H as ([] & Hf & H).
    eapply bind_step; [instantiate (1 := ()); clear H; by repeat case_match|].
    apply bind_ok_inv in H as ([] & Hr & H).
    eapply bind_step; by eapply validate_reference_kind.
  - case_match; [done|]. apply bind_ok_inv in H as (e & He & H).
    eapply bind_step; [by eapply expected_slot_end_kind|]. by case_match.
  - case_match; [done|]. by eapply validate_reference_kind.
  - case_match; [done|]. by eapply validate_reference_kind.
Qed.

Section PageLayout.
Context {CK : Checksum}.

Record page_layout (h : PageHeader) (p : list byte) : Prop := {
  pl_len : len p = PAGE_SIZE;
  pl_type : slice p 0 1 = le_bytes 1 (page_type_u8 (page_type h));
  pl_flags : slice p 1 2 = zeros 1;
  pl_count : slice p 2 4 = le_bytes 2 (cell_count h);
  pl_start : slice p 4 6 = le_bytes 2 (free_start h);
  pl_end : slice p 6 8 = le_bytes 2 (free_end h);
  pl_left : slice p 8 16 = le_bytes 8 (left h);
  pl_right : slice p 16 24 = le_bytes 8 (right h);
  pl_checksum : checksummed p PAGE_CHECKSUM_OFFSET;
  pl_reserved : slice p 28 32 = zeros 4;
}.

(** A page is determined by its header and its body. *)
Lemma page_layout_unique h p p' :
  page_layout h p → page_layout h p' →
  slice p PAGE_HEADER_LEN PAGE_SIZE = slice p' PAGE_HEADER_LEN PAGE_SIZE → p = p'.
Proof.
  intros [] [] Hbody. apply (eq_by_slices _ _ PAGE_SIZE); [done..|].
  assert (PAGE_SIZE = 4096) as HP by done. rewrite HP in *.
  change PAGE_HEADER_LEN with 32 in *. change PAGE_CHECKSUM_OFFSET with 24 in *.
  assert (slice p 0 24 = slice p' 0 24) as Hpre.
  { apply (eq_by_cut _ _ _ 1); [lia..|congruence|]. apply (eq_by_cut _ _ _ 2); [lia..|congruence|].
    apply (eq_by_cut _ _ _ 4); [lia..|congruence|]. apply (eq_by_cut _ _ _ 6); [lia..|congruence|].
    apply (eq_by_cut _ _ _ 8); [lia..|congruence|]. apply (eq_by_cut _ _ _ 16); [lia..|congruence|].
    congruence. }
  assert (slice p 28 4096 = slice p' 28 4096) as Hpost.
  { apply (eq_by_cut _ _ _ 32); [lia..|congruence|done]. }
  apply (eq_by_cut _ _ _ 24); [lia..|done|]. apply (eq_by_cut _ _ _ 28); [lia..| |done].
  etransitivity; [exact pl_checksum0|]. etransitivity; [|symmetry; exact pl_checksum1].
  by apply checksum_field_ext.
Qed.

(** Encoding a valid header into a page writes its layout and keeps the body. *)
Lemma page_header_encode_layout h page page_id next k :
  len page = PAGE_SIZE → page_header_validate h page_id next k = Ok tt →
  ∃ p, page_header_encode_into h page page_id next = Ok p ∧ page_layout h p ∧
       slice p PAGE_HEADER_LEN PAGE_SIZE = slice page PAGE_HEADER_LEN PAGE_SIZE.
Proof.
  intros Hl V. assert (PAGE_SIZE = 4096) as HP by done.
  apply page_header_validate_kind with (k' := InvalidInput) in V.
  unfold page_header_encode_into. rewrite exact_page_ok by done. rewrite bind_ok, V, bind_ok.
  repeat (rewrite write_at_ok by slice_side; rewrite ?bind_ok).
  unfold write_page_checksum. rewrite write_checksum_ok by (unfold PAGE_CHECKSUM_OFFSET; slice_side).
  eexists; split; [reflexivity|].
  match goal with |- page_layout _ (put ?b _ _) ∧ _ =>
    assert (len b = PAGE_SIZE) as Hb by slice_side;
    pose proof (len_checksum_field b PAGE_CHECKSUM_OFFSET) as Hcl;
    pose proof (checksummed_put b PAGE_CHECKSUM_OFFSET Hb) as Hck;
    set (ck := checksum_field b PAGE_CHECKSUM_OFFSET) in *; clearbody ck; clear Hb end.
  change PAGE_CHECKSUM_OFFSET with 24 in *. change PAGE_HEADER_LEN with 32. split.
  - constructor; try (apply Hck; lia); clear Hck; rewrite HP in *; try slice_side;
      slice_simpl; reflexivity.
  - rewrite HP in *. slice_simpl. reflexivity.
Qed.

Lemma page_header_decode_layout h p page_id next :
  page_header_decode p page_id next = Ok h →
  page_layout h p ∧ page_header_wf h ∧ page_header_validate h page_id next InvalidData = Ok tt.
Proof.
  unfold page_header_decode, verify_page_checksum. intros H. bind_inv. field_inv.
  match goal with H : verify_checksum _ _ = Ok _ |- _ =>
    apply verify_checksum_iff in H; [|unfold PAGE_CHECKSUM_OFFSET, PAGE_SIZE in *; lia..] end.
  match goal with H : page_type_try_from _ = Ok _ |- _ => apply page_type_tag_inv in H end.
  bool_to_prop. subst. assert (PAGE_SIZE = 4096) as HP by done.
  split_and!; [|by constructor|done].
  constructor; try done. by rewrite len_slice in * by lia.
Qed.

Lemma page_layout_decode h p page_id next k :
  page_layout h p → page_header_wf h → page_header_validate h page_id next k = Ok tt →
  page_header_decode p page_id next = Ok h.
Proof.
  intros [] [] V. assert (PAGE_SIZE = 4096) as HP by done.
  apply page_header_validate_kind with (k' := InvalidData) in V.
  unfold page_header_decode, verify_page_checksum.
  eapply bind_step; [by apply exact_page_ok|].
  eapply bind_step; [by apply verify_checksum_iff; try done; unfold PAGE_CHECKSUM_OFFSET; lia|].
  eapply bind_step; [eapply (read_field _ _ 1); [lia..| |eassumption]; apply page_type_u8_fits|].
  eapply bind_step; [apply page_type_tag|].
  eapply bind_step; [eapply (read_field _ _ 1 0); [lia..| |eassumption]; done|].
  apply skip_guard; [done|].
  eapply bind_step; [by rewrite get_range_some by lia|].
  eapply bind_step; [rewrite pl_reserved0; apply require_zero_zeros|].
  do 3 (eapply bind_step; [eapply (read_field _ _ 2); [lia..| |eassumption]; done|]).
  do 2 (eapply bind_step; [eapply (read_field _ _ 8); [lia..| |eassumption]; done|]).
  cbv zeta. destruct h; cbn [page_type cell_count free_start free_end left right] in *.
  eapply bind_step; [exact V|done].
Qed.
End PageLayout.

(** ** A concrete checksum

    CRC-32/ISO-HDLC (reflected polynomial 0xEDB88320), which [crc32fast]
    documents.  The theorems hold for every [Checksum]; this instance lets the
    witnesses evaluate. *)

Fixpoint crc_bits (n : nat) (c : Z) : Z :=
  match n with
  | O => c
  | S n => crc_bits n (if Z.odd c then Z.lxor (Z.shiftr c 1) 3988292384 else Z.shiftr c 1)
  end.

Definition crc32_iso (b : list byte) : Z :=
  Z.lxor (foldl (λ c x, crc_bits 8 (Z.lxor c (byte.unsigned x))) 4294967295 b) 4294967295 mod 2 ^ 32.

#[export] Instance crc32_iso_checksum : Checksum.
Proof.
  refine {| crc32 := crc32_iso |}.
  intros b. unfold crc32_iso, fits. apply Z.mod_pos_bound. lia.
Defined.

(** The check value of the CRC catalogue: the CRC of "123456789". *)
Example crc32_iso_check : crc32_iso (map byte.of_Z [49; 50; 51; 52; 53; 54; 55; 56; 57]) = 3421780262.
Proof. vm_compute. reflexivity. Qed.

(** ** Theorems *)

Section FormatTheorems.
Context {CK : Checksum}.

(** For headers whose fields have the widths of their Rust types,
    [DatabaseHeader::encode] and [DatabaseHeader::decode] are inverse to each
    other: encoding a header yields a page exactly when decoding that page
    yields the header.  So nothing is lost by a write and a read, and no page
    other than the encoder's output is accepted for a header. *)
Theorem database_header_roundtrip h p :
  database_header_wf h →
  (database_header_encode h = Ok p ↔ database_header_decode p = Ok h).
Proof.
  intros W. split.
  - intros E. assert (validate_database_header h = Ok tt) as V.
    { unfold database_header_encode in E. bind_inv. done. }
    destruct (database_header_encode_layout h W V) as (p' & E' & L).
    assert (p' = p) as -> by congruence. by apply database_layout_decode.
  - intros D. apply database_header_decode_layout in D as (L & _ & V).
    destruct (database_header_encode_layout h W V) as (p' & E' & L').
    by rewrite (database_layout_unique _ _ _ L L').
Qed.

(** A database header page that decodes is bound to its fields and its
    checksum: two accepted pages that carry the same header are the same 4096
    bytes, and the accepted header satisfies the structural rules (root inside
    the file, free list head inside the file and not the root, nonzero
    generation and identity). *)
Theorem database_header_decode_canonical p h :
  database_header_decode p = Ok h →
  len p = PAGE_SIZE ∧ 0 < root_page_id h < next_page_id h ∧
  (free_page_head h = 0 ∨
     0 < free_page_head h < next_page_id h ∧ free_page_head h ≠ root_page_id h) ∧
  0 < generation h ∧ all_zero (database_id h) = false ∧
  (∀ p', database_header_decode p' = Ok h → p' = p).
Proof.
  intros D. apply database_header_decode_layout in D as (L & W & V).
  pose proof W as [[] [] [] [] _ _].
  unfold validate_database_header in V. bind_inv.
  split; [apply L|]. split; [lia|]. split; [lia|]. split; [lia|]. split; [done|].
  intros p' D'. apply database_header_decode_layout in D' as (L' & _ & _).
  by eapply database_layout_unique.
Qed.

(** [PageHeader::encode_into] writes a header that
    [PageHeader::decode] reads back, and touches nothing after the 32-byte
    header. *)
Theorem page_header_encode_decode h page page_id next p :
  page_header_wf h → page_header_encode_into h page page_id next = Ok p →
  page_header_decode p page_id next = Ok h ∧
  slice p PAGE_HEADER_LEN PAGE_SIZE = slice page PAGE_HEADER_LEN PAGE_SIZE.
Proof.
  intros W E. assert (len page = PAGE_SIZE ∧ page_header_validate h page_id next InvalidInput = Ok tt)
    as [Hl V] by (unfold page_header_encode_into in E; bind_inv; field_inv; done).
  destruct (page_header_encode_layout _ _ _ _ _ Hl V) as (p' & E' & L & Hb).
  assert (p' = p) as -> by congruence. split; [|done]. by eapply page_layout_decode.
Qed.

(** A page decodes to a header exactly when writing that header into it
    changes no byte, so a page with any altered header byte or a stale
    checksum is rejected. *)
Theorem page_header_decode_fixpoint h p page_id next :
  page_header_decode p page_id next = Ok h ↔
  page_header_wf h ∧ page_header_encode_into h p page_id next = Ok p.
Proof.
  split.
  - intros D. apply page_header_decode_layout in D as (L & W & V). split; [done|].
    destruct (page_header_encode_layout _ _ _ _ _ (pl_len _ _ L) V) as (p' & E & L' & Hb).
    by rewrite (page_layout_unique _ _ _ L' L Hb) in E.
  - intros [W E]. assert (len p = PAGE_SIZE ∧ page_header_validate h page_id next InvalidInput = Ok tt)
      as [Hl V] by (unfold page_header_encode_into in E; bind_inv; field_inv; done).
    destruct (page_header_encode_layout _ _ _ _ _ Hl V) as (p' & E' & L & Hb).
    assert (p' = p) as -> by congruence. by eapply page_layout_decode.
Qed.
End FormatTheorems.

(** *** Witnesses *)

Definition example_header : DatabaseHeader :=
  {| root_page_id := 1; next_page_id := 4; free_page_head := 3; generation := 7;
     database_id := le_bytes 16 42; metadata := TargetIdMapping 42 |}.

Definition example_header_page : list byte :=
  match database_header_encode example_header with Ok p => p | Err _ => [] end.

Lemma example_header_wf : database_header_wf example_header.
Proof. constructor; vm_compute; done. Qed.

Lemma database_header_roundtrip_witness :
  database_header_decode example_header_page = Ok example_header.
Proof.
  apply (database_header_roundtrip example_header example_header_page);
    [exact example_header_wf | vm_compute; reflexivity].
Defined.

Lemma database_header_decode_canonical_witness :
  len example_header_page = PAGE_SIZE.
Proof.
  apply (database_header_decode_canonical example_header_page example_header).
  vm_compute. reflexivity.
Defined.

Definition example_page_header : PageHeader :=
  {| page_type := Leaf; cell_count := 0; free_start := 32; free_end := 4096; left := 0; right := 2 |}.

Definition example_leaf : list byte :=
  match page_header_encode_into example_page_header (zeros PAGE_SIZE) 1 8 with
  | Ok p => p | Err _ => [] end.

Lemma page_header_encode_decode_witness :
  page_header_decode example_leaf 1 8 = Ok example_page_header.
Proof.
  apply (page_header_encode_decode example_page_header (zeros PAGE_SIZE) 1 8 example_leaf).
  - constructor; vm_compute; done.
  - vm_compute. reflexivity.
Defined.
