(* ===== verification/BtreeCell.v ===== *)
(** Cells, stored values and locators of the version 3 B+Tree
    (backend/btree/src/v3/format.rs): the internal and leaf cell prefixes, the
    adaptive compression of values, the encoders and zero-copy decoders of
    cells, and the sorted-index locator. *)

From S2P Require Import Prelude BtreeFormat.

(** ** The LZ4 interface

    [lz4_flex::block] is a third-party crate.  [compress_into] and
    [decompress_into] write into a buffer of a given capacity and return the
    bytes written or an error; a compressed block decompresses to its source
    when the destination has the source's length. *)
Class Lz4 := {
  get_maximum_output_size : Z → Z;
  compress_into : list byte → Z → option (list byte);
  decompress_into : list byte → Z → option (list byte);
  lz4_fits : ∀ raw cap c, compress_into raw cap = Some c → len c ≤ cap;
  lz4_decompress_fits : ∀ c cap raw, decompress_into c cap = Some raw → len raw ≤ cap;
  lz4_roundtrip : ∀ raw cap c, compress_into raw cap = Some c → decompress_into c (len raw) = Some raw;
}.

(** ** Internal cells *)

Record InternalCellPrefix := { icp_key_length : Z; icp_right_child : Z }.

Definition internal_cell_prefix_validate (c : InternalCellPrefix) (page_id next_page_id : Z)
    (kind : error_kind) : io_result unit :=
  if (icp_key_length c =? 0) || (MAX_ENCODED_KEY_LEN <? icp_key_length c) || (icp_right_child c =? 0)
  then Err (IoError kind "invalid internal cell prefix")
  else validate_reference (icp_right_child c) page_id next_page_id kind.

Definition internal_cell_prefix_encode (c : InternalCellPrefix) (page_id next_page_id : Z)
    : io_result (list byte) :=
  _ ← internal_cell_prefix_validate c page_id next_page_id InvalidInput;
  let bytes := zeros INTERNAL_CELL_PREFIX_LEN in
  bytes ← write_at bytes 0 (le_bytes 2 (icp_key_length c));
  write_at bytes 4 (le_bytes 8 (icp_right_child c)).

Definition internal_cell_prefix_decode (bytes : list byte) (page_id next_page_id : Z)
    : io_result InternalCellPrefix :=
  prefix ← ok_or (get_range bytes 0 INTERNAL_CELL_PREFIX_LEN) (invalid_data "truncated internal cell prefix");
  reserved ← ok_or (get_range prefix 2 4) (invalid_data "missing internal cell reserved bytes");
  _ ← require_zero reserved "internal cell reserved bytes must be zero";
  key_length ← read_u16 prefix 0;
  right_child ← read_u64 prefix 4;
  let decoded := {| icp_key_length := key_length; icp_right_child := right_child |} in
  _ ← internal_cell_prefix_validate decoded page_id next_page_id InvalidData;
  Ok decoded.

(** ** Leaf cells *)

Inductive ValueKind := KindInline | KindOverflow | KindTombstone.
Inductive Compression := NoCompression | CompressionLz4.

#[export] Instance ValueKind_eq_dec : EqDecision ValueKind.
Proof. solve_decision. Defined.
#[export] Instance Compression_eq_dec : EqDecision Compression.
Proof. solve_decision. Defined.

Definition value_kind_u8 (k : ValueKind) : Z :=
  match k with KindInline => 0 | KindOverflow => 1 | KindTombstone => 2 end.
Definition compression_u8 (c : Compression) : Z :=
  match c with NoCompression => 0 | CompressionLz4 => 1 end.

Definition value_kind_try_from (value : Z) : io_result ValueKind :=
  if value =? 0 then Ok KindInline
  else if value =? 1 then Ok KindOverflow
  else if value =? 2 then Ok KindTombstone
  else Err (invalid_data "unknown value kind").

Definition compression_try_from (value : Z) : io_result Compression :=
  if value =? 0 then Ok NoCompression
  else if value =? 1 then Ok CompressionLz4
  else Err (invalid_data "unknown compression mode").

Definition is_none (c : Compression) : bool :=
  match c with NoCompression => true | CompressionLz4 => false end.

Record LeafCellPrefix := {
  key_length : Z;
  value_kind : ValueKind;
  compression : Compression;
  logical_length : Z;
  stored_length : Z;
  overflow_head : Z;
  stored_crc32 : Z;
}.

#[export] Instance LeafCellPrefix_eq_dec : EqDecision LeafCellPrefix.
Proof. solve_decision. Defined.

(** Bytes a leaf cell and its slot occupy on the page; [None] on overflow. *)
Definition leaf_cell_footprint (c : LeafCellPrefix) (stored_on_page : Z) : option Z :=
  size ← checked_add SLOT_LEN LEAF_CELL_PREFIX_LEN;
  size ← checked_add size (key_length c);
  checked_add size stored_on_page.

Definition leaf_cell_prefix_validate (c : LeafCellPrefix) (page_id next_page_id : Z)
    (kind : error_kind) : io_result unit :=
  if (key_length c =? 0) || (MAX_ENCODED_KEY_LEN <? key_length c)
  then Err (IoError kind "invalid leaf key length") else
  stored_on_page ← match value_kind c with
                   | KindInline =>
                       ok_or (try_fit 64 (stored_length c)) (IoError kind "inline stored length exceeds usize")
                   | KindOverflow | KindTombstone => Ok 0
                   end;
  footprint ← ok_or (leaf_cell_footprint c stored_on_page) (IoError kind "leaf cell footprint overflow");
  if MAX_CELL_FOOTPRINT <? footprint
  then Err (IoError kind "leaf cell footprint exceeds limit") else
  _ ← match value_kind c with
      | KindInline =>
          if (logical_length c =? 0)
             || (stored_length c =? 0)
             || (MAX_INLINE_STORED_VALUE <? stored_on_page)
             || negb (overflow_head c =? 0)
             || (is_none (compression c) && negb (logical_length c =? stored_length c))
          then Err (IoError kind "invalid inline value descriptor") else Ok tt
      | KindOverflow =>
          if (logical_length c =? 0) || (stored_length c =? 0) || (overflow_head c =? 0)
          then Err (IoError kind "invalid overflow value descriptor")
          else if is_none (compression c) && negb (logical_length c =? stored_length c)
          then Err (IoError kind "invalid uncompressed overflow lengths")
          else validate_reference (overflow_head c) page_id next_page_id kind
      | KindTombstone =>
          if negb (is_none (compression c))
             || negb (logical_length c =? 0)
             || negb (stored_length c =? 0)
             || negb (overflow_head c =? 0)
             || negb (stored_crc32 c =? 0)
          then Err (IoError kind "invalid tombstone descriptor") else Ok tt
      end;
  if negb (is_none (compression c)) then
    let threshold := logical_length c * COMPRESSION_PERCENT / 100 in
    if (logical_length c <? 64) || (stored_length c <? 4) || (threshold <=? stored_length c)
    then Err (IoError kind "invalid compressed value lengths") else Ok tt
  else Ok tt.

Definition leaf_cell_prefix_encode (c : LeafCellPrefix) (page_id next_page_id : Z)
    : io_result (list byte) :=
  _ ← leaf_cell_prefix_validate c page_id next_page_id InvalidInput;
  let bytes := zeros LEAF_CELL_PREFIX_LEN in
  bytes ← write_at bytes 0 (le_bytes 2 (key_length c));
  bytes ← write_at bytes 2 (le_bytes 1 (value_kind_u8 (value_kind c)));
  bytes ← write_at bytes 3 (le_bytes 1 (compression_u8 (compression c)));
  bytes ← write_at bytes 4 (le_bytes 4 (logical_length c));
  bytes ← write_at bytes 8 (le_bytes 4 (stored_length c));
  bytes ← write_at bytes 12 (le_bytes 8 (overflow_head c));
  write_at bytes 20 (le_bytes 4 (stored_crc32 c)).

Definition leaf_cell_prefix_decode (bytes : list byte) (page_id next_page_id : Z)
    : io_result LeafCellPrefix :=
  prefix ← ok_or (get_range bytes 0 LEAF_CELL_PREFIX_LEN) (invalid_data "truncated leaf cell prefix");
  key_len ← read_u16 prefix 0;
  kind_tag ← read_u8 prefix 2;
  kind ← value_kind_try_from kind_tag;
  compression_tag ← read_u8 prefix 3;
  comp ← compression_try_from compression_tag;
  logical ← read_u32 prefix 4;
  stored ← read_u32 prefix 8;
  head ← read_u64 prefix 12;
  crc ← read_u32 prefix 20;
  let decoded := {| key_length := key_len; value_kind := kind; compression := comp;
                    logical_length := logical; stored_length := stored; overflow_head := head;
                    stored_crc32 := crc |} in
  _ ← leaf_cell_prefix_validate decoded page_id next_page_id InvalidData;
  Ok decoded.

(** ** Stored values *)

Inductive StoredValue :=
| BorrowedRaw (bytes : list byte)
| Compressed (bytes : list byte).

Definition stored_compression (v : StoredValue) : Compression :=
  match v with BorrowedRaw _ => NoCompression | Compressed _ => CompressionLz4 end.

Definition as_slice (v : StoredValue) : list byte :=
  match v with BorrowedRaw bytes | Compressed bytes => bytes end.

Definition compression_is_beneficial (raw_length stored_length : Z) : io_result bool :=
  product ← ok_or (checked_mul raw_length COMPRESSION_PERCENT) (invalid_input "compression threshold overflow");
  Ok (stored_length <? product / 100).

Section Values.
Context {LZ : Lz4}.

(** The scratch buffer is cleared on entry and is only visible through the
    returned slice, so it is a local value here.  Allocation succeeds. *)
Definition encode_value (raw : list byte) : io_result StoredValue :=
  if len raw <? COMPRESSION_MIN_LENGTH then Ok (BorrowedRaw raw) else
  raw_length ← ok_or (try_fit 32 (len raw)) (invalid_input "value exceeds u32 length");
  maximum ← ok_or (checked_add (get_maximum_output_size (len raw)) 4)
                  (invalid_input "compressed value size overflow");
  let scratch := zeros maximum in
  scratch ← write_at scratch 0 (le_bytes 4 raw_length);
  output ← ok_or (get_range scratch 4 (len scratch)) (invalid_data "missing compression output");
  compressed ← ok_or (compress_into raw (len output)) (IoError OtherKind "LZ4 compression failed");
  let scratch := put scratch 4 compressed in
  stored_len ← checked_end 4 (len compressed);
  let scratch := slice scratch 0 stored_len in
  beneficial ← compression_is_beneficial (len raw) (len scratch);
  if beneficial : bool then Ok (Compressed scratch) else Ok (BorrowedRaw raw).

Definition decompress_value_into (stored : list byte) (logical_len maximum_length : Z)
    : io_result (list byte) :=
  encoded_length ← read_u32 stored 0;
  if negb (encoded_length =? logical_len) then Err (invalid_data "LZ4 logical length mismatch") else
  logical ← ok_or (try_fit 64 logical_len) (invalid_data "logical length exceeds usize");
  if maximum_length <? logical then Err (invalid_data "logical length exceeds allocation limit") else
  payload ← ok_or (get_range stored 4 (len stored)) (invalid_data "missing LZ4 payload");
  let scratch := zeros logical in
  decoded ← ok_or (decompress_into payload (len scratch)) (invalid_data "LZ4 decompression failed");
  let scratch := put scratch 0 decoded in
  if negb (len decoded =? logical) then Err (invalid_data "decompressed value length mismatch") else
  ok_or (get_range scratch 0 (len decoded)) (invalid_data "decompressed value exceeds scratch buffer").

(** The same decompression with the compressed bytes in the destination vector:
    the vector is grown, the block moved behind the output area and decoded. *)
Definition decompress_value_in_place (scratch : list byte) (logical_len maximum_length : Z)
    : io_result (list byte) :=
  encoded_length ← read_u32 scratch 0;
  if negb (encoded_length =? logical_len) then Err (invalid_data "LZ4 logical length mismatch") else
  logical ← ok_or (try_fit 64 logical_len) (invalid_data "logical length exceeds usize");
  if maximum_length <? logical then Err (invalid_data "logical length exceeds allocation limit") else
  let stored_len := len scratch in
  total ← ok_or (checked_add logical stored_len) (invalid_data "in-place decompression size overflow");
  let scratch := scratch ++ zeros (total - stored_len) in
  let scratch := put scratch logical (slice scratch 0 stored_len) in
  let output := slice scratch 0 logical in
  let encoded := slice scratch logical total in
  payload ← ok_or (get_range encoded 4 stored_len) (invalid_data "missing LZ4 payload");
  decoded ← ok_or (decompress_into payload (len output)) (invalid_data "LZ4 decompression failed");
  let scratch := put output 0 decoded ++ encoded in
  if negb (len decoded =? logical) then Err (invalid_data "decompressed value length mismatch") else
  Ok (slice scratch 0 logical).
End Values.

(** ** Cell references *)

Inductive LeafValueRef :=
| Inline (compression : Compression) (logical_len : Z) (stored : list byte) (crc32 : Z)
| OverflowRef (compression : Compression) (logical_len stored_len head crc32 : Z)
| Tombstone.

Record LeafCellRef := { leaf_key_bytes : list byte; leaf_value : LeafValueRef }.

Record InternalCellRef := { internal_key_bytes : list byte; internal_right_child : Z }.

#[export] Instance LeafValueRef_eq_dec : EqDecision LeafValueRef.
Proof. solve_decision. Defined.
#[export] Instance LeafCellRef_eq_dec : EqDecision LeafCellRef.
Proof. solve_decision. Defined.
#[export] Instance InternalCellRef_eq_dec : EqDecision InternalCellRef.
Proof. solve_decision. Defined.

Definition encoded_key_length (key : list byte) : io_result Z :=
  if (len key =? 0) || (MAX_ENCODED_KEY_LEN <? len key)
  then Err (invalid_input "invalid encoded key length")
  else ok_or (try_fit 16 (len key)) (invalid_input "encoded key length exceeds u16").

(** The output vector is cleared and then holds the three parts. *)
Definition write_cell (prefix key stored : list byte) : io_result (list byte) :=
  _ ← ok_or (checked_add (len prefix) (len key) ≫= (λ value, checked_add value (len stored)))
            (invalid_input "encoded cell length overflow");
  Ok (prefix ++ key ++ stored).

Definition encode_overflow_leaf_cell (key : list byte) (logical_len : Z) (comp : Compression)
    (stored_len head crc page_id next_page_id : Z) : io_result (list byte) :=
  key_len ← encoded_key_length key;
  prefix ← leaf_cell_prefix_encode
    {| key_length := key_len; value_kind := KindOverflow; compression := comp;
       logical_length := logical_len; stored_length := stored_len; overflow_head := head;
       stored_crc32 := crc |} page_id next_page_id;
  write_cell prefix key [].

Definition encode_tombstone_leaf_cell (key : list byte) : io_result (list byte) :=
  key_len ← encoded_key_length key;
  prefix ← leaf_cell_prefix_encode
    {| key_length := key_len; value_kind := KindTombstone; compression := NoCompression;
       logical_length := 0; stored_length := 0; overflow_head := 0; stored_crc32 := 0 |} 1 2;
  write_cell prefix key [].

Definition encode_internal_cell (key : list byte) (right_child page_id next_page_id : Z)
    : io_result (list byte) :=
  key_len ← encoded_key_length key;
  prefix ← internal_cell_prefix_encode {| icp_key_length := key_len; icp_right_child := right_child |}
             page_id next_page_id;
  write_cell prefix key [].

Definition internal_cell_ref_decode (cell : list byte) (page_id next_page_id : Z)
    : io_result InternalCellRef :=
  prefix ← internal_cell_prefix_decode cell page_id next_page_id;
  cell_end ← ok_or (checked_add INTERNAL_CELL_PREFIX_LEN (icp_key_length prefix))
                   (invalid_data "internal key range overflow");
  if negb (cell_end =? len cell) then Err (invalid_data "invalid internal cell length") else
  key_bytes ← ok_or (get_range cell INTERNAL_CELL_PREFIX_LEN cell_end) (invalid_data "truncated internal key");
  Ok {| internal_key_bytes := key_bytes; internal_right_child := icp_right_child prefix |}.

Record Locator := { leaf_page_id : Z; slot_index : Z; serialized_key_crc32 : Z }.

#[export] Instance Locator_eq_dec : EqDecision Locator.
Proof. solve_decision. Defined.

Definition locator_encode (l : Locator) : list byte :=
  let encoded := zeros 16 in
  let encoded := put encoded 0 (le_bytes 8 (leaf_page_id l)) in
  let encoded := put encoded 8 (le_bytes 2 (slot_index l)) in
  put encoded 12 (le_bytes 4 (serialized_key_crc32 l)).

Definition locator_decode (encoded : list byte) : io_result Locator :=
  if negb (len encoded =? 16) then Err (invalid_data "locator must be exactly 16 bytes") else
  reserved ← ok_or (get_range encoded 10 12) (invalid_data "missing locator reserved bytes");
  _ ← require_zero reserved "locator reserved bytes must be zero";
  page ← read_u64 encoded 0;
  slot ← read_u16 encoded 8;
  crc ← read_u32 encoded 12;
  let locator := {| leaf_page_id := page; slot_index := slot; serialized_key_crc32 := crc |} in
  if leaf_page_id locator =? 0 then Err (invalid_data "locator leaf page id must be nonzero")
  else Ok locator.

Section Cells.
Context {CK : Checksum}.

Definition stored_value_checksum (stored : list byte) : Z := crc32 stored.

Definition encode_inline_leaf_cell (key : list byte) (logical_len : Z) (comp : Compression)
    (stored : list byte) : io_result (list byte) :=
  key_len ← encoded_key_length key;
  stored_len ← ok_or (try_fit 32 (len stored)) (invalid_input "stored value exceeds u32");
  prefix ← leaf_cell_prefix_encode
    {| key_length := key_len; value_kind := KindInline; compression := comp;
       logical_length := logical_len; stored_length := stored_len; overflow_head := 0;
       stored_crc32 := stored_value_checksum stored |} 1 2;
  write_cell prefix key stored.

Definition leaf_cell_ref_decode (cell : list byte) (page_id next_page_id : Z)
    : io_result LeafCellRef :=
  prefix ← leaf_cell_prefix_decode cell page_id next_page_id;
  key_end ← ok_or (checked_add LEAF_CELL_PREFIX_LEN (key_length prefix))
                  (invalid_data "leaf key range overflow");
  key_bytes ← ok_or (get_range cell LEAF_CELL_PREFIX_LEN key_end) (invalid_data "truncated leaf key");
  value ← match value_kind prefix with
          | KindInline =>
              stored_len ← ok_or (try_fit 64 (stored_length prefix))
                                 (invalid_data "inline stored length exceeds usize");
              cell_end ← ok_or (checked_add key_end stored_len) (invalid_data "inline value range overflow");
              if negb (cell_end =? len cell) then Err (invalid_data "invalid inline leaf cell length") else
              stored ← ok_or (get_range cell key_end cell_end) (invalid_data "truncated inline value");
              if negb (stored_value_checksum stored =? stored_crc32 prefix)
              then Err (invalid_data "stored value checksum mismatch")
              else Ok (Inline (compression prefix) (logical_length prefix) stored (stored_crc32 prefix))
          | KindOverflow =>
              if negb (key_end =? len cell) then Err (invalid_data "invalid overflow leaf cell length")
              else Ok (OverflowRef (compression prefix) (logical_length prefix) (stored_length prefix)
                         (overflow_head prefix) (stored_crc32 prefix))
          | KindTombstone =>
              if negb (key_end =? len cell) then Err (invalid_data "invalid tombstone leaf cell length")
              else Ok Tombstone
          end;
  Ok {| leaf_key_bytes := key_bytes; leaf_value := value |}.

Definition locator_for_key (leaf_page_id slot_index : Z) (serialized_key : list byte)
    : io_result Locator :=
  if leaf_page_id =? 0 then Err (invalid_input "locator leaf page id must be nonzero")
  else Ok {| leaf_page_id := leaf_page_id; slot_index := slot_index;
             serialized_key_crc32 := crc32 serialized_key |}.
End Cells.

(** ** Prefix layouts *)

Record leaf_prefix_wf (c : LeafCellPrefix) : Prop := {
  lpwf_key : is_u16 (key_length c);
  lpwf_logical : is_u32 (logical_length c);
  lpwf_stored : is_u32 (stored_length c);
  lpwf_head : is_u64 (overflow_head c);
  lpwf_crc : is_u32 (stored_crc32 c);
}.

Record leaf_prefix_layout (c : LeafCellPrefix) (b : list byte) : Prop := {
  lp_len : len b = LEAF_CELL_PREFIX_LEN;
  lp_key : slice b 0 2 = le_bytes 2 (key_length c);
  lp_kind : slice b 2 3 = le_bytes 1 (value_kind_u8 (value_kind c));
  lp_compression : slice b 3 4 = le_bytes 1 (compression_u8 (compression c));
  lp_logical : slice b 4 8 = le_bytes 4 (logical_length c);
  lp_stored : slice b 8 12 = le_bytes 4 (stored_length c);
  lp_head : slice b 12 20 = le_bytes 8 (overflow_head c);
  lp_crc : slice b 20 24 = le_bytes 4 (stored_crc32 c);
}.

Lemma value_kind_tag k : value_kind_try_from (value_kind_u8 k) = Ok k.
Proof. by destruct k. Qed.
Lemma compression_tag c : compression_try_from (compression_u8 c) = Ok c.
Proof. by destruct c. Qed.
Lemma value_kind_u8_fits k : is_u8 (value_kind_u8 k).
Proof. by destruct k. Qed.
Lemma compression_u8_fits c : is_u8 (compression_u8 c).
Proof. by destruct c. Qed.
Lemma value_kind_tag_inv v k : value_kind_try_from v = Ok k → v = value_kind_u8 k.
Proof. unfold value_kind_try_from. intros. repeat (case_match; [bind_inv; cbn; lia|]). done. Qed.
Lemma compression_tag_inv v c : compression_try_from v = Ok c → v = compression_u8 c.
Proof. unfold compression_try_from. intros. repeat (case_match; [bind_inv; cbn; lia|]). done. Qed.

(** The page a prefix is validated against matters only for the head of an
    overflow chain, and the error kind never decides success. *)
Lemma leaf_cell_prefix_validate_transfer c p n k p' n' k' :
  leaf_cell_prefix_validate c p n k = Ok tt →
  (value_kind c = KindOverflow → p' = p ∧ n' = n) →
  leaf_cell_prefix_validate c p' n' k' = Ok tt.
Proof.
  unfold leaf_cell_prefix_validate. intros H Hov.
  case_match; [done|]. apply bind_ok_inv in H as (s & Hs & H).
  eapply bind_step.
  { instantiate (1 := s). destruct (value_kind c); [|done..].
    apply ok_or_inv in Hs. by rewrite Hs. }
  apply bind_ok_inv in H as (f & Hf & H). apply ok_or_inv in Hf.
  eapply bind_step; [by rewrite Hf|].
  case_match; [done|]. apply bind_ok_inv in H as ([] & Hd & H).
  eapply bind_step; [|by repeat case_match].
  instantiate (1 := ()). clear H Hs. destruct (value_kind c).
  - by case_match.
  - destruct Hov as [-> ->]; [done|]. do 2 (case_match; [done|]). by eapply validate_reference_kind.
  - by case_match.
Qed.

Lemma leaf_prefix_layout_unique c b b' :
  leaf_prefix_layout c b → leaf_prefix_layout c b' → b = b'.
Proof.
  intros [] []. apply (eq_by_slices _ _ LEAF_CELL_PREFIX_LEN); [done..|].
  change LEAF_CELL_PREFIX_LEN with 24.
  apply (eq_by_cut _ _ _ 2); [lia..|congruence|]. apply (eq_by_cut _ _ _ 3); [lia..|congruence|].
  apply (eq_by_cut _ _ _ 4); [lia..|congruence|]. apply (eq_by_cut _ _ _ 8); [lia..|congruence|].
  apply (eq_by_cut _ _ _ 12); [lia..|congruence|]. apply (eq_by_cut _ _ _ 20); [lia..|congruence|].
  congruence.
Qed.

Lemma leaf_cell_prefix_encode_layout c p n k :
  leaf_cell_prefix_validate c p n k = Ok tt →
  ∃ b, leaf_cell_prefix_encode c p n = Ok b ∧ leaf_prefix_layout c b.
Proof.
  intros V. apply leaf_cell_prefix_validate_transfer with (p' := p) (n' := n) (k' := InvalidInput) in V; [|done].
  assert (LEAF_CELL_PREFIX_LEN = 24) as HP by done.
  unfold leaf_cell_prefix_encode. rewrite V, bind_ok. cbv zeta.
  repeat (rewrite write_at_ok by slice_side; rewrite ?bind_ok).
  eexists; split; [reflexivity|]. rewrite HP.
  constructor; try slice_side; slice_simpl; reflexivity.
Qed.

Lemma leaf_cell_prefix_encode_inv c p n b :
  leaf_cell_prefix_encode c p n = Ok b →
  leaf_cell_prefix_validate c p n InvalidInput = Ok tt ∧ leaf_prefix_layout c b.
Proof.
  intros E. assert (leaf_cell_prefix_validate c p n InvalidInput = Ok tt) as V
    by (unfold leaf_cell_prefix_encode in E; by bind_inv).
  split; [done|]. destruct (leaf_cell_prefix_encode_layout _ _ _ _ V) as (b' & E' & L). congruence.
Qed.

Lemma leaf_cell_prefix_decode_ok c bytes p n k :
  LEAF_CELL_PREFIX_LEN ≤ len bytes →
  leaf_prefix_layout c (slice bytes 0 LEAF_CELL_PREFIX_LEN) → leaf_prefix_wf c →
  leaf_cell_prefix_validate c p n k = Ok tt → leaf_cell_prefix_decode bytes p n = Ok c.
Proof.
  intros Hl [] [] V. assert (LEAF_CELL_PREFIX_LEN = 24) as HP by done.
  apply leaf_cell_prefix_validate_transfer with (p' := p) (n' := n) (k' := InvalidData) in V; [|done].
  unfold leaf_cell_prefix_decode.
  eapply bind_step; [by rewrite get_range_some by lia|].
  eapply bind_step; [eapply (read_field _ _ 2); [lia..| |eassumption]; done|].
  eapply bind_step; [eapply (read_field _ _ 1); [lia..| |eassumption]; apply value_kind_u8_fits|].
  eapply bind_step; [apply value_kind_tag|].
  eapply bind_step; [eapply (read_field _ _ 1); [lia..| |eassumption]; apply compression_u8_fits|].
  eapply bind_step; [apply compression_tag|].
  do 2 (eapply bind_step; [eapply (read_field _ _ 4); [lia..| |eassumption]; done|]).
  eapply bind_step; [eapply (read_field _ _ 8); [lia..| |eassumption]; done|].
  eapply bind_step; [eapply (read_field _ _ 4); [lia..| |eassumption]; done|].
  cbv zeta. destruct c; cbn in *. eapply bind_step; [exact V|done].
Qed.

Lemma leaf_cell_prefix_decode_inv c bytes p n :
  leaf_cell_prefix_decode bytes p n = Ok c →
  LEAF_CELL_PREFIX_LEN ≤ len bytes ∧ leaf_prefix_layout c (slice bytes 0 LEAF_CELL_PREFIX_LEN) ∧
  leaf_prefix_wf c ∧ leaf_cell_prefix_validate c p n InvalidData = Ok tt.
Proof.
  unfold leaf_cell_prefix_decode. intros H. bind_inv. field_inv.
  repeat match goal with
  | H : value_kind_try_from _ = Ok _ |- _ => apply value_kind_tag_inv in H
  | H : compression_try_from _ = Ok _ |- _ => apply compression_tag_inv in H
  end. subst. assert (LEAF_CELL_PREFIX_LEN = 24) by done.
  split; [lia|]. split_and!; [|by constructor|done].
  constructor; try done. rewrite len_slice; lia.
Qed.

(** ** Cell codecs *)

Lemma encoded_key_length_inv key n :
  encoded_key_length key = Ok n → n = len key ∧ 0 < len key ≤ MAX_ENCODED_KEY_LEN.
Proof.
  unfold encoded_key_length. intros H. bind_inv. apply try_fit_inv in H as [-> ?].
  pose proof (len_nonneg key). lia.
Qed.

Lemma encoded_key_length_ok key :
  0 < len key ≤ MAX_ENCODED_KEY_LEN → encoded_key_length key = Ok (len key).
Proof.
  assert (MAX_ENCODED_KEY_LEN = 2004) by done. intros. unfold encoded_key_length.
  apply skip_guard; [lia|]. by rewrite try_fit_small by lia.
Qed.

Lemma write_cell_inv prefix key stored cell :
  write_cell prefix key stored = Ok cell → cell = prefix ++ key ++ stored.
Proof. unfold write_cell. intros. by bind_inv. Qed.

Lemma write_cell_ok prefix key stored :
  len prefix + len key + len stored < 2 ^ 64 →
  write_cell prefix key stored = Ok (prefix ++ key ++ stored).
Proof.
  intros. pose proof (len_nonneg prefix). pose proof (len_nonneg key). pose proof (len_nonneg stored).
  unfold write_cell. rewrite checked_add_small by lia. cbn [mbind option_bind].
  rewrite checked_add_small by lia. done.
Qed.

Lemma slices_of_cell (prefix key stored : list byte) a b :
  len prefix = a → len prefix + len key = b →
  slice (prefix ++ key ++ stored) 0 a = prefix ∧
  slice (prefix ++ key ++ stored) a b = key ∧
  slice (prefix ++ key ++ stored) b (b + len stored) = stored.
Proof.
  intros <- <-. pose proof (len_nonneg key). split_and!.
  - by rewrite slice_app_l, slice_all by lia.
  - by rewrite slice_app_r, slice_app_l, slice_all by lia.
  - by rewrite slice_app_r, slice_app_r, slice_all by lia.
Qed.

Lemma cell_of_slices (cell : list byte) a b :
  0 ≤ a ≤ b → b ≤ len cell →
  cell = slice cell 0 a ++ slice cell a b ++ slice cell b (len cell).
Proof.
  intros. rewrite <- slice_cut by lia. rewrite <- slice_cut by lia. by rewrite slice_full.
Qed.

Lemma leaf_prefix_key_bound c p n k :
  leaf_cell_prefix_validate c p n k = Ok tt → key_length c ≠ 0 ∧ key_length c ≤ MAX_ENCODED_KEY_LEN.
Proof. unfold leaf_cell_prefix_validate. intros H. case_match; [done|]. lia. Qed.

(** The decoder's first half, shared by the three kinds of leaf cell. *)
Lemma leaf_cell_decode_prefix {CK : Checksum} c prefix key stored p n k :
  leaf_prefix_layout c prefix → leaf_prefix_wf c → leaf_cell_prefix_validate c p n k = Ok tt →
  key_length c = len key →
  leaf_cell_prefix_decode (prefix ++ key ++ stored) p n = Ok c ∧
  checked_add LEAF_CELL_PREFIX_LEN (key_length c) = Some (24 + len key) ∧
  get_range (prefix ++ key ++ stored) LEAF_CELL_PREFIX_LEN (24 + len key) = Some key.
Proof.
  intros L W V Hk. assert (LEAF_CELL_PREFIX_LEN = 24) as HP by done.
  pose proof (lp_len _ _ L). pose proof (leaf_prefix_key_bound _ _ _ _ V).
  assert (MAX_ENCODED_KEY_LEN = 2004) by done.
  pose proof (len_nonneg key). pose proof (len_nonneg stored).
  destruct (slices_of_cell prefix key stored 24 (24 + len key)) as (Hs1 & Hs2 & _); [lia..|].
  split_and!.
  - eapply leaf_cell_prefix_decode_ok; [rewrite !len_app; lia| |done..]. by rewrite HP, Hs1.
  - rewrite checked_add_small by lia. by rewrite HP, Hk.
  - rewrite get_range_some by (rewrite ?len_app; lia). by rewrite HP, Hs2.
Qed.

Section CellCodecs.
Context {CK : Checksum}.

(** One encoder per kind of leaf value, as the tree calls them. *)
Definition encode_leaf_value (key : list byte) (v : LeafValueRef) (page_id next_page_id : Z)
    : io_result (list byte) :=
  match v with
  | Inline comp logical stored _ => encode_inline_leaf_cell key logical comp stored
  | OverflowRef comp logical stored_len head crc =>
      encode_overflow_leaf_cell key logical comp stored_len head crc page_id next_page_id
  | Tombstone => encode_tombstone_leaf_cell key
  end.

Definition leaf_value_wf (v : LeafValueRef) : Prop :=
  match v with
  | Inline _ logical stored crc => is_u32 logical ∧ crc = stored_value_checksum stored
  | OverflowRef _ logical stored_len head crc =>
      is_u32 logical ∧ is_u32 stored_len ∧ is_u64 head ∧ is_u32 crc
  | Tombstone => True
  end.

(** The prefix that describes a leaf value. *)
Definition leaf_prefix_of (key_len : Z) (v : LeafValueRef) : LeafCellPrefix :=
  match v with
  | Inline comp logical stored crc =>
      {| key_length := key_len; value_kind := KindInline; compression := comp;
         logical_length := logical; stored_length := len stored; overflow_head := 0;
         stored_crc32 := crc |}
  | OverflowRef comp logical stored_len head crc =>
      {| key_length := key_len; value_kind := KindOverflow; compression := comp;
         logical_length := logical; stored_length := stored_len; overflow_head := head;
         stored_crc32 := crc |}
  | Tombstone =>
      {| key_length := key_len; value_kind := KindTombstone; compression := NoCompression;
         logical_length := 0; stored_length := 0; overflow_head := 0; stored_crc32 := 0 |}
  end.

Definition inline_bytes (v : LeafValueRef) : list byte :=
  match v with Inline _ _ stored _ => stored | _ => [] end.

(** All three encoders produce the prefix, the key and the inline bytes. *)
Lemma encode_leaf_value_inv key v p n cell :
  leaf_value_wf v → encode_leaf_value key v p n = Ok cell →
  ∃ prefix, cell = prefix ++ key ++ inline_bytes v ∧
    leaf_prefix_layout (leaf_prefix_of (len key) v) prefix ∧
    leaf_cell_prefix_validate (leaf_prefix_of (len key) v) p n InvalidInput = Ok tt ∧
    leaf_prefix_wf (leaf_prefix_of (len key) v).
Proof.
  intros W E. assert (MAX_ENCODED_KEY_LEN = 2004) by done.
  destruct v as [comp l stored crc|comp l sl hd crc|]; cbn in W, E.
  - unfold encode_inline_leaf_cell in E. bind_inv. apply encoded_key_length_inv in H0 as [-> ?].
    apply try_fit_inv in H1 as [-> ?]. apply write_cell_inv in E as ->.
    destruct W as [? ->]. apply leaf_cell_prefix_encode_inv in H2 as [V L].
    eexists; split_and!; [done|exact L| |].
    + by eapply leaf_cell_prefix_validate_transfer.
    + pose proof (len_nonneg stored). constructor; cbn; unfold fits in *; try lia. apply crc32_u32.
  - unfold encode_overflow_leaf_cell in E. bind_inv. apply encoded_key_length_inv in H0 as [-> ?].
    apply write_cell_inv in E as ->. apply leaf_cell_prefix_encode_inv in H1 as [V L].
    destruct W as (? & ? & ? & ?).
    eexists; split_and!; [done|exact L|done|]. constructor; cbn; unfold fits in *; lia.
  - unfold encode_tombstone_leaf_cell in E. bind_inv. apply encoded_key_length_inv in H0 as [-> ?].
    apply write_cell_inv in E as ->. apply leaf_cell_prefix_encode_inv in H1 as [V L].
    eexists; split_and!; [done|exact L| |].
    + by eapply leaf_cell_prefix_validate_transfer.
    + constructor; cbn; unfold fits in *; lia.
Qed.

Lemma leaf_value_decode_ok key v p n prefix :
  leaf_value_wf v →
  leaf_prefix_layout (leaf_prefix_of (len key) v) prefix →
  leaf_cell_prefix_validate (leaf_prefix_of (len key) v) p n InvalidInput = Ok tt →
  leaf_prefix_wf (leaf_prefix_of (len key) v) →
  leaf_cell_ref_decode (prefix ++ key ++ inline_bytes v) p n
  = Ok {| leaf_key_bytes := key; leaf_value := v |}.
Proof.
  intros W L V Hwf. assert (LEAF_CELL_PREFIX_LEN = 24) as HP by done.
  pose proof (lp_len _ _ L) as Hpl. pose proof (len_nonneg key). pose proof (len_nonneg (inline_bytes v)).
  pose proof (leaf_prefix_key_bound _ _ _ _ V) as Hkb. assert (MAX_ENCODED_KEY_LEN = 2004) by done.
  assert (key_length (leaf_prefix_of (len key) v) = len key) as Hk by (by destruct v).
  destruct (leaf_cell_decode_prefix _ _ _ (inline_bytes v) _ _ _ L Hwf V Hk) as (D1 & D2 & D3).
  destruct (slices_of_cell prefix key (inline_bytes v) 24 (24 + len key)) as (_ & _ & Hs); [lia..|].
  unfold leaf_cell_ref_decode. rewrite D1, bind_ok, D2. cbn [ok_or]. rewrite bind_ok, D3. cbn [ok_or].
  rewrite bind_ok. destruct v as [comp l stored crc|comp l sl hd crc|];
    cbn [value_kind leaf_prefix_of compression logical_length stored_length overflow_head stored_crc32
         inline_bytes] in *.
  - destruct W as [? ->]. pose proof (lpwf_stored _ Hwf) as Hst. cbn in Hst. unfold fits in Hst.
    rewrite try_fit_small by lia. cbn [ok_or]. rewrite bind_ok, checked_add_small by lia.
    cbn [ok_or]. rewrite bind_ok, !len_app. decide_ifs.
    rewrite get_range_some by (rewrite ?len_app; lia). cbn [ok_or]. rewrite bind_ok.
    rewrite Hs, Z.eqb_refl. done.
  - rewrite !len_app, len_nil. by decide_ifs.
  - rewrite !len_app, len_nil. by decide_ifs.
Qed.

(** What a leaf cell decodes to, it was encoded from. *)
Lemma leaf_value_decode_inv cell p n r :
  leaf_cell_ref_decode cell p n = Ok r →
  leaf_value_wf (leaf_value r) ∧ encode_leaf_value (leaf_key_bytes r) (leaf_value r) p n = Ok cell.
Proof.
  unfold leaf_cell_ref_decode. intros H. bind_inv. assert (LEAF_CELL_PREFIX_LEN = 24) as HP by done.
  rename x into c, H0 into D. apply leaf_cell_prefix_decode_inv in D as (Hl & L & W & V).
  pose proof (leaf_prefix_key_bound _ _ _ _ V) as Hkb. assert (MAX_ENCODED_KEY_LEN = 2004) by done.
  apply checked_add_inv in H1 as [-> ?]. apply get_range_inv in H2 as (-> & ? & ?). rewrite HP in *.
  assert (0 < key_length c) as Hk0.
  { pose proof (lpwf_key _ W) as []. lia. }
  assert (len (slice cell 24 (24 + key_length c)) = key_length c) as Hkl by (rewrite len_slice; lia).
  pose proof (cell_of_slices cell 24 (24 + key_length c) ltac:(lia) ltac:(lia)) as Hcell.
  cbn [leaf_key_bytes leaf_value].
  destruct c as [kl kind comp ll sl hd crc]; cbn [key_length] in *.
  assert (∀ p' n', (kind = KindOverflow → p' = p ∧ n' = n) →
    leaf_cell_prefix_encode {| key_length := kl; value_kind := kind; compression := comp;
      logical_length := ll; stored_length := sl; overflow_head := hd; stored_crc32 := crc |} p' n'
    = Ok (slice cell 0 24)) as Henc.
  { intros p' n' Hov. eapply leaf_cell_prefix_validate_transfer with (p' := p') (n' := n') (k' := InvalidInput) in V; [|done].
    destruct (leaf_cell_prefix_encode_layout _ _ _ _ V) as (b & E & L').
    by rewrite (leaf_prefix_layout_unique _ _ _ L L'). }
  pose proof W as [? ? ? ? ?]; cbn in *.
  assert (len (slice cell 0 24) = 24) as Hpl by (rewrite len_slice; lia).
  destruct kind; bind_inv.
  - field_inv. subst. bool_to_prop.
    assert (hd = 0) as ->.
    { unfold leaf_cell_prefix_validate in V. bind_inv. cbn in *. bind_inv. lia. }
    assert (len (slice cell (24 + kl) (24 + kl + sl)) = sl) as Hsl by (rewrite len_slice; lia).
    cbn [leaf_value_wf encode_leaf_value]. split; [done|].
    unfold encode_inline_leaf_cell. rewrite encoded_key_length_ok by lia. rewrite bind_ok.
    rewrite Hsl, try_fit_small by (unfold fits in *; lia). cbn [ok_or]. rewrite bind_ok, Hkl, Hc0.
    rewrite Henc by done. rewrite bind_ok, write_cell_ok by lia. f_equal. rewrite Hc. symmetry. exact Hcell.
  - bool_to_prop. split; [done|]. cbn [encode_leaf_value]. unfold encode_overflow_leaf_cell.
    rewrite encoded_key_length_ok by lia. rewrite bind_ok, Hkl, Henc by done.
    rewrite bind_ok, write_cell_ok by (change (len (@nil byte)) with 0; lia). f_equal.
    rewrite Hcell at 3. by rewrite (slice_empty _ (24 + kl) (len cell)) by lia.
  - bool_to_prop. assert (comp = NoCompression ∧ ll = 0 ∧ sl = 0 ∧ hd = 0 ∧ crc = 0) as (-> & -> & -> & -> & ->).
    { unfold leaf_cell_prefix_validate in V. bind_inv. cbn in *. bind_inv. destruct comp; cbn in *; [split_and!; first [done | lia] | lia]. }
    split; [done|]. cbn [encode_leaf_value]. unfold encode_tombstone_leaf_cell.
    rewrite encoded_key_length_ok by lia. rewrite bind_ok, Hkl, Henc by done.
    rewrite bind_ok, write_cell_ok by (change (len (@nil byte)) with 0; lia). f_equal.
    rewrite Hcell at 3. by rewrite (slice_empty _ (24 + kl) (len cell)) by lia.
Qed.
End CellCodecs.

(** ** Internal cells and locators *)

Lemma internal_cell_prefix_validate_kind c p n k k' :
  internal_cell_prefix_validate c p n k = Ok tt → internal_cell_prefix_validate c p n k' = Ok tt.
Proof.
  unfold internal_cell_prefix_validate. case_match; [done|]. apply validate_reference_kind.
Qed.

(** The bytes of an internal cell prefix. *)
Definition internal_prefix_bytes (c : InternalCellPrefix) : list byte :=
  le_bytes 2 (icp_key_length c) ++ zeros 2 ++ le_bytes 8 (icp_right_child c).

Lemma len_internal_prefix_bytes c : len (internal_prefix_bytes c) = INTERNAL_CELL_PREFIX_LEN.
Proof. unfold internal_prefix_bytes. rewrite !len_app, !len_le_bytes, len_zeros by lia. done. Qed.

Lemma internal_cell_prefix_encode_iff c p n b :
  internal_cell_prefix_encode c p n = Ok b ↔
  internal_cell_prefix_validate c p n InvalidInput = Ok tt ∧ b = internal_prefix_bytes c.
Proof.
  assert (INTERNAL_CELL_PREFIX_LEN = 12) as HP by done.
  assert (internal_cell_prefix_validate c p n InvalidInput = Ok tt →
          internal_cell_prefix_encode c p n = Ok (internal_prefix_bytes c)) as Henc.
  { intros V. unfold internal_cell_prefix_encode. rewrite V, bind_ok. cbv zeta.
    repeat (rewrite write_at_ok by slice_side; rewrite ?bind_ok). reflexivity. }
  split; [|by intros [V ->]; auto]. intros E.
  assert (internal_cell_prefix_validate c p n InvalidInput = Ok tt) as V
    by (unfold internal_cell_prefix_encode in E; by bind_inv).
  split; [done|]. specialize (Henc V). congruence.
Qed.

Lemma internal_prefix_bytes_slices c key :
  let cell := internal_prefix_bytes c ++ key in
  slice (slice cell 0 12) 0 2 = le_bytes 2 (icp_key_length c) ∧
  slice (slice cell 0 12) 2 4 = zeros 2 ∧
  slice (slice cell 0 12) 4 12 = le_bytes 8 (icp_right_child c) ∧
  slice cell 12 (12 + len key) = key.
Proof.
  cbv zeta. pose proof (len_internal_prefix_bytes c) as Hl. change INTERNAL_CELL_PREFIX_LEN with 12 in Hl.
  rewrite (slice_app_l _ _ 0 12), (slice_all (internal_prefix_bytes c) 0 12) by lia.
  rewrite (slice_app_r _ _ 12), (slice_all key) by lia. unfold internal_prefix_bytes. split_and!; [..|done].
  - by rewrite slice_app_l, slice_all by slice_side.
  - by rewrite slice_app_r, slice_app_l, slice_all by slice_side.
  - by rewrite slice_app_r, slice_app_r, slice_all by slice_side.
Qed.

Lemma internal_cell_decode_encode key child p n cell :
  is_u64 child → encode_internal_cell key child p n = Ok cell →
  internal_cell_ref_decode cell p n = Ok {| internal_key_bytes := key; internal_right_child := child |}.
Proof.
  intros Hc E. unfold encode_internal_cell in E. bind_inv.
  apply encoded_key_length_inv in H as [-> ?]. apply write_cell_inv in E as ->.
  apply internal_cell_prefix_encode_iff in H0 as [V ->]. rewrite app_nil_r.
  assert (INTERNAL_CELL_PREFIX_LEN = 12) as HP by done. assert (MAX_ENCODED_KEY_LEN = 2004) by done.
  pose proof (len_internal_prefix_bytes {| icp_key_length := len key; icp_right_child := child |}) as Hl.
  destruct (internal_prefix_bytes_slices {| icp_key_length := len key; icp_right_child := child |} key)
    as (S1 & S2 & S3 & S4). cbn [icp_key_length icp_right_child] in *.
  set (cell := internal_prefix_bytes _ ++ key) in *.
  assert (len cell = 12 + len key) as Hcl by (unfold cell; rewrite len_app; lia).
  assert (len (slice cell 0 12) = 12) as Hpl by (rewrite len_slice; lia).
  unfold internal_cell_ref_decode, internal_cell_prefix_decode. rewrite HP.
  rewrite get_range_some by lia. cbn [ok_or]. rewrite bind_ok.
  rewrite get_range_some by lia. cbn [ok_or]. rewrite bind_ok, S2, require_zero_zeros, bind_ok.
  unfold read_u16, read_u64. rewrite (read_field _ _ 2 (len key)); [|lia|lia|lia|unfold fits; lia|done].
  rewrite bind_ok, (read_field _ _ 8 child); [|lia|lia|lia|done|done]. rewrite bind_ok. cbv zeta.
  apply internal_cell_prefix_validate_kind with (k' := InvalidData) in V. rewrite V, !bind_ok.
  cbn [icp_key_length icp_right_child]. rewrite checked_add_small by lia. cbn [ok_or]. rewrite bind_ok.
  decide_ifs. rewrite get_range_some by lia. cbn [ok_or]. by rewrite bind_ok, S4.
Qed.

Lemma internal_cell_encode_decode cell p n r :
  internal_cell_ref_decode cell p n = Ok r →
  is_u64 (internal_right_child r) ∧
  encode_internal_cell (internal_key_bytes r) (internal_right_child r) p n = Ok cell.
Proof.
  unfold internal_cell_ref_decode, internal_cell_prefix_decode. intros H. bind_inv. field_inv. subst.
  bool_to_prop. assert (INTERNAL_CELL_PREFIX_LEN = 12) as HP by done. rewrite HP in *.
  cbn [icp_key_length icp_right_child internal_key_bytes internal_right_child] in *.
  match goal with V : internal_cell_prefix_validate {| icp_key_length := ?k |} _ _ _ = Ok _ |- _ =>
    rename k into kl; assert (kl ≠ 0 ∧ kl ≤ MAX_ENCODED_KEY_LEN) as Hkl
      by (unfold internal_cell_prefix_validate in V; bind_inv; cbn in *; lia);
    apply internal_cell_prefix_validate_kind with (k' := InvalidInput) in V; rename V into Hval end.
  assert (MAX_ENCODED_KEY_LEN = 2004) as HM by done.
  assert (len (slice cell 12 (12 + kl)) = kl) as Hlk by (rewrite len_slice; lia).
  split; [done|]. unfold encode_internal_cell.
  rewrite encoded_key_length_ok by (rewrite Hlk; unfold fits in *; lia). rewrite bind_ok, Hlk.
  erewrite (proj2 (internal_cell_prefix_encode_iff _ _ _ _)); [|by split].
  rewrite bind_ok, write_cell_ok by (rewrite len_internal_prefix_bytes; change (len (@nil byte)) with 0; lia).
  f_equal. rewrite app_nil_r.
  transitivity (slice cell 0 12 ++ slice cell 12 (len cell));
    [|by rewrite <- slice_cut, slice_full by lia].
  rewrite Hc. f_equal. unfold internal_prefix_bytes. cbn [icp_key_length icp_right_child].
  assert (len (slice cell 0 12) = 12) as Hpl by (rewrite len_slice; lia).
  rewrite <- (slice_full (slice cell 0 12)), Hpl, (slice_cut _ 0 2 12), (slice_cut _ 2 4 12) by lia.
  rewrite (len_slice (slice cell 0 12)) in * by lia.
  f_equal; [done|]. f_equal; done.
Qed.

Record locator_wf (l : Locator) : Prop := {
  lwf_page : is_u64 (leaf_page_id l);
  lwf_slot : is_u16 (slot_index l);
  lwf_crc : is_u32 (serialized_key_crc32 l);
}.

Lemma locator_encode_slices l :
  len (locator_encode l) = 16 ∧ slice (locator_encode l) 0 8 = le_bytes 8 (leaf_page_id l) ∧
  slice (locator_encode l) 8 10 = le_bytes 2 (slot_index l) ∧
  slice (locator_encode l) 10 12 = zeros 2 ∧
  slice (locator_encode l) 12 16 = le_bytes 4 (serialized_key_crc32 l).
Proof.
  unfold locator_encode. cbv zeta. split_and!; [slice_side|slice_simpl; reflexivity..].
Qed.

Lemma locator_decode_encode l :
  locator_wf l → leaf_page_id l ≠ 0 → locator_decode (locator_encode l) = Ok l.
Proof.
  intros [] Hnz. destruct (locator_encode_slices l) as (Hl & S1 & S2 & S3 & S4).
  unfold locator_decode. apply skip_guard; [lia|].
  eapply bind_step; [by rewrite get_range_some by lia|].
  eapply bind_step; [rewrite S3; apply require_zero_zeros|].
  eapply bind_step; [eapply (read_field _ _ 8); [lia..| |eassumption]; done|].
  eapply bind_step; [eapply (read_field _ _ 2); [lia..| |eassumption]; done|].
  eapply bind_step; [eapply (read_field _ _ 4); [lia..| |eassumption]; done|].
  cbv zeta. apply skip_guard; [cbn; lia|]. by destruct l.
Qed.

Lemma locator_decode_inv b l :
  locator_decode b = Ok l → locator_wf l ∧ leaf_page_id l ≠ 0 ∧ b = locator_encode l.
Proof.
  unfold locator_decode. intros H. bind_inv. field_inv. bool_to_prop. subst.
  cbn [leaf_page_id] in *. split_and!; [by constructor|done|].
  match goal with |- _ = locator_encode ?l => destruct (locator_encode_slices l) as (Hl & S1 & S2 & S3 & S4) end.
  cbn in S1, S2, S4. rewrite len_slice in * by lia.
  apply (eq_by_slices _ _ 16); [done..|].
  apply (eq_by_cut _ _ _ 8); [lia..|by rewrite S1|]. apply (eq_by_cut _ _ _ 10); [lia..|by rewrite S2|].
  apply (eq_by_cut _ _ _ 12); [lia..|by rewrite S3|]. by rewrite S4.
Qed.

(** ** Values *)

Section ValueLemmas.
Context {LZ : Lz4}.

Lemma encode_value_inv raw v :
  encode_value raw = Ok v →
  v = BorrowedRaw raw ∨
  ∃ cap c, compress_into raw cap = Some c ∧ v = Compressed (le_bytes 4 (len raw) ++ c) ∧
    64 ≤ len raw < 2 ^ 32 ∧ len (le_bytes 4 (len raw) ++ c) < len raw * 85 / 100.
Proof.
  unfold encode_value. case_match eqn:Hs; [intros; bind_inv; by left|]. intros H. bind_inv.
  unfold checked_end in *. bind_inv. field_inv. subst.
  set (Z0 := zeros _) in *. clearbody Z0. rewrite !len_put in *. rewrite len_le_bytes in *.
  pose proof (lz4_fits _ _ _ H4) as Hfit. rewrite len_slice in Hfit by slice_side.
  case_match; bind_inv; [right|by left].
  assert (COMPRESSION_MIN_LENGTH = 64) by done.
  match goal with H : compress_into raw _ = Some ?c |- _ => rename c into cmp; rename H into Hcmp end.
  pose proof (len_nonneg cmp).
  match goal with |- context [put (put ?m 0 _) 4 cmp] =>
    assert (slice (put (put m 0 (le_bytes 4 (len raw))) 4 cmp) 0 (4 + len cmp)
            = le_bytes 4 (len raw) ++ cmp) as Hsl end.
  { rewrite (slice_cut _ 0 4) by lia. f_equal; slice_simpl; done. }
  eexists _, _. split; [exact Hcmp|]. split; [by rewrite Hsl|]. split; [lia|].
  unfold compression_is_beneficial in *. bind_inv. field_inv. subst. bool_to_prop.
  rewrite Hsl in *. unfold COMPRESSION_PERCENT in *. lia.
Qed.

Lemma put_whole (b v : list byte) : len v = len b → put b 0 v = v.
Proof.
  intros. pose proof (len_nonneg b). rewrite put_inside by lia.
  rewrite drop_ge by (unfold len in *; lia). by rewrite app_nil_r.
Qed.

Lemma decompress_value_into_ok raw c n maximum :
  decompress_into c (len raw) = Some raw → n = len raw → len raw < 2 ^ 32 → len raw ≤ maximum →
  decompress_value_into (le_bytes 4 n ++ c) n maximum = Ok raw.
Proof.
  intros D -> Hn Hmax. pose proof (len_nonneg raw). pose proof (len_nonneg c).
  assert (len (le_bytes 4 (len raw) ++ c) = 4 + len c) as Hl by (by rewrite len_app, len_le_bytes).
  unfold decompress_value_into.
  eapply bind_step.
  { apply (read_field _ _ 4 (len raw)); [lia|lia|lia|unfold fits; lia|].
    by rewrite slice_app_l, slice_all by slice_side. }
  apply skip_guard; [lia|]. rewrite try_fit_small by lia. cbn [ok_or]. rewrite bind_ok.
  apply skip_guard; [lia|]. rewrite get_range_some by lia. cbn [ok_or]. rewrite bind_ok.
  rewrite slice_app_r, slice_all by slice_side. cbv zeta. rewrite len_zeros, D by lia.
  cbn [ok_or]. rewrite bind_ok. apply skip_guard; [lia|].
  rewrite put_whole by slice_side. rewrite get_range_some by lia. cbn [ok_or]. by rewrite slice_full.
Qed.

(** The in-place decompressor computes what the two-buffer one computes. *)
Lemma decompress_in_place_eq stored logical maximum :
  0 ≤ logical → logical + len stored < 2 ^ 64 →
  decompress_value_in_place stored logical maximum = decompress_value_into stored logical maximum.
Proof.
  intros Hlog Htot. pose proof (len_nonneg stored).
  unfold decompress_value_in_place, decompress_value_into.
  destruct (read_u32 stored 0) as [e|] eqn:Hr; [|done]. rewrite !bind_ok. case_match; [done|].
  rewrite try_fit_small by lia. cbn [ok_or]. rewrite !bind_ok. case_match; [done|].
  assert (4 ≤ len stored) as H4 by (unfold read_u32 in Hr; bind_inv; field_inv; lia).
  rewrite checked_add_small by lia. cbn [ok_or]. rewrite bind_ok. cbv zeta.
  replace (logical + len stored - len stored) with logical by lia.
  set (grown := stored ++ zeros logical).
  assert (len grown = len stored + logical) as Hg by (unfold grown; slice_side).
  assert (slice grown 0 (len stored) = stored) as Hgs.
  { unfold grown. by rewrite slice_app_l, slice_all by lia. }
  rewrite Hgs. set (moved := put grown logical stored).
  assert (slice moved logical (logical + len stored) = stored) as Hm.
  { unfold moved. by rewrite slice_put_same by lia. }
  assert (len moved = len stored + logical) as Hml by (unfold moved; by rewrite len_put).
  rewrite Hm, !get_range_some by lia. cbn [ok_or]. rewrite !bind_ok.
  rewrite len_slice, len_zeros by lia. rewrite Z.sub_0_r.
  destruct (decompress_into _ _) as [d|] eqn:Hd; [|done]. cbn [ok_or]. rewrite !bind_ok.
  case_match eqn:Hdl; [done|]. assert (len d = logical) as Hdl' by lia.
  rewrite !put_whole by (rewrite ?len_slice, ?len_zeros; lia).
  rewrite slice_app_l, slice_all by lia. rewrite get_range_some by lia. cbn [ok_or].
  by rewrite slice_all by lia.
Qed.
End ValueLemmas.

(** ** A concrete block codec for the witnesses

    Runs of one byte are stored as the byte and a count, everything else
    verbatim. *)

Definition run_compress (raw : list byte) (cap : Z) : option (list byte) :=
  match raw with
  | x :: _ =>
      if bool_decide (raw = replicate (length raw) x) && (len raw <? 2 ^ 32) && (6 <=? cap)
      then Some (Byte.x01 :: x :: le_bytes 4 (len raw))
      else if len raw + 1 <=? cap then Some (Byte.x00 :: raw) else None
  | [] => if 1 <=? cap then Some [Byte.x00] else None
  end.

Definition run_decompress (c : list byte) (cap : Z) : option (list byte) :=
  match c with
  | Byte.x00 :: raw => if len raw <=? cap then Some raw else None
  | Byte.x01 :: x :: n =>
      if le_combine n <=? cap then Some (replicate (Z.to_nat (le_combine n)) x) else None
  | _ => None
  end.

Lemma run_compress_fits raw cap c : run_compress raw cap = Some c → len c ≤ cap.
Proof.
  unfold run_compress. intros H. destruct raw as [|x raw]; repeat case_match; simplify_eq.
  - rewrite len_cons, len_nil. lia.
  - rewrite !len_cons, len_le_bytes. lia.
  - rewrite !len_cons in *. lia.
Qed.

Lemma run_decompress_fits c cap raw : run_decompress c cap = Some raw → len raw ≤ cap.
Proof.
  unfold run_decompress. intros H. repeat case_match; simplify_eq; try lia.
  unfold len. rewrite length_replicate. pose proof (le_combine_bound l0). lia.
Qed.

Lemma run_roundtrip raw cap c :
  run_compress raw cap = Some c → run_decompress c (len raw) = Some raw.
Proof.
  unfold run_compress, run_decompress. intros H.
  destruct raw as [|x raw]; [case_match; by simplify_eq|]. case_match eqn:Hc; simplify_eq.
  - rewrite !andb_true_iff, bool_decide_eq_true in Hc. destruct Hc as [[Hrep Hlt] _].
    pose proof (len_nonneg (x :: raw)).
    rewrite le_combine_bytes by (unfold fits; lia). rewrite Z.leb_refl.
    unfold len. rewrite Nat2Z.id. by rewrite <- Hrep.
  - case_match; simplify_eq. by rewrite Z.leb_refl.
Qed.

#[export] Instance run_lz4 : Lz4.
Proof.
  refine {| get_maximum_output_size n := n + 16; compress_into := run_compress;
            decompress_into := run_decompress |}.
  - apply run_compress_fits.
  - apply run_decompress_fits.
  - apply run_roundtrip.
Defined.

(** ** Theorems *)

Section CellTheorems.
Context {CK : Checksum} {LZ : Lz4}.

(** Encoding a leaf value (inline, overflow reference or tombstone) under a
    key gives a cell exactly when decoding that cell gives back the key and the
    value.  Decoding therefore loses nothing and accepts no other bytes. *)
Theorem leaf_cell_roundtrip key v p n cell :
  leaf_value_wf v →
  (encode_leaf_value key v p n = Ok cell ↔
   leaf_cell_ref_decode cell p n = Ok {| leaf_key_bytes := key; leaf_value := v |}).
Proof.
  intros W. split.
  - intros E. destruct (encode_leaf_value_inv _ _ _ _ _ W E) as (prefix & -> & L & V & Hwf).
    by apply leaf_value_decode_ok.
  - intros D. apply leaf_value_decode_inv in D as [_ E]. done.
Qed.

(** The same for internal cells: a separator key and its right child. *)
Theorem internal_cell_roundtrip key child p n cell :
  is_u64 child →
  (encode_internal_cell key child p n = Ok cell ↔
   internal_cell_ref_decode cell p n
   = Ok {| internal_key_bytes := key; internal_right_child := child |}).
Proof.
  intros Hc. split; [by apply internal_cell_decode_encode|].
  intros D. by apply internal_cell_encode_decode in D as [_ E].
Qed.

(** Whatever [encode_value] chooses to store restores the value: raw bytes
    are the value, and a compressed block decompresses to it through both
    decompressors.  A block is stored only when it is shorter than 85% of a
    value of at least 64 bytes, which are the lengths the cell validator
    demands of compressed cells. *)
Theorem stored_value_roundtrip raw v maximum :
  encode_value raw = Ok v → len raw ≤ maximum →
  match v with
  | BorrowedRaw b => b = raw
  | Compressed b =>
      decompress_value_into b (len raw) maximum = Ok raw ∧
      decompress_value_in_place b (len raw) maximum = Ok raw ∧
      64 ≤ len raw ∧ 4 ≤ len b < len raw * COMPRESSION_PERCENT / 100
  end.
Proof.
  intros E Hmax. apply encode_value_inv in E as [->|(cap & c & Hc & -> & Hl & Hb)]; [done|].
  pose proof (len_nonneg c).
  pose proof (decompress_value_into_ok raw c _ maximum (lz4_roundtrip _ _ _ Hc) eq_refl
                ltac:(lia) Hmax) as D.
  assert (len raw * 85 / 100 ≤ len raw) by (apply Z.div_le_upper_bound; lia).
  cbv iota beta. rewrite decompress_in_place_eq by lia. unfold COMPRESSION_PERCENT.
  split_and!; [done|done|lia|rewrite len_app, len_le_bytes; lia|lia].
Qed.

(** The in-place decompressor is equivalent to the two-buffer one on every
    input whose combined length fits a [usize]: same value or same error. *)
Theorem decompress_in_place_equivalent stored logical maximum :
  0 ≤ logical → logical + len stored < 2 ^ 64 →
  decompress_value_in_place stored logical maximum = decompress_value_into stored logical maximum.
Proof. apply decompress_in_place_eq. Qed.

(** A sixteen-byte locator decodes to a location exactly when it is the
    encoding of that location and the leaf page id is nonzero. *)
Theorem locator_roundtrip b l :
  locator_decode b = Ok l ↔ locator_wf l ∧ leaf_page_id l ≠ 0 ∧ b = locator_encode l.
Proof.
  split; [apply locator_decode_inv|]. intros (W & Hnz & ->). by apply locator_decode_encode.
Qed.
End CellTheorems.

(** *** Witnesses *)

Definition example_key : list byte := le_bytes 4 1234.
Definition example_value : LeafValueRef :=
  Inline NoCompression 3 [Byte.x01; Byte.x02; Byte.x03] (crc32_iso [Byte.x01; Byte.x02; Byte.x03]).
Definition example_cell : list byte :=
  match encode_leaf_value example_key example_value 1 2 with Ok c => c | Err _ => [] end.

Lemma leaf_cell_roundtrip_witness :
  leaf_cell_ref_decode example_cell 1 2
  = Ok {| leaf_key_bytes := example_key; leaf_value := example_value |}.
Proof.
  apply (leaf_cell_roundtrip example_key example_value 1 2 example_cell).
  - split; vm_compute; done.
  - vm_compute. reflexivity.
Defined.

Definition example_internal_cell : list byte :=
  match encode_internal_cell example_key 3 1 8 with Ok c => c | Err _ => [] end.

Lemma internal_cell_roundtrip_witness :
  internal_cell_ref_decode example_internal_cell 1 8
  = Ok {| internal_key_bytes := example_key; internal_right_child := 3 |}.
Proof.
  apply (internal_cell_roundtrip example_key 3 1 8 example_internal_cell).
  - vm_compute. done.
  - vm_compute. reflexivity.
Defined.

Definition example_run : list byte := replicate 100 Byte.x41.

Definition example_block : list byte := le_bytes 4 100 ++ Byte.x01 :: Byte.x41 :: le_bytes 4 100.

Lemma stored_value_roundtrip_witness :
  decompress_value_into example_block (len example_run) 4096 = Ok example_run.
Proof.
  refine (proj1 (stored_value_roundtrip example_run (Compressed example_block) 4096 _ _)).
  - vm_compute. reflexivity.
  - vm_compute. discriminate.
Defined.

Lemma decompress_in_place_equivalent_witness :
  decompress_value_in_place [Byte.x03; Byte.x00; Byte.x00; Byte.x00; Byte.x00; Byte.x07; Byte.x08; Byte.x09] 3 9
  = decompress_value_into [Byte.x03; Byte.x00; Byte.x00; Byte.x00; Byte.x00; Byte.x07; Byte.x08; Byte.x09] 3 9.
Proof. apply decompress_in_place_equivalent; vm_compute; [discriminate | reflexivity]. Defined.
