(* ===== verification/BtreePage.v ===== *)
(** Slotted pages of the version 3 B+Tree (backend/btree/src/v3/page.rs):
    opening and validating a page, reading cells through the slot directory,
    rebuilding a page from ordered cells, replacing a cell in place, and the
    overflow and free pages. *)

From S2P Require Import Prelude BtreeFormat.

Definition page_checked_end (offset length : Z) (kind : error_kind) : io_result Z :=
  ok_or (checked_add offset length) (IoError kind "page offset overflow").

Definition slot_base (t : PageType) : io_result Z :=
  match t with
  | Leaf => Ok PAGE_HEADER_LEN
  | Internal =>
      ok_or (checked_add PAGE_HEADER_LEN INTERNAL_PREAMBLE_LEN) (invalid_data "slot base overflow")
  | Overflow | Free => Err (invalid_input "chain pages do not contain slots")
  end.

Record SlottedPage := {
  sp_bytes : list byte;
  sp_header : PageHeader;
  sp_page_id : Z;
  sp_next_page_id : Z;
  sp_overflow_payload_length : option Z;
}.

Record PageValidation := {
  pv_header : PageHeader;
  pv_page_id : Z;
  pv_next_page_id : Z;
  pv_overflow_payload_length : option Z;
}.

Definition page_slot (p : SlottedPage) (index : Z) : io_result Slot :=
  if cell_count (sp_header p) <=? index then Err (invalid_input "cell index is outside page") else
  base ← slot_base (page_type (sp_header p));
  offset ← ok_or (size ← checked_mul index SLOT_LEN; checked_add base size)
                 (invalid_data "slot offset overflow");
  end_ ← page_checked_end offset SLOT_LEN InvalidData;
  bytes ← ok_or (get_range (sp_bytes p) offset end_) (invalid_data "slot is outside page");
  slot_decode bytes.

Definition cell_range (p : SlottedPage) (index : Z) : io_result (Z * Z) :=
  slot ← page_slot p index;
  end_ ← page_checked_end (slot_offset slot) (slot_length slot) InvalidData;
  Ok (slot_offset slot, end_).

Definition cell (p : SlottedPage) (index : Z) : io_result (list byte) :=
  range ← cell_range p index;
  ok_or (get_range (sp_bytes p) range.1 range.2) (invalid_data "cell is outside page").

(** The loop of [validate_slots]: [n] slots remain, from [index]. *)
Fixpoint validate_slots_from (p : SlottedPage) (n : nat) (index previous_offset : Z) : io_result Z :=
  match n with
  | O => Ok previous_offset
  | S n =>
      slot ← page_slot p index;
      end_ ← page_checked_end (slot_offset slot) (slot_length slot) InvalidData;
      if (slot_length slot =? 0)
         || (slot_offset slot <? free_start (sp_header p))
         || (PAGE_SIZE <? end_)
         || (previous_offset <=? slot_offset slot)
         || (previous_offset <? end_)
      then Err (invalid_data "invalid or overlapping cell range")
      else validate_slots_from p n (index + 1) (slot_offset slot)
  end.

Definition validate_slots (p : SlottedPage) : io_result unit :=
  match page_type (sp_header p) with
  | Overflow | Free => Ok tt
  | Leaf | Internal =>
      if cell_count (sp_header p) =? 0 then Ok tt else
      previous_offset ← validate_slots_from p (Z.to_nat (cell_count (sp_header p))) 0 PAGE_SIZE;
      if negb (previous_offset =? free_end (sp_header p))
      then Err (invalid_data "free_end does not match the lowest cell offset") else Ok tt
  end.

Definition from_immutable_snapshot (bytes : list byte) (v : PageValidation) : io_result SlottedPage :=
  if negb (len bytes =? PAGE_SIZE) then Err (invalid_data "page must be exactly 4096 bytes") else
  Ok {| sp_bytes := bytes; sp_header := pv_header v; sp_page_id := pv_page_id v;
        sp_next_page_id := pv_next_page_id v;
        sp_overflow_payload_length := pv_overflow_payload_length v |}.

Definition validation (p : SlottedPage) : PageValidation :=
  {| pv_header := sp_header p; pv_page_id := sp_page_id p; pv_next_page_id := sp_next_page_id p;
     pv_overflow_payload_length := sp_overflow_payload_length p |}.

(** The [Cells] iterator: its state is the page and the next index. *)
Definition cells_next (p : SlottedPage) (next : Z) : option (io_result (list byte) * Z) :=
  if cell_count (sp_header p) <=? next then None else Some (cell p next, next + 1).

(** Draining the iterator; [fuel] bounds the number of [next] calls. *)
Fixpoint cells_drain (fuel : nat) (p : SlottedPage) (next : Z) : list (io_result (list byte)) :=
  match fuel with
  | O => []
  | S fuel =>
      match cells_next p next with
      | None => []
      | Some (item, next) => item :: cells_drain fuel p next
      end
  end.

(** A page has at most 2^16 - 1 cells, so this fuel drains the iterator. *)
Definition cells (p : SlottedPage) : list (io_result (list byte)) :=
  cells_drain (S (Z.to_nat (cell_count (sp_header p)))) p 0.

Definition overflow_payload (p : SlottedPage) : io_result (list byte) :=
  payload_length ← ok_or (sp_overflow_payload_length p) (invalid_data "expected overflow page");
  end_ ← page_checked_end 40 payload_length InvalidData;
  ok_or (get_range (sp_bytes p) 40 end_) (invalid_data "truncated overflow payload").

(** The loop state of [rebuild_ordered]. *)
Record Rebuild := { rb_bytes : list byte; rb_count : Z; rb_cell_start : Z }.

Definition rebuild_step (base : Z) (st : Rebuild) (c : list byte) : io_result Rebuild :=
  if len c =? 0 then Err (invalid_input "cells must not be empty") else
  length ← ok_or (try_fit 16 (len c)) (invalid_input "cell length exceeds u16");
  next_count ← ok_or (try_fit 16 (rb_count st + 1)) (invalid_input "cell count exceeds u16");
  let slot_offset := base + rb_count st * SLOT_LEN in
  let slot_end := slot_offset + SLOT_LEN in
  next_cell_start ← ok_or (checked_sub (rb_cell_start st) (len c)) (invalid_input "cells exceed page capacity");
  if next_cell_start <? slot_end then Err (invalid_input "cells exceed page capacity") else
  let rebuilt := put (rb_bytes st) next_cell_start c in
  offset ← ok_or (try_fit 16 next_cell_start) (invalid_input "cell offset exceeds u16");
  let rebuilt := put rebuilt slot_offset (slot_encode {| slot_offset := offset; slot_length := length |}) in
  Ok {| rb_bytes := rebuilt; rb_count := next_count; rb_cell_start := next_cell_start |}.

Fixpoint rebuild_loop (base : Z) (st : Rebuild) (cs : list (list byte)) : io_result Rebuild :=
  match cs with
  | [] => Ok st
  | c :: cs => st ← rebuild_step base st c; rebuild_loop base st cs
  end.

Section Pages.
Context {CK : Checksum}.

Definition page_open (bytes : list byte) (page_id next_page_id : Z) : io_result SlottedPage :=
  if negb (len bytes =? PAGE_SIZE) then Err (invalid_data "page must be exactly 4096 bytes") else
  header ← page_header_decode bytes page_id next_page_id;
  overflow_payload_length ←
    match page_type header with
    | Internal => _ ← internal_preamble_decode bytes page_id next_page_id; Ok None
    | Overflow => h ← overflow_header_decode bytes; Ok (Some (payload_length h))
    | Free => _ ← validate_free_body bytes; Ok None
    | Leaf => Ok None
    end;
  let slotted := {| sp_bytes := bytes; sp_header := header; sp_page_id := page_id;
                    sp_next_page_id := next_page_id;
                    sp_overflow_payload_length := overflow_payload_length |} in
  _ ← validate_slots slotted;
  Ok slotted.

Definition encode_overflow_page (page_id next_page_id next : Z) (payload : list byte)
    : io_result (list byte) :=
  if OVERFLOW_PAYLOAD_LEN <? len payload then Err (invalid_input "overflow payload is too large") else
  let page := zeros PAGE_SIZE in
  payload_end ← page_checked_end 40 (len payload) InvalidInput;
  _ ← ok_or (get_range page 40 payload_end) (invalid_input "overflow payload exceeds page");
  let page := put page 40 payload in
  payload_len ← ok_or (try_fit 16 (len payload)) (invalid_input "overflow payload exceeds u16");
  page ← overflow_header_encode_into {| payload_length := payload_len |} page;
  page_header_encode_into
    {| page_type := Overflow; cell_count := 0; free_start := 0; free_end := 0; left := 0; right := next |}
    page page_id next_page_id.

Definition encode_free_page (page_id next_page_id next : Z) : io_result (list byte) :=
  page ← encode_free_body (zeros PAGE_SIZE);
  page_header_encode_into
    {| page_type := Free; cell_count := 0; free_start := 0; free_end := 0; left := 0; right := next |}
    page page_id next_page_id.

(** On success the page holds the rebuilt bytes and header; on error it is as
    before, since the source writes to it only after the last check. *)
Definition rebuild_ordered (p : SlottedPage) (cs : list (list byte)) : io_result SlottedPage :=
  if negb (len (sp_bytes p) =? PAGE_SIZE) then Err (invalid_data "page must be exactly 4096 bytes") else
  base ← slot_base (page_type (sp_header p));
  let rebuilt := zeros PAGE_SIZE in
  let rebuilt :=
    if bool_decide (page_type (sp_header p) = Internal)
    then put rebuilt PAGE_HEADER_LEN
           (slice (sp_bytes p) PAGE_HEADER_LEN (PAGE_HEADER_LEN + INTERNAL_PREAMBLE_LEN))
    else rebuilt in
  st ← rebuild_loop base {| rb_bytes := rebuilt; rb_count := 0; rb_cell_start := PAGE_SIZE |} cs;
  if bool_decide (page_type (sp_header p) = Internal) && (rb_count st =? 0)
  then Err (invalid_input "internal pages must not be empty") else
  slot_bytes ← ok_or (checked_mul (rb_count st) SLOT_LEN) (invalid_input "slot directory size overflow");
  start ← ok_or (checked_add base slot_bytes) (invalid_input "slot directory overflow");
  start ← ok_or (try_fit 16 start) (invalid_input "slot directory exceeds u16");
  end_ ← ok_or (try_fit 16 (rb_cell_start st)) (invalid_input "cell offset exceeds u16");
  let header := {| page_type := page_type (sp_header p); cell_count := rb_count st;
                   free_start := start; free_end := end_;
                   left := left (sp_header p); right := right (sp_header p) |} in
  rebuilt ← page_header_encode_into header (rb_bytes st) (sp_page_id p) (sp_next_page_id p);
  Ok {| sp_bytes := rebuilt; sp_header := header; sp_page_id := sp_page_id p;
        sp_next_page_id := sp_next_page_id p;
        sp_overflow_payload_length := sp_overflow_payload_length p |}.

Definition replace_same_len (p : SlottedPage) (index : Z) (replacement : list byte)
    : io_result SlottedPage :=
  slot ← page_slot p index;
  if negb (len replacement =? slot_length slot)
  then Err (invalid_input "replacement length differs from cell length") else
  end_ ← page_checked_end (slot_offset slot) (len replacement) InvalidData;
  if negb (len (sp_bytes p) =? PAGE_SIZE) then Err (invalid_data "page must be exactly 4096 bytes") else
  _ ← ok_or (get_range (sp_bytes p) (slot_offset slot) end_) (invalid_data "cell destination is outside page");
  page ← write_page_checksum (put (sp_bytes p) (slot_offset slot) replacement);
  Ok {| sp_bytes := page; sp_header := sp_header p; sp_page_id := sp_page_id p;
        sp_next_page_id := sp_next_page_id p;
        sp_overflow_payload_length := sp_overflow_payload_length p |}.
End Pages.

(** ** Slots *)

Definition slot_wf (s : Slot) : Prop := is_u16 (slot_offset s) ∧ is_u16 (slot_length s).

Lemma len_slot_encode s : len (slot_encode s) = 4.
Proof. unfold slot_encode. by rewrite len_app, !len_le_bytes. Qed.

#[export] Hint Rewrite len_slot_encode : slices.

Lemma slot_decode_encode s : slot_wf s → slot_decode (slot_encode s) = Ok s.
Proof.
  intros [Ho Hl]. pose proof (len_slot_encode s) as He.
  unfold slot_decode. apply skip_guard; [rewrite He; done|].
  eapply bind_step; [apply (read_field _ _ 2 (slot_offset s)); [lia..|done|]|].
  { unfold slot_encode. by rewrite slice_app_l, slice_all by slice_side. }
  eapply bind_step; [apply (read_field _ _ 2 (slot_length s)); [lia..|done|]|].
  { unfold slot_encode. by rewrite slice_app_r, slice_all by slice_side. }
  by destruct s.
Qed.

Lemma slot_decode_wf b s : slot_decode b = Ok s → slot_wf s.
Proof. unfold slot_decode. intros H. bind_inv. field_inv. done. Qed.

Lemma slot_base_inv t base : slot_base t = Ok base → t = Leaf ∧ base = 32 ∨ t = Internal ∧ base = 40.
Proof. destruct t; cbn; intros H; bind_inv; [by left | right | done..]. field_inv. by subst. Qed.

Lemma page_slot_read p base i :
  slot_base (page_type (sp_header p)) = Ok base → 0 ≤ i < cell_count (sp_header p) →
  base + 4 * i + 4 ≤ len (sp_bytes p) → base + 4 * i + 4 < 2 ^ 64 →
  page_slot p i = slot_decode (slice (sp_bytes p) (base + 4 * i) (base + 4 * i + 4)).
Proof.
  intros Hb Hi Hl Hs. assert (32 ≤ base) by (apply slot_base_inv in Hb; lia).
  unfold page_slot, page_checked_end. apply skip_guard; [lia|]. change SLOT_LEN with 4.
  rewrite Hb, bind_ok, checked_mul_small by lia. cbn [mbind option_bind].
  rewrite checked_add_small by lia. cbn [ok_or]. rewrite bind_ok, checked_add_small by lia.
  cbn [ok_or]. rewrite bind_ok, get_range_some by lia. cbn [ok_or]. rewrite bind_ok.
  by replace (base + i * 4) with (base + 4 * i) by lia.
Qed.

Lemma page_slot_inv p i s :
  page_slot p i = Ok s → slot_wf s ∧ i < cell_count (sp_header p).
Proof. unfold page_slot. intros H. bind_inv. split; [by eapply slot_decode_wf | lia]. Qed.

(** A slot is decoded from its place in the directory. *)
Lemma page_slot_bytes p i s base :
  slot_base (page_type (sp_header p)) = Ok base → page_slot p i = Ok s →
  slot_decode (slice (sp_bytes p) (base + i * SLOT_LEN) (base + i * SLOT_LEN + SLOT_LEN)) = Ok s.
Proof.
  unfold page_slot, page_checked_end. intros Hb H. rewrite Hb in H. bind_inv. field_inv. subst.
  match goal with H : checked_mul _ _ ≫= _ = Some _ |- _ => apply bind_Some in H as (y & Hy & H) end.
  apply checked_mul_inv in Hy as [-> _]. field_inv. by subst.
Qed.

(** Cells lie above [start], below [prev] and in descending order without
    overlap; [last] is the lowest offset. *)
Fixpoint slot_chain (start prev : Z) (ss : list Slot) (last : Z) : Prop :=
  match ss with
  | [] => last = prev
  | s :: ss =>
      0 < slot_length s ∧ start ≤ slot_offset s ∧ slot_offset s + slot_length s ≤ prev ∧
      slot_chain start (slot_offset s) ss last
  end.

Lemma validate_slots_from_inv p n i prev last :
  validate_slots_from p n i prev = Ok last →
  ∃ ss, length ss = n ∧ slot_chain (free_start (sp_header p)) prev ss last ∧
    ∀ k s, ss !! k = Some s → page_slot p (i + Z.of_nat k) = Ok s.
Proof.
  revert i prev. induction n as [|n IH]; intros i prev H; cbn in H.
  { bind_inv. exists []. by split_and!. }
  unfold page_checked_end in H. bind_inv. field_inv. subst.
  match goal with H : page_slot p i = Ok ?x |- _ => rename x into s, H into Hs end.
  pose proof (page_slot_inv _ _ _ Hs) as [[[] []] _].
  apply IH in H as (ss & Hlen & Hch & Hss). exists (s :: ss). split_and!.
  - cbn. lia.
  - cbn. split_and!; [lia..|done].
  - intros [|k] s' Hk; cbn in Hk; simplify_eq; [by rewrite Z.add_0_r|].
    rewrite <- (Hss k s' Hk). f_equal. lia.
Qed.

Lemma validate_slots_from_ok p i prev ss last :
  prev ≤ PAGE_SIZE → slot_chain (free_start (sp_header p)) prev ss last →
  (∀ k s, ss !! k = Some s → page_slot p (i + Z.of_nat k) = Ok s) →
  validate_slots_from p (length ss) i prev = Ok last.
Proof.
  assert (PAGE_SIZE = 4096) as HP by done.
  revert i prev. induction ss as [|s ss IH]; intros i prev Hp Hch Hss; [cbn in *; by subst|].
  cbn in Hch. destruct Hch as (? & ? & ? & Hch). cbn [length validate_slots_from].
  pose proof (Hss 0%nat s eq_refl) as Hs. rewrite Z.add_0_r in Hs.
  pose proof (page_slot_inv _ _ _ Hs) as [[[] []] _].
  rewrite Hs, bind_ok. unfold page_checked_end. rewrite checked_add_small by lia. cbn [ok_or].
  rewrite bind_ok. apply skip_guard; [lia|]. apply IH; [lia|done|].
  intros k s' Hk. rewrite <- (Hss (S k) s' Hk). f_equal. lia.
Qed.

Lemma slot_chain_last start prev ss last : slot_chain start prev ss last → last ≤ prev.
Proof.
  revert prev. induction ss as [|s ss IH]; intros prev Hch; cbn in Hch; [lia|].
  destruct Hch as (? & ? & ? & Hch). apply IH in Hch. lia.
Qed.

Lemma slot_chain_bounds start prev ss last k s :
  slot_chain start prev ss last → ss !! k = Some s →
  0 < slot_length s ∧ start ≤ slot_offset s ∧ slot_offset s + slot_length s ≤ prev ∧ last ≤ slot_offset s.
Proof.
  revert prev k. induction ss as [|s0 ss IH]; intros prev k Hch Hk; [done|].
  cbn in Hch. destruct Hch as (? & ? & ? & Hch). destruct k as [|k]; cbn in Hk; simplify_eq.
  - apply slot_chain_last in Hch. lia.
  - destruct (IH _ k Hch Hk) as (? & ? & ? & ?). lia.
Qed.

(** Later cells lie strictly below earlier ones. *)
Lemma slot_chain_disjoint start prev ss last j k s t :
  slot_chain start prev ss last → ss !! j = Some s → ss !! k = Some t → (j < k)%nat →
  slot_offset t + slot_length t ≤ slot_offset s.
Proof.
  revert prev j k. induction ss as [|s0 ss IH]; intros prev j k Hch Hj Hk Hlt; [done|].
  cbn in Hch. destruct Hch as (? & ? & ? & Hch). destruct k as [|k]; [lia|]. cbn in Hk.
  destruct j as [|j]; cbn in Hj; simplify_eq.
  - by destruct (slot_chain_bounds _ _ _ _ _ _ Hch Hk) as (? & ? & ? & ?).
  - eapply (IH _ j k); [exact Hch|done|done|lia].
Qed.

(** ** The slot directory of an opened page *)

(** [page_slots p ss]: [ss] is the slot directory of [p]. *)
Definition page_slots (p : SlottedPage) (ss : list Slot) : Prop :=
  Z.of_nat (length ss) = cell_count (sp_header p) ∧
  slot_chain (free_start (sp_header p)) PAGE_SIZE ss
    (if cell_count (sp_header p) =? 0 then PAGE_SIZE else free_end (sp_header p)) ∧
  ∀ k s, ss !! k = Some s → page_slot p (Z.of_nat k) = Ok s.

Definition slot_cell (p : SlottedPage) (s : Slot) : list byte :=
  slice (sp_bytes p) (slot_offset s) (slot_offset s + slot_length s).

Lemma validate_slots_inv p :
  validate_slots p = Ok tt → is_ok (slot_base (page_type (sp_header p))) = true →
  is_u16 (cell_count (sp_header p)) → ∃ ss, page_slots p ss.
Proof.
  intros V Hb Hc. unfold validate_slots in V.
  assert (page_type (sp_header p) = Leaf ∨ page_type (sp_header p) = Internal) as Ht
    by (destruct (page_type (sp_header p)); eauto; done).
  assert ((if cell_count (sp_header p) =? 0 then Ok tt else
      previous_offset ← validate_slots_from p (Z.to_nat (cell_count (sp_header p))) 0 PAGE_SIZE;
      if negb (previous_offset =? free_end (sp_header p))
      then Err (invalid_data "free_end does not match the lowest cell offset") else Ok tt) = Ok tt) as V'
    by (by destruct Ht as [Ht|Ht]; rewrite Ht in V). clear V. unfold page_slots.
  destruct (Z.eqb_spec (cell_count (sp_header p)) 0) as [Hz|Hz].
  { exists []. rewrite Hz. by split_and!. }
  bind_inv. apply validate_slots_from_inv in H as (ss & Hlen & Hch & Hss).
  exists ss. split_and!; [unfold fits in Hc; lia| |done].
  by replace (free_end (sp_header p)) with x by lia.
Qed.

Lemma validate_slots_ok p ss :
  page_slots p ss → validate_slots p = Ok tt.
Proof.
  intros (Hlen & Hch & Hss). unfold validate_slots.
  assert ((if cell_count (sp_header p) =? 0 then Ok tt else
      previous_offset ← validate_slots_from p (Z.to_nat (cell_count (sp_header p))) 0 PAGE_SIZE;
      if negb (previous_offset =? free_end (sp_header p))
      then Err (invalid_data "free_end does not match the lowest cell offset") else Ok tt) = Ok tt) as V.
  { case_match; [done|]. replace (Z.to_nat (cell_count (sp_header p))) with (length ss) by lia.
    erewrite validate_slots_from_ok; [|done|exact Hch|done]. rewrite bind_ok. by apply skip_guard; [lia|]. }
  by destruct (page_type (sp_header p)).
Qed.

Lemma cell_ok p ss k s :
  len (sp_bytes p) = PAGE_SIZE → page_slots p ss → ss !! k = Some s →
  cell p (Z.of_nat k) = Ok (slot_cell p s).
Proof.
  intros Hl (_ & Hch & Hss) Hk. assert (PAGE_SIZE = 4096) as HP by done.
  pose proof (Hss _ _ Hk) as Hs. pose proof (page_slot_inv _ _ _ Hs) as [[[] []] _].
  destruct (slot_chain_bounds _ _ _ _ _ _ Hch Hk) as (? & ? & ? & ?).
  unfold cell, cell_range, page_checked_end. rewrite Hs, bind_ok, checked_add_small by lia. cbn [ok_or].
  rewrite !bind_ok. cbn [fst snd]. by rewrite get_range_some by lia.
Qed.

Lemma cells_drain_ok p ss : len (sp_bytes p) = PAGE_SIZE → page_slots p ss →
  ∀ k fuel, (length ss - k < fuel)%nat → (k ≤ length ss)%nat →
  cells_drain fuel p (Z.of_nat k) = map (λ s, Ok (slot_cell p s)) (drop k ss).
Proof.
  intros Hl Hp k fuel. pose proof Hp as (Hlen & _ & _).
  revert k. induction fuel as [|fuel IH]; intros k Hf Hk; [lia|].
  cbn [cells_drain]. unfold cells_next.
  destruct (Z.leb_spec (cell_count (sp_header p)) (Z.of_nat k)); [by rewrite drop_ge by lia|].
  destruct (ss !! k) as [s|] eqn:Hs; [|apply lookup_ge_None in Hs; lia].
  rewrite (drop_S ss s k Hs). cbn [map]. f_equal; [by eapply cell_ok|].
  replace (Z.of_nat k + 1) with (Z.of_nat (S k)) by lia.
  apply lookup_lt_Some in Hs. apply IH; lia.
Qed.

Lemma slots_range p ss k s :
  page_slots p ss → ss !! k = Some s → cell_range p (Z.of_nat k) = Ok (slot_offset s, slot_offset s + slot_length s).
Proof.
  intros (_ & Hch & Hss) Hk. destruct (slot_chain_bounds _ _ _ _ _ _ Hch Hk) as (? & ? & ? & _).
  pose proof (page_slot_inv _ _ _ (Hss k s Hk)) as [[[] []] _]. assert (PAGE_SIZE = 4096) as HP by done.
  unfold cell_range, page_checked_end. by rewrite (Hss k s Hk), bind_ok, checked_add_small by lia.
Qed.

(** The iterator yields every cell of the directory, in order, and ends. *)
Lemma cells_ok p ss :
  len (sp_bytes p) = PAGE_SIZE → page_slots p ss →
  cells p = map (λ s, Ok (slot_cell p s)) ss.
Proof.
  intros Hl Hp. pose proof Hp as (Hlen & _ & _). unfold cells.
  change 0 with (Z.of_nat 0). by rewrite (cells_drain_ok p ss Hl Hp) by lia.
Qed.

(** ** Rebuilding *)

(** Bytes occupied by a list of cells. *)
Fixpoint used (cs : list (list byte)) : Z :=
  match cs with [] => 0 | c :: cs => len c + used cs end.

(** The slots [rebuild_ordered] allocates for [cs] below [top]. *)
Fixpoint slots_of (top : Z) (cs : list (list byte)) : list Slot :=
  match cs with
  | [] => []
  | c :: cs => {| slot_offset := top - len c; slot_length := len c |} :: slots_of (top - len c) cs
  end.

Definition nonempty (c : list byte) : Prop := 0 < len c.

Lemma used_app cs cs' : used (cs ++ cs') = used cs + used cs'.
Proof. induction cs as [|c cs IH]; cbn; [done|]. rewrite IH. lia. Qed.

Lemma used_nonneg cs : 0 ≤ used cs.
Proof. induction cs as [|c cs IH]; cbn; [done|]. pose proof (len_nonneg c). lia. Qed.

Lemma length_slots_of top cs : length (slots_of top cs) = length cs.
Proof. revert top. induction cs as [|c cs IH]; intros top; cbn; [done|]. by rewrite IH. Qed.

Lemma slots_of_snoc top cs c :
  slots_of top (cs ++ [c]) =
  slots_of top cs ++ [{| slot_offset := top - used cs - len c; slot_length := len c |}].
Proof.
  revert top. induction cs as [|c0 cs IH]; intros top; cbn; [by rewrite Z.sub_0_r|].
  rewrite IH. do 4 f_equal. lia.
Qed.

Lemma slots_of_chain start top cs :
  Forall nonempty cs → start ≤ top - used cs →
  slot_chain start top (slots_of top cs) (top - used cs).
Proof.
  revert top. induction cs as [|c cs IH]; intros top Hne Hs; cbn in *; [lia|].
  inversion Hne; subst. pose proof (used_nonneg cs). unfold nonempty in *.
  split_and!; [lia..|]. replace (top - (len c + used cs)) with (top - len c - used cs) by lia.
  apply IH; [done|lia].
Qed.

(** The invariant of the loop of [rebuild_ordered]: the cells [done] have been
    placed top down, their slots bottom up, and the preamble is untouched. *)
Record rebuilding (base : Z) (buf : list byte) (done : list (list byte)) (st : Rebuild) : Prop := {
  rb_len : len (rb_bytes st) = PAGE_SIZE;
  rb_counted : rb_count st = len done;
  rb_start : rb_cell_start st = PAGE_SIZE - used done;
  rb_room : base + 4 * len done ≤ PAGE_SIZE - used done;
  rb_nonempty : Forall nonempty done;
  rb_preamble : slice (rb_bytes st) PAGE_HEADER_LEN base = slice buf PAGE_HEADER_LEN base;
  rb_slots : ∀ k s, slots_of PAGE_SIZE done !! k = Some s →
    slice (rb_bytes st) (base + 4 * Z.of_nat k) (base + 4 * Z.of_nat k + 4) = slot_encode s;
  rb_cells : ∀ k s c, slots_of PAGE_SIZE done !! k = Some s → done !! k = Some c →
    slice (rb_bytes st) (slot_offset s) (slot_offset s + slot_length s) = c;
}.

(** Slots allocated for placed cells lie inside the page, above [PAGE_SIZE - used]. *)
Lemma rebuilding_slot_bounds base buf done st k s :
  rebuilding base buf done st → slots_of PAGE_SIZE done !! k = Some s →
  0 < slot_length s ∧ PAGE_SIZE - used done ≤ slot_offset s ∧
  slot_offset s + slot_length s ≤ PAGE_SIZE ∧ Z.of_nat k < len done.
Proof.
  intros [] Hs. pose proof (slots_of_chain (PAGE_SIZE - used done) PAGE_SIZE done rb_nonempty0 ltac:(lia)) as Hch.
  destruct (slot_chain_bounds _ _ _ _ _ _ Hch Hs) as (? & ? & ? & ?).
  apply lookup_lt_Some in Hs. rewrite length_slots_of in Hs. unfold len. lia.
Qed.

Lemma rebuild_step_inv base buf done st c st' :
  rebuilding base buf done st → rebuild_step base st c = Ok st' →
  nonempty c ∧ base + 4 * (len done + 1) ≤ PAGE_SIZE - used done - len c.
Proof.
  intros [] H. unfold rebuild_step in H. bind_inv. field_inv. subst. pose proof (len_nonneg c).
  unfold nonempty. change SLOT_LEN with 4 in *. lia.
Qed.

Lemma rebuild_step_ok base buf done st c :
  32 ≤ base → rebuilding base buf done st → nonempty c →
  base + 4 * (len done + 1) ≤ PAGE_SIZE - used done - len c →
  ∃ st', rebuild_step base st c = Ok st' ∧ rebuilding base buf (done ++ [c]) st'.
Proof.
  intros Hbase R Hne Hroom. pose proof R as []. unfold nonempty in Hne.
  assert (PAGE_SIZE = 4096) as HP by done. rewrite HP in *.
  pose proof (used_nonneg done). pose proof (len_nonneg done).
  unfold rebuild_step. change SLOT_LEN with 4.
  set (s := {| slot_offset := 4096 - used done - len c; slot_length := len c |}).
  set (buf' := put (put (rb_bytes st) (slot_offset s) c) (base + 4 * len done) (slot_encode s)).
  exists {| rb_bytes := buf'; rb_count := len done + 1; rb_cell_start := slot_offset s |}. split.
  { apply skip_guard; [lia|]. rewrite !try_fit_small by lia. cbn [ok_or]. rewrite !bind_ok.
    rewrite checked_sub_small by lia. cbn [ok_or]. rewrite !bind_ok.
    apply skip_guard; [lia|]. cbv zeta. rewrite try_fit_small by lia. cbn [ok_or]. rewrite bind_ok.
    rewrite rb_counted0, rb_start0, (Z.mul_comm (len done) 4). done. }
  constructor; cbn [rb_bytes rb_count rb_cell_start]; autorewrite with slices; rewrite ?used_app.
  - unfold buf'. by autorewrite with slices.
  - cbn. lia.
  - cbn. lia.
  - cbn. lia.
  - apply Forall_app. split; [done|]. by repeat constructor.
  - unfold buf', s. cbn [slot_offset]. change PAGE_HEADER_LEN with 32 in *. slice_simpl. done.
  - intros k s' Hs. rewrite HP, slots_of_snoc in Hs.
    apply lookup_app_Some in Hs as [Hs | [Hk Hs]].
    + pose proof (rebuilding_slot_bounds _ _ _ _ _ _ R ltac:(rewrite HP; exact Hs)) as (? & ? & ? & ?).
      unfold buf', s. cbn [slot_offset]. slice_simpl. by apply rb_slots0.
    + rewrite length_slots_of in *. apply list_lookup_singleton_Some in Hs as [Hk0 <-].
      assert (Z.of_nat k = len done) as -> by (unfold len; lia).
      unfold buf', s. cbn [slot_offset]. slice_simpl. done.
  - intros k s' c' Hs Hc. rewrite HP, slots_of_snoc in Hs.
    apply lookup_app_Some in Hs as [Hs | [Hk Hs]].
    + pose proof (rebuilding_slot_bounds _ _ _ _ _ _ R ltac:(rewrite HP; exact Hs)) as (? & ? & ? & ?).
      unfold buf', s. cbn [slot_offset]. slice_simpl.
      apply (rb_cells0 k); [done|]. rewrite lookup_app_l in Hc; [done|]. unfold len in *. lia.
    + rewrite length_slots_of in *. apply list_lookup_singleton_Some in Hs as [Hk0 <-].
      rewrite lookup_app_r in Hc by lia. apply list_lookup_singleton_Some in Hc as [_ <-].
      unfold buf', s. cbn [slot_offset slot_length]. slice_simpl. done.
Qed.

Lemma rebuild_loop_ok base buf cs done st :
  32 ≤ base → rebuilding base buf done st → Forall nonempty cs →
  base + 4 * len (done ++ cs) + used (done ++ cs) ≤ PAGE_SIZE →
  ∃ st', rebuild_loop base st cs = Ok st' ∧ rebuilding base buf (done ++ cs) st'.
Proof.
  intros Hb. revert done st. induction cs as [|c cs IH]; intros done st R Hne Hroom.
  { exists st. by rewrite app_nil_r. }
  inversion Hne as [|? ? Hc Hcs]; subst. rewrite cons_middle, app_assoc in *.
  pose proof (used_nonneg cs). pose proof (len_nonneg cs).
  rewrite used_app, len_app in Hroom.
  destruct (rebuild_step_ok base buf done st c Hb R Hc) as (st' & E & R').
  { rewrite used_app, len_app in Hroom. change (len [c]) with 1 in Hroom. cbn in Hroom. lia. }
  destruct (IH (done ++ [c]) st' R' Hcs) as (st'' & E' & R''); [by rewrite used_app, len_app|].
  exists st''. split; [|done]. cbn [rebuild_loop]. by rewrite E, bind_ok.
Qed.

Lemma rebuild_loop_inv base buf cs done st st' :
  32 ≤ base → rebuilding base buf done st → rebuild_loop base st cs = Ok st' →
  Forall nonempty cs ∧ base + 4 * len (done ++ cs) + used (done ++ cs) ≤ PAGE_SIZE.
Proof.
  intros Hb. revert done st. induction cs as [|c cs IH]; intros done st R H.
  { split; [constructor|]. rewrite app_nil_r. pose proof R as []. lia. }
  cbn [rebuild_loop] in H. apply bind_ok_inv in H as (st1 & E & H).
  pose proof (rebuild_step_inv _ _ _ _ _ _ R E) as [Hc Hroom].
  destruct (rebuild_step_ok base buf done st c Hb R Hc Hroom) as (st2 & E' & R').
  assert (st1 = st2) as -> by congruence.
  destruct (IH (done ++ [c]) st2 R' H) as [Hcs Hr].
  rewrite <- app_assoc in Hr. split; [by constructor | done].
Qed.

Lemma rebuilding_init base buf :
  len buf = PAGE_SIZE → base ≤ PAGE_SIZE →
  rebuilding base buf [] {| rb_bytes := buf; rb_count := 0; rb_cell_start := PAGE_SIZE |}.
Proof. intros Hl Hb. constructor; cbn; try done; unfold len; cbn; lia. Qed.

(** ** Opened pages *)

Section Opened.
Context {CK : Checksum}.

(** A page in memory is valid when opening its bytes gives that page. *)
Definition page_valid (p : SlottedPage) : Prop :=
  page_open (sp_bytes p) (sp_page_id p) (sp_next_page_id p) = Ok p.

Definition slotted_type (t : PageType) : Prop := t = Leaf ∨ t = Internal.

Lemma slot_base_ok t : slotted_type t → ∃ base, slot_base t = Ok base ∧ 32 ≤ base ≤ 40.
Proof. intros [-> | ->]; eexists; split; (reflexivity || done). Qed.

Lemma page_open_valid bytes id next p : page_open bytes id next = Ok p → page_valid p ∧ sp_bytes p = bytes.
Proof.
  intros H. pose proof H as H'. unfold page_open in H. bind_inv. done.
Qed.

(** What it takes for a leaf or internal page to be valid. *)
Lemma page_valid_slotted p :
  slotted_type (page_type (sp_header p)) →
  page_valid p ↔
  page_header_decode (sp_bytes p) (sp_page_id p) (sp_next_page_id p) = Ok (sp_header p) ∧
  (page_type (sp_header p) = Internal →
     ∃ c, internal_preamble_decode (sp_bytes p) (sp_page_id p) (sp_next_page_id p) = Ok c) ∧
  sp_overflow_payload_length p = None ∧ validate_slots p = Ok tt.
Proof.
  intros Ht. unfold page_valid, page_open. split.
  - intros H. bind_inv. destruct p as [b h i n o]; cbn in *. simplify_eq.
    destruct Ht as [Ht|Ht]; rewrite Ht in *; bind_inv; split_and!; eauto; done.
  - intros (D & I & Ho & V). pose proof (page_header_decode_layout _ _ _ _ D) as (L & _ & _).
    apply skip_guard; [by rewrite (pl_len _ _ L)|]. rewrite D, bind_ok.
    destruct p as [b h i n o]; cbn in *. subst o.
    destruct Ht as [Ht|Ht]; rewrite Ht in *.
    + by rewrite bind_ok, V, bind_ok.
    + destruct I as [c I]; [done|]. by rewrite I, !bind_ok, V, bind_ok.
Qed.

Lemma page_valid_len p : page_valid p → len (sp_bytes p) = PAGE_SIZE.
Proof. unfold page_valid, page_open. intros H. bind_inv. cbn. lia. Qed.

Lemma page_valid_slots p :
  page_valid p → slotted_type (page_type (sp_header p)) → ∃ ss, page_slots p ss.
Proof.
  intros V Ht. apply (page_valid_slotted p Ht) in V as (D & _ & _ & V).
  apply page_header_decode_layout in D as (_ & [] & _).
  apply validate_slots_inv; [done| |done].
  destruct (slot_base_ok _ Ht) as (base & -> & _). done.
Qed.

(** The preamble check depends only on the bytes of the preamble. *)
Lemma internal_preamble_ext b b' id next c :
  len b' = PAGE_SIZE → slice b' 32 40 = slice b 32 40 →
  internal_preamble_decode b id next = Ok c → internal_preamble_decode b' id next = Ok c.
Proof.
  intros Hl Hs H. unfold internal_preamble_decode in *. change PAGE_HEADER_LEN with 32 in *.
  assert (PAGE_SIZE = 4096) as HP by done.
  apply bind_ok_inv in H as ([] & Hp & H). rewrite exact_page_ok, bind_ok by done.
  apply bind_ok_inv in H as (v & Hv & H). field_inv.
  eapply bind_step; [|exact H]. apply (read_field _ _ 8 v); [lia..|done|].
  change (32 + Z.of_nat 8) with 40 in *. by rewrite Hs.
Qed.

(** A valid header stays valid when its page is filled with [n] cells that
    leave [free] as the lowest cell offset. *)
Lemma page_header_validate_refill h id next base n free :
  slot_base (page_type h) = Ok base → page_header_validate h id next InvalidData = Ok tt →
  0 ≤ n → base + 4 * n ≤ free ≤ PAGE_SIZE → (n = 0 ↔ free = PAGE_SIZE) →
  (page_type h = Internal → n ≠ 0) →
  page_header_validate
    {| page_type := page_type h; cell_count := n; free_start := base + 4 * n; free_end := free;
       left := left h; right := right h |} id next InvalidInput = Ok tt.
Proof.
  intros Hb V Hn Hf Hz Hi. assert (PAGE_SIZE = 4096) as HP by done. rewrite HP in *.
  apply page_header_validate_kind with (k' := InvalidInput) in V.
  unfold page_header_validate in *. cbn [page_type cell_count free_start free_end left right].
  apply bind_ok_inv in V as ([] & Hid & V). rewrite Hid, bind_ok. clear Hid.
  unfold expected_slot_end in *. change SLOT_LEN with 4 in *.
  assert (base < 50 ∧ 0 ≤ base) as [? ?] by (apply slot_base_inv in Hb; lia).
  assert (∀ b, b = base → (slots ← ok_or (checked_mul n 4) (IoError InvalidInput "slot directory size overflow");
    end_ ← ok_or (checked_add b slots) (IoError InvalidInput "slot directory offset overflow");
    ok_or (try_fit 16 end_) (IoError InvalidInput "slot directory exceeds page")) = Ok (base + 4 * n)) as E.
  { intros b ->. rewrite checked_mul_small by lia. cbn [ok_or]. rewrite bind_ok, checked_add_small by lia.
    cbn [ok_or]. rewrite bind_ok, (Z.mul_comm n 4), try_fit_small by lia. done. }
  destruct (page_type h); cbn in Hb; [| |discriminate..].
  - rewrite E, bind_ok by (unfold PAGE_HEADER_LEN in *; congruence).
    apply skip_guard; [lia|]. apply bind_ok_inv in V as (x & _ & V). bind_inv.
    match goal with H : validate_reference (left h) _ _ _ = _ |- _ => rewrite H end.
    destruct (Z.eqb_spec n 0).
    + decide_ifs. done.
    + decide_ifs. done.
  - bind_inv. field_inv. apply skip_guard; [specialize (Hi eq_refl); lia|].
    rewrite E, bind_ok by (unfold PAGE_HEADER_LEN, INTERNAL_PREAMBLE_LEN in *; lia).
    apply skip_guard; [|done]. specialize (Hi eq_refl). lia.
Qed.
End Opened.

Section RebuildOrdered.
Context {CK : Checksum}.

(** The cells fit below the slot directory, and an internal page has one. *)
Definition rebuild_fits (t : PageType) (base : Z) (cs : list (list byte)) : Prop :=
  Forall nonempty cs ∧ base + 4 * len cs + used cs ≤ PAGE_SIZE ∧ (t = Internal → cs ≠ []).

Lemma used_zero cs : Forall nonempty cs → used cs = 0 → cs = [].
Proof.
  intros Hne Hu. destruct cs as [|c cs]; [done|]. inversion Hne. cbn in Hu.
  pose proof (used_nonneg cs). unfold nonempty in *. lia.
Qed.

(** A page whose body holds the placed cells and whose header describes them
    has their slots as its directory. *)
Lemma rebuilding_page_slots base buf cs st bytes h id next :
  rebuilding base buf cs st → slot_base (page_type h) = Ok base → 32 ≤ base →
  len bytes = PAGE_SIZE → slice bytes PAGE_HEADER_LEN PAGE_SIZE = slice (rb_bytes st) PAGE_HEADER_LEN PAGE_SIZE →
  cell_count h = len cs → free_start h = base + 4 * len cs → free_end h = PAGE_SIZE - used cs →
  let p := {| sp_bytes := bytes; sp_header := h; sp_page_id := id; sp_next_page_id := next;
              sp_overflow_payload_length := None |} in
  page_slots p (slots_of PAGE_SIZE cs) ∧
  (∀ k s c, slots_of PAGE_SIZE cs !! k = Some s → cs !! k = Some c → slot_cell p s = c).
Proof.
  intros R Hb Hbase Hl Hbody Hn Hfs Hfe p. pose proof R as [].
  assert (PAGE_SIZE = 4096) as HP by done. change PAGE_HEADER_LEN with 32 in *.
  assert (∀ lo hi, 32 ≤ lo → hi ≤ 4096 → slice bytes lo hi = slice (rb_bytes st) lo hi) as Hsub.
  { intros lo hi ? ?. by apply (slice_sub _ _ 32 PAGE_SIZE); [done|lia..]. }
  pose proof (used_nonneg cs). pose proof (len_nonneg cs). split; [split_and!|].
  - cbn [sp_header p]. rewrite length_slots_of. rewrite Hn. done.
  - cbn [sp_header p]. rewrite Hn, Hfs, Hfe.
    replace (if len cs =? 0 then PAGE_SIZE else PAGE_SIZE - used cs) with (PAGE_SIZE - used cs).
    { apply slots_of_chain; [done|lia]. }
    destruct (Z.eqb_spec (len cs) 0) as [->%len_zero|]; [cbn; lia|done].
  - intros k s Hs. destruct (rebuilding_slot_bounds _ _ _ _ _ _ R Hs) as (? & ? & ? & ?).
    rewrite (page_slot_read p base) by (cbn [sp_bytes sp_header p]; try done; lia).
    cbn [sp_bytes p]. rewrite Hsub by lia. rewrite (rb_slots0 k s Hs).
    apply slot_decode_encode. split; unfold fits; lia.
  - intros k s c Hs Hc. destruct (rebuilding_slot_bounds _ _ _ _ _ _ R Hs) as (? & ? & ? & ?).
    unfold slot_cell. cbn [sp_bytes p]. rewrite Hsub by lia. by eapply rb_cells0.
Qed.

Lemma cells_of_slots p ss cs :
  len (sp_bytes p) = PAGE_SIZE → page_slots p ss → length ss = length cs →
  (∀ k s c, ss !! k = Some s → cs !! k = Some c → slot_cell p s = c) →
  cells p = map Ok cs.
Proof.
  intros Hl Hp Hlen Hc. rewrite (cells_ok p ss Hl Hp). clear Hp. revert cs Hlen Hc.
  induction ss as [|s ss IH]; intros [|c cs] Hlen Hc; try done. cbn. f_equal.
  - f_equal. by apply (Hc 0%nat).
  - apply IH; [cbn in Hlen; lia|]. intros k. apply (Hc (S k)).
Qed.

(** The start buffer of [rebuild_ordered]: zeros, with the preamble of an internal page. *)
Definition rebuild_start (p : SlottedPage) : list byte :=
  if bool_decide (page_type (sp_header p) = Internal)
  then put (zeros PAGE_SIZE) PAGE_HEADER_LEN
         (slice (sp_bytes p) PAGE_HEADER_LEN (PAGE_HEADER_LEN + INTERNAL_PREAMBLE_LEN))
  else zeros PAGE_SIZE.

Lemma rebuild_start_ok p base :
  len (sp_bytes p) = PAGE_SIZE → slot_base (page_type (sp_header p)) = Ok base →
  len (rebuild_start p) = PAGE_SIZE ∧ slice (rebuild_start p) 32 base = slice (sp_bytes p) 32 base.
Proof.
  intros Hl Hb. assert (PAGE_SIZE = 4096) as HP by done. unfold rebuild_start.
  change PAGE_HEADER_LEN with 32 in *. change (32 + INTERNAL_PREAMBLE_LEN) with 40 in *.
  apply slot_base_inv in Hb as [[-> ->] | [-> ->]].
  - cbn [bool_decide]. rewrite bool_decide_eq_false_2 by done. split; [done|].
    by rewrite !slice_empty by lia.
  - rewrite bool_decide_eq_true_2 by done. split; [by rewrite len_put|].
    rewrite slice_put_same; [done|lia|rewrite len_slice; lia|by rewrite HP].
Qed.

Lemma rebuild_ordered_ok p base cs :
  page_valid p → slot_base (page_type (sp_header p)) = Ok base →
  rebuild_fits (page_type (sp_header p)) base cs →
  ∃ p', rebuild_ordered p cs = Ok p' ∧ page_valid p' ∧ cells p' = map Ok cs ∧
    page_type (sp_header p') = page_type (sp_header p) ∧
    left (sp_header p') = left (sp_header p) ∧ right (sp_header p') = right (sp_header p) ∧
    sp_page_id p' = sp_page_id p ∧ sp_next_page_id p' = sp_next_page_id p ∧
    slice (sp_bytes p') 32 base = slice (sp_bytes p) 32 base.
Proof.
  intros V Hb (Hne & Hroom & Hint). assert (PAGE_SIZE = 4096) as HP by done.
  pose proof (page_valid_len p V) as Hl.
  assert (slotted_type (page_type (sp_header p)) ∧ 32 ≤ base ≤ 40) as [Ht Hbase]
    by (unfold slotted_type; apply slot_base_inv in Hb as [[-> ->] | [-> ->]]; eauto with lia).
  apply (page_valid_slotted p Ht) in V as (D & I & Ho & V).
  apply page_header_decode_layout in D as (L & W & HV).
  destruct (rebuild_start_ok p base Hl Hb) as [Hsl Hsp].
  pose proof (used_nonneg cs). pose proof (len_nonneg cs).
  destruct (rebuild_loop_ok base (rebuild_start p) cs []
    {| rb_bytes := rebuild_start p; rb_count := 0; rb_cell_start := PAGE_SIZE |})
    as (st & E & R); [lia|by apply rebuilding_init; lia|done|cbn [app]; lia|]. cbn [app] in R.
  pose proof R as [Rl Rn Rs _ _ Rp _ _]. change PAGE_HEADER_LEN with 32 in Rp.
  set (h := {| page_type := page_type (sp_header p); cell_count := len cs; free_start := base + 4 * len cs;
               free_end := PAGE_SIZE - used cs; left := left (sp_header p); right := right (sp_header p) |}).
  assert (page_header_validate h (sp_page_id p) (sp_next_page_id p) InvalidInput = Ok tt) as HV'.
  { apply page_header_validate_refill; [done..|lia| |].
    - rewrite len_zero. split; [intros ->; cbn; lia|]. intros. apply used_zero; [done|lia].
    - rewrite len_zero. done. }
  destruct (page_header_encode_layout h (rb_bytes st) _ _ _ Rl HV') as (bytes & EH & LH & Hbody).
  assert (page_header_wf h) as Wh
    by (destruct W; constructor; cbn; try done; unfold fits; lia).
  exists {| sp_bytes := bytes; sp_header := h; sp_page_id := sp_page_id p; sp_next_page_id := sp_next_page_id p;
            sp_overflow_payload_length := None |}.
  destruct (rebuilding_page_slots base _ cs st bytes h (sp_page_id p) (sp_next_page_id p) R)
    as [Hps Hcell]; [done|lia|apply LH|done..|].
  split_and!; try reflexivity.
  - unfold rebuild_ordered. apply skip_guard; [by rewrite Hl|]. rewrite Hb, bind_ok. cbv zeta.
    fold (rebuild_start p). rewrite E, bind_ok. apply skip_guard.
    { rewrite Rn. destruct (bool_decide_reflect (page_type (sp_header p) = Internal)) as [Hi|]; [|done].
      specialize (Hint Hi). rewrite <- len_zero in Hint. cbn. lia. }
    rewrite Rn, Rs. change SLOT_LEN with 4. rewrite checked_mul_small by lia. cbn [ok_or].
    rewrite bind_ok, checked_add_small by lia. cbn [ok_or]. rewrite bind_ok, !try_fit_small by lia.
    cbn [ok_or]. rewrite !bind_ok.
    rewrite (Z.mul_comm (len cs) 4). fold h. by rewrite EH, bind_ok, Ho.
  - apply page_valid_slotted; [exact Ht|]. cbn [sp_bytes sp_header sp_page_id sp_next_page_id].
    split_and!; [| |done|by eapply validate_slots_ok].
    + by eapply page_layout_decode.
    + intros Hi. change (page_type (sp_header p) = Internal) in Hi. destruct (I Hi) as [c Hc]. exists c. eapply internal_preamble_ext; [apply LH| |exact Hc].
      assert (base = 40) as -> by (apply slot_base_inv in Hb as [[? ?]|[? ?]]; congruence).
      rewrite <- Hsp, <- Rp. by apply (slice_sub _ _ _ _ _ _ Hbody).
  - eapply cells_of_slots; [apply LH|exact Hps|apply length_slots_of|exact Hcell].
  - cbn [sp_bytes]. rewrite <- Hsp, <- Rp. by apply (slice_sub _ _ _ _ _ _ Hbody); try lia.
Qed.

Lemma rebuild_ordered_inv p base cs p' :
  page_valid p → slot_base (page_type (sp_header p)) = Ok base →
  rebuild_ordered p cs = Ok p' → rebuild_fits (page_type (sp_header p)) base cs.
Proof.
  intros V Hb H. assert (PAGE_SIZE = 4096) as HP by done. pose proof (page_valid_len p V) as Hl.
  assert (32 ≤ base ≤ 40) as Hbase by (apply slot_base_inv in Hb; lia).
  destruct (rebuild_start_ok p base Hl Hb) as [Hsl _].
  unfold rebuild_ordered in H. rewrite Hb, bind_ok in H. cbv zeta in H. fold (rebuild_start p) in H.
  destruct (negb (len (sp_bytes p) =? PAGE_SIZE)); [done|].
  apply bind_ok_inv in H as (st & E & H).
  destruct (rebuild_loop_inv base (rebuild_start p) cs [] _ st ltac:(lia)
    (rebuilding_init base _ Hsl ltac:(lia)) E) as [Hne Hroom]. cbn [app] in Hroom.
  destruct (rebuild_loop_ok base (rebuild_start p) cs [] _ ltac:(lia)
    (rebuilding_init base _ Hsl ltac:(lia)) Hne ltac:(cbn [app]; lia)) as (st' & E' & R).
  assert (st' = st) as -> by congruence. split_and!; [done|lia|].
  intros Hi ->. pose proof (rb_counted _ _ _ _ R) as Hn. rewrite bool_decide_eq_true_2 in H by done.
  rewrite Hn in H. done.
Qed.
End RebuildOrdered.

(** ** Replacing a cell in place *)

Section ReplaceSameLen.
Context {CK : Checksum}.

Lemma page_header_free_start h id next k base :
  page_header_validate h id next k = Ok tt → slot_base (page_type h) = Ok base →
  free_start h = base + 4 * cell_count h.
Proof.
  intros V Hb. unfold page_header_validate, expected_slot_end in V. change SLOT_LEN with 4 in V.
  apply slot_base_inv in Hb as [[Ht ->] | [Ht ->]]; rewrite Ht in V; bind_inv; field_inv;
    unfold PAGE_HEADER_LEN, INTERNAL_PREAMBLE_LEN in *; lia.
Qed.

(** Overwriting bytes after the header and refreshing the checksum keeps the header. *)
Lemma page_layout_overwrite h bytes off r :
  page_layout h bytes → 32 ≤ off → off + len r ≤ PAGE_SIZE →
  ∃ bytes', write_page_checksum (put bytes off r) = Ok bytes' ∧ page_layout h bytes' ∧
    slice bytes' 28 PAGE_SIZE = slice (put bytes off r) 28 PAGE_SIZE.
Proof.
  intros L Ho Hr. assert (PAGE_SIZE = 4096) as HP by done. pose proof (pl_len _ _ L) as Hl.
  unfold write_page_checksum. change PAGE_CHECKSUM_OFFSET with 24 in *.
  rewrite write_checksum_ok by (rewrite ?len_put; lia). eexists; split; [reflexivity|].
  pose proof (checksummed_put (put bytes off r) 24 ltac:(by rewrite len_put) ltac:(lia) ltac:(lia)) as Hck.
  pose proof (len_checksum_field (put bytes off r) 24) as Hcl.
  set (ck := checksum_field (put bytes off r) 24) in *. clearbody ck. destruct L.
  split; [constructor; try (exact Hck); rewrite ?len_put; try done|]; clear Hck; rewrite HP in *;
    slice_simpl; done.
Qed.

Lemma replace_same_len_ok p ss k s r :
  page_valid p → slotted_type (page_type (sp_header p)) → page_slots p ss → ss !! k = Some s →
  len r = slot_length s →
  ∃ p', replace_same_len p (Z.of_nat k) r = Ok p' ∧ page_valid p' ∧ sp_header p' = sp_header p ∧
    page_slots p' ss ∧ slot_cell p' s = r ∧
    ∀ j t, ss !! j = Some t → j ≠ k → slot_cell p' t = slot_cell p t.
Proof.
  intros V Ht Hps Hk Hr. assert (PAGE_SIZE = 4096) as HP by done.
  pose proof (page_valid_len p V) as Hl. pose proof Hps as (Hn & Hch & Hss).
  destruct (slot_base_ok _ Ht) as (base & Hb & Hbase).
  apply (page_valid_slotted p Ht) in V as (D & I & Ho & V).
  apply page_header_decode_layout in D as (L & W & HV).
  pose proof (page_header_free_start _ _ _ _ _ HV Hb) as Hfs.
  destruct (slot_chain_bounds _ _ _ _ _ _ Hch Hk) as (? & ? & ? & _).
  assert (0 ≤ cell_count (sp_header p)) by lia.
  destruct (page_layout_overwrite _ _ (slot_offset s) r L) as (bytes & E & L' & Hbody); [lia..|].
  exists {| sp_bytes := bytes; sp_header := sp_header p; sp_page_id := sp_page_id p;
            sp_next_page_id := sp_next_page_id p; sp_overflow_payload_length := None |}.
  assert (∀ lo hi, 28 ≤ lo → hi ≤ 4096 → hi ≤ slot_offset s ∨ slot_offset s + len r ≤ lo →
            slice bytes lo hi = slice (sp_bytes p) lo hi) as Hsub.
  { intros lo hi ? ? Hd. rewrite (slice_sub _ _ _ _ _ _ Hbody) by lia. destruct Hd; by slice_simpl. }
  assert (page_slots {| sp_bytes := bytes; sp_header := sp_header p; sp_page_id := sp_page_id p;
            sp_next_page_id := sp_next_page_id p; sp_overflow_payload_length := None |} ss) as Hps'.
  { split_and!; [done..|]. intros j t Hj. rewrite <- (Hss j t Hj). apply lookup_lt_Some in Hj.
    pose proof (pl_len _ _ L').
    rewrite !(page_slot_read _ base) by (cbn [sp_header sp_bytes]; try done; lia).
    cbn [sp_bytes]. by rewrite Hsub by lia. }
  split_and!; try done.
  - unfold replace_same_len. rewrite (Hss k s Hk), bind_ok. apply skip_guard; [lia|].
    unfold page_checked_end. rewrite checked_add_small by lia. cbn [ok_or]. rewrite bind_ok.
    apply skip_guard; [lia|]. rewrite get_range_some by lia. cbn [ok_or].
    by rewrite bind_ok, E, bind_ok, Ho.
  - apply page_valid_slotted; [done|]. cbn [sp_bytes sp_header sp_page_id sp_next_page_id].
    split_and!; [by eapply page_layout_decode| |done|by eapply validate_slots_ok].
    intros Hi. destruct (I Hi) as [c Hc]. exists c. eapply internal_preamble_ext; [apply L'| |exact Hc].
    assert (base = 40) by (apply slot_base_inv in Hb as [[? ?]|[? ?]]; congruence).
    apply Hsub; lia.
  - unfold slot_cell. cbn [sp_bytes]. rewrite (slice_sub _ _ _ _ _ _ Hbody) by lia. by slice_simpl.
  - intros j t Hj Hjk. unfold slot_cell. cbn [sp_bytes].
    destruct (slot_chain_bounds _ _ _ _ _ _ Hch Hj) as (? & ? & ? & _). apply Hsub; [lia..|].
    destruct (decide (j < k)%nat).
    + right. assert (slot_offset s + slot_length s ≤ slot_offset t)
        by (by eapply (slot_chain_disjoint _ _ ss _ j k)).
      lia.
    + left. assert (slot_offset t + slot_length t ≤ slot_offset s)
        by (eapply (slot_chain_disjoint _ _ ss _ k j); try done; lia). lia.
Qed.
End ReplaceSameLen.

(** ** Chain pages *)

Section ChainPages.
Context {CK : Checksum}.

Definition chain_header (t : PageType) (next : Z) : PageHeader :=
  {| page_type := t; cell_count := 0; free_start := 0; free_end := 0; left := 0; right := next |}.

Lemma fill_zero_from_ok b lo :
  0 ≤ lo ≤ len b → fill_zero_from b lo = Some (put b lo (zeros (len b - lo))).
Proof.
  intros. unfold fill_zero_from. rewrite get_range_some by lia. by rewrite len_slice by lia.
Qed.

(** The body of an overflow page carrying [payload]. *)
Record overflow_body (payload b : list byte) : Prop := {
  ob_len : len b = PAGE_SIZE;
  ob_small : len payload ≤ OVERFLOW_PAYLOAD_LEN;
  ob_length : slice b 32 34 = le_bytes 2 (len payload);
  ob_reserved : slice b 34 40 = zeros 6;
  ob_payload : slice b 40 (40 + len payload) = payload;
  ob_tail : slice b (40 + len payload) PAGE_SIZE = zeros (PAGE_SIZE - (40 + len payload));
}.

Lemma overflow_body_ext payload b b' :
  overflow_body payload b → len b' = PAGE_SIZE →
  slice b' PAGE_HEADER_LEN PAGE_SIZE = slice b PAGE_HEADER_LEN PAGE_SIZE → overflow_body payload b'.
Proof.
  intros [] Hl Hs. change PAGE_HEADER_LEN with 32 in Hs. assert (PAGE_SIZE = 4096) as HP by done.
  change OVERFLOW_PAYLOAD_LEN with 4056 in *. pose proof (len_nonneg payload).
  constructor; try done; rewrite (slice_sub _ _ _ _ _ _ Hs) by lia; done.
Qed.

Lemma overflow_encode_body payload :
  len payload ≤ OVERFLOW_PAYLOAD_LEN →
  ∃ b, overflow_header_encode_into {| payload_length := len payload |} (put (zeros PAGE_SIZE) 40 payload) = Ok b
     ∧ overflow_body payload b.
Proof.
  intros Hs. assert (PAGE_SIZE = 4096) as HP by done. assert (OVERFLOW_PAYLOAD_LEN = 4056) as HO by done.
  pose proof (len_nonneg payload). unfold overflow_header_encode_into. rewrite HP, HO in *.
  change PAGE_HEADER_LEN with 32. cbn [payload_length].
  set (b3 := put (put (put (zeros 4096) 40 payload) 32 (le_bytes 2 (len payload))) 34 (zeros 6)).
  assert (len b3 = 4096) as H3 by (unfold b3; slice_side).
  exists (put b3 (40 + len payload) (zeros (4096 - (40 + len payload)))). split.
  - rewrite exact_page_ok by slice_side. rewrite bind_ok. apply skip_guard; [lia|].
    rewrite write_at_ok, bind_ok by slice_side. change (32 + 2) with 34.
    rewrite write_at_ok, bind_ok by slice_side. fold b3. rewrite checked_end_ok, bind_ok by lia.
    by rewrite fill_zero_from_ok, H3 by lia.
  - unfold b3. constructor; rewrite ?HP, ?HO; [slice_side|done|..]; slice_simpl; done.
Qed.

Lemma encode_overflow_page_eq id next_id next payload :
  len payload ≤ OVERFLOW_PAYLOAD_LEN →
  encode_overflow_page id next_id next payload =
    (b ← overflow_header_encode_into {| payload_length := len payload |} (put (zeros PAGE_SIZE) 40 payload);
     page_header_encode_into (chain_header Overflow next) b id next_id).
Proof.
  intros Hs. assert (PAGE_SIZE = 4096) as HP by done. assert (OVERFLOW_PAYLOAD_LEN = 4056) as HO by done.
  pose proof (len_nonneg payload). unfold encode_overflow_page. apply skip_guard; [lia|].
  unfold page_checked_end. rewrite checked_add_small by lia. cbn [ok_or].
  rewrite bind_ok, get_range_some by slice_side. cbn [ok_or]. rewrite bind_ok. cbv zeta.
  rewrite try_fit_small by lia. cbn [ok_or]. by rewrite bind_ok.
Qed.

Lemma overflow_decode_body payload b :
  overflow_body payload b → overflow_header_decode b = Ok {| payload_length := len payload |}.
Proof.
  intros []. assert (PAGE_SIZE = 4096) as HP by done. change OVERFLOW_PAYLOAD_LEN with 4056 in *.
  pose proof (len_nonneg payload). unfold overflow_header_decode. change PAGE_HEADER_LEN with 32.
  rewrite exact_page_ok, bind_ok by done.
  eapply bind_step; [apply (read_field _ _ 2 (len payload)); [lia..|unfold fits; lia|done]|].
  apply skip_guard; [change OVERFLOW_PAYLOAD_LEN with 4056; lia|].
  rewrite get_range_some by lia. cbn [ok_or]. rewrite bind_ok, ob_reserved0, require_zero_zeros, bind_ok.
  rewrite checked_end_ok, bind_ok by lia. rewrite get_range_some by lia. cbn [ok_or].
  by rewrite bind_ok, ob_len0, ob_tail0, require_zero_zeros, bind_ok.
Qed.

Lemma chain_header_validate t next id next_id k :
  (t = Overflow ∨ t = Free) →
  page_header_validate (chain_header t next) id next_id k = Ok tt ↔
  0 ≠ id ∧ id < next_id ∧ (next = 0 ∨ next < next_id ∧ next ≠ id).
Proof.
  intros Ht. unfold page_header_validate, validate_page_id, validate_reference.
  destruct Ht as [-> | ->]; cbn [chain_header page_type cell_count free_start free_end left right Z.eqb negb orb];
    (split; [intros H; bind_inv; lia | intros ?; decide_ifs; done]).
Qed.

Lemma free_body_zero b : len b = PAGE_SIZE → slice b PAGE_HEADER_LEN PAGE_SIZE = zeros (PAGE_SIZE - PAGE_HEADER_LEN) →
  validate_free_body b = Ok tt.
Proof.
  intros Hl Hz. assert (PAGE_SIZE = 4096) as HP by done. assert (PAGE_HEADER_LEN = 32) as HH by done.
  unfold validate_free_body. rewrite exact_page_ok, bind_ok by done.
  rewrite get_range_some by lia. cbn [ok_or]. by rewrite bind_ok, Hl, Hz, require_zero_zeros.
Qed.

(** A chain page whose header and body are accepted opens. *)
Lemma page_open_chain bytes t next id next_id o :
  page_layout (chain_header t next) bytes → is_u64 next →
  page_header_validate (chain_header t next) id next_id InvalidInput = Ok tt →
  (t = Overflow ∧ (∃ n, overflow_header_decode bytes = Ok {| payload_length := n |} ∧ o = Some n) ∨
   t = Free ∧ validate_free_body bytes = Ok tt ∧ o = None) →
  page_open bytes id next_id =
    Ok {| sp_bytes := bytes; sp_header := chain_header t next; sp_page_id := id;
          sp_next_page_id := next_id; sp_overflow_payload_length := o |}.
Proof.
  intros L Hn V Ho. unfold page_open. apply skip_guard; [by rewrite (pl_len _ _ L)|].
  eapply bind_step; [eapply page_layout_decode; [exact L| |exact V]; by constructor|].
  destruct Ho as [[-> (n & D & ->)] | [-> [D ->]]]; cbn [chain_header page_type]; rewrite D, !bind_ok; done.
Qed.

Lemma overflow_page_opens id next_id next payload :
  is_u64 next → len payload ≤ OVERFLOW_PAYLOAD_LEN → id ≠ 0 → id < next_id →
  (next = 0 ∨ next < next_id ∧ next ≠ id) →
  ∃ bytes p, encode_overflow_page id next_id next payload = Ok bytes ∧
    page_open bytes id next_id = Ok p ∧ page_type (sp_header p) = Overflow ∧
    right (sp_header p) = next ∧ overflow_payload p = Ok payload.
Proof.
  intros Hn Hp H0 Hid Hx. pose proof (len_nonneg payload). assert (OVERFLOW_PAYLOAD_LEN = 4056) as HO by done.
  destruct (overflow_encode_body payload) as (b & Eb & B); [lia|].
  assert (page_header_validate (chain_header Overflow next) id next_id InvalidInput = Ok tt) as V
    by (apply chain_header_validate; [by left|lia]).
  destruct (page_header_encode_layout _ b _ _ _ (ob_len _ _ B) V) as (bytes & E & L & Hbody).
  pose proof (overflow_body_ext _ _ _ B (pl_len _ _ L) Hbody) as B'.
  do 2 eexists. split; [|split; [|split; [|split]]].
  - rewrite encode_overflow_page_eq by lia. rewrite Eb, bind_ok. exact E.
  - eapply (page_open_chain _ _ _ _ _ (Some (len payload)) L Hn V). left. split; [done|].
    eexists. split; [by apply overflow_decode_body|done].
  - done.
  - done.
  - unfold overflow_payload. cbn [sp_overflow_payload_length ok_or sp_bytes]. rewrite bind_ok.
    unfold page_checked_end. rewrite checked_add_small by lia. cbn [ok_or]. rewrite bind_ok.
    rewrite get_range_some by (rewrite ?(ob_len _ _ B'); unfold PAGE_SIZE; lia). cbn [ok_or].
    by rewrite (ob_payload _ _ B').
Qed.

Lemma free_page_opens id next_id next :
  is_u64 next → id ≠ 0 → id < next_id → (next = 0 ∨ next < next_id ∧ next ≠ id) →
  ∃ bytes p, encode_free_page id next_id next = Ok bytes ∧ page_open bytes id next_id = Ok p ∧
    page_type (sp_header p) = Free ∧ right (sp_header p) = next ∧
    all_zero (slice bytes PAGE_HEADER_LEN PAGE_SIZE) = true.
Proof.
  intros Hn H0 Hid Hx. assert (PAGE_SIZE = 4096) as HP by done. change PAGE_HEADER_LEN with 32.
  unfold encode_free_page, encode_free_body. change PAGE_HEADER_LEN with 32.
  rewrite exact_page_ok, bind_ok, fill_zero_from_ok by (rewrite ?len_zeros; lia).
  cbn [ok_or]. rewrite bind_ok, len_zeros by lia.
  set (b := put (zeros PAGE_SIZE) 32 (zeros (PAGE_SIZE - 32))).
  assert (len b = PAGE_SIZE) as Hb by (unfold b; slice_side).
  assert (page_header_validate (chain_header Free next) id next_id InvalidInput = Ok tt) as V
    by (apply chain_header_validate; [by right|lia]).
  destruct (page_header_encode_layout _ b _ _ _ Hb V) as (bytes & E & L & Hbody).
  change PAGE_HEADER_LEN with 32 in Hbody.
  assert (slice b 32 PAGE_SIZE = zeros (PAGE_SIZE - 32)) as Hz
    by (unfold b; rewrite HP; by slice_simpl).
  do 2 eexists. split; [exact E|]. split; [|split; [|split]].
  - eapply (page_open_chain _ _ _ _ _ None L Hn V). right. split; [done|]. split; [|done].
    apply free_body_zero; [apply L|]. change PAGE_HEADER_LEN with 32. by rewrite Hbody.
  - done.
  - done.
  - rewrite Hbody, Hz. apply all_zero_zeros.
Qed.
End ChainPages.

(** ** Theorems *)

Section PageTheorems.
Context {CK : Checksum}.

(** C26: [rebuild_ordered] on an opened leaf or internal page succeeds exactly
    when every cell is nonempty, the slot directory and the cells fit in the
    page, and an internal page keeps at least one cell. *)
Theorem rebuild_ordered_capacity p base cs :
  page_valid p → slot_base (page_type (sp_header p)) = Ok base →
  (∃ p', rebuild_ordered p cs = Ok p') ↔
  Forall (λ c, 0 < len c) cs ∧ base + SLOT_LEN * len cs + used cs ≤ PAGE_SIZE ∧
  (page_type (sp_header p) = Internal → cs ≠ []).
Proof.
  intros V Hb. split.
  - intros [p' E]. by apply (rebuild_ordered_inv p base cs p').
  - intros F. destruct (rebuild_ordered_ok p base cs V Hb F) as (p' & E & _). eauto.
Qed.

(** A page rebuilt by [rebuild_ordered] opens to itself, its iterator
    yields exactly the given cells in the given order, and its type, sibling
    links, identity and internal preamble are those of the page before. *)
Theorem rebuild_ordered_reopens p cs p' :
  page_valid p → rebuild_ordered p cs = Ok p' →
  page_open (sp_bytes p') (sp_page_id p) (sp_next_page_id p) = Ok p' ∧
  cells p' = map Ok cs ∧
  page_type (sp_header p') = page_type (sp_header p) ∧
  left (sp_header p') = left (sp_header p) ∧ right (sp_header p') = right (sp_header p) ∧
  ∀ base, slot_base (page_type (sp_header p)) = Ok base →
    slice (sp_bytes p') PAGE_HEADER_LEN base = slice (sp_bytes p) PAGE_HEADER_LEN base.
Proof.
  intros V E. assert (is_Some (match slot_base (page_type (sp_header p)) with Ok b => Some b | Err _ => None end))
    as [base Hb'].
  { unfold rebuild_ordered in E. bind_inv. match goal with H : slot_base _ = Ok _ |- _ => rewrite H end. eauto. }
  destruct (slot_base (page_type (sp_header p))) as [base'|] eqn:Hb; simplify_eq.
  pose proof (rebuild_ordered_inv p base cs p' V Hb E) as F.
  destruct (rebuild_ordered_ok p base cs V Hb F) as (q & E' & V' & Hc & ? & ? & ? & Hi & Hn & Hp).
  assert (q = p') as -> by congruence. unfold page_valid in V'. rewrite Hi, Hn in V'.
  split_and!; try done. by intros ? [= <-].
Qed.

(** C37: the cells of an opened leaf or internal page are what its slot
    directory describes.  The iterator yields, without an error, as many cells
    as the header counts; the cell number [i] is the range of bytes of the page
    that the slot number [i] of the directory, as decoded from the bytes of the
    page, gives; the range is not empty and lies between the directory and the
    end of the page; and the ranges of distinct cells do not overlap. *)
Theorem opened_page_cells bytes id next p :
  page_open bytes id next = Ok p → slotted_type (page_type (sp_header p)) →
  ∃ base cs, slot_base (page_type (sp_header p)) = Ok base ∧
    cells p = map Ok cs ∧ len cs = cell_count (sp_header p) ∧
    (∀ i, 0 ≤ i < len cs → ∃ s,
       slot_decode (slice bytes (base + i * SLOT_LEN) (base + i * SLOT_LEN + SLOT_LEN)) = Ok s ∧
       cell_range p i = Ok (slot_offset s, slot_offset s + slot_length s) ∧
       cs !! Z.to_nat i = Some (slice bytes (slot_offset s) (slot_offset s + slot_length s)) ∧
       0 < slot_length s ∧ free_start (sp_header p) ≤ slot_offset s ∧ slot_offset s + slot_length s ≤ PAGE_SIZE) ∧
    (∀ i j lo hi lo' hi', 0 ≤ i < j → j < len cs →
       cell_range p i = Ok (lo, hi) → cell_range p j = Ok (lo', hi') → hi' ≤ lo).
Proof.
  intros H Ht. destruct (page_open_valid _ _ _ _ H) as [V <-]. destruct (slot_base_ok _ Ht) as (base & Hbase & _).
  destruct (page_valid_slots p V Ht) as [ss Hps]. pose proof Hps as (Hn & Hch & Hss).
  pose proof (page_valid_len p V) as Hl.
  exists base, (map (slot_cell p) ss). rewrite (cells_ok p ss Hl Hps).
  assert (len (map (slot_cell p) ss) = Z.of_nat (length ss)) as Hm by (unfold len; by rewrite length_map).
  assert (∀ i, 0 ≤ i < len (map (slot_cell p) ss) → ∃ k s, i = Z.of_nat k ∧ ss !! k = Some s) as Hi.
  { intros i ?. exists (Z.to_nat i). destruct (lookup_lt_is_Some_2 ss (Z.to_nat i)) as [s Hs]; [lia|].
    exists s. split; [lia|done]. }
  split_and!; [done|by rewrite map_map|lia| |].
  - intros i H0. destruct (Hi i H0) as (k & s & -> & Hk). exists s. rewrite Nat2Z.id.
    destruct (slot_chain_bounds _ _ _ _ _ _ Hch Hk) as (? & ? & ? & _).
    split_and!; [by apply (page_slot_bytes p), Hss|by eapply slots_range|by rewrite list_lookup_fmap, Hk|done..].
  - intros i j lo hi lo' hi' Hij Hj Ei Ej. destruct (Hi i ltac:(lia)) as (k & s & -> & Hk).
    destruct (Hi j ltac:(lia)) as (k' & s' & -> & Hk').
    rewrite (slots_range p ss k s Hps Hk) in Ei. rewrite (slots_range p ss k' s' Hps Hk') in Ej. simplify_eq.
    eapply (slot_chain_disjoint _ _ ss _ k k'); try done. lia.
Qed.

(** On an opened leaf or internal page, [replace_same_len] with a
    replacement as long as cell [i] yields a page that opens to itself, has the
    same header, holds the replacement as cell [i] and every other cell
    unchanged; with another length, or an index outside the page, it fails. *)
Theorem replace_same_len_correct p i r :
  page_valid p → slotted_type (page_type (sp_header p)) → 0 ≤ i →
  match cell p i with
  | Err _ => is_ok (replace_same_len p i r) = false
  | Ok c =>
      if len r =? len c then
        ∃ p', replace_same_len p i r = Ok p' ∧
          page_open (sp_bytes p') (sp_page_id p) (sp_next_page_id p) = Ok p' ∧
          sp_header p' = sp_header p ∧ cells p' = <[Z.to_nat i := Ok r]> (cells p)
      else replace_same_len p i r = Err (invalid_input "replacement length differs from cell length")
  end.
Proof.
  intros V Ht Hi. destruct (page_valid_slots p V Ht) as [ss Hps]. pose proof Hps as (Hn & Hch & Hss).
  pose proof (page_valid_len p V) as Hl.
  destruct (ss !! Z.to_nat i) as [s|] eqn:Hk.
  - pose proof (cell_ok p ss _ s Hl Hps Hk) as Ec. rewrite Z2Nat.id in Ec by done. rewrite Ec.
    destruct (slot_chain_bounds _ _ _ _ _ _ Hch Hk) as (? & ? & ? & _).
    pose proof (page_slot_inv _ _ _ (Hss _ s Hk)) as [[[] []] _].
    assert (len (slot_cell p s) = slot_length s) as -> by (unfold slot_cell; rewrite len_slice; lia).
    destruct (Z.eqb_spec (len r) (slot_length s)) as [Hr|Hr].
    + destruct (replace_same_len_ok p ss _ s r V Ht Hps Hk Hr) as (p' & E & V' & Hh & Hps' & Hs & Ho).
      rewrite Z2Nat.id in E by done. exists p'. unfold page_valid in V'.
      assert (sp_page_id p' = sp_page_id p ∧ sp_next_page_id p' = sp_next_page_id p) as [Hid Hnx]
        by (unfold replace_same_len in E; bind_inv; done).
      rewrite Hid, Hnx in V'. split_and!; [done..|].
      rewrite (cells_ok p ss Hl Hps). apply page_open_valid in V' as [V' _].
      rewrite (cells_ok p' ss (page_valid_len _ V') Hps'). apply list_eq. intros j.
      destruct (decide (j = Z.to_nat i)) as [->|Hj].
      * rewrite list_lookup_fmap, Hk. cbn. rewrite list_lookup_insert_eq; [by rewrite Hs|].
        rewrite length_fmap. by apply lookup_lt_Some in Hk.
      * rewrite list_lookup_insert_ne by done. rewrite !list_lookup_fmap.
        destruct (ss !! j) as [t|] eqn:Hjt; [|done]. cbn. by rewrite (Ho j t Hjt Hj).
    + unfold replace_same_len. pose proof (Hss _ s Hk) as E. rewrite Z2Nat.id in E by done.
      rewrite E, bind_ok. apply take_guard; [lia|done].
  - apply lookup_ge_None in Hk.
    assert (page_slot p i = Err (invalid_input "cell index is outside page")) as E
      by (unfold page_slot; apply take_guard; [lia|done]).
    unfold cell, cell_range, replace_same_len. by rewrite E.
Qed.

(** [encode_overflow_page] succeeds exactly for payloads of at most 4056
    bytes, a page id inside the file and a successor that is absent or another
    page of the file; the page it returns opens as an overflow page with that
    successor, and [overflow_payload] returns the payload. *)
Theorem overflow_page_roundtrip id next_id next payload :
  is_u64 next →
  if (len payload <=? OVERFLOW_PAYLOAD_LEN) && negb (id =? 0) && (id <? next_id)
     && ((next =? 0) || (next <? next_id) && negb (next =? id))
  then ∃ bytes p, encode_overflow_page id next_id next payload = Ok bytes ∧
         page_open bytes id next_id = Ok p ∧ page_type (sp_header p) = Overflow ∧
         right (sp_header p) = next ∧ overflow_payload p = Ok payload
  else is_ok (encode_overflow_page id next_id next payload) = false.
Proof.
  intros Hn. pose proof (len_nonneg payload). assert (OVERFLOW_PAYLOAD_LEN = 4056) as HO by done.
  pose proof (chain_header_validate Overflow next id next_id InvalidInput (or_introl eq_refl)) as HV.
  case_match eqn:C.
  - apply overflow_page_opens; try done; lia.
  - destruct (encode_overflow_page id next_id next payload) as [b|] eqn:E; [|done]. exfalso.
    destruct (Z.leb_spec (len payload) 4056) as [Hs|Hs].
    + rewrite encode_overflow_page_eq in E by lia. apply bind_ok_inv in E as (b' & _ & E).
      unfold page_header_encode_into in E. bind_inv.
      match goal with H : page_header_validate _ _ _ _ = Ok _ |- _ => apply HV in H end. lia.
    + unfold encode_overflow_page in E. bind_inv. lia.
Qed.

(** [encode_free_page] yields a page that opens as a free page linked to
    [next], with an all-zero body. *)
Theorem free_page_roundtrip id next_id next bytes :
  is_u64 next → encode_free_page id next_id next = Ok bytes →
  ∃ p, page_open bytes id next_id = Ok p ∧ page_type (sp_header p) = Free ∧
    right (sp_header p) = next ∧ all_zero (slice bytes PAGE_HEADER_LEN PAGE_SIZE) = true.
Proof.
  intros Hn E. assert (id ≠ 0 ∧ id < next_id ∧ (next = 0 ∨ next < next_id ∧ next ≠ id)) as (? & ? & ?).
  { unfold encode_free_page in E. apply bind_ok_inv in E as (b & _ & E).
    unfold page_header_encode_into in E. bind_inv.
    match goal with H : page_header_validate _ _ _ _ = Ok _ |- _ =>
      apply (chain_header_validate Free next id next_id InvalidInput (or_intror eq_refl)) in H end. lia. }
  destruct (free_page_opens id next_id next) as (bytes' & p & E' & O & Ht & Hr & Hz); [done..|].
  assert (bytes' = bytes) as -> by congruence. exists p. by split_and!.
Qed.
End PageTheorems.

(** *** Witnesses *)

Definition empty_leaf : SlottedPage :=
  {| sp_bytes := example_leaf; sp_header := example_page_header; sp_page_id := 1; sp_next_page_id := 8;
     sp_overflow_payload_length := None |}.

Definition example_cells : list (list byte) := [le_bytes 3 7; le_bytes 5 9; le_bytes 2 1].

Definition example_page : SlottedPage :=
  match rebuild_ordered empty_leaf example_cells with Ok p => p | Err _ => empty_leaf end.

Lemma rebuild_ordered_capacity_witness :
  ∃ p', rebuild_ordered empty_leaf example_cells = Ok p'.
Proof.
  apply (rebuild_ordered_capacity empty_leaf 32 example_cells); [vm_compute; reflexivity..|].
  split; [repeat constructor|]. split; [vm_compute; discriminate|discriminate].
Defined.

Lemma rebuild_ordered_reopens_witness : cells example_page = map Ok example_cells.
Proof.
  refine (proj1 (proj2 (rebuild_ordered_reopens empty_leaf example_cells example_page _ _)));
    vm_compute; reflexivity.
Defined.

Lemma opened_page_cells_witness :
  ∃ base cs, slot_base Leaf = Ok base ∧ cells example_page = map Ok cs ∧ len cs = 3 ∧
    ∃ s, slot_decode (slice (sp_bytes example_page) (base + 1 * SLOT_LEN) (base + 1 * SLOT_LEN + SLOT_LEN)) = Ok s ∧
      cs !! 1%nat = Some (slice (sp_bytes example_page) (slot_offset s) (slot_offset s + slot_length s)).
Proof.
  destruct (opened_page_cells (sp_bytes example_page) 1 8 example_page) as (base & cs & Hb & Hc & Hn & Hs & _).
  - vm_compute. reflexivity.
  - left. vm_compute. reflexivity.
  - exists base, cs. assert (len cs = 3) as Hl by (rewrite Hn; vm_compute; reflexivity).
    destruct (Hs 1) as (s & Hd & _ & Hk & _); [lia|].
    split; [exact Hb|]. split; [exact Hc|]. split; [exact Hl|]. exists s. exact (conj Hd Hk).
Defined.

Lemma replace_same_len_correct_witness :
  ∃ p', replace_same_len example_page 1 (le_bytes 5 33) = Ok p' ∧
    page_open (sp_bytes p') (sp_page_id example_page) (sp_next_page_id example_page) = Ok p' ∧
    sp_header p' = sp_header example_page ∧
    cells p' = <[Z.to_nat 1 := Ok (le_bytes 5 33)]> (cells example_page).
Proof.
  assert (page_valid example_page) as V by (vm_compute; reflexivity).
  assert (slotted_type (page_type (sp_header example_page))) as Ht by (left; vm_compute; reflexivity).
  assert (cell example_page 1 = Ok (le_bytes 5 9)) as E by (vm_compute; reflexivity).
  pose proof (replace_same_len_correct example_page 1 (le_bytes 5 33) V Ht ltac:(discriminate)) as T.
  rewrite E in T. exact T.
Defined.

Lemma overflow_page_roundtrip_witness :
  ∃ bytes p, encode_overflow_page 3 8 4 (le_bytes 8 77) = Ok bytes ∧
    page_open bytes 3 8 = Ok p ∧ page_type (sp_header p) = Overflow ∧
    right (sp_header p) = 4 ∧ overflow_payload p = Ok (le_bytes 8 77).
Proof.
  pose proof (overflow_page_roundtrip 3 8 4 (le_bytes 8 77) ltac:(unfold fits; lia)) as T.
  match type of T with
  | if ?c then _ else _ => assert (c = true) as Hc by (vm_compute; reflexivity); rewrite Hc in T
  end.
  exact T.
Defined.

Definition example_free : list byte :=
  match encode_free_page 3 8 5 with Ok b => b | Err _ => [] end.

Lemma free_page_roundtrip_witness :
  ∃ p, page_open example_free 3 8 = Ok p ∧ page_type (sp_header p) = Free ∧
    right (sp_header p) = 5 ∧ all_zero (slice example_free PAGE_HEADER_LEN PAGE_SIZE) = true.
Proof.
  refine (free_page_roundtrip 3 8 5 example_free _ _); [|vm_compute; reflexivity].
  vm_compute. split; congruence.
Defined.
