(* ===== verification/BtreeSplit.v ===== *)
(** Page usage, page splits and searches inside a page of the version 3 B+Tree
    (backend/btree/src/v3/tree.rs): how many bytes a list of cells needs, where
    an overfull leaf or internal page is cut, and the two binary searches.
    Keys are values of a type with a total order that [rmp_serde] decodes from
    the key bytes of a cell. *)

From S2P Require Import Prelude BtreeFormat BtreeCell BtreePage.

(** The key type [K: Ord + Serialize + Deserialize]: the order is total and
    agrees with equality, decoding may fail with a message, and a serialized key
    decodes to itself. *)
Class KeyCodec := {
  key : Type;
  key_cmp : key → key → comparison;
  key_from_slice : list byte → result string key;
  key_to_vec : key → list byte;
  key_cmp_eq : ∀ a b, key_cmp a b = Eq ↔ a = b;
  key_cmp_antisym : ∀ a b, key_cmp b a = CompOpp (key_cmp a b);
  key_cmp_trans : ∀ a b c, key_cmp a b = Lt → key_cmp b c = Lt → key_cmp a c = Lt;
  key_roundtrip : ∀ k, key_from_slice (key_to_vec k) = Ok k;
}.

Definition decode_key {KC : KeyCodec} (encoded : list byte) : io_result key :=
  map_err (λ err, invalid_data ("invalid serialized key: " +:+ err)) (key_from_slice encoded).

Lemma decode_encoded_key {KC : KeyCodec} k : decode_key (key_to_vec k) = Ok k.
Proof. unfold decode_key. by rewrite key_roundtrip. Qed.

(** ** Page usage *)

Fixpoint checked_page_usage (base : Z) (cells : list (list byte)) (maximum_cell_footprint : Z)
    : io_result Z :=
  match cells with
  | [] => Ok base
  | cell :: cells =>
      footprint ← ok_or (checked_add SLOT_LEN (len cell)) (invalid_input "cell footprint overflow");
      if maximum_cell_footprint <? footprint
      then Err (invalid_input "cell footprint exceeds format limit") else
      used ← ok_or (checked_add base footprint) (invalid_input "page usage overflow");
      checked_page_usage used cells maximum_cell_footprint
  end.

Definition used_leaf_bytes (cells : list (list byte)) : io_result Z :=
  checked_page_usage PAGE_HEADER_LEN cells MAX_CELL_FOOTPRINT.

Definition used_internal_bytes (cells : list (list byte)) : io_result Z :=
  checked_page_usage (PAGE_HEADER_LEN + 8) cells (SLOT_LEN + 12 + 2004).

(** ** Splitting a leaf *)

(** The first loop: the footprints are admissible and are summed up. *)
Fixpoint leaf_split_total (total : Z) (cells : list (list byte)) : io_result Z :=
  match cells with
  | [] => Ok total
  | cell :: cells =>
      footprint ← ok_or (checked_add SLOT_LEN (len cell)) (invalid_input "leaf cell footprint overflow");
      if MAX_CELL_FOOTPRINT <? footprint
      then Err (invalid_input "leaf cell footprint exceeds format limit") else
      total ← ok_or (checked_add total footprint) (invalid_input "leaf split usage overflow");
      leaf_split_total total cells
  end.

(** [best.is_none_or(|(_, best_imbalance)| imbalance < best_imbalance)]. *)
Definition improves (best : option (Z * Z)) (imbalance : Z) : bool :=
  match best with None => true | Some (_, best_imbalance) => imbalance <? best_imbalance end.

Definition consider (best : option (Z * Z)) (boundary left_used right_used : Z) : option (Z * Z) :=
  if (left_used <=? PAGE_SIZE) && (right_used <=? PAGE_SIZE) then
    let imbalance := Z.abs (left_used - right_used) in
    if improves best imbalance then Some (boundary, imbalance) else best
  else best.

(** The second loop: [n] boundaries remain, from [boundary]. *)
Fixpoint leaf_split_scan (n : nat) (cells : list (list byte)) (total boundary left_payload : Z)
    (best : option (Z * Z)) : io_result (option (Z * Z)) :=
  match n with
  | O => Ok best
  | S n =>
      cell ← ok_or (get cells (boundary - 1)) (invalid_input "leaf split boundary is outside cells");
      footprint ← ok_or (checked_add SLOT_LEN (len cell)) (invalid_input "leaf cell footprint overflow");
      left_payload ← ok_or (checked_add left_payload footprint) (invalid_input "leaf split usage overflow");
      right_payload ← ok_or (checked_sub total left_payload) (invalid_input "leaf split usage underflow");
      left_used ← ok_or (checked_add PAGE_HEADER_LEN left_payload) (invalid_input "leaf split usage overflow");
      right_used ← ok_or (checked_add PAGE_HEADER_LEN right_payload) (invalid_input "leaf split usage overflow");
      leaf_split_scan n cells total (boundary + 1) left_payload (consider best boundary left_used right_used)
  end.

Definition choose_leaf_split (cells : list (list byte)) : io_result Z :=
  if len cells <? 2 then Err (invalid_input "leaf split requires two non-empty outputs") else
  total ← leaf_split_total 0 cells;
  best ← leaf_split_scan (length cells - 1) cells total 1 0 None;
  ok_or (fst <$> best) (invalid_input "leaf split has no valid boundary").

(** ** Splitting an internal page *)

Record InternalSplit := {
  promoted : InternalCellRef;
  right_leftmost_child : Z;
  left_cells : list (list byte);
  right_cells : list (list byte);
}.

Fixpoint decode_internal_cells (cells : list (list byte)) (page_id next_page_id : Z) : io_result unit :=
  match cells with
  | [] => Ok tt
  | cell :: cells =>
      _ ← internal_cell_ref_decode cell page_id next_page_id;
      decode_internal_cells cells page_id next_page_id
  end.

Fixpoint internal_split_scan (n : nat) (cells : list (list byte)) (promoted_index : Z)
    (best : option (Z * Z)) : io_result (option (Z * Z)) :=
  match n with
  | O => Ok best
  | S n =>
      left_used ← used_internal_bytes (take (Z.to_nat promoted_index) cells);
      right_used ← used_internal_bytes (drop (Z.to_nat promoted_index + 1) cells);
      internal_split_scan n cells (promoted_index + 1) (consider best promoted_index left_used right_used)
  end.

Definition choose_internal_split (cells : list (list byte)) (page_id next_page_id : Z)
    : io_result InternalSplit :=
  if len cells <? 3
  then Err (invalid_input "internal split requires two non-empty outputs and a promoted separator") else
  _ ← decode_internal_cells cells page_id next_page_id;
  best ← internal_split_scan (length cells - 2) cells 1 None;
  promoted_index ← ok_or (fst <$> best) (invalid_input "internal split has no valid boundary");
  cell ← ok_or (get cells promoted_index) (invalid_input "promoted separator is outside cells");
  promoted ← internal_cell_ref_decode cell page_id next_page_id;
  left ← ok_or (get_range cells 0 promoted_index) (invalid_input "left split range is outside cells");
  right ← ok_or (get_range cells (promoted_index + 1) (len cells))
                (invalid_input "right split range is outside cells");
  Ok {| promoted := promoted; right_leftmost_child := internal_right_child promoted;
        left_cells := left; right_cells := right |}.

(** ** Searching a page *)

Section Search.
Context {CK : Checksum} {KC : KeyCodec}.

(** [Result<usize, usize>]: the index of the key, or where it belongs. *)
Inductive Found := FoundAt (index : Z) | InsertAt (index : Z).

Fixpoint search_leaf_loop (fuel : nat) (page : SlottedPage) (target : key) (left right : Z)
    : io_result Found :=
  match fuel with
  | O => Ok (InsertAt left)
  | S fuel =>
      if left <? right then
        let middle := left + (right - left) / 2 in
        raw ← cell page middle;
        c ← leaf_cell_ref_decode raw (sp_page_id page) (sp_next_page_id page);
        k ← decode_key (leaf_key_bytes c);
        match key_cmp k target with
        | Lt => search_leaf_loop fuel page target (middle + 1) right
        | Gt => search_leaf_loop fuel page target left middle
        | Eq => Ok (FoundAt middle)
        end
      else Ok (InsertAt left)
  end.

(** Every iteration shrinks [right - left], so the number of cells is enough
    fuel. *)
Definition search_leaf (page : SlottedPage) (target : key) : io_result Found :=
  if negb (bool_decide (page_type (sp_header page) = Leaf))
  then Err (invalid_data "typed leaf search requires a leaf page") else
  search_leaf_loop (Z.to_nat (cell_count (sp_header page))) page target 0 (cell_count (sp_header page)).

Fixpoint child_position_loop (fuel : nat) (page : SlottedPage) (k : key) (left right : Z)
    : io_result Z :=
  match fuel with
  | O => Ok left
  | S fuel =>
      if left <? right then
        let middle := left + (right - left) / 2 in
        raw ← cell page middle;
        c ← internal_cell_ref_decode raw (sp_page_id page) (sp_next_page_id page);
        separator ← decode_key (internal_key_bytes c);
        match key_cmp separator k with
        | Gt => child_position_loop fuel page k left middle
        | Lt | Eq => child_position_loop fuel page k (middle + 1) right
        end
      else Ok left
  end.

Definition internal_child_position (page : SlottedPage) (k : key) : io_result (Z * Z) :=
  left ← child_position_loop (Z.to_nat (cell_count (sp_header page))) page k 0
           (cell_count (sp_header page));
  if left =? 0 then
    preamble ← internal_preamble_decode (sp_bytes page) (sp_page_id page) (sp_next_page_id page);
    Ok (left, leftmost_child preamble)
  else
    raw ← cell page (left - 1);
    c ← internal_cell_ref_decode raw (sp_page_id page) (sp_next_page_id page);
    Ok (left, internal_right_child c).
End Search.

(** ** Usage and splits *)

(** Bytes that a list of cells takes in a page, slots included. *)
Definition weight (cells : list (list byte)) : Z := SLOT_LEN * len cells + used cells.

Lemma weight_nil : weight [] = 0.
Proof. done. Qed.

Lemma weight_cons c cs : weight (c :: cs) = SLOT_LEN + len c + weight cs.
Proof. unfold weight. rewrite len_cons. cbn [used]. lia. Qed.

Lemma weight_app cs cs' : weight (cs ++ cs') = weight cs + weight cs'.
Proof. unfold weight. rewrite len_app, used_app. lia. Qed.

Lemma weight_nonneg cs : 0 ≤ weight cs.
Proof.
  unfold weight. pose proof (len_nonneg cs). pose proof (used_nonneg cs). unfold SLOT_LEN. lia.
Qed.

Lemma weight_split n cs : weight cs = weight (take n cs) + weight (drop n cs).
Proof. rewrite <- weight_app. by rewrite take_drop. Qed.

Lemma weight_take_S cs n c :
  cs !! n = Some c → weight (take (S n) cs) = weight (take n cs) + SLOT_LEN + len c.
Proof. intros H. rewrite (take_S_r _ _ c H), weight_app, weight_cons, weight_nil. lia. Qed.

Definition admissible (maximum : Z) (c : list byte) : Prop := SLOT_LEN + len c ≤ maximum.

Lemma checked_page_usage_ok base cells maximum :
  0 ≤ base → base + weight cells < 2 ^ 64 → Forall (admissible maximum) cells →
  checked_page_usage base cells maximum = Ok (base + weight cells).
Proof.
  intros Hb Hw Ha. revert base Hb Hw. induction Ha as [|c cs Hc _ IH]; intros base Hb Hw.
  { cbn. by rewrite weight_nil, Z.add_0_r. }
  rewrite weight_cons in *. pose proof (weight_nonneg cs). pose proof (len_nonneg c).
  unfold admissible, SLOT_LEN in *. cbn [checked_page_usage]. unfold SLOT_LEN.
  rewrite checked_add_small by lia. cbn [ok_or]. rewrite bind_ok. decide_ifs.
  rewrite checked_add_small by lia. cbn [ok_or]. rewrite bind_ok, IH by lia. f_equal. lia.
Qed.

Lemma leaf_split_total_ok total cells :
  0 ≤ total → total + weight cells < 2 ^ 64 → Forall (admissible MAX_CELL_FOOTPRINT) cells →
  leaf_split_total total cells = Ok (total + weight cells).
Proof.
  intros Hb Hw Ha. revert total Hb Hw. induction Ha as [|c cs Hc _ IH]; intros total Hb Hw.
  { cbn. by rewrite weight_nil, Z.add_0_r. }
  rewrite weight_cons in *. pose proof (weight_nonneg cs). pose proof (len_nonneg c).
  unfold admissible, SLOT_LEN in *. cbn [leaf_split_total]. unfold SLOT_LEN.
  rewrite checked_add_small by lia. cbn [ok_or]. rewrite bind_ok. decide_ifs.
  rewrite checked_add_small by lia. cbn [ok_or]. rewrite bind_ok, IH by lia. f_equal. lia.
Qed.

(** [best] is the first of the cheapest acceptable choices in [lo, hi). *)
Definition optimal (accept : Z → Prop) (cost : Z → Z) (lo hi : Z) (best : option (Z * Z)) : Prop :=
  match best with
  | None => ∀ i, lo ≤ i < hi → ¬ accept i
  | Some (b, c) =>
      lo ≤ b < hi ∧ accept b ∧ c = cost b ∧
      ∀ i, lo ≤ i < hi → accept i → cost b ≤ cost i ∧ (i < b → cost b < cost i)
  end.

Lemma consider_optimal accept cost lo hi best l r :
  optimal accept cost lo hi best → lo ≤ hi →
  (accept hi ↔ l ≤ PAGE_SIZE ∧ r ≤ PAGE_SIZE) → cost hi = Z.abs (l - r) →
  optimal accept cost lo (hi + 1) (consider best hi l r).
Proof.
  intros Ho Hlh Ha Hc. unfold consider.
  destruct (Z.leb_spec l PAGE_SIZE), (Z.leb_spec r PAGE_SIZE); cbn [andb];
    [|(assert (¬ accept hi) as Hna by (rewrite Ha; lia);
       destruct best as [[b c]|]; cbn [optimal] in *;
       [destruct Ho as (? & ? & ? & Hi); split_and!; [lia..|done|done|]; intros i ? Hai;
          destruct (decide (i = hi)) as [->|]; [done|by apply Hi; [lia|]]
       |intros i ? Hai; destruct (decide (i = hi)) as [->|]; [done|by apply (Ho i); [lia|]]])..].
  assert (accept hi) as Hai by (apply Ha; lia).
  destruct best as [[b c]|]; cbn [improves optimal] in *.
  - destruct Ho as (? & ? & -> & Hi). destruct (Z.ltb_spec (Z.abs (l - r)) (cost b)); cbn [optimal].
    + split_and!; [lia..|done|done|]. intros i ? Hacc. destruct (decide (i = hi)) as [->|]; [lia|].
      destruct (Hi i); [lia|done|]. lia.
    + split_and!; [lia..|done|done|]. intros i ? Hacc. destruct (decide (i = hi)) as [->|]; [lia|].
      by apply Hi; [lia|].
  - split_and!; [lia..|done|done|]. intros i ? Hacc. destruct (decide (i = hi)) as [->|]; [lia|].
    destruct (Ho i); [lia|done].
Qed.

(** What a boundary must satisfy, and what it costs. *)
Definition leaf_fits (cells : list (list byte)) (b : Z) : Prop :=
  PAGE_HEADER_LEN + weight (take (Z.to_nat b) cells) ≤ PAGE_SIZE ∧
  PAGE_HEADER_LEN + weight (drop (Z.to_nat b) cells) ≤ PAGE_SIZE.

Definition leaf_imbalance (cells : list (list byte)) (b : Z) : Z :=
  Z.abs (weight (take (Z.to_nat b) cells) - weight (drop (Z.to_nat b) cells)).

Lemma leaf_split_scan_ok cells :
  weight cells < 2 ^ 62 →
  ∀ n b best, 1 ≤ b → b + Z.of_nat n = len cells →
  optimal (leaf_fits cells) (leaf_imbalance cells) 1 b best →
  ∃ best', leaf_split_scan n cells (weight cells) b (weight (take (Z.to_nat (b - 1)) cells)) best = Ok best' ∧
    optimal (leaf_fits cells) (leaf_imbalance cells) 1 (len cells) best'.
Proof.
  intros Hw n. induction n as [|n IH]; intros b best Hb Hn Ho; cbn [leaf_split_scan].
  { exists best. replace (len cells) with b by lia. done. }
  destruct (lookup_lt_is_Some_2 cells (Z.to_nat (b - 1))) as [c Hc]; [unfold len in Hn; lia|].
  unfold get. replace (0 <=? b - 1) with true by lia. rewrite Hc. cbn [ok_or]. rewrite bind_ok.
  pose proof (weight_take_S _ _ _ Hc) as HS. replace (S (Z.to_nat (b - 1))) with (Z.to_nat b) in HS by lia.
  pose proof (weight_split (Z.to_nat b) cells). pose proof (len_nonneg c).
  pose proof (weight_nonneg (take (Z.to_nat (b - 1)) cells)). pose proof (weight_nonneg (drop (Z.to_nat b) cells)).
  unfold SLOT_LEN, PAGE_HEADER_LEN in *.
  rewrite checked_add_small by lia. cbn [ok_or]. rewrite bind_ok.
  rewrite checked_add_small by lia. cbn [ok_or]. rewrite bind_ok.
  rewrite checked_sub_small by lia. cbn [ok_or]. rewrite bind_ok.
  rewrite !checked_add_small by lia. cbn [ok_or]. rewrite !bind_ok.
  replace (weight (take (Z.to_nat (b - 1)) cells) + (4 + len c))
    with (weight (take (Z.to_nat (b + 1 - 1)) cells)) by (replace (b + 1 - 1) with b by lia; lia).
  apply IH; [lia|lia|]. replace (b + 1 - 1) with b by lia.
  apply consider_optimal; [done|lia| |].
  - unfold leaf_fits, PAGE_HEADER_LEN. lia.
  - unfold leaf_imbalance. lia.
Qed.

(** The cut just before the first cell that would overfill the left page. *)
Lemma last_fitting cells limit :
  0 ≤ limit → limit < weight cells →
  ∃ i c, cells !! i = Some c ∧ weight (take i cells) ≤ limit ∧ limit < weight (take (S i) cells).
Proof.
  intros Hl. induction cells as [|c cs IH] using rev_ind; intros Hw; [rewrite weight_nil in Hw; lia|].
  destruct (Z.ltb_spec limit (weight cs)) as [H|H].
  - destruct (IH H) as (i & c' & Hi & H1 & H2). pose proof (lookup_lt_Some _ _ _ Hi).
    exists i, c'. rewrite lookup_app_l, !take_app_le by lia. done.
  - exists (length cs), c. rewrite lookup_app_r, Nat.sub_diag, take_app_length by done.
    split_and!; [done..|]. rewrite (take_ge (cs ++ [c])) by (rewrite length_app; cbn; lia). done.
Qed.

Lemma overfull_leaf_cut cells :
  Forall (admissible MAX_CELL_FOOTPRINT) cells →
  PAGE_SIZE < PAGE_HEADER_LEN + weight cells →
  PAGE_HEADER_LEN + weight cells ≤ PAGE_SIZE + MAX_CELL_FOOTPRINT →
  ∃ b, 1 ≤ b < len cells ∧ leaf_fits cells b.
Proof.
  unfold PAGE_SIZE, PAGE_HEADER_LEN, MAX_CELL_FOOTPRINT. intros Ha Hlo Hhi.
  destruct (last_fitting cells 4064) as (i & c & Hi & H1 & H2); [lia..|].
  pose proof (weight_take_S _ _ _ Hi) as HS. pose proof (weight_split i cells).
  pose proof (lookup_lt_Some _ _ _ Hi). rewrite Forall_lookup in Ha. pose proof (Ha _ _ Hi) as Hc.
  unfold admissible, SLOT_LEN in *. exists (Z.of_nat i). unfold leaf_fits, PAGE_HEADER_LEN, PAGE_SIZE.
  rewrite Nat2Z.id. split; [|lia]. split; [|unfold len; lia].
  destruct i; [rewrite take_0, weight_nil in HS; lia|lia].
Qed.

(** ** Internal splits *)

Definition internal_fits (cells : list (list byte)) (i : Z) : Prop :=
  PAGE_HEADER_LEN + INTERNAL_PREAMBLE_LEN + weight (take (Z.to_nat i) cells) ≤ PAGE_SIZE ∧
  PAGE_HEADER_LEN + INTERNAL_PREAMBLE_LEN + weight (drop (Z.to_nat i + 1) cells) ≤ PAGE_SIZE.

Definition internal_imbalance (cells : list (list byte)) (i : Z) : Z :=
  Z.abs (weight (take (Z.to_nat i) cells) - weight (drop (Z.to_nat i + 1) cells)).

Definition MAX_INTERNAL_FOOTPRINT : Z := SLOT_LEN + 12 + 2004.

Lemma used_internal_bytes_ok cells :
  weight cells < 2 ^ 62 → Forall (admissible MAX_INTERNAL_FOOTPRINT) cells →
  used_internal_bytes cells = Ok (PAGE_HEADER_LEN + INTERNAL_PREAMBLE_LEN + weight cells).
Proof.
  intros Hw Ha. unfold used_internal_bytes. rewrite checked_page_usage_ok; [done|done| |done].
  unfold PAGE_HEADER_LEN. lia.
Qed.

Lemma used_leaf_bytes_ok cells :
  weight cells < 2 ^ 62 → Forall (admissible MAX_CELL_FOOTPRINT) cells →
  used_leaf_bytes cells = Ok (PAGE_HEADER_LEN + weight cells).
Proof.
  intros Hw Ha. unfold used_leaf_bytes. rewrite checked_page_usage_ok; [done|done| |done].
  unfold PAGE_HEADER_LEN. lia.
Qed.

Lemma internal_split_scan_ok cells :
  weight cells < 2 ^ 62 → Forall (admissible MAX_INTERNAL_FOOTPRINT) cells →
  ∀ n i best, 1 ≤ i → i + Z.of_nat n = len cells - 1 →
  optimal (internal_fits cells) (internal_imbalance cells) 1 i best →
  ∃ best', internal_split_scan n cells i best = Ok best' ∧
    optimal (internal_fits cells) (internal_imbalance cells) 1 (len cells - 1) best'.
Proof.
  intros Hw Ha n. induction n as [|n IH]; intros i best Hi Hn Ho; cbn [internal_split_scan].
  { exists best. replace (len cells - 1) with i by lia. done. }
  pose proof (weight_split (Z.to_nat i) cells). pose proof (weight_split (Z.to_nat i + 1) cells).
  pose proof (weight_nonneg (take (Z.to_nat i) cells)). pose proof (weight_nonneg (drop (Z.to_nat i) cells)).
  pose proof (weight_nonneg (take (Z.to_nat i + 1) cells)).
  pose proof (weight_nonneg (drop (Z.to_nat i + 1) cells)).
  rewrite (used_internal_bytes_ok (take _ _)), bind_ok by (first [lia | by apply Forall_take]).
  rewrite (used_internal_bytes_ok (drop _ _)), bind_ok by (first [lia | by apply Forall_drop]).
  apply IH; [lia|lia|]. apply consider_optimal; [done|lia|done|]. unfold internal_imbalance. lia.
Qed.

Lemma overfull_internal_cut cells :
  Forall (admissible MAX_INTERNAL_FOOTPRINT) cells →
  PAGE_SIZE < PAGE_HEADER_LEN + INTERNAL_PREAMBLE_LEN + weight cells →
  PAGE_HEADER_LEN + INTERNAL_PREAMBLE_LEN + weight cells ≤ PAGE_SIZE + MAX_INTERNAL_FOOTPRINT →
  3 ≤ len cells ∧ ∃ i, 1 ≤ i < len cells - 1 ∧ internal_fits cells i.
Proof.
  unfold PAGE_SIZE, PAGE_HEADER_LEN, INTERNAL_PREAMBLE_LEN, MAX_INTERNAL_FOOTPRINT, SLOT_LEN.
  intros Ha Hlo Hhi.
  destruct (last_fitting cells 4056) as (i & c & Hi & H1 & H2); [lia..|].
  pose proof (weight_take_S _ _ _ Hi) as HS. pose proof (lookup_lt_Some _ _ _ Hi) as Hlt.
  rewrite Forall_lookup in Ha. unfold admissible in Ha. unfold SLOT_LEN in *.
  assert (∀ j d, cells !! j = Some d → weight (take (S j) cells) ≤ weight (take j cells) + 2020) as Hstep.
  { intros j d Hj. rewrite (weight_take_S _ _ _ Hj). specialize (Ha j d Hj). unfold SLOT_LEN. lia. }
  assert (2 ≤ i)%nat as H2i.
  { destruct i as [|[|i]]; [..|lia].
    - pose proof (Hstep _ _ Hi) as Hs. rewrite take_0, weight_nil in Hs. lia.
    - pose proof (Hstep _ _ Hi). destruct cells as [|d cells]; [done|].
      pose proof (Hstep 0%nat d eq_refl) as Hs. rewrite take_0, weight_nil in Hs. lia. }
  split; [unfold len; lia|]. unfold internal_fits, PAGE_HEADER_LEN, INTERNAL_PREAMBLE_LEN, PAGE_SIZE.
  destruct (decide (S i = length cells)) as [Hlast|Hlast].
  - destruct (lookup_lt_is_Some_2 cells (i - 1)) as [d Hd]; [lia|].
    pose proof (Hstep _ _ Hi). exists (Z.of_nat (i - 1)). rewrite Nat2Z.id.
    pose proof (weight_take_S _ _ _ Hd) as HT. replace (S (i - 1)) with i in HT by lia.
    replace (i - 1 + 1)%nat with i by lia. pose proof (weight_split i cells).
    rewrite (take_ge cells (S i)) in * by lia. unfold len, SLOT_LEN in *. lia.
  - exists (Z.of_nat i). rewrite Nat2Z.id. replace (i + 1)%nat with (S i) by lia.
    pose proof (weight_split (S i) cells). unfold len in *. lia.
Qed.

(** ** Searches *)

Section SearchLemmas.
Context {CK : Checksum} {KC : KeyCodec}.

Definition key_lt (a b : key) : Prop := key_cmp a b = Lt.
Definition key_le (a b : key) : Prop := key_cmp a b ≠ Gt.

Lemma key_cmp_refl a : key_cmp a a = Eq.
Proof. by apply key_cmp_eq. Qed.

Lemma key_gt_lt a b : key_cmp a b = Gt ↔ key_lt b a.
Proof. unfold key_lt. rewrite (key_cmp_antisym a b). destruct (key_cmp a b); done. Qed.

Lemma key_le_iff a b : key_le a b ↔ key_lt a b ∨ a = b.
Proof.
  unfold key_le, key_lt. rewrite <- key_cmp_eq. destruct (key_cmp a b); split; intros H; eauto; try done.
  by destruct H.
Qed.

Lemma key_lt_irrefl a : ¬ key_lt a a.
Proof. unfold key_lt. by rewrite key_cmp_refl. Qed.

Lemma key_lt_trans a b c : key_lt a b → key_lt b c → key_lt a c.
Proof. apply key_cmp_trans. Qed.

Lemma key_lt_not_le a b : key_lt a b → ¬ key_le b a.
Proof. intros H. unfold key_le. rewrite (key_cmp_antisym a b), H. cbn. tauto. Qed.

Lemma key_not_le_lt a b : ¬ key_le a b → key_lt b a.
Proof. unfold key_le, key_lt. rewrite (key_cmp_antisym a b). destruct (key_cmp a b); intros H; try done; by destruct H. Qed.

Lemma key_le_lt_trans a b c : key_le a b → key_lt b c → key_lt a c.
Proof. rewrite key_le_iff. intros [?| ->]; [by eapply key_lt_trans|done]. Qed.

Lemma key_lt_le_trans a b c : key_lt a b → key_le b c → key_lt a c.
Proof. rewrite key_le_iff. intros H [?| <-]; [by eapply key_lt_trans|done]. Qed.

#[export] Instance key_eq_dec : EqDecision key.
Proof.
  intros a b. destruct (key_cmp a b) eqn:E.
  - left. by apply key_cmp_eq.
  - right. intros ->. by rewrite key_cmp_refl in E.
  - right. intros ->. by rewrite key_cmp_refl in E.
Defined.

Definition sorted_keys (ks : list key) : Prop :=
  ∀ i j a b, (i < j)%nat → ks !! i = Some a → ks !! j = Some b → key_lt a b.

(** The cells of a leaf or internal page hold the keys [ks], in this order. *)
Definition leaf_keys (p : SlottedPage) (ks : list key) : Prop :=
  len ks = cell_count (sp_header p) ∧
  ∀ i k, ks !! i = Some k → ∃ raw c, cell p (Z.of_nat i) = Ok raw ∧
    leaf_cell_ref_decode raw (sp_page_id p) (sp_next_page_id p) = Ok c ∧ decode_key (leaf_key_bytes c) = Ok k.

Definition internal_keys (p : SlottedPage) (ks : list key) : Prop :=
  len ks = cell_count (sp_header p) ∧
  ∀ i k, ks !! i = Some k → ∃ raw c, cell p (Z.of_nat i) = Ok raw ∧
    internal_cell_ref_decode raw (sp_page_id p) (sp_next_page_id p) = Ok c ∧
    decode_key (internal_key_bytes c) = Ok k.

(** The position of [target] among sorted keys. *)
Definition found_correct (ks : list key) (target : key) (f : Found) : Prop :=
  match f with
  | FoundAt i => 0 ≤ i ∧ ks !! Z.to_nat i = Some target
  | InsertAt i =>
      0 ≤ i ≤ len ks ∧
      (∀ j k, ks !! j = Some k → Z.of_nat j < i → key_lt k target) ∧
      (∀ j k, ks !! j = Some k → i ≤ Z.of_nat j → key_lt target k)
  end.

Lemma middle_bounds left right : left < right → left ≤ left + (right - left) / 2 < right.
Proof.
  intros. pose proof (Z.div_pos (right - left) 2). pose proof (Z.div_lt (right - left) 2). lia.
Qed.

Lemma search_leaf_loop_ok p ks target :
  leaf_keys p ks → sorted_keys ks →
  ∀ fuel left right, 0 ≤ left ≤ right → right ≤ len ks → right - left ≤ Z.of_nat fuel →
  (∀ j k, ks !! j = Some k → Z.of_nat j < left → key_lt k target) →
  (∀ j k, ks !! j = Some k → right ≤ Z.of_nat j → key_lt target k) →
  ∃ f, search_leaf_loop fuel p target left right = Ok f ∧ found_correct ks target f.
Proof.
  intros [Hn Hk] Hs fuel. induction fuel as [|fuel IH]; intros left right Hlr Hr Hf Hlo Hhi; cbn [search_leaf_loop].
  { exists (InsertAt left). split; [done|]. split_and!; [lia..|done|]. intros j k Hj ?. apply (Hhi j k Hj). lia. }
  destruct (Z.ltb_spec left right) as [Hlt|Hge].
  2:{ exists (InsertAt left). split; [done|]. split_and!; [lia..|done|]. intros j k Hj ?. apply (Hhi j k Hj). lia. }
  pose proof (middle_bounds left right Hlt) as Hm. cbv zeta.
  remember (left + (right - left) / 2) as m eqn:Em. clear Em.
  destruct (lookup_lt_is_Some_2 ks (Z.to_nat m)) as [k Hkm]; [unfold len in Hr; lia|].
  destruct (Hk _ _ Hkm) as (raw & c & E1 & E2 & E3). rewrite Z2Nat.id in E1 by lia.
  rewrite E1, bind_ok, E2, bind_ok, E3, bind_ok. destruct (key_cmp k target) eqn:C.
  - apply key_cmp_eq in C as ->. exists (FoundAt m). split; [done|]. split; [lia|done].
  - apply IH; [lia..| |done]. intros j k' Hj Hjm. destruct (decide (j = Z.to_nat m)) as [->|Hne].
    { by simplify_eq. }
    apply (key_lt_trans _ k); [|done]. apply (Hs j (Z.to_nat m)); [lia|done|done].
  - apply key_gt_lt in C. apply IH; [lia..|done|]. intros j k' Hj Hjm.
    destruct (decide (j = Z.to_nat m)) as [->|Hne]; [by simplify_eq|].
    apply (key_lt_trans _ k); [done|]. apply (Hs (Z.to_nat m) j); [lia|done|done].
Qed.

Lemma child_position_loop_ok p ks k :
  internal_keys p ks → sorted_keys ks →
  ∀ fuel left right, 0 ≤ left ≤ right → right ≤ len ks → right - left ≤ Z.of_nat fuel →
  (∀ j s, ks !! j = Some s → Z.of_nat j < left → key_le s k) →
  (∀ j s, ks !! j = Some s → right ≤ Z.of_nat j → key_lt k s) →
  ∃ i, child_position_loop fuel p k left right = Ok i ∧ 0 ≤ i ≤ len ks ∧
    (∀ j s, ks !! j = Some s → Z.of_nat j < i → key_le s k) ∧
    (∀ j s, ks !! j = Some s → i ≤ Z.of_nat j → key_lt k s).
Proof.
  intros [Hn Hk] Hs fuel.
  induction fuel as [|fuel IH]; intros left right Hlr Hr Hf Hlo Hhi; cbn [child_position_loop].
  { exists left. split_and!; [done|lia..|done|]. intros j s Hj ?. apply (Hhi j s Hj). lia. }
  destruct (Z.ltb_spec left right) as [Hlt|Hge].
  2:{ exists left. split_and!; [done|lia..|done|]. intros j s Hj ?. apply (Hhi j s Hj). lia. }
  pose proof (middle_bounds left right Hlt) as Hm. cbv zeta.
  remember (left + (right - left) / 2) as m eqn:Em. clear Em.
  destruct (lookup_lt_is_Some_2 ks (Z.to_nat m)) as [s Hkm]; [unfold len in Hr; lia|].
  destruct (Hk _ _ Hkm) as (raw & c & E1 & E2 & E3). rewrite Z2Nat.id in E1 by lia.
  rewrite E1, bind_ok, E2, bind_ok, E3, bind_ok.
  assert (key_le s k → ∃ i, child_position_loop fuel p k (m + 1) right = Ok i ∧ 0 ≤ i ≤ len ks ∧
    (∀ j s, ks !! j = Some s → Z.of_nat j < i → key_le s k) ∧
    (∀ j s, ks !! j = Some s → i ≤ Z.of_nat j → key_lt k s)) as Hgo.
  { intros Hle. apply IH; [lia..| |done]. intros j s' Hj Hjm.
    destruct (decide (j = Z.to_nat m)) as [->|Hne]; [by simplify_eq|]. apply key_le_iff. left.
    apply (key_lt_le_trans _ s); [|done]. apply (Hs j (Z.to_nat m)); [lia|done|done]. }
  destruct (key_cmp s k) eqn:C; [apply Hgo; unfold key_le; by rewrite C..|].
  apply key_gt_lt in C. apply IH; [lia..|done|]. intros j s' Hj Hjm.
  destruct (decide (j = Z.to_nat m)) as [->|Hne]; [by simplify_eq|].
  apply (key_lt_trans _ s); [done|]. apply (Hs (Z.to_nat m) j); [lia|done|done].
Qed.
End SearchLemmas.

(** ** The chosen cuts *)

Lemma choose_leaf_split_ok cells :
  Forall (admissible MAX_CELL_FOOTPRINT) cells →
  PAGE_SIZE < PAGE_HEADER_LEN + weight cells →
  PAGE_HEADER_LEN + weight cells ≤ PAGE_SIZE + MAX_CELL_FOOTPRINT →
  ∃ b, choose_leaf_split cells = Ok b ∧ 1 ≤ b < len cells ∧ leaf_fits cells b ∧
    ∀ i, 1 ≤ i < len cells → leaf_fits cells i →
      leaf_imbalance cells b ≤ leaf_imbalance cells i ∧ (i < b → leaf_imbalance cells b < leaf_imbalance cells i).
Proof.
  intros Ha Hlo Hhi. destruct (overfull_leaf_cut cells Ha Hlo Hhi) as (i & Hi & Hfit).
  pose proof (weight_nonneg cells). unfold PAGE_SIZE, PAGE_HEADER_LEN, MAX_CELL_FOOTPRINT in Hlo, Hhi.
  unfold choose_leaf_split. replace (len cells <? 2) with false by lia.
  rewrite leaf_split_total_ok, bind_ok by (done || lia). rewrite Z.add_0_l.
  destruct (leaf_split_scan_ok cells ltac:(lia) (length cells - 1) 1 None) as (best & E & O); [lia|unfold len in *; lia| |].
  { cbn. lia. }
  change (weight (take (Z.to_nat (1 - 1)) cells)) with 0 in E. rewrite E, bind_ok.
  destruct best as [[b c]|]; cbn [optimal] in O; [|by destruct (O i Hi)].
  destruct O as (Hb & Hf & -> & Hmin). exists b. by split_and!; [done|lia..|done|].
Qed.

Lemma decode_internal_cells_ok cells cs page_id next :
  Forall2 (λ raw c, internal_cell_ref_decode raw page_id next = Ok c) cells cs →
  decode_internal_cells cells page_id next = Ok tt.
Proof. induction 1 as [|raw c cells cs D _ IH]; [done|]. cbn [decode_internal_cells]. by rewrite D, bind_ok. Qed.

Lemma choose_internal_split_ok cells cs page_id next :
  Forall2 (λ raw c, internal_cell_ref_decode raw page_id next = Ok c) cells cs →
  Forall (admissible MAX_INTERNAL_FOOTPRINT) cells →
  PAGE_SIZE < PAGE_HEADER_LEN + INTERNAL_PREAMBLE_LEN + weight cells →
  PAGE_HEADER_LEN + INTERNAL_PREAMBLE_LEN + weight cells ≤ PAGE_SIZE + MAX_INTERNAL_FOOTPRINT →
  ∃ i c, cs !! i = Some c ∧ (0 < i)%nat ∧ (S i < length cells)%nat ∧
    choose_internal_split cells page_id next =
      Ok {| promoted := c; right_leftmost_child := internal_right_child c;
            left_cells := take i cells; right_cells := drop (S i) cells |} ∧
    internal_fits cells (Z.of_nat i) ∧
    ∀ j, 1 ≤ j < len cells - 1 → internal_fits cells j →
      internal_imbalance cells (Z.of_nat i) ≤ internal_imbalance cells j ∧
      (j < Z.of_nat i → internal_imbalance cells (Z.of_nat i) < internal_imbalance cells j).
Proof.
  intros Hd Ha Hlo Hhi. destruct (overfull_internal_cut cells Ha Hlo Hhi) as (H3 & j & Hj & Hfit).
  pose proof (weight_nonneg cells).
  unfold PAGE_SIZE, PAGE_HEADER_LEN, INTERNAL_PREAMBLE_LEN, MAX_INTERNAL_FOOTPRINT, SLOT_LEN in Hlo, Hhi.
  unfold choose_internal_split. replace (len cells <? 3) with false by lia.
  rewrite (decode_internal_cells_ok _ _ _ _ Hd), bind_ok.
  destruct (internal_split_scan_ok cells ltac:(lia) Ha (length cells - 2) 1 None) as (best & E & O);
    [lia|unfold len in *; lia|cbn; lia|]. rewrite E, bind_ok.
  destruct best as [[b c]|]; cbn [optimal] in O; [|by destruct (O j Hj)].
  destruct O as (Hb & Hf & -> & Hmin). cbn [fmap option_fmap option_map fst ok_or]. rewrite bind_ok.
  destruct (lookup_lt_is_Some_2 cells (Z.to_nat b)) as [raw Hraw]; [unfold len in *; lia|].
  destruct (Forall2_lookup_l _ _ _ _ _ Hd Hraw) as (r & Hr & D).
  unfold get. replace (0 <=? b) with true by lia. rewrite Hraw. cbn [ok_or]. rewrite bind_ok, D, bind_ok.
  rewrite !get_range_some by lia. cbn [ok_or]. rewrite !bind_ok.
  exists (Z.to_nat b), r. rewrite Z2Nat.id by lia. split_and!; [done|lia|unfold len in *; lia| |done|done].
  rewrite slice_take, slice_drop by lia. by replace (Z.to_nat (b + 1)) with (S (Z.to_nat b)) by lia.
Qed.

(** ** The balance of a split *)

(** C15: a leaf that overflows by at most one admissible cell is always split:
    both halves are non-empty and fit a page, no other cut that fits is better
    balanced, and of equally balanced cuts the first is taken. *)
Theorem leaf_split_balanced cells :
  Forall (admissible MAX_CELL_FOOTPRINT) cells →
  PAGE_SIZE < PAGE_HEADER_LEN + weight cells →
  PAGE_HEADER_LEN + weight cells ≤ PAGE_SIZE + MAX_CELL_FOOTPRINT →
  ∃ b, choose_leaf_split cells = Ok b ∧ 1 ≤ b < len cells ∧ leaf_fits cells b ∧
    ∀ i, 1 ≤ i < len cells → leaf_fits cells i →
      leaf_imbalance cells b ≤ leaf_imbalance cells i ∧ (i < b → leaf_imbalance cells b < leaf_imbalance cells i).
Proof. intros Ha Hlo Hhi. by apply choose_leaf_split_ok. Qed.

Definition example_leaf_cells : list (list byte) := replicate 5 (zeros 1000).

Lemma leaf_split_balanced_witness :
  choose_leaf_split example_leaf_cells = Ok 2 ∧
  ∃ b, choose_leaf_split example_leaf_cells = Ok b ∧ 1 ≤ b < len example_leaf_cells ∧
    leaf_fits example_leaf_cells b ∧
    ∀ i, 1 ≤ i < len example_leaf_cells → leaf_fits example_leaf_cells i →
      leaf_imbalance example_leaf_cells b ≤ leaf_imbalance example_leaf_cells i ∧
      (i < b → leaf_imbalance example_leaf_cells b < leaf_imbalance example_leaf_cells i).
Proof.
  split; [by vm_compute|]. apply (leaf_split_balanced example_leaf_cells).
  - apply Forall_replicate. by vm_compute.
  - by vm_compute.
  - by vm_compute.
Defined.

(** C16: an internal page that overflows by at most one admissible separator is
    always split: the promoted separator is a cell of the page, the cells before
    and after it go left and right without loss, its child becomes the leftmost
    child of the right page, both pages fit and no promotion that fits is better
    balanced. *)
Theorem internal_split_balanced cells cs page_id next :
  Forall2 (λ raw c, internal_cell_ref_decode raw page_id next = Ok c) cells cs →
  Forall (admissible MAX_INTERNAL_FOOTPRINT) cells →
  PAGE_SIZE < PAGE_HEADER_LEN + INTERNAL_PREAMBLE_LEN + weight cells →
  PAGE_HEADER_LEN + INTERNAL_PREAMBLE_LEN + weight cells ≤ PAGE_SIZE + MAX_INTERNAL_FOOTPRINT →
  ∃ i c s, choose_internal_split cells page_id next = Ok s ∧ cs !! i = Some c ∧
    promoted s = c ∧ right_leftmost_child s = internal_right_child c ∧
    (∃ raw, cells !! i = Some raw ∧ cells = left_cells s ++ raw :: right_cells s) ∧
    left_cells s ≠ [] ∧ right_cells s ≠ [] ∧ length (left_cells s) = i ∧
    internal_fits cells (Z.of_nat i) ∧
    ∀ j, 1 ≤ j < len cells - 1 → internal_fits cells j →
      internal_imbalance cells (Z.of_nat i) ≤ internal_imbalance cells j ∧
      (j < Z.of_nat i → internal_imbalance cells (Z.of_nat i) < internal_imbalance cells j).
Proof.
  intros Hd Ha Hlo Hhi. destruct (choose_internal_split_ok cells cs page_id next Hd Ha Hlo Hhi)
    as (i & c & Hc & Hi & Hl & E & Hf & Hm).
  destruct (lookup_lt_is_Some_2 cells i) as [raw Hraw]; [lia|].
  eexists i, c, _. split_and!; [exact E|done..| | | | |done|done]; cbn [left_cells right_cells].
  - exists raw. split; [done|]. by rewrite take_drop_middle.
  - intros Hn%(f_equal length). rewrite length_take in Hn. cbn in Hn. lia.
  - intros Hn%(f_equal length). rewrite length_drop in Hn. cbn in Hn. lia.
  - rewrite length_take. lia.
Qed.

Definition example_separator : InternalCellRef :=
  {| internal_key_bytes := zeros 1000; internal_right_child := 3 |}.

Definition example_separator_cell : list byte :=
  match encode_internal_cell (internal_key_bytes example_separator) 3 1 8 with Ok c => c | Err _ => [] end.

Lemma internal_split_balanced_witness :
  let cells := replicate 5 example_separator_cell in
  let cs := replicate 5 example_separator in
  Forall2 (λ raw c, internal_cell_ref_decode raw 1 8 = Ok c) cells cs ∧
  ∃ i c s, choose_internal_split cells 1 8 = Ok s ∧ cs !! i = Some c ∧
    promoted s = c ∧ right_leftmost_child s = internal_right_child c ∧
    (∃ raw, cells !! i = Some raw ∧ cells = left_cells s ++ raw :: right_cells s) ∧
    left_cells s ≠ [] ∧ right_cells s ≠ [] ∧ length (left_cells s) = i ∧
    internal_fits cells (Z.of_nat i) ∧
    ∀ j, 1 ≤ j < len cells - 1 → internal_fits cells j →
      internal_imbalance cells (Z.of_nat i) ≤ internal_imbalance cells j ∧
      (j < Z.of_nat i → internal_imbalance cells (Z.of_nat i) < internal_imbalance cells j).
Proof.
  assert (Forall2 (λ raw c, internal_cell_ref_decode raw 1 8 = Ok c)
            (replicate 5 example_separator_cell) (replicate 5 example_separator)) as Hd.
  { apply Forall2_replicate. vm_compute. reflexivity. }
  cbv zeta. split; [exact Hd|].
  apply (internal_split_balanced (replicate 5 example_separator_cell) (replicate 5 example_separator) 1 8 Hd).
  - apply Forall_replicate. by vm_compute.
  - by vm_compute.
  - by vm_compute.
Defined.
