(* ===== verification/BtreeTransaction.v ===== *)
(** The write transaction of the version 3 B+Tree
    (backend/btree/src/v3/tree.rs): an overlay of dirty pages over the pages of
    the database file, page allocation from the free list or the end of the
    file, overflow chains, the descent to a leaf, the mutation of a leaf with
    its splits, and the staged upsert, deletion and query.

    A function that takes [&mut WriteTransaction] returns the transaction after
    the call.  On an error the transaction is not returned: every caller drops
    it together with its overlay ([self.active = None] in [upsert], [delete]
    and the batch operations). *)

From stdpp Require Import gmap sorting.
From S2P Require Import Prelude BtreeFormat BtreeCell BtreePage BtreeSplit.

Record WriteTransaction := {
  original_header : DatabaseHeader;
  next_header : DatabaseHeader;
  original_file_len : Z;
  dirty_pages : gmap Z (list byte);
  allocated_pages : gset Z;
  freed_pages : gset Z;
}.

Definition u64_max : Z := 2 ^ 64 - 1.

(** The page id bound of the transaction in progress. *)
Definition tx_next (t : WriteTransaction) : Z := next_page_id (next_header t).

Definition with_next_header (t : WriteTransaction) (h : DatabaseHeader) : WriteTransaction :=
  {| original_header := original_header t; next_header := h;
     original_file_len := original_file_len t; dirty_pages := dirty_pages t;
     allocated_pages := allocated_pages t; freed_pages := freed_pages t |}.

Definition with_dirty (t : WriteTransaction) (page_id : Z) (page : list byte) : WriteTransaction :=
  {| original_header := original_header t; next_header := next_header t;
     original_file_len := original_file_len t; dirty_pages := <[page_id := page]> (dirty_pages t);
     allocated_pages := allocated_pages t; freed_pages := freed_pages t |}.

Definition with_sets (t : WriteTransaction) (allocated freed : gset Z) : WriteTransaction :=
  {| original_header := original_header t; next_header := next_header t;
     original_file_len := original_file_len t; dirty_pages := dirty_pages t;
     allocated_pages := allocated; freed_pages := freed |}.

Definition header_with_root (h : DatabaseHeader) (root : Z) : DatabaseHeader :=
  {| root_page_id := root; next_page_id := next_page_id h; free_page_head := free_page_head h;
     generation := generation h; database_id := database_id h; metadata := metadata h |}.

Definition header_with_next (h : DatabaseHeader) (next : Z) : DatabaseHeader :=
  {| root_page_id := root_page_id h; next_page_id := next; free_page_head := free_page_head h;
     generation := generation h; database_id := database_id h; metadata := metadata h |}.

Definition header_with_free (h : DatabaseHeader) (free : Z) : DatabaseHeader :=
  {| root_page_id := root_page_id h; next_page_id := next_page_id h; free_page_head := free;
     generation := generation h; database_id := database_id h; metadata := metadata h |}.

Definition header_with_generation (h : DatabaseHeader) (gen : Z) : DatabaseHeader :=
  {| root_page_id := root_page_id h; next_page_id := next_page_id h; free_page_head := free_page_head h;
     generation := gen; database_id := database_id h; metadata := metadata h |}.

Definition transaction_new (header : DatabaseHeader) (original_file_len : Z) : io_result WriteTransaction :=
  length ← ok_or (try_fit 64 original_file_len) (invalid_data "database length exceeds u64");
  Ok {| original_header := header; next_header := header; original_file_len := length;
        dirty_pages := ∅; allocated_pages := ∅; freed_pages := ∅ |}.

Definition page_byte_range (page_id database_len : Z) : io_result (Z * Z) :=
  id ← ok_or (try_fit 64 page_id) (invalid_data "page id exceeds usize");
  start ← ok_or (checked_mul id PAGE_SIZE) (invalid_data "page offset overflow");
  end_ ← ok_or (checked_add start PAGE_SIZE) (invalid_data "page end overflow");
  if database_len <? end_ then Err (invalid_data "page is outside database") else Ok (start, end_).

Definition tx_page (t : WriteTransaction) (base : list byte) (page_id : Z) : io_result (list byte) :=
  if (page_id =? 0) || (tx_next t <=? page_id)
  then Err (invalid_data "transaction page id is outside database") else
  match dirty_pages t !! page_id with
  | Some page => Ok page
  | None =>
      if next_page_id (original_header t) <=? page_id
      then Err (invalid_data "transaction appended page is missing") else
      range ← page_byte_range page_id (len base);
      ok_or (get_range base range.1 range.2) (invalid_data "transaction base page is truncated")
  end.

(** A copy of the page; both the overlay and the ranges hold whole pages. *)
Definition page_copy (t : WriteTransaction) (base : list byte) (page_id : Z) : io_result (list byte) :=
  tx_page t base page_id.

(** The bytes of the page and the transaction whose overlay holds them; a
    caller that changes the bytes puts them back with [with_dirty]. *)
Definition page_mut (t : WriteTransaction) (base : list byte) (page_id : Z)
    : io_result (list byte * WriteTransaction) :=
  if (page_id =? 0) || (tx_next t <=? page_id)
  then Err (invalid_data "transaction page id is outside database") else
  match dirty_pages t !! page_id with
  | Some page => Ok (page, t)
  | None =>
      if next_page_id (original_header t) <=? page_id
      then Err (invalid_data "appended transaction page is missing") else
      range ← page_byte_range page_id (len base);
      source ← ok_or (get_range base range.1 range.2) (invalid_data "transaction base page is truncated");
      Ok (source, with_dirty t page_id source)
  end.

Definition write_page (t : WriteTransaction) (page_id : Z) (page : list byte) : io_result WriteTransaction :=
  if (page_id =? 0) || (tx_next t <=? page_id)
  then Err (invalid_input "written page id is outside transaction bounds") else
  Ok (with_dirty t page_id page).

Section Transactions.
Context {CK : Checksum}.

Definition tx_open (t : WriteTransaction) (base : list byte) (page_id : Z) : io_result SlottedPage :=
  bytes ← tx_page t base page_id;
  page_open bytes page_id (tx_next t).

Definition allocate_page (t : WriteTransaction) (base : list byte) : io_result (Z * WriteTransaction) :=
  if negb (free_page_head (next_header t) =? 0) then
    let page_id := free_page_head (next_header t) in
    page ← tx_open t base page_id;
    if negb (bool_decide (page_type (sp_header page) = Free))
    then Err (invalid_data "free list references a non-free page") else
    let t := with_next_header t (header_with_free (next_header t) (right (sp_header page))) in
    if bool_decide (page_id ∈ allocated_pages t)
    then Err (invalid_data "free page was allocated twice") else
    Ok (page_id, with_sets t ({[page_id]} ∪ allocated_pages t) (freed_pages t ∖ {[page_id]}))
  else
    let page_id := tx_next t in
    next ← ok_or (checked_add page_id 1) (invalid_input "next page id overflow");
    let t := with_next_header t (header_with_next (next_header t) next) in
    if bool_decide (page_id ∈ allocated_pages t)
    then Err (invalid_data "appended page was allocated twice") else
    Ok (page_id, with_sets t ({[page_id]} ∪ allocated_pages t) (freed_pages t)).

Definition free_page (t : WriteTransaction) (page_id : Z) : io_result WriteTransaction :=
  if (page_id =? 0) || (page_id =? root_page_id (next_header t)) || (tx_next t <=? page_id)
  then Err (invalid_input "page cannot be added to the free list") else
  if bool_decide (page_id ∈ freed_pages t)
  then Err (invalid_data "page was freed twice in one transaction") else
  let t := with_sets t (allocated_pages t ∖ {[page_id]}) ({[page_id]} ∪ freed_pages t) in
  page ← encode_free_page page_id (tx_next t) (free_page_head (next_header t));
  write_page (with_next_header t (header_with_free (next_header t) page_id)) page_id page.

Definition has_changes (t : WriteTransaction) : bool :=
  negb (bool_decide (dirty_pages t = ∅))
  || negb (bool_decide (metadata (next_header t) = metadata (original_header t))).

(** The keys of the overlay in the order of the [BTreeMap]. *)
Definition dirty_ids (t : WriteTransaction) : list Z :=
  merge_sort Z.le (elements (dom (dirty_pages t))).

Fixpoint prepare_pages (t : WriteTransaction) (ids : list Z) : io_result (list (Z * list byte)) :=
  match ids with
  | [] => Ok []
  | page_id :: ids =>
      let page := default [] (dirty_pages t !! page_id) in
      _ ← (if page_id =? 0 then _ ← database_header_decode page; Ok tt
           else _ ← page_open page page_id (tx_next t); Ok tt);
      rest ← prepare_pages t ids;
      Ok ((page_id, page) :: rest)
  end.

Definition prepared_pages (t : WriteTransaction) : io_result (list (Z * list byte) * WriteTransaction) :=
  if negb (has_changes t) then Ok ([], t) else
  gen ← ok_or (checked_add (generation (original_header t)) 1) (invalid_input "database generation overflow");
  let t := with_next_header t (header_with_generation (next_header t) gen) in
  header ← database_header_encode (next_header t);
  let t := with_dirty t 0 header in
  prepared ← prepare_pages t (dirty_ids t);
  Ok (prepared, t).

(** ** Building pages *)

Definition leaf_page (page_id left right : Z) (cells : list (list byte)) : io_result (list byte) :=
  start ← ok_or (try_fit 16 PAGE_HEADER_LEN) (invalid_input "leaf header exceeds u16");
  end_ ← ok_or (try_fit 16 PAGE_SIZE) (invalid_input "page size exceeds u16");
  bytes ← page_header_encode_into
    {| page_type := Leaf; cell_count := 0; free_start := start; free_end := end_;
       left := left; right := right |} (zeros PAGE_SIZE) page_id u64_max;
  page ← page_open bytes page_id u64_max;
  page ← rebuild_ordered page cells;
  Ok (sp_bytes page).

Definition internal_page (page_id leftmost : Z) (cells : list (list byte)) : io_result (list byte) :=
  first ← ok_or (head cells) (invalid_input "internal page must contain a separator");
  first_offset ← ok_or (checked_sub PAGE_SIZE (len first)) (invalid_input "internal cell exceeds page");
  bytes ← internal_preamble_encode_into {| leftmost_child := leftmost |} (zeros PAGE_SIZE) page_id u64_max;
  _ ← ok_or (get_range bytes 40 44) (invalid_input "internal slot is outside page");
  offset ← ok_or (try_fit 16 first_offset) (invalid_input "internal cell offset exceeds u16");
  length ← ok_or (try_fit 16 (len first)) (invalid_input "internal cell length exceeds u16");
  let bytes := put bytes 40 (slot_encode {| slot_offset := offset; slot_length := length |}) in
  _ ← ok_or (get_range bytes first_offset (len bytes)) (invalid_input "internal cell is outside page");
  let bytes := put bytes first_offset first in
  free_end ← ok_or (try_fit 16 first_offset) (invalid_input "internal free_end exceeds u16");
  bytes ← page_header_encode_into
    {| page_type := Internal; cell_count := 1; free_start := 44; free_end := free_end;
       left := 0; right := 0 |} bytes page_id u64_max;
  page ← page_open bytes page_id u64_max;
  page ← rebuild_ordered page cells;
  Ok (sp_bytes page).

(** ** Overflow chains *)

(** The walk along a chain.  Every visited page id is a new one below
    [tx_next], so [tx_next] steps are enough fuel. *)
Fixpoint overflow_chain_walk (fuel : nat) (t : WriteTransaction) (base : list byte) (page_id : Z)
    (visited : gset Z) : io_result (list Z) :=
  match fuel with
  | O => Err (invalid_data "overflow chain contains a cycle")
  | S fuel =>
      if page_id =? 0 then Ok [] else
      if bool_decide (page_id ∈ visited) then Err (invalid_data "overflow chain contains a cycle") else
      page ← tx_open t base page_id;
      if negb (bool_decide (page_type (sp_header page) = Overflow))
      then Err (invalid_data "invalid overflow chain page") else
      payload ← overflow_payload page;
      if len payload =? 0 then Err (invalid_data "invalid overflow chain page") else
      rest ← overflow_chain_walk fuel t base (right (sp_header page)) ({[page_id]} ∪ visited);
      Ok (page_id :: rest)
  end.

Definition walk_fuel (t : WriteTransaction) : nat := S (Z.to_nat (tx_next t)).

Definition overflow_chain_pages (t : WriteTransaction) (base : list byte) (page_id : Z)
    : io_result (list Z) :=
  pages ← overflow_chain_walk (walk_fuel t) t base page_id ∅;
  if bool_decide (pages = []) then Err (invalid_data "overflow chain is empty") else Ok pages.

(** The loop of [validated_overflow_chain_pages]: the bytes hashed so far. *)
Fixpoint chain_payloads (t : WriteTransaction) (base : list byte) (pages : list Z) (expected : Z)
    (hashed : list byte) : io_result (list byte) :=
  match pages with
  | [] => Ok hashed
  | page_id :: pages =>
      page ← tx_open t base page_id;
      payload ← overflow_payload page;
      actual ← ok_or (checked_add (len hashed) (len payload)) (invalid_data "overflow chain length overflow");
      if expected <? actual then Err (invalid_data "overflow chain exceeds declared length") else
      chain_payloads t base pages expected (hashed ++ payload)
  end.

Definition validated_overflow_chain_pages (t : WriteTransaction) (base : list byte)
    (head stored_len crc : Z) : io_result (list Z) :=
  pages ← overflow_chain_pages t base head;
  expected ← ok_or (try_fit 64 stored_len) (invalid_data "stored length exceeds usize");
  hashed ← chain_payloads t base pages expected [];
  if negb (len hashed =? expected) || negb (crc32 hashed =? crc)
  then Err (invalid_data "overflow value checksum or length mismatch") else Ok pages.

Fixpoint free_pages_loop (t : WriteTransaction) (pages : list Z) : io_result WriteTransaction :=
  match pages with
  | [] => Ok t
  | page_id :: pages => t ← free_page t page_id; free_pages_loop t pages
  end.

Definition free_pages (t : WriteTransaction) (pages : list Z) : io_result WriteTransaction :=
  free_pages_loop t (reverse pages).

(** [<[u8]>::chunks]; a chunk is nonempty, so the length is enough fuel. *)
Fixpoint chunks_loop (fuel : nat) (size : nat) (b : list byte) : list (list byte) :=
  match fuel, b with
  | S fuel, _ :: _ => take size b :: chunks_loop fuel size (drop size b)
  | _, _ => []
  end.

Definition chunks (size : Z) (b : list byte) : list (list byte) :=
  chunks_loop (length b) (Z.to_nat size) b.

Definition div_ceil (a b : Z) : Z := (a + b - 1) / b.

Fixpoint allocate_pages (n : nat) (t : WriteTransaction) (base : list byte)
    : io_result (list Z * WriteTransaction) :=
  match n with
  | O => Ok ([], t)
  | S n =>
      a ← allocate_page t base;
      rest ← allocate_pages n a.2 base;
      Ok (a.1 :: rest.1, rest.2)
  end.

Fixpoint write_chunks (t : WriteTransaction) (pages : list Z) (index : Z) (payloads : list (list byte))
    : io_result WriteTransaction :=
  match payloads with
  | [] => Ok t
  | payload :: payloads =>
      page_id ← ok_or (get pages index) (invalid_data "overflow page allocation is missing");
      let next := default 0 (get pages (index + 1)) in
      bytes ← encode_overflow_page page_id (tx_next t) next payload;
      t ← write_page t page_id bytes;
      write_chunks t pages (index + 1) payloads
  end.

Definition write_overflow_chain (t : WriteTransaction) (base stored : list byte) (old_pages : list Z)
    : io_result (Z * WriteTransaction) :=
  let required := div_ceil (len stored) OVERFLOW_PAYLOAD_LEN in
  if required =? 0 then Err (invalid_input "overflow value must not be empty") else
  reserved ← (if required <=? len old_pages then
                pages ← ok_or (get_range old_pages 0 required) (invalid_data "overflow reuse range is invalid");
                tail ← ok_or (get_range old_pages required (len old_pages))
                             (invalid_data "overflow tail range is invalid");
                t ← free_pages t tail;
                Ok (pages, t)
              else
                a ← allocate_pages (Z.to_nat required) t base;
                t ← free_pages a.2 old_pages;
                Ok (a.1, t));
  t ← write_chunks reserved.2 reserved.1 0 (chunks OVERFLOW_PAYLOAD_LEN stored);
  head ← ok_or (head reserved.1) (invalid_data "overflow head is missing");
  Ok (head, t).

(** ** Mutating a leaf *)

Record Promotion := { promotion_key : list byte; promotion_right_child : Z }.

Definition repair_right_leaf_backlink (t : WriteTransaction) (base : list byte)
    (right_page_id left_page_id : Z) : io_result WriteTransaction :=
  if right_page_id =? 0 then Ok t else
  m ← page_mut t base right_page_id;
  page ← page_open m.1 right_page_id (tx_next t);
  let header := sp_header page in
  if negb (bool_decide (page_type header = Leaf))
  then Err (invalid_data "leaf sibling references a non-leaf page") else
  bytes ← page_header_encode_into
    {| page_type := page_type header; cell_count := cell_count header; free_start := free_start header;
       free_end := free_end header; left := left_page_id; right := right header |}
    m.1 right_page_id (tx_next t);
  Ok (with_dirty m.2 right_page_id bytes).

(** The loop that collects the cells of the page with the new cell at
    [index]; [n] cells remain, from [current]. *)
Fixpoint collect_cells (n : nat) (page : SlottedPage) (current index : Z) (replace : bool)
    (new : list byte) : io_result (list (list byte)) :=
  match n with
  | O => Ok []
  | S n =>
      if (current =? index) && replace then
        rest ← collect_cells n page (current + 1) index replace new;
        Ok (new :: rest)
      else
        c ← cell page current;
        rest ← collect_cells n page (current + 1) index replace new;
        Ok (if current =? index then new :: c :: rest else c :: rest)
  end.

Definition cells_with (page : SlottedPage) (index : Z) (replace : bool) (new : list byte)
    : io_result (list (list byte)) :=
  let count := cell_count (sp_header page) in
  cells ← collect_cells (Z.to_nat count) page 0 index replace new;
  Ok (if index =? count then cells ++ [new] else cells).

(** The end of [mutate_leaf]: the cells no longer fit in one page. *)
Definition split_leaf (t : WriteTransaction) (base : list byte) (leaf_id : Z) (page : SlottedPage)
    (cells : list (list byte)) : io_result (option Promotion * WriteTransaction) :=
  a ← allocate_page t base;
  let new_leaf_id := a.1 in
  let t := a.2 in
  boundary ← choose_leaf_split cells;
  let left_cells := take (Z.to_nat boundary) cells in
  let right_cells := drop (Z.to_nat boundary) cells in
  let right := right (sp_header page) in
  left_page ← leaf_page leaf_id (left (sp_header page)) new_leaf_id left_cells;
  right_page ← leaf_page new_leaf_id leaf_id right right_cells;
  first ← ok_or (head right_cells) (invalid_data "split right leaf is empty");
  separator ← leaf_cell_ref_decode first new_leaf_id (tx_next t);
  t ← write_page t leaf_id left_page;
  t ← write_page t new_leaf_id right_page;
  t ← repair_right_leaf_backlink t base right new_leaf_id;
  Ok (Some {| promotion_key := leaf_key_bytes separator; promotion_right_child := new_leaf_id |}, t).

Definition mutate_leaf (t : WriteTransaction) (base : list byte) (leaf_id index : Z) (replace : bool)
    (new : list byte) : io_result (option Promotion * WriteTransaction) :=
  snapshot ← page_copy t base leaf_id;
  page ← page_open snapshot leaf_id (tx_next t);
  if negb (bool_decide (page_type (sp_header page) = Leaf))
  then Err (invalid_data "mutation target is not a leaf page") else
  let count := cell_count (sp_header page) in
  if (replace && (count <=? index)) || (negb replace && (count <? index))
  then Err (invalid_input "leaf mutation index is outside page") else
  same_len ← (if replace then c ← cell page index; Ok (len c =? len new) else Ok false);
  if (same_len : bool) then
    m ← page_mut t base leaf_id;
    dirty ← page_open m.1 leaf_id (tx_next t);
    dirty ← replace_same_len dirty index new;
    Ok (None, with_dirty m.2 leaf_id (sp_bytes dirty))
  else
  cells ← cells_with page index replace new;
  used ← used_leaf_bytes cells;
  if used <=? PAGE_SIZE then
    m ← page_mut t base leaf_id;
    dirty ← page_open m.1 leaf_id (tx_next t);
    dirty ← rebuild_ordered dirty cells;
    Ok (None, with_dirty m.2 leaf_id (sp_bytes dirty))
  else
  split_leaf t base leaf_id page cells.

(** ** Promotions *)

(** The end of [insert_internal_promotion]: the cells no longer fit. *)
Definition split_internal (t : WriteTransaction) (base : list byte) (page_id : Z) (snapshot : list byte)
    (cells : list (list byte)) : io_result (option Promotion * WriteTransaction) :=
  a ← allocate_page t base;
  let right_page_id := a.1 in
  let t := a.2 in
  split ← choose_internal_split cells page_id (tx_next t);
  preamble ← internal_preamble_decode snapshot page_id (tx_next t);
  left_page ← internal_page page_id (leftmost_child preamble) (left_cells split);
  right_page ← internal_page right_page_id (right_leftmost_child split) (right_cells split);
  t ← write_page t page_id left_page;
  t ← write_page t right_page_id right_page;
  Ok (Some {| promotion_key := internal_key_bytes (promoted split);
              promotion_right_child := right_page_id |}, t).

Definition insert_internal_promotion (t : WriteTransaction) (base : list byte) (page_id position : Z)
    (promotion : Promotion) : io_result (option Promotion * WriteTransaction) :=
  snapshot ← page_copy t base page_id;
  page ← page_open snapshot page_id (tx_next t);
  if negb (bool_decide (page_type (sp_header page) = Internal))
  then Err (invalid_data "promotion target is not an internal page") else
  if cell_count (sp_header page) <? position
  then Err (invalid_input "internal insertion position is outside page") else
  new ← encode_internal_cell (promotion_key promotion) (promotion_right_child promotion) page_id (tx_next t);
  cells ← cells_with page position false new;
  used ← used_internal_bytes cells;
  if used <=? PAGE_SIZE then
    m ← page_mut t base page_id;
    dirty ← page_open m.1 page_id (tx_next t);
    dirty ← rebuild_ordered dirty cells;
    Ok (None, with_dirty m.2 page_id (sp_bytes dirty))
  else
  split_internal t base page_id snapshot cells.

(** The loop of [propagate_promotion], which pops the path from its end. *)
Fixpoint propagate_loop (t : WriteTransaction) (base : list byte) (popped : list (Z * Z))
    (promotion : Promotion) : io_result (option Promotion * WriteTransaction) :=
  match popped with
  | [] => Ok (Some promotion, t)
  | (parent, position) :: popped =>
      r ← insert_internal_promotion t base parent position promotion;
      match r.1 with
      | None => Ok (None, r.2)
      | Some next => propagate_loop r.2 base popped next
      end
  end.

Definition grow_root (t : WriteTransaction) (base : list byte) (promotion : Promotion)
    : io_result WriteTransaction :=
  let old_root := root_page_id (next_header t) in
  a ← allocate_page t base;
  let new_root := a.1 in
  let t := a.2 in
  new ← encode_internal_cell (promotion_key promotion) (promotion_right_child promotion) new_root (tx_next t);
  page ← internal_page new_root old_root [new];
  t ← write_page t new_root page;
  Ok (with_next_header t (header_with_root (next_header t) new_root)).

Definition propagate_promotion (t : WriteTransaction) (base : list byte) (path : list (Z * Z))
    (promotion : Promotion) : io_result WriteTransaction :=
  r ← propagate_loop t base (reverse path) promotion;
  match r.1 with
  | None => Ok r.2
  | Some promotion => grow_root r.2 base promotion
  end.

(** ** Staged operations *)

Context {KC : KeyCodec} {LZ : Lz4}.

(** The descent; every visited page id is new, as in [overflow_chain_walk]. *)
Fixpoint locate_loop (fuel : nat) (t : WriteTransaction) (base : list byte) (k : key) (page_id : Z)
    (path : list (Z * Z)) (visited : gset Z) : io_result (Z * list (Z * Z)) :=
  match fuel with
  | O => Err (invalid_data "tree descent contains a cycle")
  | S fuel =>
      if bool_decide (page_id ∈ visited) then Err (invalid_data "tree descent contains a cycle") else
      page ← tx_open t base page_id;
      match page_type (sp_header page) with
      | Leaf => Ok (page_id, path)
      | Internal =>
          pc ← internal_child_position page k;
          locate_loop fuel t base k pc.2 (path ++ [(page_id, pc.1)]) ({[page_id]} ∪ visited)
      | Overflow | Free => Err (invalid_data "tree references a non-tree page")
      end
  end.

Definition locate_transaction_leaf (t : WriteTransaction) (base : list byte) (k : key)
    : io_result (Z * list (Z * Z)) :=
  locate_loop (walk_fuel t) t base k (root_page_id (next_header t)) [] ∅.

Definition stage_upsert (t : WriteTransaction) (base : list byte) (k : key) (encoded_key : list byte)
    (logical_len : Z) (comp : Compression) (stored : list byte) : io_result WriteTransaction :=
  located ← locate_transaction_leaf t base k;
  let leaf_id := located.1 in
  let path := located.2 in
  page ← tx_open t base leaf_id;
  search ← search_leaf page k;
  target ← match search with
           | FoundAt index =>
               raw ← cell page index;
               old ← leaf_cell_ref_decode raw leaf_id (tx_next t);
               overflow ← match leaf_value old with
                          | OverflowRef _ _ stored_len head crc =>
                              validated_overflow_chain_pages t base head stored_len crc
                          | Inline _ _ _ _ | Tombstone => Ok []
                          end;
               Ok (true, index, overflow)
           | InsertAt index => Ok (false, index, [])
           end;
  let replace := target.1.1 in
  let index := target.1.2 in
  let old_overflow := target.2 in
  inline_footprint ← ok_or (size ← checked_add SLOT_LEN 24;
                            size ← checked_add size (len encoded_key);
                            checked_add size (len stored))
                           (invalid_input "leaf cell footprint overflow");
  staged ← (if (len stored <=? MAX_INLINE_STORED_VALUE) && (inline_footprint <=? MAX_CELL_FOOTPRINT) then
              t ← free_pages t old_overflow;
              new ← encode_inline_leaf_cell encoded_key logical_len comp stored;
              Ok (new, t)
            else
              w ← write_overflow_chain t base stored old_overflow;
              stored_len ← ok_or (try_fit 32 (len stored)) (invalid_input "stored value exceeds u32");
              new ← encode_overflow_leaf_cell encoded_key logical_len comp stored_len w.1
                      (stored_value_checksum stored) leaf_id (tx_next w.2);
              Ok (new, w.2));
  r ← mutate_leaf staged.2 base leaf_id index replace staged.1;
  match r.1 with
  | Some promotion => propagate_promotion r.2 base path promotion
  | None => Ok r.2
  end.

Definition stage_delete (t : WriteTransaction) (base : list byte) (k : key) (encoded_key : list byte)
    : io_result (bool * WriteTransaction) :=
  located ← locate_transaction_leaf t base k;
  let leaf_id := located.1 in
  page ← tx_open t base leaf_id;
  search ← search_leaf page k;
  match search with
  | InsertAt _ => Ok (false, t)
  | FoundAt index =>
      raw ← cell page index;
      old ← leaf_cell_ref_decode raw leaf_id (tx_next t);
      let finish t :=
        new ← encode_tombstone_leaf_cell encoded_key;
        r ← mutate_leaf t base leaf_id index true new;
        Ok (true, r.2) in
      match leaf_value old with
      | Tombstone => Ok (false, t)
      | OverflowRef _ _ stored_len head crc =>
          pages ← validated_overflow_chain_pages t base head stored_len crc;
          t ← free_pages t pages;
          finish t
      | Inline _ _ _ _ => finish t
      end
  end.

Definition transaction_value_limit (t : WriteTransaction) : io_result Z :=
  next ← ok_or (try_fit 64 (tx_next t)) (invalid_data "next page id exceeds usize");
  ok_or (size ← checked_mul next PAGE_SIZE;
         size ← checked_mul size 256;
         Some (Z.min size (2 ^ 32 - 1)))
        (invalid_data "value allocation limit overflow").

(** The loop that assembles the stored bytes of a chain. *)
Fixpoint assemble_chain (t : WriteTransaction) (base : list byte) (pages : list Z) (stored_len : Z)
    (scratch : list byte) : io_result (list byte) :=
  match pages with
  | [] => Ok scratch
  | page_id :: pages =>
      page ← tx_open t base page_id;
      payload ← overflow_payload page;
      if stored_len <? saturating_add (len scratch) (len payload)
      then Err (invalid_data "overflow chain exceeds declared length") else
      assemble_chain t base pages stored_len (scratch ++ payload)
  end.

Definition read_transaction_overflow (t : WriteTransaction) (base : list byte) (comp : Compression)
    (logical_len stored_len head crc : Z) : io_result (list byte) :=
  stored_len ← ok_or (try_fit 64 stored_len) (invalid_data "stored length exceeds usize");
  limit ← transaction_value_limit t;
  if limit <? stored_len then Err (invalid_data "overflow value exceeds allocation limit") else
  pages ← overflow_chain_pages t base head;
  scratch ← assemble_chain t base pages stored_len [];
  if negb (len scratch =? stored_len) || negb (crc32 scratch =? crc)
  then Err (invalid_data "overflow value checksum or length mismatch") else
  if bool_decide (comp = CompressionLz4) then
    limit ← transaction_value_limit t;
    decompress_value_in_place scratch logical_len limit
  else
    logical ← ok_or (try_fit 64 logical_len) (invalid_data "logical length exceeds usize");
    if negb (len scratch =? logical) then Err (invalid_data "uncompressed overflow length mismatch")
    else Ok scratch.

(** [binary_deserialize] turns the bytes of the value into a [V]. *)
Definition query_transaction {V : Type} (binary_deserialize : list byte → io_result V)
    (t : WriteTransaction) (base : list byte) (k : key) : io_result (option V) :=
  located ← locate_transaction_leaf t base k;
  let leaf_id := located.1 in
  page ← tx_open t base leaf_id;
  search ← search_leaf page k;
  match search with
  | InsertAt _ => Ok None
  | FoundAt index =>
      raw ← cell page index;
      c ← leaf_cell_ref_decode raw leaf_id (tx_next t);
      match leaf_value c with
      | Tombstone => Ok None
      | Inline NoCompression _ stored _ => v ← binary_deserialize stored; Ok (Some v)
      | Inline CompressionLz4 logical_len stored _ =>
          limit ← transaction_value_limit t;
          bytes ← decompress_value_into stored logical_len limit;
          v ← binary_deserialize bytes; Ok (Some v)
      | OverflowRef comp logical_len stored_len head crc =>
          bytes ← read_transaction_overflow t base comp logical_len stored_len head crc;
          v ← binary_deserialize bytes; Ok (Some v)
      end
  end.
End Transactions.
