(* ===== verification/BtreeUpdate.v ===== *)
(** Transactions from begin to commit (backend/btree/src/v3/tree.rs): opening a
    database image, staging serialized values, batches and deletions in the
    active transaction, and the checks a commit makes before it hands its pages
    to the write-ahead log. *)

From stdpp Require Import gmap.
From S2P Require Import Prelude BtreeFormat BtreeCell BtreePage BtreeSplit BtreeTransaction.

(** ** Beginning a transaction *)

Section Updates.
Context {CK : Checksum}.

(** [DatabaseImage::open] on the bytes of the file. *)
Definition image_open (base : list byte) : io_result DatabaseHeader :=
  page ← ok_or (get_range base 0 PAGE_SIZE) (invalid_data "database header is truncated");
  header ← database_header_decode page;
  next ← ok_or (try_fit 64 (next_page_id header)) (invalid_data "next page id exceeds usize");
  expected ← ok_or (checked_mul next PAGE_SIZE) (invalid_data "database length overflow");
  if negb (len base =? expected) then Err (invalid_data "database file length does not match header")
  else Ok header.

(** The end of [ensure_transaction]. *)
Definition begin_transaction (base : list byte) : io_result WriteTransaction :=
  header ← image_open base;
  transaction_new header (len base).

(** ** Checks before a commit *)

Context {KC : KeyCodec}.

(** Every visited page id is new, so [tx_next] steps are enough fuel. *)
Fixpoint minimum_key_loop (fuel : nat) (t : WriteTransaction) (base : list byte) (page_id : Z)
    (visited : gset Z) : io_result (option (list byte)) :=
  match fuel with
  | O => Err (invalid_data "minimum-key descent contains a cycle")
  | S fuel =>
      if bool_decide (page_id ∈ visited) then Err (invalid_data "minimum-key descent contains a cycle") else
      page ← tx_open t base page_id;
      match page_type (sp_header page) with
      | Leaf =>
          match head (cells page) with
          | None => Ok None
          | Some c =>
              raw ← c;
              r ← leaf_cell_ref_decode raw page_id (tx_next t);
              Ok (Some (leaf_key_bytes r))
          end
      | Internal =>
          preamble ← internal_preamble_decode (sp_bytes page) page_id (tx_next t);
          minimum_key_loop fuel t base (leftmost_child preamble) ({[page_id]} ∪ visited)
      | Overflow | Free => Err (invalid_data "tree references a non-tree page")
      end
  end.

Definition minimum_tree_key (t : WriteTransaction) (base : list byte) (page_id : Z)
    : io_result (option (list byte)) :=
  minimum_key_loop (walk_fuel t) t base page_id ∅.

Definition validate_leaf_backlink (t : WriteTransaction) (base : list byte) (page_id sibling_id : Z)
    (sibling_points_left : bool) : io_result unit :=
  if sibling_id =? 0 then Ok tt else
  sibling ← tx_open t base sibling_id;
  let backlink := if sibling_points_left then left (sp_header sibling) else right (sp_header sibling) in
  if negb (bool_decide (page_type (sp_header sibling) = Leaf)) || negb (backlink =? page_id)
  then Err (invalid_data "asymmetric leaf sibling link") else Ok tt.

(** The pages of the free list. *)
Fixpoint free_list_loop (fuel : nat) (t : WriteTransaction) (base : list byte) (page_id : Z)
    (free : gset Z) : io_result (gset Z) :=
  match fuel with
  | O => Err (invalid_data "free list contains a cycle")
  | S fuel =>
      if page_id =? 0 then Ok free else
      if bool_decide (page_id ∈ free) then Err (invalid_data "free list contains a cycle") else
      if bool_decide (page_id ∈ allocated_pages t)
      then Err (invalid_data "allocated page remains linked from free list") else
      page ← tx_open t base page_id;
      if negb (bool_decide (page_type (sp_header page) = Free))
      then Err (invalid_data "free list references a non-free page") else
      free_list_loop fuel t base (right (sp_header page)) ({[page_id]} ∪ free)
  end.

Fixpoint check_allocated (t : WriteTransaction) (base : list byte) (ids : list Z) : io_result unit :=
  match ids with
  | [] => Ok tt
  | page_id :: ids =>
      page ← tx_open t base page_id;
      if bool_decide (page_type (sp_header page) = Free)
      then Err (invalid_data "allocated page still has free-page type") else
      check_allocated t base ids
  end.

Definition validate_transaction_free_list (t : WriteTransaction) (base : list byte) : io_result unit :=
  free ← free_list_loop (walk_fuel t) t base (free_page_head (next_header t)) ∅;
  if negb (bool_decide (freed_pages t ⊆ free)) then Err (invalid_data "freed page is missing from free list") else
  check_allocated t base (elements (allocated_pages t)).

(** [previous >= key] for the key before, if there is one. *)
Definition not_increasing (previous : option key) (k : key) : bool :=
  match previous with
  | None => false
  | Some p => match key_cmp p k with Lt => false | _ => true end
  end.

Fixpoint claim_pages (owned : gset Z) (pages : list Z) : io_result (gset Z) :=
  match pages with
  | [] => Ok owned
  | page_id :: pages =>
      if bool_decide (page_id ∈ owned) then Err (invalid_data "overflow page is owned by multiple values") else
      claim_pages ({[page_id]} ∪ owned) pages
  end.

Fixpoint check_leaf_cells (t : WriteTransaction) (base : list byte) (page_id : Z)
    (cs : list (io_result (list byte))) (previous : option key) (owned : gset Z) : io_result (gset Z) :=
  match cs with
  | [] => Ok owned
  | c :: cs =>
      raw ← c;
      r ← leaf_cell_ref_decode raw page_id (tx_next t);
      k ← decode_key (leaf_key_bytes r);
      if not_increasing previous k then Err (invalid_data "leaf keys are not strictly increasing") else
      owned ← match leaf_value r with
              | OverflowRef _ _ stored_len head crc =>
                  pages ← validated_overflow_chain_pages t base head stored_len crc;
                  claim_pages owned pages
              | Inline _ _ _ _ | Tombstone => Ok owned
              end;
      check_leaf_cells t base page_id cs (Some k) owned
  end.

Fixpoint check_internal_cells (t : WriteTransaction) (base : list byte) (page_id : Z)
    (cs : list (io_result (list byte))) (previous : option key) : io_result unit :=
  match cs with
  | [] => Ok tt
  | c :: cs =>
      raw ← c;
      r ← internal_cell_ref_decode raw page_id (tx_next t);
      k ← decode_key (internal_key_bytes r);
      if not_increasing previous k
      then Err (invalid_data "internal separator keys are not strictly increasing") else
      m ← minimum_tree_key t base (internal_right_child r);
      minimum ← ok_or m (invalid_data "internal separator references an empty subtree");
      if negb (bool_decide (minimum = internal_key_bytes r))
      then Err (invalid_data "internal separator differs from right subtree minimum") else
      check_internal_cells t base page_id cs (Some k)
  end.

Definition check_dirty_page (t : WriteTransaction) (base : list byte) (page_id : Z) (owned : gset Z)
    : io_result (gset Z) :=
  let bytes := default [] (dirty_pages t !! page_id) in
  page ← page_open bytes page_id (tx_next t);
  match page_type (sp_header page) with
  | Leaf =>
      _ ← validate_leaf_backlink t base page_id (left (sp_header page)) false;
      _ ← validate_leaf_backlink t base page_id (right (sp_header page)) true;
      check_leaf_cells t base page_id (cells page) None owned
  | Internal =>
      preamble ← internal_preamble_decode bytes page_id (tx_next t);
      child ← tx_open t base (leftmost_child preamble);
      if negb (bool_decide (page_type (sp_header child) = Leaf) || bool_decide (page_type (sp_header child) = Internal))
      then Err (invalid_data "internal page references a non-tree child") else
      _ ← check_internal_cells t base page_id (cells page) None;
      Ok owned
  | Overflow =>
      if negb (right (sp_header page) =? 0) then
        next ← tx_open t base (right (sp_header page));
        if negb (bool_decide (page_type (sp_header next) = Overflow))
        then Err (invalid_data "overflow page references a non-overflow page") else Ok owned
      else Ok owned
  | Free => Ok owned
  end.

Fixpoint check_dirty_pages (t : WriteTransaction) (base : list byte) (ids : list Z) (owned : gset Z)
    : io_result (gset Z) :=
  match ids with
  | [] => Ok owned
  | page_id :: ids =>
      if page_id =? 0 then check_dirty_pages t base ids owned else
      owned ← check_dirty_page t base page_id owned;
      check_dirty_pages t base ids owned
  end.

Definition validate_transaction_links (t : WriteTransaction) (base : list byte) : io_result unit :=
  original_length ← ok_or (checked_mul (next_page_id (original_header t)) PAGE_SIZE)
                          (invalid_data "original database length overflow");
  if negb (original_length =? original_file_len t)
  then Err (invalid_data "transaction original length does not match header") else
  _ ← check_dirty_pages t base (dirty_ids t) ∅;
  validate_transaction_free_list t base.

(** ** Staging *)

Context {LZ : Lz4}.

(** What [upsert_serialized_inner] does in the active transaction. *)
Definition stage_serialized (t : WriteTransaction) (base : list byte) (k : key) (raw_value : list byte)
    : io_result WriteTransaction :=
  stored ← encode_value raw_value;
  logical_len ← ok_or (try_fit 32 (len raw_value)) (invalid_input "serialized value exceeds u32");
  stage_upsert t base k (key_to_vec k) logical_len (stored_compression stored) (as_slice stored).

(** The loop of [upsert_batch_encoded]: the root after the last item. *)
Fixpoint stage_items (t : WriteTransaction) (base : list byte) (items : list (key * list byte)) (root : Z)
    : io_result (Z * WriteTransaction) :=
  match items with
  | [] => Ok (root, t)
  | (k, value) :: items =>
      t ← stage_serialized t base k value;
      stage_items t base items (root_page_id (next_header t))
  end.

(** The loop of [delete_batch]: how many keys were deleted.  A deletion that
    finds nothing leaves the transaction as it is, so dropping and reopening
    an unchanged transaction does not show. *)
Fixpoint stage_deletes (t : WriteTransaction) (base : list byte) (keys : list key) (deleted : Z)
    : io_result (Z * WriteTransaction) :=
  match keys with
  | [] => Ok (deleted, t)
  | k :: keys =>
      r ← stage_delete t base k (key_to_vec k);
      deleted ← (if (r.1 : bool) then ok_or (checked_add deleted 1) (invalid_input "delete count overflow")
                 else Ok deleted);
      stage_deletes r.2 base keys deleted
  end.

(** Rust's [sort_by] and [sort] are stable. *)
Fixpoint insert_by_key {A} (x : key * A) (l : list (key * A)) : list (key * A) :=
  match l with
  | [] => [x]
  | y :: l => match key_cmp x.1 y.1 with Gt => y :: insert_by_key x l | _ => x :: y :: l end
  end.

Definition sort_by_key {A} (l : list (key * A)) : list (key * A) := foldr insert_by_key [] l.

(** [binary_serialize] of the values. *)
Fixpoint serialize_items {V : Type} (binary_serialize : V → io_result (list byte)) (items : list (key * V))
    : io_result (list (key * list byte)) :=
  match items with
  | [] => Ok []
  | (k, v) :: items =>
      bytes ← binary_serialize v;
      rest ← serialize_items binary_serialize items;
      Ok ((k, bytes) :: rest)
  end.

Definition prepare_upsert_batch {V : Type} (binary_serialize : V → io_result (list byte)) (items : list (key * V))
    : io_result (list (key * list byte)) :=
  prepared ← serialize_items binary_serialize items;
  Ok (sort_by_key prepared).

(** [upsert_batch_encoded] and [upsert_batch] call each other; [None] is a call
    that has not returned within [fuel] nested calls.  [empty] are the items
    [upsert_batch] prepares from an empty slice. *)
Fixpoint upsert_batch_encoded {V : Type} (binary_serialize : V → io_result (list byte)) (fuel : nat)
    (t : WriteTransaction) (base : list byte) (items : list (key * list byte))
    : option (io_result (Z * WriteTransaction)) :=
  match fuel with
  | O => None
  | S fuel =>
      match items with
      | [] =>
          match prepare_upsert_batch binary_serialize [] with
          | Ok prepared => upsert_batch_encoded binary_serialize fuel t base prepared
          | Err e => Some (Err e)
          end
      | _ :: _ => Some (stage_items t base items 0)
      end
  end.

(** C39: [upsert_batch_encoded] never returns on an empty batch, whatever the
    transaction and however many nested calls are granted: it hands the batch to
    [upsert_batch], which prepares the empty batch again and calls it back. *)
Theorem empty_batch_diverges {V : Type} (binary_serialize : V → io_result (list byte)) fuel t base :
  upsert_batch_encoded binary_serialize fuel t base [] = None.
Proof. induction fuel as [|fuel IH]; [done|]. exact IH. Qed.
End Updates.
