(* ===== verification/BtreeQuery.v ===== *)
(** Reading a committed B+Tree file (backend/btree/src/v3/tree.rs): the query
    handle with its caches of validated pages and of decoded internal pages,
    point queries, the query for the largest key below a bound, the number of
    entries, locators, cursors and pages of a range.

    A query reads an immutable file, through a memory map or with positioned
    reads; both give the bytes of the file.  The methods take [&mut self]: a
    method is a function that returns the handle after the call, also when it
    fails, since the caches keep what they learned. *)

From stdpp Require Import gmap.
From S2P Require Import Prelude BtreeFormat BtreeCell BtreePage BtreeSplit.

(** ** Computations with a state that survives errors *)

Definition stateful (S E A : Type) : Type := S → result E A * S.

#[export] Instance stateful_ret S E : MRet (stateful S E) := λ A a s, (Ok a, s).
#[export] Instance stateful_bind S E : MBind (stateful S E) := λ A B f m s,
  match m s with
  | (Ok a, s) => f a s
  | (Err e, s) => (Err e, s)
  end.

Definition of_result {S E A} (r : result E A) : stateful S E A := λ s, (r, s).
Definition get_state {S E} : stateful S E S := λ s, (Ok s, s).
Definition modify {S E} (f : S → S) : stateful S E unit := λ s, (Ok tt, f s).

(** [record_page_visit]: a set of visited pages grows or the walk is cyclic. *)
Definition record_page_visit (visited : gset Z) (page_id : Z) (cycle_error : string) : io_result (gset Z) :=
  if bool_decide (page_id ∈ visited) then Err (invalid_data cycle_error) else Ok ({[page_id]} ∪ visited).

Section Query.
Context {CK : Checksum} {KC : KeyCodec}.

(** ** Internal pages *)

Record InternalRoute := { route_leftmost_child : Z; route_separators : list (key * Z) }.

(** [slice::partition_point] of a slice on whose first part alone the predicate
    holds. *)
Fixpoint partition_point {A} (pred : A → bool) (l : list A) : nat :=
  match l with
  | [] => O
  | x :: l => if pred x then S (partition_point pred l) else O
  end.

Definition key_leb (a b : key) : bool := match key_cmp a b with Gt => false | _ => true end.

Definition child_for (route : InternalRoute) (target : key) : Z :=
  match partition_point (λ s, key_leb s.1 target) (route_separators route) with
  | O => route_leftmost_child route
  | S previous => default 0 (snd <$> route_separators route !! previous)
  end.

(** The loop of [decode_internal_route]; [n] cells remain, from [index]. *)
Fixpoint decode_separators (n : nat) (page : SlottedPage) (index : Z) : io_result (list (key * Z)) :=
  match n with
  | O => Ok []
  | S n =>
      raw ← cell page index;
      c ← internal_cell_ref_decode raw (sp_page_id page) (sp_next_page_id page);
      k ← decode_key (internal_key_bytes c);
      rest ← decode_separators n page (index + 1);
      Ok ((k, internal_right_child c) :: rest)
  end.

Definition decode_internal_route (page : SlottedPage) : io_result InternalRoute :=
  preamble ← internal_preamble_decode (sp_bytes page) (sp_page_id page) (sp_next_page_id page);
  separators ← decode_separators (Z.to_nat (cell_count (sp_header page))) page 0;
  Ok {| route_leftmost_child := leftmost_child preamble; route_separators := separators |}.

(** ** The query handle *)

(** The vectors of [OnceLock]s are maps whose keys are below the number of
    pages; [q_file] are the bytes of the file. *)
Record BPlusTreeQuery := {
  q_file : list byte;
  q_header : DatabaseHeader;
  q_file_len : Z;
  q_page_validations : gmap Z PageValidation;
  q_internal_routes : gmap Z InternalRoute;
  q_locator_page_id : Z;
  q_locator_cell_ranges : list (Z * Z);
}.

Definition reader (A : Type) : Type := stateful BPlusTreeQuery io_error A.

Definition q_next (q : BPlusTreeQuery) : Z := next_page_id (q_header q).

Definition from_file_unlocked (file : list byte) : io_result BPlusTreeQuery :=
  file_len ← ok_or (try_fit 64 (len file)) (invalid_data "database length exceeds usize");
  if file_len <? PAGE_SIZE then Err (invalid_data "database is shorter than its header page") else
  header_page ← ok_or (get_range file 0 PAGE_SIZE) (IoError UnexpectedEof "failed to fill whole buffer");
  header ← database_header_decode header_page;
  next ← ok_or (try_fit 64 (next_page_id header)) (invalid_data "next page id exceeds usize");
  expected ← ok_or (checked_mul next PAGE_SIZE) (invalid_data "database length overflow");
  if negb (file_len =? expected) then Err (invalid_data "database file length does not match header") else
  Ok {| q_file := file; q_header := header; q_file_len := file_len; q_page_validations := ∅;
        q_internal_routes := ∅; q_locator_page_id := 0; q_locator_cell_ranges := [] |}.

Definition value_allocation_limit (q : BPlusTreeQuery) : Z :=
  Z.min (saturating_mul (q_file_len q) 256) (2 ^ 32 - 1).

(** The bytes [with_page] hands to its closure. *)
Definition query_page (q : BPlusTreeQuery) (page_id : Z) : io_result (list byte) :=
  if (page_id =? 0) || (q_next q <=? page_id) then Err (invalid_data "page id is outside database") else
  id ← ok_or (try_fit 64 page_id) (invalid_data "page id exceeds usize");
  offset ← ok_or (checked_mul id PAGE_SIZE) (invalid_data "page offset overflow");
  end_ ← ok_or (checked_add offset PAGE_SIZE) (invalid_data "page end overflow");
  ok_or (get_range (q_file q) offset end_) (invalid_data "page is truncated").

Definition with_page {R} (page_id : Z) (read : list byte → io_result R) : reader R :=
  λ q, (bytes ← query_page q page_id; read bytes, q).

(** [with_page] whose closure opens the page first. *)
Definition with_opened_page {R} (page_id : Z) (read : SlottedPage → io_result R) : reader R :=
  λ q, with_page page_id (λ bytes, page ← page_open bytes page_id (q_next q); read page) q.

Definition with_validation (q : BPlusTreeQuery) (page_id : Z) (v : PageValidation) : BPlusTreeQuery :=
  {| q_file := q_file q; q_header := q_header q; q_file_len := q_file_len q;
     q_page_validations := <[page_id := v]> (q_page_validations q); q_internal_routes := q_internal_routes q;
     q_locator_page_id := q_locator_page_id q; q_locator_cell_ranges := q_locator_cell_ranges q |}.

Definition with_route (q : BPlusTreeQuery) (page_id : Z) (r : InternalRoute) : BPlusTreeQuery :=
  {| q_file := q_file q; q_header := q_header q; q_file_len := q_file_len q;
     q_page_validations := q_page_validations q; q_internal_routes := <[page_id := r]> (q_internal_routes q);
     q_locator_page_id := q_locator_page_id q; q_locator_cell_ranges := q_locator_cell_ranges q |}.

Definition with_slotted_page {R} (page_id : Z) (read : SlottedPage → io_result R) : reader R := λ q,
  if q_next q <=? page_id then (Err (invalid_data "page id is outside cache"), q) else
  let cached := q_page_validations q !! page_id in
  match (bytes ← query_page q page_id;
         page ← match cached with
                | Some v => from_immutable_snapshot bytes v
                | None => page_open bytes page_id (q_next q)
                end;
         result ← read page;
         Ok (result, match cached with None => Some (validation page) | Some _ => None end)) with
  | Err e => (Err e, q)
  | Ok (result, Some v) => (Ok result, with_validation q page_id v)
  | Ok (result, None) => (Ok result, q)
  end.

Definition cached_internal_child (page_id : Z) (k : key) : reader (option Z) := λ q,
  if q_next q <=? page_id then (Err (invalid_data "page id is outside route cache"), q) else
  (Ok ((λ route, child_for route k) <$> q_internal_routes q !! page_id), q).

(** [OnceLock::set] keeps a value that is already there. *)
Definition cache_internal_route (page_id : Z) (route : InternalRoute) : reader unit := λ q,
  if q_next q <=? page_id then (Err (invalid_data "page id is outside route cache"), q) else
  match q_internal_routes q !! page_id with
  | Some _ => (Ok tt, q)
  | None => (Ok tt, with_route q page_id route)
  end.

(** ** Descents *)

(** The loop of [locate_leaf] and [locate_cell], which differ in what they read
    from the leaf; [fuel] is [next_page_id - depth]. *)
Fixpoint descend {R} (on_leaf : SlottedPage → io_result R) (fuel : nat) (k : key) (page_id : Z)
    : reader (Z * R) :=
  match fuel with
  | O => of_result (Err (invalid_data "tree descent contains a cycle"))
  | S fuel =>
      cached ← cached_internal_child page_id k;
      match cached with
      | Some child => descend on_leaf fuel k child
      | None =>
          step ← with_slotted_page page_id (λ page,
            match page_type (sp_header page) with
            | Internal => route ← decode_internal_route page; Ok (inl route)
            | Leaf => r ← on_leaf page; Ok (inr r)
            | Overflow | Free => Err (invalid_data "tree references a non-tree page")
            end);
          match step with
          | inl route =>
              let child := child_for route k in
              _ ← cache_internal_route page_id route;
              descend on_leaf fuel k child
          | inr r => mret (page_id, r)
          end
      end
  end.

Definition descend_root {R} (on_leaf : SlottedPage → io_result R) (k : key) : reader (Z * R) := λ q,
  descend on_leaf (Z.to_nat (q_next q)) k (root_page_id (q_header q)) q.

Definition locate_leaf (k : key) : reader Z :=
  r ← descend_root (λ _, Ok tt) k;
  mret r.1.

Definition locate_cell (k : key) : reader (option (Z * (Z * Z))) :=
  r ← descend_root (λ page,
        search ← search_leaf page k;
        match search with
        | FoundAt index => range ← cell_range page index; Ok (Some range)
        | InsertAt _ => Ok None
        end) k;
  mret ((λ range, (r.1, range)) <$> r.2).

Fixpoint leftmost_loop (fuel : nat) (page_id : Z) : reader Z :=
  match fuel with
  | O => of_result (Err (invalid_data "tree descent contains a cycle"))
  | S fuel =>
      child ← with_slotted_page page_id (λ page,
        match page_type (sp_header page) with
        | Leaf => Ok None
        | Internal =>
            preamble ← internal_preamble_decode (sp_bytes page) page_id (sp_next_page_id page);
            Ok (Some (leftmost_child preamble))
        | Overflow | Free => Err (invalid_data "tree references a non-tree page")
        end);
      match child with
      | None => mret page_id
      | Some child => leftmost_loop fuel child
      end
  end.

Definition leftmost_leaf : reader Z := λ q, leftmost_loop (Z.to_nat (q_next q)) (root_page_id (q_header q)) q.

(** ** Values *)

Context {LZ : Lz4}.

(** The loop of [assemble_overflow_chain] over the pages of a chain: [stored]
    is [self.value_scratch], [owned] the set of the caller if there is one.
    Every page of the walk is new, so the number of pages is enough fuel. *)
Fixpoint assemble_loop (fuel : nat) (stored_len page_id : Z) (chain : gset Z) (owned : option (gset Z))
    (stored : list byte) : reader (list byte * option (gset Z)) :=
  match fuel with
  | O => of_result (Err (invalid_data "overflow chain contains a cycle"))
  | S fuel =>
      if page_id =? 0 then mret (stored, owned) else
      chain ← of_result (record_page_visit chain page_id "overflow chain contains a cycle");
      owned ← of_result (match owned with
                         | None => Ok None
                         | Some pages =>
                             pages ← record_page_visit pages page_id "overflow page is owned by multiple values";
                             Ok (Some pages)
                         end);
      step ← with_slotted_page page_id (λ page,
        if negb (bool_decide (page_type (sp_header page) = Overflow))
        then Err (invalid_data "overflow chain references a non-overflow page") else
        payload ← overflow_payload page;
        if len payload =? 0 then Err (invalid_data "overflow chain contains an empty payload") else
        next_len ← ok_or (checked_add (len stored) (len payload)) (invalid_data "overflow value length overflow");
        if stored_len <? next_len then Err (invalid_data "overflow chain exceeds declared length") else
        Ok (stored ++ payload, right (sp_header page)));
      assemble_loop fuel stored_len step.2 chain owned step.1
  end.

(** The number of pages of the file, with one step for the end of a walk. *)
Definition page_fuel (q : BPlusTreeQuery) : nat := S (Z.to_nat (q_next q)).

(** The bytes of the value and the pages owned so far. *)
Definition assemble_overflow_chain (comp : Compression) (logical_len stored_len page_id crc : Z)
    (owned : option (gset Z)) : reader (list byte * option (gset Z)) :=
  q ← get_state;
  stored_len ← of_result (ok_or (try_fit 64 stored_len) (invalid_data "stored length exceeds usize"));
  logical ← of_result (ok_or (try_fit 64 logical_len) (invalid_data "logical length exceeds usize"));
  if (q_file_len q <? stored_len) || (value_allocation_limit q <? logical)
  then of_result (Err (invalid_data "overflow value exceeds allocation limit")) else
  r ← assemble_loop (page_fuel q) stored_len page_id ∅ owned [];
  let stored := r.1 in
  if negb (len stored =? stored_len) || negb (crc32 stored =? crc)
  then of_result (Err (invalid_data "overflow value checksum or length mismatch")) else
  if bool_decide (comp = CompressionLz4) then
    value ← of_result (decompress_value_in_place stored logical_len (value_allocation_limit q));
    mret (value, r.2)
  else if negb (len stored =? logical)
  then of_result (Err (invalid_data "uncompressed overflow length mismatch")) else
  mret (stored, r.2).

(** [binary_deserialize::<K>]. *)
Definition deserialize_key (bytes : list byte) : io_result key :=
  map_err (IoError OtherKind) (key_from_slice bytes).

Context {V : Type} (binary_deserialize : list byte → io_result V).

Inductive DecodedEntry :=
| EntryReady (k : key) (v : V)
| EntryOverflow (k : key) (comp : Compression) (logical_len stored_len head crc : Z)
| EntryTombstone.

(** The closure of [decode_entry_range]. *)
Definition decode_cell (allocation_limit leaf_page_id next_page_id : Z) (range : Z * Z) (bytes : list byte)
    : io_result DecodedEntry :=
  cell_bytes ← ok_or (get_range bytes range.1 range.2) (invalid_data "leaf cell is outside page");
  c ← leaf_cell_ref_decode cell_bytes leaf_page_id next_page_id;
  k ← deserialize_key (leaf_key_bytes c);
  match leaf_value c with
  | Inline NoCompression _ stored _ => v ← binary_deserialize stored; Ok (EntryReady k v)
  | Inline CompressionLz4 logical_len stored _ =>
      decompressed ← decompress_value_into stored logical_len allocation_limit;
      v ← binary_deserialize decompressed; Ok (EntryReady k v)
  | OverflowRef comp logical_len stored_len head crc =>
      Ok (EntryOverflow k comp logical_len stored_len head crc)
  | Tombstone => Ok EntryTombstone
  end.

Definition decode_entry_range (leaf_page_id : Z) (range : Z * Z) : reader (option (key * V)) :=
  q ← get_state;
  decoded ← with_page leaf_page_id (decode_cell (value_allocation_limit q) leaf_page_id (q_next q) range);
  match decoded with
  | EntryReady k v => mret (Some (k, v))
  | EntryTombstone => mret None
  | EntryOverflow k comp logical_len stored_len page_id crc =>
      r ← assemble_overflow_chain comp logical_len stored_len page_id crc None;
      v ← of_result (binary_deserialize r.1);
      mret (Some (k, v))
  end.

Definition decode_entry (leaf_page_id slot_index : Z) : reader (option (key * V)) :=
  range ← with_slotted_page leaf_page_id (λ page,
    if negb (bool_decide (page_type (sp_header page) = Leaf))
    then Err (invalid_data "iterator expected a leaf page") else cell_range page slot_index);
  decode_entry_range leaf_page_id range.

(** ** Point queries *)

Definition query_io (k : key) : reader (option V) :=
  located ← locate_cell k;
  match located with
  | None => mret None
  | Some (leaf_id, range) =>
      entry ← decode_entry_range leaf_id range;
      mret (snd <$> entry)
  end.

Definition is_tombstone (v : LeafValueRef) : bool := match v with Tombstone => true | _ => false end.

Definition contains_live_key (k : key) : reader bool :=
  leaf_id ← locate_leaf k;
  q ← get_state;
  search ← with_slotted_page leaf_id (λ page, search_leaf page k);
  match search with
  | InsertAt _ => mret false
  | FoundAt index =>
      with_slotted_page leaf_id (λ page,
        raw ← cell page index;
        c ← leaf_cell_ref_decode raw leaf_id (q_next q);
        Ok (negb (is_tombstone (leaf_value c))))
  end.

(** The loop over the slots [n - 1, ..., 0] of a leaf. *)
Fixpoint last_entry (leaf_id : Z) (n : nat) : reader (option V) :=
  match n with
  | O => mret None
  | S n =>
      entry ← decode_entry leaf_id (Z.of_nat n);
      match entry with
      | Some (_, v) => mret (Some v)
      | None => last_entry leaf_id n
      end
  end.

(** How many slots of the leaf are considered: [start + 1], at most [count]. *)
Definition le_slots (first : bool) (k : key) (page : SlottedPage) : io_result nat :=
  let count := cell_count (sp_header page) in
  start ← (if first then
             search ← search_leaf page k;
             match search with
             | FoundAt index => Ok (Some index)
             | InsertAt index => Ok (checked_sub index 1)
             end
           else Ok (checked_sub count 1));
  Ok (match start with
      | None => O
      | Some start => S (Z.to_nat (Z.min start (saturating_sub count 1)))
      end).

Fixpoint query_le_loop (fuel : nat) (k : key) (leaf_id : Z) (first : bool) (visited : gset Z)
    : reader (option V) :=
  match fuel with
  | O => of_result (Err (invalid_data "left sibling chain contains a cycle"))
  | S fuel =>
      step ← with_slotted_page leaf_id (λ page,
        if negb (bool_decide (page_type (sp_header page) = Leaf))
        then Err (invalid_data "left sibling is not a leaf") else
        n ← le_slots first k page;
        Ok (left (sp_header page), n));
      value ← last_entry leaf_id step.2;
      match value with
      | Some v => mret (Some v)
      | None =>
          let left := step.1 in
          if left =? 0 then mret None else
          visited ← of_result (record_page_visit visited left "left sibling chain contains a cycle");
          _ ← with_slotted_page left (λ page,
            if negb (bool_decide (page_type (sp_header page) = Leaf)) || negb (right (sp_header page) =? leaf_id)
            then Err (invalid_data "asymmetric leaf sibling link") else Ok tt);
          query_le_loop fuel k left false visited
      end
  end.

Definition query_le_io (k : key) : reader (option V) :=
  leaf_id ← locate_leaf k;
  q ← get_state;
  visited ← of_result (record_page_visit ∅ leaf_id "left sibling chain contains a cycle");
  query_le_loop (page_fuel q) k leaf_id true visited.

(** ** Scans *)

(** The entries of a page that are not tombstones; [n] cells remain. *)
Fixpoint count_live (n : nat) (page : SlottedPage) (page_id next_page_id index live : Z) : io_result Z :=
  match n with
  | O => Ok live
  | S n =>
      raw ← cell page index;
      c ← leaf_cell_ref_decode raw page_id next_page_id;
      live ← (if is_tombstone (leaf_value c) then Ok live
              else ok_or (checked_add live 1) (invalid_data "entry count overflow"));
      count_live n page page_id next_page_id (index + 1) live
  end.

Fixpoint len_loop (fuel : nat) (page_id : Z) (visited : gset Z) (total : Z) : reader Z :=
  match fuel with
  | O => of_result (Err (invalid_data "right sibling chain contains a cycle"))
  | S fuel =>
      q ← get_state;
      step ← with_opened_page page_id (λ page,
        if negb (bool_decide (page_type (sp_header page) = Leaf))
        then Err (invalid_data "length scan expected a leaf page") else
        live ← count_live (Z.to_nat (cell_count (sp_header page))) page page_id (q_next q) 0 0;
        Ok (right (sp_header page), live));
      total ← of_result (ok_or (checked_add total step.2) (invalid_data "entry count overflow"));
      let right := step.1 in
      if right =? 0 then mret total else
      visited ← of_result (record_page_visit visited right "right sibling chain contains a cycle");
      _ ← with_opened_page right (λ page,
        if negb (bool_decide (page_type (sp_header page) = Leaf)) || negb (left (sp_header page) =? page_id)
        then Err (invalid_data "asymmetric leaf sibling link") else Ok tt);
      len_loop fuel right visited total
  end.

Definition query_len : reader Z :=
  page_id ← leftmost_leaf;
  q ← get_state;
  visited ← of_result (record_page_visit ∅ page_id "right sibling chain contains a cycle");
  len_loop (page_fuel q) page_id visited 0.

(** ** Locators *)

(** The ranges of all cells; [n] remain, from [index]. *)
Fixpoint cell_ranges (n : nat) (page : SlottedPage) (index : Z) : io_result (list (Z * Z)) :=
  match n with
  | O => Ok []
  | S n =>
      range ← cell_range page index;
      rest ← cell_ranges n page (index + 1);
      Ok (range :: rest)
  end.

Definition with_locator_page (q : BPlusTreeQuery) (page_id : Z) (ranges : list (Z * Z)) : BPlusTreeQuery :=
  {| q_file := q_file q; q_header := q_header q; q_file_len := q_file_len q;
     q_page_validations := q_page_validations q; q_internal_routes := q_internal_routes q;
     q_locator_page_id := page_id; q_locator_cell_ranges := ranges |}.

(** [std::mem::take] empties the ranges; they stay empty when the page cannot
    be read, while the page id of the last success is kept. *)
Definition locator_cell_range (locator : Locator) : reader (Z * Z) :=
  q ← get_state;
  _ ← (if q_locator_page_id q =? leaf_page_id locator then mret tt else
       let page_id := leaf_page_id locator in
       _ ← modify (λ q, with_locator_page q (q_locator_page_id q) []);
       ranges ← with_slotted_page page_id (λ page,
         if negb (bool_decide (page_type (sp_header page) = Leaf))
         then Err (invalid_data "locator does not reference a leaf page") else
         cell_ranges (Z.to_nat (cell_count (sp_header page))) page 0);
       modify (λ q, with_locator_page q page_id ranges));
  q ← get_state;
  of_result (ok_or (get (q_locator_cell_ranges q) (slot_index locator))
                   (invalid_data "locator slot index is outside leaf page")).

Inductive DecodedValue :=
| ValueReady (v : V)
| ValueOverflow (comp : Compression) (logical_len stored_len head crc : Z)
| ValueTombstone.

(** The closure of [read_locator_value]. *)
Definition decode_located (allocation_limit next_page_id : Z) (locator : Locator) (primary_key : list byte)
    (range : Z * Z) (bytes : list byte) : io_result DecodedValue :=
  cell_bytes ← ok_or (get_range bytes range.1 range.2) (invalid_data "locator cell is outside page");
  c ← leaf_cell_ref_decode cell_bytes (leaf_page_id locator) next_page_id;
  if negb (crc32 (leaf_key_bytes c) =? serialized_key_crc32 locator)
     || negb (crc32 primary_key =? serialized_key_crc32 locator)
     || negb (bool_decide (leaf_key_bytes c = primary_key))
  then Err (invalid_data "locator serialized key mismatch") else
  match leaf_value c with
  | Inline NoCompression _ stored _ => v ← binary_deserialize stored; Ok (ValueReady v)
  | Inline CompressionLz4 logical_len stored _ =>
      decompressed ← decompress_value_into stored logical_len allocation_limit;
      v ← binary_deserialize decompressed; Ok (ValueReady v)
  | OverflowRef comp logical_len stored_len head crc => Ok (ValueOverflow comp logical_len stored_len head crc)
  | Tombstone => Ok ValueTombstone
  end.

Definition read_locator_value (locator : Locator) (primary_key : list byte) : reader V :=
  q ← get_state;
  range ← locator_cell_range locator;
  decoded ← with_page (leaf_page_id locator)
              (decode_located (value_allocation_limit q) (q_next q) locator primary_key range);
  match decoded with
  | ValueReady v => mret v
  | ValueOverflow comp logical_len stored_len head crc =>
      r ← assemble_overflow_chain comp logical_len stored_len head crc None;
      of_result (binary_deserialize r.1)
  | ValueTombstone => of_result (Err (invalid_data "locator references a tombstone"))
  end.

(** The locators of the live cells of a leaf with their ranges. *)
Fixpoint live_locators (n : nat) (page : SlottedPage) (page_id next_page_id index : Z)
    : io_result (list (Locator * (Z * Z))) :=
  match n with
  | O => Ok []
  | S n =>
      raw ← cell page index;
      c ← leaf_cell_ref_decode raw page_id next_page_id;
      here ← (if is_tombstone (leaf_value c) then Ok [] else
              slot ← ok_or (try_fit 16 index) (invalid_data "slot index exceeds u16");
              locator ← locator_for_key page_id slot (leaf_key_bytes c);
              range ← cell_range page index;
              Ok [(locator, range)]);
      rest ← live_locators n page page_id next_page_id (index + 1);
      Ok (here ++ rest)
  end.

Fixpoint locate_entries (page_id : Z) (locators : list (Locator * (Z * Z))) : reader (list (key * V * Locator)) :=
  match locators with
  | [] => mret []
  | (locator, range) :: locators =>
      entry ← decode_entry_range page_id range;
      entry ← of_result (ok_or entry (invalid_data "live locator became a tombstone"));
      rest ← locate_entries page_id locators;
      mret ((entry, locator) :: rest)
  end.

(** The loop of [collect_with_locators]: [descent] is [next_page_id -
    descent_depth], [fuel] bounds the walk along the leaves. *)
Fixpoint collect_leaves (fuel : nat) (page_id : Z) (visited : gset Z) : reader (list (key * V * Locator)) :=
  match fuel with
  | O => of_result (Err (invalid_data "right sibling chain contains a cycle"))
  | S fuel =>
      q ← get_state;
      step ← with_opened_page page_id (λ page,
        if negb (bool_decide (page_type (sp_header page) = Leaf))
        then Err (invalid_data "locator scan expected a tree page") else
        locators ← live_locators (Z.to_nat (cell_count (sp_header page))) page page_id (q_next q) 0;
        Ok (right (sp_header page), locators));
      visited ← of_result (record_page_visit visited page_id "right sibling chain contains a cycle");
      entries ← locate_entries page_id step.2;
      if step.1 =? 0 then mret entries else
      rest ← collect_leaves fuel step.1 visited;
      mret (entries ++ rest)
  end.

Fixpoint collect_descent (descent : nat) (page_id : Z) : reader (list (key * V * Locator)) :=
  q ← get_state;
  child ← with_opened_page page_id (λ page,
    if bool_decide (page_type (sp_header page) = Internal) then
      preamble ← internal_preamble_decode (sp_bytes page) page_id (q_next q);
      Ok (Some (leftmost_child preamble))
    else Ok None);
  match child, descent with
  | Some _, O => of_result (Err (invalid_data "locator descent contains a cycle"))
  | Some child, S descent => collect_descent descent child
  | None, _ => collect_leaves (page_fuel q) page_id ∅
  end.

Definition collect_with_locators : reader (list (key * V * Locator)) := λ q,
  collect_descent (Z.to_nat (q_next q)) (root_page_id (q_header q)) q.

(** ** Cursors *)

Inductive Bound := Included (k : key) | Excluded (k : key) | Unbounded.

Record CursorState := {
  c_leaf_page_id : Z;
  c_slot_index : Z;
  c_cell_ranges : list (Z * Z);
  c_right_sibling : Z;
  c_expected_left_sibling : option Z;
  c_page_loaded : bool;
  c_start : Bound;
  c_initialized : bool;
  c_finished : bool;
  c_visited_leaves : gset Z;
  c_pending : option (key * V);
}.

Definition cursor_new (start : Bound) : CursorState :=
  {| c_leaf_page_id := 0; c_slot_index := 0; c_cell_ranges := []; c_right_sibling := 0;
     c_expected_left_sibling := None; c_page_loaded := false; c_start := start; c_initialized := false;
     c_finished := false; c_visited_leaves := ∅; c_pending := None |}.

Definition cursor_at (s : CursorState) (page_id : Z) (visited : gset Z) : CursorState :=
  {| c_leaf_page_id := page_id; c_slot_index := c_slot_index s; c_cell_ranges := c_cell_ranges s;
     c_right_sibling := c_right_sibling s; c_expected_left_sibling := c_expected_left_sibling s;
     c_page_loaded := c_page_loaded s; c_start := c_start s; c_initialized := c_initialized s;
     c_finished := c_finished s; c_visited_leaves := visited; c_pending := c_pending s |}.

Definition cursor_slot (s : CursorState) (index : Z) : CursorState :=
  {| c_leaf_page_id := c_leaf_page_id s; c_slot_index := index; c_cell_ranges := c_cell_ranges s;
     c_right_sibling := c_right_sibling s; c_expected_left_sibling := c_expected_left_sibling s;
     c_page_loaded := c_page_loaded s; c_start := c_start s; c_initialized := c_initialized s;
     c_finished := c_finished s; c_visited_leaves := c_visited_leaves s; c_pending := c_pending s |}.

Definition cursor_initialized (s : CursorState) : CursorState :=
  {| c_leaf_page_id := c_leaf_page_id s; c_slot_index := c_slot_index s; c_cell_ranges := c_cell_ranges s;
     c_right_sibling := c_right_sibling s; c_expected_left_sibling := c_expected_left_sibling s;
     c_page_loaded := c_page_loaded s; c_start := c_start s; c_initialized := true;
     c_finished := c_finished s; c_visited_leaves := c_visited_leaves s; c_pending := c_pending s |}.

Definition cursor_finished (s : CursorState) (finished : bool) : CursorState :=
  {| c_leaf_page_id := c_leaf_page_id s; c_slot_index := c_slot_index s; c_cell_ranges := c_cell_ranges s;
     c_right_sibling := c_right_sibling s; c_expected_left_sibling := c_expected_left_sibling s;
     c_page_loaded := c_page_loaded s; c_start := c_start s; c_initialized := c_initialized s;
     c_finished := finished; c_visited_leaves := c_visited_leaves s; c_pending := c_pending s |}.

Definition cursor_ranges (s : CursorState) (ranges : list (Z * Z)) (right_sibling : Z) (loaded : bool) : CursorState :=
  {| c_leaf_page_id := c_leaf_page_id s; c_slot_index := c_slot_index s; c_cell_ranges := ranges;
     c_right_sibling := right_sibling; c_expected_left_sibling := c_expected_left_sibling s;
     c_page_loaded := loaded; c_start := c_start s; c_initialized := c_initialized s;
     c_finished := c_finished s; c_visited_leaves := c_visited_leaves s; c_pending := c_pending s |}.

(** The end of the outer loop: on to the right sibling. *)
Definition cursor_advance (s : CursorState) (right : Z) (visited : gset Z) : CursorState :=
  {| c_leaf_page_id := right; c_slot_index := 0; c_cell_ranges := [];
     c_right_sibling := c_right_sibling s; c_expected_left_sibling := Some (c_leaf_page_id s);
     c_page_loaded := false; c_start := c_start s; c_initialized := c_initialized s;
     c_finished := c_finished s; c_visited_leaves := visited; c_pending := c_pending s |}.

Definition cursor_pending (s : CursorState) (pending : option (key * V)) : CursorState :=
  {| c_leaf_page_id := c_leaf_page_id s; c_slot_index := c_slot_index s; c_cell_ranges := c_cell_ranges s;
     c_right_sibling := c_right_sibling s; c_expected_left_sibling := c_expected_left_sibling s;
     c_page_loaded := c_page_loaded s; c_start := c_start s; c_initialized := c_initialized s;
     c_finished := c_finished s; c_visited_leaves := c_visited_leaves s; c_pending := pending |}.

(** The body of [cursor_next]: an error carries [entry_error]. *)
Definition cursor (A : Type) : Type := stateful (CursorState * BPlusTreeQuery) (bool * io_error) A.

Definition on_query {A} (entry_error : bool) (m : reader A) : cursor A := λ '(s, q),
  let '(r, q) := m q in (map_err (pair entry_error) r, (s, q)).

Definition on_cursor {A} (r : io_result A) : cursor A := of_result (map_err (pair false) r).
Definition cursor_state : cursor CursorState := λ '(s, q), (Ok s, (s, q)).
Definition set_cursor (f : CursorState → CursorState) : cursor unit := λ '(s, q), (Ok tt, (f s, q)).

Definition load_cursor_page : cursor unit :=
  s ← cursor_state;
  let page_id := c_leaf_page_id s in
  _ ← set_cursor (λ s, cursor_ranges s [] (c_right_sibling s) (c_page_loaded s));
  loaded ← on_query false (with_opened_page page_id (λ page,
    if negb (bool_decide (page_type (sp_header page) = Leaf))
    then Err (invalid_data "iterator sibling is not a leaf") else
    if match c_expected_left_sibling s with None => false | Some l => negb (left (sp_header page) =? l) end
    then Err (invalid_data "asymmetric leaf sibling link") else
    ranges ← cell_ranges (Z.to_nat (cell_count (sp_header page))) page 0;
    Ok (ranges, right (sp_header page))));
  set_cursor (λ s, cursor_ranges s loaded.1 loaded.2 true).

(** The first leaf and slot, from the start bound. *)
Definition cursor_start : cursor unit :=
  s ← cursor_state;
  page_id ← on_query false (match c_start s with
                            | Included k | Excluded k => locate_leaf k
                            | Unbounded => leftmost_leaf
                            end);
  _ ← set_cursor (λ s, cursor_at s page_id (c_visited_leaves s));
  visited ← on_cursor (record_page_visit (c_visited_leaves s) page_id "right sibling chain contains a cycle");
  _ ← set_cursor (λ s, cursor_at s page_id visited);
  _ ← match c_start s with
      | Unbounded => mret tt
      | Included k | Excluded k =>
          search ← on_query false (with_opened_page page_id (λ page, search_leaf page k));
          set_cursor (λ st, cursor_slot st
            match search, c_start s with
            | FoundAt index, Excluded _ => index + 1
            | FoundAt index, _ | InsertAt index, _ => index
            end)
      end;
  set_cursor cursor_initialized.

(** The inner loop over the slots of the page; at most [n] remain. *)
Fixpoint cursor_slots (n : nat) : cursor (option (key * V)) :=
  match n with
  | O => mret None
  | S n =>
      s ← cursor_state;
      match get (c_cell_ranges s) (c_slot_index s) with
      | None => mret None
      | Some range =>
          _ ← set_cursor (λ s, cursor_slot s (c_slot_index s + 1));
          entry ← on_query true (decode_entry_range (c_leaf_page_id s) range);
          match entry with
          | Some e => mret (Some e)
          | None => cursor_slots n
          end
      end
  end.

(** The outer loop over the leaves. *)
Fixpoint cursor_leaves (fuel : nat) : cursor (option (key * V)) :=
  match fuel with
  | O => on_cursor (Err (invalid_data "right sibling chain contains a cycle"))
  | S fuel =>
      s ← cursor_state;
      _ ← (if c_page_loaded s then mret tt else load_cursor_page);
      s ← cursor_state;
      entry ← cursor_slots (length (c_cell_ranges s));
      match entry with
      | Some e => mret (Some e)
      | None =>
          let right := c_right_sibling s in
          if right =? 0 then mret None else
          visited ← on_cursor (record_page_visit (c_visited_leaves s) right "right sibling chain contains a cycle");
          _ ← set_cursor (λ s, cursor_advance s right visited);
          cursor_leaves fuel
      end
  end.

Definition cursor_body : cursor (option (key * V)) := λ '(s, q),
  (_ ← (if c_initialized s then mret tt else cursor_start);
   cursor_leaves (page_fuel q)) (s, q).

Definition cursor_next (sq : CursorState * BPlusTreeQuery)
    : option (io_result (key * V)) * (CursorState * BPlusTreeQuery) :=
  let '(s, q) := sq in
  match c_pending s with
  | Some entry => (Some (Ok entry), (cursor_pending s None, q))
  | None =>
      if c_finished s then (None, (s, q)) else
      let '(r, (s, q)) := cursor_body (s, q) in
      match r with
      | Ok (Some entry) => (Some (Ok entry), (s, q))
      | Ok None => (None, (cursor_finished s true, q))
      | Err (entry_error, e) => (Some (Err e), (cursor_finished s (negb entry_error), q))
      end
  end.

(** [BPlusTreeDiskIterator::try_is_empty]. *)
Definition try_is_empty (sq : CursorState * BPlusTreeQuery) : io_result bool * (CursorState * BPlusTreeQuery) :=
  let '(item, (s, q)) := cursor_next sq in
  match item with
  | None => (Ok true, (s, q))
  | Some (Ok entry) => (Ok false, (cursor_pending s (Some entry), q))
  | Some (Err e) => (Err e, (s, q))
  end.

Definition query_is_empty : reader bool := λ q,
  let '(item, (_, q)) := cursor_next (cursor_new Unbounded, q) in
  (match item with None => Ok true | Some (Ok _) => Ok false | Some (Err e) => Err e end, q).

(** ** Ranges *)

Definition within_start (k : key) (bound : Bound) : bool :=
  match bound with
  | Included start => key_leb start k
  | Excluded start => negb (key_leb k start)
  | Unbounded => true
  end.

Definition past_end (k : key) (bound : Bound) : bool :=
  match bound with
  | Included end_ => negb (key_leb k end_)
  | Excluded end_ => key_leb end_ k
  | Unbounded => false
  end.

Record BPlusTreeRangeIterator := {
  ri_iterator : CursorState * BPlusTreeQuery;
  ri_start : Bound;
  ri_end : Bound;
}.

Definition range_iter (q : BPlusTreeQuery) (start end_ : Bound) : BPlusTreeRangeIterator :=
  {| ri_iterator := (cursor_new start, q); ri_start := start; ri_end := end_ |}.

(** A cursor yields an item for a cell, so [fuel] steps are enough when there
    are fewer cells. *)
Fixpoint range_next (fuel : nat) (it : BPlusTreeRangeIterator)
    : option (io_result (key * V)) * BPlusTreeRangeIterator :=
  match fuel with
  | O => (None, it)
  | S fuel =>
      let '(item, sq) := cursor_next (ri_iterator it) in
      let it := {| ri_iterator := sq; ri_start := ri_start it; ri_end := ri_end it |} in
      match item with
      | None => (None, it)
      | Some (Err e) => (Some (Err e), it)
      | Some (Ok (k, v)) =>
          if past_end k (ri_end it)
          then (None, {| ri_iterator := (cursor_finished sq.1 true, sq.2); ri_start := ri_start it; ri_end := ri_end it |})
          else if within_start k (ri_start it) then (Some (Ok (k, v)), it) else range_next fuel it
      end
  end.

Definition range_fuel (it : BPlusTreeRangeIterator) : nat := S (Z.to_nat (q_file_len (ri_iterator it).2)).

(** The first loop of [range_page]: [false] when the range ends early. *)
Fixpoint range_skip (offset : nat) (it : BPlusTreeRangeIterator) : io_result bool * BPlusTreeRangeIterator :=
  match offset with
  | O => (Ok true, it)
  | S offset =>
      let '(item, it) := range_next (range_fuel it) it in
      match item with
      | None => (Ok false, it)
      | Some (Err e) => (Err e, it)
      | Some (Ok _) => range_skip offset it
      end
  end.

(** The second loop: the entries, and whether the limit was reached. *)
Fixpoint range_take (limit : nat) (it : BPlusTreeRangeIterator)
    : io_result (list (key * V) * bool) * BPlusTreeRangeIterator :=
  match limit with
  | O => (Ok ([], true), it)
  | S limit =>
      let '(item, it) := range_next (range_fuel it) it in
      match item with
      | None => (Ok ([], false), it)
      | Some (Err e) => (Err e, it)
      | Some (Ok entry) =>
          let '(r, it) := range_take limit it in
          (match r with Ok (rest, reached) => Ok (entry :: rest, reached) | Err e => Err e end, it)
      end
  end.

Definition range_page (start end_ : Bound) (offset limit : Z) : reader (list (key * V) * bool) := λ q,
  let '(skipped, it) := range_skip (Z.to_nat offset) (range_iter q start end_) in
  match skipped with
  | Err e => (Err e, (ri_iterator it).2)
  | Ok false => (Ok ([], false), (ri_iterator it).2)
  | Ok true =>
      let '(taken, it) := range_take (Z.to_nat limit) it in
      match taken with
      | Err e => (Err e, (ri_iterator it).2)
      | Ok (entries, false) => (Ok (entries, false), (ri_iterator it).2)
      | Ok (entries, true) =>
          let '(item, it) := range_next (range_fuel it) it in
          (match item with
           | Some (Ok _) => Ok (entries, true)
           | Some (Err e) => Err e
           | None => Ok (entries, false)
           end, (ri_iterator it).2)
      end
  end.
End Query.
