(* ===== verification/BtreeNode.v ===== *)
(** What a page of the tree means: the decoded content of a leaf, internal,
    overflow or free page, and how the page builders of the transaction write
    it.  A page is written under one page id bound and read under another, so
    the first lemmas move a page between bounds. *)

From stdpp Require Import gmap.
From S2P Require Import Prelude BtreeFormat BtreeCell BtreePage BtreeSplit BtreeTransaction.

Inductive node :=
| NLeaf (l r : Z) (es : list LeafCellRef)
| NInternal (leftmost : Z) (cs : list InternalCellRef)
| NOverflow (next : Z) (payload : list byte)
| NFree (next : Z).

(** The page ids a value or a node refers to. *)
Definition value_refs (v : LeafValueRef) : list Z :=
  match v with OverflowRef _ _ _ head _ => [head] | _ => [] end.

Definition node_refs (n : node) : list Z :=
  match n with
  | NLeaf l r es => l :: r :: concat (map (λ e, value_refs (leaf_value e)) es)
  | NInternal lm cs => lm :: map internal_right_child cs
  | NOverflow next _ | NFree next => [next]
  end.

Definition below (m r : Z) : Prop := r < m.

Section Nodes.
Context {CK : Checksum}.

Definition is_node (p : SlottedPage) (n : node) : Prop :=
  match n with
  | NLeaf l r es =>
      page_type (sp_header p) = Leaf ∧ left (sp_header p) = l ∧ right (sp_header p) = r ∧
      ∃ raws, cells p = map Ok raws ∧
        Forall2 (λ raw e, leaf_cell_ref_decode raw (sp_page_id p) (sp_next_page_id p) = Ok e) raws es
  | NInternal lm cs =>
      page_type (sp_header p) = Internal ∧
      internal_preamble_decode (sp_bytes p) (sp_page_id p) (sp_next_page_id p) = Ok {| leftmost_child := lm |} ∧
      ∃ raws, cells p = map Ok raws ∧
        Forall2 (λ raw c, internal_cell_ref_decode raw (sp_page_id p) (sp_next_page_id p) = Ok c) raws cs
  | NOverflow next payload =>
      page_type (sp_header p) = Overflow ∧ right (sp_header p) = next ∧ overflow_payload p = Ok payload
  | NFree next => page_type (sp_header p) = Free ∧ right (sp_header p) = next
  end.

(** The bytes [bytes] of page [id] are the node [n] under the bound [next]. *)
Definition page_stores (bytes : list byte) (id next : Z) (n : node) : Prop :=
  ∃ p, page_open bytes id next = Ok p ∧ is_node p n.

(** ** Moving cells between pages and bounds *)

Lemma validate_reference_iff r id next k :
  validate_reference r id next k = Ok tt ↔ r = 0 ∨ r < next ∧ r ≠ id.
Proof. unfold validate_reference. split; [intros H; bind_inv; lia | intros; decide_ifs; done]. Qed.

Lemma leaf_prefix_validate_move c p n k p' n' :
  leaf_cell_prefix_validate c p n k = Ok tt →
  (value_kind c = KindOverflow → overflow_head c < n' ∧ overflow_head c ≠ p') →
  leaf_cell_prefix_validate c p' n' k = Ok tt.
Proof.
  unfold leaf_cell_prefix_validate. intros H Hov.
  case_match; [done|]. apply bind_ok_inv in H as (s & Hs & H). rewrite Hs, bind_ok.
  apply bind_ok_inv in H as (f & Hf & H). rewrite Hf, bind_ok.
  case_match; [done|]. apply bind_ok_inv in H as ([] & Hd & H).
  eapply bind_step; [|exact H]. clear H. destruct (value_kind c); [done| |done].
  do 2 (case_match; [done|]). apply validate_reference_iff. destruct Hov; [done|]. lia.
Qed.

Lemma leaf_decode_move raw p n p' n' e :
  leaf_cell_ref_decode raw p n = Ok e →
  Forall (λ r, r < n' ∧ r ≠ p') (value_refs (leaf_value e)) →
  leaf_cell_ref_decode raw p' n' = Ok e.
Proof.
  intros D Hr. destruct (leaf_value_decode_inv _ _ _ _ D) as [W E].
  destruct (encode_leaf_value_inv _ _ _ _ _ W E) as (prefix & -> & L & V & Hwf).
  destruct e as [kb v]; cbn [leaf_key_bytes leaf_value] in *.
  apply leaf_value_decode_ok; [done..| |done]. apply (leaf_prefix_validate_move _ _ _ _ _ _ V).
  intros Hk. destruct v; try done. cbn in Hr |- *. by inversion Hr.
Qed.

(** The head of an overflow value is a page other than the leaf. *)
Lemma leaf_decode_refs raw p n e :
  leaf_cell_ref_decode raw p n = Ok e →
  Forall (λ r, is_u64 r ∧ r ≠ 0 ∧ r < n ∧ r ≠ p) (value_refs (leaf_value e)).
Proof.
  intros D. destruct (leaf_value_decode_inv _ _ _ _ D) as [W E].
  destruct (encode_leaf_value_inv _ _ _ _ _ W E) as (prefix & _ & _ & V & _).
  destruct e as [kb v]; cbn in W, V |- *. destruct v as [| comp ll sl hd crc |]; cbn; [constructor| |constructor].
  destruct W as (_ & _ & ? & _). constructor; [|constructor]. split; [done|].
  unfold leaf_cell_prefix_validate in V. bind_inv. cbn in *. bind_inv.
  match goal with H : validate_reference _ _ _ _ = Ok _ |- _ => apply validate_reference_iff in H end. lia.
Qed.

Lemma internal_decode_iff raw p n c :
  internal_cell_ref_decode raw p n = Ok c ↔
  is_u64 (internal_right_child c) ∧
  encode_internal_cell (internal_key_bytes c) (internal_right_child c) p n = Ok raw.
Proof.
  split; [apply internal_cell_encode_decode|]. intros [Hu E].
  apply internal_cell_decode_encode in E; [|done]. by destruct c.
Qed.

Lemma encode_internal_cell_iff key child p n raw :
  encode_internal_cell key child p n = Ok raw ↔
  0 < len key ≤ MAX_ENCODED_KEY_LEN ∧ child ≠ 0 ∧ child < n ∧ child ≠ p ∧
  raw = internal_prefix_bytes {| icp_key_length := len key; icp_right_child := child |} ++ key.
Proof.
  assert (MAX_ENCODED_KEY_LEN = 2004) as HM by done. unfold encode_internal_cell. split.
  - intros H. bind_inv. apply encoded_key_length_inv in H0 as [-> ?].
    apply write_cell_inv in H as ->. apply internal_cell_prefix_encode_iff in H1 as [V ->].
    rewrite app_nil_r. unfold internal_cell_prefix_validate in V. bind_inv. cbn in *.
    apply validate_reference_iff in V. split_and!; try lia. done.
  - intros (Hk & Hz & Hn & Hp & ->). rewrite encoded_key_length_ok by done. rewrite bind_ok.
    erewrite (proj2 (internal_cell_prefix_encode_iff _ _ _ _)); [|split; [|reflexivity]].
    2:{ unfold internal_cell_prefix_validate. cbn [icp_key_length icp_right_child].
        apply skip_guard; [lia|]. apply validate_reference_iff. lia. }
    rewrite bind_ok, write_cell_ok; [by rewrite app_nil_r|].
    rewrite len_internal_prefix_bytes. change (len (@nil byte)) with 0. unfold INTERNAL_CELL_PREFIX_LEN. lia.
Qed.

Lemma internal_decode_move raw p n p' n' c :
  internal_cell_ref_decode raw p n = Ok c → internal_right_child c < n' → internal_right_child c ≠ p' →
  internal_cell_ref_decode raw p' n' = Ok c.
Proof.
  rewrite !internal_decode_iff, !encode_internal_cell_iff. intros (? & ? & ? & ? & ? & ?) ? ?.
  split_and!; (done || lia).
Qed.

(** Sizes of cells. *)
Lemma leaf_decode_size raw p n e :
  leaf_cell_ref_decode raw p n = Ok e → nonempty raw ∧ admissible MAX_CELL_FOOTPRINT raw.
Proof.
  intros D. destruct (leaf_value_decode_inv _ _ _ _ D) as [W E].
  destruct (encode_leaf_value_inv _ _ _ _ _ W E) as (prefix & -> & L & V & Hwf).
  pose proof (lp_len _ _ L) as Hl. unfold LEAF_CELL_PREFIX_LEN in Hl.
  unfold nonempty, admissible. rewrite !len_app. pose proof (len_nonneg (leaf_key_bytes e)).
  pose proof (len_nonneg (inline_bytes (leaf_value e))). split; [lia|].
  unfold leaf_cell_prefix_validate, leaf_cell_footprint in V. bind_inv.
  destruct (checked_add SLOT_LEN LEAF_CELL_PREFIX_LEN) eqn:E1; [|done]. cbn [mbind option_bind] in *.
  destruct (checked_add z (key_length _)) eqn:E2; [|done]. cbn [mbind option_bind] in *.
  field_inv. subst. unfold SLOT_LEN, LEAF_CELL_PREFIX_LEN, MAX_CELL_FOOTPRINT in *.
  destruct (leaf_value e) as [comp ll st crc|comp ll sl hd crc|];
    cbn [leaf_prefix_of key_length value_kind inline_bytes stored_length] in *; bind_inv; field_inv; subst;
    change (len (@nil byte)) with 0; lia.
Qed.

Lemma internal_decode_size raw p n c :
  internal_cell_ref_decode raw p n = Ok c → nonempty raw ∧ admissible MAX_INTERNAL_FOOTPRINT raw.
Proof.
  rewrite internal_decode_iff, encode_internal_cell_iff. intros (_ & Hk & _ & _ & _ & ->).
  unfold nonempty, admissible. rewrite len_app, len_internal_prefix_bytes.
  unfold INTERNAL_CELL_PREFIX_LEN, MAX_INTERNAL_FOOTPRINT, MAX_ENCODED_KEY_LEN, SLOT_LEN in *. lia.
Qed.

(** ** Moving pages between bounds *)

Definition with_bound (p : SlottedPage) (m : Z) : SlottedPage :=
  {| sp_bytes := sp_bytes p; sp_header := sp_header p; sp_page_id := sp_page_id p;
     sp_next_page_id := m; sp_overflow_payload_length := sp_overflow_payload_length p |}.

Lemma cell_bound p m i : cell (with_bound p m) i = cell p i.
Proof. done. Qed.

Lemma cells_bound p m : cells (with_bound p m) = cells p.
Proof.
  unfold cells. change (sp_header (with_bound p m)) with (sp_header p).
  generalize (S (Z.to_nat (cell_count (sp_header p)))), 0.
  intros fuel. induction fuel as [|fuel IH]; intros i; [done|]. cbn [cells_drain].
  change (cells_next (with_bound p m) i) with (cells_next p i). destruct (cells_next p i) as [[? ?]|]; [|done].
  by rewrite IH.
Qed.

Lemma validate_slots_bound p m : validate_slots (with_bound p m) = validate_slots p.
Proof.
  assert (∀ n i prev, validate_slots_from (with_bound p m) n i prev = validate_slots_from p n i prev) as E.
  { intros n. induction n as [|n IH]; intros i prev; [done|]. cbn [validate_slots_from].
    change (page_slot (with_bound p m) i) with (page_slot p i).
    destruct (page_slot p i) as [sl|]; [|done]. rewrite !bind_ok.
    destruct (page_checked_end _ _ _); [|done]. rewrite !bind_ok.
    change (sp_header (with_bound p m)) with (sp_header p). case_match; [done|]. apply IH. }
  unfold validate_slots. change (sp_header (with_bound p m)) with (sp_header p).
  by rewrite E.
Qed.

Lemma page_header_validate_move h id m m' k :
  page_header_validate h id m k = Ok tt → id < m' → left h < m' → right h < m' →
  page_header_validate h id m' k = Ok tt.
Proof.
  unfold page_header_validate. intros H Hid Hl Hr. apply bind_ok_inv in H as ([] & Hi & H).
  eapply bind_step. { instantiate (1 := tt). unfold validate_page_id in *. bind_inv. by decide_ifs. }
  destruct (page_type h).
  - apply bind_ok_inv in H as (e & He & H). rewrite He, bind_ok. case_match; [done|].
    apply bind_ok_inv in H as ([] & Hf & H). rewrite Hf, bind_ok.
    apply bind_ok_inv in H as ([] & Hr1 & H). eapply bind_step;
      [instantiate (1 := tt)|]; rewrite validate_reference_iff in *; lia.
  - done.
  - case_match; [done|]. rewrite validate_reference_iff in *. lia.
  - case_match; [done|]. rewrite validate_reference_iff in *. lia.
Qed.

Lemma internal_preamble_iff b id m lm :
  internal_preamble_decode b id m = Ok {| leftmost_child := lm |} ↔
  len b = PAGE_SIZE ∧ is_u64 lm ∧ slice b 32 40 = le_bytes 8 lm ∧ lm ≠ 0 ∧ lm < m ∧ lm ≠ id.
Proof.
  unfold internal_preamble_decode. change PAGE_HEADER_LEN with 32. split.
  - intros H. bind_inv. field_inv. match goal with H : validate_reference _ _ _ _ = Ok _ |- _ =>
      apply validate_reference_iff in H end. split_and!; try done; try lia.
  - intros (Hl & Hu & Hs & Hz & Hm & Hi). assert (PAGE_SIZE = 4096) as HP by done.
    rewrite exact_page_ok, bind_ok by done.
    eapply bind_step; [apply (read_field _ _ 8 lm); [lia..|done|done]|].
    apply skip_guard; [lia|]. eapply bind_step; [|done]. apply validate_reference_iff. lia.
Qed.

Lemma page_open_move bytes id m m' p :
  page_open bytes id m = Ok p → id < m' → left (sp_header p) < m' → right (sp_header p) < m' →
  (∀ lm, internal_preamble_decode bytes id m = Ok {| leftmost_child := lm |} → page_type (sp_header p) = Internal → lm < m') →
  page_open bytes id m' = Ok (with_bound p m').
Proof.
  unfold page_open. intros H Hid Hl Hr Hi. bind_inv. cbn [sp_header] in *.
  match goal with H : page_header_decode _ _ _ = Ok _ |- _ => apply page_header_decode_layout in H as (L & W & V) end.
  eapply bind_step; [eapply (page_layout_decode _ _ _ _ InvalidData L W); by eapply page_header_validate_move|].
  eapply bind_step.
  { instantiate (1 := x0). destruct (page_type x); [done| |done..].
    match goal with H : mbind _ _ = Ok _ |- _ => apply bind_ok_inv in H as ([lm] & HP & H) end.
    eapply bind_step; [|eassumption]. instantiate (1 := {| leftmost_child := lm |}).
    specialize (Hi lm HP eq_refl). apply internal_preamble_iff in HP as (? & ? & ? & ? & ? & ?).
    apply internal_preamble_iff. by split_and!. }
  eapply bind_step; [|unfold with_bound; reflexivity]. cbn [sp_bytes sp_header sp_page_id sp_overflow_payload_length].
  match goal with H : validate_slots ?q = Ok _ |- _ => pose proof (validate_slots_bound q m') as E; rewrite H in E; exact E end.
Qed.

(** What opening a page says of its identity and links. *)
Record opened (bytes : list byte) (id m : Z) (p : SlottedPage) : Prop := {
  op_bytes : sp_bytes p = bytes;
  op_id : sp_page_id p = id;
  op_next : sp_next_page_id p = m;
  op_range : id ≠ 0 ∧ id < m;
  op_links : is_u64 (left (sp_header p)) ∧ is_u64 (right (sp_header p));
  op_leaf_links : page_type (sp_header p) = Leaf →
    (left (sp_header p) = 0 ∨ left (sp_header p) < m ∧ left (sp_header p) ≠ id) ∧
    (right (sp_header p) = 0 ∨ right (sp_header p) < m ∧ right (sp_header p) ≠ id);
  op_internal_links : page_type (sp_header p) = Internal → left (sp_header p) = 0 ∧ right (sp_header p) = 0;
  op_chain_links : page_type (sp_header p) = Overflow ∨ page_type (sp_header p) = Free →
    left (sp_header p) = 0 ∧ (right (sp_header p) = 0 ∨ right (sp_header p) < m ∧ right (sp_header p) ≠ id);
}.

Lemma page_open_opened bytes id m p : page_open bytes id m = Ok p → opened bytes id m p.
Proof.
  unfold page_open. intros H. bind_inv. rename x into h.
  match goal with H : page_header_decode _ _ _ = Ok _ |- _ => apply page_header_decode_layout in H as (_ & [] & V) end.
  unfold page_header_validate in V. apply bind_ok_inv in V as ([] & Hid & V).
  assert (id ≠ 0 ∧ id < m) by (unfold validate_page_id in Hid; bind_inv; lia).
  constructor; cbn [sp_bytes sp_page_id sp_next_page_id sp_header]; try done.
  - intros Ht. rewrite Ht in V. bind_inv. rewrite validate_reference_iff in *. done.
  - intros Ht. rewrite Ht in V. bind_inv. lia.
  - intros [Ht|Ht]; rewrite Ht in V; bind_inv; rewrite validate_reference_iff in *; (split; [lia|done]).
Qed.

Lemma leaf_cells_move raws es id m id' m' :
  Forall2 (λ raw e, leaf_cell_ref_decode raw id m = Ok e) raws es →
  Forall (λ r, r < m' ∧ r ≠ id') (concat (map (λ e, value_refs (leaf_value e)) es)) →
  Forall2 (λ raw e, leaf_cell_ref_decode raw id' m' = Ok e) raws es.
Proof.
  intros Hd. induction Hd as [|raw e raws es D Hd IH]; cbn [map concat]; intros Hr; constructor.
  - apply Forall_app in Hr as [Hr _]. by eapply leaf_decode_move.
  - apply Forall_app in Hr as [_ Hr]. by apply IH.
Qed.

Lemma leaf_cells_refs raws es id m :
  Forall2 (λ raw e, leaf_cell_ref_decode raw id m = Ok e) raws es →
  Forall (λ r, is_u64 r ∧ r ≠ 0 ∧ r < m ∧ r ≠ id) (concat (map (λ e, value_refs (leaf_value e)) es)).
Proof.
  induction 1 as [|raw e raws es D Hd IH]; cbn [map concat]; [constructor|].
  apply Forall_app. split; [by eapply leaf_decode_refs|done].
Qed.

Lemma internal_cells_move raws cs id m id' m' :
  Forall2 (λ raw c, internal_cell_ref_decode raw id m = Ok c) raws cs →
  Forall (λ r, r < m' ∧ r ≠ id') (map internal_right_child cs) →
  Forall2 (λ raw c, internal_cell_ref_decode raw id' m' = Ok c) raws cs.
Proof.
  intros Hd. induction Hd as [|raw c raws cs D Hd IH]; cbn [map]; intros Hr; constructor; inversion Hr; subst.
  - eapply internal_decode_move; [done|tauto..].
  - by apply IH.
Qed.

Lemma internal_cells_refs raws cs id m :
  Forall2 (λ raw c, internal_cell_ref_decode raw id m = Ok c) raws cs →
  Forall (λ r, is_u64 r ∧ r ≠ 0 ∧ r < m ∧ r ≠ id) (map internal_right_child cs).
Proof.
  induction 1 as [|raw c raws cs D Hd IH]; cbn [map]; constructor; [|done].
  apply internal_decode_iff in D as [? D]. apply encode_internal_cell_iff in D. tauto.
Qed.

(** The references of a stored node lie below the bound and miss the page. *)
Lemma page_stores_refs bytes id m n :
  page_stores bytes id m n → Forall (λ r, is_u64 r ∧ (r = 0 ∨ r < m ∧ r ≠ id)) (node_refs n).
Proof.
  intros (p & O & N). apply page_open_opened in O as []. subst.
  destruct n as [l r es|lm cs|nx payload|nx]; cbn [node_refs is_node] in *.
  - destruct N as (Ht & <- & <- & raws & _ & Hd). specialize (op_leaf_links0 Ht).
    constructor; [tauto|]. constructor; [tauto|].
    eapply Forall_impl; [by eapply leaf_cells_refs|]. cbn. tauto.
  - destruct N as (Ht & Hp & raws & _ & Hd). apply internal_preamble_iff in Hp. constructor; [tauto|].
    eapply Forall_impl; [by eapply internal_cells_refs|]. cbn. tauto.
  - destruct N as (Ht & <- & _). specialize (op_chain_links0 (or_introl Ht)). apply Forall_singleton. tauto.
  - destruct N as (Ht & <-). specialize (op_chain_links0 (or_intror Ht)). apply Forall_singleton. tauto.
Qed.

(** The node a page stores is the same under every bound above its references. *)
Lemma page_stores_move bytes id m m' n :
  page_stores bytes id m n → id < m' → 0 < m' → Forall (below m') (node_refs n) → page_stores bytes id m' n.
Proof.
  intros S Hid Hm Hr. pose proof (page_stores_refs _ _ _ _ S) as Hrf. destruct S as (p & O & N).
  pose proof (page_open_opened _ _ _ _ O) as []. exists (with_bound p m'). unfold below in *.
  destruct n as [l r es|lm cs|nx payload|nx]; cbn [node_refs is_node] in *.
  - destruct N as (Ht & <- & <- & raws & Hc & Hd). rewrite !Forall_cons in Hr. destruct Hr as (? & ? & Hr).
    split; [eapply page_open_move; [done|done|done|done|congruence]|].
    split_and!; [done..|]. exists raws. rewrite cells_bound. split; [done|].
    apply (leaf_cells_move _ _ _ _ _ _ Hd). cbn [with_bound sp_page_id].
    pose proof (leaf_cells_refs _ _ _ _ Hd) as Hrr. eapply Forall_impl; [exact (proj2 (Forall_and _ _) (conj Hr Hrr))|].
    cbn. tauto.
  - destruct N as (Ht & Hp & raws & Hc & Hd). rewrite Forall_cons in Hr. destruct Hr as (? & Hr).
    destruct (op_internal_links0 Ht) as [El Er].
    split; [eapply page_open_move; [done|done|lia|lia|]|].
    { intros lm' Hlm' _. subst. rewrite Hlm' in Hp. by simplify_eq. }
    split_and!; [done| |].
    { cbn [with_bound sp_bytes sp_page_id sp_next_page_id].
      apply internal_preamble_iff in Hp. apply internal_preamble_iff. tauto. }
    exists raws. rewrite cells_bound. split; [done|].
    apply (internal_cells_move _ _ _ _ _ _ Hd). cbn [with_bound sp_page_id].
    pose proof (internal_cells_refs _ _ _ _ Hd) as Hrr. eapply Forall_impl; [exact (proj2 (Forall_and _ _) (conj Hr Hrr))|].
    cbn. tauto.
  - destruct N as (Ht & <- & Hp). inversion Hr; subst. destruct (op_chain_links0 (or_introl Ht)) as [El _].
    split; [|done]. eapply page_open_move; [done|done|lia|done|congruence].
  - destruct N as (Ht & <-). inversion Hr; subst. destruct (op_chain_links0 (or_intror Ht)) as [El _].
    split; [|done]. eapply page_open_move; [done|done|lia|done|congruence].
Qed.

(** ** Reading the cells of a page *)

Lemma slot_chain_used p start prev ss last :
  len (sp_bytes p) = PAGE_SIZE → 0 ≤ start → prev ≤ PAGE_SIZE → slot_chain start prev ss last →
  used (map (slot_cell p) ss) ≤ prev - last ∧ (ss ≠ [] → start ≤ last).
Proof.
  intros Hl Hs. revert prev. induction ss as [|s ss IH]; intros prev Hp Hch; cbn [slot_chain] in Hch.
  { cbn. subst. split; [lia|done]. }
  destruct Hch as (H1 & H2 & H3 & Hch). cbn [map used]. unfold slot_cell at 1. rewrite len_slice by lia.
  destruct (IH (slot_offset s)) as [HI HJ]; [lia|done|]. split; [lia|]. intros _.
  destruct ss; [cbn in Hch; lia|by apply HJ].
Qed.

Lemma opened_cells p base raws :
  page_valid p → slot_base (page_type (sp_header p)) = Ok base → cells p = map Ok raws →
  len raws = cell_count (sp_header p) ∧
  (∀ i raw, raws !! i = Some raw → cell p (Z.of_nat i) = Ok raw) ∧
  base + weight raws ≤ PAGE_SIZE.
Proof.
  intros V Hb Hc. assert (slotted_type (page_type (sp_header p))) as Ht
    by (unfold slotted_type; apply slot_base_inv in Hb; tauto).
  destruct (page_valid_slots p V Ht) as [ss Hps]. pose proof (page_valid_len p V) as Hl.
  pose proof Hps as (Hn & Hch & _). rewrite (cells_ok p ss Hl Hps) in Hc.
  assert (raws = map (slot_cell p) ss) as ->.
  { clear -Hc. revert raws Hc. induction ss as [|s ss IH]; intros [|r raws] Hc; cbn in Hc; try done.
    injection Hc as Hr Hc. cbn. f_equal; [done|by apply IH]. }
  assert (len (map (slot_cell p) ss) = cell_count (sp_header p)) as Hlen
    by (unfold len; rewrite length_map; lia).
  split_and!; [done| |].
  - intros i raw Hi. rewrite list_lookup_fmap in Hi.
    destruct (ss !! i) as [s|] eqn:Hs; [|done]. cbn in Hi. simplify_eq. by eapply cell_ok.
  - assert (free_start (sp_header p) = base + 4 * cell_count (sp_header p) ∧ base ≤ 40) as [Hfs Hb40].
    { apply (page_valid_slotted p Ht) in V as (D & _). apply page_header_decode_layout in D as (_ & _ & HV).
      split; [by eapply page_header_free_start|]. apply slot_base_inv in Hb. lia. }
    assert (0 ≤ free_start (sp_header p)) as Hfs0.
    { apply slot_base_inv in Hb. lia. }
    unfold weight. rewrite Hlen. unfold SLOT_LEN.
    destruct (slot_chain_used p _ _ _ _ Hl Hfs0 (Z.le_refl _) Hch) as [Hu Hs].
    assert (PAGE_SIZE = 4096) as HP by done. destruct ss as [|s ss].
    + cbn [length] in Hn. cbn [map used] in *. lia.
    + specialize (Hs ltac:(done)). destruct (Z.eqb_spec (cell_count (sp_header p)) 0); [cbn [length] in Hn; lia|lia].
Qed.

(** Collecting the cells with a new one in place. *)
Definition spliced {A} (i : nat) (replace : bool) (x : A) (l : list A) : list A :=
  take i l ++ x :: drop (if replace then S i else i) l.

Lemma collect_cells_ok p raws index replace new :
  (∀ i raw, raws !! i = Some raw → cell p (Z.of_nat i) = Ok raw) →
  ∀ n current, (current + n = length raws)%nat →
  collect_cells n p (Z.of_nat current) (Z.of_nat index) replace new =
  Ok (if decide (current ≤ index < length raws)%nat
      then spliced (index - current) replace new (drop current raws) else drop current raws).
Proof.
  intros Hc n. induction n as [|n IH]; intros current Hn; cbn [collect_cells].
  { rewrite decide_False by lia. rewrite drop_ge by lia. done. }
  destruct (lookup_lt_is_Some_2 raws current) as [c Hcur]; [lia|].
  rewrite (drop_S _ _ _ Hcur). replace (Z.of_nat current + 1) with (Z.of_nat (S current)) by lia.
  rewrite (IH (S current)) by lia. rewrite (Hc _ _ Hcur), !bind_ok.
  destruct (Z.eqb_spec (Z.of_nat current) (Z.of_nat index)) as [He|He]; cbn [andb].
  - assert (index = current) as -> by lia. rewrite (decide_True (P := (current ≤ current < _)%nat)) by lia.
    rewrite decide_False by lia. rewrite Nat.sub_diag. unfold spliced. rewrite take_0.
    destruct replace; cbn [drop app]; rewrite ?drop_0; done.
  - destruct (decide (S current ≤ index < length raws)%nat).
    + rewrite decide_True by lia. unfold spliced. replace (index - current)%nat with (S (index - S current)) by lia.
      by destruct replace.
    + rewrite decide_False by lia. done.
Qed.

Lemma cells_with_ok p raws index replace new :
  len raws = cell_count (sp_header p) →
  (∀ i raw, raws !! i = Some raw → cell p (Z.of_nat i) = Ok raw) →
  (index ≤ length raws)%nat → (replace = true → (index < length raws)%nat) →
  cells_with p (Z.of_nat index) replace new = Ok (spliced index replace new raws).
Proof.
  intros Hn Hc Hi Hr. unfold cells_with. unfold len in Hn.
  replace (Z.to_nat (cell_count (sp_header p))) with (length raws) by lia.
  pose proof (collect_cells_ok p raws index replace new Hc (length raws) 0 ltac:(lia)) as E.
  change (Z.of_nat 0) with 0 in E. rewrite E, bind_ok, drop_0.
  destruct (Z.eqb_spec (Z.of_nat index) (cell_count (sp_header p))).
  - rewrite decide_False by lia. destruct replace; [specialize (Hr eq_refl); lia|].
    unfold spliced. rewrite take_ge, drop_ge by lia. done.
  - rewrite decide_True by lia. by rewrite Nat.sub_0_r.
Qed.

Lemma Forall2_spliced {A B} (R : A → B → Prop) i replace x y l k :
  Forall2 R l k → R x y → Forall2 R (spliced i replace x l) (spliced i replace y k).
Proof.
  intros H Hxy. unfold spliced. apply Forall2_app; [by apply Forall2_take|]. constructor; [done|].
  by apply Forall2_drop.
Qed.

(** ** Writing pages *)

Lemma leaf_cells_sizes raws es id m :
  Forall2 (λ raw e, leaf_cell_ref_decode raw id m = Ok e) raws es →
  Forall nonempty raws ∧ Forall (admissible MAX_CELL_FOOTPRINT) raws.
Proof.
  intros H. split; apply Forall_lookup; intros i raw Hr;
    destruct (Forall2_lookup_l _ _ _ _ _ H Hr) as (e & _ & D); by apply leaf_decode_size in D as [??].
Qed.

Lemma internal_cells_sizes raws cs id m :
  Forall2 (λ raw c, internal_cell_ref_decode raw id m = Ok c) raws cs →
  Forall nonempty raws ∧ Forall (admissible MAX_INTERNAL_FOOTPRINT) raws.
Proof.
  intros H. split; apply Forall_lookup; intros i raw Hr;
    destruct (Forall2_lookup_l _ _ _ _ _ H Hr) as (e & _ & D); by apply internal_decode_size in D as [??].
Qed.

Lemma page_open_of_valid p : page_valid p → page_open (sp_bytes p) (sp_page_id p) (sp_next_page_id p) = Ok p.
Proof. done. Qed.

(** Rebuilding an opened leaf stores the new entries under the same links. *)
Lemma rebuild_leaf p raws es :
  page_valid p → page_type (sp_header p) = Leaf →
  Forall2 (λ raw e, leaf_cell_ref_decode raw (sp_page_id p) (sp_next_page_id p) = Ok e) raws es →
  PAGE_HEADER_LEN + weight raws ≤ PAGE_SIZE →
  ∃ p', rebuild_ordered p raws = Ok p' ∧
    page_stores (sp_bytes p') (sp_page_id p) (sp_next_page_id p)
      (NLeaf (left (sp_header p)) (right (sp_header p)) es).
Proof.
  intros V Ht Hd Hw. pose proof (leaf_cells_sizes _ _ _ _ Hd) as [Hne _].
  destruct (rebuild_ordered_ok p 32 raws V) as (p' & E & V' & Hc & Ht' & Hl & Hr & Hi & Hn & _).
  { by rewrite Ht. }
  { split_and!; [done| |congruence]. unfold weight, SLOT_LEN, PAGE_HEADER_LEN in Hw. lia. }
  exists p'. split; [done|]. exists p'. rewrite <- Hi, <- Hn. split; [done|].
  split_and!; [congruence..|]. exists raws. split; [done|]. by rewrite Hi, Hn.
Qed.

Lemma rebuild_internal p lm raws cs :
  page_valid p → page_type (sp_header p) = Internal →
  internal_preamble_decode (sp_bytes p) (sp_page_id p) (sp_next_page_id p) = Ok {| leftmost_child := lm |} →
  Forall2 (λ raw c, internal_cell_ref_decode raw (sp_page_id p) (sp_next_page_id p) = Ok c) raws cs →
  raws ≠ [] → PAGE_HEADER_LEN + INTERNAL_PREAMBLE_LEN + weight raws ≤ PAGE_SIZE →
  ∃ p', rebuild_ordered p raws = Ok p' ∧
    page_stores (sp_bytes p') (sp_page_id p) (sp_next_page_id p) (NInternal lm cs).
Proof.
  intros V Ht Hp Hd Hnil Hw. pose proof (internal_cells_sizes _ _ _ _ Hd) as [Hne _].
  destruct (rebuild_ordered_ok p 40 raws V) as (p' & E & V' & Hc & Ht' & Hl & Hr & Hi & Hn & Hs).
  { by rewrite Ht. }
  { split_and!; [done| |done]. unfold weight, SLOT_LEN, PAGE_HEADER_LEN, INTERNAL_PREAMBLE_LEN in Hw. lia. }
  exists p'. split; [done|]. exists p'. rewrite <- Hi, <- Hn. split; [done|].
  split_and!; [congruence| |exists raws; split; [done|]; by rewrite Hi, Hn].
  rewrite Hi, Hn. eapply internal_preamble_ext; [by apply page_valid_len|exact Hs|done].
Qed.

Lemma leaf_page_ok id l r raws es m :
  is_u64 l → is_u64 r → 0 < id → id < m → m < 2 ^ 64 →
  (l = 0 ∨ l < m ∧ l ≠ id) → (r = 0 ∨ r < m ∧ r ≠ id) →
  Forall2 (λ raw e, leaf_cell_ref_decode raw id m = Ok e) raws es →
  PAGE_HEADER_LEN + weight raws ≤ PAGE_SIZE →
  ∃ bytes, leaf_page id l r raws = Ok bytes ∧ page_stores bytes id m (NLeaf l r es).
Proof.
  intros Hlu Hru Hid Hidm Hm Hl Hr Hd Hw. unfold leaf_page.
  change (try_fit 16 PAGE_HEADER_LEN) with (Some 32). change (try_fit 16 PAGE_SIZE) with (Some 4096).
  cbn [ok_or]. rewrite !bind_ok.
  set (h := {| page_type := Leaf; cell_count := 0; free_start := 32; free_end := 4096; left := l; right := r |}).
  assert (page_header_validate h id u64_max InvalidInput = Ok tt) as HV.
  { unfold page_header_validate. eapply bind_step.
    { instantiate (1 := tt). unfold validate_page_id, u64_max. by decide_ifs. }
    cbn [page_type h]. change (expected_slot_end PAGE_HEADER_LEN (cell_count h) InvalidInput) with (Ok (E := io_error) 32).
    rewrite bind_ok. apply skip_guard; [done|]. eapply bind_step; [by instantiate (1 := tt)|].
    eapply bind_step; [instantiate (1 := tt)|]; apply validate_reference_iff;
      cbn [left right h]; unfold u64_max; lia. }
  destruct (page_header_encode_layout h (zeros PAGE_SIZE) id u64_max _ ltac:(by apply len_zeros) HV)
    as (bytes & E & L & _). rewrite E, bind_ok.
  set (p := {| sp_bytes := bytes; sp_header := h; sp_page_id := id; sp_next_page_id := u64_max;
               sp_overflow_payload_length := None |}).
  assert (page_valid p) as V.
  { apply page_valid_slotted; [by left|]. split_and!; [|done|done|done].
    eapply page_layout_decode; [exact L| |exact HV]. by constructor. }
  rewrite (V : page_open bytes id u64_max = Ok p), bind_ok.
  assert (Forall2 (λ raw e, leaf_cell_ref_decode raw id u64_max = Ok e) raws es) as Hd'.
  { apply (leaf_cells_move _ _ _ _ _ _ Hd). eapply Forall_impl; [by eapply leaf_cells_refs|].
    cbn. unfold u64_max. lia. }
  destruct (rebuild_leaf p raws es V eq_refl Hd' Hw) as (p' & Er & S). rewrite Er, bind_ok.
  exists (sp_bytes p'). split; [done|]. cbn [p sp_page_id sp_next_page_id sp_header h left right] in S.
  apply (page_stores_move _ _ _ m _ S); [done|lia|]. cbn [node_refs]. unfold below.
  unfold fits in *. repeat constructor; [lia..|].
  eapply Forall_impl; [exact (leaf_cells_refs _ _ _ _ Hd)|]. cbn. lia.
Qed.

Lemma internal_page_ok id lm raws cs m :
  is_u64 lm → 0 < id → id < m → m < 2 ^ 64 → lm ≠ 0 → lm < m → lm ≠ id →
  Forall2 (λ raw c, internal_cell_ref_decode raw id m = Ok c) raws cs → raws ≠ [] →
  PAGE_HEADER_LEN + INTERNAL_PREAMBLE_LEN + weight raws ≤ PAGE_SIZE →
  ∃ bytes, internal_page id lm raws = Ok bytes ∧ page_stores bytes id m (NInternal lm cs).
Proof.
  intros Hlu Hid Hidm Hm Hz Hl Hne Hd Hnil Hw. assert (PAGE_SIZE = 4096) as HP by done.
  destruct raws as [|first rest] eqn:Er; [done|]. rewrite <- Er in *. unfold internal_page.
  assert (head raws = Some first) as -> by by subst. cbn [ok_or]. rewrite bind_ok.
  assert (0 < len first ≤ 2016) as Hfl.
  { pose proof (internal_cells_sizes _ _ _ _ Hd) as [Hn Ha]. subst raws. inversion Hn; inversion Ha; subst.
    unfold nonempty, admissible, MAX_INTERNAL_FOOTPRINT, SLOT_LEN in *. lia. }
  rewrite checked_sub_small by lia. cbn [ok_or]. rewrite bind_ok.
  assert (internal_preamble_encode_into {| leftmost_child := lm |} (zeros PAGE_SIZE) id u64_max
          = Ok (put (zeros PAGE_SIZE) 32 (le_bytes 8 lm))) as ->.
  { unfold internal_preamble_encode_into. rewrite exact_page_ok, bind_ok by (by apply len_zeros).
    apply skip_guard; [cbn; lia|]. eapply bind_step.
    { apply validate_reference_iff. cbn. unfold u64_max. lia. }
    cbn [leftmost_child]. apply write_at_ok; unfold PAGE_HEADER_LEN; slice_side. }
  rewrite bind_ok, get_range_some by slice_side. cbn [ok_or]. rewrite bind_ok.
  rewrite !try_fit_small by lia. cbn [ok_or]. rewrite !bind_ok. cbv zeta.
  set (s := {| slot_offset := PAGE_SIZE - len first; slot_length := len first |}).
  set (b1 := put (put (zeros PAGE_SIZE) 32 (le_bytes 8 lm)) 40 (slot_encode s)).
  assert (len b1 = 4096) as Hb1 by (unfold b1; slice_side).
  rewrite get_range_some by lia. cbn [ok_or]. rewrite bind_ok, ?bind_ok.
  set (b2 := put b1 (PAGE_SIZE - len first) first).
  set (h := {| page_type := Internal; cell_count := 1; free_start := 44; free_end := PAGE_SIZE - len first;
               left := 0; right := 0 |}).
  assert (len b2 = PAGE_SIZE) as Hb2 by (unfold b2; slice_side).
  assert (page_header_validate h id u64_max InvalidInput = Ok tt) as HV.
  { unfold page_header_validate. eapply bind_step.
    { instantiate (1 := tt). unfold validate_page_id, u64_max. by decide_ifs. }
    cbn [page_type h cell_count]. apply skip_guard; [done|].
    change (expected_slot_end (PAGE_HEADER_LEN + INTERNAL_PREAMBLE_LEN) 1 InvalidInput) with (Ok (E := io_error) 44).
    rewrite bind_ok. apply skip_guard; [cbn [free_start free_end left right h]; lia|done]. }
  destruct (page_header_encode_layout h b2 id u64_max _ Hb2 HV) as (bytes & E & L & Hbody).
  rewrite E, bind_ok. change PAGE_HEADER_LEN with 32 in Hbody. rewrite HP in Hbody.
  set (p := {| sp_bytes := bytes; sp_header := h; sp_page_id := id; sp_next_page_id := u64_max;
               sp_overflow_payload_length := None |}).
  assert (∀ lo hi, 32 ≤ lo → hi ≤ 4096 → slice bytes lo hi = slice b2 lo hi) as Hsub.
  { intros lo hi ? ?. pose proof (pl_len _ _ L). by apply (slice_sub _ _ 32 4096); [done|lia..]. }
  assert (internal_preamble_decode bytes id u64_max = Ok {| leftmost_child := lm |}) as Hpre.
  { apply internal_preamble_iff. split_and!; [apply L|done| |done|unfold u64_max; lia|done].
    rewrite Hsub by lia. unfold b2, b1. rewrite HP. slice_simpl. done. }
  assert (page_valid p) as V.
  { apply page_valid_slotted; [by right|]. split_and!; [|by eauto|done|].
    { eapply page_layout_decode; [exact L| |exact HV]. constructor; cbn; unfold fits; lia. }
    apply (validate_slots_ok p [s]). split_and!; [done| |].
    - cbn. unfold PAGE_SIZE in *. lia.
    - intros k s' Hk. apply list_lookup_singleton_Some in Hk as [-> <-].
      rewrite (page_slot_read p 40); [|done|cbn; lia|cbn [p sp_bytes]; rewrite (pl_len _ _ L); lia|lia].
      cbn [p sp_bytes]. rewrite Hsub by lia. unfold b2, b1. rewrite HP. slice_simpl.
      apply slot_decode_encode. split; cbn; unfold fits; lia. }
  rewrite (V : page_open bytes id u64_max = Ok p), bind_ok.
  assert (Forall2 (λ raw c, internal_cell_ref_decode raw id u64_max = Ok c) raws cs) as Hd'.
  { apply (internal_cells_move _ _ _ _ _ _ Hd). eapply Forall_impl; [by eapply internal_cells_refs|].
    cbn. unfold u64_max. lia. }
  destruct (rebuild_internal p lm raws cs V eq_refl Hpre Hd' Hnil Hw) as (p' & Er' & S).
  rewrite Er', bind_ok. exists (sp_bytes p'). split; [done|]. cbn [p sp_page_id sp_next_page_id] in S.
  apply (page_stores_move _ _ _ m _ S); [done|unfold fits in *; lia|]. cbn [node_refs]. unfold below.
  constructor; [lia|]. eapply Forall_impl; [exact (internal_cells_refs _ _ _ _ Hd)|]. cbn. lia.
Qed.

(** Overwriting one cell of a leaf in place. *)
Lemma replace_leaf p raws es i raw raw' e' :
  page_valid p → page_type (sp_header p) = Leaf → cells p = map Ok raws →
  Forall2 (λ raw e, leaf_cell_ref_decode raw (sp_page_id p) (sp_next_page_id p) = Ok e) raws es →
  raws !! i = Some raw → len raw' = len raw →
  leaf_cell_ref_decode raw' (sp_page_id p) (sp_next_page_id p) = Ok e' →
  ∃ p', replace_same_len p (Z.of_nat i) raw' = Ok p' ∧
    page_stores (sp_bytes p') (sp_page_id p) (sp_next_page_id p)
      (NLeaf (left (sp_header p)) (right (sp_header p)) (<[i := e']> es)).
Proof.
  intros V Ht Hc Hd Hi Hlen D. assert (slotted_type (page_type (sp_header p))) as Hs by by left.
  destruct (page_valid_slots p V Hs) as [ss Hps]. pose proof (page_valid_len p V) as Hl.
  rewrite (cells_ok p ss Hl Hps) in Hc.
  assert (raws = map (slot_cell p) ss) as ->.
  { clear -Hc. revert raws Hc. induction ss as [|s ss IH]; intros [|r raws] Hc; cbn in Hc; try done.
    injection Hc as Hr Hc. cbn. f_equal; [done|by apply IH]. }
  rewrite list_lookup_fmap in Hi. destruct (ss !! i) as [s|] eqn:Es; [|done]. cbn in Hi. simplify_eq.
  pose proof Hps as (_ & Hch & Hss). destruct (slot_chain_bounds _ _ _ _ _ _ Hch Es) as (? & ? & ? & _).
  pose proof (page_slot_inv _ _ _ (Hss _ _ Es)) as [[[] []] _].
  destruct (replace_same_len_ok p ss i s raw' V Hs Hps Es) as (p' & E & V' & Hh & Hps' & Hs' & Ho).
  { rewrite Hlen. unfold slot_cell. rewrite len_slice; lia. }
  exists p'. split; [done|].
  assert (sp_page_id p' = sp_page_id p ∧ sp_next_page_id p' = sp_next_page_id p) as [Hpi Hpn]
    by (unfold replace_same_len in E; bind_inv; done).
  exists p'. rewrite <- Hpi, <- Hpn. split; [done|]. rewrite <- Hh in *. split_and!; [done..|].
  exists (<[i := raw']> (map (slot_cell p) ss)). split.
  - rewrite (cells_ok p' ss (page_valid_len _ V') Hps'). apply list_eq. intros k.
    change (map Ok (<[i:=raw']> (map (slot_cell p) ss))) with (Ok (E := io_error) <$> <[i:=raw']> (slot_cell p <$> ss)).
    rewrite list_fmap_insert, list_lookup_fmap.
    destruct (decide (k = i)) as [->|Hk].
    + rewrite Es, list_lookup_insert_eq; [cbn; by rewrite Hs'|]. rewrite !length_fmap. by apply lookup_lt_Some in Es.
    + rewrite list_lookup_insert_ne by done. rewrite !list_lookup_fmap. destruct (ss !! k) eqn:Ek; [|done].
      cbn. by rewrite (Ho k _ Ek Hk).
  - rewrite Hpi, Hpn. by apply Forall2_insert.
Qed.

(** Changing the left link of a leaf keeps its entries. *)
Lemma relink_leaf p l' es :
  page_valid p → is_node p (NLeaf (left (sp_header p)) (right (sp_header p)) es) → is_u64 l' →
  (l' = 0 ∨ l' < sp_next_page_id p ∧ l' ≠ sp_page_id p) →
  let h := sp_header p in
  ∃ bytes, page_header_encode_into
      {| page_type := page_type h; cell_count := cell_count h; free_start := free_start h;
         free_end := free_end h; left := l'; right := right h |}
      (sp_bytes p) (sp_page_id p) (sp_next_page_id p) = Ok bytes ∧
    page_stores bytes (sp_page_id p) (sp_next_page_id p) (NLeaf l' (right h) es).
Proof.
  intros V (Ht & _ & _ & raws & Hc & Hd) Hu Hl' h. assert (PAGE_SIZE = 4096) as HP by done.
  assert (slotted_type (page_type (sp_header p))) as Hs by by left.
  destruct (page_valid_slots p V Hs) as [ss Hps]. pose proof (page_valid_len p V) as Hl.
  pose proof V as V0. apply (page_valid_slotted p Hs) in V as (D & _ & Ho & _).
  apply page_header_decode_layout in D as (L & W & HV).
  set (h' := {| page_type := page_type h; cell_count := cell_count h; free_start := free_start h;
         free_end := free_end h; left := l'; right := right h |}).
  assert (page_header_validate h' (sp_page_id p) (sp_next_page_id p) InvalidData = Ok tt) as HV'.
  { unfold page_header_validate in *. unfold h', h. cbn [page_type cell_count free_start free_end left right].
    rewrite Ht in *. apply bind_ok_inv in HV as ([] & E1 & HV). rewrite E1, bind_ok.
    apply bind_ok_inv in HV as (e & E2 & HV). rewrite E2, bind_ok. case_match; [done|].
    apply bind_ok_inv in HV as ([] & E3 & HV). rewrite E3, bind_ok.
    apply bind_ok_inv in HV as ([] & _ & HV). eapply bind_step; [|exact HV]. by apply validate_reference_iff. }
  destruct (page_header_encode_layout h' (sp_bytes p) _ _ _ Hl HV') as (bytes & E & L' & Hbody).
  exists bytes. split; [done|]. pose proof (pl_len _ _ L') as Hbl. change PAGE_HEADER_LEN with 32 in Hbody.
  assert (∀ lo hi, 32 ≤ lo → hi ≤ 4096 → slice bytes lo hi = slice (sp_bytes p) lo hi) as Hsub.
  { intros lo hi ? ?. by apply (slice_sub _ _ 32 PAGE_SIZE); [done|lia..]. }
  pose proof (page_header_free_start _ _ _ _ _ HV ltac:(by rewrite Ht)) as Hfs. change PAGE_HEADER_LEN with 32 in Hfs.
  set (p' := {| sp_bytes := bytes; sp_header := h'; sp_page_id := sp_page_id p;
                sp_next_page_id := sp_next_page_id p; sp_overflow_payload_length := None |}).
  destruct Hps as (Hn & Hch & Hss).
  assert (∀ k s, ss !! k = Some s → 0 < slot_length s ∧ 32 ≤ slot_offset s ∧
     slot_offset s + slot_length s ≤ 4096 ∧ 32 + 4 * Z.of_nat k + 4 ≤ 4096) as Hb.
  { intros k s Hk. destruct (slot_chain_bounds _ _ _ _ _ _ Hch Hk) as (? & ? & ? & _).
    pose proof (lookup_lt_Some _ _ _ Hk). lia. }
  assert (page_slots p' ss) as Hps'.
  { split_and!; [done|done|]. intros k s Hk. pose proof (Hb _ _ Hk) as (? & ? & ? & ?).
    pose proof (lookup_lt_Some _ _ _ Hk). pose proof (Hss k s Hk) as E0.
    rewrite (page_slot_read p 32) in E0; [|by rewrite Ht|lia|lia|lia].
    rewrite (page_slot_read p' 32); [|cbn [p' sp_header h' page_type]; unfold h; by rewrite Ht|cbn; unfold h; lia|cbn; lia|lia].
    cbn [p' sp_bytes]. by rewrite Hsub by lia. }
  exists p'. split.
  { apply (page_valid_slotted p'); [by left|]. split_and!; [|cbn; unfold h; congruence|done|by eapply validate_slots_ok].
    eapply page_layout_decode; [exact L'| |exact HV']. destruct W. by constructor. }
  split_and!; [done..|]. exists raws. split; [|done]. rewrite <- Hc.
  rewrite (cells_ok p ss Hl ltac:(by split_and!)), (cells_ok p' ss Hbl Hps').
  apply map_ext_in. intros s Hin. apply list_elem_of_In, list_elem_of_lookup in Hin as [k Hk].
  pose proof (Hb _ _ Hk) as (? & ? & ? & ?). unfold slot_cell. cbn [p' sp_bytes]. by rewrite Hsub by lia.
Qed.

(** Overflow and free pages. *)
Lemma overflow_page_stores id m next payload :
  is_u64 next → len payload ≤ OVERFLOW_PAYLOAD_LEN → id ≠ 0 → id < m → (next = 0 ∨ next < m ∧ next ≠ id) →
  ∃ bytes, encode_overflow_page id m next payload = Ok bytes ∧ page_stores bytes id m (NOverflow next payload).
Proof.
  intros. destruct (overflow_page_opens id m next payload) as (bytes & p & E & O & N); [done..|].
  exists bytes. split; [done|]. exists p. split; [done|]. exact N.
Qed.

Lemma free_page_stores id m next :
  is_u64 next → id ≠ 0 → id < m → (next = 0 ∨ next < m ∧ next ≠ id) →
  ∃ bytes, encode_free_page id m next = Ok bytes ∧ page_stores bytes id m (NFree next).
Proof.
  intros. destruct (free_page_opens id m next) as (bytes & p & E & O & Ht & Hr & _); [done..|].
  exists bytes. split; [exact E|]. exists p. split; [exact O|]. split; [exact Ht|exact Hr].
Qed.
End Nodes.
