(* ===== verification/BtreeOverlay.v ===== *)
(** The pages a write transaction shows: which node each page id holds, how
    writing a page changes that view, and the pool of free pages that
    allocation and freeing work on. *)

From stdpp Require Import gmap.
From S2P Require Import Prelude BtreeFormat BtreeCell BtreePage BtreeSplit BtreeTransaction BtreeNode.

Section Overlay.
Context {CK : Checksum}.

(** Page [id] of the transaction holds the node [n]. *)
Definition view (t : WriteTransaction) (base : list byte) (id : Z) (n : node) : Prop :=
  0 < id ∧ ∃ bytes, tx_page t base id = Ok bytes ∧ page_stores bytes id (tx_next t) n.

Lemma tx_page_range t base id bytes : tx_page t base id = Ok bytes → id ≠ 0 ∧ id < tx_next t.
Proof. unfold tx_page. intros H. bind_inv. lia. Qed.

Lemma view_range t base id n : view t base id n → 0 < id < tx_next t.
Proof. intros (? & bytes & E & _). apply tx_page_range in E. lia. Qed.

(** The page a view opens. *)
Lemma view_open t base id n :
  view t base id n →
  ∃ bytes p, tx_page t base id = Ok bytes ∧ page_open bytes id (tx_next t) = Ok p ∧ is_node p n ∧
    tx_open t base id = Ok p ∧ page_valid p ∧ sp_bytes p = bytes ∧ sp_page_id p = id ∧
    sp_next_page_id p = tx_next t.
Proof.
  intros (_ & bytes & E & p & O & N). exists bytes, p. destruct (page_open_valid _ _ _ _ O) as [V _].
  pose proof (page_open_opened _ _ _ _ O) as []. split_and!; try done.
  unfold tx_open. by rewrite E, bind_ok.
Qed.

Lemma map_Ok_inj {E A} (l k : list A) : map (Ok (E := E)) l = map Ok k → l = k.
Proof.
  revert k. induction l as [|x l IH]; intros [|y k] H; cbn in H; try done.
  injection H as -> H. f_equal. by apply IH.
Qed.

Lemma Forall2_fun {A B E} (f : A → result E B) l k k' :
  Forall2 (λ a b, f a = Ok b) l k → Forall2 (λ a b, f a = Ok b) l k' → k = k'.
Proof.
  intros H. revert k'. induction H as [|a b l k Hab H IH]; intros k' H'; inversion H'; subst; [done|].
  f_equal; [congruence|by apply IH].
Qed.

Lemma view_inj t base id n n' : view t base id n → view t base id n' → n = n'.
Proof.
  intros (_ & bytes & E & p & O & N) (_ & bytes' & E' & p' & O' & N').
  assert (bytes' = bytes) as -> by congruence. assert (p' = p) as -> by congruence.
  destruct n, n'; cbn [is_node] in *; try (destruct_and?; congruence).
  - destruct N as (_ & <- & <- & raws & Hc & Hd), N' as (_ & <- & <- & raws' & Hc' & Hd').
    rewrite Hc in Hc'. apply map_Ok_inj in Hc' as <-. f_equal.
    exact (Forall2_fun (λ raw, leaf_cell_ref_decode raw _ _) _ _ _ Hd Hd').
  - destruct N as (_ & Hp & raws & Hc & Hd), N' as (_ & Hp' & raws' & Hc' & Hd').
    rewrite Hc in Hc'. apply map_Ok_inj in Hc' as <-. f_equal; [congruence|].
    exact (Forall2_fun (λ raw, internal_cell_ref_decode raw _ _) _ _ _ Hd Hd').
Qed.

(** ** Writing pages *)

Lemma view_written t base id bytes n :
  0 < id < tx_next t → page_stores bytes id (tx_next t) n → view (with_dirty t id bytes) base id n.
Proof.
  intros Hid S. split; [lia|]. exists bytes. split; [|done].
  unfold tx_page. change (tx_next (with_dirty t id bytes)) with (tx_next t). apply skip_guard; [lia|].
  cbn [with_dirty dirty_pages]. by rewrite lookup_insert_eq.
Qed.

Lemma view_other t base id bytes i n :
  i ≠ id → view (with_dirty t id bytes) base i n ↔ view t base i n.
Proof.
  intros Hi. unfold view. change (tx_next (with_dirty t id bytes)) with (tx_next t).
  replace (tx_page (with_dirty t id bytes) base i) with (tx_page t base i); [done|].
  unfold tx_page. change (tx_next (with_dirty t id bytes)) with (tx_next t).
  cbn [with_dirty dirty_pages original_header]. by rewrite lookup_insert_ne.
Qed.

Lemma with_dirty_twice t id b b' : with_dirty (with_dirty t id b) id b' = with_dirty t id b'.
Proof. unfold with_dirty. cbn. by rewrite insert_insert_eq. Qed.

Lemma write_page_ok t id bytes : 0 < id < tx_next t → write_page t id bytes = Ok (with_dirty t id bytes).
Proof. intros. unfold write_page. by apply skip_guard; [lia|]. Qed.

(** A page that can be read can be changed in the overlay. *)
Lemma page_mut_ok t base id bytes :
  tx_page t base id = Ok bytes →
  ∃ t1, page_mut t base id = Ok (bytes, t1) ∧ ∀ b, with_dirty t1 id b = with_dirty t id b.
Proof.
  unfold tx_page, page_mut. intros H. case_match; [done|].
  destruct (dirty_pages t !! id) as [page|] eqn:Ed.
  { bind_inv. exists t. done. }
  case_match; [done|]. apply bind_ok_inv in H as (r & -> & H). rewrite bind_ok, H, bind_ok.
  eexists. split; [reflexivity|]. intros b. apply with_dirty_twice.
Qed.

(** Headers and sets do not change the pages; a larger bound keeps them. *)
Lemma view_grow t t' base i n :
  original_header t' = original_header t → dirty_pages t' = dirty_pages t → tx_next t ≤ tx_next t' →
  view t base i n → view t' base i n.
Proof.
  intros Ho Hd Hn V. pose proof (view_range _ _ _ _ V) as Hr.
  destruct V as (Hi & bytes & E & S). split; [done|]. exists bytes. split.
  - unfold tx_page in *. rewrite Ho, Hd. replace (tx_next t' <=? i) with (tx_next t <=? i) by lia. done.
  - pose proof (page_stores_refs _ _ _ _ S) as Hf. apply (page_stores_move _ _ _ _ _ S); [lia..|].
    eapply Forall_impl; [exact Hf|]. cbn. unfold below. lia.
Qed.

(** ** The pool of free pages *)

(** The pages of the free list that starts at [head], in order. *)
Inductive free_chain (V : Z → node → Prop) : Z → list Z → Prop :=
| free_nil : free_chain V 0 []
| free_cons id next F : V id (NFree next) → free_chain V next F → free_chain V id (id :: F).

Lemma free_chain_mono (V V' : Z → node → Prop) head F :
  free_chain V head F → (∀ i n, i ∈ F → V i n → V' i n) → free_chain V' head F.
Proof.
  induction 1 as [|id next F Hv Hc IH]; intros Hm; [constructor|].
  econstructor; [apply Hm; [set_solver|done]|]. apply IH. intros i n Hi. apply Hm. set_solver.
Qed.

(** The overlay holds pages of the database only. *)
Definition in_bounds (t : WriteTransaction) : Prop :=
  ∀ id, is_Some (dirty_pages t !! id) → 0 < id < tx_next t.

Lemma in_bounds_written t id bytes : in_bounds t → 0 < id < tx_next t → in_bounds (with_dirty t id bytes).
Proof.
  intros B Hid i Hi. change (tx_next (with_dirty t id bytes)) with (tx_next t). cbn [with_dirty dirty_pages] in Hi.
  destruct (decide (i = id)) as [->|Hne]; [done|]. apply B. by rewrite lookup_insert_ne in Hi.
Qed.

Record pool (t : WriteTransaction) (base : list byte) (F : list Z) : Prop := {
  pool_chain : free_chain (view t base) (free_page_head (next_header t)) F;
  pool_nodup : NoDup F;
  pool_allocated : ∀ i, i ∈ allocated_pages t → i ∉ F ∧ 0 < i < tx_next t;
  pool_freed : ∀ i, i ∈ freed_pages t → i ∈ F;
  pool_bound : 0 < tx_next t < 2 ^ 63;
  pool_dirty : in_bounds t;
}.

Lemma free_chain_range t base head F i :
  free_chain (view t base) head F → i ∈ F → 0 < i < tx_next t.
Proof.
  induction 1 as [|id next F Hv Hc IH]; intros Hi; [set_solver|].
  apply elem_of_cons in Hi as [->|Hi]; [by eapply view_range|by apply IH].
Qed.

Lemma pool_range t base F i : pool t base F → i ∈ F → 0 < i < tx_next t.
Proof. intros [] Hi. by eapply free_chain_range. Qed.

(** Writing a page outside the pool keeps the pool. *)
Lemma pool_written t base F id bytes :
  pool t base F → id ∉ F → 0 < id < tx_next t → pool (with_dirty t id bytes) base F.
Proof.
  intros [] Hid Hr. constructor; [|done..|by apply in_bounds_written].
  eapply free_chain_mono; [exact pool_chain0|]. intros i n Hi V. apply view_other; [set_solver|done].
Qed.

Lemma pool_root t base F root :
  pool t base F → pool (with_next_header t (header_with_root (next_header t) root)) base F.
Proof.
  intros []. constructor; [|done..]. eapply free_chain_mono; [exact pool_chain0|].
  intros i n _ V. by eapply view_grow.
Qed.

(** What allocation does to the pool: it takes the head of the free list, or
    appends a page when the list is empty. *)
Record allocated_from (t t' : WriteTransaction) (base : list byte) (F F' : list Z) (id : Z) : Prop := {
  af_pool : pool t' base F';
  af_view : ∀ i n, view t base i n → view t' base i n;
  af_root : root_page_id (next_header t') = root_page_id (next_header t);
  af_id : 0 < id < tx_next t';
  af_next : tx_next t ≤ tx_next t' ≤ tx_next t + 1;
  af_take : id :: F' = F ∧ tx_next t' = tx_next t ∨ F = [] ∧ F' = [] ∧ id = tx_next t ∧ tx_next t' = tx_next t + 1;
}.

Lemma allocate_page_ok t base F :
  pool t base F → tx_next t + 1 < 2 ^ 63 →
  ∃ id t' F', allocate_page t base = Ok (id, t') ∧ allocated_from t t' base F F' id.
Proof.
  intros P Hn. pose proof P as [Hc Hnd Ha Hf Hb Hib]. unfold allocate_page.
  remember (free_page_head (next_header t)) as hd eqn:Eh. destruct Hc as [|id next F' Hv Hc'].
  - cbn [Z.eqb negb]. rewrite checked_add_small by lia. cbn [ok_or]. rewrite bind_ok. cbv zeta.
    rewrite bool_decide_false by (cbn; intros Hi; apply Ha in Hi as [_ Hi]; lia).
    do 3 eexists. split; [reflexivity|].
    constructor; [|intros i n; apply view_grow; [done|done|cbn; unfold tx_next; lia]
      |done|cbn; lia|cbn; lia|right; split_and!; done].
    constructor; cbn; [rewrite <- Eh; constructor|constructor| |done|lia|].
    2:{ intros i Hi. apply Hib in Hi. unfold tx_next in *. cbn. lia. }
    intros i [Hi|Hi]%elem_of_union; [apply elem_of_singleton in Hi|apply Ha in Hi]; split; try set_solver; lia.
  - destruct (view_open _ _ _ _ Hv) as (bytes & p & _ & _ & [Ht Hr] & Ho & _).
    pose proof (view_range _ _ _ _ Hv). replace (id =? 0) with false by lia. cbn [negb]. cbv zeta.
    rewrite Ho, bind_ok, bool_decide_true by done. cbn [negb].
    rewrite bool_decide_false by (cbn; intros Hi; apply Ha in Hi as [Hi _]; set_solver).
    do 3 eexists. split; [reflexivity|]. cbn [with_next_header allocated_pages freed_pages].
    match goal with |- allocated_from _ ?u _ _ _ _ =>
      assert (∀ i n, view t base i n → view u base i n) as Hvw
        by (intros i n; apply view_grow; [done|done|cbn; unfold tx_next; cbn; lia]) end.
    apply NoDup_cons in Hnd as [Hni Hnd].
    constructor; [|exact Hvw|done|cbn; done|cbn; unfold tx_next; cbn; lia|left; split; done].
    constructor; cbn; [|done| | |done|exact Hib].
    + rewrite Hr. eapply free_chain_mono; [exact Hc'|]. intros i n _. apply Hvw.
    + intros i [Hi|Hi]%elem_of_union; [apply elem_of_singleton in Hi as ->; split; [done|unfold tx_next in *; cbn; lia]|].
      apply Ha in Hi as [? ?]. split; [set_solver|done].
    + intros i [Hi Hne]%elem_of_difference. apply Hf in Hi. set_solver.
Qed.

Lemma free_page_ok t base F id :
  pool t base F → 0 < id < tx_next t → id ≠ root_page_id (next_header t) → id ∉ F →
  ∃ t', free_page t id = Ok t' ∧ pool t' base (id :: F) ∧ tx_next t' = tx_next t ∧
    root_page_id (next_header t') = root_page_id (next_header t) ∧
    ∀ i n, i ≠ id → view t base i n → view t' base i n.
Proof.
  intros P Hid Hroot HF. pose proof P as [Hc Hnd Ha Hf Hb Hib]. unfold free_page.
  replace ((id =? 0) || (id =? root_page_id (next_header t)) || (tx_next t <=? id)) with false by lia.
  rewrite bool_decide_false by (intros Hi; by apply Hf in Hi). cbv zeta.
  assert (is_u64 (free_page_head (next_header t)) ∧
    (free_page_head (next_header t) = 0 ∨ free_page_head (next_header t) < tx_next t ∧ free_page_head (next_header t) ≠ id))
    as [Hu Hh].
  { clear -Hc HF Hb. destruct Hc as [|id' next F' Hv Hc']; [unfold fits; lia|].
    pose proof (view_range _ _ _ _ Hv). unfold fits. split; [lia|]. right. split; [lia|set_solver]. }
  set (t1 := with_sets t (allocated_pages t ∖ {[id]}) ({[id]} ∪ freed_pages t)).
  change (tx_next t1) with (tx_next t). change (next_header t1) with (next_header t).
  destruct (free_page_stores id (tx_next t) (free_page_head (next_header t)) Hu ltac:(lia) ltac:(lia) Hh)
    as (page & E & S). rewrite E.
  rewrite bind_ok. unfold write_page.
  replace ((id =? 0) || (tx_next (with_next_header t1 (header_with_free (next_header t) id)) <=? id)) with false
    by (cbn; unfold tx_next in *; cbn; lia).
  eexists. split; [reflexivity|].
  assert (∀ i n, i ≠ id → view t base i n →
    view (with_dirty (with_next_header t1 (header_with_free (next_header t) id)) id page) base i n) as Hvw.
  { intros i n Hi V. apply view_other; [done|]. eapply view_grow; [..|exact V]; done. }
  split_and!; [|done|done|exact Hvw].
  constructor; cbn.
  - econstructor; [|eapply free_chain_mono; [exact Hc|]; intros i n Hi; apply Hvw; by intros ->].
    apply view_written; [cbn; unfold tx_next in *; cbn; lia|exact S].
  - by constructor.
  - intros i [Hi Hne]%elem_of_difference. apply Ha in Hi as [? ?]. split; [|done].
    rewrite not_elem_of_cons. rewrite elem_of_singleton in Hne. done.
  - intros i [Hi|Hi]%elem_of_union; [apply elem_of_singleton in Hi as ->; by left|]. right. by apply Hf.
  - exact Hb.
  - apply (in_bounds_written (with_next_header t1 (header_with_free (next_header t) id))); [exact Hib|exact Hid].
Qed.
End Overlay.
