(* ===== verification/BtreeMutation.v ===== *)
(** What the mutations of a write transaction do to the nodes its pages hold:
    a leaf takes a cell or splits in two, an internal page takes a promoted
    separator or splits, and the root grows. *)

From stdpp Require Import gmap.
From S2P Require Import Prelude BtreeFormat BtreeCell BtreePage BtreeSplit BtreeTransaction BtreeNode BtreeOverlay.

Lemma spliced_insert {A} i (x : A) l : (i < length l)%nat → spliced i true x l = <[i := x]> l.
Proof.
  intros Hi. destruct (lookup_lt_is_Some_2 l i Hi) as [y Hy]. unfold spliced.
  rewrite <- (take_drop_middle l i y Hy) at 3. rewrite insert_app_r_alt by (rewrite length_take; lia).
  rewrite length_take, Nat.min_l, Nat.sub_diag by lia. done.
Qed.

Lemma weight_spliced i replace (x : list byte) l :
  weight (spliced i replace x l) ≤ weight l + SLOT_LEN + len x.
Proof.
  unfold spliced. rewrite weight_app, weight_cons. pose proof (weight_split i l).
  destruct replace; [|lia]. pose proof (weight_split 1 (drop i l)) as H1. rewrite drop_drop in H1.
  replace (i + 1)%nat with (S i) in H1 by lia. pose proof (weight_nonneg (take 1 (drop i l))). lia.
Qed.

Lemma length_spliced {A} i replace (x : A) l :
  (i ≤ length l)%nat → (replace = true → (i < length l)%nat) →
  length (spliced i replace x l) = (length l + (if replace then 0 else 1))%nat.
Proof.
  intros Hi Hr. unfold spliced. rewrite length_app, length_take. cbn [length]. rewrite length_drop.
  destruct replace; [specialize (Hr eq_refl)|]; lia.
Qed.

(** The size of a leaf entry and of a list of them, slots included. *)
Definition entry_size (e : LeafCellRef) : Z :=
  LEAF_CELL_PREFIX_LEN + len (leaf_key_bytes e) + len (inline_bytes (leaf_value e)).

Definition leaf_weight (es : list LeafCellRef) : Z := foldr (λ e w, SLOT_LEN + entry_size e + w) 0 es.

Lemma leaf_weight_app es es' : leaf_weight (es ++ es') = leaf_weight es + leaf_weight es'.
Proof.
  induction es as [|e es IH]; [done|].
  change (SLOT_LEN + entry_size e + leaf_weight (es ++ es') = SLOT_LEN + entry_size e + leaf_weight es + leaf_weight es').
  lia.
Qed.

Section Mutation.
Context {CK : Checksum}.

Lemma leaf_decode_len raw p n e : leaf_cell_ref_decode raw p n = Ok e → len raw = entry_size e.
Proof.
  intros D. destruct (leaf_value_decode_inv _ _ _ _ D) as [W E].
  destruct (encode_leaf_value_inv _ _ _ _ _ W E) as (prefix & -> & L & _). unfold entry_size.
  rewrite !len_app, (lp_len _ _ L). lia.
Qed.

Lemma leaf_weight_raws raws es id m :
  Forall2 (λ raw e, leaf_cell_ref_decode raw id m = Ok e) raws es → weight raws = leaf_weight es.
Proof.
  induction 1 as [|raw e raws es D _ IH]; [done|]. rewrite weight_cons, IH, (leaf_decode_len _ _ _ _ D). done.
Qed.

(** A step that takes the pages [fresh] from the pool [F] and the end of the
    file and leaves the pool [F']. *)
Record takes (t t' : WriteTransaction) (base : list byte) (F F' fresh : list Z) : Prop := {
  tk_pool : pool t' base F';
  tk_root : root_page_id (next_header t') = root_page_id (next_header t);
  tk_next : tx_next t ≤ tx_next t' ≤ tx_next t + len fresh;
  tk_pages : fresh ++ F' ≡ₚ F ++ seqZ (tx_next t) (tx_next t' - tx_next t);
}.

Lemma takes_nothing t t' base F :
  pool t' base F → next_header t' = next_header t → takes t t' base F F [].
Proof.
  intros P Hh. assert (tx_next t' = tx_next t) as Hn by (unfold tx_next; by rewrite Hh).
  constructor; [done|by rewrite Hh|rewrite len_nil; lia|].
  rewrite Hn, Z.sub_diag. by rewrite seqZ_nil, app_nil_r by lia.
Qed.

Lemma takes_trans t t' t'' base F F' F'' fresh fresh' :
  takes t t' base F F' fresh → takes t' t'' base F' F'' fresh' → takes t t'' base F F'' (fresh ++ fresh').
Proof.
  intros [P1 R1 N1 T1] [P2 R2 N2 T2]. constructor; [done|congruence|rewrite len_app; lia|].
  rewrite <- app_assoc, T2, app_assoc, T1, <- app_assoc. apply Permutation_app_head.
  pose proof (seqZ_app (tx_next t) (tx_next t' - tx_next t) (tx_next t'' - tx_next t') ltac:(lia) ltac:(lia)) as E.
  replace (tx_next t + (tx_next t' - tx_next t)) with (tx_next t') in E by lia. rewrite <- E.
  by replace (tx_next t' - tx_next t + (tx_next t'' - tx_next t')) with (tx_next t'' - tx_next t) by lia.
Qed.

Lemma allocated_takes t t' base F F' id : allocated_from t t' base F F' id → takes t t' base F F' [id].
Proof.
  intros [P _ R I N T]. constructor; [done|done|change (len [id]) with 1; lia|].
  destruct T as [[<- Hn] | (-> & -> & -> & Hn)]; rewrite Hn.
  - rewrite Z.sub_diag, seqZ_nil, app_nil_r by lia. done.
  - replace (tx_next t + 1 - tx_next t) with 1 by lia. done.
Qed.

(** The new page of an allocation shows up nowhere before it is written. *)
Lemma allocated_fresh t t' base F F' id i n :
  allocated_from t t' base F F' id → view t base i n → i ∉ F → i ≠ id.
Proof.
  intros [_ _ _ _ _ T] V HF ->. apply view_range in V.
  destruct T as [[<- Hn] | (_ & _ & -> & Hn)]; [set_solver|lia].
Qed.

Lemma takes_written t t' base F F' fresh id bytes :
  takes t t' base F F' fresh → id ∉ F' → 0 < id < tx_next t' → takes t (with_dirty t' id bytes) base F F' fresh.
Proof. intros [P R N T] Hi Hr. constructor; [by apply pool_written|done..]. Qed.

(** Links to pages of the pool would dangle. *)
Definition refs_kept (F : list Z) (rs : list Z) : Prop := Forall (λ r, r ∉ F) rs.

Lemma allocated_not_ref t t' base F F' id rs :
  allocated_from t t' base F F' id → refs_kept F rs → Forall (below (tx_next t)) rs → Forall (λ r, r ≠ id) rs.
Proof.
  intros [_ _ _ _ _ T] Hk Hb. apply Forall_forall. intros r Hr ->.
  unfold refs_kept in Hk. rewrite Forall_forall in Hk, Hb. specialize (Hk _ Hr). specialize (Hb _ Hr).
  unfold below in Hb. destruct T as [[<- Hn] | (_ & _ & -> & Hn)]; [set_solver|lia].
Qed.

(** ** Relinking the right neighbour of a split leaf *)

Lemma repair_ok t base r rr lold res nl :
  view t base r (NLeaf lold rr res) → 0 < nl < tx_next t → tx_next t < 2 ^ 63 → nl ≠ r →
  ∃ bytes, repair_right_leaf_backlink t base r nl = Ok (with_dirty t r bytes) ∧
    view (with_dirty t r bytes) base r (NLeaf nl rr res).
Proof.
  intros V Hnl Hb Hne. pose proof (view_range _ _ _ _ V) as Hr.
  destruct (view_open _ _ _ _ V) as (bytes & p & Ep & Eo & N & _ & Vp & Hpb & Hpi & Hpn).
  unfold repair_right_leaf_backlink. replace (r =? 0) with false by lia.
  destruct (page_mut_ok _ _ _ _ Ep) as (t1 & Em & Hd). rewrite Em, bind_ok. cbn [fst snd].
  rewrite Eo, bind_ok. cbv zeta. pose proof N as (Ht & Hl & Hrr & _). rewrite bool_decide_true by done. cbn [negb].
  rewrite <- Hl, <- Hrr in N.
  destruct (relink_leaf p nl res Vp N) as (bytes' & Ee & S); [unfold fits; lia|rewrite Hpn, Hpi; lia|].
  rewrite Hpb, Hpi, Hpn in *. rewrite Ee, bind_ok. exists bytes'. rewrite Hd. split; [done|].
  apply view_written; [lia|]. by rewrite Hrr in S.
Qed.

(** ** Mutating a leaf *)

(** The outcome of a leaf that splits. *)
Record leaf_split (t t' : WriteTransaction) (base : list byte) (F : list Z) (lf l r : Z)
    (es : list LeafCellRef) (pr : Promotion) : Prop := {
  ls_outcome : ∃ nl F' b e,
    takes t t' base F F' [nl] ∧ (0 < b < length es)%nat ∧ es !! b = Some e ∧
    pr = {| promotion_key := leaf_key_bytes e; promotion_right_child := nl |} ∧
    view t' base lf (NLeaf l nl (take b es)) ∧ view t' base nl (NLeaf lf r (drop b es)) ∧
    (∀ rr lold res, view t base r (NLeaf lold rr res) → view t' base r (NLeaf nl rr res)) ∧
    (∀ i n, i ≠ lf → i ≠ r → i ∉ F → view t base i n → view t' base i n);
}.

(** The two pages of a split leaf. *)
Lemma leaf_split_pages t t1 base F F' nl lf l r raws new :
  allocated_from t t1 base F F' nl → 0 < lf < tx_next t → lf ≠ nl →
  is_u64 l → is_u64 r → (l = 0 ∨ l < tx_next t ∧ l ≠ lf) → (r = 0 ∨ r < tx_next t ∧ r ≠ nl) →
  Forall2 (λ raw e, leaf_cell_ref_decode raw lf (tx_next t) = Ok e) raws new →
  refs_kept F (concat (map (λ e, value_refs (leaf_value e)) new)) →
  PAGE_SIZE < PAGE_HEADER_LEN + weight raws → PAGE_HEADER_LEN + weight raws ≤ PAGE_SIZE + MAX_CELL_FOOTPRINT →
  ∃ b left_page right_page first sep,
    choose_leaf_split raws = Ok (Z.of_nat b) ∧ (0 < b < length new)%nat ∧
    leaf_page lf l nl (take b raws) = Ok left_page ∧
    page_stores left_page lf (tx_next t1) (NLeaf l nl (take b new)) ∧
    leaf_page nl lf r (drop b raws) = Ok right_page ∧
    page_stores right_page nl (tx_next t1) (NLeaf lf r (drop b new)) ∧
    head (drop b raws) = Some first ∧ leaf_cell_ref_decode first nl (tx_next t1) = Ok sep ∧ new !! b = Some sep.
Proof.
  intros A Hlf Hne Hlu Hru Hl Hr Hd Hk Hlo Hhi. pose proof A as [[_ _ _ _ Hb _] _ _ Hnl Hn _].
  pose proof (leaf_cells_sizes _ _ _ _ Hd) as [_ Ha]. pose proof (leaf_cells_refs _ _ _ _ Hd) as Hrf.
  destruct (choose_leaf_split_ok raws Ha Hlo Hhi) as (z & Ez & Hz & [Hfl Hfr] & _).
  pose proof (Forall2_length _ _ _ Hd) as Hlen. unfold len in Hz.
  exists (Z.to_nat z). rewrite Z2Nat.id by lia.
  assert (Forall2 (λ raw e, leaf_cell_ref_decode raw lf (tx_next t1) = Ok e) raws new) as Hd1.
  { apply (leaf_cells_move _ _ _ _ _ _ Hd). eapply Forall_impl; [exact Hrf|]. cbn. lia. }
  assert (Forall2 (λ raw e, leaf_cell_ref_decode raw nl (tx_next t1) = Ok e) raws new) as Hd2.
  { apply (leaf_cells_move _ _ _ _ _ _ Hd).
    assert (Forall (below (tx_next t)) (concat (map (λ e, value_refs (leaf_value e)) new))) as Hbl
      by (eapply Forall_impl; [exact Hrf|]; cbn; unfold below; lia).
    pose proof (allocated_not_ref _ _ _ _ _ _ _ A Hk Hbl) as Hnr.
    eapply Forall_impl; [exact (proj2 (Forall_and _ _) (conj Hnr Hbl))|]. cbn. unfold below. lia. }
  destruct (leaf_page_ok lf l nl (take (Z.to_nat z) raws) (take (Z.to_nat z) new) (tx_next t1))
    as (lp & El & Sl); [done|unfold fits; lia|lia..|by apply Forall2_take|done|].
  destruct (leaf_page_ok nl lf r (drop (Z.to_nat z) raws) (drop (Z.to_nat z) new) (tx_next t1))
    as (rp & Er & Sr); [unfold fits; lia|done|lia..|by apply Forall2_drop|done|].
  destruct (lookup_lt_is_Some_2 raws (Z.to_nat z)) as [first Hf]; [lia|].
  destruct (Forall2_lookup_l _ _ _ _ _ Hd2 Hf) as (sep & Hs & D).
  exists lp, rp, first, sep. split_and!; try done; try lia. by rewrite (drop_S _ _ _ Hf).
Qed.

(** What is known of a leaf before it is mutated. *)
Record mutable_leaf (t : WriteTransaction) (base : list byte) (F : list Z) (lf l r : Z)
    (es : list LeafCellRef) : Prop := {
  ml_pool : pool t base F;
  ml_view : view t base lf (NLeaf l r es);
  ml_leaf : lf ∉ F;
  ml_right : r ∉ F;
  ml_neighbour : r ≠ 0 → ∃ lold rr res, view t base r (NLeaf lold rr res);
  ml_room : tx_next t + 1 < 2 ^ 63;
}.

Lemma view_leaf_links t base lf l r es :
  view t base lf (NLeaf l r es) →
  is_u64 l ∧ is_u64 r ∧ (l = 0 ∨ l < tx_next t ∧ l ≠ lf) ∧ (r = 0 ∨ r < tx_next t ∧ r ≠ lf).
Proof.
  intros (_ & bytes & _ & S). pose proof (page_stores_refs _ _ _ _ S) as H. cbn [node_refs] in H.
  rewrite !Forall_cons in H. tauto.
Qed.

Lemma split_writes t t1 base F F' nl lf l r es new b left_page right_page pr e :
  mutable_leaf t base F lf l r es → allocated_from t t1 base F F' nl →
  (0 < b < length new)%nat → new !! b = Some e →
  pr = {| promotion_key := leaf_key_bytes e; promotion_right_child := nl |} →
  page_stores left_page lf (tx_next t1) (NLeaf l nl (take b new)) →
  page_stores right_page nl (tx_next t1) (NLeaf lf r (drop b new)) →
  ∃ t', (t ← write_page t1 lf left_page; t ← write_page t nl right_page;
         t ← repair_right_leaf_backlink t base r nl; Ok (Some pr, t)) = Ok (Some pr, t') ∧
    leaf_split t t' base F lf l r new pr.
Proof.
  intros [P V Hlf HrF Hnb Hroom] A Hb He Hpr Sl Sr. pose proof (view_range _ _ _ _ V) as Hlr.
  pose proof (allocated_fresh _ _ _ _ _ _ _ _ A V Hlf) as Hne. pose proof (allocated_takes _ _ _ _ _ _ A) as T.
  pose proof A as [[_ _ _ _ Hbd _] Hvw _ Hnl Hn Htake]. destruct (view_leaf_links _ _ _ _ _ _ V) as (_ & Hru & _ & Hrr).
  rewrite write_page_ok, bind_ok by lia. rewrite write_page_ok, bind_ok by done.
  set (t2 := with_dirty (with_dirty t1 lf left_page) nl right_page).
  assert (lf ∉ F' ∧ nl ∉ F' ∧ r ∉ F') as (HlF & HnF & HrF').
  { destruct Htake as [[<- _] | (-> & -> & _)]; [|split_and!; apply not_elem_of_nil].
    destruct P as [_ Hnd _ _ _ _]. apply NoDup_cons in Hnd as [? _].
    rewrite not_elem_of_cons in *. tauto. }
  assert (r ≠ 0 → r ≠ nl) as Hrn.
  { intros Hr0. destruct (Hnb Hr0) as (? & ? & ? & Vr). exact (allocated_fresh _ _ _ _ _ _ _ _ A Vr HrF). }
  assert (∀ i n, i ≠ lf → i ≠ nl → view t base i n → view t2 base i n) as Hold.
  { intros i n H1 H2 Vi. apply view_other; [done|]. apply view_other; [done|]. by apply Hvw. }
  assert (view t2 base lf (NLeaf l nl (take b new))) as Vl.
  { apply view_other; [done|]. apply view_written; [lia|done]. }
  assert (view t2 base nl (NLeaf lf r (drop b new))) as Vn by (apply view_written; done).
  assert (takes t t2 base F F' [nl]) as T2
    by (apply takes_written; [apply takes_written; [done|done|lia]|done|exact Hnl]).
  assert (∀ i n, i ∉ F → view t base i n → i ≠ nl) as Hfresh.
  { intros i n HiF Vi. exact (allocated_fresh _ _ _ _ _ _ _ _ A Vi HiF). }
  destruct (decide (r = 0)) as [Hr0|Hr0].
  - unfold repair_right_leaf_backlink. replace (r =? 0) with true by lia. rewrite bind_ok.
    exists t2. split; [done|]. constructor. exists nl, F', b, e. split_and!; try done; try lia.
    + intros rr lold res Vr. apply view_range in Vr. lia.
    + intros i n H1 _ HiF Vi. apply Hold; [done|by eapply Hfresh|done].
  - destruct (Hnb Hr0) as (lold & rr & res & Vr). specialize (Hrn Hr0).
    assert (tx_next t2 = tx_next t1) as Hn2 by done.
    destruct (repair_ok t2 base r rr lold res nl) as (bytes & E & Vr'); [by apply Hold; [lia|..]|lia..|].
    rewrite E, bind_ok. eexists. split; [reflexivity|]. constructor. exists nl, F', b, e.
    split_and!; try done; try lia.
    + apply takes_written; [done|done|pose proof (view_range _ _ _ _ Vr); lia].
    + apply view_other; [lia|done].
    + apply view_other; [lia|done].
    + intros rr' lold' res' Vr2. pose proof (view_inj _ _ _ _ _ Vr Vr2) as [= <- <- <-]. done.
    + intros i n H1 H2 HiF Vi. apply view_other; [done|]. apply Hold; [done|by eapply Hfresh|done].
Qed.

(** A leaf page and the raw cells behind its entries. *)
Lemma leaf_raws t base lf l r es :
  view t base lf (NLeaf l r es) →
  ∃ bytes p raws, tx_page t base lf = Ok bytes ∧ page_open bytes lf (tx_next t) = Ok p ∧
    tx_open t base lf = Ok p ∧ page_valid p ∧ sp_page_id p = lf ∧ sp_next_page_id p = tx_next t ∧
    page_type (sp_header p) = Leaf ∧ left (sp_header p) = l ∧ right (sp_header p) = r ∧
    cells p = map Ok raws ∧ cell_count (sp_header p) = len es ∧
    Forall2 (λ raw e, leaf_cell_ref_decode raw lf (tx_next t) = Ok e) raws es ∧
    (∀ i raw, raws !! i = Some raw → cell p (Z.of_nat i) = Ok raw) ∧
    PAGE_HEADER_LEN + weight raws ≤ PAGE_SIZE.
Proof.
  intros V. destruct (view_open _ _ _ _ V) as (bytes & p & Ep & Eo & N & Et & Vp & Hpb & Hpi & Hpn).
  destruct N as (Ht & Hl & Hr & raws & Hc & Hd). rewrite Hpi, Hpn in Hd.
  destruct (opened_cells p 32 raws Vp ltac:(by rewrite Ht) Hc) as (Hn & Hcell & Hw).
  pose proof (Forall2_length _ _ _ Hd). exists bytes, p, raws. split_and!; try done. unfold len in *. lia.
Qed.

(** The outcome of [mutate_leaf]. *)
Definition leaf_outcome (t t' : WriteTransaction) (base : list byte) (F : list Z) (lf l r : Z)
    (es : list LeafCellRef) (o : option Promotion) : Prop :=
  match o with
  | None =>
      takes t t' base F F [] ∧ view t' base lf (NLeaf l r es) ∧
      ∀ i n, i ≠ lf → view t base i n → view t' base i n
  | Some pr => leaf_split t t' base F lf l r es pr
  end.

Lemma leaf_kept t base F lf l r es new bytes :
  mutable_leaf t base F lf l r es → page_stores bytes lf (tx_next t) (NLeaf l r new) →
  leaf_outcome t (with_dirty t lf bytes) base F lf l r new None.
Proof.
  intros [P V Hlf _ _ _] S. split_and!.
  - apply takes_nothing; [apply pool_written; [done|done|by eapply view_range]|done].
  - apply view_written; [by eapply view_range|done].
  - intros i n Hi Vi. by apply view_other.
Qed.

Lemma split_leaf_ok t base F lf p es raws new :
  mutable_leaf t base F lf (left (sp_header p)) (right (sp_header p)) es →
  Forall2 (λ raw e, leaf_cell_ref_decode raw lf (tx_next t) = Ok e) raws new →
  refs_kept F (concat (map (λ e, value_refs (leaf_value e)) new)) →
  PAGE_SIZE < PAGE_HEADER_LEN + weight raws → PAGE_HEADER_LEN + weight raws ≤ PAGE_SIZE + MAX_CELL_FOOTPRINT →
  ∃ o t', split_leaf t base lf p raws = Ok (o, t') ∧
    leaf_outcome t t' base F lf (left (sp_header p)) (right (sp_header p)) new o.
Proof.
  intros M Hd Hk Hlo Hhi. pose proof M as [P V Hlf HrF Hnb Hroom]. unfold split_leaf.
  destruct (allocate_page_ok t base F P Hroom) as (nl & t2 & F' & Ea & A). rewrite Ea, bind_ok.
  pose proof (view_range _ _ _ _ V) as Hrg. destruct (view_leaf_links _ _ _ _ _ _ V) as (Hlu & Hru & Hll & Hrl).
  assert (right (sp_header p) = 0 ∨ right (sp_header p) < tx_next t ∧ right (sp_header p) ≠ nl) as Hr'.
  { destruct (decide (right (sp_header p) = 0)) as [|Hr0]; [by left|]. right. destruct (Hnb Hr0) as (? & ? & ? & Vr).
    pose proof (view_range _ _ _ _ Vr). split; [lia|]. exact (allocated_fresh _ _ _ _ _ _ _ _ A Vr HrF). }
  destruct (leaf_split_pages t t2 base F F' nl lf _ _ raws new A Hrg
    (allocated_fresh _ _ _ _ _ _ _ _ A V Hlf) Hlu Hru Hll Hr' Hd Hk Hlo Hhi)
    as (b & lp & rp & first & sep & Eb & Hb & El & Sl & Er & Sr & Ef & Ds & Hsep).
  cbn [fst snd]. cbv zeta. rewrite Eb, bind_ok, Nat2Z.id, El, bind_ok, Er, bind_ok, Ef.
  cbn [ok_or]. rewrite bind_ok, Ds, bind_ok.
  destruct (split_writes t t2 base F F' nl lf _ _ es new b lp rp _ sep M A Hb Hsep eq_refl Sl Sr) as (t' & E & L).
  rewrite E. do 2 eexists. split; [reflexivity|done].
Qed.

Lemma mutate_leaf_ok t base F lf l r es i replace raw e :
  mutable_leaf t base F lf l r es → (i ≤ length es)%nat → (replace = true → (i < length es)%nat) →
  leaf_cell_ref_decode raw lf (tx_next t) = Ok e →
  refs_kept F (concat (map (λ e, value_refs (leaf_value e)) (spliced i replace e es))) →
  ∃ o t', mutate_leaf t base lf (Z.of_nat i) replace raw = Ok (o, t') ∧
    leaf_outcome t t' base F lf l r (spliced i replace e es) o ∧
    (PAGE_HEADER_LEN + leaf_weight (spliced i replace e es) ≤ PAGE_SIZE → o = None).
Proof.
  intros M Hi Hrep D Hke. pose proof M as [P V Hlf HrF Hnb Hroom].
  destruct (leaf_raws _ _ _ _ _ _ V) as
    (bytes & p & raws & Ep & Eo & _ & Vp & Hpi & Hpn & Ht & Hl & Hr & Hc & Hcnt & Hd & Hcell & Hw).
  pose proof (Forall2_length _ _ _ Hd) as Hlen. destruct (page_mut_ok _ _ _ _ Ep) as (t1 & Em & Hwd).
  unfold mutate_leaf, page_copy. rewrite Ep, bind_ok, Eo, bind_ok, bool_decide_true by done. cbn [negb]. cbv zeta.
  rewrite Hcnt. unfold len in *.
  replace ((replace && (Z.of_nat (length es) <=? Z.of_nat i)) || (negb replace && (Z.of_nat (length es) <? Z.of_nat i)))
    with false by (destruct replace; [specialize (Hrep eq_refl)|]; cbn; lia).
  assert (∃ same : bool, (if replace then c ← cell p (Z.of_nat i); Ok (len c =? len raw) else Ok false) = Ok same ∧
    (same = true → ∃ old, replace = true ∧ raws !! i = Some old ∧ len raw = len old)) as (same & Es & Hsame).
  { destruct replace; [|by exists false]. specialize (Hrep eq_refl).
    destruct (lookup_lt_is_Some_2 raws i) as [old Ho]; [lia|]. rewrite (Hcell _ _ Ho), bind_ok.
    eexists. split; [reflexivity|]. intros Hs. exists old. split_and!; [done..|lia]. }
  unfold len in Es. rewrite Es, bind_ok. destruct same.
  - destruct (Hsame eq_refl) as (old & -> & Ho & Hlo). rewrite Em, bind_ok. cbn [fst snd]. rewrite Eo, bind_ok.
    rewrite <- Hpi, <- Hpn in D, Hd.
    destruct (replace_leaf p raws es i old raw e Vp Ht Hc Hd Ho Hlo D) as (p' & E & S).
    rewrite Hpi, Hpn, Hl, Hr in S. rewrite E, bind_ok, Hwd. do 2 eexists. split; [reflexivity|].
    rewrite spliced_insert by lia. split; [by eapply leaf_kept|done].
  - rewrite (cells_with_ok p raws i replace raw), bind_ok;
      [|unfold len; lia|done|lia|intros Hx; specialize (Hrep Hx); lia].
    pose proof (Forall2_spliced _ i replace _ _ _ _ Hd D) as Hd'.
    pose proof (leaf_cells_sizes _ _ _ _ Hd') as [_ Ha].
    pose proof (leaf_decode_size _ _ _ _ D) as [_ Hadm]. unfold admissible in Hadm.
    pose proof (weight_spliced i replace raw raws) as Hws.
    unfold PAGE_HEADER_LEN, PAGE_SIZE, MAX_CELL_FOOTPRINT in *.
    rewrite used_leaf_bytes_ok, bind_ok by (done || lia).
    destruct (Z.leb_spec (PAGE_HEADER_LEN + weight (spliced i replace raw raws)) 4096) as [Hfit|Hfit].
    + rewrite Em, bind_ok. cbn [fst snd]. rewrite Eo, bind_ok. rewrite <- Hpi, <- Hpn in Hd'.
      destruct (rebuild_leaf p _ _ Vp Ht Hd' Hfit) as (p' & E & S). rewrite Hpi, Hpn, Hl, Hr in S.
      rewrite E, bind_ok, Hwd. do 2 eexists. split; [reflexivity|]. split; [by eapply leaf_kept|done].
    + rewrite <- Hl, <- Hr.
      destruct (split_leaf_ok t base F lf p es (spliced i replace raw raws) (spliced i replace e es)) as (o & t' & E & O);
        [by rewrite Hl, Hr|done|done|done|unfold PAGE_HEADER_LEN, PAGE_SIZE, MAX_CELL_FOOTPRINT; lia|].
      rewrite E. exists o, t'. split_and!; [done|done|]. intros Hfit'.
      rewrite <- (leaf_weight_raws _ _ _ _ Hd') in Hfit'. unfold PAGE_HEADER_LEN, PAGE_SIZE in *. lia.
Qed.

(** ** Promotions into internal pages *)

Lemma internal_raws t base id lm cs :
  view t base id (NInternal lm cs) →
  ∃ bytes p raws, tx_page t base id = Ok bytes ∧ page_open bytes id (tx_next t) = Ok p ∧
    tx_open t base id = Ok p ∧ page_valid p ∧ sp_bytes p = bytes ∧ sp_page_id p = id ∧ sp_next_page_id p = tx_next t ∧
    page_type (sp_header p) = Internal ∧
    internal_preamble_decode bytes id (tx_next t) = Ok {| leftmost_child := lm |} ∧
    cell_count (sp_header p) = len cs ∧
    Forall2 (λ raw c, internal_cell_ref_decode raw id (tx_next t) = Ok c) raws cs ∧
    (∀ i raw, raws !! i = Some raw → cell p (Z.of_nat i) = Ok raw) ∧
    PAGE_HEADER_LEN + INTERNAL_PREAMBLE_LEN + weight raws ≤ PAGE_SIZE.
Proof.
  intros V. destruct (view_open _ _ _ _ V) as (bytes & p & Ep & Eo & N & Et & Vp & Hpb & Hpi & Hpn).
  destruct N as (Ht & Hpre & raws & Hc & Hd). rewrite Hpi, Hpn in Hd. rewrite Hpi, Hpn, Hpb in Hpre.
  destruct (opened_cells p 40 raws Vp ltac:(by rewrite Ht) Hc) as (Hn & Hcell & Hw).
  pose proof (Forall2_length _ _ _ Hd). exists bytes, p, raws. split_and!; try done. unfold len in *. lia.
Qed.

Record mutable_internal (t : WriteTransaction) (base : list byte) (F : list Z) (id lm : Z)
    (cs : list InternalCellRef) : Prop := {
  mi_pool : pool t base F;
  mi_view : view t base id (NInternal lm cs);
  mi_page : id ∉ F;
  mi_room : tx_next t + 1 < 2 ^ 63;
  mi_refs : refs_kept F (lm :: map internal_right_child cs);
}.

Definition internal_outcome (t t' : WriteTransaction) (base : list byte) (F : list Z) (id lm : Z)
    (cs : list InternalCellRef) (o : option Promotion) : Prop :=
  match o with
  | None =>
      takes t t' base F F [] ∧ view t' base id (NInternal lm cs) ∧
      ∀ i n, i ≠ id → view t base i n → view t' base i n
  | Some pr =>
      ∃ nr F' m c, takes t t' base F F' [nr] ∧ cs !! m = Some c ∧ (0 < m)%nat ∧ (S m < length cs)%nat ∧
        pr = {| promotion_key := internal_key_bytes c; promotion_right_child := nr |} ∧
        view t' base id (NInternal lm (take m cs)) ∧
        view t' base nr (NInternal (internal_right_child c) (drop (S m) cs)) ∧
        ∀ i n, i ≠ id → i ∉ F → view t base i n → view t' base i n
  end.

Lemma split_internal_ok t base F id lm cs new raws bytes :
  mutable_internal t base F id lm cs →
  internal_preamble_decode bytes id (tx_next t) = Ok {| leftmost_child := lm |} →
  Forall2 (λ raw c, internal_cell_ref_decode raw id (tx_next t) = Ok c) raws new →
  refs_kept F (map internal_right_child new) →
  PAGE_SIZE < PAGE_HEADER_LEN + INTERNAL_PREAMBLE_LEN + weight raws →
  PAGE_HEADER_LEN + INTERNAL_PREAMBLE_LEN + weight raws ≤ PAGE_SIZE + MAX_INTERNAL_FOOTPRINT →
  ∃ o t', split_internal t base id bytes raws = Ok (o, t') ∧ internal_outcome t t' base F id lm new o.
Proof.
  intros [P V Hid Hroom Hk] Hpre Hd Hkn Hlo Hhi. unfold split_internal.
  destruct (allocate_page_ok t base F P Hroom) as (nr & t1 & F' & Ea & A). rewrite Ea, bind_ok. cbn [fst snd]. cbv zeta.
  pose proof A as [[_ _ _ _ Hbd _] Hvw _ Hnr Hn Htake]. pose proof (view_range _ _ _ _ V) as Hrg.
  pose proof (allocated_fresh _ _ _ _ _ _ _ _ A V Hid) as Hne. pose proof (internal_cells_refs _ _ _ _ Hd) as Hrf.
  assert (Forall (below (tx_next t)) (map internal_right_child new)) as Hbl
    by (eapply Forall_impl; [exact Hrf|]; cbn; unfold below; tauto).
  pose proof (allocated_not_ref _ _ _ _ _ _ _ A Hkn Hbl) as Hnot.
  assert (Forall2 (λ raw c, internal_cell_ref_decode raw id (tx_next t1) = Ok c) raws new) as Hd1.
  { apply (internal_cells_move _ _ _ _ _ _ Hd). eapply Forall_impl; [exact Hrf|]. cbn. lia. }
  assert (Forall2 (λ raw c, internal_cell_ref_decode raw nr (tx_next t1) = Ok c) raws new) as Hd2.
  { apply (internal_cells_move _ _ _ _ _ _ Hd).
    eapply Forall_impl; [exact (proj2 (Forall_and _ _) (conj Hnot Hbl))|]. cbn. unfold below. lia. }
  pose proof (internal_cells_sizes _ _ _ _ Hd) as [_ Ha]. pose proof (Forall2_length _ _ _ Hd) as Hlen.
  destruct (choose_internal_split_ok raws new id (tx_next t1) Hd1 Ha Hlo Hhi)
    as (m & c & Hc & Hm & HSm & Es & [Hfl Hfr] & _). rewrite Nat2Z.id in Hfl, Hfr.
  replace (m + 1)%nat with (S m) in Hfr by lia. rewrite Es, bind_ok.
  apply internal_preamble_iff in Hpre as (? & ? & ? & ? & ? & ?).
  assert (internal_preamble_decode bytes id (tx_next t1) = Ok {| leftmost_child := lm |}) as ->
    by (apply internal_preamble_iff; split_and!; try done; lia).
  rewrite bind_ok. cbn [leftmost_child left_cells right_cells right_leftmost_child promoted].
  assert (is_u64 (internal_right_child c) ∧ internal_right_child c ≠ 0 ∧ internal_right_child c < tx_next t ∧
          internal_right_child c ≠ nr) as (? & ? & ? & ?).
  { rewrite Forall_forall in Hrf, Hnot. assert (internal_right_child c ∈ map internal_right_child new) as Hin.
    { apply list_elem_of_In, in_map, list_elem_of_In. by eapply list_elem_of_lookup_2. }
    destruct (Hrf _ Hin) as (? & ? & ? & ?). specialize (Hnot _ Hin). done. }
  destruct (internal_page_ok id lm (take m raws) (take m new) (tx_next t1)) as (lp & El & Sl);
    [done|lia|lia|lia|done|lia|done|by apply Forall2_take| |done|].
  { intros E0. apply (f_equal length) in E0. rewrite length_take in E0. cbn in E0. lia. }
  destruct (internal_page_ok nr (internal_right_child c) (drop (S m) raws) (drop (S m) new) (tx_next t1))
    as (rp & Er & Sr); [done|lia|lia|lia|done|lia|done|by apply Forall2_drop| |done|].
  { intros E0. apply (f_equal length) in E0. rewrite length_drop in E0. cbn in E0. lia. }
  rewrite El, bind_ok, Er, bind_ok, write_page_ok, bind_ok by lia. rewrite write_page_ok, bind_ok by done.
  do 2 eexists. split; [reflexivity|]. exists nr, F', m, c.
  assert (id ∉ F' ∧ nr ∉ F') as [HiF HnF].
  { destruct Htake as [[<- _] | (-> & -> & _)]; [|split; apply not_elem_of_nil].
    destruct P as [_ Hnd _ _ _ _]. apply NoDup_cons in Hnd as [? _]. rewrite not_elem_of_cons in Hid. tauto. }
  split_and!; [|done|done|lia|done| | |].
  - apply takes_written; [|done|exact Hnr]. apply takes_written; [|done|lia]. by apply allocated_takes.
  - apply view_other; [done|]. apply view_written; [lia|done].
  - by apply view_written.
  - intros i n Hi HiF' Vi. apply view_other; [exact (allocated_fresh _ _ _ _ _ _ _ _ A Vi HiF')|].
    apply view_other; [done|]. by apply Hvw.
Qed.

Lemma insert_promotion_ok t base F id lm cs pos pr :
  mutable_internal t base F id lm cs → (pos ≤ length cs)%nat →
  0 < len (promotion_key pr) ≤ MAX_ENCODED_KEY_LEN →
  0 < promotion_right_child pr < tx_next t → promotion_right_child pr ≠ id → promotion_right_child pr ∉ F →
  ∃ o t', insert_internal_promotion t base id (Z.of_nat pos) pr = Ok (o, t') ∧
    internal_outcome t t' base F id lm
      (spliced pos false {| internal_key_bytes := promotion_key pr;
                            internal_right_child := promotion_right_child pr |} cs) o.
Proof.
  intros M Hpos Hkey Hch Hchid HchF. pose proof M as [P V Hid Hroom Hk].
  destruct (internal_raws _ _ _ _ _ V) as
    (bytes & p & raws & Ep & Eo & _ & Vp & Hpb & Hpi & Hpn & Ht & Hpre & Hcnt & Hd & Hcell & Hw).
  pose proof (Forall2_length _ _ _ Hd) as Hlen. destruct (page_mut_ok _ _ _ _ Ep) as (t1 & Em & Hwd).
  assert (0 < tx_next t < 2 ^ 63) as Hbd by apply P.
  unfold insert_internal_promotion, page_copy. rewrite Ep, bind_ok, Eo, bind_ok, bool_decide_true by done.
  cbn [negb]. rewrite Hcnt. unfold len in Hcnt |- *. replace (Z.of_nat (length cs) <? Z.of_nat pos) with false by lia.
  set (c := {| internal_key_bytes := promotion_key pr; internal_right_child := promotion_right_child pr |}).
  destruct (encode_internal_cell (promotion_key pr) (promotion_right_child pr) id (tx_next t)) as [raw|] eqn:Ee.
  2:{ assert (encode_internal_cell (promotion_key pr) (promotion_right_child pr) id (tx_next t) = Ok
        (internal_prefix_bytes {| icp_key_length := len (promotion_key pr); icp_right_child := promotion_right_child pr |}
         ++ promotion_key pr)) as E' by (apply encode_internal_cell_iff; split_and!; done || lia).
      congruence. }
  assert (internal_cell_ref_decode raw id (tx_next t) = Ok c) as D.
  { apply internal_decode_iff. split; [cbn; unfold fits; lia|done]. }
  rewrite bind_ok, (cells_with_ok p raws pos false raw), bind_ok; [|unfold len; lia|done|lia|done].
  pose proof (Forall2_spliced _ pos false _ _ _ _ Hd D) as Hd'.
  pose proof (internal_cells_sizes _ _ _ _ Hd') as [_ Ha].
  pose proof (internal_decode_size _ _ _ _ D) as [_ Hadm]. unfold admissible in Hadm.
  pose proof (weight_spliced pos false raw raws) as Hws.
  unfold PAGE_SIZE, PAGE_HEADER_LEN, INTERNAL_PREAMBLE_LEN, MAX_INTERNAL_FOOTPRINT, SLOT_LEN in *.
  rewrite used_internal_bytes_ok, bind_ok by (done || lia).
  destruct (Z.leb_spec (PAGE_HEADER_LEN + INTERNAL_PREAMBLE_LEN + weight (spliced pos false raw raws)) 4096) as [Hfit|Hfit].
  - rewrite Em, bind_ok. cbn [fst snd]. rewrite Eo, bind_ok. rewrite <- Hpi, <- Hpn in Hd'.
    rewrite <- Hpb, <- Hpi, <- Hpn in Hpre.
    destruct (rebuild_internal p lm _ _ Vp Ht Hpre Hd') as (p' & E & S); [|exact Hfit|].
    { unfold spliced. by destruct (take pos raws). }
    rewrite Hpi, Hpn in S. rewrite E, bind_ok, Hwd. do 2 eexists. split; [reflexivity|]. split_and!.
    + apply takes_nothing; [apply pool_written; [done|done|by eapply view_range]|done].
    + apply view_written; [by eapply view_range|done].
    + intros i n Hi Vi. by apply view_other.
  - apply split_internal_ok with (cs := cs); try done.
    + unfold refs_kept in *. apply Forall_cons in Hk as [_ Hk]. unfold spliced. rewrite map_app. cbn [map c internal_right_child].
      rewrite <- (take_drop pos cs), map_app, Forall_app in Hk. apply Forall_app. split; [tauto|]. constructor; tauto.
    + unfold PAGE_SIZE, PAGE_HEADER_LEN, INTERNAL_PREAMBLE_LEN, MAX_INTERNAL_FOOTPRINT, SLOT_LEN. lia.
Qed.
End Mutation.
