(* ===== verification/BtreeTree.v ===== *)
(** The tree a transaction holds: its leaves and internal nodes as a value, the
    order of its keys, where a key belongs, and how the tree changes when the
    leaf of a key is replaced by one or two leaves. *)

From stdpp Require Import gmap.
From S2P Require Import Prelude BtreeFormat BtreeCell BtreePage BtreeSplit BtreeTransaction BtreeNode.
From S2P Require Import BtreeOverlay BtreeMutation.

(** ** Counting page ids *)

(** Ownership of pages is a matter of counting: how often an id occurs. *)
Definition cnt (x : Z) (l : list Z) : nat := count_occ Z.eq_dec l x.

Lemma cnt_nil x : cnt x [] = 0%nat.
Proof. done. Qed.

Lemma cnt_app x l k : cnt x (l ++ k) = (cnt x l + cnt x k)%nat.
Proof. apply count_occ_app. Qed.

Lemma cnt_cons x y l : cnt x (y :: l) = (cnt x [y] + cnt x l)%nat.
Proof. change (y :: l) with ([y] ++ l). apply cnt_app. Qed.

Lemma cnt_perm l k : l ≡ₚ k ↔ ∀ x, cnt x l = cnt x k.
Proof. unfold cnt. apply Permutation_count_occ. Qed.

Lemma cnt_nodup l : NoDup l ↔ ∀ x, (cnt x l ≤ 1)%nat.
Proof. unfold cnt. rewrite NoDup_ListNoDup. apply NoDup_count_occ. Qed.

Lemma cnt_in x l : x ∈ l ↔ (0 < cnt x l)%nat.
Proof. unfold cnt. rewrite list_elem_of_In, (count_occ_In Z.eq_dec). lia. Qed.

Lemma cnt_not_in x l : x ∉ l ↔ cnt x l = 0%nat.
Proof. rewrite cnt_in. lia. Qed.

Lemma cnt_same x : cnt x [x] = 1%nat.
Proof. unfold cnt. cbn. by destruct (Z.eq_dec x x). Qed.

Lemma cnt_other x y : x ≠ y → cnt x [y] = 0%nat.
Proof. intros. unfold cnt. cbn. by destruct (Z.eq_dec y x). Qed.

(** [cnt_lia] proves facts about occurrences at a page id. *)
Ltac cnt_norm := rewrite ?cnt_app, ?cnt_nil in *.

Section Trees.
Context {CK : Checksum} {KC : KeyCodec}.

(** An entry of a leaf with its decoded key, and a separator likewise. *)
Abbreviation entry := (key * LeafCellRef)%type.
Abbreviation separator := (key * list byte)%type.

Inductive btree :=
| BLeaf (id : Z) (es : list entry)
| BNode (id : Z) (kids : list btree) (seps : list separator).

Definition root_id (T : btree) : Z := match T with BLeaf id _ | BNode id _ _ => id end.

Fixpoint leaves (T : btree) : list (Z * list entry) :=
  match T with
  | BLeaf id es => [(id, es)]
  | BNode _ kids _ => concat (map leaves kids)
  end.

(** What the pages of a tree hold, sibling links aside. *)
Inductive page_spec := PLeaf (es : list LeafCellRef) | PInternal (leftmost : Z) (cs : list InternalCellRef).

Definition node_cell (s : separator) (T : btree) : InternalCellRef :=
  {| internal_key_bytes := s.2; internal_right_child := root_id T |}.

Definition node_cells (kids : list btree) (seps : list separator) : list InternalCellRef :=
  zip_with node_cell seps (tail kids).

Definition leftmost_of (kids : list btree) : Z := match kids with [] => 0 | T :: _ => root_id T end.

Definition node_spec (kids : list btree) (seps : list separator) : page_spec :=
  PInternal (leftmost_of kids) (node_cells kids seps).

Fixpoint pages (T : btree) : list (Z * page_spec) :=
  match T with
  | BLeaf id es => [(id, PLeaf (map snd es))]
  | BNode id kids seps => (id, node_spec kids seps) :: concat (map pages kids)
  end.

Definition ids (T : btree) : list Z := map fst (pages T).

Definition holds (V : Z → node → Prop) (ps : Z * page_spec) : Prop :=
  match ps.2 with
  | PLeaf es => ∃ l r, V ps.1 (NLeaf l r es)
  | PInternal lm cs => V ps.1 (NInternal lm cs)
  end.

(** ** Order *)

Definition above (lo : option key) (k : key) : Prop := match lo with None => True | Some b => key_le b k end.
Definition strictly_above (lo : option key) (k : key) : Prop := match lo with None => True | Some b => key_lt b k end.
Definition under (hi : option key) (k : key) : Prop := match hi with None => True | Some b => key_lt k b end.

(** A separator is a serialized key that is short enough for a cell. *)
Definition sep_ok (s : separator) : Prop :=
  s.2 = key_to_vec s.1 ∧ 0 < len s.2 ≤ MAX_ENCODED_KEY_LEN.

Inductive segments (P : option key → option key → btree → Prop)
    : option key → option key → list btree → list separator → Prop :=
| seg_one lo hi T : P lo hi T → segments P lo hi [T] []
| seg_cons lo hi T s sb Ts ss :
    sep_ok (s, sb) → strictly_above lo s → under hi s → P lo (Some s) T →
    segments P (Some s) hi Ts ss → segments P lo hi (T :: Ts) ((s, sb) :: ss).

(** A leaf right of a separator starts with the key of that separator. *)
Definition starts_at (lo : option key) (es : list entry) : Prop :=
  match lo with None => True | Some s => fst <$> head es = Some s end.

(** A tree of height [h] whose keys lie in [lo, hi), with [lo] itself among
    them: every separator is the smallest key of the subtree to its right. *)
Fixpoint shaped (h : nat) (lo hi : option key) (T : btree) : Prop :=
  match h, T with
  | O, BLeaf _ es =>
      sorted_keys (map fst es) ∧
      Forall (λ e, leaf_key_bytes e.2 = key_to_vec e.1 ∧ above lo e.1 ∧ under hi e.1) es ∧ starts_at lo es
  | S h, BNode _ kids seps => seps ≠ [] ∧ segments (shaped h) lo hi kids seps
  | _, _ => False
  end.

Lemma segments_length P lo hi Ts ss : segments P lo hi Ts ss → length Ts = S (length ss).
Proof. induction 1; cbn; [done|]. by rewrite IHsegments. Qed.

Lemma strictly_above_trans lo a b : strictly_above lo a → key_lt a b → strictly_above lo b.
Proof. destruct lo as [x|]; cbn; [|done]. apply key_lt_trans. Qed.

Lemma segments_bounds P lo hi Ts ss :
  segments P lo hi Ts ss →
  Forall (λ s, sep_ok s ∧ strictly_above lo s.1 ∧ under hi s.1) ss.
Proof.
  induction 1 as [|lo hi T s sb Ts ss D Hl Hh HT Hs IH]; constructor; [done|].
  eapply Forall_impl; [exact IH|]. cbn. intros x (? & Hx & ?). split_and!; [done| |done].
  by eapply strictly_above_trans.
Qed.

Lemma segments_sorted P lo hi Ts ss : segments P lo hi Ts ss → sorted_keys (map fst ss).
Proof.
  induction 1 as [|lo hi T s sb Ts ss D Hl Hh HT Hs IH]; [done|].
  intros i j a b Hij Ha Hb. destruct j as [|j]; [lia|]. change (map fst ss !! j = Some b) in Hb.
  destruct i as [|i]; cbn in Ha.
  - simplify_eq. apply segments_bounds in Hs. rewrite list_lookup_fmap in Hb.
    apply fmap_Some in Hb as (x & Ex & ->).
    rewrite Forall_lookup in Hs. by destruct (Hs _ _ Ex) as (_ & ? & _).
  - eapply (IH i j); [lia|done|done].
Qed.

(** Cutting a sequence of children at a separator. *)
Lemma segments_cut P lo hi Ts ss m s :
  segments P lo hi Ts ss → ss !! m = Some s →
  segments P lo (Some s.1) (take (S m) Ts) (take m ss) ∧
  segments P (Some s.1) hi (drop (S m) Ts) (drop (S m) ss) ∧
  sep_ok s ∧ strictly_above lo s.1 ∧ under hi s.1.
Proof.
  intros H. revert m. induction H as [|lo hi T s' sb Ts ss D Hl Hh HT Hs IH]; intros m Hm; [done|].
  destruct m as [|m]; cbn in Hm.
  - simplify_eq. cbn. split_and!; try done. rewrite ?take_0, ?drop_0. by constructor.
  - destruct (IH m Hm) as (H1 & H2 & H3 & H4 & H5). rewrite !firstn_cons, !skipn_cons.
    split_and!; [|done|done|by eapply strictly_above_trans; [exact Hl|exact H4]|done].
    by constructor.
Qed.

(** The bounds of the child between the separators [SA] and [SB]. *)
Definition low_bound (lo : option key) (SA : list separator) : option key :=
  match last SA with Some s => Some s.1 | None => lo end.
Definition high_bound (hi : option key) (SB : list separator) : option key :=
  match head SB with Some s => Some s.1 | None => hi end.

(** Replacing one child by one or two children. *)
Lemma segments_focus P lo hi A SA c B SB :
  length A = length SA → segments P lo hi (A ++ c :: B) (SA ++ SB) →
  P (low_bound lo SA) (high_bound hi SB) c ∧
  (∀ c', P (low_bound lo SA) (high_bound hi SB) c' → segments P lo hi (A ++ c' :: B) (SA ++ SB)) ∧
  (∀ c1 s c2, sep_ok s → strictly_above (low_bound lo SA) s.1 → under (high_bound hi SB) s.1 →
     P (low_bound lo SA) (Some s.1) c1 → P (Some s.1) (high_bound hi SB) c2 →
     segments P lo hi (A ++ c1 :: c2 :: B) (SA ++ s :: SB)).
Proof.
  revert lo SA. induction A as [|a A IH]; intros lo [|s SA] Hlen H; cbn in Hlen; try done.
  - cbn [app] in *. unfold low_bound. cbn [last]. inversion H as [? ? ? HT|? ? ? s sb Ts ss D Hl Hh HT Hs]; subst;
      unfold high_bound; cbn [head]; (split_and!; [done|by constructor|]); intros c1 [s' sb'] c2 D' Hl' Hh' H1 H2;
      cbn [fst snd] in *; constructor; try done.
    + by constructor.
    + cbn in Hh'. destruct hi as [b|]; [|done]. cbn in *. by eapply key_lt_trans.
    + by constructor.
  - cbn [app] in H. inversion H as [|? ? ? s' sb Ts ss D Hl Hh HT Hs]; subst. injection Hlen as Hlen.
    destruct (IH (Some s') SA Hlen Hs) as (H1 & H2 & H3).
    assert (low_bound (Some s') SA = low_bound lo ((s', sb) :: SA)) as E.
    { unfold low_bound. destruct SA as [|x SA]; [done|]. change (last ((s', sb) :: x :: SA)) with (last (x :: SA)).
      destruct (last (x :: SA)) eqn:El; [done|]. by apply last_None in El. }
    rewrite E in *. split_and!; [done| |].
    + intros c' Hc'. cbn [app]. constructor; try done. by apply H2.
    + intros c1 s c2 D' ? ? ? ?. cbn [app]. constructor; try done. by apply H3.
Qed.

(** ** Descent *)

(** The descent for [k] from the root of a tree: the path of internal pages and
    child positions, the leaf, and the leaves before and after it. *)
Inductive descends (k : key) : btree → list (Z * Z) → Z → list entry →
    list (Z * list entry) → list (Z * list entry) → Prop :=
| desc_leaf id es : descends k (BLeaf id es) [] id es [] []
| desc_node id A c B SA SB path lf es LP LS :
    length A = length SA → Forall (λ s, key_le s.1 k) SA → Forall (λ s, key_lt k s.1) SB →
    descends k c path lf es LP LS →
    descends k (BNode id (A ++ c :: B) (SA ++ SB)) ((id, Z.of_nat (length A)) :: path) lf es
      (concat (map leaves A) ++ LP) (LS ++ concat (map leaves B)).

Lemma descends_leaves k T path lf es LP LS :
  descends k T path lf es LP LS → leaves T = LP ++ (lf, es) :: LS.
Proof.
  induction 1 as [|id A c B SA SB path lf es LP LS Hl HA HB Hd IH]; [done|].
  cbn [leaves]. rewrite map_app, concat_app. cbn [map concat]. rewrite IH, <- !app_assoc. done.
Qed.

Lemma low_bound_above lo SA k : above lo k → Forall (λ s, key_le s.1 k) SA → above (low_bound lo SA) k.
Proof.
  intros Hk HA. unfold low_bound. destruct (last SA) as [s|] eqn:E; [|done].
  apply last_Some in E as [l ->]. apply Forall_app in HA as [_ HA]. by inversion HA.
Qed.

Lemma high_bound_under hi SB k : under hi k → Forall (λ s, key_lt k s.1) SB → under (high_bound hi SB) k.
Proof. intros Hk HB. unfold high_bound. destruct SB as [|s SB]; [done|]. cbn. by apply Forall_cons in HB as [? _]. Qed.

Lemma child_position_ok t base id lm cs seps k :
  view t base id (NInternal lm cs) →
  Forall2 (λ c s, internal_key_bytes c = s.2 ∧ decode_key s.2 = Ok s.1) cs seps → sorted_keys (map fst seps) →
  ∃ p i child, tx_open t base id = Ok p ∧ page_type (sp_header p) = Internal ∧
    internal_child_position p k = Ok (Z.of_nat i, child) ∧ (i ≤ length seps)%nat ∧
    (lm :: map internal_right_child cs) !! i = Some child ∧
    Forall (λ s, key_le s.1 k) (take i seps) ∧ Forall (λ s, key_lt k s.1) (drop i seps).
Proof.
  intros V Hs Hsort. pose proof (Forall2_length _ _ _ Hs) as Hlen.
  destruct (internal_raws _ _ _ _ _ V) as
    (bytes & p & raws & _ & _ & Et & _ & Hpb & Hpi & Hpn & Ht & Hpre & Hcnt & Hd & Hcell & _).
  pose proof (Forall2_length _ _ _ Hd) as Hlen'.
  assert (internal_keys p (map fst seps)) as Hk.
  { split; [unfold len in *; rewrite length_map; lia|]. intros i k' Hi. rewrite list_lookup_fmap in Hi.
    apply fmap_Some in Hi as (s & Hsi & ->). destruct (Forall2_lookup_r _ _ _ _ _ Hs Hsi) as (c & Hci & Hkb & Dk).
    destruct (Forall2_lookup_r _ _ _ _ _ Hd Hci) as (raw & Hri & D).
    exists raw, c. rewrite Hpi, Hpn, Hkb. split_and!; [by apply Hcell|done|done]. }
  destruct (child_position_loop_ok p (map fst seps) k Hk Hsort (Z.to_nat (cell_count (sp_header p))) 0
    (cell_count (sp_header p))) as (z & Ez & Hz & Hlo & Hhi).
  { unfold len in *; lia. } { unfold len in *; rewrite length_map; lia. } { unfold len in *; lia. }
  { intros j s _ Hj. lia. }
  { intros j s Hj Hge. apply lookup_lt_Some in Hj. rewrite length_map in Hj. unfold len in *. lia. }
  unfold len in Hz. rewrite length_map in Hz.
  assert (∃ child, (lm :: map internal_right_child cs) !! Z.to_nat z = Some child) as [child Hchild].
  { apply lookup_lt_is_Some_2. cbn. rewrite length_map. lia. }
  exists p, (Z.to_nat z), child. rewrite Z2Nat.id by lia. split_and!; [done|done| |lia|done| |].
  - unfold internal_child_position. rewrite Ez, bind_ok, Hpi, Hpn, Hpb. destruct (Z.eqb_spec z 0) as [->|Hz0].
    + rewrite Hpre, bind_ok. change (Some lm = Some child) in Hchild. by injection Hchild as <-.
    + replace (Z.to_nat z) with (S (Z.to_nat (z - 1))) in Hchild by lia. cbn [lookup list_lookup] in Hchild.
      change (map internal_right_child cs !! Z.to_nat (z - 1) = Some child) in Hchild.
      rewrite list_lookup_fmap in Hchild. apply fmap_Some in Hchild as (c & Hc & ->).
      destruct (Forall2_lookup_r _ _ _ _ _ Hd Hc) as (raw & Hri & D).
      pose proof (Hcell _ _ Hri) as Ec. rewrite Z2Nat.id in Ec by lia. by rewrite Ec, bind_ok, D, bind_ok.
  - apply Forall_lookup. intros j s Hj. apply lookup_take_Some in Hj as [Hj Hlt].
    apply (Hlo j); [|lia]. by rewrite list_lookup_fmap, Hj.
  - apply Forall_lookup. intros j s Hj. rewrite lookup_drop in Hj.
    apply (Hhi (Z.to_nat z + j)%nat); [|lia]. by rewrite list_lookup_fmap, Hj.
Qed.

Lemma node_cells_keys P lo hi kids seps :
  segments P lo hi kids seps →
  Forall2 (λ c s, internal_key_bytes c = s.2 ∧ decode_key s.2 = Ok s.1) (node_cells kids seps) seps.
Proof.
  induction 1 as [|lo hi T s sb Ts ss D Hl Hh HT Hs IH]; [constructor|]. unfold node_cells. cbn [tail].
  destruct Ts as [|T' Ts]; [inversion Hs|]. cbn [zip_with].
  constructor; [|exact IH]. split; [done|]. destruct D as [D _]. cbn in D |- *. rewrite D. apply decode_encoded_key.
Qed.

Lemma node_cells_children P lo hi kids seps :
  segments P lo hi kids seps →
  leftmost_of kids :: map internal_right_child (node_cells kids seps) = map root_id kids.
Proof.
  induction 1 as [|lo hi T s sb Ts ss D Hl Hh HT Hs IH]; [done|]. unfold node_cells. cbn [tail].
  destruct Ts as [|T' Ts]; [inversion Hs|]. cbn [zip_with map node_cell internal_right_child leftmost_of].
  f_equal. exact IH.
Qed.

Lemma root_in_ids T : root_id T ∈ ids T.
Proof. destruct T; unfold ids; cbn; by left. Qed.

Lemma ids_node id kids seps : ids (BNode id kids seps) = id :: concat (map ids kids).
Proof.
  unfold ids. cbn [pages map fst]. f_equal. induction kids as [|T kids IH]; [done|].
  cbn [map concat]. by rewrite map_app, IH.
Qed.

Lemma shaped_node h lo hi id kids seps :
  shaped h lo hi (BNode id kids seps) → ∃ h', h = S h' ∧ seps ≠ [] ∧ segments (shaped h') lo hi kids seps.
Proof. destruct h as [|h]; cbn; [done|]. eauto. Qed.

Lemma pages_focus id A c B seps :
  pages (BNode id (A ++ c :: B) seps)
  = (id, node_spec (A ++ c :: B) seps) :: concat (map pages A) ++ pages c ++ concat (map pages B).
Proof. cbn [pages]. by rewrite map_app, concat_app. Qed.

Lemma ids_focus id A c B seps :
  ids (BNode id (A ++ c :: B) seps) = id :: concat (map ids A) ++ ids c ++ concat (map ids B).
Proof. rewrite ids_node, map_app, concat_app. done. Qed.

(** The descent of the transaction follows the tree. *)
Lemma locate_ok t base k h lo hi T :
  shaped h lo hi T → Forall (holds (view t base)) (pages T) → NoDup (ids T) → above lo k → under hi k →
  ∃ path lf es LP LS, descends k T path lf es LP LS ∧ length path = h ∧
    ∀ fuel acc visited, (h < fuel)%nat → (∀ i, i ∈ ids T → i ∉ visited) →
      locate_loop fuel t base k (root_id T) acc visited = Ok (lf, acc ++ path).
Proof.
  revert lo hi T. induction h as [|h IH]; intros lo hi [id es|id kids seps] HS Hst Hnd Hlo Hhi; try done.
  - exists [], id, es, [], []. split_and!; [constructor|done|]. intros [|fuel] acc visited Hf Hv; [lia|].
    cbn [locate_loop root_id]. rewrite bool_decide_false by (apply Hv, (root_in_ids (BLeaf id es))).
    inversion Hst as [|? ? Hh _]; subst. destruct Hh as (l & r & V). cbn in V.
    destruct (view_open _ _ _ _ V) as (bytes & p & _ & _ & (Ht & _) & Eo & _).
    by rewrite Eo, bind_ok, Ht, app_nil_r.
  - destruct HS as [Hne Hseg]. inversion Hst as [|? ? V Hkids]; subst. cbn in V.
    destruct (child_position_ok _ _ _ _ _ _ k V (node_cells_keys _ _ _ _ _ Hseg) (segments_sorted _ _ _ _ _ Hseg))
      as (p & i & child & Eo & Ht & Ec & Hi & Hchild & HA & HB).
    rewrite (node_cells_children _ _ _ _ _ Hseg), list_lookup_fmap in Hchild.
    apply fmap_Some in Hchild as (c & Hc & ->). pose proof (take_drop_middle kids i c Hc) as Ek.
    pose proof (segments_length _ _ _ _ _ Hseg) as Hlen. pose proof (lookup_lt_Some _ _ _ Hc) as Hci.
    assert (length (take i kids) = i) as HlA by (rewrite length_take; lia).
    assert (length (take i seps) = i) as HlSA by (rewrite length_take; lia).
    revert HlA HlSA HA HB Ek. generalize (take i kids) as A, (drop (S i) kids) as B. intros A B HlA HlSA HA HB <-.
    rewrite <- (take_drop i seps) in Hseg. set (SA := take i seps) in *. set (SB := drop i seps) in *.
    destruct (segments_focus _ _ _ A SA c B SB ltac:(lia) Hseg) as (Hsc & _ & _).
    rewrite ids_focus in Hnd. apply NoDup_cons in Hnd as [Hid Hnd].
    apply NoDup_app in Hnd as (_ & _ & Hnd). apply NoDup_app in Hnd as (Hndc & _ & _).
    assert (Forall (holds (view t base)) (pages c)) as Hstc.
    { rewrite map_app, concat_app in Hkids. cbn [map concat] in Hkids. rewrite !Forall_app in Hkids. tauto. }
    destruct (IH _ _ c Hsc Hstc Hndc (low_bound_above _ _ _ Hlo HA) (high_bound_under _ _ _ Hhi HB))
      as (path & lf & es & LP & LS & Hd & Hp & Hloc).
    do 5 eexists. split; [|split].
    + unfold SA, SB in *. rewrite <- (take_drop i seps). by apply desc_node; [lia|..].
    + cbn. by rewrite Hp.
    + intros [|fuel] acc visited Hf Hv; [lia|]. cbn [locate_loop root_id].
      rewrite bool_decide_false by (apply Hv, (root_in_ids (BNode id (A ++ c :: B) seps))).
      rewrite Eo, bind_ok, Ht, Ec, bind_ok. cbn [fst snd]. rewrite Hloc; [|lia|].
      * by rewrite <- app_assoc, HlA.
      * intros j Hj. rewrite not_elem_of_union, not_elem_of_singleton. split.
        -- intros ->. apply Hid. rewrite !elem_of_app. auto.
        -- apply Hv. rewrite ids_focus. right. rewrite !elem_of_app. auto.
Qed.
End Trees.
