(* ===== verification/BtreeClimb.v ===== *)
(** Promotions on their way up: the leaf of a key has been replaced by one or
    two leaves, and every internal page on the path takes the separator of a
    split child or splits itself.  The result is one tree, or two trees and
    the separator between them, that hold the new leaves in place of the old
    one and nothing else changed. *)

From stdpp Require Import gmap.
From S2P Require Import Prelude BtreeFormat BtreeCell BtreePage BtreeSplit BtreeTransaction BtreeNode.
From S2P Require Import BtreeOverlay BtreeMutation BtreeTree.

Section Climb.
Context {CK : Checksum} {KC : KeyCodec}.
Abbreviation entry := (key * LeafCellRef)%type.
Abbreviation separator := (key * list byte)%type.

(** What a subtree has become. *)
Inductive outcome := One (T : btree) | Two (T1 : btree) (s : separator) (T2 : btree).

Definition out_root (o : outcome) : Z := match o with One T | Two T _ _ => root_id T end.
Definition out_leaves (o : outcome) : list (Z * list entry) :=
  match o with One T => leaves T | Two T1 _ T2 => leaves T1 ++ leaves T2 end.
Definition out_pages (o : outcome) : list (Z * page_spec) :=
  match o with One T => pages T | Two T1 _ T2 => pages T1 ++ pages T2 end.
Definition out_ids (o : outcome) : list Z := map fst (out_pages o).
Definition out_promotion (o : outcome) : option Promotion :=
  match o with
  | One _ => None
  | Two _ s T2 => Some {| promotion_key := s.2; promotion_right_child := root_id T2 |}
  end.
Definition out_shaped (h : nat) (lo hi : option key) (o : outcome) : Prop :=
  match o with
  | One T => shaped h lo hi T
  | Two T1 s T2 =>
      sep_ok s ∧ strictly_above lo s.1 ∧ under hi s.1 ∧ shaped h lo (Some s.1) T1 ∧ shaped h (Some s.1) hi T2
  end.

Definition climb (t : WriteTransaction) (base : list byte) (popped : list (Z * Z)) (o : option Promotion)
    : io_result (option Promotion * WriteTransaction) :=
  match o with None => Ok (None, t) | Some pr => propagate_loop t base popped pr end.

Lemma climb_snoc t base popped step o :
  climb t base (popped ++ [step]) o =
  r ← climb t base popped o; climb r.2 base [step] r.1.
Proof.
  destruct o as [pr|]; [|done]. cbn [climb]. revert t pr.
  induction popped as [|[parent pos] popped IH]; intros t pr; [done|]. cbn [app propagate_loop].
  destruct (insert_internal_promotion t base parent pos pr) as [[[next|] t']|]; [|done..].
  rewrite !bind_ok. cbn [fst snd]. apply IH.
Qed.

Lemma takes_avoid t t' base F F' fresh x :
  takes t t' base F F' fresh → x ∉ F → x < tx_next t → x ∉ fresh ∧ x ∉ F'.
Proof.
  intros [_ _ _ H] HF Hx. assert (x ∉ fresh ++ F') as Hn.
  { rewrite H, elem_of_app, elem_of_seqZ. intros [?|?]; [done|lia]. }
  rewrite elem_of_app in Hn. tauto.
Qed.

Lemma takes_cnt t t' base F F' fresh x :
  takes t t' base F F' fresh →
  (cnt x fresh + cnt x F' = cnt x F + cnt x (seqZ (tx_next t) (tx_next t' - tx_next t)))%nat.
Proof. intros [_ _ _ H]. rewrite cnt_perm in H. specialize (H x). by rewrite !cnt_app in H. Qed.

Lemma holds_range t base ps : holds (view t base) ps → 0 < ps.1 < tx_next t.
Proof. destruct ps as [id [es|lm cs]]; cbn; [intros (? & ? & H)|intros H]; by eapply view_range. Qed.

(** Pages that are kept hold what they held. *)
Lemma holds_frame (V V' : Z → node → Prop) l :
  Forall (holds V) l → (∀ i n, i ∈ map fst l → V i n → V' i n) → Forall (holds V') l.
Proof.
  intros H Hf. rewrite Forall_forall in *. intros [id sp] Hin. specialize (H _ Hin).
  assert (id ∈ map fst l) as Hid by (apply list_elem_of_In, in_map_iff; exists (id, sp); split; [done|by apply list_elem_of_In]).
  destruct sp as [es|lm cs]; cbn in *; [|by apply Hf]. destruct H as (l' & r & H). exists l', r. by apply Hf.
Qed.

Lemma node_cells_splice A c c1 s c2 B SA SB :
  length A = length SA → root_id c1 = root_id c →
  node_cells (A ++ c1 :: c2 :: B) (SA ++ s :: SB)
  = spliced (length A) false (node_cell s c2) (node_cells (A ++ c :: B) (SA ++ SB)).
Proof.
  intros Hl Hr. unfold spliced, node_cells. destruct A as [|a A], SA as [|s0 SA]; try done.
  cbn [app tail length]. revert a s0 SA Hl. induction A as [|a' A IH]; intros a s0 [|s1 SA] Hl; try done.
  - cbn [app tail zip_with]. cbn [take drop length]. rewrite take_0, drop_0. cbn [app].
    f_equal. unfold node_cell. by rewrite Hr.
  - cbn [app zip_with]. injection Hl as Hl. cbn [length take drop app]. f_equal.
    exact (IH a' s1 SA ltac:(cbn; by rewrite Hl)).
Qed.

Lemma node_cells_take m kids seps : take m (node_cells kids seps) = node_cells (take (S m) kids) (take m seps).
Proof. unfold node_cells. rewrite zip_with_take. f_equal. destruct kids; [by rewrite !firstn_nil|done]. Qed.

Lemma node_cells_drop m kids seps :
  drop (S m) (node_cells kids seps) = node_cells (drop (S m) kids) (drop (S m) seps).
Proof.
  unfold node_cells. rewrite zip_with_drop. f_equal. destruct kids as [|T kids]; [done|]. cbn [tail].
  rewrite skipn_cons. revert kids. induction m as [|m IH]; intros [|T' kids]; try done. apply IH.
Qed.

(** What is known of an internal page when the outcome of its child arrives. *)
Record arriving (t : WriteTransaction) (base : list byte) (F : list Z) (h : nat) (lo hi : option key) (id : Z)
    (A : list btree) (c : btree) (B : list btree) (SA SB : list separator) (o : outcome) : Prop := {
  ar_pool : pool t base F;
  ar_room : tx_next t + 1 < 2 ^ 63;
  ar_length : length A = length SA;
  ar_segments : segments (shaped h) lo hi (A ++ c :: B) (SA ++ SB);
  ar_seps : SA ++ SB ≠ [];
  ar_root : out_root o = root_id c;
  ar_shaped : out_shaped h (low_bound lo SA) (high_bound hi SB) o;
  ar_page : holds (view t base) (id, node_spec (A ++ c :: B) (SA ++ SB));
  ar_pages : Forall (holds (view t base)) (concat (map pages A) ++ out_pages o ++ concat (map pages B));
  ar_disjoint : ∀ i, i ∈ id :: concat (map ids A) ++ out_ids o ++ concat (map ids B) → i ∉ F;
  ar_child : id ∉ concat (map ids A) ++ out_ids o ++ concat (map ids B);
}.

Lemma concat_ids kids : map fst (concat (map pages kids)) = concat (map ids kids).
Proof. induction kids as [|T kids IH]; [done|]. cbn [map concat]. by rewrite map_app, IH. Qed.

Lemma roots_in_ids kids x : x ∈ map root_id kids → x ∈ concat (map ids kids).
Proof.
  intros H. apply list_elem_of_In, in_map_iff in H as (T & <- & HT). apply list_elem_of_In, in_concat.
  exists (ids T). split; [by apply in_map|]. apply list_elem_of_In, root_in_ids.
Qed.

(** The page after the promotion, before it is known to fit. *)
Lemma arriving_children t base F h lo hi id A c B SA SB c1 s c2 :
  arriving t base F h lo hi id A c B SA SB (Two c1 s c2) →
  segments (shaped h) lo hi (A ++ c1 :: c2 :: B) (SA ++ s :: SB).
Proof.
  intros []. destruct ar_shaped0 as (Hs & Hl & Hh & H1 & H2).
  destruct (segments_focus _ _ _ _ _ _ _ _ ar_length0 ar_segments0) as (_ & _ & H). by apply H.
Qed.

Lemma leftmost_root A c c' B B' :
  root_id c' = root_id c → leftmost_of (A ++ c' :: B') = leftmost_of (A ++ c :: B).
Proof. intros Hr. by destruct A; cbn. Qed.

Lemma arriving_mutable t base F h lo hi id A c B SA SB o :
  arriving t base F h lo hi id A c B SA SB o →
  mutable_internal t base F id (leftmost_of (A ++ c :: B)) (node_cells (A ++ c :: B) (SA ++ SB)).
Proof.
  intros []. constructor; [done|exact ar_page0| |done|].
  { apply ar_disjoint0. by left. }
  pose proof (node_cells_children _ _ _ _ _ ar_segments0) as Hc. rewrite Hc. apply Forall_forall.
  intros x Hx. apply ar_disjoint0. rewrite map_app, elem_of_app in Hx. cbn [map] in Hx.
  rewrite elem_of_cons, !elem_of_app in *. destruct Hx as [Hx|[->|Hx]].
  - right. left. by apply roots_in_ids.
  - right. right. left. rewrite <- ar_root0. destruct o; unfold out_ids; cbn [out_pages out_root];
      rewrite ?map_app, ?elem_of_app; [apply root_in_ids|left; apply root_in_ids].
  - right. right. right. by apply roots_in_ids.
Qed.

(** The results of one step up. *)
Record stepped (t t' : WriteTransaction) (base : list byte) (F : list Z) (h : nat) (lo hi : option key)
    (id : Z) (A B : list btree) (o o' : outcome) : Prop := {
  st_taken : ∃ F' fresh, takes t t' base F F' fresh ∧ (length fresh ≤ 1)%nat ∧
    ∀ x, (cnt x (out_ids o') = cnt x [id] + cnt x (concat (map ids A)) + cnt x (out_ids o)
                              + cnt x (concat (map ids B)) + cnt x fresh)%nat;
  st_root : out_root o' = id;
  st_shaped : out_shaped (S h) lo hi o';
  st_pages : Forall (holds (view t' base)) (out_pages o');
  st_leaves : out_leaves o' = concat (map leaves A) ++ out_leaves o ++ concat (map leaves B);
  st_frame : ∀ i n, i ≠ id → i ∉ F → view t base i n → view t' base i n;
}.

Lemma node_spec_root A c c' B seps :
  root_id c' = root_id c → node_spec (A ++ c' :: B) seps = node_spec (A ++ c :: B) seps.
Proof.
  intros Hr. assert (node_cells (A ++ c' :: B) seps = node_cells (A ++ c :: B) seps) as E.
  { unfold node_cells. destruct A as [|a A]; [done|]. cbn [app tail].
    revert seps. induction A as [|a' A IH]; intros [|s seps]; try done; cbn [app zip_with].
    - unfold node_cell at 1 3. by rewrite Hr.
    - by rewrite IH. }
  unfold node_spec. by rewrite E, (leftmost_root A c c' B B).
Qed.

Lemma step_one t base F h lo hi id A c B SA SB c' :
  arriving t base F h lo hi id A c B SA SB (One c') →
  stepped t t base F h lo hi id A B (One c') (One (BNode id (A ++ c' :: B) (SA ++ SB))).
Proof.
  intros []. constructor; cbn [out_root root_id out_leaves leaves out_pages].
  - exists F, []. split_and!; [by apply takes_nothing|cbn; lia|]. intros x. unfold out_ids. cbn [out_pages].
    change (map fst (pages ?T)) with (ids T). rewrite ids_focus, cnt_cons, !cnt_app, cnt_nil. lia.
  - done.
  - split; [done|]. destruct (segments_focus _ _ _ _ _ _ _ _ ar_length0 ar_segments0) as (_ & H & _). by apply H.
  - rewrite pages_focus. constructor; [|exact ar_pages0]. cbn in ar_root0. by rewrite (node_spec_root _ c).
  - by rewrite map_app, concat_app.
  - done.
Qed.

(** The pages beside the internal page itself are kept. *)
Lemma arriving_kept t t' base F h lo hi id A c B SA SB o :
  arriving t base F h lo hi id A c B SA SB o →
  (∀ i n, i ≠ id → i ∉ F → view t base i n → view t' base i n) →
  Forall (holds (view t' base)) (concat (map pages A) ++ out_pages o ++ concat (map pages B)).
Proof.
  intros [] Hf. apply (holds_frame (view t base)); [exact ar_pages0|]. intros i n Hi Vi.
  rewrite !map_app, !concat_ids in Hi. change (map fst (out_pages o)) with (out_ids o) in Hi.
  apply Hf; [by intros ->|apply ar_disjoint0; by right|done].
Qed.

Lemma cnt_kids x A c1 c2 B :
  (cnt x (concat (map ids (A ++ c1 :: c2 :: B)))
   = cnt x (concat (map ids A)) + (cnt x (ids c1) + cnt x (ids c2)) + cnt x (concat (map ids B)))%nat.
Proof. rewrite map_app, concat_app. cbn [map concat]. rewrite !cnt_app. lia. Qed.

Lemma out_ids_two T1 s T2 : out_ids (Two T1 s T2) = ids T1 ++ ids T2.
Proof. unfold out_ids. cbn [out_pages]. apply map_app. Qed.

Lemma pages_kids A c1 c2 B :
  concat (map pages (A ++ c1 :: c2 :: B)) = concat (map pages A) ++ (pages c1 ++ pages c2) ++ concat (map pages B).
Proof. rewrite map_app, concat_app. cbn [map concat]. by rewrite <- app_assoc. Qed.

Lemma leaves_kids A c1 c2 B :
  concat (map leaves (A ++ c1 :: c2 :: B)) = concat (map leaves A) ++ (leaves c1 ++ leaves c2) ++ concat (map leaves B).
Proof. rewrite map_app, concat_app. cbn [map concat]. by rewrite <- app_assoc. Qed.

(** The promotion fits. *)
Lemma step_two_fits t t' base F h lo hi id A c B SA SB c1 s c2 :
  arriving t base F h lo hi id A c B SA SB (Two c1 s c2) →
  internal_outcome t t' base F id (leftmost_of (A ++ c1 :: c2 :: B))
    (node_cells (A ++ c1 :: c2 :: B) (SA ++ s :: SB)) None →
  stepped t t' base F h lo hi id A B (Two c1 s c2) (One (BNode id (A ++ c1 :: c2 :: B) (SA ++ s :: SB))).
Proof.
  intros Ar (T & V & Hf). pose proof (arriving_children _ _ _ _ _ _ _ _ _ _ _ _ _ _ _ Ar) as Hseg.
  constructor; cbn [out_root root_id out_leaves leaves out_pages].
  - exists F, []. split_and!; [done|cbn; lia|]. intros x.
    change (out_ids (One ?T)) with (ids T). rewrite ids_node, cnt_cons, cnt_kids, out_ids_two, cnt_app, cnt_nil. lia.
  - done.
  - split; [by destruct SA|done].
  - cbn [pages]. rewrite pages_kids. constructor; [exact V|].
    apply (arriving_kept _ _ _ _ _ _ _ _ _ _ _ _ _ _ Ar). intros i n Hi _. by apply Hf.
  - apply leaves_kids.
  - intros i n Hi _. by apply Hf.
Qed.

(** The page splits around the separator at [m]. *)
Lemma step_two_splits t t' base F h lo hi id A c B SA SB c1 s c2 pr :
  arriving t base F h lo hi id A c B SA SB (Two c1 s c2) →
  internal_outcome t t' base F id (leftmost_of (A ++ c1 :: c2 :: B))
    (node_cells (A ++ c1 :: c2 :: B) (SA ++ s :: SB)) (Some pr) →
  ∃ o', out_promotion o' = Some pr ∧ stepped t t' base F h lo hi id A B (Two c1 s c2) o'.
Proof.
  intros Ar (nr & F' & m & cm & T & Hcm & Hm & HSm & -> & V1 & V2 & Hf).
  pose proof (arriving_children _ _ _ _ _ _ _ _ _ _ _ _ _ _ _ Ar) as Hseg.
  pose proof (arriving_kept _ _ _ _ _ _ _ _ _ _ _ _ _ _ Ar Hf) as Hkept. cbn [out_pages] in Hkept.
  rewrite <- pages_kids in Hkept. pose proof (cnt_kids) as Hck. specialize (λ x, Hck x A c1 c2 B).
  pose proof (leaves_kids A c1 c2 B) as Hlv.
  set (K := A ++ c1 :: c2 :: B) in *. set (S' := SA ++ s :: SB) in *.
  assert (∃ sm, S' !! m = Some sm ∧ internal_key_bytes cm = sm.2) as (sm & Hsm & Hkb).
  { pose proof (node_cells_keys _ _ _ _ _ Hseg) as Hk.
    destruct (Forall2_lookup_l _ _ _ _ _ Hk Hcm) as (sm & Hsm & ? & _). eauto. }
  destruct (segments_cut _ _ _ _ _ _ _ Hseg Hsm) as (Hs1 & Hs2 & Hok & Hl & Hh).
  pose proof (segments_length _ _ _ _ _ Hseg) as Hlen.
  assert (length (node_cells K S') = length S') as Hlc.
  { unfold node_cells. rewrite length_zip_with, length_tl. lia. }
  assert (leftmost_of (drop (S m) K) = internal_right_child cm) as Hlm.
  { pose proof (node_cells_children _ _ _ _ _ Hseg) as Hc.
    assert (map root_id K !! S m = Some (internal_right_child cm)) as Hroot.
    { rewrite <- Hc. cbn. change (map internal_right_child (node_cells K S') !! m = Some (internal_right_child cm)).
      by rewrite list_lookup_fmap, Hcm. }
    rewrite list_lookup_fmap in Hroot. apply fmap_Some in Hroot as (Tm & HTm & ->).
    by rewrite (drop_S _ _ _ HTm). }
  assert (leftmost_of (take (S m) K) = leftmost_of K) as Hlm1 by (by destruct K).
  exists (Two (BNode id (take (S m) K) (take m S')) sm (BNode nr (drop (S m) K) (drop (S m) S'))).
  split; [cbn; by rewrite Hkb|]. constructor; cbn [out_root root_id out_leaves leaves out_pages].
  - exists F', [nr]. split_and!; [done|cbn; lia|]. intros x.
    rewrite out_ids_two, !ids_node, out_ids_two, !cnt_app, cnt_cons, (cnt_cons x nr).
    pose proof (Hck x) as Hx. rewrite <- (take_drop (S m) K) in Hx. rewrite map_app, concat_app, cnt_app in Hx. lia.
  - done.
  - refine (conj Hok (conj Hl (conj Hh (conj (conj _ Hs1) (conj _ Hs2)))));
      intros E; apply (f_equal length) in E; rewrite ?length_take, ?length_drop in E; cbn in E; lia.
  - cbn [pages]. rewrite <- (take_drop (S m) K), map_app, concat_app, Forall_app in Hkept. destruct Hkept as [Hk1 Hk2].
    apply Forall_app. split; (constructor; [|done]); cbn; unfold node_spec.
    + by rewrite Hlm1, <- node_cells_take.
    + by rewrite Hlm, <- node_cells_drop.
  - rewrite <- Hlv, <- concat_app, <- map_app, take_drop. done.
  - exact Hf.
Qed.

Lemma climb_step t base F h lo hi id A c B SA SB o :
  arriving t base F h lo hi id A c B SA SB o →
  ∃ o' t', climb t base [(id, Z.of_nat (length A))] (out_promotion o) = Ok (out_promotion o', t') ∧
    stepped t t' base F h lo hi id A B o o'.
Proof.
  intros Ar. destruct o as [c'|c1 s c2].
  { do 2 eexists. split; [|by eapply step_one]. done. }
  pose proof (arriving_mutable _ _ _ _ _ _ _ _ _ _ _ _ _ Ar) as M. pose proof Ar as [].
  pose proof ar_shaped0 as (Hok & _). cbn in ar_root0.
  assert (root_id c2 ∈ out_ids (Two c1 s c2)) as Hin.
  { rewrite out_ids_two, elem_of_app. right. apply root_in_ids. }
  assert (0 < root_id c2 < tx_next t) as Hr2.
  { cbn [out_pages] in ar_pages0. rewrite !Forall_app in ar_pages0. destruct ar_pages0 as (_ & (_ & H2) & _).
    destruct c2 as [i2 es2|i2 k2 s2]; cbn [pages] in H2; apply Forall_cons in H2 as [H2 _];
      by apply holds_range in H2. }
  destruct (insert_promotion_ok t base F id _ _ (length A)
    {| promotion_key := s.2; promotion_right_child := root_id c2 |} M) as (r & t' & E & O).
  { unfold node_cells. rewrite length_zip_with, length_tl, !length_app. cbn [length]. lia. }
  { apply Hok. } { done. }
  { cbn. intros <-. apply ar_child0. rewrite !elem_of_app. auto. }
  { cbn. apply ar_disjoint0. right. rewrite !elem_of_app. auto. }
  cbn [promotion_key promotion_right_child] in O. change {| internal_key_bytes := s.2; internal_right_child := root_id c2 |}
    with (node_cell s c2) in O.
  rewrite <- (node_cells_splice A c c1 s c2 B SA SB ar_length0 ar_root0) in O.
  rewrite <- (leftmost_root A c c1 B (c2 :: B) ar_root0) in O.
  cbn [out_promotion climb propagate_loop]. rewrite E, bind_ok. cbn [fst snd]. destruct r as [pr|].
  - destruct (step_two_splits _ _ _ _ _ _ _ _ _ _ _ _ _ _ _ _ _ Ar O) as (o' & Ho & S).
    exists o', t'. by rewrite Ho.
  - do 2 eexists. split; [|by eapply step_two_fits]. done.
Qed.

(** ** The whole climb *)

(** The leaf [lf] of [k] has become [o], in every range that fits both. *)
Definition replaces (k : key) (lf : Z) (es : list entry) (o : outcome) : Prop :=
  out_root o = lf ∧
  ∀ lo hi, shaped 0 lo hi (BLeaf lf es) → above lo k → under hi k → out_shaped 0 lo hi o.

(** The state in which the climb starts: the pages of the tree hold it, apart
    from the leaf, and the pages of the new leaves are in place. *)
Record climbing (t : WriteTransaction) (base : list byte) (F : list Z) (T : btree) (lf : Z) (o : outcome) : Prop := {
  cl_pool : pool t base F;
  cl_pages : ∀ ps, ps ∈ pages T → ps.1 ≠ lf → holds (view t base) ps;
  cl_out : Forall (holds (view t base)) (out_pages o);
  cl_disjoint : ∀ x, (cnt x (ids T) + cnt x (out_ids o) + cnt x F ≤ 1 + cnt x [lf])%nat;
}.

Record climbed (t t' : WriteTransaction) (base : list byte) (F : list Z) (T : btree) (h : nat)
    (lo hi : option key) (lf : Z) (LP LS : list (Z * list entry)) (o o' : outcome) : Prop := {
  cd_taken : ∃ F' fresh, takes t t' base F F' fresh ∧ (length fresh ≤ h)%nat ∧
    ∀ x, (cnt x (out_ids o') + cnt x [lf] = cnt x (ids T) + cnt x (out_ids o) + cnt x fresh)%nat;
  cd_root : out_root o' = root_id T;
  cd_shaped : out_shaped h lo hi o';
  cd_pages : Forall (holds (view t' base)) (out_pages o');
  cd_leaves : out_leaves o' = LP ++ out_leaves o ++ LS;
  cd_frame : ∀ i n, i ∉ ids T → i ∉ out_ids o → i ∉ F → view t base i n → view t' base i n;
  cd_leaf_frame : ∀ i l r es, i ∉ F → view t base i (NLeaf l r es) → view t' base i (NLeaf l r es);
}.

Lemma out_root_in o : out_root o ∈ out_ids o.
Proof.
  destruct o as [T|T1 s T2]; [apply root_in_ids|]. rewrite out_ids_two, elem_of_app. left. apply root_in_ids.
Qed.

Lemma descends_leaf_id k T path lf es LP LS : descends k T path lf es LP LS → lf ∈ ids T.
Proof.
  induction 1 as [id es|id A c B SA SB path lf es LP LS Hl HA HB Hd IH]; [by left|].
  rewrite ids_focus. right. rewrite !elem_of_app. auto.
Qed.

Lemma takes_fresh t t' base F F' fresh x :
  pool t base F → takes t t' base F F' fresh → x ∈ fresh → x ∉ F'.
Proof.
  intros P T Hx Hx'. assert (NoDup (fresh ++ F')) as Hnd.
  { destruct T as [_ _ _ ->]. apply NoDup_app. split_and!; [apply P| |apply NoDup_seqZ].
    intros i Hi Hi'. apply (pool_range _ _ _ _ P) in Hi. apply elem_of_seqZ in Hi'. lia. }
  apply NoDup_app in Hnd as (_ & Hd & _). by apply (Hd x).
Qed.

(** Below a node, the climb starts in a state of the same kind. *)
Lemma climbing_child t base F id A c B seps lf o :
  climbing t base F (BNode id (A ++ c :: B) seps) lf o → climbing t base F c lf o.
Proof.
  intros []. constructor; [done| |done|].
  - intros ps Hps. apply cl_pages0. rewrite pages_focus. right. rewrite !elem_of_app. auto.
  - intros x. specialize (cl_disjoint0 x). rewrite ids_focus, cnt_cons, !cnt_app in cl_disjoint0. lia.
Qed.

(** The pages of the node and of its other children are apart from what the
    climb below touches, and they hold. *)
Lemma climbing_apart t base F id A c B seps lf o ps :
  climbing t base F (BNode id (A ++ c :: B) seps) lf o → lf ∈ ids c → lf ∈ out_ids o →
  ps ∈ (id, node_spec (A ++ c :: B) seps) :: concat (map pages A) ++ concat (map pages B) →
  holds (view t base) ps ∧ ps.1 ∉ ids c ∧ ps.1 ∉ out_ids o ∧ ps.1 ∉ F.
Proof.
  intros [] Hc Ho Hps. assert (ps.1 ∈ id :: concat (map ids A) ++ concat (map ids B)) as Hin.
  { rewrite <- !concat_ids, <- map_app. change (id :: ?l) with (map fst [(id, node_spec (A ++ c :: B) seps)] ++ l).
    rewrite <- map_app. apply list_elem_of_In, in_map, list_elem_of_In. exact Hps. }
  pose proof (cl_disjoint0 ps.1) as Hx. rewrite ids_focus, cnt_cons, !cnt_app in Hx.
  assert (0 < cnt ps.1 [id] + cnt ps.1 (concat (map ids A)) + cnt ps.1 (concat (map ids B)))%nat as Hpos.
  { rewrite cnt_in, cnt_cons, cnt_app in Hin. lia. }
  rewrite cnt_in in Hc, Ho.
  assert (ps.1 ≠ lf) as Hne. { intros E. rewrite E, cnt_same in *. lia. }
  rewrite (cnt_other _ _ Hne) in Hx. rewrite !cnt_not_in. split; [|lia].
  apply cl_pages0; [|done]. rewrite pages_focus. rewrite elem_of_cons, !elem_of_app in *. tauto.
Qed.

Lemma climbing_range t base F T lf o i :
  climbing t base F T lf o → lf ∈ ids T → lf ∈ out_ids o → i ∈ ids T ∨ i ∈ out_ids o →
  i ∉ F ∧ i < tx_next t.
Proof.
  intros [] HT Ho Hi. pose proof (cl_disjoint0 i) as Hx.
  assert (∀ l, i ∈ map fst l → Forall (holds (view t base)) l → i < tx_next t) as Hr.
  { intros l Hl Hf. apply list_elem_of_In, in_map_iff in Hl as (ps & <- & Hps). apply list_elem_of_In in Hps.
    rewrite Forall_forall in Hf. by apply Hf, holds_range in Hps as [_ ?]. }
  rewrite cnt_not_in. destruct (decide (i = lf)) as [->|Hne].
  - rewrite cnt_in in HT. rewrite cnt_same in Hx. split; [rewrite cnt_in in Ho; lia|]. by apply (Hr (out_pages o)).
  - rewrite (cnt_other _ _ Hne) in Hx. destruct Hi as [Hi|Hi]; (split; [rewrite cnt_in in Hi; lia|]).
    + apply list_elem_of_In, in_map_iff in Hi as (ps & <- & Hps). apply list_elem_of_In in Hps.
      specialize (cl_pages0 ps Hps Hne). by apply holds_range in cl_pages0 as [_ ?].
    + by apply (Hr (out_pages o)).
Qed.

Lemma climb_arrives t t1 base F h lo hi id A c B SA SB lf LP LS o oc :
  climbing t base F (BNode id (A ++ c :: B) (SA ++ SB)) lf o → lf ∈ ids c → lf ∈ out_ids o →
  tx_next t + Z.of_nat (S h) < 2 ^ 63 → length A = length SA → SA ++ SB ≠ [] →
  segments (shaped h) lo hi (A ++ c :: B) (SA ++ SB) →
  climbed t t1 base F c h (low_bound lo SA) (high_bound hi SB) lf LP LS o oc →
  ∃ F1 fresh, takes t t1 base F F1 fresh ∧ (length fresh ≤ h)%nat ∧
    (∀ x, (cnt x (out_ids oc) + cnt x [lf] = cnt x (ids c) + cnt x (out_ids o) + cnt x fresh)%nat) ∧
    arriving t1 base F1 h lo hi id A c B SA SB oc.
Proof.
  intros Cl Hlc Hlo Hroom Hlen Hne Hseg [(F1 & fresh & T & Hfl & Hcnt) Hroot Hsh Hpg Hlv Hfr _].
  exists F1, fresh. split_and!; [done..|].
  pose proof (λ ps, climbing_apart t base F id A c B (SA ++ SB) lf o ps Cl Hlc Hlo) as Hap.
  assert (∀ ps, ps ∈ (id, node_spec (A ++ c :: B) (SA ++ SB)) :: concat (map pages A) ++ concat (map pages B) →
    holds (view t1 base) ps ∧ ps.1 ∉ F1 ∧ ps.1 ∉ out_ids oc) as Hok.
  { intros ps Hps. destruct (Hap ps Hps) as (Hh & H1 & H2 & H3). pose proof (holds_range _ _ _ Hh) as Hr.
    destruct (takes_avoid _ _ _ _ _ _ ps.1 T H3 ltac:(lia)) as [H4 H5]. split_and!; [|done|].
    - assert (Forall (holds (view t1 base)) [ps]) as Hf; [|by inversion Hf].
      apply (holds_frame (view t base)); [by constructor|]. intros i n Hi. cbn in Hi.
      apply list_elem_of_singleton in Hi as ->. by apply Hfr.
    - rewrite cnt_not_in in *. specialize (Hcnt ps.1). lia. }
  assert (∀ i, i ∈ id :: concat (map ids A) ++ concat (map ids B) → i ∉ F1 ∧ i ∉ out_ids oc) as Hids.
  { intros i Hi. rewrite <- !concat_ids, <- map_app in Hi.
    change (id :: ?l) with (map fst [(id, node_spec (A ++ c :: B) (SA ++ SB))] ++ l) in Hi. rewrite <- map_app in Hi.
    apply list_elem_of_In, in_map_iff in Hi as (ps & <- & Hps). apply list_elem_of_In in Hps.
    by destruct (Hok ps Hps) as (_ & ? & ?). }
  pose proof Cl as [P Hcp Hco Hdj]. pose proof T as [P1 HR HN HT]. constructor.
  - exact P1.
  - unfold len in HN. lia.
  - done.
  - done.
  - done.
  - done.
  - done.
  - apply Hok. by left.
  - rewrite !Forall_app. split_and!; [|done|]; apply Forall_forall; intros ps Hps; apply Hok;
      right; rewrite elem_of_app; auto.
  - intros i Hi. rewrite elem_of_cons, !elem_of_app in Hi.
    destruct (decide (i ∈ out_ids oc)) as [Hoc|Hoc].
    2:{ apply Hids. rewrite elem_of_cons, elem_of_app. tauto. }
    destruct (decide (i ∈ fresh)) as [Hfi|Hfi]; [exact (takes_fresh _ _ _ _ _ _ i P T Hfi)|].
    destruct (climbing_range _ _ _ _ _ _ i (climbing_child _ _ _ _ _ _ _ _ _ _ Cl) Hlc Hlo) as [HiF Hin];
      [|by destruct (takes_avoid _ _ _ _ _ _ i T HiF Hin)].
    rewrite cnt_not_in in Hfi. rewrite cnt_in in Hoc. rewrite !cnt_in. specialize (Hcnt i). lia.
  - rewrite !elem_of_app. intros Hi. destruct (Hids id ltac:(by left)) as [_ Hn].
    pose proof (Hdj id) as Hx. rewrite ids_focus, cnt_cons, !cnt_app, cnt_same in Hx.
    rewrite !cnt_in in Hi. rewrite cnt_not_in in Hn.
    assert (id ≠ lf). { intros ->. rewrite cnt_in in Hlc, Hlo. rewrite cnt_same in Hx. lia. }
    rewrite (cnt_other id lf) in Hx by done. lia.
Qed.

(** Climbing from a replaced leaf turns the tree into one or two trees with the
    new leaves in place of the old one. *)
Lemma climb_ok base k T path lf es LP LS :
  descends k T path lf es LP LS →
  ∀ h lo hi o t F, shaped h lo hi T → above lo k → under hi k → replaces k lf es o →
  climbing t base F T lf o → tx_next t + Z.of_nat h < 2 ^ 63 →
  ∃ o' t', climb t base (reverse path) (out_promotion o) = Ok (out_promotion o', t') ∧
    climbed t t' base F T h lo hi lf LP LS o o'.
Proof.
  induction 1 as [lf es|id A c B SA SB path lf es LP LS Hlen HA HB Hd IH];
    intros h lo hi o t F Hsh Hlo Hhi [Hr Hrep] Cl Hroom.
  - destruct h; [|done]. exists o, t. split; [by destruct o|]. pose proof Cl as [].
    constructor; [|done|by apply Hrep|done|by rewrite app_nil_r|done|done].
    exists F, []. split_and!; [by apply takes_nothing|done|]. intros x. unfold ids. cbn [pages map fst].
    rewrite cnt_nil. lia.
  - apply shaped_node in Hsh as (h' & -> & Hne & Hseg).
    destruct (segments_focus _ _ _ _ _ _ _ _ Hlen Hseg) as (Hsc & _ & _).
    pose proof (descends_leaf_id _ _ _ _ _ _ _ Hd) as Hlc.
    assert (lf ∈ out_ids o) as Hlout by (rewrite <- Hr; apply out_root_in).
    destruct (IH h' _ _ o t F Hsc (low_bound_above _ _ _ Hlo HA) (high_bound_under _ _ _ Hhi HB)
      (conj Hr Hrep) (climbing_child _ _ _ _ _ _ _ _ _ _ Cl) ltac:(lia)) as (oc & t1 & Ec & Cd).
    destruct (climb_arrives _ _ _ _ _ _ _ _ _ _ _ _ _ _ _ _ _ _ Cl Hlc Hlout Hroom Hlen Hne Hseg Cd)
      as (F1 & fresh1 & T1 & Hf1 & Hc1 & Ar).
    destruct (climb_step _ _ _ _ _ _ _ _ _ _ _ _ _ Ar) as (o' & t2 & Es & [(F2 & fresh2 & T2 & Hf2 & Hc2) ? ? ? Hlv ?]).
    exists o', t2. split; [by rewrite reverse_cons, climb_snoc, Ec, bind_ok|].
    pose proof Cd as [_ _ _ _ Hlvc Hfr Hlf]. constructor; [|done|done|done| | |].
    + exists F2, (fresh1 ++ fresh2). split_and!; [by eapply takes_trans|rewrite length_app; lia|].
      intros x. specialize (Hc1 x). specialize (Hc2 x). rewrite ids_focus, (cnt_cons x id), !cnt_app. lia.
    + rewrite Hlv, Hlvc, <- !app_assoc. done.
    + intros i n Hi Hio HiF Vi. rewrite ids_focus, not_elem_of_cons, !not_elem_of_app in Hi.
      pose proof (view_range _ _ _ _ Vi). destruct (takes_avoid _ _ _ _ _ _ i T1 HiF ltac:(lia)) as [_ HiF1].
      apply st_frame0; [tauto|done|]. apply Hfr; tauto.
    + intros i l r es' HiF Vi. pose proof (view_range _ _ _ _ Vi).
      destruct (takes_avoid _ _ _ _ _ _ i T1 HiF ltac:(lia)) as [_ HiF1]. pose proof (Hlf _ _ _ _ HiF Vi) as V1.
      apply st_frame0; [|done|done]. intros ->. pose proof (ar_page _ _ _ _ _ _ _ _ _ _ _ _ _ Ar) as Vn. cbn in Vn.
      by pose proof (view_inj _ _ _ _ _ V1 Vn).
Qed.
End Climb.
