(* ===== verification/BtreeChain.v ===== *)
(** Values outside the leaf: chains of overflow pages, how a chain is walked,
    checked and read, how the chunks of a value are written, and the cell and
    pages that [stage_upsert] prepares for a value. *)

From stdpp Require Import gmap.
From S2P Require Import Prelude BtreeFormat BtreeCell BtreePage BtreeSplit BtreeTransaction BtreeNode.
From S2P Require Import BtreeOverlay BtreeMutation BtreeTree BtreeClimb.

(** The pages of a chain and their payloads. *)
Inductive chain (V : Z → node → Prop) : Z → list Z → list (list byte) → Prop :=
| chain_end : chain V 0 [] []
| chain_link id next payload ps bs :
    V id (NOverflow next payload) → 0 < len payload ≤ OVERFLOW_PAYLOAD_LEN → chain V next ps bs →
    chain V id (id :: ps) (payload :: bs).

Lemma chain_mono (V V' : Z → node → Prop) head ps bs :
  chain V head ps bs → (∀ i n, i ∈ ps → V i n → V' i n) → chain V' head ps bs.
Proof.
  induction 1 as [|id next payload ps bs Hv Hp Hc IH]; intros Hm; [constructor|].
  econstructor; [apply Hm; [by left|done]|done|]. apply IH. intros i n Hi. apply Hm. by right.
Qed.

Lemma chain_head V head ps bs : chain V head ps bs → head = default 0 (hd_error ps).
Proof. by destruct 1. Qed.

(** ** Chunks *)

Lemma chunks_loop_ok fuel size (b : list byte) :
  (0 < size)%nat → (length b ≤ fuel)%nat →
  concat (chunks_loop fuel size b) = b ∧
  Forall (λ c, 0 < len c ≤ Z.of_nat size) (chunks_loop fuel size b) ∧
  len (chunks_loop fuel size b) = div_ceil (len b) (Z.of_nat size).
Proof.
  intros Hs. revert b. induction fuel as [|fuel IH]; intros [|x b] Hf; cbn [chunks_loop]; try (cbn in Hf; lia).
  1,2: split_and!; [done|constructor|]; unfold div_ceil; rewrite !len_nil, Z.add_0_l; symmetry;
       apply Z.div_small; lia.
  set (b' := x :: b) in *.
  assert (0 < length b')%nat as Hpos by (cbn; lia).
  destruct (IH (drop size b')) as (H1 & H2 & H3); [rewrite length_drop; lia|].
  split_and!.
  - cbn [concat]. by rewrite H1, take_drop.
  - constructor; [|done]. unfold len. rewrite length_take. lia.
  - rewrite len_cons, H3. unfold div_ceil, len. rewrite length_drop.
    destruct (decide (size ≤ length b')%nat).
    + replace (Z.of_nat (length b') + Z.of_nat size - 1)
        with (Z.of_nat (length b' - size) + Z.of_nat size - 1 + 1 * Z.of_nat size) by lia.
      rewrite Z.div_add by lia. lia.
    + replace (length b' - size)%nat with 0%nat by lia.
      rewrite (Z.div_small (Z.of_nat 0 + Z.of_nat size - 1)) by lia.
      replace (Z.of_nat (length b') + Z.of_nat size - 1) with (Z.of_nat (length b') - 1 + 1 * Z.of_nat size) by lia.
      rewrite Z.div_add, Z.div_small by lia. lia.
Qed.

Lemma chunks_ok (b : list byte) :
  concat (chunks OVERFLOW_PAYLOAD_LEN b) = b ∧
  Forall (λ c, 0 < len c ≤ OVERFLOW_PAYLOAD_LEN) (chunks OVERFLOW_PAYLOAD_LEN b) ∧
  len (chunks OVERFLOW_PAYLOAD_LEN b) = div_ceil (len b) OVERFLOW_PAYLOAD_LEN.
Proof.
  unfold chunks. destruct (chunks_loop_ok (length b) (Z.to_nat OVERFLOW_PAYLOAD_LEN) b) as (H1 & H2 & H3);
    [unfold OVERFLOW_PAYLOAD_LEN; lia|lia|]. rewrite Z2Nat.id in * by (unfold OVERFLOW_PAYLOAD_LEN; lia). done.
Qed.

Section Chains.
Context {CK : Checksum}.

(** ** Walking a chain *)

Lemma overflow_open t base id next payload :
  view t base id (NOverflow next payload) →
  ∃ p, tx_open t base id = Ok p ∧ page_type (sp_header p) = Overflow ∧ right (sp_header p) = next ∧
    overflow_payload p = Ok payload.
Proof.
  intros V. destruct (view_open _ _ _ _ V) as (bytes & p & _ & _ & (Ht & Hr & Hp) & Eo & _). by exists p.
Qed.

Lemma chain_walk_ok t base head ps bs :
  chain (view t base) head ps bs → NoDup ps →
  ∀ fuel visited, (length ps < fuel)%nat → (∀ i, i ∈ ps → i ∉ visited) →
  overflow_chain_walk fuel t base head visited = Ok ps.
Proof.
  induction 1 as [|id next payload ps bs Hv Hp Hc IH]; intros Hnd [|fuel] visited Hf Hvis; cbn in Hf; try lia;
    cbn [overflow_chain_walk]; [done|].
  pose proof (view_range _ _ _ _ Hv). replace (id =? 0) with false by lia.
  rewrite bool_decide_false by (apply Hvis; by left).
  destruct (overflow_open _ _ _ _ _ Hv) as (p & Eo & Ht & Hr & Epay).
  rewrite Eo, bind_ok, bool_decide_true by done. cbn [negb]. rewrite Epay, bind_ok.
  replace (len payload =? 0) with false by lia. apply NoDup_cons in Hnd as [Hni Hnd].
  rewrite Hr, IH; [by rewrite bind_ok|done|lia|].
  intros i Hi. rewrite not_elem_of_union, not_elem_of_singleton. split; [by intros ->|]. apply Hvis. by right.
Qed.

Lemma chain_payloads_ok t base head ps bs expected :
  chain (view t base) head ps bs → expected < 2 ^ 64 →
  ∀ hashed, len hashed + len (concat bs) ≤ expected →
  chain_payloads t base ps expected hashed = Ok (hashed ++ concat bs).
Proof.
  intros Hc He. induction Hc as [|id next payload ps bs Hv Hp Hc IH]; intros hashed Hl; cbn [chain_payloads concat].
  { by rewrite app_nil_r. }
  cbn [concat] in Hl. rewrite len_app in Hl. pose proof (len_nonneg (concat bs)).
  destruct (overflow_open _ _ _ _ _ Hv) as (p & Eo & _ & _ & Epay). rewrite Eo, bind_ok, Epay, bind_ok.
  rewrite checked_add_small by lia. cbn [ok_or]. rewrite bind_ok. replace (expected <? len hashed + len payload) with false by lia.
  rewrite IH by (rewrite len_app; lia). by rewrite <- app_assoc.
Qed.

Lemma assemble_chain_ok t base head ps bs stored_len :
  chain (view t base) head ps bs → stored_len < 2 ^ 64 - 1 →
  ∀ scratch, len scratch + len (concat bs) ≤ stored_len →
  assemble_chain t base ps stored_len scratch = Ok (scratch ++ concat bs).
Proof.
  intros Hc He. induction Hc as [|id next payload ps bs Hv Hp Hc IH]; intros hashed Hl; cbn [assemble_chain concat].
  { by rewrite app_nil_r. }
  cbn [concat] in Hl. rewrite len_app in Hl. pose proof (len_nonneg (concat bs)).
  destruct (overflow_open _ _ _ _ _ Hv) as (p & Eo & _ & _ & Epay). rewrite Eo, bind_ok, Epay, bind_ok.
  unfold saturating_add. replace (stored_len <? Z.min (len hashed + len payload) (2 ^ 64 - 1)) with false by lia.
  rewrite IH by (rewrite len_app; lia). by rewrite <- app_assoc.
Qed.

Lemma chain_pages_ok t base head ps bs :
  chain (view t base) head ps bs → ps ≠ [] → NoDup ps → (length ps < walk_fuel t)%nat →
  overflow_chain_pages t base head = Ok ps.
Proof.
  intros Hc Hne Hnd Hf. unfold overflow_chain_pages.
  rewrite (chain_walk_ok _ _ _ _ _ Hc Hnd _ ∅ Hf), bind_ok by set_solver.
  by rewrite bool_decide_false.
Qed.

Lemma validated_chain_ok t base head ps bs :
  chain (view t base) head ps bs → ps ≠ [] → NoDup ps → (length ps < walk_fuel t)%nat →
  len (concat bs) < 2 ^ 32 →
  validated_overflow_chain_pages t base head (len (concat bs)) (crc32 (concat bs)) = Ok ps.
Proof.
  intros Hc Hne Hnd Hf Hl. unfold validated_overflow_chain_pages.
  rewrite (chain_pages_ok _ _ _ _ _ Hc Hne Hnd Hf), bind_ok, try_fit_small by lia. cbn [ok_or]. rewrite bind_ok.
  rewrite (chain_payloads_ok _ _ _ _ _ (len (concat bs)) Hc ltac:(lia) []) by (rewrite len_nil; lia). rewrite bind_ok. cbn [app].
  by rewrite !Z.eqb_refl.
Qed.

(** ** Exchanging pages with the pool *)

(** A step that gives the pages [old] back to the pool and takes [new]. *)
Record exchanges (t t' : WriteTransaction) (base : list byte) (F F' old new : list Z) : Prop := {
  ex_pool : pool t' base F';
  ex_root : root_page_id (next_header t') = root_page_id (next_header t);
  ex_next : tx_next t ≤ tx_next t' ≤ tx_next t + len new;
  ex_pages : new ++ F' ≡ₚ old ++ F ++ seqZ (tx_next t) (tx_next t' - tx_next t);
}.

Lemma free_pages_loop_ok base pages :
  ∀ t F, pool t base F → NoDup pages → (∀ i, i ∈ pages → 0 < i < tx_next t ∧ i ≠ root_page_id (next_header t) ∧ i ∉ F) →
  ∃ t', free_pages_loop t pages = Ok t' ∧ pool t' base (reverse pages ++ F) ∧ tx_next t' = tx_next t ∧
    root_page_id (next_header t') = root_page_id (next_header t) ∧
    ∀ i n, i ∉ pages → view t base i n → view t' base i n.
Proof.
  induction pages as [|p pages IH]; intros t F P Hnd Hok; cbn [free_pages_loop].
  { exists t. by split_and!. }
  apply NoDup_cons in Hnd as [Hp Hnd]. destruct (Hok p ltac:(by left)) as (Hr & Hroot & HF).
  destruct (free_page_ok t base F p P Hr Hroot HF) as (t1 & E & P1 & Hn1 & Hr1 & Hf1). rewrite E, bind_ok.
  destruct (IH t1 (p :: F) P1 Hnd) as (t2 & E2 & P2 & Hn2 & Hr2 & Hf2).
  { intros i Hi. rewrite Hn1, Hr1. destruct (Hok i ltac:(by right)) as (? & ? & ?). split_and!; [lia|lia|done|].
    rewrite not_elem_of_cons. split; [by intros ->|done]. }
  exists t2. rewrite reverse_cons, <- app_assoc. split_and!; [done|done|congruence|congruence|].
  intros i n Hi Vi. rewrite not_elem_of_cons in Hi. apply Hf2; [tauto|]. by apply Hf1; [tauto|].
Qed.

Lemma free_pages_ok t base F pages :
  pool t base F → NoDup pages → (∀ i, i ∈ pages → 0 < i < tx_next t ∧ i ≠ root_page_id (next_header t) ∧ i ∉ F) →
  ∃ t', free_pages t pages = Ok t' ∧ exchanges t t' base F (pages ++ F) pages [] ∧ tx_next t' = tx_next t ∧
    ∀ i n, i ∉ pages → view t base i n → view t' base i n.
Proof.
  intros P Hnd Hok. unfold free_pages.
  destruct (free_pages_loop_ok base (reverse pages) t F P) as (t' & E & P' & Hn & Hr & Hf).
  { by rewrite reverse_Permutation. } { intros i Hi. apply Hok. by rewrite reverse_Permutation in Hi. }
  rewrite reverse_involutive in P'. exists t'. split_and!; [done| |done|].
  - constructor; [done|done|rewrite len_nil; lia|]. rewrite Hn, Z.sub_diag, seqZ_nil, app_nil_r by lia. done.
  - intros i n Hi. apply Hf. by rewrite reverse_Permutation.
Qed.

Lemma allocate_pages_ok base n :
  ∀ t F, pool t base F → tx_next t + Z.of_nat n < 2 ^ 63 →
  ∃ new t' F', allocate_pages n t base = Ok (new, t') ∧ length new = n ∧ takes t t' base F F' new ∧
    (∀ i n, view t base i n → view t' base i n) ∧ Forall (λ i, 0 < i < tx_next t') new.
Proof.
  induction n as [|n IH]; intros t F P Hr; cbn [allocate_pages].
  { exists [], t, F. split_and!; [done|done|by apply takes_nothing|done|constructor]. }
  destruct (allocate_page_ok t base F P ltac:(lia)) as (id & t1 & F1 & E & A). rewrite E, bind_ok. cbn [fst snd].
  pose proof A as [P1 V1 _ Hid Hn1 _].
  destruct (IH t1 F1 P1 ltac:(lia)) as (new & t2 & F2 & E2 & Hl & T2 & V2 & Hf). rewrite E2, bind_ok. cbn [fst snd].
  exists (id :: new), t2, F2. split_and!; [done|cbn; lia| |auto|].
  - change (id :: new) with ([id] ++ new). eapply takes_trans; [by apply allocated_takes|done].
  - constructor; [destruct T2; lia|done].
Qed.

(** ** Writing a chain *)

Lemma get_nth {A} (l : list A) (i : nat) : get l (Z.of_nat i) = l !! i.
Proof. unfold get. rewrite (proj2 (Z.leb_le 0 (Z.of_nat i))) by lia. by rewrite Nat2Z.id. Qed.

Lemma write_chunks_ok base pages F :
  NoDup pages →
  ∀ cs idx t, pool t base F → (idx + length cs = length pages)%nat →
  Forall (λ c, 0 < len c ≤ OVERFLOW_PAYLOAD_LEN) cs →
  (∀ i, i ∈ pages → 0 < i < tx_next t ∧ i ∉ F) →
  ∃ t', write_chunks t pages (Z.of_nat idx) cs = Ok t' ∧
    chain (view t' base) (default 0 (pages !! idx)) (drop idx pages) cs ∧ pool t' base F ∧
    next_header t' = next_header t ∧ ∀ i n, i ∉ drop idx pages → view t base i n → view t' base i n.
Proof.
  intros Hnd cs. induction cs as [|c cs IH]; intros idx t P Hl Hc Hok; cbn [write_chunks].
  { exists t. cbn in Hl. rewrite drop_ge, lookup_ge_None_2 by lia. split_and!; try done. constructor. }
  apply Forall_cons in Hc as [Hc Hcs]. cbn in Hl.
  destruct (lookup_lt_is_Some_2 pages idx) as [id Hid]; [lia|]. rewrite get_nth, Hid. cbn [ok_or]. rewrite bind_ok.
  replace (Z.of_nat idx + 1) with (Z.of_nat (S idx)) by lia. rewrite get_nth. cbv zeta.
  destruct (Hok id) as (Hr & HidF); [by eapply list_elem_of_lookup_2|]. pose proof P as [_ _ _ _ Hb _].
  destruct (overflow_page_stores id (tx_next t) (default 0 (pages !! S idx)) c) as (bytes & E & S).
  { destruct (pages !! S idx) as [nx|] eqn:En; cbn; [|unfold fits; lia].
    destruct (Hok nx) as [? _]; [by eapply list_elem_of_lookup_2|]. unfold fits. lia. }
  { lia. } { lia. } { lia. }
  { destruct (pages !! S idx) as [nx|] eqn:En; cbn; [|by left]. right.
    destruct (Hok nx) as [? _]; [by eapply list_elem_of_lookup_2|]. split; [lia|]. intros ->.
    pose proof (NoDup_lookup _ _ _ _ Hnd Hid En). lia. }
  rewrite E, bind_ok, write_page_ok, bind_ok by done.
  destruct (IH (Datatypes.S idx) (with_dirty t id bytes)) as (t' & E' & Hch & P' & Hh & Hf);
    [apply pool_written; [done|done|exact Hr]|lia|done|done|].
  exists t'. rewrite E'. split; [done|]. rewrite (drop_S _ _ _ Hid).
  assert (id ∉ drop (Datatypes.S idx) pages) as Hnid.
  { intros (j & Hj)%list_elem_of_lookup. rewrite lookup_drop in Hj. pose proof (NoDup_lookup _ _ _ _ Hnd Hid Hj). lia. }
  split_and!; [|done|done|].
  - cbn. econstructor; [apply Hf; [done|by apply view_written]|done|done].
  - intros i n Hi Vi. rewrite not_elem_of_cons in Hi. apply Hf; [tauto|]. apply view_other; tauto.
Qed.

(** The pages a chain is written to. *)
Lemma reserve_ok t base F old required :
  pool t base F → NoDup old →
  (∀ i, i ∈ old → 0 < i < tx_next t ∧ i ≠ root_page_id (next_header t) ∧ i ∉ F) →
  0 < required → tx_next t + required < 2 ^ 63 →
  ∃ new t' F',
    (if required <=? len old then
       pages ← ok_or (get_range old 0 required) (invalid_data "overflow reuse range is invalid");
       tail ← ok_or (get_range old required (len old)) (invalid_data "overflow tail range is invalid");
       t ← free_pages t tail; Ok (pages, t)
     else
       a ← allocate_pages (Z.to_nat required) t base; t ← free_pages a.2 old; Ok (a.1, t)) = Ok (new, t') ∧
    len new = required ∧ NoDup new ∧ exchanges t t' base F F' old new ∧
    (∀ i, i ∈ new → 0 < i < tx_next t' ∧ i ∉ F' ∧ (i ∈ old ∨ i ∈ F ∨ tx_next t ≤ i)) ∧
    ∀ i n, i ∉ old → view t base i n → view t' base i n.
Proof.
  intros P Hnd Hold Hreq Hroom. destruct (Z.leb_spec required (len old)) as [Hle|Hgt].
  - rewrite !get_range_some by lia. cbn [ok_or]. rewrite !bind_ok, slice_take, slice_drop by lia.
    set (r := Z.to_nat required). pose proof Hnd as Hnd'. rewrite <- (take_drop r old) in Hnd'.
    apply NoDup_app in Hnd' as (Hn1 & Hd & Hn2).
    destruct (free_pages_ok t base F (drop r old) P Hn2) as (t' & E & [EP ER EN EG] & Hn & Hf).
    { intros i Hi. apply Hold. rewrite <- (take_drop r old), elem_of_app. by right. }
    rewrite E, bind_ok. exists (take r old), t', (drop r old ++ F). rewrite len_nil in EN.
    split_and!; [done| |done| | |].
    + unfold len. rewrite length_take. unfold len in Hle. lia.
    + constructor; [done|done|pose proof (len_nonneg (take r old)); lia|].
      rewrite app_assoc, take_drop, Hn, Z.sub_diag, seqZ_nil, app_nil_r by lia. done.
    + intros i Hi. assert (i ∈ old) as Hio by (rewrite <- (take_drop r old), elem_of_app; by left).
      destruct (Hold i Hio) as (? & ? & ?). rewrite Hn. split_and!; [lia|lia| |by left].
      rewrite not_elem_of_app. split; [by apply Hd|done].
    + intros i n Hi. apply Hf. intros Hi'. apply Hi. rewrite <- (take_drop r old), elem_of_app. by right.
  - destruct (allocate_pages_ok base (Z.to_nat required) t F P ltac:(lia)) as (new & t1 & F1 & E & Hl & T & Hv & Hrg).
    rewrite E, bind_ok. cbn [fst snd]. pose proof T as [P1 R1 N1 G1].
    assert (∀ i, i ∈ old → i ∉ new ∧ i ∉ F1) as Hav.
    { intros i Hi. destruct (Hold i Hi) as (? & ? & ?). by eapply takes_avoid; [exact T|done|lia]. }
    destruct (free_pages_ok t1 base F1 old P1 Hnd) as (t' & E' & [EP ER EN EG] & Hn & Hf).
    { intros i Hi. destruct (Hold i Hi) as (? & ? & ?). rewrite R1. split_and!; [lia|lia|done|by apply Hav]. }
    rewrite E', bind_ok. exists new, t', (old ++ F1). assert (NoDup (new ++ F1)) as HndN.
    { rewrite G1. apply NoDup_app. split_and!; [apply P| |apply NoDup_seqZ].
      intros i Hi Hi'. apply (pool_range _ _ _ _ P) in Hi. apply elem_of_seqZ in Hi'. lia. }
    pose proof HndN as HndN'. apply NoDup_app in HndN' as (HnN & HdN & _).
    split_and!; [done|unfold len; lia|done| | |].
    + constructor; [done|congruence|lia|]. rewrite Hn, cnt_perm. rewrite cnt_perm in G1. intros x.
      specialize (G1 x). rewrite !cnt_app in *. lia.
    + intros i Hi. rewrite Forall_forall in Hrg. rewrite Hn. pose proof (Hrg i Hi). split_and!; [lia|lia| |].
      * rewrite not_elem_of_app. split; [|by apply HdN]. intros Hio. by destruct (Hav i Hio).
      * assert (i ∈ F ++ seqZ (tx_next t) (tx_next t1 - tx_next t)) as Hin.
        { rewrite <- G1, elem_of_app. by left. }
        rewrite elem_of_app, elem_of_seqZ in Hin. destruct Hin; [by right; left|right; right; lia].
    + intros i n Hi Vi. apply Hf; [done|]. by apply Hv.
Qed.

Lemma write_overflow_chain_ok t base F stored old :
  pool t base F → NoDup old →
  (∀ i, i ∈ old → 0 < i < tx_next t ∧ i ≠ root_page_id (next_header t) ∧ i ∉ F) →
  0 < len stored < 2 ^ 32 → tx_next t + 2 ^ 32 < 2 ^ 63 →
  ∃ head t' F' new bs, write_overflow_chain t base stored old = Ok (head, t') ∧
    exchanges t t' base F F' old new ∧ chain (view t' base) head new bs ∧ concat bs = stored ∧
    new ≠ [] ∧ NoDup new ∧
    (∀ i, i ∈ new → 0 < i < tx_next t' ∧ i ∉ F' ∧ (i ∈ old ∨ i ∈ F ∨ tx_next t ≤ i)) ∧
    ∀ i n, i ∉ old → i ∉ F → view t base i n → view t' base i n.
Proof.
  intros P Hnd Hold Hs Hroom. destruct (chunks_ok stored) as (Hc1 & Hc2 & Hc3).
  assert (0 < div_ceil (len stored) OVERFLOW_PAYLOAD_LEN ≤ len stored) as Hreq.
  { unfold div_ceil, OVERFLOW_PAYLOAD_LEN. split.
    - apply Z.div_str_pos. lia.
    - apply Z.div_le_upper_bound; lia. }
  unfold write_overflow_chain. cbv zeta.
  replace (div_ceil (len stored) OVERFLOW_PAYLOAD_LEN =? 0) with false by lia.
  destruct (reserve_ok t base F old _ P Hnd Hold (proj1 Hreq) ltac:(lia)) as (new & t1 & F' & E & Hl & HnN & X & HN & Hf).
  rewrite E, bind_ok. cbn [fst snd]. pose proof X as [XP XR XN XG].
  destruct (write_chunks_ok base new F' HnN (chunks OVERFLOW_PAYLOAD_LEN stored) 0 t1 XP) as (t' & E' & Hch & P' & Hh & Hf').
  { unfold len in *. lia. } { done. } { intros i Hi. by destruct (HN i Hi) as (? & ? & _). }
  change (Z.of_nat 0) with 0 in E'. rewrite E', bind_ok, drop_0 in *.
  destruct new as [|h new]; [rewrite len_nil in Hl; lia|]. cbn [head ok_or]. rewrite bind_ok.
  assert (tx_next t' = tx_next t1) as Hn by (unfold tx_next; by rewrite Hh).
  exists h, t', F', (h :: new), (chunks OVERFLOW_PAYLOAD_LEN stored).
  split_and!; [done| |done|done|done|done| |].
  - constructor; [done|congruence|by rewrite Hn|by rewrite Hn].
  - by rewrite Hn.
  - intros i n Hi HiF Vi. apply Hf'; [|by apply Hf]. intros Hin. apply HN in Hin as (_ & _ & Hcase).
    apply view_range in Vi. destruct Hcase as [?|[?|?]]; [done|done|lia].
Qed.

(** ** Cells *)

(** The descriptors [encode_value] hands to [stage_upsert]. *)
Definition value_ok (comp : Compression) (ll : Z) (stored : list byte) : Prop :=
  is_u32 ll ∧ 0 < ll ∧ 0 < len stored < 2 ^ 32 ∧
  match comp with
  | NoCompression => ll = len stored
  | CompressionLz4 => 64 ≤ ll ∧ 4 ≤ len stored < ll * COMPRESSION_PERCENT / 100
  end.

Lemma footprint_ok c n :
  0 < key_length c ≤ MAX_ENCODED_KEY_LEN → 0 ≤ n ≤ MAX_INLINE_STORED_VALUE →
  leaf_cell_footprint c n = Some (SLOT_LEN + LEAF_CELL_PREFIX_LEN + key_length c + n).
Proof.
  unfold MAX_ENCODED_KEY_LEN, MAX_INLINE_STORED_VALUE. intros. unfold leaf_cell_footprint, SLOT_LEN, LEAF_CELL_PREFIX_LEN.
  rewrite checked_add_small by lia. cbn [mbind option_bind]. rewrite checked_add_small by lia. cbn [mbind option_bind].
  by rewrite checked_add_small by lia.
Qed.

Lemma compressed_ok comp ll stored :
  value_ok comp ll stored →
  (if negb (is_none comp) then
     let threshold := ll * COMPRESSION_PERCENT / 100 in
     if (ll <? 64) || (len stored <? 4) || (threshold <=? len stored)
     then Err (IoError InvalidInput "invalid compressed value lengths") else Ok tt
   else Ok tt) = Ok (E := io_error) tt.
Proof.
  intros (_ & _ & _ & H). destruct comp; [done|]. cbn [is_none negb]. cbv zeta. apply skip_guard; [lia|done].
Qed.

Lemma leaf_cell_ok key v p n :
  0 < len key ≤ MAX_ENCODED_KEY_LEN → leaf_value_wf v →
  leaf_cell_prefix_validate (leaf_prefix_of (len key) v) p n InvalidInput = Ok tt →
  len (inline_bytes v) < 2 ^ 32 →
  ∃ cell, encode_leaf_value key v p n = Ok cell ∧
    leaf_cell_ref_decode cell p n = Ok {| leaf_key_bytes := key; leaf_value := v |}.
Proof.
  intros Hk W V Hi. assert (MAX_ENCODED_KEY_LEN = 2004) as HM by done.
  assert (∃ cell, encode_leaf_value key v p n = Ok cell) as [cell E].
  { destruct v as [comp ll st crc|comp ll sl hd crc|]; cbn [encode_leaf_value].
    - unfold encode_inline_leaf_cell. rewrite encoded_key_length_ok, bind_ok by done.
      rewrite try_fit_small by done. cbn [ok_or]. rewrite bind_ok. destruct W as [_ ->].
      destruct (leaf_cell_prefix_encode_layout (leaf_prefix_of (len key) (Inline comp ll st (stored_value_checksum st))) 1 2 InvalidInput)
        as (b & Eb & L); [by eapply leaf_cell_prefix_validate_transfer|].
      cbn [leaf_prefix_of] in Eb. rewrite Eb, bind_ok. pose proof (lp_len _ _ L). cbn [inline_bytes] in Hi.
      unfold LEAF_CELL_PREFIX_LEN in *. rewrite write_cell_ok by lia. eauto.
    - unfold encode_overflow_leaf_cell. rewrite encoded_key_length_ok, bind_ok by done.
      destruct (leaf_cell_prefix_encode_layout _ _ _ _ V) as (b & Eb & L). cbn [leaf_prefix_of] in Eb.
      rewrite Eb, bind_ok. pose proof (lp_len _ _ L). unfold LEAF_CELL_PREFIX_LEN in *.
      rewrite write_cell_ok by (change (len (@nil byte)) with 0; lia). eauto.
    - unfold encode_tombstone_leaf_cell. rewrite encoded_key_length_ok, bind_ok by done.
      destruct (leaf_cell_prefix_encode_layout (leaf_prefix_of (len key) Tombstone) 1 2 InvalidInput)
        as (b & Eb & L); [by eapply leaf_cell_prefix_validate_transfer|].
      cbn [leaf_prefix_of] in Eb. rewrite Eb, bind_ok. pose proof (lp_len _ _ L). unfold LEAF_CELL_PREFIX_LEN in *.
      rewrite write_cell_ok by (change (len (@nil byte)) with 0; lia). eauto. }
  exists cell. split; [done|]. destruct (encode_leaf_value_inv _ _ _ _ _ W E) as (prefix & -> & L & V' & Hwf).
  by apply leaf_value_decode_ok.
Qed.

Lemma inline_cell_ok key ll comp stored p n :
  0 < len key ≤ MAX_ENCODED_KEY_LEN → value_ok comp ll stored → len stored ≤ MAX_INLINE_STORED_VALUE →
  SLOT_LEN + LEAF_CELL_PREFIX_LEN + len key + len stored ≤ MAX_CELL_FOOTPRINT →
  ∃ cell, encode_inline_leaf_cell key ll comp stored = Ok cell ∧
    leaf_cell_ref_decode cell p n
    = Ok {| leaf_key_bytes := key; leaf_value := Inline comp ll stored (stored_value_checksum stored) |}.
Proof.
  intros Hk Hv Hs Hf. pose proof Hv as (Hu & Hll & Hst & Hc).
  apply (leaf_cell_ok key (Inline comp ll stored (stored_value_checksum stored)) p n Hk); [done| |cbn; lia].
  assert (MAX_INLINE_STORED_VALUE = 512) as HI by done. assert (MAX_ENCODED_KEY_LEN = 2004) as HM by done.
  unfold leaf_cell_prefix_validate.
  cbn [leaf_prefix_of key_length value_kind stored_length logical_length overflow_head compression].
  apply skip_guard; [lia|]. rewrite try_fit_small by lia. cbn [ok_or]. rewrite bind_ok, footprint_ok by (cbn; lia).
  cbn [ok_or key_length]. rewrite bind_ok. apply skip_guard; [lia|]. eapply bind_step; [|by apply compressed_ok].
  instantiate (1 := tt). apply skip_guard; [|done]. destruct comp; cbn [is_none andb]; lia.
Qed.

Lemma overflow_cell_ok key ll comp stored head p n :
  0 < len key ≤ MAX_ENCODED_KEY_LEN → value_ok comp ll stored → 0 < head < n → n < 2 ^ 64 → head ≠ p →
  ∃ cell, encode_overflow_leaf_cell key ll comp (len stored) head (stored_value_checksum stored) p n = Ok cell ∧
    leaf_cell_ref_decode cell p n
    = Ok {| leaf_key_bytes := key;
            leaf_value := OverflowRef comp ll (len stored) head (stored_value_checksum stored) |}.
Proof.
  intros Hk Hv Hh Hn Hp. pose proof Hv as (Hu & Hll & Hst & Hc).
  assert (MAX_ENCODED_KEY_LEN = 2004) as HM by done.
  apply (leaf_cell_ok key (OverflowRef comp ll (len stored) head (stored_value_checksum stored)) p n Hk).
  { cbn. refine (conj Hu (conj _ (conj _ (crc32_u32 _)))); unfold fits; lia. }
  2:{ done. }
  unfold leaf_cell_prefix_validate.
  cbn [leaf_prefix_of key_length value_kind stored_length logical_length overflow_head compression].
  apply skip_guard; [lia|]. rewrite bind_ok, footprint_ok by (cbn; unfold MAX_INLINE_STORED_VALUE; lia).
  cbn [ok_or key_length]. rewrite bind_ok.
  apply skip_guard; [unfold SLOT_LEN, LEAF_CELL_PREFIX_LEN, MAX_CELL_FOOTPRINT; lia|].
  eapply bind_step; [|by apply compressed_ok]. instantiate (1 := tt). apply skip_guard; [lia|].
  apply skip_guard; [destruct comp; cbn [is_none andb]; lia|]. apply validate_reference_iff. lia.
Qed.

Lemma tombstone_cell_ok key p n :
  0 < len key ≤ MAX_ENCODED_KEY_LEN →
  ∃ cell, encode_tombstone_leaf_cell key = Ok cell ∧
    leaf_cell_ref_decode cell p n = Ok {| leaf_key_bytes := key; leaf_value := Tombstone |}.
Proof.
  intros Hk. assert (MAX_ENCODED_KEY_LEN = 2004) as HM by done.
  apply (leaf_cell_ok key Tombstone p n Hk); [done| |done]. unfold leaf_cell_prefix_validate.
  cbn [leaf_prefix_of key_length value_kind stored_length logical_length overflow_head compression stored_crc32].
  apply skip_guard; [lia|]. rewrite bind_ok, footprint_ok by (cbn; unfold MAX_INLINE_STORED_VALUE; lia).
  cbn [ok_or key_length]. rewrite bind_ok.
  apply skip_guard; [unfold SLOT_LEN, LEAF_CELL_PREFIX_LEN, MAX_CELL_FOOTPRINT; lia|]. done.
Qed.
End Chains.
