(* ===== verification/BtreePlace.v ===== *)
(** Putting an entry into the tree of a transaction: the leaf of the key takes
    the entry or splits, the promotions climb, the root grows, and what results
    is again a tree whose pages, sibling links, free list and page ownership
    fit together. *)

From stdpp Require Import gmap.
From S2P Require Import Prelude BtreeFormat BtreeCell BtreePage BtreeSplit BtreeTransaction BtreeNode.
From S2P Require Import BtreeOverlay BtreeMutation BtreeTree BtreeClimb BtreeChain.

Section Place.
Context {CK : Checksum} {KC : KeyCodec}.
Abbreviation entry := (key * LeafCellRef)%type.
Abbreviation separator := (key * list byte)%type.
Abbreviation leaf := (Z * list entry)%type.

Definition entries (T : btree) : list entry := concat (map snd (leaves T)).

(** ** Sibling links *)

Definition first_leaf (ls : list leaf) (nxt : Z) : Z := match ls with [] => nxt | (id, _) :: _ => id end.

Definition last_leaf (prev : Z) (ls : list leaf) : Z := default prev (fst <$> last ls).

(** The leaves [ls] are linked to each other, to [prev] on the left and to
    [nxt] on the right. *)
Fixpoint linked (V : Z → node → Prop) (prev : Z) (ls : list leaf) (nxt : Z) : Prop :=
  match ls with
  | [] => True
  | (id, es) :: ls => V id (NLeaf prev (first_leaf ls nxt) (map snd es)) ∧ linked V id ls nxt
  end.

Lemma first_leaf_app a b nxt : first_leaf (a ++ b) nxt = first_leaf a (first_leaf b nxt).
Proof. by destruct a as [|[]]. Qed.

Lemma last_leaf_cons prev id es ls : last_leaf prev ((id, es) :: ls) = last_leaf id ls.
Proof.
  unfold last_leaf. destruct ls as [|x ls]; [done|]. change (last ((id, es) :: x :: ls)) with (last (x :: ls)).
  destruct (last (x :: ls)) eqn:E; [done|]. by apply last_None in E.
Qed.

Lemma linked_app V prev a b nxt :
  linked V prev (a ++ b) nxt ↔ linked V prev a (first_leaf b nxt) ∧ linked V (last_leaf prev a) b nxt.
Proof.
  revert prev. induction a as [|[id es] a IH]; intros prev; cbn [app linked]; [unfold last_leaf; cbn; tauto|].
  rewrite IH, first_leaf_app, last_leaf_cons. tauto.
Qed.

Lemma linked_frame (V V' : Z → node → Prop) prev ls nxt :
  linked V prev ls nxt →
  (∀ id l r es, id ∈ map fst ls → V id (NLeaf l r es) → V' id (NLeaf l r es)) → linked V' prev ls nxt.
Proof.
  revert prev. induction ls as [|[id es] ls IH]; intros prev; cbn; [done|]. intros [Hv Hl] Hf. split.
  - apply Hf; [by left|done].
  - apply IH; [done|]. intros ? ? ? ? ?. apply Hf. by right.
Qed.

(** Leaves are pages of the tree. *)
Lemma leaves_cnt x : ∀ T, (cnt x (map fst (leaves T)) ≤ cnt x (ids T))%nat.
Proof.
  fix IH 1. intros [id es|id kids seps]; [done|]. rewrite ids_node. cbn [leaves]. rewrite cnt_cons.
  enough (cnt x (map fst (concat (map leaves kids))) ≤ cnt x (concat (map ids kids)))%nat by lia.
  induction kids as [|T kids IHk]; [done|]. cbn [map concat]. rewrite map_app, !cnt_app. specialize (IH T). lia.
Qed.

(** ** A tree in place *)

(** The pages of the transaction are the pages of the tree [T], the pages [P]
    that hold values outside the leaves, and the pool [F]. *)
Record skeleton (t : WriteTransaction) (base : list byte) (T : btree) (h : nat) (F P : list Z) : Prop := {
  sk_root : root_page_id (next_header t) = root_id T;
  sk_shaped : shaped h None None T;
  sk_pages : Forall (holds (view t base)) (pages T);
  sk_linked : linked (view t base) 0 (leaves T) 0;
  sk_pool : pool t base F;
  sk_owned : ids T ++ P ++ F ≡ₚ seqZ 1 (tx_next t - 1);
}.

Lemma cnt_seq x a b : cnt x (seqZ a b) = if decide (a ≤ x < a + b) then 1%nat else 0%nat.
Proof.
  assert (cnt x (seqZ a b) ≤ 1)%nat by (apply cnt_nodup, NoDup_seqZ).
  case_decide as H1; [|by apply cnt_not_in; rewrite elem_of_seqZ].
  assert (x ∈ seqZ a b) as Hin by (by apply elem_of_seqZ). apply cnt_in in Hin. lia.
Qed.

Lemma skeleton_cnt t base T h F P x :
  skeleton t base T h F P → (cnt x (ids T) + cnt x P + cnt x F = cnt x (seqZ 1 (tx_next t - 1)))%nat.
Proof. intros [_ _ _ _ _ H]. rewrite cnt_perm in H. specialize (H x). rewrite !cnt_app in H. lia. Qed.

Lemma skeleton_once t base T h F P x :
  skeleton t base T h F P → (cnt x (ids T) + cnt x P + cnt x F ≤ 1)%nat.
Proof. intros S. rewrite (skeleton_cnt _ _ _ _ _ _ _ S), cnt_seq. case_decide; lia. Qed.

Lemma skeleton_range t base T h F P x :
  skeleton t base T h F P → x ∈ ids T ∨ x ∈ P → 0 < x < tx_next t ∧ x ∉ F.
Proof.
  intros S Hx. pose proof (skeleton_cnt _ _ _ _ _ _ x S) as H. rewrite cnt_seq in H. rewrite !cnt_in in Hx.
  rewrite cnt_not_in. case_decide; lia.
Qed.

Lemma skeleton_apart t base T h F P x : skeleton t base T h F P → x ∈ P → x ∉ ids T.
Proof.
  intros S Hx. pose proof (skeleton_once _ _ _ _ _ _ x S). rewrite cnt_in in Hx. apply cnt_not_in. lia.
Qed.

(** Every level at least doubles the number of pages. *)
Lemma shaped_height h lo hi T : shaped h lo hi T → (2 ^ h ≤ length (ids T))%nat.
Proof.
  revert lo hi T. induction h as [|h IH]; intros lo hi [id es|id kids seps]; try done; intros Hs.
  destruct Hs as [Hne Hseg]. rewrite ids_node. cbn [length].
  assert (∃ lo1 hi1 c1 lo2 hi2 c2 rest, kids = c1 :: c2 :: rest ∧ shaped h lo1 hi1 c1 ∧ shaped h lo2 hi2 c2)
    as (lo1 & hi1 & c1 & lo2 & hi2 & c2 & rest & -> & H1 & H2).
  { inversion Hseg as [|? ? c1 ? ? ? ? ? ? ? H1 Hs]; subst; [done|]. inversion Hs; subst; eauto 12. }
  apply IH in H1, H2. cbn [map concat]. rewrite !length_app. cbn [Nat.pow]. lia.
Qed.

Lemma skeleton_height t base T h F P :
  skeleton t base T h F P → (h < walk_fuel t)%nat ∧ Z.of_nat h < tx_next t ∧ Z.of_nat h < 63.
Proof.
  intros S. pose proof (shaped_height _ _ _ _ (sk_shaped _ _ _ _ _ _ S)) as Hh.
  pose proof (Nat.pow_gt_lin_r 2 h ltac:(lia)) as Hlin. assert (2 ^ Z.of_nat h = Z.of_nat (2 ^ h)) as Hz by (by rewrite Nat2Z.inj_pow).
  pose proof (Permutation_length (sk_owned _ _ _ _ _ _ S)) as Hl. rewrite !length_app, length_seqZ in Hl.
  pose proof (pool_bound _ _ _ (sk_pool _ _ _ _ _ _ S)) as Hb. unfold walk_fuel. split_and!; [lia|lia|].
  apply (Z.pow_lt_mono_r_iff 2); lia.
Qed.

Lemma skeleton_nodup t base T h F P : skeleton t base T h F P → NoDup (ids T).
Proof. intros S. apply cnt_nodup. intros x. pose proof (skeleton_once _ _ _ _ _ _ x S). lia. Qed.

(** Exchanging value pages with the pool keeps the tree. *)
Lemma skeleton_exchange t t1 base T h F F1 PA old new PB :
  skeleton t base T h F (PA ++ old ++ PB) → exchanges t t1 base F F1 old new →
  (∀ i n, i ∉ old → i ∉ F → view t base i n → view t1 base i n) →
  skeleton t1 base T h F1 (PA ++ new ++ PB).
Proof.
  intros S [XP XR XN XG] Hf.
  assert (∀ i n, i ∈ ids T → view t base i n → view t1 base i n) as Hk.
  { intros i n Hi. apply Hf.
    - intros Hio. apply (skeleton_apart _ _ _ _ _ _ i S); [|done]. rewrite !elem_of_app. auto.
    - apply (skeleton_range _ _ _ _ _ _ i S). by left. }
  pose proof S as [R Sh Pg Lk P Ow]. constructor; [congruence|done| | |done|].
  - apply (holds_frame (view t base)); [done|]. intros i n Hi. by apply Hk.
  - apply (linked_frame (view t base)); [done|]. intros i l r es Hi. apply Hk. rewrite cnt_in in *.
    pose proof (leaves_cnt i T). lia.
  - rewrite cnt_perm. intros x. pose proof (skeleton_cnt _ _ _ _ _ _ x S) as Hc. rewrite cnt_perm in XG.
    specialize (XG x). rewrite !cnt_app, !cnt_seq in *. pose proof (pool_bound _ _ _ P).
    repeat case_decide; lia.
Qed.

(** ** The new leaves *)

(** Where [k] goes among sorted keys: onto itself, or between its neighbours. *)
Definition target_at (ks : list key) (k : key) (i : nat) (replace : bool) : Prop :=
  if replace then ks !! i = Some k
  else (i ≤ length ks)%nat ∧ (∀ j x, ks !! j = Some x → (j < i)%nat → key_lt x k) ∧
       (∀ j x, ks !! j = Some x → (i ≤ j)%nat → key_lt k x).

Lemma target_bounds ks k i replace :
  target_at ks k i replace → (i ≤ length ks)%nat ∧ (replace = true → (i < length ks)%nat).
Proof. destruct replace; cbn; [intros H%lookup_lt_Some; split; [lia|done]|intros [? _]; done]. Qed.

Lemma sorted_take ks n : sorted_keys ks → sorted_keys (take n ks).
Proof.
  intros H i j a b Hij Ha Hb. apply lookup_take_Some in Ha as [Ha _], Hb as [Hb _]. by eapply H.
Qed.

Lemma sorted_drop ks n : sorted_keys ks → sorted_keys (drop n ks).
Proof. intros H i j a b Hij Ha Hb. rewrite lookup_drop in Ha, Hb. eapply (H (n + i)%nat (n + j)%nat); [lia|done..]. Qed.

Lemma sorted_app ks ks' :
  sorted_keys ks → sorted_keys ks' → (∀ a b, a ∈ ks → b ∈ ks' → key_lt a b) → sorted_keys (ks ++ ks').
Proof.
  intros H H' Hm i j a b Hij Ha Hb. apply lookup_app_Some in Ha as [Ha|[Hi Ha]], Hb as [Hb|[Hj Hb]].
  - by eapply H.
  - apply Hm; by eapply list_elem_of_lookup_2.
  - apply lookup_lt_Some in Hb. lia.
  - eapply H'; [|done|done]. lia.
Qed.

Lemma sorted_cons k ks : (∀ b, b ∈ ks → key_lt k b) → sorted_keys ks → sorted_keys (k :: ks).
Proof.
  intros Hk H. change (k :: ks) with ([k] ++ ks). apply sorted_app; [|done|].
  - intros [|i] [|j] a b Hij Ha Hb; try lia; done.
  - intros a b ->%list_elem_of_singleton. apply Hk.
Qed.

Lemma sorted_spliced ks k i replace :
  sorted_keys ks → target_at ks k i replace → sorted_keys (spliced i replace k ks).
Proof.
  intros H Ht. destruct replace.
  - rewrite spliced_insert by (by apply lookup_lt_Some in Ht). by rewrite list_insert_id.
  - destruct Ht as (Hi & Hlo & Hhi). unfold spliced. apply sorted_app; [by apply sorted_take| |].
    + apply sorted_cons; [|by apply sorted_drop]. intros b (j & Hj)%list_elem_of_lookup. rewrite lookup_drop in Hj.
      apply (Hhi _ _ Hj). lia.
    + intros a b (j & Hj)%list_elem_of_lookup Hb. apply lookup_take_Some in Hj as [Hj Hji].
      pose proof (Hlo _ _ Hj Hji) as Ha. apply elem_of_cons in Hb as [->|(j' & Hb)%list_elem_of_lookup]; [done|].
      rewrite lookup_drop in Hb. eapply key_lt_trans; [exact Ha|]. apply (Hhi _ _ Hb). lia.
Qed.

Lemma map_spliced {A B} (f : A → B) i replace x l : map f (spliced i replace x l) = spliced i replace (f x) (map f l).
Proof. unfold spliced. rewrite map_app. cbn [map]. by rewrite firstn_map, skipn_map. Qed.

Lemma Forall_spliced {A} (Q : A → Prop) i replace x l : Forall Q l → Q x → Forall Q (spliced i replace x l).
Proof.
  intros H Hx. unfold spliced. apply Forall_app. split; [by apply Forall_take|]. constructor; [done|]. by apply Forall_drop.
Qed.

(** The leaf [lf] has become one leaf, or two around a boundary. *)
Inductive leaf_form (lf : Z) (new : list entry) : outcome → Prop :=
| form_one : leaf_form lf new (One (BLeaf lf new))
| form_two b nl k e :
    (0 < b < length new)%nat → new !! b = Some (k, e) → 0 < len (leaf_key_bytes e) ≤ MAX_ENCODED_KEY_LEN →
    leaf_form lf new (Two (BLeaf lf (take b new)) (k, leaf_key_bytes e) (BLeaf nl (drop b new))).

Lemma form_leaves lf new o : leaf_form lf new o → concat (map snd (out_leaves o)) = new.
Proof. destruct 1; cbn; rewrite app_nil_r; [done|apply take_drop]. Qed.

Lemma starts_spliced lo k e es i replace :
  starts_at lo es → above lo k → target_at (map fst es) k i replace → starts_at lo (spliced i replace (k, e) es).
Proof.
  intros Hs Hlo Ht. destruct lo as [s|]; [|done]. destruct es as [|[s' e'] es]; [done|]. cbn in Hs, Hlo.
  injection Hs as ->. unfold spliced. destruct i as [|i]; [|done]. cbn. f_equal. destruct replace; cbn in Ht.
  - by injection Ht as ->.
  - destruct Ht as (_ & _ & Hhi). specialize (Hhi 0%nat s eq_refl ltac:(lia)). by apply key_lt_not_le in Hhi.
Qed.

Lemma form_replaces k lf es i replace e o :
  leaf_form lf (spliced i replace (k, e) es) o → leaf_key_bytes e = key_to_vec k →
  target_at (map fst es) k i replace → replaces k lf es o.
Proof.
  intros Hform Hke Ht. split; [by destruct Hform|]. intros lo hi (Hs & Hf & Hst) Hlo Hhi.
  assert (sorted_keys (map fst (spliced i replace (k, e) es))) as Hs'.
  { rewrite map_spliced. by apply sorted_spliced. }
  assert (Forall (λ e, leaf_key_bytes e.2 = key_to_vec e.1 ∧ above lo e.1 ∧ under hi e.1) (spliced i replace (k, e) es)) as Hf'.
  { by apply Forall_spliced. }
  pose proof (starts_spliced lo k e es i replace Hst Hlo Ht) as Hst'.
  destruct Hform as [|b nl kb eb Hb Hkb Hlen]; [by split|]. revert Hs' Hf' Hst' Hb Hkb.
  generalize (spliced i replace (k, e) es) as new. intros new Hs' Hf' Hst' Hb Hkb.
  pose proof (proj1 (Forall_lookup _ _) Hf' _ _ Hkb) as (Ek & _ & Hu). cbn [fst snd] in Ek, Hu.
  assert (map fst new !! b = Some kb) as Hkb' by (by rewrite list_lookup_fmap, Hkb).
  assert (∀ x, x ∈ take b new → key_lt x.1 kb) as Hbelow.
  { intros x (j & Hj)%list_elem_of_lookup. apply lookup_take_Some in Hj as [Hj Hjb].
    apply (Hs' j b); [done| |done]. by rewrite list_lookup_fmap, Hj. }
  assert (∀ x, x ∈ drop b new → key_le kb x.1) as Habove.
  { intros x (j & Hj)%list_elem_of_lookup. rewrite lookup_drop in Hj. apply key_le_iff.
    destruct j as [|j]; [right; rewrite Nat.add_0_r in Hj; by simplify_eq|]. left.
    apply (Hs' b (b + S j)%nat); [lia|done|]. by rewrite list_lookup_fmap, Hj. }
  refine (conj (conj Ek Hlen) (conj _ (conj Hu (conj (conj _ (conj _ _)) (conj _ (conj _ _)))))); cbn [fst].
  - destruct (lookup_lt_is_Some_2 new 0 ltac:(lia)) as [x0 Hx0].
    assert (x0 ∈ take b new) as Hin by (eapply list_elem_of_lookup_2, lookup_take_Some; split; [exact Hx0|lia]).
    pose proof (proj1 (Forall_lookup _ _) Hf' _ _ Hx0) as (_ & Ha & _). destruct lo as [m|]; [|done]. cbn in *.
    eapply key_le_lt_trans; [exact Ha|by apply Hbelow].
  - rewrite <- firstn_map. by apply sorted_take.
  - apply Forall_forall. intros x Hx. pose proof (Hbelow x Hx). apply (Forall_take _ b) in Hf'.
    rewrite Forall_forall in Hf'. destruct (Hf' x Hx) as (? & ? & _). done.
  - destruct new as [|x new]; [done|]. destruct b as [|b]; [lia|]. exact Hst'.
  - rewrite <- skipn_map. by apply sorted_drop.
  - apply Forall_forall. intros x Hx. pose proof (Habove x Hx). apply (Forall_drop _ b) in Hf'.
    rewrite Forall_forall in Hf'. destruct (Hf' x Hx) as (? & _ & ?). done.
  - by rewrite (drop_S _ _ _ Hkb).
Qed.

Lemma leaf_decode_key_len raw p n e :
  leaf_cell_ref_decode raw p n = Ok e → 0 < len (leaf_key_bytes e) ≤ MAX_ENCODED_KEY_LEN.
Proof.
  intros D. destruct (leaf_value_decode_inv _ _ _ _ D) as [W E].
  destruct (encode_leaf_value_inv _ _ _ _ _ W E) as (prefix & _ & _ & V & _).
  apply leaf_prefix_key_bound in V. pose proof (len_nonneg (leaf_key_bytes e)).
  destruct (leaf_value e); cbn [leaf_prefix_of key_length] in V; lia.
Qed.

Lemma view_key_lens t base id l r es :
  view t base id (NLeaf l r es) → Forall (λ e, 0 < len (leaf_key_bytes e) ≤ MAX_ENCODED_KEY_LEN) es.
Proof.
  intros V. destruct (leaf_raws _ _ _ _ _ _ V) as (_ & _ & raws & _ & _ & _ & _ & _ & _ & _ & _ & _ & _ & _ & Hd & _).
  clear V. induction Hd as [|raw e raws es D _ IH]; constructor; [by eapply leaf_decode_key_len|done].
Qed.

(** ** The leaf of a tree in place *)

Section Leaf.
Context (t : WriteTransaction) (base : list byte) (T : btree) (h : nat) (F P : list Z).
Context (Sk : skeleton t base T h F P).
Context (lf : Z) (es : list entry) (LP LS : list leaf).
Context (Leaves : leaves T = LP ++ (lf, es) :: LS).

Lemma leaf_in_ids x : x ∈ map fst (leaves T) → x ∈ ids T.
Proof. intros H. rewrite cnt_in in *. pose proof (leaves_cnt x T). lia. Qed.

Lemma leaf_ids_once x : (cnt x (map fst LP) + cnt x [lf] + cnt x (map fst LS) ≤ 1)%nat.
Proof.
  pose proof (leaves_cnt x T) as Hl. pose proof (skeleton_once _ _ _ _ _ _ x Sk).
  rewrite Leaves, map_app in Hl. cbn [map fst] in Hl. rewrite cnt_app, cnt_cons in Hl. lia.
Qed.

Lemma leaf_links :
  linked (view t base) 0 LP lf ∧ view t base lf (NLeaf (last_leaf 0 LP) (first_leaf LS 0) (map snd es)) ∧
  linked (view t base) lf LS 0.
Proof. pose proof (sk_linked _ _ _ _ _ _ Sk) as H. rewrite Leaves, linked_app in H. exact H. Qed.

Lemma sibling_in_ids : first_leaf LS 0 ≠ 0 → first_leaf LS 0 ∈ ids T.
Proof.
  intros H. apply leaf_in_ids. rewrite Leaves, map_app. cbn [map fst]. rewrite elem_of_app, elem_of_cons. right. right.
  destruct LS as [|[r res] LS']; [done|]. by left.
Qed.

Lemma sibling_view :
  first_leaf LS 0 ≠ 0 → ∃ rr res, view t base (first_leaf LS 0) (NLeaf lf rr res).
Proof. intros H. destruct leaf_links as (_ & _ & Hl). destruct LS as [|[r res] LS']; [done|]. destruct Hl. eauto. Qed.

Lemma leaf_own : lf ∈ ids T.
Proof. apply leaf_in_ids. rewrite Leaves, map_app, elem_of_app. right. by left. Qed.

Lemma skeleton_mutable :
  tx_next t + 1 < 2 ^ 63 → mutable_leaf t base F lf (last_leaf 0 LP) (first_leaf LS 0) (map snd es).
Proof.
  intros Hroom. destruct leaf_links as (_ & V & _). constructor; [apply Sk|done| | |  |done].
  - apply (skeleton_range _ _ _ _ _ _ lf Sk). left. apply leaf_own.
  - destruct (decide (first_leaf LS 0 = 0)) as [E|Hne].
    + rewrite E. intros Hi. apply (pool_range _ _ _ _ (sk_pool _ _ _ _ _ _ Sk)) in Hi. lia.
    + apply (skeleton_range _ _ _ _ _ _ _ Sk). left. by apply sibling_in_ids.
  - intros H. destruct (sibling_view H) as (rr & res & Vr). eauto.
Qed.

(** The state after the leaf has taken its new entries. *)
Record placed (t2 : WriteTransaction) (F2 fresh : list Z) (new : list entry) (o : outcome) : Prop := {
  pl_takes : takes t t2 base F F2 fresh;
  pl_fresh : (length fresh ≤ 1)%nat;
  pl_form : leaf_form lf new o;
  pl_ids : ∀ x, (cnt x (out_ids o) = cnt x [lf] + cnt x fresh)%nat;
  pl_pages : Forall (holds (view t2 base)) (out_pages o);
  pl_links : linked (view t2 base) 0 (LP ++ out_leaves o ++ LS) 0;
  pl_kept : ∀ ps, ps.1 ≠ lf → ps.1 ∉ F → holds (view t base) ps → holds (view t2 base) ps;
  pl_frame : ∀ i n, i ≠ lf → i ≠ first_leaf LS 0 → i ∉ F → view t base i n → view t2 base i n;
}.

Lemma placed_one t2 new :
  leaf_outcome t t2 base F lf (last_leaf 0 LP) (first_leaf LS 0) (map snd new) None →
  placed t2 F [] new (One (BLeaf lf new)).
Proof.
  intros (Tk & V & Hf). destruct leaf_links as (HL & _ & HR). constructor.
  - done.
  - cbn. lia.
  - constructor.
  - intros x. unfold out_ids. cbn [out_pages pages map fst]. rewrite cnt_nil. lia.
  - cbn. constructor; [|constructor]. do 2 eexists. exact V.
  - cbn [out_leaves leaves]. rewrite linked_app. cbn [app first_leaf linked]. split_and!; [|exact V|];
      (eapply linked_frame; [eassumption|]); intros id l r es' Hid; apply Hf; intros ->;
      pose proof (leaf_ids_once lf) as Ho; rewrite cnt_same in Ho; rewrite cnt_in in Hid; lia.
  - intros ps Hne HF Hh. assert (Forall (holds (view t2 base)) [ps]) as Hx; [|by inversion Hx].
    apply (holds_frame (view t base)); [by constructor|]. intros i n Hi. cbn in Hi.
    apply list_elem_of_singleton in Hi as ->. by apply Hf.
  - intros i n Hi _ _. by apply Hf.
Qed.

(** The leaves to the left are apart from the leaf and its right sibling. *)
Lemma left_leaf_apart x l r es' :
  x ∈ map fst LP → view t base x (NLeaf l r es') → x ≠ lf ∧ x ≠ first_leaf LS 0 ∧ x ∉ F.
Proof.
  intros Hx V. pose proof (leaf_ids_once x) as Ho. rewrite cnt_in in Hx. apply view_range in V. split_and!.
  - intros ->. rewrite cnt_same in Ho. lia.
  - intros E. destruct LS as [|[r' res] LS']; cbn [first_leaf] in E; [lia|]. subst r'. cbn [map fst] in Ho.
    rewrite (cnt_cons x x), cnt_same in Ho. lia.
  - apply (skeleton_range _ _ _ _ _ _ x Sk). left. apply leaf_in_ids. rewrite Leaves, map_app, elem_of_app. left. by apply cnt_in.
Qed.

(** The leaves beyond the right sibling likewise. *)
Lemma far_leaf_apart r res LS' x :
  LS = (r, res) :: LS' → x ∈ map fst LS' → x ≠ lf ∧ x ≠ r ∧ x ∉ F.
Proof.
  intros E Hx. pose proof (leaf_ids_once x) as Ho. rewrite E in Ho. cbn [map fst] in Ho. rewrite (cnt_cons x r) in Ho.
  pose proof Hx as Hx'. rewrite cnt_in in Hx. split_and!.
  - intros ->. rewrite cnt_same in Ho. lia.
  - intros ->. rewrite cnt_same in Ho. lia.
  - apply (skeleton_range _ _ _ _ _ _ x Sk). left. apply leaf_in_ids. rewrite Leaves, E, map_app, elem_of_app. right.
    right. by right.
Qed.

Lemma placed_two t2 new pr :
  leaf_split t t2 base F lf (last_leaf 0 LP) (first_leaf LS 0) (map snd new) pr →
  ∃ o F2 fresh, out_promotion o = Some pr ∧ placed t2 F2 fresh new o.
Proof.
  intros [(nl & F' & b & e & Tk & Hb & He & -> & Vl & Vn & Hr & Hf)]. rewrite length_map in Hb.
  rewrite list_lookup_fmap in He. apply fmap_Some in He as ([k e'] & Hke & ->). cbn [snd] in *.
  rewrite firstn_map in Vl. rewrite skipn_map in Vn. destruct leaf_links as (HL & _ & HR).
  exists (Two (BLeaf lf (take b new)) (k, leaf_key_bytes e') (BLeaf nl (drop b new))), F', [nl].
  split; [done|]. constructor.
  - done.
  - done.
  - econstructor; [done|done|]. pose proof (view_key_lens _ _ _ _ _ _ Vn) as Hlen.
    rewrite Forall_forall in Hlen. apply Hlen. rewrite (drop_S _ _ _ Hke). by left.
  - intros x. rewrite out_ids_two. unfold ids. cbn [pages map fst]. by rewrite cnt_app.
  - cbn. repeat constructor; do 2 eexists; [exact Vl|exact Vn].
  - cbn [out_leaves leaves]. rewrite linked_app. cbn [app first_leaf linked]. split_and!; [|exact Vl|exact Vn|].
    + eapply linked_frame; [exact HL|]. intros id l r es' Hid V. destruct (left_leaf_apart _ _ _ _ Hid V) as (? & ? & ?).
      by apply Hf.
    + enough (∀ ls, LS = ls → linked (view t base) lf ls 0 → linked (view t2 base) nl ls 0) by auto.
      intros [|[r res] LS'] EL; [done|]. rewrite EL in Hr, Hf. intros [Vr HR'].
      split; [by eapply Hr|]. eapply linked_frame; [exact HR'|]. intros id l r' es' Hid V.
      destruct (far_leaf_apart _ _ _ id EL Hid) as (? & ? & ?). by apply Hf.
  - intros [i [es'|lm cs]] Hne HF; cbn; intros Hh; cbn in Hne, HF.
    + destruct Hh as (l & r & V). destruct (decide (i = first_leaf LS 0)) as [->|Hi]; [|by exists l, r; apply Hf].
      do 2 eexists. by eapply Hr.
    + destruct (decide (i = first_leaf LS 0)) as [->|Hi]; [|by apply Hf].
      destruct (sibling_view ltac:(apply view_range in Hh; lia)) as (rr & res & Vr).
      by pose proof (view_inj _ _ _ _ _ Hh Vr).
  - done.
Qed.

Lemma placed_ok t2 new o :
  leaf_outcome t t2 base F lf (last_leaf 0 LP) (first_leaf LS 0) (map snd new) o →
  ∃ o' F2 fresh, out_promotion o' = o ∧ placed t2 F2 fresh new o'.
Proof.
  destruct o as [pr|]; [apply placed_two|]. intros H. exists (One (BLeaf lf new)), F, [].
  split; [done|by apply placed_one].
Qed.

(** What the climb needs. *)
Lemma placed_climbing t2 F2 fresh new o : placed t2 F2 fresh new o → climbing t2 base F2 T lf o.
Proof.
  intros [Tk _ _ Hids Hpg _ Hkept _]. constructor; [apply Tk| |done|].
  - intros ps Hps Hne. pose proof (sk_pages _ _ _ _ _ _ Sk) as Hh. rewrite Forall_forall in Hh. apply Hkept; [done| |by apply Hh].
    apply (skeleton_range _ _ _ _ _ _ _ Sk). left. by apply list_elem_of_In, in_map, list_elem_of_In.
  - intros x. rewrite Hids. pose proof (takes_cnt _ _ _ _ _ _ x Tk) as Hc. pose proof (skeleton_cnt _ _ _ _ _ _ x Sk) as Hs.
    rewrite !cnt_seq in *. pose proof (tk_next _ _ _ _ _ _ Tk). repeat case_decide; lia.
Qed.
End Leaf.

(** ** The root *)

(** The state after the climb, before the root grows. *)
Record arrived (t : WriteTransaction) (base : list byte) (F : list Z) (h : nat) (o : outcome) (P : list Z) : Prop := {
  ad_root : root_page_id (next_header t) = out_root o;
  ad_shaped : out_shaped h None None o;
  ad_pages : Forall (holds (view t base)) (out_pages o);
  ad_linked : linked (view t base) 0 (out_leaves o) 0;
  ad_pool : pool t base F;
  ad_owned : out_ids o ++ P ++ F ≡ₚ seqZ 1 (tx_next t - 1);
}.

Lemma arrived_range t base F h o P x : arrived t base F h o P → x ∈ out_ids o ∨ x ∈ P → x ∉ F ∧ 0 < x < tx_next t.
Proof.
  intros [_ _ _ _ _ H] Hx. rewrite cnt_perm in H. specialize (H x). rewrite !cnt_app, cnt_seq in H.
  rewrite !cnt_in in Hx. rewrite cnt_not_in. case_decide; lia.
Qed.

Lemma grow_root_ok t base F h T1 s T2 P :
  arrived t base F h (Two T1 s T2) P → tx_next t + 1 < 2 ^ 63 →
  ∃ t' nr F', grow_root t base {| promotion_key := s.2; promotion_right_child := root_id T2 |} = Ok t' ∧
    pool t' base F' ∧ root_page_id (next_header t') = nr ∧ tx_next t ≤ tx_next t' ≤ tx_next t + 1 ∧
    [nr] ++ F' ≡ₚ F ++ seqZ (tx_next t) (tx_next t' - tx_next t) ∧
    view t' base nr (NInternal (root_id T1) [node_cell s T2]) ∧
    ∀ i n, i ∉ F → view t base i n → view t' base i n.
Proof.
  intros Ar Hroom. pose proof Ar as [HR (Hok & _ & _ & _ & _) _ _ Pl _].
  destruct (allocate_page_ok t base F Pl Hroom) as (nr & t1 & F' & Ea & A). pose proof (allocated_takes _ _ _ _ _ _ A) as Tk.
  pose proof A as [P1 Hv _ Hnr Hn _]. pose proof (pool_bound _ _ _ P1).
  assert (∀ T, T = T1 ∨ T = T2 → 0 < root_id T < tx_next t1 ∧ root_id T ≠ nr) as Hroots.
  { intros T HT. assert (root_id T ∈ out_ids (Two T1 s T2)) as Hin.
    { rewrite out_ids_two, elem_of_app. destruct HT as [-> | ->]; [left|right]; apply root_in_ids. }
    destruct (arrived_range _ _ _ _ _ _ _ Ar (or_introl Hin)) as [HF Hr]. split; [lia|]. intros E.
    destruct (takes_avoid _ _ _ _ _ _ _ Tk HF ltac:(lia)) as [Ha _]. apply Ha. rewrite E. by left. }
  destruct (Hroots T1 ltac:(by left)) as [Hr1 Hn1]. destruct (Hroots T2 ltac:(by right)) as [Hr2 Hn2].
  assert (∃ raw, encode_internal_cell s.2 (root_id T2) nr (tx_next t1) = Ok raw) as [raw Er].
  { eexists. apply encode_internal_cell_iff. split_and!; [apply Hok|apply Hok|lia|lia|done|reflexivity]. }
  assert (internal_cell_ref_decode raw nr (tx_next t1) = Ok (node_cell s T2)) as D.
  { apply internal_decode_iff. split; [cbn; unfold fits; lia|done]. }
  assert (Forall2 (λ raw c, internal_cell_ref_decode raw nr (tx_next t1) = Ok c) [raw] [node_cell s T2]) as HD by (by constructor).
  destruct (internal_page_ok nr (root_id T1) [raw] [node_cell s T2] (tx_next t1)) as (page & Ep & Sp);
    [unfold fits; lia|lia|lia|lia|lia|lia|lia|done|done| |].
  { pose proof (internal_decode_size _ _ _ _ D) as [_ Ha]. unfold admissible in Ha. rewrite weight_cons, weight_nil.
    unfold PAGE_HEADER_LEN, INTERNAL_PREAMBLE_LEN, PAGE_SIZE, MAX_INTERNAL_FOOTPRINT, SLOT_LEN in *. lia. }
  unfold grow_root. cbv zeta. rewrite Ea, bind_ok. cbn [fst snd promotion_key promotion_right_child].
  rewrite Er, bind_ok, HR. cbn [out_root]. rewrite Ep, bind_ok, write_page_ok, bind_ok by done.
  eexists _, nr, F'. split; [reflexivity|].
  match goal with |- pool ?u _ _ ∧ _ =>
    assert (∀ i n, view (with_dirty t1 nr page) base i n → view u base i n) as Hg by (intros i n; by apply view_grow) end.
  assert (nr ∉ F') as HnF by (eapply takes_fresh; [exact Pl|exact Tk|by left]).
  split_and!; [apply pool_root, pool_written; [done|done|exact Hnr]|done|cbn; unfold tx_next in *; lia|cbn; unfold tx_next in *; lia|apply Tk| |].
  - apply Hg. by apply view_written.
  - intros i n HiF Vi. apply Hg, view_other; [|by apply Hv]. exact (allocated_fresh _ _ _ _ _ _ _ _ A Vi HiF).
Qed.

Definition finish (t : WriteTransaction) (base : list byte) (o : option Promotion) : io_result WriteTransaction :=
  match o with None => Ok t | Some pr => grow_root t base pr end.

Lemma finish_ok t base F h o P :
  arrived t base F h o P → tx_next t + 1 < 2 ^ 63 →
  ∃ t' T' h' F', finish t base (out_promotion o) = Ok t' ∧ skeleton t' base T' h' F' P ∧
    leaves T' = out_leaves o ∧ tx_next t ≤ tx_next t' ≤ tx_next t + 1 ∧
    ∀ i n, i ∉ F → view t base i n → view t' base i n.
Proof.
  intros Ar Hroom. destruct o as [T'|T1 s T2].
  { destruct Ar. exists t, T', h, F. split_and!; try done; lia. }
  destruct (grow_root_ok _ _ _ _ _ _ _ _ Ar Hroom) as (t' & nr & F' & E & Pl & HR & Hn & Hp & V & Hf).
  exists t', (BNode nr [T1; T2] [s]), (S h), F'. cbn [leaves map concat]. rewrite app_nil_r.
  pose proof (λ x Hx, arrived_range _ _ _ _ _ _ x Ar (or_introl Hx)) as Hin.
  pose proof Ar as [_ (Hok & Hlo & Hhi & H1 & H2) Hpg Hlk _ Ow]. destruct s as [k kb].
  split_and!; [done| |done|lia|lia|done]. constructor.
  - done.
  - split; [done|]. apply seg_cons; [done..|]. by apply seg_one.
  - cbn [pages map concat]. rewrite app_nil_r. constructor; [exact V|].
    apply (holds_frame (view t base)); [exact Hpg|]. intros i n Hi. apply Hf. by apply Hin.
  - cbn [leaves map concat]. rewrite app_nil_r. apply (linked_frame (view t base)); [exact Hlk|].
    intros i l r es Hi. apply Hf, Hin. cbn [out_leaves] in Hi. rewrite out_ids_two, cnt_in, cnt_app.
    rewrite map_app, cnt_in, cnt_app in Hi. pose proof (leaves_cnt i T1). pose proof (leaves_cnt i T2). lia.
  - done.
  - rewrite cnt_perm in *. intros x. specialize (Hp x). specialize (Ow x). rewrite ids_node. cbn [map concat].
    rewrite app_nil_r. rewrite out_ids_two, !cnt_app in *. rewrite (cnt_cons x nr (ids T1 ++ ids T2)), cnt_app.
    rewrite !cnt_seq in *.
    pose proof (pool_bound _ _ _ (ad_pool _ _ _ _ _ _ Ar)). repeat case_decide; lia.
Qed.

(** ** Putting an entry in place *)

Lemma climbed_arrived t t2 t3 base T h F P lf es LP LS F2 fresh new o o' :
  skeleton t base T h F P → leaves T = LP ++ (lf, es) :: LS → placed t base F lf LP LS t2 F2 fresh new o →
  climbed t2 t3 base F2 T h None None lf LP LS o o' →
  ∃ F3, arrived t3 base F3 h o' P ∧ tx_next t3 ≤ tx_next t2 + Z.of_nat h ∧
    ∀ i n, i ∈ P → view t base i n → view t3 base i n ∧ i ∉ F3.
Proof.
  intros Sk HL Pl [(F3 & fresh' & Tk' & Hfl & Hcnt) Hroot Hsh Hpg Hlv Hfr Hlf].
  pose proof Pl as [Tk _ Hform Hids _ Hlinks _ Hframe]. exists F3.
  pose proof (tk_next _ _ _ _ _ _ Tk) as N1. pose proof (tk_next _ _ _ _ _ _ Tk') as N2.
  assert (∀ x, (cnt x (out_ids o') + cnt x P + cnt x F3 = cnt x (seqZ 1 (tx_next t3 - 1)))%nat) as Hown.
  { intros x. pose proof (skeleton_cnt _ _ _ _ _ _ x Sk) as Hs. pose proof (takes_cnt _ _ _ _ _ _ x Tk) as H1.
    pose proof (takes_cnt _ _ _ _ _ _ x Tk') as H2. specialize (Hcnt x). specialize (Hids x).
    pose proof (pool_bound _ _ _ (sk_pool _ _ _ _ _ _ Sk)). rewrite !cnt_seq in *. repeat case_decide; lia. }
  split_and!.
  - constructor; [|done|done| |apply Tk'|].
    + rewrite (tk_root _ _ _ _ _ _ Tk'), (tk_root _ _ _ _ _ _ Tk), (sk_root _ _ _ _ _ _ Sk). done.
    + rewrite Hlv. eapply linked_frame; [exact Hlinks|]. intros i l r es' Hi. apply Hlf.
      assert (climbing t2 base F2 T lf o) as Cl by (by eapply placed_climbing).
      apply (climbing_range _ _ _ _ _ _ i Cl).
      * by eapply leaf_own.
      * replace lf with (out_root o) at 1 by (by destruct Hform). apply out_root_in.
      * rewrite !map_app, !elem_of_app in Hi.
        assert (∀ x, x ∈ map fst LP ∨ x ∈ map fst LS → x ∈ ids T) as Hids'.
        { intros x Hx. apply leaf_in_ids. rewrite HL, map_app. cbn [map fst]. rewrite elem_of_app, elem_of_cons. tauto. }
        destruct Hi as [Hi|[Hi|Hi]]; [left; auto| |left; auto]. right.
        destruct Hform; [exact Hi|]. rewrite out_ids_two. exact Hi.
    + rewrite cnt_perm. intros x. rewrite !cnt_app. specialize (Hown x). lia.
  - unfold len in N2. lia.
  - intros i n Hi V. specialize (Hown i). rewrite cnt_in in Hi. rewrite cnt_seq in Hown.
    split; [|apply cnt_not_in; case_decide; lia].
    pose proof (skeleton_cnt _ _ _ _ _ _ i Sk) as Hs. pose proof (view_range _ _ _ _ V) as Hr.
    rewrite cnt_seq in Hs. rewrite decide_True in Hs by lia.
    assert (i ∉ ids T) as HiT by (apply cnt_not_in; lia). assert (i ∉ F) as HiF by (apply cnt_not_in; lia).
    destruct (takes_avoid _ _ _ _ _ _ i Tk HiF ltac:(lia)) as [Hifr HiF2].
    assert (i ≠ lf) as Hne by (intros ->; apply HiT; by eapply leaf_own).
    apply Hfr; [done| |done|].
    + apply cnt_not_in. rewrite Hids, (cnt_other _ _ Hne). apply cnt_not_in in Hifr. lia.
    + apply Hframe; [done| |done|done]. intros E. apply HiT. rewrite E. eapply sibling_in_ids; [exact HL|].
      rewrite <- E. lia.
Qed.

(** [mutate_leaf] and the promotions it causes put the entry [(k, e)] in place
    and keep the pages of the values. *)
Lemma place_ok t base T h F P k path lf es LP LS i replace raw e :
  skeleton t base T h F P → descends k T path lf es LP LS → target_at (map fst es) k i replace →
  leaf_cell_ref_decode raw lf (tx_next t) = Ok e → leaf_key_bytes e = key_to_vec k →
  Forall (λ r, r ∈ P) (concat (map (λ e, value_refs (leaf_value e.2)) (spliced i replace (k, e) es))) →
  tx_next t < 2 ^ 61 →
  ∃ o t2, mutate_leaf t base lf (Z.of_nat i) replace raw = Ok (o, t2) ∧
    (PAGE_HEADER_LEN + leaf_weight (map snd (spliced i replace (k, e) es)) ≤ PAGE_SIZE → o = None) ∧
    ∃ t' T' h' F', match o with Some pr => propagate_promotion t2 base path pr | None => Ok t2 end = Ok t' ∧
      skeleton t' base T' h' F' P ∧
      entries T' = concat (map snd LP) ++ spliced i replace (k, e) es ++ concat (map snd LS) ∧
      tx_next t ≤ tx_next t' ≤ tx_next t + Z.of_nat h + 2 ∧
      ∀ i n, i ∈ P → view t base i n → view t' base i n.
Proof.
  intros Sk Hd Ht D Hke Hrefs Hroom. pose proof (descends_leaves _ _ _ _ _ _ _ Hd) as HL.
  destruct (target_bounds _ _ _ _ Ht) as [Hi Hrep]. rewrite length_map in Hi, Hrep.
  pose proof (skeleton_mutable _ _ _ _ _ _ Sk _ _ _ _ HL ltac:(lia)) as M.
  destruct (mutate_leaf_ok t base F lf _ _ (map snd es) i replace raw e M) as (o & t2 & E & O & Hfit);
    [by rewrite length_map|by rewrite length_map|done| |].
  { change e with (snd (k, e)). rewrite <- map_spliced, map_map. eapply Forall_impl; [exact Hrefs|]. intros r Hr.
    apply (skeleton_range _ _ _ _ _ _ r Sk). by right. }
  change e with (snd (k, e)) in O, Hfit. rewrite <- map_spliced in O, Hfit.
  exists o, t2. split_and!; [done|done|].
  destruct (placed_ok _ _ _ _ _ _ Sk _ _ _ _ HL _ _ _ O) as (o0 & F2 & fresh & Ho & Pl).
  pose proof (pl_form _ _ _ _ _ _ _ _ _ _ _ Pl) as Hform. pose proof (tk_next _ _ _ _ _ _ (pl_takes _ _ _ _ _ _ _ _ _ _ _ Pl)) as N.
  pose proof (pl_fresh _ _ _ _ _ _ _ _ _ _ _ Pl) as Hfl. destruct (skeleton_height _ _ _ _ _ _ Sk) as (_ & Hh & _).
  unfold len in N.
  destruct (climb_ok base k T path lf es LP LS Hd h None None o0 t2 F2) as (o' & t3 & Ec & Cd);
    [apply Sk|done|done|by eapply form_replaces|by eapply placed_climbing|lia|].
  destruct (climbed_arrived _ _ _ _ _ _ _ _ _ _ _ _ _ _ _ _ _ Sk HL Pl Cd) as (F3 & Ar & N3 & Hf3).
  destruct (finish_ok _ _ _ _ _ _ Ar ltac:(lia)) as (t' & T' & h' & F' & Ef & Sk' & Hlv & N4 & Hf4).
  exists t', T', h', F'. refine (conj _ (conj Sk' (conj _ (conj _ _)))).
  - rewrite <- Ho. destruct (out_promotion o0) as [pr|] eqn:Eo.
    + unfold propagate_promotion. cbn [climb] in Ec. rewrite Ec, bind_ok. exact Ef.
    + cbn [climb] in Ec. injection Ec as Eo' <-. rewrite <- Eo' in Ef. exact Ef.
  - unfold entries. rewrite Hlv, (cd_leaves _ _ _ _ _ _ _ _ _ _ _ _ _ Cd), !map_app, !concat_app.
    by rewrite (form_leaves _ _ _ Hform).
  - destruct Cd as [(? & ? & Tk' & _) _ _ _ _ _ _]. pose proof (tk_next _ _ _ _ _ _ Tk'). lia.
  - intros j n Hj V. destruct (Hf3 j n Hj V). by apply Hf4.
Qed.
End Place.
