(* ===== verification/BtreeStore.v ===== *)
(** The database a write transaction holds, as a map from keys to stored
    values, and the proof that the staged upsert, deletion and query of
    backend/btree/src/v3/tree.rs are the insertion, deletion and lookup of that
    map: they succeed, they change the value of their key and of no other, and
    they keep the tree, its sibling links, its value chains and its free list
    in order, with every page of the file owned exactly once. *)

From stdpp Require Import gmap functions.
From S2P Require Import Prelude BtreeFormat BtreeCell BtreePage BtreeSplit BtreeTransaction BtreeNode.
From S2P Require Import BtreeOverlay BtreeMutation BtreeTree BtreeClimb BtreeChain BtreePlace.

(** A value as it is stored: how it is compressed, its logical length and its
    stored bytes. *)
Abbreviation stored_value := (Compression * Z * list byte)%type.

Section Store.
Context {CK : Checksum} {KC : KeyCodec}.
Abbreviation entry := (key * LeafCellRef)%type.
Abbreviation leaf := (Z * list entry)%type.

(** ** Values *)

(** The number of bytes that are stored. *)
Definition stored_size (c : option stored_value) : Z := match c with Some (_, _, stored) => len stored | None => 0 end.

(** The value of a leaf entry stands for [c] and owns the pages [ps]. *)
Inductive held (V : Z → node → Prop) : LeafValueRef → list Z → option stored_value → Prop :=
| held_tombstone : held V Tombstone [] None
| held_inline comp ll stored crc :
    value_ok comp ll stored → held V (Inline comp ll stored crc) [] (Some (comp, ll, stored))
| held_overflow comp ll head ps bs :
    value_ok comp ll (concat bs) → ps ≠ [] → chain V head ps bs →
    held V (OverflowRef comp ll (len (concat bs)) head (crc32 (concat bs))) ps (Some (comp, ll, concat bs)).

Definition item : Type := list Z * option stored_value.

Definition holds_items (V : Z → node → Prop) (es : list entry) (ws : list item) : Prop :=
  Forall2 (λ e w, held V (leaf_value e.2) w.1 w.2) es ws.

Definition owned_pages (ws : list item) : list Z := concat (map fst ws).

Lemma held_frame (V V' : Z → node → Prop) v ps c :
  held V v ps c → (∀ i n, i ∈ ps → V i n → V' i n) → held V' v ps c.
Proof. destruct 1; intros Hf; constructor; try done. by eapply chain_mono. Qed.

Lemma items_frame (V V' : Z → node → Prop) es ws :
  holds_items V es ws → (∀ i n, i ∈ owned_pages ws → V i n → V' i n) → holds_items V' es ws.
Proof.
  induction 1 as [|e w es ws H _ IH]; intros Hf; constructor.
  - eapply held_frame; [exact H|]. intros i n Hi. apply Hf. unfold owned_pages. cbn. rewrite elem_of_app. by left.
  - apply IH. intros i n Hi. apply Hf. unfold owned_pages. cbn. rewrite elem_of_app. by right.
Qed.

Lemma held_refs V v ps c : held V v ps c → Forall (λ r, r ∈ ps) (value_refs v).
Proof.
  destruct 1 as [| |comp ll head ps bs _ Hne Hc]; cbn; constructor; [|constructor].
  destruct Hc; [done|]. by left.
Qed.

Lemma items_refs V es ws :
  holds_items V es ws → Forall (λ r, r ∈ owned_pages ws) (concat (map (λ e, value_refs (leaf_value e.2)) es)).
Proof.
  unfold owned_pages. induction 1 as [|e w es ws H _ IH]; cbn [map concat]; [constructor|]. apply Forall_app. split.
  - eapply Forall_impl; [by eapply held_refs|]. cbn. intros r Hr. rewrite elem_of_app. by left.
  - eapply Forall_impl; [exact IH|]. cbn. intros r Hr. rewrite elem_of_app. by right.
Qed.

Lemma owned_app ws ws' : owned_pages (ws ++ ws') = owned_pages ws ++ owned_pages ws'.
Proof. unfold owned_pages. by rewrite map_app, concat_app. Qed.

Lemma owned_cons w ws : owned_pages (w :: ws) = w.1 ++ owned_pages ws.
Proof. done. Qed.

(** ** The database *)

Definition contents (es : list entry) (ws : list item) : list (key * option stored_value) :=
  zip_with (λ e w, (e.1, w.2)) es ws.

Definition represents (f : key → option stored_value) (es : list entry) (ws : list item) : Prop :=
  ∀ k v, f k = Some v ↔ (k, Some v) ∈ contents es ws.

(** The transaction [t] over the file [base] holds the map [f]. *)
Definition tx_holds (t : WriteTransaction) (base : list byte) (f : key → option stored_value) : Prop :=
  ∃ T h F ws, skeleton t base T h F (owned_pages ws) ∧ holds_items (view t base) (entries T) ws ∧
    represents f (entries T) ws.

Lemma contents_app es es' ws ws' :
  length es = length ws → contents (es ++ es') (ws ++ ws') = contents es ws ++ contents es' ws'.
Proof. intros H. unfold contents. by rewrite zip_with_app. Qed.

Lemma contents_key k c es ws : (k, c) ∈ contents es ws → ∃ e, e ∈ es ∧ e.1 = k.
Proof.
  intros (i & Hi)%list_elem_of_lookup. unfold contents in Hi. apply lookup_zip_with_Some in Hi as (e & w & [= -> _] & He & _).
  exists e. split; [by eapply list_elem_of_lookup_2|done].
Qed.

Lemma not_contents k c es ws : Forall (λ e, e.1 ≠ k) es → (k, c) ∉ contents es ws.
Proof. intros H Hin. apply contents_key in Hin as (e & He & Hk). rewrite Forall_forall in H. by apply (H e). Qed.

(** Replacing what is stored for one key. *)
Lemma represents_insert f k e ps c EP mid EQ WP wm WQ :
  represents f (EP ++ mid ++ EQ) (WP ++ wm ++ WQ) →
  length EP = length WP → length mid = length wm → length EQ = length WQ →
  Forall (λ x, x.1 = k) mid → Forall (λ x, x.1 ≠ k) EP → Forall (λ x, x.1 ≠ k) EQ →
  represents (<[k := c]> f) (EP ++ (k, e) :: EQ) (WP ++ (ps, c) :: WQ).
Proof.
  intros H L1 L2 L3 Hm HP HQ k' v. rewrite contents_app by done. cbn [contents zip_with]. cbn [fst snd].
  rewrite elem_of_app. change (zip_with _ EQ WQ) with (contents EQ WQ). rewrite elem_of_cons.
  destruct (decide (k' = k)) as [->|Hk].
  - rewrite fn_lookup_insert. split; [intros ->; auto|].
    intros [Hin|[[= ->]|Hin]]; [by apply not_contents in Hin|done|by apply not_contents in Hin].
  - rewrite fn_lookup_insert_ne by done. rewrite (H k' v), !contents_app by done. rewrite !elem_of_app. split.
    + intros [Hin|[Hin|Hin]]; [by left| |by right; right]. apply contents_key in Hin as (x & Hx & <-).
      rewrite Forall_forall in Hm. by apply Hm in Hx.
    + intros [Hin|[[= -> _]|Hin]]; [by left|done|by right; right].
Qed.

(** ** Where a key is *)

Lemma segments_outer h lo hi A c B SA SB :
  length A = length SA → segments (shaped h) lo hi (A ++ c :: B) (SA ++ SB) →
  Forall (λ a, ∃ lo' s, s ∈ SA ∧ shaped h lo' (Some s.1) a) A ∧
  Forall (λ b, ∃ hi' s, s ∈ SB ∧ shaped h (Some s.1) hi' b) B.
Proof.
  revert lo SA. induction A as [|a A IH]; intros lo [|s SA] Hl H; try done; cbn [app] in H.
  - split; [constructor|]. revert lo c B H. induction SB as [|s SB IHB]; intros lo c B H; inversion H; subst; [constructor|].
    match goal with H : segments _ (Some _) hi _ SB |- _ => rename H into Hs end.
    inversion Hs as [? ? b Hb|? ? b ? ? B' ? ? ? ? Hb Hs']; subst.
    + constructor; [|constructor]. do 2 eexists. split; [by left|exact Hb].
    + constructor.
      * do 2 eexists. split; [by left|exact Hb].
      * eapply Forall_impl; [exact (IHB _ _ _ Hs)|]. intros x (hi' & s' & Hin & Hx). exists hi', s'. split; [by right|done].
  - inversion H as [|? ? ? s' sb ? ? ? ? ? Ha Hs]; subst. injection Hl as Hl. destruct (IH _ _ Hl Hs) as [HA HB].
    split; [|done]. constructor.
    + do 2 eexists. split; [by left|exact Ha].
    + eapply Forall_impl; [exact HA|]. intros x (lo' & s & Hin & Hx). exists lo', s. split; [by right|done].
Qed.

Lemma entries_node id kids seps : entries (BNode id kids seps) = concat (map entries kids).
Proof.
  unfold entries. cbn [leaves]. induction kids as [|T kids IH]; [done|]. cbn [map concat].
  by rewrite map_app, concat_app, IH.
Qed.

Lemma above_weaken lo s k : strictly_above lo s → key_le s k → above lo k.
Proof. destruct lo as [b|]; cbn; [|done]. intros H1 H2. apply key_le_iff. left. by eapply key_lt_le_trans. Qed.

Lemma under_weaken hi s k : under hi s → key_lt k s → under hi k.
Proof. destruct hi as [b|]; cbn; [|done]. intros H1 H2. by eapply key_lt_trans. Qed.

Lemma shaped_within h lo hi T : shaped h lo hi T → Forall (λ e, above lo e.1 ∧ under hi e.1) (entries T).
Proof.
  revert lo hi T. induction h as [|h IH]; intros lo hi [id es|id kids seps]; try done.
  - intros (_ & H & _). unfold entries. cbn. rewrite app_nil_r. eapply Forall_impl; [exact H|]. cbn. tauto.
  - intros [_ H]. rewrite entries_node. induction H as [lo hi T HT|lo hi T s sb Ts ss _ Hl Hh HT Hs IHs];
      cbn [map concat]; apply Forall_app; split.
    + by apply IH.
    + constructor.
    + eapply Forall_impl; [exact (IH _ _ _ HT)|]. cbn. intros e [? ?]. split; [done|by eapply under_weaken].
    + eapply Forall_impl; [exact IHs|]. cbn. intros e [? ?]. split; [by eapply above_weaken|done].
Qed.

Lemma entries_within (Q : key → Prop) Ts :
  Forall (λ T, Forall (λ e, Q e.1) (entries T)) Ts → Forall (λ e : entry, Q e.1) (concat (map snd (concat (map leaves Ts)))).
Proof.
  induction 1 as [|T Ts H _ IH]; cbn [map concat]; [constructor|]. rewrite map_app, concat_app. apply Forall_app. by split.
Qed.

(** The keys left of the leaf of [k] are smaller, those right of it larger. *)
Lemma descends_order k T path lf es LP LS :
  descends k T path lf es LP LS → ∀ h lo hi, shaped h lo hi T → above lo k → under hi k →
  Forall (λ e, key_lt e.1 k) (concat (map snd LP)) ∧ Forall (λ e, key_lt k e.1) (concat (map snd LS)) ∧
  ∃ lo' hi', shaped 0 lo' hi' (BLeaf lf es).
Proof.
  induction 1 as [lf es|id A c B SA SB path lf es LP LS Hlen HA HB Hd IH]; intros h lo hi Hsh Hlo Hhi.
  { split_and!; [constructor|constructor|]. destruct h; [|done]. eauto. }
  apply shaped_node in Hsh as (h' & -> & _ & Hseg). destruct (segments_focus _ _ _ _ _ _ _ _ Hlen Hseg) as (Hsc & _ & _).
  destruct (IH _ _ _ Hsc (low_bound_above _ _ _ Hlo HA) (high_bound_under _ _ _ Hhi HB)) as (H1 & H2 & H3).
  destruct (segments_outer _ _ _ _ _ _ _ _ Hlen Hseg) as [HoA HoB]. rewrite Forall_forall in HA, HB.
  split_and!; [| |done]; rewrite map_app, concat_app; apply Forall_app; [refine (conj _ H1)|refine (conj H2 _)].
  - apply (entries_within (λ x, key_lt x k)). eapply Forall_impl; [exact HoA|]. intros a (lo' & s & Hs & Ha).
    eapply Forall_impl; [exact (shaped_within _ _ _ _ Ha)|]. cbn. intros e [_ He]. eapply key_lt_le_trans; [exact He|by apply HA].
  - apply (entries_within (λ x, key_lt k x)). eapply Forall_impl; [exact HoB|]. intros b (hi' & s & Hs & Hb).
    eapply Forall_impl; [exact (shaped_within _ _ _ _ Hb)|]. cbn. intros e [He _]. eapply key_lt_le_trans; [by apply HB|exact He].
Qed.

Lemma key_lt_ne a b : key_lt a b → a ≠ b.
Proof. intros H ->. by apply key_lt_irrefl in H. Qed.

(** The entries of the tree around the place of [k]. *)
Record focus (T : btree) (k : key) (LP LS : list leaf) (es : list entry) (i : nat) (replace : bool)
    (EP mid EQ : list entry) : Prop := {
  fo_entries : entries T = EP ++ mid ++ EQ;
  fo_mid : if replace then ∃ e, mid = [(k, e)] ∧ es !! i = Some (k, e) else mid = [];
  fo_spliced : ∀ x, concat (map snd LP) ++ spliced i replace x es ++ concat (map snd LS) = EP ++ x :: EQ;
  fo_left : Forall (λ x, x.1 ≠ k) EP;
  fo_right : Forall (λ x, x.1 ≠ k) EQ;
}.

Lemma target_apart ks k i replace j x :
  sorted_keys ks → target_at ks k i replace → ks !! j = Some x →
  (j < i)%nat ∨ ((if replace then S i else i) ≤ j)%nat → x ≠ k.
Proof.
  intros Hs Ht Hj Hc. destruct replace; cbn in Ht.
  - destruct Hc as [Hc|Hc]; [apply key_lt_ne|apply not_eq_sym, key_lt_ne].
    + by eapply Hs.
    + eapply (Hs i j); [lia|done|done].
  - destruct Ht as (_ & Hlo & Hhi). destruct Hc as [Hc|Hc]; [apply key_lt_ne; by eapply Hlo|].
    apply not_eq_sym, key_lt_ne. by eapply Hhi.
Qed.

Lemma focus_ok k T path lf es LP LS h i replace :
  descends k T path lf es LP LS → shaped h None None T → target_at (map fst es) k i replace →
  ∃ EP mid EQ, focus T k LP LS es i replace EP mid EQ.
Proof.
  intros Hd Hsh Ht. destruct (descends_order _ _ _ _ _ _ _ Hd _ _ _ Hsh I I) as (HP & HQ & lo' & hi' & Hs & _).
  pose proof (descends_leaves _ _ _ _ _ _ _ Hd) as HL.
  assert (∀ j e, es !! j = Some e → (j < i)%nat ∨ ((if replace then S i else i) ≤ j)%nat → e.1 ≠ k) as Hne.
  { intros j e He. apply (target_apart (map fst es) k i replace); [done..|]. by rewrite list_lookup_fmap, He. }
  exists (concat (map snd LP) ++ take i es), (if replace then take 1 (drop i es) else []),
    (drop (if replace then S i else i) es ++ concat (map snd LS)).
  constructor.
  - unfold entries. rewrite HL, map_app, concat_app. cbn [map concat snd]. rewrite <- !app_assoc. f_equal.
    rewrite <- (take_drop i es) at 1. rewrite <- app_assoc. f_equal. destruct replace; [|done].
    replace (S i) with (i + 1)%nat by lia. by rewrite <- drop_drop, (app_assoc (take 1 _)), take_drop.
  - destruct replace; [|done]. cbn in Ht. rewrite list_lookup_fmap in Ht. apply fmap_Some in Ht as ([k' e] & He & Ek).
    cbn in Ek. subst k'. exists e. split; [|done]. by rewrite (drop_S _ _ _ He).
  - intros x. unfold spliced. by rewrite <- !app_assoc.
  - apply Forall_app. split.
    + eapply Forall_impl; [exact HP|]. cbn. intros x. apply key_lt_ne.
    + apply Forall_forall. intros x (j & Hj)%list_elem_of_lookup. apply lookup_take_Some in Hj as [Hj Hji].
      apply (Hne j); [done|by left].
  - apply Forall_app. split.
    + apply Forall_forall. intros x (j & Hj)%list_elem_of_lookup. rewrite lookup_drop in Hj.
      eapply (Hne _ _ Hj). right. lia.
    + eapply Forall_impl; [exact HQ|]. cbn. intros x Hx. by apply not_eq_sym, key_lt_ne.
Qed.

(** ** Finding the leaf and the place of a key *)

Lemma locate_stored t base T h F P k :
  skeleton t base T h F P →
  ∃ path lf es LP LS, descends k T path lf es LP LS ∧ locate_transaction_leaf t base k = Ok (lf, path).
Proof.
  intros Sk. destruct (locate_ok t base k h None None T) as (path & lf & es & LP & LS & Hd & _ & Hl);
    [apply Sk|apply Sk|by eapply skeleton_nodup|done|done|].
  exists path, lf, es, LP, LS. split; [done|]. unfold locate_transaction_leaf.
  rewrite (sk_root _ _ _ _ _ _ Sk), Hl; [done|by destruct (skeleton_height _ _ _ _ _ _ Sk)|]. intros i _. apply not_elem_of_empty.
Qed.

Lemma search_stored t base T h F P k path lf es LP LS :
  skeleton t base T h F P → descends k T path lf es LP LS →
  ∃ p f i, tx_open t base lf = Ok p ∧ search_leaf p k = Ok f ∧
    ((∃ raw e, f = FoundAt (Z.of_nat i) ∧ es !! i = Some (k, e) ∧ cell p (Z.of_nat i) = Ok raw ∧
        leaf_cell_ref_decode raw lf (tx_next t) = Ok e) ∨
     f = InsertAt (Z.of_nat i) ∧ target_at (map fst es) k i false).
Proof.
  intros Sk Hd. pose proof (descends_leaves _ _ _ _ _ _ _ Hd) as HL.
  destruct (leaf_links _ _ _ _ _ _ Sk _ _ _ _ HL) as (_ & V & _).
  destruct (descends_order _ _ _ _ _ _ _ Hd _ _ _ (sk_shaped _ _ _ _ _ _ Sk) I I) as (_ & _ & lo' & hi' & Hs & Hk & _).
  destruct (leaf_raws _ _ _ _ _ _ V) as
    (bytes & p & raws & _ & _ & Eo & Vp & Hpi & Hpn & Ht & _ & _ & _ & Hcnt & Hdc & Hcell & _).
  assert (∀ i k' e, es !! i = Some (k', e) → ∃ raw, cell p (Z.of_nat i) = Ok raw ∧ leaf_cell_ref_decode raw lf (tx_next t) = Ok e) as Hat.
  { intros i k' e He. assert (map snd es !! i = Some e) as He' by (by rewrite list_lookup_fmap, He).
    destruct (Forall2_lookup_r _ _ _ _ _ Hdc He') as (raw & Hr & D). eauto. }
  assert (leaf_keys p (map fst es)) as Hkeys.
  { split; [unfold len in *; rewrite Hcnt, !length_map; done|]. intros i k' Hi. rewrite list_lookup_fmap in Hi.
    apply fmap_Some in Hi as ([k1 e] & He & ->). destruct (Hat _ _ _ He) as (raw & Hr & D). exists raw, e.
    rewrite Hpi, Hpn. split_and!; [done|done|]. destruct (proj1 (Forall_lookup _ _) Hk _ _ He) as [Ek _]. cbn [fst snd] in *.
    rewrite Ek. apply decode_encoded_key. }
  destruct (search_leaf_loop_ok p (map fst es) k Hkeys Hs (Z.to_nat (cell_count (sp_header p))) 0 (cell_count (sp_header p)))
    as (f & Ef & Hf); [unfold len in *; lia|unfold len in *; rewrite Hcnt, !length_map; lia|unfold len in *; lia| | |].
  { intros j x _ Hj. lia. }
  { intros j x Hj Hge. apply lookup_lt_Some in Hj. rewrite length_map in Hj. unfold len in *. rewrite length_map in Hcnt. lia. }
  exists p, f. unfold search_leaf. rewrite bool_decide_true by done. cbn [negb]. destruct f as [idx|idx]; cbn in Hf.
  - destruct Hf as [H0 Hf]. exists (Z.to_nat idx). rewrite Z2Nat.id by done. split_and!; [done|done|]. left.
    rewrite list_lookup_fmap in Hf. apply fmap_Some in Hf as ([k1 e] & He & Ek). cbn in Ek. subst k1.
    destruct (Hat _ _ _ He) as (raw & Hr & D). rewrite Z2Nat.id in Hr by done. exists raw, e. by split_and!.
  - destruct Hf as (H0 & Hlo & Hhi). exists (Z.to_nat idx). rewrite Z2Nat.id by lia. split_and!; [done|done|]. right.
    split; [done|]. split_and!.
    + unfold len in H0. lia.
    + intros j x Hj Hji. apply (Hlo j); [done|lia].
    + intros j x Hj Hji. apply (Hhi j); [done|lia].
Qed.

(** ** Staging a value *)

Lemma chain_length V head ps bs : chain V head ps bs → len ps ≤ len (concat bs).
Proof. induction 1 as [|id next payload ps bs _ Hp _ IH]; [done|]. cbn [concat]. rewrite len_cons, len_app. lia. Qed.

(** The pages of a held value are those its chain is validated to have. *)
Lemma held_pages t base v ps c :
  held (view t base) v ps c → NoDup ps → (length ps < walk_fuel t)%nat →
  match v with
  | OverflowRef _ _ stored_len head crc => validated_overflow_chain_pages t base head stored_len crc
  | Inline _ _ _ _ | Tombstone => Ok []
  end = Ok ps.
Proof.
  intros H Hnd Hf. destruct H as [|comp ll st crc Hv|comp ll head ps bs (_ & _ & Hl & _) Hne Hc]; [done|done|].
  apply validated_chain_ok; [done|done|done|done|lia].
Qed.

Lemma held_pages_size V v ps c : held V v ps c → 0 ≤ stored_size c < 2 ^ 32.
Proof. destruct 1 as [|comp ll st crc (_ & _ & H & _)|comp ll head ps bs (_ & _ & H & _)]; cbn; lia. Qed.

(** The cell and the pages prepared for a value. *)
Record staged (t t1 : WriteTransaction) (base : list byte) (F F1 old new : list Z) (k : key) (lf : Z)
    (raw : list byte) (v : LeafValueRef) (c : option stored_value) : Prop := {
  sg_exchanges : exchanges t t1 base F F1 old new;
  sg_held : held (view t1 base) v new c;
  sg_cell : leaf_cell_ref_decode raw lf (tx_next t1) = Ok {| leaf_key_bytes := key_to_vec k; leaf_value := v |};
  sg_next : tx_next t1 ≤ tx_next t + stored_size c;
  sg_frame : ∀ i n, i ∉ old → i ∉ F → view t base i n → view t1 base i n;
}.

(** Pages that can be given back. *)
Definition returnable (t : WriteTransaction) (F old : list Z) : Prop :=
  NoDup old ∧ ∀ i, i ∈ old → 0 < i < tx_next t ∧ i ≠ root_page_id (next_header t) ∧ i ∉ F.

Lemma stage_inline t base F old k ll comp stored lf :
  pool t base F → returnable t F old → 0 < len (key_to_vec k) ≤ MAX_ENCODED_KEY_LEN → value_ok comp ll stored →
  len stored ≤ MAX_INLINE_STORED_VALUE → SLOT_LEN + LEAF_CELL_PREFIX_LEN + len (key_to_vec k) + len stored ≤ MAX_CELL_FOOTPRINT →
  ∃ raw t1 F1 v,
    (t ← free_pages t old; new ← encode_inline_leaf_cell (key_to_vec k) ll comp stored; Ok (new, t)) = Ok (raw, t1) ∧
    staged t t1 base F F1 old [] k lf raw v (Some (comp, ll, stored)).
Proof.
  intros P [Hnd Hold] Hk Hv Hs Hf. destruct (free_pages_ok t base F old P Hnd Hold) as (t1 & E & X & Hn & Hfr).
  destruct (inline_cell_ok (key_to_vec k) ll comp stored lf (tx_next t1) Hk Hv Hs Hf) as (raw & Er & D).
  rewrite E, bind_ok, Er, bind_ok. do 4 eexists. split; [reflexivity|]. pose proof (len_nonneg stored).
  constructor; [exact X| |exact D|cbn; lia|].
  - by constructor.
  - intros i n Hi _. by apply Hfr.
Qed.

Lemma stage_overflow t base F old k ll comp stored lf :
  pool t base F → returnable t F old → 0 < len (key_to_vec k) ≤ MAX_ENCODED_KEY_LEN → value_ok comp ll stored →
  tx_next t + 2 ^ 32 < 2 ^ 63 → 0 < lf < tx_next t → lf ∉ old → lf ∉ F →
  ∃ raw t1 F1 new v,
    (w ← write_overflow_chain t base stored old;
     stored_len ← ok_or (try_fit 32 (len stored)) (invalid_input "stored value exceeds u32");
     new ← encode_overflow_leaf_cell (key_to_vec k) ll comp stored_len w.1 (stored_value_checksum stored) lf (tx_next w.2);
     Ok (new, w.2)) = Ok (raw, t1) ∧
    staged t t1 base F F1 old new k lf raw v (Some (comp, ll, stored)).
Proof.
  intros P [Hnd Hold] Hk Hv Hroom Hlf HlO HlF. pose proof Hv as (_ & _ & Hl & _).
  destruct (write_overflow_chain_ok t base F stored old P Hnd Hold Hl Hroom)
    as (head & t1 & F1 & new & bs & E & X & Hch & <- & Hne & HnN & HN & Hfr).
  pose proof (ex_next _ _ _ _ _ _ _ X) as Hx. pose proof (chain_length _ _ _ _ Hch) as Hcl.
  pose proof (pool_bound _ _ _ (ex_pool _ _ _ _ _ _ _ X)) as Hb.
  assert (head ∈ new) as Hin by (destruct Hch; [done|by left]). destruct (HN head Hin) as (Hh & _ & Hfrom).
  assert (head ≠ lf) as Hhl by (intros ->; destruct Hfrom as [?|[?|?]]; [done|done|lia]).
  destruct (overflow_cell_ok (key_to_vec k) ll comp (concat bs) head lf (tx_next t1) Hk Hv Hh ltac:(lia) Hhl) as (raw & Er & D).
  rewrite E, bind_ok. cbn [fst snd]. rewrite try_fit_small by lia. cbn [ok_or]. rewrite bind_ok, Er, bind_ok.
  do 5 eexists. split; [reflexivity|]. constructor; [exact X| |exact D|cbn; lia|exact Hfr]. by constructor.
Qed.

(** ** Changing what is stored for a key *)

(** The state of an operation that has found the place of [k]. *)
Record at_key (t : WriteTransaction) (base : list byte) (f : key → option stored_value) (k : key)
    (T : btree) (h : nat) (F : list Z) (ws : list item) (path : list (Z * Z)) (lf : Z) (es : list entry)
    (LP LS : list leaf) (i : nat) (replace : bool) (old : list Z) : Prop := {
  ak_skeleton : skeleton t base T h F (owned_pages ws);
  ak_items : holds_items (view t base) (entries T) ws;
  ak_represents : represents f (entries T) ws;
  ak_descends : descends k T path lf es LP LS;
  ak_target : target_at (map fst es) k i replace;
  ak_old : ∃ EP mid EQ WP wm WQ, focus T k LP LS es i replace EP mid EQ ∧ ws = WP ++ wm ++ WQ ∧
    length EP = length WP ∧ length mid = length wm ∧ owned_pages wm = old;
}.

Lemma at_key_returnable t base f k T h F ws path lf es LP LS i replace old :
  at_key t base f k T h F ws path lf es LP LS i replace old → returnable t F old ∧ lf ∉ old ∧ lf ∉ F ∧ 0 < lf < tx_next t.
Proof.
  intros [Sk _ _ Hd _ (EP & mid & EQ & WP & wm & WQ & _ & -> & _ & _ & <-)].
  pose proof (descends_leaf_id _ _ _ _ _ _ _ Hd) as Hlf.
  destruct (skeleton_range _ _ _ _ _ _ lf Sk (or_introl Hlf)) as [Hr HF].
  assert (∀ x, x ∈ owned_pages wm → x ∈ owned_pages (WP ++ wm ++ WQ)) as Hin.
  { intros x Hx. rewrite !owned_app, !elem_of_app. auto. }
  split_and!; [| |done|lia|lia].
  - split.
    + apply cnt_nodup. intros x. pose proof (skeleton_once _ _ _ _ _ _ x Sk) as Ho. rewrite !owned_app, !cnt_app in Ho. lia.
    + intros x Hx. apply Hin in Hx. destruct (skeleton_range _ _ _ _ _ _ x Sk (or_intror Hx)) as [? ?].
      split_and!; [lia|lia| |done]. intros ->. apply (skeleton_apart _ _ _ _ _ _ _ Sk Hx).
      rewrite (sk_root _ _ _ _ _ _ Sk). apply root_in_ids.
  - intros Hx. apply Hin in Hx. by apply (skeleton_apart _ _ _ _ _ _ _ Sk Hx).
Qed.

(** Once its cell and pages are staged, a value is put in place. *)
Lemma put_ok t t1 base f k T h F F1 ws path lf es LP LS i replace old new raw v c :
  at_key t base f k T h F ws path lf es LP LS i replace old → staged t t1 base F F1 old new k lf raw v c →
  tx_next t < 2 ^ 60 →
  ∃ o t2 t', mutate_leaf t1 base lf (Z.of_nat i) replace raw = Ok (o, t2) ∧
    (PAGE_HEADER_LEN + leaf_weight (map snd (spliced i replace (k, {| leaf_key_bytes := key_to_vec k; leaf_value := v |}) es))
       ≤ PAGE_SIZE → o = None) ∧
    match o with Some pr => propagate_promotion t2 base path pr | None => Ok t2 end = Ok t' ∧
    tx_holds t' base (<[k := c]> f) ∧ tx_next t ≤ tx_next t' ≤ tx_next t + stored_size c + 65.
Proof.
  intros [Sk It Re Hd Ht (EP & mid & EQ & WP & wm & WQ & [FE FM FS FL FR] & Ew & L1 & L2 & Eo)] [X Hh D Hn Hf] Hroom. pose proof (held_pages_size _ _ _ _ Hh) as Hsz.
  subst ws old. set (e := {| leaf_key_bytes := key_to_vec k; leaf_value := v |}) in *.
  assert (length EQ = length WQ) as L3.
  { pose proof (Forall2_length _ _ _ It) as Hl. rewrite FE, !length_app in Hl. lia. }
  assert (∀ x n, x ∈ owned_pages WP ∨ x ∈ owned_pages WQ → view t base x n → view t1 base x n) as Hkeep.
  { intros x n Hx. apply Hf; apply cnt_not_in; pose proof (skeleton_once _ _ _ _ _ _ x Sk) as Ho;
      rewrite !owned_app, !cnt_app in Ho; rewrite !cnt_in in Hx; lia. }
  unfold holds_items in It. rewrite FE in It. apply Forall2_app_inv in It as [It1 It]; [|done].
  apply Forall2_app_inv in It as [_ It2]; [|done].
  assert (holds_items (view t1 base) (EP ++ (k, e) :: EQ) (WP ++ (new, c) :: WQ)) as It'.
  { apply Forall2_app; [|constructor; [exact Hh|]].
    - apply (items_frame (view t base) _ EP WP It1). intros x n Hx. apply Hkeep. by left.
    - apply (items_frame (view t base) _ EQ WQ It2). intros x n Hx. apply Hkeep. by right. }
  assert (skeleton t1 base T h F1 (owned_pages (WP ++ (new, c) :: WQ))) as Sk1.
  { rewrite owned_app, owned_cons. rewrite !owned_app in Sk. by eapply skeleton_exchange. }
  destruct (place_ok t1 base T h F1 _ k path lf es LP LS i replace raw e Sk1 Hd Ht D eq_refl)
    as (o & t2 & Em & Hfit & t' & T' & h' & F' & Ep & Sk' & HE & Hn' & Hf'); [|lia|].
  { pose proof (items_refs _ _ _ It') as Hr. rewrite <- FS, !map_app, !concat_app, !Forall_app in Hr. tauto. }
  exists o, t2, t'. pose proof (ex_next _ _ _ _ _ _ _ X). destruct (skeleton_height _ _ _ _ _ _ Sk) as (_ & _ & Hh').
  split_and!; [done|done|done| |lia|lia].
  exists T', h', F', (WP ++ (new, c) :: WQ). rewrite HE, FS. split_and!; [done| |].
  - eapply items_frame; [exact It'|]. exact Hf'.
  - rewrite FE in Re. eapply represents_insert; try done. destruct replace; [|by rewrite FM].
    destruct FM as (e0 & -> & _). by repeat constructor.
Qed.

(** ** Looking a key up *)

(** What the search for [k] finds in a database. *)
Record finds (t : WriteTransaction) (base : list byte) (f : key → option stored_value) (k : key)
    (path : list (Z * Z)) (lf : Z) (p : SlottedPage) (i : nat) (replace : bool) (ps : list Z) (e : LeafCellRef) : Prop := {
  fd_open : tx_open t base lf = Ok p;
  fd_search : search_leaf p k = Ok (if replace then FoundAt (Z.of_nat i) else InsertAt (Z.of_nat i));
  fd_at : ∃ T h F ws es LP LS, at_key t base f k T h F ws path lf es LP LS i replace ps ∧
    (replace = true → es !! i = Some (k, e));
  fd_found : replace = true → ∃ raw, cell p (Z.of_nat i) = Ok raw ∧ leaf_cell_ref_decode raw lf (tx_next t) = Ok e ∧
    held (view t base) (leaf_value e) ps (f k) ∧ NoDup ps ∧ (length ps < walk_fuel t)%nat;
  fd_missing : replace = false → ps = [] ∧ f k = None;
}.

Lemma owned_fuel t base T h F ws ps :
  skeleton t base T h F (owned_pages ws) → ps ∈ map fst ws → NoDup ps ∧ (length ps < walk_fuel t)%nat.
Proof.
  intros Sk Hin. apply list_elem_of_split in Hin as (A & B & E).
  assert (owned_pages ws = concat A ++ ps ++ concat B) as Eo by (unfold owned_pages; by rewrite E, concat_app). split.
  - apply cnt_nodup. intros x. pose proof (skeleton_once _ _ _ _ _ _ x Sk) as Ho. rewrite Eo, !cnt_app in Ho. lia.
  - pose proof (Permutation_length (sk_owned _ _ _ _ _ _ Sk)) as Hl. rewrite Eo, !length_app, length_seqZ in Hl.
    unfold walk_fuel. lia.
Qed.

Lemma represents_none f k EP mid EQ WP wm WQ :
  represents f (EP ++ mid ++ EQ) (WP ++ wm ++ WQ) → length EP = length WP → length mid = length wm →
  Forall (λ x, x.1 ≠ k) EP → Forall (λ x, x.1 ≠ k) EQ → (∀ v, (k, Some v) ∉ contents mid wm) → f k = None.
Proof.
  intros H L1 L2 HP HQ Hm. destruct (f k) as [v|] eqn:E; [|done]. apply (H k v) in E.
  rewrite !contents_app, !elem_of_app in E by done. destruct E as [E|[E|E]];
    [by apply not_contents in E|by apply Hm in E|by apply not_contents in E].
Qed.

Lemma finds_ok t base f k :
  tx_holds t base f →
  ∃ path lf p i replace ps e, locate_transaction_leaf t base k = Ok (lf, path) ∧
    finds t base f k path lf p i replace ps e.
Proof.
  intros (T & h & F & ws & Sk & It & Re). destruct (locate_stored _ _ _ _ _ _ k Sk) as (path & lf & es & LP & LS & Hd & El).
  destruct (search_stored _ _ _ _ _ _ _ _ _ _ _ _ Sk Hd) as (p & g & i & Eo & Es & Hcase). pose proof (sk_shaped _ _ _ _ _ _ Sk) as Hsh.
  exists path, lf, p, i. destruct Hcase as [(raw & e & -> & He & Hc & D)|[-> Ht]].
  - assert (target_at (map fst es) k i true) as Ht by (cbn; by rewrite list_lookup_fmap, He).
    destruct (focus_ok _ _ _ _ _ _ _ _ _ _ Hd Hsh Ht) as (EP & mid & EQ & Fo). pose proof Fo as [FE (e' & -> & He') _ FL FR].
    assert (e' = e) as -> by (rewrite He in He'; by injection He').
    pose proof It as It0. unfold holds_items in It0. rewrite FE in It0. apply Forall2_app_inv_l in It0 as (WP & W' & It1 & It2 & ->).
    apply Forall2_cons_inv_l in It2 as (w & WQ & Hw & It3 & ->). cbn [snd] in Hw.
    pose proof (Forall2_length _ _ _ It1) as L1. exists true, w.1, e. split; [done|].
    assert (f k = w.2) as Ef.
    { rewrite FE in Re. destruct w as [ps [v|]]; cbn [snd].
      - apply (Re k v). rewrite contents_app by done. rewrite elem_of_app. right. by left.
      - eapply (represents_none f k EP [(k, e)] EQ WP [(ps, None)] WQ); try done.
        intros v Hin. apply list_elem_of_singleton in Hin. done. }
    destruct (owned_fuel _ _ _ _ _ _ w.1 Sk) as [Hnd Hfu].
    { rewrite map_app, elem_of_app. right. by left. }
    constructor; [done|done| | |done].
    + exists T, h, F, (WP ++ w :: WQ), es, LP, LS. split; [|done]. constructor; try done.
      exists EP, [(k, e)], EQ, WP, [w], WQ. split_and!; try done. unfold owned_pages. cbn. by rewrite app_nil_r.
    + intros _. exists raw. rewrite Ef. by split_and!.
  - destruct (focus_ok _ _ _ _ _ _ _ _ _ _ Hd Hsh Ht) as (EP & mid & EQ & Fo). pose proof Fo as [FE FM _ FL FR].
    pose proof It as It0. unfold holds_items in It0. rewrite FE, FM in It0. apply Forall2_app_inv_l in It0 as (WP & WQ & It1 & It2 & ->).
    pose proof (Forall2_length _ _ _ It1) as L1. exists false, [], {| leaf_key_bytes := []; leaf_value := Tombstone |}.
    split; [done|]. constructor; [done|done| |done|].
    + exists T, h, F, (WP ++ WQ), es, LP, LS. split; [|done]. constructor; try done.
      exists EP, mid, EQ, WP, [], WQ. rewrite FM in *. by split_and!.
    + intros _. split; [done|]. rewrite FE, FM in Re.
      eapply (represents_none f k EP [] EQ WP [] WQ); try done. intros v Hin. by apply elem_of_nil in Hin.
Qed.

(** ** The operations *)

Context {LZ : Lz4}.

Lemma footprint_sum a b :
  0 ≤ a < 2 ^ 32 → 0 ≤ b < 2 ^ 32 →
  (size ← checked_add SLOT_LEN 24; size ← checked_add size a; checked_add size b) = Some (SLOT_LEN + 24 + a + b).
Proof.
  intros. unfold SLOT_LEN. rewrite checked_add_small by lia. cbn [mbind option_bind].
  rewrite checked_add_small by lia. cbn [mbind option_bind]. by rewrite checked_add_small by lia.
Qed.

Lemma stage_upsert_ok t base f k comp ll stored :
  tx_holds t base f → 0 < len (key_to_vec k) ≤ MAX_ENCODED_KEY_LEN → value_ok comp ll stored → tx_next t < 2 ^ 60 →
  ∃ t', stage_upsert t base k (key_to_vec k) ll comp stored = Ok t' ∧
    tx_holds t' base (<[k := Some (comp, ll, stored)]> f) ∧ tx_next t ≤ tx_next t' ≤ tx_next t + len stored + 65.
Proof.
  intros Db Hk Hv Hroom. destruct (finds_ok _ _ _ k Db) as (path & lf & p & i & replace & ps & e & El & [Eo Es Hat Hfound Hmiss]).
  destruct Hat as (T & h & F & ws & es & LP & LS & Ak & _). pose proof (sk_pool _ _ _ _ _ _ (ak_skeleton _ _ _ _ _ _ _ _ _ _ _ _ _ _ _ _ Ak)) as P.
  destruct (at_key_returnable _ _ _ _ _ _ _ _ _ _ _ _ _ _ _ _ Ak) as (Hret & HlO & HlF & Hlf).
  unfold stage_upsert. rewrite El, bind_ok. cbn [fst snd]. cbv zeta. rewrite Eo, bind_ok, Es, bind_ok.
  match goal with |- ∃ t', (?m ≫= _) = Ok t' ∧ _ => assert (m = Ok (replace, Z.of_nat i, ps)) as Etarget end.
  { destruct replace; [|by destruct (Hmiss eq_refl) as [-> _]]. destruct (Hfound eq_refl) as (raw & Ec & D & Hh & Hnd & Hfu).
    by rewrite Ec, bind_ok, D, bind_ok, (held_pages _ _ _ _ _ Hh Hnd Hfu), bind_ok. }
  rewrite Etarget, bind_ok. cbn [fst snd]. clear Etarget. pose proof Hv as (_ & _ & Hl & _).
  assert (MAX_ENCODED_KEY_LEN = 2004) as HM by done.
  rewrite (footprint_sum (len (key_to_vec k)) (len stored)) by lia. cbn [ok_or]. rewrite bind_ok.
  match goal with |- ∃ t', (?m ≫= _) = Ok t' ∧ _ =>
    assert (∃ raw t1 F1 new v, m = Ok (raw, t1) ∧ staged t t1 base F F1 ps new k lf raw v (Some (comp, ll, stored)))
      as (raw & t1 & F1 & new & v & Estage & Sg) end.
  { destruct (Z.leb_spec (len stored) MAX_INLINE_STORED_VALUE) as [H1|H1]; [|cbn [andb]; by apply stage_overflow; [..|lia|done|done|done]].
    cbn [andb]. destruct (Z.leb_spec (SLOT_LEN + 24 + len (key_to_vec k) + len stored) MAX_CELL_FOOTPRINT) as [H2|H2];
      [|by apply stage_overflow; [..|lia|done|done|done]].
    destruct (stage_inline t base F ps k ll comp stored lf P Hret Hk Hv H1 H2) as (raw & t1 & F1 & v & E & Sg). eauto 10. }
  rewrite Estage, bind_ok. cbn [fst snd].
  destruct (put_ok _ _ _ _ _ _ _ _ _ _ _ _ _ _ _ _ _ _ _ _ _ _ Ak Sg Hroom) as (o & t2 & t' & Em & _ & Ep & Db' & Hn).
  rewrite Em, bind_ok. cbn [fst snd]. cbn [stored_size] in Hn. exists t'. split_and!; try done; lia.
Qed.

Lemma database_ext t base f g : (∀ k, f k = g k) → tx_holds t base f → tx_holds t base g.
Proof.
  intros E (T & h & F & ws & Sk & It & Re). exists T, h, F, ws. split_and!; [done|done|]. intros k v. by rewrite <- E.
Qed.

Lemma delete_absent {A} (f : key → option A) k : f k = None → ∀ k', f k' = <[k := None]> f k'.
Proof.
  intros H k'. destruct (decide (k' = k)) as [->|Hk]; [by rewrite fn_lookup_insert|by rewrite fn_lookup_insert_ne].
Qed.

(** The facts about the entry that a deletion replaces. *)
Lemma found_entry t base f k T h F ws path lf es LP LS i ps e :
  at_key t base f k T h F ws path lf es LP LS i true ps → es !! i = Some (k, e) →
  leaf_key_bytes e = key_to_vec k ∧ PAGE_HEADER_LEN + leaf_weight (map snd es) ≤ PAGE_SIZE.
Proof.
  intros [Sk _ _ Hd _ _] He. pose proof (descends_leaves _ _ _ _ _ _ _ Hd) as HL.
  destruct (descends_order _ _ _ _ _ _ _ Hd _ _ _ (sk_shaped _ _ _ _ _ _ Sk) I I) as (_ & _ & lo' & hi' & _ & Hk & _).
  destruct (leaf_links _ _ _ _ _ _ Sk _ _ _ _ HL) as (_ & V & _).
  destruct (leaf_raws _ _ _ _ _ _ V) as (bytes & p & raws & _ & _ & _ & _ & _ & _ & _ & _ & _ & _ & _ & Hdc & _ & Hw).
  split; [by destruct (proj1 (Forall_lookup _ _) Hk _ _ He)|]. by rewrite <- (leaf_weight_raws _ _ _ _ Hdc).
Qed.

Lemma tombstone_shrinks k (e : LeafCellRef) es i :
  es !! i = Some (k, e) → leaf_key_bytes e = key_to_vec k →
  leaf_weight (map snd (spliced i true (k, {| leaf_key_bytes := key_to_vec k; leaf_value := Tombstone |}) es))
    ≤ leaf_weight (map snd es).
Proof.
  intros He Hk. unfold spliced. rewrite <- (take_drop_middle es i _ He) at 3. rewrite !map_app, !leaf_weight_app. cbn [map].
  cbn [leaf_weight foldr snd]. unfold entry_size. cbn [leaf_key_bytes leaf_value inline_bytes]. rewrite Hk, len_nil.
  pose proof (len_nonneg (inline_bytes (leaf_value e))). lia.
Qed.

Lemma stage_tombstone t base F old k lf :
  pool t base F → returnable t F old → 0 < len (key_to_vec k) ≤ MAX_ENCODED_KEY_LEN →
  ∃ t1 F1 raw, free_pages t old = Ok t1 ∧ encode_tombstone_leaf_cell (key_to_vec k) = Ok raw ∧
    staged t t1 base F F1 old [] k lf raw Tombstone None.
Proof.
  intros P [Hnd Hold] Hk. destruct (free_pages_ok t base F old P Hnd Hold) as (t1 & E & X & Hn & Hf).
  destruct (tombstone_cell_ok (key_to_vec k) lf (tx_next t1) Hk) as (raw & Er & D). exists t1. do 2 eexists.
  split_and!; [done|exact Er|]. constructor; [exact X|constructor|exact D|cbn; lia|]. intros i n Hi _. by apply Hf.
Qed.

Lemma stage_delete_ok t base f k :
  tx_holds t base f → tx_next t < 2 ^ 60 →
  ∃ t', stage_delete t base k (key_to_vec k) = Ok (bool_decide (is_Some (f k)), t') ∧
    tx_holds t' base (<[k := None]> f) ∧ tx_next t ≤ tx_next t' ≤ tx_next t + 65.
Proof.
  intros Db Hroom. destruct (finds_ok _ _ _ k Db) as (path & lf & p & i & replace & ps & e & El & [Eo Es Hat Hfound Hmiss]).
  unfold stage_delete. rewrite El, bind_ok. cbn [fst snd]. cbv zeta. rewrite Eo, bind_ok, Es, bind_ok.
  assert (f k = None → ∃ t', Ok (E := io_error) (false, t) = Ok (bool_decide (is_Some (f k)), t') ∧
    tx_holds t' base (<[k := None]> f) ∧ tx_next t ≤ tx_next t' ≤ tx_next t + 65) as Habsent.
  { intros E. exists t. split_and!; [by rewrite E| |lia|lia]. eapply database_ext; [|exact Db]. by apply delete_absent. }
  destruct replace; [|by apply Habsent, Hmiss]. destruct (Hfound eq_refl) as (raw & Ec & D & Hh & Hnd & Hfu).
  destruct Hat as (T & h & F & ws & es & LP & LS & Ak & He). specialize (He eq_refl).
  destruct (found_entry _ _ _ _ _ _ _ _ _ _ _ _ _ _ _ _ Ak He) as [Hek Hw].
  rewrite Ec, bind_ok, D, bind_ok. pose proof (held_pages _ _ _ _ _ Hh Hnd Hfu) as Hpages.
  destruct (decide (f k = None)) as [Hn|Hlive].
  { rewrite Hn in Hh. inversion Hh as [E1| |]. by apply Habsent. }
  assert (bool_decide (is_Some (f k)) = true) as -> by (apply bool_decide_true; by apply not_eq_None_Some).
  assert (0 < len (key_to_vec k) ≤ MAX_ENCODED_KEY_LEN) as Hkl by (rewrite <- Hek; by eapply leaf_decode_key_len).
  destruct (at_key_returnable _ _ _ _ _ _ _ _ _ _ _ _ _ _ _ _ Ak) as (Hret & _ & _ & _).
  pose proof (sk_pool _ _ _ _ _ _ (ak_skeleton _ _ _ _ _ _ _ _ _ _ _ _ _ _ _ _ Ak)) as P.
  destruct (stage_tombstone t base F ps k lf P Hret Hkl) as (t1 & F1 & cell' & Ef & Et & Sg).
  destruct (put_ok _ _ _ _ _ _ _ _ _ _ _ _ _ _ _ _ _ _ _ _ _ _ Ak Sg Hroom) as (o & t2 & t' & Em & Hfit & Ep & Db' & Hn).
  pose proof (tombstone_shrinks _ _ _ _ He Hek) as Hsh. rewrite Hfit in Em, Ep by lia. injection Ep as ->.
  cbn [stored_size] in Hn. exists t'. split_and!; [|done|lia|lia]. inversion Hh as [E1 E2 E3|comp ll st crc Hv E1 E2 E3|comp ll head ps' bs Hv Hne Hc E1 E2 E3].
  - by rewrite <- E3 in Hlive.
  - subst ps. injection Ef as <-. by rewrite Et, bind_ok, Em, bind_ok.
  - rewrite <- E1 in Hpages. by rewrite Hpages, bind_ok, Ef, bind_ok, Et, bind_ok, Em, bind_ok.
Qed.

(** ** Reading *)

(** The bytes a stored value stands for. *)
Definition restore (limit : Z) (sv : stored_value) : io_result (list byte) :=
  let '(comp, logical_len, stored) := sv in
  match comp with
  | NoCompression => Ok stored
  | CompressionLz4 => decompress_value_into stored logical_len limit
  end.

Definition lookup_value {V : Type} (binary_deserialize : list byte → io_result V) (limit : Z)
    (c : option stored_value) : io_result (option V) :=
  match c with
  | None => Ok None
  | Some sv => bytes ← restore limit sv; v ← binary_deserialize bytes; Ok (Some v)
  end.

Definition value_limit (t : WriteTransaction) : Z := Z.min (tx_next t * PAGE_SIZE * 256) (2 ^ 32 - 1).

Lemma value_limit_ok t : 0 < tx_next t < 2 ^ 44 → transaction_value_limit t = Ok (value_limit t).
Proof.
  intros H. unfold transaction_value_limit, value_limit, PAGE_SIZE. rewrite try_fit_small by lia. cbn [ok_or]. rewrite bind_ok.
  rewrite checked_mul_small by lia. cbn [mbind option_bind]. by rewrite checked_mul_small by lia.
Qed.

Lemma chain_bytes V head ps bs : chain V head ps bs → len (concat bs) ≤ len ps * OVERFLOW_PAYLOAD_LEN.
Proof. induction 1 as [|id next payload ps bs _ Hp _ IH]; [done|]. cbn [concat]. rewrite len_cons, len_app. lia. Qed.

Lemma read_overflow_ok t base comp ll head ps bs :
  chain (view t base) head ps bs → ps ≠ [] → NoDup ps → (length ps < walk_fuel t)%nat →
  value_ok comp ll (concat bs) → 0 < tx_next t < 2 ^ 44 →
  read_transaction_overflow t base comp ll (len (concat bs)) head (crc32 (concat bs))
  = restore (value_limit t) (comp, ll, concat bs).
Proof.
  intros Hc Hne Hnd Hf Hv Hn. pose proof Hv as (Hu & Hll & Hl & Hcomp). pose proof (chain_bytes _ _ _ _ Hc) as Hb.
  assert (len (concat bs) ≤ value_limit t) as Hlim.
  { assert (OVERFLOW_PAYLOAD_LEN ≤ 4096) by done. pose proof (len_nonneg ps). unfold walk_fuel in Hf.
    assert (len ps ≤ tx_next t) by (unfold len; lia). unfold value_limit, PAGE_SIZE. apply Z.min_glb; [nia|lia]. }
  unfold read_transaction_overflow. rewrite (try_fit_small 64 (len (concat bs))) by lia. cbn [ok_or]. rewrite bind_ok, value_limit_ok, bind_ok by done.
  apply skip_guard; [lia|]. rewrite (chain_pages_ok _ _ _ _ _ Hc Hne Hnd Hf), bind_ok.
  rewrite (assemble_chain_ok _ _ _ _ _ (len (concat bs)) Hc ltac:(lia) []) by (rewrite len_nil; lia). rewrite bind_ok.
  cbn [app]. rewrite !Z.eqb_refl. cbn [negb orb]. destruct comp; cbn [restore].
  - rewrite bool_decide_false by done. unfold fits in Hu. rewrite try_fit_small by lia. cbn [ok_or]. rewrite bind_ok, Hcomp.
    by rewrite Z.eqb_refl.
  - rewrite bool_decide_true by done. rewrite bind_ok. unfold fits in Hu. apply decompress_in_place_eq; lia.
Qed.

Lemma query_ok {V} (deser : list byte → io_result V) t base f k :
  tx_holds t base f → tx_next t < 2 ^ 44 →
  query_transaction deser t base k = lookup_value deser (value_limit t) (f k).
Proof.
  intros Db Hroom. pose proof Db as (T & h & F & ws & Sk & _). pose proof (pool_bound _ _ _ (sk_pool _ _ _ _ _ _ Sk)) as Hb.
  destruct (finds_ok _ _ _ k Db) as (path & lf & p & i & replace & ps & e & El & [Eo Es _ Hfound Hmiss]).
  unfold query_transaction. rewrite El, bind_ok. cbn [fst snd]. cbv zeta. rewrite Eo, bind_ok, Es, bind_ok.
  destruct replace; [|by destruct (Hmiss eq_refl) as [_ ->]]. destruct (Hfound eq_refl) as (raw & Ec & D & Hh & Hnd & Hfu).
  rewrite Ec, bind_ok, D, bind_ok. inversion Hh as [|comp ll st crc Hv|comp ll head ps' bs Hv Hne Hc]; cbn [lookup_value]; [done| |].
  - destruct comp; cbn [restore]; [by rewrite bind_ok|]. by rewrite value_limit_ok, bind_ok by lia.
  - by rewrite (read_overflow_ok _ _ _ _ _ _ _ Hc Hne Hnd Hfu Hv) by lia.
Qed.
End Store.
