(* ===== verification/BtreeExtend.v ===== *)
(** What no operation of a write transaction touches: the snapshot it began
    with, and the identity, generation and metadata of the header.  The overlay
    only grows. *)

From stdpp Require Import gmap.
From S2P Require Import Prelude BtreeFormat BtreeCell BtreePage BtreeSplit BtreeTransaction BtreeUpdate.

Record extends (t t' : WriteTransaction) : Prop := {
  xt_header : original_header t' = original_header t;
  xt_length : original_file_len t' = original_file_len t;
  xt_identity : database_id (next_header t') = database_id (next_header t);
  xt_generation : generation (next_header t') = generation (next_header t);
  xt_metadata : metadata (next_header t') = metadata (next_header t);
  xt_dirty : ∀ id, is_Some (dirty_pages t !! id) → is_Some (dirty_pages t' !! id);
}.

#[export] Instance extends_preorder : PreOrder extends.
Proof.
  split.
  - intros t. by constructor.
  - intros t t' t'' [] []. constructor; try congruence; auto.
Qed.

Lemma dirty_extends t id bytes : extends t (with_dirty t id bytes).
Proof.
  constructor; try done; cbn [with_dirty dirty_pages].
  intros i [b Hb]. destruct (decide (i = id)) as [->|Hi]; [rewrite lookup_insert_eq; eauto|].
  rewrite lookup_insert_ne by done. eauto.
Qed.

Lemma sets_extends t a f : extends t (with_sets t a f).
Proof. by constructor. Qed.

Lemma next_extends t n : extends t (with_next_header t (header_with_next (next_header t) n)).
Proof. by constructor. Qed.

Lemma free_extends t n : extends t (with_next_header t (header_with_free (next_header t) n)).
Proof. by constructor. Qed.

Lemma root_extends t n : extends t (with_next_header t (header_with_root (next_header t) n)).
Proof. by constructor. Qed.

Create HintDb extending.
#[export] Hint Resolve dirty_extends sets_extends next_extends free_extends root_extends : extending.

(** [extend] chains the extensions of the steps of a successful computation. *)
Ltac extend :=
  repeat match goal with
  | |- extends ?t ?t => reflexivity
  | H : extends ?a ?b |- extends ?t ?b => unify t a; exact H
  | |- extends _ (with_dirty ?t _ _) => etransitivity; [|apply dirty_extends]
  | |- extends _ (with_sets ?t _ _) => etransitivity; [|apply sets_extends]
  | |- extends _ (with_next_header ?t _) =>
      etransitivity; [|first [apply next_extends | apply free_extends | apply root_extends]]
  | H : extends ?a ?b |- extends _ ?b => transitivity a; [|exact H]
  end.

Section Extensions.
Context {CK : Checksum}.

Lemma write_extends t id bytes t' : write_page t id bytes = Ok t' → extends t t'.
Proof. unfold write_page. intros H. bind_inv. apply dirty_extends. Qed.

Lemma page_mut_extends t base id bytes t' : page_mut t base id = Ok (bytes, t') → extends t t'.
Proof. unfold page_mut. intros H. case_match; [done|]. case_match; bind_inv; extend. Qed.

Lemma allocate_extends t base id t' : allocate_page t base = Ok (id, t') → extends t t'.
Proof. unfold allocate_page. intros H. case_match; cbv zeta in H; bind_inv; extend. Qed.

Lemma free_page_extends t id t' : free_page t id = Ok t' → extends t t'.
Proof.
  unfold free_page. intros H. cbv zeta in H. bind_inv. apply write_extends in H.
  etransitivity; [|exact H]. extend.
Qed.

Lemma free_pages_extends t pages t' : free_pages t pages = Ok t' → extends t t'.
Proof.
  unfold free_pages. generalize (reverse pages) as ps. intros ps. revert t.
  induction ps as [|p ps IH]; intros t H; cbn in H; bind_inv; [reflexivity|].
  etransitivity; [by eapply free_page_extends|by apply IH].
Qed.

Lemma allocate_pages_extends n t base ids t' : allocate_pages n t base = Ok (ids, t') → extends t t'.
Proof.
  revert t ids t'. induction n as [|n IH]; intros t ids t' H; cbn in H; bind_inv; [reflexivity|].
  match goal with H : allocate_page _ _ = Ok ?a, H' : allocate_pages _ _ _ = Ok ?b |- _ =>
    destruct a, b; cbn in *; apply allocate_extends in H; apply IH in H' end. extend.
Qed.

Lemma write_chunks_extends pages cs : ∀ t i t', write_chunks t pages i cs = Ok t' → extends t t'.
Proof.
  induction cs as [|c cs IH]; intros t i t' H; cbn in H; bind_inv; [reflexivity|].
  match goal with H : write_page _ _ _ = Ok _ |- _ => apply write_extends in H end.
  apply IH in H. extend.
Qed.

Lemma overflow_extends t base stored old head t' :
  write_overflow_chain t base stored old = Ok (head, t') → extends t t'.
Proof.
  unfold write_overflow_chain. intros H. cbv zeta in H. bind_inv.
  match goal with H : write_chunks _ _ _ _ = Ok _ |- _ => apply write_chunks_extends in H end.
  match goal with H : (if _ then _ else _) = Ok _ |- _ => destruct (_ <=? _) in H; bind_inv end;
    repeat match goal with
    | H : free_pages _ _ = Ok _ |- _ => apply free_pages_extends in H
    | H : allocate_pages _ _ _ = Ok ?a |- _ => destruct a; apply allocate_pages_extends in H
    end; cbn in *; extend.
Qed.

Lemma repair_extends t base r nl t' : repair_right_leaf_backlink t base r nl = Ok t' → extends t t'.
Proof.
  unfold repair_right_leaf_backlink. intros H. case_match; bind_inv; [reflexivity|].
  match goal with H : page_mut _ _ _ = Ok ?a |- _ => destruct a; apply page_mut_extends in H end.
  cbv zeta in *. bind_inv. cbn in *. extend.
Qed.

(** A successful step of the transaction, found among the hypotheses. *)
Ltac extend_steps :=
  repeat match goal with
  | H : page_mut _ _ _ = Ok ?a |- _ => destruct a; apply page_mut_extends in H
  | H : allocate_page _ _ = Ok ?a |- _ => destruct a; apply allocate_extends in H
  | H : write_page _ _ _ = Ok _ |- _ => apply write_extends in H
  | H : free_pages _ _ = Ok _ |- _ => apply free_pages_extends in H
  | H : write_overflow_chain _ _ _ _ = Ok ?a |- _ => destruct a; apply overflow_extends in H
  | H : repair_right_leaf_backlink _ _ _ _ = Ok _ |- _ => apply repair_extends in H
  end; cbn [fst snd] in *; bind_inv; extend.

Lemma split_leaf_extends t base lf page cs o t' : split_leaf t base lf page cs = Ok (o, t') → extends t t'.
Proof. unfold split_leaf. intros H. cbv zeta in H. bind_inv. extend_steps. Qed.

Lemma mutate_leaf_extends t base lf i replace new o t' :
  mutate_leaf t base lf i replace new = Ok (o, t') → extends t t'.
Proof.
  unfold mutate_leaf. intros H. cbv zeta in H. bind_inv.
  match goal with H : (if ?c then _ else _) = Ok _ |- _ => destruct c; bind_inv; [extend_steps|] end.
  match goal with H : (if ?c then _ else _) = Ok _ |- _ => destruct c; bind_inv; [extend_steps|] end.
  by eapply split_leaf_extends.
Qed.

Lemma insert_promotion_extends t base id pos pr o t' :
  insert_internal_promotion t base id pos pr = Ok (o, t') → extends t t'.
Proof.
  unfold insert_internal_promotion. intros H. bind_inv.
  match goal with H : (if ?c then _ else _) = Ok _ |- _ => destruct c; bind_inv; [extend_steps|] end.
  unfold split_internal in H. cbv zeta in H. bind_inv. extend_steps.
Qed.

Lemma propagate_loop_extends base path : ∀ t pr o t', propagate_loop t base path pr = Ok (o, t') → extends t t'.
Proof.
  induction path as [|[parent pos] path IH]; intros t pr o t' H; cbn in H; bind_inv; [reflexivity|].
  match goal with H : insert_internal_promotion _ _ _ _ _ = Ok ?a |- _ =>
    destruct a as [[next|] t1]; apply insert_promotion_extends in H end; cbn in H; bind_inv; [|extend].
  apply IH in H. extend.
Qed.

Lemma propagate_extends t base path pr t' : propagate_promotion t base path pr = Ok t' → extends t t'.
Proof.
  unfold propagate_promotion. intros H. bind_inv.
  match goal with H : propagate_loop _ _ _ _ = Ok ?a |- _ =>
    destruct a as [[next|] t1]; apply propagate_loop_extends in H end; cbn in H; [|bind_inv; extend].
  unfold grow_root in H. cbv zeta in H. bind_inv. extend_steps.
Qed.

(** A mutated leaf is in the overlay. *)
Lemma with_dirty_is_dirty t id bytes t' : extends (with_dirty t id bytes) t' → dirty_pages t' ≠ ∅.
Proof.
  intros X E. destruct (xt_dirty _ _ X id) as [b Hb]; [cbn; rewrite lookup_insert_eq; eauto|].
  by rewrite E, lookup_empty in Hb.
Qed.

Lemma write_is_dirty t id bytes t1 t' : write_page t id bytes = Ok t1 → extends t1 t' → dirty_pages t' ≠ ∅.
Proof. unfold write_page. intros H. bind_inv. apply with_dirty_is_dirty. Qed.

Lemma mutate_leaf_dirty t base lf i replace new o t' :
  mutate_leaf t base lf i replace new = Ok (o, t') → dirty_pages t' ≠ ∅.
Proof.
  unfold mutate_leaf. intros H. cbv zeta in H. bind_inv.
  match goal with H : (if ?c then _ else _) = Ok _ |- _ => destruct c; bind_inv; [by eapply with_dirty_is_dirty|] end.
  match goal with H : (if ?c then _ else _) = Ok _ |- _ => destruct c; bind_inv; [by eapply with_dirty_is_dirty|] end.
  unfold split_leaf in H. cbv zeta in H. bind_inv.
  match goal with H : write_page _ lf _ = Ok _ |- _ => eapply write_is_dirty; [exact H|] end. extend_steps.
Qed.

Context {KC : KeyCodec} {LZ : Lz4}.

Lemma stage_upsert_extends t base k kb ll comp stored t' :
  stage_upsert t base k kb ll comp stored = Ok t' → extends t t' ∧ dirty_pages t' ≠ ∅.
Proof.
  unfold stage_upsert. intros H. cbv zeta in H. bind_inv.
  match goal with H : mutate_leaf _ _ _ _ _ _ = Ok ?a |- _ =>
    destruct a as [o t2]; pose proof (mutate_leaf_dirty _ _ _ _ _ _ _ _ H) as Hd; apply mutate_leaf_extends in H; rename H into Hm end.
  assert (extends t2 t') as Hp by (destruct o; cbn in H; [by eapply propagate_extends|bind_inv; reflexivity]).
  split.
  - transitivity t2; [|done]. etransitivity; [|exact Hm].
    match goal with H : (if ?c then _ else _) = Ok ?s |- extends _ (snd ?s) => destruct c; bind_inv; extend_steps end.
  - intros E. apply Hd. apply map_empty. intros i. destruct (dirty_pages t2 !! i) as [b|] eqn:Eb; [|done].
    destruct (xt_dirty _ _ Hp i) as [b' Hb']; [eauto|]. by rewrite E, lookup_empty in Hb'.
Qed.

Lemma stage_delete_extends t base k kb d t' : stage_delete t base k kb = Ok (d, t') → extends t t'.
Proof.
  unfold stage_delete. intros H. cbv zeta in H. bind_inv.
  match goal with H : match ?s with FoundAt _ => _ | InsertAt _ => _ end = Ok _ |- _ => destruct s; bind_inv; [|reflexivity] end.
  match goal with H : match ?v with Inline _ _ _ _ => _ | OverflowRef _ _ _ _ _ => _ | Tombstone => _ end = Ok _ |- _ =>
    destruct v; bind_inv; [| |reflexivity] end;
  match goal with H : mutate_leaf _ _ _ _ _ _ = Ok ?a |- _ => destruct a as [o t2]; apply mutate_leaf_extends in H end; extend_steps.
Qed.

(** A deletion that finds nothing changes nothing; one that deletes dirties a page. *)
Lemma stage_delete_dirty t base k kb d t' :
  stage_delete t base k kb = Ok (d, t') → if d then dirty_pages t' ≠ ∅ else t' = t.
Proof.
  unfold stage_delete. intros H. cbv zeta in H. bind_inv.
  match goal with H : match ?s with FoundAt _ => _ | InsertAt _ => _ end = Ok _ |- _ => destruct s; bind_inv; [|reflexivity] end.
  match goal with H : match ?v with Inline _ _ _ _ => _ | OverflowRef _ _ _ _ _ => _ | Tombstone => _ end = Ok _ |- _ =>
    destruct v; bind_inv; [| |reflexivity] end;
  match goal with H : mutate_leaf _ _ _ _ _ _ = Ok ?a |- _ => destruct a as [o t2]; by apply mutate_leaf_dirty in H end.
Qed.

Lemma stage_serialized_extends t base k raw t' :
  stage_serialized t base k raw = Ok t' → extends t t' ∧ dirty_pages t' ≠ ∅.
Proof. unfold stage_serialized. intros H. bind_inv. by eapply stage_upsert_extends. Qed.
End Extensions.
