(* ===== verification/BtreeLinks.v ===== *)
(** The checks of a commit accept every transaction that holds a database:
    sibling links are symmetric, keys increase, every separator is the smallest
    key to its right, no overflow page has two owners, and the free list is the
    pool. *)

From stdpp Require Import gmap sorting.
From S2P Require Import Prelude BtreeFormat BtreeCell BtreePage BtreeSplit BtreeTransaction BtreeUpdate.
From S2P Require Import BtreeNode BtreeOverlay BtreeMutation BtreeTree BtreeClimb BtreeChain BtreePlace.
From S2P Require Import BtreeStore.

Section Links.
Context {CK : Checksum} {KC : KeyCodec}.
Abbreviation entry := (key * LeafCellRef)%type.
Abbreviation separator := (key * list byte)%type.
Abbreviation leaf := (Z * list entry)%type.

(** ** Subtrees *)

Inductive subtree (S : btree) : btree → Prop :=
| sub_here : subtree S S
| sub_kid c id kids seps : c ∈ kids → subtree S c → subtree S (BNode id kids seps).

Lemma segments_in P lo hi kids seps c :
  segments P lo hi kids seps → c ∈ kids → ∃ lo' hi', P lo' hi' c.
Proof.
  induction 1 as [lo hi T HT|lo hi T s sb Ts ss _ _ _ HT _ IH]; intros Hc.
  - apply list_elem_of_singleton in Hc as ->. eauto.
  - apply elem_of_cons in Hc as [->|Hc]; [eauto|by apply IH].
Qed.

Lemma subtree_shaped S T : subtree S T → ∀ h lo hi, shaped h lo hi T → ∃ h' lo' hi', shaped h' lo' hi' S.
Proof.
  induction 1 as [|c id kids seps Hc _ IH]; intros h lo hi HT; [eauto|].
  apply shaped_node in HT as (h' & -> & _ & Hseg). destruct (segments_in _ _ _ _ _ _ Hseg Hc) as (lo' & hi' & Hs).
  by eapply IH.
Qed.

Lemma in_concat_map {A B} (g : A → list B) l x y : x ∈ l → y ∈ g x → y ∈ concat (map g l).
Proof.
  intros Hx Hy. apply list_elem_of_In, in_concat. exists (g x). split; [|by apply list_elem_of_In].
  by apply in_map, list_elem_of_In.
Qed.

Lemma subtree_pages S T p : subtree S T → p ∈ pages S → p ∈ pages T.
Proof.
  induction 1 as [|c id kids seps Hc _ IH]; intros Hp; [done|]. cbn [pages]. right. eapply in_concat_map; [exact Hc|auto].
Qed.

Lemma cnt_concat {A} (g : A → list Z) l x c : c ∈ l → (cnt x (g c) ≤ cnt x (concat (map g l)))%nat.
Proof.
  intros Hc. apply list_elem_of_split in Hc as (l1 & l2 & ->). rewrite map_app, concat_app. cbn [map concat].
  rewrite !cnt_app. lia.
Qed.

Lemma subtree_ids S T x : subtree S T → (cnt x (ids S) ≤ cnt x (ids T))%nat.
Proof.
  induction 1 as [|c id kids seps Hc _ IH]; [done|]. rewrite ids_node, cnt_cons. pose proof (cnt_concat ids kids x c Hc). lia.
Qed.

Lemma subtree_leaf id es T : subtree (BLeaf id es) T → (id, es) ∈ leaves T.
Proof.
  induction 1 as [|c id' kids seps Hc _ IH]; [by left|]. cbn [leaves]. by eapply in_concat_map.
Qed.

Lemma leaf_subtree id es : ∀ T, (id, es) ∈ leaves T → subtree (BLeaf id es) T.
Proof.
  fix IH 1. intros [i e0|i kids seps] H; cbn [leaves] in H.
  - apply list_elem_of_singleton in H. injection H as E1 E2. subst i e0. constructor.
  - assert (∃ c, c ∈ kids ∧ subtree (BLeaf id es) c) as (c & Hc & Hs).
    { clear seps. induction kids as [|T kids IHk]; cbn [map concat] in H; [by apply elem_of_nil in H|].
      apply elem_of_app in H as [H|H]; [exists T; split; [by left|exact (IH T H)]|].
      destruct (IHk H) as (c & Hc & Hs). exists c. split; [by right|exact Hs]. }
    clear IH. by econstructor.
Qed.

(** Every page of a tree is the root of a subtree. *)
Lemma page_subtree id sp : ∀ T, (id, sp) ∈ pages T →
  (∃ es, sp = PLeaf (map snd es) ∧ subtree (BLeaf id es) T) ∨
  (∃ kids seps, sp = node_spec kids seps ∧ subtree (BNode id kids seps) T).
Proof.
  fix IH 1. intros [i es|i kids seps] Hin; cbn [pages] in Hin.
  - apply list_elem_of_singleton in Hin. injection Hin as E1 E2. subst i. left. exists es. split; [exact E2|constructor].
  - apply elem_of_cons in Hin as [Hin|Hin].
    { injection Hin as E1 E2. subst i. right. exists kids, seps. split; [exact E2|constructor]. }
    assert (∃ c, c ∈ kids ∧ ((∃ es, sp = PLeaf (map snd es) ∧ subtree (BLeaf id es) c) ∨
      (∃ ks ss, sp = node_spec ks ss ∧ subtree (BNode id ks ss) c))) as (c & Hc & Hcase).
    { clear seps. induction kids as [|T kids IHk]; cbn [map concat] in Hin; [by apply elem_of_nil in Hin|].
      apply elem_of_app in Hin as [Hin|Hin].
      - exists T. split; [by left|]. exact (IH T Hin).
      - destruct (IHk Hin) as (c & Hc & Hx). exists c. split; [by right|exact Hx]. }
    clear IH. destruct Hcase as [(es & -> & Hs)|(ks & ss & -> & Hs)]; [left|right]; eauto using sub_kid.
Qed.

(** ** The smallest key *)

Lemma minimum_ok t base s h : ∀ hi c,
  shaped h (Some s) hi c → Forall (holds (view t base)) (pages c) → NoDup (ids c) →
  ∀ fuel visited, (h < fuel)%nat → (∀ i, i ∈ ids c → i ∉ visited) →
  minimum_key_loop fuel t base (root_id c) visited = Ok (Some (key_to_vec s)).
Proof.
  induction h as [|h IH]; intros hi [id es|id kids seps] Hs Hp Hnd [|fuel] visited Hf Hv; try done; try lia;
    cbn [minimum_key_loop root_id]; cbn [pages] in Hp; apply Forall_cons in Hp as [Hp Hk];
    (rewrite bool_decide_false by (apply Hv; unfold ids; by left)).
  - destruct Hs as (_ & Hb & Hst). cbn in Hst. destruct es as [|[s' e] es]; [done|]. injection Hst as ->.
    destruct Hp as (l & r & V). cbn in V.
    destruct (leaf_raws _ _ _ _ _ _ V) as (bytes & p & raws & _ & _ & Eo & _ & _ & _ & Ht & _ & _ & Hc & _ & Hd & _).
    rewrite Eo, bind_ok, Ht, Hc. inversion Hd as [|raw ? raws' ? D _]; subst. cbn [map head]. rewrite bind_ok, D, bind_ok.
    apply Forall_cons in Hb as [[Hb _] _]. cbn in Hb. by rewrite Hb.
  - destruct Hs as [_ Hseg]. cbn in Hp.
    destruct (internal_raws _ _ _ _ _ Hp) as (bytes & p & raws & _ & _ & Eo & _ & Hpb & _ & _ & Ht & Hpre & _).
    rewrite Eo, bind_ok, Ht, Hpb, Hpre, bind_ok. cbn [leftmost_child].
    assert (∃ c rest hi', kids = c :: rest ∧ shaped h (Some s) hi' c) as (c & rest & hi' & -> & Hc) by (inversion Hseg; subst; eauto 6).
    cbn [leftmost_of]. rewrite ids_node in Hnd. apply NoDup_cons in Hnd as [Hid Hnd]. cbn [map concat] in Hnd, Hid.
    apply NoDup_app in Hnd as (Hnd & _ & _). cbn [map concat] in Hk. apply Forall_app in Hk as [Hk _].
    eapply IH; [exact Hc|done|done|lia|]. intros i Hi. rewrite not_elem_of_union, not_elem_of_singleton. split.
    + intros ->. apply Hid. rewrite elem_of_app. by left.
    + apply Hv. rewrite ids_node. right. cbn [map concat]. rewrite elem_of_app. by left.
Qed.

Lemma check_internal_ok t base id h lo hi kids seps raws previous :
  segments (shaped h) lo hi kids seps → Forall (holds (view t base)) (concat (map pages kids)) →
  NoDup (concat (map ids kids)) → (h < walk_fuel t)%nat → previous = None ∨ previous = lo →
  Forall2 (λ raw c, internal_cell_ref_decode raw id (tx_next t) = Ok c) raws (node_cells kids seps) →
  check_internal_cells t base id (map Ok raws) previous = Ok tt.
Proof.
  intros Hseg. revert raws previous. induction Hseg as [|lo hi T s sb Ts ss [Hk Hlen] Hl Hh HT Hs IH];
    intros raws previous Hp Hnd Hf Hprev Hd.
  { inversion Hd; subst. done. }
  destruct Ts as [|T' Ts]; [inversion Hs|]. unfold node_cells in Hd. cbn [tail zip_with] in Hd.
  inversion Hd as [|raw c raws' cs D Hd']; subst. cbn [map check_internal_cells]. rewrite bind_ok, D, bind_ok.
  cbn [node_cell internal_key_bytes internal_right_child snd fst] in *. rewrite Hk, decode_encoded_key, bind_ok.
  cbn [map concat] in Hp, Hnd. apply Forall_app in Hp as [_ Hp]. apply NoDup_app in Hnd as (_ & _ & Hnd).
  assert (not_increasing previous s = false) as ->.
  { destruct Hprev as [->| ->]; [done|]. destruct lo as [b|]; [|done]. cbn in Hl |- *. by rewrite Hl. }
  assert (∃ hi', shaped h (Some s) hi' T') as [hi' HT'] by (inversion Hs; subst; eauto).
  pose proof Hp as Hp0. pose proof Hnd as Hnd0. cbn [map concat] in Hp0, Hnd0.
  apply Forall_app in Hp0 as [Hp1 _]. apply NoDup_app in Hnd0 as (Hn1 & _ & _).
  unfold minimum_tree_key. rewrite (minimum_ok t base s h hi' T' HT' Hp1 Hn1) by (done || (intros i _; apply not_elem_of_empty)).
  rewrite bind_ok. cbn [ok_or]. rewrite bind_ok, bool_decide_true by done. cbn [negb].
  apply IH; [done|done|done|by right|exact Hd'].
Qed.

(** ** Leaves *)

Lemma claim_ok pages owned :
  NoDup pages → (∀ x, x ∈ pages → x ∉ owned) →
  ∃ owned', claim_pages owned pages = Ok owned' ∧ ∀ x, x ∈ owned' ↔ x ∈ pages ∨ x ∈ owned.
Proof.
  revert owned. induction pages as [|p pages IH]; intros owned Hnd Ho; cbn [claim_pages].
  { exists owned. split; [done|]. intros x. rewrite elem_of_nil. tauto. }
  apply NoDup_cons in Hnd as [Hp Hnd]. rewrite bool_decide_false by (apply Ho; by left).
  destruct (IH ({[p]} ∪ owned) Hnd) as (owned' & E & H).
  { intros x Hx. rewrite not_elem_of_union, not_elem_of_singleton. split; [by intros ->|]. apply Ho. by right. }
  exists owned'. split; [done|]. intros x. rewrite H, elem_of_cons, elem_of_union, elem_of_singleton. tauto.
Qed.

(** The keys that follow the key before. *)
Definition follows (previous : option key) (ks : list key) : Prop :=
  match previous with None => True | Some p => ∀ k, k ∈ ks → key_lt p k end.

Lemma sorted_tail k ks : sorted_keys (k :: ks) → sorted_keys ks ∧ follows (Some k) ks.
Proof.
  intros H. split.
  - intros i j a b Hij Ha Hb. apply (H (S i) (S j)); [lia|done|done].
  - intros x (j & Hj)%list_elem_of_lookup. apply (H 0%nat (S j)); [lia|done|done].
Qed.

Lemma check_leaf_ok t base id es ws raws previous owned :
  Forall2 (λ raw e, leaf_cell_ref_decode raw id (tx_next t) = Ok e) raws (map snd es) →
  Forall (λ e, leaf_key_bytes e.2 = key_to_vec e.1) es → sorted_keys (map fst es) → follows previous (map fst es) →
  holds_items (view t base) es ws → NoDup (owned_pages ws) → (∀ x, x ∈ owned_pages ws → x ∉ owned) →
  Forall (λ w, (length w.1 < walk_fuel t)%nat) ws →
  ∃ owned', check_leaf_cells t base id (map Ok raws) previous owned = Ok owned' ∧
    ∀ x, x ∈ owned' ↔ x ∈ owned_pages ws ∨ x ∈ owned.
Proof.
  intros Hd Hk Hs Hf It. revert raws previous owned Hd Hk Hs Hf.
  induction It as [|[k e] w es ws Hw It IH]; intros raws previous owned Hd Hk Hs Hf Hnd Ho Hfu.
  { inversion Hd; subst. exists owned. split; [done|]. intros x. unfold owned_pages. cbn. rewrite elem_of_nil. tauto. }
  cbn [map] in *. inversion Hd as [|raw ? raws' ? D Hd']; subst. apply Forall_cons in Hk as [Hkb Hk]. cbn [fst snd] in *.
  apply sorted_tail in Hs as [Hs Hfo]. rewrite owned_cons in *. apply NoDup_app in Hnd as (Hn1 & Hdis & Hn2).
  apply Forall_cons in Hfu as [Hfw Hfu]. cbn [map check_leaf_cells]. rewrite bind_ok, D, bind_ok, Hkb, decode_encoded_key, bind_ok.
  assert (not_increasing previous k = false) as ->.
  { destruct previous as [p|]; [|done]. cbn in Hf |- *. specialize (Hf k ltac:(by left)). by rewrite Hf. }
  destruct (claim_ok w.1 owned Hn1) as (owned1 & E1 & H1).
  { intros x Hx. apply Ho. rewrite elem_of_app. by left. }
  pose proof (held_pages _ _ _ _ _ Hw Hn1 Hfw) as Hpages.
  assert (match leaf_value e with
    | OverflowRef _ _ stored_len head crc =>
        pages ← validated_overflow_chain_pages t base head stored_len crc; claim_pages owned pages
    | Inline _ _ _ _ | Tombstone => Ok owned end = Ok owned1) as ->.
  { destruct (leaf_value e); [|by rewrite Hpages, bind_ok|]; injection Hpages as Hp; rewrite <- Hp in E1; exact E1. }
  rewrite bind_ok. destruct (IH raws' (Some k) owned1 Hd' Hk Hs Hfo Hn2) as (owned' & E & H); [|done|].
  { intros x Hx Hx1. apply H1 in Hx1 as [Hx1|Hx1]; [by apply (Hdis x)|]. apply (Ho x); [|done]. rewrite elem_of_app. by right. }
  exists owned'. split; [done|]. intros x. rewrite H, H1, elem_of_app. tauto.
Qed.

Lemma backlink_ok t base id sib l r es points_left :
  view t base sib (NLeaf l r es) → (if points_left : bool then l else r) = id →
  validate_leaf_backlink t base id sib points_left = Ok tt.
Proof.
  intros V Hb. unfold validate_leaf_backlink. pose proof (view_range _ _ _ _ V). replace (sib =? 0) with false by lia.
  destruct (view_open _ _ _ _ V) as (bytes & p & _ & _ & (Ht & Hl & Hr & _) & Eo & _). rewrite Eo, bind_ok. cbv zeta.
  rewrite bool_decide_true by done. rewrite Hl, Hr, Hb, Z.eqb_refl. done.
Qed.

Lemma last_leaf_view V prev ls nxt :
  linked V prev ls nxt → ls = [] ∨ ∃ l es, V (last_leaf prev ls) (NLeaf l nxt es).
Proof.
  revert prev. induction ls as [|[id es] ls IH]; intros prev H; [by left|right]. destruct H as [Hv Hl].
  rewrite last_leaf_cons. destruct (IH id Hl) as [->|Hx]; [|done]. cbn in Hv. eauto.
Qed.

(** ** Pages of a database *)

Section Pages.
Context (t : WriteTransaction) (base : list byte) (T : btree) (h : nat) (F : list Z).
Context (wss : list (list item)).
Context (Sk : skeleton t base T h F (owned_pages (concat wss))).
Context (It : Forall2 (λ l w, holds_items (view t base) l.2 w) (leaves T) wss).

(** The leaf whose values own a page. *)
Definition owner (x id : Z) : Prop :=
  ∃ j es w, leaves T !! j = Some (id, es) ∧ wss !! j = Some w ∧ x ∈ owned_pages w.

Lemma owned_concat (ls : list (list item)) : owned_pages (concat ls) = concat (map owned_pages ls).
Proof. induction ls as [|w ls IH]; [done|]. cbn [concat map]. by rewrite owned_app, IH. Qed.

Lemma concat_once (ls : list (list Z)) x i j a b :
  (cnt x (concat ls) ≤ 1)%nat → ls !! i = Some a → ls !! j = Some b → x ∈ a → x ∈ b → i = j.
Proof.
  intros H Ha Hb Hxa Hxb. revert i j H Ha Hb. induction ls as [|c ls IH]; intros i j H Ha Hb; [done|].
  cbn [concat] in H. rewrite cnt_app in H.
  assert (∀ k d, ls !! k = Some d → x ∈ d → (0 < cnt x (concat ls))%nat) as Hpos.
  { intros k d Hk Hd. apply cnt_in, list_elem_of_In, in_concat. exists d.
    split; apply list_elem_of_In; [by eapply list_elem_of_lookup_2|done]. }
  destruct i as [|i], j as [|j]; cbn in Ha, Hb.
  - done.
  - injection Ha as ->. rewrite cnt_in in Hxa. pose proof (Hpos _ _ Hb Hxb). lia.
  - injection Hb as ->. rewrite cnt_in in Hxb. pose proof (Hpos _ _ Ha Hxa). lia.
  - f_equal. apply IH; [lia|done|done].
Qed.

Lemma owner_unique x id id' : owner x id → owner x id' → id = id'.
Proof.
  intros (j & es & w & Hl & Hw & Hx) (j' & es' & w' & Hl' & Hw' & Hx').
  assert (j = j') as <-; [|congruence].
  apply (concat_once (map owned_pages wss) x j j' (owned_pages w) (owned_pages w')); [| | |done|done].
  - rewrite <- owned_concat. pose proof (skeleton_once _ _ _ _ _ _ x Sk). lia.
  - by rewrite list_lookup_fmap, Hw.
  - by rewrite list_lookup_fmap, Hw'.
Qed.

Lemma check_leaf_page_ok id es bytes p owned :
  (id, es) ∈ leaves T → (∀ x, x ∈ owned → ¬ owner x id) →
  tx_page t base id = Ok bytes → page_open bytes id (tx_next t) = Ok p →
  page_type (sp_header p) = Leaf ∧
  ∃ owned', (_ ← validate_leaf_backlink t base id (left (sp_header p)) false;
     _ ← validate_leaf_backlink t base id (right (sp_header p)) true;
     check_leaf_cells t base id (cells p) None owned) = Ok owned' ∧ ∀ x, x ∈ owned' → x ∈ owned ∨ owner x id.
Proof.
  intros Hin Ho Ep Eo. apply list_elem_of_lookup in Hin as [j Hj]. pose proof (take_drop_middle _ _ _ Hj) as HL.
  symmetry in HL. destruct (leaf_links _ _ _ _ _ _ Sk _ _ _ _ HL) as (Hll & V & Hlr).
  destruct (leaf_raws _ _ _ _ _ _ V) as
    (bytes' & p' & raws & Ep' & Eo' & _ & _ & _ & _ & Ht & Hl & Hr & Hc & _ & Hd & _).
  assert (bytes' = bytes) as -> by congruence. assert (p' = p) as -> by congruence. split; [done|].
  rewrite Hl, Hr, Hc.
  assert (validate_leaf_backlink t base id (last_leaf 0 (take j (leaves T))) false = Ok tt) as ->.
  { destruct (last_leaf_view _ _ _ _ Hll) as [->|(l & es' & Vl)]; [done|]. by eapply backlink_ok. }
  assert (validate_leaf_backlink t base id (first_leaf (drop (S j) (leaves T)) 0) true = Ok tt) as ->.
  { destruct (drop (S j) (leaves T)) as [|[r res] LS]; [done|]. destruct Hlr as [Vr _]. by eapply backlink_ok. }
  rewrite !bind_ok. destruct (Forall2_lookup_l _ _ _ _ _ It Hj) as (w & Hw & Hit). cbn in Hit.
  assert (∃ h' lo hi, shaped h' lo hi (BLeaf id es)) as (h' & lo & hi & Hsh).
  { eapply subtree_shaped; [|apply Sk]. apply leaf_subtree. by eapply list_elem_of_lookup_2. }
  destruct h'; [|done]. destruct Hsh as (Hs & Hk & _).
  assert (∀ x, x ∈ owned_pages w → owner x id) as Hown by (intros x Hx; by exists j, es, w).
  assert (∀ x, (cnt x (owned_pages w) ≤ cnt x (owned_pages (concat wss)))%nat) as Hcnt.
  { intros x. rewrite owned_concat. apply cnt_concat. by eapply list_elem_of_lookup_2. }
  destruct (check_leaf_ok t base id es w raws None owned Hd) as (owned' & E & H); try done.
  - eapply Forall_impl; [exact Hk|]. cbn. tauto.
  - apply cnt_nodup. intros x. pose proof (skeleton_once _ _ _ _ _ _ x Sk). specialize (Hcnt x). lia.
  - intros x Hx Hxo. by apply (Ho x Hxo), Hown.
  - apply Forall_forall. intros v Hv.
    assert (v.1 ∈ map fst (concat wss)) as Hin.
    { apply list_elem_of_In, in_map, in_concat. exists w. split; apply list_elem_of_In; [by eapply list_elem_of_lookup_2|done]. }
    by destruct (owned_fuel _ _ _ _ _ _ v.1 Sk Hin).
  - exists owned'. split; [done|]. intros x Hx. apply H in Hx as [Hx|Hx]; [right; by apply Hown|by left].
Qed.

(** Every page of the file is a page of the tree, of a value or of the pool. *)
Lemma page_cases id : 0 < id < tx_next t → id ∈ ids T ∨ id ∈ owned_pages (concat wss) ∨ id ∈ F.
Proof.
  intros Hid. pose proof (skeleton_cnt _ _ _ _ _ _ id Sk) as H. rewrite cnt_seq, decide_True in H by lia. rewrite !cnt_in. lia.
Qed.

Lemma chain_page V head ps bs x :
  chain V head ps bs → x ∈ ps →
  ∃ next payload, V x (NOverflow next payload) ∧ (next = 0 ∨ ∃ n p, V next (NOverflow n p)).
Proof.
  induction 1 as [|id next payload ps bs Hv _ Hc IH]; intros Hx; [by apply elem_of_nil in Hx|].
  apply elem_of_cons in Hx as [->|Hx]; [|by apply IH]. exists next, payload. split; [done|].
  destruct Hc; [by left|right; eauto].
Qed.

Lemma owned_page x :
  x ∈ owned_pages (concat wss) →
  ∃ next payload, view t base x (NOverflow next payload) ∧ (next = 0 ∨ ∃ n p, view t base next (NOverflow n p)).
Proof.
  intros Hx. unfold owned_pages in Hx. apply list_elem_of_In, in_concat in Hx as (ps & Hps & Hx).
  apply in_map_iff in Hps as (v & <- & Hv). apply in_concat in Hv as (w & Hw & Hv).
  apply list_elem_of_In in Hw, Hv, Hx. apply list_elem_of_lookup in Hw as [j Hw].
  destruct (Forall2_lookup_r _ _ _ _ _ It Hw) as (l & _ & Hit). apply list_elem_of_lookup in Hv as [m Hv].
  destruct (Forall2_lookup_r _ _ _ _ _ Hit Hv) as (e & _ & Hh).
  destruct Hh as [| |comp ll head ps bs _ _ Hc]; [by apply elem_of_nil in Hx..|]. by eapply chain_page.
Qed.

Lemma free_chain_view V hd l x : free_chain V hd l → x ∈ l → ∃ n, V x (NFree n).
Proof.
  induction 1 as [|id next l Hv _ IH]; intros Hx; [by apply elem_of_nil in Hx|].
  apply elem_of_cons in Hx as [->|Hx]; [eauto|by apply IH].
Qed.

Lemma free_page_view x : x ∈ F → ∃ n, view t base x (NFree n).
Proof. eapply free_chain_view. apply Sk. Qed.

(** The view of every page. *)
Lemma tree_page id :
  id ∈ ids T → (∃ es, (id, es) ∈ leaves T) ∨ (∃ kids seps, subtree (BNode id kids seps) T).
Proof.
  intros H. unfold ids in H. apply list_elem_of_In, in_map_iff in H as ([i sp] & Ei & H). cbn in Ei. subst i.
  apply list_elem_of_In in H. destruct (page_subtree _ _ _ H) as [(es & _ & Hs)|(kids & seps & _ & Hs)]; [left|right; eauto].
  exists es. by apply subtree_leaf.
Qed.

Lemma leaf_page_view id es : (id, es) ∈ leaves T → ∃ l r, view t base id (NLeaf l r (map snd es)).
Proof.
  intros H. apply list_elem_of_lookup in H as [j Hj]. pose proof (take_drop_middle _ _ _ Hj) as HL. symmetry in HL.
  destruct (leaf_links _ _ _ _ _ _ Sk _ _ _ _ HL) as (_ & V & _). eauto.
Qed.

Lemma node_page_view id kids seps :
  subtree (BNode id kids seps) T → view t base id (NInternal (leftmost_of kids) (node_cells kids seps)).
Proof.
  intros H. pose proof (sk_pages _ _ _ _ _ _ Sk) as Hp. rewrite Forall_forall in Hp.
  exact (Hp (id, node_spec kids seps) (subtree_pages _ _ _ H ltac:(by left))).
Qed.

Lemma page_has_view id : 0 < id < tx_next t → ∃ n, view t base id n.
Proof.
  intros Hid. destruct (page_cases id Hid) as [H|[H|H]].
  - destruct (tree_page id H) as [(es & He)|(kids & seps & Hs)].
    + destruct (leaf_page_view _ _ He) as (l & r & V). eauto.
    + eexists. by apply node_page_view.
  - destruct (owned_page _ H) as (next & payload & V & _). eauto.
  - destruct (free_page_view _ H) as [n V]. eauto.
Qed.

Lemma tree_page_type id :
  id ∈ ids T → ∃ p, tx_open t base id = Ok p ∧ (page_type (sp_header p) = Leaf ∨ page_type (sp_header p) = Internal).
Proof.
  intros H. destruct (tree_page id H) as [(es & He)|(kids & seps & Hs)].
  - destruct (leaf_page_view _ _ He) as (l & r & V). destruct (view_open _ _ _ _ V) as (bytes & p & _ & _ & (Ht & _) & Eo & _). eauto.
  - apply node_page_view in Hs as V. destruct (view_open _ _ _ _ V) as (bytes & p & _ & _ & (Ht & _) & Eo & _). eauto.
Qed.

Lemma check_internal_page_ok id kids seps bytes p owned :
  subtree (BNode id kids seps) T → tx_page t base id = Ok bytes → page_open bytes id (tx_next t) = Ok p →
  page_type (sp_header p) = Internal ∧
  (preamble ← internal_preamble_decode bytes id (tx_next t);
   child ← tx_open t base (leftmost_child preamble);
   if negb (bool_decide (page_type (sp_header child) = Leaf) || bool_decide (page_type (sp_header child) = Internal))
   then Err (invalid_data "internal page references a non-tree child") else
   _ ← check_internal_cells t base id (cells p) None;
   Ok owned) = Ok (owned : gset Z).
Proof.
  intros Hs Ep Eo. pose proof (node_page_view _ _ _ Hs) as V.
  destruct (view_open _ _ _ _ V) as (bytes' & p' & Ep' & Eo' & (Ht & Hpre & raws & Hc & Hd) & _ & _ & Hpb & Hpi & Hpn).
  assert (bytes' = bytes) as -> by congruence. assert (p' = p) as -> by congruence. split; [done|].
  rewrite Hpb, Hpi, Hpn in Hpre. rewrite Hpi, Hpn in Hd. rewrite Hpre, bind_ok. cbn [leftmost_child].
  destruct (subtree_shaped _ _ Hs _ _ _ (sk_shaped _ _ _ _ _ _ Sk)) as (h' & lo & hi & Hsh).
  pose proof (shaped_height _ _ _ _ Hsh) as Hh. apply shaped_node in Hsh as (h'' & -> & _ & Hseg).
  assert (leftmost_of kids ∈ ids T) as Hlm.
  { apply cnt_in. pose proof (subtree_ids _ _ (leftmost_of kids) Hs) as Hle. rewrite ids_node, cnt_cons in Hle.
    assert (0 < cnt (leftmost_of kids) (concat (map ids kids)))%nat; [|lia]. apply cnt_in.
    destruct kids as [|c kids]; [inversion Hseg|]. cbn [leftmost_of map concat]. rewrite elem_of_app. left. apply root_in_ids. }
  destruct (tree_page_type _ Hlm) as (child & Ech & Htc). rewrite Ech, bind_ok.
  replace (bool_decide (page_type (sp_header child) = Leaf) || bool_decide (page_type (sp_header child) = Internal)) with true
    by (symmetry; apply orb_true_iff; destruct Htc; [left|right]; by apply bool_decide_eq_true_2).
  cbn [negb]. rewrite Hc.
  assert (NoDup (concat (map ids kids))) as Hnd.
  { apply cnt_nodup. intros x. pose proof (subtree_ids _ _ x Hs) as Hle. rewrite ids_node, cnt_cons in Hle.
    pose proof (skeleton_once _ _ _ _ _ _ x Sk). lia. }
  assert (Forall (holds (view t base)) (concat (map pages kids))) as Hp.
  { apply Forall_forall. intros q Hq. pose proof (sk_pages _ _ _ _ _ _ Sk) as Hp. rewrite Forall_forall in Hp.
    apply Hp, (subtree_pages _ _ _ Hs). cbn [pages]. by right. }
  rewrite (check_internal_ok t base id h'' lo hi kids seps raws None Hseg Hp Hnd); [done| |by left|done].
  assert (h'' < 2 ^ S h'')%nat as Hlin by (pose proof (Nat.pow_gt_lin_r 2 (S h'') ltac:(lia)); lia).
  assert (length (ids (BNode id kids seps)) ≤ length (ids T))%nat as Hle.
  { apply submseteq_length, NoDup_submseteq.
    - apply cnt_nodup. intros x. pose proof (subtree_ids _ _ x Hs). pose proof (skeleton_once _ _ _ _ _ _ x Sk). lia.
    - intros x Hx. rewrite cnt_in in *. pose proof (subtree_ids _ _ x Hs). lia. }
  pose proof (Permutation_length (sk_owned _ _ _ _ _ _ Sk)) as Hl. rewrite !length_app, length_seqZ in Hl. unfold walk_fuel. lia.
Qed.

Lemma dirty_page_bytes id n :
  is_Some (dirty_pages t !! id) → view t base id n →
  tx_page t base id = Ok (default [] (dirty_pages t !! id)) ∧
  ∃ p, page_open (default [] (dirty_pages t !! id)) id (tx_next t) = Ok p ∧ is_node p n.
Proof.
  intros [b Hb] (_ & bytes & Ep & S). rewrite Hb in *. cbn [default].
  assert (bytes = b) as ->; [|by split].
  unfold tx_page in Ep. case_match; [done|]. rewrite Hb in Ep. by injection Ep.
Qed.

Lemma check_dirty_page_ok id owned :
  is_Some (dirty_pages t !! id) → (∀ x, x ∈ owned → ¬ owner x id) →
  ∃ owned', check_dirty_page t base id owned = Ok owned' ∧ ∀ x, x ∈ owned' → x ∈ owned ∨ owner x id.
Proof.
  intros Hdi Ho. pose proof (pool_dirty _ _ _ (sk_pool _ _ _ _ _ _ Sk) id Hdi) as Hid.
  destruct (page_has_view id Hid) as [n0 V0]. destruct (dirty_page_bytes id n0 Hdi V0) as (Ep & p & Eo & N0).
  unfold check_dirty_page. cbv zeta. rewrite Eo, bind_ok.
  destruct (page_cases id Hid) as [H|[H|H]].
  - destruct (tree_page id H) as [(es & He)|(kids & seps & Hs)].
    + destruct (check_leaf_page_ok id es _ p owned He Ho Ep Eo) as (Ht & owned' & E & Hx). rewrite Ht. eauto.
    + destruct (check_internal_page_ok id kids seps _ p owned Hs Ep Eo) as (Ht & E). rewrite Ht, E. eauto.
  - destruct (owned_page _ H) as (next & payload & V & Hnext). rewrite (view_inj _ _ _ _ _ V0 V) in N0.
    destruct N0 as (Ht & Hr & _). rewrite Ht, Hr. exists owned. split; [|auto].
    destruct Hnext as [->|(n & q & Vn)]; [done|]. pose proof (view_range _ _ _ _ Vn).
    replace (next =? 0) with false by lia. cbn [negb]. destruct (overflow_open _ _ _ _ _ Vn) as (pn & En & Htn & _).
    by rewrite En, bind_ok, bool_decide_true.
  - destruct (free_page_view _ H) as [n V]. rewrite (view_inj _ _ _ _ _ V0 V) in N0. destruct N0 as [Ht _]. rewrite Ht. eauto.
Qed.

Lemma check_dirty_pages_ok ids' : ∀ owned,
  NoDup ids' → Forall (λ id, is_Some (dirty_pages t !! id)) ids' → (∀ x id, x ∈ owned → id ∈ ids' → ¬ owner x id) →
  ∃ owned', check_dirty_pages t base ids' owned = Ok owned'.
Proof.
  induction ids' as [|id ids' IH]; intros owned Hnd Hf Ho; cbn [check_dirty_pages]; [eauto|].
  apply NoDup_cons in Hnd as [Hni Hnd]. apply Forall_cons in Hf as [Hid Hf].
  pose proof (pool_dirty _ _ _ (sk_pool _ _ _ _ _ _ Sk) id Hid) as Hr. replace (id =? 0) with false by lia.
  destruct (check_dirty_page_ok id owned Hid) as (owned1 & E & H1).
  { intros x Hx. apply Ho; [done|by left]. }
  rewrite E, bind_ok. apply IH; [done|done|]. intros x i Hx Hi Hown. apply H1 in Hx as [Hx|Hx].
  - apply (Ho x i Hx); [by right|done].
  - pose proof (owner_unique _ _ _ Hx Hown). by subst.
Qed.

(** ** The free list *)

Lemma free_list_loop_ok head l :
  free_chain (view t base) head l → NoDup l → (∀ i, i ∈ l → i ∉ allocated_pages t) →
  ∀ fuel free, (length l < fuel)%nat → (∀ i, i ∈ l → i ∉ free) →
  ∃ free', free_list_loop fuel t base head free = Ok free' ∧ ∀ i, i ∈ l ∨ i ∈ free → i ∈ free'.
Proof.
  induction 1 as [|id next l Hv Hc IH]; intros Hnd Ha [|fuel] free Hf Hfree; cbn in Hf; try lia; cbn [free_list_loop].
  { exists free. split; [done|]. intros i [Hi|Hi]; [by apply elem_of_nil in Hi|done]. }
  pose proof (view_range _ _ _ _ Hv). replace (id =? 0) with false by lia. apply NoDup_cons in Hnd as [Hni Hnd].
  rewrite bool_decide_false by (apply Hfree; by left). rewrite bool_decide_false by (apply Ha; by left).
  destruct (view_open _ _ _ _ Hv) as (bytes & p & _ & _ & [Ht Hr] & Eo & _). rewrite Eo, bind_ok, bool_decide_true by done.
  cbn [negb]. rewrite Hr. destruct (IH Hnd) with (fuel := fuel) (free := {[id]} ∪ free) as (free' & E & H'); [|lia| |].
  { intros i Hi. apply Ha. by right. }
  { intros i Hi. rewrite not_elem_of_union, not_elem_of_singleton. split; [by intros ->|]. apply Hfree. by right. }
  exists free'. split; [done|]. intros i Hi. apply H'. rewrite elem_of_cons in Hi. rewrite elem_of_union, elem_of_singleton. tauto.
Qed.

Lemma check_allocated_ok l :
  (∀ i, i ∈ l → i ∈ allocated_pages t) → check_allocated t base l = Ok tt.
Proof.
  induction l as [|id l IH]; intros Ha; cbn [check_allocated]; [done|].
  destruct (pool_allocated _ _ _ (sk_pool _ _ _ _ _ _ Sk) id (Ha id ltac:(by left))) as [HF Hid].
  assert (∃ p, tx_open t base id = Ok p ∧ page_type (sp_header p) ≠ Free) as (p & Eo & Ht).
  { destruct (page_cases id Hid) as [H|[H|H]]; [| |done].
    - destruct (tree_page_type id H) as (p & Eo & Ht). exists p. split; [done|]. destruct Ht as [-> | ->]; done.
    - destruct (owned_page _ H) as (next & payload & V & _). destruct (overflow_open _ _ _ _ _ V) as (p & Eo & Ht & _).
      exists p. split; [done|]. by rewrite Ht. }
  rewrite Eo, bind_ok, bool_decide_false by done. apply IH. intros i Hi. apply Ha. by right.
Qed.

Lemma free_list_ok : validate_transaction_free_list t base = Ok tt.
Proof.
  pose proof (sk_pool _ _ _ _ _ _ Sk) as [Hc Hnd Ha Hf _ _]. unfold validate_transaction_free_list.
  destruct (free_list_loop_ok _ _ Hc Hnd) with (fuel := walk_fuel t) (free := ∅ : gset Z) as (free & E & H).
  { intros i Hi Hal. by apply Ha in Hal as [? _]. }
  { pose proof (Permutation_length (sk_owned _ _ _ _ _ _ Sk)) as Hl. rewrite !length_app, length_seqZ in Hl. unfold walk_fuel. lia. }
  { intros i _. apply not_elem_of_empty. }
  rewrite E, bind_ok, bool_decide_true by (intros i Hi; apply H; left; by apply Hf). cbn [negb].
  apply check_allocated_ok. intros i Hi. by apply elem_of_elements.
Qed.

Lemma dirty_ids_elem id : id ∈ dirty_ids t ↔ is_Some (dirty_pages t !! id).
Proof. unfold dirty_ids. rewrite merge_sort_Permutation, elem_of_elements. apply elem_of_dom. Qed.

Lemma dirty_ids_nodup : NoDup (dirty_ids t).
Proof. unfold dirty_ids. rewrite merge_sort_Permutation. apply NoDup_elements. Qed.

Lemma links_ok :
  original_file_len t = next_page_id (original_header t) * PAGE_SIZE → 0 ≤ original_file_len t < 2 ^ 64 →
  validate_transaction_links t base = Ok tt.
Proof.
  intros Hl Hb. unfold validate_transaction_links. rewrite checked_mul_small by lia. cbn [ok_or]. rewrite bind_ok, Hl, Z.eqb_refl.
  cbn [negb]. destruct (check_dirty_pages_ok (dirty_ids t) ∅) as [owned E].
  - apply dirty_ids_nodup.
  - apply Forall_forall. intros id. apply dirty_ids_elem.
  - intros x id Hx. by apply not_elem_of_empty in Hx.
  - rewrite E, bind_ok. apply free_list_ok.
Qed.
End Pages.

(** The items of a database, leaf by leaf. *)
Lemma split_items V (ls : list leaf) ws :
  holds_items V (concat (map snd ls)) ws →
  ∃ wss, ws = concat wss ∧ Forall2 (λ l w, holds_items V l.2 w) ls wss.
Proof.
  revert ws. induction ls as [|l ls IH]; intros ws H; cbn [map concat] in H.
  { inversion H; subst. by exists []. }
  apply Forall2_app_inv_l in H as (w & ws' & Hw & Hws & ->). destruct (IH ws' Hws) as (wss & -> & Hf).
  exists (w :: wss). split; [done|]. by constructor.
Qed.

Lemma database_links_ok t base f :
  tx_holds t base f → original_file_len t = next_page_id (original_header t) * PAGE_SIZE →
  0 ≤ original_file_len t < 2 ^ 64 → validate_transaction_links t base = Ok tt.
Proof.
  intros (T & h & F & ws & Sk & It & _) Hl Hb. apply split_items in It as (wss & -> & It). by eapply links_ok.
Qed.

Lemma database_view t base f id :
  tx_holds t base f → 0 < id < tx_next t → ∃ n, view t base id n.
Proof.
  intros (T & h & F & ws & Sk & It & _) Hid. apply split_items in It as (wss & -> & It). by eapply page_has_view.
Qed.
End Links.
