(* ===== verification/BtreeWal.v ===== *)
(** The write-ahead log of the version 3 B+Tree (backend/btree/src/v3/wal.rs,
    first part): the log header, the before-image and commit records, and the
    parser [read_wal], which tolerates a torn trailing record. *)

From S2P Require Import Prelude BtreeFormat.
From stdpp Require Import gmap.
#[local] Open Scope Z_scope.

Definition WAL_HEADER_LEN : Z := 64.
Definition RECORD_HEADER_LEN : Z := 16.
Definition BEFORE_IMAGE_PAYLOAD_LEN : Z := 16 + PAGE_SIZE.
Definition COMMIT_PAYLOAD_LEN : Z := 32.
Definition WAL_MAGIC : list byte := [Byte.x42; Byte.x54; Byte.x57; Byte.x33].
Definition WAL_VERSION : Z := 1.

Definition wal_checked_end (offset length : Z) : io_result Z :=
  ok_or (checked_add offset length) (invalid_data "WAL offset overflow").

Definition wal_bytes_at (N : Z) (bytes : list byte) (offset : Z) : io_result (list byte) :=
  end_ ← wal_checked_end offset N;
  ok_or (get_range bytes offset end_) (invalid_data "truncated WAL field").

Definition wal_read_u32 (bytes : list byte) (offset : Z) : io_result Z :=
  b ← wal_bytes_at 4 bytes offset; Ok (le_combine b).
Definition wal_read_u64 (bytes : list byte) (offset : Z) : io_result Z :=
  b ← wal_bytes_at 8 bytes offset; Ok (le_combine b).

Record WalHeader := {
  wal_database_id : list byte;
  wal_transaction_id : Z;
  original_database_len : Z;
  original_generation : Z;
}.

Record BeforeImage := { image_page_id : Z; image_page : list byte }.

Record CommitRecord := {
  commit_transaction_id : Z;
  new_generation : Z;
  commit_database_length : Z;
  commit_header_crc32 : Z;
}.

Record ParsedWal := {
  parsed_header : WalHeader;
  before_images : list BeforeImage;
  commit : option CommitRecord;
  torn_tail : bool;
}.

#[export] Instance WalHeader_eq_dec : EqDecision WalHeader.
Proof. solve_decision. Defined.
#[export] Instance BeforeImage_eq_dec : EqDecision BeforeImage.
Proof. solve_decision. Defined.
#[export] Instance CommitRecord_eq_dec : EqDecision CommitRecord.
Proof. solve_decision. Defined.
#[export] Instance ParsedWal_eq_dec : EqDecision ParsedWal.
Proof. solve_decision. Defined.

Definition wal_header_validate (h : WalHeader) : io_result unit :=
  if all_zero (wal_database_id h) then Err (invalid_data "WAL database identity must be nonzero") else
  if wal_transaction_id h =? 0 then Err (invalid_data "WAL transaction id must be nonzero") else
  if (original_database_len h <? PAGE_SIZE) || negb (original_database_len h mod PAGE_SIZE =? 0)
  then Err (invalid_data "invalid original database length") else
  if original_generation h =? 0 then Err (invalid_data "WAL original generation must be nonzero") else
  Ok tt.

(** [vec![0; record_length]] with the kind and the payload length filled in. *)
Definition prepare_record (kind payload_length : Z) : io_result (list byte) :=
  payload_length_u32 ← ok_or (try_fit 32 payload_length) (invalid_input "WAL payload exceeds u32");
  record_length ← ok_or (checked_add RECORD_HEADER_LEN payload_length)
                        (invalid_input "WAL record length overflow");
  let encoded := zeros record_length in
  let encoded := put encoded 0 (le_bytes 1 kind) in
  Ok (put encoded 4 (le_bytes 4 payload_length_u32)).

Definition commit_decode_payload (payload : list byte) : io_result CommitRecord :=
  if negb (len payload =? COMMIT_PAYLOAD_LEN) then Err (invalid_data "invalid commit payload length") else
  _ ← require_zero (slice payload 28 32) "commit reserved bytes must be zero";
  transaction_id ← wal_read_u64 payload 0;
  generation ← wal_read_u64 payload 8;
  database_length ← wal_read_u64 payload 16;
  crc ← wal_read_u32 payload 24;
  let record := {| commit_transaction_id := transaction_id; new_generation := generation;
                   commit_database_length := database_length; commit_header_crc32 := crc |} in
  if (transaction_id =? 0) || (generation =? 0)
  then Err (invalid_data "invalid commit identity or generation") else
  if (database_length <? PAGE_SIZE) || negb (database_length mod PAGE_SIZE =? 0)
  then Err (invalid_data "invalid committed database length") else
  Ok record.

(** The loop state of [read_wal]. *)
Record WalScan := {
  scan_images : list BeforeImage;
  scan_page_ids : gset Z;
  scan_commit : option CommitRecord;
  scan_offset : Z;
  scan_torn : bool;
}.

Section Wal.
Context {CK : Checksum}.

Definition crc_with_zeroed_field (bytes : list byte) (offset : Z) : io_result Z :=
  end_ ← wal_checked_end offset 4;
  before ← ok_or (get_range bytes 0 offset) (invalid_data "missing checksum prefix");
  after ← ok_or (get_range bytes end_ (len bytes)) (invalid_data "missing checksum suffix");
  Ok (crc32 (before ++ zeros 4 ++ after)).

Definition wal_header_encode (h : WalHeader) : io_result (list byte) :=
  _ ← wal_header_validate h;
  let encoded := zeros WAL_HEADER_LEN in
  let encoded := put encoded 0 WAL_MAGIC in
  let encoded := put encoded 4 (le_bytes 4 WAL_VERSION) in
  let encoded := put encoded 8 (le_bytes 4 WAL_HEADER_LEN) in
  let encoded := put encoded 12 (le_bytes 4 PAGE_SIZE) in
  let encoded := put encoded 16 (wal_database_id h) in
  let encoded := put encoded 32 (le_bytes 8 (wal_transaction_id h)) in
  let encoded := put encoded 40 (le_bytes 8 (original_database_len h)) in
  let encoded := put encoded 48 (le_bytes 8 (original_generation h)) in
  checksum ← crc_with_zeroed_field encoded 56;
  Ok (put encoded 56 (le_bytes 4 checksum)).

Definition wal_header_decode (encoded : list byte) : io_result WalHeader :=
  if negb (len encoded =? WAL_HEADER_LEN) then Err (invalid_data "WAL header must be exactly 64 bytes") else
  magic ← wal_bytes_at 4 encoded 0;
  if negb (bool_decide (magic = WAL_MAGIC)) then Err (invalid_data "invalid WAL magic") else
  version ← wal_read_u32 encoded 4;
  if negb (version =? WAL_VERSION) then Err (invalid_data "unsupported WAL version") else
  header_len ← wal_read_u32 encoded 8;
  if negb (header_len =? WAL_HEADER_LEN) then Err (invalid_data "invalid WAL header length") else
  page_size ← wal_read_u32 encoded 12;
  if negb (page_size =? PAGE_SIZE) then Err (invalid_data "invalid WAL page size") else
  _ ← require_zero (slice encoded 60 64) "WAL header reserved bytes must be zero";
  stored ← wal_read_u32 encoded 56;
  computed ← crc_with_zeroed_field encoded 56;
  if negb (stored =? computed) then Err (invalid_data "WAL header checksum mismatch") else
  identity ← wal_bytes_at 16 encoded 16;
  transaction_id ← wal_read_u64 encoded 32;
  database_len ← wal_read_u64 encoded 40;
  generation ← wal_read_u64 encoded 48;
  let header := {| wal_database_id := identity; wal_transaction_id := transaction_id;
                   original_database_len := database_len; original_generation := generation |} in
  _ ← wal_header_validate header;
  Ok header.

Definition finish_record (encoded : list byte) : io_result (list byte) :=
  checksum ← crc_with_zeroed_field encoded 8;
  Ok (put encoded 8 (le_bytes 4 checksum)).

Definition before_image_encode_record (i : BeforeImage) : io_result (list byte) :=
  encoded ← prepare_record 1 BEFORE_IMAGE_PAYLOAD_LEN;
  let encoded := put encoded 16 (le_bytes 8 (image_page_id i)) in
  let encoded := put encoded 24 (le_bytes 4 (crc32 (image_page i))) in
  let encoded := put encoded 32 (image_page i) in
  finish_record encoded.

Definition before_image_decode_payload (payload : list byte) : io_result BeforeImage :=
  if negb (len payload =? BEFORE_IMAGE_PAYLOAD_LEN)
  then Err (invalid_data "invalid before-image payload length") else
  _ ← require_zero (slice payload 12 16) "before-image reserved bytes must be zero";
  let page := slice payload 16 (len payload) in
  stored ← wal_read_u32 payload 8;
  if negb (stored =? crc32 page) then Err (invalid_data "before-image page checksum mismatch") else
  page_id ← wal_read_u64 payload 0;
  Ok {| image_page_id := page_id; image_page := page |}.

Definition commit_encode_record (c : CommitRecord) : io_result (list byte) :=
  encoded ← prepare_record 2 COMMIT_PAYLOAD_LEN;
  let encoded := put encoded 16 (le_bytes 8 (commit_transaction_id c)) in
  let encoded := put encoded 24 (le_bytes 8 (new_generation c)) in
  let encoded := put encoded 32 (le_bytes 8 (commit_database_length c)) in
  let encoded := put encoded 40 (le_bytes 4 (commit_header_crc32 c)) in
  finish_record encoded.

(** The payload length a record kind requires. *)
Definition expected_payload_length (kind : Z) : io_result Z :=
  if kind =? 1 then Ok BEFORE_IMAGE_PAYLOAD_LEN
  else if kind =? 2 then Ok COMMIT_PAYLOAD_LEN
  else Err (invalid_data "unknown WAL record kind").

(** What [read_wal] does with a complete record whose checksum matches. *)
Definition wal_apply_record (header : WalHeader) (st : WalScan) (kind : Z) (payload : list byte)
    : io_result WalScan :=
  if kind =? 1 then
    image ← before_image_decode_payload payload;
    if original_database_len header `div` PAGE_SIZE <=? image_page_id image
    then Err (invalid_data "WAL before-image page id exceeds original database") else
    if bool_decide (image_page_id image ∈ scan_page_ids st)
    then Err (invalid_data "duplicate WAL before-image page id") else
    Ok {| scan_images := scan_images st ++ [image];
          scan_page_ids := {[image_page_id image]} ∪ scan_page_ids st;
          scan_commit := scan_commit st; scan_offset := scan_offset st; scan_torn := scan_torn st |}
  else if kind =? 2 then
    record ← commit_decode_payload payload;
    if negb (commit_transaction_id record =? wal_transaction_id header)
    then Err (invalid_data "commit transaction id does not match WAL header") else
    if negb (bool_decide (checked_add (original_generation header) 1 = Some (new_generation record)))
    then Err (invalid_data "commit generation must advance WAL generation exactly once") else
    Ok {| scan_images := scan_images st; scan_page_ids := scan_page_ids st;
          scan_commit := Some record; scan_offset := scan_offset st; scan_torn := scan_torn st |}
  else Err (invalid_data "unknown WAL record kind").

(** One iteration of the record loop; [None] is [break] on a torn tail. *)
Definition wal_read_record (header : WalHeader) (bytes : list byte) (st : WalScan)
    : io_result (option WalScan) :=
  if bool_decide (is_Some (scan_commit st)) then Err (invalid_data "WAL record appears after commit") else
  let remaining := len bytes - scan_offset st in
  if remaining <? RECORD_HEADER_LEN then Ok None else
  let record_header := slice bytes (scan_offset st) (scan_offset st + RECORD_HEADER_LEN) in
  let kind := le_combine (slice record_header 0 1) in
  if negb (le_combine (slice record_header 1 2) =? 0) then Err (invalid_data "unknown WAL record flags") else
  _ ← require_zero (slice record_header 2 4) "WAL record reserved bytes must be zero";
  _ ← require_zero (slice record_header 12 16) "WAL record reserved bytes must be zero";
  payload_length ← wal_read_u32 record_header 4;
  expected_length ← expected_payload_length kind;
  if negb (payload_length =? expected_length)
  then Err (invalid_data "WAL record payload length mismatch") else
  total_length ← ok_or (checked_add RECORD_HEADER_LEN payload_length)
                       (invalid_data "WAL record length overflow");
  if remaining <? total_length then Ok None else
  let payload := slice bytes (scan_offset st + RECORD_HEADER_LEN) (scan_offset st + total_length) in
  stored ← wal_read_u32 record_header 8;
  if negb (stored =? crc32 (slice record_header 0 8 ++ zeros 4 ++ slice record_header 12 16 ++ payload))
  then Err (invalid_data "WAL record checksum mismatch") else
  applied ← wal_apply_record header st kind payload;
  offset ← ok_or (checked_add (scan_offset st) total_length) (invalid_data "WAL record offset overflow");
  Ok (Some {| scan_images := scan_images applied; scan_page_ids := scan_page_ids applied;
              scan_commit := scan_commit applied; scan_offset := offset; scan_torn := scan_torn applied |}).

(** The record loop.  Every iteration consumes at least 48 bytes, so a fuel
    above the file length is never used up. *)
Fixpoint wal_read_records (fuel : nat) (header : WalHeader) (bytes : list byte) (st : WalScan)
    : io_result WalScan :=
  if negb (scan_offset st <? len bytes) then Ok st else
  match fuel with
  | O => Err (IoError OtherKind "fuel")
  | S fuel =>
      next ← wal_read_record header bytes st;
      match next with
      | None => Ok {| scan_images := scan_images st; scan_page_ids := scan_page_ids st;
                      scan_commit := scan_commit st; scan_offset := scan_offset st; scan_torn := true |}
      | Some st => wal_read_records fuel header bytes st
      end
  end.

Definition scan_start : WalScan :=
  {| scan_images := []; scan_page_ids := ∅; scan_commit := None; scan_offset := WAL_HEADER_LEN;
     scan_torn := false |}.

(** [read_wal] on the contents of the log file. *)
Definition read_wal (bytes : list byte) : io_result ParsedWal :=
  if len bytes <? WAL_HEADER_LEN then Err (invalid_data "active WAL has a truncated header") else
  header ← wal_header_decode (slice bytes 0 WAL_HEADER_LEN);
  st ← wal_read_records (S (length bytes)) header bytes scan_start;
  Ok {| parsed_header := header; before_images := scan_images st; commit := scan_commit st;
        torn_tail := scan_torn st |}.
End Wal.

(** ** Fields *)

Lemma wal_bytes_at_iff N b off s : wal_bytes_at N b off = Ok s ↔ bytes_at N b off = Ok s.
Proof.
  unfold wal_bytes_at, bytes_at, wal_checked_end, checked_end.
  destruct (checked_add off N) as [e|]; [|done]. cbn [ok_or]. rewrite !bind_ok.
  by destruct (get_range b off e).
Qed.

Lemma wal_read_iff n b off z :
  (s ← wal_bytes_at n b off; Ok (le_combine s) : io_result Z) = Ok z ↔
  (s ← bytes_at n b off; Ok (le_combine s) : io_result Z) = Ok z.
Proof.
  split; intros H; apply bind_ok_inv in H as (s & Hs & H);
    (eapply bind_step; [apply wal_bytes_at_iff, Hs|exact H]).
Qed.

Ltac wal_field_inv :=
  repeat match goal with
  | H : wal_read_u32 _ _ = Ok _ |- _ => apply (wal_read_iff 4), (read_inv _ _ 4) in H as [? ?]
  | H : wal_read_u64 _ _ = Ok _ |- _ => apply (wal_read_iff 8), (read_inv _ _ 8) in H as [? ?]
  | H : wal_bytes_at _ _ _ = Ok _ |- _ => apply wal_bytes_at_iff, bytes_at_inv in H as (? & ? & ?)
  end; field_inv.

Lemma wal_read_u32_field b off z :
  0 ≤ off → off + 4 ≤ len b → len b < 2 ^ 64 → is_u32 z → slice b off (off + 4) = le_bytes 4 z →
  wal_read_u32 b off = Ok z.
Proof. intros. apply (wal_read_iff 4), (read_field _ _ 4); [lia..|done|done]. Qed.

Lemma wal_read_u64_field b off z :
  0 ≤ off → off + 8 ≤ len b → len b < 2 ^ 64 → is_u64 z → slice b off (off + 8) = le_bytes 8 z →
  wal_read_u64 b off = Ok z.
Proof. intros. apply (wal_read_iff 8), (read_field _ _ 8); [lia..|done|done]. Qed.

Lemma wal_bytes_at_ok N b off :
  0 ≤ off → 0 ≤ N → off + N ≤ len b → len b < 2 ^ 64 → wal_bytes_at N b off = Ok (slice b off (off + N)).
Proof. intros. apply wal_bytes_at_iff, bytes_at_ok; lia. Qed.

Section WalLayout.
Context {CK : Checksum}.

(** The CRC of a buffer with the four bytes at [off] read as zero. *)
Definition zeroed_crc (b : list byte) (off : Z) : Z :=
  crc32 (slice b 0 off ++ zeros 4 ++ slice b (off + 4) (len b)).

Lemma crc_with_zeroed_field_ok b off :
  0 ≤ off → off + 4 ≤ len b → len b < 2 ^ 64 → crc_with_zeroed_field b off = Ok (zeroed_crc b off).
Proof.
  intros. unfold crc_with_zeroed_field, wal_checked_end. rewrite checked_add_small by lia. cbn [ok_or].
  rewrite bind_ok, !get_range_some by lia. cbn [ok_or]. by rewrite !bind_ok.
Qed.

Lemma zeroed_crc_put b off v :
  0 ≤ off → off + 4 ≤ len b → len v = 4 → zeroed_crc (put b off v) off = zeroed_crc b off.
Proof. intros. unfold zeroed_crc. rewrite len_put, slice_put_l, slice_put_r by lia. done. Qed.

Lemma zeroed_crc_u32 b off : is_u32 (zeroed_crc b off).
Proof. apply crc32_u32. Qed.

Lemma zeroed_crc_ext b b' off :
  len b = len b' → slice b 0 off = slice b' 0 off →
  slice b (off + 4) (len b) = slice b' (off + 4) (len b) → zeroed_crc b off = zeroed_crc b' off.
Proof. unfold zeroed_crc. by intros <- -> ->. Qed.

(** *** The log header *)

Record wal_header_wf (h : WalHeader) : Prop := {
  whwf_id : len (wal_database_id h) = 16;
  whwf_tx : is_u64 (wal_transaction_id h);
  whwf_len : is_u64 (original_database_len h);
  whwf_gen : is_u64 (original_generation h);
}.

Record wal_header_layout (h : WalHeader) (b : list byte) : Prop := {
  wl_len : len b = 64;
  wl_magic : slice b 0 4 = WAL_MAGIC;
  wl_version : slice b 4 8 = le_bytes 4 WAL_VERSION;
  wl_header_len : slice b 8 12 = le_bytes 4 WAL_HEADER_LEN;
  wl_page_size : slice b 12 16 = le_bytes 4 PAGE_SIZE;
  wl_id : slice b 16 32 = wal_database_id h;
  wl_tx : slice b 32 40 = le_bytes 8 (wal_transaction_id h);
  wl_database_len : slice b 40 48 = le_bytes 8 (original_database_len h);
  wl_generation : slice b 48 56 = le_bytes 8 (original_generation h);
  wl_checksum : slice b 56 60 = le_bytes 4 (zeroed_crc b 56);
  wl_reserved : slice b 60 64 = zeros 4;
}.

Lemma wal_header_layout_unique h b b' : wal_header_layout h b → wal_header_layout h b' → b = b'.
Proof.
  intros [] []. apply (eq_by_slices _ _ 64); [done..|].
  assert (slice b 0 56 = slice b' 0 56) as Hpre.
  { apply (eq_by_cut _ _ _ 4); [lia..|congruence|]. apply (eq_by_cut _ _ _ 8); [lia..|congruence|].
    apply (eq_by_cut _ _ _ 12); [lia..|congruence|]. apply (eq_by_cut _ _ _ 16); [lia..|congruence|].
    apply (eq_by_cut _ _ _ 32); [lia..|congruence|]. apply (eq_by_cut _ _ _ 40); [lia..|congruence|].
    apply (eq_by_cut _ _ _ 48); [lia..|congruence|]. congruence. }
  apply (eq_by_cut _ _ _ 56); [lia..|done|]. apply (eq_by_cut _ _ _ 60); [lia..| |congruence].
  rewrite wl_checksum0, wl_checksum1. f_equal. apply zeroed_crc_ext; [congruence|done|].
  rewrite wl_len0. change (56 + 4) with 60. congruence.
Qed.

Lemma wal_header_encode_layout h :
  wal_header_wf h → wal_header_validate h = Ok tt →
  ∃ b, wal_header_encode h = Ok b ∧ wal_header_layout h b.
Proof.
  intros [] V. unfold wal_header_encode. rewrite V, bind_ok. cbv zeta.
  change WAL_HEADER_LEN with 64.
  match goal with |- context [crc_with_zeroed_field ?x 56] => set (b0 := x) end.
  assert (len b0 = 64) as Hl by (unfold b0, WAL_MAGIC; slice_side).
  rewrite crc_with_zeroed_field_ok, bind_ok by lia. eexists; split; [reflexivity|].
  pose proof (zeroed_crc_put b0 56 (le_bytes 4 (zeroed_crc b0 56)) ltac:(lia) ltac:(lia) ltac:(apply len_le_bytes)) as Hz.
  constructor; try (rewrite Hz; clear Hz); [slice_side|..]; unfold b0; cbn [Z.add].
  all: generalize (zeroed_crc b0 56); intros crc; unfold WAL_MAGIC in *; slice_simpl; done.
Qed.

Lemma wal_header_layout_decode h b :
  wal_header_layout h b → wal_header_wf h → wal_header_validate h = Ok tt → wal_header_decode b = Ok h.
Proof.
  intros [] [] V. unfold wal_header_decode. apply skip_guard; [by rewrite wl_len0|].
  eapply bind_step; [apply (wal_bytes_at_ok 4); lia|]. apply skip_guard; [change (0 + 4) with 4; by rewrite wl_magic0, bool_decide_eq_true_2|].
  eapply bind_step; [apply wal_read_u32_field; [lia..| |eassumption]; done|]. apply skip_guard; [done|].
  eapply bind_step; [apply wal_read_u32_field; [lia..| |eassumption]; done|]. apply skip_guard; [done|].
  eapply bind_step; [apply wal_read_u32_field; [lia..| |eassumption]; done|]. apply skip_guard; [done|].
  eapply bind_step; [rewrite wl_reserved0; apply require_zero_zeros|].
  eapply bind_step; [apply wal_read_u32_field; [lia..| |eassumption]; apply zeroed_crc_u32|].
  eapply bind_step; [apply crc_with_zeroed_field_ok; lia|]. apply skip_guard; [by rewrite Z.eqb_refl|].
  eapply bind_step; [apply wal_bytes_at_ok; lia|]. change (16 + 16) with 32. rewrite wl_id0.
  do 3 (eapply bind_step; [apply wal_read_u64_field; [lia..| |eassumption]; done|]).
  cbv zeta. destruct h; cbn [wal_database_id wal_transaction_id original_database_len original_generation] in *.
  by rewrite V, bind_ok.
Qed.

Lemma wal_header_decode_layout h b :
  wal_header_decode b = Ok h → wal_header_layout h b ∧ wal_header_wf h ∧ wal_header_validate h = Ok tt.
Proof.
  intros H. unfold wal_header_decode in H.
  destruct (negb (len b =? WAL_HEADER_LEN)) eqn:Hl; [done|].
  assert (len b = 64) as Hl' by (unfold WAL_HEADER_LEN in Hl; lia). clear Hl.
  bind_inv. match goal with H : crc_with_zeroed_field _ _ = Ok _ |- _ =>
    rewrite crc_with_zeroed_field_ok in H by lia; injection H as <- end.
  wal_field_inv. bool_to_prop. subst. split_and!; [| |done].
  - constructor; cbn [wal_database_id wal_transaction_id original_database_len original_generation]; try done.
    + by match goal with H : bool_decide _ = true |- _ => apply bool_decide_eq_true in H end.
    + by rewrite len_slice in * by lia.
  - constructor; cbn [wal_database_id wal_transaction_id original_database_len original_generation]; try done.
    by rewrite len_slice by lia.
Qed.

(** *** Records *)

(** A record of [kind] carrying [payload]. *)
Record record_layout (kind : Z) (payload b : list byte) : Prop := {
  rl_len : len b = 16 + len payload;
  rl_kind : slice b 0 1 = le_bytes 1 kind;
  rl_flags : slice b 1 2 = zeros 1;
  rl_reserved : slice b 2 4 = zeros 2;
  rl_length : slice b 4 8 = le_bytes 4 (len payload);
  rl_checksum : slice b 8 12 = le_bytes 4 (zeroed_crc b 8);
  rl_reserved' : slice b 12 16 = zeros 4;
  rl_payload : slice b 16 (16 + len payload) = payload;
}.

Definition image_payload (i : BeforeImage) : list byte :=
  le_bytes 8 (image_page_id i) ++ le_bytes 4 (crc32 (image_page i)) ++ zeros 4 ++ image_page i.

Definition commit_payload (c : CommitRecord) : list byte :=
  le_bytes 8 (commit_transaction_id c) ++ le_bytes 8 (new_generation c) ++
  le_bytes 8 (commit_database_length c) ++ le_bytes 4 (commit_header_crc32 c) ++ zeros 4.

Definition image_wf (i : BeforeImage) : Prop := is_u64 (image_page_id i) ∧ len (image_page i) = PAGE_SIZE.

Record commit_wf (c : CommitRecord) : Prop := {
  cwf_tx : is_u64 (commit_transaction_id c) ∧ commit_transaction_id c ≠ 0;
  cwf_gen : is_u64 (new_generation c) ∧ new_generation c ≠ 0;
  cwf_len : is_u64 (commit_database_length c) ∧ PAGE_SIZE ≤ commit_database_length c ∧
            commit_database_length c mod PAGE_SIZE = 0;
  cwf_crc : is_u32 (commit_header_crc32 c);
}.

Lemma len_image_payload i : image_wf i → len (image_payload i) = 4112.
Proof. intros [_ Hl]. unfold image_payload. assert (PAGE_SIZE = 4096) by done. slice_side. Qed.

Lemma len_commit_payload c : len (commit_payload c) = 32.
Proof. unfold commit_payload. slice_side. Qed.

(** A buffer assembled under a zero checksum field, with that field then filled. *)
Lemma finish_record_layout kind payload b0 :
  len b0 = 16 + len payload → len payload < 2 ^ 32 →
  slice b0 0 1 = le_bytes 1 kind → slice b0 1 2 = zeros 1 → slice b0 2 4 = zeros 2 →
  slice b0 4 8 = le_bytes 4 (len payload) → slice b0 12 16 = zeros 4 →
  slice b0 16 (16 + len payload) = payload →
  ∃ b, finish_record b0 = Ok b ∧ record_layout kind payload b.
Proof.
  intros Hl Hp H1 H2 H3 H4 H5 H6. pose proof (len_nonneg payload). unfold finish_record.
  rewrite crc_with_zeroed_field_ok, bind_ok by lia. eexists; split; [reflexivity|].
  assert (len (le_bytes 4 (zeroed_crc b0 8)) = 4) as Hc by apply len_le_bytes.
  pose proof (zeroed_crc_put b0 8 (le_bytes 4 (zeroed_crc b0 8)) ltac:(lia) ltac:(lia) Hc) as Hz.
  constructor; try (rewrite Hz; clear Hz); [rewrite len_put; lia|..];
    generalize dependent (le_bytes 4 (zeroed_crc b0 8)); intros v Hv *; slice_simpl; done.
Qed.

Lemma prepare_record_ok kind n :
  0 ≤ n < 2 ^ 32 →
  prepare_record kind n = Ok (put (put (zeros (16 + n)) 0 (le_bytes 1 kind)) 4 (le_bytes 4 n)).
Proof.
  intros. unfold prepare_record. rewrite try_fit_small by lia. cbn [ok_or]. rewrite bind_ok.
  change RECORD_HEADER_LEN with 16. rewrite checked_add_small by lia. done.
Qed.

Lemma before_image_encode_layout i :
  image_wf i → ∃ b, before_image_encode_record i = Ok b ∧ record_layout 1 (image_payload i) b.
Proof.
  intros W. pose proof (len_image_payload i W) as Hp. destruct W as [_ Hl].
  change PAGE_SIZE with 4096 in Hl. unfold before_image_encode_record.
  change BEFORE_IMAGE_PAYLOAD_LEN with 4112. rewrite prepare_record_ok, bind_ok by lia. cbv zeta.
  change (16 + 4112) with 4128. apply finish_record_layout; rewrite ?Hp; try lia; try slice_side.
  all: change (16 + 4112) with 4128; slice_simpl; try done.
  rewrite (slice_cut _ 16 24), (slice_cut _ 24 28), (slice_cut _ 28 32) by lia. slice_simpl. done.
Qed.

Lemma commit_encode_layout c :
  ∃ b, commit_encode_record c = Ok b ∧ record_layout 2 (commit_payload c) b.
Proof.
  pose proof (len_commit_payload c) as Hp. unfold commit_encode_record.
  change COMMIT_PAYLOAD_LEN with 32. rewrite prepare_record_ok, bind_ok by lia. cbv zeta.
  change (16 + 32) with 48. apply finish_record_layout; rewrite ?Hp; try lia; try slice_side.
  all: change (16 + 32) with 48; slice_simpl; done.
Qed.

(** Reading a field of a concatenation. *)
Lemma slice_skip (a b : list byte) n lo hi :
  len a = n → n ≤ lo → slice (a ++ b) lo hi = slice b (lo - n) (hi - n).
Proof. intros <- ?. by apply slice_app_r. Qed.

Lemma slice_head (a b : list byte) n : len a = n → slice (a ++ b) 0 n = a.
Proof. intros <-. rewrite slice_app_l by lia. apply slice_full. Qed.

Lemma image_decode_payload i : image_wf i → before_image_decode_payload (image_payload i) = Ok i.
Proof.
  intros W. pose proof (len_image_payload i W) as Hp. destruct W as [Hid Hl].
  unfold before_image_decode_payload. apply skip_guard; [by rewrite Hp|].
  assert (slice (image_payload i) 0 8 = le_bytes 8 (image_page_id i)) as H1 by (by apply slice_head).
  assert (slice (image_payload i) 8 12 = le_bytes 4 (crc32 (image_page i))) as H2.
  { unfold image_payload. rewrite (slice_skip _ _ 8) by (rewrite ?len_le_bytes; lia). by apply slice_head. }
  assert (slice (image_payload i) 12 16 = zeros 4) as H3.
  { unfold image_payload. rewrite (slice_skip _ _ 8), (slice_skip _ _ 4) by (rewrite ?len_le_bytes; lia).
    by apply slice_head. }
  assert (slice (image_payload i) 16 4112 = image_page i) as H4.
  { unfold image_payload. rewrite (slice_skip _ _ 8), (slice_skip _ _ 4), (slice_skip _ _ 4)
      by (rewrite ?len_le_bytes, ?len_zeros; lia). by apply slice_all. }
  rewrite H3, require_zero_zeros, bind_ok, Hp, H4. cbv zeta.
  eapply bind_step; [apply wal_read_u32_field; [lia..|apply crc32_u32|exact H2]|].
  apply skip_guard; [by rewrite Z.eqb_refl|].
  eapply bind_step; [apply wal_read_u64_field; [lia..|exact Hid|exact H1]|]. by destruct i.
Qed.

Lemma commit_decode_payload_ok c : commit_wf c → commit_decode_payload (commit_payload c) = Ok c.
Proof.
  intros []. pose proof (len_commit_payload c) as Hp. unfold commit_decode_payload.
  apply skip_guard; [by rewrite Hp|].
  assert (slice (commit_payload c) 28 32 = zeros 4) as H5.
  { unfold commit_payload. rewrite (slice_skip _ _ 8), (slice_skip _ _ 8), (slice_skip _ _ 8), (slice_skip _ _ 4)
      by (rewrite ?len_le_bytes; lia). by apply slice_all. }
  rewrite H5, require_zero_zeros, bind_ok.
  eapply bind_step; [apply wal_read_u64_field; [lia..|apply cwf_tx0|by apply slice_head]|].
  eapply bind_step; [apply wal_read_u64_field; [lia..|apply cwf_gen0|]|].
  { unfold commit_payload. rewrite (slice_skip _ _ 8) by (rewrite ?len_le_bytes; lia). by apply slice_head. }
  eapply bind_step; [apply wal_read_u64_field; [lia..|apply cwf_len0|]|].
  { unfold commit_payload. rewrite (slice_skip _ _ 8), (slice_skip _ _ 8) by (rewrite ?len_le_bytes; lia).
    by apply slice_head. }
  eapply bind_step; [apply wal_read_u32_field; [lia..|done|]|].
  { unfold commit_payload. rewrite (slice_skip _ _ 8), (slice_skip _ _ 8), (slice_skip _ _ 8)
      by (rewrite ?len_le_bytes; lia). by apply slice_head. }
  cbv zeta. apply skip_guard; [lia|]. apply skip_guard; [lia|]. by destruct c.
Qed.
End WalLayout.

(** ** Parsing *)

Section WalParse.
Context {CK : Checksum}.

(** The state after reading the records of [images], at [offset]. *)
Definition scan_after (images : list BeforeImage) (offset : Z) : WalScan :=
  {| scan_images := images; scan_page_ids := list_to_set (map image_page_id images);
     scan_commit := None; scan_offset := offset; scan_torn := false |}.

Lemma record_expected kind payload b :
  record_layout kind payload b → (kind = 1 ∧ len payload = 4112 ∨ kind = 2 ∧ len payload = 32) →
  expected_payload_length kind = Ok (len payload) ∧ is_u8 kind.
Proof. intros L [[-> Hp] | [-> Hp]]; rewrite Hp; done. Qed.

(** Reading the header of a record that starts at the scan offset. *)
Lemma wal_read_record_header header bytes st kind payload r :
  record_layout kind payload r → (kind = 1 ∧ len payload = 4112 ∨ kind = 2 ∧ len payload = 32) →
  scan_commit st = None → 0 ≤ scan_offset st → len bytes < 2 ^ 64 →
  scan_offset st + 16 ≤ len bytes →
  slice bytes (scan_offset st) (scan_offset st + 16) = slice r 0 16 →
  wal_read_record header bytes st =
    if len bytes - scan_offset st <? 16 + len payload then Ok None else
    let rest := slice bytes (scan_offset st + 16) (scan_offset st + (16 + len payload)) in
    if negb (zeroed_crc r 8 =? crc32 (slice r 0 8 ++ zeros 4 ++ slice r 12 16 ++ rest))
    then Err (invalid_data "WAL record checksum mismatch") else
    applied ← wal_apply_record header st kind rest;
    Ok (Some {| scan_images := scan_images applied; scan_page_ids := scan_page_ids applied;
                scan_commit := scan_commit applied; scan_offset := scan_offset st + (16 + len payload);
                scan_torn := scan_torn applied |}).
Proof.
  intros L K Hc Ho Hb Hr Hs. destruct (record_expected _ _ _ L K) as [He Hk].
  pose proof (len_nonneg payload). destruct L.
  unfold wal_read_record. change RECORD_HEADER_LEN with 16.
  apply skip_guard; [by rewrite Hc|]. apply skip_guard; [lia|]. rewrite Hs.
  rewrite !slice_slice by lia. change (0 + 0) with 0; change (0 + 1) with 1; change (0 + 2) with 2;
    change (0 + 4) with 4; change (0 + 12) with 12; change (0 + 16) with 16; change (0 + 8) with 8.
  rewrite rl_flags0, rl_reserved0, rl_reserved'0, rl_kind0. apply skip_guard; [done|].
  rewrite !require_zero_zeros, !bind_ok. rewrite le_combine_bytes by done.
  assert (len (slice r 0 16) = 16) as Hl16 by (rewrite len_slice; lia).
  eapply bind_step.
  { apply wal_read_u32_field; [lia..| |rewrite slice_slice by lia; exact rl_length0]. unfold fits; lia. }
  rewrite He, bind_ok. apply skip_guard; [by rewrite Z.eqb_refl|].
  rewrite checked_add_small by lia. cbn [ok_or]. rewrite bind_ok. case_match; [done|]. cbv zeta.
  eapply bind_step.
  { apply wal_read_u32_field; [lia..|apply zeroed_crc_u32|rewrite slice_slice by lia; exact rl_checksum0]. }
  case_match; [done|]. destruct (wal_apply_record _ _ _ _); [|done]. rewrite !bind_ok.
  rewrite checked_add_small by lia. done.
Qed.

Lemma zeroed_crc_record kind payload r :
  record_layout kind payload r →
  zeroed_crc r 8 = crc32 (slice r 0 8 ++ zeros 4 ++ slice r 12 16 ++ payload).
Proof.
  intros []. pose proof (len_nonneg payload). unfold zeroed_crc. rewrite rl_len0. change (8 + 4) with 12.
  by rewrite (slice_cut r 12 16) by lia; rewrite rl_payload0.
Qed.

(** A complete record is consumed. *)
Lemma wal_read_record_whole header pre r suf st kind payload :
  record_layout kind payload r → (kind = 1 ∧ len payload = 4112 ∨ kind = 2 ∧ len payload = 32) →
  scan_commit st = None → scan_offset st = len pre → len (pre ++ r ++ suf) < 2 ^ 64 →
  wal_read_record header (pre ++ r ++ suf) st =
    (applied ← wal_apply_record header st kind payload;
     Ok (Some {| scan_images := scan_images applied; scan_page_ids := scan_page_ids applied;
                 scan_commit := scan_commit applied; scan_offset := len (pre ++ r);
                 scan_torn := scan_torn applied |})).
Proof.
  intros L K Hc Ho Hb. pose proof (rl_len _ _ _ L) as Hr. pose proof (len_nonneg payload).
  pose proof (len_nonneg pre). pose proof (len_nonneg suf). rewrite !len_app in Hb.
  assert (∀ lo hi, 0 ≤ lo → hi ≤ len r → slice (pre ++ r ++ suf) (len pre + lo) (len pre + hi) = slice r lo hi) as Hs.
  { intros. rewrite slice_app_r, slice_app_l by lia. f_equal; lia. }
  rewrite (wal_read_record_header header _ st kind payload r L K Hc); rewrite ?Ho, ?len_app; try lia.
  2: { rewrite <- (Hs 0 16) by lia. by rewrite Z.add_0_r. }
  apply skip_guard; [lia|]. rewrite Hs, (rl_payload _ _ _ L) by lia. cbv zeta.
  rewrite <- (zeroed_crc_record _ _ _ L). apply skip_guard; [by rewrite Z.eqb_refl|].
  by rewrite Hr.
Qed.

(** An incomplete record is a torn tail. *)
Lemma wal_read_record_torn header pre t r st kind payload :
  record_layout kind payload r → (kind = 1 ∧ len payload = 4112 ∨ kind = 2 ∧ len payload = 32) →
  scan_commit st = None → scan_offset st = len pre → t `prefix_of` r → len t < len r →
  len (pre ++ t) < 2 ^ 64 → wal_read_record header (pre ++ t) st = Ok None.
Proof.
  intros L K Hc Ho [t' Ht] Hlt Hb. pose proof (rl_len _ _ _ L) as Hr. pose proof (len_nonneg pre).
  rewrite len_app in Hb. destruct (decide (len t < 16)) as [Hs|Hs].
  { unfold wal_read_record. apply skip_guard; [by rewrite Hc|]. apply take_guard; [|done].
    rewrite len_app. change RECORD_HEADER_LEN with 16. lia. }
  rewrite (wal_read_record_header header _ st kind payload r L K Hc); rewrite ?Ho, ?len_app; try lia.
  - apply take_guard; [lia|done].
  - subst r. rewrite slice_app_r, slice_app_l by lia. f_equal; lia.
Qed.

Definition image_record (i : BeforeImage) : list byte :=
  match before_image_encode_record i with Ok b => b | Err _ => [] end.

Definition commit_record (c : CommitRecord) : list byte :=
  match commit_encode_record c with Ok b => b | Err _ => [] end.

Lemma image_record_layout i : image_wf i → record_layout 1 (image_payload i) (image_record i).
Proof. intros W. unfold image_record. by destruct (before_image_encode_layout i W) as (b & -> & L). Qed.

Lemma commit_record_layout c : record_layout 2 (commit_payload c) (commit_record c).
Proof. unfold commit_record. by destruct (commit_encode_layout c) as (b & -> & L). Qed.

(** Before-images a log with this header may carry. *)
Record images_ok (header : WalHeader) (images : list BeforeImage) : Prop := {
  io_wf : Forall image_wf images;
  io_bound : Forall (λ i, image_page_id i < original_database_len header `div` PAGE_SIZE) images;
  io_nodup : NoDup (map image_page_id images);
}.

Record commit_ok (header : WalHeader) (c : CommitRecord) : Prop := {
  co_wf : commit_wf c;
  co_tx : commit_transaction_id c = wal_transaction_id header;
  co_gen : new_generation c = original_generation header + 1;
}.

(** Reading one image record of a log. *)
Lemma wal_read_image header done i rest pre suf fuel :
  images_ok header (done ++ i :: rest) → len (pre ++ image_record i ++ suf) < 2 ^ 64 →
  wal_read_records (S fuel) header (pre ++ image_record i ++ suf) (scan_after done (len pre)) =
  wal_read_records fuel header (pre ++ image_record i ++ suf) (scan_after (done ++ [i]) (len (pre ++ image_record i))).
Proof.
  intros [W B N] Hb. apply Forall_app in W as [_ W]. inversion W as [|? ? Wi _]; subst.
  apply Forall_app in B as [_ B]. inversion B as [|? ? Bi _]; subst.
  pose proof (image_record_layout i Wi) as L. pose proof (len_image_payload i Wi) as Hp.
  pose proof (rl_len _ _ _ L) as Hr. pose proof (len_nonneg suf).
  cbn [wal_read_records]. apply skip_guard; [cbn [scan_after scan_offset]; rewrite !len_app; lia|].
  rewrite (wal_read_record_whole header pre (image_record i) suf (scan_after done (len pre)) 1 _ L)
    by (done || (left; done)).
  unfold wal_apply_record. apply bind_step with (a := Some (scan_after (done ++ [i]) (len (pre ++ image_record i)))); [|done].
  eapply bind_step.
  { apply take_guard; [done|]. rewrite image_decode_payload, bind_ok by done. apply skip_guard; [lia|].
    apply skip_guard; [|reflexivity]. apply bool_decide_eq_false_2. cbn [scan_after scan_page_ids].
    rewrite elem_of_list_to_set. intros Hin. rewrite map_app in N. cbn [map] in N.
    apply NoDup_app in N as (_ & N & _). apply (N _ Hin). left. }
  cbn [scan_images scan_page_ids scan_commit scan_torn scan_after]. do 2 f_equal. unfold scan_after.
  f_equal. rewrite map_app, list_to_set_app_L. cbn [map list_to_set].
  by rewrite (right_id_L ∅ (∪)), (comm_L (∪)).
Qed.

Lemma wal_read_images header images done pre suf fuel :
  images_ok header (done ++ images) → len (pre ++ concat (map image_record images) ++ suf) < 2 ^ 64 →
  wal_read_records (length images + fuel) header (pre ++ concat (map image_record images) ++ suf)
    (scan_after done (len pre)) =
  wal_read_records fuel header (pre ++ concat (map image_record images) ++ suf)
    (scan_after (done ++ images) (len (pre ++ concat (map image_record images)))).
Proof.
  revert done pre. induction images as [|i images IH]; intros done pre Ok Hb.
  { cbn [map concat length Nat.add app]. by rewrite !app_nil_r. }
  cbn [map concat length Nat.add] in *. rewrite <- !app_assoc in *.
  rewrite (wal_read_image header done i images) by done.
  specialize (IH (done ++ [i]) (pre ++ image_record i)). rewrite <- !app_assoc in IH. cbn [app] in IH.
  by apply IH.
Qed.

(** A prefix of a concatenation is some whole parts and a strict prefix of the next. *)
Lemma prefix_concat {A} (rs : list (list A)) s :
  s `prefix_of` concat rs →
  ∃ k t, (k ≤ length rs)%nat ∧ s = concat (take k rs) ++ t ∧
    (t = [] ∨ ∃ r, rs !! k = Some r ∧ t `prefix_of` r ∧ (0 < length t < length r)%nat).
Proof.
  revert s. induction rs as [|r rs IH]; intros s Hp; cbn in Hp.
  { apply prefix_nil_inv in Hp as ->. exists 0%nat, []. cbn. auto. }
  destruct (decide (length s < length r)%nat) as [Hlt|Hge].
  - exists 0%nat, s. split; [cbn; lia|]. split; [done|]. destruct s as [|x s]; [by left|right].
    exists r. split; [done|]. split; [|cbn; cbn in Hlt; lia].
    destruct (prefix_weak_total (x :: s) r (r ++ concat rs)) as [Hq|Hq]; [done|by apply prefix_app_r|done|].
    apply prefix_length in Hq. lia.
  - destruct Hp as [s' Hp].
    assert (s = r ++ drop (length r) s) as Hs.
    { rewrite <- (take_drop (length r) s) at 1. f_equal.
      assert (take (length r) (r ++ concat rs) = take (length r) (s ++ s')) as E by congruence.
      rewrite take_app_length, take_app_le in E by lia. done. }
    destruct (IH (drop (length r) s)) as (k & t & Hk & Hd & Ht).
    { exists s'. rewrite Hs, <- app_assoc in Hp. by apply app_inv_head in Hp. }
    exists (S k), t. split; [cbn; lia|]. split; [|done]. cbn. by rewrite <- app_assoc, <- Hd.
Qed.

Lemma wal_read_records_end fuel header bytes st :
  len bytes ≤ scan_offset st → wal_read_records fuel header bytes st = Ok st.
Proof. intros. destruct fuel; cbn; (apply take_guard; [lia|done]). Qed.

(** The scan stops at a torn record and keeps what it has read. *)
Lemma wal_read_records_torn fuel header images pre t r kind payload :
  record_layout kind payload r → (kind = 1 ∧ len payload = 4112 ∨ kind = 2 ∧ len payload = 32) →
  t `prefix_of` r → (0 < length t < length r)%nat → len (pre ++ t) < 2 ^ 64 → (0 < fuel)%nat →
  wal_read_records fuel header (pre ++ t) (scan_after images (len pre)) =
    Ok {| scan_images := images; scan_page_ids := list_to_set (map image_page_id images);
          scan_commit := None; scan_offset := len pre; scan_torn := true |}.
Proof.
  intros L K Hp Hlt Hb Hf. destruct fuel as [|fuel]; [lia|]. cbn [wal_read_records].
  apply skip_guard; [cbn [scan_after scan_offset]; rewrite len_app; unfold len; lia|].
  rewrite (wal_read_record_torn header pre t r _ kind payload L K) by (done || unfold len; lia).
  done.
Qed.

Lemma image_record_len i : image_wf i → len (image_record i) = 4128.
Proof.
  intros W. rewrite (rl_len _ _ _ (image_record_layout i W)), len_image_payload by done. done.
Qed.

Lemma len_image_records images :
  Forall image_wf images → len (concat (map image_record images)) = 4128 * len images.
Proof.
  induction 1 as [|i images W _ IH]; [done|]. cbn [map concat].
  rewrite len_app, image_record_len, IH, len_cons by done. lia.
Qed.

Lemma commit_record_len c : len (commit_record c) = 48.
Proof. by rewrite (rl_len _ _ _ (commit_record_layout c)), len_commit_payload. Qed.

Lemma wal_header_decode_len hb h : wal_header_decode hb = Ok h → len hb = 64.
Proof. intros D. by apply wal_header_decode_layout in D as [[] _]. Qed.

(** [read_wal] of a log is the scan of its records. *)
Lemma read_wal_scan hb h images suf ims ids c off torn :
  wal_header_decode hb = Ok h → images_ok h images →
  len (hb ++ concat (map image_record images) ++ suf) < 2 ^ 64 →
  (∀ fuel, (length suf < fuel)%nat → wal_read_records fuel h (hb ++ concat (map image_record images) ++ suf)
     (scan_after images (len (hb ++ concat (map image_record images)))) =
     Ok {| scan_images := ims; scan_page_ids := ids; scan_commit := c; scan_offset := off; scan_torn := torn |}) →
  read_wal (hb ++ concat (map image_record images) ++ suf) =
    Ok {| parsed_header := h; before_images := ims; commit := c; torn_tail := torn |}.
Proof.
  intros D I Hb Hscan. pose proof (wal_header_decode_len _ _ D) as Hl.
  pose proof (len_image_records images (io_wf _ _ I)) as Hi.
  pose proof (len_nonneg images). pose proof (len_nonneg suf).
  unfold read_wal. change WAL_HEADER_LEN with 64 in *. apply skip_guard; [rewrite !len_app; lia|].
  rewrite (slice_head hb), D, bind_ok by done.
  assert (∃ fuel, S (length (hb ++ concat (map image_record images) ++ suf)) = (length images + fuel)%nat
            ∧ (length suf < fuel)%nat) as (fuel & Hf & Hlt).
  { exists (S (length (hb ++ concat (map image_record images) ++ suf)) - length images)%nat.
    rewrite !length_app. unfold len in *. lia. }
  rewrite Hf. replace scan_start with (scan_after [] (len hb)) by (unfold scan_after; by rewrite Hl).
  rewrite wal_read_images by done. by rewrite Hscan, bind_ok by done.
Qed.

Lemma images_ok_take header images k : images_ok header images → images_ok header (take k images).
Proof.
  intros [W B N]. rewrite <- (take_drop k images) in W, B, N. rewrite map_app in N.
  apply Forall_app in W as [W _]. apply Forall_app in B as [B _]. apply NoDup_app in N as (N & _ & _).
  by constructor.
Qed.

(** The lengths of the records of a before-image and of a commit. *)
Definition IMAGE_RECORD_LEN : Z := RECORD_HEADER_LEN + BEFORE_IMAGE_PAYLOAD_LEN.
Definition COMMIT_RECORD_LEN : Z := RECORD_HEADER_LEN + COMMIT_PAYLOAD_LEN.

(** How many before-images are complete in the first [n] bytes of a log, and
    whether these bytes end inside a record. *)
Definition complete_images (n : Z) : nat := Z.to_nat ((n - WAL_HEADER_LEN) `div` IMAGE_RECORD_LEN).

Definition torn_at (images : list BeforeImage) (n : Z) : bool :=
  let body := WAL_HEADER_LEN + IMAGE_RECORD_LEN * len images in
  if n <? body then negb ((n - WAL_HEADER_LEN) `mod` IMAGE_RECORD_LEN =? 0) else (body <? n) && (n <? body + COMMIT_RECORD_LEN).

(** A log cut anywhere among its before-images: the images of the complete
    records are read, and the tail is torn unless the cut is between records. *)
Lemma read_wal_images_prefix hb h images s :
  wal_header_decode hb = Ok h → images_ok h images →
  s `prefix_of` concat (map image_record images) → len (hb ++ s) < 2 ^ 64 →
  read_wal (hb ++ s) =
    Ok {| parsed_header := h; before_images := take (Z.to_nat (len s `div` IMAGE_RECORD_LEN)) images; commit := None;
          torn_tail := negb (len s `mod` IMAGE_RECORD_LEN =? 0) |}.
Proof.
  intros D I Hp Hb. change IMAGE_RECORD_LEN with 4128. destruct (prefix_concat _ _ Hp) as (k & t & Hk & -> & Ht). clear Hp.
  rewrite firstn_map in *. rewrite length_map in Hk. pose proof (images_ok_take _ _ k I) as Ik.
  rewrite (len_app (concat _)), (len_image_records _ (io_wf _ _ Ik)).
  assert (len (take k images) = Z.of_nat k) as -> by (unfold len; rewrite length_take; lia). destruct Ht as [-> | (r & Hr & Hp & Hlt)].
  - change (len (@nil byte)) with 0. rewrite Z.add_0_r, (Z.mul_comm 4128), Z.div_mul, Z.mod_mul, Nat2Z.id by done.
    erewrite read_wal_scan; [reflexivity|done|done|done|].
    intros fuel _. apply wal_read_records_end. rewrite app_nil_r. cbn. lia.
  - rewrite list_lookup_fmap in Hr. destruct (images !! k) as [i|] eqn:Hi; [|done].
    cbn in Hr. injection Hr as <-. pose proof (Forall_lookup_1 _ _ _ _ (io_wf _ _ I) Hi) as Wi.
    pose proof (image_record_len i Wi) as Hl. unfold len in Hl.
    assert (0 < len t < 4128) as Ht by (unfold len; lia).
    rewrite (Z.mul_comm 4128), Z.div_add_l, Z.div_small, Z.add_0_r, Nat2Z.id by lia.
    rewrite Z.add_comm, Z.mod_add, Z.mod_small by lia. replace (len t =? 0) with false by lia.
    erewrite read_wal_scan; [reflexivity|done|done|done|].
    intros fuel Hf. rewrite app_assoc in *.
    apply (wal_read_records_torn _ _ _ _ _ _ _ _ (image_record_layout i Wi)); try done; [|lia].
    left. split; [done|]. by apply len_image_payload.
Qed.

(** All before-images are there and the commit record is missing or torn. *)
Lemma read_wal_commit_torn hb h images c t :
  wal_header_decode hb = Ok h → images_ok h images →
  t `prefix_of` commit_record c → (length t < length (commit_record c))%nat →
  len (hb ++ concat (map image_record images) ++ t) < 2 ^ 64 →
  read_wal (hb ++ concat (map image_record images) ++ t) =
    Ok {| parsed_header := h; before_images := images; commit := None; torn_tail := negb (len t =? 0) |}.
Proof.
  intros D I Hp Hlt Hb. destruct t as [|x t].
  - erewrite read_wal_scan; [reflexivity|done..|].
    intros fuel _. apply wal_read_records_end. rewrite app_nil_r. cbn. lia.
  - replace (len (x :: t) =? 0) with false by (rewrite len_cons; pose proof (len_nonneg t); lia).
    erewrite read_wal_scan; [reflexivity|done..|].
    intros fuel Hf. rewrite app_assoc in *.
    apply (wal_read_records_torn _ _ _ _ _ _ _ _ (commit_record_layout c)); try done; [|cbn; cbn in Hlt; lia|lia].
    right. split; [done|]. apply len_commit_payload.
Qed.

Lemma read_wal_committed hb h images c :
  wal_header_decode hb = Ok h → images_ok h images → commit_ok h c →
  len (hb ++ concat (map image_record images) ++ commit_record c) < 2 ^ 64 →
  read_wal (hb ++ concat (map image_record images) ++ commit_record c) =
    Ok {| parsed_header := h; before_images := images; commit := Some c; torn_tail := false |}.
Proof.
  intros D I [W Ht Hg] Hb. erewrite read_wal_scan; [reflexivity|done..|].
  intros [|fuel] Hf; [lia|]. cbn [wal_read_records]. pose proof (commit_record_len c) as Hc.
  rewrite (app_assoc hb) in *. apply skip_guard; [cbn [scan_after scan_offset]; rewrite (len_app _ (commit_record c)); lia|].
  rewrite <- (app_nil_r (commit_record c)) at 1.
  rewrite (wal_read_record_whole h _ (commit_record c) [] _ 2 _ (commit_record_layout c))
    by (rewrite ?app_nil_r; done || (right; split; [done|apply len_commit_payload])).
  eapply bind_step; [eapply bind_step; [|reflexivity]|].
  { unfold wal_apply_record. apply skip_guard; [done|]. apply take_guard; [done|].
    rewrite commit_decode_payload_ok, bind_ok by done. apply skip_guard; [lia|].
    apply skip_guard; [|reflexivity]. rewrite bool_decide_eq_true_2; [done|].
    rewrite Hg. apply checked_add_small. destruct W as [_ [[] _] _ _]. lia. }
  cbn [scan_images scan_page_ids scan_commit scan_torn scan_after].
  rewrite wal_read_records_end; [done|]. cbn. lia.
Qed.

(** Every record consumed advances the offset inside the file. *)
Lemma wal_read_record_advances header bytes st st' :
  wal_read_record header bytes st = Ok (Some st') → scan_offset st + 48 ≤ scan_offset st' ≤ len bytes.
Proof.
  intros H. unfold wal_read_record in H. change RECORD_HEADER_LEN with 16 in *.
  destruct (bool_decide _); [done|]. destruct (_ <? 16) eqn:Hr; [done|]. bind_inv.
  match goal with H : (if ?c then Ok None else _) = Ok _ |- _ => destruct c eqn:Hr'; [done|] end.
  bind_inv. field_inv. subst. cbn [scan_offset].
  match goal with H : expected_payload_length _ = Ok _ |- _ =>
    unfold expected_payload_length in H; change BEFORE_IMAGE_PAYLOAD_LEN with 4112 in H;
    change COMMIT_PAYLOAD_LEN with 32 in H end.
  repeat case_match; bind_inv; lia.
Qed.

Lemma wal_read_records_fuel header bytes fuel fuel' st :
  len bytes - scan_offset st < Z.of_nat fuel → len bytes - scan_offset st < Z.of_nat fuel' →
  wal_read_records fuel header bytes st = wal_read_records fuel' header bytes st.
Proof.
  revert fuel' st. induction fuel as [|fuel IH]; intros fuel' st Hf Hf'.
  { by rewrite !wal_read_records_end by lia. }
  destruct fuel' as [|fuel']; [by rewrite !wal_read_records_end by lia|]. cbn [wal_read_records].
  case_match; [done|]. destruct (wal_read_record header bytes st) as [[st'|]|] eqn:E; [|done..].
  rewrite !bind_ok. apply wal_read_record_advances in E. apply IH; lia.
Qed.

(** What the scan guarantees about what it has collected. *)
Record scan_inv (header : WalHeader) (st : WalScan) : Prop := {
  si_ids : scan_page_ids st = list_to_set (map image_page_id (scan_images st));
  si_nodup : NoDup (map image_page_id (scan_images st));
  si_images : Forall (λ i, 0 ≤ image_page_id i < original_database_len header `div` PAGE_SIZE ∧
                           len (image_page i) = PAGE_SIZE) (scan_images st);
  si_commit : ∀ c, scan_commit st = Some c →
    commit_transaction_id c = wal_transaction_id header ∧ new_generation c = original_generation header + 1 ∧
    commit_database_length c mod PAGE_SIZE = 0 ∧ PAGE_SIZE ≤ commit_database_length c;
}.

Lemma wal_apply_record_inv header st kind payload st' :
  scan_inv header st → wal_apply_record header st kind payload = Ok st' → scan_inv header st'.
Proof.
  intros [Hids Hnd Him Hc] H. unfold wal_apply_record in H.
  destruct (kind =? 1); [|destruct (kind =? 2); [|done]].
  - apply bind_ok_inv in H as (image & Hd & H). bind_inv. constructor; cbn [scan_images scan_page_ids scan_commit]; [| | |done].
    + rewrite Hids, map_app, list_to_set_app_L. cbn [map list_to_set]. by rewrite (right_id_L ∅ (∪)), (comm_L (∪)).
    + rewrite map_app. apply NoDup_app. split; [done|]. split; [|apply NoDup_singleton].
      intros x Hx ->%list_elem_of_singleton.
      match goal with H : bool_decide _ = false |- _ => apply bool_decide_eq_false in H; apply H end.
      rewrite Hids. by apply elem_of_list_to_set.
    + apply Forall_app. split; [done|]. constructor; [|constructor].
      unfold before_image_decode_payload in Hd. bind_inv. wal_field_inv. cbn [image_page_id image_page] in *.
      change BEFORE_IMAGE_PAYLOAD_LEN with 4112 in *. change PAGE_SIZE with 4096 in *.
      rewrite len_slice by lia. unfold fits in *. lia.
  - apply bind_ok_inv in H as (c & Hd & H). bind_inv. constructor; cbn [scan_images scan_page_ids scan_commit]; [done..|].
    intros c' [= <-]. bool_to_prop.
    match goal with H : bool_decide _ = true |- _ => apply bool_decide_eq_true in H; apply checked_add_inv in H end.
    unfold commit_decode_payload in Hd. bind_inv. cbn in *. change PAGE_SIZE with 4096 in *. lia.
Qed.

Lemma wal_read_records_inv header bytes fuel st st' :
  scan_inv header st → wal_read_records fuel header bytes st = Ok st' → scan_inv header st'.
Proof.
  revert st. induction fuel as [|fuel IH]; intros st I H; cbn [wal_read_records] in H.
  { case_match; [by bind_inv|done]. }
  case_match; [by bind_inv|]. apply bind_ok_inv in H as ([st1|] & Hr & H).
  - apply (IH st1); [|done]. unfold wal_read_record in Hr.
    destruct (bool_decide _); [done|]. destruct (_ <? RECORD_HEADER_LEN); [done|]. bind_inv.
    match goal with H : (if ?c then Ok None else _) = Ok _ |- _ => destruct c; [done|] end. bind_inv.
    match goal with H : wal_apply_record _ _ _ _ = Ok _ |- _ => apply wal_apply_record_inv in H as []; [|done] end.
    by constructor.
  - bind_inv. destruct I. by constructor.
Qed.
End WalParse.

(** ** Theorems *)

Section WalTheorems.
Context {CK : Checksum}.

(** For log headers whose fields have the widths of their Rust types,
    [WalHeader::encode] and [WalHeader::decode] are inverse: a header encodes
    to 64 bytes exactly when these bytes decode to the header. *)
Theorem wal_header_roundtrip h b :
  wal_header_wf h → (wal_header_encode h = Ok b ↔ wal_header_decode b = Ok h).
Proof.
  intros W. split.
  - intros E. assert (wal_header_validate h = Ok tt) as V
      by (unfold wal_header_encode in E; bind_inv; done).
    destruct (wal_header_encode_layout h W V) as (b' & E' & L).
    assert (b' = b) as -> by congruence. by apply wal_header_layout_decode.
  - intros D. apply wal_header_decode_layout in D as (L & _ & V).
    destruct (wal_header_encode_layout h W V) as (b' & E' & L').
    by rewrite (wal_header_layout_unique _ _ _ L L').
Qed.

(** C25: a log that was being appended to is readable after it was cut at any
    byte past its header.  [read_wal] on the first [n] bytes of a log made of
    a header, before-images and a commit record returns the header and exactly
    the before-images whose record ends at or before byte [n]; it reports the
    commit exactly when no byte is missing, and a torn tail exactly when the cut
    is inside a record. *)
Theorem read_wal_cut_log hb h images c n :
  wal_header_decode hb = Ok h → images_ok h images → commit_ok h c →
  let log := hb ++ concat (map image_record images) ++ commit_record c in
  len log < 2 ^ 64 → WAL_HEADER_LEN ≤ n →
  read_wal (take (Z.to_nat n) log) =
    Ok {| parsed_header := h; before_images := take (complete_images n) images;
          commit := if len log <=? n then Some c else None; torn_tail := torn_at images n |}.
Proof.
  intros D I C log Hb Hn. unfold complete_images, torn_at. change WAL_HEADER_LEN with 64 in *. pose proof (wal_header_decode_len _ _ D) as Hh.
  pose proof (len_image_records images (io_wf _ _ I)) as Hi. pose proof (commit_record_len c) as Hc.
  change IMAGE_RECORD_LEN with 4128 in *. change COMMIT_RECORD_LEN with 48 in *.
  set (im := concat (map image_record images)) in *. pose proof (len_nonneg images).
  assert (len log = 64 + len im + 48) as Hlog by (unfold log; rewrite !len_app; lia).
  assert (64 + 4128 * len images ≤ n → take (Z.to_nat ((n - 64) `div` 4128)) images = images) as Hall.
  { intros Hle. apply take_ge. unfold len in *. assert (Z.of_nat (length images) ≤ (n - 64) `div` 4128); [apply Z.div_le_lower_bound; lia|lia]. }
  pose proof Hi as Hi'. unfold len in Hh, Hi, Hc. destruct (Z.leb_spec (len log) n) as [Hge|Hlt].
  - rewrite take_ge by (unfold len in *; lia). rewrite Hall by lia.
    replace (n <? 64 + 4128 * len images) with false by lia. replace (n <? 64 + 4128 * len images + 48) with false by lia.
    rewrite andb_false_r. by apply read_wal_committed.
  - unfold log in *. rewrite take_app_ge by lia.
    set (m := (Z.to_nat n - length hb)%nat). unfold len in Hlt, Hlog, Hb.
    assert (len (hb ++ take m (im ++ commit_record c)) < 2 ^ 64) as Hb'
      by (unfold len; rewrite length_app, length_take; rewrite !length_app in *; lia).
    destruct (decide (m < length im)%nat) as [Hm|Hm].
    + rewrite (read_wal_images_prefix hb h images (take m (im ++ commit_record c)) D I); [|rewrite take_app_le by lia; by apply prefix_take|done].
      change IMAGE_RECORD_LEN with 4128. assert (len (take m (im ++ commit_record c)) = n - 64) as ->.
      { unfold len. rewrite length_take, length_app. lia. }
      unfold len in *. by replace (n <? 64 + 4128 * Z.of_nat (length images)) with true by lia.
    + rewrite take_app_ge in * by lia. rewrite Hall by (unfold len in *; lia).
      assert (len (take (m - length im) (commit_record c)) = n - (64 + 4128 * len images)) as Ht
        by (unfold len; rewrite length_take; rewrite !length_app in *; lia).
      rewrite (read_wal_commit_torn hb h images c (take (m - length im) (commit_record c)) D I);
        [|by apply prefix_take|rewrite length_take; rewrite !length_app in *; lia|done].
      rewrite Ht. unfold len in *. rewrite !length_app in *. set (body := 64 + 4128 * Z.of_nat (length images)).
      replace (n <? body) with false by lia. replace (n <? body + 48) with true by lia. rewrite andb_true_r.
      do 2 f_equal. lia.
Qed.

(** The record loop of [read_wal] terminates: every fuel above the length
    of the file gives the same result. *)
Theorem read_wal_terminates header bytes fuel :
  (length bytes < fuel)%nat →
  wal_read_records fuel header bytes scan_start = wal_read_records (S (length bytes)) header bytes scan_start.
Proof. intros Hf. apply wal_read_records_fuel; unfold scan_start, len; cbn; unfold WAL_HEADER_LEN; lia. Qed.

(** Whatever bytes a log file holds, a log that [read_wal] accepts has
    before-images of whole pages with pairwise distinct ids inside the original
    database, and a commit record, if any, belongs to the transaction of the
    header and advances its generation by one. *)
Theorem read_wal_accepts_safe bytes p :
  read_wal bytes = Ok p →
  NoDup (map image_page_id (before_images p)) ∧
  Forall (λ i, 0 ≤ image_page_id i < original_database_len (parsed_header p) `div` PAGE_SIZE ∧
               len (image_page i) = PAGE_SIZE) (before_images p) ∧
  ∀ c, commit p = Some c →
    commit_transaction_id c = wal_transaction_id (parsed_header p) ∧
    new_generation c = original_generation (parsed_header p) + 1 ∧
    commit_database_length c mod PAGE_SIZE = 0 ∧ PAGE_SIZE ≤ commit_database_length c.
Proof.
  intros H. unfold read_wal in H. destruct (len bytes <? WAL_HEADER_LEN); [done|].
  apply bind_ok_inv in H as (h & _ & H). apply bind_ok_inv in H as (st & Hs & H). bind_inv.
  apply wal_read_records_inv in Hs as []; [done|]. constructor; cbn; try done. apply NoDup_nil_2.
Qed.
End WalTheorems.

(** *** Witnesses *)

Definition example_wal_header : WalHeader :=
  {| wal_database_id := le_bytes 16 42; wal_transaction_id := 5; original_database_len := 8192;
     original_generation := 7 |}.

Definition example_wal_header_bytes : list byte :=
  match wal_header_encode example_wal_header with Ok b => b | Err _ => [] end.

Definition example_images : list BeforeImage :=
  [{| image_page_id := 0; image_page := example_header_page |};
   {| image_page_id := 1; image_page := example_leaf |}].

Definition example_commit : CommitRecord :=
  {| commit_transaction_id := 5; new_generation := 8; commit_database_length := 8192; commit_header_crc32 := 99 |}.

Lemma example_wal_header_wf : wal_header_wf example_wal_header.
Proof. constructor; vm_compute; done. Qed.

Lemma example_images_ok : images_ok example_wal_header example_images.
Proof.
  constructor; [repeat constructor; vm_compute; congruence|repeat constructor|].
  apply (bool_decide_unpack _). vm_compute. exact I.
Qed.

Lemma example_commit_ok : commit_ok example_wal_header example_commit.
Proof. repeat constructor; vm_compute; congruence. Qed.

Lemma wal_header_roundtrip_witness :
  wal_header_decode example_wal_header_bytes = Ok example_wal_header.
Proof.
  apply (wal_header_roundtrip example_wal_header example_wal_header_bytes);
    [exact example_wal_header_wf | vm_compute; reflexivity].
Defined.

Definition example_log : list byte :=
  example_wal_header_bytes ++ concat (map image_record example_images) ++ commit_record example_commit.

Lemma read_wal_cut_log_witness :
  read_wal (take (Z.to_nat 5000) example_log) =
    Ok {| parsed_header := example_wal_header; before_images := take 1 example_images; commit := None; torn_tail := true |}.
Proof.
  refine (eq_trans (read_wal_cut_log example_wal_header_bytes example_wal_header example_images example_commit 5000 _ _ _ _ _) _).
  - vm_compute. reflexivity.
  - exact example_images_ok.
  - exact example_commit_ok.
  - apply Z.ltb_lt. vm_compute. reflexivity.
  - vm_compute. discriminate.
  - vm_compute. reflexivity.
Defined.

Lemma read_wal_terminates_witness :
  wal_read_records 100 example_wal_header example_wal_header_bytes scan_start =
  wal_read_records (S (length example_wal_header_bytes)) example_wal_header example_wal_header_bytes scan_start.
Proof.
  apply read_wal_terminates. apply Nat.ltb_lt. vm_compute. reflexivity.
Defined.

Lemma read_wal_accepts_safe_witness :
  match read_wal example_log with
  | Ok p => NoDup (map image_page_id (before_images p)) ∧ commit p = Some example_commit
  | Err _ => False
  end.
Proof.
  destruct (read_wal example_log) as [p|e] eqn:E.
  - split; [exact (proj1 (read_wal_accepts_safe example_log p E))|].
    assert (match read_wal example_log with Ok p => commit p | Err _ => None end = Some example_commit) as H
      by (vm_compute; reflexivity).
    rewrite E in H. exact H.
  - assert (is_ok (read_wal example_log) = true) as H by (vm_compute; reflexivity). rewrite E in H. discriminate H.
Defined.
