(* ===== verification/BtreeRecovery.v ===== *)
(** The commit and recovery protocol of the version 3 B+Tree
    (backend/btree/src/v3/wal.rs, second part): preparing a transaction,
    writing its before-images, updating the database in place, committing, and
    rolling back or finishing a transaction found after a crash. *)

From S2P Require Import Prelude BtreeFormat BtreePage BtreeWal.
From stdpp Require Import gmap.
#[local] Open Scope Z_scope.

(** ** Files

    The files of one database: the database itself, the active log, the
    temporary log that becomes the active one by renaming, and whether the
    sorted index exists. *)
Record Disk := {
  database : list byte;
  wal : option (list byte);
  wal_temporary : option (list byte);
  index_exists : bool;
}.

(** The effects the protocol has on the files, in the order it has them. *)
Inductive disk_op :=
| CreateTemporary
| WriteTemporary (b : list byte)
| SyncTemporary
| ActivateWal
| SyncParent
| AppendWal (b : list byte)
| SyncWal
| SetLen (n : Z)
| WriteDatabase (offset : Z) (b : list byte)
| SyncDatabase
| RemoveIndex
| RemoveWal
| RemoveTemporary.

(** [File::set_len]. *)
Definition set_len (b : list byte) (n : Z) : list byte :=
  take (Z.to_nat n) b ++ zeros (n - len b).

(** [seek] and [write_all]: a write past the end extends the file. *)
Definition write_bytes (b : list byte) (offset : Z) (v : list byte) : list byte :=
  put (set_len b (Z.max (len b) (offset + len v))) offset v.

Definition set_database (d : Disk) (b : list byte) : Disk :=
  {| database := b; wal := wal d; wal_temporary := wal_temporary d; index_exists := index_exists d |}.
Definition set_wal (d : Disk) (w t : option (list byte)) : Disk :=
  {| database := database d; wal := w; wal_temporary := t; index_exists := index_exists d |}.

Definition apply_op (op : disk_op) (d : Disk) : Disk :=
  match op with
  | CreateTemporary => set_wal d (wal d) (Some [])
  | WriteTemporary b => set_wal d (wal d) ((λ c, c ++ b) <$> wal_temporary d)
  | ActivateWal => set_wal d (wal_temporary d) None
  | AppendWal b => set_wal d ((λ c, c ++ b) <$> wal d) (wal_temporary d)
  | SetLen n => set_database d (set_len (database d) n)
  | WriteDatabase offset b => set_database d (write_bytes (database d) offset b)
  | RemoveIndex => {| database := database d; wal := wal d; wal_temporary := wal_temporary d;
                      index_exists := false |}
  | RemoveWal => set_wal d None (wal_temporary d)
  | RemoveTemporary => set_wal d (wal d) None
  | SyncTemporary | SyncParent | SyncWal | SyncDatabase => d
  end.

Definition apply_ops (ops : list disk_op) (d : Disk) : Disk := foldl (λ d op, apply_op op d) d ops.

(** ** Programs over the files

    A program reads the files and performs effects: run on a disk it yields the
    effects in order and its result.  [x ← e; k] is the source's [let x = e?]. *)

Inductive WalOutcome := RecoveryPending | CommittedCleanupPending.

(** Errors: plain ones, and those wrapped with the outcome, the transaction
    and the phase ([WalOperationError]) or with the identities found in the
    files ([WalReadError]). *)
Inductive wal_error :=
| Plain (e : io_error)
| WalOperationError (outcome : WalOutcome) (transaction_id : Z) (phase : string) (cause : io_error)
| WalReadError (wal_id current_id : option (list byte)) (cause : io_error).

Definition prog (A : Type) : Type := Disk → list disk_op * result wal_error A.

#[export] Instance prog_ret : MRet prog := λ A a d, ([], Ok a).
#[export] Instance prog_bind : MBind prog := λ A B f m d,
  match m d with
  | (ops, Err e) => (ops, Err e)
  | (ops, Ok a) => let '(ops', r) := f a (apply_ops ops d) in (ops ++ ops', r)
  end.

Definition emit (op : disk_op) : prog unit := λ d, ([op], Ok tt).
Definition get_disk : prog Disk := λ d, ([], Ok d).
Definition lift {A} (r : io_result A) : prog A := λ d, ([], map_err Plain r).
(** [WalErrorContext::wrap]. *)
Definition wrap {A} (outcome : WalOutcome) (transaction_id : Z) (phase : string) (r : io_result A) : prog A :=
  λ d, ([], map_err (WalOperationError outcome transaction_id phase) r).

Fixpoint for_each {A} (f : A → prog unit) (l : list A) : prog unit :=
  match l with
  | [] => mret tt
  | x :: l => _ ← f x; for_each f l
  end.

(** ** Reading pages *)

Definition page_offset (page_id : Z) : io_result Z :=
  ok_or (checked_mul page_id PAGE_SIZE) (invalid_data "database page offset overflow").

Definition read_page (b : list byte) (page_id : Z) : io_result (list byte) :=
  offset ← page_offset page_id;
  ok_or (get_range b offset (offset + PAGE_SIZE)) (IoError UnexpectedEof "failed to fill whole buffer").

Definition database_length (next_page_id : Z) : io_result Z :=
  ok_or (checked_mul next_page_id PAGE_SIZE) (invalid_input "database length overflow").

Definition database_header_crc32 (page : list byte) : io_result Z := wal_read_u32 page 72.

(** The low 64 bits of a fresh UUID, with zero excluded. *)
Definition new_transaction_id (uuid_low : Z) : Z := if uuid_low =? 0 then 1 else uuid_low.

Definition raw_database_id (b : list byte) (offset : Z) : option (list byte) := get_range b offset (offset + 16).

Definition wal_read_error (d : Disk) (cause : io_error) : wal_error :=
  WalReadError (w ← wal d; raw_database_id w 16) (raw_database_id (database d) 48) cause.

(** [write_page], its error wrapped for [phase]. *)
Definition write_page (outcome : WalOutcome) (transaction_id : Z) (phase : string)
    (page_id : Z) (page : list byte) : prog unit :=
  offset ← wrap outcome transaction_id phase (page_offset page_id);
  emit (WriteDatabase offset page).

(** Prepared pages, ordered by page id. *)
Abbreviation prepared := (list (Z * list byte)).

Inductive CommitBoundary :=
| WalTempSynced | WalActivated | BeforeImagesSynced | DatabaseWritten
| DatabaseSynced | CommitAppended | CommitSynced | WalCleared.

(** [DatabaseSynced] of the source's enum is [DatabaseSyncedAgain] here. *)
Inductive RecoveryBoundary :=
| PageRestored (page_id : Z) | HeaderRestored | DatabaseTruncated
| DatabaseSyncedAgain | WalRemoved | ParentDirectorySynced.

(** [pair[0].0 >= pair[1].0] for no adjacent pair. *)
Fixpoint strictly_increasing (pages : prepared) : bool :=
  match pages with
  | (a, _) :: ((b, _) :: _) as rest => (a <? b) && strictly_increasing rest
  | _ => true
  end.

Section Protocol.
Context {CK : Checksum}.
(** Whether the path of the sorted index is the path of the database itself. *)
Variable index_is_database : bool.

Definition invalidate_sorted_index : prog unit :=
  if index_is_database then mret tt else
  d ← get_disk;
  if index_exists d then (_ ← emit RemoveIndex; emit SyncParent) else mret tt.

Definition clear_wal_with_hook (transaction_id : Z) (outcome : WalOutcome)
    (hook : RecoveryBoundary → io_result unit) : prog unit :=
  d ← get_disk;
  _ ← (if bool_decide (is_Some (wal d)) then
         _ ← emit RemoveWal;
         wrap outcome transaction_id "WalRemoved hook" (hook WalRemoved)
       else mret tt);
  d ← get_disk;
  _ ← (if bool_decide (is_Some (wal_temporary d)) then emit RemoveTemporary else mret tt);
  _ ← emit SyncParent;
  wrap outcome transaction_id "ParentDirectorySynced hook" (hook ParentDirectorySynced).

Definition clear_wal (transaction_id : Z) (outcome : WalOutcome) : prog unit :=
  clear_wal_with_hook transaction_id outcome (λ _, Ok tt).

(** Opening a prepared or stored page: the header page or a slotted page. *)
Definition check_page (page_id : Z) (page : list byte) (next_page_id : Z) : io_result unit :=
  if page_id =? 0 then (_ ← database_header_decode page; Ok tt)
  else (_ ← page_open page page_id next_page_id; Ok tt).

Fixpoint check_prepared (pages : prepared) (next_page_id : Z) : io_result unit :=
  match pages with
  | [] => Ok tt
  | (page_id, page) :: pages =>
      if next_page_id <=? page_id
      then Err (invalid_input "prepared page id exceeds final database bounds") else
      _ ← check_page page_id page next_page_id;
      check_prepared pages next_page_id
  end.

(** The pages are strictly increasing here, so the binary search of the source
    finds a page id exactly when it is present. *)
Definition validate_prepared_pages (b : list byte) (ordered : prepared)
    : io_result (DatabaseHeader * DatabaseHeader * Z) :=
  let original_length := len b in
  if (original_length <? PAGE_SIZE) || negb (original_length mod PAGE_SIZE =? 0)
  then Err (invalid_data "database length is not page aligned") else
  original_page ← read_page b 0;
  original ← database_header_decode original_page;
  expected_length ← database_length (next_page_id original);
  if negb (expected_length =? original_length)
  then Err (invalid_data "database length does not match original header") else
  final_header_page ←
    match ordered with
    | (page_id, page) :: _ =>
        if page_id =? 0 then Ok page
        else Err (invalid_input "prepared transaction must include database header page 0")
    | [] => Err (invalid_input "prepared transaction must include database header page 0")
    end;
  final_header ← database_header_decode final_header_page;
  if negb (bool_decide (database_id final_header = database_id original))
  then Err (invalid_input "prepared database identity differs from current database") else
  if negb (bool_decide (checked_add (generation original) 1 = Some (generation final_header)))
  then Err (invalid_input "prepared generation must advance exactly once") else
  final_length ← database_length (next_page_id final_header);
  if final_length <? original_length
  then Err (invalid_input "prepared transaction cannot shrink the database") else
  _ ← check_prepared ordered (next_page_id final_header);
  if negb (forallb (λ page_id, existsb (λ p, p.1 =? page_id) ordered)
             (seqZ (next_page_id original) (next_page_id final_header - next_page_id original)))
  then Err (invalid_input "prepared transaction omits an appended page") else
  Ok (original, final_header, final_length).

Fixpoint collect_before_images (b : list byte) (ordered : prepared) (original_page_count next_page_id : Z)
    : io_result (list BeforeImage) :=
  match ordered with
  | [] => Ok []
  | (page_id, _) :: ordered =>
      if page_id <? original_page_count then
        page ← read_page b page_id;
        _ ← check_page page_id page next_page_id;
        images ← collect_before_images b ordered original_page_count next_page_id;
        Ok ({| image_page_id := page_id; image_page := page |} :: images)
      else collect_before_images b ordered original_page_count next_page_id
  end.

(** The second half of a commit: from the activated log to the cleared log. *)
Definition commit_activated (hook : CommitBoundary → io_result unit) (transaction_id final_length : Z)
    (final_header : DatabaseHeader) (images : list BeforeImage) (ordered : prepared) : prog unit :=
  let pending {A} := @wrap A RecoveryPending transaction_id in
  let committed {A} := @wrap A CommittedCleanupPending transaction_id in
  _ ← emit SyncParent;
  _ ← pending "WalActivated hook"%string (hook WalActivated);
  _ ← for_each (λ image,
        record ← pending "encode WAL before-image"%string (before_image_encode_record image);
        emit (AppendWal record)) images;
  _ ← emit SyncWal;
  _ ← pending "BeforeImagesSynced hook"%string (hook BeforeImagesSynced);
  _ ← emit (SetLen final_length);
  _ ← for_each (λ '(page_id, page),
        write_page RecoveryPending transaction_id "write database page" page_id page) ordered;
  _ ← pending "DatabaseWritten hook"%string (hook DatabaseWritten);
  _ ← emit SyncDatabase;
  _ ← pending "DatabaseSynced hook"%string (hook DatabaseSynced);
  final_header_page ← pending "locate prepared database header"%string
    (ok_or (snd <$> head ordered) (invalid_input "prepared header page is missing"));
  crc ← pending "read prepared database header checksum"%string (database_header_crc32 final_header_page);
  record ← pending "encode WAL commit record"%string
    (commit_encode_record {| commit_transaction_id := transaction_id;
                             new_generation := generation final_header;
                             commit_database_length := final_length; commit_header_crc32 := crc |});
  _ ← emit (AppendWal record);
  _ ← pending "CommitAppended hook"%string (hook CommitAppended);
  _ ← emit SyncWal;
  _ ← committed "CommitSynced hook"%string (hook CommitSynced);
  _ ← invalidate_sorted_index;
  _ ← clear_wal transaction_id CommittedCleanupPending;
  committed "WalCleared hook"%string (hook WalCleared).

Definition commit_ordered_page_refs_with_hook (hook : CommitBoundary → io_result unit) (uuid_low : Z)
    (ordered : prepared) : prog unit :=
  if bool_decide (ordered = []) then lift (Err (invalid_input "prepared transaction is empty")) else
  d ← get_disk;
  if bool_decide (is_Some (wal d)) || bool_decide (is_Some (wal_temporary d))
  then lift (Err (invalid_data "pending WAL must be recovered before commit")) else
  '(original_header, final_header, final_length) ← lift (validate_prepared_pages (database d) ordered);
  let original_length := len (database d) in
  images ← lift (collect_before_images (database d) ordered (original_length `div` PAGE_SIZE)
                                       (next_page_id original_header));
  let transaction_id := new_transaction_id uuid_low in
  let wal_header := {| wal_database_id := database_id original_header;
                       wal_transaction_id := transaction_id;
                       original_database_len := original_length;
                       original_generation := generation original_header |} in
  _ ← emit CreateTemporary;
  header_bytes ← lift (wal_header_encode wal_header);
  _ ← emit (WriteTemporary header_bytes);
  _ ← emit SyncTemporary;
  _ ← lift (hook WalTempSynced);
  _ ← emit ActivateWal;
  commit_activated hook transaction_id final_length final_header images ordered.

Definition commit_ordered_page_refs (uuid_low : Z) (ordered : prepared) : prog unit :=
  if negb (strictly_increasing ordered)
  then lift (Err (invalid_input "prepared page ids must be strictly increasing"))
  else commit_ordered_page_refs_with_hook (λ _, Ok tt) uuid_low ordered.

(** ** Recovery *)

Definition find_header_image (images : list BeforeImage) : option BeforeImage :=
  List.find (λ i, image_page_id i =? 0) images.

Fixpoint check_images (images : list BeforeImage) (original_page_count next_page_id : Z) : io_result unit :=
  match images with
  | [] => Ok tt
  | i :: images =>
      if original_page_count <=? image_page_id i
      then Err (invalid_data "WAL before-image page id exceeds original database") else
      _ ← (if negb (image_page_id i =? 0)
           then (_ ← page_open (image_page i) (image_page_id i) next_page_id; Ok tt) else Ok tt);
      check_images images original_page_count next_page_id
  end.

Definition validate_recovery_before_images (parsed : ParsedWal) (current_header_page : list byte)
    : io_result DatabaseHeader :=
  original_header ←
    match find_header_image (before_images parsed) with
    | Some image => database_header_decode (image_page image)
    | None =>
        if bool_decide (before_images parsed = []) then database_header_decode current_header_page
        else Err (invalid_data "WAL before-images omit database header page 0")
    end;
  let h := parsed_header parsed in
  if negb (bool_decide (database_id original_header = wal_database_id h))
  then Err (invalid_data "WAL before-image database identity does not match WAL header") else
  if negb (generation original_header =? original_generation h)
  then Err (invalid_data "WAL before-image generation does not match WAL header") else
  length ← database_length (next_page_id original_header);
  if negb (length =? original_database_len h)
  then Err (invalid_data "WAL original length does not match before-image header") else
  _ ← check_images (before_images parsed) (original_database_len h `div` PAGE_SIZE) (next_page_id original_header);
  Ok original_header.

Definition validate_current_identity (current_header_page expected : list byte) : io_result unit :=
  actual ← wal_bytes_at 16 current_header_page 48;
  if bool_decide (actual = expected) then Ok tt
  else Err (invalid_data "WAL recovery refused: database identity does not match").

Definition validate_committed_database (b : list byte) (parsed : ParsedWal) (c : CommitRecord)
    (current_header_page : list byte) : io_result unit :=
  if torn_tail parsed then Err (invalid_data "committed WAL has a torn trailing record") else
  if negb (len b =? commit_database_length c)
  then Err (invalid_data "committed WAL database length mismatch") else
  current_header ← database_header_decode current_header_page;
  if negb (bool_decide (database_id current_header = wal_database_id (parsed_header parsed)))
  then Err (invalid_data "committed WAL database identity mismatch") else
  if negb (generation current_header =? new_generation c)
  then Err (invalid_data "committed WAL database generation mismatch") else
  length ← database_length (next_page_id current_header);
  if negb (length =? commit_database_length c)
  then Err (invalid_data "committed WAL header length mismatch") else
  crc ← database_header_crc32 current_header_page;
  if negb (crc =? commit_header_crc32 c)
  then Err (invalid_data "committed WAL database header checksum mismatch") else Ok tt.

Definition rollback_uncommitted (parsed : ParsedWal) (hook : RecoveryBoundary → io_result unit) : prog unit :=
  let transaction_id := wal_transaction_id (parsed_header parsed) in
  let pending {A} := @wrap A RecoveryPending transaction_id in
  _ ← for_each (λ image,
        _ ← write_page RecoveryPending transaction_id "restore database page" (image_page_id image) (image_page image);
        pending "PageRestored hook"%string (hook (PageRestored (image_page_id image))))
      (List.filter (λ i, negb (image_page_id i =? 0)) (before_images parsed));
  _ ← match find_header_image (before_images parsed) with
      | Some header =>
          _ ← write_page RecoveryPending transaction_id "restore database header" 0 (image_page header);
          pending "HeaderRestored hook"%string (hook HeaderRestored)
      | None => mret tt
      end;
  _ ← emit (SetLen (original_database_len (parsed_header parsed)));
  _ ← pending "DatabaseTruncated hook"%string (hook DatabaseTruncated);
  _ ← emit SyncDatabase;
  _ ← pending "DatabaseSynced recovery hook"%string (hook DatabaseSyncedAgain);
  clear_wal_with_hook transaction_id RecoveryPending hook.

(** [read_wal], its error wrapped with the identities found in the files. *)
Definition parse_wal (w : list byte) : prog ParsedWal :=
  λ d, ([], map_err (wal_read_error d) (read_wal w)).

Definition recover_pending_with_hook (hook : RecoveryBoundary → io_result unit) : prog unit :=
  d ← get_disk;
  match wal d with
  | None =>
      if bool_decide (is_Some (wal_temporary d)) then (_ ← emit RemoveTemporary; emit SyncParent) else mret tt
  | Some w =>
      parsed ← parse_wal w;
      let current_length := len (database d) in
      if (current_length <? PAGE_SIZE) || (current_length <? original_database_len (parsed_header parsed))
      then lift (Err (invalid_data "database is shorter than WAL recovery requires")) else
      current_header_page ← lift (read_page (database d) 0);
      _ ← lift (validate_current_identity current_header_page (wal_database_id (parsed_header parsed)));
      original_header ← lift (validate_recovery_before_images parsed current_header_page);
      match commit parsed with
      | Some c =>
          _ ← lift (validate_committed_database (database d) parsed c current_header_page);
          _ ← invalidate_sorted_index;
          clear_wal_with_hook (wal_transaction_id (parsed_header parsed)) CommittedCleanupPending hook
      | None =>
          if bool_decide (before_images parsed = [])
             && (negb (current_length =? original_database_len (parsed_header parsed))
                 || negb (generation original_header =? original_generation (parsed_header parsed)))
          then lift (Err (invalid_data "header-only WAL does not match unchanged database")) else
          rollback_uncommitted parsed hook
      end
  end.

Definition recover_pending : prog unit := recover_pending_with_hook (λ _, Ok tt).
End Protocol.

(** ** Crashes

    A machine tracks what the running process sees and what is certainly on
    disk: effects on the database since its last sync, bytes appended to the
    log since its last sync, and directory changes since the last sync of the
    directory are pending.  At a crash
    - each pending effect on the database may be lost, done, or torn at any byte;
    - of the pending log bytes a prefix survives;
    - of the pending directory changes a prefix survives. *)

Record Names := { has_wal : bool; has_temporary : bool; has_index : bool }.

Definition names_op (op : disk_op) (n : Names) : Names :=
  match op with
  | CreateTemporary => {| has_wal := has_wal n; has_temporary := true; has_index := has_index n |}
  | ActivateWal => {| has_wal := has_temporary n; has_temporary := false; has_index := has_index n |}
  | RemoveIndex => {| has_wal := has_wal n; has_temporary := has_temporary n; has_index := false |}
  | RemoveWal => {| has_wal := false; has_temporary := has_temporary n; has_index := has_index n |}
  | RemoveTemporary => {| has_wal := has_wal n; has_temporary := false; has_index := has_index n |}
  | _ => n
  end.

Definition names_ops (ops : list disk_op) (n : Names) : Names := foldl (λ n op, names_op op n) n ops.

Record Machine := {
  m_disk : Disk;
  m_database : list byte;          (* durable *)
  m_database_pending : list disk_op;
  m_log : list byte;               (* durable *)
  m_log_pending : list byte;
  m_names : Names;                 (* durable *)
  m_names_pending : list disk_op;
}.

Definition exec_op (m : Machine) (op : disk_op) : Machine :=
  let d := apply_op op (m_disk m) in
  match op with
  | SetLen _ | WriteDatabase _ _ =>
      {| m_disk := d; m_database := m_database m; m_database_pending := m_database_pending m ++ [op];
         m_log := m_log m; m_log_pending := m_log_pending m;
         m_names := m_names m; m_names_pending := m_names_pending m |}
  | SyncDatabase =>
      {| m_disk := d; m_database := database (m_disk m); m_database_pending := [];
         m_log := m_log m; m_log_pending := m_log_pending m;
         m_names := m_names m; m_names_pending := m_names_pending m |}
  | WriteTemporary b | AppendWal b =>
      {| m_disk := d; m_database := m_database m; m_database_pending := m_database_pending m;
         m_log := m_log m; m_log_pending := m_log_pending m ++ b;
         m_names := m_names m; m_names_pending := m_names_pending m |}
  | SyncTemporary | SyncWal =>
      {| m_disk := d; m_database := m_database m; m_database_pending := m_database_pending m;
         m_log := m_log m ++ m_log_pending m; m_log_pending := [];
         m_names := m_names m; m_names_pending := m_names_pending m |}
  | CreateTemporary =>
      {| m_disk := d; m_database := m_database m; m_database_pending := m_database_pending m;
         m_log := []; m_log_pending := [];
         m_names := m_names m; m_names_pending := m_names_pending m ++ [op] |}
  | ActivateWal | RemoveIndex | RemoveWal | RemoveTemporary =>
      {| m_disk := d; m_database := m_database m; m_database_pending := m_database_pending m;
         m_log := m_log m; m_log_pending := m_log_pending m;
         m_names := m_names m; m_names_pending := m_names_pending m ++ [op] |}
  | SyncParent =>
      {| m_disk := d; m_database := m_database m; m_database_pending := m_database_pending m;
         m_log := m_log m; m_log_pending := m_log_pending m;
         m_names := names_ops (m_names_pending m) (m_names m); m_names_pending := [] |}
  end.

Definition exec_ops (m : Machine) (ops : list disk_op) : Machine := foldl exec_op m ops.

(** A machine at rest: everything on disk. *)
Definition at_rest (d : Disk) : Machine :=
  {| m_disk := d; m_database := database d; m_database_pending := [];
     m_log := default (default [] (wal_temporary d)) (wal d); m_log_pending := [];
     m_names := {| has_wal := bool_decide (is_Some (wal d));
                   has_temporary := bool_decide (is_Some (wal_temporary d));
                   has_index := index_exists d |};
     m_names_pending := [] |}.

(** What a pending effect on the database may leave behind. *)
Inductive torn : disk_op → list byte → list byte → Prop :=
| torn_set_len n c c' :
    Z.min (len c) n ≤ len c' ≤ Z.max (len c) n →
    (∀ i x, c !! i = Some x → Z.of_nat i < len c' → c' !! i = Some x) →
    torn (SetLen n) c c'
| torn_write offset b c c' :
    len c ≤ len c' ≤ Z.max (len c) (offset + len b) →
    (∀ i x, c !! i = Some x →
       c' !! i = Some x ∨ offset ≤ Z.of_nat i < offset + len b ∧ c' !! i = b !! (i - Z.to_nat offset)%nat) →
    torn (WriteDatabase offset b) c c'.

Inductive settles : list disk_op → list byte → list byte → Prop :=
| settles_done c : settles [] c c
| settles_lost op ops c c' : settles ops c c' → settles (op :: ops) c c'
| settles_torn op ops c c1 c' : torn op c c1 → settles ops c1 c' → settles (op :: ops) c c'.

Inductive crash (m : Machine) : Disk → Prop :=
| crashed db log names :
    settles (m_database_pending m) (m_database m) db →
    log `prefix_of` m_log_pending m →
    names `prefix_of` m_names_pending m →
    let n := names_ops names (m_names m) in
    crash m {| database := db;
               wal := if has_wal n then Some (m_log m ++ log) else None;
               wal_temporary := if has_temporary n then Some (m_log m ++ log) else None;
               index_exists := has_index n |}.

(** ** Running programs *)

Lemma run_bind {A B} (m : prog A) (f : A → prog B) d ops a ops' r :
  m d = (ops, Ok a) → f a (apply_ops ops d) = (ops', r) → (m ≫= f) d = (ops ++ ops', r).
Proof. intros Hm Hf. unfold mbind, prog_bind. by rewrite Hm, Hf. Qed.

Lemma run_lift {A B} (v : io_result A) (f : A → prog B) d a :
  v = Ok a → (lift v ≫= f) d = f a d.
Proof.
  intros ->. unfold mbind, prog_bind, lift. cbn [map_err apply_ops foldl]. by destruct (f a d) as [ops r].
Qed.

Lemma run_wrap {A B} o t p (v : io_result A) (f : A → prog B) d a :
  v = Ok a → (wrap o t p v ≫= f) d = f a d.
Proof.
  intros ->. unfold mbind, prog_bind, wrap. cbn [map_err apply_ops foldl]. by destruct (f a d) as [ops r].
Qed.

Lemma run_emit {B} op (f : unit → prog B) d ops r :
  f tt (apply_op op d) = (ops, r) → (emit op ≫= f) d = (op :: ops, r).
Proof. intros H. unfold mbind, prog_bind, emit. cbn [apply_ops foldl]. by rewrite H. Qed.

Lemma run_get {B} (f : Disk → prog B) d : (get_disk ≫= f) d = f d d.
Proof. unfold mbind, prog_bind, get_disk. cbn [apply_ops foldl]. by destruct (f d d) as [ops r]. Qed.

Lemma run_ret {A B} (a : A) (f : A → prog B) d : (mret a ≫= f) d = f a d.
Proof. unfold mbind, prog_bind, mret, prog_ret. cbn [apply_ops foldl]. by destruct (f a d) as [ops r]. Qed.

Lemma apply_ops_app ops ops' d : apply_ops (ops ++ ops') d = apply_ops ops' (apply_ops ops d).
Proof. unfold apply_ops. by rewrite foldl_app. Qed.

Lemma exec_ops_app m ops ops' : exec_ops m (ops ++ ops') = exec_ops (exec_ops m ops) ops'.
Proof. unfold exec_ops. by rewrite foldl_app. Qed.

Lemma exec_ops_disk m ops : m_disk (exec_ops m ops) = apply_ops ops (m_disk m).
Proof.
  revert m. induction ops as [|op ops IH]; intros m; [done|]. cbn. unfold exec_ops, apply_ops in IH.
  rewrite IH. by destruct op.
Qed.

(** A loop whose body emits one effect for each element. *)
Lemma run_for_each {A} (f : A → prog unit) (g : A → disk_op) l d :
  Forall (λ x, ∀ d, f x d = ([g x], Ok tt)) l → for_each f l d = (map g l, Ok tt).
Proof.
  intros H. revert d. induction H as [|x l Hx _ IH]; intros d; [done|]. cbn [for_each map].
  change (g x :: map g l) with ([g x] ++ map g l). eapply run_bind; [apply Hx|apply IH].
Qed.

(** Every state between the effects [ops] satisfies [P]. *)
Definition always (P : Machine → Prop) (m : Machine) (ops : list disk_op) : Prop :=
  ∀ k, P (exec_ops m (take k ops)).

Lemma always_nil (P : Machine → Prop) m : P m → always P m [].
Proof. intros H k. by rewrite take_nil. Qed.

Lemma always_cons (P : Machine → Prop) m op ops : P m → always P (exec_op m op) ops → always P m (op :: ops).
Proof. intros H Hs [|k]; [done|]. apply (Hs k). Qed.

Lemma always_app (P : Machine → Prop) m ops ops' :
  always P m ops → always P (exec_ops m ops) ops' → always P m (ops ++ ops').
Proof.
  intros H H' k. destruct (decide (k ≤ length ops)%nat) as [Hk|Hk].
  - rewrite take_app_le by done. apply H.
  - rewrite take_app_ge, exec_ops_app by lia. apply H'.
Qed.

Lemma always_here (P : Machine → Prop) m ops : always P m ops → P m.
Proof. intros H. apply (H 0%nat). Qed.

(** ** Database contents *)

Lemma len_set_len b n : 0 ≤ n → len (set_len b n) = n.
Proof.
  intros. unfold set_len. rewrite len_app. unfold len at 1. rewrite length_take.
  destruct (Z.leb_spec (len b) n).
  - rewrite len_zeros by lia. unfold len in *. lia.
  - rewrite zeros_nonpos by lia. unfold len in *. cbn. lia.
Qed.

Lemma set_len_lookup b n i x : b !! i = Some x → Z.of_nat i < n → set_len b n !! i = Some x.
Proof.
  intros Hi Hn. unfold set_len. rewrite lookup_app_l.
  - by rewrite lookup_take_lt by lia.
  - apply lookup_lt_Some in Hi. rewrite length_take. lia.
Qed.

Lemma set_len_same b n : n = len b → set_len b n = b.
Proof.
  intros ->. unfold set_len. rewrite Z.sub_diag, zeros_nonpos, app_nil_r by done. apply take_ge. unfold len. lia.
Qed.

Lemma write_bytes_inside b off v : 0 ≤ off → off + len v ≤ len b → write_bytes b off v = put b off v.
Proof. intros. unfold write_bytes. by rewrite set_len_same by lia. Qed.

Lemma write_bytes_lookup b off v i :
  0 ≤ off → off + len v ≤ len b →
  write_bytes b off v !! i =
    if (off <=? Z.of_nat i) && (Z.of_nat i <? off + len v) then v !! (i - Z.to_nat off)%nat else b !! i.
Proof. intros. rewrite write_bytes_inside by done. by apply put_lookup. Qed.

(** Doing an effect completely is one way to tear it. *)
Lemma torn_set_len_done c n : 0 ≤ n → torn (SetLen n) c (set_len c n).
Proof.
  intros. constructor; [rewrite len_set_len by done; lia|].
  intros i x Hi Hn. apply set_len_lookup; [done|]. by rewrite len_set_len in Hn.
Qed.

Lemma torn_write_done c off v : 0 ≤ off → off + len v ≤ len c → torn (WriteDatabase off v) c (write_bytes c off v).
Proof.
  intros. rewrite write_bytes_inside by done. constructor; [rewrite len_put; lia|].
  intros i x Hi. rewrite put_lookup by done. case_match eqn:E; [right|by left]. split; [lia|done].
Qed.
