(* ===== verification/BtreeCrash.v ===== *)
(** Crash safety of the commit and recovery protocol: after a crash between
    any two effects, with pending effects lost or torn, recovery restores the
    database from before the transaction or completes the transaction. *)

From S2P Require Import Prelude BtreeFormat BtreePage BtreeWal BtreeRecovery.
From stdpp Require Import gmap.
#[local] Open Scope Z_scope.

Lemma prefix_one {A} (l : list A) x : l `prefix_of` [x] → l = [] ∨ l = [x].
Proof.
  destruct l as [|y l]; intros H; [by left|right]. apply prefix_cons_inv_1 in H as Hy.
  apply prefix_cons_inv_2, prefix_nil_inv in H. by subst.
Qed.

(** The page a byte of the database lies in. *)
Definition page_of (i : nat) : Z := Z.of_nat i `div` PAGE_SIZE.

Lemma page_of_range i id : page_of i = id ↔ id * PAGE_SIZE ≤ Z.of_nat i < id * PAGE_SIZE + PAGE_SIZE.
Proof.
  unfold page_of. change PAGE_SIZE with 4096. split.
  - intros <-. pose proof (Z.div_mod (Z.of_nat i) 4096 ltac:(lia)).
    pose proof (Z.mod_pos_bound (Z.of_nat i) 4096 ltac:(lia)). lia.
  - intros. symmetry. apply (Z.div_unique_pos _ _ _ (Z.of_nat i - id * 4096)); lia.
Qed.

Lemma read_page_inv b id page :
  read_page b id = Ok page → 0 ≤ id →
  page = slice b (id * PAGE_SIZE) (id * PAGE_SIZE + PAGE_SIZE) ∧ id * PAGE_SIZE + PAGE_SIZE ≤ len b.
Proof.
  unfold read_page, page_offset. intros H Hid. bind_inv. field_inv. by subst.
Qed.

Lemma read_page_ok b id :
  0 ≤ id → id * PAGE_SIZE + PAGE_SIZE ≤ len b → id * PAGE_SIZE < 2 ^ 64 →
  read_page b id = Ok (slice b (id * PAGE_SIZE) (id * PAGE_SIZE + PAGE_SIZE)).
Proof.
  intros. change PAGE_SIZE with 4096 in *. unfold read_page, page_offset. change PAGE_SIZE with 4096.
  rewrite checked_mul_small by lia. cbn [ok_or]. rewrite bind_ok, get_range_some by lia. done.
Qed.

Lemma strictly_increasing_cons id page rest :
  strictly_increasing ((id, page) :: rest) = true →
  strictly_increasing rest = true ∧ Forall (λ p, id < p.1) rest.
Proof.
  revert id page. induction rest as [|[id' page'] rest IH]; intros id page H; [done|].
  cbn [strictly_increasing] in H. apply andb_true_iff in H as [Hlt H]. split; [done|].
  destruct (IH id' page' H) as [_ Hall]. constructor; [cbn; lia|].
  eapply Forall_impl; [exact Hall|]. cbn. lia.
Qed.

Section Transaction.
Context {CK : Checksum}.

(** A transaction that passed validation: the database before it, its ordered
    pages, the headers before and after, and the before-images. *)
Record transaction (orig : list byte) (ordered : prepared) (oh fh : DatabaseHeader)
    (final_length tx : Z) (images : list BeforeImage) : Prop := {
  tr_tx : is_u64 tx ∧ tx ≠ 0;
  tr_pages : Forall (λ p, is_u64 p.1 ∧ len p.2 = PAGE_SIZE) ordered;
  tr_increasing : strictly_increasing ordered = true;
  tr_valid : validate_prepared_pages orig ordered = Ok (oh, fh, final_length);
  tr_images : collect_before_images orig ordered (len orig `div` PAGE_SIZE) (next_page_id oh) = Ok images;
  tr_small : 112 + 4128 * len ordered < 2 ^ 64;
}.

(** What collecting before-images yields. *)
Lemma collect_before_images_inv b ordered count next images :
  collect_before_images b ordered count next = Ok images →
  Forall (λ p, is_u64 p.1 ∧ len p.2 = PAGE_SIZE) ordered →
  map image_page_id images = List.filter (λ id, id <? count) (map fst ordered) ∧
  Forall (λ i, is_u64 (image_page_id i) ∧ image_page_id i < count ∧
    image_page i = slice b (image_page_id i * PAGE_SIZE) (image_page_id i * PAGE_SIZE + PAGE_SIZE) ∧
    image_page_id i * PAGE_SIZE + PAGE_SIZE ≤ len b ∧
    check_page (image_page_id i) (image_page i) next = Ok tt) images.
Proof.
  revert images. induction ordered as [|[id page] ordered IH]; intros images H Hp; cbn in H.
  { bind_inv. split; [done|constructor]. }
  inversion Hp as [|? ? [Hid _] Hp']; subst. cbn [map List.filter fst] in *.
  destruct (Z.ltb_spec id count).
  - bind_inv. match goal with H : collect_before_images _ _ _ _ = Ok _ |- _ => apply IH in H as [Hm Hf]; [|done] end.
    match goal with H : read_page _ _ = Ok _ |- _ => apply read_page_inv in H as [? ?]; [|by destruct Hid] end.
    split; [cbn; by rewrite Hm|]. constructor; [|done]. cbn. done.
  - by apply IH.
Qed.

Context {orig : list byte} {ordered : prepared} {oh fh : DatabaseHeader} {final_length tx : Z}
        {images : list BeforeImage} (T : transaction orig ordered oh fh final_length tx images).

Definition tx_header : WalHeader :=
  {| wal_database_id := database_id oh; wal_transaction_id := tx; original_database_len := len orig;
     original_generation := generation oh |}.

(** What validation establishes about the two databases. *)
Record validated (final_page : list byte) : Prop := {
  vd_orig_len : len orig = next_page_id oh * PAGE_SIZE;
  vd_orig_min : PAGE_SIZE ≤ len orig;
  vd_orig_header : database_header_decode (slice orig 0 PAGE_SIZE) = Ok oh;
  vd_first : ∃ rest, ordered = (0, final_page) :: rest;
  vd_final_header : database_header_decode final_page = Ok fh;
  vd_identity : database_id fh = database_id oh;
  vd_generation : generation fh = generation oh + 1;
  vd_final_len : final_length = next_page_id fh * PAGE_SIZE ∧ len orig ≤ final_length < 2 ^ 64;
  vd_bounds : Forall (λ p, p.1 < next_page_id fh) ordered;
  vd_appended : ∀ id, next_page_id oh ≤ id < next_page_id fh → id ∈ map fst ordered;
}.

Lemma check_prepared_bounds pages next :
  check_prepared pages next = Ok tt → Forall (λ p, p.1 < next) pages.
Proof.
  induction pages as [|[id page] pages IH]; intros H; cbn in H; [constructor|].
  bind_inv. constructor; [cbn; lia|by apply IH].
Qed.

Lemma transaction_validated : ∃ final_page, validated final_page.
Proof using T.
  destruct T as [_ _ _ V _ _]. unfold validate_prepared_pages in V. bind_inv.
  match goal with H : read_page orig 0 = Ok _ |- _ => apply read_page_inv in H as [-> Hlen]; [|done] end.
  destruct ordered as [|[id final_page] rest] eqn:Ho; [done|]. bind_inv.
  unfold database_length in *. bind_inv. field_inv. bool_to_prop. subst. eexists.
  repeat match goal with H : bool_decide _ = true |- _ => apply bool_decide_eq_true in H end. field_inv.
  match goal with H : check_prepared _ _ = Ok _ |- _ => apply check_prepared_bounds in H as Hb end.
  constructor; try lia; [done|by exists rest|done..|by rewrite Ho|].
  intros id Hid. rewrite Ho. match goal with H : forallb _ _ = true |- _ => rewrite forallb_forall in H;
    specialize (H id); rewrite <- list_elem_of_In, elem_of_seqZ in H; specialize (H ltac:(lia));
    apply existsb_exists in H as (p & Hp & Heq) end.
  apply list_elem_of_In, in_map_iff. exists p. split; [lia|done].
Qed.

Lemma increasing_ids_nodup pages : strictly_increasing pages = true → NoDup (map fst pages).
Proof.
  induction pages as [|[id page] pages IH]; intros H; [constructor|].
  apply strictly_increasing_cons in H as [H Hall]. cbn. constructor; [|by apply IH].
  rewrite list_elem_of_In, in_map_iff. intros (p & Hp & Hin). rewrite Forall_forall in Hall.
  apply list_elem_of_In in Hin. specialize (Hall p Hin). cbn in Hall. lia.
Qed.

(** The facts about before-images that recovery relies on. *)
Record imaged : Prop := {
  im_ok : images_ok tx_header images;
  im_pages : Forall (λ i, image_page i =
      slice orig (image_page_id i * PAGE_SIZE) (image_page_id i * PAGE_SIZE + PAGE_SIZE) ∧
    0 ≤ image_page_id i ∧ image_page_id i * PAGE_SIZE + PAGE_SIZE ≤ len orig ∧
    check_page (image_page_id i) (image_page i) (next_page_id oh) = Ok tt) images;
  im_ids : ∀ id, id ∈ map image_page_id images ↔ id ∈ map fst ordered ∧ id < next_page_id oh;
  im_first : ∃ rest, images = {| image_page_id := 0; image_page := slice orig 0 PAGE_SIZE |} :: rest;
  im_count : len images ≤ len ordered;
}.

Lemma page_count : len orig `div` PAGE_SIZE = next_page_id oh.
Proof using T.
  destruct transaction_validated as [fp V]. rewrite (vd_orig_len _ V). apply Z.div_mul. done.
Qed.

Lemma transaction_imaged : imaged.
Proof using T.
  destruct transaction_validated as [fp V]. pose proof page_count as Hpc.
  pose proof T as [_ Hp Hinc _ HI _].
  destruct (collect_before_images_inv _ _ _ _ _ HI Hp) as [Hm Hf]. rewrite Hpc in *.
  pose proof (database_header_decode_layout _ _ (vd_orig_header _ V)) as (_ & [[] [] [] [] _ _] & Vo).
  assert (0 < next_page_id oh) as Hpos by (unfold validate_database_header in Vo; bind_inv; lia).
  assert (∀ id, id ∈ map image_page_id images ↔ id ∈ map fst ordered ∧ id < next_page_id oh) as Hids.
  { intros id. rewrite Hm. rewrite !list_elem_of_In, filter_In. rewrite Z.ltb_lt. done. }
  constructor; [constructor| |done| |].
  - eapply Forall_impl; [exact Hf|]. cbn. intros i (? & _ & Hpg & ? & _). split; [done|].
    rewrite Hpg. unfold fits in *. rewrite len_slice; unfold PAGE_SIZE in *; lia.
  - eapply Forall_impl; [exact Hf|]. cbn. intros i (_ & ? & _). by rewrite Hpc.
  - rewrite Hm. apply NoDup_ListNoDup, List.NoDup_filter, NoDup_ListNoDup. by apply increasing_ids_nodup.
  - eapply Forall_impl; [exact Hf|]. cbn. intros i ([] & _ & ? & ? & ?). done.
  - destruct (vd_first _ V) as [rest Ho]. rewrite Ho in Hm. cbn [map List.filter fst] in Hm.
    replace (0 <? next_page_id oh) with true in Hm by lia. destruct images as [|i rest']; [done|].
    cbn in Hm. injection Hm as Hi0 _. exists rest'. inversion Hf as [|? ? (_ & _ & Hpg & _) _]; subst.
    destruct i as [i0 ip]; cbn in *. subst. done.
  - assert (length images = length (map image_page_id images)) as Hl by (by rewrite length_map).
    unfold len. rewrite Hl, Hm. etransitivity; [apply inj_le, List.filter_length_le|]. by rewrite length_map.
Qed.

Lemma transaction_header : ∃ hb, wal_header_encode tx_header = Ok hb ∧ wal_header_decode hb = Ok tx_header.
Proof using T.
  destruct transaction_validated as [fp V]. destruct (vd_final_len _ V) as [_ [Hle Hlt]].
  pose proof (database_header_decode_layout _ _ (vd_orig_header _ V)) as (_ & W & Vo).
  unfold validate_database_header in Vo. bind_inv. destruct W. pose proof (tr_tx _ _ _ _ _ _ _ T) as [Hu Hz].
  assert (wal_header_wf tx_header) as Wh.
  { constructor; cbn; try done. pose proof (len_nonneg orig). unfold fits. lia. }
  assert (wal_header_validate tx_header = Ok tt) as Vh.
  { unfold wal_header_validate. cbn [tx_header wal_database_id wal_transaction_id original_database_len original_generation].
    rewrite (vd_orig_len _ V). change PAGE_SIZE with 4096.
    apply skip_guard; [done|]. apply skip_guard; [lia|].
    apply skip_guard; [rewrite Z.mod_mul by done; unfold fits in *; lia|]. apply skip_guard; [lia|done]. }
  destruct (wal_header_encode_layout _ Wh Vh) as (hb & E & L). exists hb. split; [done|].
  by apply wal_header_layout_decode.
Qed.

(** *** Contents that the before-images can restore *)

(** Byte [i] lies in a page with a before-image. *)
Definition covered (i : nat) : Prop := page_of i ∈ map image_page_id images.

Record rollbackable (c : list byte) : Prop := {
  rk_len : len orig ≤ len c;
  rk_rest : ∀ i x, orig !! i = Some x → ¬ covered i → c !! i = Some x;
  rk_identity : ∀ i x, orig !! i = Some x → 48 ≤ Z.of_nat i < 64 → c !! i = Some x;
}.

(** Effects that keep a database restorable. *)
Definition restorable_op (op : disk_op) : Prop :=
  match op with
  | SetLen n => len orig ≤ n
  | WriteDatabase offset b =>
      ∃ id, 0 ≤ id ∧ offset = id * PAGE_SIZE ∧ len b = PAGE_SIZE ∧
        (id < next_page_id oh → id ∈ map image_page_id images) ∧
        (id = 0 → ∀ i, 48 ≤ Z.of_nat i < 64 → b !! i = orig !! i)
  | _ => False
  end.

(** Effects that change nothing on the original database. *)
Definition restoring_op (op : disk_op) : Prop :=
  match op with
  | SetLen n => n = len orig
  | WriteDatabase offset b =>
      0 ≤ offset ∧ offset + len b ≤ len orig ∧ b = slice orig offset (offset + len b)
  | _ => False
  end.

Lemma rollbackable_orig : rollbackable orig.
Proof. by constructor. Qed.

Lemma orig_page i x : orig !! i = Some x → page_of i < next_page_id oh.
Proof using T.
  intros Hi. destruct transaction_validated as [fp V]. pose proof (vd_orig_len _ V) as Hl.
  apply lookup_lt_Some in Hi. unfold len in Hl. unfold page_of. change PAGE_SIZE with 4096 in *.
  apply Z.div_lt_upper_bound; lia.
Qed.

Lemma torn_rollbackable op c c' :
  restorable_op op → rollbackable c → torn op c c' → rollbackable c'.
Proof using T.
  intros Hop [Hl Hr Hid] Ht. destruct Ht as [n c c' Hn Hk | offset b c c' Hn Hk]; cbn in Hop.
  - constructor; [lia|..].
    + intros i x Hi Hc. apply Hk; [by apply Hr|]. apply lookup_lt_Some in Hi. unfold len in *. lia.
    + intros i x Hi Hc. apply Hk; [by apply Hid|]. apply lookup_lt_Some in Hi. unfold len in *. lia.
  - destruct Hop as (id & Hid0 & -> & Hb & Hin & Hz). constructor; [lia|..].
    + intros i x Hi Hc. destruct (Hk i x (Hr i x Hi Hc)) as [?|[Hrange _]]; [done|]. exfalso. apply Hc.
      assert (page_of i = id) as Hp by (apply page_of_range; lia). unfold covered. rewrite Hp. apply Hin.
      rewrite <- Hp. by eapply orig_page.
    + intros i x Hi Hc. destruct (Hk i x (Hid i x Hi Hc)) as [?|[Hrange E]]; [done|].
      assert (id = 0) as -> by (change PAGE_SIZE with 4096 in *; lia). rewrite E. cbn.
      rewrite Nat.sub_0_r, Hz by done. done.
Qed.

Lemma settles_rollbackable ops c c' :
  Forall restorable_op ops → rollbackable c → settles ops c c' → rollbackable c'.
Proof using T.
  intros Ho R Hs. induction Hs as [c|op ops c c' Hs IH|op ops c c1 c' Ht Hs IH]; [done|..];
    inversion Ho; subst; [by apply IH|]. apply IH; [done|]. by eapply torn_rollbackable.
Qed.

Lemma torn_restoring op c' : restoring_op op → torn op orig c' → c' = orig.
Proof.
  intros Hop Ht. inversion Ht as [n c c1 Hn Hk|offset b c c1 Hn Hk]; subst; cbn in Hop.
  - subst n. apply (list_eq_same_length _ _ (length orig)); [done|unfold len in *; lia|].
    intros i x y Hi Hx Hy. specialize (Hk i y Hy). unfold len in *. rewrite Hk in Hx; [congruence|lia].
  - destruct Hop as (Ho & Hle & Hb).
    apply (list_eq_same_length _ _ (length orig)); [done|unfold len in *; lia|].
    intros i x y Hi Hx Hy. destruct (Hk i y Hy) as [E|[Hr E]]; [congruence|].
    rewrite Hb, slice_lookup in E by lia.
    replace (Z.of_nat (i - Z.to_nat offset) <? offset + len b - offset) with true in E by blia.
    replace (Z.to_nat offset + (i - Z.to_nat offset))%nat with i in E by lia. congruence.
Qed.

Lemma settles_restoring ops c' : Forall restoring_op ops → settles ops orig c' → c' = orig.
Proof.
  intros Ho Hs. remember orig as c eqn:Hc. revert Hc.
  induction Hs as [c|op ops c c' Hs IH|op ops c c1 c' Ht Hs IH]; intros ->; [done|..];
    inversion Ho; subst; [by apply IH|]. apply torn_restoring in Ht as ->; [|done]. by apply IH.
Qed.

(** *** The effects of a rollback *)

Definition write_image (i : BeforeImage) : disk_op :=
  WriteDatabase (image_page_id i * PAGE_SIZE) (image_page i).

(** The order in which rollback restores the images: the header page last. *)
Definition restore_order (im : list BeforeImage) : list BeforeImage :=
  List.filter (λ i, negb (image_page_id i =? 0)) im ++
  match find_header_image im with Some h => [{| image_page_id := 0; image_page := image_page h |}] | None => [] end.

(** An image of the original database. *)
Definition original_image (i : BeforeImage) : Prop :=
  image_page i = slice orig (image_page_id i * PAGE_SIZE) (image_page_id i * PAGE_SIZE + PAGE_SIZE) ∧
  0 ≤ image_page_id i ∧ image_page_id i * PAGE_SIZE + PAGE_SIZE ≤ len orig.

Lemma find_header_image_inv im h : find_header_image im = Some h → h ∈ im ∧ image_page_id h = 0.
Proof.
  unfold find_header_image. intros H. apply find_some in H as [Hin Hz]. split; [by apply list_elem_of_In|lia].
Qed.

Lemma restore_order_original im : Forall original_image im → Forall original_image (restore_order im).
Proof.
  intros H. apply Forall_app. split.
  - rewrite Forall_forall in *. intros i Hi. apply list_elem_of_In, filter_In in Hi as [Hi _].
    by apply H, list_elem_of_In.
  - destruct (find_header_image im) as [h|] eqn:E; [|constructor]. constructor; [|constructor].
    apply find_header_image_inv in E as [Hin Hz]. rewrite Forall_forall in H. specialize (H h Hin).
    destruct h as [id page]; cbn in *. by subst.
Qed.

Lemma restore_order_ids im id : id ∈ map image_page_id (restore_order im) ↔ id ∈ map image_page_id im.
Proof.
  unfold restore_order. rewrite map_app, elem_of_app. split.
  - intros [H|H].
    + apply list_elem_of_In, in_map_iff in H as (i & <- & Hi). apply filter_In in Hi as [Hi _].
      apply list_elem_of_In. by apply in_map.
    + destruct (find_header_image im) as [h|] eqn:E; [|by apply not_elem_of_nil in H].
      apply list_elem_of_singleton in H as ->. apply find_header_image_inv in E as [Hin <-].
      apply list_elem_of_In. cbn. apply in_map. by apply list_elem_of_In.
  - intros H. apply list_elem_of_In, in_map_iff in H as (i & <- & Hi).
    destruct (Z.eqb_spec (image_page_id i) 0) as [Hz|Hz].
    + right. unfold find_header_image. destruct (List.find _ im) as [h|] eqn:E.
      * rewrite Hz. cbn. by apply list_elem_of_singleton.
      * pose proof (find_none _ _ E i Hi) as Hn. cbn in Hn. lia.
    + left. apply list_elem_of_In. apply in_map. apply filter_In. split; [done|]. lia.
Qed.

Lemma original_image_len i : original_image i → len (image_page i) = PAGE_SIZE.
Proof. intros (-> & ? & ?). rewrite len_slice; change PAGE_SIZE with 4096 in *; lia. Qed.

(** Writing images of the original database restores their pages. *)
Lemma write_images_restores im d :
  Forall original_image im → len orig ≤ len (database d) →
  let d' := apply_ops (map write_image im) d in
  wal d' = wal d ∧ wal_temporary d' = wal_temporary d ∧ index_exists d' = index_exists d ∧
  len (database d') = len (database d) ∧
  ∀ i x, orig !! i = Some x → database d !! i = Some x ∨ page_of i ∈ map image_page_id im →
    database d' !! i = Some x.
Proof.
  revert d. induction im as [|im0 im IH]; intros d Ho Hl.
  { split_and!; [done..|]. intros i x _ [H|H]; [done|]. by apply not_elem_of_nil in H. }
  inversion Ho as [|? ? Hi Him]; subst. pose proof (original_image_len _ Hi) as Hpl.
  destruct Hi as (Hpage & Hid & Hfit). set (d1 := apply_op (write_image im0) d).
  assert (len (database d1) = len (database d)) as Hd1.
  { cbn. rewrite write_bytes_inside; [apply len_put|change PAGE_SIZE with 4096 in *; lia|lia]. }
  destruct (IH d1 Him ltac:(lia)) as (Hw & Ht & Hx & Hlen & Hlk). cbn [map].
  change (apply_ops (write_image im0 :: map write_image im) d) with (apply_ops (map write_image im) d1).
  split_and!; [done..|congruence|].
  intros i x Hi Hor. apply (Hlk i x Hi). cbn [d1 apply_op write_image set_database database].
  rewrite write_bytes_lookup by (change PAGE_SIZE with 4096 in *; lia).
  destruct (decide (page_of i = image_page_id im0)) as [Hp|Hp].
  - left. apply page_of_range in Hp. rewrite Hpl. decide_ifs. rewrite Hpage, slice_lookup by (change PAGE_SIZE with 4096 in *; lia).
    replace (Z.of_nat (i - Z.to_nat (image_page_id im0 * PAGE_SIZE)) <? image_page_id im0 * PAGE_SIZE + PAGE_SIZE - image_page_id im0 * PAGE_SIZE)
      with true by (change PAGE_SIZE with 4096 in *; blia).
    rewrite <- Hi. f_equal. change PAGE_SIZE with 4096 in *. lia.
  - destruct Hor as [Hd|Hin].
    + left. assert ((image_page_id im0 * PAGE_SIZE <=? Z.of_nat i) && (Z.of_nat i <? image_page_id im0 * PAGE_SIZE + len (image_page im0)) = false) as ->;
        [|done]. rewrite Hpl. destruct (_ && _) eqn:E; [|done]. exfalso. apply Hp, page_of_range. lia.
    + right. cbn in Hin. apply elem_of_cons in Hin as [?|?]; [congruence|done].
Qed.

Definition restore_ops (im : list BeforeImage) : list disk_op :=
  map write_image (restore_order im) ++ [SetLen (len orig)].

(** Rollback from images that cover all bytes that differ yields the original. *)
Lemma restore_ops_original im d :
  Forall original_image im → len orig ≤ len (database d) →
  (∀ i x, orig !! i = Some x → database d !! i = Some x ∨ page_of i ∈ map image_page_id im) →
  let d' := apply_ops (restore_ops im) d in
  database d' = orig ∧ wal d' = wal d ∧ wal_temporary d' = wal_temporary d ∧ index_exists d' = index_exists d.
Proof.
  intros Ho Hl Hc. unfold restore_ops. rewrite apply_ops_app.
  destruct (write_images_restores (restore_order im) d (restore_order_original _ Ho) Hl) as (Hw & Ht & Hx & Hlen & Hlk).
  set (d1 := apply_ops (map write_image (restore_order im)) d) in *.
  cbn. split_and!; [|done..].
  apply (list_eq_same_length _ _ (length orig)); [done| |].
  - pose proof (len_set_len (database d1) (len orig) (len_nonneg _)). unfold len in *. lia.
  - intros i x y Hi Hx' Hy. assert (database d1 !! i = Some y) as Hd.
    { apply Hlk; [done|]. rewrite restore_order_ids. by apply Hc. }
    rewrite (set_len_lookup _ _ i y) in Hx' by (try done; unfold len; lia). congruence.
Qed.

(** Images of the transaction, as prefixes read back from a log. *)
Lemma prefix_original im : im `prefix_of` images → Forall original_image im.
Proof using T.
  intros [rest Hr]. pose proof (im_pages transaction_imaged) as H. rewrite Hr in H.
  apply Forall_app in H as [H _]. eapply Forall_impl; [exact H|]. cbn. unfold original_image. intros i (? & ? & ? & _). done.
Qed.

Lemma restore_ops_restoring im : Forall original_image im → Forall restoring_op (restore_ops im).
Proof.
  intros H. apply Forall_app. split; [|by apply Forall_singleton].
  apply restore_order_original in H. induction H as [|i l Hi _ IH]; [constructor|]. constructor; [|done].
  pose proof (original_image_len _ Hi) as Hp. destruct Hi as (Hpg & ? & ?). cbn.
  change PAGE_SIZE with 4096 in *. rewrite Hp. split_and!; [lia..|done].
Qed.

Lemma restore_ops_restorable im : im `prefix_of` images → Forall restorable_op (restore_ops im).
Proof using T.
  intros Hpre. pose proof (prefix_original im Hpre) as H.
  apply Forall_app. split; [|apply Forall_singleton; cbn; lia].
  assert (Forall (λ i, image_page_id i ∈ map image_page_id images) (restore_order im)) as Hin.
  { apply Forall_forall. intros i Hi. destruct Hpre as [rest Hr]. rewrite Hr, map_app, elem_of_app. left.
    apply restore_order_ids. apply list_elem_of_In, in_map. by apply list_elem_of_In. }
  apply restore_order_original in H. induction H as [|i l Hi _ IH]; [constructor|].
  inversion Hin; subst. constructor; [|by apply IH]. pose proof (original_image_len _ Hi) as Hp.
  destruct Hi as (Hpg & ? & ?). cbn. exists (image_page_id i). split_and!; [done..|].
  intros Hz k Hk. rewrite Hpg, Hz, slice_lookup by done.
  change (0 * PAGE_SIZE + PAGE_SIZE - 0 * PAGE_SIZE) with 4096. change (Z.to_nat (0 * PAGE_SIZE) + k)%nat with k.
  rewrite (proj2 (Z.ltb_lt _ _)); [done|lia].
Qed.

(** *** Crash states of an uncommitted transaction *)

Definition uncommitted (d : Disk) : Prop :=
  match wal d with
  | None => database d = orig
  | Some w =>
      wal_temporary d = None ∧
      ∃ im torn, read_wal w = Ok {| parsed_header := tx_header; before_images := im; commit := None;
                                    torn_tail := torn |} ∧
        im `prefix_of` images ∧ (database d = orig ∨ im = images ∧ rollbackable (database d))
  end.

#[local] Arguments uncommitted : simpl never.

Lemma slice_lookup_eq (b b' : list byte) lo hi :
  0 ≤ lo → hi ≤ len b → (∀ i x, b !! i = Some x → lo ≤ Z.of_nat i < hi → b' !! i = Some x) →
  slice b' lo hi = slice b lo hi.
Proof.
  intros Hlo Hle H. apply slice_eq_lookup; [done|]. intros i Hi.
  destruct (b !! i) as [x|] eqn:E; [by apply H|]. apply lookup_ge_None in E. unfold len in Hle. lia.
Qed.

Lemma rollbackable_header c :
  rollbackable c →
  ∃ page, read_page c 0 = Ok page ∧ slice page 48 64 = database_id oh ∧ len page = PAGE_SIZE.
Proof using T.
  intros [Hl _ Hid]. destruct transaction_validated as [fp V].
  pose proof (database_header_decode_layout _ _ (vd_orig_header _ V)) as (L & _ & _).
  pose proof (vd_orig_min _ V) as Ho. change PAGE_SIZE with 4096 in *.
  rewrite (read_page_ok c 0) by (change PAGE_SIZE with 4096; lia). eexists. split; [done|].
  change (0 * PAGE_SIZE) with 0. change (0 + PAGE_SIZE) with 4096. split; [|rewrite len_slice; lia].
  rewrite slice_slice by lia. change (0 + 48) with 48; change (0 + 64) with 64.
  rewrite <- (dl_database_id _ _ L). rewrite slice_slice by (change PAGE_SIZE with 4096; lia).
  change (0 + 48) with 48; change (0 + 64) with 64. apply slice_lookup_eq; [lia..|]. intros i x Hi Hr. by apply Hid.
Qed.

Lemma check_images_ok im : im `prefix_of` images → check_images im (next_page_id oh) (next_page_id oh) = Ok tt.
Proof using T.
  intros [rest Hr]. pose proof transaction_imaged as I. pose proof (im_pages I) as Hp. pose proof (io_bound _ _ (im_ok I)) as Hb.
  cbn [original_database_len tx_header] in Hb. rewrite page_count in Hb.
  rewrite Hr in Hp, Hb. apply Forall_app in Hp as [Hp _]. apply Forall_app in Hb as [Hb _]. clear Hr.
  induction Hp as [|i im (_ & _ & _ & Hc) _ IH]; [done|]. inversion Hb; subst. cbn [check_images].
  apply skip_guard; [lia|]. eapply bind_step; [|by apply IH]. unfold check_page in Hc.
  destruct (image_page_id i =? 0); [done|]. exact Hc.
Qed.

Lemma validate_images_ok im c torn page :
  im `prefix_of` images → (im = [] → page = slice orig 0 PAGE_SIZE) →
  validate_recovery_before_images {| parsed_header := tx_header; before_images := im; commit := c; torn_tail := torn |} page
  = Ok oh.
Proof using T.
  intros Hpre Hpage. destruct transaction_validated as [fp V]. destruct (vd_final_len _ V) as [_ [Hle Hlt]].
  unfold validate_recovery_before_images. cbn [before_images parsed_header].
  assert (match find_header_image im with
    | Some image => database_header_decode (image_page image)
    | None => if bool_decide (im = []) then database_header_decode page
              else Err (invalid_data "WAL before-images omit database header page 0")
    end = Ok oh) as ->.
  { destruct im as [|i im]; [cbn; rewrite Hpage by done; apply V|].
    destruct (im_first transaction_imaged) as [rest Hf]. rewrite Hf in Hpre.
    apply prefix_cons_inv_1 in Hpre as ->. cbn. apply V. }
  rewrite bind_ok. cbv zeta. apply skip_guard; [by rewrite bool_decide_eq_true_2|].
  apply skip_guard; [cbn; by rewrite Z.eqb_refl|]. unfold database_length.
  rewrite checked_mul_small by (rewrite <- (vd_orig_len _ V); lia). cbn [ok_or]. rewrite bind_ok.
  apply skip_guard; [cbn; by rewrite <- (vd_orig_len _ V), Z.eqb_refl|].
  cbn [original_database_len tx_header]. rewrite page_count, check_images_ok by done. done.
Qed.

Lemma validate_identity_ok page :
  slice page 48 64 = database_id oh → len page = PAGE_SIZE →
  validate_current_identity page (wal_database_id tx_header) = Ok tt.
Proof.
  intros Hs Hl. unfold validate_current_identity. rewrite wal_bytes_at_ok, bind_ok by (rewrite ?Hl; change PAGE_SIZE with 4096; lia).
  change (48 + 16) with 64. rewrite Hs. by rewrite bool_decide_eq_true_2.
Qed.

(** Effects on the database alone. *)
Definition database_op (op : disk_op) : Prop :=
  match op with SetLen _ | WriteDatabase _ _ | SyncDatabase => True | _ => False end.

Lemma database_ops_names ops d :
  Forall database_op ops →
  wal (apply_ops ops d) = wal d ∧ wal_temporary (apply_ops ops d) = wal_temporary d ∧
  index_exists (apply_ops ops d) = index_exists d.
Proof.
  intros H. revert d. induction H as [|op ops Ho _ IH]; intros d; [done|].
  cbn. destruct (IH (apply_op op d)) as (Hw & Ht & Hx). unfold apply_ops in *. rewrite Hw, Ht, Hx.
  by destruct op.
Qed.

Lemma write_images_database im : Forall database_op (map write_image im).
Proof. induction im; by constructor. Qed.

Lemma run_clear t o w d :
  wal d = Some w → wal_temporary d = None →
  clear_wal_with_hook t o (λ _, Ok tt) d = ([RemoveWal; SyncParent], Ok tt).
Proof.
  intros Hw Ht. unfold clear_wal_with_hook. rewrite run_get, bool_decide_eq_true_2 by (rewrite Hw; eauto).
  change [RemoveWal; SyncParent] with ([RemoveWal] ++ [SyncParent]). eapply run_bind; [by apply run_emit|].
  rewrite run_get, bool_decide_eq_false_2 by (cbn; rewrite Ht; by intros [? ?]).
  rewrite run_ret. by apply run_emit.
Qed.

(** The effects of rolling back, up to the removal of the log. *)
Lemma run_rollback im c torn d rest :
  im `prefix_of` images → wal d = Some rest → wal_temporary d = None →
  rollback_uncommitted {| parsed_header := tx_header; before_images := im; commit := c; torn_tail := torn |} (λ _, Ok tt) d
  = (restore_ops im ++ [SyncDatabase; RemoveWal; SyncParent], Ok tt).
Proof using T.
  intros Hpre Hw Ht. destruct transaction_validated as [fp V]. destruct (vd_final_len _ V) as [_ [Hle Hlt]].
  pose proof (prefix_original im Hpre) as Ho. unfold rollback_uncommitted, restore_ops, restore_order. cbv zeta.
  cbn [before_images parsed_header]. rewrite map_app, <- !app_assoc.
  assert (∀ i d, original_image i → ∀ p q (h : io_result unit), h = Ok tt →
    (_ ← write_page RecoveryPending tx p (image_page_id i) (image_page i); wrap RecoveryPending tx q h) d
    = ([write_image i], Ok tt)) as Hwrite.
  { intros i d0 (_ & Hi & Hfit) p q h ->. unfold write_page, page_offset.
    change ([write_image i]) with ([write_image i] ++ []). eapply run_bind; [|reflexivity].
    rewrite (run_wrap _ _ _ _ _ _ (image_page_id i * PAGE_SIZE)); [done|].
    by rewrite checked_mul_small by (change PAGE_SIZE with 4096 in *; lia). }
  eapply run_bind.
  { apply (run_for_each _ write_image). apply Forall_forall. intros i Hi d0. apply Hwrite; [|done].
    apply list_elem_of_In, filter_In in Hi as [Hi _]. rewrite Forall_forall in Ho. by apply Ho, list_elem_of_In. }
  eapply run_bind.
  { instantiate (1 := tt). destruct (find_header_image im) as [h|] eqn:E; [|reflexivity].
    apply find_header_image_inv in E as [Hin Hz]. rewrite Forall_forall in Ho. specialize (Ho h Hin).
    rewrite <- Hz. pose proof (Hwrite h) as Hh. rewrite Hz in *. destruct h as [hid hpage]; cbn in *. subst hid.
    by apply Hh. }
  apply run_emit. rewrite (run_wrap _ _ _ _ _ _ tt) by done. apply run_emit.
  rewrite (run_wrap _ _ _ _ _ _ tt) by done.
  match goal with |- clear_wal_with_hook _ _ _ (apply_op _ (apply_op _ (apply_ops ?l2 (apply_ops ?l1 d)))) = _ =>
    destruct (database_ops_names (l1 ++ l2) d) as (Hw' & Ht' & _);
      [apply Forall_app; split; [apply write_images_database|]|rewrite apply_ops_app in Hw', Ht'] end.
  { destruct (find_header_image im); repeat constructor. }
  apply (run_clear _ _ rest); cbn; congruence.
Qed.

Lemma run_recover_uncommitted idx w im torn d :
  wal d = Some w → wal_temporary d = None → im `prefix_of` images →
  read_wal w = Ok {| parsed_header := tx_header; before_images := im; commit := None; torn_tail := torn |} →
  database d = orig ∨ im = images ∧ rollbackable (database d) →
  recover_pending idx d = (restore_ops im ++ [SyncDatabase; RemoveWal; SyncParent], Ok tt).
Proof using T.
  intros Hw Ht Hpre Hr Hd. destruct transaction_validated as [fp V]. pose proof (vd_orig_min _ V) as Hmin.
  assert (rollbackable (database d)) as R by (destruct Hd as [-> | [_ ?]]; [apply rollbackable_orig|done]).
  destruct (rollbackable_header _ R) as (page & Hpage & Hid & Hpl).
  unfold recover_pending, recover_pending_with_hook. rewrite run_get, Hw.
  replace (restore_ops im ++ [SyncDatabase; RemoveWal; SyncParent])
    with ([] ++ (restore_ops im ++ [SyncDatabase; RemoveWal; SyncParent])) by done.
  eapply run_bind; [unfold parse_wal; by rewrite Hr|]. cbn [parsed_header before_images commit apply_ops foldl].
  pose proof (rk_len _ R) as Hl.
  replace ((len (database d) <? PAGE_SIZE) || (len (database d) <? original_database_len tx_header)) with false
    by (cbn [original_database_len tx_header]; lia).
  rewrite (run_lift _ _ _ page) by done. rewrite (run_lift _ _ _ tt) by (by apply validate_identity_ok).
  rewrite (run_lift _ _ _ oh).
  2: { apply validate_images_ok; [done|]. intros ->. destruct Hd as [Ho | [Hnil _]].
       - rewrite Ho, read_page_ok in Hpage by (change PAGE_SIZE with 4096 in *; lia). by injection Hpage as <-.
       - destruct (im_first transaction_imaged) as [rest Hf]. rewrite Hf in Hnil. done. }
  cbn [tx_header original_generation original_database_len]. rewrite Z.eqb_refl. cbn [negb]. rewrite orb_false_r.
  replace (bool_decide (im = []) && negb (len (database d) =? len orig)) with false.
  { by eapply run_rollback. }
  destruct (bool_decide_reflect (im = [])) as [->|]; [|done]. destruct Hd as [-> | [Hnil _]]; [lia|].
  destruct (im_first transaction_imaged) as [rest Hf]. rewrite Hf in Hnil. done.
Qed.

Lemma run_recover_no_wal idx d :
  wal d = None →
  recover_pending idx d = (if bool_decide (is_Some (wal_temporary d)) then [RemoveTemporary; SyncParent] else [], Ok tt).
Proof.
  intros Hw. unfold recover_pending, recover_pending_with_hook. rewrite run_get, Hw. by case_bool_decide.
Qed.

(** *** Crashes between effects *)

Definition crashes_to (P : Disk → Prop) (m : Machine) : Prop := ∀ d, crash m d → P d.

Definition database_write (op : disk_op) : Prop :=
  match op with SetLen _ | WriteDatabase _ _ => True | _ => False end.

Lemma exec_database_writes m ops :
  Forall database_write ops →
  exec_ops m ops = {| m_disk := apply_ops ops (m_disk m); m_database := m_database m;
                      m_database_pending := m_database_pending m ++ ops; m_log := m_log m;
                      m_log_pending := m_log_pending m; m_names := m_names m;
                      m_names_pending := m_names_pending m |}.
Proof.
  intros H. revert m. induction H as [|op ops Ho _ IH]; intros m; [destruct m; cbn; by rewrite app_nil_r|].
  cbn [exec_ops foldl]. unfold exec_ops in IH. rewrite IH. destruct op; try done; cbn; by rewrite <- app_assoc.
Qed.

Lemma restore_ops_writes im : Forall database_write (restore_ops im).
Proof.
  apply Forall_app. split; [|by repeat constructor]. generalize (restore_order im) as l.
  induction l; by constructor.
Qed.

Lemma uncommitted_original_wal d im torn w :
  wal d = Some w → wal_temporary d = None → im `prefix_of` images →
  read_wal w = Ok {| parsed_header := tx_header; before_images := im; commit := None; torn_tail := torn |} →
  database d = orig ∨ im = images ∧ rollbackable (database d) → uncommitted d.
Proof. intros Hw Ht Hp Hr Hd. unfold uncommitted. rewrite Hw. eauto 10. Qed.

(** A machine whose database is the original, whatever the log says. *)
Lemma crashes_original m :
  m_database m = orig → m_database_pending m = [] →
  (∀ names, names `prefix_of` m_names_pending m → has_wal (names_ops names (m_names m)) = true →
     has_temporary (names_ops names (m_names m)) = false ∧
     ∀ log, log `prefix_of` m_log_pending m → ∃ im torn, im `prefix_of` images ∧
       read_wal (m_log m ++ log) =
       Ok {| parsed_header := tx_header; before_images := im; commit := None; torn_tail := torn |}) →
  crashes_to uncommitted m.
Proof.
  intros Hd Hp Hn d Hc. destruct Hc as [db log names Hset Hlog Hnames n]. rewrite Hp, Hd in Hset.
  inversion Hset; subst. unfold uncommitted. cbn [wal wal_temporary database].
  specialize (Hn names Hnames). fold n in Hn. destruct (has_wal n); [|done].
  destruct (Hn eq_refl) as [-> Hw]. destruct (Hw log Hlog) as (im & torn & Hpre & Hr). eauto 10.
Qed.

(** Crashes while the images are being restored. *)
Lemma restore_crash d im torn w k :
  wal d = Some w → wal_temporary d = None → im `prefix_of` images →
  read_wal w = Ok {| parsed_header := tx_header; before_images := im; commit := None; torn_tail := torn |} →
  database d = orig ∨ im = images ∧ rollbackable (database d) →
  crashes_to uncommitted (exec_ops (at_rest d) (take k (restore_ops im))).
Proof using T.
  intros Hw Ht Hpre Hr Hd d' Hc. pose proof (prefix_original im Hpre) as Ho.
  rewrite exec_database_writes in Hc by (apply Forall_take, restore_ops_writes).
  inversion Hc as [db log names Hset Hlog Hnames n]; subst; clear Hc. cbn in *.
  apply prefix_nil_inv in Hlog as ->. apply prefix_nil_inv in Hnames as ->. subst n. cbn in *.
  rewrite Hw, Ht, app_nil_r. cbn. eapply (uncommitted_original_wal _ im torn w); try done. cbn.
  pose proof (Forall_take _ k _ (restore_ops_restoring im Ho)) as H1.
  pose proof (Forall_take _ k _ (restore_ops_restorable im Hpre)) as H2.
  destruct Hd as [Hd | [Him R]].
  - left. rewrite Hd in Hset. by eapply settles_restoring.
  - right. split; [done|]. by eapply settles_rollbackable.
Qed.

(** Rollback of a disk with images that cover its changes. *)
Lemma restore_uncommitted d im :
  im `prefix_of` images → database d = orig ∨ im = images ∧ rollbackable (database d) →
  let d' := apply_ops (restore_ops im) d in
  database d' = orig ∧ wal d' = wal d ∧ wal_temporary d' = wal_temporary d ∧ index_exists d' = index_exists d.
Proof using T.
  intros Hpre Hd. apply restore_ops_original; [by apply prefix_original| |].
  - destruct Hd as [-> | [_ []]]; lia.
  - intros i x Hi. destruct Hd as [-> | [-> R]]; [by left|].
    destruct (decide (page_of i ∈ map image_page_id images)); [by right|left]. by apply R.
Qed.

(** Recovery of an uncommitted transaction can itself crash anywhere. *)
Lemma recover_uncommitted_always idx d :
  uncommitted d → always (crashes_to uncommitted) (at_rest d) (fst (recover_pending idx d)).
Proof using T.
  intros U. unfold uncommitted in U. destruct (wal d) as [w|] eqn:Hw.
  - destruct U as (Ht & im & torn & Hr & Hpre & Hd).
    rewrite (run_recover_uncommitted idx w im torn d) by done. cbn [fst].
    destruct (restore_uncommitted d im Hpre Hd) as (Hdb & Hwal & Htmp & Hx).
    apply always_app; [intros k; by eapply restore_crash|].
    apply always_cons; [|rewrite exec_database_writes by apply restore_ops_writes;
      apply always_cons; [|apply always_cons; [|apply always_nil]]].
    + rewrite <- (take_ge (restore_ops im) (length (restore_ops im))) by lia. by eapply restore_crash.
    + apply crashes_original; cbn; [done..|]. rewrite Hw, Ht. cbn. intros names ->%prefix_nil_inv _.
      split; [done|]. intros log ->%prefix_nil_inv. rewrite app_nil_r. eauto.
    + apply crashes_original; cbn; [done..|]. rewrite Hw, Ht. cbn. intros names [-> | ->]%prefix_one; [|done].
      intros _. split; [done|]. intros log ->%prefix_nil_inv. rewrite app_nil_r. eauto.
    + apply crashes_original; cbn; [done..|]. rewrite Hw, Ht. cbn. by intros names ->%prefix_nil_inv.
  - rewrite run_recover_no_wal by done. cbn [fst].
    case_bool_decide as Htmp; [apply always_cons; [|apply always_cons; [|apply always_nil]]|apply always_nil].
    all: apply crashes_original; cbn; try done; rewrite Hw; cbn; intros names Hn Hwal; exfalso; revert Hwal.
    2: by apply prefix_one in Hn as [-> | ->].
    all: by apply prefix_nil_inv in Hn as ->.
Qed.

(** Recovery of an uncommitted transaction succeeds and restores the original. *)
Lemma recover_uncommitted_result idx d :
  uncommitted d →
  ∃ ops, recover_pending idx d = (ops, Ok tt) ∧
    let d' := apply_ops ops d in
    database d' = orig ∧ wal d' = None ∧ wal_temporary d' = None ∧ index_exists d' = index_exists d.
Proof using T.
  intros U. unfold uncommitted in U. destruct (wal d) as [w|] eqn:Hw.
  - destruct U as (Ht & im & torn & Hr & Hpre & Hd). eexists. split; [by eapply run_recover_uncommitted|].
    destruct (restore_uncommitted d im Hpre Hd) as (Hdb & Hwal & Htmp & Hx).
    rewrite apply_ops_app. cbn. rewrite Hdb, Htmp, Hx. done.
  - rewrite run_recover_no_wal by done. eexists. split; [done|]. cbv zeta.
    destruct (wal_temporary d) as [t|] eqn:Ht; cbn; rewrite ?bool_decide_eq_true_2, ?bool_decide_eq_false_2 by eauto; cbn;
      rewrite ?U, ?Hw, ?Ht; done.
Qed.

(** *** The committed database *)

Definition write_prepared (p : Z * list byte) : disk_op := WriteDatabase (p.1 * PAGE_SIZE) p.2.

Definition write_ops : list disk_op := SetLen final_length :: map write_prepared ordered.

Definition final_database : list byte :=
  foldl (λ c p, write_bytes c (p.1 * PAGE_SIZE) p.2) (set_len orig final_length) ordered.

Lemma apply_write_prepared pages d :
  apply_ops (map write_prepared pages) d =
  set_database d (foldl (λ c p, write_bytes c (p.1 * PAGE_SIZE) p.2) (database d) pages).
Proof. revert d. induction pages as [|p pages IH]; intros d; [by destruct d|]. cbn. unfold apply_ops in IH. by rewrite IH. Qed.

(** Writing pages in place installs them and leaves other pages alone. *)
Lemma write_pages_effect pages c :
  Forall (λ p, 0 ≤ p.1 ∧ p.1 * PAGE_SIZE + PAGE_SIZE ≤ len c ∧ len p.2 = PAGE_SIZE) pages → NoDup (map fst pages) →
  let c' := foldl (λ c p, write_bytes c (p.1 * PAGE_SIZE) p.2) c pages in
  len c' = len c ∧
  (∀ i, page_of i ∉ map fst pages → c' !! i = c !! i) ∧
  (∀ p, p ∈ pages → slice c' (p.1 * PAGE_SIZE) (p.1 * PAGE_SIZE + PAGE_SIZE) = p.2).
Proof.
  revert c. induction pages as [|[id page] pages IH]; intros c Hf Hn.
  { split_and!; [done..|]. intros p Hp. by apply not_elem_of_nil in Hp. }
  inversion Hf as [|? ? (Hid & Hfit & Hpl) Hf']; subst. cbn [fst snd] in *.
  apply NoDup_cons in Hn as [Hnot Hn]. cbn [foldl fst snd].
  set (c1 := write_bytes c (id * PAGE_SIZE) page).
  assert (len c1 = len c) as Hl1.
  { unfold c1. rewrite write_bytes_inside; [apply len_put|change PAGE_SIZE with 4096 in *; lia|lia]. }
  assert (∀ i, page_of i ≠ id → c1 !! i = c !! i) as Hother.
  { intros i Hi. unfold c1. rewrite write_bytes_lookup by (change PAGE_SIZE with 4096 in *; lia). rewrite Hpl.
    destruct (_ && _) eqn:E; [|done]. exfalso. apply Hi, page_of_range. lia. }
  destruct (IH c1) as (Hl & Hout & Hin); [by rewrite Hl1|done|]. split_and!; [congruence| |].
  - intros i Hi. rewrite Hout by (intros ?; apply Hi; by right). apply Hother. intros <-. apply Hi. by left.
  - intros p Hp. apply elem_of_cons in Hp as [-> | Hp]; [|by apply Hin]. cbn [fst snd].
    transitivity (slice c1 (id * PAGE_SIZE) (id * PAGE_SIZE + PAGE_SIZE)).
    + apply slice_eq_lookup; [change PAGE_SIZE with 4096 in *; lia|]. intros i Hi. apply Hout.
      apply page_of_range in Hi. by rewrite Hi.
    + unfold c1. rewrite write_bytes_inside by (change PAGE_SIZE with 4096 in *; lia).
      apply slice_put_same; change PAGE_SIZE with 4096 in *; lia.
Qed.

Record final_facts : Prop := {
  ff_len : len final_database = final_length;
  ff_pages : ∀ id page, (id, page) ∈ ordered →
    slice final_database (id * PAGE_SIZE) (id * PAGE_SIZE + PAGE_SIZE) = page;
  ff_rest : ∀ id, 0 ≤ id < next_page_id oh → id ∉ map fst ordered →
    slice final_database (id * PAGE_SIZE) (id * PAGE_SIZE + PAGE_SIZE) =
    slice orig (id * PAGE_SIZE) (id * PAGE_SIZE + PAGE_SIZE);
}.

Lemma transaction_final : final_facts.
Proof using T.
  destruct transaction_validated as [fp V]. destruct (vd_final_len _ V) as [Hfl [Hle Hlt]].
  pose proof (len_nonneg orig). pose proof (len_set_len orig final_length ltac:(lia)) as Hsl.
  destruct (write_pages_effect ordered (set_len orig final_length)) as (Hl & Hout & Hin).
  { rewrite Hsl. pose proof (tr_pages _ _ _ _ _ _ _ T) as Hp. pose proof (vd_bounds _ V) as Hb.
    rewrite Forall_forall in *. intros p Hpin. destruct (Hp p Hpin) as [[] ?]. specialize (Hb p Hpin). cbn in Hb.
    change PAGE_SIZE with 4096 in *. lia. }
  { by apply increasing_ids_nodup, (tr_increasing _ _ _ _ _ _ _ T). }
  constructor; unfold final_database.
  - by rewrite Hl.
  - intros id page Hp. by apply (Hin (id, page)).
  - intros id Hid Hnot. pose proof (vd_orig_len _ V). apply slice_lookup_eq; [change PAGE_SIZE with 4096 in *; lia..|].
    intros i x Hi Hr. rewrite Hout by (by rewrite (proj2 (page_of_range i id) Hr)).
    apply set_len_lookup; [done|]. apply lookup_lt_Some in Hi. unfold len in *. lia.
Qed.

(** The commit record of the transaction. *)
Definition tx_commit : CommitRecord :=
  {| commit_transaction_id := tx; new_generation := generation fh; commit_database_length := final_length;
     commit_header_crc32 :=
       match database_header_crc32 (default [] (snd <$> head ordered)) with Ok c => c | Err _ => 0 end |}.

(** The new header page, its checksum, and where it lies. *)
Lemma final_header_page :
  ∃ page, slice final_database 0 PAGE_SIZE = page ∧ snd <$> head ordered = Some page ∧
    database_header_decode page = Ok fh ∧ len page = PAGE_SIZE ∧ slice page 48 64 = database_id oh ∧
    database_header_crc32 page = Ok (commit_header_crc32 tx_commit) ∧ is_u32 (commit_header_crc32 tx_commit).
Proof using T.
  destruct transaction_validated as [fp V]. destruct (vd_first _ V) as [rest Ho].
  pose proof (database_header_decode_layout _ _ (vd_final_header _ V)) as (L & _ & _).
  pose proof (dl_len _ _ L) as Hl. exists fp.
  assert (snd <$> head ordered = Some fp) as Hh by (by rewrite Ho).
  assert (database_header_crc32 fp = Ok (le_combine (slice fp 72 76))) as Hcrc.
  { unfold database_header_crc32, wal_read_u32. rewrite wal_bytes_at_ok; [done|..]; rewrite ?Hl;
      change PAGE_SIZE with 4096; lia. }
  split_and!; try done.
  - rewrite <- (ff_pages transaction_final 0 fp) by (rewrite Ho; left). done.
  - apply V.
  - rewrite (dl_database_id _ _ L). apply V.
  - cbn [commit_header_crc32 tx_commit]. rewrite Hh. cbn [default from_option id]. by rewrite Hcrc.
  - cbn [commit_header_crc32 tx_commit]. rewrite Hh. cbn [default from_option id]. rewrite Hcrc.
    apply (le_combine_fits 4). rewrite len_slice; rewrite ?Hl; change PAGE_SIZE with 4096; lia.
Qed.

Lemma tx_commit_ok : commit_ok tx_header tx_commit.
Proof using T.
  destruct transaction_validated as [fp V]. destruct (vd_final_len _ V) as [Hfl [Hle Hlt]].
  destruct final_header_page as (page & _ & _ & Hd & _ & _ & _ & Hcrc).
  pose proof (database_header_decode_layout _ _ Hd) as (_ & W & Vf). destruct W.
  unfold validate_database_header in Vf. bind_inv. pose proof (vd_orig_min _ V). destruct T as [[] _ _ _ _ _].
  constructor; [constructor|done|apply V]; cbn [tx_commit commit_transaction_id new_generation commit_database_length]; try done.
  - split; [done|lia].
  - split; [unfold fits; pose proof (len_nonneg orig); change PAGE_SIZE with 4096 in *; lia|]. split; [lia|]. rewrite Hfl. apply Z.mod_mul. done.
Qed.

(** Crash states of a committed transaction; [idx] says whether the path of the
    sorted index is the path of the database. *)
Definition committed (idx : bool) (d : Disk) : Prop :=
  database d = final_database ∧
  match wal d with
  | None => idx = false → index_exists d = false
  | Some w =>
      wal_temporary d = None ∧
      read_wal w = Ok {| parsed_header := tx_header; before_images := images; commit := Some tx_commit;
                         torn_tail := false |}
  end.

#[local] Arguments committed : simpl never.

(** The effects of removing the sorted index. *)
Definition index_ops (idx present : bool) : list disk_op :=
  if idx then [] else if present then [RemoveIndex; SyncParent] else [].

Lemma run_invalidate idx d : invalidate_sorted_index idx d = (index_ops idx (index_exists d), Ok tt).
Proof.
  unfold invalidate_sorted_index, index_ops. destruct idx; [done|]. rewrite run_get.
  destruct (index_exists d); done.
Qed.

Lemma index_ops_disk idx d :
  apply_ops (index_ops idx (index_exists d)) d =
  {| database := database d; wal := wal d; wal_temporary := wal_temporary d;
     index_exists := if idx then index_exists d else false |}.
Proof. destruct d as [? ? ? []], idx; done. Qed.

Lemma run_recover_committed idx w d :
  wal d = Some w → wal_temporary d = None → database d = final_database →
  read_wal w = Ok {| parsed_header := tx_header; before_images := images; commit := Some tx_commit; torn_tail := false |} →
  recover_pending idx d = (index_ops idx (index_exists d) ++ [RemoveWal; SyncParent], Ok tt).
Proof using T.
  intros Hw Ht Hdb Hr. destruct transaction_validated as [fp V]. destruct (vd_final_len _ V) as [Hfl [Hle Hlt]].
  pose proof (vd_orig_min _ V) as Hmin. pose proof (ff_len transaction_final) as Hl.
  destruct final_header_page as (page & Hs & _ & Hdec & Hpl & Hid & Hcrc & _).
  unfold recover_pending, recover_pending_with_hook. rewrite run_get, Hw.
  change (index_ops idx (index_exists d) ++ [RemoveWal; SyncParent])
    with ([] ++ (index_ops idx (index_exists d) ++ [RemoveWal; SyncParent])).
  eapply run_bind; [unfold parse_wal; by rewrite Hr|]. cbn [parsed_header before_images commit apply_ops foldl].
  rewrite Hdb. replace ((len final_database <? PAGE_SIZE) || (len final_database <? original_database_len tx_header)) with false
    by (cbn [original_database_len tx_header]; lia).
  rewrite (run_lift _ _ _ page).
  2: { rewrite read_page_ok by (change PAGE_SIZE with 4096 in *; lia). f_equal. exact Hs. }
  rewrite (run_lift _ _ _ tt) by (by apply validate_identity_ok).
  rewrite (run_lift _ _ _ oh).
  2: { apply validate_images_ok; [done|]. intros Hnil. destruct (im_first transaction_imaged) as [rest Hf].
       rewrite Hf in Hnil. done. }
  rewrite (run_lift _ _ _ tt).
  - eapply run_bind; [apply run_invalidate|]. rewrite index_ops_disk. by eapply run_clear.
  - unfold validate_committed_database. cbn [torn_tail parsed_header].
    apply skip_guard; [cbn; lia|]. rewrite Hdec, bind_ok. apply skip_guard; [|].
    { cbn. rewrite bool_decide_eq_true_2; [done|apply V]. }
    apply skip_guard; [cbn; by rewrite Z.eqb_refl|]. unfold database_length.
    rewrite checked_mul_small by lia. cbn [ok_or]. rewrite bind_ok. apply skip_guard; [cbn; lia|].
    rewrite Hcrc, bind_ok. apply skip_guard; [by rewrite Z.eqb_refl|done].
Qed.

(** A machine whose database is the committed one and whose log, while it has
    a name, holds the commit. *)
Lemma crashes_committed idx m :
  m_database m = final_database → m_database_pending m = [] → m_log_pending m = [] →
  (∀ names, names `prefix_of` m_names_pending m →
     let n := names_ops names (m_names m) in
     if has_wal n then has_temporary n = false ∧ read_wal (m_log m) =
       Ok {| parsed_header := tx_header; before_images := images; commit := Some tx_commit; torn_tail := false |}
     else idx = false → has_index n = false) →
  crashes_to (committed idx) m.
Proof.
  intros Hd Hp Hl Hn d Hc. destruct Hc as [db log names Hset Hlog Hnames n]. rewrite Hp, Hd in Hset.
  rewrite Hl in Hlog. apply prefix_nil_inv in Hlog as ->. inversion Hset; subst. unfold committed.
  cbn [wal wal_temporary database index_exists]. split; [done|].
  specialize (Hn names Hnames). fold n in Hn. cbv zeta in Hn. rewrite app_nil_r.
  destruct (has_wal n); [|done]. destruct Hn as [-> Hr]. done.
Qed.

(** The clean-up after a commit: the index goes first, then the log. *)
Lemma cleanup_always idx m :
  m_database m = final_database → m_database_pending m = [] → m_log_pending m = [] → m_names_pending m = [] →
  has_wal (m_names m) = true → has_temporary (m_names m) = false → has_index (m_names m) = index_exists (m_disk m) →
  read_wal (m_log m) = Ok {| parsed_header := tx_header; before_images := images; commit := Some tx_commit; torn_tail := false |} →
  always (crashes_to (committed idx)) m (index_ops idx (index_exists (m_disk m)) ++ [RemoveWal; SyncParent]).
Proof.
  intros Hd Hp Hl Hn Hw Ht Hx Hr. destruct m as [d db pdb lg plg [nw nt ni] pn]; cbn in *. subst.
  apply always_app.
  - unfold index_ops. destruct idx; [apply always_nil|destruct (index_exists d); [|apply always_nil]].
    all: repeat apply always_cons; try apply always_nil; apply crashes_committed; cbn; try done.
    all: intros names Hn; first [apply prefix_nil_inv in Hn as -> | apply prefix_one in Hn as [-> | ->]]; done.
  - assert (exec_ops {| m_disk := d; m_database := final_database; m_database_pending := []; m_log := lg;
                        m_log_pending := []; m_names := {| has_wal := true; has_temporary := false; has_index := index_exists d |};
                        m_names_pending := [] |} (index_ops idx (index_exists d)) =
            {| m_disk := apply_ops (index_ops idx (index_exists d)) d; m_database := final_database;
               m_database_pending := []; m_log := lg; m_log_pending := [];
               m_names := {| has_wal := true; has_temporary := false;
                             has_index := if idx then index_exists d else false |};
               m_names_pending := [] |}) as ->.
    { unfold index_ops. destruct idx; [done|]. destruct (index_exists d) eqn:E; done. }
    repeat apply always_cons; try apply always_nil; apply crashes_committed; cbn; try done.
    + by intros names ->%prefix_nil_inv.
    + intros names [-> | ->]%prefix_one; [done|]. cbn. by intros ->.
    + intros names ->%prefix_nil_inv. cbn. by intros ->.
Qed.

Lemma recover_committed_always idx d :
  committed idx d → always (crashes_to (committed idx)) (at_rest d) (fst (recover_pending idx d)).
Proof using T.
  intros C. unfold committed in C. destruct C as [Hdb C]. destruct (wal d) as [w|] eqn:Hw.
  - destruct C as [Ht Hr]. rewrite (run_recover_committed idx w d) by done. cbn [fst].
    apply (cleanup_always idx (at_rest d)); cbn; rewrite ?Hw, ?Ht; done.
  - rewrite run_recover_no_wal by done. cbn [fst].
    case_bool_decide as Htmp; [apply always_cons; [|apply always_cons; [|apply always_nil]]|apply always_nil].
    all: apply crashes_committed; cbn; try done; rewrite Hw; cbn; intros names Hn.
    2: by apply prefix_one in Hn as [-> | ->].
    all: by apply prefix_nil_inv in Hn as ->.
Qed.

Lemma recover_committed_result idx d :
  committed idx d →
  ∃ ops, recover_pending idx d = (ops, Ok tt) ∧
    let d' := apply_ops ops d in
    database d' = final_database ∧ wal d' = None ∧ wal_temporary d' = None ∧
    (idx = false → index_exists d' = false).
Proof using T.
  intros [Hdb C]. destruct (wal d) as [w|] eqn:Hw.
  - destruct C as [Ht Hr]. eexists. split; [by eapply run_recover_committed|].
    rewrite apply_ops_app, index_ops_disk. cbn. rewrite Hdb, Ht. split_and!; try done. by intros ->.
  - rewrite run_recover_no_wal by done. eexists. split; [done|]. cbv zeta.
    destruct (wal_temporary d) as [t|] eqn:Ht; cbn; rewrite ?bool_decide_eq_true_2, ?bool_decide_eq_false_2 by eauto; cbn;
      rewrite ?Hdb, ?Hw, ?Ht; done.
Qed.

(** *** The effects of a commit *)

Definition append_image (i : BeforeImage) : disk_op := AppendWal (image_record i).

Definition activate_ops (hb : list byte) : list disk_op :=
  [CreateTemporary; WriteTemporary hb; SyncTemporary; ActivateWal; SyncParent].

Definition commit_ops (idx : bool) (hb : list byte) (index : bool) : list disk_op :=
  activate_ops hb ++ map append_image images ++ [SyncWal] ++ write_ops ++
  [SyncDatabase; AppendWal (commit_record tx_commit); SyncWal] ++ index_ops idx index ++ [RemoveWal; SyncParent].

Lemma image_record_encoded i : image_wf i → before_image_encode_record i = Ok (image_record i).
Proof. intros W. unfold image_record. by destruct (before_image_encode_layout i W) as (b & -> & _). Qed.

Lemma commit_record_encoded c : commit_encode_record c = Ok (commit_record c).
Proof. unfold commit_record. by destruct (commit_encode_layout c) as (b & -> & _). Qed.

Lemma append_images_disk l d :
  apply_ops (map append_image l) d =
  set_wal d ((λ w, w ++ concat (map image_record l)) <$> wal d) (wal_temporary d).
Proof.
  revert d. induction l as [|i l IH]; intros d.
  { destruct d as [? [?|] ? ?]; cbn; by rewrite ?app_nil_r. }
  cbn. unfold apply_ops in IH. rewrite IH. destruct d as [? [?|] ? ?]; cbn; by rewrite ?app_assoc.
Qed.

Lemma index_ops_wal idx present d :
  wal (apply_ops (index_ops idx present) d) = wal d ∧
  wal_temporary (apply_ops (index_ops idx present) d) = wal_temporary d.
Proof. by destruct idx, present. Qed.

Lemma run_commit_activated idx d w :
  wal d = Some w → wal_temporary d = None →
  commit_activated idx (λ _, Ok tt) tx final_length fh images ordered d =
  (SyncParent :: map append_image images ++ [SyncWal] ++ write_ops ++
   [SyncDatabase; AppendWal (commit_record tx_commit); SyncWal] ++ index_ops idx (index_exists d) ++ [RemoveWal; SyncParent], Ok tt).
Proof using T.
  intros Hw Ht. destruct transaction_validated as [fp V]. destruct (vd_final_len _ V) as [Hfl [Hle Hlt]].
  unfold commit_activated. cbv zeta. apply run_emit. rewrite (run_wrap _ _ _ _ _ _ tt) by done.
  eapply run_bind.
  { apply (run_for_each _ append_image). eapply Forall_impl; [exact (io_wf _ _ (im_ok transaction_imaged))|].
    intros i W d0. by rewrite (run_wrap _ _ _ _ _ _ (image_record i)) by (by apply image_record_encoded). }
  rewrite append_images_disk. apply run_emit. rewrite (run_wrap _ _ _ _ _ _ tt) by done. apply run_emit.
  eapply run_bind.
  { apply (run_for_each _ write_prepared). pose proof (vd_bounds _ V) as Hb.
    pose proof (tr_pages _ _ _ _ _ _ _ T) as Hp. rewrite Forall_forall in *. intros [id page] Hin d0.
    specialize (Hb _ Hin). specialize (Hp _ Hin). cbn in Hb, Hp. unfold write_page, page_offset.
    rewrite (run_wrap _ _ _ _ _ _ (id * PAGE_SIZE)); [done|].
    rewrite checked_mul_small; [done|]. change PAGE_SIZE with 4096 in *. lia. }
  rewrite apply_write_prepared. rewrite (run_wrap _ _ _ _ _ _ tt) by done. apply run_emit.
  rewrite (run_wrap _ _ _ _ _ _ tt) by done.
  destruct final_header_page as (page & _ & Hh & _ & _ & _ & Hcrc & _).
  rewrite (run_wrap _ _ _ _ _ _ page) by (by rewrite Hh).
  rewrite (run_wrap _ _ _ _ _ _ (commit_header_crc32 tx_commit)) by done.
  rewrite (run_wrap _ _ _ _ _ _ (commit_record tx_commit)) by (apply (commit_record_encoded tx_commit)).
  apply run_emit. rewrite (run_wrap _ _ _ _ _ _ tt) by done. apply run_emit.
  rewrite (run_wrap _ _ _ _ _ _ tt) by done. cbn [apply_op set_wal set_database wal index_exists wal_temporary database].
  eapply run_bind; [rewrite run_invalidate; done|]. cbn [index_exists]. 
  change [RemoveWal; SyncParent] with ([RemoveWal; SyncParent] ++ []).
  eapply run_bind; [|done].
  match goal with |- clear_wal _ _ (apply_ops (index_ops ?i ?p) ?dd) = _ =>
    destruct (index_ops_wal i p dd) as [Hw' Ht'] end.
  eapply run_clear; [rewrite Hw'|rewrite Ht']; cbn; [by rewrite Hw|by rewrite Ht].
Qed.

Lemma run_commit idx uuid d :
  wal d = None → wal_temporary d = None → database d = orig → tx = new_transaction_id uuid →
  ∃ hb, wal_header_decode hb = Ok tx_header ∧
    commit_ordered_page_refs idx uuid ordered d = (commit_ops idx hb (index_exists d), Ok tt).
Proof using T.
  intros Hw Ht Hdb Htx. destruct transaction_header as (hb & He & Hd). exists hb. split; [done|].
  unfold commit_ordered_page_refs. rewrite (tr_increasing _ _ _ _ _ _ _ T). cbn [negb].
  unfold commit_ordered_page_refs_with_hook. rewrite bool_decide_eq_false_2.
  2: { destruct transaction_validated as [fp V]. destruct (vd_first _ V) as [rest ->]. done. }
  rewrite run_get, Hw, Ht. cbn [bool_decide orb].
  replace (bool_decide (is_Some (@None (list byte))) || bool_decide (is_Some (@None (list byte)))) with false
    by (by rewrite bool_decide_eq_false_2 by (by intros [? ?])).
  rewrite Hdb, (run_lift _ _ _ (oh, fh, final_length)) by apply (tr_valid _ _ _ _ _ _ _ T).
  rewrite (run_lift _ _ _ images) by apply (tr_images _ _ _ _ _ _ _ T).
  rewrite <- Htx. fold tx_header. apply run_emit. rewrite (run_lift _ _ _ hb) by done.
  apply run_emit. apply run_emit. rewrite (run_lift _ _ _ tt) by done. apply run_emit.
  match goal with |- _ ?dd = _ => exact (run_commit_activated idx dd hb eq_refl eq_refl) end.
Qed.

(** Appending the before-images to the log. *)
Lemma exec_append_images l m :
  exec_ops m (map append_image l) =
  {| m_disk := apply_ops (map append_image l) (m_disk m); m_database := m_database m;
     m_database_pending := m_database_pending m; m_log := m_log m;
     m_log_pending := m_log_pending m ++ concat (map image_record l); m_names := m_names m;
     m_names_pending := m_names_pending m |}.
Proof.
  revert m. induction l as [|i l IH]; intros m; [destruct m; cbn; by rewrite app_nil_r|].
  cbn [map exec_ops foldl]. unfold exec_ops in IH. rewrite IH. cbn. by rewrite <- app_assoc.
Qed.

Lemma write_ops_restorable : Forall restorable_op write_ops.
Proof using T.
  destruct transaction_validated as [fp V]. destruct (vd_final_len _ V) as [Hfl [Hle Hlt]].
  constructor; [done|]. destruct (vd_first _ V) as [rest Ho].
  pose proof (tr_pages _ _ _ _ _ _ _ T) as Hp. apply Forall_map. rewrite Forall_forall in *. intros [id page] Hin.
  destruct (Hp _ Hin) as [[Hid _] Hl]. cbn [fst snd] in *. exists id. split_and!; [done..| |].
  - intros Hlt'. apply (im_ids transaction_imaged). split; [|done].
    apply list_elem_of_In, in_map_iff. exists (id, page). split; [done|]. by apply list_elem_of_In.
  - intros -> i Hi. assert (page = fp) as ->.
    { pose proof (ff_pages transaction_final 0 page Hin) as E1.
      rewrite (ff_pages transaction_final 0 fp) in E1; [done|]. rewrite Ho. left. }
    pose proof (database_header_decode_layout _ _ (vd_final_header _ V)) as (Lf & _ & _).
    pose proof (database_header_decode_layout _ _ (vd_orig_header _ V)) as (Lo & _ & _).
    pose proof (dl_database_id _ _ Lf) as Ef. pose proof (dl_database_id _ _ Lo) as Eo.
    rewrite (vd_identity _ V), <- Eo, slice_slice in Ef by (change PAGE_SIZE with 4096; lia).
    change (0 + 48) with 48 in Ef. change (0 + 64) with 64 in Ef.
    assert (slice fp 48 64 !! (i - 48)%nat = slice orig 48 64 !! (i - 48)%nat) as E by (by rewrite Ef).
    rewrite !slice_lookup in E by done. replace (Z.of_nat (i - 48) <? 64 - 48) with true in E by blia.
    by replace (Z.to_nat 48 + (i - 48))%nat with i in E by lia.
Qed.

(** *** Crashes during a commit *)

Lemma log_fits hb s :
  wal_header_decode hb = Ok tx_header →
  s `prefix_of` concat (map image_record images) ++ commit_record tx_commit → len (hb ++ s) < 2 ^ 64.
Proof using T.
  intros Hh Hp. pose proof transaction_imaged as I. pose proof (im_count I) as Hc.
  pose proof (len_image_records _ (io_wf _ _ (im_ok I))) as Hi. pose proof (commit_record_len tx_commit) as Hcl.
  apply prefix_length in Hp. rewrite length_app in Hp. pose proof (wal_header_decode_len _ _ Hh).
  pose proof (tr_small _ _ _ _ _ _ _ T). rewrite len_app. unfold len in *. lia.
Qed.

(** A machine that holds the original database, durable or being overwritten,
    and a synced log of all before-images. *)
Definition logging (hb : list byte) (d : Disk) (db : list byte) (ops : list disk_op) (log pending : list byte) (index : bool)
    : Machine :=
  {| m_disk := d; m_database := db; m_database_pending := ops; m_log := hb ++ log; m_log_pending := pending;
     m_names := {| has_wal := true; has_temporary := false; has_index := index |}; m_names_pending := [] |}.

Lemma crash_activate hb d :
  wal_header_decode hb = Ok tx_header → database d = orig → wal d = None → wal_temporary d = None →
  always (crashes_to uncommitted) (at_rest d) (activate_ops hb) ∧
  exec_ops (at_rest d) (activate_ops hb) =
    logging hb (apply_ops (activate_ops hb) d) orig [] [] [] (index_exists d).
Proof using T.
  intros Hh Hdb Hw Ht. split.
  - assert (∃ torn, read_wal hb = Ok {| parsed_header := tx_header; before_images := []; commit := None; torn_tail := torn |})
      as [torn Hr].
    { pose proof (read_wal_images_prefix hb tx_header [] []) as E. rewrite app_nil_r, take_nil in E.
      eexists. apply E; [done|by constructor; constructor|done|]. rewrite <- (app_nil_r hb). apply log_fits; [done|apply prefix_nil]. }
    unfold activate_ops. repeat apply always_cons; try apply always_nil; apply crashes_original; cbn; rewrite ?Hdb, ?Hw, ?Ht; try done.
    all: cbn; intros names Hn.
    all: try (by apply prefix_nil_inv in Hn as ->). all: try (by apply prefix_one in Hn as [-> | ->]).
    + destruct names as [|o1 names]; [done|]. apply prefix_cons_inv_1 in Hn as Ho. apply prefix_cons_inv_2 in Hn.
      apply prefix_one in Hn as [-> | ->]; subst o1; [done|]. intros _. split; [done|].
      intros log ->%prefix_nil_inv. rewrite app_nil_r. exists [], torn. split; [apply prefix_nil|done].
    + apply prefix_nil_inv in Hn as ->. intros _. split; [done|].
      intros log ->%prefix_nil_inv. rewrite app_nil_r. exists [], torn. split; [apply prefix_nil|done].
  - unfold activate_ops, logging, at_rest. cbn. by rewrite ?Hdb, ?Hw, ?Ht, ?app_nil_r.
Qed.

Lemma crash_append hb d index :
  wal_header_decode hb = Ok tx_header →
  always (crashes_to uncommitted) (logging hb d orig [] [] [] index) (map append_image images ++ [SyncWal]) ∧
  exec_ops (logging hb d orig [] [] [] index) (map append_image images ++ [SyncWal]) =
    logging hb (apply_ops (map append_image images ++ [SyncWal]) d) orig [] (concat (map image_record images)) [] index.
Proof using T.
  intros Hh. pose proof (im_ok transaction_imaged) as I.
  assert (∀ l s, l `prefix_of` images → s `prefix_of` concat (map image_record l) → ∃ im torn, im `prefix_of` images ∧
    read_wal (hb ++ s) = Ok {| parsed_header := tx_header; before_images := im; commit := None; torn_tail := torn |}) as Hread.
  { intros l s [rest Hl] Hs. eexists (take _ images), _. split; [apply prefix_take|]. apply read_wal_images_prefix; [done..| |].
    - rewrite Hl, map_app, concat_app. by apply prefix_app_r.
    - apply log_fits; [done|]. rewrite Hl, map_app, concat_app. by do 2 apply prefix_app_r.
    }
  split; [apply always_app|].
  - intros k. rewrite firstn_map, exec_append_images. apply crashes_original; cbn; try done.
    intros names ->%prefix_nil_inv _. split; [done|]. intros log Hlog. rewrite app_nil_r.
    eapply (Hread (take k images)); [apply prefix_take|done].
  - rewrite exec_append_images. apply always_cons; [|apply always_nil]; apply crashes_original; cbn; try done;
      intros names ->%prefix_nil_inv _; (split; [done|]); intros log Hlog; rewrite app_nil_r.
    + by apply (Hread images).
    + apply prefix_nil_inv in Hlog as ->. rewrite app_nil_r. by apply (Hread images).
  - rewrite exec_ops_app, exec_append_images. unfold logging. cbn. rewrite app_nil_r. f_equal.
    rewrite apply_ops_app. done.
Qed.

(** Completing all writes is one way to settle them. *)
Lemma settles_written pages c :
  Forall (λ p, 0 ≤ p.1 ∧ p.1 * PAGE_SIZE + PAGE_SIZE ≤ len c ∧ len p.2 = PAGE_SIZE) pages →
  settles (map write_prepared pages) c (foldl (λ c p, write_bytes c (p.1 * PAGE_SIZE) p.2) c pages).
Proof.
  revert c. induction pages as [|[id page] pages IH]; intros c Hf; [constructor|].
  inversion Hf as [|? ? (Hid & Hfit & Hpl) Hf']; subst. cbn [map foldl fst snd] in *.
  eapply settles_torn; [apply (torn_write_done c (id * PAGE_SIZE) page); change PAGE_SIZE with 4096 in *; lia|]. apply IH.
  rewrite write_bytes_inside, len_put; [done|change PAGE_SIZE with 4096 in *; lia..].
Qed.

Lemma rollbackable_final : rollbackable final_database.
Proof using T.
  destruct transaction_validated as [fp V]. destruct (vd_final_len _ V) as [Hfl [Hle Hlt]]. pose proof (len_nonneg orig).
  eapply settles_rollbackable; [apply write_ops_restorable|apply rollbackable_orig|].
  eapply settles_torn; [apply torn_set_len_done; lia|]. apply settles_written. rewrite len_set_len by lia.
  pose proof (tr_pages _ _ _ _ _ _ _ T) as Hp. pose proof (vd_bounds _ V) as Hb.
  rewrite Forall_forall in *. intros p Hpin. destruct (Hp p Hpin) as [[] ?]. specialize (Hb p Hpin). cbn in Hb.
  change PAGE_SIZE with 4096 in *. lia.
Qed.

(** Crashes once all before-images are durable: the transaction counts as
    committed exactly when its whole commit record survived. *)
Lemma crashes_logged idx hb d db ops pending index :
  wal_header_decode hb = Ok tx_header → Forall restorable_op ops → rollbackable db →
  pending `prefix_of` commit_record tx_commit → (pending = [] ∨ db = final_database ∧ ops = []) →
  crashes_to (λ d, uncommitted d ∨ committed idx d)
    (logging hb d db ops (concat (map image_record images)) pending index).
Proof using T.
  intros Hh Ho R Hp Hpend d' Hc. pose proof (im_ok transaction_imaged) as I.
  inversion Hc as [db' log names Hset Hlog Hnames n]; subst; clear Hc. cbn in Hset, Hlog, Hnames.
  apply prefix_nil_inv in Hnames as ->. subst n. cbn [logging m_log m_names names_ops foldl has_wal has_temporary has_index].
  assert (log `prefix_of` commit_record tx_commit) as Hlc by (by etransitivity). rewrite <- app_assoc.
  assert (len (hb ++ concat (map image_record images) ++ log) < 2 ^ 64) as Hfit
    by (apply log_fits; [done|by apply prefix_app]).
  destruct (decide (length log < length (commit_record tx_commit))%nat) as [Hlt|Hge].
  - left. pose proof (read_wal_commit_torn hb tx_header images tx_commit log Hh I Hlc Hlt Hfit) as Hr.
    eapply (uncommitted_original_wal _ images); try done. right. split; [done|]. by eapply settles_rollbackable.
  - right. assert (log = commit_record tx_commit) as -> by (apply prefix_length_eq in Hlc; [done|lia]).
    destruct Hpend as [-> | [-> ->]].
    { apply prefix_nil_inv in Hlog. pose proof (commit_record_len tx_commit) as Hl. by rewrite Hlog in Hl. }
    inversion Hset; subst. unfold committed. cbn [database wal wal_temporary]. split; [done|]. split; [done|].
    by apply read_wal_committed, Hfit; [..|apply tx_commit_ok].
Qed.

Lemma crash_write idx hb d index :
  wal_header_decode hb = Ok tx_header → database d = orig →
  always (crashes_to (λ d, uncommitted d ∨ committed idx d))
    (logging hb d orig [] (concat (map image_record images)) [] index)
    (write_ops ++ [SyncDatabase; AppendWal (commit_record tx_commit)]) ∧
  exec_ops (logging hb d orig [] (concat (map image_record images)) [] index)
    (write_ops ++ [SyncDatabase; AppendWal (commit_record tx_commit)]) =
  logging hb (apply_ops (write_ops ++ [SyncDatabase; AppendWal (commit_record tx_commit)]) d)
    final_database [] (concat (map image_record images)) (commit_record tx_commit) index.
Proof using T.
  intros Hh Hd.
  assert (Forall database_write write_ops) as Hw by (constructor; [done|]; apply Forall_map, Forall_true; done).
  assert (database (apply_ops write_ops d) = final_database) as Hf.
  { change (apply_ops write_ops d) with
      (apply_ops (map write_prepared ordered) (set_database d (set_len (database d) final_length))).
    rewrite apply_write_prepared. unfold final_database. cbn. by rewrite Hd. }
  pose proof rollbackable_orig as R. pose proof rollbackable_final as RF. pose proof write_ops_restorable as WR.
  split; [apply always_app|].
  - intros k. rewrite exec_database_writes by (by apply Forall_take).
    apply (crashes_logged idx hb); try done; [by apply Forall_take|apply prefix_nil|by left].
  - rewrite exec_database_writes by done. cbn [logging m_disk m_database m_database_pending m_log m_log_pending m_names m_names_pending app].
    apply always_cons; [|apply always_cons; [|apply always_nil]].
    + apply (crashes_logged idx hb); try done; [apply prefix_nil|by left].
    + unfold exec_op at 1. cbn [m_disk m_database m_database_pending m_log m_log_pending m_names m_names_pending].
      rewrite Hf. apply (crashes_logged idx hb); try done; [apply prefix_nil|by left].
    + unfold exec_op at 1 2. cbn [m_disk m_database m_database_pending m_log m_log_pending m_names m_names_pending app].
      rewrite Hf. apply (crashes_logged idx hb); try done. right. split; done.
  - rewrite exec_ops_app, (exec_database_writes _ write_ops), apply_ops_app by done. unfold logging, exec_ops. cbn [foldl].
    unfold exec_op at 1 2. cbn [m_disk m_database m_database_pending m_log m_log_pending m_names m_names_pending app].
    by rewrite Hf.
Qed.

(** The effects up to the sync of the commit record, and those after it. *)
Definition before_commit (hb : list byte) : list disk_op :=
  activate_ops hb ++ (map append_image images ++ [SyncWal]) ++
  (write_ops ++ [SyncDatabase; AppendWal (commit_record tx_commit)]).

Lemma commit_ops_split idx hb index :
  commit_ops idx hb index = before_commit hb ++ SyncWal :: index_ops idx index ++ [RemoveWal; SyncParent].
Proof. unfold commit_ops, before_commit. by rewrite <- !app_assoc. Qed.

Lemma crash_before_commit idx hb d :
  wal_header_decode hb = Ok tx_header → database d = orig → wal d = None → wal_temporary d = None →
  always (crashes_to (λ d, uncommitted d ∨ committed idx d)) (at_rest d) (before_commit hb) ∧
  ∃ d', exec_ops (at_rest d) (before_commit hb) =
    logging hb d' final_database [] (concat (map image_record images)) (commit_record tx_commit) (index_exists d) ∧
    index_exists d' = index_exists d.
Proof using T.
  intros Hh Hd Hw Ht. destruct (crash_activate hb d Hh Hd Hw Ht) as [A1 E1].
  set (d1 := apply_ops (activate_ops hb) d) in *.
  destruct (crash_append hb d1 (index_exists d) Hh) as [A2 E2].
  set (d2 := apply_ops (map append_image images ++ [SyncWal]) d1) in *.
  assert (database d2 = orig ∧ index_exists d2 = index_exists d) as [Hd2 Hx2].
  { unfold d2, d1. rewrite apply_ops_app, append_images_disk. cbn. done. }
  destruct (crash_write idx hb d2 (index_exists d) Hh Hd2) as [A3 E3].
  unfold before_commit. split.
  - apply always_app; [intros k d' Hc; left; by apply (A1 k)|]. rewrite E1.
    apply always_app; [intros k d' Hc; left; by apply (A2 k)|]. by rewrite E2.
  - rewrite !exec_ops_app, E1. rewrite exec_ops_app in E2. rewrite E2. rewrite exec_ops_app in E3. rewrite E3.
    eexists. split; [done|]. rewrite apply_ops_app.
    destruct (database_ops_names write_ops d2) as (_ & _ & Hx); [constructor; [done|]; by apply Forall_map, Forall_true|].
    transitivity (index_exists (apply_ops write_ops d2)); [done|congruence].
Qed.

Lemma crash_after_commit idx hb d index :
  wal_header_decode hb = Ok tx_header → index_exists d = index →
  always (crashes_to (committed idx))
    (exec_op (logging hb d final_database [] (concat (map image_record images)) (commit_record tx_commit) index) SyncWal)
    (index_ops idx index ++ [RemoveWal; SyncParent]).
Proof using T.
  intros Hh <-. apply (cleanup_always idx (exec_op (logging hb d final_database [] (concat (map image_record images))
    (commit_record tx_commit) (index_exists d)) SyncWal)); try done.
  cbn. rewrite <- app_assoc. apply read_wal_committed; [done|apply transaction_imaged|apply tx_commit_ok|].
  by apply log_fits.
Qed.
End Transaction.

(** ** Theorems *)

Section CrashTheorems.
Context {CK : Checksum}.

(** Recovery attempts that crash, one after the other. *)
Inductive recovery_crashes (idx : bool) : Disk → Disk → Prop :=
| recovery_start d : recovery_crashes idx d d
| recovery_crash d k d1 d2 :
    crash (exec_ops (at_rest d) (take k (fst (recover_pending idx d)))) d1 →
    recovery_crashes idx d1 d2 → recovery_crashes idx d d2.

(** A disk at rest, without a log. *)
Definition rest_disk (db : list byte) (index : bool) : Disk :=
  {| database := db; wal := None; wal_temporary := None; index_exists := index |}.

(** Widths of the arguments: a 64-bit UUID half, 64-bit page ids, pages of
    4096 bytes, and a log that a file can hold. *)
Record commit_arguments (uuid : Z) (ordered : prepared) : Prop := {
  ca_uuid : is_u64 uuid;
  ca_pages : Forall (λ p, is_u64 p.1 ∧ len p.2 = PAGE_SIZE) ordered;
  ca_small : 112 + 4128 * len ordered < 2 ^ 64;
}.

Lemma commit_cases idx uuid ordered orig index :
  commit_arguments uuid ordered →
  (∃ e, commit_ordered_page_refs idx uuid ordered (rest_disk orig index) = ([], Err e)) ∨
  ∃ oh fh final_length images, transaction orig ordered oh fh final_length (new_transaction_id uuid) images.
Proof.
  intros [Hu Hp Hs]. unfold commit_ordered_page_refs.
  destruct (strictly_increasing ordered) eqn:Hinc; [|left; by eexists]. cbn [negb].
  unfold commit_ordered_page_refs_with_hook. case_bool_decide; [left; by eexists|].
  rewrite run_get. cbn [rest_disk wal wal_temporary database].
  replace (bool_decide (is_Some (@None (list byte))) || bool_decide (is_Some (@None (list byte)))) with false
    by (by rewrite bool_decide_eq_false_2 by (by intros [? ?])).
  destruct (validate_prepared_pages orig ordered) as [[[oh fh] fl]|e] eqn:V; [|left; by eexists].
  rewrite (run_lift _ _ _ (oh, fh, fl)) by done.
  destruct (collect_before_images orig ordered (len orig `div` PAGE_SIZE) (next_page_id oh)) as [images|e] eqn:I;
    [|left; by eexists].
  right. exists oh, fh, fl, images. constructor; try done. unfold new_transaction_id.
  destruct (Z.eqb_spec uuid 0); [done|]. split; done.
Qed.

Lemma recovery_uncommitted idx orig ordered oh fh fl tx images
    (T : transaction orig ordered oh fh fl tx images) d d' :
  recovery_crashes idx d d' →
  (@uncommitted _ orig oh tx images d → @uncommitted _ orig oh tx images d') ∧
  (@committed _ orig ordered oh fh fl tx images idx d → @committed _ orig ordered oh fh fl tx images idx d').
Proof.
  induction 1 as [d|d k d1 d2 Hc _ [IHu IHc]]; [done|]. split; intros H.
  - apply IHu. by apply (recover_uncommitted_always T idx d H k).
  - apply IHc. by apply (recover_committed_always T idx d H k).
Qed.

(** The outcomes of a transaction on [orig]: not done, or completely done. *)
Definition not_done (orig : list byte) (d : Disk) : Prop :=
  database d = orig ∧ wal d = None ∧ wal_temporary d = None.
Definition all_done (idx : bool) (orig : list byte) (ordered : prepared) (d : Disk) : Prop :=
  (∃ oh fh final_length, validate_prepared_pages orig ordered = Ok (oh, fh, final_length) ∧
     database d = @final_database orig ordered final_length) ∧
  wal d = None ∧ wal_temporary d = None ∧ (idx = false → index_exists d = false).

(** Nothing happens to a disk at rest without a log. *)
Lemma rest_disk_stable idx orig index d :
  crash (at_rest (rest_disk orig index)) d ∨ recovery_crashes idx (rest_disk orig index) d →
  d = rest_disk orig index.
Proof.
  assert (∀ d, crash (at_rest (rest_disk orig index)) d → d = rest_disk orig index) as Hc.
  { intros d0 H. inversion H as [db log names Hset Hlog Hnames n]; subst. cbn in Hset, Hnames.
    apply prefix_nil_inv in Hnames as ->. subst n. by inversion Hset; subst. }
  intros [H|H]; [by apply Hc|]. cut (∀ d0, recovery_crashes idx d0 d → d0 = rest_disk orig index → d = rest_disk orig index);
    [by eauto|]. clear H. intros d0 H. induction H as [d|d k d1 d2 Hcr _ IH]; intros ->; [done|]. apply IH.
  rewrite run_recover_no_wal in Hcr by done. cbn in Hcr. rewrite take_nil in Hcr. by apply Hc.
Qed.

Lemma crash_atomic idx uuid ordered orig index k d1 d2 :
  commit_arguments uuid ordered →
  crash (exec_ops (at_rest (rest_disk orig index))
           (take k (fst (commit_ordered_page_refs idx uuid ordered (rest_disk orig index))))) d1 →
  recovery_crashes idx d1 d2 →
  ∃ ops, recover_pending idx d2 = (ops, Ok tt) ∧
    (not_done orig (apply_ops ops d2) ∨ all_done idx orig ordered (apply_ops ops d2)).
Proof.
  intros A Hc Hr. destruct (commit_cases idx uuid ordered orig index A) as [[e E] | (oh & fh & fl & images & T)].
  - rewrite E in Hc. cbn [fst] in Hc. rewrite take_nil in Hc. cbn in Hc.
    rewrite (rest_disk_stable idx orig index d1) in Hr by (by left).
    rewrite (rest_disk_stable idx orig index d2) by (by right).
    exists []. split; [by rewrite run_recover_no_wal|left; done].
  - destruct (run_commit T idx uuid (rest_disk orig index)) as (hb & Hh & E); [done..|].
    rewrite E, commit_ops_split in Hc. cbn [fst] in Hc.
    destruct (crash_before_commit T idx hb (rest_disk orig index)) as (A1 & d' & E1 & Hx); [done..|].
    assert (@uncommitted _ orig oh (new_transaction_id uuid) images d1 ∨
            @committed _ orig ordered oh fh fl (new_transaction_id uuid) images idx d1) as Hd1.
    { match type of Hc with crash (exec_ops _ (take k (?l ++ _))) _ => destruct (decide (k ≤ length l)%nat) as [Hk|Hk] end.
      - rewrite take_app_le in Hc by done. by apply (A1 k).
      - right. rewrite take_app_ge, exec_ops_app, E1 in Hc by lia.
        destruct (k - length _)%nat as [|k'] eqn:Hk'; [lia|]. cbn [take] in Hc.
        by apply (crash_after_commit T idx hb d' index Hh Hx k'). }
    destruct (recovery_uncommitted idx _ _ _ _ _ _ _ T d1 d2 Hr) as [Hu Hcm].
    destruct Hd1 as [H|H].
    + destruct (recover_uncommitted_result T idx d2 (Hu H)) as (ops & Eo & Hdb & Hw & Ht & _). exists ops. split; [done|by left].
    + destruct (recover_committed_result T idx d2 (Hcm H)) as (ops & Eo & Hdb & Hw & Ht & Hix). exists ops.
      split; [done|right]. split; [|done]. exists oh, fh, fl. split; [apply (tr_valid _ _ _ _ _ _ _ T)|done].
Qed.

(** C12: a transaction is atomic across crashes.  Whatever prefix of the
    effects of [commit_ordered_page_refs] took place before a crash, whichever
    of the effects not yet synced were lost or torn, and however often recovery
    itself crashed in the same way, recovery succeeds in the end and leaves
    either the database from before the transaction or the database with all
    its pages, in the latter case without a stale sorted index, and no log. *)
Theorem commit_crash_atomic idx uuid ordered orig index k d1 d2 :
  commit_arguments uuid ordered →
  crash (exec_ops (at_rest (rest_disk orig index))
           (take k (fst (commit_ordered_page_refs idx uuid ordered (rest_disk orig index))))) d1 →
  recovery_crashes idx d1 d2 →
  ∃ ops, recover_pending idx d2 = (ops, Ok tt) ∧
    (not_done orig (apply_ops ops d2) ∨ all_done idx orig ordered (apply_ops ops d2)).
Proof. apply crash_atomic. Qed.

(** How often the log is synced in a run of effects. *)
Fixpoint wal_syncs (ops : list disk_op) : nat :=
  match ops with
  | [] => 0
  | SyncWal :: ops => S (wal_syncs ops)
  | _ :: ops => wal_syncs ops
  end.

Lemma wal_syncs_app ops ops' : wal_syncs (ops ++ ops') = (wal_syncs ops + wal_syncs ops')%nat.
Proof. induction ops as [|[] ops IH]; cbn; rewrite ?IH; done. Qed.

Lemma wal_syncs_take k ops : (wal_syncs (take k ops) ≤ wal_syncs ops)%nat.
Proof. rewrite <- (take_drop k ops) at 2. rewrite wal_syncs_app. lia. Qed.

Lemma wal_syncs_map {A} (f : A → disk_op) l : (∀ x, f x ≠ SyncWal) → wal_syncs (map f l) = 0%nat.
Proof. intros Hf. induction l as [|x l IH]; [done|]. cbn. specialize (Hf x). by destruct (f x). Qed.

Lemma wal_syncs_before_commit {ordered fh fl tx images} hb :
  wal_syncs (@before_commit _ ordered fh fl tx images hb) = 1%nat.
Proof.
  unfold before_commit, activate_ops, write_ops. rewrite !wal_syncs_app. cbn [wal_syncs].
  rewrite !wal_syncs_map by done. done.
Qed.

(** C13: a commit is durable once its commit record is synced.  If the crash
    comes after the second sync of the log, then recovery, however often it
    crashes on the way, ends with the database of the transaction. *)
Theorem commit_durable idx uuid ordered orig index k d1 d2 :
  commit_arguments uuid ordered →
  let ops := fst (commit_ordered_page_refs idx uuid ordered (rest_disk orig index)) in
  wal_syncs (take k ops) = 2%nat →
  crash (exec_ops (at_rest (rest_disk orig index)) (take k ops)) d1 →
  recovery_crashes idx d1 d2 →
  ∃ rops, recover_pending idx d2 = (rops, Ok tt) ∧ all_done idx orig ordered (apply_ops rops d2).
Proof.
  intros A ops Hn Hc Hr. destruct (commit_cases idx uuid ordered orig index A) as [[e E] | (oh & fh & fl & images & T)].
  { unfold ops in Hn. rewrite E in Hn. cbn in Hn. by rewrite take_nil in Hn. }
  destruct (run_commit T idx uuid (rest_disk orig index)) as (hb & Hh & E); [done..|].
  unfold ops in *. clear ops. rewrite E, commit_ops_split in Hc, Hn. cbn [fst] in Hc, Hn.
  destruct (crash_before_commit T idx hb (rest_disk orig index)) as (A1 & d' & E1 & Hx); [done..|].
  match type of Hc with crash (exec_ops _ (take k (?l ++ _))) _ => destruct (decide (k ≤ length l)%nat) as [Hk|Hk] end.
  { rewrite take_app_le in Hn by done.
    match type of Hn with wal_syncs (take k ?l) = _ => pose proof (wal_syncs_take k l) as Hle end.
    rewrite wal_syncs_before_commit in Hle. lia. }
  rewrite take_app_ge, exec_ops_app, E1 in Hc by lia. destruct (k - length _)%nat as [|k'] eqn:Hk'; [lia|].
  cbn [take] in Hc. pose proof (crash_after_commit T idx hb d' index Hh Hx k' d1 Hc) as Hd1.
  destruct (recovery_uncommitted idx _ _ _ _ _ _ _ T d1 d2 Hr) as [_ Hcm].
  destruct (recover_committed_result T idx d2 (Hcm Hd1)) as (rops & Eo & Hdb & Hw & Ht & Hix). exists rops.
  split; [done|]. split; [|done]. exists oh, fh, fl. split; [apply (tr_valid _ _ _ _ _ _ _ T)|done].
Qed.

(** The visible disk after a complete commit. *)
Lemma commit_disk {ordered fh fl tx images} idx hb orig index :
  apply_ops (@commit_ops _ ordered fh fl tx images idx hb index) (rest_disk orig index) =
  rest_disk (@final_database orig ordered fl) (idx && index).
Proof.
  unfold commit_ops, write_ops. rewrite !apply_ops_app.
  change (apply_ops (activate_ops hb) (rest_disk orig index))
    with {| database := orig; wal := Some hb; wal_temporary := None; index_exists := index |}.
  rewrite append_images_disk.
  change (SetLen fl :: map write_prepared ordered) with ([SetLen fl] ++ map write_prepared ordered).
  rewrite !apply_ops_app, apply_write_prepared. by destruct idx, index.
Qed.

(** Without a crash, [commit_ordered_page_refs] on a database without a
    pending log does nothing to the files when it fails, and when it succeeds
    the database has the length the new header announces, holds every prepared
    page at its id and every other page as before, the logs are gone, and the
    sorted index is removed. *)
Theorem commit_all_or_nothing idx uuid ordered orig index :
  commit_arguments uuid ordered →
  let '(ops, r) := commit_ordered_page_refs idx uuid ordered (rest_disk orig index) in
  match r with
  | Err _ => ops = []
  | Ok _ =>
      let d := apply_ops ops (rest_disk orig index) in
      wal d = None ∧ wal_temporary d = None ∧ index_exists d = idx && index ∧
      ∃ oh fh final_length, validate_prepared_pages orig ordered = Ok (oh, fh, final_length) ∧
        len (database d) = final_length ∧
        (∀ id page, (id, page) ∈ ordered → read_page (database d) id = Ok page) ∧
        (∀ id, 0 ≤ id < next_page_id oh → id ∉ map fst ordered → read_page (database d) id = read_page orig id)
  end.
Proof.
  intros A. destruct (commit_cases idx uuid ordered orig index A) as [[e ->] | (oh & fh & fl & images & T)]; [done|].
  destruct (run_commit T idx uuid (rest_disk orig index)) as (hb & Hh & ->); [done..|]. cbv zeta.
  rewrite commit_disk. destruct (transaction_validated T) as [fp V].
  destruct (vd_final_len _ V) as [Hfl [Hle Hlt]]. pose proof (transaction_final T) as [Fl Fp Fr].
  split_and!; [done..|]. exists oh, fh, fl. cbn [rest_disk database].
  pose proof (vd_bounds _ V) as Hb. pose proof (ca_pages _ _ A) as Hp. pose proof (vd_orig_len _ V) as Ho.
  split_and!; [apply (tr_valid _ _ _ _ _ _ _ T)|done| |].
  - intros id page Hin. rewrite Forall_forall in Hb, Hp. specialize (Hb _ Hin). destruct (Hp _ Hin) as [[Hid _] _].
    cbn [fst] in *. rewrite read_page_ok; [f_equal; by apply Fp|done|change PAGE_SIZE with 4096 in *; lia..].
  - intros id Hid Hnot. rewrite !read_page_ok by (change PAGE_SIZE with 4096 in *; lia). f_equal. by apply Fr.
Qed.
End CrashTheorems.

(** *** Witnesses *)

Definition encoded (r : io_result (list byte)) : list byte := match r with Ok b => b | Err _ => [] end.

Definition db_header (next gen : Z) : list byte :=
  encoded (database_header_encode
    {| root_page_id := 1; next_page_id := next; free_page_head := 0; generation := gen;
       database_id := le_bytes 16 42; metadata := MetadataEmpty |}).

Definition db_leaf (id next right_page : Z) : list byte :=
  encoded (page_header_encode_into
    {| page_type := Leaf; cell_count := 0; free_start := 32; free_end := 4096; left := 0; right := right_page |}
    (zeros PAGE_SIZE) id next).

(** A database of two pages, and a transaction that rewrites both and appends one. *)
Definition example_db : list byte := db_header 2 7 ++ db_leaf 1 2 0.
Definition example_prepared : prepared := [(0, db_header 3 8); (1, db_leaf 1 3 2); (2, db_leaf 2 3 0)].

Definition example_commit_run : list disk_op * result wal_error unit :=
  commit_ordered_page_refs false 9 example_prepared (rest_disk example_db true).

Lemma example_arguments : commit_arguments 9 example_prepared.
Proof.
  constructor; [split; done| |done].
  repeat (apply Forall_cons; split; [split; [split; done|vm_compute; reflexivity]|]). apply Forall_nil_2.
Qed.

Lemma settles_lost_all ops c : settles ops c c.
Proof. induction ops; by constructor. Qed.

(** A crash that loses everything not synced. *)
Definition lose_all (m : Machine) : Disk :=
  {| database := m_database m;
     wal := if has_wal (m_names m) then Some (m_log m ++ []) else None;
     wal_temporary := if has_temporary (m_names m) then Some (m_log m ++ []) else None;
     index_exists := has_index (m_names m) |}.

Lemma crash_lose_all m : crash m (lose_all m).
Proof. apply (crashed m (m_database m) [] []); [apply settles_lost_all|apply prefix_nil..]. Qed.

Lemma commit_crash_atomic_witness :
  let d1 := lose_all (exec_ops (at_rest (rest_disk example_db true)) (take 10 (fst example_commit_run))) in
  snd example_commit_run = Ok tt ∧ wal d1 ≠ None ∧
  ∃ ops, recover_pending false d1 = (ops, Ok tt) ∧
    (not_done example_db (apply_ops ops d1) ∨ all_done false example_db example_prepared (apply_ops ops d1)).
Proof.
  split; [vm_compute; reflexivity|]. split; [vm_compute; discriminate|].
  refine (commit_crash_atomic false 9 example_prepared example_db true 10 _ _ example_arguments _ _).
  - apply crash_lose_all.
  - constructor.
Defined.

Lemma commit_durable_witness :
  let d1 := lose_all (exec_ops (at_rest (rest_disk example_db true)) (take 16 (fst example_commit_run))) in
  ∃ ops, recover_pending false d1 = (ops, Ok tt) ∧ all_done false example_db example_prepared (apply_ops ops d1).
Proof.
  refine (commit_durable false 9 example_prepared example_db true 16 _ _ example_arguments _ _ _).
  - vm_compute. reflexivity.
  - apply crash_lose_all.
  - constructor.
Defined.

Lemma commit_all_or_nothing_witness :
  match example_commit_run with
  | (ops, Ok _) =>
      let d := apply_ops ops (rest_disk example_db true) in
      wal d = None ∧ ∀ id page, (id, page) ∈ example_prepared → read_page (database d) id = Ok page
  | (_, Err _) => False
  end.
Proof.
  pose proof (commit_all_or_nothing false 9 example_prepared example_db true example_arguments) as T.
  assert (snd example_commit_run = Ok tt) as Hok by (vm_compute; reflexivity).
  unfold example_commit_run in *.
  destruct (commit_ordered_page_refs false 9 example_prepared (rest_disk example_db true)) as [ops [u|e]].
  - destruct T as (Hw & _ & _ & oh & fh & fl & _ & _ & Hp & _). split; [exact Hw|exact Hp].
  - discriminate Hok.
Defined.
