(* ===== verification/BtreeDurable.v ===== *)
(** A transaction from its snapshot to the file: what a commit prepares is
    accepted by the write-ahead log, and the file it leaves holds the map the
    transaction held.  Together with the crash theorems of the log, a sequence
    of operations is applied to the file as a whole or not at all. *)

From stdpp Require Import gmap sorting functions.
From S2P Require Import Prelude BtreeFormat BtreeCell BtreePage BtreeSplit BtreeTransaction BtreeUpdate.
From S2P Require Import BtreeNode BtreeOverlay BtreeMutation BtreeTree BtreeClimb BtreeChain BtreePlace.
From S2P Require Import BtreeStore BtreeExtend BtreeLinks BtreeWal BtreeRecovery BtreeCrash.

Section Commit.
Context {CK : Checksum} {KC : KeyCodec}.

(** On an error of the log, recovery runs and the error is reported. *)
Definition with_recovery (idx : bool) (m : prog unit) : prog unit :=
  λ d, let '(ops, r) := m d in
       match r with
       | Ok _ => (ops, Ok tt)
       | Err e => (ops ++ fst (recover_pending idx (apply_ops ops d)), Err e)
       end.

(** [commit] of an active transaction. *)
Definition commit_transaction (idx : bool) (uuid : Z) (t : WriteTransaction) (base : list byte) : prog unit :=
  _ ← lift (validate_transaction_links t base);
  p ← lift (prepared_pages t);
  match p.1 with
  | [] => mret tt
  | (_, page) :: _ =>
      _ ← lift (database_header_decode page);
      with_recovery idx (commit_ordered_page_refs idx uuid p.1)
  end.

(** The file [base] holds the map [f]. *)
Definition image_holds (base : list byte) (f : key → option stored_value) : Prop :=
  ∃ t, begin_transaction base = Ok t ∧ tx_holds t base f.

(** What beginning a transaction establishes. *)
Record begun (base : list byte) (t : WriteTransaction) (oh : DatabaseHeader) : Prop := {
  bg_original : original_header t = oh;
  bg_next : next_header t = oh;
  bg_length : original_file_len t = len base;
  bg_clean : dirty_pages t = ∅ ∧ allocated_pages t = ∅ ∧ freed_pages t = ∅;
  bg_file : len base = next_page_id oh * PAGE_SIZE ∧ PAGE_SIZE ≤ len base < 2 ^ 64;
  bg_header : database_header_decode (slice base 0 PAGE_SIZE) = Ok oh;
}.

Lemma begin_inv base t : begin_transaction base = Ok t → ∃ oh, begun base t oh.
Proof.
  unfold begin_transaction, image_open, transaction_new. intros H. bind_inv. field_inv. bool_to_prop. subst.
  eexists. by constructor.
Qed.

Lemma begin_ok base oh :
  database_header_decode (slice base 0 PAGE_SIZE) = Ok oh → len base = next_page_id oh * PAGE_SIZE →
  PAGE_SIZE ≤ len base < 2 ^ 64 →
  begin_transaction base = Ok {| original_header := oh; next_header := oh; original_file_len := len base;
    dirty_pages := ∅; allocated_pages := ∅; freed_pages := ∅ |}.
Proof.
  intros D Hl Hb. unfold begin_transaction, image_open. change PAGE_SIZE with 4096 in *.
  rewrite get_range_some by lia. cbn [ok_or]. rewrite bind_ok, D, bind_ok, try_fit_small by lia. cbn [ok_or].
  rewrite bind_ok, checked_mul_small by lia. cbn [ok_or]. rewrite bind_ok, <- Hl, Z.eqb_refl. cbn [negb]. rewrite bind_ok.
  unfold transaction_new. rewrite try_fit_small by lia. cbn [ok_or]. by rewrite bind_ok.
Qed.

(** The pages of a transaction with an empty overlay are the pages of the file. *)
Lemma file_page t base i :
  dirty_pages t = ∅ → next_page_id (original_header t) = tx_next t → len base = tx_next t * PAGE_SIZE → tx_next t < 2 ^ 48 →
  0 < i < tx_next t → tx_page t base i = Ok (slice base (i * PAGE_SIZE) (i * PAGE_SIZE + PAGE_SIZE)).
Proof.
  intros Hd Hn Hl Hb Hi. unfold tx_page. apply skip_guard; [lia|]. rewrite Hd, lookup_empty, Hn.
  replace (tx_next t <=? i) with false by lia. unfold page_byte_range. change PAGE_SIZE with 4096 in *.
  rewrite try_fit_small by lia. cbn [ok_or]. rewrite bind_ok, checked_mul_small by lia. cbn [ok_or].
  rewrite bind_ok, checked_add_small by lia. cbn [ok_or]. rewrite bind_ok.
  replace (len base <? i * 4096 + 4096) with false by lia. rewrite bind_ok. cbn [fst snd].
  by rewrite get_range_some by lia.
Qed.

(** ** The pages of a commit *)

Section Prepared.
Context (base : list byte) (t0 t : WriteTransaction) (f0 f : key → option stored_value).
Context (Begin : begin_transaction base = Ok t0) (Holds0 : tx_holds t0 base f0).
Context (Ext : extends t0 t) (Holds : tx_holds t base f).
Context (Dirty : dirty_pages t ≠ ∅).
Context (Gen : generation (original_header t) + 1 < 2 ^ 64) (Grow : tx_next t0 ≤ tx_next t) (Room : tx_next t < 2 ^ 48).

Definition final_header : DatabaseHeader :=
  header_with_generation (next_header t) (generation (original_header t) + 1).

Lemma transaction_begun : ∃ oh, begun base t0 oh ∧ original_header t = oh ∧ original_file_len t = len base.
Proof.
  destruct (begin_inv _ _ Begin) as [oh B]. exists oh. destruct Ext, B. split_and!; [done|congruence|congruence].
Qed.

Lemma pool_head F : pool t base F → free_page_head (next_header t) = 0 ∨ free_page_head (next_header t) ∈ F.
Proof. intros [Hc _ _ _ _ _]. destruct Hc; [by left|right; by left]. Qed.

Lemma final_header_ok :
  database_header_wf final_header ∧ validate_database_header final_header = Ok tt.
Proof.
  destruct transaction_begun as (oh & [B1 B2 _ _ _ Bh] & Eo & _). apply database_header_decode_layout in Bh as (_ & W & V).
  destruct Holds as (T & h & F & ws & Sk & _). pose proof (sk_root _ _ _ _ _ _ Sk) as HR.
  pose proof (pool_head _ (sk_pool _ _ _ _ _ _ Sk)) as Hh. pose proof (pool_bound _ _ _ (sk_pool _ _ _ _ _ _ Sk)) as Hb.
  assert (root_id T ∈ ids T) as Hin by apply root_in_ids.
  destruct (skeleton_range _ _ _ _ _ _ _ Sk (or_introl Hin)) as [Hr HrF].
  assert (0 ≤ free_page_head (next_header t) < tx_next t ∧ free_page_head (next_header t) ≠ root_id T) as [Hfh Hfr].
  { destruct Hh as [->|Hh]; [lia|]. pose proof (pool_range _ _ _ _ (sk_pool _ _ _ _ _ _ Sk) Hh). split; [lia|]. by intros E; rewrite E in Hh. }
  destruct Ext as [_ _ Xi Xg Xm _]. rewrite B2 in Xi, Xg, Xm. destruct W as [_ _ _ Wg Wi Wm].
  unfold validate_database_header in V. bind_inv. unfold tx_next in *. split.
  - constructor; cbn; unfold fits in *; rewrite ?HR; try lia; [rewrite Eo in *; lia|congruence|by rewrite Xm].
  - unfold validate_database_header, final_header. cbn [header_with_generation root_page_id next_page_id free_page_head generation database_id].
    rewrite Xi, HR, Eo in *. unfold fits in *. rewrite Hc2.
    apply skip_guard; [lia|]. apply skip_guard; [|apply skip_guard; [lia|done]].
    destruct (Z.eqb_spec (free_page_head (next_header t)) 0); [done|]. cbn [negb andb]. lia.
Qed.

Lemma final_page_ok :
  ∃ hb, database_header_encode final_header = Ok hb ∧ database_header_decode hb = Ok final_header ∧ len hb = PAGE_SIZE.
Proof.
  destruct final_header_ok as [W V]. destruct (database_header_encode_layout _ W V) as (hb & E & L). exists hb.
  pose proof (database_layout_decode _ _ L W V) as D. split_and!; [done|done|].
  unfold database_header_decode in D. bind_inv. unfold exact_page in *. bind_inv. lia.
Qed.

(** The overlay with the header page, and its pages in order. *)
Definition final_overlay (hb : list byte) : WriteTransaction :=
  with_dirty (with_next_header t final_header) 0 hb.

Definition final_pages (hb : list byte) : prepared :=
  map (λ id, (id, default [] (dirty_pages (final_overlay hb) !! id))) (dirty_ids (final_overlay hb)).

Lemma final_ids hb id : id ∈ dirty_ids (final_overlay hb) ↔ id = 0 ∨ is_Some (dirty_pages t !! id).
Proof.
  rewrite dirty_ids_elem. cbn [final_overlay with_dirty dirty_pages with_next_header]. destruct (decide (id = 0)) as [->|Hne].
  - rewrite lookup_insert_eq. split; [by left|eauto].
  - rewrite lookup_insert_ne by done. tauto.
Qed.

Lemma dirty_range id : is_Some (dirty_pages t !! id) → 0 < id < tx_next t.
Proof. destruct Holds as (T & h & F & ws & Sk & _). apply (pool_dirty _ _ _ (sk_pool _ _ _ _ _ _ Sk)). Qed.

(** The bytes of a dirty page, in the overlay and opened. *)
Lemma dirty_page_ok hb id :
  is_Some (dirty_pages t !! id) →
  ∃ b p, dirty_pages (final_overlay hb) !! id = Some b ∧ dirty_pages t !! id = Some b ∧
    page_open b id (tx_next t) = Ok p ∧ len b = PAGE_SIZE.
Proof.
  intros Hd. pose proof (dirty_range id Hd) as Hr. destruct (database_view _ _ _ id Holds Hr) as [n V].
  destruct (dirty_page_bytes _ _ _ _ Hd V) as (_ & p & Eo & _). destruct Hd as [b Hb]. rewrite Hb in Eo. cbn in Eo.
  exists b, p. cbn [final_overlay with_dirty dirty_pages with_next_header]. rewrite lookup_insert_ne by lia.
  split_and!; [done|done|done|]. destruct (page_open_valid _ _ _ _ Eo) as [Vp Hbp]. rewrite <- Hbp. by apply page_valid_len.
Qed.

Lemma final_page_cases hb p :
  p ∈ final_pages hb →
  p = (0, hb) ∨ ∃ b q, p = (p.1, b) ∧ dirty_pages t !! p.1 = Some b ∧ 0 < p.1 < tx_next t ∧
    page_open b p.1 (tx_next t) = Ok q ∧ len b = PAGE_SIZE.
Proof.
  intros Hp. unfold final_pages in Hp. apply list_elem_of_In, in_map_iff in Hp as (id & <- & Hid). apply list_elem_of_In in Hid.
  apply final_ids in Hid as [->|Hid].
  - left. cbn [final_overlay with_dirty dirty_pages]. by rewrite lookup_insert_eq.
  - right. destruct (dirty_page_ok hb id Hid) as (b & q & Eb & Eb' & Eo & Hl). exists b, q. cbn [fst]. rewrite Eb.
    split_and!; try done; by apply dirty_range.
Qed.

Lemma prepare_pages_ok hb ids' :
  database_header_decode hb = Ok final_header → (∀ id, id ∈ ids' → id = 0 ∨ is_Some (dirty_pages t !! id)) →
  prepare_pages (final_overlay hb) ids' = Ok (map (λ id, (id, default [] (dirty_pages (final_overlay hb) !! id))) ids').
Proof.
  intros D. induction ids' as [|id ids' IH]; intros Hid; cbn [prepare_pages map]; [done|].
  cbv zeta. rewrite IH by (intros i Hi; apply Hid; by right).
  destruct (Hid id ltac:(by left)) as [->|Hd].
  - cbn [final_overlay with_dirty dirty_pages Z.eqb]. rewrite lookup_insert_eq. change (default [] (Some hb)) with hb. by rewrite D, !bind_ok.
  - pose proof (dirty_range id Hd). replace (id =? 0) with false by lia. destruct (dirty_page_ok hb id Hd) as (b & q & Eb & _ & Eo & _).
    rewrite Eb. change (default [] (Some b)) with b. change (tx_next (final_overlay hb)) with (tx_next t). by rewrite Eo, !bind_ok.
Qed.

Lemma prepared_ok hb :
  database_header_encode final_header = Ok hb → database_header_decode hb = Ok final_header →
  prepared_pages t = Ok (final_pages hb, final_overlay hb).
Proof.
  intros E D. unfold prepared_pages. unfold has_changes at 1. rewrite bool_decide_false by done. cbn [negb orb].
  destruct transaction_begun as (oh & [_ _ _ _ _ Bh] & Eo & _). apply database_header_decode_layout in Bh as (_ & W & _).
  pose proof (wf_generation _ W). rewrite checked_add_small by (rewrite Eo in *; unfold fits in *; lia).
  cbn [ok_or]. rewrite bind_ok. cbv zeta. change (with_next_header t _) with (with_next_header t final_header).
  cbn [with_next_header next_header]. rewrite E, bind_ok. change (with_dirty _ 0 hb) with (final_overlay hb).
  rewrite prepare_pages_ok by (done || intros id; apply final_ids). by rewrite bind_ok.
Qed.

(** ** What the log checks *)

Lemma sorted_increasing (g : Z → list byte) l :
  StronglySorted Z.le l → NoDup l → strictly_increasing (map (λ id, (id, g id)) l) = true.
Proof.
  induction 1 as [|a l Hs IH Ha]; intros Hn; [done|]. apply NoDup_cons in Hn as [Hna Hn]. specialize (IH Hn).
  destruct l as [|b l]; [done|]. cbn [map strictly_increasing]. apply andb_true_iff. split; [|exact IH].
  apply Forall_cons in Ha as [Hab _]. apply Z.ltb_lt. assert (a ≠ b) by (intros ->; apply Hna; by left). lia.
Qed.

Lemma final_sorted hb : StronglySorted Z.le (dirty_ids (final_overlay hb)).
Proof. apply Sorted_StronglySorted; [intros a b c; lia|]. apply Sorted_merge_sort. intros a b. lia. Qed.

Lemma final_increasing hb : strictly_increasing (final_pages hb) = true.
Proof. apply sorted_increasing; [apply final_sorted|apply dirty_ids_nodup]. Qed.

(** The header page comes first. *)
Lemma final_first hb : ∃ rest, final_pages hb = (0, hb) :: rest.
Proof.
  assert (0 ∈ dirty_ids (final_overlay hb)) as H0 by (apply final_ids; by left).
  pose proof (final_sorted hb) as Hs. pose proof (final_ids hb) as Hid. unfold final_pages.
  destruct (dirty_ids (final_overlay hb)) as [|a l]; [by apply elem_of_nil in H0|]. cbn [map].
  assert (a = 0) as ->.
  { inversion Hs as [|? ? _ Ha]; subst. destruct (proj1 (Hid a) ltac:(by left)) as [?|Hd]; [done|].
    pose proof (dirty_range a Hd). apply elem_of_cons in H0 as [<-|H0]; [done|]. rewrite Forall_forall in Ha. specialize (Ha 0 H0). lia. }
  exists (map (λ id, (id, default [] (dirty_pages (final_overlay hb) !! id))) l). f_equal. f_equal.
  cbn [final_overlay with_dirty dirty_pages]. by rewrite lookup_insert_eq.
Qed.

Lemma check_prepared_pages pages next :
  (∀ p, p ∈ pages → p.1 < next ∧ check_page p.1 p.2 next = Ok tt) → check_prepared pages next = Ok tt.
Proof.
  induction pages as [|[id page] pages IH]; intros H; cbn [check_prepared]; [done|].
  destruct (H (id, page) ltac:(by left)) as [Hlt Hc]. cbn [fst snd] in *. replace (next <=? id) with false by lia.
  rewrite Hc, bind_ok. apply IH. intros p Hp. apply H. by right.
Qed.

Lemma final_checked hb p :
  database_header_decode hb = Ok final_header → p ∈ final_pages hb →
  p.1 < tx_next t ∧ check_page p.1 p.2 (tx_next t) = Ok tt ∧ is_u64 p.1 ∧ (len hb = PAGE_SIZE → len p.2 = PAGE_SIZE).
Proof.
  intros D Hp. destruct Holds as (T & h & F & ws & Sk & _). pose proof (pool_bound _ _ _ (sk_pool _ _ _ _ _ _ Sk)).
  destruct (final_page_cases hb p Hp) as [->|(b & q & Ep & Hb & Hr & Eo & Hl)].
  - cbn [fst snd]. unfold check_page. cbn [Z.eqb]. rewrite D, bind_ok. unfold fits. split_and!; try done; lia.
  - destruct p as [id b0]. cbn [fst snd] in *. injection Ep as ->. unfold check_page. replace (id =? 0) with false by lia.
    rewrite Eo, bind_ok. unfold fits. split_and!; try done; lia.
Qed.

(** Appended pages are in the overlay. *)
Lemma appended_dirty id : next_page_id (original_header t) ≤ id < tx_next t → 0 < id → is_Some (dirty_pages t !! id).
Proof.
  intros Hid H0. destruct (database_view _ _ _ id Holds ltac:(lia)) as (n & _ & bytes & Ep & _). unfold tx_page in Ep.
  destruct (dirty_pages t !! id); [eauto|]. exfalso.
  replace ((id =? 0) || (tx_next t <=? id)) with false in Ep by lia.
  by replace (next_page_id (original_header t) <=? id) with true in Ep by lia.
Qed.

(** A page that is not in the overlay is the page of the file. *)
Lemma clean_page id bytes :
  dirty_pages t !! id = None → tx_page t base id = Ok bytes →
  id < next_page_id (original_header t) ∧ bytes = slice base (id * PAGE_SIZE) (id * PAGE_SIZE + PAGE_SIZE).
Proof.
  intros Hd H. unfold tx_page in H. rewrite Hd in H. bind_inv. unfold page_byte_range in *. bind_inv. field_inv. subst.
  split; [lia|]. cbn [fst snd] in *. field_inv. by subst.
Qed.

(** The pages of the file are valid under its header. *)
Lemma original_page oh id :
  begun base t0 oh → 0 < id < next_page_id oh →
  ∃ p, page_open (slice base (id * PAGE_SIZE) (id * PAGE_SIZE + PAGE_SIZE)) id (next_page_id oh) = Ok p.
Proof.
  intros [B1 B2 _ (B4 & _) _ _] Hid. assert (tx_next t0 = next_page_id oh) as Hn by (unfold tx_next; by rewrite B2).
  destruct (database_view _ _ _ id Holds0 ltac:(lia)) as (n & _ & bytes & Ep & p & Eo & _). rewrite Hn in Eo.
  unfold tx_page in Ep. rewrite B4, lookup_empty in Ep. bind_inv. unfold page_byte_range in *. bind_inv. field_inv. subst.
  cbn [fst snd] in *. field_inv. subst. eauto.
Qed.

Lemma validate_ok oh hb :
  begun base t0 oh → database_header_decode hb = Ok final_header →
  validate_prepared_pages base (final_pages hb) = Ok (oh, final_header, tx_next t * PAGE_SIZE).
Proof.
  intros B D. pose proof B as [B1 B2 B3 B4 [B5 B6] B7]. pose proof (xt_header _ _ Ext) as Xh. rewrite B1 in Xh.
  assert (tx_next t0 = next_page_id oh) as Hn0 by (unfold tx_next; by rewrite B2).
  unfold validate_prepared_pages. cbv zeta. change PAGE_SIZE with 4096 in *.
  replace ((len base <? 4096) || negb (len base mod 4096 =? 0)) with false
    by (rewrite B5, Z.mod_mul by lia; symmetry; apply orb_false_iff; split; lia).
  rewrite read_page_ok, bind_ok by (change PAGE_SIZE with 4096; lia).
  change (slice base (0 * PAGE_SIZE) (0 * PAGE_SIZE + PAGE_SIZE)) with (slice base 0 4096). rewrite B7, bind_ok. unfold database_length. change PAGE_SIZE with 4096. rewrite checked_mul_small by lia. cbn [ok_or].
  rewrite bind_ok, <- B5, Z.eqb_refl. cbn [negb]. destruct (final_first hb) as [rest Ef]. rewrite Ef. cbn [Z.eqb].
  rewrite bind_ok, D, bind_ok. rewrite <- Ef.
  assert (database_id final_header = database_id oh) as Hid.
  { change (database_id final_header) with (database_id (next_header t)). rewrite (xt_identity _ _ Ext). by rewrite B2. }
  rewrite bool_decide_true by done. cbn [negb]. apply database_header_decode_layout in B7 as (_ & W & _).
  pose proof (wf_generation _ W) as Wg. rewrite bool_decide_true.
  2:{ rewrite checked_add_small by (rewrite Xh in *; unfold fits in *; lia). cbn [final_header header_with_generation generation].
      by rewrite Xh. }
  cbn [negb]. change (next_page_id final_header) with (tx_next t). rewrite checked_mul_small by lia. cbn [ok_or]. rewrite bind_ok.
  apply skip_guard; [lia|].
  rewrite check_prepared_pages, bind_ok.
  2:{ intros p Hp. destruct (final_checked hb p D Hp) as (? & ? & _). by split. }
  replace (forallb _ _) with true; [done|]. symmetry. apply forallb_forall. intros id Hin. apply list_elem_of_In, elem_of_seqZ in Hin.
  apply existsb_exists. destruct Holds as (T & h & F & ws & Sk & _). pose proof (pool_bound _ _ _ (sk_pool _ _ _ _ _ _ Sk)).
  assert (is_Some (dirty_pages t !! id)) as Hd by (apply appended_dirty; rewrite ?Xh; lia).
  exists (id, default [] (dirty_pages (final_overlay hb) !! id)). split; [|cbn; lia].
  unfold final_pages. apply in_map_iff. exists id. split; [done|]. apply list_elem_of_In, final_ids. by right.
Qed.

Lemma images_collected oh hb pages :
  begun base t0 oh → (∀ p, p ∈ pages → p ∈ final_pages hb) → database_header_decode hb = Ok final_header →
  ∃ images, collect_before_images base pages (len base `div` PAGE_SIZE) (next_page_id oh) = Ok images.
Proof.
  intros B Hin D. pose proof B as [_ _ _ _ [B5 B6] B7]. assert (len base `div` PAGE_SIZE = next_page_id oh) as Hc
    by (rewrite B5; apply Z.div_mul; done). rewrite Hc. induction pages as [|[id page] pages IH]; cbn [collect_before_images]; [eauto|].
  destruct IH as [images E]; [intros p Hp; apply Hin; by right|]. rewrite E.
  destruct (Z.ltb_spec id (next_page_id oh)) as [Hlt|Hge]; [|eauto].
  destruct (final_checked hb (id, page) D (Hin _ ltac:(by left))) as (_ & _ & [Hu _] & _). cbn [fst] in Hu.
  rewrite read_page_ok, bind_ok by (change PAGE_SIZE with 4096 in *; lia). unfold check_page at 1. destruct (Z.eqb_spec id 0) as [->|Hne].
  - change (slice base (0 * PAGE_SIZE) (0 * PAGE_SIZE + PAGE_SIZE)) with (slice base 0 PAGE_SIZE). rewrite B7, !bind_ok. eauto.
  - destruct (original_page oh id B ltac:(lia)) as [p Eo]. rewrite Eo, !bind_ok. eauto.
Qed.

Lemma final_small hb : len (final_pages hb) ≤ tx_next t.
Proof.
  assert (length (final_pages hb) ≤ length (seqZ 0 (tx_next t)))%nat as Hl.
  { unfold final_pages. rewrite length_map. apply submseteq_length, NoDup_submseteq; [apply dirty_ids_nodup|].
    intros x Hx. apply final_ids in Hx. rewrite elem_of_seqZ.
    destruct Holds as (T & h & F & ws & Sk & _). pose proof (pool_bound _ _ _ (sk_pool _ _ _ _ _ _ Sk)).
    destruct Hx as [->|Hx]; [lia|]. apply dirty_range in Hx. lia. }
  rewrite length_seqZ in Hl. destruct Holds as (T & h & F & ws & Sk & _). pose proof (pool_bound _ _ _ (sk_pool _ _ _ _ _ _ Sk)).
  unfold len. lia.
Qed.

Lemma final_arguments uuid hb :
  is_u64 uuid → database_header_decode hb = Ok final_header → len hb = PAGE_SIZE → commit_arguments uuid (final_pages hb).
Proof.
  intros Hu D Hl. constructor; [done| |pose proof (final_small hb); lia]. apply Forall_forall. intros p Hp.
  destruct (final_checked hb p D Hp) as (_ & _ & ? & ?). split; [done|auto].
Qed.

Lemma transaction_ok oh hb uuid :
  begun base t0 oh → is_u64 uuid → database_header_decode hb = Ok final_header → len hb = PAGE_SIZE →
  ∃ images, transaction base (final_pages hb) oh final_header (tx_next t * PAGE_SIZE) (new_transaction_id uuid) images.
Proof.
  intros B Hu D Hl. destruct (images_collected oh hb (final_pages hb) B) as [images E]; [done|done|]. exists images.
  destruct (final_arguments uuid hb Hu D Hl) as [_ Hp Hs]. constructor; [|done|apply final_increasing|by apply validate_ok|done|done].
  unfold new_transaction_id. destruct (Z.eqb_spec uuid 0); [done|]. by split.
Qed.

(** ** Reopening the file *)

(** The transaction that begins on the file after the commit. *)
Definition reopened (base' : list byte) : WriteTransaction :=
  {| original_header := final_header; next_header := final_header; original_file_len := len base';
     dirty_pages := ∅; allocated_pages := ∅; freed_pages := ∅ |}.

(** The file has every page of the transaction. *)
Definition has_pages (base' : list byte) : Prop :=
  len base' = tx_next t * PAGE_SIZE ∧
  ∀ id bytes, tx_page t base id = Ok bytes → 0 < id → slice base' (id * PAGE_SIZE) (id * PAGE_SIZE + PAGE_SIZE) = bytes.

Lemma reopened_view base' i n : has_pages base' → view t base i n → view (reopened base') base' i n.
Proof.
  intros [Hl Hp] V. pose proof (view_range _ _ _ _ V) as Hr. destruct V as (Hi & bytes & Ep & S). split; [done|].
  exists bytes. change (tx_next (reopened base')) with (tx_next t). split; [|done]. rewrite <- (Hp i bytes Ep Hi).
  by apply file_page.
Qed.

Lemma reopened_holds base' : has_pages base' → tx_holds (reopened base') base' f.
Proof.
  intros Hb. pose proof (λ i n, reopened_view base' i n Hb) as Hv.
  destruct Holds as (T & h & F & ws & Sk & It & Re). exists T, h, F, ws. pose proof Sk as [R Sh Pg Lk P Ow].
  split_and!; [| |done].
  - constructor; [exact R|done| | | |exact Ow].
    + apply (holds_frame (view t base)); [done|]. intros i n _. apply Hv.
    + apply (linked_frame (view t base)); [done|]. intros i l r es _. apply Hv.
    + pose proof P as [Hc Hnd _ _ Hbd _]. constructor; [|done| | |done|].
      * eapply free_chain_mono; [exact Hc|]. intros i n _. apply Hv.
      * intros i Hi. by apply not_elem_of_empty in Hi.
      * intros i Hi. by apply not_elem_of_empty in Hi.
      * intros i [b Hi]. cbn [reopened dirty_pages] in Hi. by rewrite lookup_empty in Hi.
  - eapply items_frame; [exact It|]. intros i n _. apply Hv.
Qed.

Lemma committed_pages oh hb uuid images :
  begun base t0 oh →
  transaction base (final_pages hb) oh final_header (tx_next t * PAGE_SIZE) (new_transaction_id uuid) images →
  has_pages (@final_database base (final_pages hb) (tx_next t * PAGE_SIZE)).
Proof.
  intros B Tr. pose proof (transaction_final Tr) as [Fl Fp Fr]. split; [done|]. intros id bytes Ep H0.
  pose proof (tx_page_range _ _ _ _ Ep) as Hr. destruct (dirty_pages t !! id) as [b|] eqn:Eb.
  - assert (bytes = b) as ->.
    { unfold tx_page in Ep. rewrite Eb in Ep. replace ((id =? 0) || (tx_next t <=? id)) with false in Ep by lia. by injection Ep. }
    apply Fp. unfold final_pages. apply list_elem_of_In, in_map_iff. exists id. split.
    + f_equal. cbn [final_overlay with_dirty dirty_pages with_next_header]. by rewrite lookup_insert_ne, Eb by lia.
    + apply list_elem_of_In, final_ids. right. eauto.
  - destruct (clean_page id bytes Eb Ep) as [Hlt ->]. rewrite (xt_header _ _ Ext), (bg_original _ _ _ B) in Hlt.
    apply Fr; [lia|]. intros Hin. apply list_elem_of_In, in_map_iff in Hin as (p & Hp1 & Hp). apply list_elem_of_In in Hp.
    destruct (final_page_cases hb p Hp) as [->|(b & q & _ & Hb & _)]; [cbn in Hp1; lia|]. rewrite Hp1, Eb in Hb. done.
Qed.

Lemma reopened_image oh hb uuid images :
  begun base t0 oh → database_header_decode hb = Ok final_header →
  transaction base (final_pages hb) oh final_header (tx_next t * PAGE_SIZE) (new_transaction_id uuid) images →
  image_holds (@final_database base (final_pages hb) (tx_next t * PAGE_SIZE)) f.
Proof.
  intros B D Tr. pose proof (committed_pages _ _ _ _ B Tr) as Hp. pose proof (transaction_final Tr) as [Fl Fp _].
  exists (reopened (@final_database base (final_pages hb) (tx_next t * PAGE_SIZE))). split; [|by apply reopened_holds].
  destruct Holds as (T & h & F & ws & Sk & _). pose proof (pool_bound _ _ _ (sk_pool _ _ _ _ _ _ Sk)).
  apply begin_ok; [|done|change PAGE_SIZE with 4096 in *; lia].
  destruct (final_first hb) as [rest Ef]. rewrite <- D. f_equal. apply (Fp 0 hb). rewrite Ef. by left.
Qed.

(** ** The commit *)

Lemma commit_runs oh hb uuid idx index images :
  begun base t0 oh → database_header_encode final_header = Ok hb → database_header_decode hb = Ok final_header →
  transaction base (final_pages hb) oh final_header (tx_next t * PAGE_SIZE) (new_transaction_id uuid) images →
  let run := commit_ordered_page_refs idx uuid (final_pages hb) (rest_disk base index) in
  commit_transaction idx uuid t base (rest_disk base index) = (fst run, Ok tt) ∧
  apply_ops (fst run) (rest_disk base index)
  = rest_disk (@final_database base (final_pages hb) (tx_next t * PAGE_SIZE)) (idx && index).
Proof.
  intros B E D Tr run. destruct (run_commit Tr idx uuid (rest_disk base index)) as (wb & _ & Er); [done..|].
  unfold run. rewrite Er. cbn [fst]. split; [|apply commit_disk].
  unfold commit_transaction. destruct B as [B1 B2 B3 B4 [B5 B6] B7].
  rewrite (run_lift _ _ _ tt).
  2:{ eapply database_links_ok; [exact Holds|..]; rewrite (xt_length _ _ Ext), B3; [|change PAGE_SIZE with 4096 in *; lia].
      by rewrite (xt_header _ _ Ext), B1. }
  rewrite (run_lift _ _ _ (final_pages hb, final_overlay hb)) by (by apply prepared_ok). cbn [fst].
  destruct (final_first hb) as [rest Ef]. rewrite Ef. rewrite (run_lift _ _ _ final_header) by done.
  rewrite <- Ef. unfold with_recovery. by rewrite Er.
Qed.

Lemma commit_holds idx uuid index :
  is_u64 uuid →
  ∃ ops base', commit_transaction idx uuid t base (rest_disk base index) = (ops, Ok tt) ∧
    apply_ops ops (rest_disk base index) = rest_disk base' (idx && index) ∧ image_holds base' f ∧
    len base' = tx_next t * PAGE_SIZE.
Proof.
  intros Hu. destruct transaction_begun as (oh & B & _). destruct final_page_ok as (hb & E & D & Hl).
  destruct (transaction_ok oh hb uuid B Hu D Hl) as [images Tr].
  destruct (commit_runs oh hb uuid idx index images B E D Tr) as [Hc Ha].
  do 2 eexists. split_and!; [exact Hc|exact Ha|by eapply reopened_image|]. by destruct (transaction_final Tr).
Qed.

(** Whatever a crash leaves of the commit, recovery makes it all or nothing. *)
Lemma commit_crash idx uuid index k d1 d2 :
  is_u64 uuid →
  crash (exec_ops (at_rest (rest_disk base index))
           (take k (fst (commit_transaction idx uuid t base (rest_disk base index))))) d1 →
  recovery_crashes idx d1 d2 →
  ∃ ops, recover_pending idx d2 = (ops, Ok tt) ∧ wal (apply_ops ops d2) = None ∧
    (image_holds (BtreeRecovery.database (apply_ops ops d2)) f0 ∨
     image_holds (BtreeRecovery.database (apply_ops ops d2)) f).
Proof.
  intros Hu Hc Hr. destruct transaction_begun as (oh & B & _). destruct final_page_ok as (hb & E & D & Hl).
  destruct (transaction_ok oh hb uuid B Hu D Hl) as [images Tr].
  destruct (commit_runs oh hb uuid idx index images B E D Tr) as [Hrun _]. rewrite Hrun in Hc. cbn [fst] in Hc.
  destruct (crash_atomic idx uuid (final_pages hb) base index k d1 d2 (final_arguments uuid hb Hu D Hl) Hc Hr)
    as (ops & Eo & [(Hdb & Hw & _)|[(oh' & fh' & fl' & Ev & Hdb) [Hw _]]]); exists ops; (split_and!; [done|done|]).
  - left. rewrite Hdb. by exists t0.
  - right. rewrite (validate_ok oh hb B D) in Ev. injection Ev as <- <- <-. rewrite Hdb. by eapply reopened_image.
Qed.
End Prepared.

(** A transaction that changed nothing commits without an effect. *)
Lemma commit_unchanged idx uuid base t f d :
  begin_transaction base = Ok t → tx_holds t base f → commit_transaction idx uuid t base d = ([], Ok tt).
Proof.
  intros E H. destruct (begin_inv _ _ E) as (oh & [B1 B2 B3 (B4 & _) [B5 B6] _]). unfold commit_transaction.
  rewrite (run_lift _ _ _ tt).
  2:{ eapply database_links_ok; [exact H|..]; rewrite B3; [by rewrite B1|change PAGE_SIZE with 4096 in *; lia]. }
  rewrite (run_lift _ _ _ ([], t)); [done|]. unfold prepared_pages, has_changes. by rewrite B4, B1, B2, !bool_decide_true.
Qed.
End Commit.
