(* ===== verification/BtreeSpec.v ===== *)
(** The B+Tree as a map from keys to byte strings: the staged operations, the
    batches and the queries of a transaction are the operations of that map,
    and a committed transaction is applied to the file as a whole, whatever
    crashes do. *)

From stdpp Require Import gmap functions.
From S2P Require Import Prelude BtreeFormat BtreeCell BtreePage BtreeSplit BtreeTransaction BtreeUpdate.
From S2P Require Import BtreeNode BtreeOverlay BtreeMutation BtreeTree BtreeClimb BtreeChain BtreePlace.
From S2P Require Import BtreeStore BtreeExtend BtreeLinks BtreeWal BtreeRecovery BtreeCrash BtreeDurable.

Section Spec.
Context {CK : Checksum} {KC : KeyCodec} {LZ : Lz4}.

(** ** Values *)

(** How [encode_value] stores a value. *)
Definition describe (raw : list byte) : stored_value :=
  match encode_value raw with
  | Ok v => (stored_compression v, len raw, as_slice v)
  | Err _ => (NoCompression, len raw, raw)
  end.

(** A map from keys to values. *)
Abbreviation values := (key → option (list byte)).

Definition stored_as (g : values) (k : key) : option stored_value := describe <$> g k.

Definition holds_values (t : WriteTransaction) (base : list byte) (g : values) : Prop := tx_holds t base (stored_as g).
Definition file_holds (base : list byte) (g : values) : Prop := image_holds base (stored_as g).

Lemma encoded_ok raw v :
  encode_value raw = Ok v → 0 < len raw < 2 ^ 32 →
  value_ok (stored_compression v) (len raw) (as_slice v) ∧ len (as_slice v) ≤ len raw.
Proof.
  intros E Hl. apply encode_value_inv in E as [->|(cap & c & Hc & -> & Hr & Hb)]; cbn [stored_compression as_slice].
  - split; [|lia]. unfold value_ok, fits. split_and!; try lia; done.
  - pose proof (len_nonneg c). rewrite len_app, len_le_bytes in *.
    assert (len raw * 85 / 100 ≤ len raw) by (apply Z.div_le_upper_bound; lia).
    split; [|lia]. unfold value_ok, fits, COMPRESSION_PERCENT. rewrite len_app, len_le_bytes. split_and!; lia.
Qed.

Lemma stored_insert g k c k' : <[k := describe <$> c]> (stored_as g) k' = stored_as (<[k := c]> g) k'.
Proof.
  unfold stored_as. destruct (decide (k' = k)) as [->|Hk]; [by rewrite !fn_lookup_insert|by rewrite !fn_lookup_insert_ne].
Qed.

(** ** Operations of a transaction *)

Inductive staged_op := StageUpsert (k : key) (raw : list byte) | StageDelete (k : key).

Definition stage_op (t : WriteTransaction) (base : list byte) (op : staged_op) : io_result WriteTransaction :=
  match op with
  | StageUpsert k raw => stage_serialized t base k raw
  | StageDelete k => r ← stage_delete t base k (key_to_vec k); Ok r.2
  end.

Fixpoint stage_ops (t : WriteTransaction) (base : list byte) (ops : list staged_op) : io_result WriteTransaction :=
  match ops with
  | [] => Ok t
  | op :: ops => t ← stage_op t base op; stage_ops t base ops
  end.

(** The operations on the map. *)
Definition map_op (g : values) (op : staged_op) : values :=
  match op with StageUpsert k raw => <[k := Some raw]> g | StageDelete k => <[k := None]> g end.

Definition map_ops (g : values) (ops : list staged_op) : values := foldl map_op g ops.

(** Keys that fit a cell, and values that are not empty, that have a 32-bit
    length and that the compressor does not refuse. *)
Definition op_ok (op : staged_op) : Prop :=
  match op with
  | StageUpsert k raw =>
      0 < len (key_to_vec k) ≤ MAX_ENCODED_KEY_LEN ∧ 0 < len raw < 2 ^ 32 ∧ ∃ v, encode_value raw = Ok v
  | StageDelete _ => True
  end.

(** A bound on the pages an operation appends. *)
Definition op_cost (op : staged_op) : Z := match op with StageUpsert _ raw => len raw + 65 | StageDelete _ => 65 end.
Definition ops_cost (ops : list staged_op) : Z := foldr (λ op n, op_cost op + n) 0 ops.

Lemma op_cost_nonneg op : 0 ≤ op_cost op.
Proof. destruct op as [k raw|]; cbn; [pose proof (len_nonneg raw)|]; lia. Qed.

Lemma ops_cost_nonneg ops : 0 ≤ ops_cost ops.
Proof. induction ops as [|op ops IH]; [done|]. pose proof (op_cost_nonneg op). cbn [ops_cost foldr]. fold (ops_cost ops). lia. Qed.

Lemma stage_serialized_ok t base g k raw :
  holds_values t base g → op_ok (StageUpsert k raw) → tx_next t < 2 ^ 60 →
  ∃ t', stage_serialized t base k raw = Ok t' ∧ holds_values t' base (<[k := Some raw]> g) ∧
    tx_next t ≤ tx_next t' ≤ tx_next t + op_cost (StageUpsert k raw).
Proof.
  intros H (Hk & Hl & v & Ev) Hroom. destruct (encoded_ok raw v Ev Hl) as [Hv Hs].
  destruct (stage_upsert_ok t base _ k _ _ _ H Hk Hv Hroom) as (t' & E & H' & Hn). exists t'. cbn [op_cost]. split_and!; [| |lia|lia].
  - unfold stage_serialized. rewrite Ev, bind_ok, try_fit_small by lia. cbn [ok_or]. by rewrite bind_ok.
  - eapply database_ext; [|exact H']. intros k'. rewrite <- stored_insert. cbn [fmap option_fmap option_map]. unfold describe. by rewrite Ev.
Qed.

Lemma stage_delete_values t base g k :
  holds_values t base g → tx_next t < 2 ^ 60 →
  ∃ t', stage_delete t base k (key_to_vec k) = Ok (bool_decide (is_Some (g k)), t') ∧ holds_values t' base (<[k := None]> g) ∧
    tx_next t ≤ tx_next t' ≤ tx_next t + 65.
Proof.
  intros H Hroom. destruct (stage_delete_ok t base _ k H Hroom) as (t' & E & H' & Hn). exists t'. split_and!; [| |lia|lia].
  - rewrite E. f_equal. f_equal. apply bool_decide_ext. unfold stored_as. by rewrite fmap_is_Some.
  - eapply database_ext; [|exact H']. intros k'. by rewrite <- stored_insert.
Qed.

Lemma stage_op_ok t base g op :
  holds_values t base g → op_ok op → tx_next t < 2 ^ 60 →
  ∃ t', stage_op t base op = Ok t' ∧ holds_values t' base (map_op g op) ∧ tx_next t ≤ tx_next t' ≤ tx_next t + op_cost op ∧
    extends t t' ∧ (dirty_pages t' ≠ ∅ ∨ t' = t ∧ ∀ k, map_op g op k = g k).
Proof.
  intros H Hop Hroom. destruct op as [k raw|k]; cbn [stage_op map_op op_cost].
  - destruct (stage_serialized_ok t base g k raw H Hop Hroom) as (t' & E & H' & Hn). exists t'.
    destruct (stage_serialized_extends _ _ _ _ _ E) as [X Hd]. cbn [op_cost] in Hn. split_and!; try done; try lia. by left.
  - destruct (stage_delete_values t base g k H Hroom) as (t' & E & H' & Hn). exists t'.
    pose proof (stage_delete_extends _ _ _ _ _ _ E) as X. apply stage_delete_dirty in E as Hd. rewrite E, bind_ok. cbn [snd].
    split_and!; try done; try lia. case_bool_decide as Hk; [by left|right]. split; [done|]. intros k'.
    destruct (decide (k' = k)) as [->|Hne]; [|by rewrite fn_lookup_insert_ne]. rewrite fn_lookup_insert. symmetry. by apply eq_None_not_Some.
Qed.

Lemma dirty_kept t t' : extends t t' → dirty_pages t ≠ ∅ → dirty_pages t' ≠ ∅.
Proof.
  intros X Hd E. apply Hd, map_empty. intros i. destruct (dirty_pages t !! i) as [b|] eqn:Eb; [|done].
  destruct (xt_dirty _ _ X i) as [b' Hb']; [eauto|]. by rewrite E, lookup_empty in Hb'.
Qed.

(** Operations that dirty no page leave the transaction and the map as they are. *)
Lemma stage_ops_ok base ops : ∀ t g,
  holds_values t base g → Forall op_ok ops → tx_next t + ops_cost ops < 2 ^ 60 →
  ∃ t', stage_ops t base ops = Ok t' ∧ holds_values t' base (map_ops g ops) ∧
    tx_next t ≤ tx_next t' ≤ tx_next t + ops_cost ops ∧ extends t t' ∧
    (dirty_pages t' ≠ ∅ ∨ t' = t ∧ ∀ k, map_ops g ops k = g k).
Proof.
  induction ops as [|op ops IH]; intros t g H Hop Hroom; cbn [stage_ops].
  { exists t. cbn [ops_cost foldr]. split_and!; try done; try lia. by right. }
  apply Forall_cons in Hop as [Ho Hop]. cbn [ops_cost foldr] in *. fold (ops_cost ops) in *.
  pose proof (op_cost_nonneg op) as Hc. pose proof (ops_cost_nonneg ops) as Hcs.
  destruct (stage_op_ok t base g op H Ho ltac:(lia)) as (t1 & E1 & H1 & Hn1 & X1 & Hd1). rewrite E1, bind_ok.
  destruct (IH t1 (map_op g op) H1 Hop ltac:(lia)) as (t' & E & H' & Hn & X & Hd). exists t'.
  split_and!; [done|done|lia|lia|by etransitivity|]. destruct Hd as [Hd|[-> Hk]]; [by left|].
  destruct Hd1 as [Hd1|[-> Hk1]]; [by left|]. right. split; [done|]. intros k. cbn [map_ops foldl]. by rewrite Hk, Hk1.
Qed.

(** ** Queries *)

(** What a query for a key of the map returns. *)
Definition query_values {V : Type} (deser : list byte → io_result V) (g : values) (k : key) : io_result (option V) :=
  match g k with
  | None => Ok None
  | Some raw => v ← deser raw; Ok (Some v)
  end.

Lemma restore_describe raw limit : len raw ≤ limit → restore limit (describe raw) = Ok raw.
Proof.
  intros Hl. unfold describe. destruct (encode_value raw) as [v|e] eqn:E; [|done].
  apply encode_value_inv in E as [->|(cap & c & Hc & -> & Hr & _)]; [done|]. cbn [restore stored_compression as_slice].
  apply decompress_value_into_ok; [by eapply lz4_roundtrip|done|lia|done].
Qed.

(** A block of the LZ4 format expands to at most 255 bytes for each of its own. *)
Definition lz4_ratio : Prop := ∀ c cap raw, decompress_into c cap = Some raw → len raw ≤ 255 * len c.

Lemma describe_size raw comp ll stored :
  lz4_ratio → describe raw = (comp, ll, stored) → len raw < 2 ^ 32 → len raw ≤ 255 * len stored.
Proof.
  intros Hr E Hl. unfold describe in E. pose proof (len_nonneg raw).
  destruct (encode_value raw) as [v|e] eqn:Ev; [|injection E as <- <- <-; lia].
  apply encode_value_inv in Ev as [->|(cap & c & Hc & -> & _ & _)]; cbn in E; injection E as <- <- <-; [lia|].
  apply lz4_roundtrip, Hr in Hc. rewrite len_app, len_le_bytes. lia.
Qed.

(** The allocation limit of a transaction covers every value it holds. *)
Lemma limit_covers t base f k comp ll stored :
  tx_holds t base f → f k = Some (comp, ll, stored) → 255 * len stored ≤ tx_next t * PAGE_SIZE * 256 ∧ ll < 2 ^ 32.
Proof.
  intros Hb Hf. destruct (finds_ok _ _ _ k Hb) as (path & lf & p & i & replace & ps & e & _ & [_ _ _ Hfound Hmiss]).
  pose proof Hb as (T & h & F & ws & Sk & _). pose proof (pool_bound _ _ _ (sk_pool _ _ _ _ _ _ Sk)) as Hpb.
  change PAGE_SIZE with 4096. destruct replace; [|destruct (Hmiss eq_refl) as [_ E]; congruence].
  destruct (Hfound eq_refl) as (raw & _ & D & Hh & _ & Hfu). rewrite Hf in Hh.
  inversion Hh as [|comp' ll' st crc (Hu & _) E1 E2 E3|comp' ll' head ps' bs (Hu & _) Hne Hc E1 E2 E3]; subst; unfold fits in Hu.
  - split; [|lia]. pose proof (leaf_decode_len _ _ _ _ D) as Hlen. pose proof (leaf_decode_size _ _ _ _ D) as [_ Ha].
    unfold admissible in Ha. unfold entry_size in Hlen. rewrite <- E1 in Hlen. cbn [inline_bytes] in Hlen.
    pose proof (len_nonneg (leaf_key_bytes e)). unfold SLOT_LEN, MAX_CELL_FOOTPRINT, LEAF_CELL_PREFIX_LEN in *. lia.
  - split; [|lia]. pose proof (chain_bytes _ _ _ _ Hc) as Hcb. unfold walk_fuel in Hfu. assert (len ps ≤ tx_next t) by (unfold len; lia).
    change OVERFLOW_PAYLOAD_LEN with 4056 in Hcb. nia.
Qed.

Lemma query_values_ok {V} (deser : list byte → io_result V) t base g k :
  lz4_ratio → holds_values t base g → tx_next t < 2 ^ 44 →
  query_transaction deser t base k = query_values deser g k.
Proof.
  intros Hr H Hroom. rewrite (query_ok deser t base (stored_as g) k H Hroom). unfold query_values, stored_as, lookup_value.
  destruct (g k) as [raw|] eqn:Eg; [|done]. cbn [fmap option_fmap option_map].
  destruct (describe raw) as [[comp ll] stored] eqn:Ed.
  destruct (limit_covers t base (stored_as g) k comp ll stored H) as [H1 H2]; [by unfold stored_as; rewrite Eg, <- Ed|].
  assert (ll = len raw) as Ell by (unfold describe in Ed; destruct (encode_value raw); by injection Ed).
  pose proof (describe_size raw comp ll stored Hr Ed ltac:(lia)).
  rewrite <- Ed, restore_describe, bind_ok; [done|]. unfold value_limit. lia.
Qed.

(** ** Batches *)

Definition insert_items (g : values) (items : list (key * list byte)) : values :=
  foldl (λ g i, <[i.1 := Some i.2]> g) g items.

Definition item_op (i : key * list byte) : staged_op := StageUpsert i.1 i.2.

Lemma map_items g items : map_ops g (map item_op items) = insert_items g items.
Proof. revert g. induction items as [|i items IH]; intros g; [done|]. apply IH. Qed.

Lemma stage_items_ops base items : ∀ t root,
  stage_items t base items root
  = t' ← stage_ops t base (map item_op items); Ok (match items with [] => root | _ => root_page_id (next_header t') end, t').
Proof.
  induction items as [|[k raw] items IH]; intros t root; [done|]. cbn [stage_items map item_op stage_ops stage_op fst snd].
  destruct (stage_serialized t base k raw) as [t1|e]; [|done]. rewrite !bind_ok, IH.
  destruct (stage_ops t1 base (map item_op items)) as [t'|e] eqn:E; [|done]. rewrite !bind_ok. f_equal. f_equal.
  destruct items; [|done]. cbn in E. by injection E as ->.
Qed.

(** Sorting a batch does not change what it inserts: for equal keys the last
    item of the caller wins. *)
Lemma insert_items_ext g g' items : (∀ k, g k = g' k) → ∀ k, insert_items g items k = insert_items g' items k.
Proof.
  revert g g'. induction items as [|i items IH]; intros g g' E k; [apply E|]. cbn. apply IH. intros k'.
  destruct (decide (k' = i.1)) as [->|Hk]; [by rewrite !fn_lookup_insert|by rewrite !fn_lookup_insert_ne].
Qed.

Lemma insert_sorted_item x l g k : insert_items g (insert_by_key x l) k = insert_items g (x :: l) k.
Proof.
  revert g k. induction l as [|y l IH]; intros g k; [done|]. cbn [insert_by_key]. destruct (key_cmp x.1 y.1) eqn:E; [done|done|].
  assert (x.1 ≠ y.1) as Hne by (intros Ek; rewrite Ek, key_cmp_refl in E; done).
  cbn [insert_items foldl]. fold (insert_items (<[y.1:=Some y.2]> g) (insert_by_key x l)). rewrite IH.
  cbn [insert_items foldl]. apply insert_items_ext. intros k'.
  destruct (decide (k' = x.1)) as [->|H1]; [by rewrite fn_lookup_insert, fn_lookup_insert_ne, fn_lookup_insert|].
  rewrite fn_lookup_insert_ne by done. destruct (decide (k' = y.1)) as [->|H2]; [by rewrite !fn_lookup_insert|].
  by rewrite !fn_lookup_insert_ne.
Qed.

Lemma insert_sorted_items items : ∀ g k, insert_items g (sort_by_key items) k = insert_items g items k.
Proof.
  induction items as [|x items IH]; intros g k; [done|]. cbn [sort_by_key foldr]. fold (sort_by_key items).
  rewrite insert_sorted_item. cbn [insert_items foldl]. apply IH.
Qed.

Lemma insert_by_key_perm {A} (x : key * A) l : insert_by_key x l ≡ₚ x :: l.
Proof.
  induction l as [|y l IH]; [done|]. cbn [insert_by_key]. destruct (key_cmp x.1 y.1); [done|done|]. rewrite IH. apply perm_swap.
Qed.

Lemma sort_by_key_perm {A} (l : list (key * A)) : sort_by_key l ≡ₚ l.
Proof. induction l as [|x l IH]; [done|]. cbn. fold (sort_by_key l). by rewrite insert_by_key_perm, IH. Qed.

Lemma ops_cost_perm ops ops' : ops ≡ₚ ops' → ops_cost ops = ops_cost ops'.
Proof. induction 1; cbn [ops_cost foldr] in *; unfold ops_cost in *; lia. Qed.

(** How many of the keys a deletion of all of them finds. *)
Fixpoint found_keys (g : values) (keys : list key) : Z :=
  match keys with
  | [] => 0
  | k :: keys => (if bool_decide (is_Some (g k)) then 1 else 0) + found_keys (<[k := None]> g) keys
  end.

Definition delete_keys (g : values) (keys : list key) : values := foldl (λ g k, <[k := None]> g) g keys.

Lemma stage_deletes_ok base keys : ∀ t g n,
  holds_values t base g → tx_next t + 65 * len keys < 2 ^ 60 → 0 ≤ n → n + len keys < 2 ^ 64 →
  ∃ t', stage_deletes t base keys n = Ok (n + found_keys g keys, t') ∧ holds_values t' base (delete_keys g keys).
Proof.
  induction keys as [|k keys IH]; intros t g n H Hroom Hn Hb; cbn [stage_deletes found_keys].
  { exists t. by rewrite Z.add_0_r. }
  rewrite len_cons in *. pose proof (len_nonneg keys).
  destruct (stage_delete_values t base g k H ltac:(lia)) as (t1 & E & H' & Hn1). rewrite E, bind_ok. cbn [fst snd].
  destruct (IH t1 (<[k := None]> g) (n + (if bool_decide (is_Some (g k)) then 1 else 0)) H') as (t' & E' & Hd);
    [lia|destruct (bool_decide _); lia|destruct (bool_decide _); lia|].
  exists t'. split; [|exact Hd]. rewrite Z.add_assoc, <- E'. destruct (bool_decide (is_Some (g k))).
  - rewrite checked_add_small by lia. cbn [ok_or]. by rewrite bind_ok.
  - by rewrite bind_ok, Z.add_0_r.
Qed.

(** ** Theorems *)

(** The index file that a commit keeps: one that dirtied a page keeps it only
    where an index is maintained, one that changed nothing leaves it alone. *)
Definition index_kept (idx : bool) (t : WriteTransaction) (index : bool) : bool :=
  if bool_decide (dirty_pages t = ∅) then index else idx && index.

(** Staged operations commit, whether they dirty pages or not. *)
Lemma ops_commit idx uuid base index g t0 ops :
  file_holds base g → begin_transaction base = Ok t0 → Forall op_ok ops →
  is_u64 uuid → generation (original_header t0) + 1 < 2 ^ 64 → tx_next t0 + ops_cost ops < 2 ^ 44 →
  ∃ t cops base', stage_ops t0 base ops = Ok t ∧
    commit_transaction idx uuid t base (rest_disk base index) = (cops, Ok tt) ∧
    apply_ops cops (rest_disk base index) = rest_disk base' (index_kept idx t index) ∧
    file_holds base' (map_ops g ops) ∧ len base' = tx_next t * PAGE_SIZE ∧ tx_next t ≤ tx_next t0 + ops_cost ops.
Proof.
  intros (t & B & H) B0 Hop Hu Hg Hroom. assert (t = t0) as -> by congruence.
  destruct (stage_ops_ok base ops t0 g H Hop ltac:(lia)) as (t & E & Ht & Hn & X & Hd). destruct Hd as [Hd|[-> Hk]].
  - destruct (commit_holds base t0 t _ _ B H X Ht) with (idx := idx) (uuid := uuid) (index := index) as (cops & base' & Hc & Ha & Hi & Hl);
      [done|by rewrite (xt_header _ _ X)|lia|lia|done|].
    exists t, cops, base'. unfold index_kept. rewrite bool_decide_false by done. split_and!; try done; lia.
  - destruct (begin_inv _ _ B) as (oh & [_ B2 _ (B4 & _) [B5 _] _]). exists t0, [], base. unfold index_kept, tx_next. rewrite B4, B2, bool_decide_true by done.
    split_and!; [done|by eapply commit_unchanged|done|by exists t0|done|]. unfold tx_next in Hn. rewrite B2 in Hn. lia.
Qed.

(** C2: a transaction is atomic and durable as a sequence of map operations.
    On a file that holds the map [g], every sequence of upserts and deletions,
    of deletions only or without any effect included, is staged successfully if
    its keys and values are within the limits of the format, and its commit
    succeeds: the checks before the commit accept it, the write-ahead log is
    gone, and the file holds the map after all the operations. *)
Theorem transaction_commits idx uuid base index g t0 ops :
  file_holds base g → begin_transaction base = Ok t0 → Forall op_ok ops →
  is_u64 uuid → generation (original_header t0) + 1 < 2 ^ 64 → tx_next t0 + ops_cost ops < 2 ^ 44 →
  ∃ t cops base', stage_ops t0 base ops = Ok t ∧
    commit_transaction idx uuid t base (rest_disk base index) = (cops, Ok tt) ∧
    apply_ops cops (rest_disk base index) = rest_disk base' (index_kept idx t index) ∧
    file_holds base' (map_ops g ops).
Proof.
  intros H B0 Hop Hu Hg Hroom.
  destruct (ops_commit idx uuid base index g t0 ops H B0 Hop Hu Hg Hroom) as (t & cops & base' & E & Hc & Ha & Hf & _).
  by exists t, cops, base'.
Qed.

(** C1: the same across crashes: whatever prefix of the effects of the commit
    took place before a crash, whichever unsynced effects were lost or torn,
    and however often recovery crashed, recovery succeeds in the end, removes
    the log, and the file holds the map before the transaction or the map after
    all of its operations, never one in between. *)
Theorem transaction_crash_atomic idx uuid base index g t0 ops n d1 d2 :
  file_holds base g → begin_transaction base = Ok t0 → Forall op_ok ops →
  is_u64 uuid → generation (original_header t0) + 1 < 2 ^ 64 → tx_next t0 + ops_cost ops < 2 ^ 44 →
  ∃ t, stage_ops t0 base ops = Ok t ∧
    (crash (exec_ops (at_rest (rest_disk base index))
              (take n (fst (commit_transaction idx uuid t base (rest_disk base index))))) d1 →
     recovery_crashes idx d1 d2 →
     ∃ rops, recover_pending idx d2 = (rops, Ok tt) ∧ wal (apply_ops rops d2) = None ∧
       (file_holds (BtreeRecovery.database (apply_ops rops d2)) g ∨
        file_holds (BtreeRecovery.database (apply_ops rops d2)) (map_ops g ops))).
Proof.
  intros (t & B & H) B0 Hop Hu Hg Hroom. assert (t = t0) as -> by congruence.
  destruct (stage_ops_ok base ops t0 g H Hop ltac:(lia)) as (t & E & Ht & Hn & X & Hd).
  exists t. split; [done|]. intros Hc Hr. destruct Hd as [Hd|[-> Hk]].
  - apply (commit_crash base t0 t _ _ B H X Ht) with (uuid := uuid) (index := index) (k := n) (d1 := d1);
      [done|by rewrite (xt_header _ _ X)|lia|lia|done|done|done].
  - rewrite (commit_unchanged _ _ _ _ _ _ B H) in Hc. cbn [fst] in Hc. rewrite take_nil in Hc. cbn in Hc.
    rewrite (rest_disk_stable idx base index d1) in Hr by (by left). rewrite (rest_disk_stable idx base index d2) by (by right).
    exists []. split_and!; [by rewrite run_recover_no_wal|done|left; by exists t0].
Qed.

(** C3: a transaction reads its own writes: after any sequence of staged
    operations a query for any key returns what the map holds for it after
    these operations, through every path of the code (inline or overflow,
    compressed or not), in particular without ever meeting the allocation limit
    of the reader, because no LZ4 block expands by more than 255. *)
Theorem transaction_reads_writes {V} (deser : list byte → io_result V) base g t ops k :
  lz4_ratio → holds_values t base g → Forall op_ok ops → tx_next t + ops_cost ops < 2 ^ 44 →
  ∃ t', stage_ops t base ops = Ok t' ∧
    query_transaction deser t' base k = query_values deser (map_ops g ops) k.
Proof.
  intros Hr H Hop Hroom. destruct (stage_ops_ok base ops t g H Hop ltac:(lia)) as (t' & E & Ht & Hn & _).
  exists t'. split; [done|]. apply query_values_ok; [done|done|lia].
Qed.

(** C14: a prepared batch inserts the items of the caller in the caller's order:
    sorting them by key does not change the outcome, since the sort is stable
    and the last of the items with the same key wins.  The batch reports the
    root of the tree after its last item. *)
Theorem upsert_batch_refines {V} (ser : V → io_result (list byte)) base g t items serialized root :
  holds_values t base g → serialize_items ser items = Ok serialized → serialized ≠ [] →
  Forall (λ i, op_ok (item_op i)) serialized → tx_next t + ops_cost (map item_op serialized) < 2 ^ 60 →
  ∃ prepared t', prepare_upsert_batch ser items = Ok prepared ∧
    stage_items t base prepared root = Ok (root_page_id (next_header t'), t') ∧
    holds_values t' base (insert_items g serialized).
Proof.
  intros H Es Hne Hop Hroom. exists (sort_by_key serialized). pose proof (sort_by_key_perm serialized) as Hp.
  destruct (stage_ops_ok base (map item_op (sort_by_key serialized)) t g H) as (t' & E & Ht & _).
  { apply Forall_forall. intros op Hin. apply list_elem_of_In, in_map_iff in Hin as (i & <- & Hi). apply list_elem_of_In in Hi.
    rewrite Hp in Hi. rewrite Forall_forall in Hop. by apply Hop. }
  { rewrite (ops_cost_perm _ (map item_op serialized)); [done|]. by apply Permutation_map. }
  exists t'. split_and!.
  - unfold prepare_upsert_batch. by rewrite Es, bind_ok.
  - rewrite stage_items_ops, E, bind_ok. f_equal. f_equal. destruct (sort_by_key serialized) eqn:Esort; [|done].
    symmetry in Hp. apply Permutation_nil_r in Hp. done.
  - rewrite map_items in Ht. eapply database_ext; [|exact Ht]. intros k. unfold stored_as. by rewrite insert_sorted_items.
Qed.

(** A batch of deletions deletes its keys and reports how many of them had
    a value, counting a repeated key once. *)
Theorem delete_batch_refines base g t keys :
  holds_values t base g → tx_next t + 65 * len keys < 2 ^ 60 →
  ∃ t', stage_deletes t base keys 0 = Ok (found_keys g keys, t') ∧ holds_values t' base (delete_keys g keys).
Proof.
  intros H Hroom.
  destruct H as (T & h & F & ws & Sk & It & Re). pose proof (pool_bound _ _ _ (sk_pool _ _ _ _ _ _ Sk)) as Hb.
  apply (stage_deletes_ok base keys t g 0); [by exists T, h, F, ws|lia|lia|lia].
Qed.
End Spec.

(** *** Witnesses *)

(** Keys of one byte, and a compressor that stores its input. *)
Definition byte_codec : KeyCodec.
Proof.
  refine {| key := byte; key_cmp a b := N.compare (Byte.to_N a) (Byte.to_N b);
            key_from_slice l := match l with [b] => Ok b | _ => Err "not a key"%string end; key_to_vec b := [b] |}.
  - intros a b. rewrite N.compare_eq_iff. split; [|by intros ->]. intros E. apply (f_equal Byte.of_N) in E.
    rewrite !Byte.of_to_N in E. by injection E.
  - intros a b. apply N.compare_antisym.
  - intros a b c. rewrite !N.compare_lt_iff. lia.
  - done.
Defined.

Definition plain_lz4 : Lz4.
Proof.
  refine {| get_maximum_output_size n := n; compress_into raw cap := if len raw <=? cap then Some raw else None;
            decompress_into c cap := if len c <=? cap then Some c else None |}.
  - intros raw cap c H. case_match; [|done]. injection H as <-. lia.
  - intros c cap raw H. case_match; [|done]. injection H as <-. lia.
  - intros raw cap c H. case_match; [|done]. injection H as <-. by rewrite Z.leb_refl.
Defined.

Lemma plain_ratio : @lz4_ratio plain_lz4.
Proof. intros c cap raw H. cbn in H. case_match; [|done]. injection H as <-. pose proof (len_nonneg c). lia. Qed.

Definition example_oh : DatabaseHeader :=
  {| root_page_id := 1; next_page_id := 2; free_page_head := 0; generation := 7; database_id := le_bytes 16 42;
     metadata := MetadataEmpty |}.

Definition example_tx : WriteTransaction :=
  {| original_header := example_oh; next_header := example_oh; original_file_len := 8192;
     dirty_pages := ∅; allocated_pages := ∅; freed_pages := ∅ |}.

Lemma example_begin : begin_transaction example_db = Ok example_tx.
Proof. vm_compute. reflexivity. Qed.

Definition example_page : SlottedPage :=
  {| sp_bytes := db_leaf 1 2 0;
     sp_header := {| page_type := Leaf; cell_count := 0; free_start := 32; free_end := 4096; left := 0; right := 0 |};
     sp_page_id := 1; sp_next_page_id := 2; sp_overflow_payload_length := None |}.

Lemma example_view : view example_tx example_db 1 (NLeaf 0 0 []).
Proof.
  split; [done|]. exists (db_leaf 1 2 0). split; [vm_compute; reflexivity|]. exists example_page.
  split; [vm_compute; reflexivity|]. split_and!; [done..|]. exists []. split; [vm_compute; reflexivity|constructor].
Qed.

(** A file with an empty leaf holds the empty map. *)
Lemma example_holds : @holds_values _ byte_codec plain_lz4 example_tx example_db (λ _, None).
Proof.
  exists (BLeaf 1 []), 0%nat, [], []. pose proof example_view as V. split_and!.
  - constructor; [done| | |by split| |done].
    + split_and!; [|constructor|done]. intros i j a b _ H. cbn in H. by rewrite lookup_nil in H.
    + constructor; [|constructor]. by exists 0, 0.
    + constructor; [constructor|constructor| | |done|].
      * intros i Hi. by apply not_elem_of_empty in Hi.
      * intros i Hi. by apply not_elem_of_empty in Hi.
      * intros i [b Hi]. cbn in Hi. by rewrite lookup_empty in Hi.
  - constructor.
  - intros k v. split; [done|]. intros Hin. by apply elem_of_nil in Hin.
Qed.

Definition example_ops : list (@staged_op byte_codec) :=
  [@StageUpsert byte_codec Byte.x05 [Byte.x0a; Byte.x0b]; @StageDelete byte_codec Byte.x07;
   @StageUpsert byte_codec Byte.x03 (replicate 600 Byte.x01)].

Lemma example_ops_ok : Forall (@op_ok byte_codec plain_lz4) example_ops.
Proof.
  repeat constructor; try done; vm_compute; try done; eexists; reflexivity.
Qed.

Lemma transaction_commits_witness :
  ∃ t cops base', @stage_ops _ byte_codec plain_lz4 example_tx example_db example_ops = Ok t ∧
    @commit_transaction _ byte_codec false 9 t example_db (rest_disk example_db true) = (cops, Ok tt) ∧
    apply_ops cops (rest_disk example_db true) = rest_disk base' (index_kept false t true) ∧
    @file_holds _ byte_codec plain_lz4 base' (@map_ops byte_codec (λ _, None) example_ops).
Proof.
  apply (@transaction_commits _ byte_codec plain_lz4 false 9 example_db true (λ _, None) example_tx example_ops).
  - exists example_tx. split; [exact example_begin|exact example_holds].
  - exact example_begin.
  - exact example_ops_ok.
  - done.
  - done.
  - done.
Defined.

Lemma transaction_crash_atomic_witness :
  ∃ t, @stage_ops _ byte_codec plain_lz4 example_tx example_db example_ops = Ok t ∧
    let d1 := lose_all (exec_ops (at_rest (rest_disk example_db true))
                (take 9 (fst (@commit_transaction _ byte_codec false 9 t example_db (rest_disk example_db true))))) in
    ∃ rops, recover_pending false d1 = (rops, Ok tt) ∧ wal (apply_ops rops d1) = None.
Proof.
  pose proof (λ d1 d2, @transaction_crash_atomic _ byte_codec plain_lz4 false 9 example_db true (λ _, None) example_tx example_ops
    9 d1 d2 (ex_intro _ example_tx (conj example_begin example_holds)) example_begin example_ops_ok
    ltac:(done) ltac:(done) ltac:(done)) as H.
  destruct (@stage_ops_ok _ byte_codec plain_lz4 example_db example_ops example_tx (λ _, None) example_holds example_ops_ok ltac:(done))
    as (t & E & _).
  exists t. split; [exact E|]. cbv zeta.
  match goal with |- ∃ rops, recover_pending false ?d = _ ∧ _ => destruct (H d d) as (t' & E' & Hc) end.
  rewrite E in E'. injection E' as <-.
  destruct (Hc (crash_lose_all _) (recovery_start _ _)) as (rops & Er & Hw & _). exists rops. exact (conj Er Hw).
Defined.

Lemma transaction_reads_writes_witness :
  ∃ t', @stage_ops _ byte_codec plain_lz4 example_tx example_db example_ops = Ok t' ∧
    @query_transaction _ byte_codec plain_lz4 _ Ok t' example_db Byte.x03 = Ok (Some (replicate 600 Byte.x01)).
Proof.
  exact (@transaction_reads_writes _ byte_codec plain_lz4 _ Ok example_db (λ _, None) example_tx example_ops Byte.x03
    plain_ratio example_holds example_ops_ok ltac:(done)).
Defined.

Definition example_items : list (@key byte_codec * list byte) :=
  [(Byte.x09, [Byte.x01]); (Byte.x02, [Byte.x02]); (Byte.x09, [Byte.x03])].

Lemma upsert_batch_refines_witness :
  ∃ prepared t', @prepare_upsert_batch byte_codec _ Ok example_items = Ok prepared ∧
    @stage_items _ byte_codec plain_lz4 example_tx example_db prepared 0 = Ok (root_page_id (next_header t'), t') ∧
    @holds_values _ byte_codec plain_lz4 t' example_db (@insert_items byte_codec (λ _, None) example_items).
Proof.
  apply (@upsert_batch_refines _ byte_codec plain_lz4 _ Ok example_db (λ _, None) example_tx example_items example_items 0 example_holds).
  - reflexivity.
  - done.
  - repeat constructor; try done; vm_compute; try done; eexists; reflexivity.
  - done.
Defined.

Lemma delete_batch_refines_witness :
  ∃ t', @stage_deletes _ byte_codec example_tx example_db [Byte.x01; Byte.x01] 0 = Ok (0, t') ∧
    @holds_values _ byte_codec plain_lz4 t' example_db (λ _, None).
Proof.
  destruct (@delete_batch_refines _ byte_codec plain_lz4 example_db (λ _, None) example_tx [Byte.x01; Byte.x01] example_holds ltac:(done))
    as (t' & E & H). exists t'. split; [exact E|]. eapply database_ext; [|exact H]. intros k. unfold stored_as, delete_keys. cbn [foldl].
  destruct (decide (k = Byte.x01)) as [->|Hk]; [by rewrite fn_lookup_insert|by rewrite !fn_lookup_insert_ne].
Defined.
