(* ===== verification/BtreeRead.v ===== *)
(** What the readers of a committed file return.  A query handle is sound when
    its caches hold what reading the file gives; every method keeps it sound,
    so its results do not depend on what was read before.  On a file that holds
    a map, the methods compute the corresponding functions of the map. *)

From stdpp Require Import gmap functions.
From S2P Require Import Prelude BtreeFormat BtreeCell BtreePage BtreeSplit BtreeTransaction BtreeUpdate.
From S2P Require Import BtreeQuery BtreeNode BtreeOverlay BtreeMutation BtreeTree BtreeClimb BtreeChain.
From S2P Require Import BtreePlace BtreeStore BtreeExtend BtreeLinks BtreeWal BtreeRecovery BtreeCrash BtreeDurable.
From S2P Require Import BtreeSpec.

Section Handle.
Context {CK : Checksum} {KC : KeyCodec}.
Context (base : list byte) (t : WriteTransaction) (oh : DatabaseHeader) (B : begun base t oh).

(** ** Sound handles *)

(** The handle reads [base] and its caches agree with the file. *)
Record sound (q : BPlusTreeQuery) : Prop := {
  so_file : q_file q = base;
  so_header : q_header q = oh;
  so_len : q_file_len q = len base;
  so_valid : ∀ id v, q_page_validations q !! id = Some v → ∃ p, tx_open t base id = Ok p ∧ v = validation p;
  so_route : ∀ id r, q_internal_routes q !! id = Some r →
    ∃ p, tx_open t base id = Ok p ∧ page_type (sp_header p) = Internal ∧ decode_internal_route p = Ok r;
  so_locator : (q_locator_page_id q = 0 ∧ q_locator_cell_ranges q = []) ∨
    ∃ p, tx_open t base (q_locator_page_id q) = Ok p ∧ page_type (sp_header p) = Leaf ∧
      cell_ranges (Z.to_nat (cell_count (sp_header p))) p 0 = Ok (q_locator_cell_ranges q);
}.

(** On every sound handle [m] returns [r] and leaves the handle sound. *)
Definition yields {A} (m : reader A) (r : io_result A) : Prop :=
  ∀ q, sound q → ∃ q', m q = (r, q') ∧ sound q'.

Lemma yields_ret {A} (a : A) : yields (mret a) (Ok a).
Proof. intros q S. by exists q. Qed.

Lemma yields_result {A} (r : io_result A) : yields (of_result r) r.
Proof. intros q S. by exists q. Qed.

Lemma yields_bind {A A'} (m : reader A) (f : A → reader A') r r' :
  yields m r → (∀ a, r = Ok a → yields (f a) (r' a)) → yields (m ≫= f) (a ← r; r' a).
Proof.
  intros Hm Hf q S. destruct (Hm q S) as (q1 & E & S1). unfold mbind, stateful_bind. rewrite E.
  destruct r as [a|e]; [|by exists q1]. destruct (Hf a eq_refl q1 S1) as (q2 & E2 & S2). by exists q2.
Qed.

(** The common case: the first computation succeeds. *)
Lemma yields_step {A A'} (m : reader A) (f : A → reader A') a r :
  yields m (Ok a) → yields (f a) r → yields (m ≫= f) r.
Proof.
  intros Hm Hf q S. destruct (Hm q S) as (q1 & E & S1). unfold mbind, stateful_bind. rewrite E. by apply Hf.
Qed.

Lemma yields_eq {A} (m : reader A) r r' : yields m r → r = r' → yields m r'.
Proof. by intros H <-. Qed.

Lemma yields_get {A} (f : BPlusTreeQuery → reader A) r :
  (∀ q, sound q → yields (f q) r) → yields (get_state ≫= f) r.
Proof. intros H q S. exact (H q S q S). Qed.

Lemma yields_state {A} (f : BPlusTreeQuery → reader A) r : (∀ q, sound q → yields (f q) r) → yields (λ q, f q q) r.
Proof. intros H q S. exact (H q S q S). Qed.

(** ** Pages *)

Lemma sound_next q : sound q → q_next q = tx_next t.
Proof. intros S. unfold q_next, tx_next. by rewrite (so_header _ S), (bg_next _ _ _ B). Qed.

Lemma query_page_ok q id bytes : sound q → tx_page t base id = Ok bytes → query_page q id = Ok bytes.
Proof.
  intros S H. unfold query_page. rewrite (sound_next q S), (so_file _ S). unfold tx_page in H.
  destruct (bg_clean _ _ _ B) as [Hd _]. rewrite Hd, lookup_empty in H.
  destruct ((id =? 0) || (tx_next t <=? id)); [done|]. bind_inv. unfold page_byte_range in *. bind_inv. field_inv. subst.
  cbn [fst snd] in *. change PAGE_SIZE with 4096 in *. rewrite try_fit_small by lia. cbn [ok_or].
  rewrite bind_ok, checked_mul_small by lia. cbn [ok_or]. rewrite bind_ok, checked_add_small by lia. cbn [ok_or].
  rewrite bind_ok, get_range_some by lia. done.
Qed.

Lemma tx_open_inv id p :
  tx_open t base id = Ok p → ∃ bytes, tx_page t base id = Ok bytes ∧ page_open bytes id (tx_next t) = Ok p ∧ sp_bytes p = bytes.
Proof.
  unfold tx_open. intros H. bind_inv. eexists. split_and!; [done|done|]. by destruct (page_open_valid _ _ _ _ H).
Qed.

Lemma page_yields {R} id p (read : list byte → io_result R) :
  tx_open t base id = Ok p → yields (with_page id read) (read (sp_bytes p)).
Proof.
  intros (bytes & E & _ & <-)%tx_open_inv q S. exists q. split; [|done]. unfold with_page.
  by rewrite (query_page_ok _ _ _ S E), bind_ok.
Qed.

Lemma opened_yields {R} id p (read : SlottedPage → io_result R) :
  tx_open t base id = Ok p → yields (with_opened_page id read) (read p).
Proof.
  intros Ho. pose proof Ho as (bytes & E & O & Hb)%tx_open_inv. unfold with_opened_page. intros q S.
  destruct (page_yields id p (λ bytes, page ← page_open bytes id (q_next q); read page) Ho q S) as (q' & E' & S').
  exists q'. split; [|done]. rewrite E'. f_equal. by rewrite (sound_next q S), Hb, O, bind_ok.
Qed.

Lemma snapshot_ok p : page_valid p → from_immutable_snapshot (sp_bytes p) (validation p) = Ok p.
Proof.
  intros V. unfold from_immutable_snapshot. apply skip_guard; [by rewrite (page_valid_len _ V)|]. by destruct p.
Qed.

Lemma sound_validated q id p : sound q → tx_open t base id = Ok p → sound (with_validation q id (validation p)).
Proof.
  intros [] Ho. constructor; try done. cbn [with_validation q_page_validations]. intros i v Hi.
  destruct (decide (i = id)) as [->|Hne]; [|rewrite lookup_insert_ne in Hi by done; eauto].
  rewrite lookup_insert_eq in Hi. injection Hi as <-. eauto.
Qed.

Lemma slotted_yields {R} id p (read : SlottedPage → io_result R) :
  tx_open t base id = Ok p → yields (with_slotted_page id read) (read p).
Proof.
  intros Ho q S. pose proof Ho as (bytes & E & O & Hb)%tx_open_inv. pose proof (tx_page_range _ _ _ _ E) as Hr.
  unfold with_slotted_page. rewrite (sound_next q S). replace (tx_next t <=? id) with false by lia.
  rewrite (query_page_ok _ _ _ S E). cbv zeta. rewrite bind_ok. destruct (page_open_valid _ _ _ _ O) as [Vp _].
  destruct (q_page_validations q !! id) as [v|] eqn:Ev.
  - destruct (so_valid _ S _ _ Ev) as (p' & Ho' & ->). assert (p' = p) as -> by congruence.
    rewrite <- Hb, (snapshot_ok _ Vp), bind_ok. destruct (read p); by exists q.
  - rewrite O, bind_ok. destruct (read p) as [r|e]; [|by exists q]. rewrite bind_ok.
    exists (with_validation q id (validation p)). split; [done|]. by apply sound_validated.
Qed.

Lemma slotted_read {R} id p (read : SlottedPage → io_result R) r :
  tx_open t base id = Ok p → read p = r → yields (with_slotted_page id read) r.
Proof. intros Ho <-. by apply slotted_yields. Qed.

Lemma opened_read {R} id p (read : SlottedPage → io_result R) r :
  tx_open t base id = Ok p → read p = r → yields (with_opened_page id read) r.
Proof. intros Ho <-. by apply opened_yields. Qed.

Lemma opened_sound : ∃ q, from_file_unlocked base = Ok q ∧ sound q.
Proof.
  destruct B as [B1 B2 B3 B4 [B5 B6] B7]. change PAGE_SIZE with 4096 in *.
  pose proof (wf_next _ (proj1 (proj2 (database_header_decode_layout _ _ B7)))) as Hn. unfold fits in Hn.
  eexists. split.
  - unfold from_file_unlocked. change PAGE_SIZE with 4096. rewrite try_fit_small by lia. cbn [ok_or]. rewrite bind_ok.
    replace (len base <? 4096) with false by lia. rewrite get_range_some by lia. cbn [ok_or]. rewrite bind_ok, B7, bind_ok.
    rewrite try_fit_small by lia. cbn [ok_or]. rewrite bind_ok, checked_mul_small by lia. cbn [ok_or]. rewrite bind_ok.
    rewrite <- B5, Z.eqb_refl. cbn [negb]. reflexivity.
  - constructor; cbn; try done; [intros id v; by rewrite lookup_empty..|by left].
Qed.

(** ** Descents *)

Lemma partition_point_ok {A} (pred : A → bool) l n :
  (n ≤ length l)%nat → Forall (λ x, pred x = true) (take n l) → Forall (λ x, pred x = false) (drop n l) →
  partition_point pred l = n.
Proof.
  revert n. induction l as [|x l IH]; intros n Hn Ht Hf; [cbn in *; lia|]. destruct n as [|n]; cbn [take drop partition_point] in *.
  - by apply Forall_cons in Hf as [-> _].
  - apply Forall_cons in Ht as [-> Ht]. f_equal. apply IH; [cbn in Hn; lia|done|done].
Qed.

Lemma key_leb_le a b : key_leb a b = true ↔ key_le a b.
Proof. unfold key_leb, key_le. destruct (key_cmp a b); split; done. Qed.

Lemma key_leb_lt a b : key_leb a b = false ↔ key_lt b a.
Proof.
  unfold key_leb, key_lt. rewrite (key_cmp_antisym a b). destruct (key_cmp a b); split; done.
Qed.

Definition route_of (lm : Z) (cs : list InternalCellRef) (seps : list (key * list byte)) : InternalRoute :=
  {| route_leftmost_child := lm; route_separators := zip_with (λ c s, (s.1, internal_right_child c)) cs seps |}.

Lemma child_for_ok lm cs seps k i child :
  length cs = length seps → (i ≤ length seps)%nat →
  Forall (λ s, key_le s.1 k) (take i seps) → Forall (λ s, key_lt k s.1) (drop i seps) →
  (lm :: map internal_right_child cs) !! i = Some child → child_for (route_of lm cs seps) k = child.
Proof.
  intros Hl Hi HA HB Hc. unfold child_for, route_of. cbn [route_separators route_leftmost_child].
  rewrite (partition_point_ok _ _ i).
  - destruct i as [|i]; [by injection Hc|]. change (map internal_right_child cs !! i = Some child) in Hc.
    rewrite list_lookup_fmap in Hc. apply fmap_Some in Hc as (c & Hc & ->).
    destruct (lookup_lt_is_Some_2 seps i ltac:(lia)) as [s Hs]. by rewrite lookup_zip_with, Hc; cbn; rewrite Hs.
  - rewrite length_zip_with. lia.
  - apply Forall_lookup. intros j x Hj. apply lookup_take_Some in Hj as [Hj Hji]. rewrite lookup_zip_with in Hj.
    destruct (cs !! j) as [c|]; [|done]. cbn in Hj. destruct (seps !! j) as [s|] eqn:Es; [|done]. injection Hj as <-.
    apply key_leb_le. rewrite Forall_lookup in HA. apply (HA j s). by apply lookup_take_Some.
  - apply Forall_lookup. intros j x Hj. rewrite lookup_drop, lookup_zip_with in Hj.
    destruct (cs !! (i + j)%nat) as [c|]; [|done]. cbn in Hj. destruct (seps !! (i + j)%nat) as [s|] eqn:Es; [|done]. injection Hj as <-.
    apply key_leb_lt. rewrite Forall_lookup in HB. apply (HB j s). by rewrite lookup_drop.
Qed.

Lemma decode_separators_ok p raws cs seps :
  (∀ i raw, raws !! i = Some raw → cell p (Z.of_nat i) = Ok raw) →
  Forall2 (λ raw c, internal_cell_ref_decode raw (sp_page_id p) (sp_next_page_id p) = Ok c) raws cs →
  Forall2 (λ c s, internal_key_bytes c = s.2 ∧ decode_key s.2 = Ok s.1) cs seps →
  ∀ n i, (i + n = length cs)%nat →
  decode_separators n p (Z.of_nat i) = Ok (drop i (route_separators (route_of 0 cs seps))).
Proof.
  intros Hcell Hd Hs n. pose proof (Forall2_length _ _ _ Hd) as L1. pose proof (Forall2_length _ _ _ Hs) as L2. cbn [route_of route_separators].
  induction n as [|n IH]; intros i Hi; cbn [decode_separators].
  - rewrite drop_ge; [done|]. rewrite length_zip_with. lia.
  - destruct (lookup_lt_is_Some_2 cs i ltac:(lia)) as [c Hc]. destruct (Forall2_lookup_r _ _ _ _ _ Hd Hc) as (raw & Hr & D).
    destruct (Forall2_lookup_l _ _ _ _ _ Hs Hc) as (s & Hsi & Hk & Dk).
    rewrite (Hcell _ _ Hr), bind_ok, D, bind_ok, Hk, Dk, bind_ok. replace (Z.of_nat i + 1) with (Z.of_nat (S i)) by lia.
    rewrite IH, bind_ok by lia. symmetry. f_equal. apply drop_S. rewrite lookup_zip_with, Hc. cbn. by rewrite Hsi.
Qed.

Lemma route_ok id lm cs seps :
  view t base id (NInternal lm cs) →
  Forall2 (λ c s, internal_key_bytes c = s.2 ∧ decode_key s.2 = Ok s.1) cs seps →
  ∃ p, tx_open t base id = Ok p ∧ page_type (sp_header p) = Internal ∧
    decode_internal_route p = Ok (route_of lm cs seps) ∧
    internal_preamble_decode (sp_bytes p) id (sp_next_page_id p) = Ok {| leftmost_child := lm |}.
Proof.
  intros V Hs. destruct (internal_raws _ _ _ _ _ V) as
    (bytes & p & raws & _ & _ & Et & _ & Hpb & Hpi & Hpn & Ht & Hpre & Hcnt & Hd & Hcell & _).
  exists p. split_and!; [done|done| |by rewrite Hpb, Hpn]. unfold decode_internal_route. rewrite Hpb, Hpi, Hpn, Hpre, bind_ok.
  rewrite Hcnt. unfold len. rewrite Nat2Z.id.
  rewrite <- Hpi, <- Hpn in Hd. pose proof (decode_separators_ok p raws cs seps Hcell Hd Hs (length cs) 0 ltac:(lia)) as E.
  change (Z.of_nat 0) with 0 in E. by rewrite E, bind_ok.
Qed.

(** The leaf whose range contains the key, and what is read from it. *)
Lemma descend_ok {R} (on_leaf : SlottedPage → io_result R) k T path lf es LP LS :
  descends k T path lf es LP LS → ∀ h lo hi fuel p, shaped h lo hi T → Forall (holds (view t base)) (pages T) →
  (h < fuel)%nat → tx_open t base lf = Ok p →
  yields (descend on_leaf fuel k (root_id T)) (x ← on_leaf p; Ok (lf, x)).
Proof.
  induction 1 as [lf es|id A c C SA SC path lf es LP LS Hl HA HC Hd IH]; intros h lo hi fuel p HS Hst Hf Hp.
  - destruct fuel as [|fuel]; [lia|]. cbn [descend root_id]. inversion Hst as [|? ? Hh _]; subst. destruct Hh as (l & r & V). cbn in V.
    destruct (view_open _ _ _ _ V) as (bytes & p' & _ & _ & (Ht & _) & Eo & _). assert (p' = p) as -> by congruence.
    pose proof (view_range _ _ _ _ V) as Hr.
    apply (yields_step _ _ None).
    { intros q S. exists q. split; [|done]. unfold cached_internal_child. rewrite (sound_next q S). replace (tx_next t <=? lf) with false by lia.
      destruct (q_internal_routes q !! lf) as [r'|] eqn:Er; [|done]. destruct (so_route _ S _ _ Er) as (p'' & E & Ht' & _). congruence. }
    set (read := λ page : SlottedPage, _). pose proof (slotted_yields lf p read Eo) as Hy.
    destruct (on_leaf p) as [x|e] eqn:Eon.
    + assert (read p = Ok (inr x)) as Hread by (unfold read; by rewrite Ht, Eon, bind_ok). rewrite Hread in Hy.
      rewrite bind_ok. eapply yields_step; [exact Hy|]. apply yields_ret.
    + assert (read p = Err e) as Hread by (unfold read; by rewrite Ht, Eon). rewrite Hread in Hy.
      intros q S. destruct (Hy q S) as (q' & E & S'). exists q'. unfold mbind, stateful_bind. by rewrite E.
  - destruct fuel as [|fuel]; [lia|]. cbn [descend root_id]. apply shaped_node in HS as (h' & -> & _ & Hseg).
    inversion Hst as [|? ? V Hkids]; subst. cbn in V. destruct (segments_focus _ _ _ _ _ _ _ _ Hl Hseg) as (Hsc & _ & _).
    assert (Forall (holds (view t base)) (pages c)) as Hstc.
    { rewrite map_app, concat_app in Hkids. cbn [map concat] in Hkids. rewrite !Forall_app in Hkids. tauto. }
    destruct (route_ok _ _ _ _ V (node_cells_keys _ _ _ _ _ Hseg)) as (pn & Eo & Ht & Er & _).
    pose proof (view_range _ _ _ _ V) as Hr. pose proof (IH _ _ _ fuel p Hsc Hstc ltac:(lia) Hp) as Hgo.
    assert (child_for (route_of (leftmost_of (A ++ c :: C)) (node_cells (A ++ c :: C) (SA ++ SC)) (SA ++ SC)) k = root_id c) as Hcf.
    { apply (child_for_ok _ _ _ _ (length SA)).
      - apply (Forall2_length _ _ _ (node_cells_keys _ _ _ _ _ Hseg)).
      - rewrite length_app. lia.
      - by rewrite take_app_length.
      - by rewrite drop_app_length.
      - rewrite (node_cells_children _ _ _ _ _ Hseg), <- Hl, list_lookup_fmap, list_lookup_middle by done. done. }
    intros q S. unfold mbind at 1, stateful_bind at 1. unfold cached_internal_child at 1. rewrite (sound_next q S).
    replace (tx_next t <=? id) with false by lia. destruct (q_internal_routes q !! id) as [r'|] eqn:Erq; cbn [fmap option_fmap option_map].
    { destruct (so_route _ S _ _ Erq) as (p' & E' & _ & Er'). assert (p' = pn) as -> by congruence.
      assert (r' = route_of (leftmost_of (A ++ c :: C)) (node_cells (A ++ c :: C) (SA ++ SC)) (SA ++ SC)) as -> by congruence.
      rewrite Hcf. by apply Hgo. }
    set (read := λ page : SlottedPage, _). destruct (slotted_yields id pn read Eo q S) as (q1 & E1 & S1).
    assert (read pn = Ok (inl (route_of (leftmost_of (A ++ c :: C)) (node_cells (A ++ c :: C) (SA ++ SC)) (SA ++ SC)))) as Hread
      by (unfold read; by rewrite Ht, Er, bind_ok).
    rewrite Hread in E1. unfold mbind at 1, stateful_bind at 1. rewrite E1. cbv zeta. rewrite Hcf.
    apply (yields_step _ _ tt); [|exact Hgo|done]. clear dependent q. clear q1 S1. intros q S. unfold cache_internal_route. rewrite (sound_next q S).
    replace (tx_next t <=? id) with false by lia. destruct (q_internal_routes q !! id) eqn:Erq; [by exists q|].
    eexists. split; [done|]. destruct S. constructor; try done. cbn [with_route q_internal_routes]. intros i r' Hi.
    destruct (decide (i = id)) as [->|Hne]; [|rewrite lookup_insert_ne in Hi by done; eauto].
    rewrite lookup_insert_eq in Hi. injection Hi as <-. eauto.
Qed.

Lemma leftmost_ok h : ∀ lo hi T fuel, shaped h lo hi T → Forall (holds (view t base)) (pages T) → (h < fuel)%nat →
  ∃ lf es LS, leaves T = (lf, es) :: LS ∧ yields (leftmost_loop fuel (root_id T)) (Ok lf).
Proof.
  induction h as [|h IH]; intros lo hi [id es|id kids seps] fuel HS Hst Hf; try done; (destruct fuel as [|fuel]; [lia|]).
  - exists id, es, []. split; [done|]. cbn [leftmost_loop root_id]. inversion Hst as [|? ? Hh _]; subst. destruct Hh as (l & r & V). cbn in V.
    destruct (view_open _ _ _ _ V) as (bytes & p & _ & _ & (Ht & _) & Eo & _).
    eapply (yields_step _ _ None); [|apply yields_ret]. by apply (slotted_read _ p); [|rewrite Ht].
  - destruct HS as [_ Hseg]. inversion Hst as [|? ? V Hkids]; subst. cbn in V.
    destruct (route_ok _ _ _ _ V (node_cells_keys _ _ _ _ _ Hseg)) as (p & Eo & Ht & _ & Ep).
    assert (∃ c kids', kids = c :: kids' ∧ ∃ lo' hi', shaped h lo' hi' c) as (c & kids' & -> & lo' & hi' & Hc).
    { inversion Hseg; subst; eauto 7. }
    cbn [map concat] in Hkids. apply Forall_app in Hkids as [Hstc _].
    destruct (IH lo' hi' c fuel Hc Hstc ltac:(lia)) as (lf & es & LS & HL & Hy).
    exists lf, es, (LS ++ concat (map leaves kids')). split; [cbn [leaves map concat]; by rewrite HL|].
    cbn [leftmost_loop root_id]. eapply (yields_step _ _ (Some (root_id c))); [|exact Hy]. by apply (slotted_read _ p); [|rewrite Ht, Ep, bind_ok].
Qed.

(** ** Values in overflow chains *)

Context {LZ : Lz4}.

Definition claimed (owned : option (gset Z)) (ps : list Z) : option (gset Z) := (λ s, list_to_set ps ∪ s) <$> owned.

Lemma record_new visited id msg : id ∉ visited → record_page_visit visited id msg = Ok ({[id]} ∪ visited).
Proof. intros. unfold record_page_visit. by rewrite bool_decide_false. Qed.

Lemma claimed_cons owned id ps : claimed ((λ s, {[id]} ∪ s) <$> owned) ps = claimed owned (id :: ps).
Proof. destruct owned as [s|]; [|done]. cbn. f_equal. set_solver. Qed.

Lemma assemble_loop_ok head ps bs :
  chain (view t base) head ps bs → NoDup ps → ∀ fuel stored_len visited owned stored,
  (length ps < fuel)%nat → (∀ i, i ∈ ps → i ∉ visited ∧ ∀ s, owned = Some s → i ∉ s) →
  len stored + len (concat bs) ≤ stored_len < 2 ^ 64 →
  yields (assemble_loop fuel stored_len head visited owned stored) (Ok (stored ++ concat bs, claimed owned ps)).
Proof.
  induction 1 as [|id next payload ps bs Hv Hp Hc IH]; intros Hnd [|fuel] sl visited owned stored Hf Hvis Hl; cbn in Hf; try lia;
    cbn [assemble_loop].
  { cbn [Z.eqb concat]. rewrite app_nil_r. replace (claimed owned []) with owned by (destruct owned; cbn; [f_equal; set_solver|done]).
    apply yields_ret. }
  pose proof (view_range _ _ _ _ Hv). replace (id =? 0) with false by lia. apply NoDup_cons in Hnd as [Hni Hnd].
  destruct (Hvis id ltac:(by left)) as [Hn Ho].
  destruct (overflow_open _ _ _ _ _ Hv) as (p & Eo & Ht & Hr & Epay). cbn [concat] in *. rewrite len_app in Hl. pose proof (len_nonneg (concat bs)).
  pose proof (len_nonneg stored).
  rewrite (record_new _ _ _ Hn). eapply yields_step; [apply yields_result|].
  eapply (yields_step _ _ ((λ s, {[id]} ∪ s) <$> owned)).
  { destruct owned as [s|]; cbn [fmap option_fmap option_map]; [|apply yields_ret].
    rewrite record_new by (by apply Ho). rewrite bind_ok. apply yields_result. }
  eapply (yields_step _ _ (stored ++ payload, next)).
  { apply (slotted_read _ p); [done|]. rewrite bool_decide_true by done. cbn [negb]. rewrite Epay, bind_ok. replace (len payload =? 0) with false by lia.
    rewrite checked_add_small by lia. cbn [ok_or]. rewrite bind_ok. replace (sl <? len stored + len payload) with false by lia. by rewrite Hr. }
  cbn [fst snd]. rewrite <- claimed_cons, app_assoc. apply IH; [done|lia| |rewrite len_app; lia].
  intros i Hi. destruct (Hvis i ltac:(by right)) as [Hi1 Hi2]. assert (i ≠ id) by (by intros ->). split; [set_solver|].
  intros s Hs. destruct owned as [s0|]; [|done]. injection Hs as <-. pose proof (Hi2 s0 eq_refl). set_solver.
Qed.

Lemma sound_file_len q : sound q → q_file_len q = tx_next t * PAGE_SIZE.
Proof. intros S. unfold tx_next. rewrite (so_len _ S), (bg_next _ _ _ B). apply (bg_file _ _ _ B). Qed.

Lemma sound_limit q : sound q → tx_next t < 2 ^ 44 → value_allocation_limit q = value_limit t.
Proof.
  intros S Hr. unfold value_allocation_limit, value_limit, saturating_mul. rewrite (sound_file_len q S).
  change PAGE_SIZE with 4096. lia.
Qed.

Lemma assemble_ok comp ll head ps bs owned :
  chain (view t base) head ps bs → NoDup ps → (length ps < walk_fuel t)%nat → value_ok comp ll (concat bs) →
  0 < tx_next t < 2 ^ 44 → ll ≤ value_limit t → (∀ i s, i ∈ ps → owned = Some s → i ∉ s) →
  yields (assemble_overflow_chain comp ll (len (concat bs)) head (crc32 (concat bs)) owned)
    (value ← restore (value_limit t) (comp, ll, concat bs); Ok (value, claimed owned ps)).
Proof.
  intros Hc Hnd Hf Hv Hn Hlim Ho. pose proof Hv as (Hu & Hll & Hl & Hcomp). pose proof (chain_bytes _ _ _ _ Hc) as Hb.
  unfold fits in Hu. unfold assemble_overflow_chain. apply yields_get. intros q S. rewrite (try_fit_small 64 (len (concat bs))) by lia. cbn [ok_or].
  eapply yields_step; [apply yields_result|]. rewrite (try_fit_small 64 ll) by lia. cbn [ok_or].
  eapply yields_step; [apply yields_result|]. rewrite (sound_file_len q S), (sound_limit q S) by lia.
  assert (len (concat bs) ≤ tx_next t * PAGE_SIZE) as Hfit.
  { change OVERFLOW_PAYLOAD_LEN with 4056 in Hb. change PAGE_SIZE with 4096. unfold walk_fuel in Hf. unfold len in *. lia. }
  replace ((tx_next t * PAGE_SIZE <? len (concat bs)) || (value_limit t <? ll)) with false by lia.
  eapply (yields_step _ _ (concat bs, claimed owned ps)).
  { apply (assemble_loop_ok head ps bs Hc Hnd _ _ ∅ owned []); [|intros i Hi; split; [set_solver|eauto]|rewrite len_nil; lia].
    unfold page_fuel. by rewrite (sound_next q S). }
  cbn [fst snd]. cbv zeta. rewrite !Z.eqb_refl. cbn [negb orb]. destruct comp; cbn [restore].
  - rewrite bool_decide_false by done. rewrite Hcomp, Z.eqb_refl, bind_ok. cbn [negb]. apply yields_ret.
  - rewrite bool_decide_true by done. rewrite decompress_in_place_eq by lia.
    apply (yields_bind _ _ _ (λ value, Ok (value, claimed owned ps))); [apply yields_result|]. intros a _. apply yields_ret.
Qed.
End Handle.
