(* ===== verification/BtreeLookup.v ===== *)
(** Point queries on a committed file: a query for a key, for the presence of a
    key and for the largest key below a bound return what the map of the file
    holds, whatever was read through the handle before. *)

From stdpp Require Import gmap functions.
From S2P Require Import Prelude BtreeFormat BtreeCell BtreePage BtreeSplit BtreeTransaction BtreeUpdate.
From S2P Require Import BtreeQuery BtreeNode BtreeOverlay BtreeMutation BtreeTree BtreeClimb BtreeChain.
From S2P Require Import BtreePlace BtreeStore BtreeExtend BtreeLinks BtreeWal BtreeRecovery BtreeCrash BtreeDurable.
From S2P Require Import BtreeSpec BtreeRead.

Section Lookup.
Context {CK : Checksum} {KC : KeyCodec} {LZ : Lz4}.
Abbreviation entry := (key * LeafCellRef)%type.
Abbreviation leaf := (Z * list entry)%type.
Abbreviation values := (key → option (list byte)).

(** ** The keys of a tree *)

Lemma shaped_sorted h lo hi T : shaped h lo hi T → sorted_keys (map fst (entries T)).
Proof.
  revert lo hi T. induction h as [|h IH]; intros lo hi [id es|id kids seps]; try done.
  - intros (Hs & _). unfold entries. cbn [leaves map concat snd]. by rewrite app_nil_r.
  - intros [_ H]. rewrite entries_node. induction H as [lo hi T HT|lo hi T s sb Ts ss _ Hl Hh HT Hs IHs]; cbn [map concat].
    + rewrite app_nil_r. by eapply IH.
    + rewrite map_app. apply sorted_app; [by eapply IH|done|]. intros a b Ha Hb.
      apply list_elem_of_In, in_map_iff in Ha as (x & <- & Hx), Hb as (y & <- & Hy). apply list_elem_of_In in Hx, Hy.
      pose proof (shaped_within _ _ _ _ HT) as HwT. rewrite Forall_forall in HwT. destruct (HwT x Hx) as [_ Hu].
      assert (shaped (S h) (Some s) hi (BNode id Ts ss) ∨ ∃ T', Ts = [T'] ∧ shaped h (Some s) hi T') as Hw.
      { inversion Hs; subst; [right; eauto|]. left. split; [done|]. by constructor. }
      assert (above (Some s) y.1) as Ha.
      { destruct Hw as [Hw|(T' & -> & Hw)]; apply shaped_within in Hw; rewrite Forall_forall in Hw; apply Hw.
        - by rewrite entries_node.
        - cbn [map concat] in Hy. by rewrite app_nil_r in Hy. }
      by eapply key_lt_le_trans.
Qed.

Lemma sorted_lookup_inj ks i j k : sorted_keys ks → ks !! i = Some k → ks !! j = Some k → i = j.
Proof.
  intros Hs Hi Hj. destruct (lt_eq_lt_dec i j) as [[H|H]|H]; [|done|].
  - exfalso. eapply key_lt_irrefl. by apply (Hs i j k k).
  - exfalso. eapply key_lt_irrefl. by apply (Hs j i k k).
Qed.

Context (base : list byte) (t : WriteTransaction) (oh : DatabaseHeader) (B : begun base t oh).
Context (T : btree) (h : nat) (F : list Z) (ws : list item) (g : values).
Context (Sk : skeleton t base T h F (owned_pages ws)) (It : holds_items (view t base) (entries T) ws).
Context (Re : represents (stored_as g) (entries T) ws).
Context (Ratio : lz4_ratio) (Room : tx_next t < 2 ^ 44).

#[local] Abbreviation yields := (yields base t oh).

Lemma tree_sorted : sorted_keys (map fst (entries T)).
Proof. eapply shaped_sorted, Sk. Qed.

Lemma file_has_pages : 0 < tx_next t < 2 ^ 44.
Proof. pose proof (pool_bound _ _ _ (sk_pool _ _ _ _ _ _ Sk)). lia. Qed.

Lemma holds_map : tx_holds t base (stored_as g).
Proof. by exists T, h, F, ws. Qed.

Lemma contents_lookup i k c :
  contents (entries T) ws !! i = Some (k, c) → ∃ e (w : item), entries T !! i = Some (k, e) ∧ ws !! i = Some w ∧ w.2 = c.
Proof. intros ([k' e] & w & [= -> ->] & He & Hw)%lookup_zip_with_Some. eauto. Qed.

(** The item of an entry stands for what the map holds. *)
Lemma entry_item j k e :
  entries T !! j = Some (k, e) →
  ∃ w, ws !! j = Some w ∧ held (view t base) (leaf_value e) w.1 (stored_as g k) ∧ NoDup w.1 ∧ (length w.1 < walk_fuel t)%nat.
Proof.
  intros Hj. destruct (Forall2_lookup_l _ _ _ _ _ It Hj) as (w & Hw & Hh). exists w. split; [done|]. cbn [snd] in Hh.
  assert (w.1 ∈ map fst ws) as Hin by (apply list_elem_of_In, in_map, list_elem_of_In; by eapply list_elem_of_lookup_2).
  destruct (owned_fuel _ _ _ _ _ _ _ Sk Hin) as [Hnd Hf]. split_and!; [|done|done]. enough (stored_as g k = w.2) as -> by done.
  assert (contents (entries T) ws !! j = Some (k, w.2)) as Hc.
  { unfold contents. rewrite lookup_zip_with, Hj. cbn. by rewrite Hw. }
  destruct (stored_as g k) as [v|] eqn:Ev.
  - apply (Re k v) in Ev. apply list_elem_of_lookup in Ev as [i (e' & w' & Ei & Ew & Hv)%contents_lookup].
    assert (i = j) as ->.
    2:{ assert (Some w' = Some w) as [= ->] by (rewrite <- Hw, <- Ew; reflexivity). by rewrite Hv. }
    apply (sorted_lookup_inj (map fst (entries T)) i j k tree_sorted); by rewrite list_lookup_fmap, ?Ei, ?Hj.
  - destruct (w.2) as [v|] eqn:Ew; [|done]. assert ((k, Some v) ∈ contents (entries T) ws) as Hin' by (by eapply list_elem_of_lookup_2).
    apply (Re k v) in Hin'. congruence.
Qed.

(** Every key of the map has an entry. *)
Lemma live_entry k raw : g k = Some raw → k ∈ map fst (entries T).
Proof.
  intros Hg. assert (stored_as g k = Some (describe raw)) as Hs by (unfold stored_as; by rewrite Hg).
  apply (Re k) in Hs. apply list_elem_of_lookup in Hs as [i (e' & w' & Ei & _)%contents_lookup].
  apply list_elem_of_In, in_map_iff. exists (k, e'). split; [done|]. apply list_elem_of_In. by eapply list_elem_of_lookup_2.
Qed.

(** A stored value is restored within the limit of the readers. *)
Lemma restored k raw comp ll stored :
  g k = Some raw → describe raw = (comp, ll, stored) →
  restore (value_limit t) (comp, ll, stored) = Ok raw ∧ ll ≤ value_limit t.
Proof.
  intros Hg Ed. destruct (limit_covers t base (stored_as g) k comp ll stored holds_map) as [H1 H2]; [by unfold stored_as; rewrite Hg, <- Ed|].
  assert (ll = len raw) as Ell by (unfold describe in Ed; destruct (encode_value raw); by injection Ed).
  pose proof (describe_size raw comp ll stored Ratio Ed ltac:(lia)). pose proof file_has_pages.
  rewrite <- Ed, restore_describe; unfold value_limit; [split; [done|lia]|lia].
Qed.

(** ** Leaves *)

Record at_leaf (lf : Z) (es : list entry) (LP LS : list leaf) (p : SlottedPage) : Prop := {
  al_open : tx_open t base lf = Ok p;
  al_type : page_type (sp_header p) = Leaf;
  al_left : left (sp_header p) = last_leaf 0 LP;
  al_right : right (sp_header p) = first_leaf LS 0;
  al_count : cell_count (sp_header p) = len es;
  al_cell : ∀ i k e, es !! i = Some (k, e) → ∃ raw range, cell_range p (Z.of_nat i) = Ok range ∧
    get_range (sp_bytes p) range.1 range.2 = Some raw ∧ cell p (Z.of_nat i) = Ok raw ∧
    leaf_cell_ref_decode raw lf (tx_next t) = Ok e ∧ leaf_key_bytes e = key_to_vec k;
  al_keys : sorted_keys (map fst es);
  al_size : len es ≤ 1024;
}.

Lemma at_leaf_ok LP lf es LS : leaves T = LP ++ (lf, es) :: LS → ∃ p, at_leaf lf es LP LS p.
Proof.
  intros HL. destruct (leaf_links _ _ _ _ _ _ Sk _ _ _ _ HL) as (_ & V & _).
  destruct (leaf_raws _ _ _ _ _ _ V) as
    (bytes & p & raws & _ & _ & Eo & _ & _ & _ & Ht & Hl & Hr & _ & Hcnt & Hd & Hcell & Hw). exists p.
  assert (∃ h' lo hi, shaped h' lo hi (BLeaf lf es)) as (h' & lo & hi & Hsh).
  { eapply subtree_shaped; [|apply Sk]. apply leaf_subtree. rewrite HL. apply elem_of_app. right. by left. }
  destruct h'; [|done]. destruct Hsh as (Hs & Hk & _).
  constructor; try done; [unfold len in *; by rewrite Hcnt, length_map| |].
  2:{ pose proof (Forall2_length _ _ _ Hd) as Hlen. rewrite length_map in Hlen. unfold weight, SLOT_LEN, PAGE_HEADER_LEN, PAGE_SIZE in Hw.
      pose proof (used_nonneg raws). unfold len in *. lia. }
  intros i k e He. assert (map snd es !! i = Some e) as He' by (by rewrite list_lookup_fmap, He).
  destruct (Forall2_lookup_r _ _ _ _ _ Hd He') as (raw & Hri & D). pose proof (Hcell _ _ Hri) as Ec.
  unfold cell in Ec. destruct (cell_range p (Z.of_nat i)) as [range|] eqn:Er; [|done]. rewrite bind_ok in Ec.
  exists raw, range. unfold cell. rewrite Er, bind_ok. destruct (get_range (sp_bytes p) range.1 range.2) as [raw'|]; [|done].
  cbn [ok_or] in Ec. injection Ec as ->. rewrite Forall_lookup in Hk. destruct (Hk _ _ He) as [Hkb _]. by split_and!.
Qed.

Lemma leaf_entry LP lf es LS i x :
  leaves T = LP ++ (lf, es) :: LS → es !! i = Some x → ∃ j, entries T !! j = Some x.
Proof.
  intros HL Hi. apply list_elem_of_lookup. unfold entries. rewrite HL, map_app, concat_app. cbn [map concat snd].
  rewrite !elem_of_app. right. left. by eapply list_elem_of_lookup_2.
Qed.

(** ** Entries *)

Context {V : Type} (deser : list byte → io_result V).

(** What reading the entry of a key gives. *)
Definition entry_value (k : key) : io_result (option (key * V)) :=
  match g k with
  | None => Ok None
  | Some raw => v ← deser raw; Ok (Some (k, v))
  end.

Lemma deserialize_encoded k : deserialize_key (key_to_vec k) = Ok k.
Proof. unfold deserialize_key. by rewrite key_roundtrip. Qed.

Lemma held_tombstone_iff v ps k : held (view t base) v ps (stored_as g k) → is_tombstone v = negb (bool_decide (is_Some (g k))).
Proof.
  unfold stored_as. intros Hh. destruct (g k) as [raw|].
  - rewrite bool_decide_true by eauto. inversion Hh; done.
  - rewrite bool_decide_false by (by intros [? ?]). inversion Hh; done.
Qed.

(** How the value of a key is stored, and that reading it gives the bytes back. *)
Inductive stored_value_of (raw : list byte) : LeafValueRef → Prop :=
| stored_plain ll crc : stored_value_of raw (Inline NoCompression ll raw crc)
| stored_lz4 ll stored crc :
    decompress_value_into stored ll (value_limit t) = Ok raw → stored_value_of raw (Inline CompressionLz4 ll stored crc)
| stored_chain comp ll sl head crc :
    yields (assemble_overflow_chain comp ll sl head crc None) (Ok (raw, None)) →
    stored_value_of raw (OverflowRef comp ll sl head crc).

Lemma value_stored LP lf es LS i k e raw :
  leaves T = LP ++ (lf, es) :: LS → es !! i = Some (k, e) → g k = Some raw → stored_value_of raw (leaf_value e).
Proof.
  intros HL Hi Hg. destruct (leaf_entry _ _ _ _ _ _ HL Hi) as [j Hj]. destruct (entry_item _ _ _ Hj) as (w & _ & Hh & Hnd & Hf).
  pose proof file_has_pages as Hn. unfold stored_as in Hh. rewrite Hg in Hh. cbn [fmap option_fmap option_map] in Hh.
  destruct (describe raw) as [[comp ll] stored] eqn:Ed. destruct (restored k raw comp ll stored Hg Ed) as [Hres Hll].
  inversion Hh as [|? ? ? crc Hv E1 E2 E3|? ? head ps bs Hv Hne Hc E1 E2 E3]; subst.
  - destruct comp; cbn [restore] in Hres; [injection Hres as ->|]; by constructor.
  - pose proof (assemble_ok base t oh B comp ll head w.1 bs None Hc Hnd Hf Hv Hn Hll ltac:(done)) as Ha.
    rewrite Hres, bind_ok in Ha. by constructor.
Qed.

Lemma value_dead LP lf es LS i k e :
  leaves T = LP ++ (lf, es) :: LS → es !! i = Some (k, e) → g k = None → leaf_value e = Tombstone.
Proof.
  intros HL Hi Hg. destruct (leaf_entry _ _ _ _ _ _ HL Hi) as [j Hj]. destruct (entry_item _ _ _ Hj) as (w & _ & Hh & _).
  unfold stored_as in Hh. rewrite Hg in Hh. by inversion Hh.
Qed.

(** A failure passes through what follows. *)
Lemma yields_error {A A'} (m : reader A) (f : A → reader A') err : yields m (Err err) → yields (m ≫= f) (Err err).
Proof. intros H. by apply (yields_bind base t oh _ _ (Err err) (λ _, Err err)). Qed.

Lemma entry_yields lf es LP LS p i k e range :
  leaves T = LP ++ (lf, es) :: LS → at_leaf lf es LP LS p → es !! i = Some (k, e) → cell_range p (Z.of_nat i) = Ok range →
  yields (decode_entry_range deser lf range) (entry_value k).
Proof.
  intros HL A Hi Hrg. destruct (al_cell _ _ _ _ _ A _ _ _ Hi) as (raw & range' & Er & Eg & _ & D & Hk).
  assert (range' = range) as -> by congruence. unfold decode_entry_range. apply yields_get. intros q S.
  pose proof (page_yields base t oh B lf p (decode_cell deser (value_allocation_limit q) lf (q_next q) range) (al_open _ _ _ _ _ A)) as Hy.
  unfold decode_cell in Hy at 2. rewrite (sound_next _ _ _ B q S), (sound_limit _ _ _ B q S Room), Eg in *. cbn [ok_or] in Hy.
  rewrite bind_ok, D, bind_ok, Hk, deserialize_encoded, bind_ok in Hy. unfold entry_value.
  destruct (g k) as [v|] eqn:Eg'.
  2:{ rewrite (value_dead _ _ _ _ _ _ _ HL Hi Eg') in Hy. eapply yields_step; [exact Hy|]. apply yields_ret. }
  destruct (value_stored _ _ _ _ _ _ _ _ HL Hi Eg') as [ll crc|ll stored crc Hd|comp ll sl head crc Ha].
  3:{ eapply yields_step; [exact Hy|]. eapply yields_step; [exact Ha|]. cbn [fst].
      apply (yields_bind base t oh _ _ _ (λ x, Ok (Some (k, x)))); [apply yields_result|]. intros x _. apply yields_ret. }
  2: rewrite Hd, bind_ok in Hy.
  all: destruct (deser v) as [x|err]; [rewrite !bind_ok in *; eapply yields_step; [exact Hy|]; apply yields_ret|by apply yields_error].
Qed.

(** ** Point queries *)

(** The leaf of a key, its page and the place of the key in it. *)
Record located (k : key) (lf : Z) (es : list entry) (LP LS : list leaf) (p : SlottedPage) (f : Found) : Prop := {
  lc_leaves : leaves T = LP ++ (lf, es) :: LS;
  lc_leaf : at_leaf lf es LP LS p;
  lc_search : search_leaf p k = Ok f;
  lc_found : match f with
             | FoundAt i => ∃ n e, i = Z.of_nat n ∧ es !! n = Some (k, e)
             | InsertAt i => ∃ n, i = Z.of_nat n ∧ target_at (map fst es) k n false
             end;
  lc_before : Forall (λ e, key_lt e.1 k) (concat (map snd LP));
  lc_after : Forall (λ e, key_lt k e.1) (concat (map snd LS));
  lc_descend : ∀ R (on_leaf : SlottedPage → io_result R), yields (descend_root on_leaf k) (x ← on_leaf p; Ok (lf, x));
}.

Lemma located_ok k : ∃ lf es LP LS p f, located k lf es LP LS p f.
Proof.
  destruct (locate_stored _ _ _ _ _ _ k Sk) as (path & lf & es & LP & LS & Hd & _). pose proof (descends_leaves _ _ _ _ _ _ _ Hd) as HL.
  destruct (search_stored _ _ _ _ _ _ _ _ _ _ _ _ Sk Hd) as (p & f & i & Eo & Es & Hcase). destruct (at_leaf_ok _ _ _ _ HL) as [p' A].
  assert (p' = p) as -> by (pose proof (al_open _ _ _ _ _ A); congruence).
  destruct (descends_order _ _ _ _ _ _ _ Hd _ _ _ (sk_shaped _ _ _ _ _ _ Sk) I I) as (H1 & H2 & _).
  exists lf, es, LP, LS, p, f. constructor; try done.
  - destruct Hcase as [(raw & e & -> & He & _)|[-> Ht]]; eauto.
  - intros R on_leaf. unfold descend_root.
    apply (yields_state base t oh (λ q, descend on_leaf (Z.to_nat (q_next q)) k (root_page_id (q_header q)))). intros q S. rewrite (sound_next _ _ _ B q S), (so_header _ _ _ _ S).
    assert (root_page_id oh = root_id T) as -> by (rewrite <- (sk_root _ _ _ _ _ _ Sk), (bg_next _ _ _ B); done).
    eapply descend_ok; [done|done|apply Sk|apply Sk| |exact Eo]. destruct (skeleton_height _ _ _ _ _ _ Sk). lia.
Qed.

(** A key without an entry has no value. *)
Lemma missing_value k lf es LP LS p i : located k lf es LP LS p (InsertAt i) → g k = None.
Proof.
  intros [HL _ _ (n & -> & _ & Hlo & Hhi) H1 H2 _]. destruct (g k) as [raw|] eqn:Eg; [exfalso|done]. apply live_entry in Eg.
  unfold entries in Eg. rewrite HL, map_app, concat_app, map_app in Eg. cbn [map concat snd] in Eg. rewrite map_app, !elem_of_app in Eg.
  rewrite Forall_forall in H1, H2.
  assert (∀ l (Q : key → Prop), (∀ e : entry, e ∈ l → Q e.1) → k ∈ map fst l → Q k) as Hin.
  { intros l Q HQ Hk. apply list_elem_of_In, in_map_iff in Hk as (e & <- & He). apply HQ. by apply list_elem_of_In. }
  destruct Eg as [Hk|[(j & Hj)%list_elem_of_lookup|Hk]].
  - eapply key_lt_irrefl. by apply (Hin _ (λ x, key_lt x k) H1).
  - destruct (decide (j < n)%nat); eapply key_lt_irrefl; [by apply (Hlo j)|apply (Hhi j); [done|lia]].
  - eapply key_lt_irrefl. by apply (Hin _ (λ x, key_lt k x) H2).
Qed.

Lemma locate_leaf_yields k lf es LP LS p f : located k lf es LP LS p f → yields (locate_leaf k) (Ok lf).
Proof.
  intros L. unfold locate_leaf. eapply yields_step; [apply (lc_descend _ _ _ _ _ _ _ L _ (λ _, Ok tt))|]. apply yields_ret.
Qed.

Lemma query_yields k : yields (query_io deser k) (query_values deser g k).
Proof.
  destruct (located_ok k) as (lf & es & LP & LS & p & f & L). pose proof L as [HL A Es Hf _ _ Hd].
  unfold query_io, query_values. destruct f as [i|i].
  - destruct Hf as (n & e & -> & He). destruct (al_cell _ _ _ _ _ A _ _ _ He) as (raw & range & Er & _).
    eapply (yields_step _ _ _ _ _ (Some (lf, range))).
    + unfold locate_cell. eapply (yields_step _ _ _ _ _ (lf, Some range)); [|apply yields_ret].
      eapply yields_eq; [apply Hd|]. cbv beta. by rewrite Es, bind_ok, Er, !bind_ok.
    + pose proof (entry_yields _ _ _ _ _ _ _ _ _ HL A He Er) as Hy.
      eapply yields_eq.
      * apply (yields_bind _ _ _ _ _ (entry_value k) (λ entry, Ok (snd <$> entry))); [exact Hy|]. intros a _. apply yields_ret.
      * unfold entry_value. destruct (g k) as [v|]; [|done]. by destruct (deser v).
  - rewrite (missing_value _ _ _ _ _ _ _ L). eapply (yields_step _ _ _ _ _ None); [|apply yields_ret].
    unfold locate_cell. eapply (yields_step _ _ _ _ _ (lf, None)); [|apply yields_ret].
    eapply yields_eq; [apply Hd|]. cbv beta. by rewrite Es, !bind_ok.
Qed.

Lemma contains_yields k : yields (contains_live_key k) (Ok (bool_decide (is_Some (g k)))).
Proof.
  destruct (located_ok k) as (lf & es & LP & LS & p & f & L). pose proof L as [HL A Es Hf _ _ _].
  unfold contains_live_key. eapply yields_step; [by eapply locate_leaf_yields|]. apply yields_get. intros q S.
  eapply (yields_step _ _ _ _ _ f); [apply (slotted_read _ _ _ B _ p); [apply A|done]|]. destruct f as [i|i].
  - destruct Hf as (n & e & -> & He). destruct (al_cell _ _ _ _ _ A _ _ _ He) as (raw & range & _ & _ & Ec & D & _).
    destruct (leaf_entry _ _ _ _ _ _ HL He) as [j Hj]. destruct (entry_item _ _ _ Hj) as (w & _ & Hh & _).
    rewrite <- (negb_involutive (bool_decide _)), <- (held_tombstone_iff _ _ _ Hh).
    apply (slotted_read _ _ _ B _ p); [apply A|]. by rewrite Ec, bind_ok, (sound_next _ _ _ B q S), D, bind_ok.
  - rewrite (missing_value _ _ _ _ _ _ _ L), bool_decide_false by (by intros [? ?]). apply yields_ret.
Qed.

(** ** The largest key below a bound *)

(** The value of the first of the keys that has one. *)
Fixpoint first_value (ks : list key) : io_result (option V) :=
  match ks with
  | [] => Ok None
  | k :: ks =>
      match g k with
      | Some raw => v ← deser raw; Ok (Some v)
      | None => first_value ks
      end
  end.

Lemma first_value_app a b :
  first_value (a ++ b) = (r ← first_value a; match r with Some v => Ok (Some v) | None => first_value b end).
Proof.
  induction a as [|k a IH]; cbn [app first_value]; [by rewrite bind_ok|]. destruct (g k) as [raw|]; [|exact IH].
  by destruct (deser raw).
Qed.

Lemma decode_entry_yields lf es LP LS p i k e :
  leaves T = LP ++ (lf, es) :: LS → at_leaf lf es LP LS p → es !! i = Some (k, e) →
  yields (decode_entry deser lf (Z.of_nat i)) (entry_value k).
Proof.
  intros HL A He. destruct (al_cell _ _ _ _ _ A _ _ _ He) as (raw & range & Er & _). unfold decode_entry.
  eapply (yields_step _ _ _ _ _ range); [|by eapply entry_yields]. apply (slotted_read _ _ _ B _ p); [apply A|].
  rewrite bool_decide_true by apply A. done.
Qed.

Lemma last_entry_yields lf es LP LS p n :
  leaves T = LP ++ (lf, es) :: LS → at_leaf lf es LP LS p → (n ≤ length es)%nat →
  yields (last_entry deser lf n) (first_value (reverse (take n (map fst es)))).
Proof.
  intros HL A. induction n as [|n IH]; intros Hn; cbn [last_entry]; [apply yields_ret|].
  destruct (lookup_lt_is_Some_2 es n ltac:(lia)) as [[k e] He].
  rewrite (take_S_r _ _ k), reverse_app by (by rewrite list_lookup_fmap, He). cbn [reverse rev_append app first_value].
  pose proof (decode_entry_yields _ _ _ _ _ _ _ _ HL A He) as Hy. unfold entry_value in Hy. destruct (g k) as [raw|].
  - destruct (deser raw) as [v|err]; rewrite ?bind_ok in *; [eapply yields_step; [exact Hy|]; apply yields_ret|].
    apply (yields_bind _ _ _ _ _ (Err err) (λ _, Err err)); [exact Hy|done].
  - eapply yields_step; [exact Hy|]. cbv beta iota. apply IH. lia.
Qed.

Lemma leaf_ids_nodup : NoDup (map fst (leaves T)).
Proof. apply cnt_nodup. intros x. pose proof (leaves_cnt x T). pose proof (skeleton_once _ _ _ _ _ _ x Sk). lia. Qed.

Lemma leaf_id_pos x : x ∈ map fst (leaves T) → 0 < x < tx_next t.
Proof. intros Hx. apply (skeleton_range _ _ _ _ _ _ x Sk). left. by apply leaf_in_ids. Qed.

(** There are fewer leaves than pages. *)
Lemma leaves_count : (length (leaves T) ≤ Z.to_nat (tx_next t - 1))%nat.
Proof.
  assert (length (map fst (leaves T)) ≤ length (seqZ 1 (tx_next t - 1)))%nat as Hl.
  { apply submseteq_length, NoDup_submseteq; [apply leaf_ids_nodup|]. intros x Hx. apply leaf_id_pos in Hx. apply elem_of_seqZ. lia. }
  rewrite length_map, length_seqZ in Hl. lia.
Qed.

Lemma leaves_fuel : (length (leaves T) < S (Z.to_nat (tx_next t)))%nat.
Proof. pose proof leaves_count. lia. Qed.

Lemma query_le_loop_ok k fuel : ∀ LP lf es LS p first n visited,
  leaves T = LP ++ (lf, es) :: LS → at_leaf lf es LP LS p → le_slots first k p = Ok n → (n ≤ length es)%nat →
  (length LP < fuel)%nat → (∀ x, x ∈ map fst LP → x ∉ visited) →
  yields (query_le_loop deser fuel k lf first visited)
    (first_value (reverse (map fst (concat (map snd LP)) ++ take n (map fst es)))).
Proof.
  induction fuel as [|fuel IH]; intros LP lf es LS p first n visited HL A Hn Hle Hf Hv; [lia|]. cbn [query_le_loop].
  eapply (yields_step _ _ _ _ _ (last_leaf 0 LP, n)).
  { apply (slotted_read _ _ _ B _ p); [apply A|]. rewrite bool_decide_true by apply A. cbn [negb]. rewrite Hn, bind_ok. by rewrite (al_left _ _ _ _ _ A). }
  cbn [fst snd]. rewrite reverse_app, first_value_app.
  apply (yields_bind _ _ _ _ _ (first_value (reverse (take n (map fst es))))
    (λ r, match r with Some v => Ok (Some v) | None => first_value (reverse (map fst (concat (map snd LP)))) end)).
  { by eapply last_entry_yields. }
  intros [v|] _; [apply yields_ret|]. cbv zeta. destruct LP as [|[l les] LP _] using rev_ind; [apply yields_ret|].
  assert (last_leaf 0 (LP ++ [(l, les)]) = l) as -> by (unfold last_leaf; by rewrite last_snoc).
  rewrite map_app in Hv. assert (l ∈ map fst (leaves T)) as Hl.
  { rewrite HL, !map_app, !elem_of_app. left. right. by left. }
  pose proof (leaf_id_pos l Hl). replace (l =? 0) with false by lia. rewrite length_app in Hf. cbn [length] in Hf.
  rewrite record_new by (apply Hv; rewrite elem_of_app; right; by left). eapply yields_step; [apply yields_result|].
  rewrite <- app_assoc in HL. cbn [app] in HL. destruct (at_leaf_ok _ _ _ _ HL) as [p' A'].
  eapply (yields_step _ _ _ _ _ tt).
  { apply (slotted_read _ _ _ B _ p'); [apply A'|]. rewrite bool_decide_true by apply A'. rewrite (al_right _ _ _ _ _ A'). cbn [first_leaf].
    by rewrite Z.eqb_refl. }
  rewrite map_app, concat_app, map_app. cbn [map concat snd]. rewrite app_nil_r.
  rewrite <- (firstn_all (map fst les)). apply (IH LP l les ((lf, es) :: LS) p' false (length (map fst les))); [done|done| |by rewrite length_map|lia|].
  - unfold le_slots. cbv zeta. rewrite (al_count _ _ _ _ _ A'), bind_ok. unfold checked_sub. rewrite length_map. unfold len.
    destruct (length les) as [|m] eqn:El; [done|]. assert ((1 <=? Z.of_nat (S m)) = true) as -> by (apply Z.leb_le; lia). unfold saturating_sub. do 2 f_equal. lia.
  - intros x Hx. assert (x ≠ l).
    { intros ->. pose proof leaf_ids_nodup as Hnd. rewrite HL, map_app in Hnd. apply NoDup_app in Hnd as (_ & Hnd & _).
      apply (Hnd l Hx). by left. }
    rewrite not_elem_of_union, not_elem_of_singleton. split; [done|]. apply Hv. rewrite elem_of_app. by left.
Qed.

(** The outcome of [query_le]. *)
Definition le_outcome (k : key) (r : io_result (option V)) : Prop :=
  (∃ k' raw, g k' = Some raw ∧ key_le k' k ∧ (∀ k'', key_le k'' k → is_Some (g k'') → key_le k'' k') ∧
     r = (v ← deser raw; Ok (Some v))) ∨
  ((∀ k', key_le k' k → g k' = None) ∧ r = Ok None).

Lemma first_value_reverse ks :
  sorted_keys ks →
  (∃ k raw, k ∈ ks ∧ g k = Some raw ∧ (∀ k', k' ∈ ks → is_Some (g k') → key_le k' k) ∧
     first_value (reverse ks) = (v ← deser raw; Ok (Some v))) ∨
  ((∀ k, k ∈ ks → g k = None) ∧ first_value (reverse ks) = Ok None).
Proof.
  induction ks as [|k ks IH] using rev_ind; intros Hs; [right; split; [intros k Hk; by apply elem_of_nil in Hk|done]|].
  rewrite reverse_app. cbn [reverse rev_append app first_value]. destruct (g k) as [raw|] eqn:Eg.
  - left. exists k, raw. split_and!; [rewrite elem_of_app; right; by left|done| |done]. intros k' Hk' _.
    apply elem_of_app in Hk' as [(i & Hi)%list_elem_of_lookup|Hk']; [|apply list_elem_of_singleton in Hk' as ->; apply key_le_iff; by right].
    apply key_le_iff. left. pose proof (lookup_lt_Some _ _ _ Hi). apply (Hs i (length ks)); [done|by rewrite lookup_app_l|].
    by rewrite lookup_app_r, Nat.sub_diag.
  - assert (sorted_keys ks) as Hs'.
    { intros i j a b Hij Ha Hb. apply (Hs i j); [done|by rewrite lookup_app_l by (by eapply lookup_lt_Some)..]. }
    destruct (IH Hs') as [(k0 & raw & Hk & Hg & Hm & ->)|[Hn ->]]; [left|right].
    + exists k0, raw. split_and!; [rewrite elem_of_app; by left|done| |done]. intros k' Hk' Hg'.
      apply elem_of_app in Hk' as [Hk'|Hk']; [by apply Hm|]. apply list_elem_of_singleton in Hk' as ->. destruct Hg'. congruence.
    + split; [|done]. intros k' Hk'. apply elem_of_app in Hk' as [Hk'|Hk']; [by apply Hn|]. by apply list_elem_of_singleton in Hk' as ->.
Qed.

(** The slots up to the place of the key hold the keys below it. *)
Lemma le_slots_ok k lf es LP LS p f :
  located k lf es LP LS p f → ∃ n, le_slots true k p = Ok n ∧ (n ≤ length es)%nat ∧
    (∀ j x, map fst es !! j = Some x → (j < n)%nat ↔ key_le x k).
Proof.
  intros [HL A Es Hf _ _ _]. unfold le_slots. cbv zeta. rewrite Es, bind_ok, (al_count _ _ _ _ _ A). pose proof (al_keys _ _ _ _ _ A) as Hs.
  destruct f as [i|i].
  - destruct Hf as (n & e & -> & He). exists (S n). pose proof (lookup_lt_Some _ _ _ He) as Hn. rewrite bind_ok. unfold saturating_sub, len.
    assert (map fst es !! n = Some k) as Hk by (by rewrite list_lookup_fmap, He).
    split_and!; [do 2 f_equal; lia|lia|]. intros j x Hj. rewrite key_le_iff. split.
    + intros Hjn. destruct (decide (j = n)) as [->|]; [right; congruence|left]. apply (Hs j n); [lia|done|done].
    + intros [Hlt| ->]; [|by rewrite (sorted_lookup_inj _ _ _ _ Hs Hj Hk); lia]. destruct (decide (j < S n)%nat); [done|exfalso].
      eapply key_lt_irrefl, key_lt_trans; [exact Hlt|]. apply (Hs n j); [lia|done|done].
  - destruct Hf as (n & -> & Hn & Hlo & Hhi). exists n. rewrite length_map in Hn. unfold checked_sub. split_and!; [| lia |].
    + destruct n as [|n]; [done|]. assert ((1 <=? Z.of_nat (S n)) = true) as -> by (apply Z.leb_le; lia). rewrite bind_ok. unfold saturating_sub, len. do 2 f_equal. lia.
    + intros j x Hj. rewrite key_le_iff. split; [intros Hjn; left; by apply (Hlo j)|]. intros Hx. destruct (decide (j < n)%nat); [done|exfalso].
      pose proof (Hhi _ _ Hj ltac:(lia)) as Hgt. destruct Hx as [Hx| ->]; [|by apply key_lt_irrefl in Hgt].
      eapply key_lt_irrefl, key_lt_trans; [exact Hx|exact Hgt].
Qed.

Lemma le_yields k : ∃ r, yields (query_le_io deser k) r ∧ le_outcome k r.
Proof.
  destruct (located_ok k) as (lf & es & LP & LS & p & f & L). pose proof L as [HL A _ _ H1 H2 _].
  destruct (le_slots_ok _ _ _ _ _ _ _ L) as (n & En & Hn & Hle). eexists. split.
  - unfold query_le_io. eapply yields_step; [by eapply locate_leaf_yields|]. apply yields_get. intros q S.
    rewrite record_new by set_solver. eapply yields_step; [apply yields_result|].
    eapply query_le_loop_ok; [exact HL|exact A|exact En|exact Hn| |].
    + pose proof leaves_fuel as Hl. rewrite HL, length_app in Hl. unfold page_fuel. rewrite (sound_next _ _ _ B q S). cbn in Hl. lia.
    + intros x Hx. rewrite not_elem_of_union, not_elem_of_singleton. split; [|set_solver]. intros ->.
      pose proof leaf_ids_nodup as Hnd. rewrite HL, map_app in Hnd. apply NoDup_app in Hnd as (_ & Hnd & _). apply (Hnd lf Hx). by left.
  - set (ks := map fst (concat (map snd LP)) ++ take n (map fst es)).
    assert (∀ x, key_le x k → is_Some (g x) → x ∈ ks) as Hin.
    { intros x Hx [raw Hg]. apply live_entry in Hg. unfold entries in Hg. rewrite HL, map_app, concat_app, map_app in Hg.
      cbn [map concat snd] in Hg. rewrite map_app, !elem_of_app in Hg. unfold ks. rewrite elem_of_app. destruct Hg as [Hg|[Hg|Hg]]; [by left| |].
      - right. apply list_elem_of_lookup in Hg as [j Hj]. apply list_elem_of_lookup. exists j. apply lookup_take_Some. split; [done|]. by apply (Hle j x Hj).
      - exfalso. apply list_elem_of_In, in_map_iff in Hg as (e & <- & He). rewrite Forall_forall in H2.
        pose proof (H2 e ltac:(by apply list_elem_of_In)) as Hgt. apply key_le_iff in Hx as [Hx|Hx].
        + eapply key_lt_irrefl, key_lt_trans; [exact Hx|exact Hgt].
        + rewrite Hx in Hgt. by apply key_lt_irrefl in Hgt. }
    assert (∀ x, x ∈ ks → key_le x k) as Hks.
    { intros x Hx. apply elem_of_app in Hx as [Hx|(j & Hj)%list_elem_of_lookup].
      - apply list_elem_of_In, in_map_iff in Hx as (e & <- & He). rewrite Forall_forall in H1. apply key_le_iff. left. apply H1. by apply list_elem_of_In.
      - apply lookup_take_Some in Hj as [Hj Hjn]. by apply (Hle j x Hj). }
    assert (sorted_keys ks) as Hs.
    { pose proof tree_sorted as Hts. unfold entries in Hts. rewrite HL, map_app, concat_app, map_app in Hts. cbn [map concat snd] in Hts.
      rewrite map_app in Hts. unfold ks. pose proof (sorted_take _ (length (map fst (concat (map snd LP))) + n) Hts) as Ht.
      rewrite take_app_add, take_app_le in Ht by (by rewrite length_map). exact Ht. }
    destruct (first_value_reverse ks Hs) as [(k0 & raw & Hk & Hg & Hm & E)|[Hnone E]]; [left|right].
    + exists k0, raw. split_and!; [done|by apply Hks| |done]. intros k'' Hk'' Hg''. apply Hm; [by apply Hin|done].
    + split; [|done]. intros k' Hk'. destruct (g k') as [raw|] eqn:Eg; [|done]. rewrite <- Eg. apply Hnone, Hin; [done|by rewrite Eg].
Qed.

(** ** The keys in order *)

(** The keys that have a value, in order. *)
Definition live (k : key) : bool := bool_decide (is_Some (g k)).
Definition live_keys : list key := filter (λ k, live k = true) (map fst (entries T)).

(** A list of the keys of a map, in order. *)
Definition listing (ks : list key) : Prop := sorted_keys ks ∧ ∀ k, k ∈ ks ↔ is_Some (g k).

Lemma sorted_filter (Q : key → Prop) `{∀ k, Decision (Q k)} ks : sorted_keys ks → sorted_keys (filter Q ks).
Proof.
  induction ks as [|k ks IH]; intros Hs; [done|]. destruct (sorted_tail _ _ Hs) as [Ht Hf]. rewrite filter_cons.
  case_decide; [|by apply IH]. apply sorted_cons; [|by apply IH]. intros b Hb. apply list_elem_of_filter in Hb as [_ Hb]. by apply Hf.
Qed.

Lemma live_listing : listing live_keys.
Proof.
  split; [apply sorted_filter, tree_sorted|]. intros k. unfold live_keys, live. rewrite list_elem_of_filter, bool_decide_eq_true.
  split; [by intros [? _]|]. intros [raw Hk]. split; [eauto|]. by eapply live_entry.
Qed.

(** A leaf has at most 1,024 entries. *)
Lemma entries_per_leaf : len (entries T) ≤ 1024 * (tx_next t - 1).
Proof.
  assert (∀ LP LS, leaves T = LP ++ LS → len (concat (map snd LS)) ≤ 1024 * len LS) as H.
  { intros LP LS. revert LP. induction LS as [|[lf es] LS IH]; intros LP HL; [done|]. cbn [map concat snd].
    destruct (at_leaf_ok _ _ _ _ HL) as [p A]. pose proof (al_size _ _ _ _ _ A). rewrite len_app, len_cons.
    pose proof (IH (LP ++ [(lf, es)]) ltac:(by rewrite HL, <- app_assoc)). lia. }
  pose proof (H [] (leaves T) eq_refl) as Hl. pose proof leaves_count. pose proof file_has_pages. unfold entries. unfold len in *. lia.
Qed.

Lemma entries_bound : len (entries T) < 2 ^ 60.
Proof. pose proof entries_per_leaf. lia. Qed.
End Lookup.
