(* ===== verification/BtreeCursor.v ===== *)
(** Scans of a committed file: the number of entries, cursors from a start
    bound, pages of a range and locators.  They run through the leaves in order
    and give the keys of the map that have a value, in order. *)

From stdpp Require Import gmap functions.
From S2P Require Import Prelude BtreeFormat BtreeCell BtreePage BtreeSplit BtreeTransaction BtreeUpdate.
From S2P Require Import BtreeQuery BtreeNode BtreeOverlay BtreeMutation BtreeTree BtreeClimb BtreeChain.
From S2P Require Import BtreePlace BtreeStore BtreeExtend BtreeLinks BtreeWal BtreeRecovery BtreeCrash BtreeDurable.
From S2P Require Import BtreeSpec BtreeRead BtreeLookup.

Section Scans.
Context {CK : Checksum} {KC : KeyCodec} {LZ : Lz4}.
Abbreviation entry := (key * LeafCellRef)%type.
Abbreviation leaf := (Z * list entry)%type.
Abbreviation values := (key → option (list byte)).
Context (base : list byte) (t : WriteTransaction) (oh : DatabaseHeader) (B : begun base t oh).
Context (T : btree) (h : nat) (F : list Z) (ws : list item) (g : values).
Context (Sk : skeleton t base T h F (owned_pages ws)) (It : holds_items (view t base) (entries T) ws).
Context (Re : represents (stored_as g) (entries T) ws).
Context (Ratio : lz4_ratio) (Room : tx_next t < 2 ^ 44).
Context {V : Type} (deser : list byte → io_result V).

#[local] Abbreviation yields := (yields base t oh).
#[local] Abbreviation sound := (sound base t oh).
#[local] Abbreviation at_leaf := (at_leaf base t).
#[local] Abbreviation at_leaf_ok := (at_leaf_ok base t T h F ws Sk).
#[local] Abbreviation located_ok := (located_ok base t oh B T h F ws Sk).
#[local] Abbreviation entry_yields := (entry_yields base t oh B T h F ws g Sk It Re Ratio Room deser).
#[local] Abbreviation leaf_ids_nodup := (leaf_ids_nodup base t T h F ws Sk).
#[local] Abbreviation leaf_id_pos := (leaf_id_pos base t T h F ws Sk).
#[local] Abbreviation leaves_fuel := (leaves_fuel base t T h F ws Sk).
#[local] Abbreviation live_keys := (live_keys T g).
#[local] Abbreviation live := (live g).
#[local] Abbreviation sound_next := (sound_next base t oh B).

#[local] Abbreviation CursorState := (@CursorState KC V).
#[local] Abbreviation cursor := (@cursor KC V).

Definition keys_of (LS : list leaf) : list key := map fst (concat (map snd LS)).

Lemma keys_of_cons lf es LS : keys_of ((lf, es) :: LS) = map fst es ++ keys_of LS.
Proof. unfold keys_of. cbn [map concat snd]. by rewrite map_app. Qed.

Lemma entry_live LP lf es LS i k e :
  leaves T = LP ++ (lf, es) :: LS → es !! i = Some (k, e) → is_tombstone (leaf_value e) = negb (live k).
Proof.
  intros HL Hi. destruct (leaf_entry T _ _ _ _ _ _ HL Hi) as [j Hj].
  destruct (entry_item base t T h F ws g Sk It Re _ _ _ Hj) as (w & _ & Hh & _). by eapply held_tombstone_iff.
Qed.

Lemma leftmost_yields : ∃ lf es LS, leaves T = (lf, es) :: LS ∧ yields leftmost_leaf (Ok lf).
Proof.
  destruct (skeleton_height _ _ _ _ _ _ Sk) as (_ & Hh & _).
  destruct (leftmost_ok base t oh B h None None T (Z.to_nat (tx_next t)) (sk_shaped _ _ _ _ _ _ Sk) (sk_pages _ _ _ _ _ _ Sk) ltac:(lia))
    as (lf & es & LS & HL & Hy). exists lf, es, LS. split; [done|]. intros q S. unfold leftmost_leaf.
  rewrite (sound_next q S), (so_header _ _ _ _ S).
  assert (root_page_id oh = root_id T) as -> by (rewrite <- (sk_root _ _ _ _ _ _ Sk), (bg_next _ _ _ B); done). by apply Hy.
Qed.

(** ** The number of entries *)

Lemma count_live_ok LP lf es LS p n : ∀ i acc,
  leaves T = LP ++ (lf, es) :: LS → at_leaf lf es LP LS p → (i + n = length es)%nat → 0 ≤ acc → acc + Z.of_nat n < 2 ^ 64 →
  count_live n p lf (tx_next t) (Z.of_nat i) acc = Ok (acc + len (filter (λ k, live k = true) (drop i (map fst es)))).
Proof.
  induction n as [|n IH]; intros i acc HL A Hi H0 Hb; cbn [count_live].
  { rewrite drop_ge by (rewrite length_map; lia). rewrite filter_nil, len_nil. f_equal. lia. }
  destruct (lookup_lt_is_Some_2 es i ltac:(lia)) as [[k e] He].
  destruct (al_cell _ _ _ _ _ _ _ A _ _ _ He) as (raw & range & _ & _ & Ec & D & _).
  rewrite Ec, bind_ok, D, bind_ok, (entry_live _ _ _ _ _ _ _ HL He).
  rewrite (drop_S _ k) by (by rewrite list_lookup_fmap, He). rewrite filter_cons.
  replace (Z.of_nat i + 1) with (Z.of_nat (S i)) by lia. destruct (live k) eqn:El; cbn [negb].
  - rewrite checked_add_small by lia. cbn [ok_or]. rewrite bind_ok, IH by (done || lia). rewrite decide_True by done. rewrite len_cons. f_equal. lia.
  - rewrite bind_ok, IH by (done || lia). by rewrite decide_False by done.
Qed.

Lemma count_page_ok LP lf es LS p :
  leaves T = LP ++ (lf, es) :: LS → at_leaf lf es LP LS p →
  count_live (Z.to_nat (cell_count (sp_header p))) p lf (tx_next t) 0 0 = Ok (len (filter (λ k, live k = true) (map fst es))).
Proof.
  intros HL A. pose proof (al_size _ _ _ _ _ _ _ A). rewrite (al_count _ _ _ _ _ _ _ A). unfold len at 1. rewrite Nat2Z.id.
  apply (count_live_ok LP lf es LS p (length es) 0 0 HL A); unfold len in *; lia.
Qed.

Lemma len_loop_ok LS : ∀ LP lf es fuel visited total,
  leaves T = LP ++ (lf, es) :: LS → (length LS < fuel)%nat → (∀ x, x ∈ map fst LS → x ∉ visited) → 0 ≤ total →
  total + 1024 * (1 + len LS) < 2 ^ 64 →
  yields (len_loop fuel lf visited total) (Ok (total + len (filter (λ k, live k = true) (keys_of ((lf, es) :: LS))))).
Proof.
  induction LS as [|[r res] LS IH]; intros LP lf es fuel visited total HL Hf Hv H0 Hb; (destruct fuel as [|fuel]; [cbn in Hf; lia|]);
    cbn [len_loop]; destruct (at_leaf_ok _ _ _ _ HL) as [p A]; pose proof (al_size _ _ _ _ _ _ _ A) as Hs; apply yields_get; intros q S;
    rewrite ?len_cons, ?len_nil in Hb; try pose proof (len_nonneg LS).
  all: eapply (yields_step _ _ _ _ _ (right (sp_header p), len (filter (λ k, live k = true) (map fst es))));
    [apply (opened_read _ _ _ B _ p); [apply A|]; rewrite bool_decide_true by apply A; cbn [negb]; rewrite (sound_next q S);
     by rewrite (count_page_ok _ _ _ _ _ HL A), bind_ok|].
  all: cbn [fst snd]; rewrite (al_right _ _ _ _ _ _ _ A), keys_of_cons, filter_app, len_app; cbn [first_leaf].
  all: assert (len (filter (λ k, live k = true) (map fst es)) ≤ 1024) as Hfl
    by (pose proof (length_filter (λ k, live k = true) (map fst es)); rewrite length_map in *; unfold len in *; lia).
  all: pose proof (len_nonneg (filter (λ k, live k = true) (map fst es))).
  all: rewrite checked_add_small by (cbn in *; lia); cbn [ok_or]; eapply yields_step; [apply yields_result|].
  - eapply yields_eq; [apply yields_ret|]. f_equal. change (len (filter (λ k, live k = true) (keys_of []))) with 0. lia.
  - cbv zeta. assert (r ∈ map fst (leaves T)) as Hr by (rewrite HL, map_app, elem_of_app; right; right; by left).
    pose proof (leaf_id_pos r Hr). replace (r =? 0) with false by lia.
    rewrite record_new by (apply Hv; by left). eapply yields_step; [apply yields_result|].
    assert (leaves T = (LP ++ [(lf, es)]) ++ (r, res) :: LS) as HL' by (by rewrite <- app_assoc).
    destruct (at_leaf_ok _ _ _ _ HL') as [p' A']. eapply (yields_step _ _ _ _ _ tt).
    { apply (opened_read _ _ _ B _ p'); [apply A'|]. rewrite bool_decide_true by apply A'. rewrite (al_left _ _ _ _ _ _ _ A').
      unfold last_leaf. rewrite last_snoc. cbn. by rewrite Z.eqb_refl. }
    rewrite Z.add_assoc. eapply IH; [exact HL'|cbn in Hf; lia| |lia|lia].
    intros x Hx. rewrite not_elem_of_union, not_elem_of_singleton. split; [|apply Hv; by right]. intros ->.
    pose proof leaf_ids_nodup as Hnd. rewrite HL', map_app in Hnd. apply NoDup_app in Hnd as (_ & _ & Hnd). by apply NoDup_cons in Hnd as [? _].
Qed.

Lemma len_yields : yields query_len (Ok (len live_keys)).
Proof.
  destruct leftmost_yields as (lf & es & LS & HL & Hy). unfold query_len. eapply yields_step; [exact Hy|]. apply yields_get. intros q S.
  rewrite record_new by set_solver. eapply yields_step; [apply yields_result|].
  assert (len live_keys = 0 + len (filter (λ k, live k = true) (keys_of ((lf, es) :: LS)))) as -> by (unfold live_keys, entries; by rewrite HL).
  pose proof leaves_fuel as Hl. rewrite HL in Hl. cbn [length] in Hl. pose proof (file_has_pages base t T h F ws Sk Room).
  eapply (len_loop_ok LS []); [done| | |lia|].
  - unfold page_fuel. rewrite (sound_next q S). lia.
  - intros x Hx. rewrite not_elem_of_union, not_elem_of_singleton. split; [|set_solver]. intros ->.
    pose proof leaf_ids_nodup as Hnd. rewrite HL in Hnd. by apply NoDup_cons in Hnd as [? _].
  - unfold len. lia.
Qed.

(** ** Cursors *)

(** From the cursor [s] and every sound handle, [m] returns [r] and leaves the
    cursor [s'] and a sound handle. *)
Definition steps {A} (m : cursor A) (s : CursorState) (r : result (bool * io_error) A) (s' : CursorState) : Prop :=
  ∀ q, sound q → ∃ q', m (s, q) = (r, (s', q')) ∧ sound q'.

Lemma steps_ret {A} (a : A) s : steps (mret a) s (Ok a) s.
Proof. intros q S. by exists q. Qed.

Lemma steps_bind {A A'} (m : cursor A) (f : A → cursor A') s a s1 r s2 :
  steps m s (Ok a) s1 → steps (f a) s1 r s2 → steps (m ≫= f) s r s2.
Proof. intros Hm Hf q S. destruct (Hm q S) as (q1 & E & S1). unfold mbind, stateful_bind. rewrite E. by apply Hf. Qed.

Lemma steps_fail {A A'} (m : cursor A) (f : A → cursor A') s e s1 : steps m s (Err e) s1 → steps (m ≫= f) s (Err e) s1.
Proof. intros Hm q S. destruct (Hm q S) as (q1 & E & S1). exists q1. unfold mbind, stateful_bind. by rewrite E. Qed.

Lemma steps_query {A} flag (m : reader A) s r : yields m r → steps (on_query flag m) s (map_err (pair flag) r) s.
Proof. intros Hm q S. destruct (Hm q S) as (q1 & E & S1). exists q1. unfold on_query. by rewrite E. Qed.

Lemma steps_result {A} (a : A) s : steps (on_cursor (Ok a)) s (Ok a) s.
Proof. intros q S. by exists q. Qed.

Lemma steps_set f s : steps (set_cursor f) s (Ok tt) (f s).
Proof. intros q S. by exists q. Qed.

Lemma steps_set_eq f s s' : f s = s' → steps (set_cursor f) s (Ok tt) s'.
Proof. intros <-. apply steps_set. Qed.

Lemma steps_get {A} (f : CursorState → cursor A) s r s' : steps (f s) s r s' → steps (cursor_state ≫= f) s r s'.
Proof. intros H q S. exact (H q S). Qed.

(** A cursor that has started and is not finished. *)
Definition cur (start : Bound) (lf slot : Z) (ranges : list (Z * Z)) (rs : Z) (exp : option Z) (loaded : bool) (vis : gset Z)
    : CursorState :=
  {| c_leaf_page_id := lf; c_slot_index := slot; c_cell_ranges := ranges; c_right_sibling := rs;
     c_expected_left_sibling := exp; c_page_loaded := loaded; c_start := start; c_initialized := true;
     c_finished := false; c_visited_leaves := vis; c_pending := None |}.

Lemma cell_ranges_ok LP lf es LS p :
  at_leaf lf es LP LS p →
  ∃ ranges, cell_ranges (Z.to_nat (cell_count (sp_header p))) p 0 = Ok ranges ∧ length ranges = length es ∧
    ∀ i k e, es !! i = Some (k, e) → ∃ range, ranges !! i = Some range ∧ cell_range p (Z.of_nat i) = Ok range.
Proof.
  intros A. rewrite (al_count _ _ _ _ _ _ _ A). unfold len. rewrite Nat2Z.id.
  assert (∀ n i, (i + n = length es)%nat → ∃ ranges, cell_ranges n p (Z.of_nat i) = Ok ranges ∧ length ranges = n ∧
    ∀ j k e, es !! (i + j)%nat = Some (k, e) → ∃ range, ranges !! j = Some range ∧ cell_range p (Z.of_nat (i + j)) = Ok range) as H.
  { induction n as [|n IH]; intros i Hi; cbn [cell_ranges].
    - exists []. split_and!; [done|done|]. intros j k e Hj. apply lookup_lt_Some in Hj. lia.
    - destruct (lookup_lt_is_Some_2 es i ltac:(lia)) as [[k e] He]. destruct (al_cell _ _ _ _ _ _ _ A _ _ _ He) as (raw & range & Er & _).
      rewrite Er, bind_ok. replace (Z.of_nat i + 1) with (Z.of_nat (S i)) by lia. destruct (IH (S i) ltac:(lia)) as (rest & E & Hl & Hr).
      rewrite E, bind_ok. exists (range :: rest). split_and!; [done|cbn; lia|]. intros [|j] k' e' Hj.
      + exists range. by rewrite Nat.add_0_r.
      + destruct (Hr j k' e') as (range' & H1 & H2); [by rewrite Nat.add_succ_comm|]. exists range'. split; [done|]. by rewrite <- Nat.add_succ_comm. }
  apply (H (length es) 0%nat). lia.
Qed.

(** The cursor stands before the keys [ks]. *)
Record ready (s : CursorState) (ks : list key) : Prop := {
  rd_at : ∃ LP lf es LS p i start ranges rs exp loaded vis,
    s = cur start lf (Z.of_nat i) ranges rs exp loaded vis ∧ leaves T = LP ++ (lf, es) :: LS ∧ at_leaf lf es LP LS p ∧
    (loaded = true → cell_ranges (Z.to_nat (cell_count (sp_header p))) p 0 = Ok ranges ∧ rs = first_leaf LS 0) ∧
    (exp = None ∨ exp = Some (last_leaf 0 LP)) ∧ (∀ x, x ∈ map fst LS → x ∉ vis) ∧
    ks = drop i (map fst es) ++ keys_of LS;
}.

(** An item of the cursor. *)
Definition item_of (k : key) : io_result (key * V) := v ← deser (default [] (g k)); Ok (k, v).

Definition entry_result (k : key) (raw : list byte) : result (bool * io_error) (option (key * V)) :=
  map_err (pair true) (v ← deser raw; Ok (Some (k, v))).

Lemma cursor_slot_same start lf i ranges rs exp loaded vis j :
  cursor_slot (cur start lf i ranges rs exp loaded vis) j = cur start lf j ranges rs exp loaded vis.
Proof. done. Qed.

(** The slots of a loaded page, up to the first key with a value. *)
Lemma slots_ok LP lf es LS p ranges start rs exp vis dead : ∀ n i k rest raw,
  leaves T = LP ++ (lf, es) :: LS → at_leaf lf es LP LS p →
  cell_ranges (Z.to_nat (cell_count (sp_header p))) p 0 = Ok ranges →
  drop i (map fst es) = dead ++ k :: rest → Forall (λ x, g x = None) dead → g k = Some raw → (length dead < n)%nat →
  steps (cursor_slots deser n) (cur start lf (Z.of_nat i) ranges rs exp true vis) (entry_result k raw)
    (cur start lf (Z.of_nat (i + length dead + 1)) ranges rs exp true vis).
Proof.
  induction dead as [|d dead IH]; intros n i k rest raw HL A Er Hd Hdead Hg Hn; (destruct n as [|n]; [lia|]); cbn [cursor_slots];
    cbn [app] in Hd; destruct (cell_ranges_ok _ _ _ _ _ A) as (ranges' & Er' & _ & Hrg); assert (ranges' = ranges) as -> by congruence;
    (match type of Hd with _ = ?x :: _ => assert (map fst es !! i = Some x) as Hi by (rewrite <- (Nat.add_0_r i), <- lookup_drop; by rewrite Hd) end);
    rewrite list_lookup_fmap in Hi; apply fmap_Some in Hi as ([k' e] & He & Ek); cbn [fst] in Ek; subst k';
    destruct (Hrg _ _ _ He) as (range & Hrange & Hcr); pose proof (entry_yields _ _ _ _ _ _ _ _ _ HL A He Hcr) as Hy;
    apply steps_get; cbn [cur c_cell_ranges c_slot_index c_leaf_page_id]; unfold get; rewrite (proj2 (Z.leb_le 0 (Z.of_nat i)) ltac:(lia)), Nat2Z.id, Hrange;
    (eapply steps_bind; [apply steps_set|]); fold (cur start lf (Z.of_nat i) ranges rs exp true vis); rewrite cursor_slot_same;
    cbn [cur c_slot_index]; unfold entry_value in Hy.
  - rewrite Hg in Hy. replace (i + length [] + 1)%nat with (S i) by (cbn; lia). replace (Z.of_nat i + 1) with (Z.of_nat (S i)) by lia.
    unfold entry_result. pose proof (steps_query true _ (cur start lf (Z.of_nat (S i)) ranges rs exp true vis) _ Hy) as Hq.
    destruct (deser raw) as [v|err]; [eapply steps_bind; [exact Hq|]; apply steps_ret|eapply steps_fail; exact Hq].
  - apply Forall_cons in Hdead as [Hgd Hdead]. rewrite Hgd in Hy. replace (Z.of_nat i + 1) with (Z.of_nat (S i)) by lia.
    eapply steps_bind; [exact (steps_query true _ _ _ Hy)|]. cbv beta iota. replace (i + length (d :: dead) + 1)%nat with (S i + length dead + 1)%nat by (cbn; lia).
    eapply IH; try done; [|cbn in Hn; lia]. rewrite <- Nat.add_1_r, <- drop_drop, Hd. done.
Qed.

(** The slots of a loaded page when no key has a value. *)
Lemma slots_none LP lf es LS p ranges start rs exp vis : ∀ n i,
  leaves T = LP ++ (lf, es) :: LS → at_leaf lf es LP LS p →
  cell_ranges (Z.to_nat (cell_count (sp_header p))) p 0 = Ok ranges →
  Forall (λ x, g x = None) (drop i (map fst es)) → (length es ≤ i + n)%nat →
  ∃ j, steps (cursor_slots deser n) (cur start lf (Z.of_nat i) ranges rs exp true vis) (Ok None)
    (cur start lf (Z.of_nat j) ranges rs exp true vis).
Proof.
  induction n as [|n IH]; intros i HL A Er Hdead Hn; cbn [cursor_slots]; [exists i; apply steps_ret|].
  destruct (cell_ranges_ok _ _ _ _ _ A) as (ranges' & Er' & Hlr & Hrg). assert (ranges' = ranges) as -> by congruence.
  destruct (decide (i < length es)%nat) as [Hlt|Hge].
  - destruct (lookup_lt_is_Some_2 es i Hlt) as [[k e] He]. destruct (Hrg _ _ _ He) as (range & Hrange & Hcr).
    pose proof (entry_yields _ _ _ _ _ _ _ _ _ HL A He Hcr) as Hy. rewrite (drop_S _ k) in Hdead by (by rewrite list_lookup_fmap, He).
    apply Forall_cons in Hdead as [Hgk Hdead]. unfold entry_value in Hy. rewrite Hgk in Hy.
    destruct (IH (S i) HL A Er Hdead ltac:(lia)) as [j Hj]. exists j. apply steps_get. cbn [cur c_cell_ranges c_slot_index c_leaf_page_id].
    unfold get. rewrite (proj2 (Z.leb_le 0 (Z.of_nat i)) ltac:(lia)), Nat2Z.id, Hrange. eapply steps_bind; [apply steps_set|].
    fold (cur start lf (Z.of_nat i) ranges rs exp true vis). rewrite cursor_slot_same. cbn [cur c_slot_index].
    replace (Z.of_nat i + 1) with (Z.of_nat (S i)) by lia. eapply steps_bind; [exact (steps_query true _ _ _ Hy)|]. exact Hj.
  - exists i. apply steps_get. cbn [cur c_cell_ranges c_slot_index]. unfold get. rewrite (proj2 (Z.leb_le 0 (Z.of_nat i)) ltac:(lia)), Nat2Z.id.
    rewrite lookup_ge_None_2 by lia. apply steps_ret.
Qed.

Lemma load_ok LP lf es LS p start i ranges rs exp vis :
  at_leaf lf es LP LS p → (exp = None ∨ exp = Some (last_leaf 0 LP)) →
  ∃ ranges', cell_ranges (Z.to_nat (cell_count (sp_header p))) p 0 = Ok ranges' ∧ length ranges' = length es ∧
    steps load_cursor_page (cur start lf i ranges rs exp false vis) (Ok tt) (cur start lf i ranges' (first_leaf LS 0) exp true vis).
Proof.
  intros A Hexp. destruct (cell_ranges_ok _ _ _ _ _ A) as (ranges' & Er & Hl & _). exists ranges'. split_and!; [done|done|].
  unfold load_cursor_page. apply steps_get. eapply steps_bind; [apply steps_set|]. eapply (steps_bind _ _ _ (ranges', first_leaf LS 0)).
  { apply (steps_query false _ _ (Ok _)). apply (opened_read _ _ _ B _ p); [apply A|]. rewrite bool_decide_true by apply A. cbn [negb cur c_expected_left_sibling].
    rewrite (al_left _ _ _ _ _ _ _ A), Er, bind_ok, (al_right _ _ _ _ _ _ _ A).
    destruct Hexp as [-> | ->]; cbv iota beta; [done|]. by rewrite Z.eqb_refl. }
  apply steps_set.
Qed.

(** The loop over the leaves, from a leaf that is loaded or not. *)
Lemma leaves_step LP lf es LS p start i ranges rs exp loaded vis fuel :
  at_leaf lf es LP LS p → (exp = None ∨ exp = Some (last_leaf 0 LP)) →
  (loaded = true → cell_ranges (Z.to_nat (cell_count (sp_header p))) p 0 = Ok ranges ∧ rs = first_leaf LS 0) →
  ∃ ranges', cell_ranges (Z.to_nat (cell_count (sp_header p))) p 0 = Ok ranges' ∧ length ranges' = length es ∧
    ∀ r s',
    let s1 := cur start lf i ranges' (first_leaf LS 0) exp true vis in
    steps (entry ← cursor_slots deser (length ranges');
      match entry with
      | Some e => mret (Some e)
      | None =>
          if first_leaf LS 0 =? 0 then mret None else
          visited ← on_cursor (record_page_visit vis (first_leaf LS 0) "right sibling chain contains a cycle");
          _ ← set_cursor (λ s, cursor_advance s (first_leaf LS 0) visited);
          cursor_leaves deser fuel
      end) s1 r s' →
    steps (cursor_leaves deser (S fuel)) (cur start lf i ranges rs exp loaded vis) r s'.
Proof.
  intros A Hexp Hld. assert (∃ ranges', cell_ranges (Z.to_nat (cell_count (sp_header p))) p 0 = Ok ranges' ∧ length ranges' = length es ∧
    steps (if loaded then mret tt else load_cursor_page) (cur start lf i ranges rs exp loaded vis) (Ok tt)
      (cur start lf i ranges' (first_leaf LS 0) exp true vis)) as (ranges' & Er & Hl & Hst).
  { destruct loaded; [|by eapply load_ok]. destruct (Hld eq_refl) as [Er ->]. exists ranges.
    destruct (cell_ranges_ok _ _ _ _ _ A) as (ranges' & Er' & Hl & _). assert (ranges' = ranges) as -> by congruence. split_and!; [done|done|apply steps_ret]. }
  exists ranges'. split_and!; [done|done|]. intros r s' s1 H. cbn [cursor_leaves]. apply steps_get.
  eapply steps_bind; [exact Hst|]. apply steps_get. exact H.
Qed.

Lemma dead_split (xs ys dead : list key) k rest :
  xs ++ ys = dead ++ k :: rest → Forall (λ x, g x = None) dead →
  (∃ xs', xs = dead ++ k :: xs' ∧ rest = xs' ++ ys) ∨
  (∃ d2, dead = xs ++ d2 ∧ ys = d2 ++ k :: rest).
Proof.
  intros E _. apply app_eq_app in E as (l & [[-> E]|[-> E]]).
  - destruct l as [|x l]; [right; exists []; by rewrite !app_nil_r|]. injection E as -> ->. left. by exists l.
  - right. by exists l.
Qed.

(** The next key with a value is on the page. *)
Lemma slots_found LP lf es LS p i start ranges exp vis dead k xs raw (m : cursor (option (key * V))) s f :
  leaves T = LP ++ (lf, es) :: LS → at_leaf lf es LP LS p →
  cell_ranges (Z.to_nat (cell_count (sp_header p))) p 0 = Ok ranges → length ranges = length es →
  (exp = None ∨ exp = Some (last_leaf 0 LP)) → (∀ x, x ∈ map fst LS → x ∉ vis) →
  drop i (map fst es) = dead ++ k :: xs → Forall (λ x, g x = None) dead → g k = Some raw →
  (∀ r s', steps (entry ← cursor_slots deser (length ranges); match entry with Some e => mret (Some e) | None => f end)
     (cur start lf (Z.of_nat i) ranges (first_leaf LS 0) exp true vis) r s' → steps m s r s') →
  ∃ s', steps m s (entry_result k raw) s' ∧ ready s' (xs ++ keys_of LS).
Proof.
  intros HL A Er Hlr Hexp Hv Hxs Hdead Hg Hm.
  assert (length dead < length ranges)%nat as Hdl
    by (rewrite Hlr; apply (f_equal length) in Hxs; rewrite length_drop, length_map, length_app in Hxs; cbn in Hxs; lia).
  pose proof (slots_ok _ _ _ _ _ _ start (first_leaf LS 0) exp vis _ (length ranges) i _ _ _ HL A Er Hxs Hdead Hg Hdl) as Hs.
  eexists. split.
  - apply Hm. unfold entry_result in *. destruct (deser raw) as [v|err]; [eapply steps_bind; [exact Hs|]; apply steps_ret|eapply steps_fail; exact Hs].
  - constructor. do 12 eexists. split_and!; [reflexivity|exact HL|exact A|done|exact Hexp|exact Hv|].
    rewrite <- Nat.add_assoc, <- drop_drop, Hxs, Nat.add_comm. cbn [Nat.add drop].
    change (S (length dead)) with (1 + length dead)%nat. rewrite Nat.add_comm, <- drop_drop, drop_app_length. done.
Qed.

(** Up to the next key with a value. *)
Lemma leaves_ok LS : ∀ LP lf es p i start ranges rs exp loaded vis fuel dead k rest raw,
  leaves T = LP ++ (lf, es) :: LS → at_leaf lf es LP LS p →
  (loaded = true → cell_ranges (Z.to_nat (cell_count (sp_header p))) p 0 = Ok ranges ∧ rs = first_leaf LS 0) →
  (exp = None ∨ exp = Some (last_leaf 0 LP)) → (∀ x, x ∈ map fst LS → x ∉ vis) → (length LS < fuel)%nat →
  drop i (map fst es) ++ keys_of LS = dead ++ k :: rest → Forall (λ x, g x = None) dead → g k = Some raw →
  ∃ s', steps (cursor_leaves deser fuel) (cur start lf (Z.of_nat i) ranges rs exp loaded vis) (entry_result k raw) s' ∧ ready s' rest.
Proof.
  induction LS as [|[r res] LS IH]; intros LP lf es p i start ranges rs exp loaded vis fuel dead k rest raw HL A Hld Hexp Hv Hf Hks Hdead Hg;
    (destruct fuel as [|fuel]; [lia|]);
    (destruct (leaves_step _ _ _ _ _ start (Z.of_nat i) ranges rs exp loaded vis fuel A Hexp Hld) as (ranges' & Er & Hlr & Hstep));
    (destruct (dead_split _ _ _ _ _ Hks Hdead) as [(xs & Hxs & ->)|(d2 & -> & Hys)]).
  1, 3: eapply slots_found; try done; exact Hstep.
  - by destruct d2.
  - apply Forall_app in Hdead as [Hd1 Hd2].
    destruct (slots_none _ _ _ _ _ _ start (first_leaf ((r, res) :: LS) 0) exp vis (length ranges') i HL A Er Hd1 ltac:(lia)) as [j Hj].
    assert (leaves T = (LP ++ [(lf, es)]) ++ (r, res) :: LS) as HL' by (by rewrite <- app_assoc).
    destruct (at_leaf_ok _ _ _ _ HL') as [p' A']. rewrite keys_of_cons in Hys.
    assert (r ∈ map fst (leaves T)) as Hr by (rewrite HL, map_app, elem_of_app; right; right; by left). pose proof (leaf_id_pos r Hr).
    edestruct (IH (LP ++ [(lf, es)]) r res p' 0%nat start [] (first_leaf ((r, res) :: LS) 0) (Some lf) false ({[r]} ∪ vis) fuel d2 k rest raw)
      as (s' & Hs' & Hrd); try done.
    + right. unfold last_leaf. by rewrite last_snoc.
    + intros x Hx. rewrite not_elem_of_union, not_elem_of_singleton. split; [|apply Hv; by right]. intros ->.
      pose proof leaf_ids_nodup as Hnd. rewrite HL', map_app in Hnd. apply NoDup_app in Hnd as (_ & _ & Hnd). by apply NoDup_cons in Hnd as [? _].
    + cbn in Hf. lia.
    + exists s'. split; [|done]. apply Hstep. eapply steps_bind; [exact Hj|]. cbn [first_leaf]. replace (r =? 0) with false by lia.
      rewrite record_new by (apply Hv; by left). eapply steps_bind; [apply steps_result|]. eapply steps_bind; [apply steps_set|]. exact Hs'.
Qed.

(** To the end when no key has a value. *)
Lemma leaves_none LS : ∀ LP lf es p i start ranges rs exp loaded vis fuel,
  leaves T = LP ++ (lf, es) :: LS → at_leaf lf es LP LS p →
  (loaded = true → cell_ranges (Z.to_nat (cell_count (sp_header p))) p 0 = Ok ranges ∧ rs = first_leaf LS 0) →
  (exp = None ∨ exp = Some (last_leaf 0 LP)) → (∀ x, x ∈ map fst LS → x ∉ vis) → (length LS < fuel)%nat →
  Forall (λ x, g x = None) (drop i (map fst es) ++ keys_of LS) →
  ∃ s', steps (cursor_leaves deser fuel) (cur start lf (Z.of_nat i) ranges rs exp loaded vis) (Ok None) s' ∧ c_pending s' = None.
Proof.
  induction LS as [|[r res] LS IH]; intros LP lf es p i start ranges rs exp loaded vis fuel HL A Hld Hexp Hv Hf Hdead;
    (destruct fuel as [|fuel]; [lia|]); apply Forall_app in Hdead as [Hd1 Hd2];
    (destruct (leaves_step _ _ _ _ _ start (Z.of_nat i) ranges rs exp loaded vis fuel A Hexp Hld) as (ranges' & Er & Hlr & Hstep));
    (match type of Hstep with context [first_leaf ?L 0] =>
       destruct (slots_none _ _ _ _ _ _ start (first_leaf L 0) exp vis (length ranges') i HL A Er Hd1 ltac:(lia)) as [j Hj] end).
  - eexists. split; [apply Hstep; eapply steps_bind; [exact Hj|]; apply steps_ret|done].
  - assert (leaves T = (LP ++ [(lf, es)]) ++ (r, res) :: LS) as HL' by (by rewrite <- app_assoc).
    destruct (at_leaf_ok _ _ _ _ HL') as [p' A']. rewrite keys_of_cons in Hd2.
    assert (r ∈ map fst (leaves T)) as Hr by (rewrite HL, map_app, elem_of_app; right; right; by left). pose proof (leaf_id_pos r Hr).
    edestruct (IH (LP ++ [(lf, es)]) r res p' 0%nat start [] (first_leaf ((r, res) :: LS) 0) (Some lf) false ({[r]} ∪ vis) fuel)
      as (s' & Hs' & Hrd); try done.
    + right. unfold last_leaf. by rewrite last_snoc.
    + intros x Hx. rewrite not_elem_of_union, not_elem_of_singleton. split; [|apply Hv; by right]. intros ->.
      pose proof leaf_ids_nodup as Hnd. rewrite HL', map_app in Hnd. apply NoDup_app in Hnd as (_ & _ & Hnd). by apply NoDup_cons in Hnd as [? _].
    + cbn in Hf. lia.
    + exists s'. split; [|done]. apply Hstep. eapply steps_bind; [exact Hj|]. cbn [first_leaf]. replace (r =? 0) with false by lia.
      rewrite record_new by (apply Hv; by left). eapply steps_bind; [apply steps_result|]. eapply steps_bind; [apply steps_set|]. exact Hs'.
Qed.

(** The keys from a start bound on. *)
Definition from_bound (start : Bound) (ks : list key) : list key := filter (λ k, within_start k start = true) ks.

Lemma filter_split (Q : key → Prop) `{∀ k, Decision (Q k)} a b :
  Forall (λ x, ¬ Q x) a → Forall Q b → filter Q (a ++ b) = b.
Proof.
  intros Ha Hb. rewrite filter_app. induction Ha as [|x a Hx _ IH]; cbn [app].
  - cbn. induction Hb as [|x b Hx _ IH]; [done|]. rewrite filter_cons, decide_True by done. cbn [app]. by rewrite IH.
  - by rewrite filter_cons, decide_False.
Qed.

(** The place of a start bound in the leaves. *)
Lemma from_bound_at start LP lf es LS i :
  leaves T = LP ++ (lf, es) :: LS →
  Forall (λ e : entry, within_start e.1 start = false) (concat (map snd LP)) →
  Forall (λ e : entry, within_start e.1 start = true) (concat (map snd LS)) →
  (∀ j x, map fst es !! j = Some x → within_start x start = true ↔ (i ≤ j)%nat) →
  drop i (map fst es) ++ keys_of LS = from_bound start (map fst (entries T)).
Proof.
  intros HL HP HS Hi. unfold from_bound, entries. rewrite HL, map_app, concat_app. cbn [map concat snd]. rewrite !map_app. fold (keys_of LS).
  rewrite <- (take_drop i (map fst es)) at 2. rewrite <- app_assoc, app_assoc. symmetry. apply filter_split.
  - apply Forall_app. split.
    + apply Forall_map, (Forall_impl _ _ _ HP). intros e ->. done.
    + apply Forall_lookup. intros j x Hj. apply lookup_take_Some in Hj as [Hj Hlt]. rewrite (Hi _ _ Hj). lia.
  - apply Forall_app. split; [|by apply Forall_map].
    apply Forall_lookup. intros j x Hj. rewrite lookup_drop in Hj. rewrite (Hi _ _ Hj). lia.
Qed.

(** A bound other than [Unbounded], by its key. *)
Definition bound_key (start : Bound) : option key := match start with Included k | Excluded k => Some k | Unbounded => None end.

Lemma bound_far start k x :
  bound_key start = Some k → (key_lt x k → within_start x start = false) ∧ (key_lt k x → within_start x start = true).
Proof.
  intros E. destruct start; try done; injection E as ->; cbn [within_start]; split; intros H.
  - by apply key_leb_lt.
  - apply key_leb_le, key_le_iff. by left.
  - rewrite negb_false_iff. apply key_leb_le, key_le_iff. by left.
  - rewrite negb_true_iff. by apply key_leb_lt.
Qed.

(** The slot the search gives for a start bound. *)
Definition start_slot (start : Bound) (f : Found) : Z :=
  match f, start with
  | FoundAt index, Excluded _ => index + 1
  | FoundAt index, _ | InsertAt index, _ => index
  end.

Lemma start_slot_ok start k lf es LP LS p f :
  bound_key start = Some k → located base t oh T k lf es LP LS p f →
  ∃ i, start_slot start f = Z.of_nat i ∧ ∀ j x, map fst es !! j = Some x → within_start x start = true ↔ (i ≤ j)%nat.
Proof.
  intros Eb [HL A _ Hf _ _ _]. pose proof (al_keys _ _ _ _ _ _ _ A) as Hs.
  assert (∀ n, map fst es !! n = Some k → ∀ j x, map fst es !! j = Some x →
    (j < n)%nat ∧ within_start x start = false ∨ j = n ∧ x = k ∨ (n < j)%nat ∧ within_start x start = true) as Htri.
  { intros n Hn j x Hj. destruct (lt_eq_lt_dec j n) as [[H|H]|H].
    - left. split; [done|]. apply (bound_far _ k _ Eb). by apply (Hs j n).
    - right. left. split; [done|]. subst j. congruence.
    - right. right. split; [done|]. apply (bound_far _ k _ Eb). by apply (Hs n j). }
  destruct f as [i|i]; cbn [start_slot].
  - destruct Hf as (n & e & -> & He). assert (map fst es !! n = Some k) as Hn by (by rewrite list_lookup_fmap, He).
    destruct start as [k'|k'|]; try done; injection Eb as ->; [exists n|exists (S n)].
    + split; [done|]. intros j x Hj. destruct (Htri n Hn j x Hj) as [[? ->]|[[-> ->]|[? ->]]]; [split; [done|lia]| |split; [lia|done]].
      cbn [within_start]. split; [lia|]. intros _. apply key_leb_le, key_le_iff. by right.
    + split; [lia|]. intros j x Hj. destruct (Htri n Hn j x Hj) as [[? ->]|[[-> ->]|[? ->]]]; [split; [done|lia]| |split; [lia|done]].
      cbn [within_start]. split; [|lia]. rewrite negb_true_iff, key_leb_lt. by intros ?%key_lt_irrefl.
  - destruct Hf as (n & -> & _ & Hlo & Hhi). exists n. split; [by destruct start|]. intros j x Hj. destruct (decide (n ≤ j)%nat) as [Hle|Hlt].
    + rewrite (proj2 (bound_far _ k x Eb)) by (by apply (Hhi j)). done.
    + rewrite (proj1 (bound_far _ k x Eb)) by (apply (Hlo j); [done|lia]). split; [done|lia].
Qed.

Lemma leaf_fresh LP lf es LS :
  leaves T = LP ++ (lf, es) :: LS → ∀ x, x ∈ map fst LS → x ∉ ({[lf]} ∪ ∅ : gset Z).
Proof.
  intros HL x Hx. rewrite not_elem_of_union, not_elem_of_singleton. split; [|set_solver]. intros ->.
  pose proof leaf_ids_nodup as Hnd. rewrite HL, map_app in Hnd. apply NoDup_app in Hnd as (_ & _ & H). by apply NoDup_cons in H as [? _].
Qed.

Lemma start_ok start :
  ∃ s, steps cursor_start (cursor_new start) (Ok tt) s ∧ ready s (from_bound start (map fst (entries T))).
Proof.
  destruct (bound_key start) as [k|] eqn:Eb.
  - destruct (located_ok k) as (lf & es & LP & LS & p & f & L). pose proof L as [HL A Es Hf H1 H2 _].
    destruct (start_slot_ok _ _ _ _ _ _ _ _ Eb L) as (i & Ei & Hi).
    exists (cur start lf (Z.of_nat i) [] 0 None false ({[lf]} ∪ ∅)). split.
    + unfold cursor_start. apply steps_get.
      assert (steps (on_query false (match start with Included k | Excluded k => locate_leaf k | Unbounded => leftmost_leaf end))
        (cursor_new start) (Ok lf) (cursor_new start)) as Hl.
      { pose proof (steps_query false _ (cursor_new start) _ (locate_leaf_yields base t oh T k lf es LP LS p f L)) as Hq.
        by destruct start; try done; injection Eb as ->. }
      eapply steps_bind; [exact Hl|]. eapply steps_bind; [apply steps_set|]. cbn [cursor_new c_visited_leaves].
      rewrite record_new by set_solver. eapply steps_bind; [apply steps_result|]. eapply steps_bind; [apply steps_set|].
      assert (yields (with_opened_page lf (λ page, search_leaf page k)) (Ok f)) as Hy by (by apply (opened_read _ _ _ B _ p); [apply A|]).
      eapply (steps_bind _ _ _ _ (cursor_slot (cursor_at (cursor_new start) lf ({[lf]} ∪ ∅)) (Z.of_nat i))); [|by apply steps_set_eq]. rewrite <- Ei.
      cbn [c_start]. destruct start as [k'|k'|]; try done; injection Eb as ->;
        (eapply steps_bind; [exact (steps_query false _ _ _ Hy)|]; by apply steps_set_eq).
    + constructor. exists LP, lf, es, LS, p, i. do 6 eexists. split_and!; [reflexivity|done|done|done|by left|by eapply leaf_fresh|].
      symmetry. eapply from_bound_at; [exact HL| | |exact Hi].
      * apply (Forall_impl _ _ _ H1). intros e. apply (bound_far _ _ _ Eb).
      * apply (Forall_impl _ _ _ H2). intros e. apply (bound_far _ _ _ Eb).
  - destruct start; try done. destruct leftmost_yields as (lf & es & LS & HL & Hy). destruct (at_leaf_ok [] _ _ _ HL) as [p A].
    exists (cur Unbounded lf 0 [] 0 None false ({[lf]} ∪ ∅)). split.
    + unfold cursor_start. apply steps_get. eapply steps_bind; [exact (steps_query false _ _ _ Hy)|].
      eapply steps_bind; [apply steps_set|]. cbn [cursor_new c_visited_leaves].
      rewrite record_new by set_solver. eapply steps_bind; [apply steps_result|]. eapply steps_bind; [apply steps_set|].
      eapply steps_bind; [apply steps_ret|by apply steps_set_eq].
    + constructor. exists [], lf, es, LS, p, 0%nat. do 6 eexists. split_and!; [reflexivity|done|done|done|by left|by eapply (leaf_fresh [])|].
      symmetry. eapply (from_bound_at _ []); [exact HL|constructor|by apply Forall_true|]. intros j x _. split; [lia|done].
Qed.
End Scans.
