(* ===== verification/BtreeRange.v ===== *)
(** Cursors as streams of the keys with a value, pages of a range, and the
    locators of the entries.  The theorems about the readers are at the end. *)

From stdpp Require Import gmap functions.
From S2P Require Import Prelude BtreeFormat BtreeCell BtreePage BtreeSplit BtreeTransaction BtreeUpdate.
From S2P Require Import BtreeQuery BtreeNode BtreeOverlay BtreeMutation BtreeTree BtreeClimb BtreeChain.
From S2P Require Import BtreePlace BtreeStore BtreeExtend BtreeLinks BtreeWal BtreeRecovery BtreeCrash BtreeDurable.
From S2P Require Import BtreeSpec BtreeRead BtreeLookup BtreeCursor.

Section Ranges.
Context {CK : Checksum} {KC : KeyCodec} {LZ : Lz4}.
Abbreviation entry := (key * LeafCellRef)%type.
Abbreviation leaf := (Z * list entry)%type.
Abbreviation values := (key → option (list byte)).
Context (base : list byte) (t : WriteTransaction) (oh : DatabaseHeader) (B : begun base t oh).
Context (T : btree) (h : nat) (F : list Z) (ws : list item) (g : values).
Context (Sk : skeleton t base T h F (owned_pages ws)) (It : holds_items (view t base) (entries T) ws).
Context (Re : represents (stored_as g) (entries T) ws).
Context (Ratio : lz4_ratio) (Room : tx_next t < 2 ^ 44).
Context {V : Type} (deser : list byte → io_result V).

#[local] Abbreviation yields := (yields base t oh).
#[local] Abbreviation sound := (sound base t oh).
#[local] Abbreviation at_leaf := (at_leaf base t).
#[local] Abbreviation at_leaf_ok := (at_leaf_ok base t T h F ws Sk).
#[local] Abbreviation located_ok := (located_ok base t oh B T h F ws Sk).
#[local] Abbreviation entry_yields := (entry_yields base t oh B T h F ws g Sk It Re Ratio Room deser).
#[local] Abbreviation leaf_ids_nodup := (leaf_ids_nodup base t T h F ws Sk).
#[local] Abbreviation leaf_id_pos := (leaf_id_pos base t T h F ws Sk).
#[local] Abbreviation leaves_fuel := (leaves_fuel base t T h F ws Sk).
#[local] Abbreviation live_keys := (live_keys T g).
#[local] Abbreviation live := (live g).
#[local] Abbreviation sound_next := (sound_next base t oh B).

#[local] Abbreviation CursorState := (@CursorState KC V).
#[local] Abbreviation cursor := (@cursor KC V).

#[local] Abbreviation steps := (steps base t oh).
#[local] Abbreviation ready := (ready base t T).
#[local] Abbreviation item_of := (item_of g deser).
#[local] Abbreviation leaves_ok := (leaves_ok base t oh B T h F ws g Sk It Re Ratio Room deser).
#[local] Abbreviation leaves_none := (leaves_none base t oh B T h F ws g Sk It Re Ratio Room deser).
#[local] Abbreviation start_ok := (start_ok (V := V) base t oh B T h F ws g Sk It Re Ratio Room).

(** ** The stream of a cursor *)

(** The keys with a value that a cursor is still to give. *)
Inductive stream : CursorState → list key → Prop :=
| stream_fresh start : stream (cursor_new start) (from_bound start live_keys)
| stream_ready s ks : ready s ks → stream s (filter (λ k, live k = true) ks)
| stream_finished s : c_pending s = None → c_finished s = true → stream s [].

Lemma dead_iff k : ¬ live k = true ↔ g k = None.
Proof. unfold live. rewrite bool_decide_eq_true. destruct (g k) as [raw|].
  - split; [|done]. intros H. destruct H. by exists raw.
  - split; [done|]. by intros _ [? ?].
Qed.

Lemma next_live ks k L :
  filter (λ k, live k = true) ks = k :: L →
  ∃ dead rest raw, ks = dead ++ k :: rest ∧ Forall (λ x, g x = None) dead ∧ g k = Some raw ∧ L = filter (λ k, live k = true) rest.
Proof.
  induction ks as [|x ks IH]; [done|]. rewrite filter_cons. case_decide as Hx.
  - intros [= <- <-]. unfold live in Hx. apply bool_decide_eq_true in Hx as [raw Hx]. by exists [], ks, raw.
  - intros E. destruct (IH E) as (dead & rest & raw & -> & Hd & Hg & HL'). exists (x :: dead), rest, raw. split_and!; try done.
    constructor; [by apply dead_iff|done].
Qed.

Lemma none_live ks : filter (λ k, live k = true) ks = [] → Forall (λ x, g x = None) ks.
Proof.
  induction ks as [|x ks IH]; [constructor|]. rewrite filter_cons. case_decide as Hx; [done|]. intros E. constructor; [by apply dead_iff|by apply IH].
Qed.

Lemma item_result k raw : g k = Some raw → entry_result deser k raw = map_err (pair true) (e ← item_of k; Ok (Some e)).
Proof. intros Hg. unfold entry_result, item_of. rewrite Hg. cbn [from_option id]. by destruct (deser raw). Qed.

(** What the body of [cursor_next] returns on a cursor that has started. *)
Lemma ready_next s ks fuel :
  ready s ks → (Z.to_nat (tx_next t) < fuel)%nat →
  ∃ s', match filter (λ k, live k = true) ks with
        | [] => steps (cursor_leaves deser fuel) s (Ok None) s' ∧ c_pending s' = None
        | k :: L => ∃ raw rest, g k = Some raw ∧ steps (cursor_leaves deser fuel) s (entry_result deser k raw) s' ∧
                      ready s' rest ∧ L = filter (λ k, live k = true) rest
        end.
Proof.
  intros [(LP & lf & es & LS & p & i & start & ranges & rs & exp & loaded & vis & -> & HL & A & Hld & Hexp & Hv & ->)] Hfuel.
  pose proof leaves_fuel as Hl. rewrite HL, length_app in Hl. cbn [length] in Hl.
  destruct (filter _ _) as [|k L] eqn:Ef.
  - eapply leaves_none; try done; [lia|by apply none_live].
  - destruct (next_live _ _ _ Ef) as (dead & rest & raw & Hks & Hd & Hg & ->).
    destruct (leaves_ok _ _ _ _ _ _ start _ _ _ _ _ fuel _ _ _ _ HL A Hld Hexp Hv ltac:(lia) Hks Hd Hg) as (s' & Hs' & Hrd). eauto 10.
Qed.

Lemma finish_cur (s : CursorState) ks : ready s ks → c_pending s = None ∧ c_finished s = false ∧ c_initialized s = true ∧ cursor_finished s false = s.
Proof. by intros [(? & ? & ? & ? & ? & ? & ? & ? & ? & ? & ? & ? & -> & _)]. Qed.

Lemma from_bound_live start ks :
  from_bound start (filter (λ k, live k = true) ks) = filter (λ k, live k = true) (from_bound start ks).
Proof. unfold from_bound. rewrite !list_filter_filter. apply list_filter_iff. tauto. Qed.

(** The next item of a stream. *)
Definition next_of (L : list key) : option (io_result (key * V)) := item_of <$> head L.

Lemma cursor_next_ok s L q :
  stream s L → sound q → ∃ s' q', cursor_next deser (s, q) = (next_of L, (s', q')) ∧ stream s' (tail L) ∧ sound q'.
Proof.
  intros St S.
  assert (∀ s1 ks q1, ready s1 ks → sound q1 → cursor_body deser (s, q) = cursor_leaves deser (page_fuel q) (s1, q1) →
    c_pending s = None → c_finished s = false →
    let L := filter (λ k, live k = true) ks in
    ∃ s' q', cursor_next deser (s, q) = (next_of L, (s', q')) ∧ stream s' (tail L) ∧ sound q') as Hgo.
  { intros s1 ks q1 R S1 Eb Hp Hfin L0. unfold cursor_next. rewrite Hp, Hfin, Eb.
    destruct (ready_next s1 ks (page_fuel q) R) as (s' & Hs'); [unfold page_fuel; rewrite (sound_next q S); lia|].
    unfold L0. destruct (filter _ ks) as [|k L'].
    - destruct Hs' as [Hst Hps]. destruct (Hst q1 S1) as (q' & E & S'). rewrite E.
      do 2 eexists. split_and!; [reflexivity| |done]. by apply stream_finished.
    - destruct Hs' as (raw & rest & Hg & Hst & R' & ->). destruct (Hst q1 S1) as (q' & E & S'). rewrite E.
      rewrite (item_result _ _ Hg). exists s', q'. destruct (finish_cur _ _ R') as (_ & _ & _ & Hfc). cbn [next_of head fmap option_fmap option_map].
      split_and!; [|by apply stream_ready|done]. destruct (item_of k); [done|]. by cbn; rewrite Hfc. }
  inversion St as [start E1 E2|s0 ks R E1 E2|s0 Hp Hfin E1 E2]; subst.
  - destruct (start_ok start) as (s1 & Hst & R). destruct (Hst q S) as (q1 & E & S1). unfold live_keys.
    rewrite from_bound_live. eapply Hgo; [exact R|exact S1| |done|done].
    unfold cursor_body. cbn [cursor_new c_initialized]. unfold mbind, stateful_bind. by rewrite E.
  - destruct (finish_cur _ _ R) as (Hp & Hfin & Hi & _). eapply Hgo; [exact R|exact S| |done|done]. unfold cursor_body. by rewrite Hi.
  - unfold cursor_next. rewrite Hp, Hfin. do 2 eexists. split_and!; [reflexivity| |done]. by apply stream_finished.
Qed.

(** The items of [n] calls. *)
Fixpoint cursor_items (n : nat) (sq : CursorState * BPlusTreeQuery) : list (option (io_result (key * V))) :=
  match n with
  | O => []
  | S n => let '(item, sq) := cursor_next deser sq in item :: cursor_items n sq
  end.

Lemma items_ok n : ∀ s L q, stream s L → sound q → cursor_items n (s, q) = map (λ i, item_of <$> L !! i) (seq 0 n).
Proof.
  induction n as [|n IH]; intros s L q St S; [done|]. cbn [cursor_items seq map].
  destruct (cursor_next_ok s L q St S) as (s' & q' & E & St' & S'). rewrite E, (IH _ _ _ St' S').
  f_equal; [by destruct L|]. rewrite <- fmap_S_seq, <- list_fmap_compose. apply list_fmap_ext. intros i x _. cbn. by destruct L.
Qed.

Lemma empty_ok q : sound q → ∃ q', query_is_empty deser q = (match live_keys with [] => Ok true | k :: _ => (_ ← item_of k; Ok false) end, q') ∧ sound q'.
Proof.
  intros S. unfold query_is_empty. destruct (cursor_next_ok _ _ q (stream_fresh Unbounded) S) as (s' & q' & E & _ & S').
  rewrite E. exists q'. split; [|done]. f_equal. unfold next_of, from_bound. cbn [within_start].
  assert (filter (λ _ : key, true = true) live_keys = live_keys) as -> by (apply (filter_split _ []); [constructor|by apply Forall_true]).
  destruct live_keys as [|k L]; [done|]. cbn. by destruct (item_of k).
Qed.

(** ** Pages of a range *)

Section Page.
Context (val : key → V) (Val : ∀ k raw, g k = Some raw → deser raw = Ok (val k)).

Lemma stream_pending s L : stream s L → c_pending s = None.
Proof. intros [start|s' ks R|s' Hp _]; [done| |done]. by apply finish_cur in R as (? & _). Qed.

Lemma past_end_mono end_ a b : key_lt a b → past_end a end_ = true → past_end b end_ = true.
Proof.
  destruct end_ as [k|k|]; cbn [past_end]; [|intros Hab|done].
  - rewrite !negb_true_iff, !key_leb_lt. intros Hab Hk. by eapply key_lt_trans.
  - rewrite !key_leb_le, !key_le_iff. left. destruct H as [H| ->]; [by eapply key_lt_trans|done].
Qed.

(** A range iterator before the keys [L]. *)
Record ranged (it : BPlusTreeRangeIterator) (L : list key) : Prop := {
  rg_stream : stream (ri_iterator it).1 L;
  rg_sound : sound (ri_iterator it).2;
  rg_sorted : sorted_keys L;
  rg_live : Forall (λ k, is_Some (g k)) L;
  rg_start : Forall (λ k, within_start k (ri_start it) = true) L;
}.

(** The entries it is still to give. *)
Definition rest (end_ : Bound) (L : list key) : list (key * V) :=
  map (λ k, (k, val k)) (filter (λ k, past_end k end_ = false) L).

Lemma rest_past end_ k L : sorted_keys (k :: L) → past_end k end_ = true → rest end_ (k :: L) = [].
Proof.
  intros Hs Hp. unfold rest. rewrite filter_cons, decide_False by (by rewrite Hp). apply sorted_tail in Hs as [_ Hf].
  induction L as [|x L IH]; [done|]. rewrite filter_cons, decide_False; [|rewrite (past_end_mono end_ k x); [done|apply Hf; by left|done]].
  apply IH. intros b Hb. apply Hf. by right.
Qed.

Lemma range_next_ok it L :
  ranged it L → ∃ it' L', range_next deser (range_fuel it) it = (Ok <$> head (rest (ri_end it) L), it') ∧
    ranged it' L' ∧ ri_end it' = ri_end it ∧ rest (ri_end it) L' = tail (rest (ri_end it) L).
Proof.
  intros [St S Hs Hl Hw]. unfold range_fuel. cbn [range_next]. destruct (ri_iterator it) as [s q] eqn:Ei. cbn [fst snd] in *.
  destruct (cursor_next_ok s L q St S) as (s' & q' & E & St' & S'). rewrite E. destruct L as [|k L]; cbn [next_of head fmap option_fmap option_map].
  { eexists _, []. split_and!; [reflexivity| |done|done]. by constructor. }
  pose proof (sorted_tail _ _ Hs) as [Hst _]. apply Forall_cons in Hl as [[raw Hk] Hl], Hw as [Hwk Hw].
  assert (item_of k = Ok (k, val k)) as -> by (unfold item_of; rewrite Hk; cbn [from_option id]; by rewrite (Val _ _ Hk)).
  cbn [ri_end ri_start]. destruct (past_end k (ri_end it)) eqn:Ep.
  - rewrite (rest_past _ _ _ Hs Ep). exists {| ri_iterator := (cursor_finished s' true, q'); ri_start := ri_start it; ri_end := ri_end it |}, [].
    split_and!; [done| |done|done]. constructor; [|done..]. apply stream_finished; [|done]. cbn. by eapply stream_pending.
  - rewrite Hwk. unfold rest. rewrite filter_cons, decide_True by done. eexists _, L. split_and!; [reflexivity| |done|done]. by constructor.
Qed.

Lemma skip_ok n : ∀ it L, ranged it L → ∃ it' L',
  range_skip deser n it = (Ok (bool_decide (n ≤ length (rest (ri_end it) L))%nat), it') ∧ sound (ri_iterator it').2 ∧
  ((n ≤ length (rest (ri_end it) L))%nat →
   ranged it' L' ∧ ri_end it' = ri_end it ∧ rest (ri_end it) L' = drop n (rest (ri_end it) L)).
Proof.
  induction n as [|n IH]; intros it L R; cbn [range_skip].
  { exists it, L. split_and!; [by rewrite bool_decide_true by lia|apply R|done]. }
  destruct (range_next_ok it L R) as (it' & L' & E & R' & Ee & Hr). rewrite E. destruct (rest (ri_end it) L) as [|e E']; cbn [head fmap option_fmap option_map].
  - exists it', L'. split_and!; [by rewrite bool_decide_false by (cbn; lia)|apply R'|cbn; lia].
  - destruct (IH it' L' R') as (it2 & L2 & E2 & S2 & H2). rewrite Ee, Hr in *. cbn [tail] in *. exists it2, L2. rewrite E2. split_and!; [|done|].
    + do 2 f_equal. apply bool_decide_ext. cbn. lia.
    + intros Hn. cbn in Hn. destruct H2 as (H3 & H4 & H5); [lia|]. by rewrite H4.
Qed.

Lemma take_ok n : ∀ it L, ranged it L → ∃ it' L',
  range_take deser n it = (Ok (take n (rest (ri_end it) L), bool_decide (n ≤ length (rest (ri_end it) L))%nat), it') ∧ sound (ri_iterator it').2 ∧
  ((n ≤ length (rest (ri_end it) L))%nat →
   ranged it' L' ∧ ri_end it' = ri_end it ∧ rest (ri_end it) L' = drop n (rest (ri_end it) L)).
Proof.
  induction n as [|n IH]; intros it L R; cbn [range_take].
  { exists it, L. split_and!; [by rewrite bool_decide_true by lia|apply R|done]. }
  destruct (range_next_ok it L R) as (it' & L' & E & R' & Ee & Hr). rewrite E. destruct (rest (ri_end it) L) as [|e E']; cbn [head fmap option_fmap option_map].
  - exists it', L'. split_and!; [by rewrite bool_decide_false by (cbn; lia)|apply R'|cbn; lia].
  - destruct (IH it' L' R') as (it2 & L2 & E2 & S2 & H2). rewrite Ee, Hr in *. cbn [tail] in *. exists it2, L2. rewrite E2. split_and!; [|done|].
    + cbn [take]. do 3 f_equal. apply bool_decide_ext. cbn. lia.
    + intros Hn. cbn in Hn. destruct H2 as (H3 & H4 & H5); [lia|]. by rewrite H4.
Qed.

(** The entries of a range, in order. *)
Definition range_entries (start end_ : Bound) : list (key * V) := rest end_ (from_bound start live_keys).

Lemma range_ranged q start end_ : sound q → ranged (range_iter q start end_) (from_bound start live_keys).
Proof.
  intros S. destruct (live_listing base t T h F ws g Sk Re) as [Hs Hin]. constructor; cbn [range_iter ri_iterator ri_start fst snd].
  - constructor.
  - done.
  - by apply sorted_filter.
  - apply Forall_forall. intros k Hk. apply list_elem_of_filter in Hk as [_ Hk]. by apply Hin.
  - apply Forall_forall. intros k Hk. by apply list_elem_of_filter in Hk as [? _].
Qed.

Lemma page_ok q start end_ offset limit :
  sound q → 0 ≤ offset → 0 ≤ limit → ∃ q',
    let E := range_entries start end_ in
    range_page deser start end_ offset limit q =
      (Ok (take (Z.to_nat limit) (drop (Z.to_nat offset) E), bool_decide (offset + limit < len E)), q') ∧ sound q'.
Proof.
  intros S Ho Hl. unfold range_page. cbv zeta. pose proof (range_ranged q start end_ S) as R.
  destruct (skip_ok (Z.to_nat offset) _ _ R) as (it1 & L1 & E1 & S1 & H1). rewrite E1. cbn [range_iter ri_end] in *.
  fold (range_entries start end_) in *. set (E := range_entries start end_) in *. case_bool_decide as Hc.
  2:{ exists (ri_iterator it1).2. split; [|done]. rewrite drop_ge, take_nil by lia. rewrite bool_decide_false by (unfold len; lia). done. }
  destruct (H1 Hc) as (R1 & Ee1 & Hr1). destruct (take_ok (Z.to_nat limit) _ _ R1) as (it2 & L2 & E2 & S2 & H2). rewrite E2. rewrite Ee1, Hr1 in *.
  rewrite length_drop in *. case_bool_decide as Hc2.
  2:{ exists (ri_iterator it2).2. split; [|done]. rewrite bool_decide_false by (unfold len; lia). done. }
  destruct (H2 Hc2) as (R2 & Ee2 & Hr2). destruct (range_next_ok _ _ R2) as (it3 & L3 & E3 & R3 & _). rewrite E3, Ee2, Hr2, drop_drop.
  exists (ri_iterator it3).2. split; [|apply R3]. f_equal.
  destruct (drop (Z.to_nat offset + Z.to_nat limit) E) as [|e E'] eqn:Ed; cbn [head fmap option_fmap option_map].
  - apply (f_equal length) in Ed. rewrite length_drop in Ed. cbn in Ed. rewrite bool_decide_false by (unfold len; lia). done.
  - apply (f_equal length) in Ed. rewrite length_drop in Ed. cbn in Ed. rewrite bool_decide_true by (unfold len; lia). done.
Qed.
End Page.
End Ranges.
