(* ===== verification/BtreeLocators.v ===== *)
(** Locators: the place of an entry in a committed file, kept by the sorted
    index.  The scan that builds an index lists every key with a value and a
    locator that reads it back; a locator never reads the value of another
    key. *)

From stdpp Require Import gmap functions.
From S2P Require Import Prelude BtreeFormat BtreeCell BtreePage BtreeSplit BtreeTransaction BtreeUpdate.
From S2P Require Import BtreeQuery BtreeNode BtreeOverlay BtreeMutation BtreeTree BtreeClimb BtreeChain.
From S2P Require Import BtreePlace BtreeStore BtreeExtend BtreeLinks BtreeWal BtreeRecovery BtreeCrash BtreeDurable.
From S2P Require Import BtreeSpec BtreeRead BtreeLookup BtreeCursor.

Section Locators.
Context {CK : Checksum} {KC : KeyCodec} {LZ : Lz4}.
Abbreviation entry := (key * LeafCellRef)%type.
Abbreviation leaf := (Z * list entry)%type.
Abbreviation values := (key → option (list byte)).
Context (base : list byte) (t : WriteTransaction) (oh : DatabaseHeader) (B : begun base t oh).
Context (T : btree) (h : nat) (F : list Z) (ws : list item) (g : values).
Context (Sk : skeleton t base T h F (owned_pages ws)) (It : holds_items (view t base) (entries T) ws).
Context (Re : represents (stored_as g) (entries T) ws).
Context (Ratio : lz4_ratio) (Room : tx_next t < 2 ^ 44).
Context {V : Type} (deser : list byte → io_result V).

#[local] Abbreviation yields := (yields base t oh).
#[local] Abbreviation sound := (sound base t oh).
#[local] Abbreviation at_leaf := (at_leaf base t).
#[local] Abbreviation at_leaf_ok := (at_leaf_ok base t T h F ws Sk).
#[local] Abbreviation located_ok := (located_ok base t oh B T h F ws Sk).
#[local] Abbreviation entry_yields := (entry_yields base t oh B T h F ws g Sk It Re Ratio Room deser).
#[local] Abbreviation leaf_ids_nodup := (leaf_ids_nodup base t T h F ws Sk).
#[local] Abbreviation leaf_id_pos := (leaf_id_pos base t T h F ws Sk).
#[local] Abbreviation leaves_fuel := (leaves_fuel base t T h F ws Sk).
#[local] Abbreviation live_keys := (live_keys T g).
#[local] Abbreviation live := (live g).
#[local] Abbreviation sound_next := (sound_next base t oh B).


(** ** Reading through a locator *)

(** The cache of locator ranges does not matter to the other reads. *)
Lemma slotted_locator {R} q a rs id (read : SlottedPage → io_result R) :
  with_slotted_page id read (with_locator_page q a rs) =
  (let '(r, q') := with_slotted_page id read q in (r, with_locator_page q' a rs)).
Proof.
  unfold with_slotted_page. change (q_next (with_locator_page q a rs)) with (q_next q). destruct (q_next q <=? id); [done|].
  change (query_page (with_locator_page q a rs) id) with (query_page q id). cbn [with_locator_page q_page_validations]. cbv zeta.
  by destruct (_ ≫= _) as [[r [v|]]|e].
Qed.

Lemma sound_located q id p ranges :
  sound q → tx_open t base id = Ok p → page_type (sp_header p) = Leaf →
  cell_ranges (Z.to_nat (cell_count (sp_header p))) p 0 = Ok ranges → sound (with_locator_page q id ranges).
Proof. intros [] Ho Ht Er. constructor; try done. right. eauto. Qed.

(** The read of the ranges of a page. *)
Lemma read_ranges_ok q page_id p ranges a :
  sound q → tx_open t base page_id = Ok p → page_type (sp_header p) = Leaf →
  cell_ranges (Z.to_nat (cell_count (sp_header p))) p 0 = Ok ranges →
  ∃ q1, with_slotted_page page_id (λ page,
      if negb (bool_decide (page_type (sp_header page) = Leaf))
      then Err (invalid_data "locator does not reference a leaf page") else
      cell_ranges (Z.to_nat (cell_count (sp_header page))) page 0) (with_locator_page q a []) = (Ok ranges, with_locator_page q1 a []) ∧ sound q1.
Proof.
  intros S Ho Ht Er. set (read := λ page : SlottedPage, _). assert (read p = Ok ranges) as Hread by (unfold read; by rewrite bool_decide_true).
  destruct (slotted_read base t oh B page_id p read _ Ho Hread q S) as (q1 & E1 & S1). exists q1. by rewrite slotted_locator, E1.
Qed.

Lemma locator_range_ok l p ranges :
  tx_open t base (leaf_page_id l) = Ok p → page_type (sp_header p) = Leaf → leaf_page_id l ≠ 0 →
  cell_ranges (Z.to_nat (cell_count (sp_header p))) p 0 = Ok ranges →
  yields (locator_cell_range l) (ok_or (get ranges (slot_index l)) (invalid_data "locator slot index is outside leaf page")).
Proof.
  intros Ho Ht Hne Er q S. unfold locator_cell_range. unfold mbind at 1, stateful_bind at 1, get_state at 1.
  destruct (q_locator_page_id q =? leaf_page_id l) eqn:Ec.
  - apply Z.eqb_eq in Ec. exists q. split; [|done]. unfold mbind, stateful_bind, get_state, of_result. cbn.
    destruct (so_locator _ _ _ _ S) as [[H0 _]|(p' & Ho' & _ & Er')]; [congruence|]. rewrite Ec in Ho'. assert (p' = p) as -> by congruence.
    assert (q_locator_cell_ranges q = ranges) as -> by congruence. done.
  - destruct (read_ranges_ok q _ p ranges (q_locator_page_id q) S Ho Ht Er) as (q1 & E1 & S1).
    exists (with_locator_page q1 (leaf_page_id l) ranges). split; [|by eapply sound_located].
    unfold mbind, stateful_bind, modify, get_state, of_result. cbv zeta. cbn [q_locator_page_id]. rewrite E1. done.
Qed.

(** The locator of an entry of the tree. *)
Definition locator_of (lf : Z) (i : nat) (k : key) : Locator :=
  {| leaf_page_id := lf; slot_index := Z.of_nat i; serialized_key_crc32 := crc32 (key_to_vec k) |}.

Definition placed (k : key) (l : Locator) : Prop :=
  ∃ LP lf es LS i e, leaves T = LP ++ (lf, es) :: LS ∧ es !! i = Some (k, e) ∧ l = locator_of lf i k.

Lemma placed_range LP lf es LS p i k e :
  leaves T = LP ++ (lf, es) :: LS → at_leaf lf es LP LS p → es !! i = Some (k, e) → ∀ c,
  ∃ range, cell_range p (Z.of_nat i) = Ok range ∧
    yields (locator_cell_range {| leaf_page_id := lf; slot_index := Z.of_nat i; serialized_key_crc32 := c |}) (Ok range).
Proof.
  intros HL A He c. destruct (cell_ranges_ok _ _ _ _ _ _ _ A) as (ranges & Er & _ & Hrg). destruct (Hrg _ _ _ He) as (range & Hr & Hc).
  exists range. split; [done|]. assert (lf ∈ map fst (leaves T)) as Hin by (rewrite HL, map_app, elem_of_app; right; by left).
  pose proof (leaf_id_pos lf Hin). eapply yields_eq.
  - apply (locator_range_ok _ p ranges); cbn [leaf_page_id]; [apply A|apply A|lia|done].
  - cbn [slot_index]. unfold get. rewrite (proj2 (Z.leb_le 0 (Z.of_nat i)) ltac:(lia)), Nat2Z.id, Hr. done.
Qed.

(** What a locator at an entry reads, for any checksum and any key bytes. *)
Definition located_value (k : key) (c : Z) (pk : list byte) : io_result V :=
  if negb (crc32 (key_to_vec k) =? c) || negb (crc32 pk =? c) || negb (bool_decide (key_to_vec k = pk))
  then Err (invalid_data "locator serialized key mismatch") else
  match g k with
  | Some raw => deser raw
  | None => Err (invalid_data "locator references a tombstone")
  end.

Lemma read_at_ok LP lf es LS i k e c pk :
  leaves T = LP ++ (lf, es) :: LS → es !! i = Some (k, e) →
  yields (read_locator_value deser {| leaf_page_id := lf; slot_index := Z.of_nat i; serialized_key_crc32 := c |} pk) (located_value k c pk).
Proof.
  intros HL He. destruct (at_leaf_ok _ _ _ _ HL) as [p A]. set (l := {| leaf_page_id := lf |}).
  destruct (placed_range _ _ _ _ _ _ _ _ HL A He c) as (range & Hc & Hy). fold l in Hy.
  destruct (al_cell _ _ _ _ _ _ _ A _ _ _ He) as (bytes & range' & Er & Eg & _ & D & Hk). assert (range' = range) as -> by congruence.
  unfold read_locator_value. apply yields_get. intros q S. eapply yields_step; [exact Hy|]. cbn [l leaf_page_id].
  pose proof (page_yields base t oh B lf p (decode_located deser (value_allocation_limit q) (q_next q) l pk range) (al_open _ _ _ _ _ _ _ A)) as Hd.
  unfold decode_located in Hd at 2. rewrite (sound_next q S), (sound_limit _ _ _ B q S Room), Eg in *. cbn [ok_or l leaf_page_id serialized_key_crc32] in Hd.
  rewrite bind_ok, D, bind_ok, Hk in Hd. unfold located_value. destruct (_ || _ || _); [by apply (yields_error base t oh)|].
  destruct (g k) as [raw|] eqn:Hg.
  2:{ rewrite (value_dead base t T h F ws g Sk It Re _ _ _ _ _ _ _ HL He Hg) in Hd. eapply yields_step; [exact Hd|]. apply yields_result. }
  destruct (value_stored base t oh B T h F ws g Sk It Re Ratio Room _ _ _ _ _ _ _ _ HL He Hg) as [ll crc|ll stored crc Hdc|comp ll sl head crc Ha].
  3:{ eapply yields_step; [exact Hd|]. eapply yields_step; [exact Ha|]. apply yields_result. }
  2: rewrite Hdc, bind_ok in Hd.
  all: destruct (deser raw) as [x|err]; [rewrite !bind_ok in *; eapply yields_step; [exact Hd|]; apply yields_ret|by apply (yields_error base t oh)].
Qed.

Lemma read_located_ok k l raw :
  placed k l → g k = Some raw → yields (read_locator_value deser l (key_to_vec k)) (deser raw).
Proof.
  intros (LP & lf & es & LS & i & e & HL & He & ->) Hg. eapply yields_eq; [by eapply read_at_ok|].
  unfold located_value. by rewrite !Z.eqb_refl, bool_decide_true, Hg.
Qed.

(** ** Listing the locators *)

Lemma live_locators_ok LP lf es LS p n : ∀ i,
  leaves T = LP ++ (lf, es) :: LS → at_leaf lf es LP LS p → (i + n = length es)%nat →
  ∃ ls, live_locators n p lf (tx_next t) (Z.of_nat i) = Ok ls ∧
    Forall2 (λ k lr, placed k lr.1 ∧ yields (decode_entry_range deser lf lr.2) (entry_value g deser k))
      (filter (λ k, live k = true) (drop i (map fst es))) ls.
Proof.
  induction n as [|n IH]; intros i HL A Hi; cbn [live_locators].
  { exists []. rewrite drop_ge by (rewrite length_map; lia). split; [done|constructor]. }
  pose proof (al_size _ _ _ _ _ _ _ A) as Hsz. destruct (lookup_lt_is_Some_2 es i ltac:(lia)) as [[k e] He].
  destruct (al_cell _ _ _ _ _ _ _ A _ _ _ He) as (raw & range & Er & _ & Ec & D & Hk).
  destruct (IH (S i) HL A ltac:(lia)) as (ls & E & Hls). replace (Z.of_nat (S i)) with (Z.of_nat i + 1) in E by lia.
  rewrite Ec, bind_ok, D, bind_ok, (entry_live base t T h F ws g Sk It Re _ _ _ _ _ _ _ HL He), E.
  rewrite (drop_S _ k) by (by rewrite list_lookup_fmap, He). rewrite filter_cons.
  destruct (live k) eqn:El; cbn [negb].
  - assert (lf ∈ map fst (leaves T)) as Hin by (rewrite HL, map_app, elem_of_app; right; by left). pose proof (leaf_id_pos lf Hin).
    rewrite try_fit_small by (unfold len in *; lia). cbn [ok_or]. rewrite bind_ok. unfold locator_for_key. replace (lf =? 0) with false by lia.
    rewrite bind_ok, Er, !bind_ok, decide_True, Hk by done. eexists. split; [reflexivity|]. constructor; [|exact Hls]. split.
    + by exists LP, lf, es, LS, i, e.
    + by eapply entry_yields.
  - rewrite !bind_ok, decide_False by done. eauto.
Qed.

Section Collect.
Context (val : key → V) (Val : ∀ k raw, g k = Some raw → deser raw = Ok (val k)).

(** An entry of the listing: the key, its value and a locator of it. *)
Definition listed (k : key) (e : key * V * Locator) : Prop := e.1 = (k, val k) ∧ placed k e.2.

Lemma locate_entries_ok lf ks ls :
  Forall2 (λ k lr, placed k lr.1 ∧ yields (decode_entry_range deser lf lr.2) (entry_value g deser k)) ks ls →
  Forall (λ k, live k = true) ks →
  ∃ out, yields (locate_entries deser lf ls) (Ok out) ∧ Forall2 listed ks out.
Proof.
  induction 1 as [|k [l range] ks ls [Hp Hy] _ IH]; intros Hl; cbn [locate_entries].
  { exists []. split; [apply yields_ret|constructor]. }
  apply Forall_cons in Hl as [Hk Hl]. destruct (IH Hl) as (out & Hout & Hf). exists ((k, val k, l) :: out). split; [|by constructor].
  unfold entry_value in Hy. unfold live in Hk. apply bool_decide_eq_true in Hk as [raw Hk]. rewrite Hk, (Val _ _ Hk), bind_ok in Hy.
  eapply yields_step; [exact Hy|]. eapply yields_step; [apply yields_result|]. eapply yields_step; [exact Hout|]. apply yields_ret.
Qed.

Lemma collect_leaves_ok LS : ∀ LP lf es fuel visited,
  leaves T = LP ++ (lf, es) :: LS → (length LS < fuel)%nat → (∀ x, x ∈ map fst ((lf, es) :: LS) → x ∉ visited) →
  ∃ out, yields (collect_leaves deser fuel lf visited) (Ok out) ∧
    Forall2 listed (filter (λ k, live k = true) (keys_of ((lf, es) :: LS))) out.
Proof.
  induction LS as [|[r res] LS IH]; intros LP lf es fuel visited HL Hf Hv; (destruct fuel as [|fuel]; [lia|]); cbn [collect_leaves];
    destruct (at_leaf_ok _ _ _ _ HL) as [p A]; destruct (live_locators_ok _ _ _ _ _ (length es) 0 HL A ltac:(lia)) as (ls & Els & Hls); change (Z.of_nat 0) with 0 in Els;
    (destruct (locate_entries_ok _ _ _ Hls) as (out & Hout & Hfl); [apply Forall_forall; intros x Hx; by apply list_elem_of_filter in Hx as [? _]|]);
    rewrite keys_of_cons, filter_app.
  - exists out. split; [|rewrite app_nil_r; exact Hfl]. apply yields_get. intros q S.
    eapply (yields_step _ _ _ _ _ (first_leaf [] 0, ls)).
    { apply (opened_read _ _ _ B _ p); [apply A|]. rewrite bool_decide_true by apply A. cbn [negb].
      rewrite (al_count _ _ _ _ _ _ _ A), (sound_next q S), (al_right _ _ _ _ _ _ _ A). unfold len. rewrite Nat2Z.id. by rewrite Els, bind_ok. }
    rewrite record_new by (apply Hv; by left). eapply yields_step; [apply yields_result|]. eapply yields_step; [exact Hout|]. apply yields_ret.
  - assert (leaves T = (LP ++ [(lf, es)]) ++ (r, res) :: LS) as HL' by (by rewrite <- app_assoc).
    destruct (IH (LP ++ [(lf, es)]) r res fuel ({[lf]} ∪ visited) HL') as (out2 & Hout2 & Hf2); [cbn in Hf; lia| |].
    { intros x Hx. rewrite not_elem_of_union, not_elem_of_singleton. split; [|apply Hv; by right]. intros ->.
      pose proof leaf_ids_nodup as Hnd. rewrite HL, map_app in Hnd. apply NoDup_app in Hnd as (_ & _ & Hnd). by apply NoDup_cons in Hnd as [? _]. }
    exists (out ++ out2). split; [|by apply Forall2_app]. apply yields_get. intros q S.
    eapply (yields_step _ _ _ _ _ (r, ls)).
    { apply (opened_read _ _ _ B _ p); [apply A|]. rewrite bool_decide_true by apply A. cbn [negb].
      rewrite (al_count _ _ _ _ _ _ _ A), (sound_next q S), (al_right _ _ _ _ _ _ _ A). unfold len. rewrite Nat2Z.id. by rewrite Els, bind_ok. }
    rewrite record_new by (apply Hv; by left). eapply yields_step; [apply yields_result|]. eapply yields_step; [exact Hout|]. cbn [fst].
    assert (r ∈ map fst (leaves T)) as Hr by (rewrite HL', map_app, elem_of_app; right; by left). pose proof (leaf_id_pos r Hr).
    replace (r =? 0) with false by lia. eapply yields_step; [exact Hout2|]. apply yields_ret.
Qed.

(** The descent to the first leaf. *)
Lemma collect_descent_ok out h' : ∀ lo hi T' descent, shaped h' lo hi T' → Forall (holds (view t base)) (pages T') → (h' ≤ descent)%nat →
  (∀ lf es LS q, leaves T' = (lf, es) :: LS → sound q → yields (collect_leaves deser (page_fuel q) lf ∅) (Ok out)) →
  yields (collect_descent deser descent (root_id T')) (Ok out).
Proof.
  induction h' as [|h' IH]; intros lo hi [id es|id kids seps] descent HS Hst Hd Hlv; try done.
  - inversion Hst as [|? ? Hh _]; subst. destruct Hh as (l & r & Vw). cbn in Vw.
    destruct (view_open _ _ _ _ Vw) as (bytes & p & _ & _ & (Ht & _) & Eo & _).
    assert (∀ m : reader (list (key * V * Locator)), m = (q ← get_state;
      child ← with_opened_page id (λ page, if bool_decide (page_type (sp_header page) = Internal) then
        preamble ← internal_preamble_decode (sp_bytes page) id (q_next q); Ok (Some (leftmost_child preamble)) else Ok None);
      match child with
      | Some child => match descent with O => of_result (Err (invalid_data "locator descent contains a cycle")) | S descent => collect_descent deser descent child end
      | None => collect_leaves deser (page_fuel q) id ∅ end) → yields m (Ok out)) as Hm.
    { intros m ->. apply yields_get. intros q S. eapply (yields_step _ _ _ _ _ None).
      - apply (opened_read _ _ _ B _ p); [done|]. by rewrite bool_decide_false by (by rewrite Ht).
      - by apply (Hlv id es []). }
    apply Hm. by destruct descent.
  - destruct HS as [_ Hseg]. inversion Hst as [|? ? Vw Hkids]; subst. cbn in Vw.
    destruct (internal_raws _ _ _ _ _ Vw) as (bytes & p & _ & _ & _ & Eo & _ & Hpb & _ & _ & Ht & Ep & _).
    assert (∃ c kids', kids = c :: kids' ∧ ∃ lo' hi', shaped h' lo' hi' c) as (c & kids' & -> & lo' & hi' & Hc).
    { inversion Hseg; subst; eauto 7. }
    cbn [map concat] in Hkids. apply Forall_app in Hkids as [Hstc _]. destruct descent as [|descent]; [lia|]. cbn [collect_descent root_id].
    apply yields_get. intros q S. eapply (yields_step _ _ _ _ _ (Some (root_id c))).
    + apply (opened_read _ _ _ B _ p); [done|]. rewrite bool_decide_true by done. rewrite (sound_next q S).
      by rewrite Hpb, Ep, bind_ok.
    + eapply IH; [exact Hc|done|lia|]. intros lf es LS q' HL' S'. eapply (Hlv lf es (LS ++ concat (map leaves kids'))); [|done].
      cbn [leaves map concat]. by rewrite HL'.
Qed.

Lemma collect_ok : ∃ out, yields (collect_with_locators deser) (Ok out) ∧ Forall2 listed live_keys out.
Proof.
  destruct (leftmost_yields base t oh B T h F ws Sk) as (lf & es & LS & HL & _).
  assert (∀ x, x ∈ map fst ((lf, es) :: LS) → x ∉ (∅ : gset Z)) as Hfr by (intros; set_solver).
  pose proof leaves_fuel as Hl. rewrite HL in Hl. cbn [length] in Hl.
  destruct (collect_leaves_ok LS [] lf es (S (Z.to_nat (tx_next t))) ∅ HL ltac:(lia) Hfr) as (out & Hout & Hf). exists out. split.
  - intros q S. unfold collect_with_locators. rewrite (sound_next q S), (so_header _ _ _ _ S).
    assert (root_page_id oh = root_id T) as -> by (rewrite <- (sk_root _ _ _ _ _ _ Sk), (bg_next _ _ _ B); done).
    destruct (skeleton_height _ _ _ _ _ _ Sk) as (_ & Hh & _).
    eapply collect_descent_ok; [apply Sk|apply Sk|lia| |done]. intros lf' es' LS' q' HL' S'. rewrite HL in HL'. injection HL' as <- <- <-.
    unfold page_fuel. by rewrite (sound_next q' S').
  - unfold live_keys, entries. by rewrite HL.
Qed.
End Collect.

(** ** Only the value of the key *)

Lemma query_page_inv q id bytes : sound q → query_page q id = Ok bytes → tx_page t base id = Ok bytes.
Proof.
  intros S H. unfold query_page in H. rewrite (sound_next q S), (so_file _ _ _ _ S) in H. unfold tx_page.
  destruct (bg_clean _ _ _ B) as [Hd _]. rewrite Hd, lookup_empty.
  destruct ((id =? 0) || (tx_next t <=? id)) eqn:Eb; [done|]. bind_inv. unfold page_byte_range. field_inv. subst.
  assert (tx_next t = next_page_id (original_header t)) as Hn by (unfold tx_next; by rewrite (bg_next _ _ _ B), (bg_original _ _ _ B)).
  change PAGE_SIZE with 4096 in *. replace (next_page_id (original_header t) <=? id) with false by lia.
  rewrite try_fit_small by lia. cbn [ok_or]. rewrite bind_ok, checked_mul_small by lia. cbn [ok_or].
  rewrite bind_ok, checked_add_small by lia. cbn [ok_or]. rewrite bind_ok. replace (len base <? id * 4096 + 4096) with false by lia.
  rewrite bind_ok. cbn [fst snd]. by rewrite get_range_some by lia.
Qed.

Lemma page_leaf id cs : ∀ T, (id, PLeaf cs) ∈ pages T → ∃ es, (id, es) ∈ leaves T.
Proof.
  fix IH 1. intros [i e0|i kids seps] H; cbn [leaves pages] in *.
  - apply list_elem_of_singleton in H. injection H as E _. subst i. exists e0. by left.
  - apply elem_of_cons in H as [H|H]; [done|]. clear seps. induction kids as [|K kids IHk]; cbn [map concat] in *; [by apply elem_of_nil in H|].
    apply elem_of_app in H as [H|H]; [destruct (IH K H) as [es Hes]|destruct (IHk H) as [es Hes]]; exists es; apply elem_of_app; auto.
Qed.

Lemma chain_overflow Vw head ps bs x : chain Vw head ps bs → x ∈ ps → ∃ next payload, Vw x (NOverflow next payload).
Proof.
  induction 1 as [|id next payload ps bs Hv _ _ IH]; intros Hx; [by apply elem_of_nil in Hx|].
  apply elem_of_cons in Hx as [->|Hx]; [eauto|by apply IH].
Qed.

Lemma free_chain_free Vw head fs x : free_chain Vw head fs → x ∈ fs → ∃ next, Vw x (NFree next).
Proof.
  induction 1 as [|id next fs Hv _ IH]; intros Hx; [by apply elem_of_nil in Hx|].
  apply elem_of_cons in Hx as [->|Hx]; [eauto|by apply IH].
Qed.

(** A page that opens as a leaf is a leaf of the tree. *)
Lemma leaf_of_tree id p :
  tx_open t base id = Ok p → page_type (sp_header p) = Leaf → 0 ≤ id → ∃ LP es LS, leaves T = LP ++ (id, es) :: LS.
Proof.
  intros Ho Ht H0. pose proof Ho as (bytes & Ep & _)%tx_open_inv. apply tx_page_range in Ep as [Hne Hlt].
  assert (∀ n, view t base id n → is_node p n) as Hview.
  { intros n Hv. destruct (view_open _ _ _ _ Hv) as (bytes' & p' & _ & _ & Hn & Eo & _). assert (p' = p) as -> by congruence. done. }
  assert (id ∈ ids T ++ owned_pages ws ++ F) as Hin.
  { rewrite (sk_owned _ _ _ _ _ _ Sk). apply elem_of_seqZ. lia. }
  rewrite !elem_of_app in Hin. destruct Hin as [Hin|[Hin|Hin]].
  - apply list_elem_of_In, in_map_iff in Hin as ([id' sp] & E & Hin). cbn in E. subst id'. apply list_elem_of_In in Hin.
    pose proof (sk_pages _ _ _ _ _ _ Sk) as Hp. rewrite Forall_forall in Hp. specialize (Hp _ Hin).
    destruct sp as [es|lm cs]; cbn in Hp.
    + apply page_leaf in Hin as [es' Hin]. apply list_elem_of_split in Hin as (LP & LS & ->). eauto.
    + destruct (Hview _ Hp) as [Ht' _]. congruence.
  - exfalso. unfold owned_pages in Hin. apply list_elem_of_In, in_concat in Hin as (ps & Hps & Hin).
    apply in_map_iff in Hps as (w & <- & Hw). apply list_elem_of_In in Hw, Hin. apply list_elem_of_lookup in Hw as [j Hw].
    destruct (Forall2_lookup_r _ _ _ _ _ It Hw) as (e & _ & Hh). remember w.1 as ps eqn:Eps. clear Eps.
    destruct Hh as [|? ? ? ? _|? ? head ps bs _ _ Hc]; [by apply elem_of_nil in Hin..|].
    destruct (chain_overflow _ _ _ _ _ Hc Hin) as (next & payload & Hv). destruct (Hview _ Hv) as [Ht' _]. congruence.
  - destruct (free_chain_free _ _ _ _ (pool_chain _ _ _ (sk_pool _ _ _ _ _ _ Sk)) Hin) as [next Hv]. destruct (Hview _ Hv) as [Ht' _]. congruence.
Qed.

(** What a page read through the cache of validations opens to. *)
Lemma slotted_inv {R} q id (read : SlottedPage → io_result R) r q' :
  sound q → with_slotted_page id read q = (Ok r, q') → ∃ p, tx_open t base id = Ok p ∧ read p = Ok r.
Proof.
  intros S H. unfold with_slotted_page in H. destruct (q_next q <=? id); [done|]. cbv zeta in H.
  destruct (query_page q id) as [bytes|] eqn:Eq; [|done]. rewrite bind_ok in H. pose proof (query_page_inv _ _ _ S Eq) as Et.
  assert (∀ p, tx_open t base id = Ok p → yields (with_slotted_page id read) (read p)) as Hy by (intros; by apply (slotted_yields base t oh B)).
  destruct (q_page_validations q !! id) as [v|] eqn:Ev.
  - destruct (so_valid _ _ _ _ S _ _ Ev) as (p & Ho & ->). exists p. split; [done|]. pose proof Ho as (b' & E' & O & Hb)%tx_open_inv.
    destruct (page_open_valid _ _ _ _ O) as [Vp _]. assert (bytes = sp_bytes p) as -> by congruence.
    rewrite (snapshot_ok _ Vp), bind_ok in H. destruct (read p); [|done]. rewrite bind_ok in H. by injection H as ->.
  - destruct (page_open bytes id (q_next q)) as [p|] eqn:Eo; [|done]. rewrite bind_ok in H. exists p.
    split; [unfold tx_open; by rewrite Et, bind_ok, <- (sound_next q S)|]. destruct (read p); [|done]. rewrite bind_ok in H. by injection H as -> _.
Qed.

Lemma locator_range_inv q l range q' :
  sound q → locator_cell_range l q = (Ok range, q') →
  ∃ p ranges, tx_open t base (leaf_page_id l) = Ok p ∧ page_type (sp_header p) = Leaf ∧
    cell_ranges (Z.to_nat (cell_count (sp_header p))) p 0 = Ok ranges ∧ get ranges (slot_index l) = Some range.
Proof.
  intros S. unfold locator_cell_range. unfold mbind at 1, stateful_bind at 1, get_state at 1.
  destruct (q_locator_page_id q =? leaf_page_id l) eqn:Ec.
  - apply Z.eqb_eq in Ec. unfold mbind, stateful_bind, get_state, of_result. cbn. intros E.
    destruct (get (q_locator_cell_ranges q) (slot_index l)) as [range'|] eqn:Eg; [|done]. injection E as -> _.
    destruct (so_locator _ _ _ _ S) as [[_ H0]|(p' & Ho' & Ht' & Er')].
    + rewrite H0 in Eg. unfold get in Eg. rewrite lookup_nil in Eg. by case_match.
    + rewrite Ec in Ho'. eauto 7.
  - unfold mbind, stateful_bind, modify, get_state, of_result. cbv zeta. rewrite slotted_locator. set (read := λ page : SlottedPage, _).
    destruct (with_slotted_page (leaf_page_id l) read q) as [[ranges|err] q1] eqn:E1; [|done]. cbn.
    destruct (slotted_inv _ _ _ _ _ S E1) as (p & Ho & Hread). unfold read in Hread. intros E.
    destruct (get ranges (slot_index l)) as [range'|] eqn:Eg; [|done]. injection E as -> _. case_bool_decide; [|done]. eauto 7.
Qed.

Lemma read_only_key q q' l pk v :
  sound q → 0 ≤ leaf_page_id l → read_locator_value deser l pk q = (Ok v, q') →
  ∃ k raw, pk = key_to_vec k ∧ g k = Some raw ∧ deser raw = Ok v.
Proof.
  intros S H0 H. pose proof H as H'. unfold read_locator_value in H. unfold mbind at 1, stateful_bind at 1, get_state at 1 in H.
  unfold mbind at 1, stateful_bind at 1 in H. destruct (locator_cell_range l q) as [[range|err] q1] eqn:El; [|done].
  destruct (locator_range_inv _ _ _ _ S El) as (p & ranges & Ho & Ht & Er & Hg). destruct (leaf_of_tree _ _ Ho Ht H0) as (LP & es & LS & HL).
  destruct (at_leaf_ok _ _ _ _ HL) as [p' A]. assert (p' = p) as -> by (pose proof (al_open _ _ _ _ _ _ _ A); congruence).
  destruct (cell_ranges_ok _ _ _ _ _ _ _ A) as (ranges' & Er' & Hlen & _). assert (ranges' = ranges) as -> by congruence.
  unfold get in Hg. destruct (0 <=? slot_index l) eqn:Es; [|done]. apply Z.leb_le in Es.
  destruct (lookup_lt_is_Some_2 es (Z.to_nat (slot_index l))) as [[k e] He]; [rewrite <- Hlen; by eapply lookup_lt_Some|].
  destruct (read_at_ok _ _ _ _ _ _ _ (serialized_key_crc32 l) pk HL He q S) as (q2 & E2 & _).
  rewrite Z2Nat.id in E2 by done. destruct l as [lf sl c]. cbn [leaf_page_id slot_index serialized_key_crc32] in *.
  assert (located_value k c pk = Ok v) as Hv by congruence. unfold located_value in Hv.
  destruct (_ || _) eqn:Ec; [done|]. apply orb_false_iff in Ec as [_ Ec]. apply negb_false_iff, bool_decide_eq_true in Ec.
  destruct (g k) as [raw|] eqn:Eg; [|done]. by exists k, raw.
Qed.

(** ** The page of the cached ranges *)

(** A read that leaves the cached page of the locators alone. *)
Definition keeps {A} (m : reader A) : Prop := ∀ q, q_locator_page_id (snd (m q)) = q_locator_page_id q.

Lemma keeps_ret {A} (a : A) : keeps (mret a).
Proof. done. Qed.

Lemma keeps_result {A} (r : io_result A) : keeps (of_result r).
Proof. done. Qed.

Lemma keeps_bind {A A'} (m : reader A) (f : A → reader A') : keeps m → (∀ a, keeps (f a)) → keeps (m ≫= f).
Proof.
  intros Hm Hf q. unfold mbind, stateful_bind. specialize (Hm q). destruct (m q) as [[a|e] q1]; [|done]. cbn [snd] in Hm. by rewrite Hf.
Qed.

Lemma keeps_get {A} (f : BPlusTreeQuery → reader A) : (∀ q, keeps (f q)) → keeps (get_state ≫= f).
Proof. intros Hf q. apply Hf. Qed.

Lemma keeps_slotted {R} id (read : SlottedPage → io_result R) : keeps (with_slotted_page id read).
Proof. intros q. unfold with_slotted_page. destruct (q_next q <=? id); [done|]. cbv zeta. by destruct (_ ≫= _) as [[r [v|]]|e]. Qed.

Lemma keeps_page {R} id (read : list byte → io_result R) : keeps (with_page id read).
Proof. done. Qed.

#[local] Hint Resolve keeps_ret keeps_result keeps_bind keeps_get keeps_slotted keeps_page : core.

Lemma keeps_assemble fuel : ∀ sl id visited owned stored, keeps (assemble_loop fuel sl id visited owned stored).
Proof.
  induction fuel as [|fuel IH]; intros sl id visited owned stored; cbn [assemble_loop]; [done|]. destruct (id =? 0); [done|]. auto 10.
Qed.

Lemma keeps_chain comp ll sl head crc owned : keeps (assemble_overflow_chain comp ll sl head crc owned).
Proof.
  unfold assemble_overflow_chain. apply keeps_get. intros q. apply keeps_bind; [done|]. intros sl'. apply keeps_bind; [done|]. intros ll'.
  destruct (_ || _); [done|]. apply keeps_bind; [apply keeps_assemble|]. intros r. cbv zeta. destruct (_ || _); [done|].
  destruct (bool_decide _); [auto|]. by destruct (negb _).
Qed.

(** A locator read that succeeds leaves the ranges of its page in the cache. *)
Lemma read_page l pk q v q' : read_locator_value deser l pk q = (Ok v, q') → q_locator_page_id q' = leaf_page_id l.
Proof.
  unfold read_locator_value. unfold mbind at 1, stateful_bind at 1, get_state at 1. unfold mbind at 1, stateful_bind at 1.
  destruct (locator_cell_range l q) as [[range|err] q1] eqn:El; [|done].
  assert (q_locator_page_id q1 = leaf_page_id l) as Hq1.
  { unfold locator_cell_range in El. unfold mbind at 1, stateful_bind at 1, get_state at 1 in El.
    destruct (q_locator_page_id q =? leaf_page_id l) eqn:Ec.
    - apply Z.eqb_eq in Ec. unfold mbind, stateful_bind, get_state, of_result in El. cbn in El. by injection El as _ <-.
    - unfold mbind, stateful_bind, modify, get_state, of_result in El. cbv zeta in El. destruct (with_slotted_page _ _ _) as [[ranges|err] q2]; [|done].
      cbn in El. by injection El as _ <-. }
  intros H. rewrite <- Hq1.
  match type of H with ?m q1 = _ => assert (keeps m) as Hk end.
  { apply keeps_bind; [done|]. intros [x|comp ll sl head crc|]; [done| |done]. apply keeps_bind; [apply keeps_chain|done]. }
  specialize (Hk q1). by rewrite H in Hk.
Qed.

(** A locator outside the file fails and empties the cached ranges, and a read
    of the page they belonged to is refused. *)
Lemma poisoned q l pk l' pk' :
  q_locator_page_id q = leaf_page_id l → q_next q ≤ leaf_page_id l' → leaf_page_id l' ≠ leaf_page_id l →
  ∃ q', read_locator_value deser l' pk' q = (Err (invalid_data "page id is outside cache"), q') ∧
    fst (read_locator_value deser l pk q') = Err (invalid_data "locator slot index is outside leaf page").
Proof.
  intros Hp Hn Hne. exists (with_locator_page q (q_locator_page_id q) []). split.
  - unfold read_locator_value. unfold mbind at 1, stateful_bind at 1, get_state at 1. unfold mbind at 1, stateful_bind at 1.
    unfold locator_cell_range. unfold mbind at 1, stateful_bind at 1, get_state at 1. replace (q_locator_page_id q =? leaf_page_id l') with false by lia.
    unfold mbind, stateful_bind, modify. cbv zeta. rewrite slotted_locator. unfold with_slotted_page.
    assert ((q_next q <=? leaf_page_id l') = true) as -> by lia. done.
  - unfold read_locator_value. unfold mbind at 1, stateful_bind at 1, get_state at 1. unfold mbind at 1, stateful_bind at 1.
    unfold locator_cell_range. unfold mbind at 1, stateful_bind at 1, get_state at 1. cbn [with_locator_page q_locator_page_id].
    rewrite Hp, Z.eqb_refl. unfold mbind, stateful_bind, get_state, of_result. cbn. unfold get. rewrite lookup_nil. by destruct (0 <=? slot_index l).
Qed.
End Locators.
