(* ===== verification/BtreeReaders.v ===== *)
(** The readers of a committed file refine the map that the file holds: any
    sequence of reads through one handle, whatever its caches learned, gives the
    answers of the map; cursors give its entries in order; locators give back
    the values they were made for. *)

From stdpp Require Import gmap functions.
From S2P Require Import Prelude BtreeFormat BtreeCell BtreePage BtreeSplit BtreeTransaction BtreeUpdate.
From S2P Require Import BtreeQuery BtreeNode BtreeOverlay BtreeMutation BtreeTree BtreeClimb BtreeChain.
From S2P Require Import BtreePlace BtreeStore BtreeExtend BtreeLinks BtreeWal BtreeRecovery BtreeCrash BtreeDurable.
From S2P Require Import BtreeSpec BtreeRead BtreeLookup BtreeCursor BtreeRange BtreeLocators.

Section Readers.
Context {CK : Checksum} {KC : KeyCodec} {LZ : Lz4}.
Abbreviation values := (key → option (list byte)).
Context {V : Type} (deser : list byte → io_result V).

(** ** Sequences of reads *)

Inductive read_op :=
| ReadQuery (k : key)
| ReadContains (k : key)
| ReadLe (k : key)
| ReadLen
| ReadIsEmpty
| ReadPage (start end_ : Bound) (offset limit : Z)
| ReadLocators.

Inductive answer :=
| AnswerValue (r : io_result (option V))
| AnswerBool (r : io_result bool)
| AnswerLen (r : io_result Z)
| AnswerPage (r : io_result (list (key * V) * bool))
| AnswerLocators (r : io_result (list (key * V * Locator))).

Definition answered {A} (c : io_result A → answer) (m : reader A) (q : BPlusTreeQuery) : answer * BPlusTreeQuery :=
  let '(r, q) := m q in (c r, q).

Definition run_read (op : read_op) : BPlusTreeQuery → answer * BPlusTreeQuery :=
  match op with
  | ReadQuery k => answered AnswerValue (query_io deser k)
  | ReadContains k => answered AnswerBool (contains_live_key k)
  | ReadLe k => answered AnswerValue (query_le_io deser k)
  | ReadLen => answered AnswerLen query_len
  | ReadIsEmpty => answered AnswerBool (query_is_empty deser)
  | ReadPage start end_ offset limit => answered AnswerPage (range_page deser start end_ offset limit)
  | ReadLocators => answered AnswerLocators (collect_with_locators deser)
  end.

Fixpoint run_reads (ops : list read_op) (q : BPlusTreeQuery) : list answer * BPlusTreeQuery :=
  match ops with
  | [] => ([], q)
  | op :: ops =>
      let '(a, q) := run_read op q in
      let '(rest, q) := run_reads ops q in (a :: rest, q)
  end.

(** ** What the map answers *)

(** The values of the map decode to [val]. *)
Definition decodes (g : values) (val : key → V) : Prop := ∀ k raw, g k = Some raw → deser raw = Ok (val k).

(** The entries of the map between two bounds, in order. *)
Definition between (g : values) (val : key → V) (start end_ : Bound) (E : list (key * V)) : Prop :=
  sorted_keys (map fst E) ∧
  ∀ k v, (k, v) ∈ E ↔ is_Some (g k) ∧ v = val k ∧ within_start k start = true ∧ past_end k end_ = false.

Definition answers (g : values) (val : key → V) (op : read_op) (a : answer) : Prop :=
  match op, a with
  | ReadQuery k, AnswerValue r => r = Ok ((λ _, val k) <$> g k)
  | ReadContains k, AnswerBool r => r = Ok (bool_decide (is_Some (g k)))
  | ReadLe k, AnswerValue r =>
      (∃ k', is_Some (g k') ∧ key_le k' k ∧ (∀ k'', key_le k'' k → is_Some (g k'') → key_le k'' k') ∧ r = Ok (Some (val k'))) ∨
      ((∀ k', key_le k' k → g k' = None) ∧ r = Ok None)
  | ReadLen, AnswerLen r => ∃ ks, listing g ks ∧ r = Ok (len ks)
  | ReadIsEmpty, AnswerBool r => ∃ b, r = Ok b ∧ (b = true ↔ ∀ k, g k = None)
  | ReadPage start end_ offset limit, AnswerPage r =>
      0 ≤ offset → 0 ≤ limit → ∃ E, between g val start end_ E ∧
        r = Ok (take (Z.to_nat limit) (drop (Z.to_nat offset) E), bool_decide (offset + limit < len E))
  | ReadLocators, AnswerLocators r =>
      ∃ out, r = Ok out ∧ between g val Unbounded Unbounded (map fst out)
  | _, _ => False
  end.

(** A file that holds a map, with the limits of a reader. *)
Record readable (base : list byte) (g : values) (q : BPlusTreeQuery) : Prop := {
  rb_holds : file_holds base g;
  rb_ratio : lz4_ratio;
  rb_open : from_file_unlocked base = Ok q;
  rb_room : q_next q < 2 ^ 44;
}.

Lemma readable_sound base g q :
  readable base g q → ∃ t oh T h F ws, begun base t oh ∧ skeleton t base T h F (owned_pages ws) ∧
    holds_items (view t base) (entries T) ws ∧ represents (stored_as g) (entries T) ws ∧ tx_next t < 2 ^ 44 ∧ sound base t oh q.
Proof.
  intros [(t & Hb & (T & h & F & ws & Sk & It & Re)) _ Ho Hr]. destruct (begin_inv _ _ Hb) as [oh B].
  destruct (opened_sound _ _ _ B) as (q' & E & S). assert (q' = q) as -> by congruence.
  exists t, oh, T, h, F, ws. split_and!; try done. by rewrite <- (sound_next _ _ _ B q S).
Qed.

(** ** Reads of a sound handle *)

Section Answers.
Context (base : list byte) (t : WriteTransaction) (oh : DatabaseHeader) (B : begun base t oh).
Context (T : btree) (h : nat) (F : list Z) (ws : list item) (g : values).
Context (Sk : skeleton t base T h F (owned_pages ws)) (It : holds_items (view t base) (entries T) ws).
Context (Re : represents (stored_as g) (entries T) ws).
Context (Ratio : lz4_ratio) (Room : tx_next t < 2 ^ 44).
Context (val : key → V) (Val : decodes g val).

#[local] Abbreviation sound := (sound base t oh).
#[local] Abbreviation live_keys := (live_keys T g).
#[local] Abbreviation live_listing := (live_listing base t T h F ws g Sk Re).

Lemma answered_ok {A} (c : io_result A → answer) (m : reader A) r (P : answer → Prop) q :
  yields base t oh m r → P (c r) → sound q → ∃ a q', answered c m q = (a, q') ∧ P a ∧ sound q'.
Proof. intros Hy HP S. destruct (Hy q S) as (q' & E & S'). exists (c r), q'. unfold answered. by rewrite E. Qed.

Lemma range_between start end_ : between g val start end_ (range_entries T g val start end_).
Proof.
  destruct live_listing as [Hs Hin]. unfold between, range_entries, rest, from_bound. split.
  - rewrite map_map, map_id. by apply sorted_filter, sorted_filter.
  - intros k v. rewrite list_elem_of_In, in_map_iff. split.
    + intros (k' & [= -> <-] & Hk). apply list_elem_of_In in Hk. apply list_elem_of_filter in Hk as [Hp Hk].
      apply list_elem_of_filter in Hk as [Hw Hk]. apply Hin in Hk. done.
    + intros (Hg & -> & Hw & Hp). exists k. split; [done|]. apply list_elem_of_In, list_elem_of_filter. split; [done|].
      apply list_elem_of_filter. split; [done|]. by apply Hin.
Qed.

Lemma listed_between out : Forall2 (listed T val) live_keys out → between g val Unbounded Unbounded (map fst out).
Proof.
  intros Hf. destruct live_listing as [Hs Hin].
  assert (map fst out = map (λ k, (k, val k)) live_keys) as ->.
  { clear Hs Hin. induction Hf as [|k e ks out [Hk _] _ IH]; [done|]. cbn [map]. by rewrite Hk, IH. }
  split; [by rewrite map_map, map_id|]. intros k v. rewrite list_elem_of_In, in_map_iff. split.
  - intros (k' & [= -> <-] & Hk). apply list_elem_of_In, Hin in Hk. done.
  - intros (Hg & -> & _). exists k. split; [done|]. by apply list_elem_of_In, Hin.
Qed.

Lemma run_read_ok op q : sound q → ∃ a q', run_read op q = (a, q') ∧ answers g val op a ∧ sound q'.
Proof.
  intros S. destruct op as [k|k|k| | |start end_ offset limit|]; cbn [run_read].
  - eapply answered_ok; [by eapply query_yields| |done]. unfold answers, query_values. destruct (g k) as [raw|] eqn:Eg; [|done]. by rewrite (Val _ _ Eg).
  - eapply answered_ok; [by eapply contains_yields|done|done].
  - destruct (le_yields base t oh B T h F ws g Sk It Re Ratio Room deser k) as (r & Hy & Hr). eapply answered_ok; [exact Hy| |done]. cbn.
    destruct Hr as [(k' & raw & Hg & Hle & Hm & ->)|[Hn ->]]; [left|by right]. exists k'. rewrite (Val _ _ Hg). split_and!; [by eexists|done|done|done].
  - eapply answered_ok; [by eapply len_yields| |done]. cbn. eexists. split; [apply live_listing|done].
  - destruct (empty_ok base t oh B T h F ws g Sk It Re Ratio Room deser q S) as (q' & E & S'). unfold answered. rewrite E.
    do 2 eexists. split_and!; [reflexivity| |done]. cbn. destruct live_listing as [_ Hin]. destruct live_keys as [|k L].
    + exists true. split; [done|]. split; [|done]. intros _ k. destruct (g k) eqn:Ek; [|done]. exfalso. apply (elem_of_nil k). apply Hin. by rewrite Ek.
    + destruct (proj1 (Hin k) ltac:(by left)) as [raw Hk]. unfold item_of. rewrite Hk. cbn [from_option id]. rewrite (Val _ _ Hk), !bind_ok.
      exists false. split; [done|]. split; [done|]. intros Hnone. by rewrite Hnone in Hk.
  - unfold answered. destruct (decide (0 ≤ offset ∧ 0 ≤ limit)) as [[H1 H2]|Hneg].
    + destruct (page_ok base t oh B T h F ws g Sk It Re Ratio Room deser val Val q start end_ offset limit S H1 H2) as (q' & E & S'). rewrite E.
      do 2 eexists. split_and!; [reflexivity| |done]. intros _ _. eexists. split; [apply range_between|done].
    + destruct (page_ok base t oh B T h F ws g Sk It Re Ratio Room deser val Val q start end_ (Z.max 0 offset) (Z.max 0 limit) S) as (q' & E & S'); [lia|lia|].
      assert (∀ z, Z.to_nat (Z.max 0 z) = Z.to_nat z) as Hz by lia. unfold range_page in *. rewrite !Hz in E. rewrite E.
      do 2 eexists. split_and!; [reflexivity| |done]. cbn. tauto.
  - destruct (collect_ok base t oh B T h F ws g Sk It Re Ratio Room deser val Val) as (out & Hy & Hf).
    eapply answered_ok; [exact Hy| |done]. cbn. eexists. split; [done|by apply listed_between].
Qed.

Lemma run_reads_ok ops : ∀ q, sound q → ∃ l q', run_reads ops q = (l, q') ∧ Forall2 (answers g val) ops l ∧ sound q'.
Proof.
  induction ops as [|op ops IH]; intros q S; cbn [run_reads]; [by exists [], q|].
  destruct (run_read_ok op q S) as (a & q1 & E1 & Ha & S1). destruct (IH q1 S1) as (l & q2 & E2 & Hl & S2).
  exists (a :: l), q2. rewrite E1, E2. split_and!; [done|by constructor|done].
Qed.
End Answers.

(** A committed transaction leaves a file that readers can open. *)
Lemma committed_readable idx uuid base index g t0 ops :
  file_holds base g → begin_transaction base = Ok t0 → Forall op_ok ops →
  is_u64 uuid → generation (original_header t0) + 1 < 2 ^ 64 → tx_next t0 + ops_cost ops < 2 ^ 44 → lz4_ratio →
  ∃ t q, stage_ops t0 base ops = Ok t ∧
    readable (BtreeRecovery.database (apply_ops (fst (commit_transaction idx uuid t base (rest_disk base index))) (rest_disk base index)))
      (map_ops g ops) q.
Proof.
  intros H B0 Hop Hu Hg Hroom Ratio.
  destruct (ops_commit idx uuid base index g t0 ops H B0 Hop Hu Hg Hroom) as (t & cops & base' & E & Hc & Ha & Hi & Hlen & Hn).
  pose proof Hi as (t' & Bt' & _). destruct (begin_inv _ _ Bt') as [oh B].
  destruct (opened_sound _ _ _ B) as (q & Eq & S). exists t, q. rewrite Hc. cbn [fst]. rewrite Ha. split; [done|]. constructor; [done|done|done|].
  pose proof (sound_file_len _ _ _ B q S) as Hl. rewrite (so_len _ _ _ _ S), Hlen, <- (sound_next _ _ _ B q S) in Hl. change PAGE_SIZE with 4096 in Hl. lia.
Qed.

(** ** Theorems *)

(** Reads through locators, one after the other. *)
Fixpoint read_locators (entries : list (key * V * Locator)) (q : BPlusTreeQuery) : list (io_result V) :=
  match entries with
  | [] => []
  | e :: entries =>
      let '(r, q) := read_locator_value deser e.2 (key_to_vec e.1.1) q in r :: read_locators entries q
  end.

(** C5: the readers refine the map of the file.  A handle opened on a file that
    holds the map [g] answers every sequence of reads as the map does: queries,
    presence, the largest key below a bound, the number of entries, emptiness,
    pages of ranges and the scan for locators.  The caches of validated pages
    and of decoded internal pages that earlier reads filled do not change an
    answer, and no walk is taken for a cycle. *)
Theorem readers_refine base g q val reads :
  readable base g q → decodes g val → Forall2 (answers g val) reads (fst (run_reads reads q)).
Proof.
  intros R Val. destruct (readable_sound _ _ _ R) as (t & oh & T & h & F & ws & B & Sk & It & Re & Room & S).
  destruct (run_reads_ok base t oh B T h F ws g Sk It Re (rb_ratio _ _ _ R) Room val Val reads q S) as (l & q' & E & Hl & _). by rewrite E.
Qed.

(** C4: what a transaction commits is what readers see.  On a file that holds
    the map [g], a sequence of upserts and deletions is staged and committed,
    and a handle opened on the file afterwards answers
    every sequence of reads as the map after the operations. *)
Theorem committed_reads idx uuid base index g t0 ops val reads :
  file_holds base g → begin_transaction base = Ok t0 → Forall op_ok ops →
  is_u64 uuid → generation (original_header t0) + 1 < 2 ^ 64 → tx_next t0 + ops_cost ops < 2 ^ 44 →
  lz4_ratio → decodes (map_ops g ops) val →
  ∃ t q, stage_ops t0 base ops = Ok t ∧
    from_file_unlocked (BtreeRecovery.database (apply_ops (fst (commit_transaction idx uuid t base (rest_disk base index)))
                          (rest_disk base index))) = Ok q ∧
    Forall2 (answers (map_ops g ops) val) reads (fst (run_reads reads q)).
Proof.
  intros H B0 Hop Hu Hg Hroom Ratio Val.
  destruct (committed_readable idx uuid base index g t0 ops H B0 Hop Hu Hg Hroom Ratio) as (t & q & E & R). exists t, q.
  split_and!; [done|apply R|]. destruct (readable_sound _ _ _ R) as (t' & oh & T & h & F & ws & B & Sk & It & Re & Room & S).
  destruct (run_reads_ok _ t' oh B T h F ws (map_ops g ops) Sk It Re Ratio Room val Val reads q S) as (l & q' & E' & Hl & _). by rewrite E'.
Qed.

(** C8: a cursor runs through the map.  From a start bound, calls of [next] give
    the entries of the keys that have a value and are not before the bound, in
    the order of the keys and each once, and [None] from then on.  A value that
    fails to decode is reported at its place and does not end the run. *)
Theorem cursor_in_order base g q start :
  readable base g q → ∃ ks, sorted_keys ks ∧ (∀ k, k ∈ ks ↔ is_Some (g k) ∧ within_start k start = true) ∧
    ∀ n, cursor_items deser n (cursor_new start, q) = map (λ i, item_of g deser <$> ks !! i) (seq 0 n).
Proof.
  intros R. destruct (readable_sound _ _ _ R) as (t & oh & T & h & F & ws & B & Sk & It & Re & Room & S).
  destruct (live_listing base t T h F ws g Sk Re) as [Hs Hin]. exists (from_bound start (live_keys T g)). split_and!.
  - by apply sorted_filter.
  - intros k. unfold from_bound. rewrite list_elem_of_filter, Hin. tauto.
  - intros n. apply (items_ok base t oh B T h F ws g Sk It Re (rb_ratio _ _ _ R) Room deser n _ _ _ (stream_fresh base t T g start) S).
Qed.

(** C9: a locator reads back the entry it was made for.  The scan lists every
    key with a value, and reading through any of its locators, in any order and
    as often as one likes, gives the values of these keys. *)
Theorem locators_roundtrip base g q val :
  readable base g q → decodes g val → ∃ out q1, collect_with_locators deser q = (Ok out, q1) ∧
    between g val Unbounded Unbounded (map fst out) ∧
    ∀ picks, picks ⊆ out → read_locators picks q1 = map (λ e, Ok e.1.2) picks.
Proof.
  intros R Val. destruct (readable_sound _ _ _ R) as (t & oh & T & h & F & ws & B & Sk & It & Re & Room & S).
  pose proof (rb_ratio _ _ _ R) as Ratio.
  destruct (collect_ok base t oh B T h F ws g Sk It Re Ratio Room deser val Val) as (out & Hy & Hf).
  destruct (Hy q S) as (q1 & E & S1). exists out, q1. split_and!; [done|by eapply listed_between|].
  clear E R S. intros picks. revert q1 S1.
  induction picks as [|e picks IH]; intros q1 S1 Hsub; [done|]. cbn [read_locators map].
  assert (e ∈ out) as He by (apply Hsub; by left). apply list_elem_of_lookup in He as [i He].
  destruct (Forall2_lookup_r _ _ _ _ _ Hf He) as (k & Hk & [Ek Hp]).
  destruct (live_listing base t T h F ws g Sk Re) as [_ Hin]. destruct (proj1 (Hin k) ltac:(by eapply list_elem_of_lookup_2)) as [raw Hg].
  destruct (read_located_ok base t oh B T h F ws g Sk It Re Ratio Room deser k e.2 raw Hp Hg q1 S1) as (q2 & E2 & S2).
  rewrite Ek in *. cbn [fst snd]. rewrite E2, (Val _ _ Hg). f_equal. apply IH; [done|]. intros x Hx. apply Hsub. by right.
Qed.

(** C10: a locator never reads the value of another key.  Whatever was read
    before and whatever page, slot and checksum a locator has, if reading
    through it succeeds then the bytes given are those of a key of the map and
    the result is the value of that key. *)
Theorem locator_reads_only_key base g q val reads l pk v q' :
  readable base g q → decodes g val → 0 ≤ leaf_page_id l →
  read_locator_value deser l pk (snd (run_reads reads q)) = (Ok v, q') →
  ∃ k, pk = key_to_vec k ∧ is_Some (g k) ∧ v = val k.
Proof.
  intros R Val H0 H. destruct (readable_sound _ _ _ R) as (t & oh & T & h & F & ws & B & Sk & It & Re & Room & S).
  destruct (run_reads_ok base t oh B T h F ws g Sk It Re (rb_ratio _ _ _ R) Room val Val reads q S) as (a & q1 & E & _ & S1).
  rewrite E in H. cbn [snd] in H.
  destruct (read_only_key base t oh B T h F ws g Sk It Re (rb_ratio _ _ _ R) Room deser q1 q' l pk v S1 H0 H) as (k & raw & Hk & Hg & Hv).
  exists k. rewrite (Val _ _ Hg) in Hv. injection Hv as <-. eauto.
Qed.

(** C38: a failed locator read makes valid locators fail.  Any locator of the
    scan reads its value; a read through a locator whose page is outside the file
    fails, as it should, but empties the cached ranges without forgetting the
    page they belong to, and the same valid locator is then refused. *)
Theorem failed_locator_poisons_cache base g q val l' pk' :
  readable base g q → decodes g val → q_next q ≤ leaf_page_id l' →
  ∃ out q0, collect_with_locators deser q = (Ok out, q0) ∧ ∀ k v l, (k, v, l) ∈ out →
    ∃ q1 q2, read_locator_value deser l (key_to_vec k) q0 = (Ok v, q1) ∧
      read_locator_value deser l' pk' q1 = (Err (invalid_data "page id is outside cache"), q2) ∧
      fst (read_locator_value deser l (key_to_vec k) q2) = Err (invalid_data "locator slot index is outside leaf page").
Proof.
  intros R Val Hn. destruct (readable_sound _ _ _ R) as (t & oh & T & h & F & ws & B & Sk & It & Re & Room & S).
  pose proof (rb_ratio _ _ _ R) as Ratio. rewrite (sound_next _ _ _ B q S) in Hn.
  destruct (collect_ok base t oh B T h F ws g Sk It Re Ratio Room deser val Val) as (out & Hy & Hf).
  destruct (Hy q S) as (q0 & E & S0). exists out, q0. split; [done|]. intros k v l He. apply list_elem_of_lookup in He as [i He].
  destruct (Forall2_lookup_r _ _ _ _ _ Hf He) as (k' & Hk & [[= -> ->] Hp]).
  destruct (live_listing base t T h F ws g Sk Re) as [_ Hin]. destruct (proj1 (Hin k') ltac:(by eapply list_elem_of_lookup_2)) as [raw Hg].
  destruct (read_located_ok base t oh B T h F ws g Sk It Re Ratio Room deser k' l raw Hp Hg q0 S0) as (q1 & E1 & S1).
  rewrite (Val _ _ Hg) in E1. assert (leaf_page_id l < tx_next t) as Hl.
  { destruct Hp as (LP & lf & es & LS & j & e & HL & _ & El). cbn [snd] in El. rewrite El. cbn [locator_of leaf_page_id]. eapply leaf_id_pos; [done|]. rewrite HL, map_app, elem_of_app. right. by left. }
  destruct (poisoned deser q1 l (key_to_vec k') l' pk') as (q2 & E2 & E3); [by eapply read_page|rewrite (sound_next _ _ _ B q1 S1); lia|lia|].
  by exists q1, q2.
Qed.
End Readers.

(** *** Witnesses *)

#[local] Existing Instances byte_codec plain_lz4.

(** The file after the example transaction, and a handle on it. *)
Definition example_committed : list byte :=
  match stage_ops example_tx example_db example_ops with
  | Ok t => BtreeRecovery.database (apply_ops (fst (commit_transaction false 9 t example_db (rest_disk example_db true)))
              (rest_disk example_db true))
  | Err _ => []
  end.

Definition example_query : BPlusTreeQuery :=
  match from_file_unlocked example_committed with
  | Ok q => q
  | Err _ => {| q_file := []; q_header := example_oh; q_file_len := 0; q_page_validations := ∅; q_internal_routes := ∅;
                q_locator_page_id := 0; q_locator_cell_ranges := [] |}
  end.

Definition example_map : key → option (list byte) := map_ops (λ _, None) example_ops.
Definition example_val (k : key) : list byte := default [] (example_map k).

Lemma example_readable : readable example_committed example_map example_query.
Proof.
  destruct (committed_readable false 9 example_db true (λ _, None) example_tx example_ops
    (ex_intro _ example_tx (conj example_begin example_holds)) example_begin example_ops_ok
    ltac:(done) ltac:(done) ltac:(done) plain_ratio) as (t & q & E & R).
  unfold example_query, example_committed. rewrite E, (rb_open _ _ _ R). exact R.
Qed.

Lemma example_decodes : decodes Ok example_map example_val.
Proof. intros k raw Hk. unfold example_val. by rewrite Hk. Qed.

Definition example_reads : list read_op :=
  [ReadQuery (KC := byte_codec) Byte.x05; ReadLen; ReadLe (KC := byte_codec) Byte.x04; ReadQuery (KC := byte_codec) Byte.x07;
   ReadPage (Excluded (KC := byte_codec) Byte.x03) Unbounded 0 1; ReadIsEmpty].

Lemma readers_refine_witness :
  Forall2 (answers example_map example_val) example_reads (fst (run_reads Ok example_reads example_query)) ∧
  fst (run_reads Ok example_reads example_query) =
    [AnswerValue (Ok (Some [Byte.x0a; Byte.x0b])); AnswerLen (Ok 2); AnswerValue (Ok (Some (replicate 600 Byte.x01)));
     AnswerValue (Ok None); AnswerPage (Ok ([(Byte.x05, [Byte.x0a; Byte.x0b])], false)); AnswerBool (Ok false)].
Proof.
  split; [|vm_compute; reflexivity].
  exact (readers_refine Ok example_committed example_map example_query example_val example_reads example_readable example_decodes).
Defined.

Lemma committed_reads_witness :
  ∃ t q, stage_ops example_tx example_db example_ops = Ok t ∧
    from_file_unlocked (BtreeRecovery.database (apply_ops (fst (commit_transaction false 9 t example_db (rest_disk example_db true)))
                          (rest_disk example_db true))) = Ok q ∧
    Forall2 (answers example_map example_val) example_reads (fst (run_reads Ok example_reads q)).
Proof.
  exact (committed_reads Ok false 9 example_db true (λ _, None) example_tx example_ops example_val example_reads
    (ex_intro _ example_tx (conj example_begin example_holds)) example_begin example_ops_ok
    ltac:(done) ltac:(done) ltac:(done) plain_ratio example_decodes).
Defined.

Lemma cursor_in_order_witness :
  ∃ ks, sorted_keys ks ∧ (∀ k, k ∈ ks ↔ is_Some (example_map k) ∧ within_start k (Included (KC := byte_codec) Byte.x04) = true) ∧
    ∀ n, cursor_items Ok n (cursor_new (Included (KC := byte_codec) Byte.x04), example_query)
         = map (λ i, item_of example_map Ok <$> ks !! i) (seq 0 n).
Proof. exact (cursor_in_order Ok example_committed example_map example_query (Included Byte.x04) example_readable). Defined.

Lemma locators_roundtrip_witness :
  ∃ out q1, collect_with_locators Ok example_query = (Ok out, q1) ∧
    between example_map example_val Unbounded Unbounded (map fst out) ∧
    ∀ picks, picks ⊆ out → read_locators Ok picks q1 = map (λ e, Ok e.1.2) picks.
Proof. exact (locators_roundtrip Ok example_committed example_map example_query example_val example_readable example_decodes). Defined.

Definition example_locator : Locator := {| leaf_page_id := 1; slot_index := 1; serialized_key_crc32 := crc32 [Byte.x05] |}.

Lemma locator_reads_only_key_witness :
  ∃ k : key, [Byte.x05] = key_to_vec k ∧ is_Some (example_map k) ∧ [Byte.x0a; Byte.x0b] = example_val k.
Proof.
  apply (locator_reads_only_key Ok example_committed example_map example_query example_val [ReadLen] example_locator [Byte.x05] _
    (snd (read_locator_value Ok example_locator [Byte.x05] (snd (run_reads Ok [ReadLen] example_query))))
    example_readable example_decodes ltac:(done)).
  vm_compute. reflexivity.
Defined.

Lemma failed_locator_poisons_cache_witness :
  ∃ out q0, collect_with_locators Ok example_query = (Ok out, q0) ∧ ∀ k v l, (k, v, l) ∈ out →
    ∃ q1 q2, read_locator_value Ok l (key_to_vec k) q0 = (Ok v, q1) ∧
      read_locator_value Ok {| leaf_page_id := 77; slot_index := 0; serialized_key_crc32 := 0 |} [] q1
        = (Err (invalid_data "page id is outside cache"), q2) ∧
      fst (read_locator_value Ok l (key_to_vec k) q2) = Err (invalid_data "locator slot index is outside leaf page").
Proof.
  apply (failed_locator_poisons_cache Ok example_committed example_map example_query example_val
    {| leaf_page_id := 77; slot_index := 0; serialized_key_crc32 := 0 |} [] example_readable example_decodes).
  vm_compute. discriminate.
Defined.
