(* ===== verification/BtreeVerify.v ===== *)
(** The full verification of a database (backend/btree/src/v3/tree.rs,
    [verify_full]): a walk over all pages of the tree with an explicit stack,
    the leaf links, the overflow chains, the free list and the owner of every
    page.  It accepts every file that holds a map, with exact counts. *)

From stdpp Require Import gmap functions.
From S2P Require Import Prelude BtreeFormat BtreeCell BtreePage BtreeSplit BtreeTransaction BtreeUpdate.
From S2P Require Import BtreeQuery BtreeNode BtreeOverlay BtreeMutation BtreeTree BtreeClimb BtreeChain.
From S2P Require Import BtreePlace BtreeStore BtreeExtend BtreeLinks BtreeWal BtreeRecovery BtreeCrash BtreeDurable.
From S2P Require Import BtreeSpec BtreeRead BtreeLookup BtreeCursor BtreeReaders.

Section Verify.
Context {CK : Checksum} {KC : KeyCodec} {LZ : Lz4}.

(** ** The verifier *)

Record VerificationReport := { live_entries : Z; tree_pages : Z; overflow_pages : Z; free_pages_count : Z }.

Record VerifyLeaf := { vl_page_id : Z; vl_left : Z; vl_right : Z; vl_minimum : option key; vl_maximum : option key }.

Inductive Visit := Enter (page_id : Z) (lower upper : option key) | Exit (page_id : Z).

Inductive VerifyValue :=
| VerifyInline
| VerifyOverflow (comp : Compression) (logical_len stored_len head crc : Z)
| VerifyTombstone.

(** The locals of the walk. *)
Record VerifyState := {
  vs_tree : gset Z;
  vs_active : gset Z;
  vs_overflow : gset Z;
  vs_leaves : list VerifyLeaf;
  vs_minimum : gmap Z (option key);
  vs_children : gmap Z (list (Z * option key));
  vs_live : Z;
}.

(** The separators of the children after the first are their minima. *)
Fixpoint check_minima (page_minimum : gmap Z (option key)) (children : list (Z * option key)) : io_result unit :=
  match children with
  | [] => Ok tt
  | (child, separator) :: children =>
      actual ← ok_or (page_minimum !! child ≫= id) (invalid_data "internal child has no minimum key");
      if negb (match separator with Some s => bool_decide (key_cmp s actual = Eq) | None => false end)
      then Err (invalid_data "internal separator is not the right child minimum")
      else check_minima page_minimum children
  end.

Definition finish_verified_page (page_id : Z) (v : VerifyState) : io_result VerifyState :=
  if negb (bool_decide (page_id ∈ vs_active v)) then Err (invalid_data "tree verifier active set is inconsistent") else
  let active := vs_active v ∖ {[page_id]} in
  match vs_children v !! page_id with
  | None =>
      Ok {| vs_tree := vs_tree v; vs_active := active; vs_overflow := vs_overflow v; vs_leaves := vs_leaves v;
            vs_minimum := vs_minimum v; vs_children := vs_children v; vs_live := vs_live v |}
  | Some children =>
      _ ← check_minima (vs_minimum v) (tail children);
      minimum ← ok_or (head children ≫= λ c, vs_minimum v !! c.1)
                      (invalid_data "internal leftmost child has no verified minimum");
      Ok {| vs_tree := vs_tree v; vs_active := active; vs_overflow := vs_overflow v; vs_leaves := vs_leaves v;
            vs_minimum := <[page_id := minimum]> (vs_minimum v); vs_children := delete page_id (vs_children v);
            vs_live := vs_live v |}
  end.

Definition verify_value (v : LeafValueRef) : VerifyValue :=
  match v with
  | Inline _ _ _ _ => VerifyInline
  | OverflowRef comp logical_len stored_len head crc => VerifyOverflow comp logical_len stored_len head crc
  | Tombstone => VerifyTombstone
  end.

(** The loop over the cells of a leaf: [n] remain, from [index]. *)
Fixpoint verify_cells (n : nat) (page_id : Z) (lower upper : option key) (index : Z) (minimum maximum : option key)
    (live : Z) (overflow : gset Z) : reader (option key * option key * Z * gset Z) :=
  match n with
  | O => mret (minimum, maximum, live, overflow)
  | S n =>
      q ← get_state;
      kv ← with_opened_page page_id (λ page,
        raw ← cell page index;
        c ← leaf_cell_ref_decode raw page_id (q_next q);
        k ← deserialize_key (leaf_key_bytes c);
        Ok (k, verify_value (leaf_value c)));
      let k := kv.1 in
      if match maximum with Some previous => key_leb k previous | None => false end
      then of_result (Err (invalid_data "leaf keys are not strictly ordered")) else
      if match lower with Some bound => negb (key_leb bound k) | None => false end
         || match upper with Some bound => key_leb bound k | None => false end
      then of_result (Err (invalid_data "leaf key is outside parent separator range")) else
      let minimum := match minimum with Some m => Some m | None => Some k end in
      match kv.2 with
      | VerifyTombstone => verify_cells n page_id lower upper (index + 1) minimum (Some k) live overflow
      | VerifyInline =>
          live ← of_result (ok_or (checked_add live 1) (invalid_data "live entry count overflow"));
          verify_cells n page_id lower upper (index + 1) minimum (Some k) live overflow
      | VerifyOverflow comp logical_len stored_len head crc =>
          r ← assemble_overflow_chain comp logical_len stored_len head crc (Some overflow);
          live ← of_result (ok_or (checked_add live 1) (invalid_data "live entry count overflow"));
          verify_cells n page_id lower upper (index + 1) minimum (Some k) live (default overflow r.2)
      end
  end.

(** The leaf, its live entries and the overflow pages owned so far. *)
Definition verify_leaf_page (page_id : Z) (lower upper : option key) (overflow : gset Z)
    : reader (VerifyLeaf * Z * gset Z) :=
  h ← with_opened_page page_id (λ page,
    Ok (left (sp_header page), right (sp_header page), cell_count (sp_header page)));
  r ← verify_cells (Z.to_nat h.2) page_id lower upper 0 None None 0 overflow;
  mret ({| vl_page_id := page_id; vl_left := h.1.1; vl_right := h.1.2;
           vl_minimum := r.1.1.1; vl_maximum := r.1.1.2 |}, r.1.2, r.2).

Fixpoint verify_separators (page_id next_page_id : Z) (cs : list (io_result (list byte))) (previous : option key)
    : io_result (list (Z * option key)) :=
  match cs with
  | [] => Ok []
  | raw :: cs =>
      raw ← raw;
      c ← internal_cell_ref_decode raw page_id next_page_id;
      k ← deserialize_key (internal_key_bytes c);
      if match previous with Some prior => key_leb k prior | None => false end
      then Err (invalid_data "internal separators are not strictly ordered") else
      rest ← verify_separators page_id next_page_id cs (Some k);
      Ok ((internal_right_child c, Some k) :: rest)
  end.

Definition verify_internal_page (page_id : Z) : reader (list (Z * option key)) :=
  q ← get_state;
  with_opened_page page_id (λ page,
    preamble ← internal_preamble_decode (sp_bytes page) page_id (q_next q);
    rest ← verify_separators page_id (q_next q) (cells page) None;
    Ok ((leftmost_child preamble, None) :: rest)).

(** [push_child_visits] pushes the children from the last to the first; the
    list has the top of the stack first. *)
Fixpoint child_visits (first : bool) (lower upper : option key) (children : list (Z * option key)) : list Visit :=
  match children with
  | [] => []
  | (child, k) :: rest =>
      Enter child (if first then lower else k)
        (match rest with (_, Some next) :: _ => Some next | _ => upper end)
      :: child_visits false lower upper rest
  end.

(** The state when a page is entered, a leaf is verified or the children of an
    internal page are known. *)
Definition enter_page (v : VerifyState) (page_id : Z) : VerifyState :=
  {| vs_tree := {[page_id]} ∪ vs_tree v; vs_active := {[page_id]} ∪ vs_active v; vs_overflow := vs_overflow v;
     vs_leaves := vs_leaves v; vs_minimum := vs_minimum v; vs_children := vs_children v; vs_live := vs_live v |}.

Definition add_leaf (v : VerifyState) (page_id : Z) (leaf : VerifyLeaf) (live : Z) (overflow : gset Z) : VerifyState :=
  {| vs_tree := vs_tree v; vs_active := vs_active v; vs_overflow := overflow; vs_leaves := vs_leaves v ++ [leaf];
     vs_minimum := <[page_id := vl_minimum leaf]> (vs_minimum v); vs_children := vs_children v; vs_live := live |}.

Definition add_children (v : VerifyState) (page_id : Z) (children : list (Z * option key)) : VerifyState :=
  {| vs_tree := vs_tree v; vs_active := vs_active v; vs_overflow := vs_overflow v; vs_leaves := vs_leaves v;
     vs_minimum := vs_minimum v; vs_children := <[page_id := children]> (vs_children v); vs_live := vs_live v |}.

(** The loop over the stack.  A page is entered at most once and exited once,
    so twice the number of pages is enough fuel. *)
Fixpoint verify_loop (fuel : nat) (stack : list Visit) (v : VerifyState) : reader VerifyState :=
  match fuel, stack with
  | _, [] => mret v
  | O, _ => of_result (Err (invalid_data "tree child graph contains a cycle"))
  | S fuel, Exit page_id :: stack =>
      v ← of_result (finish_verified_page page_id v);
      verify_loop fuel stack v
  | S fuel, Enter page_id lower upper :: stack =>
      if bool_decide (page_id ∈ vs_active v)
      then of_result (Err (invalid_data "tree child graph contains a cycle")) else
      if bool_decide (page_id ∈ vs_tree v)
      then of_result (Err (invalid_data "tree page has multiple parents")) else
      let v := enter_page v page_id in
      let stack := Exit page_id :: stack in
      type ← with_opened_page page_id (λ page, Ok (page_type (sp_header page)));
      match type with
      | Leaf =>
          r ← verify_leaf_page page_id lower upper (vs_overflow v);
          live ← of_result (ok_or (checked_add (vs_live v) r.1.2) (invalid_data "live entry count overflow"));
          verify_loop fuel stack (add_leaf v page_id r.1.1 live r.2)
      | Internal =>
          children ← verify_internal_page page_id;
          verify_loop fuel (child_visits true lower upper children ++ stack) (add_children v page_id children)
      | Overflow | Free => of_result (Err (invalid_data "tree child has the wrong page type"))
      end
  end.

(** The loop of [verify_leaf_links]: [previous] is the leaf before. *)
Fixpoint verify_leaf_links (previous : option VerifyLeaf) (leaves : list VerifyLeaf) : io_result unit :=
  match leaves with
  | [] => Ok tt
  | leaf :: rest =>
      let expected_left := match previous with Some p => vl_page_id p | None => 0 end in
      let expected_right := match rest with next :: _ => vl_page_id next | [] => 0 end in
      if negb (vl_left leaf =? expected_left) || negb (vl_right leaf =? expected_right)
      then Err (invalid_data "leaf sibling links do not match tree order") else
      if match previous ≫= vl_maximum, vl_minimum leaf with
         | Some previous, Some current => key_leb current previous
         | _, _ => false
         end
      then Err (invalid_data "keys are inverted across leaf siblings") else
      verify_leaf_links (Some leaf) rest
  end.

Fixpoint verify_free_loop (fuel : nat) (tree overflow : gset Z) (free : Z) (free_pages : gset Z) : reader (gset Z) :=
  match fuel with
  | O => of_result (Err (invalid_data "free list contains a duplicate or cycle"))
  | S fuel =>
      if free =? 0 then mret free_pages else
      free_pages ← of_result (record_page_visit free_pages free "free list contains a duplicate or cycle");
      if bool_decide (free ∈ tree) || bool_decide (free ∈ overflow)
      then of_result (Err (invalid_data "page is reachable from both live data and free list")) else
      next ← with_opened_page free (λ page,
        if negb (bool_decide (page_type (sp_header page) = Free))
        then Err (invalid_data "free list references a non-free page") else Ok (right (sp_header page)));
      verify_free_loop fuel tree overflow next free_pages
  end.

Definition verify_free_pages (tree overflow : gset Z) : reader (gset Z) := λ q,
  verify_free_loop (page_fuel q) tree overflow (free_page_head (q_header q)) ∅ q.

Definition memberships (tree overflow free : gset Z) (page_id : Z) : Z :=
  (if bool_decide (page_id ∈ tree) then 1 else 0) + (if bool_decide (page_id ∈ overflow) then 1 else 0)
  + (if bool_decide (page_id ∈ free) then 1 else 0).

Definition verify_page_ownership (next_page_id : Z) (tree overflow free : gset Z) : io_result unit :=
  if forallb (λ page_id, memberships tree overflow free page_id =? 1) (seqZ 1 (next_page_id - 1))
  then Ok tt else Err (invalid_data "database contains an orphan or multiply-owned page").

Definition verify_start : VerifyState :=
  {| vs_tree := ∅; vs_active := ∅; vs_overflow := ∅; vs_leaves := []; vs_minimum := ∅; vs_children := ∅; vs_live := 0 |}.

Definition verify_full : reader VerificationReport :=
  q ← get_state;
  v ← verify_loop (S (2 * Z.to_nat (q_next q))) [Enter (root_page_id (q_header q)) None None] verify_start;
  _ ← of_result (verify_leaf_links None (vs_leaves v));
  free ← verify_free_pages (vs_tree v) (vs_overflow v);
  _ ← of_result (verify_page_ownership (q_next q) (vs_tree v) (vs_overflow v) free);
  tree_count ← of_result (ok_or (try_fit 64 (Z.of_nat (size (vs_tree v)))) (invalid_data "tree page count exceeds u64"));
  overflow_count ← of_result (ok_or (try_fit 64 (Z.of_nat (size (vs_overflow v)))) (invalid_data "overflow page count exceeds u64"));
  free_count ← of_result (ok_or (try_fit 64 (Z.of_nat (size free))) (invalid_data "free page count exceeds u64"));
  mret {| live_entries := vs_live v; tree_pages := tree_count; overflow_pages := overflow_count;
          free_pages_count := free_count |}.
End Verify.

Section Accepts.
Context {CK : Checksum} {KC : KeyCodec} {LZ : Lz4}.
Abbreviation entry := (key * LeafCellRef)%type.
Abbreviation leaf := (Z * list entry)%type.
Abbreviation values := (key → option (list byte)).
Context (base : list byte) (t : WriteTransaction) (oh : DatabaseHeader) (B : begun base t oh).
Context (T : btree) (h : nat) (F : list Z) (ws : list item) (g : values).
Context (Sk : skeleton t base T h F (owned_pages ws)) (It : holds_items (view t base) (entries T) ws).
Context (Re : represents (stored_as g) (entries T) ws).
Context (Ratio : lz4_ratio) (Room : tx_next t < 2 ^ 44).

#[local] Abbreviation yields := (yields base t oh).
#[local] Abbreviation sound := (sound base t oh).
#[local] Abbreviation at_leaf := (at_leaf base t).
#[local] Abbreviation at_leaf_ok := (at_leaf_ok base t T h F ws Sk).
#[local] Abbreviation sound_next := (sound_next base t oh B).
#[local] Abbreviation live := (live g).
#[local] Abbreviation live_of := (filter (λ k, live k = true)).

(** ** Leaves *)

(** An entry of the tree with the pages of its value. *)
Definition stored_entry (e : entry) (w : item) : Prop :=
  held (view t base) (leaf_value e.2) w.1 (stored_as g e.1) ∧ NoDup w.1 ∧ (length w.1 < walk_fuel t)%nat.

Lemma stored_entries : Forall2 stored_entry (entries T) ws.
Proof.
  apply Forall2_same_length_lookup. split; [by eapply Forall2_length|]. intros j [k e] w Hj Hw.
  destruct (entry_item base t T h F ws g Sk It Re _ _ _ Hj) as (w' & Hw' & H1 & H2 & H3).
  assert (w' = w) as -> by (assert (Some w' = Some w) as [= ->] by (rewrite <- Hw, <- Hw'; reflexivity); done). by split_and!.
Qed.

(** What the verifier makes of the value of an entry. *)
Definition value_verified (k : key) (w : item) (owned : gset Z) (v : VerifyValue) : Prop :=
  match v with
  | VerifyTombstone => live k = false ∧ w.1 = []
  | VerifyInline => live k = true ∧ w.1 = []
  | VerifyOverflow comp ll sl head crc => live k = true ∧
      ∃ raw, yields (assemble_overflow_chain comp ll sl head crc (Some owned)) (Ok (raw, Some (list_to_set w.1 ∪ owned)))
  end.

Lemma value_verifies k e w owned :
  stored_entry (k, e) w → (∀ x, x ∈ w.1 → x ∉ owned) → value_verified k w owned (verify_value (leaf_value e)).
Proof.
  intros (Hh & Hnd & Hf) Hown. cbn [fst snd] in Hh. pose proof (file_has_pages base t T h F ws Sk Room) as Hn. unfold stored_as in Hh.
  assert (live k = bool_decide (is_Some (g k))) as El by done.
  destruct (g k) as [raw|] eqn:Eg; cbn [fmap option_fmap option_map] in Hh.
  - rewrite bool_decide_true in El by eauto. destruct (describe raw) as [[comp ll] stored] eqn:Ed.
    destruct (restored base t T h F ws g Sk It Re Ratio Room k raw comp ll stored Eg Ed) as [Hres Hll].
    inversion Hh as [|? ? ? crc Hv E1 E2 E3|? ? head ps bs Hv Hne Hc E1 E2 E3]; subst; cbn [verify_value value_verified]; [done|].
    split; [done|]. exists raw. pose proof (assemble_ok base t oh B comp ll head w.1 bs (Some owned) Hc Hnd Hf Hv Hn Hll) as Ha.
    rewrite Hres, bind_ok in Ha. apply Ha. intros i s Hi [= <-]. by apply Hown.
  - rewrite bool_decide_false in El by (by intros [? ?]). by inversion Hh.
Qed.

Definition opt_or {A} (a b : option A) : option A := match a with Some x => Some x | None => b end.

Lemma verify_cells_ok LP lf es LS p lo hi n : ∀ i w min max count owned,
  leaves T = LP ++ (lf, es) :: LS → at_leaf lf es LP LS p → Forall2 stored_entry (drop i es) w → (i + n = length es)%nat →
  NoDup (owned_pages w) → (∀ x, x ∈ owned_pages w → x ∉ owned) →
  (∀ m x, max = Some m → x ∈ drop i (map fst es) → key_lt m x) → Forall (λ x, above lo x ∧ under hi x) (drop i (map fst es)) →
  0 ≤ count → count + Z.of_nat n < 2 ^ 64 →
  yields (verify_cells n lf lo hi (Z.of_nat i) min max count owned)
    (Ok (opt_or min (head (drop i (map fst es))), opt_or (last (drop i (map fst es))) max,
         count + len (live_of (drop i (map fst es))), list_to_set (owned_pages w) ∪ owned)).
Proof.
  induction n as [|n IH]; intros i w min max count owned HL A Hw Hi Hnd Hown Hmax Hb H0 Hc; cbn [verify_cells].
  { rewrite drop_ge in Hw by lia. inversion Hw; subst. rewrite drop_ge by (rewrite length_map; lia). eapply yields_eq; [apply yields_ret|].
    change (len (live_of [])) with 0. rewrite Z.add_0_r. change (list_to_set (owned_pages [])) with (∅ : gset Z). rewrite union_empty_l_L.
    by destruct min. }
  destruct (lookup_lt_is_Some_2 es i ltac:(lia)) as [[k e] He].
  destruct (al_cell _ _ _ _ _ _ _ A _ _ _ He) as (raw & range & _ & _ & Ec & D & Hk).
  rewrite (drop_S _ _ _ He) in Hw. inversion Hw as [|? w0 ? wr Hs Hwr]; subst. rewrite owned_cons in *.
  assert (drop i (map fst es) = k :: drop (S i) (map fst es)) as Hd by (apply drop_S; by rewrite list_lookup_fmap, He).
  rewrite Hd in *. apply Forall_cons in Hb as [[Hlo Hhi] Hb]. apply NoDup_app in Hnd as (Hnd0 & Hdis & Hnd).
  apply yields_get. intros q Sq. eapply (yields_step _ _ _ _ _ (k, verify_value (leaf_value e))).
  { apply (opened_read _ _ _ B _ p); [apply A|]. rewrite Ec, bind_ok, (sound_next q Sq), D, bind_ok, Hk, deserialize_encoded, bind_ok. done. }
  cbn [fst snd]. cbv zeta.
  assert ((match max with Some previous => key_leb k previous | None => false end) = false) as ->.
  { destruct max as [m|]; [|done]. apply key_leb_lt. apply Hmax; [done|by left]. }
  assert ((match lo with Some bound => negb (key_leb bound k) | None => false end
     || match hi with Some bound => key_leb bound k | None => false end) = false) as ->.
  { apply orb_false_iff. split; [destruct lo; [|done]; apply negb_false_iff; by apply key_leb_le|destruct hi; [|done]; by apply key_leb_lt]. }
  assert (∀ m x, Some k = Some m → x ∈ drop (S i) (map fst es) → key_lt m x) as Hmax'.
  { intros m x [= <-] Hx. pose proof (al_keys _ _ _ _ _ _ _ A) as Hsort. apply list_elem_of_lookup in Hx as [j Hj]. rewrite lookup_drop in Hj.
    apply (Hsort i (S i + j)%nat); [lia|by rewrite list_lookup_fmap, He|done]. }
  assert (opt_or (last (k :: drop (S i) (map fst es))) max = opt_or (last (drop (S i) (map fst es))) (Some k)) as ->.
  { rewrite last_cons. by destruct (last (drop (S i) (map fst es))). }
  assert (opt_or min (head (k :: drop (S i) (map fst es))) = opt_or (match min with Some m => Some m | None => Some k end) (head (drop (S i) (map fst es)))) as ->
    by (by destruct min).
  pose proof (value_verifies k e w0 owned Hs ltac:(intros x Hx; apply Hown, elem_of_app; by left)) as Hv.
  replace (Z.of_nat i + 1) with (Z.of_nat (S i)) by lia. rewrite filter_cons.
  destruct (verify_value (leaf_value e)) as [|comp ll sl head crc|]; cbn [value_verified] in Hv.
  - destruct Hv as [Hlive Hnil]. rewrite checked_add_small by lia. cbn [ok_or]. eapply yields_step; [apply yields_result|].
    rewrite decide_True by done. rewrite len_cons, Hnil in *. rewrite Z.add_assoc. cbn [app] in *. apply IH; done || lia.
  - destruct Hv as (Hlive & raw' & Ha). eapply yields_step; [exact Ha|]. rewrite checked_add_small by lia. cbn [ok_or snd default from_option id].
    eapply yields_step; [apply yields_result|]. rewrite decide_True by done. rewrite len_cons, Z.add_assoc.
    assert (list_to_set (w0.1 ++ owned_pages wr) ∪ owned = list_to_set (owned_pages wr) ∪ (list_to_set w0.1 ∪ owned) :> gset Z) as -> by set_solver.
    apply IH; try (done || lia). intros x Hx. rewrite not_elem_of_union, elem_of_list_to_set.
    split; [intros Hx0; by apply (Hdis x)|apply Hown, elem_of_app; by right].
  - destruct Hv as [Hlive Hnil]. rewrite decide_False by (by rewrite Hlive). rewrite Hnil in *. cbn [app] in *. apply IH; done || lia.
Qed.

(** What the verifier keeps of the leaves [L] between [LP] and [LS]. *)
Definition leaf_record (LP LS : list leaf) (l : leaf) : VerifyLeaf :=
  {| vl_page_id := l.1; vl_left := last_leaf 0 LP; vl_right := first_leaf LS 0;
     vl_minimum := head (map fst l.2); vl_maximum := last (map fst l.2) |}.

Fixpoint records (LP L LS : list leaf) : list VerifyLeaf :=
  match L with
  | [] => []
  | l :: L => leaf_record LP (L ++ LS) l :: records (LP ++ [l]) L LS
  end.

Lemma records_app L1 : ∀ LP L2 LS, records LP (L1 ++ L2) LS = records LP L1 (L2 ++ LS) ++ records (LP ++ L1) L2 LS.
Proof.
  induction L1 as [|l L1 IH]; intros LP L2 LS; cbn [app records]; [by rewrite app_nil_r|]. by rewrite IH, <- !app_assoc.
Qed.

Lemma verify_leaf_ok LP lf es LS lo hi w owned :
  leaves T = LP ++ (lf, es) :: LS → shaped 0 lo hi (BLeaf lf es) → Forall2 stored_entry es w → NoDup (owned_pages w) →
  (∀ x, x ∈ owned_pages w → x ∉ owned) →
  yields (verify_leaf_page lf lo hi owned)
    (Ok (leaf_record LP LS (lf, es), len (live_of (map fst es)), list_to_set (owned_pages w) ∪ owned)).
Proof.
  intros HL (_ & Hk & _) Hw Hnd Hown. destruct (at_leaf_ok _ _ _ _ HL) as [p A]. pose proof (al_size _ _ _ _ _ _ _ A) as Hsz.
  unfold verify_leaf_page. eapply yields_step; [by apply (opened_read _ _ _ B _ p _ (Ok _)); [apply A|]|]. cbn [fst snd].
  rewrite (al_count _ _ _ _ _ _ _ A). unfold len at 1. rewrite Nat2Z.id.
  eapply yields_step; [apply (verify_cells_ok LP lf es LS p lo hi (length es) 0 w None None 0 owned); try done; unfold len in *; try lia|].
  - apply Forall_map, (Forall_impl _ _ _ Hk). by intros e (_ & ? & ?).
  - eapply yields_eq; [apply yields_ret|]. unfold leaf_record. cbn [drop fst snd opt_or].
    rewrite (al_left _ _ _ _ _ _ _ A), (al_right _ _ _ _ _ _ _ A). rewrite drop_0. by destruct (last (map fst es)).
Qed.

(** ** Internal pages *)

Definition child_of (s : key * list byte) (K : btree) : Z * option key := (root_id K, Some s.1).

Lemma verify_separators_ok id next raws : ∀ ss Ks previous,
  Forall2 (λ raw c, internal_cell_ref_decode raw id next = Ok c) raws (zip_with node_cell ss Ks) →
  length ss = length Ks → Forall sep_ok ss → sorted_keys (map fst ss) →
  (∀ m x, previous = Some m → x ∈ map fst ss → key_lt m x) →
  verify_separators id next (map Ok raws) previous = Ok (zip_with child_of ss Ks).
Proof.
  induction raws as [|raw raws IH]; intros [|s ss] [|K Ks] previous Hd Hl Hok Hs Hp; try done; cbn [zip_with] in Hd; inversion Hd as [|? ? ? ? D Hd']; subst.
  cbn [map verify_separators zip_with]. apply Forall_cons in Hok as [[Hs2 _] Hok]. rewrite bind_ok, D, bind_ok. cbn [node_cell internal_key_bytes].
  rewrite Hs2, deserialize_encoded, bind_ok. destruct (sorted_tail _ _ Hs) as [Hst Hsf].
  assert ((match previous with Some prior => key_leb s.1 prior | None => false end) = false) as ->.
  { destruct previous as [m|]; [|done]. apply key_leb_lt, Hp; [done|by left]. }
  rewrite (IH ss Ks (Some s.1)); [by rewrite bind_ok|done|by injection Hl|done|done|]. intros m x [= <-] Hx. by apply Hsf.
Qed.

Lemma verify_internal_ok id h' lo hi kids seps :
  segments (shaped h') lo hi kids seps → view t base id (NInternal (leftmost_of kids) (node_cells kids seps)) →
  yields (verify_internal_page id) (Ok ((leftmost_of kids, None) :: zip_with child_of seps (tail kids))).
Proof.
  intros Hseg Vw. destruct (view_open _ _ _ _ Vw) as (bytes & p & _ & _ & (Ht & Hpre & raws & Hc & Hd) & Eo & _ & _ & Hpi & Hpn).
  unfold verify_internal_page. apply yields_get. intros q Sq. apply (opened_read _ _ _ B _ p); [done|].
  rewrite (sound_next q Sq), <- Hpn, <- Hpi, Hpre, bind_ok, Hc. cbn [leftmost_child].
  rewrite (verify_separators_ok _ _ raws seps (tail kids) None); [by rewrite bind_ok|done| |apply segments_bounds in Hseg; apply (Forall_impl _ _ _ Hseg); by intros x (? & _)|by eapply segments_sorted|done].
  pose proof (segments_length _ _ _ _ _ Hseg). destruct kids; cbn in *; lia.
Qed.

(** The minimum the verifier finds for a subtree. *)
Fixpoint tree_min (T : btree) : option key :=
  match T with
  | BLeaf _ es => head (map fst es)
  | BNode _ (T :: _) _ => tree_min T
  | BNode _ [] _ => None
  end.

Lemma tree_min_shaped h' : ∀ s hi K, shaped h' (Some s) hi K → tree_min K = Some s.
Proof.
  induction h' as [|h' IH]; intros s hi [id es|id kids seps]; try done.
  - intros (_ & _ & Hs). cbn in *. destruct es; [done|]. by injection Hs as <-.
  - intros [_ Hseg]. cbn [tree_min]. by inversion Hseg; subst; eapply IH.
Qed.

Lemma check_minima_ok (m : gmap Z (option key)) h' lo hi K Ts ss :
  segments (shaped h') lo hi (K :: Ts) ss → Forall (λ K, m !! root_id K = Some (tree_min K)) Ts →
  check_minima m (zip_with child_of ss Ts) = Ok tt.
Proof.
  intros Hseg. remember (K :: Ts) as Ks eqn:EKs. revert K Ts EKs.
  induction Hseg as [|lo hi K s sb Ks ss _ _ _ _ Hseg IH]; intros K' Ts [= <- <-] Hm; [done|]. destruct Ks as [|K2 Ts']; [by inversion Hseg|].
  apply Forall_cons in Hm as [Hm2 Hm]. cbn [zip_with child_of check_minima fst]. rewrite Hm2. cbn [mbind option_bind id].
  assert (tree_min K2 = Some s) as -> by (inversion Hseg; subst; by eapply tree_min_shaped). cbn [ok_or]. rewrite bind_ok.
  assert (key_cmp s s = Eq) as Hs by (by apply key_cmp_eq). rewrite bool_decide_true by done. cbn [negb]. by eapply IH.
Qed.

(** The visits of the children of a page. *)
Fixpoint kid_visits (lo hi : option key) (Ts : list btree) (ss : list (key * list byte)) : list Visit :=
  match Ts, ss with
  | [], _ => []
  | K :: Ts, [] => Enter (root_id K) lo hi :: kid_visits lo hi Ts []
  | K :: Ts, s :: ss => Enter (root_id K) lo (Some s.1) :: kid_visits (Some s.1) hi Ts ss
  end.

Lemma child_visits_ok (P : option key → option key → btree → Prop) lo0 lo hi Ks ss :
  segments P lo hi Ks ss → ∀ K Ts b k, Ks = K :: Ts → (if b : bool then lo0 else k) = lo →
  child_visits b lo0 hi ((root_id K, k) :: zip_with child_of ss Ts) = kid_visits lo hi Ks ss.
Proof.
  induction 1 as [lo hi K _|lo hi K s sb Ks ss _ _ _ _ Hseg IH]; intros K' Ts b k [= <- <-] Hb.
  - cbn. by rewrite Hb.
  - destruct Ks as [|K2 Ts']; [by inversion Hseg|]. cbn [zip_with child_of fst child_visits kid_visits]. rewrite Hb. f_equal.
    by apply (IH K2 Ts' false (Some s)).
Qed.

(** The walk over the subtrees [Ts] between the leaves [LP] and [LS]. *)
Record walked (v : VerifyState) (Ts : list btree) (w : list item) (LP LS : list leaf) (v' : VerifyState) : Prop := {
  wk_tree : vs_tree v' = list_to_set (concat (map ids Ts)) ∪ vs_tree v;
  wk_active : vs_active v' = vs_active v;
  wk_overflow : vs_overflow v' = list_to_set (owned_pages w) ∪ vs_overflow v;
  wk_leaves : vs_leaves v' = vs_leaves v ++ records LP (concat (map leaves Ts)) LS;
  wk_min : Forall (λ K, vs_minimum v' !! root_id K = Some (tree_min K)) Ts;
  wk_frame : ∀ i, i ∉ concat (map ids Ts) → vs_minimum v' !! i = vs_minimum v !! i;
  wk_children : vs_children v' = vs_children v;
  wk_live : vs_live v' = vs_live v + len (live_of (map fst (concat (map entries Ts))));
}.

(** The pages of the subtrees were not met before. *)
Record fresh (v : VerifyState) (Ts : list btree) (w : list item) : Prop := {
  fr_ids : NoDup (concat (map ids Ts));
  fr_new : ∀ i, i ∈ concat (map ids Ts) → i ∉ vs_tree v ∧ i ∉ vs_active v ∧ vs_children v !! i = None;
  fr_owned : NoDup (owned_pages w);
  fr_overflow : ∀ x, x ∈ owned_pages w → x ∉ vs_overflow v;
  fr_live : 0 ≤ vs_live v ∧ vs_live v + len (concat (map entries Ts)) < 2 ^ 64;
}.

Lemma roots_in_kids Ts K : K ∈ Ts → root_id K ∈ concat (map ids Ts).
Proof.
  intros HK. apply list_elem_of_In, in_concat. exists (ids K). split; [by apply in_map, list_elem_of_In|]. apply list_elem_of_In, root_in_ids.
Qed.

Lemma live_le ks : len (live_of ks) ≤ len ks.
Proof. pose proof (length_filter (λ k, live k = true) ks). unfold len. lia. Qed.

Lemma fresh_cons v K Ts w1 w2 LP LS v1 :
  fresh v (K :: Ts) (w1 ++ w2) → fresh v [K] w1 ∧ (walked v [K] w1 LP LS v1 → fresh v1 Ts w2).
Proof.
  intros [Hids Hnew Hown Hov [H0 Hlive]]. rewrite owned_app in *. cbn [map concat] in *. rewrite len_app in *.
  apply NoDup_app in Hids as (Hn1 & Hdis & Hn2), Hown as (Ho1 & Hodis & Ho2).
  pose proof (len_nonneg (concat (map entries Ts))). pose proof (len_nonneg (entries K)). split.
  - constructor; cbn [map concat]; rewrite ?app_nil_r; try done; [|intros x Hx; apply Hov, elem_of_app; by left|lia].
    intros i Hi. apply Hnew, elem_of_app. by left.
  - intros [Wt Wa Wo _ _ _ Wc Wl]. cbn [map concat] in *. rewrite app_nil_r in *. constructor; try done.
    + intros i Hi. rewrite Wt, Wa, Wc. destruct (Hnew i ltac:(apply elem_of_app; by right)) as (? & ? & ?). split_and!; try done.
      rewrite not_elem_of_union, elem_of_list_to_set. split; [|done]. intros Hi'. by apply (Hdis i).
    + intros x Hx. rewrite Wo, not_elem_of_union, elem_of_list_to_set. split; [intros Hx'; by apply (Hodis x)|apply Hov, elem_of_app; by right].
    + rewrite Wl. pose proof (live_le (map fst (entries K))). pose proof (len_nonneg (live_of (map fst (entries K)))).
      assert (len (map fst (entries K)) = len (entries K)) by (unfold len; by rewrite length_map). lia.
Qed.

Lemma walked_cons v K Ts w1 w2 LP LS v1 v2 :
  NoDup (concat (map ids (K :: Ts))) →
  walked v [K] w1 LP (concat (map leaves Ts) ++ LS) v1 → walked v1 Ts w2 (LP ++ leaves K) LS v2 → walked v (K :: Ts) (w1 ++ w2) LP LS v2.
Proof.
  intros Hnd [At Aa Ao Al Am Af Ac Av] [Bt Ba Bo Bl Bm Bf Bc Bv]. cbn [map concat] in *. rewrite app_nil_r in *. apply NoDup_app in Hnd as (_ & Hdis & _).
  constructor; cbn [map concat].
  - rewrite Bt, At. set_solver.
  - congruence.
  - rewrite Bo, Ao, owned_app. set_solver.
  - rewrite Bl, Al, records_app, app_assoc. done.
  - apply Forall_cons. split; [|done]. apply Forall_cons in Am as [Am _]. rewrite Bf; [done|]. apply Hdis, root_in_ids.
  - intros i Hi. rewrite elem_of_app in Hi. rewrite Bf, Af by tauto. done.
  - congruence.
  - rewrite Bv, Av, map_app, filter_app, len_app. lia.
Qed.

(** A page of a file, as the verifier first meets it. *)
Lemma enter_type id p type :
  tx_open t base id = Ok p → page_type (sp_header p) = type →
  yields (with_opened_page id (λ page, Ok (page_type (sp_header page)))) (Ok type).
Proof. intros Ho <-. by apply (opened_read _ _ _ B _ p). Qed.

Lemma enter_ok fuel id lo hi stack v p type r :
  id ∉ vs_active v → id ∉ vs_tree v → tx_open t base id = Ok p → page_type (sp_header p) = type →
  (let v := enter_page v id in
   let stack := Exit id :: stack in
   yields (match type with
           | Leaf =>
               r ← verify_leaf_page id lo hi (vs_overflow v);
               live ← of_result (ok_or (checked_add (vs_live v) r.1.2) (invalid_data "live entry count overflow"));
               verify_loop fuel stack (add_leaf v id r.1.1 live r.2)
           | Internal =>
               children ← verify_internal_page id;
               verify_loop fuel (child_visits true lo hi children ++ stack) (add_children v id children)
           | Overflow | Free => of_result (Err (invalid_data "tree child has the wrong page type"))
           end) r) →
  yields (verify_loop (S fuel) (Enter id lo hi :: stack) v) r.
Proof.
  intros H1 H2 Ho Ht H. cbn [verify_loop]. rewrite !bool_decide_false by done. cbv zeta in *. eapply yields_step; [by eapply enter_type|]. exact H.
Qed.

Lemma remove_active (id : Z) (s : gset Z) : id ∉ s → ({[id]} ∪ s) ∖ {[id]} = s.
Proof. set_solver. Qed.

(** The state after a leaf, and after an internal page. *)
Definition left_leaf (v : VerifyState) (lf : Z) (es : list entry) (w : list item) (LP LS : list leaf) : VerifyState :=
  {| vs_tree := {[lf]} ∪ vs_tree v; vs_active := vs_active v; vs_overflow := list_to_set (owned_pages w) ∪ vs_overflow v;
     vs_leaves := vs_leaves v ++ [leaf_record LP LS (lf, es)]; vs_minimum := <[lf := head (map fst es)]> (vs_minimum v);
     vs_children := vs_children v; vs_live := vs_live v + len (live_of (map fst es)) |}.

Definition left_node (v v2 : VerifyState) (id : Z) (minimum : option key) : VerifyState :=
  {| vs_tree := vs_tree v2; vs_active := vs_active v; vs_overflow := vs_overflow v2; vs_leaves := vs_leaves v2;
     vs_minimum := <[id := minimum]> (vs_minimum v2); vs_children := vs_children v; vs_live := vs_live v2 |}.

(** Visiting [visits] in the state [v] leads to the state [v'] in [n] steps. *)
Definition leads (n : nat) (visits : list Visit) (v v' : VerifyState) : Prop := ∀ fuel stack r,
  yields (verify_loop fuel stack v') r → yields (verify_loop (n + fuel) (visits ++ stack) v) r.

Lemma walk_leaf lf es lo hi w LP LS v :
  shaped 0 lo hi (BLeaf lf es) → leaves T = LP ++ (lf, es) :: LS → Forall2 stored_entry es w → fresh v [BLeaf lf es] w →
  ∃ v', walked v [BLeaf lf es] w LP LS v' ∧ leads 2 [Enter lf lo hi] v v'.
Proof.
  intros HS HL Hw [_ Hnew Hown Hov [H0 Hlive]]. destruct (at_leaf_ok _ _ _ _ HL) as [p A].
  destruct (Hnew lf) as (Hn1 & Hn2 & Hn3); [by left|]. cbn [map concat entries leaves snd] in Hlive. rewrite !app_nil_r in Hlive.
  pose proof (live_le (map fst es)) as Hle. pose proof (len_nonneg (live_of (map fst es))).
  assert (len (map fst es) = len es) as Hlm by (unfold len; by rewrite length_map).
  exists (left_leaf v lf es w LP LS). split.
  - constructor; cbn -[union list_to_set]; rewrite ?app_nil_r; try done; [set_solver| |].
    + apply Forall_cons. split; [|constructor]. cbn. by rewrite lookup_insert_eq.
    + intros i Hi. rewrite lookup_insert_ne; [done|]. intros ->. apply Hi. by left.
  - intros fuel stack r Hgo. cbn [app Nat.add]. eapply enter_ok; [done|done|apply A|apply A|]. cbv zeta. cbn [enter_page vs_overflow vs_live].
    eapply yields_step; [by eapply verify_leaf_ok|]. cbn [fst snd]. rewrite checked_add_small by lia. cbn [ok_or].
    eapply yields_step; [apply yields_result|]. cbn [verify_loop]. unfold finish_verified_page. cbn [add_leaf enter_page vs_active vs_children].
    rewrite bool_decide_true by set_solver. cbn [negb]. cbv zeta. rewrite Hn3, remove_active by done. eapply yields_step; [apply yields_result|]. exact Hgo.
Qed.

(** The walk over one subtree of height [h']. *)
Definition walks (h' : nat) : Prop := ∀ lo hi K w LP LS v,
  shaped h' lo hi K → Forall (holds (view t base)) (pages K) → leaves T = LP ++ leaves K ++ LS →
  Forall2 stored_entry (entries K) w → fresh v [K] w →
  ∃ v', walked v [K] w LP LS v' ∧ leads (2 * length (pages K)) [Enter (root_id K) lo hi] v v'.

Lemma leads_app n1 n2 a b v v1 v2 : leads n1 a v v1 → leads n2 b v1 v2 → leads (n1 + n2) (a ++ b) v v2.
Proof. intros H1 H2 fuel stack r H. rewrite <- Nat.add_assoc, <- app_assoc. by apply H1, H2. Qed.

Lemma walk_kids h' lo hi Ts ss : walks h' → segments (shaped h') lo hi Ts ss → ∀ w LP LS v,
  Forall (holds (view t base)) (concat (map pages Ts)) → leaves T = LP ++ concat (map leaves Ts) ++ LS →
  Forall2 stored_entry (concat (map entries Ts)) w → fresh v Ts w →
  ∃ v', walked v Ts w LP LS v' ∧ leads (2 * length (concat (map pages Ts))) (kid_visits lo hi Ts ss) v v'.
Proof.
  intros Hwalk Hseg. induction Hseg as [lo hi K HK|lo hi K s sb Ts ss _ _ _ HK Hseg IH]; intros w LP LS v Hst HL Hw Hfr;
    cbn [map concat kid_visits app fst] in *.
  - rewrite !app_nil_r in *. by apply Hwalk.
  - apply Forall_app in Hst as [Hst1 Hst2]. apply Forall2_app_inv_l in Hw as (w1 & w2 & Hw1 & Hw2 & ->).
    pose proof (fr_ids _ _ _ Hfr) as Hnd. rewrite <- !app_assoc in HL.
    destruct (Hwalk lo (Some s) K w1 LP (concat (map leaves Ts) ++ LS) v) as (v1 & W1 & L1); try done.
    { by destruct (fresh_cons v K Ts w1 w2 LP LS v Hfr). }
    destruct (IH w2 (LP ++ leaves K) LS v1) as (v2 & W2 & L2); try done; [by rewrite <- app_assoc| |].
    { by apply (fresh_cons v K Ts w1 w2 LP (concat (map leaves Ts) ++ LS) v1 Hfr). }
    exists v2. split; [by eapply walked_cons|]. rewrite length_app, Nat.mul_add_distr_l.
    exact (leads_app _ _ [_] _ _ _ _ L1 L2).
Qed.

(** Leaving an internal page whose children were walked. *)
Lemma finish_node h' lo hi id kids seps v v2 w LP LS :
  segments (shaped h') lo hi kids seps → id ∉ vs_active v → vs_children v !! id = None →
  walked (add_children (enter_page v id) id ((leftmost_of kids, None) :: zip_with child_of seps (tail kids))) kids w LP LS v2 →
  finish_verified_page id v2 = Ok (left_node v v2 id (tree_min (BNode id kids seps))).
Proof.
  intros Hseg Hn2 Hn3 [_ Wa _ _ Wm _ Wc _]. cbn [add_children enter_page vs_active vs_children] in *.
  unfold finish_verified_page. rewrite Wa, bool_decide_true by set_solver. cbn [negb]. cbv zeta. rewrite Wc, lookup_insert_eq.
  destruct kids as [|K Ts]; [by inversion Hseg|]. cbn [tail leftmost_of head]. apply Forall_cons in Wm as [Wm1 Wm].
  rewrite (check_minima_ok _ h' lo hi K Ts seps Hseg Wm), bind_ok. cbn [mbind option_bind fst]. rewrite Wm1. cbn [ok_or]. rewrite bind_ok.
  by rewrite remove_active, delete_insert_id by done.
Qed.

Lemma walk_node h' : walks h' → walks (S h').
Proof.
  intros Hwalk lo hi [id es|id kids seps] w LP LS v HS Hst HL Hw Hfr; [done|]. destruct HS as [_ Hseg].
  cbn [pages] in Hst. apply Forall_cons in Hst as [Vw Hst]. cbn in Vw. cbn [leaves] in HL. rewrite entries_node in Hw.
  destruct Hfr as [Hids Hnew Hown Hov [H0 Hlive]]. cbn [map concat] in *. rewrite app_nil_r, ids_node in *. rewrite entries_node in *.
  apply NoDup_cons in Hids as [Hid Hids]. destruct (Hnew id) as (Hn1 & Hn2 & Hn3); [by left|].
  destruct (view_open _ _ _ _ Vw) as (bytes & p & _ & _ & (Ht & _) & Eo & _).
  set (children := (leftmost_of kids, None) :: zip_with child_of seps (tail kids)).
  assert (child_visits true lo hi children = kid_visits lo hi kids seps) as Hcv.
  { unfold children. destruct kids as [|K Ts]; [by inversion Hseg|]. by eapply child_visits_ok. }
  destruct (walk_kids h' lo hi kids seps Hwalk Hseg w LP LS (add_children (enter_page v id) id children)) as (v2 & W & L); try done.
  { constructor; cbn [add_children enter_page vs_tree vs_active vs_children vs_overflow vs_live]; try done.
    intros i Hi. assert (i ≠ id) by (by intros ->). destruct (Hnew i ltac:(by right)) as (H1 & H2 & H3).
    rewrite !not_elem_of_union, not_elem_of_singleton, lookup_insert_ne by done. done. }
  pose proof (finish_node h' lo hi id kids seps v v2 w LP LS Hseg Hn2 Hn3 W) as Hfin.
  exists (left_node v v2 id (tree_min (BNode id kids seps))). split.
  - destruct W as [Wt Wa Wo Wl Wm Wf Wc Wv]. cbn [add_children enter_page vs_tree vs_active vs_children vs_overflow vs_live vs_leaves vs_minimum] in *.
    constructor; cbn [left_node vs_tree vs_active vs_children vs_overflow vs_live vs_leaves vs_minimum map concat]; rewrite ?app_nil_r, ?ids_node, ?entries_node; try done.
    + rewrite Wt. set_solver.
    + apply Forall_cons. split; [|constructor]. by rewrite lookup_insert_eq.
    + intros i Hi. rewrite lookup_insert_ne by (intros ->; apply Hi; by left). apply Wf. intros Hi'. apply Hi. by right.
  - intros fuel stack r Hgo. cbn [pages length root_id app].
    replace (2 * S (length (concat (map pages kids))) + fuel)%nat with (S (2 * length (concat (map pages kids)) + S fuel)) by lia.
    eapply enter_ok; [done|done|done|done|]. cbv zeta. eapply yields_step; [by eapply verify_internal_ok|]. fold children. rewrite Hcv.
    apply L. cbn [verify_loop]. rewrite Hfin. eapply yields_step; [apply yields_result|]. exact Hgo.
Qed.

Lemma walk_ok h' : walks h'.
Proof.
  induction h' as [|h' IH]; [|by apply walk_node]. intros lo hi [id es|id kids seps] w LP LS v HS Hst HL Hw Hfr; [|done].
  unfold entries in Hw. cbn [leaves map concat snd] in *. rewrite app_nil_r in Hw. by apply walk_leaf.
Qed.

(** ** Links, free pages and owners *)

Lemma sorted_across (a b : list key) x y : sorted_keys (a ++ b) → x ∈ a → y ∈ b → key_lt x y.
Proof.
  intros Hs Hx Hy. apply list_elem_of_lookup in Hx as [i Hi], Hy as [j Hj]. pose proof (lookup_lt_Some _ _ _ Hi).
  apply (Hs i (length a + j)%nat); [lia|by rewrite lookup_app_l|]. rewrite lookup_app_r by lia. by replace (length a + j - length a)%nat with j by lia.
Qed.

(** The leaf before, as the verifier keeps it. *)
Definition previous_of (LP : list leaf) (previous : option VerifyLeaf) : Prop :=
  match last LP with
  | None => previous = None
  | Some l => ∃ r, previous = Some r ∧ vl_page_id r = l.1 ∧ vl_maximum r = last (map fst l.2)
  end.

Lemma verify_links_ok L : ∀ LP previous,
  leaves T = LP ++ L → previous_of LP previous → verify_leaf_links previous (records LP L []) = Ok tt.
Proof.
  induction L as [|[lf es] L IH]; intros LP previous HL Hp; cbn [records verify_leaf_links]; [done|]. cbv zeta.
  assert (vl_left (leaf_record LP (L ++ []) (lf, es)) = match previous with Some p => vl_page_id p | None => 0 end) as ->.
  { unfold previous_of in Hp. cbn. unfold last_leaf. destruct (last LP) as [l|]; [destruct Hp as (r & -> & -> & _)|by subst previous]. by destruct l. }
  assert (vl_right (leaf_record LP (L ++ []) (lf, es)) = match records (LP ++ [(lf, es)]) L [] with next :: _ => vl_page_id next | [] => 0 end) as ->.
  { destruct L as [|[r res] L]; done. }
  rewrite !Z.eqb_refl. cbn [negb orb].
  assert ((match previous ≫= vl_maximum, vl_minimum (leaf_record LP (L ++ []) (lf, es)) with
           | Some previous, Some current => key_leb current previous | _, _ => false end) = false) as ->.
  { unfold previous_of in Hp. destruct LP as [|l LP _] using rev_ind; [cbn in Hp; by subst previous|]. rewrite last_snoc in Hp.
    destruct Hp as (r & -> & _ & Hm). cbn [mbind option_bind]. rewrite Hm. cbn [leaf_record vl_minimum snd].
    destruct (last (map fst l.2)) as [m|] eqn:Em; [|done]. destruct (head (map fst es)) as [c|] eqn:Ec; [|done]. apply key_leb_lt.
    pose proof (tree_sorted base t T h F ws Sk) as Hs. unfold entries in Hs. rewrite HL, map_app, concat_app, map_app in Hs.
    eapply sorted_across; [exact Hs| |].
    - rewrite map_app, concat_app, map_app, elem_of_app. right. cbn [map concat]. rewrite app_nil_r. by apply last_Some_elem_of.
    - cbn [map concat snd]. rewrite map_app, elem_of_app. left. by apply head_Some_elem_of. }
  apply IH; [by rewrite <- app_assoc|]. unfold previous_of. rewrite last_snoc. by eexists.
Qed.

Lemma verify_free_ok tree overflow head fs : free_chain (view t base) head fs → NoDup fs → ∀ fuel acc,
  (length fs < fuel)%nat → (∀ x, x ∈ fs → x ∉ tree ∧ x ∉ overflow ∧ x ∉ acc) →
  yields (verify_free_loop fuel tree overflow head acc) (Ok (list_to_set fs ∪ acc)).
Proof.
  induction 1 as [|id next fs Hv _ IH]; intros Hnd fuel acc Hf Hx; (destruct fuel as [|fuel]; [lia|]); cbn [verify_free_loop].
  { eapply yields_eq; [apply yields_ret|]. f_equal. set_solver. }
  apply NoDup_cons in Hnd as [Hni Hnd]. pose proof (view_range _ _ _ _ Hv). replace (id =? 0) with false by lia.
  destruct (Hx id ltac:(by left)) as (H1 & H2 & H3). rewrite record_new by done. eapply yields_step; [apply yields_result|].
  rewrite !bool_decide_false by done. cbn [orb]. destruct (view_open _ _ _ _ Hv) as (bytes & p & _ & _ & (Ht & Hr) & Eo & _).
  eapply (yields_step _ _ _ _ _ next); [apply (opened_read _ _ _ B _ p); [done|]; by rewrite bool_decide_true, Hr|].
  eapply yields_eq; [apply (IH Hnd fuel ({[id]} ∪ acc)); [cbn in Hf; lia|]|f_equal; set_solver].
  intros x Hxs. assert (x ≠ id) by (by intros ->). destruct (Hx x ltac:(by right)) as (? & ? & ?). set_solver.
Qed.

Lemma cnt_decide x (l : list Z) (s : gset Z) :
  (cnt x l ≤ 1)%nat → s = list_to_set l → (if bool_decide (x ∈ s) then 1 else 0) = Z.of_nat (cnt x l).
Proof.
  intros Hc ->. case_bool_decide as Hx; rewrite elem_of_list_to_set in Hx; [apply cnt_in in Hx; lia|apply cnt_not_in in Hx; lia].
Qed.

Lemma verify_ownership_ok tree overflow free :
  tree = list_to_set (ids T) → overflow = list_to_set (owned_pages ws) → free = list_to_set F →
  verify_page_ownership (tx_next t) tree overflow free = Ok tt.
Proof.
  intros E1 E2 E3. unfold verify_page_ownership. rewrite (proj2 (forallb_forall _ _)); [done|]. intros x Hx. apply list_elem_of_In, elem_of_seqZ in Hx.
  pose proof (skeleton_cnt _ _ _ _ _ _ x Sk) as Hc. rewrite cnt_seq, decide_True in Hc by lia. unfold memberships.
  rewrite (cnt_decide x (ids T) tree), (cnt_decide x (owned_pages ws) overflow), (cnt_decide x F free) by (done || lia). lia.
Qed.

Lemma sizes l : NoDup l → Z.of_nat (size (list_to_set l : gset Z)) = len l.
Proof. intros Hnd. unfold len. by rewrite size_list_to_set. Qed.

Lemma verify_yields : yields verify_full (Ok {| live_entries := len (live_keys T g); tree_pages := len (ids T);
  overflow_pages := len (owned_pages ws); free_pages_count := len F |}).
Proof.
  assert (∀ x, (cnt x (ids T) + cnt x (owned_pages ws) + cnt x F ≤ 1)%nat) as Hcnt by (intros x; by eapply skeleton_once).
  assert (NoDup (ids T)) as N1 by (apply cnt_nodup; intros x; specialize (Hcnt x); lia).
  assert (NoDup (owned_pages ws)) as N2 by (apply cnt_nodup; intros x; specialize (Hcnt x); lia).
  assert (NoDup F) as N3 by (apply cnt_nodup; intros x; specialize (Hcnt x); lia).
  pose proof (Permutation_length (sk_owned _ _ _ _ _ _ Sk)) as Hlen. rewrite !length_app, length_seqZ in Hlen.
  pose proof (file_has_pages base t T h F ws Sk Room) as Hn. pose proof (entries_bound base t T h F ws Sk Room) as Hb.
  unfold verify_full. apply yields_get. intros q Sq. rewrite (sound_next q Sq), (so_header _ _ _ _ Sq).
  assert (root_page_id oh = root_id T) as -> by (rewrite <- (sk_root _ _ _ _ _ _ Sk), (bg_next _ _ _ B); done).
  destruct (walk_ok h None None T ws [] [] verify_start) as (v & W & L); [apply Sk|apply Sk|by rewrite app_nil_r|apply stored_entries| |].
  { constructor; cbn [map concat verify_start vs_tree vs_active vs_children vs_overflow vs_live]; rewrite ?app_nil_r; try done.
    unfold len in *. lia. }
  destruct W as [Wt _ Wo Wl _ _ _ Wv]. cbn [map concat verify_start vs_tree vs_overflow vs_leaves vs_live] in *. rewrite !app_nil_r, ?union_empty_r_L in *.
  eapply yields_step.
  { assert (length (pages T) = length (ids T)) as Hl by (unfold ids; by rewrite length_map).
    replace (S (2 * Z.to_nat (tx_next t)))%nat with (2 * length (pages T) + S (2 * Z.to_nat (tx_next t) - 2 * length (pages T)))%nat by lia.
    apply (L _ []). apply yields_ret. }
  rewrite Wl. cbn [app]. rewrite (verify_links_ok (leaves T) [] None) by done. eapply yields_step; [apply yields_result|].
  rewrite Wt, Wo. eapply (yields_step _ _ _ _ _ (list_to_set F)).
  { intros q2 S2. unfold verify_free_pages, page_fuel. rewrite (sound_next q2 S2), (so_header _ _ _ _ S2).
    assert (free_page_head oh = free_page_head (next_header t)) as -> by (by rewrite (bg_next _ _ _ B)).
    assert (list_to_set F = list_to_set F ∪ (∅ : gset Z)) as -> by set_solver.
    eapply verify_free_ok; [apply (sk_pool _ _ _ _ _ _ Sk)|done|lia| |done].
    intros x Hx. rewrite !elem_of_list_to_set, !cnt_not_in. apply cnt_in in Hx. specialize (Hcnt x). split_and!; [lia|lia|set_solver]. }
  rewrite verify_ownership_ok by done. eapply yields_step; [apply yields_result|]. rewrite !sizes by done. unfold len in *.
  rewrite !try_fit_small by lia. cbn [ok_or]. do 3 (eapply yields_step; [apply yields_result|]).
  eapply yields_eq; [apply yields_ret|]. rewrite Wv. done.
Qed.
End Accepts.

(** ** Theorem *)

(** C11: full verification accepts every file that holds a map and counts it
    exactly: the live entries are the keys with a value, and the pages of the
    tree, of overflow chains and of the free list are all pages but the header.
    In particular a file that transactions wrote is never reported as damaged,
    for trees of any height, with deleted entries and values in chains. *)
Theorem verify_accepts `{CK : Checksum} `{KC : KeyCodec} `{LZ : Lz4} base g q :
  readable base g q → ∃ report ks q', verify_full q = (Ok report, q') ∧ listing g ks ∧ live_entries report = len ks ∧
    tree_pages report + overflow_pages report + free_pages_count report = q_next q - 1.
Proof.
  intros R. destruct (readable_sound _ _ _ R) as (t & oh & T & h & F & ws & B & Sk & It & Re & Room & S).
  destruct (verify_yields base t oh B T h F ws g Sk It Re (rb_ratio _ _ _ R) Room q S) as (q' & E & _).
  eexists _, (live_keys T g), q'. split_and!; [exact E|by apply (live_listing base t T h F ws g Sk Re)|done|].
  cbn. rewrite (sound_next _ _ _ B q S). pose proof (Permutation_length (sk_owned _ _ _ _ _ _ Sk)) as Hl. rewrite !length_app, length_seqZ in Hl.
  pose proof (pool_bound _ _ _ (sk_pool _ _ _ _ _ _ Sk)). unfold len. lia.
Qed.

#[local] Existing Instances byte_codec plain_lz4.

Lemma verify_accepts_witness :
  fst (verify_full example_query) = Ok {| live_entries := 2; tree_pages := 1; overflow_pages := 1; free_pages_count := 0 |} ∧
  ∃ report ks q', verify_full example_query = (Ok report, q') ∧ listing example_map ks ∧ live_entries report = len ks ∧
    tree_pages report + overflow_pages report + free_pages_count report = q_next example_query - 1.
Proof. split; [vm_compute; reflexivity|]. exact (verify_accepts example_committed example_map example_query example_readable). Defined.
