(* ===== verification/BtreeBuild.v ===== *)
(** Storing a map in a new database file (backend/btree/src/v3/tree.rs): the
    bulk builder, which streams leaves, overflow chains and the levels of
    internal pages into a file, the header written last, and the verification of
    the file before it is published.

    The entries of the [BTreeMap] are a list in the order of the keys. *)

From stdpp Require Import gmap.
From S2P Require Import Prelude BtreeFormat BtreeCell BtreePage BtreeSplit BtreeTransaction BtreeUpdate.
From S2P Require Import BtreeQuery BtreeRecovery BtreeVerify.

Section Build.
Context {CK : Checksum} {KC : KeyCodec} {LZ : Lz4}.

(** ** The page sink *)

Record NodeInfo := { node_page_id : Z; minimum_key : list byte }.

(** The temporary file and the next page id. *)
Record PageSink := { sink_file : list byte; sink_next : Z }.

Definition sink_new : PageSink := {| sink_file := []; sink_next := 0 |}.

Definition sink_allocate (s : PageSink) : io_result (Z * PageSink) :=
  next ← ok_or (checked_add (sink_next s) 1) (invalid_input "page count exceeds u64");
  Ok (sink_next s, {| sink_file := sink_file s; sink_next := next |}).

Definition allocate_many (s : PageSink) (count : Z) : io_result (Z * PageSink) :=
  count ← ok_or (try_fit 64 count) (invalid_input "page count exceeds u64");
  next ← ok_or (checked_add (sink_next s) count) (invalid_input "page count exceeds u64");
  Ok (sink_next s, {| sink_file := sink_file s; sink_next := next |}).

(** [write_all_at_offset] extends the file when it writes past its end. *)
Definition sink_write (s : PageSink) (page_id : Z) (page : list byte) : io_result PageSink :=
  offset ← ok_or (checked_mul page_id PAGE_SIZE) (invalid_input "page offset overflow");
  Ok {| sink_file := write_bytes (sink_file s) offset page; sink_next := sink_next s |}.

(** ** Overflow chains *)

(** The loop of [allocate_overflow_chain]; [index] counts the payloads. *)
Fixpoint write_payloads (s : PageSink) (head count index : Z) (payloads : list (list byte)) : io_result PageSink :=
  match payloads with
  | [] => Ok s
  | payload :: payloads =>
      index64 ← ok_or (try_fit 64 index) (invalid_input "overflow index exceeds u64");
      page_id ← ok_or (checked_add head index64) (invalid_input "overflow page id overflow");
      next ← (if index + 1 =? count then Ok 0
              else ok_or (checked_add page_id 1) (invalid_input "overflow page id overflow"));
      page ← encode_overflow_page page_id u64_max next payload;
      s ← sink_write s page_id page;
      write_payloads s head count (index + 1) payloads
  end.

Definition allocate_overflow_chain (s : PageSink) (stored : list byte) : io_result (Z * PageSink) :=
  let count := div_ceil (len stored) OVERFLOW_PAYLOAD_LEN in
  if count =? 0 then Err (invalid_input "overflow value must not be empty") else
  a ← allocate_many s count;
  s ← write_payloads a.2 a.1 count 0 (chunks OVERFLOW_PAYLOAD_LEN stored);
  Ok (a.1, s).

(** ** The leaves *)

Definition finish_leaf (s : PageSink) (page_id left right : Z) (cells : list (list byte)) : io_result PageSink :=
  page ← leaf_page page_id left right cells;
  sink_write s page_id page.

(** The locals of [build_leaf_level]. *)
Record LeafLevel := {
  ll_sink : PageSink;
  ll_leaf_id : Z;
  ll_left_leaf : Z;
  ll_cells : list (list byte);
  ll_leaves : list NodeInfo;
  ll_minimum : option (list byte);
}.

(** The cell of an entry, with the chain of a value that is not inline. *)
Definition build_cell (s : PageSink) (leaf_id : Z) (key_bytes raw_value : list byte) : io_result (list byte * PageSink) :=
  logical_len ← ok_or (try_fit 32 (len raw_value)) (invalid_input "serialized value exceeds u32");
  stored ← encode_value raw_value;
  let stored_bytes := as_slice stored in
  inline_footprint ← ok_or (size ← checked_add SLOT_LEN 24;
                            size ← checked_add size (len key_bytes);
                            checked_add size (len stored_bytes))
                           (invalid_input "leaf cell footprint overflow");
  if (len stored_bytes <=? MAX_INLINE_STORED_VALUE) && (inline_footprint <=? MAX_CELL_FOOTPRINT) then
    c ← encode_inline_leaf_cell key_bytes logical_len (stored_compression stored) stored_bytes;
    Ok (c, s)
  else
    a ← allocate_overflow_chain s stored_bytes;
    stored_len ← ok_or (try_fit 32 (len stored_bytes)) (invalid_input "stored value exceeds u32");
    c ← encode_overflow_leaf_cell key_bytes logical_len (stored_compression stored) stored_len a.1
          (stored_value_checksum stored_bytes) leaf_id u64_max;
    Ok (c, a.2).

(** A full leaf is finished and the next one started. *)
Definition next_leaf (l : LeafLevel) : io_result LeafLevel :=
  a ← sink_allocate (ll_sink l);
  s ← finish_leaf a.2 (ll_leaf_id l) (ll_left_leaf l) a.1 (ll_cells l);
  minimum ← ok_or (ll_minimum l) (invalid_input "non-empty leaf has no minimum key");
  Ok {| ll_sink := s; ll_leaf_id := a.1; ll_left_leaf := ll_leaf_id l; ll_cells := [];
        ll_leaves := ll_leaves l ++ [{| node_page_id := ll_leaf_id l; minimum_key := minimum |}]; ll_minimum := None |}.

Definition with_sink (l : LeafLevel) (s : PageSink) : LeafLevel :=
  {| ll_sink := s; ll_leaf_id := ll_leaf_id l; ll_left_leaf := ll_left_leaf l; ll_cells := ll_cells l;
     ll_leaves := ll_leaves l; ll_minimum := ll_minimum l |}.

Definition push_cell (l : LeafLevel) (key_bytes c : list byte) : LeafLevel :=
  {| ll_sink := ll_sink l; ll_leaf_id := ll_leaf_id l; ll_left_leaf := ll_left_leaf l; ll_cells := ll_cells l ++ [c];
     ll_leaves := ll_leaves l;
     ll_minimum := match ll_cells l with [] => Some key_bytes | _ => ll_minimum l end |}.

(** The body of the loop over the entries. *)
Definition add_entry (l : LeafLevel) (key_bytes raw_value : list byte) : io_result LeafLevel :=
  c ← build_cell (ll_sink l) (ll_leaf_id l) key_bytes raw_value;
  let l := with_sink l c.2 in
  next_usage ← checked_page_usage PAGE_HEADER_LEN (ll_cells l ++ [c.1]) MAX_CELL_FOOTPRINT;
  l ← (if PAGE_SIZE <? next_usage then next_leaf l else Ok l);
  Ok (push_cell l key_bytes c.1).

Context {V : Type} (binary_serialize : V → io_result (list byte)).

Fixpoint add_entries (l : LeafLevel) (entries : list (key * V)) : io_result LeafLevel :=
  match entries with
  | [] => Ok l
  | (k, v) :: entries =>
      raw_value ← binary_serialize v;
      l ← add_entry l (key_to_vec k) raw_value;
      add_entries l entries
  end.

Definition build_leaf_level (entries : list (key * V)) (s : PageSink) : io_result (list NodeInfo * PageSink) :=
  a ← sink_allocate s;
  l ← add_entries {| ll_sink := a.2; ll_leaf_id := a.1; ll_left_leaf := 0; ll_cells := []; ll_leaves := [];
                     ll_minimum := None |} entries;
  s ← finish_leaf (ll_sink l) (ll_leaf_id l) (ll_left_leaf l) 0 (ll_cells l);
  Ok (ll_leaves l ++ [{| node_page_id := ll_leaf_id l; minimum_key := default [] (ll_minimum l) |}], s).

(** ** The internal levels *)

(** How many of the following children fit in a page that has [used] bytes. *)
Fixpoint children_that_fit (used : Z) (level : list NodeInfo) : io_result nat :=
  match level with
  | [] => Ok O
  | child :: level =>
      cell_len ← ok_or (checked_add 12 (len (minimum_key child))) (invalid_input "internal cell length overflow");
      next ← ok_or (size ← checked_add used SLOT_LEN; checked_add size cell_len)
                   (invalid_input "internal page usage overflow");
      if PAGE_SIZE <? next then Ok O else
      n ← children_that_fit next level;
      Ok (S n)
  end.

(** The first loop of [group_internal_children]; a group has a child, so the
    number of children is enough fuel. *)
Fixpoint group_loop (fuel : nat) (start : nat) (level : list NodeInfo) : io_result (list (nat * nat)) :=
  match fuel with
  | O => Ok []
  | S fuel =>
      match drop start level with
      | [] => Ok []
      | _ :: following =>
          n ← children_that_fit (PAGE_HEADER_LEN + 8) following;
          let end_ := (start + 1 + n)%nat in
          rest ← group_loop fuel end_ level;
          Ok ((start, end_) :: rest)
      end
  end.

(** A last group of one child takes one from the group before. *)
Definition balance_last (groups : list (nat * nat)) : io_result (list (nat * nat)) :=
  match reverse groups with
  | (from, to) :: previous :: rest =>
      if (to - from =? 1)%nat then
        moved ← (if (previous.2 =? 0)%nat then Err (invalid_input "internal grouping underflow") else Ok (previous.2 - 1)%nat);
        if (moved <=? previous.1)%nat then Err (invalid_input "internal page cannot retain two children") else
        Ok (reverse ((moved, to) :: (previous.1, moved) :: rest))
      else Ok groups
  | _ => Ok groups
  end.

Definition group_internal_children (level : list NodeInfo) : io_result (list (nat * nat)) :=
  groups ← group_loop (length level) 0 level;
  balance_last groups.

Fixpoint encode_children (page_id : Z) (children : list NodeInfo) : io_result (list (list byte)) :=
  match children with
  | [] => Ok []
  | child :: children =>
      encoded ← encode_internal_cell (minimum_key child) (node_page_id child) page_id u64_max;
      rest ← encode_children page_id children;
      Ok (encoded :: rest)
  end.

(** The body of the loop of [build_parent_level]. *)
Definition build_parent (children : list NodeInfo) (s : PageSink) : io_result (NodeInfo * PageSink) :=
  match children with
  | first_child :: _ :: _ =>
      a ← sink_allocate s;
      cells ← encode_children a.1 (tail children);
      encoded ← internal_page a.1 (node_page_id first_child) cells;
      s ← sink_write a.2 a.1 encoded;
      Ok ({| node_page_id := a.1; minimum_key := minimum_key first_child |}, s)
  | _ => Err (invalid_input "internal page requires two children")
  end.

Fixpoint build_parents (level : list NodeInfo) (groups : list (nat * nat)) (s : PageSink)
    : io_result (list NodeInfo * PageSink) :=
  match groups with
  | [] => Ok ([], s)
  | (start, end_) :: groups =>
      children ← ok_or (get_range level (Z.of_nat start) (Z.of_nat end_)) (invalid_input "internal child range is invalid");
      p ← build_parent children s;
      rest ← build_parents level groups p.2;
      Ok (p.1 :: rest.1, rest.2)
  end.

Definition build_parent_level (level : list NodeInfo) (s : PageSink) : io_result (list NodeInfo * PageSink) :=
  groups ← group_internal_children level;
  build_parents level groups s.

(** The loop of [build_pages]: every level has at most half the nodes of the
    one below it, so the number of leaves is enough fuel. *)
Fixpoint build_levels (fuel : nat) (level : list NodeInfo) (s : PageSink) : io_result (list NodeInfo * PageSink) :=
  match fuel with
  | O => Ok (level, s)
  | S fuel =>
      if (1 <? length level)%nat then
        up ← build_parent_level level s;
        build_levels fuel up.1 up.2
      else Ok (level, s)
  end.

Definition build_pages (entries : list (key * V)) (s : PageSink) : io_result (Z * PageSink) :=
  a ← sink_allocate s;
  if negb (a.1 =? 0) then Err (invalid_input "database header must be the first allocated page") else
  leaves ← build_leaf_level entries a.2;
  up ← match entries with [] => Ok leaves | _ => build_levels (length leaves.1) leaves.1 leaves.2 end;
  root ← ok_or (head up.1) (invalid_input "tree has no root page");
  Ok (node_page_id root, up.2).

(** ** The file *)

(** The closure [prepared] of [store_exclusive_with_directory_sync]: the bytes
    of the temporary file, the root and the report of the verification.  The
    identity is a random UUID. *)
Definition prepare_store (database_uuid : list byte) (meta : BPlusTreeMetadata) (entries : list (key * V))
    : io_result (list byte * Z * VerificationReport) :=
  built ← build_pages entries sink_new;
  header ← database_header_encode {| root_page_id := built.1; next_page_id := sink_next built.2; free_page_head := 0;
             generation := 1; database_id := database_uuid; metadata := meta |};
  s ← sink_write built.2 0 header;
  q ← from_file_unlocked (sink_file s);
  report ← fst (verify_full q);
  Ok (sink_file s, built.1, report).

(** ** The tree in memory *)

(** [BPlusTree]: the entries of its [BTreeMap] in the order of the keys. *)
Record BPlusTree := { tree_entries : list (key * V); tree_metadata : BPlusTreeMetadata; dirty : bool }.

Definition tree_new : BPlusTree := {| tree_entries := []; tree_metadata := MetadataEmpty; dirty := true |}.

Definition set_metadata (t : BPlusTree) (m : BPlusTreeMetadata) : BPlusTree :=
  {| tree_entries := tree_entries t; tree_metadata := m; dirty := true |}.

(** [BTreeMap::insert]: a key that is present keeps its place. *)
Fixpoint map_insert (k : key) (v : V) (l : list (key * V)) : list (key * V) :=
  match l with
  | [] => [(k, v)]
  | (k', v') :: l =>
      match key_cmp k k' with
      | Lt => (k, v) :: (k', v') :: l
      | Eq => (k', v) :: l
      | Gt => (k', v') :: map_insert k v l
      end
  end.

Definition tree_insert (t : BPlusTree) (k : key) (v : V) : BPlusTree :=
  {| tree_entries := map_insert k v (tree_entries t); tree_metadata := tree_metadata t; dirty := true |}.

(** The loop of [load] over the iterator of a query. *)
Fixpoint load_entries (binary_deserialize : list byte → io_result V) (fuel : nat) (sq : CursorState * BPlusTreeQuery)
    (l : list (key * V)) : io_result (list (key * V)) :=
  match fuel with
  | O => Ok l
  | S fuel =>
      match cursor_next binary_deserialize sq with
      | (None, _) => Ok l
      | (Some (Err e), _) => Err e
      | (Some (Ok (k, v)), sq) => load_entries binary_deserialize fuel sq (map_insert k v l)
      end
  end.

(** A page has at most 1,024 cells, so a file has fewer entries than the fuel. *)
Definition load (binary_deserialize : list byte → io_result V) (q : BPlusTreeQuery) : io_result BPlusTree :=
  l ← load_entries binary_deserialize (Z.to_nat (1024 * q_next q)) (cursor_new Unbounded, q) [];
  Ok {| tree_entries := l; tree_metadata := metadata (q_header q); dirty := false |}.

Definition store_image (database_uuid : list byte) (t : BPlusTree) : io_result (list byte * Z * VerificationReport) :=
  prepare_store database_uuid (tree_metadata t) (tree_entries t).
End Build.
