(* ===== verification/BtreeStored.v ===== *)
(** What the bulk builder writes: the leaves it finishes, with the chains of
    their values, form the leaf level of a tree that holds the entries, and
    every level of internal pages has the level below it as children. *)

From stdpp Require Import gmap functions.
From S2P Require Import Prelude BtreeFormat BtreeCell BtreePage BtreeSplit BtreeTransaction BtreeUpdate.
From S2P Require Import BtreeQuery BtreeNode BtreeOverlay BtreeMutation BtreeTree BtreeClimb BtreeChain.
From S2P Require Import BtreePlace BtreeStore BtreeExtend BtreeLinks BtreeWal BtreeRecovery BtreeCrash BtreeDurable.
From S2P Require Import BtreeSpec BtreeRead BtreeLookup BtreeCursor BtreeReaders BtreeVerify BtreeBuild.

Section Stored.
Context {CK : Checksum} {KC : KeyCodec} {LZ : Lz4}.
Abbreviation entry := (key * LeafCellRef)%type.
Abbreviation leaf := (Z * list entry)%type.

(** ** Pages of a sink *)

(** The page [id] of the file of a sink holds [n]. *)
Definition stored (s : PageSink) (id : Z) (n : node) : Prop :=
  0 < id < sink_next s ∧ id * PAGE_SIZE + PAGE_SIZE ≤ len (sink_file s) ∧
  page_stores (slice (sink_file s) (id * PAGE_SIZE) (id * PAGE_SIZE + PAGE_SIZE)) id (sink_next s) n.

(** A sink whose file ends with the pages it handed out. *)
Record sink_ok (s : PageSink) : Prop := {
  si_next : 0 < sink_next s < 2 ^ 45;
  si_len : len (sink_file s) ≤ sink_next s * PAGE_SIZE;
}.

Lemma write_slice f off v lo hi :
  0 ≤ off → 0 ≤ lo → hi ≤ len f → (hi ≤ off ∨ off + len v ≤ lo) → slice (write_bytes f off v) lo hi = slice f lo hi.
Proof.
  intros Ho Hlo Hhi Hd. unfold write_bytes. pose proof (len_nonneg f). pose proof (len_nonneg v).
  assert (len (set_len f (Z.max (len f) (off + len v))) = Z.max (len f) (off + len v)) as Hl by (apply len_set_len; lia).
  assert (slice (set_len f (Z.max (len f) (off + len v))) lo hi = slice f lo hi) as <-.
  { apply slice_eq_lookup; [done|]. intros i Hi. destruct (lookup_lt_is_Some_2 f i) as [x Hx]; [unfold len in *; lia|]. rewrite Hx.
    apply set_len_lookup; [done|]. lia. }
  destruct Hd; [apply slice_put_l|apply slice_put_r]; lia.
Qed.

Lemma write_len f off v : 0 ≤ off → len (write_bytes f off v) = Z.max (len f) (off + len v).
Proof. intros. unfold write_bytes. pose proof (len_nonneg f). pose proof (len_nonneg v). rewrite len_put, len_set_len by lia. done. Qed.

Lemma write_same f off v : 0 ≤ off → slice (write_bytes f off v) off (off + len v) = v.
Proof.
  intros. unfold write_bytes. pose proof (len_nonneg f). pose proof (len_nonneg v).
  apply slice_put_same; [done|done|]. rewrite len_set_len by lia. lia.
Qed.

Lemma page_stores_len bytes id m n : page_stores bytes id m n → len bytes = PAGE_SIZE.
Proof. intros (p & O & _). destruct (page_open_valid _ _ _ _ O) as [Vp <-]. by apply page_valid_len. Qed.

(** Handing out more pages keeps what is stored. *)
Lemma stored_next s m id n :
  stored s id n → sink_next s ≤ m → stored {| sink_file := sink_file s; sink_next := m |} id n.
Proof.
  intros (Hid & Hl & St) Hm. split; [cbn; lia|split; [done|]]. cbn [sink_file sink_next].
  apply (page_stores_move _ _ _ _ _ St); [lia|lia|]. pose proof (page_stores_refs _ _ _ _ St) as Hr.
  apply (Forall_impl _ _ _ Hr). intros r [_ [->|[? _]]]; unfold below; lia.
Qed.

(** A write of one page, which is new. *)
Lemma sink_write_ok s id page n :
  sink_ok s → 0 < id < sink_next s → page_stores page id (sink_next s) n →
  ∃ s', sink_write s id page = Ok s' ∧ sink_ok s' ∧ sink_next s' = sink_next s ∧ stored s' id n ∧
    (∀ i x, i ≠ id → stored s i x → stored s' i x).
Proof.
  intros [Hn Hl] Hid St. pose proof (page_stores_len _ _ _ _ St) as Hp. change PAGE_SIZE with 4096 in *.
  unfold sink_write. change PAGE_SIZE with 4096. rewrite checked_mul_small by lia. cbn [ok_or]. rewrite bind_ok. eexists. split; [done|].
  assert (len (write_bytes (sink_file s) (id * 4096) page) = Z.max (len (sink_file s)) (id * 4096 + 4096)) as Hlw by (rewrite write_len by lia; lia).
  split_and!; [constructor; cbn [sink_next sink_file]; change PAGE_SIZE with 4096; lia|done| |].
  - split; [done|]. split; cbn [sink_next sink_file]; change PAGE_SIZE with 4096; [lia|]. pose proof (write_same (sink_file s) (id * 4096) page ltac:(lia)) as Hw. rewrite Hp in Hw. by rewrite Hw.
  - intros i x Hi (Hi1 & Hi2 & Sx). change PAGE_SIZE with 4096 in *. split; [done|]. split; cbn [sink_next sink_file]; change PAGE_SIZE with 4096; [lia|].
    rewrite write_slice by lia. done.
Qed.

Lemma allocate_ok s :
  sink_ok s → sink_next s + 1 < 2 ^ 45 → ∃ s', sink_allocate s = Ok (sink_next s, s') ∧ sink_ok s' ∧ sink_next s' = sink_next s + 1 ∧
    (∀ i x, stored s i x → stored s' i x).
Proof.
  intros [Hn Hl] Hb. unfold sink_allocate. rewrite checked_add_small by lia. cbn [ok_or]. rewrite bind_ok. eexists. split; [done|].
  change PAGE_SIZE with 4096 in *. split_and!; [constructor; cbn; change PAGE_SIZE with 4096; lia|done|]. intros i x Hx. apply stored_next; [done|lia].
Qed.

(** ** Overflow chains *)

Lemma write_payloads_ok head count payloads : ∀ s index,
  sink_ok s → 0 < head → 0 ≤ index → index + len payloads = count → head + count ≤ sink_next s →
  Forall (λ c, 0 < len c ≤ OVERFLOW_PAYLOAD_LEN) payloads →
  ∃ s', write_payloads s head count index payloads = Ok s' ∧ sink_ok s' ∧ sink_next s' = sink_next s ∧
    chain (stored s') (if len payloads =? 0 then 0 else head + index) (seqZ (head + index) (len payloads)) payloads ∧
    (∀ i x, i < head + index ∨ head + count ≤ i → stored s i x → stored s' i x).
Proof.
  induction payloads as [|payload payloads IH]; intros s index So Hh Hi Hc Hn Hp; cbn [write_payloads].
  { exists s. split_and!; [done|done|done|constructor|done]. }
  pose proof (si_next _ So) as Hb. apply Forall_cons in Hp as [Hp1 Hp]. rewrite len_cons in *. pose proof (len_nonneg payloads).
  rewrite try_fit_small by lia. cbn [ok_or]. rewrite bind_ok, checked_add_small by lia. cbn [ok_or]. rewrite bind_ok.
  set (next := if len payloads =? 0 then 0 else head + (index + 1)).
  assert ((if index + 1 =? count then Ok 0 else ok_or (checked_add (head + index) 1) (invalid_input "overflow page id overflow")) = Ok next) as ->.
  { unfold next. destruct (len payloads =? 0) eqn:E; [replace (index + 1 =? count) with true by lia; done|].
    replace (index + 1 =? count) with false by lia. rewrite checked_add_small by lia. cbn [ok_or]. f_equal. lia. }
  rewrite bind_ok. assert (next = 0 ∨ next < u64_max ∧ next ≠ head + index) as Hx by (unfold next, u64_max; destruct (len payloads =? 0); lia).
  destruct (overflow_page_stores (head + index) u64_max next payload) as (page & Ep & St); [unfold next, fits; destruct (len payloads =? 0); lia|lia|lia|unfold u64_max; lia|done|].
  rewrite Ep, bind_ok.
  destruct (sink_write_ok s (head + index) page (NOverflow next payload) So) as (s1 & E1 & So1 & Hn1 & St1 & Fr1); [lia| |].
  { apply (page_stores_move _ _ _ _ _ St); [lia|lia|]. constructor; [|constructor]. unfold below, next. destruct (len payloads =? 0) eqn:?; lia. }
  rewrite E1, bind_ok. destruct (IH s1 (index + 1)) as (s2 & E2 & So2 & Hn2 & Ch & Fr2); [done|done|lia|lia|lia|done|].
  exists s2. split_and!; [done|done|lia| |].
  - replace (1 + len payloads =? 0) with false by lia. rewrite seqZ_cons by lia.
    replace (Z.succ (head + index)) with (head + (index + 1)) by lia. replace (Z.pred (1 + len payloads)) with (len payloads) by lia.
    apply (chain_link _ _ next); [|done|done]. apply Fr2; [lia|done].
  - intros i x Hix Sx. apply Fr2; [lia|]. apply Fr1; [lia|done].
Qed.

Lemma build_chain_ok s st :
  sink_ok s → 0 < len st < 2 ^ 32 → sink_next s + len st < 2 ^ 45 →
  ∃ s' ps bs, allocate_overflow_chain s st = Ok (sink_next s, s') ∧ sink_ok s' ∧ ps = seqZ (sink_next s) (len ps) ∧ ps ≠ [] ∧
    sink_next s' = sink_next s + len ps ∧ len ps ≤ len st ∧ chain (stored s') (sink_next s) ps bs ∧ concat bs = st ∧
    (∀ i x, stored s i x → stored s' i x).
Proof.
  intros So Hl Hr. pose proof (si_next _ So) as Hb. destruct (chunks_ok st) as (Hcat & Hfa & Hlen).
  assert (0 < div_ceil (len st) OVERFLOW_PAYLOAD_LEN ≤ len st) as Hreq.
  { unfold div_ceil. change OVERFLOW_PAYLOAD_LEN with 4056. split; [apply Z.div_str_pos; lia|]. apply Z.div_le_upper_bound; lia. }
  unfold allocate_overflow_chain. cbv zeta. set (count := div_ceil (len st) OVERFLOW_PAYLOAD_LEN) in *. replace (count =? 0) with false by lia.
  unfold allocate_many. rewrite try_fit_small by lia. cbn [ok_or]. rewrite bind_ok, checked_add_small by lia. cbn [ok_or]. rewrite !bind_ok. cbn [fst snd].
  set (s1 := {| sink_file := sink_file s; sink_next := sink_next s + count |}).
  assert (sink_ok s1) as So1 by (destruct So as [? Hle]; constructor; cbn; change PAGE_SIZE with 4096 in *; lia).
  destruct (write_payloads_ok (sink_next s) count (chunks OVERFLOW_PAYLOAD_LEN st) s1 0) as (s2 & E & So2 & Hn2 & Ch & Fr); [done|lia|lia|lia|cbn; lia|done|].
  rewrite E, bind_ok. rewrite Hlen, Z.add_0_r in Ch. replace (count =? 0) with false in Ch by lia.
  assert (len (seqZ (sink_next s) count) = count) as Hls by (unfold len; rewrite length_seqZ; lia).
  exists s2, (seqZ (sink_next s) count), (chunks OVERFLOW_PAYLOAD_LEN st). rewrite Hls. split_and!; try done.
  - intros Hn0. rewrite Hn0, len_nil in Hls. lia.
  - lia.
  - intros i x Hx. apply Fr; [destruct Hx as [? _]; lia|]. apply stored_next; [done|lia].
Qed.

(** ** Cells *)

(** An entry of a leaf with the pages of its value stands for the item [i]. *)
Record placed (V : Z → node → Prop) (i : key * list byte) (e : entry) (w : item) : Prop := {
  pd_key : e.1 = i.1;
  pd_bytes : leaf_key_bytes e.2 = key_to_vec i.1;
  pd_held : held V (leaf_value e.2) w.1 w.2;
  pd_value : w.2 = Some (describe i.2);
}.

Lemma placed_frame (V V' : Z → node → Prop) i e w :
  placed V i e w → (∀ x n, x ∈ w.1 → V x n → V' x n) → placed V' i e w.
Proof. intros [] Hf. constructor; try done. by eapply held_frame. Qed.

(** The cell of an entry fits a leaf, and its chain takes the next pages. *)
Lemma build_cell_ok s leaf_id k raw :
  sink_ok s → 0 < leaf_id < sink_next s → op_ok (StageUpsert k raw) → sink_next s + len raw < 2 ^ 45 →
  ∃ c e ps s', build_cell s leaf_id (key_to_vec k) raw = Ok (c, s') ∧ sink_ok s' ∧
    ps = seqZ (sink_next s) (len ps) ∧ sink_next s' = sink_next s + len ps ∧ len ps ≤ len raw ∧
    leaf_cell_ref_decode c leaf_id (sink_next s') = Ok e ∧
    placed (stored s') (k, raw) (k, e) (ps, Some (describe raw)) ∧ (∀ i x, stored s i x → stored s' i x).
Proof.
  intros So Hid (Hk & Hl & v & Ev) Hroom. pose proof (si_next _ So) as Hb. destruct (encoded_ok raw v Ev Hl) as [Hv Hle].
  assert (describe raw = (stored_compression v, len raw, as_slice v)) as Hd by (unfold describe; by rewrite Ev).
  assert (MAX_ENCODED_KEY_LEN = 2004) as HM by done. pose proof (len_nonneg (as_slice v)).
  unfold build_cell. rewrite try_fit_small by lia. cbn [ok_or]. rewrite bind_ok, Ev, bind_ok. cbv zeta.
  rewrite footprint_sum by lia. cbn [ok_or]. rewrite bind_ok. change (SLOT_LEN + 24) with 28.
  destruct ((len (as_slice v) <=? MAX_INLINE_STORED_VALUE) && (28 + len (key_to_vec k) + len (as_slice v) <=? MAX_CELL_FOOTPRINT)) eqn:Ein.
  - apply andb_true_iff in Ein as [E1 E2]. change MAX_CELL_FOOTPRINT with 2032 in *. change MAX_INLINE_STORED_VALUE with 512 in *.
    destruct (inline_cell_ok (key_to_vec k) (len raw) (stored_compression v) (as_slice v) leaf_id (sink_next s)) as (c & Ec & Dc);
      [done|done|change MAX_INLINE_STORED_VALUE with 512; lia|change SLOT_LEN with 4; change LEAF_CELL_PREFIX_LEN with 24; change MAX_CELL_FOOTPRINT with 2032; lia|].
    rewrite Ec, bind_ok. eexists c, _, [], s. rewrite len_nil. split_and!; try done; try lia. constructor; try done.
    cbn. rewrite Hd. by constructor.
  - pose proof Hv as (_ & _ & Hst & _). destruct (build_chain_ok s (as_slice v)) as (s' & ps & bs & Ea & So' & Hps & Hne & Hn & Hlp & Ch & Hcat & Fr);
      [done|lia|lia|]. rewrite Ea, bind_ok. cbn [fst snd]. rewrite try_fit_small by lia. cbn [ok_or]. rewrite bind_ok.
    destruct (overflow_cell_ok (key_to_vec k) (len raw) (stored_compression v) (as_slice v) (sink_next s) leaf_id u64_max) as (c & Ec & Dc);
      [done|done|unfold u64_max; lia|unfold u64_max; lia|lia|]. rewrite Ec, bind_ok.
    assert (0 < len ps) by (destruct ps; [done|rewrite len_cons; pose proof (len_nonneg ps); lia]).
    eexists c, _, ps, s'. split_and!; [done|done|done|done|lia| | |done].
    + apply (leaf_decode_move _ _ _ _ _ _ Dc). cbn. constructor; [lia|constructor].
    + constructor; try done. cbn. rewrite Hd. rewrite <- Hcat. constructor; [by rewrite Hcat|done|done].
Qed.

(** ** The leaf level *)

Definition min_bytes (es : list entry) : option (list byte) := key_to_vec <$> (fst <$> head es).

Definition leaf_info (d : leaf) : NodeInfo := {| node_page_id := d.1; minimum_key := default [] (min_bytes d.2) |}.

(** The entries, with the pages of their values, of the items [I]. *)
Definition placed_all (V : Z → node → Prop) (I : list (key * list byte)) (es : list entry) (ws : list item) : Prop :=
  length ws = length I ∧ length es = length I ∧
  ∀ j i e w, I !! j = Some i → es !! j = Some e → ws !! j = Some w → placed V i e w.

(** The leaves [D] are finished and the current one has the entries [C]; the
    entries are those of the items [I], with the pages [ws] of their values, and
    [P] are pages of a value that is not in a leaf yet. *)
Record leaf_level (l : LeafLevel) (I : list (key * list byte)) (P : list Z) (D : list leaf) (C : list entry) (ws : list item) : Prop := {
  lv_sink : sink_ok (ll_sink l);
  lv_leaf : 0 < ll_leaf_id l < sink_next (ll_sink l);
  lv_linked : linked (stored (ll_sink l)) 0 D (ll_leaf_id l);
  lv_left : ll_left_leaf l = last_leaf 0 D;
  lv_full : Forall (λ d, d.2 ≠ []) D;
  lv_leaves : ll_leaves l = map leaf_info D;
  lv_minimum : ll_minimum l = min_bytes C;
  lv_cells : Forall2 (λ raw e, leaf_cell_ref_decode raw (ll_leaf_id l) (sink_next (ll_sink l)) = Ok e) (ll_cells l) (map snd C);
  lv_fits : PAGE_HEADER_LEN + weight (ll_cells l) ≤ PAGE_SIZE;
  lv_placed : placed_all (stored (ll_sink l)) I (concat (map snd D) ++ C) ws;
  lv_owned : map fst D ++ [ll_leaf_id l] ++ owned_pages ws ++ P ≡ₚ seqZ 1 (sink_next (ll_sink l) - 1);
}.

Lemma placed_all_frame (V V' : Z → node → Prop) I es ws :
  placed_all V I es ws → (∀ x n, x ∈ owned_pages ws → V x n → V' x n) → placed_all V' I es ws.
Proof.
  intros (H1 & H2 & H) Hf. split_and!; [done|done|]. intros j i e w Hi He Hw. apply (placed_frame _ _ _ _ _ (H j i e w Hi He Hw)).
  intros x n Hx. apply Hf. apply list_elem_of_In, in_concat. exists w.1. split; [|by apply list_elem_of_In].
  apply list_elem_of_In, list_elem_of_fmap. exists w. split; [done|]. by eapply list_elem_of_lookup_2.
Qed.

Lemma placed_all_snoc V I es ws i e w : placed_all V I es ws → placed V i e w → placed_all V (I ++ [i]) (es ++ [e]) (ws ++ [w]).
Proof.
  intros (H1 & H2 & H) Hp. unfold placed_all. rewrite !length_app. cbn [length]. split_and!; [lia|lia|].
  intros j i' e' w' Hi He Hw. destruct (decide (j < length I)%nat).
  - rewrite lookup_app_l in Hi by lia. rewrite lookup_app_l in He by lia. rewrite lookup_app_l in Hw by lia. by eapply H.
  - rewrite lookup_app_r in Hi by lia. rewrite lookup_app_r in He by lia. rewrite lookup_app_r in Hw by lia. rewrite H1 in Hw. rewrite H2 in He.
    destruct (j - length I)%nat as [|d]; cbn in Hi, He, Hw; [by simplify_eq|done].
Qed.

(** What a level of leaves owns, apart from its current leaf, is not that leaf. *)
Lemma level_apart l I P D C ws :
  leaf_level l I P D C ws → ll_leaf_id l ∉ map fst D ∧ ll_leaf_id l ∉ owned_pages ws ∧ ll_leaf_id l ∉ P ∧
    (∀ x, x ∈ map fst D ∨ x ∈ owned_pages ws ∨ x ∈ P → 0 < x < sink_next (ll_sink l)).
Proof.
  intros L. pose proof (lv_owned _ _ _ _ _ _ L) as Ho. pose proof (proj1 (cnt_perm _ _) Ho (ll_leaf_id l)) as Hc.
  rewrite !cnt_app, cnt_same, cnt_seq in Hc. rewrite !cnt_not_in. split_and!; [case_decide; lia..|]. intros x Hx.
  assert (x ∈ seqZ 1 (sink_next (ll_sink l) - 1)) as Hs by (rewrite <- Ho, !elem_of_app; tauto). apply elem_of_seqZ in Hs. lia.
Qed.

Lemma last_leaf_in D : last_leaf 0 D = 0 ∨ last_leaf 0 D ∈ map fst D.
Proof.
  unfold last_leaf. destruct (last D) as [d|] eqn:E; cbn; [right|by left]. apply list_elem_of_fmap. exists d. split; [done|].
  apply last_Some in E as [l ->]. set_solver.
Qed.

(** A change of the sink that keeps the pages and hands out [ps]. *)
Lemma level_with_sink l I P D C ws s' ps :
  leaf_level l I P D C ws → sink_ok s' → ps = seqZ (sink_next (ll_sink l)) (len ps) → sink_next s' = sink_next (ll_sink l) + len ps →
  (∀ i x, stored (ll_sink l) i x → stored s' i x) → leaf_level (with_sink l s') I (P ++ ps) D C ws.
Proof.
  intros L So' Hps Hn Fr. pose proof (len_nonneg ps). pose proof (lv_leaf _ _ _ _ _ _ L). destruct L. constructor; cbn [ll_sink ll_leaf_id ll_left_leaf ll_cells ll_leaves ll_minimum with_sink]; try done.
  - lia.
  - eapply linked_frame; [done|]. intros i ll r es _. apply Fr.
  - apply (leaf_cells_move _ _ _ _ _ _ lv_cells0). eapply Forall_impl; [by eapply leaf_cells_refs|]. cbn. lia.
  - eapply placed_all_frame; [done|]. intros i n _. apply Fr.
  - rewrite !app_assoc in *. rewrite lv_owned0, Hn.
    replace (sink_next (ll_sink l) + len ps - 1) with ((sink_next (ll_sink l) - 1) + len ps) by lia. rewrite seqZ_app by lia.
    replace (1 + (sink_next (ll_sink l) - 1)) with (sink_next (ll_sink l)) by lia. by rewrite <- Hps.
Qed.

(** The current leaf is written with its entries and its links. *)
Lemma finish_leaf_ok l I P D C ws r :
  leaf_level l I P D C ws → (r = 0 ∨ 0 < r < sink_next (ll_sink l) ∧ r ≠ ll_leaf_id l) →
  ∃ s', finish_leaf (ll_sink l) (ll_leaf_id l) (ll_left_leaf l) r (ll_cells l) = Ok s' ∧ sink_ok s' ∧
    sink_next s' = sink_next (ll_sink l) ∧ linked (stored s') 0 (D ++ [(ll_leaf_id l, C)]) r ∧
    placed_all (stored s') I (concat (map snd D) ++ C) ws ∧ (∀ i x, i ≠ ll_leaf_id l → stored (ll_sink l) i x → stored s' i x).
Proof.
  intros L Hr. pose proof (level_apart _ _ _ _ _ _ L) as (HD & Hw & HP & Hrange). destruct L.
  pose proof (si_next _ lv_sink0) as Hb. assert (ll_left_leaf l = 0 ∨ 0 < ll_left_leaf l < sink_next (ll_sink l) ∧ ll_left_leaf l ≠ ll_leaf_id l) as Hl.
  { rewrite lv_left0. destruct (last_leaf_in D) as [->|Hin]; [by left|right]. split; [apply Hrange; tauto|]. intros E. by rewrite E in Hin. }
  destruct (leaf_page_ok (ll_leaf_id l) (ll_left_leaf l) r (ll_cells l) (map snd C) (sink_next (ll_sink l))) as (page & Ep & St);
    [unfold fits; lia|unfold fits; lia|lia|lia|lia|lia|lia|done|done|].
  unfold finish_leaf. rewrite Ep, bind_ok. destruct (sink_write_ok _ _ _ _ lv_sink0 lv_leaf0 St) as (s' & Es & So' & Hn & St' & Fr).
  exists s'. split_and!; [done|done|done| | |done].
  - rewrite linked_app. cbn [first_leaf linked]. split_and!; [|by rewrite <- lv_left0|done].
    eapply linked_frame; [done|]. intros i ll rr es Hi. apply Fr. by intros ->.
  - eapply placed_all_frame; [done|]. intros i n Hi. apply Fr. by intros ->.
Qed.

Lemma min_bytes_some C : C ≠ [] → ∃ b, min_bytes C = Some b.
Proof. destruct C as [|e C]; [done|]. intros _. by eexists. Qed.

(** The next leaf is started. *)
Lemma next_leaf_ok l I P D C ws :
  leaf_level l I P D C ws → C ≠ [] → sink_next (ll_sink l) + 1 < 2 ^ 45 →
  ∃ l', next_leaf l = Ok l' ∧ leaf_level l' I P (D ++ [(ll_leaf_id l, C)]) [] ws ∧ ll_cells l' = [] ∧
    ll_leaf_id l' = sink_next (ll_sink l) ∧ sink_next (ll_sink l') = sink_next (ll_sink l) + 1 ∧
    (∀ i x, i ≠ ll_leaf_id l → stored (ll_sink l) i x → stored (ll_sink l') i x).
Proof.
  intros L HC Hroom. pose proof (lv_leaf _ _ _ _ _ _ L) as Hid. destruct (allocate_ok _ (lv_sink _ _ _ _ _ _ L) Hroom) as (s1 & Ea & So1 & Hn1 & Fr1).
  assert (leaf_level (with_sink l s1) I (P ++ [sink_next (ll_sink l)]) D C ws) as L1 by (by apply (level_with_sink _ _ _ _ _ _ _ _ L)).
  destruct (finish_leaf_ok _ _ _ _ _ _ (sink_next (ll_sink l)) L1) as (s' & Es & So' & Hn' & Lk & Pl & Fr); [cbn; lia|].
  cbn [ll_sink ll_leaf_id ll_left_leaf ll_cells with_sink] in *. unfold next_leaf. rewrite Ea, bind_ok. cbn [fst snd]. rewrite Es, bind_ok.
  destruct (min_bytes_some C HC) as [b Hb]. rewrite (lv_minimum _ _ _ _ _ _ L), Hb. cbn [ok_or]. rewrite bind_ok. eexists. split; [done|].
  pose proof (lv_owned _ _ _ _ _ _ L1) as Ho. destruct L.
  cbn [ll_sink ll_leaf_id ll_left_leaf ll_cells with_sink] in *. split; [constructor|split_and!; try done; [lia|auto]]; cbn [ll_sink ll_leaf_id ll_left_leaf ll_cells ll_leaves ll_minimum].
  - done.
  - lia.
  - done.
  - unfold last_leaf. by rewrite last_snoc.
  - apply Forall_app. split; [done|by constructor].
  - rewrite lv_leaves0, map_app. cbn [map]. unfold leaf_info at 3. cbn [fst snd]. by rewrite Hb.
  - done.
  - constructor.
  - rewrite weight_nil. done.
  - rewrite map_app, concat_app. cbn [map concat]. by rewrite !app_nil_r.
  - rewrite map_app. cbn [map fst app]. rewrite Hn'. rewrite <- Ho. solve_Permutation.
Qed.

Lemma weight_one c : admissible MAX_CELL_FOOTPRINT c → PAGE_HEADER_LEN + weight [c] ≤ PAGE_SIZE.
Proof. unfold admissible. rewrite weight_cons, weight_nil. change SLOT_LEN with 4. change MAX_CELL_FOOTPRINT with 2032. change PAGE_HEADER_LEN with 32. change PAGE_SIZE with 4096. lia. Qed.

(** A cell is put in the current leaf. *)
Lemma push_cell_ok l I ps D C ws c i e :
  leaf_level l I ps D C ws → leaf_cell_ref_decode c (ll_leaf_id l) (sink_next (ll_sink l)) = Ok e →
  placed (stored (ll_sink l)) i (i.1, e) (ps, Some (describe i.2)) → PAGE_HEADER_LEN + weight (ll_cells l ++ [c]) ≤ PAGE_SIZE →
  leaf_level (push_cell l (key_to_vec i.1) c) (I ++ [i]) [] D (C ++ [(i.1, e)]) (ws ++ [(ps, Some (describe i.2))]).
Proof.
  intros L Dc Pl Hw. destruct L. constructor; cbn [ll_sink ll_leaf_id ll_left_leaf ll_cells ll_leaves ll_minimum push_cell]; try done.
  - destruct C as [|e' C]; [by inversion lv_cells0|]. by inversion lv_cells0.
  - rewrite map_app. apply Forall2_app; [done|]. by constructor.
  - rewrite app_assoc. by apply placed_all_snoc.
  - rewrite owned_app. cbn [owned_pages map concat fst]. rewrite !app_nil_r. done.
Qed.

(** One entry. *)
Lemma add_entry_ok l I D C ws k raw :
  leaf_level l I [] D C ws → op_ok (StageUpsert k raw) → sink_next (ll_sink l) + len raw + 1 < 2 ^ 45 →
  ∃ l' D' C' ws', add_entry l (key_to_vec k) raw = Ok l' ∧ leaf_level l' (I ++ [(k, raw)]) [] D' C' ws' ∧ C' ≠ [] ∧
    sink_next (ll_sink l') ≤ sink_next (ll_sink l) + len raw + 1.
Proof.
  intros L Hop Hroom. destruct (build_cell_ok (ll_sink l) (ll_leaf_id l) k raw) as (c & e & ps & s1 & Ec & So1 & Hps & Hn1 & Hlp & Dc & Pl & Fr1);
    [apply L|apply L|done|lia|]. pose proof (level_with_sink _ _ _ _ _ _ _ _ L So1 Hps Hn1 Fr1) as L1. cbn [app] in L1.
  unfold add_entry. rewrite Ec, bind_ok. cbv zeta. cbn [fst snd]. destruct (leaf_decode_size _ _ _ _ Dc) as [_ Hadm].
  pose proof (leaf_cells_sizes _ _ _ _ (lv_cells _ _ _ _ _ _ L1)) as [_ Hall]. pose proof (lv_fits _ _ _ _ _ _ L1) as Hfit.
  pose proof (weight_one c Hadm) as H1. change PAGE_SIZE with 4096 in *. change PAGE_HEADER_LEN with 32 in *. rewrite weight_cons, weight_nil in H1.
  pose proof (weight_nonneg (ll_cells (with_sink l s1))). pose proof (len_nonneg c). change SLOT_LEN with 4 in H1.
  rewrite checked_page_usage_ok; [|lia|rewrite weight_app, weight_cons, weight_nil; change SLOT_LEN with 4; lia|apply Forall_app; by repeat constructor].
  rewrite bind_ok. destruct (4096 <? 32 + weight (ll_cells (with_sink l s1) ++ [c])) eqn:Efull.
  - assert (C ≠ []) as HC.
    { intros ->. pose proof (lv_cells _ _ _ _ _ _ L1) as Hc. assert (ll_cells (with_sink l s1) = []) as Hcs by (by inversion Hc). rewrite Hcs in Efull. cbn [app] in Efull.
      rewrite weight_cons, weight_nil in Efull. change SLOT_LEN with 4 in Efull. lia. }
    destruct (next_leaf_ok _ _ _ _ _ _ L1 HC) as (l2 & E2 & L2 & Hc2 & Hid2 & Hn2 & Fr2); [cbn; lia|]. rewrite E2, bind_ok.
    pose proof (level_apart _ _ _ _ _ _ L1) as (_ & _ & Hps1 & Hps2). cbn [ll_sink ll_leaf_id with_sink] in *.
    eexists _, _, _, _. split; [done|]. split; [apply (push_cell_ok _ _ _ _ _ _ c (k, raw) e L2)|split; [done|cbn; lia]].
    + apply (leaf_decode_move _ _ _ _ _ _ Dc). pose proof (leaf_decode_refs _ _ _ _ Dc) as Hr. eapply Forall_impl; [exact Hr|]. cbn. lia.
    + apply (placed_frame _ _ _ _ _ Pl). intros x n Hx. apply Fr2. by intros ->.
    + rewrite Hc2. cbn [app]. by apply weight_one.
  - rewrite bind_ok. eexists _, _, _, _. split; [done|]. split; [apply (push_cell_ok _ _ _ _ _ _ c (k, raw) e L1 Dc Pl)|split; [by destruct C|cbn; lia]].
    change PAGE_SIZE with 4096. change PAGE_HEADER_LEN with 32. lia.
Qed.

Context {A : Type} (ser : A → io_result (list byte)).

(** The entries with their values serialized. *)
Definition serializes (x : key * A) (i : key * list byte) : Prop := i.1 = x.1 ∧ ser x.2 = Ok i.2.

Lemma add_entries_ok xs items : Forall2 serializes xs items → ∀ l I D C ws,
  leaf_level l I [] D C ws → (I ≠ [] → C ≠ []) → Forall (λ i, op_ok (item_op i)) items → sink_next (ll_sink l) + ops_cost (map item_op items) < 2 ^ 45 →
  ∃ l' D' C' ws', add_entries ser l xs = Ok l' ∧ leaf_level l' (I ++ items) [] D' C' ws' ∧ (I ++ items ≠ [] → C' ≠ []) ∧
    sink_next (ll_sink l') ≤ sink_next (ll_sink l) + ops_cost (map item_op items).
Proof.
  induction 1 as [|[k v] [k' raw] xs items [Hk Hs] _ IH]; intros l I D C ws L HC Hop Hroom; cbn [add_entries map ops_cost foldr] in *.
  { exists l, D, C, ws. rewrite app_nil_r. split_and!; [done|done|done|lia]. }
  cbn [fst snd] in *. subst k'. rewrite Hs, bind_ok. apply Forall_cons in Hop as [Hop1 Hop]. cbn [item_op op_cost fst snd] in *.
  pose proof (ops_cost_nonneg (map item_op items)) as Hnn. fold (ops_cost (map item_op items)) in *.
  destruct (add_entry_ok l I D C ws k raw L Hop1) as (l1 & D1 & C1 & ws1 & E1 & L1 & HC1 & Hn1); [lia|]. rewrite E1, bind_ok.
  destruct (IH l1 _ _ _ _ L1 ltac:(done) Hop) as (l2 & D2 & C2 & ws2 & E2 & L2 & HC2 & Hn2); [lia|].
  exists l2, D2, C2, ws2. rewrite <- app_assoc in L2, HC2. cbn [app] in L2, HC2. split_and!; [done|done|done|lia].
Qed.

(** The level of leaves: linked to each other, none of them empty unless the
    map is, with every page handed out either a leaf or a page of a value. *)
Record leaf_row (s : PageSink) (items : list (key * list byte)) (L : list leaf) (ws : list item) : Prop := {
  lr_sink : sink_ok s;
  lr_linked : linked (stored s) 0 L 0;
  lr_full : L ≠ [] ∧ (items ≠ [] → Forall (λ d, d.2 ≠ []) L);
  lr_placed : placed_all (stored s) items (concat (map snd L)) ws;
  lr_owned : map fst L ++ owned_pages ws ≡ₚ seqZ 1 (sink_next s - 1);
}.

Lemma build_leaf_level_ok s xs items :
  sink_ok s → sink_next s = 1 → Forall2 serializes xs items → Forall (λ i, op_ok (item_op i)) items → ops_cost (map item_op items) + 2 < 2 ^ 45 →
  ∃ s' L ws, build_leaf_level ser xs s = Ok (map leaf_info L, s') ∧ leaf_row s' items L ws ∧
    sink_next s' ≤ 2 + ops_cost (map item_op items) ∧ (items = [] → ∃ id, L = [(id, [])]).
Proof.
  intros So Hs Hser Hop Hroom. pose proof (ops_cost_nonneg (map item_op items)) as Hnn. destruct (allocate_ok s So) as (s0 & Ea & So0 & Hn0 & Fr0); [lia|]. unfold build_leaf_level. rewrite Ea, bind_ok. cbn [fst snd].
  set (l0 := {| ll_sink := s0; ll_leaf_id := sink_next s; ll_left_leaf := 0; ll_cells := []; ll_leaves := []; ll_minimum := None |}).
  assert (leaf_level l0 [] [] [] [] []) as L0.
  { constructor; cbn; try done; [lia|]. rewrite Hn0, Hs. done. }
  destruct (add_entries_ok xs items Hser l0 [] [] [] [] L0 ltac:(done) Hop) as (l & D & C & ws & E & L & HC & Hn); [cbn; lia|].
  rewrite E, bind_ok. cbn [app] in L, HC. destruct (finish_leaf_ok _ _ _ _ _ _ 0 L ltac:(by left)) as (s' & Es & So' & Hn' & Lk & Pl & Fr).
  rewrite Es, bind_ok. exists s', (D ++ [(ll_leaf_id l, C)]), ws. destruct L. split_and!.
  - rewrite lv_leaves0, lv_minimum0, map_app. done.
  - constructor; [done|done| | |].
    + split; [by destruct D|]. intros Hi. apply Forall_app. split; [done|]. constructor; [by apply HC|constructor].
    + rewrite map_app, concat_app. cbn [map concat snd]. by rewrite app_nil_r.
    + rewrite app_nil_r in lv_owned0. rewrite map_app, Hn', <- lv_owned0, <- app_assoc. done.
  - cbn in Hn. lia.
  - intros ->. destruct lv_placed0 as (_ & Hl & _). rewrite length_app in Hl. cbn in Hl. destruct C; [|cbn in Hl; lia].
    destruct D as [|[d es] D]; [by eexists|]. apply Forall_cons in lv_full0 as [Hf _]. cbn in Hf, Hl. destruct es; [done|cbn in Hl; lia].
Qed.
End Stored.
