(* ===== verification/BtreeLevels.v ===== *)
(** The internal levels of the bulk builder: how the nodes of a level are
    grouped, so that every parent has at least two children and fits its page,
    and how the levels end in a single root above the leaves. *)

From stdpp Require Import gmap functions.
From S2P Require Import Prelude BtreeFormat BtreeCell BtreePage BtreeSplit BtreeTransaction BtreeUpdate.
From S2P Require Import BtreeQuery BtreeNode BtreeOverlay BtreeMutation BtreeTree BtreeClimb BtreeChain.
From S2P Require Import BtreePlace BtreeStore BtreeExtend BtreeLinks BtreeWal BtreeRecovery BtreeCrash BtreeDurable.
From S2P Require Import BtreeSpec BtreeRead BtreeLookup BtreeCursor BtreeReaders BtreeVerify BtreeBuild BtreeStored.

Section Levels.
Context {CK : Checksum} {KC : KeyCodec} {LZ : Lz4}.
Abbreviation entry := (key * LeafCellRef)%type.
Abbreviation separator := (key * list byte)%type.

(** ** Groups *)

(** The bytes of the separator cells for some nodes. *)
Fixpoint sep_bytes (ns : list NodeInfo) : Z :=
  match ns with [] => 0 | n :: ns => 16 + len (minimum_key n) + sep_bytes ns end.

Definition short (n : NodeInfo) : Prop := 0 < len (minimum_key n) ≤ MAX_ENCODED_KEY_LEN.

Lemma sep_bytes_nonneg ns : 0 ≤ sep_bytes ns.
Proof. induction ns as [|n ns IH]; cbn; [lia|]. pose proof (len_nonneg (minimum_key n)). lia. Qed.

Lemma sep_bytes_take m ns : sep_bytes (take m ns) ≤ sep_bytes ns.
Proof.
  revert m. induction ns as [|n ns IH]; intros [|m]; cbn; try lia; [|specialize (IH m); lia].
  pose proof (sep_bytes_nonneg ns). pose proof (len_nonneg (minimum_key n)). lia.
Qed.

(** At least two separators fit in a page. *)
Lemma children_fit_ok ns : Forall short ns → ∀ used, 40 ≤ used ≤ 4096 →
  ∃ n, children_that_fit used ns = Ok n ∧ (n ≤ length ns)%nat ∧ used + sep_bytes (take n ns) ≤ 4096 ∧
    (used ≤ 4096 - 2020 → ns ≠ [] → (1 ≤ n)%nat) ∧ (used = 40 → (2 ≤ length ns)%nat → (2 ≤ n)%nat).
Proof.
  induction 1 as [|x ns Hx _ IH]; intros used Hu; cbn [children_that_fit].
  { exists 0%nat. cbn. split_and!; [done|lia|lia|done|lia]. }
  unfold short in Hx. change MAX_ENCODED_KEY_LEN with 2004 in Hx. change SLOT_LEN with 4. change PAGE_SIZE with 4096.
  rewrite (checked_add_small 12) by lia. cbn [ok_or]. rewrite bind_ok, (checked_add_small used) by lia. cbn [mbind option_bind].
  rewrite checked_add_small by lia. cbn [ok_or]. rewrite bind_ok. destruct (4096 <? used + 4 + (12 + len (minimum_key x))) eqn:E.
  - exists 0%nat. cbn [take sep_bytes length]. split_and!; [done|lia|lia|lia|lia].
  - destruct (IH (used + 4 + (12 + len (minimum_key x)))) as (n & En & Hn & Hb & H1 & _); [lia|]. rewrite En, bind_ok.
    exists (S n). cbn [take sep_bytes length]. split_and!; [done|lia|lia|lia|]. intros -> Hl. destruct ns; [cbn in Hl; lia|].
    enough (1 ≤ n)%nat by lia. apply H1; [lia|done].
Qed.

Section Group.
Context (level : list NodeInfo).

(** Consecutive groups from [a] to [b]. *)
Inductive cover (G : nat → nat → Prop) : nat → nat → list (nat * nat) → Prop :=
| cover_nil a : cover G a a []
| cover_cons a b c gs : G a b → cover G b c gs → cover G a c ((a, b) :: gs).

Lemma cover_app G a c gs gs' : cover G a c (gs ++ gs') ↔ ∃ b, cover G a b gs ∧ cover G b c gs'.
Proof.
  revert a. induction gs as [|[x y] gs IH]; intros a; cbn [app].
  - split; [intros H; exists a; split; [constructor|done]|]. intros (b & H1 & H2). by inversion H1; subst.
  - split.
    + intros H. inversion H; subst. match goal with H : cover _ y c _ |- _ => apply IH in H as (b & H1 & H2) end. exists b. split; [by constructor|done].
    + intros (b & H1 & H2). inversion H1; subst. constructor; [done|]. apply IH. by exists b.
Qed.

Lemma cover_one G a c x y : cover G a c [(x, y)] ↔ a = x ∧ y = c ∧ G x y.
Proof.
  split; [|intros (-> & -> & H); constructor; [done|constructor]]. intros H. inversion H; subst. match goal with H : cover _ _ _ [] |- _ => inversion H; subst end. done.
Qed.

Lemma cover_impl (G G' : nat → nat → Prop) a c gs : (∀ x y, G x y → G' x y) → cover G a c gs → cover G' a c gs.
Proof. intros Hi. induction 1; constructor; auto. Qed.

(** The separators of the group from [a] to [b] fit in a page. *)
Definition group_fits (a b : nat) : Prop := (b ≤ length level)%nat ∧ sep_bytes (take (b - S a) (drop (S a) level)) ≤ 4056.

(** A group of the first loop: it has three children unless it is the last. *)
Definition loose (a b : nat) : Prop := (a < b)%nat ∧ group_fits a b ∧ ((a + 3 ≤ b)%nat ∨ b = length level).
Definition tight (a b : nat) : Prop := (a + 2 ≤ b)%nat ∧ group_fits a b.

Context (Short : Forall short (tail level)).

Lemma short_after start : Forall short (drop (S start) level).
Proof. replace (drop (S start) level) with (drop start (tail level)) by (destruct level; cbn; by rewrite ?drop_nil). by apply Forall_drop. Qed.

Lemma group_loop_ok fuel : ∀ start, (length level - start ≤ fuel)%nat → (start ≤ length level)%nat →
  ∃ gs, group_loop fuel start level = Ok gs ∧ cover loose start (length level) gs ∧
    (∀ e gs', gs = (start, e) :: gs' → (start + 2 ≤ length level)%nat → (start + 2 ≤ e)%nat).
Proof.
  induction fuel as [|fuel IH]; intros start Hf Hs; cbn [group_loop].
  { exists []. replace start with (length level) by lia. split_and!; [done|constructor|done]. }
  destruct (drop start level) as [|x following] eqn:Ed.
  { apply (f_equal length) in Ed. rewrite length_drop in Ed. cbn in Ed. exists []. replace start with (length level) by lia. split_and!; [done|constructor|done]. }
  assert (following = drop (S start) level) as Ef by (rewrite <- Nat.add_1_r, <- drop_drop, Ed; done).
  assert (length following = length level - S start)%nat as Hlf by (by rewrite Ef, length_drop).
  assert (start < length level)%nat by (apply (f_equal length) in Ed; rewrite length_drop in Ed; cbn in Ed; lia).
  destruct (children_fit_ok following ltac:(rewrite Ef; apply short_after) 40 ltac:(lia)) as (n & En & Hn & Hb & H1 & H2).
  change (PAGE_HEADER_LEN + 8) with 40. rewrite En, bind_ok. cbv zeta. destruct (IH (start + 1 + n)%nat) as (gs & Eg & Cv & _); [lia|lia|].
  rewrite Eg, bind_ok. exists ((start, (start + 1 + n)%nat) :: gs). split_and!; [done| |].
  - constructor; [|done]. split; [lia|]. split; [split; [lia|]|].
    + replace (start + 1 + n - S start)%nat with n by lia. rewrite <- Ef. lia.
    + destruct (decide (2 ≤ length following)%nat) as [H2'|]; [left; specialize (H2 eq_refl H2'); lia|right].
      destruct following as [|y following]; [cbn in *; lia|]. specialize (H1 ltac:(lia) ltac:(done)). cbn [length] in *. lia.
  - intros e gs' [= <- _] Hl. destruct following as [|y following]; [cbn in *; lia|]. specialize (H1 ltac:(lia) ltac:(done)). lia.
Qed.

Lemma loose_end a b c gs : cover loose a b (gs ++ [c]) → b = length level ∨ (c.1 + 3 ≤ c.2)%nat.
Proof. intros H. apply cover_app in H as (m & _ & H). destruct c as [x y]. apply cover_one in H as (-> & -> & (_ & _ & H)). cbn. lia. Qed.

Lemma loose_tight a b gs : cover loose a b gs → (b < length level)%nat → cover tight a b gs.
Proof.
  induction 1 as [|a b c gs (Hab & Hf & H3) Hc IH]; intros Hl; [constructor|]. constructor; [|by apply IH].
  assert (b ≤ c)%nat as Hbc by (clear -Hc; induction Hc as [|? ? ? ? (? & _)]; lia). split; [|done]. destruct H3; lia.
Qed.

(** Every group of the result has two children and fits. *)
Lemma groups_ok : (2 ≤ length level)%nat → ∃ gs, group_internal_children level = Ok gs ∧ cover tight 0 (length level) gs.
Proof.
  intros Hl. destruct (group_loop_ok (length level) 0 ltac:(lia) ltac:(lia)) as (gs & Eg & Cv & Hfst).
  unfold group_internal_children. rewrite Eg, bind_ok. unfold balance_last.
  destruct gs as [|[from to] gs _] using rev_ind; [inversion Cv; lia|]. apply cover_app in Cv as (m & Cv & C1).
  apply cover_one in C1 as (-> & -> & (Hft & Hfit & H3)). rewrite reverse_app, reverse_singleton. cbn [app].
  destruct gs as [|[p1 p2] gs _] using rev_ind.
  { cbn. inversion Cv; subst. exists [(0%nat, length level)]. split; [done|]. apply cover_one. split_and!; [done|done|]. split; [|done]. lia. }
  pose proof Cv as Cv'. apply loose_tight in Cv' as Ct; [|lia]. rewrite reverse_app, reverse_singleton. cbn [app].
  apply cover_app in Cv as (b & _ & C1). apply cover_one in C1 as (-> & -> & (_ & [_ Hpf] & [Hp|Hp])); [|lia].
  clear Hfst Eg H3. destruct (Nat.eqb_spec (length level - from) 1) as [E1|E1].
  - cbn [fst snd]. rewrite (proj2 (Nat.eqb_neq from 0)) by lia. rewrite bind_ok. rewrite (proj2 (Nat.leb_gt (from - 1) p1)) by lia.
    eexists. split; [done|]. cbn [fst snd]. rewrite !reverse_cons, reverse_involutive, <- app_assoc. cbn [app].
    apply cover_app in Ct as (b & Ct & C1). apply cover_one in C1 as (-> & _ & _). apply cover_app. exists p1. split; [done|].
    constructor; [|constructor; [|constructor]]; (split; [lia|split; [lia|]]).
    + replace (from - 1 - S p1)%nat with (Nat.min (from - 1 - S p1) (from - S p1)) by lia. rewrite <- take_take.
      pose proof (sep_bytes_take (from - 1 - S p1) (take (from - S p1) (drop (S p1) level))). lia.
    + replace (length level - S (from - 1))%nat with 1%nat by lia. pose proof (short_after (from - 1)) as Hsh.
      destruct (drop (S (from - 1)) level) as [|y ys]; [cbn; lia|]. apply Forall_cons in Hsh as [Hy _]. change (take 1 (y :: ys)) with [y]. cbn [sep_bytes].
      unfold short in Hy. change MAX_ENCODED_KEY_LEN with 2004 in Hy. lia.
  - eexists. split; [done|]. apply cover_app. exists from. split; [done|]. apply cover_one. split_and!; [done|done|]. split; [lia|done].
Qed.

Lemma cover_length a b gs : cover tight a b gs → (a + 2 * length gs ≤ b)%nat.
Proof. induction 1 as [|a b c gs (? & _) _ IH]; cbn [length]; lia. Qed.
End Group.

(** ** Parents *)

Definition child_cell (n : NodeInfo) : InternalCellRef := {| internal_key_bytes := minimum_key n; internal_right_child := node_page_id n |}.

Lemma encode_children_ok page_id ns :
  0 < page_id < 2 ^ 45 → Forall short ns → Forall (λ n, 0 < node_page_id n < page_id) ns →
  ∃ cs, encode_children page_id ns = Ok cs ∧ weight cs = sep_bytes ns ∧ length cs = length ns ∧
    Forall2 (λ raw c, internal_cell_ref_decode raw page_id (page_id + 1) = Ok c) cs (map child_cell ns).
Proof.
  intros Hp. induction ns as [|n ns IH]; intros Hs Hr; cbn [encode_children].
  { exists []. split_and!; [done|done|done|constructor]. }
  apply Forall_cons in Hs as [Hs1 Hs]. apply Forall_cons in Hr as [Hr1 Hr]. destruct (IH Hs Hr) as (cs & E & Hw & Hl & Hd).
  set (raw := internal_prefix_bytes {| icp_key_length := len (minimum_key n); icp_right_child := node_page_id n |} ++ minimum_key n).
  assert (∀ m, node_page_id n < m → encode_internal_cell (minimum_key n) (node_page_id n) page_id m = Ok raw) as En.
  { intros m Hm. apply encode_internal_cell_iff. unfold short in Hs1. split_and!; [lia|lia|lia|done|lia|done]. }
  rewrite En by (unfold u64_max; lia). rewrite bind_ok, E, bind_ok. exists (raw :: cs). split_and!; [done| |cbn; lia|].
  - rewrite weight_cons. cbn [sep_bytes]. unfold raw. rewrite len_app, len_internal_prefix_bytes. change SLOT_LEN with 4. change INTERNAL_CELL_PREFIX_LEN with 12. lia.
  - cbn [map]. constructor; [|done]. apply internal_decode_iff. split; [unfold fits; cbn; lia|]. apply En. lia.
Qed.

(** The nodes [ns] stand for the trees [Ts] with the separators [ss]. *)
Definition stand_for (ns : list NodeInfo) (Ts : list btree) (ss : list separator) : Prop :=
  map node_page_id ns = map root_id Ts ∧ map minimum_key (tail ns) = map snd ss.

Lemma stand_cells ns : ∀ Ts ss, map node_page_id ns = map root_id Ts → map minimum_key ns = map snd ss →
  map child_cell ns = zip_with node_cell ss Ts.
Proof.
  induction ns as [|n ns IH]; intros [|T Ts] [|s ss] H1 H2; try done. cbn in *. injection H1 as E1 H1. injection H2 as E2 H2.
  rewrite (IH Ts ss) by done. f_equal. unfold child_cell, node_cell. by rewrite E1, E2.
Qed.

Lemma seps_short (P : option key → option key → btree → Prop) lo hi Ts ss ns :
  segments P lo hi Ts ss → map minimum_key ns = map snd ss → Forall short ns.
Proof.
  intros Sg E. apply segments_bounds in Sg. apply Forall_lookup. intros j n Hj.
  assert (map snd ss !! j = Some (minimum_key n)) as Hs by (rewrite <- E, list_lookup_fmap, Hj; done).
  rewrite list_lookup_fmap in Hs. apply fmap_Some in Hs as (x & Hx & Ex). rewrite Forall_lookup in Sg.
  destruct (Sg _ _ Hx) as ([_ H] & _). unfold short. by rewrite Ex.
Qed.

Lemma root_stored s T : Forall (holds (stored s)) (pages T) → 0 < root_id T < sink_next s.
Proof. destruct T as [id es|id kids seps]; cbn [pages root_id]; intros H; apply Forall_cons in H as [H _]; cbn in H; [destruct H as (? & ? & [? _])|destruct H as [? _]]; done. Qed.

Lemma build_parent_ok h s lo hi ns kids seps :
  sink_ok s → sink_next s + 1 < 2 ^ 45 → seps ≠ [] → segments (shaped h) lo hi kids seps → stand_for ns kids seps →
  sep_bytes (tail ns) ≤ 4056 → Forall (holds (stored s)) (concat (map pages kids)) →
  ∃ n0 s', head ns = Some n0 ∧ build_parent ns s = Ok ({| node_page_id := sink_next s; minimum_key := minimum_key n0 |}, s') ∧ sink_ok s' ∧
    sink_next s' = sink_next s + 1 ∧ holds (stored s') (sink_next s, node_spec kids seps) ∧ (∀ i x, stored s i x → stored s' i x).
Proof.
  intros So Hroom Hne Sg [H1 H2] Hb Hpg. pose proof (segments_length _ _ _ _ _ Sg) as Hlen. pose proof (si_next _ So) as Hnx.
  assert (Forall (λ T, 0 < root_id T < sink_next s) kids) as Hr.
  { apply Forall_forall. intros T HT. apply root_stored. apply Forall_forall. intros x Hx. rewrite Forall_forall in Hpg. apply Hpg.
    apply list_elem_of_In, in_concat. exists (pages T). split; apply list_elem_of_In; [|done]. apply list_elem_of_fmap. by exists T. }
  assert (Forall (λ n, 0 < node_page_id n < sink_next s) ns) as Hrn.
  { apply Forall_forall. intros n Hn. assert (node_page_id n ∈ map root_id kids) as Hin by (rewrite <- H1; apply list_elem_of_fmap; by exists n).
    apply list_elem_of_fmap in Hin as (T & -> & HT). rewrite Forall_forall in Hr. by apply Hr. }
  pose proof (f_equal length H1) as Hl1. rewrite !length_map in Hl1. destruct kids as [|K [|K' kids]]; cbn in Hlen; [lia|destruct seps; cbn in *; done|].
  destruct ns as [|n0 [|n1 ns]]; cbn in Hl1; try lia. destruct (allocate_ok s So Hroom) as (s1 & Ea & So1 & Hn1 & Fr1).
  cbn [tail] in *. apply Forall_cons in Hrn as [Hr0 Hrn].
  destruct (encode_children_ok (sink_next s) (n1 :: ns)) as (cs & Ec & Hw & Hlc & Hd); [lia|exact (seps_short _ _ _ _ _ _ Sg H2)|done|].
  cbn [build_parent tail]. rewrite Ea, bind_ok. cbn [fst snd]. rewrite Ec, bind_ok.
  assert (map child_cell (n1 :: ns) = node_cells (K :: K' :: kids) seps) as Hcells by (apply stand_cells; [exact (f_equal tail H1)|done]).
  rewrite Hcells in Hd.
  destruct (internal_page_ok (sink_next s) (node_page_id n0) cs (node_cells (K :: K' :: kids) seps) (sink_next s + 1)) as (page & Ep & St);
    [unfold fits; lia|lia|lia|lia|lia|lia|lia|done|by destruct cs|rewrite Hw; change PAGE_HEADER_LEN with 32; change INTERNAL_PREAMBLE_LEN with 8; change PAGE_SIZE with 4096; lia|].
  rewrite Ep, bind_ok. rewrite <- Hn1 in St. destruct (sink_write_ok s1 (sink_next s) page _ So1 ltac:(lia) St) as (s' & Es & So' & Hn' & St' & Fr').
  rewrite Es, bind_ok. exists n0, s'. split_and!; [done|done|done|lia| |].
  - unfold holds. cbn [fst snd node_spec]. assert (node_page_id n0 = root_id K) as E0 by (by injection H1). cbn [leftmost_of]. by rewrite <- E0.
  - intros i x Hx. apply Fr'; [destruct Hx as [? _]; lia|by apply Fr1].
Qed.

(** ** A level *)

Lemma tail_take_drop {B} n a (l : list B) : tail (take n (drop a l)) = take (n - 1) (drop a (tail l)).
Proof.
  replace (drop a (tail l)) with (drop (S a) l) by (destruct l; cbn; by rewrite ?drop_nil).
  replace (drop (S a) l) with (drop 1 (drop a l)) by (rewrite drop_drop; f_equal; lia).
  destruct n as [|n]; [done|]. replace (S n - 1)%nat with n by lia. destruct (drop a l); cbn; by rewrite ?take_nil, ?drop_0.
Qed.

Lemma stand_group ns Ts ss a b :
  stand_for ns Ts ss → stand_for (take (b - a) (drop a ns)) (take (b - a) (drop a Ts)) (take (b - a - 1) (drop a ss)).
Proof.
  intros [H1 H2]. split.
  - change (node_page_id <$> take (b - a) (drop a ns) = root_id <$> take (b - a) (drop a Ts)). rewrite !fmap_take, !fmap_drop. do 2 f_equal. exact H1.
  - rewrite tail_take_drop. change (minimum_key <$> take (b - a - 1) (drop a (tail ns)) = snd <$> take (b - a - 1) (drop a ss)).
    rewrite !fmap_take, !fmap_drop. do 2 f_equal. exact H2.
Qed.

(** A level of trees [Us] above the trees [Ts]. *)
Record level_over (s s' : PageSink) (Ts Us : list btree) : Prop := {
  lo_sink : sink_ok s';
  lo_next : sink_next s ≤ sink_next s';
  lo_pages : Forall (holds (stored s')) (concat (map pages Us));
  lo_leaves : concat (map leaves Us) = concat (map leaves Ts);
  lo_ids : concat (map ids Us) ≡ₚ seqZ (sink_next s) (sink_next s' - sink_next s) ++ concat (map ids Ts);
  lo_kept : ∀ i x, stored s i x → stored s' i x;
}.

Lemma level_over_node s s' kids seps :
  sink_ok s' → sink_next s' = sink_next s + 1 → holds (stored s') (sink_next s, node_spec kids seps) →
  (∀ i x, stored s i x → stored s' i x) → Forall (holds (stored s)) (concat (map pages kids)) →
  level_over s s' kids [BNode (sink_next s) kids seps].
Proof.
  intros So Hn Hh Fr Hp. constructor; [done|lia| | | |done]; cbn [map concat]; rewrite app_nil_r; [|done|].
  - cbn [pages]. constructor; [done|]. eapply holds_frame; [exact Hp|]. intros i n _. apply Fr.
  - rewrite ids_node, Hn. replace (sink_next s + 1 - sink_next s) with 1 by lia. done.
Qed.

Lemma level_over_app s s1 s2 Ts Ts' Us Us' :
  level_over s s1 Ts Us → level_over s1 s2 Ts' Us' → level_over s s2 (Ts ++ Ts') (Us ++ Us').
Proof.
  intros [] []. constructor; [done|lia| | | |auto]; rewrite !map_app, !concat_app.
  - apply Forall_app. split; [|done]. eapply holds_frame; [done|]. intros i n _. auto.
  - congruence.
  - rewrite lo_ids0, lo_ids1. replace (sink_next s2 - sink_next s) with ((sink_next s1 - sink_next s) + (sink_next s2 - sink_next s1)) by lia.
    rewrite seqZ_app by lia. replace (sink_next s + (sink_next s1 - sink_next s)) with (sink_next s1) by lia. solve_Permutation.
Qed.

Lemma level_over_trans s s1 s2 Ts Us Ws : level_over s s1 Ts Us → level_over s1 s2 Us Ws → level_over s s2 Ts Ws.
Proof.
  intros [] []. constructor; [done|lia|done|congruence| |auto]. rewrite lo_ids1, lo_ids0.
  replace (sink_next s2 - sink_next s) with ((sink_next s1 - sink_next s) + (sink_next s2 - sink_next s1)) by lia.
  rewrite seqZ_app by lia. replace (sink_next s + (sink_next s1 - sink_next s)) with (sink_next s1) by lia. solve_Permutation.
Qed.

Lemma drop_pages (V : Z → node → Prop) Ts a : Forall (holds V) (concat (map pages Ts)) → Forall (holds V) (concat (map pages (drop a Ts))).
Proof. rewrite <- (take_drop a Ts) at 1. rewrite map_app, concat_app. intros H. by apply Forall_app in H as [_ H]. Qed.

Section Parents.
Context (h : nat) (ns : list NodeInfo) (Ts : list btree) (ss : list separator) (Sf : stand_for ns Ts ss) (Len : length Ts = S (length ss)).

Lemma stand_length : length ns = length Ts.
Proof. destruct Sf as [H _]. apply (f_equal length) in H. by rewrite !length_map in H. Qed.

Lemma level_minimum j n x : ns !! S j = Some n → ss !! j = Some x → minimum_key n = x.2.
Proof.
  intros Hn Hx. destruct Sf as [_ H]. assert (map minimum_key (tail ns) !! j = Some (minimum_key n)) as E.
  { rewrite list_lookup_fmap. replace (tail ns !! j) with (ns !! S j) by (by destruct ns). by rewrite Hn. }
  rewrite H, list_lookup_fmap, Hx in E. by injection E.
Qed.

Lemma build_parents_ok gs a : cover (tight ns) a (length ns) gs → ∀ s lo,
  gs ≠ [] → sink_ok s → segments (shaped h) lo None (drop a Ts) (drop a ss) → Forall (holds (stored s)) (concat (map pages (drop a Ts))) →
  sink_next s + len gs < 2 ^ 45 →
  ∃ up s' Us us, build_parents ns gs s = Ok (up, s') ∧ segments (shaped (S h)) lo None Us us ∧ stand_for up Us us ∧
    minimum_key <$> head up = minimum_key <$> ns !! a ∧ level_over s s' (drop a Ts) Us ∧
    length up = length gs ∧ sink_next s' = sink_next s + len gs.
Proof.
  pose proof stand_length as Hlen. intros Cv. remember (length ns) as N eqn:HN. induction Cv as [|a b N gs (Hab & Hbn & Hfit) Cv IH]; intros s lo Hne So Sg Hpg Hroom; [done|]. subst N.
  rewrite len_cons in Hroom. pose proof (len_nonneg gs). cbn [build_parents].
  rewrite get_range_some by (unfold len; lia). cbn [ok_or]. rewrite bind_ok, slice_nat.
  pose proof (stand_group ns Ts ss a b Sf) as Sk. set (kids := take (b - a) (drop a Ts)) in *. set (seps := take (b - a - 1) (drop a ss)) in *.
  assert (seps ≠ []) as Hs0 by (intros E; apply (f_equal length) in E; unfold seps in E; rewrite length_take, length_drop in E; cbn in E; lia).
  assert (kids ++ drop b Ts = drop a Ts) as Hsplit by (unfold kids; rewrite <- (take_drop (b - a) (drop a Ts)) at 2; rewrite drop_drop; do 2 f_equal; lia).
  assert (sep_bytes (tail (take (b - a) (drop a ns))) ≤ 4056) as Hb.
  { rewrite tail_take_drop. replace (drop a (tail ns)) with (drop (S a) ns) by (destruct ns; cbn; by rewrite ?drop_nil). by replace (b - a - 1)%nat with (b - S a)%nat by lia. }
  assert (∃ hi, segments (shaped h) lo hi kids seps ∧ ((gs = [] ∧ hi = None ∧ b = length ns) ∨
    (gs ≠ [] ∧ ∃ x n, ss !! (b - 1)%nat = Some x ∧ ns !! b = Some n ∧ hi = Some x.1 ∧ sep_ok x ∧ strictly_above lo x.1 ∧ segments (shaped h) hi None (drop b Ts) (drop b ss)))) as (hi & Sgk & Hrest).
  { destruct gs as [|g gs].
    - inversion Cv; subst. exists None. split; [|by left]. unfold kids, seps. rewrite !take_ge by (rewrite length_drop; lia). done.
    - inversion Cv as [|? e ? ? (Hbe & Hen & _) _]; subst. destruct (lookup_lt_is_Some_2 ss (b - 1)) as [x Hx]; [lia|].
      destruct (lookup_lt_is_Some_2 ns b) as [n Hn]; [lia|]. destruct (segments_cut _ _ _ _ _ (b - a - 1) x Sg) as (S1 & S2 & S3 & S4 & _).
      { rewrite lookup_drop. by replace (a + (b - a - 1))%nat with (b - 1)%nat by lia. }
      replace (S (b - a - 1)) with (b - a)%nat in * by lia. exists (Some x.1). split; [done|right]. split; [done|]. exists x, n.
      rewrite !drop_drop in S2. replace (a + (b - a))%nat with b in S2 by lia. by split_and!. }
  rewrite <- Hsplit in Hpg. rewrite map_app, concat_app in Hpg. apply Forall_app in Hpg as [Hpk Hpr].
  destruct (build_parent_ok h s lo hi _ kids seps So ltac:(lia) Hs0 Sgk Sk Hb Hpk) as (n0 & s1 & Hh0 & E1 & So1 & Hn1 & Hh1 & Fr1).
  rewrite E1, bind_ok. cbn [fst snd]. pose proof (level_over_node s s1 kids seps So1 Hn1 Hh1 Fr1 Hpk) as O1.
  assert (ns !! a = Some n0) as Hna by (rewrite <- Hh0, head_lookup, lookup_take_lt, lookup_drop, Nat.add_0_r by lia; done).
  destruct Hrest as [(-> & -> & ->)|(Hgs & x & n & Hx & Hn & -> & S3 & S4 & S2)].
  - cbn [build_parents]. rewrite bind_ok. eexists _, s1, [BNode (sink_next s) kids seps], []. rewrite len_cons, len_nil. split_and!; [done| | |by rewrite Hna| |done|lia].
    + constructor. by split.
    + by split.
    + rewrite <- Hsplit. replace (drop (length ns) Ts) with (@nil btree) by (by rewrite drop_ge by lia). by rewrite app_nil_r.
  - destruct (IH eq_refl Hlen s1 (Some x.1) Hgs So1 S2) as (up & s2 & Us & us & E2 & Sg2 & Sf2 & Hm2 & O2 & Hl2 & Hn2);
      [eapply holds_frame; [exact Hpr|]; intros i y _; apply Fr1|lia|].
    rewrite E2, bind_ok. eexists _, s2, (BNode (sink_next s) kids seps :: Us), (x :: us). rewrite len_cons. cbn [length fst snd].
    split_and!; [done| | |by rewrite Hna| |cbn; lia|lia].
    + destruct x as [xk xb]. constructor; [done|done|done| |done]. by split.
    + destruct Sf2 as [F1 F2]. split; [cbn; by rewrite F1|]. cbn [tail map]. rewrite Hn in Hm2. destruct up as [|u up]; [done|]. cbn in Hm2, F2 |- *. injection Hm2 as ->.
      rewrite F2. f_equal. apply (level_minimum (b - 1)); [|done]. by replace (S (b - 1)) with b by lia.
    + rewrite <- Hsplit. apply (level_over_app s s1 s2 kids (drop b Ts) [BNode (sink_next s) kids seps] Us O1 O2).
Qed.
End Parents.

(** ** The levels *)

(** A finished level: the trees of its nodes, in order. *)
Record row (h : nat) (s : PageSink) (ns : list NodeInfo) (Ts : list btree) (ss : list separator) : Prop := {
  rw_sink : sink_ok s;
  rw_segments : segments (shaped h) None None Ts ss;
  rw_nodes : stand_for ns Ts ss;
  rw_pages : Forall (holds (stored s)) (concat (map pages Ts));
}.

(** A parent level has at most half the nodes. *)
Lemma build_parent_level_ok h s ns Ts ss :
  row h s ns Ts ss → (2 ≤ length ns)%nat → sink_next s + len ns < 2 ^ 45 →
  ∃ up s' Us us, build_parent_level ns s = Ok (up, s') ∧ row (S h) s' up Us us ∧ level_over s s' Ts Us ∧
    (2 * length up ≤ length ns)%nat ∧ sink_next s' = sink_next s + len up.
Proof.
  intros R Hl Hroom. pose proof R as [So Sg Sf Hpg]. pose proof (segments_length _ _ _ _ _ Sg) as HL.
  destruct (groups_ok ns (seps_short _ _ _ _ _ _ Sg (proj2 Sf)) Hl) as (gs & Eg & Cv). pose proof (cover_length _ _ _ _ Cv) as Hg.
  unfold build_parent_level. rewrite Eg, bind_ok. assert (gs ≠ []) as Hne by (intros ->; inversion Cv; lia).
  destruct (build_parents_ok h ns Ts ss Sf HL gs 0 Cv s None Hne So) as (up & s' & Us & us & E & Sg' & Sf' & _ & O & Hlu & Hn);
    [by rewrite !drop_0|by rewrite drop_0|unfold len in *; lia|].
  exists up, s', Us, us. rewrite drop_0 in O. split_and!; [done| |done|lia|unfold len in *; lia].
  constructor; [apply O|done|done|apply O].
Qed.

Lemma level_over_refl s Ts : sink_ok s → Forall (holds (stored s)) (concat (map pages Ts)) → level_over s s Ts Ts.
Proof. intros. constructor; try done. replace (sink_next s - sink_next s) with 0 by lia. done. Qed.

(** The levels end in one node, the root. *)
Lemma build_levels_ok fuel : ∀ h s ns Ts ss,
  row h s ns Ts ss → (length ns ≤ fuel)%nat → sink_next s + len ns < 2 ^ 45 →
  ∃ n s' T h', build_levels fuel ns s = Ok ([n], s') ∧ node_page_id n = root_id T ∧ shaped h' None None T ∧ level_over s s' Ts [T] ∧
    sink_next s' + 1 ≤ sink_next s + len ns.
Proof.
  induction fuel as [|fuel IH]; intros h s ns Ts ss R Hf Hroom; pose proof R as [So Sg Sf Hpg];
    pose proof (segments_length _ _ _ _ _ Sg) as HL; pose proof (stand_length ns Ts ss Sf) as Hl; [lia|].
  cbn [build_levels]. destruct (Nat.ltb_spec 1 (length ns)) as [H1|H1].
  - destruct (build_parent_level_ok h s ns Ts ss R ltac:(lia) Hroom) as (up & s1 & Us & us & E1 & R1 & O1 & Hu & Hn1).
    rewrite E1, bind_ok. cbn [fst snd]. destruct (IH (S h) s1 up Us us R1) as (n & s' & T & h' & E2 & Hr & Sh & O2 & Hn2); [lia|unfold len in *; lia|].
    exists n, s', T, h'. split_and!; [done|done|done|by eapply level_over_trans|unfold len in *; lia].
  - destruct Ts as [|T [|T' Ts]]; cbn in HL, Hl; [lia| |lia]. destruct ns as [|n [|n' ns]]; cbn in Hl; try lia.
    destruct ss; [|cbn in HL; lia]. exists n, s, T, h. inversion Sg; subst. destruct Sf as [[= Hr] _].
    split_and!; [done|done|done|by apply level_over_refl|rewrite len_cons, len_nil; lia].
Qed.

(** ** From the leaves to the first level *)

Abbreviation leaf := (Z * list entry)%type.

Definition leaf_tree (d : leaf) : btree := BLeaf d.1 d.2.

Definition good_entry (e : entry) : Prop := leaf_key_bytes e.2 = key_to_vec e.1 ∧ 0 < len (key_to_vec e.1) ≤ MAX_ENCODED_KEY_LEN.

Lemma sorted_parts (a b : list key) : sorted_keys (a ++ b) → sorted_keys a ∧ sorted_keys b ∧ (∀ x y, x ∈ a → y ∈ b → key_lt x y).
Proof.
  intros H. split_and!.
  - intros i j x y Hij Hx Hy. by apply (H i j); [done|apply lookup_app_l_Some|apply lookup_app_l_Some].
  - rewrite <- (drop_app_length a b). by apply sorted_drop.
  - intros x y Hx Hy. by eapply sorted_across.
Qed.

Lemma leaf_shaped id (es : list entry) lo hi :
  sorted_keys (map fst es) → Forall good_entry es → starts_at lo es → (∀ e, e ∈ es → under hi e.1) → shaped 0 lo hi (BLeaf id es).
Proof.
  intros Hs Hg Hst Hu. split_and!; [done| |done]. apply Forall_forall. intros e He. rewrite Forall_forall in Hg.
  split_and!; [by apply Hg| |by apply Hu]. destruct lo as [b|]; [|done]. cbn in Hst |- *. destruct es as [|e0 es]; [done|].
  cbn in Hst. injection Hst as <-. apply key_le_iff. apply elem_of_cons in He as [->|He]; [by right|left].
  cbn in Hs. apply sorted_tail in Hs as [_ Hs]. apply Hs. apply list_elem_of_fmap. by exists e.
Qed.

Lemma leaves_segments L : ∀ lo, L ≠ [] → sorted_keys (map fst (concat (map snd L))) → Forall good_entry (concat (map snd L)) →
  starts_at lo (concat (map snd L)) → (lo = None ∧ len L = 1 ∨ Forall (λ d, d.2 ≠ []) L) →
  ∃ ss, segments (shaped 0) lo None (map leaf_tree L) ss ∧ map minimum_key (tail (map leaf_info L)) = map snd ss.
Proof.
  induction L as [|[id es] L IH]; intros lo Hne Hs Hg Hst Hf; [done|]. cbn [map concat snd] in *. rewrite map_app in Hs.
  destruct (sorted_parts _ _ Hs) as (Hs1 & Hs2 & Hs3). apply Forall_app in Hg as [Hg1 Hg2]. destruct L as [|[id' es'] L].
  { exists []. split; [|done]. constructor. cbn [map concat] in Hst. rewrite app_nil_r in Hst. by apply leaf_shaped. }
  destruct Hf as [[_ Hf]|Hf]; [rewrite !len_cons in Hf; pose proof (len_nonneg L); lia|]. apply Forall_cons in Hf as [Hf1 Hf]. cbn [snd] in Hf1.
  pose proof Hf as Hf'. apply Forall_cons in Hf' as [Hf2 _]. cbn [snd] in Hf2. destruct es' as [|e' es']; [done|]. destruct es as [|e es]; [done|].
  destruct (IH (Some e'.1)) as (ss & Sg & Hm); [done|done|done|done|by right|].
  exists ((e'.1, key_to_vec e'.1) :: ss). split; [|cbn [map tail snd] in *; by rewrite Hm].
  cbn [map concat snd app] in Hg2, Hs2, Hs3. assert (key_lt e.1 e'.1) as Hlt by (apply Hs3; left). apply Forall_cons in Hg2 as [[_ Hk] _]. constructor.
  - by split.
  - destruct lo as [b|]; [|done]. cbn in Hst |- *. by injection Hst as <-.
  - done.
  - apply leaf_shaped; [done|done|by destruct lo|]. intros x Hx. apply Hs3; [|left]. change (x.1 ∈ fst <$> (e :: es)). apply list_elem_of_fmap. by exists x.
  - done.
Qed.

(** The leaf level is a row of trees. *)
Lemma leaf_row_row s items L ws :
  leaf_row s items L ws → sorted_keys (map fst (concat (map snd L))) → Forall good_entry (concat (map snd L)) → (items = [] → len L = 1) →
  ∃ ss, row 0 s (map leaf_info L) (map leaf_tree L) ss.
Proof.
  intros [So Lk [Hne Hfull] _ _] Hs Hg He. destruct (leaves_segments L None Hne Hs Hg) as (ss & Sg & Hm); [done| |].
  { destruct items; [left; split; [done|by apply He]|right; by apply Hfull]. }
  exists ss. constructor; [done|done| |].
  - split; [|done]. rewrite !map_map. done.
  - clear -Lk. revert Lk. generalize 0 at 1. induction L as [|[id es] L IH]; intros prev; cbn [linked map concat]; [by constructor|].
    intros [Hv Hl]. apply Forall_app. split; [|by eapply IH]. cbn. constructor; [|constructor]. by eexists _, _.
Qed.
End Levels.
