(* ===== verification/BtreeCreate.v ===== *)
(** Storing a map in a new file and reading it back: the builder succeeds, the
    file it prepares is accepted by the verification and holds exactly the
    entries of the map, whatever their number and size. *)

From stdpp Require Import gmap functions.
From S2P Require Import Prelude BtreeFormat BtreeCell BtreePage BtreeSplit BtreeTransaction BtreeUpdate.
From S2P Require Import BtreeQuery BtreeNode BtreeOverlay BtreeMutation BtreeTree BtreeClimb BtreeChain.
From S2P Require Import BtreePlace BtreeStore BtreeExtend BtreeLinks BtreeWal BtreeRecovery BtreeCrash BtreeDurable.
From S2P Require Import BtreeSpec BtreeRead BtreeLookup BtreeCursor BtreeRange BtreeReaders BtreeVerify BtreeBuild BtreeStored BtreeLevels.

Section Create.
Context {CK : Checksum} {KC : KeyCodec} {LZ : Lz4}.
Abbreviation entry := (key * LeafCellRef)%type.
Abbreviation leaf := (Z * list entry)%type.
Abbreviation values := (key → option (list byte)).

(** ** The pages *)

(** What [build_pages] leaves in a sink. *)
Record built (s : PageSink) (items : list (key * list byte)) (T : btree) (h : nat) (ws : list item) : Prop := {
  bt_sink : sink_ok s;
  bt_shaped : shaped h None None T;
  bt_pages : Forall (holds (stored s)) (pages T);
  bt_linked : linked (stored s) 0 (leaves T) 0;
  bt_placed : placed_all (stored s) items (entries T) ws;
  bt_owned : ids T ++ owned_pages ws ≡ₚ seqZ 1 (sink_next s - 1);
}.

Lemma leaves_of_leaf_trees (L : list leaf) : concat (map leaves (map leaf_tree L)) = L.
Proof. induction L as [|[id es] L IH]; [done|]. cbn [map concat leaves leaf_tree fst snd]. by rewrite IH. Qed.

Lemma ids_of_leaf_trees (L : list leaf) : concat (map ids (map leaf_tree L)) = map fst L.
Proof. induction L as [|[id es] L IH]; [done|]. cbn [map concat]. by rewrite IH. Qed.

Lemma placed_keys V items es ws : placed_all V items es ws → map fst es = map fst items.
Proof.
  intros (H1 & H2 & H). apply list_eq_same_length with (n := length items); [by rewrite length_map|by rewrite length_map|].
  intros j k k' Hj Hk Hk'. rewrite list_lookup_fmap in Hk. rewrite list_lookup_fmap in Hk'. apply fmap_Some in Hk as (e & He & ->), Hk' as (i & Hi & ->).
  destruct (lookup_lt_is_Some_2 ws j) as [w Hw]; [lia|]. exact (pd_key _ _ _ _ (H j i e w Hi He Hw)).
Qed.

Lemma placed_good V items es ws :
  placed_all V items es ws → Forall (λ i, op_ok (item_op i)) items → Forall good_entry es.
Proof.
  intros (H1 & H2 & H) Hop. apply Forall_lookup. intros j e He. pose proof (lookup_lt_Some _ _ _ He) as Hj.
  destruct (lookup_lt_is_Some_2 items j) as [i Hi]; [lia|]. destruct (lookup_lt_is_Some_2 ws j) as [w Hw]; [lia|].
  destruct (H j i e w Hi He Hw) as [Hk Hb _ _]. rewrite Forall_lookup in Hop. destruct (Hop _ _ Hi) as [Hl _].
  split; [by rewrite Hb, Hk|]. by rewrite Hk.
Qed.

Context {A : Type} (ser : A → io_result (list byte)).

Lemma build_pages_ok xs items :
  Forall2 (serializes ser) xs items → Forall (λ i, op_ok (item_op i)) items → sorted_keys (map fst items) →
  2 * ops_cost (map item_op items) + 4 < 2 ^ 44 →
  ∃ s T h ws, build_pages ser xs sink_new = Ok (root_id T, s) ∧ built s items T h ws ∧ sink_next s < 2 ^ 44.
Proof.
  intros Hser Hop Hsort Hroom. unfold build_pages. change (sink_allocate sink_new) with (Ok (E := io_error) (0, {| sink_file := []; sink_next := 1 |})).
  rewrite bind_ok. cbn [fst snd Z.eqb negb]. set (s0 := {| sink_file := []; sink_next := 1 |}).
  assert (sink_ok s0) as So0 by (constructor; [done|cbn; by change PAGE_SIZE with 4096]).
  pose proof (ops_cost_nonneg (map item_op items)).
  destruct (build_leaf_level_ok ser s0 xs items So0 eq_refl Hser Hop ltac:(lia)) as (s1 & L & ws & E1 & Lr & Hn1 & Hempty). rewrite E1, bind_ok. cbn [fst snd].
  pose proof Lr as [So1 Lk [HLne HLf] Pl Ow]. rewrite <- (placed_keys _ _ _ _ Pl) in Hsort.
  destruct (leaf_row_row s1 items L ws Lr Hsort (placed_good _ _ _ _ Pl Hop)) as (ss & R).
  { intros Hi. destruct (Hempty Hi) as [id ->]. done. }
  assert (len L ≤ 1 + ops_cost (map item_op items)) as HL.
  { destruct (decide (items = [])) as [->|Hi]; [destruct (Hempty eq_refl) as [id ->]; rewrite len_cons, len_nil; lia|].
    pose proof Pl as (_ & He & _). assert (len L ≤ len (concat (map snd L))) as H1.
    { specialize (HLf Hi). clear -HLf. induction HLf as [|[d es] L Hd _ IH]; [done|]. cbn [map concat snd]. rewrite len_cons, len_app.
      cbn in Hd. destruct es; [done|]. rewrite len_cons. pose proof (len_nonneg es). lia. }
    assert (len items ≤ ops_cost (map item_op items)) as H2.
    { clear. induction items as [|[k raw] items IH]; [done|]. rewrite len_cons. change (ops_cost (map item_op ((k, raw) :: items))) with (len raw + 65 + ops_cost (map item_op items)). pose proof (len_nonneg raw). lia. }
    unfold len in *. lia. }
  assert (len (map leaf_info L) = len L) as Hlm by (unfold len; by rewrite length_map).
  destruct (build_levels_ok (length (map leaf_info L)) 0 s1 _ _ ss R ltac:(lia) ltac:(lia)) as (n & s & T & h & E2 & Hroot & Sh & O & Hn2).
  assert (match xs with [] => Ok (map leaf_info L, s1) | _ :: _ => build_levels (length (map leaf_info L)) (map leaf_info L) s1 end = Ok (E := io_error) ([n], s)) as ->.
  { destruct xs; [|done]. inversion Hser; subst. destruct (Hempty eq_refl) as [id ->]. by rewrite <- E2. }
  rewrite bind_ok. cbn [fst snd head ok_or]. rewrite bind_ok, Hroot. exists s, T, h, ws. split; [done|]. split; [|lia].
  pose proof O as [So _ Hpg Hlv Hid Kept]. cbn [map concat] in Hpg, Hlv, Hid. rewrite app_nil_r in Hpg, Hlv, Hid. rewrite leaves_of_leaf_trees in Hlv. rewrite ids_of_leaf_trees in Hid.
  constructor; [done|done|done| | |].
  - rewrite Hlv. eapply linked_frame; [exact Lk|]. intros i l r es _. apply Kept.
  - unfold entries. rewrite Hlv. eapply placed_all_frame; [exact Pl|]. intros i x _. apply Kept.
  - pose proof (si_next _ So1). pose proof (lo_next _ _ _ _ O). rewrite Hid, <- app_assoc, Ow, Permutation_app_comm.
    replace (sink_next s - 1) with ((sink_next s1 - 1) + (sink_next s - sink_next s1)) by lia. rewrite seqZ_app by lia.
    replace (1 + (sink_next s1 - 1)) with (sink_next s1) by lia. done.
Qed.

(** ** The file *)

(** Every page that was handed out is stored. *)
Lemma chain_stored V head ps bs i : chain V head ps bs → i ∈ ps → ∃ n, V i n.
Proof.
  induction 1 as [|id next payload ps bs Hv _ _ IH]; intros Hi; [set_solver|]. apply elem_of_cons in Hi as [->|Hi]; [eauto|by apply IH].
Qed.

Lemma built_stored s items T h ws i : built s items T h ws → 0 < i < sink_next s → ∃ n, stored s i n.
Proof.
  intros [_ _ Hpg _ (H1 & H2 & Hpl) Ow] Hi. assert (i ∈ ids T ++ owned_pages ws) as Hin by (rewrite Ow; apply elem_of_seqZ; lia).
  apply elem_of_app in Hin as [Hin|Hin].
  - apply list_elem_of_fmap in Hin as ([id sp] & -> & Hin). rewrite Forall_forall in Hpg. specialize (Hpg _ Hin). unfold holds in Hpg. cbn [fst snd] in *.
    destruct sp; [destruct Hpg as (? & ? & Hpg)|]; eexists; exact Hpg.
  - apply list_elem_of_In, in_concat in Hin as (ps & Hps & Hin). apply list_elem_of_In, list_elem_of_fmap in Hps as (w & -> & Hw).
    apply list_elem_of_lookup in Hw as [j Hw]. assert (j < length items)%nat as Hj by (rewrite <- H1; exact (lookup_lt_Some _ _ _ Hw)).
    destruct (lookup_lt_is_Some_2 items j) as [x Hx]; [lia|]. destruct (lookup_lt_is_Some_2 (entries T) j) as [e He]; [lia|].
    destruct (Hpl j x e w Hx He Hw) as [_ _ Hh _]. apply list_elem_of_In in Hin. destruct Hh as [| |comp ll hd ps bs _ _ Hc]; [set_solver|set_solver|].
    by eapply chain_stored.
Qed.

(** The header of a new database. *)
Definition first_header (uuid : list byte) (meta : BPlusTreeMetadata) (root next : Z) : DatabaseHeader :=
  {| root_page_id := root; next_page_id := next; free_page_head := 0; generation := 1; database_id := uuid; metadata := meta |}.

Lemma first_header_ok uuid meta root next :
  len uuid = 16 → all_zero uuid = false → metadata_wf meta → 0 < root < next → next < 2 ^ 45 →
  ∃ hb, database_header_encode (first_header uuid meta root next) = Ok hb ∧ len hb = PAGE_SIZE ∧
    database_header_decode hb = Ok (first_header uuid meta root next).
Proof.
  intros Hu Hz Hm Hr Hn. assert (database_header_wf (first_header uuid meta root next)) as W by (constructor; cbn; unfold fits; (done || lia)).
  assert (validate_database_header (first_header uuid meta root next) = Ok tt) as Vd.
  { unfold validate_database_header. cbn [first_header root_page_id next_page_id free_page_head generation database_id]. rewrite Hz.
    apply skip_guard; [lia|]. done. }
  destruct (database_header_encode_layout _ W Vd) as (hb & E & L). exists hb. split_and!; [done|apply L|by apply database_layout_decode].
Qed.

(** The map of the items. *)
Lemma insert_items_iff items : sorted_keys (map fst items) → ∀ (g : values) k raw,
  (∀ x, x ∈ map fst items → g x = None) →
  insert_items g items k = Some raw ↔ (k, raw) ∈ items ∨ g k = Some raw.
Proof.
  induction items as [|[k0 r0] items IH]; intros Hs g k raw Hg; [set_solver|].
  cbn [map fst] in Hs. destruct (sorted_tail _ _ Hs) as [Hs' Hf].
  change (insert_items g ((k0, r0) :: items) k) with (insert_items (<[k0 := Some r0]> g) items k).
  assert (∀ x, x ∈ map fst items → x ≠ k0) as Hne by (intros x Hx ->; exact (key_lt_irrefl _ (Hf _ Hx))).
  rewrite IH; [|done|intros x Hx; rewrite fn_lookup_insert_ne; [apply Hg; by right|by apply not_eq_sym, Hne]].
  rewrite elem_of_cons. cbn [fst snd]. destruct (decide (k = k0)) as [->|Hk].
  - rewrite fn_lookup_insert. specialize (Hg k0 ltac:(by left)). rewrite Hg. split; [intros [H|[= ->]]; tauto|intros [[[= ->]|H]|H]; [by right|by left|done]].
  - rewrite fn_lookup_insert_ne by done. split; [tauto|]. intros [[[= -> _]|H]|H]; [done|tauto|tauto].
Qed.

Definition map_of (items : list (key * list byte)) : values := insert_items (λ _, None) items.

Lemma map_of_iff items k raw : sorted_keys (map fst items) → map_of items k = Some raw ↔ (k, raw) ∈ items.
Proof. intros Hs. unfold map_of. rewrite insert_items_iff by done. naive_solver. Qed.

Lemma placed_represents V items es ws :
  sorted_keys (map fst items) → placed_all V items es ws → holds_items V es ws ∧ represents (stored_as (map_of items)) es ws.
Proof.
  intros Hs (H1 & H2 & Hpl). split.
  - apply Forall2_same_length_lookup. split; [exact (eq_trans H2 (eq_sym H1))|]. intros j e w He Hw. pose proof (lookup_lt_Some _ _ _ He).
    destruct (lookup_lt_is_Some_2 items j) as [x Hx]; [lia|]. by apply (Hpl j x e w).
  - intros k v. unfold stored_as. rewrite fmap_Some. split.
    + intros (raw & Hr & ->). apply map_of_iff in Hr; [|done]. apply list_elem_of_lookup in Hr as [j Hj]. pose proof (lookup_lt_Some _ _ _ Hj).
      destruct (lookup_lt_is_Some_2 es j) as [e He]; [lia|]. destruct (lookup_lt_is_Some_2 ws j) as [w Hw]; [lia|].
      destruct (Hpl j _ e w Hj He Hw) as [Hk _ _ Hv]. cbn in Hk, Hv. apply list_elem_of_lookup. exists j. unfold contents.
      apply lookup_zip_with_Some. exists e, w. by rewrite Hk, Hv.
    + intros Hin. apply list_elem_of_lookup in Hin as [j Hj]. unfold contents in Hj. apply lookup_zip_with_Some in Hj as (e & w & Ek & He & Hw).
      pose proof (lookup_lt_Some _ _ _ He). destruct (lookup_lt_is_Some_2 items j) as [x Hx]; [lia|].
      destruct (Hpl j x e w Hx He Hw) as [Hk _ _ Hv]. injection Ek as Ek1 Ek2. rewrite Hv in Ek2. injection Ek2 as ->. exists x.2. split; [|done].
      apply map_of_iff; [done|]. rewrite <- Ek1, Hk in *. apply list_elem_of_lookup. exists j. rewrite Hx. by destruct x.
Qed.

(** The pages of the sink with a header in front hold the map. *)
Lemma built_holds s items T h ws uuid meta hb :
  built s items T h ws → sink_next s < 2 ^ 44 → sorted_keys (map fst items) →
  len hb = PAGE_SIZE → database_header_decode hb = Ok (first_header uuid meta (root_id T) (sink_next s)) →
  file_holds (write_bytes (sink_file s) 0 hb) (map_of items).
Proof.
  intros Bt Hb Hs Hl D. pose proof Bt as [So Sh Hpg Lk Pl Ow]. pose proof (si_next _ So) as Hn. pose proof (si_len _ So) as Hfl.
  destruct (root_stored _ _ Hpg) as [Hr0 Hr1].
  set (file := write_bytes (sink_file s) 0 hb). change PAGE_SIZE with 4096 in *.
  assert (len file = sink_next s * 4096) as Hlen.
  { unfold file. rewrite write_len by lia. destruct (built_stored _ _ _ _ _ (sink_next s - 1) Bt ltac:(lia)) as (n & _ & Hs1 & _). change PAGE_SIZE with 4096 in *. lia. }
  assert (slice file 0 PAGE_SIZE = hb) as Hhead by (change PAGE_SIZE with (0 + 4096); rewrite <- Hl; apply write_same; lia).
  pose proof (begin_ok file (first_header uuid meta (root_id T) (sink_next s)) ltac:(by rewrite Hhead) ltac:(done) ltac:(change PAGE_SIZE with 4096; lia)) as Bg.
  eexists. split; [exact Bg|]. match goal with |- tx_holds ?t0 _ _ => set (t := t0) in * end.
  assert (tx_next t = sink_next s) as Htn by done.
  assert (∀ i n, stored s i n → view t file i n) as Hv.
  { intros i n (Hi & Hi2 & St). split; [lia|]. change PAGE_SIZE with 4096 in *. exists (slice file (i * 4096) (i * 4096 + 4096)).
    split; [apply file_page; (done || lia)|]. unfold file. rewrite write_slice by lia. done. }
  destruct (placed_represents _ _ _ _ Hs Pl) as [It Re]. exists T, h, [], ws. split_and!; [constructor|by eapply items_frame; [exact It|intros i n _; apply Hv]|done].
  - done.
  - done.
  - eapply holds_frame; [exact Hpg|]. intros i n _. apply Hv.
  - eapply linked_frame; [exact Lk|]. intros i l r es _. apply Hv.
  - constructor; cbn; [constructor|constructor|set_solver|set_solver|lia|]. intros i [b Hib]. cbn in Hib. by rewrite lookup_empty in Hib.
  - rewrite app_nil_r, Htn. done.
Qed.

(** ** Storing *)

Lemma sorted_nodup ks : sorted_keys ks → NoDup ks.
Proof.
  intros Hs. apply NoDup_alt. intros i j x Hi Hj. destruct (Nat.lt_trichotomy i j) as [H|[H|H]]; [|done|];
    exfalso; [exact (key_lt_irrefl _ (Hs i j x x H Hi Hj))|exact (key_lt_irrefl _ (Hs j i x x H Hj Hi))].
Qed.

(** Sorted lists with the same keys are equal. *)
Lemma sorted_eq (l : list key) : ∀ l', sorted_keys l → sorted_keys l' → l ≡ₚ l' → l = l'.
Proof.
  induction l as [|a l IH]; intros l' Hs Hs' Hp; [by apply Permutation_nil_l in Hp|].
  destruct l' as [|b l']; [by apply Permutation_nil_r in Hp|]. destruct (sorted_tail _ _ Hs) as [Ht Hf], (sorted_tail _ _ Hs') as [Ht' Hf'].
  assert (a = b) as <-.
  { assert (a ∈ b :: l') as Ha by (rewrite <- Hp; left). assert (b ∈ a :: l) as Hb by (rewrite Hp; left).
    apply elem_of_cons in Ha as [->|Ha]; [done|]. apply elem_of_cons in Hb as [->|Hb]; [done|].
    exfalso. apply (key_lt_irrefl a). eapply key_lt_trans; [by apply Hf|by apply Hf']. }
  f_equal. apply IH; [done|done|]. by apply Permutation_cons_inv in Hp.
Qed.

(** The listing of the map of some items has their keys. *)
Lemma listing_items items ks : sorted_keys (map fst items) → listing (map_of items) ks → ks = map fst items.
Proof.
  intros Hs [Hk Hin]. apply sorted_eq; [done|done|]. apply NoDup_Permutation; [by apply sorted_nodup|by apply sorted_nodup|]. intros k. rewrite Hin. split.
  - intros [raw Hr]. apply map_of_iff in Hr; [|done]. apply list_elem_of_fmap. by exists (k, raw).
  - intros Hk'. apply list_elem_of_fmap in Hk' as ([k' raw] & -> & Hin'). exists raw. by apply map_of_iff.
Qed.

Lemma prepare_store_ok uuid meta xs items :
  Forall2 (serializes ser) xs items → Forall (λ i, op_ok (item_op i)) items → sorted_keys (map fst items) →
  2 * ops_cost (map item_op items) + 4 < 2 ^ 44 → len uuid = 16 → all_zero uuid = false → metadata_wf meta → lz4_ratio →
  ∃ file root report q, prepare_store ser uuid meta xs = Ok (file, root, report) ∧ readable file (map_of items) q ∧
    metadata (q_header q) = meta ∧ live_entries report = len items ∧
    tree_pages report + overflow_pages report + free_pages_count report = q_next q - 1.
Proof.
  intros Hser Hop Hs Hroom Hu Hz Hm Ratio. destruct (build_pages_ok xs items Hser Hop Hs Hroom) as (s & T & h & ws & Eb & Bt & Hn).
  destruct (root_stored _ _ (bt_pages _ _ _ _ _ Bt)) as [Hr0 Hr1]. pose proof (si_next _ (bt_sink _ _ _ _ _ Bt)).
  destruct (first_header_ok uuid meta (root_id T) (sink_next s) Hu Hz Hm) as (hb & Eh & Hlh & Dh); [lia|lia|].
  pose proof (built_holds s items T h ws uuid meta hb Bt Hn Hs Hlh Dh) as Fh. set (file := write_bytes (sink_file s) 0 hb) in *.
  pose proof Fh as (t & Bg & _). destruct (begin_inv _ _ Bg) as [oh B]. destruct (opened_sound _ _ _ B) as (q & Eq & Sq).
  assert (q_header q = first_header uuid meta (root_id T) (sink_next s)) as Hq.
  { rewrite (so_header _ _ _ _ Sq). pose proof (bg_header _ _ _ B) as Hd. assert (slice file 0 PAGE_SIZE = hb) as Hh
      by (change PAGE_SIZE with (0 + 4096); change PAGE_SIZE with 4096 in Hlh; rewrite <- Hlh; apply write_same; lia). rewrite Hh in Hd. congruence. }
  assert (readable file (map_of items) q) as R by (constructor; [done|done|done|unfold q_next; rewrite Hq; done]).
  destruct (readable_sound _ _ _ R) as (t' & oh' & T' & h' & F' & ws' & B' & Sk & It & Re & Room & S').
  destruct (verify_yields file t' oh' B' T' h' F' ws' (map_of items) Sk It Re Ratio Room q S') as (q' & Ev & _).
  unfold prepare_store. rewrite Eb, bind_ok. cbn [fst snd]. fold (first_header uuid meta (root_id T) (sink_next s)). rewrite Eh, bind_ok.
  unfold sink_write. change (checked_mul 0 PAGE_SIZE) with (Some 0). cbn [ok_or]. rewrite !bind_ok. cbn [sink_file]. fold file. rewrite Eq, bind_ok, Ev. cbn [fst]. rewrite bind_ok.
  eexists file, _, _, q. split; [done|]. split_and!; [done|by rewrite Hq| |].
  - cbn [live_entries]. pose proof (listing_items items _ Hs (live_listing file t' T' h' F' ws' _ Sk Re)) as Hp.
    rewrite Hp. unfold len. by rewrite length_map.
  - cbn. rewrite (sound_next _ _ _ B' q S'). pose proof (Permutation_length (sk_owned _ _ _ _ _ _ Sk)) as Hl. rewrite !length_app, length_seqZ in Hl.
    pose proof (pool_bound _ _ _ (sk_pool _ _ _ _ _ _ Sk)). unfold len. lia.
Qed.

End Create.

(** ** Loading *)

Section Load.
Context {CK : Checksum} {KC : KeyCodec} {LZ : Lz4} {A : Type}.
Abbreviation values := (key → option (list byte)).

Lemma map_insert_keys (k : key) (v : A) l x : x ∈ map fst (map_insert k v l) ↔ x = k ∨ x ∈ map fst l.
Proof.
  induction l as [|[k' v'] l IH]; cbn [map_insert map fst]; [set_solver|]. destruct (key_cmp k k') eqn:E; cbn [map fst].
  - apply key_cmp_eq in E as ->. set_solver.
  - set_solver.
  - rewrite !elem_of_cons, IH. tauto.
Qed.

Lemma map_insert_sorted (k : key) (v : A) l : sorted_keys (map fst l) → sorted_keys (map fst (map_insert k v l)).
Proof.
  induction l as [|[k' v'] l IH]; cbn [map_insert map fst]; intros Hs; [apply sorted_cons; [set_solver|done]|].
  destruct (sorted_tail _ _ Hs) as [Ht Hf]. destruct (key_cmp k k') eqn:E; cbn [map fst].
  - done.
  - apply sorted_cons; [|done]. intros b Hb. apply elem_of_cons in Hb as [->|Hb]; [done|]. eapply key_lt_trans; [exact E|by apply Hf].
  - apply sorted_cons; [|by apply IH]. intros b Hb. apply map_insert_keys in Hb as [->|Hb]; [|by apply Hf].
    unfold key_lt. rewrite key_cmp_antisym, E. done.
Qed.

Lemma map_insert_last (k : key) (v : A) l : Forall (λ x, key_lt x k) (map fst l) → map_insert k v l = l ++ [(k, v)].
Proof.
  induction l as [|[k' v'] l IH]; cbn [map_insert map fst app]; [done|]. intros H. apply Forall_cons in H as [H1 H].
  rewrite key_cmp_antisym, H1. cbn. by rewrite IH.
Qed.

Section Loading.
Context (base : list byte) (t : WriteTransaction) (oh : DatabaseHeader) (B : begun base t oh).
Context (T : btree) (h : nat) (F : list Z) (ws : list item) (g : values).
Context (Sk : skeleton t base T h F (owned_pages ws)) (It : holds_items (view t base) (entries T) ws).
Context (Re : represents (stored_as g) (entries T) ws) (Ratio : lz4_ratio) (Room : tx_next t < 2 ^ 44).
Context (deser : list byte → io_result A).

(** The entry [x] of memory is the entry of the key [k] of the file. *)
Definition loaded (k : key) (x : key * A) : Prop := x.1 = k ∧ ∃ raw, g k = Some raw ∧ deser raw = Ok x.2.

Lemma load_entries_ok L xs : Forall2 loaded L xs → ∀ fuel s q l,
  stream base t T g s L → sound base t oh q → sorted_keys (map fst l ++ L) → (length L < fuel)%nat →
  load_entries deser fuel (s, q) l = Ok (l ++ xs).
Proof.
  induction 1 as [|k [k' v] L xs [Hk (raw & Hg & Hd)] _ IH]; intros fuel s q l St S Hs Hf; (destruct fuel as [|fuel]; [lia|]); cbn [load_entries];
    destruct (cursor_next_ok base t oh B T h F ws g Sk It Re Ratio Room deser s _ q St S) as (s' & q' & E & St' & S'); rewrite E; cbn [next_of head fmap option_fmap option_map].
  - by rewrite app_nil_r.
  - cbn [fst snd] in *. subst k'. unfold item_of. rewrite Hg. cbn [default from_option id]. rewrite Hd, bind_ok.
    rewrite map_insert_last.
    + rewrite (IH fuel s' q'); [by rewrite <- app_assoc|done|done| |cbn in Hf; lia].
      rewrite map_app, <- app_assoc. exact Hs.
    + apply Forall_forall. intros x Hx. apply (sorted_across _ _ _ _ Hs Hx). by left.
Qed.

Lemma load_tree_ok q xs : sound base t oh q → Forall2 loaded (live_keys T g) xs →
  load deser q = Ok {| tree_entries := xs; tree_metadata := metadata (q_header q); dirty := false |}.
Proof.
  intros S Hx. destruct (live_listing base t T h F ws g Sk Re) as [Hs _]. unfold load.
  assert (from_bound Unbounded (live_keys T g) = live_keys T g) as Hu.
  { apply (filter_split _ []); [constructor|by apply Forall_true]. }
  pose proof (stream_fresh (V := A) base t T g Unbounded) as St. rewrite Hu in St. rewrite (load_entries_ok (live_keys T g) xs Hx _ _ q [] St S); [done|done|].
  pose proof (entries_per_leaf base t T h F ws Sk) as He. assert (length (live_keys T g) ≤ length (entries T))%nat as Hl.
  { unfold live_keys. rewrite <- (length_map fst (entries T)). apply length_filter. }
  rewrite (sound_next _ _ _ B q S). unfold len in He. pose proof (pool_bound _ _ _ (sk_pool _ _ _ _ _ _ Sk)). lia.
Qed.
End Loading.

(** A tree made by insertions. *)
Definition tree_from (kvs : list (key * A)) (meta : BPlusTreeMetadata) : BPlusTree :=
  set_metadata (foldl (λ t kv, tree_insert t kv.1 kv.2) tree_new kvs) meta.

Lemma tree_from_sorted kvs meta : sorted_keys (map fst (tree_entries (tree_from kvs meta))).
Proof.
  unfold tree_from. cbn [set_metadata tree_entries]. assert (sorted_keys (map fst (tree_entries (tree_new (V := A))))) as H by done. revert H.
  generalize (tree_new (V := A)). induction kvs as [|[k v] kvs IH]; intros t Ht; [done|]. cbn [foldl]. apply IH. by apply map_insert_sorted.
Qed.

Lemma serializes_keys (ser : A → io_result (list byte)) xs items : Forall2 (serializes ser) xs items → map fst items = map fst xs.
Proof. induction 1 as [|x i xs items [Hk _] _ IH]; [done|]. cbn. by rewrite Hk, IH. Qed.

Lemma serializes_loaded (ser : A → io_result (list byte)) (deser : list byte → io_result A) xs items :
  (∀ v raw, ser v = Ok raw → deser raw = Ok v) → Forall2 (serializes ser) xs items → sorted_keys (map fst items) →
  Forall2 (loaded (map_of items) deser) (map fst items) xs.
Proof.
  intros Hrt Hser Hs. apply Forall2_same_length_lookup. split; [rewrite length_map; symmetry; by eapply Forall2_length|].
  intros j k x Hk Hx. rewrite list_lookup_fmap in Hk. apply fmap_Some in Hk as (i & Hi & ->).
  pose proof (Forall2_lookup_lr _ _ _ _ _ _ Hser Hx Hi) as [Hk Hv]. split; [done|]. exists i.2. split; [|by apply Hrt].
  apply map_of_iff; [done|]. apply list_elem_of_lookup. exists j. rewrite Hi. by destruct i.
Qed.
End Load.

(** ** Theorems *)

Section Theorems.
Context {CK : Checksum} {KC : KeyCodec} {LZ : Lz4} {A : Type} (ser : A → io_result (list byte)).

(** The entries [items] are those of the tree with their values serialized;
    their keys fit a cell, their values are neither empty nor larger than four
    gigabytes, and together they stay below the limit of the readers. *)
Record storable (t : BPlusTree) (uuid : list byte) (items : list (key * list byte)) : Prop := {
  sb_items : Forall2 (serializes ser) (tree_entries t) items;
  sb_fit : Forall (λ i, op_ok (item_op i)) items;
  sb_room : 2 * ops_cost (map item_op items) + 4 < 2 ^ 44;
  sb_uuid : len uuid = 16 ∧ all_zero uuid = false;
  sb_meta : metadata_wf (tree_metadata t);
  sb_ratio : lz4_ratio;
}.

(** C7: storing a tree writes a file that holds it.  For every tree made by
    insertions, whatever the number of its entries and the sizes of their keys
    and values, the bulk builder succeeds: leaves, chains and as many levels of
    internal pages as are needed.  The verification before publication accepts
    the file and counts the entries, the file holds exactly the map of the
    entries, and its pages are all owned. *)
Theorem store_holds_tree uuid kvs meta items :
  storable (tree_from kvs meta) uuid items →
  ∃ file root report q, store_image ser uuid (tree_from kvs meta) = Ok (file, root, report) ∧ readable file (map_of items) q ∧
    live_entries report = len (tree_entries (tree_from kvs meta)) ∧
    tree_pages report + overflow_pages report + free_pages_count report = q_next q - 1.
Proof.
  intros [Hi Hf Hr [Hu Hz] Hm Ratio]. pose proof (tree_from_sorted kvs meta) as Hs. rewrite <- (serializes_keys _ _ _ Hi) in Hs.
  destruct (prepare_store_ok ser uuid _ _ items Hi Hf Hs Hr Hu Hz Hm Ratio) as (file & root & report & q & E & R & _ & Hl & Hp).
  exists file, root, report, q. split_and!; [done|done| |done]. rewrite Hl. unfold len. by rewrite (Forall2_length _ _ _ Hi).
Qed.

(** C6: a stored tree is loaded back as it was: the same entries in the same
    order and the same metadata, no longer dirty. *)
Theorem store_load_roundtrip (deser : list byte → io_result A) uuid kvs meta items :
  storable (tree_from kvs meta) uuid items → (∀ v raw, ser v = Ok raw → deser raw = Ok v) →
  ∃ file root report q, store_image ser uuid (tree_from kvs meta) = Ok (file, root, report) ∧ from_file_unlocked file = Ok q ∧
    load deser q = Ok {| tree_entries := tree_entries (tree_from kvs meta); tree_metadata := meta; dirty := false |}.
Proof.
  intros [Hi Hf Hr [Hu Hz] Hm Ratio] Hrt. pose proof (tree_from_sorted kvs meta) as Hs. rewrite <- (serializes_keys _ _ _ Hi) in Hs.
  destruct (prepare_store_ok ser uuid _ _ items Hi Hf Hs Hr Hu Hz Hm Ratio) as (file & root & report & q & E & R & Hq & _).
  exists file, root, report, q. split_and!; [done|apply R|]. destruct (readable_sound _ _ _ R) as (t & oh & T & h & F & ws & B & Sk & It & Re & Room & S).
  rewrite (load_tree_ok file t oh B T h F ws (map_of items) Sk It Re Ratio Room deser q (tree_entries (tree_from kvs meta)) S); [by rewrite Hq|].
  rewrite (listing_items items _ Hs (live_listing file t T h F ws _ Sk Re)). by eapply serializes_loaded.
Qed.
End Theorems.

#[local] Existing Instances byte_codec plain_lz4.

(** Ten entries, in no order, that need two leaves, a chain and a root. *)
Definition example_kvs : list (key * list byte) :=
  map (λ b, (b, replicate (if decide (b = Byte.x04) then 600 else 500)%nat b))
    [Byte.x09; Byte.x04; Byte.x07; Byte.x01; Byte.x08; Byte.x02; Byte.x05; Byte.x03; Byte.x0a; Byte.x06].

Definition example_tree : BPlusTree := tree_from example_kvs (TargetIdMapping 7).

Lemma example_storable : storable Ok example_tree (le_bytes 16 42) (tree_entries example_tree).
Proof.
  constructor; [by apply Forall2_same_length_lookup; split; [done|]; intros j x y Hx Hy; rewrite Hx in Hy; injection Hy as <-| |vm_compute; reflexivity|by vm_compute|done|apply plain_ratio].
  repeat (constructor; [split; [vm_compute; done|split; [vm_compute; done|eexists; vm_compute; reflexivity]]|]). constructor.
Qed.

Definition example_report : VerificationReport := {| live_entries := 10; tree_pages := 3; overflow_pages := 1; free_pages_count := 0 |}.

Lemma store_holds_tree_witness :
  (stored ← store_image Ok (le_bytes 16 42) example_tree; Ok stored.2) = Ok example_report ∧
  ∃ file root report q, store_image Ok (le_bytes 16 42) example_tree = Ok (file, root, report) ∧ readable file (map_of (tree_entries example_tree)) q ∧
    live_entries report = len (tree_entries example_tree) ∧
    tree_pages report + overflow_pages report + free_pages_count report = q_next q - 1.
Proof.
  split; [vm_compute; reflexivity|].
  exact (store_holds_tree Ok (le_bytes 16 42) example_kvs (TargetIdMapping 7) (tree_entries example_tree) example_storable).
Defined.

Lemma store_load_roundtrip_witness :
  ∃ file root report q, store_image Ok (le_bytes 16 42) example_tree = Ok (file, root, report) ∧ from_file_unlocked file = Ok q ∧
    load Ok q = Ok {| tree_entries := tree_entries example_tree; tree_metadata := TargetIdMapping 7; dirty := false |}.
Proof.
  apply (store_load_roundtrip Ok Ok (le_bytes 16 42) example_kvs (TargetIdMapping 7) (tree_entries example_tree) example_storable). by intros v raw [= ->].
Defined.
