(* ===== verification/TsClock.v ===== *)
(** MPEG-TS clocks (backend/mpegts/src/transport_stream_buffer.rs): the 33-bit
    90 kHz timestamps and the 27 MHz programme clock, their wire encodings, the
    timestamp profile of a stream and the anchor at which a terminal asset is
    spliced after a live stream.  Bytes are [u8] values as integers. *)

From S2P Require Import Prelude.

Definition MAX_PCR : Z := Z.shiftl 1 33 * 300.
Definition MAX_PTS_DTS : Z := Z.shiftl 1 33.
Definition HLS_TS_SPLICE_MIN_GAP_TICKS_90KHZ : Z := 90.
Definition HLS_TS_PROFILE_MIN_TOLERANCE_TICKS_90KHZ : Z := 2 * 90000.

(** The sums are computed in [u128]. *)
Definition add_pts_dts_offset (timestamp offset_90khz : Z) : Z := (timestamp + offset_90khz) mod MAX_PTS_DTS.

Definition forward_clock_distance_90khz (start end_ : Z) : Z :=
  wrapping_sub64 (wrapping_add64 end_ MAX_PTS_DTS) start mod MAX_PTS_DTS.

Definition pcr_offset_27mhz (offset_90khz : Z) : Z := offset_90khz * 300 mod MAX_PCR.

Definition add_pcr_offset_27mhz (timestamp_27mhz offset_27mhz : Z) : Z :=
  (timestamp_27mhz + offset_27mhz) mod MAX_PCR.

(** [bytes[i]] for an index inside the slice. *)
Definition byte_at (b : list Z) (i : nat) : Z := default 0 (b !! i).

Definition decode_timestamp (ts_bytes : list Z) : Z :=
  Z.lor (Z.lor (Z.lor (Z.lor
    (Z.shiftl (Z.land (Z.shiftr (byte_at ts_bytes 0) 1) 7) 30)
    (Z.shiftl (byte_at ts_bytes 1) 22))
    (Z.shiftl (Z.land (Z.shiftr (byte_at ts_bytes 2) 1) 127) 15))
    (Z.shiftl (byte_at ts_bytes 3) 7))
    (Z.land (Z.shiftr (byte_at ts_bytes 4) 1) 127).

Definition encode_timestamp (ts : Z) : list Z :=
  [ Z.lor (Z.lor 32 (Z.shiftl (Z.land (Z.shiftr ts 30) 7) 1)) 1;
    Z.land (Z.shiftr ts 22) 255;
    Z.lor (Z.shiftl (Z.land (Z.shiftr ts 15) 127) 1) 1;
    Z.land (Z.shiftr ts 7) 255;
    Z.lor (Z.shiftl (Z.land ts 127) 1) 1 ].

Definition decode_pcr (pcr_bytes : list Z) : Z :=
  let pcr_base :=
    Z.lor (Z.lor (Z.lor (Z.lor
      (Z.shiftl (byte_at pcr_bytes 0) 25)
      (Z.shiftl (byte_at pcr_bytes 1) 17))
      (Z.shiftl (byte_at pcr_bytes 2) 9))
      (Z.shiftl (byte_at pcr_bytes 3) 1))
      (Z.shiftr (byte_at pcr_bytes 4) 7) in
  let pcr_ext := Z.lor (Z.shiftl (Z.land (byte_at pcr_bytes 4) 1) 8) (byte_at pcr_bytes 5) in
  pcr_base * 300 + pcr_ext.

Definition encode_pcr (pcr : Z) : list Z :=
  let pcr_base := pcr / 300 in
  let pcr_ext := pcr mod 300 in
  [ Z.land (Z.shiftr pcr_base 25) 255;
    Z.land (Z.shiftr pcr_base 17) 255;
    Z.land (Z.shiftr pcr_base 9) 255;
    Z.land (Z.shiftr pcr_base 1) 255;
    Z.lor (Z.lor (Z.shiftl (Z.land pcr_base 1) 7) 126) (Z.land (Z.shiftr pcr_ext 8) 1);
    Z.land pcr_ext 255 ].

(** ** Timestamp profiles *)

Record HlsTsTimestampProfile := {
  first_clock_90khz : Z;
  last_clock_90khz : Z;
  span_ticks_90khz : Z;
  profile_pts_or_dts : bool;
  profile_pcr : bool;
}.

Definition timestamp_profile_is_coherent (p : HlsTsTimestampProfile) : bool :=
  (profile_pts_or_dts p || profile_pcr p)
  && (first_clock_90khz p <? MAX_PTS_DTS)
  && (last_clock_90khz p <? MAX_PTS_DTS)
  && (span_ticks_90khz p <? MAX_PTS_DTS)
  && (forward_clock_distance_90khz (first_clock_90khz p) (last_clock_90khz p) =? span_ticks_90khz p).

Record HlsTsSpliceAnchor := {
  live_last_clock : Z;
  terminal_first_clock : Z;
  timestamp_delta_ticks : Z;
}.

Definition splice_between (live_tail terminal_asset : HlsTsTimestampProfile) : option HlsTsSpliceAnchor :=
  if negb (timestamp_profile_is_coherent live_tail) || negb (timestamp_profile_is_coherent terminal_asset)
  then None else
  let terminal_first := add_pts_dts_offset (last_clock_90khz live_tail) HLS_TS_SPLICE_MIN_GAP_TICKS_90KHZ in
  let delta := wrapping_sub64 (wrapping_add64 terminal_first MAX_PTS_DTS) (first_clock_90khz terminal_asset)
               mod MAX_PTS_DTS in
  let rebased_first := add_pts_dts_offset (first_clock_90khz terminal_asset) delta in
  if rebased_first =? terminal_first
  then Some {| live_last_clock := last_clock_90khz live_tail; terminal_first_clock := terminal_first;
               timestamp_delta_ticks := delta |}
  else None.

Inductive HlsTsTimestampKind := PtsOrDts | Pcr.

Record HlsTsTimestampProfileAccumulator := {
  reference_clock_90khz : option Z;
  earliest_relative_ticks : Z;
  latest_relative_ticks : Z;
  maximum_span_ticks_90khz : Z;
  observed_pts_or_dts : bool;
  observed_pcr : bool;
  observation_count : Z;
  accumulator_invalid : bool;
}.

Definition accumulator_new (expected_duration_ticks_90khz : Z) : HlsTsTimestampProfileAccumulator :=
  let tolerance := Z.max (expected_duration_ticks_90khz / 2) HLS_TS_PROFILE_MIN_TOLERANCE_TICKS_90KHZ in
  {| reference_clock_90khz := None; earliest_relative_ticks := 0; latest_relative_ticks := 0;
     maximum_span_ticks_90khz := saturating_add expected_duration_ticks_90khz tolerance;
     observed_pts_or_dts := false; observed_pcr := false; observation_count := 0;
     accumulator_invalid := expected_duration_ticks_90khz =? 0 |}.

(** The signed distance of a clock from a reference: at most half a cycle. *)
Definition signed_distance (reference clock : Z) : Z :=
  let forward := wrapping_sub64 (wrapping_add64 clock MAX_PTS_DTS) reference mod MAX_PTS_DTS in
  if forward <=? MAX_PTS_DTS / 2 then forward else - saturating_sub MAX_PTS_DTS forward.

Definition observe_clock (a : HlsTsTimestampProfileAccumulator) (clock : Z) (kind : HlsTsTimestampKind)
    : HlsTsTimestampProfileAccumulator :=
  let clock := clock mod MAX_PTS_DTS in
  let pts := match kind with PtsOrDts => true | Pcr => observed_pts_or_dts a end in
  let pcr := match kind with PtsOrDts => observed_pcr a | Pcr => true end in
  let count := saturating_add (observation_count a) 1 in
  match reference_clock_90khz a with
  | None =>
      {| reference_clock_90khz := Some clock; earliest_relative_ticks := earliest_relative_ticks a;
         latest_relative_ticks := latest_relative_ticks a; maximum_span_ticks_90khz := maximum_span_ticks_90khz a;
         observed_pts_or_dts := pts; observed_pcr := pcr; observation_count := count;
         accumulator_invalid := accumulator_invalid a |}
  | Some reference =>
      let relative := signed_distance reference clock in
      let earliest := Z.min (earliest_relative_ticks a) relative in
      let latest := Z.max (latest_relative_ticks a) relative in
      {| reference_clock_90khz := Some reference; earliest_relative_ticks := earliest;
         latest_relative_ticks := latest; maximum_span_ticks_90khz := maximum_span_ticks_90khz a;
         observed_pts_or_dts := pts; observed_pcr := pcr; observation_count := count;
         accumulator_invalid :=
           if maximum_span_ticks_90khz a <? latest - earliest then true else accumulator_invalid a |}
  end.

Definition accumulator_finish (a : HlsTsTimestampProfileAccumulator) : option HlsTsTimestampProfile :=
  reference ← reference_clock_90khz a;
  if accumulator_invalid a || (observation_count a <? 2) || (negb (observed_pts_or_dts a) && negb (observed_pcr a))
  then None else
  let span := latest_relative_ticks a - earliest_relative_ticks a in
  if span <? 0 then None else
  if span =? 0 then None else
  Some {| first_clock_90khz := (reference + earliest_relative_ticks a) mod MAX_PTS_DTS;
          last_clock_90khz := (reference + latest_relative_ticks a) mod MAX_PTS_DTS;
          span_ticks_90khz := span;
          profile_pts_or_dts := observed_pts_or_dts a; profile_pcr := observed_pcr a |}.

Definition ticks_90khz_to_rounded_millis (ticks : Z) : option Z :=
  t ← checked_add ticks 45; Some (t / 90).

(** ** Bits as arithmetic *)

Ltac Zify.zify_post_hook ::= Z.to_euclidean_division_equations.

Lemma land_disjoint a b n : 0 ≤ n → 0 ≤ b < 2 ^ n → Z.land (a * 2 ^ n) b = 0.
Proof.
  intros Hn Hb. apply Z.bits_inj'. intros i Hi. rewrite Z.land_spec, Z.bits_0.
  destruct (Z.lt_ge_cases i n); [by rewrite Z.mul_pow2_bits_low by lia|].
  rewrite <- (Z.mod_small b (2 ^ n)) by done. rewrite Z.mod_pow2_bits_high by lia. apply andb_false_r.
Qed.

Lemma lor_disjoint a b n : 0 ≤ n → 0 ≤ b < 2 ^ n → Z.lor (a * 2 ^ n) b = a * 2 ^ n + b.
Proof.
  intros Hn Hb. pose proof (land_disjoint a b n Hn Hb) as Hl.
  by rewrite <- Z.lxor_lor, <- Z.add_nocarry_lxor.
Qed.

Lemma lor_low a b n : 0 ≤ n → 0 ≤ b < 2 ^ n → Z.lor b (a * 2 ^ n) = a * 2 ^ n + b.
Proof. intros. rewrite Z.lor_comm. by apply lor_disjoint. Qed.

Lemma land_mask x n : 0 ≤ n → Z.land x (2 ^ n - 1) = x mod 2 ^ n.
Proof. intros. rewrite Z.sub_1_r, <- Z.ones_equiv. by apply Z.land_ones. Qed.

Lemma shl x n : 0 ≤ n → Z.shiftl x n = x * 2 ^ n.
Proof. apply Z.shiftl_mul_pow2. Qed.

Lemma shr x n : 0 ≤ n → Z.shiftr x n = x / 2 ^ n.
Proof. apply Z.shiftr_div_pow2. Qed.

Lemma encode_timestamp_arith ts :
  encode_timestamp ts =
  [ 33 + 2 * (ts / 2 ^ 30 mod 8); ts / 2 ^ 22 mod 256; 2 * (ts / 2 ^ 15 mod 128) + 1; ts / 2 ^ 7 mod 256;
    2 * (ts mod 128) + 1 ].
Proof.
  unfold encode_timestamp. rewrite !shr, !shl by lia.
  rewrite (land_mask _ 3), !(land_mask _ 8), !(land_mask _ 7) by lia.
  change (2 ^ 3) with 8. change (2 ^ 7) with 128. change (2 ^ 8) with 256.
  repeat f_equal; [|rewrite (lor_disjoint _ 1 1) by lia; lia..].
  set (x := ts / 2 ^ 30 mod 8). assert (0 ≤ x < 8) by (apply Z.mod_pos_bound; lia).
  change 32 with (1 * 2 ^ 5) at 1. rewrite (lor_disjoint 1) by (change (2 ^ 5) with 32; lia).
  replace (1 * 2 ^ 5 + x * 2 ^ 1) with ((16 + x) * 2 ^ 1) by lia. rewrite (lor_disjoint _ 1 1) by lia. lia.
Qed.

Lemma decode_timestamp_arith b0 b1 b2 b3 b4 :
  is_u8 b1 → is_u8 b3 →
  decode_timestamp [b0; b1; b2; b3; b4] =
  (b0 / 2 mod 8) * 2 ^ 30 + b1 * 2 ^ 22 + (b2 / 2 mod 128) * 2 ^ 15 + b3 * 2 ^ 7 + b4 / 2 mod 128.
Proof.
  intros [] []. unfold decode_timestamp, byte_at. cbn [lookup list_lookup default from_option id].
  rewrite !shl, !shr, (land_mask _ 3), !(land_mask _ 7) by lia.
  change (2 ^ 3) with 8. change (2 ^ 1) with 2.
  set (A := b0 / 2 mod 8). set (C := b2 / 2 mod 2 ^ 7). set (E := b4 / 2 mod 2 ^ 7).
  assert (0 ≤ C < 128) by (apply Z.mod_pos_bound; lia). assert (0 ≤ E < 128) by (apply Z.mod_pos_bound; lia).
  change (2 ^ 8) with 256 in *.
  rewrite (lor_disjoint A) by lia. replace (A * 2 ^ 30 + b1 * 2 ^ 22) with ((A * 256 + b1) * 2 ^ 22) by lia.
  rewrite lor_disjoint by lia.
  replace ((A * 256 + b1) * 2 ^ 22 + C * 2 ^ 15) with (((A * 256 + b1) * 128 + C) * 2 ^ 15) by lia.
  rewrite lor_disjoint by lia.
  replace (((A * 256 + b1) * 128 + C) * 2 ^ 15 + b3 * 2 ^ 7) with ((((A * 256 + b1) * 128 + C) * 256 + b3) * 2 ^ 7) by lia.
  rewrite lor_disjoint by (change (2 ^ 7) with 128; lia). lia.
Qed.

Lemma encode_pcr_arith pcr :
  encode_pcr pcr =
  let base := pcr / 300 in let ext := pcr mod 300 in
  [ base / 2 ^ 25 mod 256; base / 2 ^ 17 mod 256; base / 2 ^ 9 mod 256; base / 2 mod 256;
    (base mod 2) * 128 + 126 + ext / 256 mod 2; ext mod 256 ].
Proof.
  unfold encode_pcr. cbv zeta. rewrite !shr, !shl by lia. rewrite !(land_mask _ 8), !(land_mask _ 1) by lia.
  change (2 ^ 8) with 256. change (2 ^ 1) with 2. repeat f_equal.
  set (x := pcr / 300 mod 2). set (y := pcr mod 300 / 256 mod 2).
  assert (0 ≤ y < 2) by (apply Z.mod_pos_bound; lia).
  rewrite (lor_disjoint x) by (change (2 ^ 7) with 128; lia).
  replace (x * 2 ^ 7 + 126) with ((x * 64 + 63) * 2 ^ 1) by lia. rewrite lor_disjoint by lia. lia.
Qed.

Lemma decode_pcr_arith b0 b1 b2 b3 b4 b5 :
  is_u8 b1 → is_u8 b2 → is_u8 b3 → is_u8 b4 → is_u8 b5 →
  decode_pcr [b0; b1; b2; b3; b4; b5] =
  (b0 * 2 ^ 25 + b1 * 2 ^ 17 + b2 * 2 ^ 9 + b3 * 2 + b4 / 128) * 300 + (b4 mod 2) * 256 + b5.
Proof.
  intros [] [] [] [] []. unfold decode_pcr, byte_at. cbn [lookup list_lookup default from_option id].
  rewrite !shl, !shr, (land_mask _ 1) by lia. change (2 ^ 1) with 2. change (2 ^ 8) with 256 in * |-.
  change (2 ^ 7) with 128.
  assert (0 ≤ b4 / 128 < 2) by lia. assert (0 ≤ b4 mod 2 < 2) by lia.
  set (x := b4 / 128) in *. set (y := b4 mod 2) in *.
  rewrite (lor_disjoint b0) by lia. replace (b0 * 2 ^ 25 + b1 * 2 ^ 17) with ((b0 * 256 + b1) * 2 ^ 17) by lia.
  rewrite lor_disjoint by lia.
  replace ((b0 * 256 + b1) * 2 ^ 17 + b2 * 2 ^ 9) with (((b0 * 256 + b1) * 256 + b2) * 2 ^ 9) by lia.
  rewrite lor_disjoint by lia.
  replace (((b0 * 256 + b1) * 256 + b2) * 2 ^ 9 + b3 * 2) with ((((b0 * 256 + b1) * 256 + b2) * 256 + b3) * 2 ^ 1) by lia.
  rewrite lor_disjoint by (change (2 ^ 1) with 2; lia).
  rewrite (lor_disjoint y) by (change (2 ^ 8) with 256; lia). lia.
Qed.

(** ** Shifting a timestamp field

    The five bytes that replace a timestamp field when it is shifted: the new
    timestamp under the prefix of the original. *)
Definition shift_timestamp_field (original : list Z) (timestamp_offset : Z) : list Z :=
  let prefix := Z.land (byte_at original 0) 240 in
  let encoded := encode_timestamp (add_pts_dts_offset (decode_timestamp original) timestamp_offset) in
  <[0%nat := Z.lor (Z.land (byte_at encoded 0) 15) prefix]> encoded.

(** A timestamp field on the wire: five bytes with the three marker bits set. *)
Definition timestamp_field (b : list Z) : Prop :=
  ∃ b0 b1 b2 b3 b4, b = [b0; b1; b2; b3; b4] ∧ Forall is_u8 b ∧ b0 mod 2 = 1 ∧ b2 mod 2 = 1 ∧ b4 mod 2 = 1.

Lemma cycle : MAX_PTS_DTS = 8589934592.
Proof. done. Qed.
Lemma pcr_cycle : MAX_PCR = 300 * 8589934592.
Proof. done. Qed.

Lemma forward_clock_distance_mod start end_ :
  0 ≤ start < MAX_PTS_DTS → 0 ≤ end_ < MAX_PTS_DTS →
  forward_clock_distance_90khz start end_ = (end_ - start) mod MAX_PTS_DTS.
Proof.
  rewrite cycle. intros. unfold forward_clock_distance_90khz, wrapping_sub64, wrapping_add64. rewrite cycle.
  change (2 ^ 64) with 18446744073709551616.
  rewrite (Z.mod_small (end_ + 8589934592)), (Z.mod_small (_ - start)) by lia.
  replace (end_ + 8589934592 - start) with (end_ - start + 1 * 8589934592) by lia. apply Z.mod_add. lia.
Qed.

Lemma signed_distance_spec reference clock :
  0 ≤ reference < MAX_PTS_DTS → 0 ≤ clock < MAX_PTS_DTS →
  - (MAX_PTS_DTS / 2) < signed_distance reference clock ≤ MAX_PTS_DTS / 2 ∧
  (reference + signed_distance reference clock) mod MAX_PTS_DTS = clock.
Proof.
  intros Hr Hc. unfold signed_distance. fold (forward_clock_distance_90khz reference clock).
  rewrite forward_clock_distance_mod by done. unfold saturating_sub. rewrite cycle in *.
  change (8589934592 / 2) with 4294967296.
  assert ((clock - reference) mod 8589934592 = clock - reference ∨ (clock - reference) mod 8589934592 = clock - reference + 8589934592) as Hm.
  { destruct (Z.leb_spec reference clock).
    - left. apply Z.mod_small. lia.
    - right. replace (clock - reference) with (clock - reference + 8589934592 + (-1) * 8589934592) by lia.
      rewrite Z.mod_add by lia. rewrite Z.mod_small; lia. }
  pose proof (Z.mod_pos_bound (clock - reference) 8589934592 ltac:(lia)).
  set (f := (clock - reference) mod 8589934592) in *. clearbody f.
  assert (∀ k, reference + k = clock ∨ reference + k = clock + 8589934592 ∨ reference + k = clock - 8589934592 →
            (reference + k) mod 8589934592 = clock) as Hk.
  { intros k [-> | [-> | ->]]; [apply Z.mod_small; lia| |].
    - replace (clock + 8589934592) with (clock + 1 * 8589934592) by lia. rewrite Z.mod_add, Z.mod_small; lia.
    - replace (clock - 8589934592) with (clock + (-1) * 8589934592) by lia. rewrite Z.mod_add, Z.mod_small; lia. }
  destruct (Z.leb_spec f 4294967296); (split; [lia|]); apply Hk; lia.
Qed.

(** ** The accumulator *)

(** Feeding observations in order. *)
Definition observe_all (a : HlsTsTimestampProfileAccumulator) (obs : list (Z * HlsTsTimestampKind))
    : HlsTsTimestampProfileAccumulator := foldl (λ a o, observe_clock a o.1 o.2) a obs.

(** What the accumulator knows after observing [clocks]. *)
Record accumulated (a : HlsTsTimestampProfileAccumulator) (clocks : list Z) : Prop := {
  ac_range : - (MAX_PTS_DTS / 2) < earliest_relative_ticks a ≤ 0 ∧ 0 ≤ latest_relative_ticks a ≤ MAX_PTS_DTS / 2;
  ac_empty : reference_clock_90khz a = None → clocks = [] ∧ earliest_relative_ticks a = 0 ∧ latest_relative_ticks a = 0;
  ac_reference : ∀ r, reference_clock_90khz a = Some r → 0 ≤ r < MAX_PTS_DTS ∧
    Forall (λ c, 0 ≤ c < MAX_PTS_DTS ∧
      earliest_relative_ticks a ≤ signed_distance r c ≤ latest_relative_ticks a) clocks;
  ac_span : accumulator_invalid a = false → 0 ≤ maximum_span_ticks_90khz a →
    latest_relative_ticks a - earliest_relative_ticks a ≤ maximum_span_ticks_90khz a;
}.

Lemma signed_distance_self r : 0 ≤ r < MAX_PTS_DTS → signed_distance r r = 0.
Proof.
  intros Hr. unfold signed_distance. fold (forward_clock_distance_90khz r r).
  rewrite forward_clock_distance_mod, Z.sub_diag by done. by rewrite cycle.
Qed.

Lemma observe_clock_accumulated a clocks c k :
  accumulated a clocks → accumulated (observe_clock a c k) (clocks ++ [c mod MAX_PTS_DTS]).
Proof.
  intros [Hr He Hf Hs]. pose proof (Z.mod_pos_bound c MAX_PTS_DTS ltac:(by rewrite cycle)) as Hc.
  unfold observe_clock. cbv zeta. set (x := c mod MAX_PTS_DTS) in *.
  destruct (reference_clock_90khz a) as [r|].
  - destruct (Hf r eq_refl) as [Hrr Hall]. pose proof (signed_distance_spec r x Hrr Hc) as [Hd _].
    constructor; cbn.
    + lia.
    + done.
    + intros r' [= <-]. split; [done|]. apply Forall_app. split.
      * eapply Forall_impl; [exact Hall|]. cbn. intros y [? ?]. split; [done|lia].
      * constructor; [|constructor]. split; [done|lia].
    + intros Hi Hm. destruct (Z.ltb_spec (maximum_span_ticks_90khz a)
        (Z.max (latest_relative_ticks a) (signed_distance r x) - Z.min (earliest_relative_ticks a) (signed_distance r x))); [done|lia].
  - destruct (He eq_refl) as (-> & E1 & E2). constructor; cbn; try done.
    intros r' [= <-]. split; [done|]. constructor; [|constructor]. rewrite signed_distance_self by done. split; [done|lia].
Qed.

Lemma observe_all_accumulated a clocks obs :
  accumulated a clocks →
  accumulated (observe_all a obs) (clocks ++ map (λ o, o.1 mod MAX_PTS_DTS) obs).
Proof.
  revert a clocks. induction obs as [|[c k] obs IH]; intros a clocks H; [by rewrite app_nil_r|].
  cbn [observe_all foldl map fst snd]. rewrite cons_middle, app_assoc. apply IH. by apply observe_clock_accumulated.
Qed.

Lemma accumulator_new_accumulated d : 0 ≤ d → accumulated (accumulator_new d) [].
Proof.
  intros. constructor; cbn; try done; try lia.
Qed.

Lemma observe_all_maximum a obs : maximum_span_ticks_90khz (observe_all a obs) = maximum_span_ticks_90khz a.
Proof.
  revert a. induction obs as [|[c k] obs IH]; intros a; [done|]. cbn [observe_all foldl fst snd]. unfold observe_all in IH.
  rewrite IH. unfold observe_clock. by destruct (reference_clock_90khz a).
Qed.

Lemma mod_shift_diff r e s :
  e ≤ s < e + MAX_PTS_DTS → ((r + s) mod MAX_PTS_DTS - (r + e) mod MAX_PTS_DTS) mod MAX_PTS_DTS = s - e.
Proof.
  intros H. rewrite <- Zminus_mod. replace (r + s - (r + e)) with (s - e) by lia. apply Z.mod_small. lia.
Qed.

(** ** Theorems *)

(** The five-byte PTS/DTS field is a faithful encoding of 33-bit
    timestamps: [decode_timestamp] inverts [encode_timestamp], whose bytes are
    well-formed field bytes with the prefix 0010 and all marker bits set. *)
Theorem timestamp_roundtrip ts :
  0 ≤ ts < MAX_PTS_DTS →
  decode_timestamp (encode_timestamp ts) = ts ∧ timestamp_field (encode_timestamp ts) ∧
  byte_at (encode_timestamp ts) 0 / 16 = 2.
Proof.
  rewrite cycle. intros H. rewrite encode_timestamp_arith.
  assert (∀ n m, 0 < m → 0 ≤ ts / n mod m < m) as Hb by (intros; by apply Z.mod_pos_bound).
  pose proof (Hb (2 ^ 30) 8 ltac:(lia)). pose proof (Hb (2 ^ 22) 256 ltac:(lia)).
  pose proof (Hb (2 ^ 15) 128 ltac:(lia)). pose proof (Hb (2 ^ 7) 256 ltac:(lia)).
  pose proof (Z.mod_pos_bound ts 128 ltac:(lia)).
  split; [|split].
  - rewrite decode_timestamp_arith by done. lia.
  - do 5 eexists. split; [reflexivity|]. split; [|lia]. unfold fits. repeat (apply Forall_cons; split; [lia|]). constructor.
  - cbn. lia.
Qed.

Lemma pcr_decode_encode pcr :
  0 ≤ pcr < MAX_PCR → decode_pcr (encode_pcr pcr) = pcr ∧ Forall is_u8 (encode_pcr pcr) ∧ length (encode_pcr pcr) = 6%nat.
Proof.
  rewrite pcr_cycle. intros H. rewrite encode_pcr_arith. cbv zeta.
  assert (∃ base ext, pcr / 300 = base ∧ pcr mod 300 = ext ∧ 0 ≤ base < 8589934592 ∧ 0 ≤ ext < 300 ∧ pcr = base * 300 + ext)
    as (base & ext & -> & -> & Hb & He & ->) by (exists (pcr / 300), (pcr mod 300); lia).
  assert (∀ n m, 0 < m → 0 ≤ base / n mod m < m) as Hm by (intros; by apply Z.mod_pos_bound).
  pose proof (Hm (2 ^ 25) 256 ltac:(lia)). pose proof (Hm (2 ^ 17) 256 ltac:(lia)).
  pose proof (Hm (2 ^ 9) 256 ltac:(lia)). pose proof (Hm 2 256 ltac:(lia)).
  pose proof (Z.mod_pos_bound base 2 ltac:(lia)). pose proof (Z.mod_pos_bound (ext / 256) 2 ltac:(lia)).
  pose proof (Z.mod_pos_bound ext 256 ltac:(lia)).
  split; [|split; [|done]].
  - rewrite decode_pcr_arith by (unfold fits; lia).
    replace ((base mod 2 * 128 + 126 + ext / 256 mod 2) / 128) with (base mod 2) by lia.
    replace ((base mod 2 * 128 + 126 + ext / 256 mod 2) mod 2) with (ext / 256 mod 2) by lia. lia.
  - unfold fits. repeat (apply Forall_cons; split; [lia|]). constructor.
Qed.

(** The six-byte programme clock field is a faithful encoding of clock
    values below the clock's cycle. *)
Theorem pcr_roundtrip pcr :
  0 ≤ pcr < MAX_PCR → decode_pcr (encode_pcr pcr) = pcr ∧ Forall is_u8 (encode_pcr pcr) ∧ length (encode_pcr pcr) = 6%nat.
Proof. apply pcr_decode_encode. Qed.

Lemma mask_prefix x : is_u8 x → Z.land x 240 = x / 16 * 16.
Proof.
  intros []. change 240 with (15 * 2 ^ 4). apply Z.bits_inj'. intros i Hi. rewrite Z.land_spec.
  change (x / 16 * 16) with (x / 2 ^ 4 * 2 ^ 4). destruct (Z.lt_ge_cases i 4).
  - by rewrite !Z.mul_pow2_bits_low, andb_false_r by lia.
  - rewrite !Z.mul_pow2_bits by lia. rewrite Z.div_pow2_bits by lia.
    replace (i - 4 + 4) with i by lia. change 15 with (Z.ones 4). rewrite Z.testbit_ones by lia.
    destruct (Z.ltb_spec (i - 4) 4).
    + by replace (0 <=? i - 4) with true by lia; rewrite andb_true_r.
    + rewrite andb_false_r, andb_false_r. symmetry.
      rewrite <- (Z.mod_small x (2 ^ 8)) by lia. apply Z.mod_pow2_bits_high. lia.
Qed.

(** The shifted field in arithmetic form. *)
Lemma shift_timestamp_field_arith b0 b1 b2 b3 b4 o :
  is_u8 b0 →
  let ts := add_pts_dts_offset (decode_timestamp [b0; b1; b2; b3; b4]) o in
  shift_timestamp_field [b0; b1; b2; b3; b4] o =
  [ b0 / 16 * 16 + 2 * (ts / 2 ^ 30 mod 8) + 1; ts / 2 ^ 22 mod 256; 2 * (ts / 2 ^ 15 mod 128) + 1;
    ts / 2 ^ 7 mod 256; 2 * (ts mod 128) + 1 ].
Proof.
  intros H0 ts. unfold shift_timestamp_field. fold ts. rewrite encode_timestamp_arith.
  unfold byte_at. cbn [lookup list_lookup default from_option id insert list_insert].
  rewrite mask_prefix by done. rewrite (land_mask _ 4) by lia. change (2 ^ 4) with 16.
  set (x := ts / 2 ^ 30 mod 8). assert (0 ≤ x < 8) by (apply Z.mod_pos_bound; lia).
  replace ((33 + 2 * x) mod 16) with (2 * x + 1) by lia. change 16 with (2 ^ 4) at 2.
  rewrite lor_low by (change (2 ^ 4) with 16; lia). change (2 ^ 4) with 16. f_equal. lia.
Qed.

Lemma timestamp_decode_range b : timestamp_field b → 0 ≤ decode_timestamp b < MAX_PTS_DTS.
Proof.
  intros (b0 & b1 & b2 & b3 & b4 & -> & Hu & _).
  rewrite !Forall_cons in Hu. destruct Hu as ([] & [] & [] & [] & [] & _).
  rewrite decode_timestamp_arith by done. change (2 ^ 8) with 256 in *. rewrite cycle. lia.
Qed.

Lemma shift_timestamp_field_zero b : timestamp_field b → shift_timestamp_field b 0 = b.
Proof.
  intros Hf. pose proof (timestamp_decode_range b Hf) as Hr.
  destruct Hf as (b0 & b1 & b2 & b3 & b4 & -> & Hu & M0 & M2 & M4).
  rewrite !Forall_cons in Hu. destruct Hu as (U0 & U1 & U2 & U3 & U4 & _).
  rewrite shift_timestamp_field_arith by done. cbv zeta. unfold add_pts_dts_offset.
  rewrite Z.add_0_r, (Z.mod_small _ MAX_PTS_DTS) by done. rewrite decode_timestamp_arith by done.
  destruct U0, U1, U2, U3, U4. change (2 ^ 8) with 256 in *. clear Hr.
  repeat f_equal; lia.
Qed.

Lemma shift_timestamp_field_spec b o :
  timestamp_field b → 0 ≤ o →
  timestamp_field (shift_timestamp_field b o) ∧
  decode_timestamp (shift_timestamp_field b o) = add_pts_dts_offset (decode_timestamp b) o ∧
  byte_at (shift_timestamp_field b o) 0 / 16 = byte_at b 0 / 16 ∧
  shift_timestamp_field b 0 = b.
Proof.
  intros Hf Ho. pose proof (shift_timestamp_field_zero b Hf) as Hzero.
  destruct Hf as (b0 & b1 & b2 & b3 & b4 & -> & Hu & M0 & M2 & M4).
  rewrite !Forall_cons in Hu. destruct Hu as (U0 & U1 & U2 & U3 & U4 & _).
  pose proof (shift_timestamp_field_arith b0 b1 b2 b3 b4 o U0) as E. cbv zeta in E.
  assert (0 ≤ add_pts_dts_offset (decode_timestamp [b0; b1; b2; b3; b4]) o < 8589934592) as Ht
    by (apply Z.mod_pos_bound; done).
  set (ts := add_pts_dts_offset (decode_timestamp [b0; b1; b2; b3; b4]) o) in *.
  destruct U0, U1, U2, U3, U4. change (2 ^ 8) with 256 in *.
  assert (0 ≤ ts / 2 ^ 30 mod 8 < 8) by (apply Z.mod_pos_bound; lia).
  assert (0 ≤ ts / 2 ^ 22 mod 256 < 256) by (apply Z.mod_pos_bound; lia).
  assert (0 ≤ ts / 2 ^ 15 mod 128 < 128) by (apply Z.mod_pos_bound; lia).
  assert (0 ≤ ts / 2 ^ 7 mod 256 < 256) by (apply Z.mod_pos_bound; lia).
  assert (0 ≤ ts mod 128 < 128) by (apply Z.mod_pos_bound; lia).
  rewrite E. split_and!.
  - do 5 eexists. split; [reflexivity|]. split; [|lia]. unfold fits. repeat (apply Forall_cons; split; [lia|]). constructor.
  - rewrite decode_timestamp_arith by (unfold fits; lia). lia.
  - cbn. lia.
  - exact Hzero.
Qed.

(** Shifting a timestamp field on the wire shifts its timestamp modulo
    the 33-bit cycle, keeps the prefix that tells PTS from DTS, keeps the field
    well formed, and by zero leaves every byte as it was. *)
Theorem shift_timestamp_field_correct b o :
  timestamp_field b → 0 ≤ o →
  timestamp_field (shift_timestamp_field b o) ∧
  decode_timestamp (shift_timestamp_field b o) = add_pts_dts_offset (decode_timestamp b) o ∧
  byte_at (shift_timestamp_field b o) 0 / 16 = byte_at b 0 / 16 ∧
  shift_timestamp_field b 0 = b.
Proof. apply shift_timestamp_field_spec. Qed.

(** The two clocks stay in step.  Shifting a programme clock whose base
    is [t] by the 27 MHz image of an offset yields the clock whose base is [t]
    shifted by the offset, with the same extension, and shifts compose. *)
Theorem clock_shifts_in_step t ext o o' :
  0 ≤ t < MAX_PTS_DTS → 0 ≤ ext < 300 → 0 ≤ o → 0 ≤ o' →
  add_pcr_offset_27mhz (t * 300 + ext) (pcr_offset_27mhz o) = add_pts_dts_offset t o * 300 + ext ∧
  add_pts_dts_offset (add_pts_dts_offset t o) o' = add_pts_dts_offset t (o + o') ∧
  add_pcr_offset_27mhz (add_pcr_offset_27mhz (t * 300 + ext) (pcr_offset_27mhz o)) (pcr_offset_27mhz o')
  = add_pcr_offset_27mhz (t * 300 + ext) (pcr_offset_27mhz (o + o')).
Proof.
  intros Ht He Ho Ho'. unfold add_pcr_offset_27mhz, pcr_offset_27mhz, add_pts_dts_offset. split_and!.
  - rewrite Zplus_mod_idemp_r. rewrite pcr_cycle, cycle in *.
    replace (t * 300 + ext + o * 300) with (ext + 300 * (t + o)) by lia.
    pose proof (Z.div_mod (t + o) 8589934592 ltac:(lia)) as Hd.
    pose proof (Z.mod_pos_bound (t + o) 8589934592 ltac:(lia)) as Hm.
    set (q := (t + o) / 8589934592) in *. set (r := (t + o) mod 8589934592) in *. clearbody q r.
    rewrite Hd. replace (ext + 300 * (8589934592 * q + r)) with (ext + 300 * r + q * (300 * 8589934592)) by lia.
    rewrite Z.mod_add, Z.mod_small by lia. lia.
  - rewrite Zplus_mod_idemp_l. by rewrite Z.add_assoc.
  - rewrite !Zplus_mod_idemp_r, Zplus_mod_idemp_l. f_equal. lia.
Qed.

(** Splicing a terminal asset after a live stream.  [splice_between]
    yields an anchor exactly for two coherent profiles; shifting the asset by
    the anchor's delta puts its first clock 90 ticks after the last live clock,
    and every clock of the asset then lies after the live stream by 90 ticks
    plus its distance from the asset's first clock. *)
Theorem splice_between_correct live asset :
  0 ≤ last_clock_90khz live → 0 ≤ first_clock_90khz asset →
  match splice_between live asset with
  | None => timestamp_profile_is_coherent live = false ∨ timestamp_profile_is_coherent asset = false
  | Some a =>
      timestamp_profile_is_coherent live = true ∧ timestamp_profile_is_coherent asset = true ∧
      live_last_clock a = last_clock_90khz live ∧ 0 ≤ timestamp_delta_ticks a < MAX_PTS_DTS ∧
      add_pts_dts_offset (first_clock_90khz asset) (timestamp_delta_ticks a) = terminal_first_clock a ∧
      (∀ t, 0 ≤ t < MAX_PTS_DTS →
         forward_clock_distance_90khz (last_clock_90khz live) (add_pts_dts_offset t (timestamp_delta_ticks a))
         = (90 + forward_clock_distance_90khz (first_clock_90khz asset) t) mod MAX_PTS_DTS)
  end.
Proof.
  intros Hl Hf. unfold splice_between.
  destruct (timestamp_profile_is_coherent live) eqn:Cl; [|by left].
  destruct (timestamp_profile_is_coherent asset) eqn:Ca; [|by right]. cbn [negb orb]. cbv zeta.
  assert (last_clock_90khz live < MAX_PTS_DTS ∧ first_clock_90khz asset < MAX_PTS_DTS) as [Hl' Hf']
    by (unfold timestamp_profile_is_coherent in *; lia).
  set (l := last_clock_90khz live) in *. set (f := first_clock_90khz asset) in *.
  change HLS_TS_SPLICE_MIN_GAP_TICKS_90KHZ with 90.
  assert (0 ≤ add_pts_dts_offset l 90 < MAX_PTS_DTS) as Ht by (by apply Z.mod_pos_bound).
  fold (forward_clock_distance_90khz f (add_pts_dts_offset l 90)).
  rewrite forward_clock_distance_mod by done.
  assert (add_pts_dts_offset f ((add_pts_dts_offset l 90 - f) mod MAX_PTS_DTS) = add_pts_dts_offset l 90) as E.
  { unfold add_pts_dts_offset at 1. rewrite Zplus_mod_idemp_r.
    replace (f + (add_pts_dts_offset l 90 - f)) with (add_pts_dts_offset l 90) by lia. by apply Z.mod_small. }
  rewrite E, Z.eqb_refl. cbn [live_last_clock terminal_first_clock timestamp_delta_ticks].
  split_and!; try done; try (by apply Z.mod_pos_bound).
  intros t Htt. rewrite !forward_clock_distance_mod by (done || by apply Z.mod_pos_bound).
  unfold add_pts_dts_offset. rewrite Zplus_mod_idemp_r, Zplus_mod_idemp_r, Zminus_mod_idemp_l.
  replace (t + ((l + 90) mod MAX_PTS_DTS - f) - l) with ((l + 90) mod MAX_PTS_DTS + (t - f - l)) by lia.
  rewrite Zplus_mod_idemp_l. f_equal. lia.
Qed.

(** A timestamp profile summarises its observations.  Whatever clocks
    were observed, a profile that [accumulator_finish] returns is coherent, its
    span is positive and within the tolerated maximum, and every observed clock
    lies between its first and its last clock, going forward. *)
Theorem accumulator_profile_sound expected obs p :
  0 ≤ expected → accumulator_finish (observe_all (accumulator_new expected) obs) = Some p →
  timestamp_profile_is_coherent p = true ∧
  0 < span_ticks_90khz p ≤ expected + Z.max (expected / 2) HLS_TS_PROFILE_MIN_TOLERANCE_TICKS_90KHZ ∧
  Forall (λ o, forward_clock_distance_90khz (first_clock_90khz p) (o.1 mod MAX_PTS_DTS) ≤ span_ticks_90khz p) obs.
Proof.
  intros He H. pose proof (observe_all_accumulated _ [] obs (accumulator_new_accumulated expected He)) as A.
  cbn [app] in A. pose proof (observe_all_maximum (accumulator_new expected) obs) as Hmax.
  set (a := observe_all (accumulator_new expected) obs) in *. clearbody a. destruct A as [Hr _ Hf Hs].
  unfold accumulator_finish in H. destruct (reference_clock_90khz a) as [r|]; [|done]. cbn [mbind option_bind] in H.
  destruct (Hf r eq_refl) as [Hrr Hall].
  destruct (_ || _) eqn:Hc in H; [done|]. cbv zeta in H.
  destruct (Z.ltb_spec (latest_relative_ticks a - earliest_relative_ticks a) 0); [done|].
  destruct (Z.eqb_spec (latest_relative_ticks a - earliest_relative_ticks a) 0); [done|]. injection H as <-.
  cbn [maximum_span_ticks_90khz accumulator_new] in Hmax.
  change HLS_TS_PROFILE_MIN_TOLERANCE_TICKS_90KHZ with 180000 in *.
  set (tol := Z.max (expected / 2) 180000) in *. unfold saturating_add in Hmax.
  assert (accumulator_invalid a = false ∧ (observed_pts_or_dts a = true ∨ observed_pcr a = true)) as [Hi Ho]
    by (destruct (accumulator_invalid a), (observed_pts_or_dts a), (observed_pcr a); cbn in Hc; rewrite ?orb_true_r in Hc; auto; done).
  specialize (Hs Hi ltac:(rewrite Hmax; lia)). rewrite Hmax in Hs.
  set (e := earliest_relative_ticks a) in *. set (l := latest_relative_ticks a) in *.
  assert (l - e < MAX_PTS_DTS) as Hspan by (rewrite cycle in *; lia).
  assert (∀ x, 0 ≤ (r + x) mod MAX_PTS_DTS < MAX_PTS_DTS) as Hm by (intros; by apply Z.mod_pos_bound).
  cbn [first_clock_90khz last_clock_90khz span_ticks_90khz profile_pts_or_dts profile_pcr]. split_and!.
  - unfold timestamp_profile_is_coherent. cbn. rewrite forward_clock_distance_mod, mod_shift_diff by (done || lia).
    rewrite Z.eqb_refl. rewrite !(proj2 (Z.ltb_lt _ _)) by (try apply Hm; lia). by destruct Ho as [-> | ->]; rewrite ?orb_true_r.
  - lia.
  - lia.
  - clear Hf. rewrite Forall_map in Hall. eapply Forall_impl; [exact Hall|]. cbn. intros [c k] [Hc' Hd]. cbn in *.
    pose proof (signed_distance_spec r _ Hrr Hc') as [_ Hsd].
    rewrite forward_clock_distance_mod by done. rewrite <- Hsd at 1. rewrite mod_shift_diff by lia. lia.
Qed.

(** *** Witnesses *)

Lemma timestamp_roundtrip_witness : decode_timestamp (encode_timestamp 8000000001) = 8000000001.
Proof. refine (proj1 (timestamp_roundtrip 8000000001 _)). split; [discriminate|reflexivity]. Defined.

Lemma pcr_roundtrip_witness : decode_pcr (encode_pcr 2576980377599) = 2576980377599.
Proof. refine (proj1 (pcr_roundtrip 2576980377599 _)). split; [discriminate|reflexivity]. Defined.

Lemma shift_timestamp_field_correct_witness :
  decode_timestamp (shift_timestamp_field [49; 0; 7; 216; 97] 90000) = add_pts_dts_offset (decode_timestamp [49; 0; 7; 216; 97]) 90000.
Proof.
  refine (proj1 (proj2 (shift_timestamp_field_correct [49; 0; 7; 216; 97] 90000 _ _))); [|discriminate].
  exists 49, 0, 7, 216, 97. split; [reflexivity|]. split; [repeat constructor; discriminate|]. repeat split.
Defined.

Lemma clock_shifts_in_step_witness :
  add_pcr_offset_27mhz (8589934591 * 300 + 7) (pcr_offset_27mhz 91) = add_pts_dts_offset 8589934591 91 * 300 + 7.
Proof. refine (proj1 (clock_shifts_in_step 8589934591 7 91 0 _ _ _ _)); split || idtac; discriminate || reflexivity. Defined.

Definition example_live : HlsTsTimestampProfile :=
  {| first_clock_90khz := 8589900000; last_clock_90khz := 8589934590; span_ticks_90khz := 34590;
     profile_pts_or_dts := true; profile_pcr := false |}.
Definition example_asset : HlsTsTimestampProfile :=
  {| first_clock_90khz := 126000; last_clock_90khz := 216000; span_ticks_90khz := 90000;
     profile_pts_or_dts := true; profile_pcr := true |}.

Lemma splice_between_correct_witness :
  match splice_between example_live example_asset with
  | None => False
  | Some a => terminal_first_clock a = 88 ∧ add_pts_dts_offset (first_clock_90khz example_asset) (timestamp_delta_ticks a) = 88
  end.
Proof.
  pose proof (splice_between_correct example_live example_asset ltac:(discriminate) ltac:(discriminate)) as T.
  assert (terminal_first_clock <$> splice_between example_live example_asset = Some 88) as E by (vm_compute; reflexivity).
  destruct (splice_between example_live example_asset) as [a|]; [|discriminate E].
  injection E as E. destruct T as (_ & _ & _ & _ & T & _). rewrite E in T. split; [exact E|exact T].
Defined.

Definition example_observations : list (Z * HlsTsTimestampKind) :=
  [(8589930000, PtsOrDts); (8589933600, PtsOrDts); (2608, PtsOrDts); (8589926400, Pcr)].

Lemma accumulator_profile_sound_witness :
  match accumulator_finish (observe_all (accumulator_new 90000) example_observations) with
  | Some p => timestamp_profile_is_coherent p = true ∧ span_ticks_90khz p = 10800
  | None => False
  end.
Proof.
  destruct (accumulator_finish (observe_all (accumulator_new 90000) example_observations)) as [p|] eqn:E.
  - split; [refine (proj1 (accumulator_profile_sound 90000 example_observations p _ E)); discriminate|].
    vm_compute in E. injection E as <-. reflexivity.
  - vm_compute in E. discriminate E.
Defined.
