(* ===== verification/TsPes.v ===== *)
(** MPEG-TS packets and PES timestamp headers
    (backend/mpegts/src/transport_stream_buffer.rs): inspection of a transport
    packet, reassembly of PES headers that are split across packets, the
    streaming profile scanner, and the layout of a finite asset, which records
    where its timestamps and programme clocks lie. *)

From S2P Require Import Prelude TsClock.
From stdpp Require Import gmap sorting.
#[local] Open Scope Z_scope.

Definition TS_PACKET_SIZE : Z := 188.
Definition SYNC_BYTE : Z := 71.
Definition ADAPTATION_FIELD_FLAG_PCR : Z := 16.
Definition NULL_PID : Z := 8191.
Definition HLS_TS_MAX_PENDING_PES_HEADERS : Z := 64.
Definition HLS_TS_TIMESTAMP_HEADER_BYTES : nat := 19.
Definition PES_PTS_OFFSET : nat := 9.
Definition PES_DTS_OFFSET : nat := 14.

Inductive HlsTsTimestampFieldKind := KindPts | KindDts.

Record HlsTsTimestampFieldLocation := {
  field_pid : Z;
  field_kind : HlsTsTimestampFieldKind;
  byte_offsets : list Z;
}.

Record HlsTsPcrFieldLocation := { pcr_pid : Z; pcr_byte_offset : Z }.

Inductive HlsFiniteTsLayoutError :=
| InvalidAsset
| InvalidTransportPacket
| InvalidTimestampLocation
| UnsupportedPesTimestampHeader (pid : Z)
| InvalidPesTimestampField (pid : Z) (kind : HlsTsTimestampFieldKind)
| PesTimestampHeaderInterrupted (pid : Z)
| PesTimestampContinuityDiscontinuity (pid : Z) (expected : option Z) (actual : Z)
| IncompletePesTimestampHeader (pid : Z)
| TooManyPendingPesTimestampHeaders
| PresentationClockUnavailable
| PresentationCadenceUnavailable (pid : Z)
| PresentationDurationOverflow.

Abbreviation layout_result := (result HlsFiniteTsLayoutError).

(** [bytes], [byte_offsets]: arrays of 19 entries of which [header_len] are set. *)
Record HlsPendingPesHeader := {
  header_pid : Z;
  header_bytes : list Z;
  header_offsets : list Z;
  header_len : nat;
  expected_len : option nat;
  last_payload_continuity_counter : Z;
}.

Definition pending_new (pid continuity_counter : Z) : HlsPendingPesHeader :=
  {| header_pid := pid; header_bytes := replicate HLS_TS_TIMESTAMP_HEADER_BYTES 0;
     header_offsets := replicate HLS_TS_TIMESTAMP_HEADER_BYTES 0; header_len := 0; expected_len := None;
     last_payload_continuity_counter := continuity_counter |}.

Record HlsCompletedTimestampField := { location : HlsTsTimestampFieldLocation; field_bytes : list Z }.

(** The [Some] entries of the array of two fields, in order. *)
Abbreviation HlsCompletedPesTimestamps := (list HlsCompletedTimestampField).

Record HlsTsPacketEvidence := {
  evidence_pid : Z;
  payload_unit_start : bool;
  payload_offset : option Z;
  continuity_counter : Z;
  discontinuity : bool;
  pcr_field : option HlsTsPcrFieldLocation;
}.

Definition ts_packet_pid (packet : list Z) : Z :=
  Z.lor (Z.shiftl (Z.land (byte_at packet 1) 31) 8) (byte_at packet 2).

Definition bit_set (byte mask : Z) : bool := negb (Z.land byte mask =? 0).

(** The payload offset and the adaptation field length. *)
Definition packet_payload (packet : list Z) : layout_result (option Z * option Z) :=
  let adaptation_field_control := Z.land (Z.shiftr (byte_at packet 3) 4) 3 in
  if adaptation_field_control =? 1 then Ok (Some 4, None)
  else if (adaptation_field_control =? 2) && (byte_at packet 4 =? 183) then Ok (None, Some 183)
  else if (adaptation_field_control =? 3) && (byte_at packet 4 <=? 182)
  then Ok (Some (5 + byte_at packet 4), Some (byte_at packet 4))
  else Err InvalidTransportPacket.

Definition inspect_hls_ts_packet (packet : list Z) (packet_start : Z) : layout_result HlsTsPacketEvidence :=
  if negb (len packet =? TS_PACKET_SIZE) || negb (byte_at packet 0 =? SYNC_BYTE)
     || bit_set (byte_at packet 1) 128 || bit_set (byte_at packet 3) 192
  then Err InvalidTransportPacket else
  let pid := ts_packet_pid packet in
  '(offset, adaptation_length) ← packet_payload packet;
  '(disc, pcr) ←
    match adaptation_length with
    | Some n =>
        if 0 <? n then
          let disc := bit_set (byte_at packet 5) 128 in
          if bit_set (byte_at packet 5) ADAPTATION_FIELD_FLAG_PCR then
            if n <? 7 then Err InvalidTransportPacket else
            byte_offset ← ok_or (checked_add packet_start 6) InvalidTransportPacket;
            Ok (disc, Some {| pcr_pid := pid; pcr_byte_offset := byte_offset |})
          else Ok (disc, None)
        else Ok (false, None)
    | None => Ok (false, None)
    end;
  Ok {| evidence_pid := pid; payload_unit_start := bit_set (byte_at packet 1) 64; payload_offset := offset;
        continuity_counter := Z.land (byte_at packet 3) 15; discontinuity := disc; pcr_field := pcr |}.

Definition pes_stream_id_has_optional_header (stream_id : Z) : bool :=
  negb (existsb (Z.eqb stream_id) [188; 190; 191; 240; 241; 255; 242; 248]).

(** The array access of [timestamp_field_from_pending] is inside the 19 entries
    for the two start positions the source uses. *)
Definition timestamp_field_from_pending (pending : HlsPendingPesHeader) (kind : HlsTsTimestampFieldKind)
    (start : nat) (prefix : Z) : layout_result HlsCompletedTimestampField :=
  let error := InvalidPesTimestampField (header_pid pending) kind in
  bytes ← ok_or (get_range (header_bytes pending) (Z.of_nat start) (Z.of_nat start + 5)) error;
  offsets ← ok_or (get_range (header_offsets pending) (Z.of_nat start) (Z.of_nat start + 5)) error;
  if negb (Z.shiftr (byte_at bytes 0) 4 =? prefix) || (Z.land (byte_at bytes 0) 1 =? 0)
     || (Z.land (byte_at bytes 2) 1 =? 0) || (Z.land (byte_at bytes 4) 1 =? 0)
  then Err error else
  Ok {| location := {| field_pid := header_pid pending; field_kind := kind; byte_offsets := offsets |};
        field_bytes := bytes |}.

Definition pts_dts_flags (pending : HlsPendingPesHeader) : Z :=
  Z.land (Z.shiftr (byte_at (header_bytes pending) 7) 6) 3.

Definition complete_pes_timestamps (pending : HlsPendingPesHeader) : layout_result HlsCompletedPesTimestamps :=
  if pts_dts_flags pending =? 0 then Ok []
  else if pts_dts_flags pending =? 2 then
    pts ← timestamp_field_from_pending pending KindPts PES_PTS_OFFSET 2;
    Ok [pts]
  else if pts_dts_flags pending =? 3 then
    pts ← timestamp_field_from_pending pending KindPts PES_PTS_OFFSET 3;
    dts ← timestamp_field_from_pending pending KindDts PES_DTS_OFFSET 1;
    Ok [pts; dts]
  else Err (UnsupportedPesTimestampHeader (header_pid pending)).

Definition header_complete (pending : HlsPendingPesHeader) : bool :=
  match expected_len pending with Some expected => (expected <=? header_len pending)%nat | None => false end.

Definition store_byte (pending : HlsPendingPesHeader) (byte offset : Z) : HlsPendingPesHeader :=
  {| header_pid := header_pid pending; header_bytes := <[header_len pending := byte]> (header_bytes pending);
     header_offsets := <[header_len pending := offset]> (header_offsets pending);
     header_len := S (header_len pending); expected_len := expected_len pending;
     last_payload_continuity_counter := last_payload_continuity_counter pending |}.

Definition expecting (pending : HlsPendingPesHeader) (e : nat) : HlsPendingPesHeader :=
  {| header_pid := header_pid pending; header_bytes := header_bytes pending; header_offsets := header_offsets pending;
     header_len := header_len pending; expected_len := Some e;
     last_payload_continuity_counter := last_payload_continuity_counter pending |}.

(** Storing one byte and updating the expected length; the three lengths at
    which the header is looked at are distinct. *)
Definition append_byte (pending : HlsPendingPesHeader) (byte offset : Z) : layout_result HlsPendingPesHeader :=
  let stored := store_byte pending byte offset in
  let n := header_len stored in
  let bytes := header_bytes stored in
  let unsupported := UnsupportedPesTimestampHeader (header_pid pending) in
  if (n =? 4)%nat && negb (pes_stream_id_has_optional_header (byte_at bytes 3)) then Ok (expecting stored 4)
  else if (n =? 7)%nat && negb (Z.land (byte_at bytes 6) 192 =? 128) then Err unsupported
  else if (n =? PES_PTS_OFFSET)%nat then
    let header_data_length := byte_at bytes 8 in
    if pts_dts_flags stored =? 0 then Ok (expecting stored PES_PTS_OFFSET)
    else if (pts_dts_flags stored =? 2) && (5 <=? header_data_length) then Ok (expecting stored (PES_PTS_OFFSET + 5))
    else if (pts_dts_flags stored =? 3) && (10 <=? header_data_length) then Ok (expecting stored (PES_DTS_OFFSET + 5))
    else Err unsupported
  else Ok stored.

(** The byte loop of [append_pending_pes_header]; [payload] starts at
    [payload_index] of the packet's payload. *)
Fixpoint append_bytes (pending : HlsPendingPesHeader) (payload : list Z) (payload_start payload_index : Z)
    : layout_result HlsPendingPesHeader :=
  match payload with
  | [] => Ok pending
  | byte :: payload =>
      if header_complete pending then Ok pending else
      if (HLS_TS_TIMESTAMP_HEADER_BYTES <=? header_len pending)%nat
      then Err (UnsupportedPesTimestampHeader (header_pid pending)) else
      offset ← ok_or (checked_add payload_start payload_index) InvalidTransportPacket;
      pending ← append_byte pending byte offset;
      append_bytes pending payload payload_start (payload_index + 1)
  end.

Definition append_pending_pes_header (pending : HlsPendingPesHeader) (payload : list Z) (payload_start : Z)
    : layout_result (HlsPendingPesHeader * option HlsCompletedPesTimestamps) :=
  pending ← append_bytes pending payload payload_start 0;
  if header_complete pending
  then completed ← complete_pes_timestamps pending; Ok (pending, Some completed)
  else Ok (pending, None).

(** ** The assembler: pending headers by PID *)

Abbreviation HlsPesHeaderAssembler := (gmap Z HlsPendingPesHeader).

Definition set_counter (pending : HlsPendingPesHeader) (counter : Z) : HlsPendingPesHeader :=
  {| header_pid := header_pid pending; header_bytes := header_bytes pending; header_offsets := header_offsets pending;
     header_len := header_len pending; expected_len := expected_len pending; last_payload_continuity_counter := counter |}.

Definition starts_with_pes_code (payload : list Z) : bool :=
  match payload with 0 :: 0 :: 1 :: _ => true | _ => false end.

Definition push_packet (assembler : HlsPesHeaderAssembler) (packet : list Z) (packet_start : Z)
    (evidence : HlsTsPacketEvidence) : layout_result (HlsPesHeaderAssembler * HlsCompletedPesTimestamps) :=
  let pid := evidence_pid evidence in
  if payload_unit_start evidence && bool_decide (is_Some (assembler !! pid))
  then Err (PesTimestampHeaderInterrupted pid) else
  if discontinuity evidence && bool_decide (is_Some (assembler !! pid))
  then Err (PesTimestampContinuityDiscontinuity pid None (continuity_counter evidence)) else
  match payload_offset evidence with
  | None => Ok (assembler, [])
  | Some offset =>
      payload ← ok_or (get_range packet offset (len packet)) InvalidTransportPacket;
      payload_start ← ok_or (checked_add packet_start offset) InvalidTransportPacket;
      match assembler !! pid with
      | Some pending =>
          let assembler := delete pid assembler in
          let expected := Z.land ((last_payload_continuity_counter pending + 1) mod 256) 15 in
          if negb (continuity_counter evidence =? expected)
          then Err (PesTimestampContinuityDiscontinuity pid (Some expected) (continuity_counter evidence)) else
          '(pending, completed) ←
            append_pending_pes_header (set_counter pending (continuity_counter evidence)) payload payload_start;
          match completed with
          | Some completed => Ok (assembler, completed)
          | None => Ok (<[pid := pending]> assembler, [])
          end
      | None =>
          if negb (payload_unit_start evidence) || (len payload <? 3) || negb (starts_with_pes_code payload)
          then Ok (assembler, []) else
          if HLS_TS_MAX_PENDING_PES_HEADERS <=? Z.of_nat (size assembler)
          then Err TooManyPendingPesTimestampHeaders else
          '(pending, completed) ←
            append_pending_pes_header (pending_new pid (continuity_counter evidence)) payload payload_start;
          match completed with
          | Some completed => Ok (assembler, completed)
          | None => Ok (<[pid := pending]> assembler, [])
          end
      end
  end.

(** The least of a list of keys. *)
Definition minimum (l : list Z) : option Z :=
  match l with [] => None | x :: l => Some (foldl Z.min x l) end.

Definition assembler_finish (assembler : HlsPesHeaderAssembler) : layout_result unit :=
  match minimum (map fst (map_to_list assembler)) with
  | Some pid => Err (IncompletePesTimestampHeader pid)
  | None => Ok tt
  end.

(** ** The streaming profile scanner *)

Record HlsTsTimestampProfileScanner := {
  scanner_assembler : HlsPesHeaderAssembler;
  scanner_accumulator : HlsTsTimestampProfileAccumulator;
  next_packet_start : Z;
  scanner_invalid : bool;
}.

Definition scanner_new (expected_duration_ticks_90khz : Z) : HlsTsTimestampProfileScanner :=
  {| scanner_assembler := ∅; scanner_accumulator := accumulator_new expected_duration_ticks_90khz;
     next_packet_start := 0; scanner_invalid := false |}.

Definition scanner_fail (assembler : HlsPesHeaderAssembler) (accumulator : HlsTsTimestampProfileAccumulator)
    (next : Z) : HlsTsTimestampProfileScanner :=
  {| scanner_assembler := assembler; scanner_accumulator := accumulator; next_packet_start := next;
     scanner_invalid := true |}.

(** The clocks of a packet: its programme clock, then the timestamps it completes. *)
Definition packet_clock (packet : list Z) (packet_start : Z) (evidence : HlsTsPacketEvidence)
    : option (list (Z * HlsTsTimestampKind)) :=
  match pcr_field evidence with
  | None => Some []
  | Some pcr =>
      relative_offset ← checked_sub (pcr_byte_offset pcr) packet_start;
      bytes ← get_range packet relative_offset (saturating_add relative_offset 6);
      Some [(decode_pcr bytes / 300, Pcr)]
  end.

Definition completed_clocks (completed : HlsCompletedPesTimestamps) : list (Z * HlsTsTimestampKind) :=
  map (λ field, (decode_timestamp (field_bytes field), PtsOrDts)) completed.

Definition observe_clocks (a : HlsTsTimestampProfileAccumulator) (clocks : list (Z * HlsTsTimestampKind))
    : HlsTsTimestampProfileAccumulator := foldl (λ a o, observe_clock a o.1 o.2) a clocks.

(** When [push_packet] fails the source's assembler may have lost the header
    it was extending; an invalid scanner never reads its assembler. *)
Definition push_aligned_packet (s : HlsTsTimestampProfileScanner) (packet : list Z) : HlsTsTimestampProfileScanner :=
  if scanner_invalid s then s else
  let packet_start := next_packet_start s in
  match checked_add packet_start TS_PACKET_SIZE with
  | None => scanner_fail (scanner_assembler s) (scanner_accumulator s) packet_start
  | Some next =>
      match inspect_hls_ts_packet packet packet_start with
      | Err _ => scanner_fail (scanner_assembler s) (scanner_accumulator s) next
      | Ok evidence =>
          match packet_clock packet packet_start evidence with
          | None => scanner_fail (scanner_assembler s) (scanner_accumulator s) next
          | Some clocks =>
              let accumulator := observe_clocks (scanner_accumulator s) clocks in
              match push_packet (scanner_assembler s) packet packet_start evidence with
              | Err _ => scanner_fail (scanner_assembler s) accumulator next
              | Ok (assembler, completed) =>
                  {| scanner_assembler := assembler;
                     scanner_accumulator := observe_clocks accumulator (completed_clocks completed);
                     next_packet_start := next; scanner_invalid := false |}
              end
          end
      end
  end.

Definition scanner_finish (s : HlsTsTimestampProfileScanner) : option HlsTsTimestampProfile :=
  if scanner_invalid s || negb (is_ok (assembler_finish (scanner_assembler s))) then None
  else accumulator_finish (scanner_accumulator s).

(** ** Lemmas: packets *)

Lemma byte_at_u8 b i : Forall is_u8 b → is_u8 (byte_at b i).
Proof.
  intros H. unfold byte_at. destruct (b !! i) as [x|] eqn:E; cbn.
  - by eapply Forall_lookup_1.
  - unfold fits. lia.
Qed.

(** What the inspection of a packet establishes. *)
Record inspected (packet : list Z) (packet_start : Z) (e : HlsTsPacketEvidence) : Prop := {
  in_len : len packet = TS_PACKET_SIZE;
  in_pid : evidence_pid e = ts_packet_pid packet;
  in_sync : byte_at packet 0 = SYNC_BYTE;
  in_payload : ∀ po, payload_offset e = Some po → 4 ≤ po ≤ 187;
  in_adaptation : Z.land (Z.shiftr (byte_at packet 3) 4) 3 = 1 ∨ (∀ po, payload_offset e = Some po → 5 ≤ po);
  in_pcr : ∀ f, pcr_field e = Some f →
    pcr_pid f = evidence_pid e ∧ pcr_byte_offset f = packet_start + 6 ∧
    ∀ po, payload_offset e = Some po → 12 ≤ po;
}.

Lemma inspect_ok packet packet_start e :
  Forall is_u8 packet → inspect_hls_ts_packet packet packet_start = Ok e → inspected packet packet_start e.
Proof.
  intros Hu H. pose proof (byte_at_u8 packet 4 Hu) as [? _]. unfold inspect_hls_ts_packet in H. bind_inv.
  assert (len packet = TS_PACKET_SIZE ∧ byte_at packet 0 = SYNC_BYTE) as [? ?] by (bool_to_prop; tauto).
  destruct x as [off al]. bind_inv. destruct x as [disc pcr]. bind_inv.
  unfold packet_payload in *.
  repeat (case_match; bind_inv; simplify_eq; try done);
  constructor; cbn [evidence_pid payload_offset pcr_field]; try (by left; apply Z.eqb_eq); try (right; intros);
  intros; simplify_eq; try done; try lia;
  repeat match goal with H : checked_add _ _ = Some _ |- _ => apply checked_add_inv in H as [-> ?] end;
  split_and!; intros; simplify_eq; try done; lia.
Qed.

Lemma Forall_lt_weaken (l : list Z) a b : a ≤ b → Forall (λ y, y < a) l → Forall (λ y, y < b) l.
Proof. intros ? H. eapply Forall_impl; [exact H|]. cbn. lia. Qed.

Lemma sorted_slice (l : list Z) lo hi : StronglySorted Z.lt l → StronglySorted Z.lt (slice l lo hi).
Proof.
  intros H. pose proof (slice_sublist l lo hi) as Hs. revert H.
  induction Hs as [|x l k Hs IH|x l k Hs IH]; intros H; [done|..]; apply StronglySorted_inv in H as [H Hx].
  - constructor; [by apply IH|]. rewrite Forall_forall in *. intros y Hy. apply Hx.
    by eapply elem_of_sublist.
  - by apply IH.
Qed.

(** ** Lemmas: a header being collected

    [P b o] says that byte [b] may stand at offset [o]; [os] are the offsets
    of the bytes collected so far. *)
Section Pending.
Context (P : Z → Z → Prop).

Definition expectation (p : HlsPendingPesHeader) : Prop :=
  match expected_len p with
  | None => (header_len p < 9)%nat
  | Some e =>
      (e = 4 ∧ header_len p = 4)%nat ∨
      (9 ≤ header_len p ≤ e)%nat ∧
        (pts_dts_flags p = 0 ∧ e = 9%nat ∨ pts_dts_flags p = 2 ∧ e = 14%nat ∨ pts_dts_flags p = 3 ∧ e = 19%nat)
  end.

Record collecting (p : HlsPendingPesHeader) (bs os : list Z) : Prop := {
  co_len : length bs = header_len p ∧ length os = header_len p ∧ (header_len p ≤ 19)%nat;
  co_bytes : header_bytes p = bs ++ replicate (19 - header_len p) 0;
  co_offsets : header_offsets p = os ++ replicate (19 - header_len p) 0;
  co_at : Forall2 P bs os;
  co_sorted : StronglySorted Z.lt os;
  co_expected : expectation p;
}.

Lemma insert_end {A} (l : list A) n m x y :
  length l = n → (0 < m)%nat → <[n := x]> (l ++ replicate m y) = (l ++ [x]) ++ replicate (m - 1) y.
Proof.
  intros <- Hm. destruct m as [|m]; [lia|]. cbn [replicate]. rewrite insert_app_r_alt by lia.
  rewrite Nat.sub_diag. cbn. by rewrite Nat.sub_0_r, <- app_assoc.
Qed.

Lemma sorted_snoc l x : StronglySorted Z.lt l → Forall (λ y, y < x) l → StronglySorted Z.lt (l ++ [x]).
Proof.
  induction 1 as [|y l Hs IH Hy]; intros Hx; [repeat constructor|].
  apply Forall_cons in Hx as [? ?]. cbn. constructor; [by apply IH|]. apply Forall_app; auto.
Qed.

Lemma append_byte_collecting p bs os b o p' :
  collecting p bs os → header_complete p = false → P b o → Forall (λ y, y < o) os →
  append_byte p b o = Ok p' →
  collecting p' (bs ++ [b]) (os ++ [o]) ∧ header_pid p' = header_pid p ∧ header_len p' = S (header_len p).
Proof.
  intros [(Hb & Ho & Hn) Eb Eo Hat Hs He] Hc HP Hlt H.
  assert (header_len p < 19)%nat as Hn'.
  { unfold header_complete, expectation in *. destruct (expected_len p); [|lia].
    apply Nat.leb_gt in Hc. destruct He as [[-> ?] | [? [[? ->] | [[? ->] | [? ->]]]]]; lia. }
  unfold append_byte, expecting, store_byte in H. cbv zeta in H.
  assert (Hcol : ∀ e, expectation {| header_pid := header_pid p;
      header_bytes := <[header_len p := b]> (header_bytes p);
      header_offsets := <[header_len p := o]> (header_offsets p); header_len := S (header_len p);
      expected_len := e; last_payload_continuity_counter := last_payload_continuity_counter p |} →
    collecting {| header_pid := header_pid p;
      header_bytes := <[header_len p := b]> (header_bytes p);
      header_offsets := <[header_len p := o]> (header_offsets p); header_len := S (header_len p);
      expected_len := e; last_payload_continuity_counter := last_payload_continuity_counter p |}
      (bs ++ [b]) (os ++ [o])).
  { intros e Hexp. constructor; cbn; try done.
    - rewrite !length_app. cbn. lia.
    - rewrite Eb. rewrite insert_end by lia. f_equal. f_equal. lia.
    - rewrite Eo. rewrite insert_end by lia. f_equal. f_equal. lia.
    - apply Forall2_app; [done|]. apply Forall2_cons; auto using Forall2_nil.
    - by apply sorted_snoc. }
  cbn [header_pid header_bytes header_offsets header_len expected_len last_payload_continuity_counter] in H.
  unfold PES_PTS_OFFSET, PES_DTS_OFFSET in H.
  assert (Hflags : (8 ≤ header_len p)%nat → byte_at (<[header_len p := b]> (header_bytes p)) 7 = byte_at (header_bytes p) 7).
  { intros. unfold byte_at. by rewrite list_lookup_insert_ne by lia. }
  unfold expectation, header_complete, pts_dts_flags in *. cbn [header_bytes header_len expected_len] in *.
  destruct (Nat.eqb_spec (S (header_len p)) 4), (Nat.eqb_spec (S (header_len p)) 7),
    (Nat.eqb_spec (S (header_len p)) 9); try lia; cbn [andb] in H;
    repeat (case_match; bind_inv); try (injection H as <-); (split; [apply Hcol | done]);
    bool_to_prop; repeat match goal with H : (_ <=? _)%nat = false |- _ => apply Nat.leb_gt in H end;
    simplify_eq; first [lia | rewrite Hflags by lia; lia | intuition lia].
Qed.

(** The bytes of [payload] may stand from offset [o] on. *)
Definition placed (payload : list Z) (o : Z) : Prop :=
  ∀ (i : nat) b, payload !! i = Some b → P b (o + Z.of_nat i).

Lemma placed_cons b payload o : placed (b :: payload) o → P b o ∧ placed payload (o + 1).
Proof.
  intros H. split.
  - specialize (H 0%nat b eq_refl). by rewrite Z.add_0_r in H.
  - intros i c Hi. specialize (H (S i) c Hi). by replace (o + 1 + Z.of_nat i) with (o + Z.of_nat (S i)) by lia.
Qed.

Lemma append_bytes_collecting payload start : ∀ p bs os i p',
  collecting p bs os → placed payload (start + i) → Forall (λ y, y < start + i) os →
  append_bytes p payload start i = Ok p' →
  ∃ bs' os', collecting p' (bs ++ bs') (os ++ os') ∧ header_pid p' = header_pid p ∧
    Forall (λ y, start + i ≤ y < start + i + len payload) os'.
Proof.
  induction payload as [|b payload IH]; intros p bs os i p' Hc HP Hlt H; cbn [append_bytes] in H.
  { bind_inv. exists [], []. rewrite !app_nil_r. auto. }
  apply placed_cons in HP as [Hb HP]. destruct (header_complete p) eqn:Hcomp.
  { bind_inv. exists [], []. rewrite !app_nil_r. auto. }
  bind_inv. match goal with H : checked_add _ _ = Some _ |- _ => apply checked_add_inv in H as [-> _] end.
  match goal with H : append_byte _ _ _ = Ok ?q |- _ =>
    eapply append_byte_collecting in H as (Hc' & Hpid & _); [|done..]; specialize (IH q) end.
  edestruct IH as (bs' & os' & Hc'' & Hpid' & Hos); [exact Hc'| | |exact H|].
  - by rewrite Z.add_assoc.
  - apply Forall_app. split; [|repeat constructor; lia]. by apply (Forall_lt_weaken _ (start + i)); [lia|].
  - exists (b :: bs'), ((start + i) :: os'). rewrite <- !app_assoc in Hc''. split; [done|]. split; [congruence|].
    rewrite len_cons. pose proof (len_nonneg payload). constructor; [lia|].
    eapply Forall_impl; [exact Hos|]. cbn. lia.
Qed.

(** *** Completed fields *)

Definition prefix_of_kind (kind : HlsTsTimestampFieldKind) (prefix : Z) : Prop :=
  match kind with KindPts => prefix = 2 ∨ prefix = 3 | KindDts => prefix = 1 end.

Record field_sound (f : HlsCompletedTimestampField) : Prop := {
  fs_length : length (byte_offsets (location f)) = 5%nat;
  fs_at : Forall2 P (field_bytes f) (byte_offsets (location f));
  fs_field : timestamp_field (field_bytes f);
  fs_prefix : prefix_of_kind (field_kind (location f)) (byte_at (field_bytes f) 0 / 16);
  fs_sorted : StronglySorted Z.lt (byte_offsets (location f));
}.

Definition offsets_of (fields : HlsCompletedPesTimestamps) : list Z :=
  mjoin (map (λ f, byte_offsets (location f)) fields).

Lemma slice_prefix (l : list Z) m lo hi x : 0 ≤ lo → hi ≤ len l → slice (l ++ replicate m x) lo hi = slice l lo hi.
Proof. apply slice_app_l. Qed.

Lemma odd_bit x : is_u8 x → negb (Z.land x 1 =? 0) = true → x mod 2 = 1.
Proof. 
  intros _. pose proof (land_mask x 1 ltac:(lia)) as E. change (2 ^ 1 - 1) with 1 in E. rewrite E.
  change (2 ^ 1) with 2. blia.
Qed.

Lemma timestamp_field_of_bytes bs prefix :
  len bs = 5 → Forall is_u8 bs →
  negb (Z.shiftr (byte_at bs 0) 4 =? prefix) || (Z.land (byte_at bs 0) 1 =? 0)
     || (Z.land (byte_at bs 2) 1 =? 0) || (Z.land (byte_at bs 4) 1 =? 0) = false →
  timestamp_field bs ∧ byte_at bs 0 / 16 = prefix.
Proof.
  intros Hl Hu Hc. do 6 (destruct bs as [|? bs]; try (unfold len in Hl; cbn in Hl; lia)).
  rewrite !orb_false_iff, negb_false_iff in Hc. destruct Hc as [[[H0 H1] H2] H3].
  pose proof Hu as Hu'. rewrite !Forall_cons in Hu'. destruct Hu' as (? & ? & ? & ? & ? & _).
  unfold byte_at in *. cbn in *. split.
  - do 5 eexists. split; [reflexivity|]. split; [done|]. split_and!; apply odd_bit; by rewrite ?H1, ?H2, ?H3.
  - rewrite shr in H0 by lia. change (2 ^ 4) with 16 in H0. lia.
Qed.

Lemma timestamp_field_from_pending_sound p bs os kind (start : nat) prefix f :
  collecting p bs os → Forall is_u8 bs → (start + 5 ≤ header_len p)%nat → prefix_of_kind kind prefix →
  timestamp_field_from_pending p kind start prefix = Ok f →
  field_sound f ∧ field_pid (location f) = header_pid p ∧
  byte_offsets (location f) = slice os (Z.of_nat start) (Z.of_nat start + 5).
Proof.
  intros [(Hb & Ho & Hn) Eb Eo Hat Hs He] Hu Hst Hk H. unfold timestamp_field_from_pending in H. bind_inv.
  repeat match goal with H : get_range _ _ _ = Some _ |- _ => apply get_range_inv in H as (-> & _ & _) end.
  rewrite Eb, Eo in *. rewrite !slice_prefix in * by (unfold len; lia).
  set (b5 := slice bs _ _) in *. set (o5 := slice os _ _) in *.
  assert (len b5 = 5 ∧ len o5 = 5) as [Lb Lo] by (unfold b5, o5; split; rewrite len_slice; unfold len; lia).
  assert (Forall is_u8 b5) as Hu5 by (by apply Forall_slice).
  destruct (timestamp_field_of_bytes b5 prefix Lb Hu5 Hc) as [Hf Hp].
  cbn. split; [|done]. constructor; cbn.
  - unfold len in Lo. lia.
  - by apply Forall2_slice.
  - done.
  - by rewrite Hp.
  - by apply sorted_slice.
Qed.

Lemma complete_pes_timestamps_sound p bs os fields :
  collecting p bs os → Forall is_u8 bs → header_complete p = true → complete_pes_timestamps p = Ok fields →
  Forall field_sound fields ∧ Forall (λ f, field_pid (location f) = header_pid p) fields ∧
  ∃ lo hi, offsets_of fields = slice os lo hi.
Proof.
  intros Hc Hu Hcomp H. pose proof (co_expected _ _ _ Hc) as He. pose proof (co_len _ _ _ Hc) as (Hb & Ho & Hn).
  assert (pts_dts_flags p = 0 ∨ (pts_dts_flags p = 2 ∧ (14 ≤ header_len p)%nat) ∨
          (pts_dts_flags p = 3 ∧ (19 ≤ header_len p)%nat)) as Hf.
  { unfold header_complete, expectation in *. destruct (expected_len p) as [e|]; [|done].
    apply Nat.leb_le in Hcomp. destruct He as [[-> E4] | [? [[? ->] | [[? ->] | [? ->]]]]]; auto.
    left. unfold pts_dts_flags, byte_at. rewrite (co_bytes _ _ _ Hc), E4.
    rewrite lookup_app_r by lia. rewrite Hb, E4. reflexivity. }
  unfold complete_pes_timestamps in H. unfold PES_PTS_OFFSET, PES_DTS_OFFSET in H. destruct Hf as [E | [[E Hlen] | [E Hlen]]]; rewrite E in H; cbn [Z.eqb Pos.eqb] in H.
  - bind_inv. split; [done|]. split; [done|]. exists 0, 0. by rewrite slice_empty.
  - bind_inv.
    match goal with H : timestamp_field_from_pending _ _ _ _ = Ok _ |- _ =>
      eapply timestamp_field_from_pending_sound in H as (? & ? & Eo); [|done|done|lia|by left] end.
    repeat split; auto. do 2 eexists. unfold offsets_of. cbn. rewrite app_nil_r. exact Eo.
  - bind_inv.
    repeat match goal with H : timestamp_field_from_pending _ _ _ _ = Ok _ |- _ =>
      eapply timestamp_field_from_pending_sound in H as (? & ? & ?); [|done|done|lia|cbn; auto] end.
    repeat split; auto. exists 9, 19. unfold offsets_of. cbn. rewrite app_nil_r.
    rewrite (slice_cut os 9 14 19) by lia. by f_equal.
Qed.
End Pending.

(** ** Lemmas: the assembler

    [P pid b o] says that byte [b] of the payload of [pid] stands at offset
    [o]; no offset belongs to two PIDs. *)
Section Assembler.
Context (P : Z → Z → Z → Prop).
Context (P_pid : ∀ pid pid' b b' o, P pid b o → P pid' b' o → pid = pid').
Context (P_u8 : ∀ pid b o, P pid b o → is_u8 b).

Definition after_fields (emitted : HlsCompletedPesTimestamps) (pid : Z) (os : list Z) : Prop :=
  ∀ f o o', f ∈ emitted → field_pid (location f) = pid → o ∈ byte_offsets (location f) → o' ∈ os → o < o'.

Record assembling (assembler : HlsPesHeaderAssembler) (emitted : HlsCompletedPesTimestamps) (pos : Z) : Prop := {
  as_pending : ∀ pid p, assembler !! pid = Some p →
    header_pid p = pid ∧ ∃ bs os, collecting (P pid) p bs os ∧ Forall (λ y, y < pos) os ∧ after_fields emitted pid os;
  as_emitted : Forall (λ f, field_sound (P (field_pid (location f))) f) emitted;
  as_below : Forall (λ y, y < pos) (offsets_of emitted);
  as_nodup : NoDup (offsets_of emitted);
}.

Lemma elem_of_offsets fields o :
  o ∈ offsets_of fields ↔ ∃ f, f ∈ fields ∧ o ∈ byte_offsets (location f).
Proof.
  unfold offsets_of. rewrite list_elem_of_join. setoid_rewrite list_elem_of_fmap. split.
  - intros (l & ? & f & -> & ?). eauto.
  - intros (f & ? & ?). eauto 6.
Qed.

Lemma offsets_of_app fields fields' : offsets_of (fields ++ fields') = offsets_of fields ++ offsets_of fields'.
Proof. unfold offsets_of. by rewrite map_app, join_app. Qed.

Lemma sorted_NoDup (l : list Z) : StronglySorted Z.lt l → NoDup l.
Proof.
  induction 1 as [|x l Hs IH Hx]; constructor; [|done]. intros Hin.
  rewrite Forall_forall in Hx. specialize (Hx x Hin). lia.
Qed.

Lemma Forall2_elem_r {A B} (R : A → B → Prop) l k y : Forall2 R l k → y ∈ k → ∃ x, x ∈ l ∧ R x y.
Proof.
  induction 1 as [|a b l k Hab Hl IH]; intros Hin; [by apply not_elem_of_nil in Hin|].
  apply elem_of_cons in Hin as [-> | Hin]; [exists a; split; [left|done]|].
  destruct (IH Hin) as (x & ? & ?). exists x. split; [by right|done].
Qed.

Lemma collected_u8 pid p bs os : collecting (P pid) p bs os → Forall is_u8 bs.
Proof.
  intros Hc. pose proof (co_at _ _ _ _ Hc) as H. clear Hc. induction H; constructor; eauto.
Qed.

Lemma append_pending_step pid p bs os payload start p' c emitted pos :
  header_pid p = pid → collecting (P pid) p bs os → placed (P pid) payload start →
  Forall (λ y, y < pos) os → pos ≤ start → after_fields emitted pid os → Forall (λ y, y < pos) (offsets_of emitted) →
  append_pending_pes_header p payload start = Ok (p', c) →
  header_pid p' = pid ∧ ∃ bs' os', collecting (P pid) p' bs' os' ∧ Forall (λ y, y < start + len payload) os' ∧
    after_fields emitted pid os' ∧
    match c with
    | None => True
    | Some fields =>
        Forall (field_sound (P pid)) fields ∧ Forall (λ f, field_pid (location f) = pid) fields ∧
        ∃ lo hi, offsets_of fields = slice os' lo hi
    end.
Proof.
  intros Hpid Hc HP Hlt Hpos Haf Hem H. unfold append_pending_pes_header in H. bind_inv.
  match goal with H : append_bytes _ _ _ _ = Ok ?q |- _ =>
    eapply (append_bytes_collecting (P pid) payload start p bs os 0 q) in H as (bs' & os' & Hc' & Hp & Hos) end;
    [|done|by rewrite Z.add_0_r|rewrite Z.add_0_r; by apply (Forall_lt_weaken _ pos)].
  rewrite Z.add_0_r in Hos. pose proof (len_nonneg payload).
  assert (Forall (λ y, y < start + len payload) (os ++ os')).
  { apply Forall_app. split; [apply (Forall_lt_weaken _ pos); [lia|done]|].
    eapply Forall_impl; [exact Hos|]. cbn. lia. }
  assert (after_fields emitted pid (os ++ os')).
  { intros f o o' Hf Hfp Ho Ho'. apply elem_of_app in Ho' as [Ho' | Ho']; [by eapply Haf|].
    rewrite Forall_forall in Hem, Hos. specialize (Hem o ltac:(apply elem_of_offsets; eauto)).
    specialize (Hos o' Ho'). cbn in Hem, Hos. lia. }
  case_match eqn:Hcomp; bind_inv; intros; simplify_eq.
  - match goal with H : complete_pes_timestamps _ = Ok _ |- _ =>
      eapply complete_pes_timestamps_sound in H as (? & Hpids & ?); [|done|by eapply collected_u8|done] end.
    rewrite Hp in Hpids. split; [done|]. by exists (bs ++ bs'), (os ++ os').
  - split; [done|]. by exists (bs ++ bs'), (os ++ os').
Qed.

Lemma assembling_weaken assembler emitted pos pos' :
  pos ≤ pos' → assembling assembler emitted pos → assembling assembler emitted pos'.
Proof.
  intros Hle [Hp He Hb Hn]. constructor; try done.
  - intros pid p Hl. destruct (Hp pid p Hl) as (? & bs & os & ? & ? & ?). split; [done|]. exists bs, os.
    split_and!; try done. by apply (Forall_lt_weaken _ pos).
  - by apply (Forall_lt_weaken _ pos).
Qed.

Lemma assembling_delete assembler emitted pos pid :
  assembling assembler emitted pos → assembling (delete pid assembler) emitted pos.
Proof. intros [Hp He Hb Hn]. constructor; try done. intros q p [_ Hl]%lookup_delete_Some. by apply Hp. Qed.

Lemma assembling_insert assembler emitted pos pid p bs os :
  assembling assembler emitted pos → header_pid p = pid → collecting (P pid) p bs os →
  Forall (λ y, y < pos) os → after_fields emitted pid os → assembling (<[pid := p]> assembler) emitted pos.
Proof.
  intros [Hp He Hb Hn] Hpid Hc Hlt Haf. constructor; try done.
  intros q r [[<- <-] | [_ Hl]]%lookup_insert_Some; [|by apply Hp]. split; [done|]. by exists bs, os.
Qed.

(** Emitting the fields of a header that is no longer pending. *)
Lemma assembling_emit assembler emitted pos pid fields os lo hi :
  assembling assembler emitted pos → assembler !! pid = None →
  Forall (field_sound (P pid)) fields → Forall (λ f, field_pid (location f) = pid) fields →
  offsets_of fields = slice os lo hi → StronglySorted Z.lt os → Forall (λ y, y < pos) os → after_fields emitted pid os →
  assembling assembler (emitted ++ fields) pos.
Proof.
  intros [Hp He Hb Hn] Hnone Hs Hpids Ho Hsort Hlt Haf.
  assert (∀ o, o ∈ offsets_of fields → o ∈ os) as Hsub.
  { rewrite Ho. intros o Hin. eapply elem_of_sublist; [exact Hin|apply slice_sublist]. }
  rewrite Forall_forall in Hs, Hpids, He.
  constructor.
  - intros q p Hl. destruct (Hp q p Hl) as (? & bs & os' & ? & ? & Haf'). split; [done|]. exists bs, os'.
    split_and!; try done. intros f o o' [Hf | Hf]%elem_of_app; [by apply Haf'|].
    intros E. rewrite (Hpids f Hf) in E. congruence.
  - apply Forall_app. split; rewrite Forall_forall; [done|]. intros f Hf. rewrite (Hpids f Hf). by apply Hs.
  - rewrite offsets_of_app. apply Forall_app. split; [done|]. rewrite Forall_forall in *. auto.
  - rewrite offsets_of_app. apply NoDup_app. split_and!; [done| |rewrite Ho; by apply sorted_NoDup, sorted_slice].
    intros o Hin Hin'. pose proof Hin as (f & Hf & Hof)%elem_of_offsets. pose proof Hin' as (g & Hg & Hog)%elem_of_offsets.
    destruct (Forall2_elem_r _ _ _ o (fs_at _ _ (He f Hf)) Hof) as (b & _ & Hb1).
    destruct (Forall2_elem_r _ _ _ o (fs_at _ _ (Hs g Hg)) Hog) as (b' & _ & Hb2).
    pose proof (P_pid _ _ _ _ _ Hb1 Hb2). specialize (Haf f o o Hf ltac:(done) Hof (Hsub o Hin')). lia.
Qed.

Lemma pending_new_collecting pid cc : collecting (P pid) (pending_new pid cc) [] [].
Proof. constructor; cbn; try done; try (by constructor); unfold expectation; cbn; lia. Qed.

Lemma set_counter_collecting pid p bs os c : collecting (P pid) p bs os → collecting (P pid) (set_counter p c) bs os.
Proof. by intros []. Qed.

(** The common end of the two branches of [push_packet]. *)
Lemma push_pending_assembling assembler emitted pos pid p bs os payload start p' c :
  assembling assembler emitted pos → assembler !! pid = None →
  header_pid p = pid → collecting (P pid) p bs os → Forall (λ y, y < pos) os → after_fields emitted pid os →
  placed (P pid) payload start → pos ≤ start →
  append_pending_pes_header p payload start = Ok (p', c) →
  match c with
  | Some fields => assembling assembler (emitted ++ fields) (start + len payload)
  | None => assembling (<[pid := p']> assembler) emitted (start + len payload)
  end.
Proof.
  intros Has Hnone Hpid Hc Hlt Haf HP Hpos H. pose proof (len_nonneg payload).
  eapply append_pending_step in H as (Hpid' & bs' & os' & Hc' & Hlt' & Haf' & Hf); [|done..|apply Has].
  apply (assembling_weaken _ _ _ (start + len payload)) in Has; [|lia]. destruct c as [fields|].
  - destruct Hf as (? & ? & lo & hi & ?). eapply assembling_emit; try done. apply Hc'.
  - by eapply assembling_insert.
Qed.

Lemma push_packet_assembling assembler emitted pos packet packet_start e assembler' fields :
  assembling assembler emitted pos → pos ≤ packet_start → 0 ≤ packet_start →
  (∀ po, payload_offset e = Some po →
     0 ≤ po ∧ placed (P (evidence_pid e)) (slice packet po (len packet)) (packet_start + po)) →
  push_packet assembler packet packet_start e = Ok (assembler', fields) →
  assembling assembler' (emitted ++ fields) (packet_start + len packet).
Proof.
  intros Has Hpos Hstart HP H. pose proof (len_nonneg packet). unfold push_packet in H. cbv zeta in H. bind_inv.
  destruct (payload_offset e) as [po|] eqn:Epo; cycle 1.
  { bind_inv. intros; simplify_eq. rewrite app_nil_r. apply (assembling_weaken _ _ pos); [lia|done]. }
  destruct (HP po eq_refl) as [Hpo Hpl]. bind_inv.
  repeat match goal with
  | H : get_range _ _ _ = Some _ |- _ => apply get_range_inv in H as (-> & ? & ?)
  | H : checked_add _ _ = Some _ |- _ => apply checked_add_inv in H as [-> _]
  end.
  set (payload := slice packet po (len packet)) in *.
  assert (packet_start + po + len payload = packet_start + len packet) as Elen
    by (unfold payload; rewrite len_slice by lia; lia).
  destruct (assembler !! evidence_pid e) as [pending|] eqn:El.
  - bind_inv. destruct x as [p' c]. destruct (as_pending _ _ _ Has _ _ El) as (Hpid & bs & os & Hcol & Hlt & Haf).
    match goal with H : append_pending_pes_header _ _ _ = _ |- _ =>
      eapply (push_pending_assembling (delete (evidence_pid e) assembler) emitted pos) in H end;
      [|by apply assembling_delete|by apply lookup_delete_eq|done|by apply set_counter_collecting|done..|lia].
    rewrite Elen in *. destruct c; bind_inv; intros; simplify_eq; rewrite ?app_nil_r; done.
  - case_match; [bind_inv; intros; simplify_eq; rewrite app_nil_r; apply (assembling_weaken _ _ pos); [lia|done]|].
    bind_inv. destruct x as [p' c].
    match goal with H : append_pending_pes_header _ _ _ = _ |- _ =>
      eapply (push_pending_assembling assembler emitted pos) in H end;
      [|done|done|done|apply pending_new_collecting|done| |done|lia].
    + rewrite Elen in *. destruct c; bind_inv; intros; simplify_eq; rewrite ?app_nil_r; done.
    + intros f o o' _ _ _ Hin. by apply not_elem_of_nil in Hin.
Qed.

Lemma assembling_empty pos : assembling ∅ [] pos.
Proof. constructor; try done; constructor. Qed.
End Assembler.

(** ** Reassembly of split headers *)

(** Packets, each with its start offset, pushed one after the other into the
    assembler: the assembler and the fields they complete. *)
Fixpoint push_packets (assembler : HlsPesHeaderAssembler) (packets : list (list Z * Z))
    : layout_result (HlsPesHeaderAssembler * HlsCompletedPesTimestamps) :=
  match packets with
  | [] => Ok (assembler, [])
  | (packet, packet_start) :: packets =>
      evidence ← inspect_hls_ts_packet packet packet_start;
      '(assembler, completed) ← push_packet assembler packet packet_start evidence;
      '(assembler, more) ← push_packets assembler packets;
      Ok (assembler, completed ++ more)
  end.

(** The bytes of a payload with their offsets. *)
Fixpoint locate (payload : list Z) (start index : Z) : list (Z * Z) :=
  match payload with
  | [] => []
  | b :: payload => (b, start + index) :: locate payload start (index + 1)
  end.

(** The payload of a packet, with its offsets. *)
Definition packet_bytes (p : list Z * Z) : list (Z * Z) :=
  match inspect_hls_ts_packet p.1 p.2 with
  | Ok evidence =>
      match payload_offset evidence with
      | Some offset => locate (slice p.1 offset (len p.1)) (p.2 + offset) 0
      | None => []
      end
  | Err _ => []
  end.

Definition payload_bytes (packets : list (list Z * Z)) : list (Z * Z) := mjoin (map packet_bytes packets).

Definition next_counter (cc : Z) : Z := Z.land ((cc + 1) mod 256) 15.

(** Packets of [pid] with payload and consecutive counters from [cc] on, without
    a discontinuity, none of which starts a new PES packet. *)
Fixpoint continues (pid cc : Z) (packets : list (list Z * Z)) : Prop :=
  match packets with
  | [] => True
  | (packet, packet_start) :: packets =>
      Forall is_u8 packet ∧ packet_start + TS_PACKET_SIZE ≤ 2 ^ 64 ∧
      (∃ evidence, inspect_hls_ts_packet packet packet_start = Ok evidence ∧ evidence_pid evidence = pid ∧
         is_Some (payload_offset evidence) ∧ payload_unit_start evidence = false ∧ discontinuity evidence = false ∧
         continuity_counter evidence = cc) ∧
      continues pid (next_counter cc) packets
  end.

(** A packet of [pid] that starts a PES packet, and packets that continue it. *)
Definition carries_header (pid : Z) (packets : list (list Z * Z)) : Prop :=
  match packets with
  | [] => False
  | (packet, packet_start) :: packets =>
      Forall is_u8 packet ∧ packet_start + TS_PACKET_SIZE ≤ 2 ^ 64 ∧
      ∃ evidence offset, inspect_hls_ts_packet packet packet_start = Ok evidence ∧ evidence_pid evidence = pid ∧
        payload_unit_start evidence = true ∧ payload_offset evidence = Some offset ∧
        starts_with_pes_code (slice packet offset (len packet)) = true ∧
        continues pid (next_counter (continuity_counter evidence)) packets
  end.

(** A timestamp field cut out of a whole header. *)
Definition header_field (pid : Z) (header : list (Z * Z)) (kind : HlsTsTimestampFieldKind) (start : nat) (prefix : Z)
    : layout_result HlsCompletedTimestampField :=
  let field := slice header (Z.of_nat start) (Z.of_nat start + 5) in
  let bytes := map fst field in
  if (byte_at bytes 0 / 16 =? prefix) && Z.odd (byte_at bytes 0) && Z.odd (byte_at bytes 2) && Z.odd (byte_at bytes 4)
  then Ok {| location := {| field_pid := pid; field_kind := kind; byte_offsets := map snd field |}; field_bytes := bytes |}
  else Err (InvalidPesTimestampField pid kind).

(** The timestamps of a PES header of which the bytes [header] are there; [None]
    when bytes that decide on them are missing. *)
Definition header_timestamps (pid : Z) (header : list (Z * Z)) : layout_result (option HlsCompletedPesTimestamps) :=
  let bytes := map fst header in
  let n := length header in
  let flags := Z.land (Z.shiftr (byte_at bytes 7) 6) 3 in
  if (n <? 4)%nat then Ok None
  else if negb (pes_stream_id_has_optional_header (byte_at bytes 3)) then Ok (Some [])
  else if (n <? 7)%nat then Ok None
  else if negb (Z.land (byte_at bytes 6) 192 =? 128) then Err (UnsupportedPesTimestampHeader pid)
  else if (n <? 9)%nat then Ok None
  else if flags =? 0 then Ok (Some [])
  else if (flags =? 2) && (5 <=? byte_at bytes 8) then
    if (n <? 14)%nat then Ok None else
    pts ← header_field pid header KindPts 9 2; Ok (Some [pts])
  else if (flags =? 3) && (10 <=? byte_at bytes 8) then
    if (n <? 19)%nat then Ok None else
    pts ← header_field pid header KindPts 9 3; dts ← header_field pid header KindDts 14 1; Ok (Some [pts; dts])
  else Err (UnsupportedPesTimestampHeader pid).

Fixpoint append_located (p : HlsPendingPesHeader) (l : list (Z * Z)) : layout_result HlsPendingPesHeader :=
  match l with
  | [] => Ok p
  | (b, o) :: l =>
      if header_complete p then Ok p else
      if (HLS_TS_TIMESTAMP_HEADER_BYTES <=? header_len p)%nat then Err (UnsupportedPesTimestampHeader (header_pid p)) else
      p ← append_byte p b o; append_located p l
  end.

Lemma append_located_complete p l : header_complete p = true → append_located p l = Ok p.
Proof. intros H. destruct l as [|[b o] l]; cbn; by rewrite ?H. Qed.

Lemma append_located_app l l' : ∀ p,
  append_located p (l ++ l') = append_located p l ≫= λ p, append_located p l'.
Proof.
  induction l as [|[b o] l IH]; intros p; cbn [append_located app]; [done|].
  destruct (header_complete p) eqn:Hc; [rewrite bind_ok; by rewrite append_located_complete|].
  destruct (_ <=? _)%nat; [done|]. destruct (append_byte p b o) as [q|err]; [|done]. rewrite !bind_ok. apply IH.
Qed.

Lemma append_bytes_located payload start : ∀ p i,
  0 ≤ i → start + i + len payload ≤ 2 ^ 64 → append_bytes p payload start i = append_located p (locate payload start i).
Proof.
  induction payload as [|b payload IH]; intros p i Hi Hb; [done|]. rewrite len_cons in Hb.
  cbn [append_bytes locate append_located]. destruct (header_complete p); [done|]. destruct (_ <=? _)%nat; [done|].
  pose proof (len_nonneg payload).
  rewrite checked_add_small by lia. cbn [ok_or]. rewrite bind_ok. destruct (append_byte p b (start + i)); [|done].
  rewrite !bind_ok. apply IH; lia.
Qed.

(** The header that has collected the bytes [l]. *)
Definition collected (pid cc : Z) (l : list (Z * Z)) (e : option nat) : HlsPendingPesHeader :=
  {| header_pid := pid; header_bytes := map fst l ++ replicate (19 - length l) 0;
     header_offsets := map snd l ++ replicate (19 - length l) 0; header_len := length l; expected_len := e;
     last_payload_continuity_counter := cc |}.

Lemma store_collected pid cc l e b o :
  (length l < 19)%nat → store_byte (collected pid cc l e) b o = collected pid cc (l ++ [(b, o)]) e.
Proof.
  intros Hl. unfold store_byte, collected. cbn. rewrite !insert_end by (rewrite ?length_map; lia).
  rewrite !map_app, length_app. cbn [length map fst snd].
  by replace (19 - length l - 1)%nat with (19 - (length l + 1))%nat by lia; rewrite Nat.add_1_r.
Qed.

(** Between the lengths at which the header is looked at, bytes are only stored. *)
Lemma append_plain pid cc e l' rest : ∀ l,
  (∀ k, length l ≤ k < length l + length l' →
     k ≠ 3 ∧ k ≠ 6 ∧ k ≠ 8 ∧ k < 19 ∧ match e with Some e => k < e | None => True end)%nat →
  append_located (collected pid cc l e) (l' ++ rest) = append_located (collected pid cc (l ++ l') e) rest.
Proof.
  induction l' as [|[b o] l' IH]; intros l H; [by rewrite app_nil_r|]. cbn [length] in H.
  pose proof (H (length l) ltac:(lia)) as (H3 & H6 & H8 & H19 & He).
  cbn [app append_located]. replace (header_complete _) with false.
  2:{ unfold header_complete. cbn. destruct e as [e|]; [|done]. symmetry. apply Nat.leb_gt. lia. }
  replace (_ <=? _)%nat with false by (symmetry; apply Nat.leb_gt; unfold HLS_TS_TIMESTAMP_HEADER_BYTES; cbn; lia).
  unfold append_byte. rewrite store_collected by done. cbn [header_len collected]. rewrite length_app. cbn [length].
  unfold PES_PTS_OFFSET. rewrite !(proj2 (Nat.eqb_neq _ _)) by lia. cbn [andb]. rewrite bind_ok.
  rewrite IH; [by rewrite <- app_assoc|]. rewrite length_app. cbn [length]. intros k Hk. apply H. lia.
Qed.

Lemma append_looked pid cc l b o rest :
  length l ∈ [3; 6; 8]%nat →
  append_located (collected pid cc l None) ((b, o) :: rest)
  = append_byte (collected pid cc l None) b o ≫= λ p, append_located p rest.
Proof.
  intros Hl. cbn [append_located]. unfold header_complete. cbn [collected expected_len header_len].
  replace (_ <=? _)%nat with false; [done|]. symmetry. apply Nat.leb_gt. unfold HLS_TS_TIMESTAMP_HEADER_BYTES.
  set_unfold in Hl. lia.
Qed.

Lemma collected_byte pid cc l e k : (k < length l)%nat → byte_at (header_bytes (collected pid cc l e)) k = byte_at (map fst l) k.
Proof. intros. unfold byte_at. cbn. by rewrite lookup_app_l by (rewrite length_map; lia). Qed.

Lemma split_at {A} n (l : list A) : (n < length l)%nat → ∃ l1 x l2, l = l1 ++ x :: l2 ∧ length l1 = n.
Proof.
  intros H. destruct (lookup_lt_is_Some_2 l n H) as [x Hx]. exists (take n l), x, (drop (S n) l).
  split; [symmetry; by apply take_drop_middle|]. rewrite length_take. lia.
Qed.

Lemma land_one_odd x : (Z.land x 1 =? 0) = negb (Z.odd x).
Proof.
  pose proof (land_mask x 1 ltac:(lia)) as E. change (2 ^ 1 - 1) with 1 in E. rewrite E. change (2 ^ 1) with 2.
  rewrite Zmod_odd. by destruct (Z.odd x).
Qed.

Lemma field_from_collected pid cc l rest e kind start prefix :
  (start + 5 ≤ length l ≤ 19)%nat →
  timestamp_field_from_pending (collected pid cc l e) kind start prefix = header_field pid (l ++ rest) kind start prefix.
Proof.
  intros Hl. unfold timestamp_field_from_pending, header_field. cbn [collected header_pid header_bytes header_offsets].
  assert (∀ {A} (f : Z * Z → A) (x : A), len (map f l ++ replicate (19 - length l) x) = 19) as Hlen.
  { intros. unfold len. rewrite length_app, length_map, length_replicate. lia. }
  rewrite !get_range_some by (rewrite ?Hlen; lia). cbn [ok_or]. rewrite !bind_ok.
  rewrite !(slice_app_l (map _ l)), !slice_map, (slice_app_l l rest) by (unfold len; rewrite ?length_map; lia).
  set (field := slice l _ _). rewrite shr, !land_one_odd by lia. change (2 ^ 4) with 16.
  destruct (_ =? prefix), (Z.odd _), (Z.odd _), (Z.odd _); reflexivity.
Qed.

Lemma last_byte (l : list (Z * Z)) b o k : length l = k → byte_at (map fst (l ++ [(b, o)])) k = b.
Proof.
  intros <-. unfold byte_at. rewrite map_app. rewrite lookup_app_r by (by rewrite length_map).
  by rewrite length_map, Nat.sub_diag.
Qed.

Lemma expecting_collected pid cc l e k : expecting (collected pid cc l e) k = collected pid cc l (Some k).
Proof. done. Qed.

(** The three lengths at which the header is looked at. *)
Lemma append_stream_id pid cc l b o :
  length l = 3%nat →
  append_byte (collected pid cc l None) b o
  = Ok (collected pid cc (l ++ [(b, o)]) (if pes_stream_id_has_optional_header b then None else Some 4%nat)).
Proof.
  intros Hl. unfold append_byte. rewrite store_collected by lia.
  rewrite collected_byte by (rewrite length_app; cbn; lia). rewrite (last_byte l b o 3) by done.
  cbn [collected header_len]. rewrite length_app, Hl. cbn [length Nat.add Nat.eqb andb PES_PTS_OFFSET].
  by destruct (pes_stream_id_has_optional_header b).
Qed.

Lemma append_marker_bits pid cc l b o :
  length l = 6%nat →
  append_byte (collected pid cc l None) b o
  = if Z.land b 192 =? 128 then Ok (collected pid cc (l ++ [(b, o)]) None) else Err (UnsupportedPesTimestampHeader pid).
Proof.
  intros Hl. unfold append_byte. rewrite store_collected by lia.
  rewrite (collected_byte _ _ _ _ 6) by (rewrite length_app; cbn; lia). rewrite (last_byte l b o 6) by done.
  cbn [collected header_len header_pid]. rewrite length_app, Hl. cbn [length Nat.add Nat.eqb andb PES_PTS_OFFSET].
  by destruct (Z.land b 192 =? 128).
Qed.

Lemma append_data_length pid cc l b7 o7 b o :
  length l = 7%nat →
  let flags := Z.land (Z.shiftr b7 6) 3 in
  let stored := (l ++ [(b7, o7)]) ++ [(b, o)] in
  append_byte (collected pid cc (l ++ [(b7, o7)]) None) b o
  = if flags =? 0 then Ok (collected pid cc stored (Some 9%nat))
    else if (flags =? 2) && (5 <=? b) then Ok (collected pid cc stored (Some 14%nat))
    else if (flags =? 3) && (10 <=? b) then Ok (collected pid cc stored (Some 19%nat))
    else Err (UnsupportedPesTimestampHeader pid).
Proof.
  intros Hl. cbv zeta. unfold append_byte. rewrite store_collected by (rewrite length_app; cbn; lia).
  set (stored := (l ++ [(b7, o7)]) ++ [(b, o)]).
  assert (length stored = 9%nat) as Hs by (unfold stored; rewrite !length_app; cbn; lia).
  assert (byte_at (map fst stored) 7 = b7) as B7.
  { rewrite <- (last_byte l b7 o7 7) by done. unfold stored, byte_at. rewrite (map_app fst (l ++ _)).
    by rewrite lookup_app_l by (rewrite length_map, length_app; cbn; lia). }
  assert (byte_at (map fst stored) 8 = b) as B8 by (apply last_byte; rewrite length_app; cbn; lia).
  unfold pts_dts_flags. rewrite !collected_byte, B7, B8 by lia.
  cbn [collected header_len header_pid]. rewrite Hs. reflexivity.
Qed.

Lemma flags_collected pid cc l e : (8 ≤ length l)%nat →
  pts_dts_flags (collected pid cc l e) = Z.land (Z.shiftr (byte_at (map fst l) 7) 6) 3.
Proof. intros. unfold pts_dts_flags. by rewrite collected_byte by lia. Qed.

(** What feeding the bytes [l] to a new header gives. *)
Definition fed (pid cc : Z) (l : list (Z * Z)) (r : layout_result HlsPendingPesHeader) : Prop :=
  match r with
  | Err e => header_timestamps pid l = Err e
  | Ok p =>
      if header_complete p then header_timestamps pid l = (fields ← complete_pes_timestamps p; Ok (Some fields))
      else header_timestamps pid l = Ok None ∧ ∃ e, p = collected pid cc l e
  end.

Lemma byte_mid (l1 l2 : list (Z * Z)) b o k : length l1 = k → byte_at (map fst (l1 ++ (b, o) :: l2)) k = b.
Proof.
  intros <-. unfold byte_at. rewrite map_app, lookup_app_r by (by rewrite length_map). by rewrite length_map, Nat.sub_diag.
Qed.

Lemma append_rest pid cc l l' e :
  (∀ k, length l ≤ k < length l + length l' →
     k ≠ 3 ∧ k ≠ 6 ∧ k ≠ 8 ∧ k < 19 ∧ match e with Some e => k < e | None => True end)%nat →
  append_located (collected pid cc l e) l' = Ok (collected pid cc (l ++ l') e).
Proof. intros H. pose proof (append_plain pid cc e l' [] l H) as E. by rewrite app_nil_r in E. Qed.

(** The part of the header with the timestamps, after its first nine bytes. *)
Lemma feed_fields pid cc l9 l3 (m : nat) :
  length l9 = 9%nat → m = 9%nat ∨ m = 14%nat ∨ m = 19%nat →
  append_located (collected pid cc l9 (Some m)) l3 =
    Ok (collected pid cc (take m (l9 ++ l3)) (Some m)).
Proof.
  intros L9 Hm. assert (l3 = take (m - 9) l3 ++ drop (m - 9) l3) as El by (symmetry; apply take_drop).
  rewrite El at 1. rewrite append_plain by (rewrite L9, length_take; lia).
  rewrite take_app_ge, L9 by lia. destruct (decide (length l3 < m - 9)%nat) as [Hs|Hs].
  - by rewrite drop_ge by lia.
  - apply append_located_complete. unfold header_complete. cbn. apply Nat.leb_le. rewrite length_app, length_take. lia.
Qed.

Lemma field_from_take pid cc l m e kind start prefix :
  (start + 5 ≤ m ≤ 19)%nat → (m ≤ length l)%nat →
  timestamp_field_from_pending (collected pid cc (take m l) e) kind start prefix = header_field pid l kind start prefix.
Proof.
  intros Hm Hl. rewrite (field_from_collected pid cc (take m l) (drop m l)) by (rewrite length_take; lia). by rewrite take_drop.
Qed.

(** From the ninth byte on, which decides how long the header is. *)
Lemma feed_timestamps pid cc l l9 l3 :
  l = l9 ++ l3 → length l9 = 9%nat → pes_stream_id_has_optional_header (byte_at (map fst l) 3) = true →
  (Z.land (byte_at (map fst l) 6) 192 =? 128) = true →
  let flags := Z.land (Z.shiftr (byte_at (map fst l) 7) 6) 3 in
  let b8 := byte_at (map fst l) 8 in
  fed pid cc l
    ((if flags =? 0 then Ok (collected pid cc l9 (Some 9%nat))
      else if (flags =? 2) && (5 <=? b8) then Ok (collected pid cc l9 (Some 14%nat))
      else if (flags =? 3) && (10 <=? b8) then Ok (collected pid cc l9 (Some 19%nat))
      else Err (UnsupportedPesTimestampHeader pid)) ≫= λ p, append_located p l3).
Proof.
  intros El L9 H3 H6 flags b8. assert (length l = (9 + length l3)%nat) as Ll by (rewrite El, length_app, L9; lia).
  unfold fed, header_timestamps. rewrite H3, H6, !(proj2 (Nat.ltb_ge (length l) _)) by lia. cbn [negb]. fold flags b8.
  assert (∀ m e, (9 ≤ m)%nat → pts_dts_flags (collected pid cc (take m l) e) = flags) as Hflags.
  { intros m e Hm. rewrite flags_collected by (rewrite length_take; lia). unfold flags. f_equal. f_equal. unfold byte_at.
    rewrite <- (take_drop m l) at 2. rewrite (map_app fst (take m l)), lookup_app_l by (rewrite length_map, length_take; lia). done. }
  assert (l9 = take 9 l) as E9 by (rewrite El, <- L9; symmetry; apply take_app_length).
  assert (∀ m, header_complete (collected pid cc (take m l) (Some m)) = negb (length l <? m)%nat) as Hcomp.
  { intros m. unfold header_complete. cbn [collected expected_len header_len]. rewrite length_take.
    destruct (Nat.ltb_spec (length l) m); cbn [negb]; [apply Nat.leb_gt|apply Nat.leb_le]; lia. }
  assert (∀ m, m = 9%nat ∨ m = 14%nat ∨ m = 19%nat →
    append_located (collected pid cc l9 (Some m)) l3 = Ok (collected pid cc (take m l) (Some m))) as Hfeed.
  { intros m Hm. rewrite El. by apply feed_fields. }
  destruct (Z.eqb_spec flags 0) as [E0|E0].
  { rewrite bind_ok, Hfeed, Hcomp, (proj2 (Nat.ltb_ge _ _)) by (auto || lia). cbn [negb].
    unfold complete_pes_timestamps. by rewrite Hflags, E0 by lia. }
  destruct ((flags =? 2) && (5 <=? b8)) eqn:E2.
  { rewrite bind_ok, Hfeed, Hcomp by auto. destruct (Nat.ltb_spec (length l) 14) as [Hs|Hs]; cbn [negb].
    - split; [done|]. exists (Some 14%nat). by rewrite take_ge by lia.
    - unfold complete_pes_timestamps. rewrite Hflags by lia. apply andb_true_iff in E2 as [->%Z.eqb_eq _]. cbn [Z.eqb Pos.eqb].
      rewrite field_from_take by (unfold PES_PTS_OFFSET; lia). unfold PES_PTS_OFFSET. by destruct (header_field pid l KindPts 9 2). }
  destruct ((flags =? 3) && (10 <=? b8)) eqn:E3; [|done].
  rewrite bind_ok, Hfeed, Hcomp by auto. destruct (Nat.ltb_spec (length l) 19) as [Hs|Hs]; cbn [negb].
  - split; [done|]. exists (Some 19%nat). by rewrite take_ge by lia.
  - unfold complete_pes_timestamps. rewrite Hflags by lia. apply andb_true_iff in E3 as [->%Z.eqb_eq _]. cbn [Z.eqb Pos.eqb].
    rewrite !field_from_take by (unfold PES_PTS_OFFSET, PES_DTS_OFFSET; lia). unfold PES_PTS_OFFSET, PES_DTS_OFFSET.
    destruct (header_field pid l KindPts 9 3); [|done]. by destruct (header_field pid l KindDts 14 1).
Qed.

(** From the seventh byte on, the marker of the optional header. *)
Lemma feed_optional pid cc l l6 b6 o6 l' :
  l = l6 ++ (b6, o6) :: l' → length l6 = 6%nat → pes_stream_id_has_optional_header (byte_at (map fst l) 3) = true →
  fed pid cc l (append_located (collected pid cc l6 None) ((b6, o6) :: l')).
Proof.
  intros El L6 H3. assert (length l = (7 + length l')%nat) as Ll by (rewrite El, length_app, L6; cbn; lia).
  assert (byte_at (map fst l) 6 = b6) as B6 by (rewrite El; by apply byte_mid).
  rewrite append_looked by (rewrite L6; set_solver). rewrite append_marker_bits by done.
  destruct (Z.land b6 192 =? 128) eqn:E6.
  2:{ cbn. unfold header_timestamps. by rewrite H3, B6, E6, !(proj2 (Nat.ltb_ge (length l) _)) by lia. }
  rewrite bind_ok. set (l7 := l6 ++ [(b6, o6)]). assert (l = l7 ++ l') as El7 by (unfold l7; rewrite <- app_assoc; exact El).
  assert (length l7 = 7%nat) as L7 by (unfold l7; by rewrite length_app, L6). clearbody l7.
  destruct l' as [|[b7 o7] [|[b8 o8] l3]].
  1,2: rewrite append_rest by (rewrite L7; cbn; lia); rewrite <- El7; (split; [|by exists None]); cbn [length] in Ll;
    unfold header_timestamps; rewrite H3, B6, E6, Ll; reflexivity.
  change ((b7, o7) :: (b8, o8) :: l3) with ([(b7, o7)] ++ (b8, o8) :: l3) in *.
  rewrite append_plain by (rewrite L7; cbn; lia). rewrite append_looked by (rewrite length_app, L7; set_solver).
  rewrite append_data_length by done. rewrite app_assoc in El7.
  assert (byte_at (map fst l) 8 = b8) as B8 by (rewrite El7; apply byte_mid; by rewrite length_app, L7).
  assert (byte_at (map fst l) 7 = b7) as B7 by (rewrite El7, <- app_assoc; by apply byte_mid).
  rewrite <- B6 in E6. pose proof (feed_timestamps pid cc l ((l7 ++ [(b7, o7)]) ++ [(b8, o8)]) l3) as Hf. rewrite B7, B8 in Hf.
  apply Hf; [by rewrite <- (app_assoc (l7 ++ _))|by rewrite !length_app, L7|done|done].
Qed.

Lemma feed_header pid cc l : fed pid cc l (append_located (pending_new pid cc) l).
Proof.
  change (pending_new pid cc) with (collected pid cc [] None).
  destruct (Nat.ltb_spec (length l) 4) as [H4|H4].
  { rewrite append_rest by (cbn; lia). split; [|by exists None]. unfold header_timestamps. by rewrite (proj2 (Nat.ltb_lt _ _) H4). }
  destruct (split_at 3 l) as (l1 & [b3 o3] & l' & El & L1); [lia|].
  assert (byte_at (map fst l) 3 = b3) as B3 by (rewrite El; by apply byte_mid).
  assert (append_located (collected pid cc [] None) l
    = append_located (collected pid cc (l1 ++ [(b3, o3)]) (if pes_stream_id_has_optional_header b3 then None else Some 4%nat)) l') as ->.
  { rewrite El, append_plain by (cbn; lia). cbn [app]. rewrite append_looked by (rewrite L1; set_solver). by rewrite append_stream_id, bind_ok. }
  destruct (pes_stream_id_has_optional_header b3) eqn:E3; cycle 1.
  { rewrite append_located_complete by (unfold header_complete; cbn; rewrite length_app, L1; done). unfold fed, header_timestamps.
    replace (header_complete _) with true by (unfold header_complete; cbn; by rewrite length_app, L1).
    rewrite B3, E3, (proj2 (Nat.ltb_ge _ _)) by lia. unfold complete_pes_timestamps, pts_dts_flags, byte_at. cbn [negb collected header_bytes].
    rewrite lookup_app_r by (rewrite length_map, length_app, L1; cbn; lia). by rewrite length_map, length_app, L1. }
  change ((b3, o3) :: l') with ([(b3, o3)] ++ l') in El. rewrite app_assoc in El. set (l4 := l1 ++ [(b3, o3)]) in *.
  assert (length l4 = 4%nat) as L4 by (unfold l4; by rewrite length_app, L1). clearbody l4.
  assert (length l = (4 + length l')%nat) as Ll by (by rewrite El, length_app, L4).
  rewrite <- B3 in E3. destruct (Nat.ltb_spec (length l) 7) as [H7|H7].
  { rewrite append_rest, <- El by (rewrite L4; lia). split; [|by exists None].
    unfold header_timestamps. by rewrite E3, (proj2 (Nat.ltb_ge _ _)), (proj2 (Nat.ltb_lt (length l) 7)) by lia. }
  destruct (split_at 2 l') as (l2 & [b6 o6] & l'' & -> & L2); [lia|].
  rewrite append_plain by (rewrite L4, L2; lia). apply feed_optional; [by rewrite El, app_assoc|by rewrite length_app, L4, L2|done].
Qed.

(** *** Through the assembler *)

Lemma append_byte_counter p b o cc :
  append_byte (set_counter p cc) b o = p' ← append_byte p b o; Ok (set_counter p' cc).
Proof. unfold append_byte, pts_dts_flags. cbv zeta. cbn. repeat case_match; done. Qed.

(** The counter of a header does not matter to its bytes. *)
Lemma append_located_counter cc l : ∀ p,
  append_located (set_counter p cc) l = p' ← append_located p l; Ok (set_counter p' cc).
Proof.
  induction l as [|[b o] l IH]; intros p; [done|]. cbn [append_located].
  change (header_complete (set_counter p cc)) with (header_complete p). change (header_len (set_counter p cc)) with (header_len p).
  destruct (header_complete p); [done|]. destruct (_ <=? _)%nat; [done|]. rewrite append_byte_counter.
  destruct (append_byte p b o) as [q|]; [|done]. rewrite !bind_ok. apply IH.
Qed.

(** What pushing packets with the bytes [header] gives: the fields, an error, or
    the pending header, put back into the assembler with all its bytes. *)
Definition pushed (pid : Z) (assembler : HlsPesHeaderAssembler) (header : list (Z * Z))
    (r : layout_result (HlsPesHeaderAssembler * HlsCompletedPesTimestamps)) : Prop :=
  match header_timestamps pid header with
  | Err e => r = Err e
  | Ok (Some fields) => r = Ok (assembler, fields)
  | Ok None => ∃ cc e, r = Ok (<[pid := collected pid cc header e]> assembler, [])
  end.

(** The bytes of a packet with payload. *)
Lemma packet_located packet packet_start evidence offset :
  Forall is_u8 packet → packet_start + TS_PACKET_SIZE ≤ 2 ^ 64 → inspect_hls_ts_packet packet packet_start = Ok evidence →
  payload_offset evidence = Some offset →
  get_range packet offset (len packet) = Some (slice packet offset (len packet)) ∧
  checked_add packet_start offset = Some (packet_start + offset) ∧
  ∀ p, append_bytes p (slice packet offset (len packet)) (packet_start + offset) 0 = append_located p (packet_bytes (packet, packet_start)).
Proof.
  intros Hu Hb He Ho. pose proof (inspect_ok _ _ _ Hu He) as [Hl _ _ Hp _ _]. specialize (Hp offset Ho). change TS_PACKET_SIZE with 188 in *.
  split; [apply get_range_some; lia|]. split; [apply checked_add_small; lia|]. intros p. unfold packet_bytes. cbn [fst snd]. rewrite He, Ho.
  apply append_bytes_located; [lia|]. rewrite len_slice by lia. lia.
Qed.

Lemma pes_code_len payload : starts_with_pes_code payload = true → 3 ≤ len payload.
Proof.
  destruct payload as [|a [|b [|c payload]]]; intros H.
  4:{ rewrite !len_cons. pose proof (len_nonneg payload). lia. }
  all: cbn in H; repeat case_match; done.
Qed.

(** Packets that continue a PES packet whose header is not pending. *)
Lemma push_ignored pid assembler packets : ∀ cc,
  assembler !! pid = None → continues pid cc packets → push_packets assembler packets = Ok (assembler, []).
Proof.
  induction packets as [|[packet packet_start] packets IH]; intros cc Ha Hc; [done|].
  destruct Hc as (Hu & Hb & (evidence & He & Hpid & [offset Ho] & Hstart & Hdisc & _) & Hc).
  destruct (packet_located packet packet_start evidence offset Hu Hb He Ho) as (Hr & Hs & _).
  cbn [push_packets]. rewrite He, bind_ok. unfold push_packet. rewrite Hpid, Ha, Ho, Hstart, Hdisc, Hr, Hs. cbn.
  by rewrite (IH (next_counter cc)).
Qed.

(** One packet appended to a header, the rest pushed after it. *)
Lemma push_appended pid assembler packets bytes l p cc cc0 :
  assembler !! pid = None → append_located (pending_new pid cc0) l = Ok p → continues pid (next_counter cc) packets →
  (∀ l p cc0, append_located (pending_new pid cc0) l = Ok p → header_complete p = false →
     pushed pid assembler (l ++ payload_bytes packets) (push_packets (<[pid := set_counter p cc]> assembler) packets)) →
  pushed pid assembler (l ++ bytes ++ payload_bytes packets)
    ('(assembler, completed) ←
       ('(pending, completed) ←
          (pending ← append_located (set_counter p cc) bytes;
           if header_complete pending then completed ← complete_pes_timestamps pending; Ok (pending, Some completed)
           else Ok (pending, None));
        match completed with
        | Some completed => Ok (assembler, completed)
        | None => Ok (<[pid := pending]> assembler, [])
        end);
     '(assembler, more) ← push_packets assembler packets; Ok (assembler, completed ++ more)).
Proof.
  intros Ha Hl Hc IH. pose proof (append_located_app l bytes (pending_new pid cc0)) as Hlb. rewrite Hl, bind_ok in Hlb.
  rewrite append_located_counter. destruct (append_located p bytes) as [q|e] eqn:Eq; cycle 1.
  { pose proof (feed_header pid cc0 (l ++ bytes ++ payload_bytes packets)) as Hf. rewrite app_assoc, append_located_app, Hlb in Hf.
    unfold pushed. rewrite app_assoc. cbn in Hf |- *. by rewrite Hf. }
  rewrite !bind_ok. change (header_complete (set_counter q cc)) with (header_complete q). destruct (header_complete q) eqn:Hq.
  - pose proof (feed_header pid cc0 (l ++ bytes ++ payload_bytes packets)) as Hf.
    rewrite app_assoc, append_located_app, Hlb, bind_ok, append_located_complete in Hf by done. unfold fed in Hf. rewrite Hq in Hf.
    change (complete_pes_timestamps (set_counter q cc)) with (complete_pes_timestamps q). unfold pushed. rewrite app_assoc, Hf.
    destruct (complete_pes_timestamps q) as [fields|e]; [|done]. rewrite !bind_ok. rewrite (push_ignored pid _ _ (next_counter cc)) by done.
    rewrite bind_ok. by rewrite app_nil_r.
  - specialize (IH (l ++ bytes) q cc0 Hlb Hq). rewrite <- app_assoc in IH. rewrite !bind_ok. unfold pushed in *.
    destruct (header_timestamps pid _) as [[fields|]|e]; [by rewrite IH, bind_ok| |by rewrite IH].
    destruct IH as (cc' & e & ->). rewrite bind_ok. by exists cc', e.
Qed.

Lemma push_continues pid assembler packets : ∀ l p cc0 cc,
  assembler !! pid = None → append_located (pending_new pid cc0) l = Ok p → header_complete p = false →
  continues pid (next_counter cc) packets →
  pushed pid assembler (l ++ payload_bytes packets) (push_packets (<[pid := set_counter p cc]> assembler) packets).
Proof.
  induction packets as [|[packet packet_start] packets IH]; intros l p cc0 cc Ha Hl Hp Hc.
  { cbn. rewrite app_nil_r. pose proof (feed_header pid cc0 l) as Hf. rewrite Hl in Hf. unfold fed in Hf. rewrite Hp in Hf.
    destruct Hf as (Hf & e & ->). unfold pushed. rewrite Hf. by exists cc, e. }
  destruct Hc as (Hu & Hb & (evidence & He & Hpid & [offset Ho] & Hstart & Hdisc & Hcc) & Hc).
  destruct (packet_located packet packet_start evidence offset Hu Hb He Ho) as (Hr & Hs & Happ).
  cbn [push_packets]. rewrite He, bind_ok. unfold push_packet, append_pending_pes_header.
  rewrite Hpid, Ho, Hstart, Hdisc, Hr, Hs, lookup_insert_eq, delete_insert_id by done. cbn [andb ok_or]. rewrite !bind_ok.
  change (last_payload_continuity_counter (set_counter p cc)) with cc. change (Z.land ((cc + 1) mod 256) 15) with (next_counter cc).
  rewrite Hcc, Z.eqb_refl. cbn [negb]. change (set_counter (set_counter p cc) (next_counter cc)) with (set_counter p (next_counter cc)).
  rewrite Happ. apply (push_appended pid assembler packets _ l p (next_counter cc) cc0); [done|done|done|].
  intros l' p' cc' Hl' Hp'. by eapply IH.
Qed.

(** ** Theorems *)


(** *** Witnesses *)

(** A header with both timestamps, cut over three packets that are otherwise
    filled by their adaptation fields. *)
Definition example_packet (start counter : Z) (payload : list Z) : list Z :=
  [71; (if start =? 1 then 65 else 1); 0; 48 + counter; 183 - len payload; 0]
  ++ replicate (Z.to_nat (182 - len payload)) 255 ++ payload.

Definition example_packets : list (list Z * Z) :=
  [(example_packet 1 7 [0; 0; 1; 224; 0], 0); (example_packet 0 8 [0; 128; 192; 10; 49; 0], 188);
   (example_packet 0 9 [7; 216; 97; 17; 0; 7; 202; 81; 255; 255], 376)].

Lemma example_packet_u8 : Forall (λ p, Forall is_u8 p.1) example_packets.
Proof.
  assert (∀ l : list Z, forallb (λ x, (0 <=? x) && (x <? 256)) l = true → Forall is_u8 l) as H.
  { intros l Hl. apply Forall_forall. intros x Hx. apply forallb_forall with (x := x) in Hl; [|by apply list_elem_of_In].
    unfold fits. change (2 ^ 8) with 256. lia. }
  do 3 (apply Forall_cons; split; [apply H; vm_compute; reflexivity|]). constructor.
Qed.

Lemma example_carries : carries_header 256 example_packets.
Proof.
  pose proof example_packet_u8 as Hu. apply Forall_cons in Hu as [H1 Hu]. apply Forall_cons in Hu as [H2 Hu]. apply Forall_cons in Hu as [H3 _].
  cbn [carries_header example_packets fst] in *.
  split; [exact H1|]. split; [done|]. do 2 eexists. split_and!; [vm_compute; reflexivity..|].
  cbn [continues]. split_and!; [exact H2|done| |exact H3|done| |done];
    (eexists; split_and!; [vm_compute; reflexivity..| | | |]; [by eexists|vm_compute; reflexivity..]).
Qed.

