(* ===== verification/TsLayout.v ===== *)
(** The layout of a finite transport stream asset
    (backend/mpegts/src/transport_stream_buffer.rs): [build_hls_finite_ts_layout]
    finds the timestamp and programme clock fields of an aligned buffer and
    tabulates, for each packet, the timestamp fields that have a byte in it. *)

From S2P Require Import Prelude TsClock TsPes.
From stdpp Require Import gmap sorting.
#[local] Open Scope Z_scope.

(** The first of the 188 offsets at which five packets in a row start with the
    sync byte. *)
Definition ts_aligned_at (buf : list Z) (offset : Z) : bool :=
  forallb (λ i, bool_decide (get buf (offset + i * TS_PACKET_SIZE) = Some SYNC_BYTE)) (seqZ 0 5).

Definition find_ts_alignment (buf : list Z) : option Z :=
  head (filter (λ offset, ts_aligned_at buf offset = true) (seqZ 0 TS_PACKET_SIZE)).

Record HlsFiniteTsPacketLayout := {
  packet_start : Z;
  layout_pid : Z;
  has_payload : bool;
  timestamp_field_indices_start : Z;
  timestamp_field_indices_end : Z;
  pcr_field_index : option Z;
}.

Record HlsFiniteTsLayout := {
  packets : list HlsFiniteTsPacketLayout;
  timestamp_fields : list HlsTsTimestampFieldLocation;
  pcr_fields : list HlsTsPcrFieldLocation;
  packet_timestamp_field_indices : list Z;
}.

(** *** Scanning the packets *)

Record packet_scan := {
  packet_evidence : list HlsTsPacketEvidence;
  packet_pcr_indices : list (option Z);
  scan_pcr_fields : list HlsTsPcrFieldLocation;
  scan_timestamp_fields : list HlsTsTimestampFieldLocation;
  scan_assembler : HlsPesHeaderAssembler;
}.

Definition empty_scan : packet_scan :=
  {| packet_evidence := []; packet_pcr_indices := []; scan_pcr_fields := []; scan_timestamp_fields := [];
     scan_assembler := ∅ |}.

Definition scan_packet (buffer : list Z) (scan : packet_scan) (packet_index : Z) : layout_result packet_scan :=
  start ← ok_or (checked_mul packet_index TS_PACKET_SIZE) InvalidTransportPacket;
  let packet := slice buffer start (start + TS_PACKET_SIZE) in
  evidence ← inspect_hls_ts_packet packet start;
  '(assembler, completed) ← push_packet (scan_assembler scan) packet start evidence;
  Ok {| packet_evidence := packet_evidence scan ++ [evidence];
        packet_pcr_indices :=
          packet_pcr_indices scan ++
            [match pcr_field evidence with Some _ => Some (len (scan_pcr_fields scan)) | None => None end];
        scan_pcr_fields := scan_pcr_fields scan ++ match pcr_field evidence with Some f => [f] | None => [] end;
        scan_timestamp_fields := scan_timestamp_fields scan ++ map location completed;
        scan_assembler := assembler |}.

(** Left to right over a list, stopping at the first error. *)
Fixpoint try_fold {E A S} (f : S → A → result E S) (l : list A) (s : S) : result E S :=
  match l with
  | [] => Ok s
  | a :: l => s ← f s a; try_fold f l s
  end.

(** [sort_unstable_by_key] on the first byte offset.  The offsets of distinct
    fields are distinct, so that stability does not matter. *)
Definition field_first (field : HlsTsTimestampFieldLocation) : Z := byte_at (byte_offsets field) 0.

Definition field_before (f g : HlsTsTimestampFieldLocation) : Prop := field_first f ≤ field_first g.

#[export] Instance field_before_dec : RelDecision field_before.
Proof. intros f g. apply Z_le_dec. Defined.

Definition sort_fields (fields : list HlsTsTimestampFieldLocation) : list HlsTsTimestampFieldLocation :=
  merge_sort field_before fields.

(** *** The table of the fields of each packet *)

(** [v[i]] for an index inside the vector. *)
Definition at_index (v : list Z) (i : Z) : Z := byte_at v (Z.to_nat i).
Definition set_index (v : list Z) (i x : Z) : list Z := <[Z.to_nat i := x]> v.

(** Counting a field in each packet it touches. *)
Fixpoint count_offsets (buffer_len : Z) (offsets : list Z) (previous_packet : option Z) (counts : list Z)
    : layout_result (list Z) :=
  match offsets with
  | [] => Ok counts
  | offset :: offsets =>
      if buffer_len <=? offset then Err InvalidTimestampLocation else
      let packet_index := offset / TS_PACKET_SIZE in
      if bool_decide (previous_packet = Some packet_index)
      then count_offsets buffer_len offsets previous_packet counts
      else
        count ← ok_or (checked_add (at_index counts packet_index) 1) InvalidTimestampLocation;
        count_offsets buffer_len offsets (Some packet_index) (set_index counts packet_index count)
  end.

Definition timestamp_field_counts (buffer_len packet_count : Z) (fields : list HlsTsTimestampFieldLocation)
    : layout_result (list Z) :=
  try_fold (λ counts field, count_offsets buffer_len (byte_offsets field) None counts) fields
           (replicate (Z.to_nat packet_count) 0).

(** The prefix sums of the counts; the list of the starts is never empty. *)
Definition push_start (starts : list Z) (count : Z) : layout_result (list Z) :=
  next ← ok_or (start ← last starts; checked_add start count) InvalidTimestampLocation;
  Ok (starts ++ [next]).

Definition timestamp_field_starts (counts : list Z) : layout_result (list Z) := try_fold push_start counts [0].

(** Writing the index of a field at the cursor of each packet it touches. *)
Fixpoint fill_offsets (field_index : Z) (offsets : list Z) (previous_packet : option Z) (table cursors : list Z)
    : list Z * list Z :=
  match offsets with
  | [] => (table, cursors)
  | offset :: offsets =>
      let packet_index := offset / TS_PACKET_SIZE in
      if bool_decide (previous_packet = Some packet_index)
      then fill_offsets field_index offsets previous_packet table cursors
      else
        let cursor := at_index cursors packet_index in
        fill_offsets field_index offsets (Some packet_index)
          (set_index table cursor field_index) (set_index cursors packet_index (saturating_add cursor 1))
  end.

Fixpoint fill_fields (field_index : Z) (fields : list HlsTsTimestampFieldLocation) (table cursors : list Z) : list Z :=
  match fields with
  | [] => table
  | field :: fields =>
      let '(table, cursors) := fill_offsets field_index (byte_offsets field) None table cursors in
      fill_fields (field_index + 1) fields table cursors
  end.

Definition packet_layout_at (scan : packet_scan) (starts : list Z) (packet_index : Z) : option HlsFiniteTsPacketLayout :=
  evidence ← get (packet_evidence scan) packet_index;
  pcr_index ← get (packet_pcr_indices scan) packet_index;
  Some {| packet_start := saturating_mul packet_index TS_PACKET_SIZE; layout_pid := evidence_pid evidence;
          has_payload := bool_decide (is_Some (payload_offset evidence));
          timestamp_field_indices_start := at_index starts packet_index;
          timestamp_field_indices_end := at_index starts (saturating_add packet_index 1);
          pcr_field_index := pcr_index |}.

Definition build_hls_finite_ts_layout (buffer : list Z) : layout_result HlsFiniteTsLayout :=
  if (len buffer =? 0) || negb (len buffer mod TS_PACKET_SIZE =? 0) then Err InvalidAsset else
  let packet_count := len buffer / TS_PACKET_SIZE in
  scan ← try_fold (scan_packet buffer) (seqZ 0 packet_count) empty_scan;
  assembler_finish (scan_assembler scan) ≫= λ _,
  let fields := sort_fields (scan_timestamp_fields scan) in
  counts ← timestamp_field_counts (len buffer) packet_count fields;
  starts ← timestamp_field_starts counts;
  let membership_count := default 0 (last starts) in
  let table := fill_fields 0 fields (replicate (Z.to_nat membership_count) 0) (slice starts 0 packet_count) in
  Ok {| packets := omap (packet_layout_at scan starts) (seqZ 0 packet_count); timestamp_fields := fields;
        pcr_fields := scan_pcr_fields scan; packet_timestamp_field_indices := table |}.

(** *** Reading fields back *)

Fixpoint gather_offsets (buffer : list Z) (offsets : list Z) : layout_result (list Z) :=
  match offsets with
  | [] => Ok []
  | offset :: offsets =>
      byte ← ok_or (get buffer offset) InvalidTimestampLocation;
      bytes ← gather_offsets buffer offsets;
      Ok (byte :: bytes)
  end.

Definition gather_timestamp_bytes (buffer : list Z) (location : HlsTsTimestampFieldLocation) : layout_result (list Z) :=
  gather_offsets buffer (byte_offsets location).

Definition decode_timestamp_at_location (buffer : list Z) (location : HlsTsTimestampFieldLocation) : layout_result Z :=
  bytes ← gather_timestamp_bytes buffer location; Ok (decode_timestamp bytes).

Definition decode_pcr_at_location (buffer : list Z) (location : HlsTsPcrFieldLocation) : layout_result Z :=
  end_ ← ok_or (checked_add (pcr_byte_offset location) 6) InvalidTimestampLocation;
  bytes ← ok_or (get_range buffer (pcr_byte_offset location) end_) InvalidTimestampLocation;
  Ok (decode_pcr bytes).

(** ** Lemmas: scanning *)

Lemma try_fold_ind {E A S} (f : S → A → result E S) (I : nat → S → Prop) l s s' :
  I 0%nat s →
  (∀ i s a s', l !! i = Some a → I i s → f s a = Ok s' → I (Datatypes.S i) s') →
  try_fold f l s = Ok s' → I (length l) s'.
Proof.
  revert s I. induction l as [|a l IH]; intros s I H0 Hs H; cbn [try_fold] in H; bind_inv; [done|].
  cbn [length]. apply (IH x (λ i, I (Datatypes.S i))); [by eapply (Hs 0%nat)| |done].
  intros i t b t' Hl. by apply (Hs (Datatypes.S i)).
Qed.

Definition packet_at (buffer : list Z) (k : Z) : list Z := slice buffer (k * TS_PACKET_SIZE) (k * TS_PACKET_SIZE + TS_PACKET_SIZE).

(** Offset [o] of [buffer] holds the byte [b] of a payload of [pid]. *)
Definition located (buffer : list Z) (pid b o : Z) : Prop :=
  ∃ e po, inspect_hls_ts_packet (packet_at buffer (o / TS_PACKET_SIZE)) (o / TS_PACKET_SIZE * TS_PACKET_SIZE) = Ok e ∧
    evidence_pid e = pid ∧ payload_offset e = Some po ∧ po ≤ o mod TS_PACKET_SIZE ∧ 0 ≤ o ∧ get buffer o = Some b ∧ is_u8 b.

Lemma located_pid buffer pid pid' b b' o : located buffer pid b o → located buffer pid' b' o → pid = pid'.
Proof. intros (e & ? & He & <- & _) (e' & ? & He' & <- & _). congruence. Qed.

Lemma located_u8 buffer pid b o : located buffer pid b o → is_u8 b.
Proof. by intros (? & ? & ? & ? & ? & ? & ? & ? & ?). Qed.

Lemma located_bounds buffer pid b o : located buffer pid b o → 0 ≤ o < len buffer.
Proof.
  intros (? & ? & _ & _ & _ & _ & Ho & Hg & _). unfold get in Hg. destruct (0 <=? o); [|done].
  apply lookup_lt_Some in Hg. unfold len. lia.
Qed.

Lemma payload_placed buffer k e po :
  Forall is_u8 buffer → 0 ≤ k → (k + 1) * TS_PACKET_SIZE ≤ len buffer →
  inspect_hls_ts_packet (packet_at buffer k) (k * TS_PACKET_SIZE) = Ok e → payload_offset e = Some po →
  0 ≤ po ∧ placed (located buffer (evidence_pid e)) (slice (packet_at buffer k) po (len (packet_at buffer k)))
                  (k * TS_PACKET_SIZE + po).
Proof.
  intros Hu Hk Hlen He Hpo. change TS_PACKET_SIZE with 188 in *.
  destruct (inspect_ok (packet_at buffer k) _ _ (Forall_slice _ _ _ _ Hu) He) as [Hl _ _ Hp _ _]. specialize (Hp po Hpo).
  split; [lia|]. intros i b Hi. rewrite Hl in Hi. change TS_PACKET_SIZE with 188 in Hi.
  rewrite slice_lookup in Hi by lia. destruct (Z.ltb_spec (Z.of_nat i) (188 - po)); [|done].
  unfold packet_at in Hi. change TS_PACKET_SIZE with 188 in Hi. rewrite slice_lookup in Hi by lia.
  destruct (Z.ltb_spec (Z.of_nat (Z.to_nat po + i)) (k * 188 + 188 - k * 188)); [|done].
  set (o := k * 188 + po + Z.of_nat i).
  assert (o / 188 = k ∧ o mod 188 = po + Z.of_nat i) as [Ek Em] by (unfold o; lia).
  assert (get buffer o = Some b) as Hg.
  { unfold get. replace (0 <=? o) with true by lia. rewrite <- Hi. f_equal. unfold o. lia. }
  exists e, po. change TS_PACKET_SIZE with 188. rewrite Ek, Em. split_and!; try done; try lia.
  unfold get in Hg. replace (0 <=? o) with true in Hg by lia. by eapply Forall_lookup_1.
Qed.

(** What the scan knows after [k] packets. *)
Record scanned (buffer : list Z) (k : nat) (scan : packet_scan) : Prop := {
  sc_evidence : length (packet_evidence scan) = k ∧ ∀ i e, packet_evidence scan !! i = Some e →
    inspect_hls_ts_packet (packet_at buffer (Z.of_nat i)) (Z.of_nat i * TS_PACKET_SIZE) = Ok e;
  sc_pcr_index : length (packet_pcr_indices scan) = k ∧ ∀ i e j, packet_evidence scan !! i = Some e →
    packet_pcr_indices scan !! i = Some j →
    match j with
    | Some j => 0 ≤ j ∧ ∃ f, pcr_field e = Some f ∧ scan_pcr_fields scan !! Z.to_nat j = Some f
    | None => pcr_field e = None
    end;
  sc_pcr : scan_pcr_fields scan = omap pcr_field (packet_evidence scan);
  sc_fields : ∃ emitted, scan_timestamp_fields scan = map location emitted ∧
    assembling (located buffer) (scan_assembler scan) emitted (Z.of_nat k * TS_PACKET_SIZE);
}.

Lemma scan_packet_scanned buffer k scan scan' :
  Forall is_u8 buffer → (Z.of_nat k + 1) * TS_PACKET_SIZE ≤ len buffer →
  scanned buffer k scan → scan_packet buffer scan (Z.of_nat k) = Ok scan' → scanned buffer (S k) scan'.
Proof.
  intros Hu Hlen [[Le He] [Lp Hp] Hf (emitted & Em & Has)] H. unfold scan_packet in H. bind_inv.
  match goal with H : checked_mul _ _ = Some _ |- _ => apply checked_mul_inv in H as [-> _] end.
  fold (packet_at buffer (Z.of_nat k)) in *. destruct x1 as [assembler completed]. bind_inv. rename x0 into e.
  match goal with H : inspect_hls_ts_packet _ _ = Ok e |- _ => rename H into Hi end.
  match goal with H : push_packet _ _ _ _ = Ok _ |- _ => rename H into Hpush end.
  set (k := length (packet_evidence scan)) in *.
  constructor; cbn [packet_evidence packet_pcr_indices scan_pcr_fields scan_timestamp_fields scan_assembler].
  - rewrite length_app. cbn. split; [lia|]. intros i e' [[? Hl] | [-> ->]]%lookup_snoc_Some; [by apply He|done].
  - rewrite length_app. cbn. split; [lia|].
    intros i e' j [[? Hl] | [? ?]]%lookup_snoc_Some [[? Hj] | [? ?]]%lookup_snoc_Some; try (exfalso; lia); subst e || idtac.
    + specialize (Hp i e' j Hl Hj). destruct j as [j|]; [|done]. destruct Hp as (? & f & ? & ?). split; [done|].
      exists f. split; [done|]. by apply lookup_app_l_Some.
    + subst j. destruct (pcr_field e') as [f|]; [|done]. split; [apply len_nonneg|]. exists f. split; [done|].
      rewrite lookup_app_r by (unfold len; lia). unfold len. by rewrite Nat2Z.id, Nat.sub_diag.
  - rewrite omap_app, Hf. cbn. by destruct (pcr_field e).
  - exists (emitted ++ completed). rewrite map_app, Em. split; [done|].
    pose proof (in_len _ _ _ (inspect_ok _ _ _ (Forall_slice _ _ _ _ Hu) Hi)) as Hpl.
    replace (Z.of_nat (S k) * TS_PACKET_SIZE) with (Z.of_nat k * TS_PACKET_SIZE + len (packet_at buffer (Z.of_nat k)))
      by (unfold packet_at; rewrite Hpl; lia).
    eapply (push_packet_assembling (located buffer)); [apply located_pid|apply located_u8|exact Has|lia| | |exact Hpush].
    + change TS_PACKET_SIZE with 188. lia.
    + intros po Hpo. apply payload_placed; try done; lia.
Qed.

Lemma scan_all buffer n scan :
  Forall is_u8 buffer → 0 ≤ n → n * TS_PACKET_SIZE ≤ len buffer →
  try_fold (scan_packet buffer) (seqZ 0 n) empty_scan = Ok scan → scanned buffer (Z.to_nat n) scan.
Proof.
  intros Hu Hn Hlen H.
  eapply (try_fold_ind _ (scanned buffer)) in H.
  - by rewrite length_seqZ in H.
  - constructor; cbn; try done. exists []. split; [done|]. apply assembling_empty.
  - intros i s a s' Hl Hi Hstep. apply lookup_seqZ in Hl as [-> Hlt].
    rewrite Z.add_0_l in Hstep. eapply scan_packet_scanned; [done| |done|done]. change TS_PACKET_SIZE with 188 in *. lia.
Qed.

(** ** Lemmas: the table

    The two loops over the fields visit the same packets in the same order;
    an event [(p, i)] is a visit of packet [p] for field [i]. *)

Fixpoint visited (offsets : list Z) (previous_packet : option Z) : list Z :=
  match offsets with
  | [] => []
  | offset :: offsets =>
      if bool_decide (previous_packet = Some (offset / TS_PACKET_SIZE)) then visited offsets previous_packet
      else offset / TS_PACKET_SIZE :: visited offsets (Some (offset / TS_PACKET_SIZE))
  end.

Fixpoint events (field_index : Z) (fields : list HlsTsTimestampFieldLocation) : list (Z * Z) :=
  match fields with
  | [] => []
  | field :: fields =>
      map (λ p, (p, field_index)) (visited (byte_offsets field) None) ++ events (field_index + 1) fields
  end.

Definition count_of (p : Z) (E : list (Z * Z)) : Z := len (filter (λ e, e.1 = p) E).
Definition start_of (p : Z) (E : list (Z * Z)) : Z := len (filter (λ e, e.1 < p) E).
Definition bucket (p : Z) (E : list (Z * Z)) : list Z := map snd (filter (λ e, e.1 = p) E).

Lemma count_of_nonneg p E : 0 ≤ count_of p E.
Proof. apply len_nonneg. Qed.

Lemma len_bucket p E : len (bucket p E) = count_of p E.
Proof. unfold bucket, count_of, len. by rewrite length_map. Qed.

Lemma count_of_app p E F : count_of p (E ++ F) = count_of p E + count_of p F.
Proof. unfold count_of. by rewrite filter_app, len_app. Qed.

Lemma count_of_one p q i : count_of p [(q, i)] = if decide (q = p) then 1 else 0.
Proof. unfold count_of. rewrite filter_cons. cbn. by destruct (decide (q = p)). Qed.

Lemma bucket_app p E F : bucket p (E ++ F) = bucket p E ++ bucket p F.
Proof. unfold bucket. by rewrite filter_app, map_app. Qed.

Lemma bucket_one p q i : bucket p [(q, i)] = if decide (q = p) then [i] else [].
Proof. unfold bucket. rewrite filter_cons. cbn. by destruct (decide (q = p)). Qed.

Lemma start_of_next p E : start_of (p + 1) E = start_of p E + count_of p E.
Proof.
  unfold start_of, count_of. induction E as [|[q i] E IH]; [done|]. rewrite !filter_cons. cbn [fst].
  destruct (decide (q < p + 1)), (decide (q < p)), (decide (q = p)); rewrite ?len_cons; lia.
Qed.

Lemma start_of_mono p q E : p ≤ q → start_of p E ≤ start_of q E.
Proof.
  intros. unfold start_of. induction E as [|[r i] E IH]; [done|]. rewrite !filter_cons. cbn [fst].
  destruct (decide (r < p)), (decide (r < q)); rewrite ?len_cons; lia.
Qed.

Lemma start_of_zero E : Forall (λ e, 0 ≤ e.1) E → start_of 0 E = 0.
Proof.
  unfold start_of. induction 1 as [|e E He HE IH]; [done|]. rewrite filter_cons_False by lia. exact IH.
Qed.

Lemma start_of_all n E : Forall (λ e, e.1 < n) E → start_of n E = len E.
Proof.
  unfold start_of. induction 1 as [|e E He HE IH]; [done|]. rewrite filter_cons_True by lia. by rewrite !len_cons, IH.
Qed.

(** *** Indexed access *)

Lemma at_set_eq v i x : 0 ≤ i < len v → at_index (set_index v i x) i = x.
Proof.
  intros. unfold at_index, set_index, byte_at. rewrite list_lookup_insert_eq by (unfold len in *; lia). done.
Qed.

Lemma at_set_ne v i j x : 0 ≤ i → 0 ≤ j → i ≠ j → at_index (set_index v i x) j = at_index v j.
Proof. intros. unfold at_index, set_index, byte_at. by rewrite list_lookup_insert_ne by lia. Qed.

Lemma len_set v i x : len (set_index v i x) = len v.
Proof. unfold len, set_index. by rewrite length_insert. Qed.

Lemma at_replicate n i : at_index (replicate n 0) i = 0.
Proof. unfold at_index, byte_at. destruct (replicate n 0 !! _) as [x|] eqn:E; [|done]. by apply lookup_replicate in E as [-> _]. Qed.

(** A slice that the update misses, and one it extends. *)
Lemma slice_set_miss v i x lo hi : 0 ≤ lo → 0 ≤ i → i < lo ∨ hi ≤ i → slice (set_index v i x) lo hi = slice v lo hi.
Proof.
  intros Hlo Hi Hmiss. apply slice_eq_lookup; [done|]. intros j Hj. unfold set_index.
  apply list_lookup_insert_ne. lia.
Qed.

Lemma slice_set_snoc v lo hi x :
  0 ≤ lo ≤ hi → hi < len v → slice (set_index v hi x) lo (hi + 1) = slice v lo hi ++ [x].
Proof.
  intros Hlo Hhi. rewrite (slice_cut _ lo hi (hi + 1)) by lia. f_equal.
  - apply slice_set_miss; lia.
  - apply list_eq. intros i. rewrite slice_lookup by lia. destruct i as [|i].
    + decide_ifs. unfold set_index. rewrite Nat.add_0_r. rewrite list_lookup_insert_eq by (unfold len in *; lia). done.
    + by decide_ifs.
Qed.

(** *** The three passes *)

Lemma count_offsets_visited buffer_len offsets : ∀ previous counts counts' E,
  (∀ p, 0 ≤ p < len counts → at_index counts p = count_of p E) →
  Forall (λ o, 0 ≤ o) offsets → buffer_len ≤ len counts * TS_PACKET_SIZE →
  count_offsets buffer_len offsets previous counts = Ok counts' →
  len counts' = len counts ∧ Forall (λ o, o < buffer_len) offsets ∧
  ∀ i p, 0 ≤ p < len counts → at_index counts' p = count_of p (E ++ map (λ q, (q, i)) (visited offsets previous)).
Proof.
  induction offsets as [|o offsets IH]; intros previous counts counts' E HE Hnn Hlen H; cbn [count_offsets visited] in *.
  { bind_inv. split_and!; [done|done|]. intros i p Hp. cbn. rewrite app_nil_r. by apply HE. }
  apply Forall_cons in Hnn as [Ho Hnn]. destruct (Z.leb_spec buffer_len o); [done|].
  case_bool_decide as Hprev.
  { destruct (IH _ _ _ E HE Hnn Hlen H) as (? & ? & ?). split_and!; auto. }
  bind_inv. match goal with H : checked_add _ _ = Some _ |- _ => apply checked_add_inv in H as [-> _] end.
  change TS_PACKET_SIZE with 188 in *. assert (0 ≤ o / 188 < len counts) as Hidx by lia.
  assert (∀ j p, 0 ≤ p < len counts → at_index (set_index counts (o / 188) (at_index counts (o / 188) + 1)) p
            = count_of p (E ++ [(o / 188, j)])) as HE'.
  { intros j p Hp. rewrite count_of_app, count_of_one. destruct (decide (o / 188 = p)) as [<-|Hne].
    - rewrite at_set_eq by lia. rewrite HE by lia. done.
    - rewrite at_set_ne by lia. rewrite HE by lia. lia. }
  assert (∀ j, len counts' = len counts ∧ Forall (λ o, o < buffer_len) offsets ∧
     ∀ i p, 0 ≤ p < len counts → at_index counts' p =
       count_of p ((E ++ [(o / 188, j)]) ++ map (λ q, (q, i)) (visited offsets (Some (o / 188))))) as Hrec.
  { intros j. rewrite <- (len_set counts (o / 188) (at_index counts (o / 188) + 1)).
    apply (IH (Some (o / 188))); rewrite ?len_set; try done. apply HE'. }
  destruct (Hrec 0) as (? & ? & _). split_and!; [done|auto|].
  intros i p Hp. destruct (Hrec i) as (_ & _ & Hr). rewrite (Hr i p Hp). by rewrite <- app_assoc.
Qed.

Lemma timestamp_field_counts_events buffer_len n fields counts :
  0 ≤ n → buffer_len ≤ n * TS_PACKET_SIZE → Forall (λ f, Forall (λ o, 0 ≤ o) (byte_offsets f)) fields →
  timestamp_field_counts buffer_len n fields = Ok counts →
  len counts = n ∧ Forall (λ f, Forall (λ o, o < buffer_len) (byte_offsets f)) fields ∧
  ∀ p, 0 ≤ p < n → at_index counts p = count_of p (events 0 fields).
Proof.
  intros Hn Hlen Hnn. unfold timestamp_field_counts.
  assert (len (replicate (Z.to_nat n) 0) = n) as Hl by (by apply len_replicate).
  assert (∀ p, 0 ≤ p < n → at_index (replicate (Z.to_nat n) 0) p = count_of p []) as Hz by (intros; apply at_replicate).
  revert Hl Hz. generalize (replicate (Z.to_nat n) 0) as c. change (events 0 fields) with ([] ++ events 0 fields).
  generalize (@nil (Z * Z)) as E. generalize 0 at 3 as k. revert counts.
  induction fields as [|f fields IH]; intros counts k E c Hl Hz H; cbn [try_fold events] in *.
  { bind_inv. rewrite app_nil_r. done. }
  apply Forall_cons in Hnn as [Hf Hnn]. bind_inv.
  match goal with H : count_offsets _ _ _ _ = Ok _ |- _ =>
    eapply (count_offsets_visited _ _ _ _ _ E) in H as (Hl' & Hb & Hc); [|by rewrite Hl|done|by rewrite Hl] end.
  rewrite Hl in *. edestruct (IH Hnn) as (? & ? & Hrest); [exact Hl'|apply (Hc k)|exact H|].
  split_and!; [done|auto|]. intros p Hp. rewrite Hrest by done. by rewrite <- app_assoc.
Qed.

Lemma at_index_lookup v (i : nat) x : v !! i = Some x → at_index v (Z.of_nat i) = x.
Proof. unfold at_index, byte_at. rewrite Nat2Z.id. by intros ->. Qed.

Lemma at_index_snoc v x p : 0 ≤ p → at_index (v ++ [x]) p = if decide (p = len v) then x else at_index v p.
Proof.
  intros Hp. unfold at_index, byte_at. destruct (decide (p = len v)) as [->|Hne].
  - unfold len. rewrite Nat2Z.id. rewrite lookup_app_r by lia. by rewrite Nat.sub_diag.
  - destruct (decide (p < len v)); unfold len in *; [by rewrite lookup_app_l by lia|].
    rewrite !lookup_ge_None_2; [done|lia|rewrite length_app; cbn; lia].
Qed.

Lemma timestamp_field_starts_events counts starts E :
  (∀ p, 0 ≤ p < len counts → at_index counts p = count_of p E) → Forall (λ e, 0 ≤ e.1) E →
  timestamp_field_starts counts = Ok starts →
  len starts = len counts + 1 ∧ (∀ p, 0 ≤ p ≤ len counts → at_index starts p = start_of p E) ∧
  last starts = Some (start_of (len counts) E) ∧ start_of (len counts) E < 2 ^ 64.
Proof.
  intros Hc HE H. unfold timestamp_field_starts in H.
  eapply (try_fold_ind _ (λ i st, len st = Z.of_nat i + 1 ∧
    (∀ p, 0 ≤ p ≤ Z.of_nat i → at_index st p = start_of p E) ∧
    last st = Some (start_of (Z.of_nat i) E) ∧ start_of (Z.of_nat i) E < 2 ^ 64)) in H; [exact H| |].
  - rewrite start_of_zero by done. split_and!; try done. intros p Hp. replace p with 0 by lia. by rewrite start_of_zero.
  - intros i st count st' Hi (Hl & Hat & Hlast & Hb) Hs. unfold push_start in Hs. rewrite Hlast in Hs.
    cbn [mbind option_bind] in Hs. bind_inv.
    match goal with H : checked_add _ _ = Some _ |- _ => apply checked_add_inv in H as [-> Hadd] end.
    assert (count = count_of (Z.of_nat i) E) as ->.
    { rewrite <- Hc by (apply lookup_lt_Some in Hi; unfold len; lia). symmetry. by apply at_index_lookup. }
    rewrite <- start_of_next in *. replace (Z.of_nat (S i)) with (Z.of_nat i + 1) by lia. split_and!; try done.
    + rewrite len_app, Hl. done.
    + intros p Hp. rewrite at_index_snoc by lia. rewrite Hl. destruct (decide _) as [->|]; [done|]. apply Hat. lia.
    + apply last_snoc.
Qed.

(** The fill pass has placed the events [D] of [E]. *)
Record filling (E D : list (Z * Z)) (n : Z) (table cursors : list Z) : Prop := {
  fi_table : len table = start_of n E;
  fi_cursors : len cursors = n ∧ ∀ p, 0 ≤ p < n → at_index cursors p = start_of p E + count_of p D;
  fi_placed : ∀ p, 0 ≤ p < n → slice table (start_of p E) (start_of p E + count_of p D) = bucket p D;
}.

Lemma place_filling E D R n table cursors p i :
  E = D ++ (p, i) :: R → 0 ≤ p < n → start_of n E < 2 ^ 64 → filling E D n table cursors →
  filling E (D ++ [(p, i)]) n (set_index table (at_index cursors p) i)
          (set_index cursors p (saturating_add (at_index cursors p) 1)).
Proof.
  intros HE Hp Hb [Ht [Lc Hc] Hpl].
  assert (count_of p D + 1 ≤ count_of p E) as Hcnt.
  { rewrite HE, (cons_middle _ D R), !count_of_app, count_of_one, decide_True by done.
    pose proof (count_of_nonneg p R). lia. }
  pose proof (start_of_next p E) as Hnext. pose proof (start_of_mono (p + 1) n E ltac:(lia)) as Hmono.
  assert (0 ≤ start_of p E) by (apply len_nonneg). pose proof (count_of_nonneg p D).
  rewrite Hc by done. set (cur := start_of p E + count_of p D) in *.
  assert (saturating_add cur 1 = cur + 1) as -> by (unfold saturating_add; lia).
  constructor.
  - by rewrite len_set.
  - rewrite len_set. split; [done|]. intros q Hq. rewrite count_of_app, count_of_one.
    destruct (decide (p = q)) as [<-|Hne]; [rewrite at_set_eq by lia; lia|].
    rewrite at_set_ne by lia. rewrite Hc by done. lia.
  - intros q Hq. rewrite count_of_app, count_of_one, bucket_app, bucket_one.
    destruct (decide (p = q)) as [<-|Hne].
    + rewrite Z.add_assoc. fold cur. rewrite slice_set_snoc by lia. by rewrite Hpl.
    + rewrite Z.add_0_r, app_nil_r. rewrite slice_set_miss; [by apply Hpl|apply len_nonneg|lia|].
      assert (count_of q D ≤ count_of q E) by (rewrite HE, count_of_app; pose proof (count_of_nonneg q ((p, i) :: R)); lia).
      pose proof (start_of_next q E).
      destruct (Z.lt_trichotomy q p) as [Hlt | [-> | Hlt]]; [|done|].
      * right. pose proof (start_of_mono (q + 1) p E ltac:(lia)). lia.
      * left. pose proof (start_of_mono (p + 1) q E ltac:(lia)). lia.
Qed.

Lemma fill_offsets_filling E n i offsets : ∀ previous D R table cursors,
  E = D ++ map (λ p, (p, i)) (visited offsets previous) ++ R →
  Forall (λ o, 0 ≤ o < n * TS_PACKET_SIZE) offsets → start_of n E < 2 ^ 64 → filling E D n table cursors →
  let '(table', cursors') := fill_offsets i offsets previous table cursors in
  filling E (D ++ map (λ p, (p, i)) (visited offsets previous)) n table' cursors'.
Proof.
  induction offsets as [|o offsets IH]; intros previous D R table cursors HE Ho Hb Hf; cbn [fill_offsets visited] in *.
  { by rewrite app_nil_r. }
  apply Forall_cons in Ho as [Ho Hos]. case_bool_decide; [by eapply IH|].
  change TS_PACKET_SIZE with 188 in *. cbn [map] in *.
  replace (D ++ (o / 188, i) :: map (λ p, (p, i)) (visited offsets (Some (o / 188))))
    with ((D ++ [(o / 188, i)]) ++ map (λ p, (p, i)) (visited offsets (Some (o / 188)))) by (by rewrite <- app_assoc).
  eapply IH; [|done|done|].
  - rewrite HE, <- app_assoc. done.
  - eapply place_filling; [exact HE|lia|done|done].
Qed.

Lemma fill_fields_filling E n fields : ∀ i D table cursors,
  E = D ++ events i fields → Forall (λ f, Forall (λ o, 0 ≤ o < n * TS_PACKET_SIZE) (byte_offsets f)) fields →
  start_of n E < 2 ^ 64 → filling E D n table cursors →
  ∃ cursors', filling E E n (fill_fields i fields table cursors) cursors'.
Proof.
  induction fields as [|f fields IH]; intros i D table cursors HE Hf Hb Hfill; cbn [events fill_fields] in *.
  { rewrite app_nil_r in HE. subst. eauto. }
  apply Forall_cons in Hf as [Hf Hfs].
  pose proof (fill_offsets_filling E n i (byte_offsets f) None D _ table cursors HE Hf Hb Hfill) as Hstep.
  destruct (fill_offsets _ _ _ _ _) as [table' cursors']. eapply IH; [|done|done|exact Hstep].
  by rewrite <- app_assoc.
Qed.

(** [f] has a byte in packet [p]. *)
Definition touches (f : HlsTsTimestampFieldLocation) (p : Z) : bool :=
  existsb (λ o, o / TS_PACKET_SIZE =? p) (byte_offsets f).

Fixpoint touching (p k : Z) (fields : list HlsTsTimestampFieldLocation) : list Z :=
  match fields with
  | [] => []
  | f :: fields => (if touches f p then [k] else []) ++ touching p (k + 1) fields
  end.

Lemma visited_at_most_once p i offsets : ∀ previous,
  StronglySorted Z.lt offsets →
  (∀ q, previous = Some q → Forall (λ o, q ≤ o / TS_PACKET_SIZE) offsets) →
  bucket p (map (λ q, (q, i)) (visited offsets previous)) =
  if existsb (λ o, o / TS_PACKET_SIZE =? p) offsets && negb (bool_decide (previous = Some p)) then [i] else [].
Proof.
  change TS_PACKET_SIZE with 188.
  induction offsets as [|o offsets IH]; intros previous Hs Hprev; [done|].
  apply StronglySorted_cons in Hs as [Hlt Hs]. cbn [visited existsb]. change TS_PACKET_SIZE with 188.
  case_bool_decide as Hp.
  - rewrite IH; [|done|intros q Hq; by specialize (Hprev q Hq); apply Forall_cons in Hprev as [_ ?]]. subst previous.
    destruct (Z.eqb_spec (o / 188) p) as [->|]; [|done]. rewrite bool_decide_true by done. by rewrite !andb_false_r.
  - cbn [map]. match goal with |- context [bucket p (?e :: ?l)] => change (e :: l) with ([e] ++ l) end.
    rewrite bucket_app, bucket_one. rewrite IH; [|done|].
    2:{ intros q [= <-]. eapply Forall_impl; [exact Hlt|]. cbn. lia. }
    destruct (decide (o / 188 = p)) as [E|Hne].
    + subst p. rewrite Z.eqb_refl, !bool_decide_true by done. cbn. rewrite andb_false_r. cbn.
      case_bool_decide; done.
    + replace (o / 188 =? p) with false by lia. rewrite (bool_decide_false (Some (o / 188) = Some p)) by congruence.
      cbn. rewrite andb_true_r. case_bool_decide as Hpp; [|by rewrite andb_true_r].
      destruct (existsb (λ o, o / 188 =? p) offsets) eqn:Hex; [|done]. exfalso.
      apply existsb_exists in Hex as (o' & Ho' & E'%Z.eqb_eq). apply list_elem_of_In in Ho'.
      specialize (Hprev p Hpp). apply Forall_cons in Hprev as [Hle _].
      rewrite Forall_forall in Hlt. specialize (Hlt o' Ho'). lia.
Qed.

Lemma bucket_events p fields : ∀ k,
  Forall (λ f, StronglySorted Z.lt (byte_offsets f)) fields → bucket p (events k fields) = touching p k fields.
Proof.
  induction fields as [|f fields IH]; intros k Hs; [done|]. apply Forall_cons in Hs as [Hf Hs].
  cbn [events touching]. rewrite bucket_app, IH by done. f_equal.
  rewrite visited_at_most_once by done. rewrite bool_decide_false by done. cbn. by rewrite andb_true_r.
Qed.

Lemma elem_of_touching p fields i : ∀ k,
  i ∈ touching p k fields ↔ ∃ f, k ≤ i ∧ fields !! Z.to_nat (i - k) = Some f ∧ touches f p = true.
Proof.
  induction fields as [|f fields IH]; intros k; cbn [touching].
  { split; [by intros ?%not_elem_of_nil|]. intros (f & _ & H & _). by rewrite lookup_nil in H. }
  rewrite elem_of_app, IH. split.
  - intros [H | (g & ? & ? & ?)].
    + destruct (touches f p) eqn:E; [|by apply not_elem_of_nil in H]. apply list_elem_of_singleton in H as ->.
      exists f. rewrite Z.sub_diag. split_and!; try done; lia.
    + exists g. split; [lia|]. split; [|done]. by replace (Z.to_nat (i - k)) with (S (Z.to_nat (i - (k + 1)))) by lia.
  - intros (g & Hk & Hl & Ht). destruct (decide (i = k)) as [->|Hne].
    + rewrite Z.sub_diag in Hl. injection Hl as ->. rewrite Ht. left. by apply list_elem_of_singleton.
    + right. exists g. split; [lia|]. split; [|done].
      by replace (Z.to_nat (i - k)) with (S (Z.to_nat (i - (k + 1)))) in Hl by lia.
Qed.

Lemma touching_sorted p fields : ∀ k, StronglySorted Z.lt (touching p k fields) ∧ Forall (λ i, k ≤ i) (touching p k fields).
Proof.
  induction fields as [|f fields IH]; intros k; cbn [touching]; [split; constructor|].
  destruct (IH (k + 1)) as [Hs Hk]. destruct (touches f p); cbn [app].
  - split.
    + constructor; [done|]. eapply Forall_impl; [exact Hk|]. cbn. lia.
    + constructor; [lia|]. eapply Forall_impl; [exact Hk|]. cbn. lia.
  - split; [done|]. eapply Forall_impl; [exact Hk|]. cbn. lia.
Qed.

Lemma visited_in offsets : ∀ previous, Forall (λ p, ∃ o, o ∈ offsets ∧ p = o / TS_PACKET_SIZE) (visited offsets previous).
Proof.
  induction offsets as [|o offsets IH]; intros previous; cbn [visited]; [constructor|].
  case_bool_decide; [|constructor; [exists o; split; [left|done]|]];
    (eapply Forall_impl; [apply IH|]; cbn; intros ? (x & ? & ?); exists x; split; [by right|done]).
Qed.

Lemma events_bounds n fields : ∀ k,
  Forall (λ f, Forall (λ o, 0 ≤ o < n * TS_PACKET_SIZE) (byte_offsets f)) fields →
  Forall (λ e, 0 ≤ e.1 < n) (events k fields).
Proof.
  induction fields as [|f fields IH]; intros k Hf; [constructor|]. apply Forall_cons in Hf as [Hf Hfs].
  cbn [events]. apply Forall_app. split; [|by apply IH]. rewrite Forall_map. eapply Forall_impl; [apply visited_in|].
  cbn. intros p (o & Ho & ->). rewrite Forall_forall in Hf. specialize (Hf o Ho). change TS_PACKET_SIZE with 188 in *. lia.
Qed.

(** ** What a layout guarantees *)

Definition field_located (buffer : list Z) (f : HlsTsTimestampFieldLocation) : Prop :=
  ∃ bytes, length (byte_offsets f) = 5%nat ∧ Forall2 (located buffer (field_pid f)) bytes (byte_offsets f) ∧
    timestamp_field bytes ∧ prefix_of_kind (field_kind f) (byte_at bytes 0 / 16) ∧ StronglySorted Z.lt (byte_offsets f).

Definition field_offsets (fields : list HlsTsTimestampFieldLocation) : list Z := mjoin (map byte_offsets fields).

Record packet_described (buffer : list Z) (layout : HlsFiniteTsLayout) (k : Z) (L : HlsFiniteTsPacketLayout)
    (e : HlsTsPacketEvidence) : Prop := {
  pd_inspect : inspect_hls_ts_packet (packet_at buffer k) (k * TS_PACKET_SIZE) = Ok e;
  pd_start : packet_start L = k * TS_PACKET_SIZE;
  pd_pid : layout_pid L = evidence_pid e;
  pd_payload : has_payload L = bool_decide (is_Some (payload_offset e));
  pd_pcr : match pcr_field_index L with
           | Some j => 0 ≤ j ∧ ∃ f, pcr_field e = Some f ∧ pcr_fields layout !! Z.to_nat j = Some f
           | None => pcr_field e = None
           end;
  pd_range : 0 ≤ timestamp_field_indices_start L ≤ timestamp_field_indices_end L ∧
             timestamp_field_indices_end L ≤ len (packet_timestamp_field_indices layout);
  pd_fields : slice (packet_timestamp_field_indices layout)
                (timestamp_field_indices_start L) (timestamp_field_indices_end L)
              = touching k 0 (timestamp_fields layout);
}.

Record layout_ok (buffer : list Z) (layout : HlsFiniteTsLayout) : Prop := {
  lo_count : len buffer = len (packets layout) * TS_PACKET_SIZE;
  lo_packets : ∀ (k : nat) L, packets layout !! k = Some L → ∃ e, packet_described buffer layout (Z.of_nat k) L e;
  lo_fields : Forall (field_located buffer) (timestamp_fields layout);
  lo_nodup : NoDup (field_offsets (timestamp_fields layout));
  lo_sorted : StronglySorted field_before (timestamp_fields layout);
  lo_pcr : ∃ evidence, length evidence = length (packets layout) ∧ pcr_fields layout = omap pcr_field evidence ∧
    ∀ i e, evidence !! i = Some e →
      inspect_hls_ts_packet (packet_at buffer (Z.of_nat i)) (Z.of_nat i * TS_PACKET_SIZE) = Ok e;
}.

#[export] Instance field_before_trans : Transitive field_before.
Proof. intros f g h. unfold field_before. lia. Qed.

#[export] Instance field_before_total : Total field_before.
Proof. intros f g. unfold field_before. lia. Qed.

Lemma field_offsets_emitted emitted : field_offsets (map location emitted) = offsets_of emitted.
Proof. unfold field_offsets, offsets_of. by rewrite map_map. Qed.

Lemma field_offsets_perm fields fields' : fields ≡ₚ fields' → field_offsets fields ≡ₚ field_offsets fields'.
Proof. intros H. unfold field_offsets. apply join_Permutation. by apply Permutation_map. Qed.

Lemma emitted_located buffer emitted :
  Forall (λ f, field_sound (located buffer (field_pid (location f))) f) emitted →
  Forall (field_located buffer) (map location emitted).
Proof.
  intros H. rewrite Forall_map. eapply Forall_impl; [exact H|]. cbn. intros f [].
  exists (field_bytes f). by split_and!.
Qed.

Lemma located_offsets buffer f : field_located buffer f → Forall (λ o, 0 ≤ o < len buffer) (byte_offsets f).
Proof.
  intros (bytes & _ & H2 & _). rewrite Forall_forall. intros o Ho.
  destruct (Forall2_elem_r _ _ _ _ H2 Ho) as (b & _ & Hl). by eapply located_bounds.
Qed.

Lemma omap_total {A B} (f : A → option B) l :
  Forall (λ a, is_Some (f a)) l → length (omap f l) = length l ∧ ∀ i, omap f l !! i = l !! i ≫= f.
Proof.
  induction 1 as [|a l [b Ha] Hl [Hlen IH]]; [done|]. cbn. rewrite Ha. cbn. split; [by f_equal|].
  intros [|i]; [done|]. apply IH.
Qed.

Lemma packet_layouts buffer n scan starts :
  scanned buffer (Z.to_nat n) scan → 0 ≤ n →
  let layouts := omap (packet_layout_at scan starts) (seqZ 0 n) in
  len layouts = n ∧
  ∀ k L, layouts !! k = Some L → ∃ e j, packet_evidence scan !! k = Some e ∧ packet_pcr_indices scan !! k = Some j ∧
    Z.of_nat k < n ∧ packet_layout_at scan starts (Z.of_nat k) = Some L.
Proof.
  intros Hs Hn. cbv zeta.
  assert (∀ k, 0 ≤ k < n → ∃ e j, packet_evidence scan !! Z.to_nat k = Some e ∧ packet_pcr_indices scan !! Z.to_nat k = Some j)
    as Hlook.
  { intros k Hk. destruct (sc_evidence _ _ _ Hs) as [Le _], (sc_pcr_index _ _ _ Hs) as [Lp _].
    destruct (lookup_lt_is_Some_2 (packet_evidence scan) (Z.to_nat k)) as [e He]; [lia|].
    destruct (lookup_lt_is_Some_2 (packet_pcr_indices scan) (Z.to_nat k)) as [j Hj]; [lia|]. eauto. }
  destruct (omap_total (packet_layout_at scan starts) (seqZ 0 n)) as [Hlen Hl].
  { rewrite Forall_forall. intros k Hk%elem_of_seqZ. destruct (Hlook k ltac:(lia)) as (e & j & He & Hj).
    unfold packet_layout_at, get. replace (0 <=? k) with true by lia. rewrite He. cbn. rewrite Hj. cbn. eauto. }
  split.
  - unfold len. rewrite Hlen, length_seqZ. lia.
  - intros k L HL. rewrite Hl in HL. destruct (seqZ 0 n !! k) as [m|] eqn:Em; [|done].
    apply lookup_seqZ in Em as [-> Hk]. rewrite Z.add_0_l in *. cbn [mbind option_bind] in HL.
    destruct (Hlook (Z.of_nat k) ltac:(lia)) as (e & j & He & Hj). rewrite Nat2Z.id in *. eauto 6.
Qed.

(** What the two passes over the fields leave in the table. *)
Lemma table_correct buffer_len n fields counts starts :
  0 ≤ n → buffer_len = n * TS_PACKET_SIZE → buffer_len < 2 ^ 64 →
  Forall (λ f, Forall (λ o, 0 ≤ o < buffer_len) (byte_offsets f)) fields →
  Forall (λ f, StronglySorted Z.lt (byte_offsets f)) fields →
  timestamp_field_counts buffer_len n fields = Ok counts → timestamp_field_starts counts = Ok starts →
  let table := fill_fields 0 fields (replicate (Z.to_nat (default 0 (last starts))) 0) (slice starts 0 n) in
  ∀ p, 0 ≤ p < n →
    0 ≤ at_index starts p ≤ at_index starts (p + 1) ∧ at_index starts (p + 1) ≤ len table ∧
    slice table (at_index starts p) (at_index starts (p + 1)) = touching p 0 fields.
Proof.
  intros Hn -> Hsmall Hof Hsort Hcounts Hstarts. cbv zeta.
  pose proof (events_bounds n fields 0 Hof) as He. set (E := events 0 fields) in *.
  assert (Forall (λ e, 0 ≤ e.1) E) as He0 by (eapply Forall_impl; [exact He|]; cbn; lia).
  eapply timestamp_field_counts_events in Hcounts as (Lc & _ & Hc); [|done|done|].
  2:{ eapply Forall_impl; [exact Hof|]. cbn. intros f Hf. eapply Forall_impl; [exact Hf|]. cbn. lia. }
  eapply (timestamp_field_starts_events counts starts E) in Hstarts as (Ls & Hs & Hlast & Hb); [|by rewrite Lc|done].
  rewrite Lc in *. rewrite Hlast. cbn [default from_option id].
  assert (0 ≤ start_of n E) by apply len_nonneg.
  destruct (fill_fields_filling E n fields 0 [] (replicate (Z.to_nat (start_of n E)) 0) (slice starts 0 n)) as [cursors' Hf];
    [done|done|done| |].
  { constructor.
    - by apply len_replicate.
    - rewrite len_slice by lia. split; [lia|]. intros p Hp. rewrite <- Hs by lia. cbn. rewrite Z.add_0_r.
      unfold at_index, byte_at. rewrite slice_lookup by lia. by decide_ifs.
    - intros p Hp. cbn. rewrite Z.add_0_r. by apply slice_empty. }
  intros p Hp. rewrite !Hs by lia. destruct Hf as [Lt _ Hpl].
  pose proof (start_of_next p E) as Hnext. pose proof (count_of_nonneg p E). assert (0 ≤ start_of p E) by apply len_nonneg.
  split_and!; [lia|lia|rewrite Lt; apply start_of_mono; lia|].
  rewrite Hnext, Hpl by done. by apply bucket_events.
Qed.

Lemma build_layout_ok buffer layout :
  Forall is_u8 buffer → len buffer < 2 ^ 64 → build_hls_finite_ts_layout buffer = Ok layout → layout_ok buffer layout.
Proof.
  intros Hu Hsmall H. unfold build_hls_finite_ts_layout in H. bind_inv. pose proof (len_nonneg buffer).
  rename x into scan, x1 into counts, x2 into starts.
  set (n := len buffer / TS_PACKET_SIZE) in *.
  assert (len buffer = n * TS_PACKET_SIZE ∧ 0 ≤ n) as [Hlen Hn] by (unfold n; change TS_PACKET_SIZE with 188 in *; bool_to_prop; lia).
  match goal with H : try_fold _ _ _ = Ok _ |- _ => apply (scan_all buffer n) in H as Hscan; [|done|done|lia] end.
  destruct (sc_fields _ _ _ Hscan) as (emitted & Ef & Has).
  set (fields := sort_fields (scan_timestamp_fields scan)) in *.
  assert (fields ≡ₚ map location emitted) as Hperm by (unfold fields, sort_fields; rewrite Ef; apply merge_sort_Permutation).
  assert (Forall (field_located buffer) fields) as Hloc.
  { rewrite Hperm. apply emitted_located. apply (as_emitted _ _ _ _ Has). }
  destruct (packet_layouts buffer n scan starts Hscan Hn) as [Lp Hp].
  pose proof (table_correct (len buffer) n fields counts starts Hn Hlen Hsmall) as Htable.
  specialize (Htable ltac:(eapply Forall_impl; [exact Hloc|]; apply located_offsets)).
  specialize (Htable ltac:(eapply Forall_impl; [exact Hloc|]; by intros f (? & ? & ? & ? & ? & ?))).
  specialize (Htable ltac:(done) ltac:(done)). cbv zeta in Htable.
  constructor; cbn [packets timestamp_fields pcr_fields packet_timestamp_field_indices].
  - by rewrite Lp.
  - intros k L HL. destruct (Hp k L HL) as (e & j & He & Hj & Hk & EL). exists e.
    unfold packet_layout_at, get in EL. replace (0 <=? Z.of_nat k) with true in EL by lia. rewrite Nat2Z.id, He in EL.
    cbn [mbind option_bind] in EL. rewrite Hj in EL. cbn [mbind option_bind] in EL. injection EL as <-.
    destruct (sc_evidence _ _ _ Hscan) as [_ Hev], (sc_pcr_index _ _ _ Hscan) as [_ Hpcr].
    specialize (Htable (Z.of_nat k) ltac:(lia)) as (? & ? & ?). specialize (Hpcr k e j He Hj).
    change TS_PACKET_SIZE with 188 in *.
    assert (saturating_add (Z.of_nat k) 1 = Z.of_nat k + 1 ∧ saturating_mul (Z.of_nat k) 188 = Z.of_nat k * 188) as [E1 E2]
      by (unfold saturating_add, saturating_mul; lia).
    constructor; cbn [packet_start layout_pid has_payload timestamp_field_indices_start timestamp_field_indices_end
      pcr_field_index pcr_fields packet_timestamp_field_indices timestamp_fields]; rewrite ?E1, ?E2; try done.
    by apply Hev.
  - done.
  - rewrite (field_offsets_perm _ _ Hperm), field_offsets_emitted. apply (as_nodup _ _ _ _ Has).
  - apply (StronglySorted_merge_sort _).
  - destruct (sc_evidence _ _ _ Hscan) as [Le Hev]. exists (packet_evidence scan). split_and!; [|apply Hscan|exact Hev].
    unfold len in Lp. lia.
Qed.

(** ** Theorems *)

(** The bytes of a programme clock field. *)
Definition pcr_offsets (f : HlsTsPcrFieldLocation) : list Z := seqZ (pcr_byte_offset f) 6.

Lemma gather_located buffer pid bytes offsets :
  Forall2 (located buffer pid) bytes offsets → gather_offsets buffer offsets = Ok bytes.
Proof.
  induction 1 as [|b o bytes offsets Hl _ IH]; [done|]. destruct Hl as (e & po & _ & _ & _ & _ & _ & Hg & _).
  cbn [gather_offsets]. rewrite Hg. cbn [ok_or]. by rewrite bind_ok, IH.
Qed.

Lemma pcr_field_position buffer (i : nat) e f :
  Forall is_u8 buffer →
  inspect_hls_ts_packet (packet_at buffer (Z.of_nat i)) (Z.of_nat i * TS_PACKET_SIZE) = Ok e → pcr_field e = Some f →
  pcr_byte_offset f = Z.of_nat i * TS_PACKET_SIZE + 6.
Proof. intros Hu Hi Hf. apply inspect_ok in Hi; [|by apply Forall_slice]. by apply (in_pcr _ _ _ Hi). Qed.

Lemma field_pcr_disjoint buffer (i : nat) e f pid b o :
  Forall is_u8 buffer →
  inspect_hls_ts_packet (packet_at buffer (Z.of_nat i)) (Z.of_nat i * TS_PACKET_SIZE) = Ok e → pcr_field e = Some f →
  located buffer pid b o → o ∉ pcr_offsets f.
Proof.
  intros Hu Hi Hf (e' & po & Hi' & _ & Hpo & Hle & Ho & _) Hin.
  pose proof (pcr_field_position _ _ _ _ Hu Hi Hf) as Hpos.
  apply elem_of_seqZ in Hin. rewrite Hpos in Hin. change TS_PACKET_SIZE with 188 in *.
  assert (o / 188 = Z.of_nat i) as E by lia. rewrite E in Hi'.
  assert (e' = e) as -> by congruence.
  apply inspect_ok in Hi; [|by apply Forall_slice]. destruct (in_pcr _ _ _ Hi f Hf) as (_ & _ & H12).
  specialize (H12 po Hpo). lia.
Qed.

Lemma pcr_offsets_spaced buffer evidence : ∀ k : nat,
  Forall is_u8 buffer →
  (∀ i e, evidence !! i = Some e →
     inspect_hls_ts_packet (packet_at buffer (Z.of_nat (k + i))) (Z.of_nat (k + i) * TS_PACKET_SIZE) = Ok e) →
  NoDup (mjoin (map pcr_offsets (omap pcr_field evidence))) ∧
  Forall (λ o, Z.of_nat k * TS_PACKET_SIZE ≤ o) (mjoin (map pcr_offsets (omap pcr_field evidence))).
Proof.
  induction evidence as [|e evidence IH]; intros k Hu He; [split; constructor|].
  destruct (IH (S k) Hu) as [Hn Hle].
  { intros i e' Hl. specialize (He (S i) e' Hl). by replace (S k + i)%nat with (k + S i)%nat by lia. }
  change TS_PACKET_SIZE with 188 in *. cbn [omap list_omap].
  destruct (pcr_field e) as [f|] eqn:Hf; cycle 1.
  { split; [done|]. eapply Forall_impl; [exact Hle|]. cbn. lia. }
  specialize (He 0%nat e eq_refl). rewrite Nat.add_0_r in He.
  pose proof (pcr_field_position buffer k e f Hu He Hf) as Hpos. change TS_PACKET_SIZE with 188 in Hpos.
  cbn [map mjoin list_join]. rewrite Forall_forall in Hle. split.
  - apply NoDup_app. split_and!; [apply NoDup_seqZ| |done]. intros o Ho Hin. apply elem_of_seqZ in Ho.
    specialize (Hle o Hin). cbn in Hle. lia.
  - apply Forall_app. split; rewrite Forall_forall; intros o Ho.
    + apply elem_of_seqZ in Ho. lia.
    + specialize (Hle o Ho). cbn in Hle. lia.
Qed.

Lemma elem_of_field_offsets fields o : o ∈ field_offsets fields ↔ ∃ f, f ∈ fields ∧ o ∈ byte_offsets f.
Proof.
  unfold field_offsets. rewrite list_elem_of_join. setoid_rewrite list_elem_of_fmap. split.
  - intros (l & ? & f & -> & ?). eauto.
  - intros (f & ? & ?). eauto 6.
Qed.

Lemma pcr_fields_origin buffer layout f :
  layout_ok buffer layout → f ∈ pcr_fields layout → ∃ (i : nat) e, (i < length (packets layout))%nat ∧
    inspect_hls_ts_packet (packet_at buffer (Z.of_nat i)) (Z.of_nat i * TS_PACKET_SIZE) = Ok e ∧ pcr_field e = Some f.
Proof.
  intros Hok Hf. destruct (lo_pcr _ _ Hok) as (evidence & Hl & Ep & He). rewrite Ep in Hf.
  apply list_elem_of_omap in Hf as (e & Hin & Hpe). apply list_elem_of_lookup in Hin as (i & Hi).
  exists i, e. split_and!; [|by apply He|done]. apply lookup_lt_Some in Hi. lia.
Qed.

(** The bytes of all fields of a layout, each at its own offset. *)
Definition layout_offsets (layout : HlsFiniteTsLayout) : list Z :=
  field_offsets (timestamp_fields layout) ++ mjoin (map pcr_offsets (pcr_fields layout)).

Lemma layout_offsets_nodup buffer layout :
  Forall is_u8 buffer → layout_ok buffer layout → NoDup (layout_offsets layout).
Proof.
  intros Hu Hok. apply NoDup_app. split_and!; [apply Hok| |].
  - intros o (f & Hf & Ho)%elem_of_field_offsets Hin. apply list_elem_of_join in Hin as (l & Ho' & Hl).
    apply list_elem_of_fmap in Hl as (g & -> & Hg). destruct (pcr_fields_origin _ _ g Hok Hg) as (i & e & _ & Hi & He).
    pose proof (lo_fields _ _ Hok) as Hall. rewrite Forall_forall in Hall.
    destruct (Hall f Hf) as (bytes & _ & H2 & _). destruct (Forall2_elem_r _ _ _ _ H2 Ho) as (b & _ & Hloc).
    by eapply field_pcr_disjoint.
  - destruct (lo_pcr _ _ Hok) as (evidence & _ & Ep & He). rewrite Ep.
    by apply (pcr_offsets_spaced buffer evidence 0).
Qed.

(** C30: the layout of an asset locates its timestamps.  Every field of a
    layout that [build_hls_finite_ts_layout] returns has five increasing
    offsets inside the buffer at which the bytes form a valid timestamp field
    of the field's kind; the fields are sorted by their first offset; and no
    two fields, programme clocks included, share a byte. *)
Theorem layout_fields_sound buffer layout :
  Forall is_u8 buffer → len buffer < 2 ^ 64 → build_hls_finite_ts_layout buffer = Ok layout →
  Forall (λ f, ∃ bytes, gather_timestamp_bytes buffer f = Ok bytes ∧ length bytes = 5%nat ∧ timestamp_field bytes ∧
            prefix_of_kind (field_kind f) (byte_at bytes 0 / 16) ∧ StronglySorted Z.lt (byte_offsets f) ∧
            Forall (λ o, 0 ≤ o < len buffer) (byte_offsets f)) (timestamp_fields layout) ∧
  StronglySorted field_before (timestamp_fields layout) ∧
  NoDup (layout_offsets layout).
Proof.
  intros Hu Hs H. pose proof (build_layout_ok _ _ Hu Hs H) as Hok.
  split_and!; [|apply Hok|by eapply layout_offsets_nodup].
  eapply Forall_impl; [apply (lo_fields _ _ Hok)|]. cbn. intros f Hf. pose proof (located_offsets _ _ Hf).
  destruct Hf as (bytes & Hlen & H2 & ? & ? & ?). exists bytes. split_and!; try done.
  - by eapply gather_located.
  - apply Forall2_length in H2. lia.
Qed.

(** C31: the packet table of a layout is exact.  There is one entry per
    packet, with the packet's start, PID and programme clock; the index range of
    packet [k] lists, in increasing order, exactly the timestamp fields that
    have a byte in it. *)
Theorem layout_packet_table buffer layout :
  Forall is_u8 buffer → len buffer < 2 ^ 64 → build_hls_finite_ts_layout buffer = Ok layout →
  len buffer = len (packets layout) * TS_PACKET_SIZE ∧
  ∀ (k : nat) L, packets layout !! k = Some L →
    packet_start L = Z.of_nat k * TS_PACKET_SIZE ∧ layout_pid L = ts_packet_pid (packet_at buffer (Z.of_nat k)) ∧
    (∀ f, (∃ j, pcr_field_index L = Some j ∧ get (pcr_fields layout) j = Some f) ↔
          f ∈ pcr_fields layout ∧ pcr_byte_offset f = packet_start L + 6) ∧
    ∃ indices, get_range (packet_timestamp_field_indices layout)
                 (timestamp_field_indices_start L) (timestamp_field_indices_end L) = Some indices ∧
      StronglySorted Z.lt indices ∧
      ∀ i, i ∈ indices ↔ ∃ f, get (timestamp_fields layout) i = Some f ∧ touches f (Z.of_nat k) = true.
Proof.
  intros Hu Hs H. pose proof (build_layout_ok _ _ Hu Hs H) as Hok. split; [apply Hok|].
  intros k L HL. destruct (lo_packets _ _ Hok k L HL) as [e Hd].
  pose proof (inspect_ok _ _ _ (Forall_slice _ _ _ _ Hu) (pd_inspect _ _ _ _ _ Hd)) as Hi.
  split_and!; [apply Hd|rewrite (pd_pid _ _ _ _ _ Hd); apply (in_pid _ _ _ Hi)| |].
  - intros f. pose proof (pd_pcr _ _ _ _ _ Hd) as Hp. split.
    + intros (j & Ej & Hg). rewrite Ej in Hp. destruct Hp as (Hj & g & Hg1 & Hg2).
      unfold get in Hg. replace (0 <=? j) with true in Hg by lia. assert (g = f) as -> by congruence.
      split; [by eapply list_elem_of_lookup_2|]. rewrite (pd_start _ _ _ _ _ Hd).
      by apply (in_pcr _ _ _ Hi).
    + intros [Hin Ho]. destruct (pcr_fields_origin _ _ f Hok Hin) as (i & e' & _ & Hi' & He').
      pose proof (pcr_field_position _ _ _ _ Hu Hi' He') as Hpos. rewrite (pd_start _ _ _ _ _ Hd) in Ho.
      assert (i = k) as -> by (change TS_PACKET_SIZE with 188 in *; lia).
      rewrite (pd_inspect _ _ _ _ _ Hd) in Hi'. injection Hi' as <-.
      destruct (pcr_field_index L) as [j|]; [|congruence]. destruct Hp as (Hj & g & Hg1 & Hg2).
      exists j. split; [done|]. unfold get. replace (0 <=? j) with true by lia. congruence.
  - pose proof (pd_range _ _ _ _ _ Hd) as Hr. eexists. split; [apply get_range_some; lia|].
    rewrite (pd_fields _ _ _ _ _ Hd). split; [apply touching_sorted|]. intros i. rewrite elem_of_touching.
    split; intros (f & Hf).
    + destruct Hf as (? & Hf & ?). exists f. rewrite Z.sub_0_r in Hf. unfold get. by replace (0 <=? i) with true by lia.
    + destruct Hf as [Hf ?]. exists f. rewrite Z.sub_0_r. unfold get in Hf. destruct (Z.leb_spec 0 i); done.
Qed.

(** *** Witnesses *)

(** Four packets: a programme clock and a header that is cut after twelve
    bytes; the rest of it; an audio header; a second video header. *)
Definition stuffed (l : list Z) : list Z := l ++ replicate (188 - length l) 255.
Definition example_packets : list (list Z) :=
  [ [71; 65; 0; 48; 171; 16; 0; 0; 1; 0; 126; 0] ++ replicate 164 255 ++ [0; 0; 1; 224; 0; 0; 128; 192; 10; 49; 0; 7];
    stuffed [71; 1; 0; 17; 216; 97; 17; 0; 7; 202; 81];
    stuffed [71; 65; 1; 16; 0; 0; 1; 192; 0; 0; 128; 128; 5; 33; 0; 7; 216; 97];
    stuffed [71; 65; 0; 18; 0; 0; 1; 224; 0; 0; 128; 128; 5; 33; 0; 9; 216; 97] ].
Definition example_buffer : list Z := mjoin example_packets.

Definition example_layout : HlsFiniteTsLayout :=
  match build_hls_finite_ts_layout example_buffer with
  | Ok layout => layout
  | Err _ => {| packets := []; timestamp_fields := []; pcr_fields := []; packet_timestamp_field_indices := [] |}
  end.

Lemma example_layout_built : build_hls_finite_ts_layout example_buffer = Ok example_layout.
Proof. vm_compute. reflexivity. Qed.

Lemma example_buffer_u8 : Forall is_u8 example_buffer.
Proof.
  assert (forallb (λ x, (0 <=? x) && (x <? 256)) example_buffer = true) as E by (vm_compute; reflexivity).
  rewrite forallb_forall in E. rewrite Forall_forall. intros x Hx. apply list_elem_of_In in Hx. specialize (E x Hx).
  unfold fits. change (2 ^ 8) with 256. lia.
Qed.

Lemma example_buffer_small : len example_buffer < 2 ^ 64.
Proof. vm_compute. reflexivity. Qed.

Lemma layout_fields_sound_witness :
  map byte_offsets (timestamp_fields example_layout)
  = [[185; 186; 187; 192; 193]; [194; 195; 196; 197; 198]; [389; 390; 391; 392; 393]; [577; 578; 579; 580; 581]] ∧
  NoDup (layout_offsets example_layout).
Proof.
  split; [vm_compute; reflexivity|].
  exact (proj2 (proj2 (layout_fields_sound example_buffer example_layout example_buffer_u8 example_buffer_small
    example_layout_built))).
Defined.

Lemma layout_packet_table_witness :
  len example_buffer = len (packets example_layout) * TS_PACKET_SIZE ∧
  packet_timestamp_field_indices example_layout = [0; 0; 1; 2; 3].
Proof.
  split; [|vm_compute; reflexivity].
  exact (proj1 (layout_packet_table example_buffer example_layout example_buffer_u8 example_buffer_small
    example_layout_built)).
Defined.
