(* ===== verification/TsTimeline.v ===== *)
(** The presentation timeline of a finite asset
    (backend/mpegts/src/transport_stream_buffer.rs): the cadence of a PID, its
    unwrapped first and last timestamps, and the duration over all PIDs. *)

From S2P Require Import Prelude TsClock TsPes TsLayout.
From stdpp Require Import gmap sorting.
#[local] Open Scope Z_scope.

Inductive HlsTsPresentationClockSource := SourcePts | SourcePcrFallback.

Record HlsTsPidPresentationTimeline := {
  timeline_pid : Z;
  first_pts_90khz : Z;
  last_pts_90khz : Z;
  cadence_ticks_90khz : Z;
  end_exclusive_90khz : Z;
}.

Record HlsTsPresentationDuration := {
  first_presentation_clock_90khz : Z;
  end_exclusive_clock_90khz : Z;
  presentation_ticks_90khz : Z;
  timelines : list HlsTsPidPresentationTimeline;
  source : HlsTsPresentationClockSource;
}.

(** *** The cadence *)

Record run_state := { dominant_delta : Z; dominant_count : Z; current_delta : Z; current_count : Z }.

(** Closing the current run: it becomes dominant when it is longer. *)
Definition close_run (s : run_state) : Z * Z :=
  if dominant_count s <? current_count s then (current_delta s, current_count s) else (dominant_delta s, dominant_count s).

Definition run_step (s : run_state) (delta : Z) : run_state :=
  if delta =? current_delta s
  then {| dominant_delta := dominant_delta s; dominant_count := dominant_count s;
          current_delta := current_delta s; current_count := saturating_add (current_count s) 1 |}
  else let '(d, c) := close_run s in
       {| dominant_delta := d; dominant_count := c; current_delta := delta; current_count := 1 |}.

Definition stable_presentation_cadence (deltas : list Z) : option Z :=
  let deltas := merge_sort Z.le deltas in
  match deltas with
  | [] => None
  | first :: rest =>
      let s := foldl run_step {| dominant_delta := first; dominant_count := 1; current_delta := first; current_count := 1 |} rest in
      let '(dominant, count) := close_run s in
      if len deltas <? saturating_mul count 2 then Some dominant else get deltas (len deltas / 2)
  end.

(** *** The timeline of one PID *)

(** [i128] arithmetic that is checked. *)
Definition checked_i128 (z : Z) : option Z := if (- 2 ^ 127 <=? z) && (z <? 2 ^ 127) then Some z else None.

(** [u64::try_from] of an [i128]. *)
Definition u64_try_from (z : Z) : option Z := if (0 <=? z) && (z <? 2 ^ 64) then Some z else None.

Record unwrap_state := {
  previous_raw : Z;
  previous_unwrapped : Z;
  first_unwrapped : Z;
  last_unwrapped : Z;
  seen_raw_timestamps : gset Z;
  unwrap_deltas : list Z;
}.

Definition unwrap_step (s : unwrap_state) (value : Z) : layout_result unwrap_state :=
  let raw := value mod MAX_PTS_DTS in
  if bool_decide (raw ∈ seen_raw_timestamps s) then Ok s else
  let forward := wrapping_sub64 (wrapping_add64 raw MAX_PTS_DTS) (previous_raw s) mod MAX_PTS_DTS in
  let signed_delta := if forward <=? MAX_PTS_DTS / 2 then forward else - saturating_sub MAX_PTS_DTS forward in
  unwrapped ← ok_or (checked_i128 (previous_unwrapped s + signed_delta)) PresentationDurationOverflow;
  deltas ←
    (if previous_unwrapped s <? unwrapped
     then delta ← ok_or (u64_try_from (unwrapped - previous_unwrapped s)) PresentationDurationOverflow;
          Ok (unwrap_deltas s ++ [delta])
     else Ok (unwrap_deltas s));
  Ok {| previous_raw := raw; previous_unwrapped := unwrapped;
        first_unwrapped := Z.min (first_unwrapped s) unwrapped; last_unwrapped := Z.max (last_unwrapped s) unwrapped;
        seen_raw_timestamps := {[raw]} ∪ seen_raw_timestamps s; unwrap_deltas := deltas |}.

(** The multiple of the cycle that makes [first] non-negative. *)
Definition normalization (first : Z) : layout_result Z :=
  if first <? 0 then
    value ← ok_or (checked_i128 (- first + (MAX_PTS_DTS - 1))) PresentationDurationOverflow;
    ok_or (checked_i128 (value / MAX_PTS_DTS * MAX_PTS_DTS)) PresentationDurationOverflow
  else Ok 0.

Definition presentation_timeline_for_pid (pid : Z) (timestamps : list Z) : layout_result HlsTsPidPresentationTimeline :=
  match timestamps with
  | [] => Err (PresentationCadenceUnavailable pid)
  | first_raw :: rest =>
      let raw := first_raw mod MAX_PTS_DTS in
      s ← try_fold unwrap_step rest
            {| previous_raw := raw; previous_unwrapped := raw; first_unwrapped := raw; last_unwrapped := raw;
               seen_raw_timestamps := {[raw]}; unwrap_deltas := [] |};
      cadence ← ok_or (c ← stable_presentation_cadence (unwrap_deltas s);
                       if (0 <? c) && (c <? MAX_PTS_DTS / 2) then Some c else None)
                      (PresentationCadenceUnavailable pid);
      n ← normalization (first_unwrapped s);
      first ← ok_or (checked_i128 (first_unwrapped s + n) ≫= u64_try_from) PresentationDurationOverflow;
      last ← ok_or (checked_i128 (last_unwrapped s + n) ≫= u64_try_from) PresentationDurationOverflow;
      end_ ← ok_or (checked_add last cadence) PresentationDurationOverflow;
      Ok {| timeline_pid := pid; first_pts_90khz := first; last_pts_90khz := last; cadence_ticks_90khz := cadence;
            end_exclusive_90khz := end_ |}
  end.

(** *** All PIDs *)

Definition timeline_before (a b : HlsTsPidPresentationTimeline) : Prop := timeline_pid a ≤ timeline_pid b.

#[export] Instance timeline_before_dec : RelDecision timeline_before.
Proof. intros a b. apply Z_le_dec. Defined.

Definition collect_timelines (clocks : list (Z * list Z)) : layout_result (list HlsTsPidPresentationTimeline) :=
  try_fold (λ acc c, t ← presentation_timeline_for_pid c.1 c.2; Ok (acc ++ [t])) clocks [].

Definition maximum (l : list Z) : option Z := match l with [] => None | x :: l => Some (foldl Z.max x l) end.

(** The order in which a [HashMap] yields its entries decides only which of
    several errors is reported: the timelines are sorted by PID. *)
Definition presentation_duration_from_pid_clocks (clocks : gmap Z (list Z)) (source : HlsTsPresentationClockSource)
    : layout_result HlsTsPresentationDuration :=
  if bool_decide (clocks = ∅) then Err PresentationClockUnavailable else
  collected ← collect_timelines (map_to_list clocks);
  let timelines := merge_sort timeline_before collected in
  first ← ok_or (minimum (map first_pts_90khz timelines)) PresentationClockUnavailable;
  end_ ← ok_or (maximum (map end_exclusive_90khz timelines)) PresentationClockUnavailable;
  duration ← ok_or (d ← checked_sub end_ first; if (0 <? d) && (d <? MAX_PTS_DTS) then Some d else None)
                   PresentationDurationOverflow;
  Ok {| first_presentation_clock_90khz := first; end_exclusive_clock_90khz := end_; presentation_ticks_90khz := duration;
        timelines := timelines; source := source |}.

(** [entry(pid).or_default().push(clock)]. *)
Definition push_clock (clocks : gmap Z (list Z)) (pid clock : Z) : gmap Z (list Z) :=
  <[pid := default [] (clocks !! pid) ++ [clock]]> clocks.

Definition is_pts (location : HlsTsTimestampFieldLocation) : bool :=
  match field_kind location with KindPts => true | KindDts => false end.

Definition finite_hls_presentation_duration (buffer : list Z) (layout : HlsFiniteTsLayout)
    : layout_result HlsTsPresentationDuration :=
  pts_by_pid ← try_fold (λ clocks f, clock ← decode_timestamp_at_location buffer f; Ok (push_clock clocks (field_pid f) clock))
                 (filter (λ f, is_pts f = true) (timestamp_fields layout)) ∅;
  if negb (bool_decide (pts_by_pid = ∅)) then presentation_duration_from_pid_clocks pts_by_pid SourcePts else
  pcr_by_pid ← try_fold (λ clocks f, clock ← decode_pcr_at_location buffer f; Ok (push_clock clocks (pcr_pid f) (clock / 300)))
                 (pcr_fields layout) ∅;
  presentation_duration_from_pid_clocks pcr_by_pid SourcePcrFallback.

(** [.ok()?] in a function to [Option]. *)
Definition ok {E A} (r : result E A) : option A := match r with Ok a => Some a | Err _ => None end.

Fixpoint decode_all {A} (decode : A → layout_result Z) (locations : list A) : option (list Z) :=
  match locations with
  | [] => Some []
  | l :: locations => clock ← ok (decode l); clocks ← decode_all decode locations; Some (clock :: clocks)
  end.

Definition timestamp_profile_from_finite_layout (buffer : list Z) (layout : HlsFiniteTsLayout)
    (expected_duration_ticks_90khz : Z) : option HlsTsTimestampProfile :=
  pts ← decode_all (decode_timestamp_at_location buffer) (timestamp_fields layout);
  pcr ← decode_all (decode_pcr_at_location buffer) (pcr_fields layout);
  accumulator_finish
    (observe_clocks (accumulator_new expected_duration_ticks_90khz)
       (map (λ clock, (clock, PtsOrDts)) pts ++ map (λ clock, (clock / 300, Pcr)) pcr)).

(** ** Lemmas: the cadence *)

(** How often [v] occurs. *)
Definition occurrences (v : Z) (l : list Z) : Z := len (filter (λ x, x = v) l).

Lemma occurrences_app v l k : occurrences v (l ++ k) = occurrences v l + occurrences v k.
Proof. unfold occurrences. by rewrite filter_app, len_app. Qed.

Lemma occurrences_nonneg v l : 0 ≤ occurrences v l.
Proof. apply len_nonneg. Qed.

Lemma occurrences_le v l : occurrences v l ≤ len l.
Proof. unfold occurrences, len. pose proof (length_filter (λ x, x = v) l). lia. Qed.

Lemma occurrences_none v l : Forall (λ x, x ≠ v) l → occurrences v l = 0.
Proof. unfold occurrences. induction 1; [done|]. by rewrite filter_cons_False. Qed.

Lemma occurrences_one v x : occurrences v [x] = if decide (x = v) then 1 else 0.
Proof. unfold occurrences. rewrite filter_cons. by destruct (decide (x = v)). Qed.

(** Both runs the loop remembers are occurrences it has seen. *)
Definition runs_seen (s : run_state) (l : list Z) : Prop :=
  dominant_count s ≤ occurrences (dominant_delta s) l ∧ current_count s ≤ occurrences (current_delta s) l.

Lemma close_run_seen s l : runs_seen s l → (close_run s).2 ≤ occurrences (close_run s).1 l.
Proof. intros [? ?]. unfold close_run. by case_match. Qed.

Lemma run_step_seen s l x : runs_seen s l → runs_seen (run_step s x) (l ++ [x]).
Proof.
  intros H. pose proof (close_run_seen s l H) as Hclose. destruct H as [Hd Hc]. unfold runs_seen, run_step.
  destruct (Z.eqb_spec x (current_delta s)) as [->|Hne]; [|destruct (close_run s) as [d c]]; cbn in *;
    rewrite !occurrences_app, !occurrences_one.
  - rewrite (decide_True (P := current_delta s = current_delta s)) by done. unfold saturating_add.
    destruct (decide _); lia.
  - rewrite (decide_True (P := x = x)) by done. pose proof (occurrences_nonneg x l). destruct (decide _); lia.
Qed.

Lemma runs_fold l : ∀ s seen, runs_seen s seen → runs_seen (foldl run_step s l) (seen ++ l).
Proof.
  induction l as [|x l IH]; intros s seen H; cbn [foldl]; [by rewrite app_nil_r|].
  rewrite cons_middle, app_assoc. apply IH. by apply run_step_seen.
Qed.

(** In a sorted list the elements before position [i] are at most, and those
    after it at least, the element there. *)
Lemma sorted_around (l : list Z) (i : nat) x :
  StronglySorted Z.le l → l !! i = Some x → Forall (λ y, y ≤ x) (take (S i) l) ∧ Forall (λ y, x ≤ y) (drop i l).
Proof.
  intros Hs Hi. rewrite <- (take_drop_middle l i x Hi) in Hs.
  apply StronglySorted_app in Hs as (Hcross & _ & Hr). apply StronglySorted_cons in Hr as [Hr _].
  rewrite (take_S_r l i x Hi), (drop_S l x i Hi). split.
  - apply Forall_app. split; [|by repeat constructor]. rewrite Forall_forall. intros y Hy. apply (Hcross y x); [done|left].
  - by constructor.
Qed.

(** A strict majority occupies the middle of a sorted list. *)
Lemma majority_is_median (l : list Z) v :
  StronglySorted Z.le l → len l < 2 * occurrences v l → get l (len l / 2) = Some v.
Proof.
  intros Hs Hmaj. pose proof (occurrences_le v l). pose proof (occurrences_nonneg v l).
  unfold get. replace (0 <=? len l / 2) with true by lia. set (i := Z.to_nat (len l / 2)).
  destruct (lookup_lt_is_Some_2 l i) as [x Hx]; [unfold i, len in *; lia|]. rewrite Hx. f_equal.
  destruct (sorted_around l i x Hs Hx) as [Hle Hge].
  destruct (Z.lt_trichotomy x v) as [Hlt | [-> | Hlt]]; [|done|]; exfalso.
  - rewrite <- (take_drop (S i) l), occurrences_app in Hmaj.
    rewrite (occurrences_none v (take (S i) l)) in Hmaj by (eapply Forall_impl; [exact Hle|]; cbn; lia).
    pose proof (occurrences_le v (drop (S i) l)) as Hd. unfold len in Hd, Hmaj. rewrite length_app, length_take, length_drop in *.
    unfold i, len in *. lia.
  - rewrite <- (take_drop i l), occurrences_app in Hmaj.
    rewrite (occurrences_none v (drop i l)) in Hmaj by (eapply Forall_impl; [exact Hge|]; cbn; lia).
    pose proof (occurrences_le v (take i l)) as Hd. unfold len in Hd, Hmaj. rewrite length_app, length_take, length_drop in *.
    unfold i, len in *. lia.
Qed.

(** ** Lemmas: unwrapping *)

Record unwrapping (s : unwrap_state) (values : list Z) : Prop := {
  un_previous : 0 ≤ previous_raw s < MAX_PTS_DTS ∧ previous_unwrapped s mod MAX_PTS_DTS = previous_raw s ∧
    first_unwrapped s ≤ previous_unwrapped s ≤ last_unwrapped s;
  un_first : first_unwrapped s < MAX_PTS_DTS;
  un_seen : ∀ r, r ∈ seen_raw_timestamps s → ∃ v, v ∈ values ∧ v mod MAX_PTS_DTS = r;
  un_covered : ∀ v, v ∈ values → v mod MAX_PTS_DTS ∈ seen_raw_timestamps s ∧
    ∃ u, u mod MAX_PTS_DTS = v mod MAX_PTS_DTS ∧ first_unwrapped s ≤ u ≤ last_unwrapped s;
  un_ends : (∃ v, v ∈ values ∧ v mod MAX_PTS_DTS = first_unwrapped s mod MAX_PTS_DTS) ∧
            (∃ v, v ∈ values ∧ v mod MAX_PTS_DTS = last_unwrapped s mod MAX_PTS_DTS);
}.

Lemma checked_i128_inv z c : checked_i128 z = Some c → c = z.
Proof. unfold checked_i128. case_match; congruence. Qed.

Lemma u64_try_from_inv z c : u64_try_from z = Some c → c = z ∧ 0 ≤ z < 2 ^ 64.
Proof. unfold u64_try_from. case_match; intros [= <-]. lia. Qed.

Lemma MAX_pos : 0 < MAX_PTS_DTS.
Proof. done. Qed.

(** The unwrapped successor of [s] at [raw]. *)
Lemma unwrap_distance prev raw previous :
  0 ≤ prev < MAX_PTS_DTS → previous mod MAX_PTS_DTS = prev → 0 ≤ raw < MAX_PTS_DTS →
  (previous + signed_distance prev raw) mod MAX_PTS_DTS = raw.
Proof.
  intros Hp Hm Hr. destruct (signed_distance_spec prev raw Hp Hr) as [_ Hs].
  rewrite <- Hs at 2. rewrite <- Hm at 2. by rewrite Zplus_mod_idemp_l.
Qed.

Lemma choose_end (a b u : Z) (values : list Z) v :
  (∃ w, w ∈ values ∧ w mod MAX_PTS_DTS = a mod MAX_PTS_DTS) → v mod MAX_PTS_DTS = u mod MAX_PTS_DTS → b = a ∨ b = u →
  ∃ w, w ∈ values ++ [v] ∧ w mod MAX_PTS_DTS = b mod MAX_PTS_DTS.
Proof.
  intros (w & Hw & Ew) Hv [-> | ->].
  - exists w. split; [apply elem_of_app; by left|done].
  - exists v. split; [apply elem_of_app; right; by apply list_elem_of_singleton|done].
Qed.

Lemma unwrap_step_unwrapping s values v s' :
  unwrapping s values → unwrap_step s v = Ok s' → unwrapping s' (values ++ [v]).
Proof.
  intros [(Hp & Hm & Hb) Hf Hseen Hcov [He1 He2]] H. unfold unwrap_step in H. cbv zeta in H.
  pose proof (Z.mod_pos_bound v MAX_PTS_DTS MAX_pos) as Hr. set (raw := v mod MAX_PTS_DTS) in *.
  case_bool_decide as Hdup.
  { bind_inv. destruct (Hseen raw Hdup) as (w & Hw & Ew). destruct (Hcov w Hw) as (_ & u & Eu & Hu).
    constructor; try done.
    - intros r Hr'. destruct (Hseen r Hr') as (x & ? & ?). exists x. split; [apply elem_of_app; by left|done].
    - intros x [Hx | ->%list_elem_of_singleton]%elem_of_app; [by apply Hcov|]. fold raw. split; [done|].
      exists u. split; [congruence|done].
    - split; [destruct He1 as (x & ? & ?)|destruct He2 as (x & ? & ?)]; exists x; (split; [apply elem_of_app; by left|done]). }
  fold (signed_distance (previous_raw s) raw) in H. bind_inv.
  match goal with H : checked_i128 _ = Some _ |- _ => apply checked_i128_inv in H as -> end.
  pose proof (unwrap_distance _ raw _ Hp Hm Hr) as Hu. set (u := previous_unwrapped s + _) in *.
  constructor; cbn [previous_raw previous_unwrapped first_unwrapped last_unwrapped seen_raw_timestamps].
  - split; [done|]. split; [done|]. clear - Hb. lia.
  - clear - Hb Hf. lia.
  - intros r [->%elem_of_singleton | Hr']%elem_of_union.
    + exists v. split; [apply elem_of_app; right; by apply list_elem_of_singleton|done].
    + destruct (Hseen r Hr') as (x & ? & ?). exists x. split; [apply elem_of_app; by left|done].
  - intros x [Hx | ->%list_elem_of_singleton]%elem_of_app.
    + destruct (Hcov x Hx) as (Hin & w & Ew & Hw). split; [apply elem_of_union; by right|]. exists w. split; [done|].
      clear - Hw. lia.
    + fold raw. split; [apply elem_of_union; left; by apply elem_of_singleton|]. exists u. split; [done|]. split; [apply Z.le_min_r|apply Z.le_max_r].
  - split.
    + apply (choose_end (first_unwrapped s) _ u); [done|by rewrite Hu|].
      destruct (Z.min_spec (first_unwrapped s) u) as [[_ ->] | [_ ->]]; auto.
    + apply (choose_end (last_unwrapped s) _ u); [done|by rewrite Hu|].
      destruct (Z.max_spec (last_unwrapped s) u) as [[_ ->] | [_ ->]]; auto.
Qed.

Lemma unwrap_fold_unwrapping l : ∀ s values s',
  unwrapping s values → try_fold unwrap_step l s = Ok s' → unwrapping s' (values ++ l).
Proof.
  induction l as [|v l IH]; intros s values s' Hs H; cbn [try_fold] in H; bind_inv; [by rewrite app_nil_r|].
  rewrite cons_middle, app_assoc. eapply IH; [|exact H]. by eapply unwrap_step_unwrapping.
Qed.

Lemma normalization_spec first n :
  first < MAX_PTS_DTS → normalization first = Ok n →
  n mod MAX_PTS_DTS = 0 ∧ 0 ≤ first + n < MAX_PTS_DTS.
Proof.
  rewrite cycle. intros Hf H. unfold normalization in H. rewrite cycle in H.
  destruct (Z.ltb_spec first 0); bind_inv; [|split; [done|lia]].
  repeat match goal with H : checked_i128 _ = Some _ |- _ => apply checked_i128_inv in H as -> end.
  split; [apply Z.mod_mul; lia|lia].
Qed.

(** ** Lemmas: all PIDs *)

Lemma minimum_spec l m : minimum l = Some m → m ∈ l ∧ Forall (λ x, m ≤ x) l.
Proof.
  destruct l as [|x l]; [done|]. cbn [minimum]. intros [= <-].
  revert x. induction l as [|y l IH]; intros x; cbn [foldl].
  { split; [left|repeat constructor; lia]. }
  destruct (IH (Z.min x y)) as [Hin Hall]. apply Forall_cons in Hall as [Hm Hall]. split.
  - apply elem_of_cons in Hin as [-> | Hin]; [|by right; right].
    destruct (Z.min_spec x y) as [[_ ->] | [_ ->]]; [left|right; left].
  - repeat constructor; [lia|lia|done].
Qed.

Lemma maximum_spec l m : maximum l = Some m → m ∈ l ∧ Forall (λ x, x ≤ m) l.
Proof.
  destruct l as [|x l]; [done|]. cbn [maximum]. intros [= <-].
  revert x. induction l as [|y l IH]; intros x; cbn [foldl].
  { split; [left|repeat constructor; lia]. }
  destruct (IH (Z.max x y)) as [Hin Hall]. apply Forall_cons in Hall as [Hm Hall]. split.
  - apply elem_of_cons in Hin as [-> | Hin]; [|by right; right].
    destruct (Z.max_spec x y) as [[_ ->] | [_ ->]]; [right; left|left].
  - repeat constructor; [lia|lia|done].
Qed.

Lemma collect_timelines_spec clocks collected :
  collect_timelines clocks = Ok collected →
  Forall2 (λ c t, presentation_timeline_for_pid c.1 c.2 = Ok t) clocks collected.
Proof.
  unfold collect_timelines. set (f := λ acc (c : Z * list Z), _).
  assert (∀ acc r, try_fold f clocks acc = Ok r →
    ∃ k, r = acc ++ k ∧ Forall2 (λ c t, presentation_timeline_for_pid c.1 c.2 = Ok t) clocks k) as H.
  { induction clocks as [|c clocks IH]; intros acc r H; cbn [try_fold] in H.
    - bind_inv. exists []. rewrite app_nil_r. auto.
    - change (f acc c) with (t ← presentation_timeline_for_pid c.1 c.2; Ok (acc ++ [t])) in H.
      destruct (presentation_timeline_for_pid c.1 c.2) as [t|] eqn:Et; [|discriminate H].
      rewrite !bind_ok in H. destruct (IH _ _ H) as (k & -> & Hk). exists (t :: k). rewrite <- app_assoc. auto. }
  intros Hc. by destruct (H [] collected Hc) as (k & -> & ?).
Qed.

#[export] Instance timeline_before_trans : Transitive timeline_before.
Proof. intros a b c. unfold timeline_before. lia. Qed.

#[export] Instance timeline_before_total : Total timeline_before.
Proof. intros a b. unfold timeline_before. lia. Qed.

Lemma timeline_pid_of pid timestamps t : presentation_timeline_for_pid pid timestamps = Ok t → timeline_pid t = pid.
Proof. unfold presentation_timeline_for_pid. destruct timestamps; [done|]. intros H. by bind_inv. Qed.

(** ** Theorems *)

(** The cadence of a PID is the upper median of its timestamp distances.
    The search for a dominant distance never changes the answer: a distance that
    makes up more than half of the list is its median. *)
Theorem stable_presentation_cadence_median deltas :
  stable_presentation_cadence deltas = get (merge_sort Z.le deltas) (len deltas / 2).
Proof.
  assert (len deltas = len (merge_sort Z.le deltas)) as ->
    by (unfold len; by rewrite (Permutation_length (merge_sort_Permutation Z.le deltas))).
  unfold stable_presentation_cadence. pose proof (StronglySorted_merge_sort Z.le deltas) as Hs. cbv zeta.
  destruct (merge_sort Z.le deltas) as [|x l]; [done|].
  set (s0 := {| dominant_delta := x; dominant_count := 1; current_delta := x; current_count := 1 |}).
  assert (runs_seen s0 [x]) as H0 by (unfold runs_seen; cbn; rewrite occurrences_one, decide_True by done; lia).
  pose proof (close_run_seen _ _ (runs_fold l s0 [x] H0)) as Hc. destruct (close_run _) as [d c]. cbn [fst snd app] in Hc.
  destruct (Z.ltb_spec (len (x :: l)) (saturating_mul c 2)) as [Hlt|]; [|done].
  symmetry. apply majority_is_median; [done|]. unfold saturating_mul in Hlt. lia.
Qed.

(** The timeline of a PID covers its timestamps.  Its first and last
    clocks are timestamps of the PID up to whole 33-bit cycles, the first one
    within the first cycle; every timestamp of the PID, up to whole cycles, lies
    between them; the cadence is positive and below half a cycle, and the
    timeline ends one cadence after its last clock. *)
Theorem presentation_timeline_covers pid timestamps t :
  presentation_timeline_for_pid pid timestamps = Ok t →
  timeline_pid t = pid ∧ 0 ≤ first_pts_90khz t < MAX_PTS_DTS ∧ first_pts_90khz t ≤ last_pts_90khz t ∧
  0 < cadence_ticks_90khz t < MAX_PTS_DTS / 2 ∧ end_exclusive_90khz t = last_pts_90khz t + cadence_ticks_90khz t ∧
  (∃ v, v ∈ timestamps ∧ v mod MAX_PTS_DTS = first_pts_90khz t mod MAX_PTS_DTS) ∧
  (∃ v, v ∈ timestamps ∧ v mod MAX_PTS_DTS = last_pts_90khz t mod MAX_PTS_DTS) ∧
  ∀ v, v ∈ timestamps → ∃ u, u mod MAX_PTS_DTS = v mod MAX_PTS_DTS ∧ first_pts_90khz t ≤ u ≤ last_pts_90khz t.
Proof.
  intros H. unfold presentation_timeline_for_pid in H. destruct timestamps as [|v0 rest]; [done|]. bind_inv.
  match goal with H : try_fold _ _ _ = Ok _ |- _ => apply (unwrap_fold_unwrapping _ _ [v0]) in H as Hun end.
  2:{ pose proof (Z.mod_pos_bound v0 MAX_PTS_DTS MAX_pos). 
      constructor; cbn; try lia.
      - split_and!; try lia. by apply Z.mod_small.
      - intros r ->%elem_of_singleton. exists v0. split; [left|done].
      - intros v ->%list_elem_of_singleton. split; [set_solver|]. exists (v0 mod MAX_PTS_DTS). split; [by apply Z.mod_small|lia].
      - split; exists v0; (split; [left|by rewrite Z.mod_mod]). }
  cbn [app] in Hun. rename x into s, x1 into n. destruct Hun as [(_ & _ & Hb) Hf _ Hcov [He1 He2]].
  match goal with H : normalization _ = Ok _ |- _ => apply normalization_spec in H as [Hn Hr]; [|done] end.
  match goal with H : mbind _ (stable_presentation_cadence _) = Some _ |- _ => rename H into Hcad end.
  destruct (stable_presentation_cadence _) as [c|]; [|done]. cbn [mbind option_bind] in Hcad. case_match eqn:Hc; [|done].
  injection Hcad as ->.
  repeat match goal with
  | H : mbind u64_try_from (checked_i128 ?z) = Some _ |- _ =>
      let E := fresh in destruct (checked_i128 z) as [?|] eqn:E; [|done]; apply checked_i128_inv in E as ->;
      cbn [mbind option_bind] in H; apply u64_try_from_inv in H as [-> ?]
  | H : checked_add _ _ = Some _ |- _ => apply checked_add_inv in H as [-> _]
  end.
  assert (∀ z, (z + n) mod MAX_PTS_DTS = z mod MAX_PTS_DTS) as Hshift.
  { intros z. rewrite Zplus_mod, Hn, Z.add_0_r. by rewrite Z.mod_mod. }
  cbn. rewrite !Hshift. split_and!; try done; try lia.
  intros v Hv. destruct (Hcov v Hv) as (_ & u & Eu & Hu). exists (u + n). rewrite Hshift. split; [done|lia].
Qed.

(** The presentation of an asset spans its timelines.  The result has
    exactly one timeline for each PID, in the order of the PIDs; its first clock
    is the least first clock and its end the greatest end of the timelines; and
    the duration is the distance between them, positive and below a cycle. *)
Theorem presentation_duration_spans clocks src d :
  presentation_duration_from_pid_clocks clocks src = Ok d →
  StronglySorted timeline_before (timelines d) ∧
  (∀ pid, (∃ t, t ∈ timelines d ∧ timeline_pid t = pid) ↔ is_Some (clocks !! pid)) ∧
  (∀ t, t ∈ timelines d → ∃ timestamps, clocks !! timeline_pid t = Some timestamps ∧
     presentation_timeline_for_pid (timeline_pid t) timestamps = Ok t ∧
     first_presentation_clock_90khz d ≤ first_pts_90khz t ∧ end_exclusive_90khz t ≤ end_exclusive_clock_90khz d) ∧
  (∃ t, t ∈ timelines d ∧ first_pts_90khz t = first_presentation_clock_90khz d) ∧
  (∃ t, t ∈ timelines d ∧ end_exclusive_90khz t = end_exclusive_clock_90khz d) ∧
  presentation_ticks_90khz d = end_exclusive_clock_90khz d - first_presentation_clock_90khz d ∧
  0 < presentation_ticks_90khz d < MAX_PTS_DTS.
Proof.
  intros H. unfold presentation_duration_from_pid_clocks in H. case_bool_decide; [done|]. bind_inv.
  cbn [timelines first_presentation_clock_90khz end_exclusive_clock_90khz presentation_ticks_90khz].
  rename x into collected. set (tl := merge_sort timeline_before collected) in *.
  match goal with H : collect_timelines _ = Ok _ |- _ => apply collect_timelines_spec in H as Hcol end.
  match goal with H : minimum _ = Some _ |- _ => apply minimum_spec in H as [Hmin Hmins] end.
  match goal with H : maximum _ = Some _ |- _ => apply maximum_spec in H as [Hmax Hmaxs] end.
  rewrite Forall_map, Forall_forall in Hmins, Hmaxs.
  assert (∀ t, t ∈ tl ↔ t ∈ collected) as Hperm by (intros t; unfold tl; by rewrite merge_sort_Permutation).
  assert (∀ t, t ∈ tl → ∃ timestamps, clocks !! timeline_pid t = Some timestamps ∧
            presentation_timeline_for_pid (timeline_pid t) timestamps = Ok t) as Horigin.
  { intros t Ht. apply Hperm in Ht. destruct (Forall2_elem_r _ _ _ t Hcol Ht) as ([pid ts] & Hin & Hok). cbn in Hok.
    pose proof (timeline_pid_of _ _ _ Hok) as <-. apply elem_of_map_to_list in Hin. eauto. }
  match goal with H : mbind _ (checked_sub ?e ?f) = Some _ |- _ => destruct (checked_sub e f) eqn:Hsub; [|done];
    cbn [mbind option_bind] in H; destruct (_ && _) eqn:Hd in H; [|done]; injection H as -> end.
  apply checked_sub_inv in Hsub as [-> _].
  apply list_elem_of_fmap in Hmin as (t1 & -> & Ht1). apply list_elem_of_fmap in Hmax as (t2 & -> & Ht2).
  split_and!; try done; try lia; eauto.
  - apply (StronglySorted_merge_sort _).
  - intros pid. split.
    + intros (t & Ht & <-). destruct (Horigin t Ht) as (ts & -> & _). eauto.
    + intros [ts Hts]. apply elem_of_map_to_list in Hts. apply list_elem_of_lookup in Hts as [i Hi].
      destruct (Forall2_lookup_l _ _ _ _ _ Hcol Hi) as (t & Ht & Hok). cbn in Hok. exists t.
      split; [apply Hperm; by eapply list_elem_of_lookup_2|]. by eapply timeline_pid_of.
  - intros t Ht. destruct (Horigin t Ht) as (ts & ? & ?). exists ts. auto.
Qed.

(** The timelines are unwrapped one by one, so that PIDs on either side of a
    wrap of the 33-bit clock are not brought to a common cycle: these two PIDs
    present within 902 ticks of each other, and the duration is that of almost a
    whole cycle. *)
Lemma presentation_duration_across_wrap :
  (presentation_ticks_90khz <$> ok (presentation_duration_from_pid_clocks
     {[256 := [8589934000; 8589934100; 8589934200]; 257 := [10; 110; 210]]} SourcePts)) = Some 8589934290 ∧
  (presentation_ticks_90khz <$> ok (presentation_duration_from_pid_clocks
     {[256 := [8589933000; 8589933100; 8589933200]; 257 := [8589933602; 8589933702; 8589933802]]} SourcePts)) = Some 902.
Proof. vm_compute. split; reflexivity. Qed.

(** *** Witnesses *)

Lemma presentation_timeline_covers_witness :
  match presentation_timeline_for_pid 256 [8589933600; 8589930000; 2608; 8589926400] with
  | Ok t => cadence_ticks_90khz t = 7200 ∧ 0 ≤ first_pts_90khz t < MAX_PTS_DTS
  | Err _ => False
  end.
Proof.
  destruct (presentation_timeline_for_pid 256 [8589933600; 8589930000; 2608; 8589926400]) as [t|e] eqn:E.
  - split; [vm_compute in E; injection E as <-; vm_compute; reflexivity|].
    exact (proj1 (proj2 (presentation_timeline_covers _ _ _ E))).
  - vm_compute in E. discriminate E.
Defined.

Lemma presentation_duration_spans_witness :
  match presentation_duration_from_pid_clocks {[256 := [90000; 93600; 97200]; 257 := [91000; 92920; 94840]]} SourcePts with
  | Ok d => presentation_ticks_90khz d = 10800 ∧ StronglySorted timeline_before (timelines d)
  | Err _ => False
  end.
Proof.
  destruct (presentation_duration_from_pid_clocks _ _) as [d|e] eqn:E.
  - split; [vm_compute in E; injection E as <-; vm_compute; reflexivity|].
    exact (proj1 (presentation_duration_spans _ _ _ E)).
  - vm_compute in E. discriminate E.
Defined.
