(* ===== verification/TsRender.v ===== *)
(** Rendering from a transport stream buffer
    (backend/mpegts/src/transport_stream_buffer.rs): shifting the timestamps of
    an asset in place, rendering finite segments with continuous counters,
    inserting splice markers, and the endless loop of [next_chunk].

    The track signature (from the codec inspector), the SHA-256 fingerprint and
    the waker are stored by the source and read by none of these operations;
    the record leaves them out. *)

From S2P Require Import Prelude TsClock TsPes TsLayout TsTimeline.
From stdpp Require Import gmap sorting.
#[local] Open Scope Z_scope.

Record HlsFiniteTsRenderSpec := {
  timestamp_offset_ticks_90khz : Z;
  continuity_seed : Z;
  logical_segment_index : Z;
}.

Inductive HlsFiniteTsRenderError := RenderInvalidAsset | PreparedLayoutMismatch.

Inductive HlsFiniteTsDiscontinuityMode := NoDiscontinuity | FirstPacketPerPid.

Record HlsFiniteTsFinalizeSpec := {
  additional_timestamp_offset_ticks_90khz : Z;
  finalize_discontinuity : HlsFiniteTsDiscontinuityMode;
}.

(** [cc_entries] is an array over the 13-bit PIDs: the next counter and
    whether a discontinuity was sent, where there is an entry. *)
Record TransportStreamBuffer := {
  ts_buffer : list Z;
  packet_starts : list Z;
  finite_hls_layout : layout_result HlsFiniteTsLayout;
  finite_duration : option HlsTsPresentationDuration;
  current_pos : Z;
  current_dts : Z;
  timestamp_offset : Z;
  ts_length : Z;
  cc_entries : gmap Z (Z * bool);
  first_pcr : option Z;
  finite_hls_timestamp_profile : option HlsTsTimestampProfile;
  force_discontinuity_on_wrap : bool;
}.

Definition ts_buffer_new (raw : list Z) : TransportStreamBuffer :=
  let aligned := drop (Z.to_nat (default 0 (find_ts_alignment raw))) raw in
  let valid_length := len aligned / TS_PACKET_SIZE * TS_PACKET_SIZE in
  let buffer := take (Z.to_nat valid_length) aligned in
  let length := len buffer / TS_PACKET_SIZE in
  let layout := build_hls_finite_ts_layout buffer in
  let duration := layout ← ok layout; ok (finite_hls_presentation_duration buffer layout) in
  {| ts_buffer := buffer; packet_starts := map (λ i, saturating_mul i TS_PACKET_SIZE) (seqZ 0 length);
     finite_hls_layout := layout; finite_duration := duration; current_pos := 0; current_dts := 0; timestamp_offset := 0;
     ts_length := length; cc_entries := ∅;
     first_pcr := layout ← ok layout; location ← head (pcr_fields layout); ok (decode_pcr_at_location buffer location);
     finite_hls_timestamp_profile :=
       layout ← ok layout; duration ← duration;
       timestamp_profile_from_finite_layout buffer layout (presentation_ticks_90khz duration);
     force_discontinuity_on_wrap := true |}.

Definition ts_buffer_clone (t : TransportStreamBuffer) : TransportStreamBuffer :=
  {| ts_buffer := ts_buffer t; packet_starts := packet_starts t; finite_hls_layout := finite_hls_layout t;
     finite_duration := finite_duration t; current_pos := 0; current_dts := 0; timestamp_offset := 0;
     ts_length := ts_length t; cc_entries := ∅; first_pcr := first_pcr t;
     finite_hls_timestamp_profile := finite_hls_timestamp_profile t; force_discontinuity_on_wrap := true |}.

Definition duration_ticks_90khz (t : TransportStreamBuffer) : option Z := presentation_ticks_90khz <$> finite_duration t.

Definition duration_ms (t : TransportStreamBuffer) : option Z := duration_ticks_90khz t ≫= ticks_90khz_to_rounded_millis.

Definition set_timestamp_offset (t : TransportStreamBuffer) (offset : Z) : TransportStreamBuffer :=
  {| ts_buffer := ts_buffer t; packet_starts := packet_starts t; finite_hls_layout := finite_hls_layout t;
     finite_duration := finite_duration t; current_pos := current_pos t; current_dts := current_dts t;
     timestamp_offset := offset; ts_length := ts_length t; cc_entries := cc_entries t; first_pcr := first_pcr t;
     finite_hls_timestamp_profile := finite_hls_timestamp_profile t;
     force_discontinuity_on_wrap := force_discontinuity_on_wrap t |}.

(** *** Rewriting a whole asset *)

(** [bytes.get_mut(i)] followed by an assignment. *)
Definition write_byte (bytes : list Z) (i value : Z) : layout_result (list Z) :=
  if (0 <=? i) && (i <? len bytes) then Ok (<[Z.to_nat i := value]> bytes) else Err InvalidTimestampLocation.

Definition shifted_pcr (original timestamp_offset : Z) : list Z :=
  encode_pcr (add_pcr_offset_27mhz original (pcr_offset_27mhz timestamp_offset)).

Definition rewrite_pcr (timestamp_offset : Z) (bytes : list Z) (location : HlsTsPcrFieldLocation) : layout_result (list Z) :=
  original ← decode_pcr_at_location bytes location;
  end_ ← ok_or (checked_add (pcr_byte_offset location) 6) InvalidTimestampLocation;
  _ ← ok_or (get_range bytes (pcr_byte_offset location) end_) InvalidTimestampLocation;
  Ok (put bytes (pcr_byte_offset location) (shifted_pcr original timestamp_offset)).

(** The marker bits are in the bytes 0, 2 and 4 of a field. *)
Definition marker_missing (marker_index : nat) (value : Z) : bool :=
  ((marker_index =? 0) || (marker_index =? 2) || (marker_index =? 4))%nat && (Z.land value 1 =? 0).

Fixpoint write_field (location : HlsTsTimestampFieldLocation) (marker_index : nat) (offsets encoded : list Z)
    (bytes : list Z) : layout_result (list Z) :=
  match offsets, encoded with
  | source_offset :: offsets, value :: encoded =>
      bytes ← write_byte bytes source_offset value;
      if marker_missing marker_index value
      then Err (InvalidPesTimestampField (field_pid location) (field_kind location))
      else write_field location (S marker_index) offsets encoded bytes
  | _, _ => Ok bytes
  end.

Definition rewrite_field (timestamp_offset : Z) (bytes : list Z) (location : HlsTsTimestampFieldLocation)
    : layout_result (list Z) :=
  original ← gather_timestamp_bytes bytes location;
  write_field location 0 (byte_offsets location) (shift_timestamp_field original timestamp_offset) bytes.

Definition rewrite_layout_timestamps (bytes : list Z) (layout : HlsFiniteTsLayout) (timestamp_offset : Z)
    : layout_result (list Z) :=
  if timestamp_offset =? 0 then Ok bytes else
  bytes ← try_fold (rewrite_pcr timestamp_offset) (pcr_fields layout) bytes;
  try_fold (rewrite_field timestamp_offset) (timestamp_fields layout) bytes.

(** *** Finite segments *)

Abbreviation render_result := (result HlsFiniteTsRenderError).

(** The payload packets of each PID, modulo 16. *)
Definition count_payload (counts : gmap Z Z) (packet_layout : HlsFiniteTsPacketLayout) : gmap Z Z :=
  if has_payload packet_layout
  then <[layout_pid packet_layout :=
           Z.land ((default 0 (counts !! layout_pid packet_layout) + 1) mod 256) 15]> counts
  else counts.

Definition payload_counts (packets : list HlsFiniteTsPacketLayout) : gmap Z Z := foldl count_payload ∅ packets.

Definition first_counter (spec : HlsFiniteTsRenderSpec) (counts : gmap Z Z) (pid : Z) : Z :=
  let cycle_advance := Z.land (default 0 (counts !! pid) * Z.land (logical_segment_index spec) 15 mod 256) 15 in
  Z.land ((continuity_seed spec + cycle_advance) mod 256) 15.

Definition with_counter (packet : list Z) (counter : Z) : list Z :=
  <[3%nat := Z.lor (Z.land (byte_at packet 3) 240) counter]> packet.

Record render_state := { rendered : list Z; continuity : gmap Z Z }.

Definition render_packet (buffer : list Z) (spec : HlsFiniteTsRenderSpec) (counts : gmap Z Z) (s : render_state)
    (packet_layout : HlsFiniteTsPacketLayout) : render_result render_state :=
  let packet_end := saturating_add (packet_start packet_layout) TS_PACKET_SIZE in
  packet ← ok_or (get_range buffer (packet_start packet_layout) packet_end) RenderInvalidAsset;
  let pid := layout_pid packet_layout in
  let counter := default (first_counter spec counts pid) (continuity s !! pid) in
  Ok {| rendered := rendered s ++ with_counter packet counter;
        continuity := <[pid := if has_payload packet_layout then Z.land ((counter + 1) mod 256) 15 else counter]> (continuity s) |}.

Definition render_finite_hls_segment (t : TransportStreamBuffer) (spec : HlsFiniteTsRenderSpec) : render_result (list Z) :=
  layout ← map_err (λ _, RenderInvalidAsset) (finite_hls_layout t);
  if (len (ts_buffer t) =? 0) || (len (packets layout) =? 0) then Err RenderInvalidAsset else
  let counts := payload_counts (packets layout) in
  s ← try_fold (render_packet (ts_buffer t) spec counts) (packets layout) {| rendered := []; continuity := ∅ |};
  map_err (λ _, RenderInvalidAsset) (rewrite_layout_timestamps (rendered s) layout (timestamp_offset_ticks_90khz spec)).

(** *** Finalizing a prepared segment *)

Definition same_finite_ts_packet_layout (source prepared : list Z) : bool :=
  if negb (len source =? TS_PACKET_SIZE) || negb (len prepared =? TS_PACKET_SIZE)
     || negb (byte_at source 0 =? SYNC_BYTE) || negb (byte_at prepared 0 =? SYNC_BYTE)
     || negb (Z.land (byte_at source 1) 127 =? Z.land (byte_at prepared 1) 127)
     || negb (byte_at source 2 =? byte_at prepared 2)
     || negb (Z.land (byte_at source 3) 240 =? Z.land (byte_at prepared 3) 240)
  then false else
  let adaptation_field_control := Z.land (Z.shiftr (byte_at source 3) 4) 3 in
  negb ((adaptation_field_control =? 2) || (adaptation_field_control =? 3)) || (byte_at source 4 =? byte_at prepared 4).

(** The marker that is written in front of a packet. *)
Definition finite_discontinuity_packet (following_packet : list Z) : list Z :=
  let following_cc := Z.land (byte_at following_packet 3) 15 in
  let marker_cc :=
    if negb (Z.land (byte_at following_packet 3) 16 =? 0) then Z.land ((following_cc - 1) mod 256) 15 else following_cc in
  [SYNC_BYTE; Z.land (byte_at following_packet 1) 31; byte_at following_packet 2; Z.lor 32 marker_cc; 183; 128]
  ++ replicate 182 255.

(** A marker is due in front of the first packet of each PID but the null PID. *)
Definition marker_due (spec : HlsFiniteTsFinalizeSpec) (first_pid_seen : gset Z) (pid : Z) : bool :=
  match finalize_discontinuity spec with
  | FirstPacketPerPid => negb (pid =? NULL_PID) && negb (bool_decide (pid ∈ first_pid_seen))
  | NoDiscontinuity => false
  end.

Definition check_prepared_packet (buffer prepared : list Z) (position : Z) (packet_layout : HlsFiniteTsPacketLayout)
    : render_result unit :=
  let prepared_start := saturating_mul position TS_PACKET_SIZE in
  source ← ok_or (get_range buffer (packet_start packet_layout) (saturating_add (packet_start packet_layout) TS_PACKET_SIZE))
             PreparedLayoutMismatch;
  candidate ← ok_or (get_range prepared prepared_start (saturating_add prepared_start TS_PACKET_SIZE)) PreparedLayoutMismatch;
  if same_finite_ts_packet_layout source candidate then Ok tt else Err PreparedLayoutMismatch.

Fixpoint check_prepared_packets (buffer prepared : list Z) (position : Z) (layouts : list HlsFiniteTsPacketLayout)
    : render_result unit :=
  match layouts with
  | [] => Ok tt
  | packet_layout :: layouts =>
      check_prepared_packet buffer prepared position packet_layout ≫= λ _,
      check_prepared_packets buffer prepared (position + 1) layouts
  end.

(** The output loop; the markers counted beforehand only size the output. *)
Fixpoint emit_packets (spec : HlsFiniteTsFinalizeSpec) (rewritten : list Z) (positions : list Z) (first_pid_seen : gset Z)
    : list Z :=
  match positions with
  | [] => []
  | position :: positions =>
      let prepared_start := saturating_mul position TS_PACKET_SIZE in
      let packet := slice rewritten prepared_start (prepared_start + TS_PACKET_SIZE) in
      let pid := ts_packet_pid packet in
      if marker_due spec first_pid_seen pid
      then finite_discontinuity_packet packet ++ packet ++ emit_packets spec rewritten positions ({[pid]} ∪ first_pid_seen)
      else packet ++ emit_packets spec rewritten positions first_pid_seen
  end.

Definition finalize_prepared_finite_hls_segment (t : TransportStreamBuffer) (prepared : list Z)
    (spec : HlsFiniteTsFinalizeSpec) : render_result (list Z) :=
  layout ← map_err (λ _, PreparedLayoutMismatch) (finite_hls_layout t);
  if (len (ts_buffer t) =? 0) || (len (packets layout) =? 0)
     || negb (len prepared =? saturating_mul (len (packets layout)) TS_PACKET_SIZE)
  then Err PreparedLayoutMismatch else
  check_prepared_packets (ts_buffer t) prepared 0 (packets layout) ≫= λ _,
  rewritten ← map_err (λ _, PreparedLayoutMismatch)
                (rewrite_layout_timestamps prepared layout (additional_timestamp_offset_ticks_90khz spec));
  Ok (emit_packets spec rewritten (seqZ 0 (len (packets layout))) ∅).

(** *** The endless stream *)

Definition generate_discontinuity_packet (new_packet : list Z) (cc : Z) (first_pcr : option Z) (timestamp_offset : Z) : list Z :=
  let afc := Z.land (Z.shiftr (byte_at new_packet 3) 4) 3 in
  let new_pkt_has_pcr :=
    if (afc =? 2) || (afc =? 3)
    then (7 <=? byte_at new_packet 4) && negb (Z.land (byte_at new_packet 5) ADAPTATION_FIELD_FLAG_PCR =? 0)
    else false in
  let head := [SYNC_BYTE; Z.land (byte_at new_packet 1) 31; byte_at new_packet 2; Z.lor 32 (Z.land cc 15); 183] in
  match (if new_pkt_has_pcr then first_pcr else None) with
  | Some base_pcr => head ++ [Z.lor 128 16] ++ shifted_pcr base_pcr timestamp_offset ++ replicate 176 255
  | None => head ++ [128] ++ replicate 182 255
  end.

Definition write_packet_pcr (source bytes : list Z) (output_start : Z) (packet_start timestamp_offset : Z)
    (location : HlsTsPcrFieldLocation) : layout_result (list Z) :=
  original ← decode_pcr_at_location source location;
  relative_offset ← ok_or (checked_sub (pcr_byte_offset location) packet_start) InvalidTimestampLocation;
  destination_start ← ok_or (checked_add output_start relative_offset) InvalidTimestampLocation;
  destination_end ← ok_or (checked_add destination_start 6) InvalidTimestampLocation;
  _ ← ok_or (get_range bytes destination_start destination_end) InvalidTimestampLocation;
  Ok (put bytes destination_start (shifted_pcr original timestamp_offset)).

(** Only the bytes of the field that lie in the packet are written. *)
Fixpoint write_packet_field (packet_start packet_end output_start : Z) (offsets encoded : list Z) (bytes : list Z)
    : layout_result (list Z) :=
  match offsets, encoded with
  | source_offset :: offsets, value :: encoded =>
      if negb ((packet_start <=? source_offset) && (source_offset <? packet_end))
      then write_packet_field packet_start packet_end output_start offsets encoded bytes
      else
        relative_offset ← ok_or (checked_sub source_offset packet_start) InvalidTimestampLocation;
        destination_offset ← ok_or (checked_add output_start relative_offset) InvalidTimestampLocation;
        bytes ← write_byte bytes destination_offset value;
        write_packet_field packet_start packet_end output_start offsets encoded bytes
  | _, _ => Ok bytes
  end.

Definition rewrite_packet_field (source : list Z) (layout : HlsFiniteTsLayout) (packet_start packet_end output_start timestamp_offset : Z)
    (bytes : list Z) (field_index : Z) : layout_result (list Z) :=
  location ← ok_or (get (timestamp_fields layout) field_index) InvalidTimestampLocation;
  original ← gather_timestamp_bytes source location;
  write_packet_field packet_start packet_end output_start (byte_offsets location)
    (shift_timestamp_field original timestamp_offset) bytes.

Definition rewrite_source_packet_timestamps (source bytes : list Z) (output_start : Z) (layout : HlsFiniteTsLayout)
    (packet_layout : HlsFiniteTsPacketLayout) (timestamp_offset : Z) : layout_result (list Z) :=
  if timestamp_offset =? 0 then Ok bytes else
  let packet_end := saturating_add (packet_start packet_layout) TS_PACKET_SIZE in
  bytes ←
    match pcr_field_index packet_layout with
    | Some index =>
        location ← ok_or (get (pcr_fields layout) index) InvalidTimestampLocation;
        write_packet_pcr source bytes output_start (packet_start packet_layout) timestamp_offset location
    | None => Ok bytes
    end;
  field_indices ← ok_or (get_range (packet_timestamp_field_indices layout)
    (timestamp_field_indices_start packet_layout) (timestamp_field_indices_end packet_layout)) InvalidTimestampLocation;
  try_fold (rewrite_packet_field source layout (packet_start packet_layout) packet_end output_start timestamp_offset)
    field_indices bytes.

(** Going back to the first packet: time advances by the duration of the
    asset, counters keep running, and every PID may be marked again. *)
Definition wrap_around (t : TransportStreamBuffer) : TransportStreamBuffer :=
  let d := duration_ticks_90khz t in
  {| ts_buffer := ts_buffer t; packet_starts := packet_starts t; finite_hls_layout := finite_hls_layout t;
     finite_duration := finite_duration t; current_pos := 0;
     current_dts := match d with Some d => add_pts_dts_offset (current_dts t) d | None => current_dts t end;
     timestamp_offset := match d with Some d => add_pts_dts_offset (timestamp_offset t) d | None => timestamp_offset t end;
     ts_length := ts_length t; cc_entries := (λ entry, (entry.1, false)) <$> cc_entries t; first_pcr := first_pcr t;
     finite_hls_timestamp_profile := finite_hls_timestamp_profile t;
     force_discontinuity_on_wrap := match d with Some _ => force_discontinuity_on_wrap t | None => true end |}.

(** The state after a packet of [pid] was emitted. *)
Definition advance (t : TransportStreamBuffer) (pid : Z) (entry : Z * bool) (force : bool) : TransportStreamBuffer :=
  {| ts_buffer := ts_buffer t; packet_starts := packet_starts t; finite_hls_layout := finite_hls_layout t;
     finite_duration := finite_duration t; current_pos := current_pos t + 1; current_dts := current_dts t;
     timestamp_offset := timestamp_offset t; ts_length := ts_length t; cc_entries := <[pid := entry]> (cc_entries t);
     first_pcr := first_pcr t; finite_hls_timestamp_profile := finite_hls_timestamp_profile t;
     force_discontinuity_on_wrap := force |}.

(** One turn of the loop of [next_chunk]; [None] ends the stream. *)
Definition emit_next (t : TransportStreamBuffer) (bytes : list Z) : option (TransportStreamBuffer * list Z) :=
  let t := if ts_length t <=? current_pos t then wrap_around t else t in
  let start := at_index (packet_starts t) (current_pos t) in
  let packet := slice (ts_buffer t) start (start + TS_PACKET_SIZE) in
  let packet_layout := layout ← ok (finite_hls_layout t); get (packets layout) (current_pos t) in
  let afc := Z.land (Z.shiftr (byte_at packet 3) 4) 3 in
  let packet_has_payload :=
    match packet_layout with Some l => has_payload l | None => (afc =? 1) || (afc =? 3) end in
  let pid := ts_packet_pid packet in
  let '(counter, discontinuity_sent) := default (0, false) (cc_entries t !! pid) in
  let packet_cc := if packet_has_payload then counter else Z.land (byte_at packet 3) 15 in
  let inject_discontinuity := force_discontinuity_on_wrap t && negb discontinuity_sent in
  let bytes :=
    if inject_discontinuity
    then bytes ++ generate_discontinuity_packet packet packet_cc (first_pcr t) (timestamp_offset t) else bytes in
  let force := if inject_discontinuity then false else force_discontinuity_on_wrap t in
  let next_counter := if packet_has_payload then (counter + 1) mod 16 else counter in
  let pkt_start := len bytes in
  let bytes := bytes ++ with_counter packet (Z.land packet_cc 15) in
  bytes ←
    match finite_hls_layout t, packet_layout with
    | Ok layout, Some l => ok (rewrite_source_packet_timestamps (ts_buffer t) bytes pkt_start layout l (timestamp_offset t))
    | _, _ => Some bytes
    end;
  Some (advance t pid (next_counter, true) force, bytes).

Fixpoint emit_chunk (packets_remaining : nat) (t : TransportStreamBuffer) (bytes : list Z)
    : option (TransportStreamBuffer * list Z) :=
  match packets_remaining with
  | O => Some (t, bytes)
  | S packets_remaining => '(t, bytes) ← emit_next t bytes; emit_chunk packets_remaining t bytes
  end.

(** [packet_count] is the value of [ts_chunk_packet_count], an environment
    setting between 1 and 250. *)
Definition next_chunk (packet_count : nat) (t : TransportStreamBuffer) : option (TransportStreamBuffer * list Z) :=
  if ts_length t =? 0 then None else emit_chunk packet_count t [].

(** ** Lemmas: local updates

    A fold of updates that touch disjoint offsets. *)
Section LocalUpdates.
Context {A : Type}.
Context (step : list Z → A → layout_result (list Z)).
Context (footprint : A → list Z).
Context (pre : A → list Z → Prop) (post : A → list Z → list Z → Prop).

Definition agree_on (offsets : list Z) (b b' : list Z) : Prop := len b = len b' ∧ ∀ o, o ∈ offsets → get b o = get b' o.

(** Equal away from [offsets]. *)
Definition agree_off (offsets : list Z) (b b' : list Z) : Prop := len b = len b' ∧ ∀ o, o ∉ offsets → get b o = get b' o.

Context (pre_local : ∀ a b b', agree_on (footprint a) b b' → pre a b → pre a b').
Context (post_local : ∀ a b b' c c', agree_on (footprint a) b b' → agree_on (footprint a) c c' → post a b c → post a b' c').
Context (step_ok : ∀ a b, pre a b → ∃ b', step b a = Ok b' ∧ agree_off (footprint a) b b' ∧ post a b b').

Lemma agree_refl offsets b : agree_on offsets b b.
Proof. done. Qed.

Lemma agree_off_on offsets offsets' b b' :
  agree_off offsets b b' → (∀ o, o ∈ offsets' → o ∉ offsets) → agree_on offsets' b b'.
Proof. intros [Hl H] Hd. split; [done|]. auto. Qed.

Lemma agree_off_trans offsets offsets' b b' b'' :
  agree_off offsets b b' → agree_off offsets' b' b'' → agree_off (offsets ++ offsets') b b''.
Proof.
  intros [Hl H] [Hl' H']. split; [congruence|]. intros o [Ho Ho']%not_elem_of_app. rewrite H, H' by done. done.
Qed.

Lemma try_fold_local l : ∀ b,
  NoDup (mjoin (map footprint l)) → Forall (λ a, pre a b) l →
  ∃ b', try_fold step l b = Ok b' ∧ agree_off (mjoin (map footprint l)) b b' ∧ Forall (λ a, post a b b') l.
Proof.
  induction l as [|a l IH]; intros b Hn Hp; cbn [map mjoin list_join try_fold] in *.
  { exists b. split; [done|]. split; [done|constructor]. }
  apply NoDup_app in Hn as (_ & Hdis & Hn). apply Forall_cons in Hp as [Ha Hp].
  destruct (step_ok a b Ha) as (b1 & E1 & Hoff & Hpost). rewrite E1, bind_ok.
  assert (∀ c, c ∈ l → ∀ o, o ∈ footprint c → o ∉ footprint a) as Hsep.
  { intros c Hc o Ho Hoa. apply (Hdis o Hoa). apply list_elem_of_join. exists (footprint c).
    split; [done|]. by apply list_elem_of_fmap_2. }
  destruct (IH b1 Hn) as (b2 & E2 & Hoff2 & Hposts).
  { rewrite Forall_forall in *. intros c Hc. eapply pre_local; [|by apply Hp]. eapply agree_off_on; [done|]. by apply Hsep. }
  exists b2. split; [done|]. split; [by eapply agree_off_trans|]. constructor.
  - eapply post_local; [apply agree_refl| |done]. eapply agree_off_on; [done|]. intros o Ho Hin. by apply (Hdis o Ho).
  - rewrite Forall_forall in *. intros c Hc. eapply post_local; [|apply agree_refl|by apply Hposts].
    destruct (agree_off_on _ (footprint c) _ _ Hoff (Hsep c Hc)) as [Hl Hg]. split; [done|]. intros o Ho. by rewrite Hg.
Qed.
End LocalUpdates.

(** *** Reading and writing single offsets *)

Lemma get_insert_eq (b : list Z) i v : 0 ≤ i < len b → get (<[Z.to_nat i := v]> b) i = Some v.
Proof. intros. unfold get. replace (0 <=? i) with true by lia. apply list_lookup_insert_eq. unfold len in *. lia. Qed.

Lemma get_insert_ne (b : list Z) i j v : 0 ≤ i → i ≠ j → get (<[Z.to_nat i := v]> b) j = get b j.
Proof. intros. unfold get. destruct (Z.leb_spec 0 j); [|done]. apply list_lookup_insert_ne. lia. Qed.

Lemma get_bounds {B} (b : list B) o x : get b o = Some x → 0 ≤ o < len b.
Proof. unfold get. destruct (Z.leb_spec 0 o); [|done]. intros Hl%lookup_lt_Some. unfold len. lia. Qed.

Lemma get_put (b : list Z) lo v o :
  0 ≤ lo → lo + len v ≤ len b →
  get (put b lo v) o = if (lo <=? o) && (o <? lo + len v) then get v (o - lo) else get b o.
Proof.
  intros Hlo Hle. unfold get. destruct (Z.leb_spec 0 o).
  - rewrite put_lookup by done. rewrite Z2Nat.id by lia. destruct ((lo <=? o) && (o <? lo + len v)) eqn:E; [|done].
    replace (0 <=? o - lo) with true by lia. f_equal. lia.
  - by replace ((lo <=? o) && (o <? lo + len v)) with false by lia.
Qed.

Lemma slice_get_eq (b b' : list Z) lo hi : 0 ≤ lo → (∀ o, lo ≤ o < hi → get b o = get b' o) → slice b lo hi = slice b' lo hi.
Proof.
  intros Hlo H. apply slice_eq_lookup; [done|]. intros i Hi. specialize (H (Z.of_nat i) Hi). unfold get in H.
  by replace (0 <=? Z.of_nat i) with true in H by lia; rewrite Nat2Z.id in H.
Qed.

(** *** The programme clocks *)

Section Rewriting.
Context (offset : Z).

Definition pcr_pre (f : HlsTsPcrFieldLocation) (b : list Z) : Prop :=
  0 ≤ pcr_byte_offset f ∧ pcr_byte_offset f + 6 ≤ len b ∧ pcr_byte_offset f + 6 < 2 ^ 64.

Definition pcr_post (f : HlsTsPcrFieldLocation) (b b' : list Z) : Prop :=
  pcr_pre f b ∧
  slice b' (pcr_byte_offset f) (pcr_byte_offset f + 6)
  = shifted_pcr (decode_pcr (slice b (pcr_byte_offset f) (pcr_byte_offset f + 6))) offset.

Lemma decode_pcr_at f b : pcr_pre f b →
  decode_pcr_at_location b f = Ok (decode_pcr (slice b (pcr_byte_offset f) (pcr_byte_offset f + 6))).
Proof.
  intros (? & ? & ?). unfold decode_pcr_at_location. rewrite checked_add_small by lia. cbn [ok_or]. rewrite bind_ok.
  rewrite get_range_some by lia. done.
Qed.

Lemma len_shifted_pcr x : len (shifted_pcr x offset) = 6.
Proof. done. Qed.

Lemma pcr_slice_local f b b' : agree_on (pcr_offsets f) b b' → 0 ≤ pcr_byte_offset f →
  slice b (pcr_byte_offset f) (pcr_byte_offset f + 6) = slice b' (pcr_byte_offset f) (pcr_byte_offset f + 6).
Proof. intros [_ H] Hp. apply slice_get_eq; [done|]. intros o Ho. apply H. apply elem_of_seqZ. lia. Qed.

Lemma rewrite_pcrs l b :
  NoDup (mjoin (map pcr_offsets l)) → Forall (λ f, pcr_pre f b) l →
  ∃ b', try_fold (rewrite_pcr offset) l b = Ok b' ∧ agree_off (mjoin (map pcr_offsets l)) b b' ∧ Forall (λ f, pcr_post f b b') l.
Proof.
  apply try_fold_local.
  - intros f c c' [Hl _]. unfold pcr_pre. by rewrite Hl.
  - intros f c c' d d' Hc Hd [(H0 & H1 & H2) Hp]. split; [unfold pcr_pre; destruct Hc as [<- _]; done|].
    by rewrite <- (pcr_slice_local f c c' Hc H0), <- (pcr_slice_local f d d' Hd H0).
  - intros f c Hpre. pose proof Hpre as (H0 & H1 & H2). unfold rewrite_pcr. rewrite decode_pcr_at by done. rewrite bind_ok.
    rewrite checked_add_small by lia. cbn [ok_or]. rewrite bind_ok, get_range_some by lia. cbn [ok_or]. rewrite bind_ok.
    eexists. split; [done|]. split; [split|split].
    + by rewrite len_put.
    + intros o Ho. rewrite get_put by (rewrite ?len_shifted_pcr; lia). rewrite len_shifted_pcr.
      replace (_ && _) with false; [done|]. symmetry. apply not_true_is_false. intros Hin. apply Ho, elem_of_seqZ. lia.
    + done.
    + apply slice_put_same; [done|by rewrite len_shifted_pcr|lia].
Qed.

(** *** The timestamp fields *)

Definition field_pre (f : HlsTsTimestampFieldLocation) (b : list Z) : Prop :=
  length (byte_offsets f) = 5%nat ∧ NoDup (byte_offsets f) ∧
  ∃ old, gather_timestamp_bytes b f = Ok old ∧ timestamp_field old.

Definition field_post (f : HlsTsTimestampFieldLocation) (b b' : list Z) : Prop :=
  ∃ old, gather_timestamp_bytes b f = Ok old ∧ timestamp_field old ∧
    gather_timestamp_bytes b' f = Ok (shift_timestamp_field old offset).

Lemma gather_agree offsets b b' : agree_on offsets b b' → gather_offsets b offsets = gather_offsets b' offsets.
Proof.
  intros [Hl H]. induction offsets as [|o offsets IH]; [done|]. cbn [gather_offsets].
  rewrite (H o) by left. rewrite IH; [done|]. intros o' Ho'. apply H. by right.
Qed.

Lemma gather_get offsets b bs : gather_offsets b offsets = Ok bs → Forall2 (λ v o, get b o = Some v) bs offsets.
Proof.
  revert bs. induction offsets as [|o offsets IH]; intros bs H; cbn [gather_offsets] in H; bind_inv; constructor; auto.
Qed.

Lemma get_gather offsets b bs : Forall2 (λ v o, get b o = Some v) bs offsets → gather_offsets b offsets = Ok bs.
Proof.
  induction 1 as [|v o bs offsets H _ IH]; [done|]. cbn [gather_offsets]. rewrite H. cbn [ok_or]. by rewrite bind_ok, IH.
Qed.

(** The values of [encoded] have their marker bits, counted from [i] on. *)
Fixpoint markers_set (i : nat) (encoded : list Z) : Prop :=
  match encoded with
  | [] => True
  | v :: encoded => marker_missing i v = false ∧ markers_set (S i) encoded
  end.

Lemma write_field_ok f offsets : ∀ encoded i b,
  length encoded = length offsets → NoDup offsets → Forall (λ o, 0 ≤ o < len b) offsets → markers_set i encoded →
  ∃ b', write_field f i offsets encoded b = Ok b' ∧ agree_off offsets b b' ∧ Forall2 (λ v o, get b' o = Some v) encoded offsets.
Proof.
  induction offsets as [|o offsets IH]; intros [|v encoded] i b Hl Hn Hb Hm; try done; cbn [write_field].
  { exists b. split; [done|]. split; [done|constructor]. }
  apply NoDup_cons in Hn as [Ho Hn]. apply Forall_cons in Hb as [Hob Hb]. destruct Hm as [Hv Hm].
  unfold write_byte. replace ((0 <=? o) && (o <? len b)) with true by lia. rewrite bind_ok, Hv.
  set (b1 := <[Z.to_nat o := v]> b). assert (len b1 = len b) as L1 by (unfold b1, len; by rewrite length_insert).
  destruct (IH encoded (S i) b1) as (b' & E & [L2 Hoff] & H2); [by injection Hl|done|by rewrite L1|done|].
  exists b'. split; [done|]. split.
  - split; [congruence|]. intros x [Hx Hx']%not_elem_of_cons. rewrite <- Hoff by done. unfold b1.
    by rewrite get_insert_ne by lia.
  - constructor; [|done]. rewrite <- Hoff by done. unfold b1. by apply get_insert_eq.
Qed.

Lemma timestamp_field_markers b : timestamp_field b → markers_set 0 b.
Proof.
  intros (b0 & b1 & b2 & b3 & b4 & -> & _ & M0 & M2 & M4). unfold markers_set, marker_missing. cbn [Nat.eqb orb andb].
  rewrite !land_one_odd. assert (∀ x, x mod 2 = 1 → negb (Z.odd x) = false) as H.
  { intros x. rewrite Zmod_odd. by destruct (Z.odd x). }
  rewrite !H by done. done.
Qed.

Lemma timestamp_field_length b : timestamp_field b → length b = 5%nat.
Proof. by intros (? & ? & ? & ? & ? & -> & _). Qed.

Lemma rewrite_fields l b :
  0 ≤ offset → NoDup (field_offsets l) → Forall (λ f, field_pre f b) l →
  ∃ b', try_fold (rewrite_field offset) l b = Ok b' ∧ agree_off (field_offsets l) b b' ∧ Forall (λ f, field_post f b b') l.
Proof.
  intros Hoff. apply try_fold_local.
  - intros f c c' Ha (? & ? & old & Hg & ?). unfold gather_timestamp_bytes in *. rewrite (gather_agree _ _ _ Ha) in Hg.
    split_and!; eauto.
  - intros f c c' d d' Hc Hd (old & Hg & Hf & Hg'). unfold field_post, gather_timestamp_bytes in *.
    rewrite <- (gather_agree _ _ _ Hc), <- (gather_agree _ _ _ Hd). eauto.
  - intros f c (Hlen & Hn & old & Hg & Hf). unfold rewrite_field. rewrite Hg, bind_ok.
    destruct (shift_timestamp_field_spec old offset Hf Hoff) as (Hf' & _).
    destruct (write_field_ok f (byte_offsets f) (shift_timestamp_field old offset) 0 c) as (b' & E & Hag & H2);
      [by rewrite Hlen, (timestamp_field_length _ Hf')|done| |by apply timestamp_field_markers|].
    { apply gather_get in Hg. rewrite Forall_forall. intros o Ho. destruct (Forall2_elem_r _ _ _ _ Hg Ho) as (v & _ & Hv).
      by eapply get_bounds. }
    exists b'. split; [done|]. split; [done|]. exists old. split_and!; try done. by apply get_gather.
Qed.
End Rewriting.

(** [bytes] has the fields of [layout]. *)
Record laid_out (layout : HlsFiniteTsLayout) (bytes : list Z) : Prop := {
  la_nodup : NoDup (layout_offsets layout);
  la_pcr : Forall (λ f, pcr_pre f bytes) (pcr_fields layout);
  la_fields : Forall (λ f, field_pre f bytes) (timestamp_fields layout);
}.

(** [bytes'] is [bytes] with every field of [layout] shifted by [offset]. *)
Record shifted (layout : HlsFiniteTsLayout) (offset : Z) (bytes bytes' : list Z) : Prop := {
  sh_other : agree_off (layout_offsets layout) bytes bytes';
  sh_pcr : Forall (λ f, pcr_post offset f bytes bytes') (pcr_fields layout);
  sh_fields : Forall (λ f, field_post offset f bytes bytes') (timestamp_fields layout);
}.

Lemma agree_off_mono (l k b b' : list Z) : (∀ o, o ∈ l → o ∈ k) → agree_off l b b' → agree_off k b b'.
Proof. intros Hs [Hl H]. split; [done|]. auto. Qed.

Lemma rewrite_layout_spec layout bytes offset :
  laid_out layout bytes → 0 < offset →
  ∃ bytes', rewrite_layout_timestamps bytes layout offset = Ok bytes' ∧ shifted layout offset bytes bytes'.
Proof.
  intros [Hn Hp Hf] Ho. unfold rewrite_layout_timestamps. replace (offset =? 0) with false by lia.
  apply NoDup_app in Hn as (Hnf & Hdis & Hnp).
  destruct (rewrite_pcrs offset _ bytes Hnp Hp) as (b1 & E1 & Hoff1 & Hpost1). rewrite E1, bind_ok.
  assert (∀ f, f ∈ timestamp_fields layout → agree_on (byte_offsets f) bytes b1) as Hag1.
  { intros f Hin. eapply agree_off_on; [exact Hoff1|]. intros o Ho' Hin'. apply (Hdis o); [|done].
    apply elem_of_field_offsets. eauto. }
  destruct (rewrite_fields offset (timestamp_fields layout) b1) as (b2 & E2 & Hoff2 & Hpost2); [lia|done| |].
  { rewrite Forall_forall in *. intros f Hin. destruct (Hf f Hin) as (? & ? & old & Hg & ?). split_and!; try done.
    exists old. unfold gather_timestamp_bytes in *. by rewrite <- (gather_agree _ _ _ (Hag1 f Hin)). }
  exists b2. split; [done|]. constructor.
  - unfold layout_offsets. eapply agree_off_mono; [|eapply agree_off_trans; [exact Hoff1|exact Hoff2]].
    intros o. rewrite !elem_of_app. tauto.
  - rewrite Forall_forall in *. intros f Hin. destruct (Hpost1 f Hin) as [Hpre Hs]. split; [done|]. rewrite <- Hs. symmetry.
    apply pcr_slice_local; [|apply Hpre]. eapply agree_off_on; [exact Hoff2|]. intros o Ho' Hin'.
    apply (Hdis o Hin'). apply list_elem_of_join. exists (pcr_offsets f). split; [done|]. by apply list_elem_of_fmap_2.
  - rewrite Forall_forall in *. intros f Hin. destruct (Hpost2 f Hin) as (old & Hg & Ht & Hg'). exists old.
    unfold gather_timestamp_bytes in *. split_and!; try done. by rewrite (gather_agree _ _ _ (Hag1 f Hin)).
Qed.

Lemma packet_end_inside buffer layout (i : nat) :
  layout_ok buffer layout → (i < length (packets layout))%nat → Z.of_nat i * TS_PACKET_SIZE + TS_PACKET_SIZE ≤ len buffer.
Proof. intros Hok Hi. rewrite (lo_count _ _ Hok). change TS_PACKET_SIZE with 188. unfold len. lia. Qed.

Lemma buffer_laid_out buffer layout :
  Forall is_u8 buffer → len buffer < 2 ^ 64 → layout_ok buffer layout → laid_out layout buffer.
Proof.
  intros Hu Hs Hok. constructor; [by eapply layout_offsets_nodup| |].
  - rewrite Forall_forall. intros f Hf. destruct (pcr_fields_origin _ _ f Hok Hf) as (i & e & Hi & Hins & He).
    pose proof (pcr_field_position _ _ _ _ Hu Hins He). pose proof (packet_end_inside _ _ i Hok Hi).
    unfold pcr_pre. change TS_PACKET_SIZE with 188 in *. lia.
  - eapply Forall_impl; [apply (lo_fields _ _ Hok)|]. cbn. intros f (bytes & Hl & H2 & Ht & _ & Hsort).
    split_and!; [done|by apply sorted_NoDup|]. exists bytes. split; [by eapply gather_located|done].
Qed.

(** A shifted buffer still has the fields, so that shifts can be repeated. *)
Lemma shifted_laid_out layout offset bytes bytes' :
  0 ≤ offset → laid_out layout bytes → shifted layout offset bytes bytes' → laid_out layout bytes'.
Proof.
  intros Ho [Hn Hp Hf] [[Hl _] _ Hsf]. constructor; [done| |].
  - eapply Forall_impl; [exact Hp|]. cbn. unfold pcr_pre. by rewrite Hl.
  - rewrite Forall_forall in *. intros f Hin. destruct (Hf f Hin) as (? & ? & _). split_and!; try done.
    destruct (Hsf f Hin) as (old & _ & Ht & Hg). exists (shift_timestamp_field old offset).
    split; [done|]. by apply shift_timestamp_field_spec.
Qed.

Lemma rewrite_laid_out layout bytes offset :
  laid_out layout bytes → 0 ≤ offset →
  ∃ bytes', rewrite_layout_timestamps bytes layout offset = Ok bytes' ∧ laid_out layout bytes' ∧ len bytes' = len bytes ∧
    agree_off (layout_offsets layout) bytes bytes'.
Proof.
  intros Hla Ho. destruct (Z.eqb_spec offset 0) as [->|Hne].
  - exists bytes. split_and!; try done.
  - destruct (rewrite_layout_spec layout bytes offset Hla ltac:(lia)) as (bytes' & E & Hs). exists bytes'.
    split_and!; [done|by eapply shifted_laid_out|symmetry; apply Hs|apply Hs].
Qed.

(** ** Theorems: rewriting *)

(** C33: shifting an asset in place.  For a positive offset the rewrite of a
    buffer that its layout was built from succeeds; every timestamp field then
    holds the field shifted by the offset, every programme clock its value plus
    the offset in 27 MHz ticks, modulo its cycle, and no other byte has changed. *)
Theorem rewrite_layout_correct buffer layout offset :
  Forall is_u8 buffer → len buffer < 2 ^ 64 → build_hls_finite_ts_layout buffer = Ok layout → 0 < offset →
  ∃ rewritten, rewrite_layout_timestamps buffer layout offset = Ok rewritten ∧ len rewritten = len buffer ∧
    (∀ f, f ∈ timestamp_fields layout → ∃ t, decode_timestamp_at_location buffer f = Ok t ∧
       decode_timestamp_at_location rewritten f = Ok (add_pts_dts_offset t offset)) ∧
    (∀ f, f ∈ pcr_fields layout → ∃ c, decode_pcr_at_location buffer f = Ok c ∧
       decode_pcr_at_location rewritten f = Ok (add_pcr_offset_27mhz c (pcr_offset_27mhz offset))) ∧
    (∀ o, o ∉ layout_offsets layout → get rewritten o = get buffer o).
Proof.
  intros Hu Hs Hb Ho. pose proof (build_layout_ok _ _ Hu Hs Hb) as Hok.
  pose proof (buffer_laid_out _ _ Hu Hs Hok) as Hla.
  destruct (rewrite_layout_spec _ _ _ Hla Ho) as (rewritten & E & [[Hl Hag] Hp Hf]). rewrite Forall_forall in Hp. rewrite Forall_forall in Hf.
  exists rewritten. split_and!; [done|done| | |].
  - intros f Hin. destruct (Hf f Hin) as (old & Hg & Ht & Hg'). exists (decode_timestamp old).
    unfold decode_timestamp_at_location. rewrite Hg, Hg', !bind_ok. split; [done|]. f_equal.
    by apply shift_timestamp_field_spec; [|lia].
  - intros f Hin. destruct (Hp f Hin) as [Hpre Hsl]. eexists. split; [by apply decode_pcr_at|].
    rewrite decode_pcr_at by (unfold pcr_pre in *; by rewrite <- Hl). f_equal. rewrite Hsl.
    apply pcr_decode_encode. by apply Z.mod_pos_bound.
  - intros o Hno. symmetry. by apply Hag.
Qed.

(** ** Lemmas: continuity counters *)

(** The payload packets of [pid] among [ls]. *)
Definition payloads (pid : Z) (ls : list HlsFiniteTsPacketLayout) : Z :=
  len (filter (λ L, has_payload L = true ∧ layout_pid L = pid) ls).

(** The counter that packet [k] of segment [index] carries. *)
Definition segment_counter (spec : HlsFiniteTsRenderSpec) (all : list HlsFiniteTsPacketLayout) (pid : Z) (k : nat) : Z :=
  (continuity_seed spec + logical_segment_index spec * payloads pid all + payloads pid (take k all)) mod 16.

Lemma payloads_app pid ls ls' : payloads pid (ls ++ ls') = payloads pid ls + payloads pid ls'.
Proof. unfold payloads. by rewrite filter_app, len_app. Qed.

Lemma payloads_one pid L : payloads pid [L] = if has_payload L && (layout_pid L =? pid) then 1 else 0.
Proof.
  unfold payloads. rewrite filter_cons. destruct (decide _) as [[-> ->]|H]; [by rewrite Z.eqb_refl|].
  destruct (has_payload L), (Z.eqb_spec (layout_pid L) pid); try done. by destruct H.
Qed.

Lemma land15 x : Z.land x 15 = x mod 16.
Proof. exact (land_mask x 4 ltac:(lia)). Qed.

Lemma land15_256 x : Z.land (x mod 256) 15 = x mod 16.
Proof. rewrite land15. lia. Qed.

Lemma payload_counts_spec ls pid : default 0 (payload_counts ls !! pid) = payloads pid ls mod 16.
Proof.
  unfold payload_counts. induction ls as [|L ls IH] using rev_ind; [done|].
  rewrite foldl_app, payloads_app, payloads_one. cbn [foldl].
  set (m := foldl count_payload ∅ ls) in *. clearbody m. unfold count_payload. destruct (has_payload L); cbn [andb]; [|by rewrite Z.add_0_r].
  rewrite land15_256. destruct (Z.eqb_spec (layout_pid L) pid) as [->|Hne].
  - rewrite lookup_insert_eq. cbn. rewrite IH. by rewrite Zplus_mod_idemp_l.
  - rewrite lookup_insert_ne by done. by rewrite Z.add_0_r.
Qed.

Lemma first_counter_spec spec all pid :
  first_counter spec (payload_counts all) pid = segment_counter spec all pid 0.
Proof.
  unfold first_counter, segment_counter. rewrite payload_counts_spec, !land15_256. change (payloads pid (take 0 all)) with 0.
  rewrite land15, Z.add_0_r, Z.add_mod_idemp_r by lia. rewrite Z.add_mod, <- Z.mul_mod by lia. rewrite <- Z.add_mod by lia.
  f_equal. lia.
Qed.

(** A segment starts each PID where the one before it ended. *)
Lemma segment_counter_continues spec spec' all pid :
  continuity_seed spec' = continuity_seed spec → logical_segment_index spec' = logical_segment_index spec + 1 →
  segment_counter spec' all pid 0 = segment_counter spec all pid (length all).
Proof.
  intros E1 E2. unfold segment_counter. rewrite E1, E2, firstn_all. change (payloads pid (take 0 all)) with 0. f_equal. ring.
Qed.

Lemma segment_counter_next spec all pid (k : nat) L :
  all !! k = Some L →
  segment_counter spec all pid (S k)
  = if has_payload L && (layout_pid L =? pid) then (segment_counter spec all pid k + 1) mod 16 else segment_counter spec all pid k.
Proof.
  intros Hk. unfold segment_counter. rewrite (take_S_r _ _ _ Hk), payloads_app, payloads_one.
  destruct (_ && _); [|by rewrite Z.add_0_r]. rewrite Z.add_mod_idemp_l by lia. f_equal. lia.
Qed.

(** *** The render loop *)

Record rendering (buffer : list Z) (spec : HlsFiniteTsRenderSpec) (all : list HlsFiniteTsPacketLayout) (i : nat)
    (s : render_state) : Prop := {
  re_len : len (rendered s) = Z.of_nat i * TS_PACKET_SIZE;
  re_packets : ∀ (j : nat) L, (j < i)%nat → all !! j = Some L →
    packet_at (rendered s) (Z.of_nat j) = with_counter (packet_at buffer (Z.of_nat j)) (segment_counter spec all (layout_pid L) j);
  re_counter : ∀ pid, default (segment_counter spec all pid 0) (continuity s !! pid) = segment_counter spec all pid i;
}.

Lemma len_with_counter p c : len (with_counter p c) = len p.
Proof. unfold with_counter, len. by rewrite length_insert. Qed.

Lemma packet_at_len buffer k : 0 ≤ k → (k + 1) * TS_PACKET_SIZE ≤ len buffer → len (packet_at buffer k) = TS_PACKET_SIZE.
Proof. intros. unfold packet_at. change TS_PACKET_SIZE with 188 in *. rewrite len_slice; lia. Qed.

Lemma packet_at_app_l b v (j : nat) i :
  len b = Z.of_nat i * TS_PACKET_SIZE → (j < i)%nat → packet_at (b ++ v) (Z.of_nat j) = packet_at b (Z.of_nat j).
Proof. intros Hl Hj. unfold packet_at. change TS_PACKET_SIZE with 188 in *. apply slice_app_l; lia. Qed.

Lemma packet_at_app_r b v (i : nat) :
  len b = Z.of_nat i * TS_PACKET_SIZE → len v = TS_PACKET_SIZE → packet_at (b ++ v) (Z.of_nat i) = v.
Proof.
  intros Hl Hv. unfold packet_at. rewrite slice_app_r by lia. apply slice_all; lia.
Qed.

Lemma render_packet_rendering buffer layout spec i s L :
  len buffer < 2 ^ 64 → layout_ok buffer layout → packets layout !! i = Some L →
  rendering buffer spec (packets layout) i s →
  ∃ s', render_packet buffer spec (payload_counts (packets layout)) s L = Ok s' ∧ rendering buffer spec (packets layout) (S i) s'.
Proof.
  intros Hs Hok HL [Hl Hp Hc]. destruct (lo_packets _ _ Hok i L HL) as [e Hd].
  pose proof (lookup_lt_Some _ _ _ HL) as Hi. pose proof (packet_end_inside _ _ i Hok Hi) as Hend.
  unfold render_packet. rewrite (pd_start _ _ _ _ _ Hd). change TS_PACKET_SIZE with 188 in *.
  assert (saturating_add (Z.of_nat i * 188) 188 = Z.of_nat i * 188 + 188) as -> by (unfold saturating_add; lia).
  rewrite get_range_some by lia. cbn [ok_or]. rewrite bind_ok. fold (packet_at buffer (Z.of_nat i)).
  change (slice buffer (Z.of_nat i * 188) (Z.of_nat i * 188 + 188)) with (packet_at buffer (Z.of_nat i)).
  rewrite first_counter_spec, Hc. eexists. split; [done|].
  assert (len (packet_at buffer (Z.of_nat i)) = 188) as Lp by (apply packet_at_len; change TS_PACKET_SIZE with 188; lia).
  constructor; cbn [rendered continuity]; change TS_PACKET_SIZE with 188.
  - rewrite len_app, len_with_counter, Lp, Hl. lia.
  - intros j L' Hj HL'. destruct (decide (j = i)) as [->|Hne].
    + rewrite packet_at_app_r; [|done|by rewrite len_with_counter, Lp]. by simplify_eq.
    + rewrite (packet_at_app_l _ _ j i) by (done || lia). apply Hp; [lia|done].
  - intros pid. rewrite (segment_counter_next _ _ _ _ _ HL). destruct (Z.eqb_spec (layout_pid L) pid) as [<-|Hne].
    + rewrite lookup_insert_eq. cbn. rewrite andb_true_r, land15_256. done.
    + rewrite lookup_insert_ne by done. rewrite andb_false_r. apply Hc.
Qed.

Lemma render_loop buffer layout spec :
  len buffer < 2 ^ 64 → layout_ok buffer layout →
  ∃ s, try_fold (render_packet buffer spec (payload_counts (packets layout))) (packets layout)
         {| rendered := []; continuity := ∅ |} = Ok s ∧ rendering buffer spec (packets layout) (length (packets layout)) s.
Proof.
  intros Hs Hok. set (f := render_packet _ _ _).
  assert (∀ l i s, drop i (packets layout) = l → rendering buffer spec (packets layout) i s →
    ∃ s', try_fold f l s = Ok s' ∧ rendering buffer spec (packets layout) (i + length l) s') as H.
  { induction l as [|L l IH]; intros i s Hd Hr; [exists s; cbn; rewrite Nat.add_0_r; done|].
    assert (packets layout !! i = Some L) as HL by (rewrite <- (Nat.add_0_r i), <- lookup_drop, Hd; done).
    destruct (render_packet_rendering buffer layout spec i s L Hs Hok HL Hr) as (s1 & E1 & Hr1).
    cbn [try_fold]. fold f in E1. rewrite E1, bind_ok. cbn [length]. rewrite Nat.add_succ_r, <- Nat.add_succ_l.
    apply IH; [|done]. rewrite <- Nat.add_1_r, <- drop_drop, Hd. done. }
  destruct (H (packets layout) 0%nat {| rendered := []; continuity := ∅ |}) as (s & E & Hr); [apply drop_0| |eauto].
  constructor; cbn; try done. intros j L Hj. lia.
Qed.

(** *** Offsets and packets *)

Lemma get_packet (b : list Z) o :
  0 ≤ o → (o / TS_PACKET_SIZE + 1) * TS_PACKET_SIZE ≤ len b →
  get b o = packet_at b (o / TS_PACKET_SIZE) !! Z.to_nat (o mod TS_PACKET_SIZE).
Proof.
  intros Ho Hl. change TS_PACKET_SIZE with 188 in *. unfold get, packet_at. change TS_PACKET_SIZE with 188.
  replace (0 <=? o) with true by lia. rewrite slice_lookup by lia. decide_ifs. f_equal. lia.
Qed.

Lemma layout_offset_range buffer layout o :
  Forall is_u8 buffer → layout_ok buffer layout → o ∈ layout_offsets layout → 0 ≤ o < len buffer ∧ 4 ≤ o mod TS_PACKET_SIZE.
Proof.
  intros Hu Hok [Ho | Ho]%elem_of_app.
  - apply elem_of_field_offsets in Ho as (f & Hf & Ho). pose proof (lo_fields _ _ Hok) as Hall. rewrite Forall_forall in Hall.
    destruct (Hall f Hf) as (bytes & _ & H2 & _). destruct (Forall2_elem_r _ _ _ _ H2 Ho) as (b & _ & Hloc).
    split; [by eapply located_bounds|]. destruct Hloc as (e & po & He & _ & Hpo & Hle & _).
    apply inspect_ok in He; [|by apply Forall_slice]. pose proof (in_payload _ _ _ He po Hpo). lia.
  - apply list_elem_of_join in Ho as (l & Ho & Hl). apply list_elem_of_fmap in Hl as (f & -> & Hf).
    destruct (pcr_fields_origin _ _ f Hok Hf) as (i & e & Hi & Hins & He).
    pose proof (pcr_field_position _ _ _ _ Hu Hins He). pose proof (packet_end_inside _ _ i Hok Hi).
    apply elem_of_seqZ in Ho. change TS_PACKET_SIZE with 188 in *. lia.
Qed.

Lemma laid_out_agree layout b b' : laid_out layout b → agree_on (layout_offsets layout) b b' → laid_out layout b'.
Proof.
  intros [Hn Hp Hf] [Hl Hg]. constructor; [done| |].
  - eapply Forall_impl; [exact Hp|]. cbn. unfold pcr_pre. by rewrite Hl.
  - rewrite Forall_forall in *. intros f Hin. destruct (Hf f Hin) as (? & ? & old & Ho & ?). split_and!; try done.
    exists old. split; [|done]. unfold gather_timestamp_bytes in *. rewrite <- (gather_agree _ b); [done|].
    split; [done|]. intros o Hof. apply Hg. apply elem_of_app. left. apply elem_of_field_offsets. eauto.
Qed.

(** [b'] differs from [b] at most in the counter byte of each packet. *)
Definition counters_only (b b' : list Z) : Prop := len b = len b' ∧ ∀ o, o mod TS_PACKET_SIZE ≠ 3 → get b o = get b' o.

Lemma with_counter_other p c (i : nat) : i ≠ 3%nat → with_counter p c !! i = p !! i.
Proof. intros. unfold with_counter. by rewrite list_lookup_insert_ne by lia. Qed.

Lemma rendering_counters_only buffer layout spec s :
  layout_ok buffer layout → rendering buffer spec (packets layout) (length (packets layout)) s → counters_only buffer (rendered s).
Proof.
  intros Hok [Hl Hp _].
  assert (len buffer = Z.of_nat (length (packets layout)) * TS_PACKET_SIZE) as Hcount by exact (lo_count _ _ Hok).
  split; [lia|]. intros o Ho. destruct (decide (0 ≤ o < len buffer)) as [Hr|Hr]; cycle 1.
  { unfold get. destruct (Z.leb_spec 0 o); [|done]. rewrite !lookup_ge_None_2; [done|..]; unfold len in *; lia. }
  change TS_PACKET_SIZE with 188 in *.
  rewrite (get_packet buffer), (get_packet (rendered s)) by (change TS_PACKET_SIZE with 188; lia). change TS_PACKET_SIZE with 188.
  destruct (lookup_lt_is_Some_2 (packets layout) (Z.to_nat (o / 188))) as [L HL]; [lia|].
  pose proof (Hp (Z.to_nat (o / 188)) L ltac:(lia) HL) as E. rewrite Z2Nat.id in E by lia. rewrite E.
  rewrite with_counter_other by lia. done.
Qed.

Lemma counters_only_laid_out buffer layout b :
  Forall is_u8 buffer → len buffer < 2 ^ 64 → layout_ok buffer layout → counters_only buffer b → laid_out layout b.
Proof.
  intros Hu Hs Hok [Hl Hc]. apply (laid_out_agree layout buffer); [by apply buffer_laid_out|]. split; [done|].
  intros o Ho. apply Hc. pose proof (layout_offset_range _ _ _ Hu Hok Ho). change TS_PACKET_SIZE with 188 in *. lia.
Qed.

(** A buffer that holds an asset and its layout. *)
Record holds_asset (t : TransportStreamBuffer) (layout : HlsFiniteTsLayout) : Prop := {
  ha_u8 : Forall is_u8 (ts_buffer t);
  ha_small : len (ts_buffer t) < 2 ^ 64;
  ha_layout : finite_hls_layout t = Ok layout;
  ha_built : build_hls_finite_ts_layout (ts_buffer t) = Ok layout;
}.

Lemma holds_layout_ok t layout : holds_asset t layout → layout_ok (ts_buffer t) layout ∧ 0 < len (packets layout).
Proof.
  intros [Hu Hs _ Hb]. pose proof (build_layout_ok _ _ Hu Hs Hb) as Hok. split; [done|].
  pose proof (lo_count _ _ Hok) as Hc. unfold build_hls_finite_ts_layout in Hb.
  destruct (_ || _) eqn:E in Hb; [discriminate Hb|]. bool_to_prop. change TS_PACKET_SIZE with 188 in *.
  pose proof (len_nonneg (packets layout)). lia.
Qed.

(** The segment before its timestamps are shifted. *)
Lemma render_unshifted t layout spec :
  holds_asset t layout →
  ∃ s, rendering (ts_buffer t) spec (packets layout) (length (packets layout)) s ∧
    laid_out layout (rendered s) ∧ counters_only (ts_buffer t) (rendered s) ∧
    try_fold (render_packet (ts_buffer t) spec (payload_counts (packets layout))) (packets layout)
      {| rendered := []; continuity := ∅ |} = Ok s ∧
    render_finite_hls_segment t spec
    = map_err (λ _, RenderInvalidAsset) (rewrite_layout_timestamps (rendered s) layout (timestamp_offset_ticks_90khz spec)).
Proof.
  intros Ha. pose proof (holds_layout_ok _ _ Ha) as [Hok Hne]. destruct Ha as [Hu Hs Hl _].
  destruct (render_loop (ts_buffer t) layout spec Hs Hok) as (s & E & Hr). exists s.
  pose proof (rendering_counters_only _ _ _ _ Hok Hr) as Hc.
  split_and!; [done|by eapply counters_only_laid_out|done|done|].
  unfold render_finite_hls_segment. rewrite Hl. cbn [map_err]. rewrite bind_ok.
  pose proof (lo_count _ _ Hok). change TS_PACKET_SIZE with 188 in *.
  replace (_ || _) with false by lia. by rewrite E, bind_ok.
Qed.

Lemma packet_counter_byte b k p c :
  0 ≤ k → (k + 1) * TS_PACKET_SIZE ≤ len b → packet_at b k = with_counter p c → len p = TS_PACKET_SIZE →
  get b (k * TS_PACKET_SIZE + 3) = Some (Z.lor (Z.land (byte_at p 3) 240) c).
Proof.
  intros Hk Hl E Hp. change TS_PACKET_SIZE with 188 in *.
  rewrite get_packet by (change TS_PACKET_SIZE with 188; lia). change TS_PACKET_SIZE with 188.
  replace ((k * 188 + 3) / 188) with k by lia. replace ((k * 188 + 3) mod 188) with 3 by lia. rewrite E.
  unfold with_counter. apply list_lookup_insert_eq. unfold len in Hp. lia.
Qed.

(** The fields of the asset are those of a buffer that differs from it in the
    continuity counters only. *)
Lemma counters_keep_fields buffer layout bytes :
  Forall is_u8 buffer → layout_ok buffer layout → len bytes = len buffer →
  (∀ o, o mod TS_PACKET_SIZE ≠ 3 → get bytes o = get buffer o) →
  (∀ f, f ∈ timestamp_fields layout → gather_timestamp_bytes buffer f = gather_timestamp_bytes bytes f) ∧
  (∀ f, f ∈ pcr_fields layout → 0 ≤ pcr_byte_offset f →
     slice buffer (pcr_byte_offset f) (pcr_byte_offset f + 6) = slice bytes (pcr_byte_offset f) (pcr_byte_offset f + 6)).
Proof.
  intros Hu Hok Hlen Hc.
  assert (∀ l : list Z, (∀ o, o ∈ l → o ∈ layout_offsets layout) → agree_on l buffer bytes) as Hon.
  { intros l Hl. split; [done|]. intros o Ho. symmetry. apply Hc. pose proof (layout_offset_range _ _ _ Hu Hok (Hl o Ho)).
    change TS_PACKET_SIZE with 188 in *. lia. }
  split.
  - intros f Hin. apply gather_agree, Hon. intros o Ho. apply elem_of_app. left. apply elem_of_field_offsets. eauto.
  - intros f Hin Hp. apply pcr_slice_local; [|done]. apply Hon. intros o Ho. apply elem_of_app. right.
    apply list_elem_of_join. exists (pcr_offsets f). split; [done|]. by apply list_elem_of_fmap_2.
Qed.

(** A shift by zero rewrites nothing, and adds nothing to a timestamp. *)
Lemma rewrite_layout_fields layout bytes offset :
  laid_out layout bytes → 0 ≤ offset →
  ∃ bytes', rewrite_layout_timestamps bytes layout offset = Ok bytes' ∧ len bytes' = len bytes ∧
    (∀ f, f ∈ timestamp_fields layout → ∃ old, gather_timestamp_bytes bytes f = Ok old ∧
       decode_timestamp_at_location bytes' f = Ok (add_pts_dts_offset (decode_timestamp old) offset)) ∧
    (0 < offset → ∀ f, f ∈ pcr_fields layout → pcr_pre f bytes ∧
       decode_pcr_at_location bytes' f
       = Ok (add_pcr_offset_27mhz (decode_pcr (slice bytes (pcr_byte_offset f) (pcr_byte_offset f + 6))) (pcr_offset_27mhz offset))) ∧
    (∀ o, offset = 0 ∨ o ∉ layout_offsets layout → get bytes' o = get bytes o).
Proof.
  intros Hla Ho. destruct (decide (offset = 0)) as [->|Hne].
  - exists bytes. split; [done|]. split; [done|]. split_and!; [|lia|done].
    pose proof (la_fields _ _ Hla) as Hf. rewrite Forall_forall in Hf. intros f Hin. destruct (Hf f Hin) as (_ & _ & old & Hg & Ht).
    exists old. split; [done|]. unfold decode_timestamp_at_location. rewrite Hg, bind_ok. f_equal.
    unfold add_pts_dts_offset. rewrite Z.add_0_r, Z.mod_small; [done|]. by apply timestamp_decode_range.
  - destruct (rewrite_layout_spec layout bytes offset Hla ltac:(lia)) as (bytes' & E & [[Hl Hag] Hp Hf]).
    rewrite Forall_forall in Hp. rewrite Forall_forall in Hf. exists bytes'. split_and!; [done|done| | |].
    + intros f Hin. destruct (Hf f Hin) as (old & Hg & Ht & Hg'). exists old. split; [done|].
      unfold decode_timestamp_at_location. rewrite Hg', bind_ok. f_equal. by apply shift_timestamp_field_spec; [|lia].
    + intros _ f Hin. destruct (Hp f Hin) as [Hpre Hsl]. split; [done|].
      rewrite decode_pcr_at by (unfold pcr_pre in *; by rewrite <- Hl). f_equal. rewrite Hsl.
      apply pcr_decode_encode. by apply Z.mod_pos_bound.
    + intros o [?|Hno]; [done|]. symmetry. by apply Hag.
Qed.

(** C32: rendering a finite segment.  For an asset with a layout the segment
    always renders, with the length of the asset; packet [k] carries the
    continuity counter that follows from the seed, the segment's index and the
    payload packets of its PID before it; every timestamp is shifted by the
    offset, every programme clock by a positive offset; and all other bytes are
    those of the asset, at offset zero all bytes but the counters.  A segment
    starts each PID with the counter at which the segment before it ended.  The
    rule for the counter is that of the code for packets without payload too:
    they carry the counter of the next payload packet, where a decoder expects
    that of the one before ([render_adaptation_only_counter]). *)
Theorem render_finite_hls_segment_correct t layout spec :
  holds_asset t layout → 0 ≤ timestamp_offset_ticks_90khz spec →
  ∃ segment, render_finite_hls_segment t spec = Ok segment ∧ len segment = len (ts_buffer t) ∧
    (∀ (k : nat) L, packets layout !! k = Some L →
       get segment (Z.of_nat k * TS_PACKET_SIZE + 3)
       = Some (Z.lor (Z.land (byte_at (packet_at (ts_buffer t) (Z.of_nat k)) 3) 240) (segment_counter spec (packets layout) (layout_pid L) k))) ∧
    (∀ f, f ∈ timestamp_fields layout → ∃ ts, decode_timestamp_at_location (ts_buffer t) f = Ok ts ∧
       decode_timestamp_at_location segment f = Ok (add_pts_dts_offset ts (timestamp_offset_ticks_90khz spec))) ∧
    (0 < timestamp_offset_ticks_90khz spec →
     ∀ f, f ∈ pcr_fields layout → ∃ c, decode_pcr_at_location (ts_buffer t) f = Ok c ∧
       decode_pcr_at_location segment f = Ok (add_pcr_offset_27mhz c (pcr_offset_27mhz (timestamp_offset_ticks_90khz spec)))) ∧
    (∀ o, timestamp_offset_ticks_90khz spec = 0 ∨ o ∉ layout_offsets layout → o mod TS_PACKET_SIZE ≠ 3 →
       get segment o = get (ts_buffer t) o) ∧
    (∀ spec' pid, continuity_seed spec' = continuity_seed spec →
       logical_segment_index spec' = logical_segment_index spec + 1 →
       segment_counter spec' (packets layout) pid 0 = segment_counter spec (packets layout) pid (length (packets layout))).
Proof.
  intros Ha Ho. pose proof (holds_layout_ok _ _ Ha) as [Hok _].
  destruct (render_unshifted t layout spec Ha) as (s & Hr & Hla & [Hlen Hc] & _ & E). destruct Ha as [Hu _ _ _].
  destruct (rewrite_layout_fields _ _ _ Hla Ho) as (segment & E' & Hl & Hf & Hp & Hag). rewrite E' in E.
  destruct (counters_keep_fields (ts_buffer t) layout (rendered s) Hu Hok) as [Hgf Hgp]; [congruence|intros o H3; symmetry; by apply Hc|].
  exists segment. split_and!; [done|congruence| | | | |intros; by apply segment_counter_continues].
  - intros k L HL. pose proof (lookup_lt_Some _ _ _ HL) as Hk. pose proof (packet_end_inside _ _ k Hok Hk) as Hend. rewrite Hag.
    2:{ right. intros Hin. pose proof (layout_offset_range _ _ _ Hu Hok Hin). change TS_PACKET_SIZE with 188 in *. lia. }
    apply packet_counter_byte; [lia|change TS_PACKET_SIZE with 188 in *; lia|by apply (re_packets _ _ _ _ _ Hr)|].
    apply packet_at_len; [lia|]. change TS_PACKET_SIZE with 188 in *. lia.
  - intros f Hin. destruct (Hf f Hin) as (old & Hg & Hd). exists (decode_timestamp old). split; [|done].
    unfold decode_timestamp_at_location. by rewrite Hgf, Hg, bind_ok.
  - intros Hpos f Hin. destruct (Hp Hpos f Hin) as [Hpre Hd]. eexists. split; [|exact Hd].
    pose proof Hpre as (? & _). rewrite decode_pcr_at by (unfold pcr_pre in *; by rewrite Hlen). f_equal. f_equal. by apply Hgp.
  - intros o Hno H3. rewrite Hag by done. symmetry. by apply Hc.
Qed.

(** ** Lemmas: shifts compose *)

Lemma shift_compose b o1 o2 :
  timestamp_field b → 0 ≤ o1 → 0 ≤ o2 →
  shift_timestamp_field (shift_timestamp_field b o1) o2 = shift_timestamp_field b (o1 + o2).
Proof.
  intros Hf H1 H2. destruct (shift_timestamp_field_spec b o1 Hf H1) as (Hf1 & Hd & Hp & _).
  destruct Hf as (b0 & b1 & b2 & b3 & b4 & -> & Hu & _). destruct Hf1 as (c0 & c1 & c2 & c3 & c4 & Ec & Hu1 & _).
  apply Forall_cons in Hu as [Hu _]. rewrite Ec in *. apply Forall_cons in Hu1 as [Hu1 _].
  rewrite !shift_timestamp_field_arith by done. cbv zeta. rewrite Hd. unfold byte_at in Hp. cbn in Hp. rewrite Hp.
  assert (∀ x, add_pts_dts_offset (add_pts_dts_offset x o1) o2 = add_pts_dts_offset x (o1 + o2)) as Hadd.
  { intros x. unfold add_pts_dts_offset. by rewrite Zplus_mod_idemp_l, Z.add_assoc. }
  by rewrite Hadd.
Qed.

Lemma shifted_pcr_compose x o1 o2 :
  shifted_pcr (decode_pcr (shifted_pcr x o1)) o2 = shifted_pcr x (o1 + o2).
Proof.
  unfold shifted_pcr at 1 3. f_equal. unfold shifted_pcr.
  rewrite (proj1 (pcr_decode_encode (add_pcr_offset_27mhz x (pcr_offset_27mhz o1)) ltac:(by apply Z.mod_pos_bound))).
  unfold add_pcr_offset_27mhz, pcr_offset_27mhz. rewrite !Zplus_mod_idemp_r, Zplus_mod_idemp_l. f_equal. ring.
Qed.

Lemma gather_same_get offsets b b' bs o :
  gather_offsets b offsets = Ok bs → gather_offsets b' offsets = Ok bs → o ∈ offsets → get b o = get b' o.
Proof.
  revert bs. induction offsets as [|x offsets IH]; intros bs H H' Ho; [by apply not_elem_of_nil in Ho|].
  cbn [gather_offsets] in *. bind_inv. apply elem_of_cons in Ho as [-> | Ho]; [|by eapply IH]. congruence.
Qed.

Lemma slice_same_get (b b' : list Z) lo hi o :
  0 ≤ lo ≤ o → o < hi → slice b lo hi = slice b' lo hi → get b o = get b' o.
Proof.
  intros Hlo Hhi H. unfold get. replace (0 <=? o) with true by lia.
  pose proof (slice_lookup b lo hi (Z.to_nat (o - lo)) ltac:(lia)) as E.
  pose proof (slice_lookup b' lo hi (Z.to_nat (o - lo)) ltac:(lia)) as E'. rewrite H in E. rewrite E in E'.
  rewrite (proj2 (Z.ltb_lt (Z.of_nat (Z.to_nat (o - lo))) (hi - lo))) in E' by lia.
  by replace (Z.to_nat lo + Z.to_nat (o - lo))%nat with (Z.to_nat o) in E' by lia.
Qed.

Lemma list_eq_get (b b' : list Z) : (∀ o, get b o = get b' o) → b = b'.
Proof.
  intros H. apply list_eq. intros i. specialize (H (Z.of_nat i)). unfold get in H.
  rewrite (proj2 (Z.leb_le 0 (Z.of_nat i))), Nat2Z.id in H by lia. done.
Qed.

Lemma elem_of_pcr_offsets layout o :
  o ∈ mjoin (map pcr_offsets (pcr_fields layout)) →
  ∃ f, f ∈ pcr_fields layout ∧ pcr_byte_offset f ≤ o < pcr_byte_offset f + 6.
Proof.
  intros (l & Ho & Hl)%list_elem_of_join. apply list_elem_of_fmap in Hl as (f & -> & Hf).
  apply elem_of_seqZ in Ho. eauto.
Qed.

(** Two shifts are one shift by the sum. *)
Lemma shifted_compose layout b b1 b2 b' o1 o2 :
  0 ≤ o1 → 0 ≤ o2 →
  shifted layout o1 b b1 → shifted layout o2 b1 b2 → shifted layout (o1 + o2) b b' → b2 = b'.
Proof.
  intros H1 H2 [[L1 A1] P1 F1] [[L2 A2] P2 F2] [[L3 A3] P3 F3].
  rewrite Forall_forall in P1, P2, P3. rewrite Forall_forall in F1, F2, F3. apply list_eq_get. intros o.
  destruct (decide (o ∈ layout_offsets layout)) as [Ho|Ho]; [|rewrite <- A2, <- A1, <- A3 by done; done].
  apply elem_of_app in Ho as [Ho | Ho].
  - apply elem_of_field_offsets in Ho as (f & Hf & Ho).
    destruct (F1 f Hf) as (old & G & T & G1), (F2 f Hf) as (old1 & G1' & _ & G2), (F3 f Hf) as (old3 & G3 & _ & G').
    assert (old3 = old) as -> by congruence. assert (old1 = shift_timestamp_field old o1) as -> by congruence.
    rewrite shift_compose in G2 by done. by eapply gather_same_get.
  - apply elem_of_pcr_offsets in Ho as (f & Hf & Ho).
    destruct (P1 f Hf) as [(Hpos & _) S1], (P2 f Hf) as [_ S2], (P3 f Hf) as [_ S3].
    eapply slice_same_get; [split; [exact Hpos|apply Ho]|apply Ho|].
    by rewrite S2, S1, S3, shifted_pcr_compose.
Qed.

Lemma rewrite_compose layout b o1 o2 :
  laid_out layout b → 0 ≤ o1 → 0 ≤ o2 →
  rewrite_layout_timestamps b layout o1 ≫= (λ b1, rewrite_layout_timestamps b1 layout o2)
  = rewrite_layout_timestamps b layout (o1 + o2).
Proof.
  intros Hla H1 H2. destruct (Z.eqb_spec o1 0) as [->|Hne1]; [done|].
  destruct (rewrite_layout_spec layout b o1 Hla ltac:(lia)) as (b1 & E1 & S1). rewrite E1, bind_ok.
  destruct (Z.eqb_spec o2 0) as [->|Hne2]; [by rewrite Z.add_0_r, E1|].
  destruct (rewrite_layout_spec layout b1 o2 (shifted_laid_out _ _ _ _ H1 Hla S1) ltac:(lia)) as (b2 & E2 & S2).
  destruct (rewrite_layout_spec layout b (o1 + o2) Hla ltac:(lia)) as (b' & E' & S'). rewrite E2, E'. f_equal.
  exact (shifted_compose layout b b1 b2 b' o1 o2 H1 H2 S1 S2 S').
Qed.

(** ** Lemmas: finalizing *)

(** Packet [k] of a segment has a marker in front: markers are asked for, its PID
    is not the null PID and no packet before it has that PID. *)
Definition marked (spec : HlsFiniteTsFinalizeSpec) (segment : list Z) (k : Z) : bool :=
  match finalize_discontinuity spec with
  | NoDiscontinuity => false
  | FirstPacketPerPid =>
      let pid := ts_packet_pid (packet_at segment k) in
      negb (pid =? NULL_PID) && negb (existsb (λ j, ts_packet_pid (packet_at segment j) =? pid) (seqZ 0 k))
  end.

(** The first [n] packets of a segment, with their markers. *)
Definition with_markers (spec : HlsFiniteTsFinalizeSpec) (segment : list Z) (n : Z) : list Z :=
  mjoin (map (λ k, (if marked spec segment k then finite_discontinuity_packet (packet_at segment k) else []) ++ packet_at segment k)
           (seqZ 0 n)).

(** The PIDs that have got a marker, before packet [k]. *)
Definition seen_before (segment : list Z) (k : Z) (seen : gset Z) : Prop :=
  ∀ pid, pid ≠ NULL_PID → pid ∈ seen ↔ ∃ j, 0 ≤ j < k ∧ ts_packet_pid (packet_at segment j) = pid.

Lemma marker_due_marked spec b k seen :
  seen_before b k seen → marker_due spec seen (ts_packet_pid (packet_at b k)) = marked spec b k.
Proof.
  intros Hs. unfold marker_due, marked. destruct (finalize_discontinuity spec); [done|]. cbv zeta.
  set (pid := ts_packet_pid (packet_at b k)). destruct (Z.eqb_spec pid NULL_PID) as [|Hne]; [done|]. cbn [negb andb]. f_equal.
  apply Bool.eq_iff_eq_true. rewrite bool_decide_eq_true, existsb_exists, (Hs pid Hne). split.
  - intros (j & Hj & E). exists j. rewrite <- list_elem_of_In, elem_of_seqZ, Z.eqb_eq. split; [lia|done].
  - intros (j & Hj & E). rewrite <- list_elem_of_In, elem_of_seqZ in Hj. apply Z.eqb_eq in E. exists j. split; [lia|done].
Qed.

Lemma seen_step spec b k seen :
  0 ≤ k → seen_before b k seen → finalize_discontinuity spec = FirstPacketPerPid →
  seen_before b (k + 1) (if marked spec b k then {[ts_packet_pid (packet_at b k)]} ∪ seen else seen).
Proof.
  intros Hk Hs Hd pid Hne. specialize (Hs pid Hne) as Hpid.
  assert ((∃ j, 0 ≤ j < k + 1 ∧ ts_packet_pid (packet_at b j) = pid) ↔ pid ∈ seen ∨ ts_packet_pid (packet_at b k) = pid) as ->.
  { rewrite Hpid. split.
    - intros (j & Hj & E). destruct (decide (j = k)) as [->|]; [by right|]. left. exists j. split; [lia|done].
    - intros [(j & Hj & E)|E]; [exists j|exists k]; (split; [lia|done]). }
  rewrite <- (marker_due_marked spec b k seen Hs). unfold marker_due. rewrite Hd. set (q := ts_packet_pid (packet_at b k)).
  destruct (Z.eqb_spec q NULL_PID) as [Eq|Eq]; cbn [negb andb]; [|case_bool_decide; cbn [negb]]; set_solver.
Qed.

Lemma emit_packets_markers spec b n : ∀ k seen,
  0 ≤ k → len b = (k + Z.of_nat n) * TS_PACKET_SIZE → len b < 2 ^ 64 →
  finalize_discontinuity spec = NoDiscontinuity ∨ seen_before b k seen →
  emit_packets spec b (seqZ k (Z.of_nat n)) seen
  = mjoin (map (λ k, (if marked spec b k then finite_discontinuity_packet (packet_at b k) else []) ++ packet_at b k) (seqZ k (Z.of_nat n))).
Proof.
  change TS_PACKET_SIZE with 188. induction n as [|n IH]; intros k seen Hk Hl Hs Hseen; [done|].
  rewrite seqZ_cons by lia. cbn [emit_packets map mjoin list_join]. change TS_PACKET_SIZE with 188.
  assert (saturating_mul k 188 = k * 188) as -> by (unfold saturating_mul; lia).
  change (slice b (k * 188) (k * 188 + 188)) with (packet_at b k).
  replace (Z.pred (Z.of_nat (S n))) with (Z.of_nat n) by lia. rewrite <- Z.add_1_r.
  assert (marker_due spec seen (ts_packet_pid (packet_at b k)) = marked spec b k) as ->.
  { destruct Hseen as [Hd|Hseen]; [unfold marker_due, marked; by rewrite Hd|by apply marker_due_marked]. }
  assert (finalize_discontinuity spec = NoDiscontinuity ∨
          seen_before b (k + 1) (if marked spec b k then {[ts_packet_pid (packet_at b k)]} ∪ seen else seen)) as Hnext.
  { destruct Hseen as [Hd|Hseen]; [by left|]. destruct (finalize_discontinuity spec) eqn:Hd; [by left|right; by apply seen_step]. }
  destruct (marked spec b k); rewrite IH by (done || lia); by rewrite <- ?app_assoc.
Qed.

Lemma with_markers_none spec b n :
  finalize_discontinuity spec = NoDiscontinuity → len b = Z.of_nat n * TS_PACKET_SIZE → with_markers spec b (Z.of_nat n) = b.
Proof.
  intros Hd. unfold with_markers, marked. rewrite Hd. cbn [app]. change TS_PACKET_SIZE with 188. intros Hl.
  assert (∀ m k, 0 ≤ k → k + Z.of_nat m = Z.of_nat n → mjoin (map (λ k, packet_at b k) (seqZ k (Z.of_nat m))) = slice b (k * 188) (len b)) as H.
  { induction m as [|m IH]; intros k Hk Hm; [cbn; rewrite slice_empty; [done|lia]|]. rewrite seqZ_cons by lia. cbn [map mjoin list_join].
    replace (Z.pred (Z.of_nat (S m))) with (Z.of_nat m) by lia. rewrite IH by lia. unfold packet_at. change TS_PACKET_SIZE with 188.
    rewrite (slice_cut b (k * 188) (k * 188 + 188) (len b)) by lia. f_equal. f_equal. lia. }
  rewrite H by lia. by apply slice_all.
Qed.

Lemma land_high x c : is_u8 x → 0 ≤ c < 16 → Z.land (Z.lor (Z.land x 240) c) 240 = Z.land x 240.
Proof.
  intros [Hx Hx'] Hc. change (2 ^ 8) with 256 in *. rewrite (mask_prefix x) by done.
  change (x / 16 * 16) with (x / 16 * 2 ^ 4). rewrite (lor_disjoint _ c 4) by (change (2 ^ 4) with 16; lia). change (2 ^ 4) with 16.
  rewrite mask_prefix by (unfold fits; change (2 ^ 8) with 256; lia). lia.
Qed.

Lemma byte_at_packet (b : list Z) k (i : nat) :
  0 ≤ k → (k + 1) * TS_PACKET_SIZE ≤ len b → (i < 188)%nat →
  byte_at (packet_at b k) i = default 0 (get b (k * TS_PACKET_SIZE + Z.of_nat i)).
Proof.
  intros Hk Hl Hi. change TS_PACKET_SIZE with 188 in *. rewrite get_packet by (change TS_PACKET_SIZE with 188; lia).
  change TS_PACKET_SIZE with 188. unfold byte_at. replace ((k * 188 + Z.of_nat i) / 188) with k by lia.
  replace (Z.to_nat ((k * 188 + Z.of_nat i) mod 188)) with i by lia. done.
Qed.

Lemma header_offset_free buffer layout (k : nat) e r :
  Forall is_u8 buffer → layout_ok buffer layout → 0 ≤ r ≤ 4 →
  inspect_hls_ts_packet (packet_at buffer (Z.of_nat k)) (Z.of_nat k * TS_PACKET_SIZE) = Ok e →
  r < 4 ∨ Z.land (Z.shiftr (byte_at (packet_at buffer (Z.of_nat k)) 3) 4) 3 ≠ 1 →
  Z.of_nat k * TS_PACKET_SIZE + r ∉ layout_offsets layout.
Proof.
  intros Hu Hok Hr He Hafc Hin. pose proof (layout_offset_range _ _ _ Hu Hok Hin) as [_ Hmod].
  change TS_PACKET_SIZE with 188 in *. destruct Hafc as [? | Hafc]; [lia|].
  apply elem_of_app in Hin as [Ho | Ho].
  - apply elem_of_field_offsets in Ho as (f & Hf & Ho). pose proof (lo_fields _ _ Hok) as Hall. rewrite Forall_forall in Hall.
    destruct (Hall f Hf) as (bytes & _ & H2 & _). destruct (Forall2_elem_r _ _ _ _ H2 Ho) as (b & _ & Hloc).
    destruct Hloc as (e' & po & He' & _ & Hpo & Hle & _). change TS_PACKET_SIZE with 188 in *.
    replace ((Z.of_nat k * 188 + r) / 188) with (Z.of_nat k) in He' by lia. assert (e' = e) as -> by congruence.
    apply inspect_ok in He; [|by apply Forall_slice]. destruct (in_adaptation _ _ _ He) as [? | H5]; [done|].
    specialize (H5 po Hpo). lia.
  - apply elem_of_pcr_offsets in Ho as (f & Hf & Ho). destruct (pcr_fields_origin _ _ f Hok Hf) as (i & e' & _ & Hi & He').
    pose proof (pcr_field_position _ _ _ _ Hu Hi He'). change TS_PACKET_SIZE with 188 in *. lia.
Qed.

(** A rendered segment passes the layout check. *)
Definition same_headers (buffer prepared : list Z) (layout : HlsFiniteTsLayout) : Prop :=
  len prepared = len buffer ∧
  ∀ k : nat, (k < length (packets layout))%nat →
    same_finite_ts_packet_layout (packet_at buffer (Z.of_nat k)) (packet_at prepared (Z.of_nat k)) = true.

Lemma segment_same_headers buffer layout prepared :
  Forall is_u8 buffer → layout_ok buffer layout → len prepared = len buffer →
  (∀ o, o ∉ layout_offsets layout → o mod TS_PACKET_SIZE ≠ 3 → get prepared o = get buffer o) →
  (∀ k : nat, (k < length (packets layout))%nat → ∃ c, 0 ≤ c < 16 ∧ get prepared (Z.of_nat k * TS_PACKET_SIZE + 3)
     = Some (Z.lor (Z.land (byte_at (packet_at buffer (Z.of_nat k)) 3) 240) c)) →
  same_headers buffer prepared layout.
Proof.
  intros Hu Hok Hl Hother H3. split; [done|]. intros k Hk.
  destruct (lookup_lt_is_Some_2 (packets layout) k Hk) as [L HL]. destruct (lo_packets _ _ Hok k L HL) as [e Hd].
  pose proof (pd_inspect _ _ _ _ _ Hd) as He. pose proof (packet_end_inside _ _ k Hok Hk) as Hend.
  assert (∀ r : nat, (r < 4 ∧ r ≠ 3)%nat ∨ (r = 4%nat ∧ Z.land (Z.shiftr (byte_at (packet_at buffer (Z.of_nat k)) 3) 4) 3 ≠ 1) →
    byte_at (packet_at prepared (Z.of_nat k)) r = byte_at (packet_at buffer (Z.of_nat k)) r) as Hsame.
  { intros r Hr. rewrite !byte_at_packet by (change TS_PACKET_SIZE with 188 in *; lia). f_equal. apply Hother.
    - eapply header_offset_free; [done|done|lia|exact He|]. destruct Hr as [? | [? ?]]; [left; lia|by right].
    - change TS_PACKET_SIZE with 188. lia. }
  destruct (H3 k Hk) as (c & Hc & E3).
  assert (Z.land (byte_at (packet_at prepared (Z.of_nat k)) 3) 240 = Z.land (byte_at (packet_at buffer (Z.of_nat k)) 3) 240) as H240.
  { rewrite (byte_at_packet prepared) by (change TS_PACKET_SIZE with 188 in *; lia). change (Z.of_nat 3) with 3.
    rewrite E3. cbn [default from_option id]. apply land_high; [|done]. by apply byte_at_u8, Forall_slice. }
  pose proof (inspect_ok (packet_at buffer (Z.of_nat k)) _ _ (Forall_slice _ _ _ _ Hu) He) as Hi.
  unfold same_finite_ts_packet_layout.
  rewrite !packet_at_len by (change TS_PACKET_SIZE with 188 in *; lia).
  rewrite (Hsame 0%nat), (Hsame 1%nat), (Hsame 2%nat) by lia. rewrite H240, (in_sync _ _ _ Hi), !Z.eqb_refl. cbn [negb orb].
  destruct (decide (Z.land (Z.shiftr (byte_at (packet_at buffer (Z.of_nat k)) 3) 4) 3 = 1)) as [->|Hafc]; [done|].
  rewrite (Hsame 4%nat) by (right; done). rewrite Z.eqb_refl. apply orb_true_r.
Qed.

Lemma check_prepared_ok buffer prepared layout :
  len buffer < 2 ^ 64 → layout_ok buffer layout → same_headers buffer prepared layout →
  check_prepared_packets buffer prepared 0 (packets layout) = Ok tt.
Proof.
  intros Hs Hok [Hl Hsame].
  assert (∀ l (i : nat), drop i (packets layout) = l → check_prepared_packets buffer prepared (Z.of_nat i) l = Ok tt) as H.
  { induction l as [|L l IH]; intros i Hd; [done|]. cbn [check_prepared_packets].
    assert (packets layout !! i = Some L) as HL by (rewrite <- (Nat.add_0_r i), <- lookup_drop, Hd; done).
    pose proof (lookup_lt_Some _ _ _ HL) as Hi. pose proof (packet_end_inside _ _ i Hok Hi) as Hend.
    destruct (lo_packets _ _ Hok i L HL) as [e Hde]. unfold check_prepared_packet. rewrite (pd_start _ _ _ _ _ Hde).
    change TS_PACKET_SIZE with 188 in *.
    assert (saturating_mul (Z.of_nat i) 188 = Z.of_nat i * 188) as -> by (unfold saturating_mul; lia).
    assert (saturating_add (Z.of_nat i * 188) 188 = Z.of_nat i * 188 + 188) as -> by (unfold saturating_add; lia).
    rewrite !get_range_some by lia. cbn [ok_or]. rewrite !bind_ok. specialize (Hsame i Hi).
    unfold packet_at in Hsame. change TS_PACKET_SIZE with 188 in Hsame. rewrite Hsame, bind_ok.
    replace (Z.of_nat i + 1) with (Z.of_nat (S i)) by lia. apply IH. rewrite <- Nat.add_1_r, <- drop_drop, Hd. done. }
  apply (H (packets layout) 0%nat). apply drop_0.
Qed.

(** What every rendered segment satisfies. *)
Lemma render_segment_prepared t layout spec :
  holds_asset t layout → 0 ≤ timestamp_offset_ticks_90khz spec →
  ∃ segment, render_finite_hls_segment t spec = Ok segment ∧ same_headers (ts_buffer t) segment layout.
Proof.
  intros Ha Ho. pose proof (holds_layout_ok _ _ Ha) as [Hok _].
  destruct (render_unshifted t layout spec Ha) as (s & Hr & Hla & [Hlen Hc] & _ & E). destruct Ha as [Hu _ _ _].
  destruct (rewrite_laid_out _ _ _ Hla Ho) as (segment & E' & _ & Hl & [_ Hag]). rewrite E' in E.
  exists segment. split; [done|]. apply segment_same_headers; [done|done|congruence| |].
  - intros o Hno H3. rewrite <- Hag by done. symmetry. by apply Hc.
  - intros k Hk. destruct (lookup_lt_is_Some_2 (packets layout) k Hk) as [L HL].
    pose proof (packet_end_inside _ _ k Hok Hk) as Hend.
    exists (segment_counter spec (packets layout) (layout_pid L) k). split; [by apply Z.mod_pos_bound|]. rewrite <- Hag.
    2:{ intros Hin. pose proof (layout_offset_range _ _ _ Hu Hok Hin). change TS_PACKET_SIZE with 188 in *. lia. }
    apply packet_counter_byte; [lia|change TS_PACKET_SIZE with 188 in *; lia|by apply (re_packets _ _ _ _ _ Hr)|].
    apply packet_at_len; [lia|]. change TS_PACKET_SIZE with 188 in *. lia.
Qed.

Lemma finalize_marked t layout prepared fspec :
  holds_asset t layout → same_headers (ts_buffer t) prepared layout → laid_out layout prepared →
  0 ≤ additional_timestamp_offset_ticks_90khz fspec →
  finalize_prepared_finite_hls_segment t prepared fspec
  = b ← map_err (λ _, PreparedLayoutMismatch)
          (rewrite_layout_timestamps prepared layout (additional_timestamp_offset_ticks_90khz fspec));
    Ok (with_markers fspec b (len (packets layout))).
Proof.
  intros Ha Hsame Hla Ho. pose proof (holds_layout_ok _ _ Ha) as [Hok Hne]. destruct Ha as [_ Hs Hl _].
  pose proof (lo_count _ _ Hok) as Hcount. destruct (Hsame) as [Hlen _].
  unfold finalize_prepared_finite_hls_segment. rewrite Hl. cbn [map_err]. rewrite bind_ok.
  change TS_PACKET_SIZE with 188 in *.
  assert (saturating_mul (len (packets layout)) 188 = len (packets layout) * 188) as -> by (unfold saturating_mul; lia).
  replace (_ || _) with false by lia. rewrite check_prepared_ok, bind_ok by done.
  destruct (rewrite_laid_out _ _ _ Hla Ho) as (b' & E & _ & Hl' & _). rewrite E. cbn [map_err]. rewrite !bind_ok. f_equal.
  unfold with_markers. unfold len at 1 2. apply emit_packets_markers; [done| |lia|].
  - change TS_PACKET_SIZE with 188. unfold len in *. lia.
  - right. intros pid _. split; [set_solver|]. intros (j & Hj & _). lia.
Qed.

(** C29: preparing a segment early and anchoring it later is the same as
    rendering it at once.  A segment rendered with one timestamp offset and
    finalized with another passes the layout check and equals the segment
    rendered with the sum of the offsets, with a discontinuity marker in front of
    the first packet of each PID but the null PID when the finalization asks for
    markers, and without any change when it does not. *)
Theorem prepared_segment_anchored t layout spec fspec :
  holds_asset t layout → 0 ≤ timestamp_offset_ticks_90khz spec → 0 ≤ additional_timestamp_offset_ticks_90khz fspec →
  ∃ segment,
    render_finite_hls_segment t
      {| timestamp_offset_ticks_90khz := timestamp_offset_ticks_90khz spec + additional_timestamp_offset_ticks_90khz fspec;
         continuity_seed := continuity_seed spec; logical_segment_index := logical_segment_index spec |} = Ok segment ∧
    render_finite_hls_segment t spec ≫= (λ prepared, finalize_prepared_finite_hls_segment t prepared fspec)
    = Ok (with_markers fspec segment (len (packets layout))) ∧
    (finalize_discontinuity fspec = NoDiscontinuity → with_markers fspec segment (len (packets layout)) = segment).
Proof.
  intros Ha Ho Ho'. set (spec' := Build_HlsFiniteTsRenderSpec _ _ _). pose proof (holds_layout_ok _ _ Ha) as [Hok _].
  destruct (render_segment_prepared t layout spec Ha Ho) as (segment & Eseg & Hsame).
  destruct (render_unshifted t layout spec Ha) as (s & _ & Hla & [Hlen _] & Efold & E).
  destruct (render_unshifted t layout spec' Ha) as (s' & _ & _ & _ & Efold' & E').
  assert (s' = s) as -> by (change (render_packet (ts_buffer t) spec') with (render_packet (ts_buffer t) spec) in Efold'; congruence).
  pose proof (rewrite_compose layout (rendered s) _ _ Hla Ho Ho') as Hcomp.
  destruct (rewrite_laid_out layout (rendered s) _ Hla Ho) as (b1 & E1 & Hla1 & Hl1 & _).
  rewrite E1, bind_ok in Hcomp. rewrite E1 in E. cbn [map_err] in E. rewrite E, bind_ok.
  assert (segment = b1) as -> by congruence. rewrite (finalize_marked t layout) by done.
  destruct (rewrite_laid_out layout b1 _ Hla1 Ho') as (b2 & E2 & _ & Hl2 & _). exists b2. split_and!.
  - rewrite E'. cbn [timestamp_offset_ticks_90khz spec']. by rewrite <- Hcomp, E2.
  - by rewrite E2.
  - intros Hd. unfold len at 1. apply with_markers_none; [done|]. pose proof (lo_count _ _ Hok) as Hcount. unfold len in *. congruence.
Qed.

(** *** Adaptation-only packets

    A decoder expects a packet without payload to repeat the counter of the
    packet before it.  A rendered adaptation-only packet carries the counter of
    the payload packet after it instead: of these three packets of one PID, the
    second should repeat 5, and it is 6, as is the third. *)
Definition adaptation_only_buffer : list Z :=
  stuffed [71; 1; 0; 16] ++ stuffed [71; 1; 0; 32; 183; 0] ++ stuffed [71; 1; 0; 17].

Lemma render_adaptation_only_counter :
  match render_finite_hls_segment (ts_buffer_new adaptation_only_buffer)
          {| timestamp_offset_ticks_90khz := 0; continuity_seed := 5; logical_segment_index := 0 |} with
  | Ok segment => map (λ k, Z.land (byte_at (packet_at segment k) 3) 15) [0; 1; 2] = [5; 6; 6]
  | Err _ => False
  end.
Proof. vm_compute. reflexivity. Qed.

(** *** Witnesses *)

Definition example_ts : TransportStreamBuffer := ts_buffer_new example_buffer.
Definition example_spec : HlsFiniteTsRenderSpec :=
  {| timestamp_offset_ticks_90khz := 8589934000; continuity_seed := 9; logical_segment_index := 3 |}.
Definition example_anchor : HlsFiniteTsFinalizeSpec :=
  {| additional_timestamp_offset_ticks_90khz := 90000; finalize_discontinuity := FirstPacketPerPid |}.

Lemma example_ts_buffer : ts_buffer example_ts = example_buffer.
Proof. vm_compute. reflexivity. Qed.

Lemma example_holds_asset : holds_asset example_ts example_layout.
Proof.
  constructor; rewrite ?example_ts_buffer; [apply example_buffer_u8|apply example_buffer_small| |apply example_layout_built].
  vm_compute. reflexivity.
Qed.

Lemma rewrite_layout_correct_witness :
  ∃ rewritten, rewrite_layout_timestamps example_buffer example_layout 90000 = Ok rewritten ∧ len rewritten = 752.
Proof.
  pose proof (rewrite_layout_correct example_buffer example_layout 90000 example_buffer_u8 example_buffer_small
    example_layout_built ltac:(reflexivity)) as T.
  destruct T as (rewritten & E & Hl & _). exists rewritten. split; [exact E|].
  rewrite Hl. vm_compute. reflexivity.
Defined.

Lemma render_finite_hls_segment_correct_witness :
  ∃ segment, render_finite_hls_segment example_ts example_spec = Ok segment ∧ len segment = 752.
Proof.
  pose proof (render_finite_hls_segment_correct example_ts example_layout example_spec example_holds_asset ltac:(discriminate)) as T.
  destruct T as (segment & E & Hl & _). exists segment. split; [exact E|]. rewrite Hl, example_ts_buffer. vm_compute. reflexivity.
Defined.

Lemma prepared_segment_anchored_witness :
  ∃ segment,
    render_finite_hls_segment example_ts
      {| timestamp_offset_ticks_90khz := 8589934000 + 90000; continuity_seed := 9; logical_segment_index := 3 |} = Ok segment ∧
    render_finite_hls_segment example_ts example_spec
      ≫= (λ prepared, finalize_prepared_finite_hls_segment example_ts prepared example_anchor)
    = Ok (with_markers example_anchor segment (len (packets example_layout))) ∧
    len (with_markers example_anchor segment (len (packets example_layout))) = len segment + 188 * 2.
Proof.
  destruct (prepared_segment_anchored example_ts example_layout example_spec example_anchor example_holds_asset
    ltac:(discriminate) ltac:(discriminate)) as (segment & E & Ef & _).
  exists segment. split; [exact E|]. split; [exact Ef|]. vm_compute in E. injection E as <-. vm_compute. reflexivity.
Defined.
