(* ===== verification/TsStream.v ===== *)
(** The endless transport stream (backend/mpegts/src/transport_stream_buffer.rs,
    [next_chunk]): rewriting packet by packet gives the packets of the asset
    rewritten as a whole, and the stream never ends. *)

From S2P Require Import Prelude TsClock TsPes TsLayout TsTimeline TsRender.
From stdpp Require Import gmap sorting.
#[local] Open Scope Z_scope.

(** ** One packet of a rewritten asset *)

Section Packet.
Context (buffer rewritten : list Z) (layout : HlsFiniteTsLayout) (offset : Z).
Context (buffer_u8 : Forall is_u8 buffer) (buffer_small : len buffer < 2 ^ 64).
Context (layout_good : layout_ok buffer layout).
Context (asset_shifted : shifted layout offset buffer rewritten).
Context (k : nat) (original : list Z) (start : Z).
Context (start_range : 0 ≤ start ∧ start + 188 ≤ len original ∧ len original < 2 ^ 64).

Let base := Z.of_nat k * 188.

(** The source offsets [written] have their rewritten bytes in [current]; the
    rest is as in [original]. *)
Record patched (written current : list Z) : Prop := {
  pa_len : len current = len original;
  pa_outside : ∀ d, d < start ∨ start + 188 ≤ d → get current d = get original d;
  pa_inside : ∀ r, 0 ≤ r < 188 →
    get current (start + r) = if decide (base + r ∈ written) then get rewritten (base + r) else get original (start + r);
}.

Lemma patched_nil : patched [] original.
Proof. constructor; try done. Qed.

Lemma patched_equiv w w' c : (∀ r, 0 ≤ r < 188 → base + r ∈ w ↔ base + r ∈ w') → patched w c → patched w' c.
Proof.
  intros H [Hl Ho Hi]. constructor; try done. intros r Hr. rewrite Hi by done.
  destruct (decide (base + r ∈ w)) as [Hw|Hw], (decide (base + r ∈ w')) as [Hw'|Hw']; try done; exfalso; apply H in Hw || apply H in Hw'; done.
Qed.

Lemma patched_write w c o v :
  patched w c → base ≤ o < base + 188 → get rewritten o = Some v →
  patched (w ++ [o]) (<[Z.to_nat (start + (o - base)) := v]> c).
Proof.
  intros [Hl Ho Hi] Hr Hv. constructor.
  - rewrite <- Hl. unfold len. by rewrite length_insert.
  - intros d Hd. rewrite get_insert_ne by lia. by apply Ho.
  - intros r Hr'. destruct (decide (base + r = o)) as [<-|Hne].
    + replace (start + (base + r - base)) with (start + r) by lia. rewrite get_insert_eq by lia.
      rewrite decide_True; [done|]. apply elem_of_app. right. by apply list_elem_of_singleton.
    + rewrite get_insert_ne by lia. rewrite Hi by done.
      destruct (decide (base + r ∈ w)) as [Hw|Hw].
      * rewrite decide_True; [done|]. apply elem_of_app. by left.
      * rewrite decide_False; [done|]. intros [?|E%list_elem_of_singleton]%elem_of_app; done.
Qed.

(** The bytes of a field that lie in the packet. *)
Lemma write_packet_field_patched offsets : ∀ encoded w c,
  Forall2 (λ v o, get rewritten o = Some v) encoded offsets → patched w c →
  ∃ c', write_packet_field base (base + 188) start offsets encoded c = Ok c' ∧ patched (w ++ offsets) c'.
Proof.
  induction offsets as [|o offsets IH]; intros encoded w c H2 Hp; inversion H2 as [|v ? vs ? Hv H2' E1 E2]; subst; cbn [write_packet_field].
  { exists c. rewrite app_nil_r. done. }
  destruct ((base <=? o) && (o <? base + 188)) eqn:Hin; cbn [negb].
  - rewrite checked_sub_small by lia. cbn [ok_or]. rewrite bind_ok.
    pose proof (pa_len _ _ Hp). rewrite checked_add_small by lia. cbn [ok_or]. rewrite bind_ok. unfold write_byte.
    replace ((0 <=? start + (o - base)) && (start + (o - base) <? len c)) with true by lia. rewrite bind_ok.
    destruct (IH vs (w ++ [o]) _ H2' (patched_write w c o v Hp ltac:(lia) Hv)) as (c' & E & Hp'). exists c'.
    split; [done|]. by rewrite <- app_assoc in Hp'.
  - destruct (IH vs w c H2' Hp) as (c' & E & Hp'). exists c'. split; [done|].
    eapply patched_equiv; [|exact Hp']. intros r Hr. rewrite !elem_of_app, elem_of_cons. split; [tauto|].
    intros [?|[E'|?]]; [tauto| |tauto]. exfalso. lia.
Qed.

Lemma rewrite_packet_fields_patched indices : ∀ w c,
  Forall (λ i, ∃ f, get (timestamp_fields layout) i = Some f) indices → patched w c →
  ∃ c', try_fold (rewrite_packet_field buffer layout base (base + 188) start offset) indices c = Ok c' ∧
    patched (w ++ field_offsets (omap (get (timestamp_fields layout)) indices)) c'.
Proof.
  induction indices as [|i indices IH]; intros w c Hi Hp; cbn [try_fold].
  { exists c. cbn. rewrite app_nil_r. done. }
  apply Forall_cons in Hi as [[f Hf] Hi].
  pose proof (sh_fields _ _ _ _ asset_shifted) as Hfields. rewrite Forall_forall in Hfields.
  assert (f ∈ timestamp_fields layout) as Hin.
  { unfold get in Hf. destruct (0 <=? i); [|done]. by eapply list_elem_of_lookup_2. }
  destruct (Hfields f Hin) as (old & Hg & _ & Hg').
  destruct (write_packet_field_patched (byte_offsets f) (shift_timestamp_field old offset) w c (gather_get _ _ _ Hg') Hp)
    as (c1 & E1 & Hp1).
  assert (rewrite_packet_field buffer layout base (base + 188) start offset c i = Ok c1) as E0
    by (unfold rewrite_packet_field; rewrite Hf; cbn [ok_or]; rewrite bind_ok, Hg, bind_ok; exact E1).
  rewrite E0, bind_ok.
  destruct (IH _ c1 Hi Hp1) as (c' & E & Hp'). exists c'. split; [done|].
  cbn [omap list_omap]. rewrite Hf. unfold field_offsets in *. cbn [map mjoin list_join]. by rewrite <- app_assoc in Hp'.
Qed.

Lemma write_packet_pcr_patched f c :
  f ∈ pcr_fields layout → pcr_byte_offset f = base + 6 → patched [] c →
  ∃ c', write_packet_pcr buffer c start base offset f = Ok c' ∧ patched (pcr_offsets f) c'.
Proof.
  intros Hin Hpos Hp. pose proof (sh_pcr _ _ _ _ asset_shifted) as Hpcr. rewrite Forall_forall in Hpcr.
  destruct (Hpcr f Hin) as [Hpre Hsl]. unfold write_packet_pcr. rewrite decode_pcr_at, bind_ok by done. rewrite Hpos in *.
  rewrite checked_sub_small by lia. cbn [ok_or]. rewrite bind_ok. replace (base + 6 - base) with 6 by lia.
  rewrite !checked_add_small by lia. cbn [ok_or]. rewrite !bind_ok. pose proof (pa_len _ _ Hp) as Hl.
  rewrite checked_add_small by lia. cbn [ok_or]. rewrite !bind_ok.
  rewrite get_range_some by lia. cbn [ok_or]. rewrite bind_ok. eexists. split; [done|].
  set (v := shifted_pcr _ _) in *. assert (len v = 6) as Lv by apply len_shifted_pcr.
  destruct Hp as [_ Ho Hi]. constructor.
  - by rewrite len_put.
  - intros d Hd. rewrite get_put by lia. rewrite Lv. replace (_ && _) with false by lia. by apply Ho.
  - intros r Hr. rewrite get_put by lia. rewrite Lv. unfold pcr_offsets. rewrite Hpos.
    destruct (decide (6 ≤ r < 12)) as [H6|H6].
    + rewrite decide_True by (apply elem_of_seqZ; lia). replace (_ && _) with true by lia. rewrite <- Hsl.
      replace (start + r - (start + 6)) with (r - 6) by lia. unfold get. replace (0 <=? r - 6) with true by lia.
      replace (0 <=? base + r) with true by (unfold base; lia). rewrite slice_lookup by (unfold base; lia).
      rewrite (proj2 (Z.ltb_lt _ _)) by lia. f_equal. unfold base. lia.
    + rewrite decide_False by (rewrite elem_of_seqZ; lia). replace (_ && _) with false by lia.
      rewrite Hi by done. by rewrite decide_False by apply not_elem_of_nil.
Qed.

(** *** The offsets that are written are those of the fields *)

Lemma written_fields r :
  0 ≤ r < 188 →
  base + r ∈ field_offsets (omap (get (timestamp_fields layout)) (touching (Z.of_nat k) 0 (timestamp_fields layout)))
  ↔ base + r ∈ field_offsets (timestamp_fields layout).
Proof.
  intros Hr. rewrite !elem_of_field_offsets. split; intros (f & Hf & Ho).
  - apply list_elem_of_omap in Hf as (i & _ & Hi). exists f. split; [|done].
    unfold get in Hi. destruct (0 <=? i); [|done]. by eapply list_elem_of_lookup_2.
  - exists f. split; [|done]. apply list_elem_of_lookup in Hf as (i & Hi). apply list_elem_of_omap.
    exists (Z.of_nat i). split.
    + apply elem_of_touching. exists f. rewrite Z.sub_0_r, Nat2Z.id. split_and!; [lia|done|].
      unfold touches. apply existsb_exists. exists (base + r). split; [by apply list_elem_of_In|].
      change TS_PACKET_SIZE with 188. unfold base. apply Z.eqb_eq. lia.
    + unfold get. rewrite (proj2 (Z.leb_le _ _)) by lia. by rewrite Nat2Z.id.
Qed.

Context (L : HlsFiniteTsPacketLayout) (HL : packets layout !! k = Some L).

Lemma written_pcr r :
  0 ≤ r < 188 →
  base + r ∈ (match pcr_field_index L with
              | Some j => match get (pcr_fields layout) j with Some f => pcr_offsets f | None => [] end
              | None => []
              end)
  ↔ base + r ∈ mjoin (map pcr_offsets (pcr_fields layout)).
Proof.
  intros Hr. destruct (lo_packets _ _ layout_good k L HL) as [e Hd]. pose proof (pd_pcr _ _ _ _ _ Hd) as Hp.
  assert (∀ f, f ∈ pcr_fields layout → base + r ∈ pcr_offsets f → pcr_field e = Some f) as Honly.
  { intros f Hf Ho. destruct (pcr_fields_origin _ _ f layout_good Hf) as (i & e' & _ & Hi & He').
    pose proof (pcr_field_position _ _ _ _ buffer_u8 Hi He') as Hpos. apply elem_of_seqZ in Ho.
    assert (i = k) as -> by (change TS_PACKET_SIZE with 188 in *; unfold base in *; lia).
    rewrite (pd_inspect _ _ _ _ _ Hd) in Hi. injection Hi as <-. done. }
  split.
  - destruct (pcr_field_index L) as [j|]; [|by intros ?%not_elem_of_nil]. destruct Hp as (Hj & f & Hf & Hl).
    unfold get. replace (0 <=? j) with true by lia. rewrite Hl. intros Ho. apply list_elem_of_join.
    exists (pcr_offsets f). split; [done|]. apply list_elem_of_fmap_2. by eapply list_elem_of_lookup_2.
  - intros (l & Ho & Hl)%list_elem_of_join. apply list_elem_of_fmap in Hl as (f & -> & Hf).
    specialize (Honly f Hf Ho). destruct (pcr_field_index L) as [j|]; [|congruence]. destruct Hp as (Hj & g & Hg & Hl).
    unfold get. replace (0 <=? j) with true by lia. rewrite Hl. assert (g = f) as -> by congruence. done.
Qed.

(** Rewriting a packet in place patches it with all its fields. *)
Lemma rewrite_source_packet_patched :
  0 < offset →
  ∃ current, rewrite_source_packet_timestamps buffer original start layout L offset = Ok current ∧
    patched (layout_offsets layout) current.
Proof.
  intros Ho. destruct (lo_packets _ _ layout_good k L HL) as [e Hd].
  pose proof (lookup_lt_Some _ _ _ HL) as Hk. pose proof (packet_end_inside _ _ k layout_good Hk) as Hend.
  pose proof (pd_pcr _ _ _ _ _ Hd) as Hp. pose proof (pd_range _ _ _ _ _ Hd) as Hrange.
  pose proof (pd_start _ _ _ _ _ Hd) as Hstart. change TS_PACKET_SIZE with 188 in *. fold base in Hstart, Hend.
  unfold rewrite_source_packet_timestamps. replace (offset =? 0) with false by lia. rewrite Hstart.
  change TS_PACKET_SIZE with 188. assert (saturating_add base 188 = base + 188) as -> by (unfold saturating_add; lia).
  set (w := match pcr_field_index L with
            | Some j => match get (pcr_fields layout) j with Some f => pcr_offsets f | None => [] end
            | None => [] end).
  assert (∃ c1, match pcr_field_index L with
      | Some index => location ← ok_or (get (pcr_fields layout) index) InvalidTimestampLocation;
                      write_packet_pcr buffer original start base offset location
      | None => Ok original end = Ok c1 ∧ patched w c1) as (c1 & E1 & Hp1).
  { unfold w. destruct (pcr_field_index L) as [j|]; [|exists original; split; [done|apply patched_nil]].
    destruct Hp as (Hj & f & Hf & Hl). unfold get. replace (0 <=? j) with true by lia. rewrite Hl. cbn [ok_or]. rewrite bind_ok.
    apply write_packet_pcr_patched; [by eapply list_elem_of_lookup_2| |apply patched_nil].
    rewrite (pcr_field_position buffer k e f buffer_u8 (pd_inspect _ _ _ _ _ Hd) Hf). done. }
  rewrite E1, bind_ok, get_range_some by lia. cbn [ok_or]. rewrite bind_ok, (pd_fields _ _ _ _ _ Hd).
  destruct (rewrite_packet_fields_patched (touching (Z.of_nat k) 0 (timestamp_fields layout)) w c1) as (c & E & Hpc); [|done|].
  { rewrite Forall_forall. intros i Hi. apply elem_of_touching in Hi as (f & Hi & Hf & _). exists f.
    rewrite Z.sub_0_r in Hf. unfold get. by replace (0 <=? i) with true by lia. }
  exists c. split; [done|]. eapply patched_equiv; [|exact Hpc]. intros r Hr. unfold layout_offsets, w.
  rewrite !elem_of_app, written_fields, written_pcr by done. tauto.
Qed.
End Packet.

(** The rewritten packet in the output is the packet of the rewritten asset,
    with the counter that was written before. *)
Lemma rewrite_source_packet_correct buffer rewritten layout offset (k : nat) L before c :
  Forall is_u8 buffer → len buffer < 2 ^ 64 → layout_ok buffer layout → shifted layout offset buffer rewritten →
  0 < offset → packets layout !! k = Some L → len before + 188 < 2 ^ 64 →
  rewrite_source_packet_timestamps buffer (before ++ with_counter (packet_at buffer (Z.of_nat k)) c) (len before) layout L offset
  = Ok (before ++ with_counter (packet_at rewritten (Z.of_nat k)) c).
Proof.
  intros Hu Hs Hok Hsh Ho HL Hb. pose proof (lookup_lt_Some _ _ _ HL) as Hk.
  pose proof (packet_end_inside _ _ k Hok Hk) as Hend. change TS_PACKET_SIZE with 188 in Hend.
  pose proof (sh_other _ _ _ _ Hsh) as [Hlr Hother].
  assert (len (packet_at buffer (Z.of_nat k)) = 188 ∧ len (packet_at rewritten (Z.of_nat k)) = 188) as [Lp Lr]
    by (split; apply packet_at_len; change TS_PACKET_SIZE with 188; lia).
  pose proof (len_nonneg before) as Hnn.
  set (original := before ++ with_counter (packet_at buffer (Z.of_nat k)) c).
  assert (len original = len before + 188) as Lo by (unfold original; rewrite len_app, len_with_counter; lia).
  destruct (rewrite_source_packet_patched buffer rewritten layout offset Hu Hs Hok Hsh k original (len before)
    ltac:(lia) L HL Ho) as (current & E & [Lc Hout Hin]).
  rewrite E. f_equal. apply list_eq_get. intros d.
  assert (∀ p r, len p = 188 → 0 ≤ r < 188 → get (before ++ p) (len before + r) = p !! Z.to_nat r) as Happ.
  { intros p r _ Hr. unfold get. replace (0 <=? len before + r) with true by lia.
    rewrite lookup_app_r by (unfold len in *; lia). f_equal. unfold len in *. lia. }
  destruct (decide (len before ≤ d < len before + 188)) as [Hd|Hd]; cycle 1.
  { rewrite Hout by lia. unfold original, get. destruct (Z.leb_spec 0 d); [|done].
    destruct (decide (d < len before)).
    - rewrite !lookup_app_l by (unfold len in *; lia). done.
    - rewrite !lookup_ge_None_2; [done|..]; rewrite length_app; unfold with_counter; rewrite length_insert; unfold len in *; lia. }
  replace d with (len before + (d - len before)) by lia. set (r := d - len before) in *.
  rewrite Hin by lia. unfold original. rewrite !Happ by (rewrite ?len_with_counter; lia).
  assert (∀ b, len b = len buffer → get b (Z.of_nat k * 188 + r) = packet_at b (Z.of_nat k) !! Z.to_nat r) as Hget.
  { intros b Hlb. rewrite get_packet by (change TS_PACKET_SIZE with 188; lia). change TS_PACKET_SIZE with 188.
    replace ((Z.of_nat k * 188 + r) / 188) with (Z.of_nat k) by lia. do 2 f_equal. lia. }
  assert (r = 3 → byte_at (packet_at rewritten (Z.of_nat k)) 3 = byte_at (packet_at buffer (Z.of_nat k)) 3) as H3.
  { intros E3. rewrite !byte_at_packet by (change TS_PACKET_SIZE with 188; lia). rewrite <- Hother; [done|].
    intros Hin'. pose proof (layout_offset_range _ _ _ Hu Hok Hin'). change TS_PACKET_SIZE with 188 in *. lia. }
  destruct (decide (r = 3)) as [E3|H3'].
  - rewrite decide_False.
    2:{ intros Hin'. pose proof (layout_offset_range _ _ _ Hu Hok Hin'). change TS_PACKET_SIZE with 188 in *. lia. }
    rewrite E3. change (Z.to_nat 3) with 3%nat. unfold with_counter. rewrite (H3 E3).
    rewrite !list_lookup_insert_eq by (unfold len in *; lia). done.
  - rewrite !with_counter_other by lia. rewrite <- (Hget rewritten), <- (Hget buffer) by done.
    destruct (decide _) as [|Hno]; [done|]. by rewrite Hother.
Qed.

(** ** The stream *)

(** A stream over an asset that has a layout. *)
Record streaming (t : TransportStreamBuffer) (layout : HlsFiniteTsLayout) : Prop := {
  st_asset : holds_asset t layout;
  st_length : ts_length t = len (packets layout);
  st_starts : packet_starts t = map (λ i, saturating_mul i TS_PACKET_SIZE) (seqZ 0 (ts_length t));
  st_pos : 0 ≤ current_pos t ≤ ts_length t;
  st_offset : 0 ≤ timestamp_offset t;
  st_counters : ∀ pid entry, cc_entries t !! pid = Some entry → 0 ≤ entry.1 < 16;
}.

Lemma wrap_around_streaming t layout : streaming t layout → streaming (wrap_around t) layout.
Proof.
  intros [[? ? ? ?] Hl Hst Hp Ho Hc]. constructor; cbn; try done.
  - lia.
  - destruct (duration_ticks_90khz t); [by apply Z.mod_pos_bound|done].
  - intros pid entry. rewrite lookup_fmap. destruct (cc_entries t !! pid) as [e|] eqn:E; [|done].
    intros [= <-]. cbn. by apply (Hc pid).
Qed.

(** The stream at the packet that is emitted next. *)
Definition at_packet (t : TransportStreamBuffer) : TransportStreamBuffer :=
  if ts_length t <=? current_pos t then wrap_around t else t.

Lemma at_packet_streaming t layout :
  streaming t layout → streaming (at_packet t) layout ∧ 0 ≤ current_pos (at_packet t) < len (packets layout) ∧
  ts_buffer (at_packet t) = ts_buffer t.
Proof.
  intros H. unfold at_packet. pose proof (holds_layout_ok _ _ (st_asset _ _ H)) as [_ Hne].
  pose proof (st_length _ _ H). pose proof (st_pos _ _ H).
  destruct (Z.leb_spec (ts_length t) (current_pos t)); (split; [auto using wrap_around_streaming|]); cbn; split; try done; lia.
Qed.

Lemma packet_start_at t layout k :
  streaming t layout → 0 ≤ k < len (packets layout) → at_index (packet_starts t) k = k * TS_PACKET_SIZE.
Proof.
  intros H Hk. pose proof (holds_layout_ok _ _ (st_asset _ _ H)) as [Hok _]. pose proof (lo_count _ _ Hok).
  pose proof (ha_small _ _ (st_asset _ _ H)). rewrite (st_starts _ _ H), (st_length _ _ H).
  unfold at_index, byte_at. rewrite list_lookup_fmap, lookup_seqZ_lt by lia. cbn [fmap option_fmap option_map default from_option id].
  rewrite Z2Nat.id, Z.add_0_l by lia. unfold saturating_mul. change TS_PACKET_SIZE with 188 in *. lia.
Qed.

(** The whole asset at the offset of the stream. *)
Lemma asset_rewritten t layout :
  streaming t layout → ∃ rewritten, rewrite_layout_timestamps (ts_buffer t) layout (timestamp_offset t) = Ok rewritten ∧
    (timestamp_offset t = 0 ∧ rewritten = ts_buffer t ∨
     0 < timestamp_offset t ∧ shifted layout (timestamp_offset t) (ts_buffer t) rewritten).
Proof.
  intros H. pose proof (holds_layout_ok _ _ (st_asset _ _ H)) as [Hok _]. destruct (st_asset _ _ H) as [Hu Hs _ _].
  pose proof (st_offset _ _ H). destruct (Z.eqb_spec (timestamp_offset t) 0) as [E|Hne].
  - exists (ts_buffer t). unfold rewrite_layout_timestamps. rewrite E. cbn. auto.
  - destruct (rewrite_layout_spec layout (ts_buffer t) (timestamp_offset t)) as (r & E & Hsh);
      [by apply buffer_laid_out|lia|]. exists r. split; [done|]. right. split; [lia|done].
Qed.

Lemma stream_packet_rewritten t layout rewritten (k : nat) L before c :
  streaming t layout → packets layout !! k = Some L → len before + 188 < 2 ^ 64 →
  rewrite_layout_timestamps (ts_buffer t) layout (timestamp_offset t) = Ok rewritten →
  rewrite_source_packet_timestamps (ts_buffer t) (before ++ with_counter (packet_at (ts_buffer t) (Z.of_nat k)) c)
    (len before) layout L (timestamp_offset t)
  = Ok (before ++ with_counter (packet_at rewritten (Z.of_nat k)) c).
Proof.
  intros H HL Hb Hr. destruct (asset_rewritten t layout H) as (r & Er & Hcase). assert (r = rewritten) as -> by congruence.
  pose proof (holds_layout_ok _ _ (st_asset _ _ H)) as [Hok _]. destruct (st_asset _ _ H) as [Hu Hs _ _].
  destruct Hcase as [[E ->] | [Hpos Hsh]]; [unfold rewrite_source_packet_timestamps; by rewrite E|].
  by apply rewrite_source_packet_correct.
Qed.

Lemma len_marker p cc fp o : len (generate_discontinuity_packet p cc fp o) = TS_PACKET_SIZE.
Proof.
  unfold generate_discontinuity_packet, len. cbv zeta.
  match goal with |- context [match ?x with Some _ => _ | None => _ end] => destruct x as [base|] end; [|done].
  rewrite !length_app. unfold shifted_pcr. done.
Qed.

(** The marker in front of the next packet, where one is due. *)
Definition next_marker (t : TransportStreamBuffer) (packet : list Z) (cc : Z) : list Z :=
  if force_discontinuity_on_wrap t && negb (snd (default (0, false) (cc_entries t !! ts_packet_pid packet)))
  then generate_discontinuity_packet packet cc (first_pcr t) (timestamp_offset t) else [].

(** The counter of the next packet. *)
Definition next_cc (t : TransportStreamBuffer) (L : HlsFiniteTsPacketLayout) (packet : list Z) : Z :=
  if has_payload L then fst (default (0, false) (cc_entries t !! ts_packet_pid packet)) else Z.land (byte_at packet 3) 15.

Lemma entry_range t layout pid : streaming t layout → 0 ≤ fst (default (0, false) (cc_entries t !! pid)) < 16.
Proof.
  intros H. destruct (cc_entries t !! pid) as [e|] eqn:E; cbn; [|lia]. by apply (st_counters _ _ H pid).
Qed.

Lemma next_cc_range t layout L packet : streaming t layout → Forall is_u8 packet → 0 ≤ next_cc t L packet < 16.
Proof.
  intros H Hu. unfold next_cc. destruct (has_payload L); [by eapply entry_range|]. rewrite land15. apply Z.mod_pos_bound. lia.
Qed.

Lemma emit_next_step t layout bytes :
  streaming t layout → len bytes + 376 < 2 ^ 64 →
  let u := at_packet t in
  let packet := packet_at (ts_buffer t) (current_pos u) in
  ∃ L rewritten t',
    get (packets layout) (current_pos u) = Some L ∧
    rewrite_layout_timestamps (ts_buffer t) layout (timestamp_offset u) = Ok rewritten ∧
    emit_next t bytes = Some (t', bytes ++ next_marker u packet (next_cc u L packet)
                                     ++ with_counter (packet_at rewritten (current_pos u)) (next_cc u L packet)) ∧
    streaming t' layout ∧ current_pos t' = current_pos u + 1 ∧ timestamp_offset t' = timestamp_offset u ∧
    cc_entries t' = <[ts_packet_pid packet :=
      (if has_payload L then (fst (default (0, false) (cc_entries u !! ts_packet_pid packet)) + 1) mod 16
       else fst (default (0, false) (cc_entries u !! ts_packet_pid packet)), true)]> (cc_entries u).
Proof.
  intros H Hb. cbv zeta. destruct (at_packet_streaming t layout H) as (Hu & Hk & Ebuf).
  unfold emit_next. fold (at_packet t). set (u := at_packet t) in *. rewrite <- Ebuf.
  set (k := current_pos u) in *. rewrite (packet_start_at u layout k Hu Hk). fold (packet_at (ts_buffer u) k).
  set (packet := packet_at (ts_buffer u) k).
  destruct (lookup_lt_is_Some_2 (packets layout) (Z.to_nat k)) as [L HL]; [unfold len in *; lia|].
  assert (get (packets layout) k = Some L) as HgL by (unfold get; by replace (0 <=? k) with true by lia).
  destruct (asset_rewritten u layout Hu) as (rewritten & Er & _).
  pose proof (st_asset _ _ Hu) as [Hu8 _ Hlay _]. rewrite Hlay. cbn [ok mbind option_bind]. rewrite HgL.
  pose proof (next_cc_range u layout L packet Hu (Forall_slice _ _ _ _ Hu8)) as Hcc.
  pose proof (entry_range u layout (ts_packet_pid packet) Hu) as Hentry.
  destruct (default (0, false) (cc_entries u !! ts_packet_pid packet)) as [counter sent] eqn:Ee.
  assert ((if has_payload L then counter else Z.land (byte_at packet 3) 15) = next_cc u L packet) as ->
    by (unfold next_cc; rewrite Ee; done).
  assert (Z.land (next_cc u L packet) 15 = next_cc u L packet) as -> by (rewrite land15; apply Z.mod_small; lia).
  set (cc := next_cc u L packet) in *.
  assert ((if force_discontinuity_on_wrap u && negb sent
           then bytes ++ generate_discontinuity_packet packet cc (first_pcr u) (timestamp_offset u) else bytes)
          = bytes ++ next_marker u packet cc) as ->.
  { unfold next_marker. rewrite Ee. cbn [snd]. destruct (_ && _); [done|by rewrite app_nil_r]. }
  assert (len (next_marker u packet cc) ≤ 188) as Lm.
  { unfold next_marker. destruct (_ && _); [rewrite len_marker; done|done]. }
  assert (packet = packet_at (ts_buffer u) (Z.of_nat (Z.to_nat k))) as Ep by (by rewrite Z2Nat.id by lia).
  pose proof (stream_packet_rewritten u layout rewritten (Z.to_nat k) L (bytes ++ next_marker u packet cc) cc Hu HL) as Hw.
  rewrite <- Ep, Z2Nat.id in Hw by lia. rewrite Hw by (done || rewrite len_app; lia). cbn [ok mbind option_bind].
  eexists L, rewritten, _. split_and!; [done|by rewrite <- Er|by rewrite <- app_assoc| |done|done|done].
  destruct Hu as [[? ? ? ?] Hlen Hst Hp Ho Hc]. constructor; cbn; try done; [lia|].
  intros pid entry [[<- <-] | [_ Hlk]]%lookup_insert_Some; [|by apply (Hc pid)]. cbn [fst] in *. destruct (has_payload L); lia.
Qed.

(** ** Theorems *)

(** C28: streaming is rewriting.  Each turn of the loop of [next_chunk]
    succeeds and appends, after a marker where one is due, the next packet of the
    asset as [rewrite_layout_timestamps] would rewrite the whole of it at the
    stream's offset, under the stream's own counter; the counter of the PID then
    advances, modulo 16, for a payload packet only.  Fields that are cut by packet
    boundaries are covered. *)
Theorem emit_next_is_rewriting t layout bytes :
  streaming t layout → len bytes + 376 < 2 ^ 64 →
  let u := at_packet t in
  let packet := packet_at (ts_buffer t) (current_pos u) in
  ∃ L rewritten t',
    get (packets layout) (current_pos u) = Some L ∧
    rewrite_layout_timestamps (ts_buffer t) layout (timestamp_offset u) = Ok rewritten ∧
    emit_next t bytes = Some (t', bytes ++ next_marker u packet (next_cc u L packet)
                                     ++ with_counter (packet_at rewritten (current_pos u)) (next_cc u L packet)) ∧
    streaming t' layout ∧ current_pos t' = current_pos u + 1 ∧ timestamp_offset t' = timestamp_offset u ∧
    cc_entries t' = <[ts_packet_pid packet :=
      (if has_payload L then (fst (default (0, false) (cc_entries u !! ts_packet_pid packet)) + 1) mod 16
       else fst (default (0, false) (cc_entries u !! ts_packet_pid packet)), true)]> (cc_entries u).
Proof. apply emit_next_step. Qed.

Lemma rewrite_keeps_length layout b o b' :
  laid_out layout b → 0 ≤ o → rewrite_layout_timestamps b layout o = Ok b' → len b' = len b.
Proof. intros Hla Ho E. destruct (rewrite_laid_out layout b o Hla Ho) as (c & Ec & _ & Hl & _). congruence. Qed.

Lemma emit_chunk_total layout n : ∀ t bytes,
  streaming t layout → len bytes + Z.of_nat n * 376 + 376 < 2 ^ 64 →
  ∃ t' out, emit_chunk n t bytes = Some (t', bytes ++ out) ∧ streaming t' layout ∧
    Z.of_nat n * 188 ≤ len out ≤ Z.of_nat n * 376 ∧ len out mod 188 = 0.
Proof.
  induction n as [|n IH]; intros t bytes H Hb.
  { exists t, []. cbn. rewrite app_nil_r. done. }
  destruct (emit_next_step t layout bytes H ltac:(lia)) as (L & rewritten & t1 & HL & Er & E & H1 & _).
  set (u := at_packet t) in *. set (packet := packet_at (ts_buffer t) (current_pos u)) in *.
  set (out1 := next_marker u packet _ ++ with_counter _ _) in E.
  destruct (at_packet_streaming t layout H) as (Hu & Hk & Ebuf). fold u in Hu, Hk, Ebuf.
  pose proof (holds_layout_ok _ _ (st_asset _ _ H)) as [Hok _]. destruct (st_asset _ _ H) as [Hu8 Hs _ _].
  assert (len rewritten = len (ts_buffer t)) as Lr.
  { eapply rewrite_keeps_length; [by apply buffer_laid_out|apply (st_offset _ _ Hu)|exact Er]. }
  assert (len out1 = 188 ∨ len out1 = 376) as Hl1.
  { unfold out1. rewrite len_app, len_with_counter, packet_at_len.
    - change TS_PACKET_SIZE with 188. unfold next_marker. destruct (_ && _); [rewrite len_marker|]; auto.
    - lia.
    - rewrite Lr, (lo_count _ _ Hok). change TS_PACKET_SIZE with 188. lia. }
  destruct (IH t1 (bytes ++ out1) H1) as (t' & out & E' & H' & Hlen & Hmod); [rewrite len_app; lia|].
  exists t', (out1 ++ out). cbn [emit_chunk]. rewrite E. cbn [mbind option_bind]. rewrite E', <- app_assoc.
  split_and!; [done|done|rewrite len_app; lia|rewrite len_app; lia|].
  rewrite len_app. destruct Hl1 as [-> | ->]; lia.
Qed.

(** C34: the stream never ends.  A fresh stream over an asset with a layout,
    and every stream that [next_chunk] leaves behind, yields a next chunk: whole
    packets, one for each requested packet and at most one marker more for each. *)
Theorem next_chunk_never_ends t layout n :
  streaming t layout → (n ≤ 250)%nat →
  ∃ t' out, next_chunk n t = Some (t', out) ∧ streaming t' layout ∧
    Z.of_nat n * TS_PACKET_SIZE ≤ len out ≤ Z.of_nat n * (2 * TS_PACKET_SIZE) ∧ len out mod TS_PACKET_SIZE = 0.
Proof.
  intros H Hn. pose proof (holds_layout_ok _ _ (st_asset _ _ H)) as [_ Hne].
  destruct (emit_chunk_total layout n t [] H) as (t' & out & E & H' & Hl & Hm); [rewrite len_nil; lia|].
  exists t', out. unfold next_chunk. rewrite (st_length _ _ H). replace (_ =? 0) with false by lia. done.
Qed.

(** Building a buffer starts a stream.  Whatever bytes an asset file
    holds, when the aligned packets in it have a layout the new buffer is a stream
    over them, and so are its clones. *)
Theorem ts_buffer_new_streams raw layout :
  Forall is_u8 raw → len raw < 2 ^ 64 → finite_hls_layout (ts_buffer_new raw) = Ok layout →
  streaming (ts_buffer_new raw) layout ∧ streaming (ts_buffer_clone (ts_buffer_new raw)) layout ∧
  ts_buffer (ts_buffer_new raw) `sublist_of` raw.
Proof.
  intros Hu Hs Hl. cbn in Hl. set (t := ts_buffer_new raw).
  assert (ts_buffer t `sublist_of` raw) as Hsub by (cbn; etransitivity; [apply sublist_take|apply sublist_drop]).
  assert (holds_asset t layout) as Ha.
  { constructor; [|cbn [t]|done|done].
    - rewrite Forall_forall in *. intros x Hx. apply Hu. by eapply elem_of_sublist.
    - apply sublist_length in Hsub. fold t. unfold len in *. lia. }
  pose proof (holds_layout_ok _ _ Ha) as [Hok Hne]. pose proof (lo_count _ _ Hok) as Hc.
  assert (ts_length t = len (packets layout)) as Hlen.
  { change (ts_length t) with (len (ts_buffer t) / TS_PACKET_SIZE). rewrite Hc. by apply Z.div_mul. }
  split_and!; [| |done]; (constructor; [destruct Ha; by constructor|exact Hlen|done| |done|]);
    try (change (0 ≤ 0 ≤ ts_length t); rewrite Hlen; lia); intros pid entry Hp; cbn in Hp; by apply lookup_empty_Some in Hp.
Qed.

(** *** Witnesses *)

Lemma ts_buffer_new_streams_witness : streaming (ts_buffer_new example_buffer) example_layout.
Proof.
  assert (finite_hls_layout (ts_buffer_new example_buffer) = Ok example_layout) as E by (vm_compute; reflexivity).
  exact (proj1 (ts_buffer_new_streams example_buffer example_layout example_buffer_u8 example_buffer_small E)).
Defined.

(** The example stream without going through the theorem above. *)
Lemma example_streaming : streaming example_ts example_layout.
Proof.
  constructor; [apply example_holds_asset|vm_compute; reflexivity|vm_compute; reflexivity|vm_compute; split; discriminate|vm_compute; discriminate|].
  intros pid entry Hp. cbn in Hp. by apply lookup_empty_Some in Hp.
Qed.

Lemma emit_next_is_rewriting_witness :
  ∃ t' out, emit_next example_ts [] = Some (t', out) ∧ current_pos t' = 1.
Proof.
  pose proof (emit_next_is_rewriting example_ts example_layout [] example_streaming ltac:(reflexivity)) as T. cbv zeta in T.
  destruct T as (L & rewritten & t' & _ & _ & E & _ & Hpos & _). eexists t', _. split; [exact E|].
  rewrite Hpos. vm_compute. reflexivity.
Defined.

Lemma next_chunk_never_ends_witness :
  ∃ t' out, next_chunk 7 example_ts = Some (t', out) ∧ len out mod TS_PACKET_SIZE = 0.
Proof.
  pose proof (next_chunk_never_ends example_ts example_layout 7 example_streaming ltac:(lia)) as T.
  destruct T as (t' & out & E & _ & _ & Hm). exists t', out. split; [exact E|exact Hm].
Defined.
