(* ===== verification/ProviderPool.v ===== *)
(** * Provider connections

    Models backend/core/src/model/provider.rs: the connection counter that the
    configurations of a provider share, and the operations that claim, probe
    and release a connection.  Every operation of the source holds the write
    lock of the counter from its first read to its last write, so it is one
    step on the shared store [Pool].  The clocks an operation reads are
    arguments.  The theorem of this file: under every interleaving of the
    operations the counters implement a semaphore that lends one connection
    beyond its limit. *)

From S2P Require Import Prelude.
From stdpp Require Import gmap gmultiset pretty.

#[local] Open Scope Z_scope.

(** ** Configuration *)

Inductive InputType :=
| M3u | Xtream | M3uBatch | XtreamBatch | Stalker | StalkerBatch | Library | Emby | Jellyfin | Plex | Staged.

#[export] Instance InputType_eq_dec : EqDecision InputType.
Proof. solve_decision. Defined.

Record ConfigInputAlias := {
  alias_id : Z; alias_name : string; alias_url : string; alias_username : option string;
  alias_password : option string; alias_priority : Z; alias_max_connections : Z;
  alias_exp_date : option Z; alias_enabled : bool;
}.

(** The fields of [ConfigInput] that provider brokerage reads; of [panel_api]
    it reads only the flag [enabled]. *)
Record ConfigInput := {
  input_id : Z; input_name : string; input_type : InputType; input_url : string;
  input_username : option string; input_password : option string; input_enabled : bool;
  input_aliases : option (list ConfigInputAlias); input_priority : Z; input_max_connections : Z;
  input_exp_date : option Z; panel_api_enabled : bool;
}.

Definition has_enabled_aliases (cfg : ConfigInput) : bool :=
  match input_aliases cfg with Some aliases => existsb alias_enabled aliases | None => false end.

Definition get_enabled_aliases (cfg : ConfigInput) : option (list ConfigInputAlias) :=
  aliases ← input_aliases cfg;
  match List.filter alias_enabled aliases with [] => None | result => Some result end.

(** The clocks an operation reads: seconds of the wall clock, which may lie
    before 1970, and nanoseconds of the monotonic clock. *)
Record Clock := { timestamp : Z; instant : Z }.

Definition is_input_expired_at (exp_date : option Z) (now : Z) : bool :=
  match exp_date with Some t => if t <? 0 then true else t <=? now | None => false end.

Definition is_input_expired (exp_date : option Z) (clock : Clock) : bool :=
  if timestamp clock <? 0 then bool_decide (is_Some exp_date) else is_input_expired_at exp_date (timestamp clock).

(** ** The shared store *)

Record ProviderConfigConnection := { current_connections : Z; grace_started_at : option Z }.

Definition connection_default : ProviderConfigConnection :=
  {| current_connections := 0; grace_started_at := None |}.

(** [connection] is the address of the shared counter. *)
Record ProviderConfig := {
  config_id : Z; config_name : string; config_url : string; config_username : option string;
  config_password : option string; config_input_type : InputType; max_connections : Z; priority : Z;
  exp_date : option Z; connection : Z;
}.

Record ProviderPoolEntry := {
  entry_name : string; entry_current_connections : Z; entry_max_connections : Z; entry_expired : bool;
}.

Inductive EventMessage :=
| ActiveProvider (name : string) (connections : Z)
| ProviderPoolExhausted (input : string) (providers : list ProviderPoolEntry)
| ProviderPriorityFallback (input provider : string) (group_index group_count : Z) (previous_group_index : option Z).

(** The counters by address, the round-robin indices of the priority groups by
    address, and the events sent so far, the newest first. *)
Record Pool := { counters : gmap Z ProviderConfigConnection; indices : gmap Z Z; events : list EventMessage }.

Definition guard_of (c : ProviderConfig) (p : Pool) : ProviderConfigConnection :=
  default connection_default (counters p !! connection c).

Definition write_guard (c : ProviderConfig) (guard : ProviderConfigConnection) (p : Pool) : Pool :=
  {| counters := <[connection c := guard]> (counters p); indices := indices p; events := events p |}.

Definition send_event (e : EventMessage) (p : Pool) : Pool :=
  {| counters := counters p; indices := indices p; events := e :: events p |}.

Definition set_grace (g : option Z) (guard : ProviderConfigConnection) : ProviderConfigConnection :=
  {| current_connections := current_connections guard; grace_started_at := g |}.

Definition notify_connection_change (c : ProviderConfig) (new_connections : Z) (p : Pool) : Pool :=
  send_event (ActiveProvider (config_name c) new_connections) p.

(** [modify_connections!]: the new count is stored and announced. *)
Definition store_connections (c : ProviderConfig) (guard : ProviderConfigConnection) (n : Z) (p : Pool) : Pool :=
  notify_connection_change c n
    (write_guard c {| current_connections := n; grace_started_at := grace_started_at guard |} p).

Definition increment_connections (c : ProviderConfig) (guard : ProviderConfigConnection) (p : Pool) : Pool :=
  store_connections c guard (wrapping_add64 (current_connections guard) 1) p.

Definition decrement_connections (c : ProviderConfig) (guard : ProviderConfigConnection) (p : Pool) : Pool :=
  store_connections c guard (saturating_sub (current_connections guard) 1) p.

(** ** Operations *)

Definition effective_max_connections (panel_api_enabled : bool) (max : Z) : Z :=
  if panel_api_enabled && (max =? 0) then 1 else max.

Definition provider_config_new (cfg : ConfigInput) (connection : Z) : ProviderConfig :=
  {| config_id := input_id cfg; config_name := input_name cfg; config_url := input_url cfg;
     config_username := input_username cfg; config_password := input_password cfg;
     config_input_type := input_type cfg;
     max_connections := effective_max_connections (panel_api_enabled cfg) (input_max_connections cfg);
     priority := input_priority cfg; exp_date := input_exp_date cfg; connection := connection |}.

Definition provider_config_new_alias (cfg : ConfigInput) (alias : ConfigInputAlias) (connection : Z) : ProviderConfig :=
  {| config_id := alias_id alias; config_name := alias_name alias; config_url := alias_url alias;
     config_username := alias_username alias; config_password := alias_password alias;
     config_input_type := input_type cfg;
     max_connections := effective_max_connections (panel_api_enabled cfg) (alias_max_connections alias);
     priority := alias_priority alias; exp_date := alias_exp_date alias; connection := connection |}.

Definition is_unlimited (c : ProviderConfig) : bool := max_connections c =? 0.

(** [checked_duration_since(..).unwrap_or_default()] is zero before the start. *)
Definition grace_is_active (guard : ProviderConfigConnection) (now grace_period_timeout_secs : Z) : bool :=
  match grace_started_at guard with
  | Some started_at => Z.max 0 (now - started_at) <=? grace_period_timeout_secs * 10 ^ 9
  | None => false
  end.

Definition is_exhausted (c : ProviderConfig) (p : Pool) : bool :=
  if max_connections c =? 0 then false else max_connections c <=? current_connections (guard_of c p).

(** The grace timer only decides whether a message is logged. *)
Definition is_over_limit (c : ProviderConfig) (p : Pool) : bool * Pool :=
  if max_connections c =? 0 then (false, p) else
  let guard := guard_of c p in
  let guard := if current_connections guard <? max_connections c then set_grace None guard else guard in
  (max_connections c <? current_connections guard, write_guard c guard p).

Inductive ProviderConfigAllocation := ConfigExhausted | ConfigAvailable | ConfigGracePeriod.

Definition config_try_allocate (clock : Clock) (c : ProviderConfig) (grace : bool) (grace_period_timeout_secs : Z)
    (p : Pool) : ProviderConfigAllocation * Pool :=
  if is_input_expired (exp_date c) clock then (ConfigExhausted, p) else
  let guard := guard_of c p in
  if max_connections c =? 0 then (ConfigAvailable, increment_connections c guard p) else
  let connections := current_connections guard in
  if connections <? max_connections c
  then (ConfigAvailable, increment_connections c (set_grace None guard) p) else
  if negb grace || (max_connections c <? connections) then (ConfigExhausted, p) else
  if grace_is_active guard (instant clock) grace_period_timeout_secs then (ConfigExhausted, p) else
  (ConfigGracePeriod, increment_connections c (set_grace (Some (instant clock)) guard) p).

Definition config_get_next (clock : Clock) (c : ProviderConfig) (grace : bool) (grace_period_timeout_secs : Z)
    (p : Pool) : bool * Pool :=
  if is_input_expired (exp_date c) clock then (false, p) else
  if max_connections c =? 0 then (true, p) else
  let guard := guard_of c p in
  let connections := current_connections guard in
  if connections <? max_connections c then (true, write_guard c (set_grace None guard) p) else
  if negb grace || (max_connections c <? connections) then (false, p) else
  if grace_is_active guard (instant clock) grace_period_timeout_secs then (false, p) else
  (true, write_guard c (set_grace None guard) p).

Definition config_release (c : ProviderConfig) (p : Pool) : Pool :=
  let guard := guard_of c p in
  let guard :=
    if (0 <? max_connections c) && (max_connections c <? current_connections guard)
    then set_grace None guard else guard in
  let p := write_guard c guard p in
  if 0 <? current_connections guard then decrement_connections c guard p else p.

Definition get_current_connections (c : ProviderConfig) (p : Pool) : Z := current_connections (guard_of c p).

(** ** Allocations *)

Inductive ProviderAllocation :=
| Exhausted
| Available (config : ProviderConfig)
| GracePeriod (config : ProviderConfig).

Definition allocation_provider (a : ProviderAllocation) : option ProviderConfig :=
  match a with Exhausted => None | Available config | GracePeriod config => Some config end.

Definition get_provider_name (a : ProviderAllocation) : option string := config_name <$> allocation_provider a.
Definition get_provider_id (a : ProviderAllocation) : option Z := config_id <$> allocation_provider a.

Definition allocation_release (a : ProviderAllocation) (p : Pool) : Pool :=
  match a with Exhausted => p | Available config | GracePeriod config => config_release config p end.

Definition is_unlimited_provider (a : ProviderAllocation) : bool :=
  match a with Exhausted => false | Available config | GracePeriod config => is_unlimited config end.

(** [ProviderConfigWrapper]. *)
Definition try_allocate (clock : Clock) (c : ProviderConfig) (grace : bool) (grace_period_timeout_secs : Z) (p : Pool)
    : ProviderAllocation * Pool :=
  match config_try_allocate clock c grace grace_period_timeout_secs p with
  | (ConfigAvailable, p) => (Available c, p)
  | (ConfigGracePeriod, p) => (GracePeriod c, p)
  | (ConfigExhausted, p) => (Exhausted, p)
  end.

Definition wrapper_get_next (clock : Clock) (c : ProviderConfig) (grace : bool) (grace_period_timeout_secs : Z) (p : Pool)
    : option ProviderConfig * Pool :=
  match config_get_next clock c grace grace_period_timeout_secs p with
  | (true, p) => (Some c, p)
  | (false, p) => (None, p)
  end.

(** ** Clients

    A run is any interleaving of operations of any number of clients. *)

Inductive operation :=
| OpAllocate (clock : Clock) (c : ProviderConfig) (grace : bool) (grace_period_timeout_secs : Z)
| OpGetNext (clock : Clock) (c : ProviderConfig) (grace : bool) (grace_period_timeout_secs : Z)
| OpIsOverLimit (c : ProviderConfig)
| OpIsExhausted (c : ProviderConfig)
| OpRelease (c : ProviderConfig).

Definition operand (o : operation) : ProviderConfig :=
  match o with
  | OpAllocate _ c _ _ | OpGetNext _ c _ _ | OpIsOverLimit c | OpIsExhausted c | OpRelease c => c
  end.

Inductive outcome := Allocated (a : ProviderConfigAllocation) | Answered (b : bool) | Released.

Definition perform (o : operation) (p : Pool) : outcome * Pool :=
  match o with
  | OpAllocate clock c grace secs => let '(a, p) := config_try_allocate clock c grace secs p in (Allocated a, p)
  | OpGetNext clock c grace secs => let '(b, p) := config_get_next clock c grace secs p in (Answered b, p)
  | OpIsOverLimit c => let '(b, p) := is_over_limit c p in (Answered b, p)
  | OpIsExhausted c => (Answered (is_exhausted c p), p)
  | OpRelease c => (Released, config_release c p)
  end.

Fixpoint perform_all (os : list operation) (p : Pool) : list outcome * Pool :=
  match os with
  | [] => ([], p)
  | o :: os => let '(r, p) := perform o p in let '(rs, p) := perform_all os p in (r :: rs, p)
  end.

(** ** Specification

    A semaphore per counter that may be overdrawn by one.  Its state is the
    multiset of connections that are held; it knows neither grace timers nor
    stored counts.  A client may only release what is held. *)

Definition held (h : gmultiset Z) (c : ProviderConfig) : Z := Z.of_nat (multiplicity (connection c) h).

Definition spec_allocate (expired grace : bool) (limit n : Z) : ProviderConfigAllocation :=
  if expired then ConfigExhausted else
  if (limit =? 0) || (n <? limit) then ConfigAvailable else
  if grace && (n =? limit) then ConfigGracePeriod else ConfigExhausted.

Definition granted (a : ProviderConfigAllocation) : bool :=
  match a with ConfigExhausted => false | ConfigAvailable | ConfigGracePeriod => true end.

Definition spec_perform (o : operation) (h : gmultiset Z) : option (outcome * gmultiset Z) :=
  let limit := max_connections (operand o) in
  let n := held h (operand o) in
  match o with
  | OpAllocate clock c grace _ =>
      let a := spec_allocate (is_input_expired (exp_date c) clock) grace limit n in
      Some (Allocated a, if granted a then {[+ connection c +]} ⊎ h else h)
  | OpGetNext clock c grace _ =>
      Some (Answered (granted (spec_allocate (is_input_expired (exp_date c) clock) grace limit n)), h)
  | OpIsOverLimit c => Some (Answered (negb (limit =? 0) && (limit <? n)), h)
  | OpIsExhausted c => Some (Answered (negb (limit =? 0) && (limit <=? n)), h)
  | OpRelease c => if 0 <? n then Some (Released, h ∖ {[+ connection c +]}) else None
  end.

Fixpoint spec_perform_all (os : list operation) (h : gmultiset Z) : option (list outcome * gmultiset Z) :=
  match os with
  | [] => Some ([], h)
  | o :: os => '(r, h) ← spec_perform o h; '(rs, h) ← spec_perform_all os h; Some (r :: rs, h)
  end.

Definition empty_pool : Pool := {| counters := ∅; indices := ∅; events := [] |}.

(** ** The simulation *)

Section Semaphore.
Context (limit : Z → Z).

(** All configurations that share a counter agree on its limit. *)
Definition limited (o : operation) : Prop :=
  max_connections (operand o) = limit (connection (operand o)) ∧ 0 ≤ limit (connection (operand o)).

Definition counter_at (x : Z) (p : Pool) : ProviderConfigConnection := default connection_default (counters p !! x).

(** A counter is the number of its connections that are held, at most one
    beyond the limit, and a grace timer runs only then. *)
Definition represents_at (x : Z) (n : Z) (g : ProviderConfigConnection) : Prop :=
  current_connections g = n ∧ (limit x ≠ 0 → n ≤ limit x + 1) ∧
  (is_Some (grace_started_at g) → limit x ≠ 0 ∧ n = limit x + 1).

Definition represents (h : gmultiset Z) (p : Pool) : Prop :=
  ∀ x, represents_at x (Z.of_nat (multiplicity x h)) (counter_at x p).

Lemma counter_at_write c g x p :
  counter_at x (write_guard c g p) = if decide (x = connection c) then g else counter_at x p.
Proof.
  unfold counter_at, write_guard. cbn. case_decide as E; [subst; by rewrite lookup_insert_eq|].
  by rewrite lookup_insert_ne by congruence.
Qed.

Lemma counter_at_store c g n x p :
  counter_at x (store_connections c g n p)
  = if decide (x = connection c) then {| current_connections := n; grace_started_at := grace_started_at g |}
    else counter_at x p.
Proof. exact (counter_at_write c _ x p). Qed.

Lemma represents_update h h' c p p' :
  represents h p → (∀ x, x ≠ connection c → multiplicity x h' = multiplicity x h ∧ counter_at x p' = counter_at x p) →
  represents_at (connection c) (held h' c) (counter_at (connection c) p') → represents h' p'.
Proof.
  intros Hr Hne Hc x. destruct (decide (x = connection c)) as [->|Hx]; [done|].
  destruct (Hne x Hx) as [-> ->]. apply Hr.
Qed.

Lemma held_acquire h c : held ({[+ connection c +]} ⊎ h) c = held h c + 1.
Proof. unfold held. rewrite multiplicity_disj_union, multiplicity_singleton_eq. lia. Qed.

Lemma held_release h c : 0 < held h c → held (h ∖ {[+ connection c +]}) c = held h c - 1.
Proof. unfold held. rewrite multiplicity_difference, multiplicity_singleton_eq. lia. Qed.

Lemma held_size h c : held h c ≤ Z.of_nat (size h).
Proof.
  unfold held. assert (multiplicity (connection c) h *: {[+ connection c +]} ⊆ h) as Hsub.
  { intros x. rewrite multiplicity_scalar_mul. destruct (decide (x = connection c)) as [->|Hx].
    - rewrite multiplicity_singleton_eq. lia.
    - rewrite multiplicity_singleton_ne by done. lia. }
  apply gmultiset_subseteq_size in Hsub. rewrite gmultiset_size_scalar_mul, gmultiset_size_singleton in Hsub. lia.
Qed.

(** Storing the new count of [c] keeps the representation. *)
Lemma represents_store h h' c g n p :
  represents h p → (∀ x, x ≠ connection c → multiplicity x h' = multiplicity x h) →
  represents_at (connection c) (held h' c) {| current_connections := n; grace_started_at := grace_started_at g |} →
  represents h' (store_connections c g n p).
Proof.
  intros Hr Hne Hc. eapply (represents_update h _ c); [done| |].
  - intros x Hx. rewrite counter_at_store, decide_False by done. auto.
  - by rewrite counter_at_store, decide_True.
Qed.

Lemma represents_write h c g p :
  represents h p → represents_at (connection c) (held h c) g → represents h (write_guard c g p).
Proof.
  intros Hr Hc. eapply (represents_update h _ c); [done| |].
  - intros x Hx. rewrite counter_at_write, decide_False by done. auto.
  - by rewrite counter_at_write, decide_True.
Qed.

Lemma other_acquired h c x : x ≠ connection c → multiplicity x ({[+ connection c +]} ⊎ h) = multiplicity x h.
Proof. intros. rewrite multiplicity_disj_union, multiplicity_singleton_ne by done. done. Qed.

Lemma other_released h c x : x ≠ connection c → multiplicity x (h ∖ {[+ connection c +]}) = multiplicity x h.
Proof. intros. rewrite multiplicity_difference, multiplicity_singleton_ne by done. lia. Qed.

Lemma allocate_represents h p clock c grace secs :
  represents h p → limited (OpAllocate clock c grace secs) → Z.of_nat (size h) < 2 ^ 64 - 1 →
  let a := spec_allocate (is_input_expired (exp_date c) clock) grace (max_connections c) (held h c) in
  ∃ p', config_try_allocate clock c grace secs p = (a, p') ∧
    represents (if granted a then {[+ connection c +]} ⊎ h else h) p'.
Proof.
  intros Hr [Hl Hl0] Hs. cbn in Hl, Hl0. pose proof (held_size h c) as Hsz.
  destruct (Hr (connection c)) as (Hn & Hb & Hg). fold (held h c) in Hn, Hb, Hg.
  unfold config_try_allocate, spec_allocate. change (guard_of c p) with (counter_at (connection c) p).
  destruct (is_input_expired _ _); [by eauto|]. rewrite <- Hl in *. rewrite Hn.
  assert (0 ≤ held h c) by (unfold held; lia).
  assert (∀ g, current_connections g = held h c → (is_Some (grace_started_at g) → max_connections c ≠ 0 ∧ held h c = max_connections c) →
               (max_connections c ≠ 0 → held h c ≤ max_connections c) →
               represents ({[+ connection c +]} ⊎ h) (increment_connections c g p)) as Hinc.
  { intros g Eg Hgr Hle. apply (represents_store h); [done| |].
    { intros x. apply other_acquired. }
    unfold represents_at. cbn [current_connections grace_started_at set_grace]. rewrite held_acquire, Eg, <- Hl. unfold wrapping_add64.
    rewrite Z.mod_small by lia. split_and!; [done|lia|]. intros Hi. specialize (Hgr Hi). lia. }
  destruct (Z.eqb_spec (max_connections c) 0) as [E0|E0]; cbn [orb].
  { eexists. split; [done|]. apply Hinc; [done| |lia]. intros Hi. specialize (Hg Hi). lia. }
  destruct (Z.ltb_spec (held h c) (max_connections c)).
  { eexists. split; [done|]. apply Hinc; [done| |lia]. by intros []. }
  destruct grace; cbn [negb orb andb]; [|by eauto].
  destruct (Z.eqb_spec (held h c) (max_connections c)) as [E|E]; cycle 1.
  { replace (_ <? _) with true by lia. by eauto. }
  replace (_ <? _) with false by lia.
  assert (grace_is_active (counter_at (connection c) p) (instant clock) secs = false) as ->.
  { unfold grace_is_active. destruct (grace_started_at _); [|done]. exfalso. destruct Hg; [done|lia]. }
  eexists. split; [done|]. apply Hinc; [done|lia|lia].
Qed.

Lemma get_next_represents h p clock c grace secs :
  represents h p → limited (OpGetNext clock c grace secs) →
  ∃ p', config_get_next clock c grace secs p
        = (granted (spec_allocate (is_input_expired (exp_date c) clock) grace (max_connections c) (held h c)), p') ∧
    represents h p'.
Proof.
  intros Hr [Hl Hl0]. cbn in Hl, Hl0.
  destruct (Hr (connection c)) as (Hn & Hb & Hg). fold (held h c) in Hn, Hb, Hg.
  unfold config_get_next, spec_allocate. change (guard_of c p) with (counter_at (connection c) p).
  destruct (is_input_expired _ _); [by eauto|]. rewrite <- Hl in *. rewrite Hn.
  assert (represents h (write_guard c (set_grace None (counter_at (connection c) p)) p)) as Hclear.
  { apply represents_write; [done|]. unfold represents_at. cbn [current_connections grace_started_at set_grace]. rewrite <- Hl. split_and!; [done|done|by intros []]. }
  destruct (Z.eqb_spec (max_connections c) 0) as [E0|E0]; cbn [orb]; [by eauto|].
  destruct (Z.ltb_spec (held h c) (max_connections c)); [by eauto|].
  destruct grace; cbn [negb orb andb]; [|by eauto].
  destruct (Z.eqb_spec (held h c) (max_connections c)) as [E|E]; cycle 1.
  { replace (_ <? _) with true by lia. by eauto. }
  replace (_ <? _) with false by lia.
  assert (grace_is_active (counter_at (connection c) p) (instant clock) secs = false) as ->; [|by eauto].
  unfold grace_is_active. destruct (grace_started_at _); [|done]. exfalso. destruct Hg; [done|lia].
Qed.

Lemma over_limit_represents h p c :
  represents h p → limited (OpIsOverLimit c) →
  ∃ p', is_over_limit c p = (negb (max_connections c =? 0) && (max_connections c <? held h c), p') ∧ represents h p'.
Proof.
  intros Hr [Hl Hl0]. cbn in Hl, Hl0.
  destruct (Hr (connection c)) as (Hn & Hb & Hg). fold (held h c) in Hn, Hb, Hg.
  unfold is_over_limit. change (guard_of c p) with (counter_at (connection c) p).
  destruct (Z.eqb_spec (max_connections c) 0); cbn [negb andb]; [by eauto|].
  eexists. split; [f_equal; rewrite <- Hn; f_equal; by case_match|].
  apply represents_write; [done|]. unfold represents_at. rewrite Hn.
  destruct (Z.ltb_spec (held h c) (max_connections c)); cbn; split_and!; try done.
Qed.

Lemma release_represents h p c :
  represents h p → limited (OpRelease c) → 0 < held h c →
  represents (h ∖ {[+ connection c +]}) (config_release c p).
Proof.
  intros Hr [Hl Hl0] Hpos. cbn in Hl, Hl0.
  destruct (Hr (connection c)) as (Hn & Hb & Hg). fold (held h c) in Hn, Hb, Hg.
  unfold config_release. change (guard_of c p) with (counter_at (connection c) p).
  set (g := if (_ && _) then _ else _). assert (current_connections g = held h c) as Eg by (unfold g; by case_match).
  rewrite Eg. replace (0 <? held h c) with true by lia. unfold decrement_connections.
  eapply (represents_store h).
  - apply represents_write; [done|]. unfold represents_at. rewrite Eg, <- Hl in *. split_and!; [done|done|].
    unfold g. case_match; [by intros []|done].
  - intros x. apply other_released.
  - unfold represents_at. cbn [current_connections grace_started_at set_grace]. rewrite held_release, Eg, <- Hl in * by done. unfold saturating_sub.
    split_and!; [lia|lia|]. unfold g. destruct (_ && _) eqn:E; [by intros []|]. intros Hi. specialize (Hg Hi). lia.
Qed.

Lemma size_spec_perform o h r h' : spec_perform o h = Some (r, h') → (size h' ≤ S (size h))%nat.
Proof.
  unfold spec_perform. destruct o; intros; repeat case_match; simplify_eq; rewrite ?gmultiset_size_disj_union,
    ?gmultiset_size_singleton; try lia.
  apply Nat.le_le_succ_r, gmultiset_subseteq_size. multiset_solver.
Qed.

Lemma perform_represents h p o r h' :
  represents h p → limited o → Z.of_nat (size h) < 2 ^ 64 - 1 → spec_perform o h = Some (r, h') →
  ∃ p', perform o p = (r, p') ∧ represents h' p'.
Proof.
  intros Hr Hl Hs. destruct o as [clock c grace secs|clock c grace secs|c|c|c]; cbn [spec_perform operand perform].
  - intros [= <- <-]. destruct (allocate_represents h p clock c grace secs Hr Hl Hs) as (p' & -> & ?). by eauto.
  - intros [= <- <-]. destruct (get_next_represents h p clock c grace secs Hr Hl) as (p' & -> & ?). by eauto.
  - intros [= <- <-]. destruct (over_limit_represents h p c Hr Hl) as (p' & -> & ?). by eauto.
  - intros [= <- <-]. exists p. split; [|done]. destruct (Hr (connection c)) as [Hn _].
    unfold is_exhausted. change (guard_of c p) with (counter_at (connection c) p). rewrite Hn. by case_match.
  - case_match eqn:E; [|done]. intros [= <- <-]. eexists. split; [done|]. apply release_represents; [done|done|lia].
Qed.

Lemma perform_all_represents os : ∀ h p rs h',
  represents h p → Forall limited os → Z.of_nat (size h + length os) < 2 ^ 64 →
  spec_perform_all os h = Some (rs, h') → ∃ p', perform_all os p = (rs, p') ∧ represents h' p'.
Proof.
  induction os as [|o os IH]; intros h p rs h' Hr Hl Hs; cbn [spec_perform_all perform_all length] in *.
  { intros [= <- <-]. by eauto. }
  apply Forall_cons_1 in Hl as [Ho Hl].
  destruct (spec_perform o h) as [[r h1]|] eqn:E; [|done]. cbn [mbind option_bind].
  destruct (spec_perform_all os h1) as [[rs' h2]|] eqn:E'; [|done]. cbn. intros [= <- <-].
  pose proof (size_spec_perform _ _ _ _ E).
  destruct (perform_represents h p o r h1 Hr Ho ltac:(lia) E) as (p1 & -> & Hr1).
  destruct (IH h1 p1 rs' h2 Hr1 Hl ltac:(lia) E') as (p' & -> & Hr'). by eauto.
Qed.

Lemma represents_empty : (∀ x, 0 ≤ limit x) → represents ∅ empty_pool.
Proof.
  intros Hl x. unfold represents_at, counter_at. cbn. rewrite lookup_empty, multiplicity_empty. cbn.
  split_and!; [done| |by intros []]. intros. specialize (Hl x). lia.
Qed.
End Semaphore.

(** ** Announcements *)

Fixpoint announced (name : string) (es : list EventMessage) : option Z :=
  match es with
  | [] => None
  | ActiveProvider name' n :: es => if decide (name' = name) then Some n else announced name es
  | _ :: es => announced name es
  end.

Section Announcements.
Context (name_of : Z → string) {name_of_inj : Inj (=) (=) name_of}.

(** The newest count announced for a name is the count that is stored. *)
Definition in_step (p : Pool) : Prop :=
  ∀ x, current_connections (counter_at x p) = default 0 (announced (name_of x) (events p)).

Lemma in_step_store c g n p :
  config_name c = name_of (connection c) → in_step p → in_step (store_connections c g n p).
Proof.
  intros Hc Hp x. rewrite counter_at_store. cbn. rewrite Hc. case_decide as E; case_decide as E'; cbn.
  - done.
  - by subst.
  - apply name_of_inj in E'. congruence.
  - apply Hp.
Qed.

Lemma in_step_write c g p :
  current_connections g = current_connections (counter_at (connection c) p) → in_step p → in_step (write_guard c g p).
Proof.
  intros Hg Hp x. rewrite counter_at_write. case_decide as E; [subst; rewrite Hg|]; apply Hp.
Qed.

Lemma perform_in_step o p :
  config_name (operand o) = name_of (connection (operand o)) → in_step p → in_step (perform o p).2.
Proof.
  intros Ho Hp. assert (∀ c g, connection c = connection (operand o) → g = guard_of c p → in_step (write_guard c (set_grace None g) p)) as Hw.
  { intros c g _ ->. by apply in_step_write. }
  destruct o as [clock c grace secs|clock c grace secs|c|c|c]; cbn [operand perform] in *.
  - unfold config_try_allocate. repeat case_match; simplify_eq/=; try done; by apply in_step_store.
  - unfold config_get_next. repeat case_match; simplify_eq/=; try done; by apply Hw.
  - unfold is_over_limit. repeat case_match; simplify_eq/=; try done; [by apply Hw|by apply in_step_write].
  - done.
  - unfold config_release. cbn [snd]. assert (in_step (write_guard c
      (if (0 <? max_connections c) && (max_connections c <? current_connections (guard_of c p))
       then set_grace None (guard_of c p) else guard_of c p) p)) as Hg by (apply in_step_write; [by case_match|done]).
    set (g := if (_ && _) then _ else _) in *. case_match; [by apply in_step_store|done].
Qed.

Lemma perform_all_in_step os : ∀ p,
  Forall (λ o, config_name (operand o) = name_of (connection (operand o))) os → in_step p → in_step (perform_all os p).2.
Proof.
  induction os as [|o os IH]; intros p Ho Hp; [done|]. apply Forall_cons_1 in Ho as [Ho Hos]. cbn [perform_all].
  pose proof (perform_in_step o p Ho Hp) as H1. destruct (perform o p) as [r p1].
  specialize (IH p1 Hos H1). by destruct (perform_all os p1).
Qed.
End Announcements.

(** ** Theorems *)

(** C24: whatever the interleaving of the operations of all clients, every
    operation answers as a semaphore would that lends up to the limit of a
    provider and, when grace is allowed, one connection beyond it: grants,
    refusals, probes and limit checks.  The counter is the number of connections
    that are held and never exceeds the limit by more than one.  The grace
    timeouts and the times of the calls play no part. *)
Theorem pool_refines_semaphore limit os rs h :
  (∀ x, 0 ≤ limit x) → Forall (limited limit) os → Z.of_nat (length os) < 2 ^ 64 →
  spec_perform_all os ∅ = Some (rs, h) →
  ∃ p, perform_all os empty_pool = (rs, p) ∧
    ∀ c, max_connections c = limit (connection c) →
      get_current_connections c p = held h c ∧
      (is_unlimited c = false → get_current_connections c p ≤ max_connections c + 1).
Proof.
  intros Hl Ho Hn E.
  destruct (perform_all_represents limit os ∅ empty_pool rs h (represents_empty limit Hl) Ho
              ltac:(rewrite gmultiset_size_empty; lia) E) as (p & Ep & Hr).
  exists p. split; [done|]. intros c Hc. destruct (Hr (connection c)) as (Hcur & Hmax & _).
  unfold get_current_connections. change (guard_of c p) with (counter_at (connection c) p). rewrite Hcur.
  split; [done|]. unfold is_unlimited. intros ?%Z.eqb_neq. rewrite Hc in *. by apply Hmax.
Qed.

(** The events tell the truth: after any operations of any clients, even
    ones that release what they do not hold, the newest count that was announced
    for a provider is the count of its connections (zero when none was). *)
Theorem announcements_in_step (name_of : Z → string) os c :
  Inj (=) (=) name_of →
  Forall (λ o, config_name (operand o) = name_of (connection (operand o))) os →
  config_name c = name_of (connection c) →
  let p := (perform_all os empty_pool).2 in
  get_current_connections c p = default 0 (announced (config_name c) (events p)).
Proof.
  intros Hinj Ho Hc p. pose proof (perform_all_in_step name_of os empty_pool Ho) as Hp. rewrite Hc. apply Hp.
  intros x. unfold counter_at. cbn. by rewrite lookup_empty.
Qed.

(** *** Witnesses *)

Definition example_config (name : string) (max address : Z) : ProviderConfig :=
  {| config_id := 1; config_name := name; config_url := "http://test"; config_username := Some "u"%string;
     config_password := Some "p"%string; config_input_type := Xtream; max_connections := max; priority := 0;
     exp_date := None; connection := address |}.

Definition example_clock : Clock := {| timestamp := 1700000000; instant := 5 |}.

(** Two clients on a provider with one connection, a third on an unlimited one. *)
Definition example_operations : list operation :=
  let limited := example_config "limited" 1 0 in
  let unlimited := example_config "unlimited" 0 1 in
  [ OpAllocate example_clock limited true 10; OpAllocate example_clock unlimited false 10;
    OpAllocate example_clock limited false 10; OpAllocate example_clock limited true 10;
    OpAllocate example_clock limited true 10; OpIsOverLimit limited; OpRelease limited;
    OpGetNext example_clock limited true 10; OpAllocate example_clock limited true 10 ].

Lemma pool_refines_semaphore_witness :
  ∃ p, perform_all example_operations empty_pool
       = ([ Allocated ConfigAvailable; Allocated ConfigAvailable; Allocated ConfigExhausted; Allocated ConfigGracePeriod;
            Allocated ConfigExhausted; Answered true; Released; Answered true; Allocated ConfigGracePeriod ], p) ∧
    get_current_connections (example_config "limited" 1 0) p = 2.
Proof.
  destruct (pool_refines_semaphore (λ x, if x =? 0 then 1 else 0) example_operations
    [ Allocated ConfigAvailable; Allocated ConfigAvailable; Allocated ConfigExhausted; Allocated ConfigGracePeriod;
      Allocated ConfigExhausted; Answered true; Released; Answered true; Allocated ConfigGracePeriod ]
    {[+ 0; 0; 1 +]}) as (p & E & Hp).
  - intros x. destruct (x =? 0); discriminate.
  - repeat constructor; discriminate.
  - reflexivity.
  - vm_compute. reflexivity.
  - exists p. split; [exact E|]. apply (Hp (example_config "limited" 1 0) eq_refl).
Defined.

Lemma announcements_in_step_witness :
  let p := (perform_all [OpAllocate example_clock (example_config "0" 1 0) true 10; OpRelease (example_config "7" 0 7)]
              empty_pool).2 in
  get_current_connections (example_config "0" 1 0) p = 1 ∧ announced "0" (events p) = Some 1.
Proof.
  pose proof (announcements_in_step (@pretty Z _)
    [OpAllocate example_clock (example_config "0" 1 0) true 10; OpRelease (example_config "7" 0 7)]
    (example_config "0" 1 0) _ ltac:(repeat constructor) eq_refl) as T.
  cbv zeta in *. split; [rewrite T|]; vm_compute; reflexivity.
Defined.
