(* ===== verification/ProviderLineup.v ===== *)
(** * Provider lineups

    Models the lineups of backend/session/src/provider_lineup_manager.rs: the
    providers behind an input, in groups of equal priority, and how a connection
    is acquired from them: groups in order of priority, round robin inside a
    group, grace only when no provider has capacity.  A lineup is immutable but
    for the round-robin index of each group, which lives in the [Pool].  One
    reading of the clocks serves a whole acquisition. *)

From S2P Require Import Prelude ProviderPool.
From stdpp Require Import gmap sorting.

#[local] Open Scope Z_scope.

(** [MultiProviderGroup] holds the address of its index. *)
Inductive ProviderPriorityGroup :=
| SingleProviderGroup (p : ProviderConfig)
| MultiProviderGroup (index : Z) (pg : list ProviderConfig).

Record MultiProviderLineup := { lineup_name : string; lineup_providers : list ProviderPriorityGroup }.

Inductive ProviderLineup :=
| Single (provider : ProviderConfig)
| Multi (multi : MultiProviderLineup).

Definition group_members (g : ProviderPriorityGroup) : list ProviderConfig :=
  match g with SingleProviderGroup c => [c] | MultiProviderGroup _ pg => pg end.

Definition multi_members (m : MultiProviderLineup) : list ProviderConfig := mjoin (group_members <$> lineup_providers m).

Definition lineup_members (l : ProviderLineup) : list ProviderConfig :=
  match l with Single c => [c] | Multi m => multi_members m end.

Definition multi_provider_names (m : MultiProviderLineup) : list string := map config_name (multi_members m).

Definition provider_names (l : ProviderLineup) : list string :=
  match l with Single c => [config_name c] | Multi m => multi_provider_names m end.

Definition has_member (name : string) (g : ProviderPriorityGroup) : bool :=
  existsb (λ c, bool_decide (config_name c = name)) (group_members g).

(** [Iterator::position]. *)
Fixpoint position {A} (f : A → bool) (l : list A) : option Z :=
  match l with
  | [] => None
  | x :: l => if f x then Some 0 else Z.succ <$> position f l
  end.

Definition priority_group_of (l : ProviderLineup) (provider_name : string) : option (Z * Z) :=
  match l with
  | Single c => if bool_decide (config_name c = provider_name) then Some (0, 1) else None
  | Multi m => (λ index, (index, len (lineup_providers m))) <$> position (has_member provider_name) (lineup_providers m)
  end.

Definition get_total_connections (m : MultiProviderLineup) (p : Pool) : Z :=
  foldl (λ total c, wrapping_add64 total (get_current_connections c p)) 0 (multi_members m).

(** ** The atomic indices *)

Definition index_load (i : Z) (p : Pool) : Z := default 0 (indices p !! i).

Definition index_store (i v : Z) (p : Pool) : Pool :=
  {| counters := counters p; indices := <[i := v]> (indices p); events := events p |}.

(** ** Round robin *)

Section RoundRobin.
Context {A : Type} (attempt : ProviderConfig → Pool → A * Pool) (failed : A → bool).

(** The loop of [acquire_next_provider_from_group] and
    [get_next_provider_from_group]; [None] when it came back to [start].  One
    turn per member suffices. *)
Fixpoint cycle (fuel : nat) (index : Z) (pg : list ProviderConfig) (start idx : Z) (p : Pool) : option A * Pool :=
  match fuel, pg !! Z.to_nat idx with
  | S fuel, Some c =>
      let '(result, p) := attempt c p in
      if negb (failed result) then (Some result, index_store index ((idx + 1) mod len pg) p) else
      let idx := (idx + 1) mod len pg in
      if idx =? start then (None, index_store index idx p) else cycle fuel index pg start idx p
  | _, _ => (None, p)
  end.

(** [index.fetch_add(1) % provider_count], then the loop. *)
Definition round_robin (index : Z) (pg : list ProviderConfig) (p : Pool) : option A * Pool :=
  let start := index_load index p mod len pg in
  cycle (length pg) index pg start start (index_store index (wrapping_add64 (index_load index p) 1) p).

(** The members in order, until one succeeds. *)
Fixpoint first_success (pg : list ProviderConfig) (p : Pool) : option A * Pool :=
  match pg with
  | [] => (None, p)
  | c :: pg =>
      let '(result, p) := attempt c p in
      if negb (failed result) then (Some result, p) else first_success pg p
  end.
End RoundRobin.

(** ** Acquiring *)

Definition is_exhausted_allocation (a : ProviderAllocation) : bool := match a with Exhausted => true | _ => false end.

(** An attempt on a provider unless it is excluded. *)
Definition try_unless_excluded (clock : Clock) (excluded_providers : gset string) (grace : bool) (secs : Z)
    (c : ProviderConfig) (p : Pool) : ProviderAllocation * Pool :=
  if bool_decide (config_name c ∈ excluded_providers) then (Exhausted, p) else try_allocate clock c grace secs p.

Definition or_exhausted (r : option ProviderAllocation * Pool) : ProviderAllocation * Pool :=
  (default Exhausted r.1, r.2).

Definition acquire_next_provider_from_group (clock : Clock) (priority_group : ProviderPriorityGroup) (grace : bool)
    (grace_period_timeout_secs : Z) (excluded_providers : gset string) (p : Pool) : ProviderAllocation * Pool :=
  let attempt := try_unless_excluded clock excluded_providers grace grace_period_timeout_secs in
  match priority_group with
  | SingleProviderGroup c => attempt c p
  | MultiProviderGroup index pg =>
      if grace then or_exhausted (first_success attempt is_exhausted_allocation pg p)
      else or_exhausted (round_robin attempt is_exhausted_allocation index pg p)
  end.

(** The loops over the priority groups. *)
Fixpoint first_group {A} (attempt : ProviderPriorityGroup → Pool → A * Pool) (failed : A → bool) (none : A)
    (groups : list ProviderPriorityGroup) (p : Pool) : A * Pool :=
  match groups with
  | [] => (none, p)
  | g :: groups =>
      let '(result, p) := attempt g p in
      if negb (failed result) then (result, p) else first_group attempt failed none groups p
  end.

Definition multi_acquire_excluding (clock : Clock) (m : MultiProviderLineup) (with_grace : bool)
    (grace_period_timeout_secs : Z) (excluded_providers : gset string) (p : Pool) : ProviderAllocation * Pool :=
  let acquire grace :=
    first_group (λ g, acquire_next_provider_from_group clock g grace grace_period_timeout_secs excluded_providers)
      is_exhausted_allocation Exhausted (lineup_providers m) in
  let '(allocation, p) := acquire false p in
  if negb (is_exhausted_allocation allocation) then (allocation, p) else
  if negb with_grace then (Exhausted, p) else acquire true p.

Definition acquire_excluding (clock : Clock) (l : ProviderLineup) (with_grace : bool) (grace_period_timeout_secs : Z)
    (excluded_providers : gset string) (p : Pool) : ProviderAllocation * Pool :=
  match l with
  | Single c =>
      if bool_decide (config_name c ∈ excluded_providers) then (Exhausted, p)
      else try_allocate clock c with_grace grace_period_timeout_secs p
  | Multi m => multi_acquire_excluding clock m with_grace grace_period_timeout_secs excluded_providers p
  end.

(** ** Cycling for redirects *)

Definition get_next_provider_from_group (clock : Clock) (priority_group : ProviderPriorityGroup) (grace : bool)
    (grace_period_timeout_secs : Z) (p : Pool) : option ProviderConfig * Pool :=
  let attempt c := wrapper_get_next clock c grace grace_period_timeout_secs in
  match priority_group with
  | SingleProviderGroup c => attempt c p
  | MultiProviderGroup index pg =>
      let '(r, p) := round_robin attempt (λ r, bool_decide (r = None)) index pg p in (mjoin r, p)
  end.

Definition multi_get_next (clock : Clock) (m : MultiProviderLineup) (grace_period_timeout_secs : Z) (p : Pool)
    : option ProviderConfig * Pool :=
  let next grace :=
    first_group (λ g, get_next_provider_from_group clock g grace grace_period_timeout_secs)
      (λ r, bool_decide (r = None)) None (lineup_providers m) in
  let '(config, p) := next false p in
  if bool_decide (config = None) then next true p else (config, p).

Definition lineup_get_next (clock : Clock) (l : ProviderLineup) (grace_period_timeout_secs : Z) (p : Pool)
    : option ProviderConfig * Pool :=
  match l with
  | Single c => wrapper_get_next clock c false grace_period_timeout_secs p
  | Multi m => multi_get_next clock m grace_period_timeout_secs p
  end.

(** ** Building lineups *)

(** [provider_connections]: the address of the counter of each provider name. *)
Abbreviation registry := (gmap string Z).

Definition get_or_create_provider_connection (provider_name : string) (st : registry * Pool) : Z * (registry * Pool) :=
  let '(connections, p) := st in
  match connections !! provider_name with
  | Some x => (x, st)
  | None =>
      let x := fresh (dom (counters p)) in
      (x, (<[provider_name := x]> connections,
           {| counters := <[x := connection_default]> (counters p); indices := indices p; events := events p |}))
  end.

Definition push_alias (cfg : ConfigInput) (inputs : list ProviderConfig * (registry * Pool)) (alias : ConfigInputAlias)
    : list ProviderConfig * (registry * Pool) :=
  let '(x, st) := get_or_create_provider_connection (alias_name alias) inputs.2 in
  (inputs.1 ++ [provider_config_new_alias cfg alias x], st).

Definition provider_inputs (cfg : ConfigInput) (st : registry * Pool) : list ProviderConfig * (registry * Pool) :=
  let '(x, st) := get_or_create_provider_connection (input_name cfg) st in
  foldl (push_alias cfg) ([provider_config_new cfg x], st) (default [] (get_enabled_aliases cfg)).

(** [providers.entry(priority).or_insert_with(Vec::new).push(provider)]. *)
Definition push_provider (providers : gmap Z (list ProviderConfig)) (c : ProviderConfig) : gmap Z (list ProviderConfig) :=
  <[priority c := default [] (providers !! priority c) ++ [c]]> providers.

Definition by_key (a b : Z * list ProviderConfig) : Prop := a.1 ≤ b.1.

#[export] Instance by_key_dec : RelDecision by_key.
Proof. intros a b. unfold by_key. apply _. Defined.

Definition sorted_groups (inputs : list ProviderConfig) : list (Z * list ProviderConfig) :=
  merge_sort by_key (map_to_list (foldl push_provider ∅ inputs)).

(** A group with one member has no index; no group is empty. *)
Definition push_group (st : list ProviderPriorityGroup * Pool) (group : list ProviderConfig)
    : list ProviderPriorityGroup * Pool :=
  let '(groups, p) := st in
  match group with
  | [] => st
  | [c] => (groups ++ [SingleProviderGroup c], p)
  | _ => let index := fresh (dom (indices p)) in (groups ++ [MultiProviderGroup index group], index_store index 0 p)
  end.

Definition multi_lineup_new (cfg_input : ConfigInput) (st : registry * Pool) : MultiProviderLineup * (registry * Pool) :=
  let '(inputs, (connections, p)) := provider_inputs cfg_input st in
  let '(groups, p) := foldl push_group ([], p) (map snd (sorted_groups inputs)) in
  ({| lineup_name := input_name cfg_input; lineup_providers := groups |}, (connections, p)).

Definition create_lineup (cfg_input : ConfigInput) (st : registry * Pool) : ProviderLineup * (registry * Pool) :=
  if has_enabled_aliases cfg_input then
    let '(m, st) := multi_lineup_new cfg_input st in (Multi m, st)
  else
    let '(x, st) := get_or_create_provider_connection (input_name cfg_input) st in
    (Single (provider_config_new cfg_input x), st).

(** ** Lemmas: the round-robin loop *)

Section Cycle.
Context {A : Type} (attempt : ProviderConfig → Pool → A * Pool) (failed : A → bool).
Hypothesis failure_pure : ∀ c p r p', attempt c p = (r, p') → failed r = true → p' = p.

(** The first success of [l], whose members stand at [k], [k + 1], ... *)
Fixpoint seek (l : list ProviderConfig) (p : Pool) (k : nat) : option (nat * A * Pool) :=
  match l with
  | [] => None
  | c :: l => let '(r, p') := attempt c p in if negb (failed r) then Some (k, r, p') else seek l p (S k)
  end.

Lemma first_success_seek l p k :
  first_success attempt failed l p
  = match seek l p k with Some (_, r, p') => (Some r, p') | None => (None, p) end.
Proof.
  revert k. induction l as [|c l IH]; intros k; cbn; [done|].
  destruct (attempt c p) as [r p'] eqn:E. destruct (failed r) eqn:F; cbn; [|done].
  rewrite (failure_pure _ _ _ _ E F). apply IH.
Qed.

Lemma cycle_seek index pg start p rest : ∀ fuel k,
  (start < length pg)%nat → rest = drop k (rotate start pg) → length rest = fuel → (k < length pg)%nat →
  cycle attempt failed fuel index pg (Z.of_nat start) (Z.of_nat ((start + k) mod length pg)) p
  = match seek rest p k with
    | Some (j, r, p') => (Some r, index_store index (Z.of_nat ((start + j + 1) mod length pg)) p')
    | None => (None, index_store index (Z.of_nat start) p)
    end.
Proof.
  induction rest as [|c rest IH]; intros fuel k Hs Hrest Hf Hk.
  { apply (f_equal length) in Hrest. rewrite length_drop, length_rotate in Hrest. cbn in Hrest. lia. }
  subst fuel. cbn [cycle length seek].
  assert (pg !! ((start + k) mod length pg)%nat = Some c) as Hc.
  { assert (rotate start pg !! k = Some c) as Hl by (rewrite <- (Nat.add_0_r k), <- lookup_drop, <- Hrest; done).
    rewrite lookup_rotate_r in Hl by done. unfold rotate_nat_add in Hl. rewrite <- Hl. f_equal.
    rewrite <- Nat2Z.inj_add, <- Nat2Z.inj_mod, Nat2Z.id. done. }
  rewrite Nat2Z.id, Hc. destruct (attempt c p) as [r p'] eqn:E.
  assert ((Z.of_nat ((start + k) mod length pg) + 1) mod len pg = Z.of_nat ((start + S k) mod length pg)) as Hnext.
  { unfold len. rewrite !Nat2Z.inj_mod, Z.add_mod_idemp_l by lia. f_equal. lia. }
  rewrite Hnext. destruct (failed r) eqn:F; cbn [negb].
  2:{ by replace (start + S k)%nat with (start + k + 1)%nat by lia. }
  rewrite (failure_pure _ _ _ _ E F). assert (rest = drop (S k) (rotate start pg)) as Hrest'.
  { replace (S k) with (k + 1)%nat by lia. rewrite <- drop_drop, <- Hrest. done. }
  destruct (decide (S k = length pg)) as [Hn|Hn].
  - assert (rest = []) as ->. { apply nil_length_inv. rewrite Hrest', length_drop, length_rotate. lia. }
    rewrite Hn. replace (start + length pg)%nat with (start + 1 * length pg)%nat by lia.
    rewrite Nat.Div0.mod_add, Nat.mod_small by done. rewrite Z.eqb_refl. done.
  - replace (_ =? Z.of_nat start) with false.
    { apply IH; [done|done|done|lia]. }
    symmetry. apply Z.eqb_neq. intros Hm%Nat2Z.inj.
    destruct (decide (start + S k < length pg)%nat); [rewrite Nat.mod_small in Hm by done; lia|].
    replace (start + S k)%nat with (start + S k - length pg + 1 * length pg)%nat in Hm by lia.
    rewrite Nat.Div0.mod_add, Nat.mod_small in Hm by lia. lia.
Qed.

(** The members in the order in which the loop visits them. *)
Definition visiting (index : Z) (pg : list ProviderConfig) (p : Pool) : nat :=
  Z.to_nat (index_load index p mod len pg).

Lemma round_robin_seek index pg p :
  pg ≠ [] → 0 ≤ index_load index p →
  let s := visiting index pg p in
  let p0 := index_store index (wrapping_add64 (index_load index p) 1) p in
  round_robin attempt failed index pg p
  = match seek (rotate s pg) p0 0 with
    | Some (j, r, p') => (Some r, index_store index (Z.of_nat ((s + j + 1) mod length pg)) p')
    | None => (None, index_store index (Z.of_nat s) p0)
    end.
Proof.
  intros Hpg Hi s p0. assert (0 < len pg) by (unfold len; destruct pg; cbn; [done|lia]).
  assert (s < length pg)%nat as Hs by (unfold s, visiting, len in *; pose proof (Z.mod_pos_bound (index_load index p) (len pg)); unfold len in *; lia).
  unfold round_robin. fold p0. assert (index_load index p mod len pg = Z.of_nat s) as -> by (unfold s, visiting; pose proof (Z.mod_pos_bound (index_load index p) (len pg)); lia).
  pose proof (cycle_seek index pg s p0 (rotate s pg) (length pg) 0 Hs eq_refl (length_rotate _ _) ltac:(lia)) as E.
  rewrite Nat.add_0_r, Nat.mod_small in E by done. exact E.
Qed.
End Cycle.

(** A success is found exactly where the members that can succeed are. *)
Lemma seek_find {A} attempt (failed : A → bool) (able : ProviderConfig → bool) good bad p l : ∀ k,
  (∀ c, attempt c p = if able c then good c else (bad, p)) → failed bad = true →
  (∀ c, able c = true → failed (good c).1 = false) →
  match seek attempt failed l p k with
  | Some (j, r, p') => ∃ i c, find able l = Some c ∧ good c = (r, p') ∧ j = (k + i)%nat ∧ l !! i = Some c
  | None => find able l = None
  end.
Proof.
  intros k Ha Hb Hg. revert k. induction l as [|c l IH]; intros k; cbn; [done|]. rewrite Ha.
  destruct (able c) eqn:E.
  - destruct (good c) as [r p'] eqn:G. specialize (Hg c E). rewrite G in Hg. cbn in Hg. rewrite Hg. cbn.
    exists 0%nat, c. rewrite Nat.add_0_r. done.
  - rewrite Hb. cbn. specialize (IH (S k)). destruct (seek _ _ _ _ _) as [[[j r] p']|]; [|done].
    destruct IH as (i & c' & ? & ? & -> & ?). exists (S i), c'. split_and!; [done|done|lia|done].
Qed.

(** ** Pools up to round-robin indices *)

#[export] Instance pool_equiv : Equiv Pool := λ p q, counters p = counters q ∧ events p = events q.
#[export] Instance pool_equivalence : Equivalence (≡@{Pool}).
Proof. split; [done|by intros ?? []|intros ??? [] []; split; congruence]. Qed.

Lemma index_store_equiv i v p : index_store i v p ≡ p.
Proof. done. Qed.

#[export] Instance guard_of_proper c : Proper ((≡) ==> (=)) (guard_of c).
Proof. intros p q [E _]. unfold guard_of. by rewrite E. Qed.

#[export] Instance increment_proper c : Proper ((=) ==> (≡) ==> (≡@{Pool})) (increment_connections c).
Proof. intros g ? <- p q [E E']. split; cbn; congruence. Qed.

(** ** Specification: which provider serves a request *)

Section Choice.
Context (clock : Clock) (secs : Z) (excluded : gset string).

Definition admissible (c : ProviderConfig) : bool :=
  negb (bool_decide (config_name c ∈ excluded)) && negb (is_input_expired (exp_date c) clock).

(** A connection below the limit. *)
Definition has_capacity (p : Pool) (c : ProviderConfig) : bool :=
  admissible c && (is_unlimited c || (get_current_connections c p <? max_connections c)).

(** At the limit, with no grace running. *)
Definition has_grace (p : Pool) (c : ProviderConfig) : bool :=
  admissible c && negb (is_unlimited c) && (get_current_connections c p =? max_connections c)
  && negb (grace_is_active (guard_of c p) (instant clock) secs).

Definition claim (c : ProviderConfig) (p : Pool) : Pool :=
  increment_connections c (if is_unlimited c then guard_of c p else set_grace None (guard_of c p)) p.

Definition claim_grace (c : ProviderConfig) (p : Pool) : Pool :=
  increment_connections c (set_grace (Some (instant clock)) (guard_of c p)) p.

(** Round robin starts where the index of the group stands. *)
Definition scan_order (p : Pool) (g : ProviderPriorityGroup) : list ProviderConfig :=
  match g with SingleProviderGroup c => [c] | MultiProviderGroup index pg => rotate (visiting index pg p) pg end.

Definition lineup_scan_order (p : Pool) (l : ProviderLineup) : list ProviderConfig :=
  match l with Single c => [c] | Multi m => mjoin (scan_order p <$> lineup_providers m) end.

(** The first provider with capacity, or else, with grace, the first that can
    be overdrawn; and the pool after that provider's connection is claimed. *)
Definition chosen (l : ProviderLineup) (with_grace : bool) (p : Pool) : ProviderAllocation * Pool :=
  match find (has_capacity p) (lineup_scan_order p l) with
  | Some c => (Available c, claim c p)
  | None =>
      match (if with_grace then find (has_grace p) (lineup_members l) else None) with
      | Some c => (GracePeriod c, claim_grace c p)
      | None => (Exhausted, p)
      end
  end.

#[export] Instance has_capacity_proper : Proper ((≡) ==> (=) ==> (=)) has_capacity.
Proof. intros p q E c ? <-. unfold has_capacity, get_current_connections. by rewrite E. Qed.
#[export] Instance has_grace_proper : Proper ((≡) ==> (=) ==> (=)) has_grace.
Proof. intros p q E c ? <-. unfold has_grace, get_current_connections. by rewrite E. Qed.
#[export] Instance claim_proper c : Proper ((≡) ==> (≡@{Pool})) (claim c).
Proof. intros p q E. unfold claim. apply increment_proper; [by rewrite (guard_of_proper c p q E)|done]. Qed.
#[export] Instance claim_grace_proper c : Proper ((≡) ==> (≡@{Pool})) (claim_grace c).
Proof. intros p q E. unfold claim_grace. apply increment_proper; [by rewrite (guard_of_proper c p q E)|done]. Qed.

Lemma try_no_grace c p :
  try_unless_excluded clock excluded false secs c p
  = if has_capacity p c then (Available c, claim c p) else (Exhausted, p).
Proof.
  unfold try_unless_excluded, try_allocate, config_try_allocate, has_capacity, admissible, claim, is_unlimited,
    get_current_connections.
  case_bool_decide; cbn [negb andb orb]; [done|]. destruct (is_input_expired _ _); cbn [negb andb orb]; [done|].
  destruct (max_connections c =? 0); cbn [negb andb orb]; [done|]. by destruct (_ <? _).
Qed.

Lemma try_grace c p :
  try_unless_excluded clock excluded true secs c p
  = if has_capacity p c then (Available c, claim c p)
    else if has_grace p c then (GracePeriod c, claim_grace c p) else (Exhausted, p).
Proof.
  unfold try_unless_excluded, try_allocate, config_try_allocate, has_capacity, has_grace, admissible, claim, claim_grace,
    is_unlimited, get_current_connections.
  case_bool_decide; cbn [negb andb orb]; [done|]. destruct (is_input_expired _ _); cbn [negb andb orb]; [done|].
  destruct (max_connections c =? 0) eqn:E0; cbn [negb andb orb]; [done|]. destruct (_ <? _) eqn:E1; cbn [negb andb orb]; [done|].
  destruct (max_connections c <? _) eqn:E2; cbn [negb andb orb].
  - replace (_ =? _) with false by lia. done.
  - replace (_ =? max_connections c) with true by lia. cbn [negb andb orb]. by destruct (grace_is_active _ _ _).
Qed.

(** *** Well-formed groups *)

Definition group_address (g : ProviderPriorityGroup) : option Z :=
  match g with SingleProviderGroup _ => None | MultiProviderGroup index _ => Some index end.

(** Groups have members and do not share their indices. *)
Definition groups_wf (groups : list ProviderPriorityGroup) : Prop :=
  Forall (λ g, group_members g ≠ []) groups ∧ NoDup (omap group_address groups).

Definition lineup_wf (l : ProviderLineup) : Prop :=
  match l with Single _ => True | Multi m => groups_wf (lineup_providers m) end.

Definition indices_ok (p : Pool) : Prop := ∀ i, 0 ≤ index_load i p.

Lemma index_load_store i j v p : index_load i (index_store j v p) = if decide (i = j) then v else index_load i p.
Proof.
  unfold index_load, index_store. cbn. case_decide as E; [subst; by rewrite lookup_insert_eq|].
  by rewrite lookup_insert_ne by congruence.
Qed.

Lemma indices_ok_store i v p : 0 ≤ v → indices_ok p → indices_ok (index_store i v p).
Proof. intros Hv Hp j. rewrite index_load_store. case_decide; [done|apply Hp]. Qed.

Lemma indices_ok_same p p' : indices p' = indices p → indices_ok p → indices_ok p'.
Proof. intros E Hp i. unfold index_load. rewrite E. apply Hp. Qed.

(** What a run over a list of providers did. *)
Definition served (p : Pool) (l : list ProviderConfig) (r : ProviderAllocation * Pool) : Prop :=
  match find (has_capacity p) l with
  | Some c => r.1 = Available c ∧ r.2 ≡ claim c p
  | None => r.1 = Exhausted ∧ r.2 ≡ p
  end.

Lemma acquire_group_no_grace g p :
  group_members g ≠ [] → indices_ok p →
  let r := acquire_next_provider_from_group clock g false secs excluded p in
  served p (scan_order p g) r ∧ indices_ok r.2 ∧
  (∀ i, group_address g ≠ Some i → index_load i r.2 = index_load i p).
Proof.
  intros Hne Hp. destruct g as [c|index pg]; cbn [acquire_next_provider_from_group scan_order group_address] in *.
  { rewrite try_no_grace. unfold served. cbn [find]. destruct (has_capacity p c); cbn; done. }
  unfold or_exhausted. rewrite round_robin_seek; [|intros c q r q'; rewrite try_no_grace; case_match; by intros [= <- <-]|done|apply Hp].
  set (p0 := index_store _ _ _). assert (indices_ok p0) as Hp0 by (apply indices_ok_store; [apply Z.mod_pos_bound; lia|done]).
  set (s := visiting index pg p).
  pose proof (seek_find _ is_exhausted_allocation (has_capacity p0) (λ c, (Available c, claim c p0)) Exhausted p0
    (rotate s pg) 0 (λ c, try_no_grace c p0) eq_refl (λ _ _, eq_refl)) as Hs.
  change (has_capacity p0) with (has_capacity p) in Hs.
  destruct (seek _ _ _ _ _) as [[[j r] p']|]; unfold served; cbn.
  - destruct Hs as (i & c & -> & [= <- <-] & _). split_and!; [done|done| |].
    + apply indices_ok_store; [lia|]. by apply (indices_ok_same p0).
    + intros k Hk. rewrite index_load_store, decide_False by congruence. change (index_load k p0 = index_load k p).
      unfold p0. by rewrite index_load_store, decide_False by congruence.
  - rewrite Hs. split_and!; [done|done| |].
    + apply indices_ok_store; [lia|done].
    + intros k Hk. rewrite index_load_store, decide_False by congruence.
      unfold p0. by rewrite index_load_store, decide_False by congruence.
Qed.

Lemma find_app {A} (f : A → bool) l l' : find f (l ++ l') = match find f l with Some x => Some x | None => find f l' end.
Proof. induction l as [|x l IH]; cbn; [done|]. by destruct (f x). Qed.

Lemma find_ext {A} (f g : A → bool) l : (∀ x, f x = g x) → find f l = find g l.
Proof. intros E. induction l as [|x l IH]; cbn; [done|]. rewrite E, IH. done. Qed.

Lemma scan_order_same p p' g :
  (∀ i, group_address g = Some i → index_load i p' = index_load i p) → scan_order p' g = scan_order p g.
Proof. destruct g as [c|i pg]; intros E; [done|]. cbn. unfold visiting. by rewrite E. Qed.

Lemma first_group_no_grace groups : ∀ p,
  groups_wf groups → indices_ok p →
  let r := first_group (λ g, acquire_next_provider_from_group clock g false secs excluded) is_exhausted_allocation
             Exhausted groups p in
  served p (mjoin (scan_order p <$> groups)) r ∧ indices_ok r.2.
Proof.
  induction groups as [|g groups IH]; intros p [Hm Hd] Hp; [done|]. cbn [first_group fmap list_fmap mjoin list_join].
  apply Forall_cons_1 in Hm as [Hg Hm].
  destruct (acquire_group_no_grace g p Hg Hp) as (Hs & Hi & Hother).
  destruct (acquire_next_provider_from_group _ _ _ _ _ _) as [a p1]. cbn [fst snd] in *.
  unfold served in *. rewrite find_app. destruct (find _ (scan_order p g)) as [c|] eqn:F; cbn [fst snd] in *.
  { destruct Hs as [-> Hs]. cbn. done. }
  destruct Hs as [-> Hs]. cbn [is_exhausted_allocation negb].
  assert (groups_wf groups) as Hwf.
  { split; [done|]. cbn in Hd. destruct (group_address g); [by apply NoDup_cons_1_2 in Hd|done]. }
  destruct (IH p1 Hwf Hi) as [Hr Hi']. split; [|done].
  assert (scan_order p1 <$> groups = scan_order p <$> groups) as Escan.
  { apply list_fmap_ext. intros k g' Hk. apply scan_order_same. intros i Hgi. apply Hother. intros Hgi'.
    cbn in Hd. rewrite Hgi' in Hd. apply NoDup_cons_1_1 in Hd. apply Hd.
    apply list_elem_of_omap. exists g'. split; [by eapply list_elem_of_lookup_2|done]. }
  rewrite Escan in Hr. rewrite (find_ext (has_capacity p1) (has_capacity p)) in Hr
    by (intros c; by rewrite (has_capacity_proper p1 p Hs c c eq_refl)).
  destruct (find _ (mjoin _)); destruct Hr as [-> Hr]; (split; [done|]); rewrite Hr; [|done].
  by apply claim_proper.
Qed.

(** *** Grace *)

Lemma acquire_group_grace g p :
  Forall (λ c, has_capacity p c = false) (group_members g) →
  acquire_next_provider_from_group clock g true secs excluded p
  = match find (has_grace p) (group_members g) with Some c => (GracePeriod c, claim_grace c p) | None => (Exhausted, p) end.
Proof.
  destruct g as [c|index pg]; cbn [acquire_next_provider_from_group group_members]; intros Hc.
  { apply Forall_cons_1 in Hc as [Hc _]. cbv beta in Hc. rewrite try_grace, Hc. cbn. by destruct (has_grace p c). }
  unfold or_exhausted. induction pg as [|c pg IH]; [done|]. apply Forall_cons_1 in Hc as [Hc Hpg]. cbv beta in Hc.
  cbn [first_success find]. rewrite try_grace, Hc. destruct (has_grace p c); cbn; [done|]. by apply IH.
Qed.

Lemma first_group_grace groups p :
  Forall (λ c, has_capacity p c = false) (mjoin (group_members <$> groups)) →
  first_group (λ g, acquire_next_provider_from_group clock g true secs excluded) is_exhausted_allocation Exhausted groups p
  = match find (has_grace p) (mjoin (group_members <$> groups)) with
    | Some c => (GracePeriod c, claim_grace c p)
    | None => (Exhausted, p)
    end.
Proof.
  induction groups as [|g groups IH]; [done|]. cbn [first_group fmap list_fmap mjoin list_join]. rewrite Forall_app.
  intros [Hg Hgs]. rewrite acquire_group_grace, find_app by done.
  destruct (find _ (group_members g)); cbn; [done|]. by apply IH.
Qed.

Lemma scan_order_perm p g : scan_order p g ≡ₚ group_members g.
Proof.
  destruct g as [c|i pg]; cbn; [done|]. unfold rotate. rewrite Permutation_app_comm. by rewrite take_drop.
Qed.

Lemma lineup_scan_perm p l : lineup_scan_order p l ≡ₚ lineup_members l.
Proof.
  destruct l as [c|m]; cbn; [done|]. unfold multi_members. induction (lineup_providers m) as [|g gs IH]; cbn; [done|].
  by rewrite scan_order_perm, IH.
Qed.

Lemma find_none_Forall {A} (f : A → bool) l : find f l = None ↔ Forall (λ x, f x = false) l.
Proof.
  induction l as [|x l IH]; cbn; [split; constructor|]. rewrite Forall_cons.
  destruct (f x); [split; [done|by intros []]|]. tauto.
Qed.
End Choice.

Lemma acquire_excluding_choice clock secs excluded l with_grace p :
  lineup_wf l → indices_ok p →
  let r := acquire_excluding clock l with_grace secs excluded p in
  let s := chosen clock secs excluded l with_grace p in
  r.1 = s.1 ∧ r.2 ≡ s.2 ∧ indices_ok r.2.
Proof.
  intros Hl Hp. destruct l as [c|m]; cbn [acquire_excluding lineup_wf] in *.
  - unfold chosen. cbn [lineup_scan_order lineup_members find].
    change (if bool_decide _ then _ else _) with (try_unless_excluded clock excluded with_grace secs c p).
    destruct with_grace; [rewrite try_grace|rewrite try_no_grace]; cbn [fst snd].
    + destruct (has_capacity _ _ _ _); [done|]. by destruct (has_grace _ _ _ _ _).
    + by destruct (has_capacity _ _ _ _).
  - unfold multi_acquire_excluding, chosen. cbn [lineup_scan_order].
    destruct (first_group_no_grace clock secs excluded _ p Hl Hp) as [Hs Hi].
    destruct (first_group _ _ _ _ p) as [a p1]. unfold served in Hs. cbn [fst snd] in *.
    destruct (find _ (mjoin _)) as [c|] eqn:F; destruct Hs as [-> Hs]; cbn [is_exhausted_allocation negb]; [done|].
    destruct with_grace; cbn [negb]; [|done].
    assert (Forall (λ c, has_capacity clock excluded p1 c = false) (multi_members m)) as Hnone.
    { apply find_none_Forall. change (mjoin _) with (lineup_scan_order p (Multi m)) in F. apply find_none_Forall in F.
      rewrite lineup_scan_perm in F. apply find_none_Forall. eapply Forall_impl; [exact F|]. intros c Hc.
      by rewrite (has_capacity_proper clock excluded p1 p Hs c c eq_refl). }
    rewrite first_group_grace by exact Hnone. cbn [lineup_members]. unfold multi_members.
    rewrite (find_ext (has_grace clock secs excluded p1) (has_grace clock secs excluded p))
      by (intros c; by rewrite (has_grace_proper clock secs excluded p1 p Hs c c eq_refl)).
    destruct (find (has_grace clock secs excluded p) _) as [c|]; cbn [fst snd]; [|done]. split_and!; [done|by apply claim_grace_proper|by apply (indices_ok_same p1)].
Qed.

(** ** Lemmas: building lineups *)

Lemma push_providers_lookup inputs q :
  foldl push_provider ∅ inputs !! q
  = match filter (λ c, priority c = q) inputs with [] => None | group => Some group end.
Proof.
  induction inputs as [|c inputs IH] using rev_ind; [exact (lookup_empty q)|].
  rewrite foldl_snoc, filter_app, filter_cons, filter_nil. unfold push_provider at 1.
  destruct (decide (priority c = q)) as [<-|Hq].
  - rewrite lookup_insert_eq, IH. by destruct (filter _ inputs).
  - rewrite lookup_insert_ne, IH, app_nil_r by done. done.
Qed.

(** The keys are the priorities, in order, each with its members in order. *)
Lemma sorted_groups_spec inputs :
  StronglySorted Z.lt (map fst (sorted_groups inputs)) ∧
  (∀ q group, (q, group) ∈ sorted_groups inputs ↔ group = filter (λ c, priority c = q) inputs ∧ group ≠ []).
Proof.
  set (m := foldl push_provider ∅ inputs). assert (sorted_groups inputs ≡ₚ map_to_list m) as Hperm by apply merge_sort_Permutation.
  split.
  - assert (StronglySorted by_key (sorted_groups inputs)) as Hs.
    { apply Sorted_StronglySorted; [intros ??? ; unfold by_key; lia|].
      apply Sorted_merge_sort. intros x y. unfold by_key. lia. }
    assert (NoDup (map fst (sorted_groups inputs))) as Hd.
    { change (map fst) with (fmap (M := list) (@fst Z (list ProviderConfig))). rewrite Hperm. apply NoDup_fst_map_to_list. }
    clear Hperm. induction Hs as [|[q g] l Hs IH Hall]; cbn in *; [constructor|].
    apply NoDup_cons in Hd as [Hnin Hd]. constructor; [by apply IH|]. apply Forall_forall. intros q' Hq'.
    apply list_elem_of_fmap in Hq' as ([q1 g1] & -> & Hin). rewrite Forall_forall in Hall. specialize (Hall _ Hin).
    unfold by_key in Hall. cbn in *. destruct (decide (q = q1)) as [->|]; [|lia]. exfalso. apply Hnin.
    apply list_elem_of_fmap. by exists (q1, g1).
  - intros q group. rewrite Hperm, elem_of_map_to_list. unfold m. rewrite push_providers_lookup.
    destruct (filter _ inputs); split; intros H; [done|by destruct H as [-> ?]|by simplify_eq|by destruct H as [-> ?]].
Qed.

(** Groups of strictly increasing priorities. *)
Definition graded (groups : list ProviderPriorityGroup) : Prop :=
  ∃ qs, StronglySorted Z.lt qs ∧ Forall2 (λ q g, Forall (λ c, priority c = q) (group_members g)) qs groups.

Lemma push_groups_spec gs : ∀ groups p,
  Forall (λ g, g ≠ []) gs →
  ∃ new p', foldl push_group (groups, p) gs = (groups ++ new, p') ∧ map group_members new = gs ∧ p' ≡ p ∧
    (indices_ok p → indices_ok p') ∧ dom (indices p) ⊆ dom (indices p') ∧
    NoDup (omap group_address new) ∧ (∀ i, i ∈ omap group_address new → i ∉ dom (indices p)).
Proof.
  induction gs as [|g gs IH]; intros groups p Hne; cbn [foldl].
  { exists [], p. rewrite app_nil_r. split_and!; try done; [constructor|by intros i ?%not_elem_of_nil]. }
  apply Forall_cons_1 in Hne as [Hg Hgs]. destruct g as [|c [|c' g]]; [done| |].
  - destruct (IH (groups ++ [SingleProviderGroup c]) p Hgs) as (new & p' & E & Hm & Hp & Hok & Hd & Hn & Hf).
    exists (SingleProviderGroup c :: new), p'. cbn [push_group]. rewrite E, <- app_assoc. cbn. rewrite Hm.
    by split_and!.
  - cbn [push_group]. set (i := fresh (dom (indices p))). set (gr := MultiProviderGroup i _). set (p1 := index_store i 0 p).
    destruct (IH (groups ++ [gr]) p1 Hgs) as (new & p' & E & Hm & Hp & Hok & Hd & Hn & Hf).
    assert (dom (indices p1) = {[i]} ∪ dom (indices p)) as Hdom by apply dom_insert_L.
    exists (gr :: new), p'. rewrite E, <- app_assoc. cbn. rewrite Hm. split_and!; [done|done|done| | | |].
    + intros Hi. apply Hok. by apply indices_ok_store.
    + etrans; [|exact Hd]. rewrite Hdom. apply union_subseteq_r.
    + constructor; [|done]. intros Hi. apply (Hf i Hi). rewrite Hdom. by apply elem_of_union_l, elem_of_singleton.
    + intros j [->|Hj]%elem_of_cons; [apply is_fresh|]. intros Hj'. apply (Hf j Hj). rewrite Hdom.
      by apply elem_of_union_r.
Qed.

Lemma Forall2_map_r {A B C} (R : A → B → Prop) (f : C → B) l k : Forall2 R l (map f k) ↔ Forall2 (λ x y, R x (f y)) l k.
Proof. change (map f k) with (f <$> k). by rewrite Forall2_fmap_r. Qed.

Lemma mjoin_perm {A} (l : list (list A)) l' : l ≡ₚ l' → mjoin l ≡ₚ mjoin l'.
Proof. by intros ->. Qed.

(** Each provider is in the group of its priority. *)
Lemma sorted_groups_members inputs c : c ∈ mjoin (map snd (sorted_groups inputs)) ↔ c ∈ inputs.
Proof.
  destruct (sorted_groups_spec inputs) as [_ Hg]. rewrite list_elem_of_join. split.
  - intros (group & Hc & Hin). apply list_elem_of_fmap in Hin as ([q g] & -> & Hin). apply Hg in Hin as [-> _].
    cbn in Hc. by apply list_elem_of_filter in Hc as [_ ?].
  - intros Hc. exists (filter (λ c', priority c' = priority c) inputs). split; [by apply list_elem_of_filter|].
    apply list_elem_of_fmap. exists (priority c, filter (λ c', priority c' = priority c) inputs). split; [done|].
    apply Hg. split; [done|]. intros E. assert (c ∈ filter (λ c', priority c' = priority c) inputs) as Hin by (by apply list_elem_of_filter).
    rewrite E in Hin. by apply not_elem_of_nil in Hin.
Qed.

Lemma multi_lineup_new_spec cfg connections p m st' :
  multi_lineup_new cfg (connections, p) = (m, st') →
  let inputs := provider_inputs cfg (connections, p) in
  st'.1 = inputs.2.1 ∧ st'.2 ≡ inputs.2.2 ∧ (indices_ok inputs.2.2 → indices_ok st'.2) ∧
  lineup_name m = input_name cfg ∧ groups_wf (lineup_providers m) ∧ graded (lineup_providers m) ∧
  map group_members (lineup_providers m) = map snd (sorted_groups inputs.1).
Proof.
  unfold multi_lineup_new. destruct (provider_inputs cfg _) as [inputs [connections' p']]. cbn [fst snd].
  destruct (sorted_groups_spec inputs) as [Hs Hg].
  assert (Forall (λ g, g ≠ []) (map snd (sorted_groups inputs))) as Hne.
  { apply Forall_forall. intros g Hin. apply list_elem_of_fmap in Hin as ([q g'] & -> & Hin). by apply Hg in Hin as [_ ?]. }
  destruct (push_groups_spec _ [] p' Hne) as (new & p'' & -> & Hm & Hp & Hok & _ & Hn & _). cbn [app].
  intros [= <- <-]. cbn. split_and!; [done|done|done|done| | |done].
  - split; [|done]. rewrite <- Hm in Hne. exact (proj1 (Forall_map group_members _ _) Hne).
  - exists (map fst (sorted_groups inputs)). split; [done|].
    apply (Forall2_map_r (λ q g, Forall (λ c, priority c = q) g) group_members). rewrite Hm.
    apply Forall2_map_r. change (map fst (sorted_groups inputs)) with (fst <$> sorted_groups inputs).
    apply Forall2_fmap_l. apply Forall_Forall2_diag, Forall_forall. intros [q g] Hin. apply Hg in Hin as [-> _].
    apply Forall_forall. intros c Hc. by apply list_elem_of_filter in Hc as [? _].
Qed.

Lemma find_graded (f : ProviderConfig → bool) (order : ProviderPriorityGroup → list ProviderConfig) groups c c' :
  (∀ g, order g ≡ₚ group_members g) → graded groups → find f (mjoin (order <$> groups)) = Some c →
  c' ∈ mjoin (group_members <$> groups) → f c' = true → priority c ≤ priority c'.
Proof.
  intros Ho (qs & Hs & Hq). revert Hs. induction Hq as [|q g qs groups Hg Hq IH]; intros Hs; [done|].
  apply StronglySorted_inv in Hs as [Hs Hlt]. cbn [fmap list_fmap mjoin list_join]. rewrite find_app, elem_of_app.
  assert (∀ x, x ∈ mjoin (group_members <$> groups) → q < priority x) as Hrest.
  { intros x (l & Hx & Hl)%list_elem_of_join. apply list_elem_of_fmap in Hl as (g' & -> & Hin).
    apply list_elem_of_lookup in Hin as [i Hi]. destruct (Forall2_lookup_r _ _ _ _ _ Hq Hi) as (q' & Hq' & Hall).
    apply list_elem_of_lookup_2 in Hq'. rewrite Forall_forall in Hall. rewrite Forall_forall in Hlt.
    rewrite (Hall x Hx). by apply Hlt. }
  rewrite Forall_forall in Hg. destruct (find f (order g)) as [x|] eqn:F.
  - intros [= ->] Hc' _. apply find_some in F as [Hin _]. apply list_elem_of_In in Hin. rewrite Ho in Hin.
    rewrite (Hg c Hin). destruct Hc' as [Hc'|Hc']; [by rewrite (Hg c' Hc')|]. specialize (Hrest c' Hc'). lia.
  - intros Hc [Hc'|Hc'] Hf; [|by apply IH].
    apply find_none_Forall in F. rewrite Ho, Forall_forall in F. specialize (F c' Hc'). congruence.
Qed.

Definition lineup_graded (l : ProviderLineup) : Prop :=
  match l with Single _ => True | Multi m => graded (lineup_providers m) end.

Lemma get_or_create_indices name st : indices (get_or_create_provider_connection name st).2.2 = indices st.2.
Proof. destruct st as [connections p]. unfold get_or_create_provider_connection. by case_match. Qed.

Lemma provider_inputs_indices cfg st : indices (provider_inputs cfg st).2.2 = indices st.2.
Proof.
  unfold provider_inputs. pose proof (get_or_create_indices (input_name cfg) st) as E.
  destruct (get_or_create_provider_connection _ _) as [x st1]. cbn in E. rewrite <- E.
  change st1 with ([provider_config_new cfg x], st1).2 at 2. generalize ([provider_config_new cfg x], st1). clear.
  induction (default [] (get_enabled_aliases cfg)) as [|a aliases IH]; intros inputs; cbn [foldl]; [done|].
  rewrite IH. unfold push_alias. pose proof (get_or_create_indices (alias_name a) inputs.2) as E.
  by destruct (get_or_create_provider_connection _ _).
Qed.

Lemma no_enabled_aliases cfg : has_enabled_aliases cfg = false → default [] (get_enabled_aliases cfg) = [].
Proof.
  unfold has_enabled_aliases, get_enabled_aliases. destruct (input_aliases cfg) as [aliases|]; [|done]. cbn.
  induction aliases as [|a aliases IH]; cbn; [done|]. intros [-> H]%orb_false_iff. by apply IH.
Qed.

Lemma create_lineup_spec cfg connections p l st' :
  create_lineup cfg (connections, p) = (l, st') →
  let inputs := provider_inputs cfg (connections, p) in
  st'.1 = inputs.2.1 ∧ st'.2 ≡ inputs.2.2 ∧ (indices_ok p → indices_ok st'.2) ∧ lineup_wf l ∧ lineup_graded l ∧
  (∀ c, c ∈ lineup_members l ↔ c ∈ inputs.1).
Proof.
  unfold create_lineup. pose proof (provider_inputs_indices cfg (connections, p)) as Hi. cbn in Hi.
  destruct (has_enabled_aliases cfg) eqn:E.
  - destruct (multi_lineup_new _ _) as [m st1] eqn:Em. intros [= <- <-].
    destruct (multi_lineup_new_spec _ _ _ _ _ Em) as (H1 & H2 & H3 & _ & Hwf & Hgr & Hm). split_and!; [done|done| |done|done|].
    + intros Hp. by apply H3, (indices_ok_same p).
    + intros c. cbn. unfold multi_members. change (group_members <$> ?x) with (map group_members x). rewrite Hm.
      apply sorted_groups_members.
  - unfold provider_inputs in *. rewrite no_enabled_aliases in * by done. cbn [foldl] in *.
    destruct (get_or_create_provider_connection _ _) as [x st1]. intros [= <- <-]. cbn in *.
    split_and!; [done|done|intros; by apply (indices_ok_same p)|done|done|done].
Qed.

(** ** Lemmas: fairness *)

(** Acquisitions from one group, one after the other. *)
Fixpoint acquire_series (clocks : list Clock) (g : ProviderPriorityGroup) (secs : Z) (excluded : gset string) (p : Pool)
    : list ProviderAllocation * Pool :=
  match clocks with
  | [] => ([], p)
  | clock :: clocks =>
      let '(a, p) := acquire_next_provider_from_group clock g false secs excluded p in
      let '(rest, p) := acquire_series clocks g secs excluded p in (a :: rest, p)
  end.

Lemma claim_other c c' p : connection c' ≠ connection c → guard_of c' (claim c p) = guard_of c' p.
Proof.
  intros Hne. pose proof (counter_at_store c (if is_unlimited c then guard_of c p else set_grace None (guard_of c p))
    (wrapping_add64 (current_connections (if is_unlimited c then guard_of c p else set_grace None (guard_of c p))) 1) (connection c') p) as E.
  rewrite decide_False in E by done. exact E.
Qed.

Lemma rotate_nonempty {A} s (l : list A) x rest : rotate s l = x :: rest → l ≠ [].
Proof. intros E ->. apply (f_equal length) in E. by rewrite length_rotate in E. Qed.

Lemma acquire_group_head clock secs excluded index pg p c rest :
  rotate (visiting index pg p) pg = c :: rest → indices_ok p → has_capacity clock excluded p c = true →
  ∃ p', acquire_next_provider_from_group clock (MultiProviderGroup index pg) false secs excluded p = (Available c, p') ∧
    p' ≡ claim c p ∧ indices_ok p' ∧ visiting index pg p' = ((visiting index pg p + 1) mod length pg)%nat.
Proof.
  intros Hrot Hp Hc. pose proof (rotate_nonempty _ _ _ _ Hrot) as Hne. cbn [acquire_next_provider_from_group].
  unfold or_exhausted. rewrite round_robin_seek; [|intros d q r q'; rewrite try_no_grace; case_match; by intros [= <- <-]|done|apply Hp].
  rewrite Hrot. cbn [seek]. rewrite try_no_grace. set (p0 := index_store _ _ _).
  change (has_capacity clock excluded p0 c) with (has_capacity clock excluded p c). rewrite Hc. cbn.
  eexists. split; [done|]. split; [done|]. assert (length pg ≠ 0%nat) by (destruct pg; [done|cbn; lia]).
  rewrite Nat.add_0_r. split.
  - apply indices_ok_store; [lia|]. apply (indices_ok_same p0); [done|]. apply indices_ok_store; [apply Z.mod_pos_bound; lia|done].
  - unfold visiting at 1. rewrite index_load_store, decide_True by done. unfold len.
    rewrite <- Nat2Z.inj_mod, Nat2Z.id, Nat.Div0.mod_mod. done.
Qed.

Lemma rotate_next {A} s (l : list A) x rest :
  l ≠ [] → rotate s l = x :: rest → rotate ((s + 1) mod length l) l = rest ++ [x].
Proof.
  intros Hne Hrot. assert (length l ≠ 0%nat) as Hn by (destruct l; [done|cbn; lia]).
  assert (length l = S (length rest)) as Hlen by (rewrite <- (length_rotate l s), Hrot; done).
  apply list_eq. intros i. destruct (decide (i < length l)%nat) as [Hi|Hi]; cycle 1.
  { rewrite !lookup_ge_None_2; [done|rewrite length_app; cbn; lia|rewrite length_rotate; lia]. }
  rewrite lookup_rotate_r by done. unfold rotate_nat_add.
  rewrite Nat2Z.inj_mod, Zplus_mod_idemp_l, <- Nat2Z.inj_add, <- Nat2Z.inj_mod, Nat2Z.id.
  assert (∀ j, (j < length l)%nat → (x :: rest) !! j = l !! ((s + j) mod length l)%nat) as Hl.
  { intros j Hj. rewrite <- Hrot, lookup_rotate_r by done. unfold rotate_nat_add.
    by rewrite <- Nat2Z.inj_add, <- Nat2Z.inj_mod, Nat2Z.id. }
  destruct (decide (i < length rest)%nat) as [Hr|Hr].
  - rewrite lookup_app_l by done. specialize (Hl (S i) ltac:(lia)). change ((x :: rest) !! S i) with (rest !! i) in Hl. rewrite Hl.
    do 2 f_equal. lia.
  - assert (i = length rest) as -> by lia. rewrite lookup_app_r, Nat.sub_diag by lia.
    specialize (Hl 0%nat ltac:(lia)). change ((x :: rest) !! 0%nat) with ([x] !! 0%nat) in Hl.
    rewrite Hl, Nat.add_0_r. f_equal.
    replace (s + 1 + length rest)%nat with (s + 1 * length l)%nat by lia. apply Nat.Div0.mod_add.
Qed.

Lemma acquire_series_rotates secs excluded index pg : ∀ todo done clocks p,
  rotate (visiting index pg p) pg = todo ++ done → indices_ok p → NoDup (map connection todo) →
  length clocks = length todo →
  (∀ clock c, clock ∈ clocks → c ∈ todo → has_capacity clock excluded p c = true) →
  (acquire_series clocks (MultiProviderGroup index pg) secs excluded p).1 = map Available todo.
Proof.
  induction todo as [|c todo IH]; intros did clocks p Hrot Hp Hnd Hlen Hcap; destruct clocks as [|clock clocks]; try done.
  cbn [acquire_series map]. cbn [app] in Hrot.
  destruct (acquire_group_head clock secs excluded index pg p c (todo ++ did) Hrot Hp (Hcap clock c ltac:(by left) ltac:(by left)))
    as (p' & -> & Hp' & Hok & Hv).
  pose proof (rotate_nonempty _ _ _ _ Hrot) as Hne. apply NoDup_cons in Hnd as [Hnin Hnd].
  specialize (IH (did ++ [c]) clocks p'). destruct (acquire_series clocks _ _ _ p') as [as' p'']. cbn in *. f_equal.
  apply IH; [|done|done|by injection Hlen|].
  - rewrite Hv. rewrite (rotate_next _ _ _ _ Hne Hrot). by rewrite app_assoc.
  - intros clock' c' Hk Hc'. rewrite (has_capacity_proper clock' excluded p' _ Hp' c' c' eq_refl).
    unfold has_capacity, get_current_connections. rewrite claim_other.
    + apply (Hcap clock' c'); by right.
    + intros E. apply Hnin. rewrite <- E. by apply list_elem_of_fmap_2.
Qed.

(** ** Theorems *)

(** C23: a request for a connection of an input is served by a provider that is
    neither excluded nor expired.  When one has a free connection, such a
    provider of the best priority serves it; otherwise, with grace, one of the
    best priority that stands at its limit; the request is refused only when
    there is none.  One connection of the chosen provider is claimed and
    announced, and nothing else changes but the round-robin positions. *)
Theorem acquire_serves_best clock cfg connections p0 l st' with_grace secs excluded p :
  create_lineup cfg (connections, p0) = (l, st') → indices_ok p →
  let '(a, p') := acquire_excluding clock l with_grace secs excluded p in
  match a with
  | Available c =>
      c ∈ lineup_members l ∧ has_capacity clock excluded p c = true ∧ p' ≡ claim c p ∧
      ∀ c', c' ∈ lineup_members l → has_capacity clock excluded p c' = true → priority c ≤ priority c'
  | GracePeriod c =>
      with_grace = true ∧ Forall (λ c', has_capacity clock excluded p c' = false) (lineup_members l) ∧
      c ∈ lineup_members l ∧ has_grace clock secs excluded p c = true ∧ p' ≡ claim_grace clock c p ∧
      ∀ c', c' ∈ lineup_members l → has_grace clock secs excluded p c' = true → priority c ≤ priority c'
  | Exhausted =>
      Forall (λ c, has_capacity clock excluded p c = false) (lineup_members l) ∧ p' ≡ p ∧
      (with_grace = true → Forall (λ c, has_grace clock secs excluded p c = false) (lineup_members l))
  end.
Proof.
  intros Hl Hp. destruct (create_lineup_spec _ _ _ _ _ Hl) as (_ & _ & _ & Hwf & Hgr & _).
  destruct (acquire_excluding_choice clock secs excluded l with_grace p Hwf Hp) as (Ha & He & _).
  destruct (acquire_excluding _ _ _ _ _ _) as [a p']. cbn [fst snd] in *. subst a. unfold chosen in *.
  destruct (find _ (lineup_scan_order p l)) as [c|] eqn:F; cbn [fst snd] in *.
  - pose proof (find_some _ _ F) as [Hin Hc]. apply list_elem_of_In in Hin. rewrite lineup_scan_perm in Hin.
    split_and!; [done|done|done|]. intros c' Hc'. destruct l as [d|m]; cbn in *;
      [apply list_elem_of_singleton in Hc', Hin; subst; lia|].
    eapply find_graded; [apply (scan_order_perm p)|done|done|done].
  - apply find_none_Forall in F. rewrite lineup_scan_perm in F. destruct with_grace; [|by split_and!].
    destruct (find _ (lineup_members l)) as [c|] eqn:G; cbn [fst snd] in *.
    + pose proof (find_some _ _ G) as [Hin Hc]. apply list_elem_of_In in Hin. split_and!; try done.
      intros c' Hc'. destruct l as [d|m]; cbn in *;
      [apply list_elem_of_singleton in Hc', Hin; subst; lia|].
      by eapply (find_graded _ group_members).
    + apply find_none_Forall in G. by split_and!.
Qed.

(** C36: connections rotate: while every member of a priority group has a free
    connection, as many acquisitions as it has members use each member once, in
    turn from where the group last stopped. *)
Theorem round_robin_fair secs excluded index pg clocks p :
  indices_ok p → NoDup (map connection pg) → length clocks = length pg →
  (∀ clock c, clock ∈ clocks → c ∈ pg → has_capacity clock excluded p c = true) →
  (acquire_series clocks (MultiProviderGroup index pg) secs excluded p).1
  = map Available (rotate (visiting index pg p) pg).
Proof.
  intros Hp Hnd Hlen Hcap. assert (rotate (visiting index pg p) pg ≡ₚ pg) as Hperm
    by apply (scan_order_perm p (MultiProviderGroup index pg)).
  apply (acquire_series_rotates _ _ _ _ _ []); [by rewrite app_nil_r|done| |by rewrite length_rotate|].
  - change (map connection) with (fmap (M := list) connection) in *. by rewrite Hperm.
  - intros clock c Hk Hc. rewrite Hperm in Hc. by apply Hcap.
Qed.

(** *** Witnesses *)

Definition example_alias (name : string) (prio max : Z) : ConfigInputAlias :=
  {| alias_id := 2; alias_name := name; alias_url := "http://alias"; alias_username := None; alias_password := None;
     alias_priority := prio; alias_max_connections := max; alias_exp_date := None; alias_enabled := true |}.

Definition example_input : ConfigInput :=
  {| input_id := 1; input_name := "main"; input_type := Xtream; input_url := "http://main"; input_username := None;
     input_password := None; input_enabled := true;
     input_aliases := Some [example_alias "backup" 5 1; example_alias "twin" 0 1]; input_priority := 0;
     input_max_connections := 1; input_exp_date := None; panel_api_enabled := false |}.

Definition example_built : ProviderLineup * (registry * Pool) := create_lineup example_input (∅, empty_pool).
Definition example_lineup : ProviderLineup := example_built.1.
Definition example_pool : Pool := example_built.2.2.

Lemma example_indices_ok : indices_ok example_pool.
Proof.
  intros i. unfold index_load. assert (indices example_pool = {[ 0 := 0 ]}) as -> by (vm_compute; reflexivity).
  destruct (decide (i = 0)) as [->|]; [by rewrite lookup_singleton_eq|by rewrite lookup_singleton_ne].
Qed.

Definition example_backup : ProviderConfig := provider_config_new_alias example_input (example_alias "backup" 5 1) 1.

Lemma acquire_serves_best_witness :
  ∃ p', acquire_excluding example_clock example_lineup true 10 {["main"; "twin"]} example_pool
        = (Available example_backup, p') ∧ p' ≡ claim example_backup example_pool ∧
    has_capacity example_clock {["main"; "twin"]} example_pool example_backup = true.
Proof.
  pose proof (acquire_serves_best example_clock example_input ∅ empty_pool example_lineup example_built.2 true 10
    {["main"; "twin"]} example_pool (surjective_pairing _) example_indices_ok) as T.
  assert ((acquire_excluding example_clock example_lineup true 10 {["main"; "twin"]} example_pool).1
          = Available example_backup) as E by (vm_compute; reflexivity).
  destruct (acquire_excluding _ _ _ _ _ _) as [a p']. cbn [fst] in E. subst a. destruct T as (_ & Hc & Hp & _).
  by exists p'.
Defined.

Definition example_group : list ProviderConfig :=
  [example_config "a" 1 0; example_config "b" 2 1; example_config "c" 0 2].

Lemma round_robin_fair_witness :
  (acquire_series [example_clock; example_clock; example_clock] (MultiProviderGroup 0 example_group) 10 ∅
     {| counters := ∅; indices := {[ 0 := 2 ]}; events := [] |}).1
  = [Available (example_config "c" 0 2); Available (example_config "a" 1 0); Available (example_config "b" 2 1)].
Proof.
  etrans; [apply (round_robin_fair 10 ∅ 0 example_group [example_clock; example_clock; example_clock]
    {| counters := ∅; indices := {[ 0 := 2 ]}; events := [] |})|vm_compute; reflexivity].
  - intros i. unfold index_load. cbn. destruct (decide (i = 0)) as [->|Hi]; [by rewrite lookup_singleton_eq|].
    by rewrite lookup_singleton_ne.
  - apply (bool_decide_unpack (NoDup _)). vm_compute. exact I.
  - reflexivity.
  - intros clock c Hk Hc. set_unfold in Hk. set_unfold in Hc. by destruct Hk as [->|[->|[->|[]]]], Hc as [->|[->|[->|[]]]].
Defined.
