(* ===== verification/ProviderManager.v ===== *)
(** * The provider lineup manager

    Models [ProviderLineupManager] of
    backend/session/src/provider_lineup_manager.rs: the lineups of the current
    configuration, the registry that gives every provider name one connection
    counter across reconfigurations, acquisition with its reports, and
    reconciliation of the counters with the streams that really run.
    [sanitize_sensitive_info], which masks credentials in reported names, is a
    parameter.  Iteration over a [DashMap] or [HashMap] is in key order. *)

From S2P Require Import Prelude ProviderPool ProviderLineup.
From stdpp Require Import gmap.

#[local] Open Scope Z_scope.

Record GracePeriodOptions := { period_millis : Z; timeout_secs : Z; hold_stream : bool }.

Record ProviderLineupManager := {
  grace_period_millis : Z;
  grace_period_timeout_secs : Z;
  snapshot_inputs : list ConfigInput;
  snapshot_providers : list ProviderLineup;
  provider_connections : registry;
  served_priority_group : gmap string Z;
  pool : Pool;
}.

Definition with_pool (m : ProviderLineupManager) (p : Pool) : ProviderLineupManager :=
  {| grace_period_millis := grace_period_millis m; grace_period_timeout_secs := grace_period_timeout_secs m;
     snapshot_inputs := snapshot_inputs m; snapshot_providers := snapshot_providers m;
     provider_connections := provider_connections m; served_priority_group := served_priority_group m; pool := p |}.

(** ** Configuration *)

Definition push_lineup (st : list ProviderLineup * (registry * Pool)) (input : ConfigInput)
    : list ProviderLineup * (registry * Pool) :=
  let '(l, st') := create_lineup input st.2 in (st.1 ++ [l], st').

Definition create_lineups (inputs : list ConfigInput) (st : registry * Pool) : list ProviderLineup * (registry * Pool) :=
  foldl push_lineup ([], st) inputs.

Definition manager_new (inputs : list ConfigInput) (options : GracePeriodOptions) : ProviderLineupManager :=
  let '(lineups, (connections, p)) := create_lineups inputs (∅, empty_pool) in
  {| grace_period_millis := period_millis options; grace_period_timeout_secs := timeout_secs options;
     snapshot_inputs := inputs; snapshot_providers := lineups; provider_connections := connections;
     served_priority_group := ∅; pool := p |}.

Definition aliases_differ (a b : ConfigInputAlias) : bool :=
  negb (alias_max_connections a =? alias_max_connections b)
  || negb (Bool.eqb (alias_enabled a) (alias_enabled b))
  || negb (alias_priority a =? alias_priority b)
  || negb (bool_decide (alias_username a = alias_username b))
  || negb (bool_decide (alias_password a = alias_password b))
  || negb (bool_decide (alias_url a = alias_url b))
  || negb (bool_decide (alias_exp_date a = alias_exp_date b)).

Definition alias_changed (a_aliases : list ConfigInputAlias) (b_alias : ConfigInputAlias) : bool :=
  match find (λ a, bool_decide (alias_name a = alias_name b_alias)) a_aliases with
  | None => true
  | Some a_alias => aliases_differ a_alias b_alias
  end.

Definition inputs_differ (a b : ConfigInput) : bool :=
  if negb (Bool.eqb (input_enabled a) (input_enabled b))
     || negb (input_max_connections a =? input_max_connections b)
     || negb (input_priority a =? input_priority b)
     || negb (bool_decide (input_type a = input_type b))
     || negb (bool_decide (input_username a = input_username b))
     || negb (bool_decide (input_password a = input_password b))
     || negb (bool_decide (input_url a = input_url b))
     || negb (bool_decide (input_exp_date a = input_exp_date b))
  then true else
  match input_aliases a, input_aliases b with
  | None, None => false
  | Some _, None | None, Some _ => true
  | Some a_aliases, Some b_aliases =>
      negb (len a_aliases =? len b_aliases) || existsb (alias_changed a_aliases) b_aliases
  end.

Definition input_changed (old_inputs : list ConfigInput) (new_input : ConfigInput) : bool :=
  match find (λ i, bool_decide (input_name i = input_name new_input)) old_inputs with
  | None => true
  | Some old_input => inputs_differ old_input new_input
  end.

Definition has_changed (m : ProviderLineupManager) (new_inputs : list ConfigInput) : bool :=
  negb (len (snapshot_inputs m) =? len new_inputs) || existsb (input_changed (snapshot_inputs m)) new_inputs.

Definition update_config (m : ProviderLineupManager) (new_inputs : list ConfigInput) (options : GracePeriodOptions)
    : ProviderLineupManager :=
  if negb (has_changed m new_inputs) then
    {| grace_period_millis := period_millis options; grace_period_timeout_secs := timeout_secs options;
       snapshot_inputs := snapshot_inputs m; snapshot_providers := snapshot_providers m;
       provider_connections := provider_connections m; served_priority_group := served_priority_group m; pool := pool m |}
  else
    let '(lineups, (connections, p)) := create_lineups new_inputs (provider_connections m, pool m) in
    {| grace_period_millis := period_millis options; grace_period_timeout_secs := timeout_secs options;
       snapshot_inputs := new_inputs; snapshot_providers := lineups; provider_connections := connections;
       served_priority_group := served_priority_group m; pool := p |}.

(** ** Reconciliation *)

Definition store_counter (x : Z) (g : ProviderConfigConnection) (p : Pool) : Pool :=
  {| counters := <[x := g]> (counters p); indices := indices p; events := events p |}.

(** A registered provider takes the count of its streams. *)
Definition sync_connection (counts : gmap string Z) (p : Pool) (entry : string * Z) : Pool :=
  let '(name, x) := entry in
  let count := default 0 (counts !! name) in
  let conn := default connection_default (counters p !! x) in
  store_counter x {| current_connections := count;
                     grace_started_at := if count =? 0 then None else grace_started_at conn |} p.

(** A provider that is not registered yet is entered with its count. *)
Definition add_connection (st : registry * Pool) (entry : string * Z) : registry * Pool :=
  let '(name, count) := entry in
  let '(x, (connections, p)) := get_or_create_provider_connection name st in
  let conn := default connection_default (counters p !! x) in
  (connections, store_counter x {| current_connections := count; grace_started_at := grace_started_at conn |} p).

Definition broadcast (p : Pool) (entry : string * Z) : Pool :=
  send_event (ActiveProvider entry.1 (current_connections (default connection_default (counters p !! entry.2)))) p.

Definition lineup_names (l : ProviderLineup) : list string :=
  match l with Single c => [config_name c] | Multi m => lineup_name m :: map config_name (multi_members m) end.

Definition current_names (m : ProviderLineupManager) : gset string :=
  list_to_set (mjoin (lineup_names <$> snapshot_providers m)).

(** [referenced x]: a configuration outside the current lineups, held by a
    stream, still refers to the counter at [x] ([Arc::strong_count > 1]). *)
Definition reconcile_connections (m : ProviderLineupManager) (counts : gmap string Z) (referenced : Z → bool)
    : ProviderLineupManager :=
  let p := foldl (sync_connection counts) (pool m) (map_to_list (provider_connections m)) in
  let remaining := filter (λ e, provider_connections m !! e.1 = None) (map_to_list counts) in
  let '(connections, p) := foldl add_connection (provider_connections m, p) remaining in
  let p := foldl broadcast p (map_to_list connections) in
  {| grace_period_millis := grace_period_millis m; grace_period_timeout_secs := grace_period_timeout_secs m;
     snapshot_inputs := snapshot_inputs m; snapshot_providers := snapshot_providers m;
     provider_connections := filter (λ e, e.1 ∈ current_names m ∨ referenced e.2 = true) connections;
     served_priority_group := served_priority_group m; pool := p |}.

(** ** Lookup *)

Definition lineup_provider (name : string) (l : ProviderLineup) : option (ProviderLineup * ProviderConfig) :=
  (λ c, (l, c)) <$> find (λ c, bool_decide (config_name c = name)) (lineup_members l).

Fixpoint get_provider_config_by_name (name : string) (providers : list ProviderLineup)
    : option (ProviderLineup * ProviderConfig) :=
  match providers with
  | [] => None
  | l :: providers =>
      match lineup_provider name l with Some r => Some r | None => get_provider_config_by_name name providers end
  end.

Definition find_provider_config (m : ProviderLineupManager) (provider_name : string) : option ProviderConfig :=
  snd <$> get_provider_config_by_name provider_name (snapshot_providers m).

Definition provider_names_for_input (m : ProviderLineupManager) (input_name : string) : list string :=
  match get_provider_config_by_name input_name (snapshot_providers m) with
  | Some (l, _) => provider_names l
  | None => []
  end.

Definition provider_capacity (m : ProviderLineupManager) (provider_name : string) : option (Z * Z) :=
  '(_, cfg) ← get_provider_config_by_name provider_name (snapshot_providers m);
  Some (get_current_connections cfg (pool m), max_connections cfg).

Definition manager_is_over_limit (m : ProviderLineupManager) (provider_name : string) : bool * ProviderLineupManager :=
  match get_provider_config_by_name provider_name (snapshot_providers m) with
  | Some (_, config) => let '(b, p) := is_over_limit config (pool m) in (b, with_pool m p)
  | None => (false, m)
  end.

Definition manager_is_exhausted (m : ProviderLineupManager) (provider_name : string) : bool :=
  match get_provider_config_by_name provider_name (snapshot_providers m) with
  | Some (_, config) => is_exhausted config (pool m)
  | None => false
  end.

Definition reservation_blocks_other_sessions (m : ProviderLineupManager) (provider_name : string) : bool :=
  match get_provider_config_by_name provider_name (snapshot_providers m) with
  | Some (_, config) => 0 <? max_connections config
  | None => true
  end.

Definition is_provider_for_input (m : ProviderLineupManager) (provider_name input_name : string) : bool :=
  match get_provider_config_by_name provider_name (snapshot_providers m) with
  | Some (Single _, _) => bool_decide (input_name = provider_name)
  | Some (Multi l, _) => bool_decide (lineup_name l = input_name)
  | None => false
  end.

(** The name under which a lineup is counted, and its connections. *)
Definition lineup_connections (p : Pool) (l : ProviderLineup) : string * Z :=
  match l with
  | Single c => (config_name c, get_current_connections c p)
  | Multi m => (lineup_name m, get_total_connections m p)
  end.

Definition active_connections (m : ProviderLineupManager) : option (gmap string Z) :=
  let result := foldl (λ result l, let '(name, count) := lineup_connections (pool m) l in
                                   if 0 <? count then <[name := count]> result else result)
                      ∅ (snapshot_providers m) in
  if bool_decide (result = ∅) then None else Some result.

Definition active_connection_count (m : ProviderLineupManager) : Z :=
  foldl (λ count l, wrapping_add64 count (lineup_connections (pool m) l).2) 0 (snapshot_providers m).

(** ** Acquisition *)

Definition acquire_exact_connection_with_grace_override (clock : Clock) (m : ProviderLineupManager)
    (provider_name : string) (allow_grace : bool) : ProviderAllocation * ProviderLineupManager :=
  let with_grace := allow_grace && (0 <? grace_period_millis m) in
  match get_provider_config_by_name provider_name (snapshot_providers m) with
  | None => (Exhausted, m)
  | Some (_, config) =>
      let '(a, p) := try_allocate clock config with_grace (grace_period_timeout_secs m) (pool m) in (a, with_pool m p)
  end.

Definition get_next_provider (clock : Clock) (m : ProviderLineupManager) (input_name : string)
    : option ProviderConfig * ProviderLineupManager :=
  match get_provider_config_by_name input_name (snapshot_providers m) with
  | None => (None, m)
  | Some (l, _) => let '(c, p) := lineup_get_next clock l (grace_period_timeout_secs m) (pool m) in (c, with_pool m p)
  end.

Section Reports.
Context (sanitize_sensitive_info : string → string).

Definition provider_snapshot_entry (clock : Clock) (p : Pool) (cfg : ProviderConfig) : ProviderPoolEntry :=
  {| entry_name := sanitize_sensitive_info (config_name cfg); entry_current_connections := get_current_connections cfg p;
     entry_max_connections := max_connections cfg; entry_expired := is_input_expired (exp_date cfg) clock |}.

Definition report_exhausted_pool (clock : Clock) (m : ProviderLineupManager) (input_name : string) (l : ProviderLineup)
    : ProviderLineupManager :=
  let entries := map (provider_snapshot_entry clock (pool m)) (lineup_members l) in
  with_pool m (send_event (ProviderPoolExhausted (sanitize_sensitive_info input_name) entries) (pool m)).

Definition report_priority_group (m : ProviderLineupManager) (input_name provider : string) (index count : Z)
    : ProviderLineupManager :=
  let previous := served_priority_group m !! input_name in
  let m' := {| grace_period_millis := grace_period_millis m; grace_period_timeout_secs := grace_period_timeout_secs m;
               snapshot_inputs := snapshot_inputs m; snapshot_providers := snapshot_providers m;
               provider_connections := provider_connections m;
               served_priority_group := <[input_name := index]> (served_priority_group m); pool := pool m |} in
  if bool_decide (previous = Some index) then m' else
  with_pool m' (send_event (ProviderPriorityFallback (sanitize_sensitive_info input_name)
                              (sanitize_sensitive_info provider) index count previous) (pool m')).

Definition acquire_connection_with_grace_override_excluding (clock : Clock) (m : ProviderLineupManager)
    (input_name : string) (allow_grace : bool) (excluded_providers : gset string)
    : ProviderAllocation * ProviderLineupManager :=
  let with_grace := allow_grace && (0 <? grace_period_millis m) in
  match get_provider_config_by_name input_name (snapshot_providers m) with
  | None => (Exhausted, m)
  | Some (l, _) =>
      let '(allocation, p) := acquire_excluding clock l with_grace (grace_period_timeout_secs m) excluded_providers (pool m) in
      let m := with_pool m p in
      match allocation_provider allocation with
      | None => (allocation, report_exhausted_pool clock m input_name l)
      | Some provider =>
          match priority_group_of l (config_name provider) with
          | Some (index, count) => (allocation, report_priority_group m input_name (config_name provider) index count)
          | None => (allocation, m)
          end
      end
  end.

Definition acquire_connection_with_grace_override (clock : Clock) (m : ProviderLineupManager) (input_name : string)
    (allow_grace : bool) : ProviderAllocation * ProviderLineupManager :=
  acquire_connection_with_grace_override_excluding clock m input_name allow_grace ∅.
End Reports.
