(* ===== verification/ProviderAccounting.v ===== *)
(** * Accounting of provider connections

    The manager of [ProviderManager] together with the connections its clients
    hold: every sequence of acquisitions, releases, probes, reconfigurations and
    reconciliations keeps one counter per provider name, and that counter is the
    number of connections held under the name. *)

From S2P Require Import Prelude ProviderPool ProviderLineup ProviderManager.
From stdpp Require Import gmap relations.

#[local] Open Scope Z_scope.

(** ** The registry *)

Record registry_wf (connections : registry) (p : Pool) : Prop := {
  rw_allocated n x : connections !! n = Some x → x ∈ dom (counters p);
  rw_injective n n' x : connections !! n = Some x → connections !! n' = Some x → n = n';
}.

(** A configuration uses the counter that is registered under its name. *)
Definition registered (connections : registry) (c : ProviderConfig) : Prop :=
  connections !! config_name c = Some (connection c).

(** [st'] extends [st]: new counters only, all at zero. *)
Record extends (st st' : registry * Pool) : Prop := {
  ex_registry : st.1 ⊆ st'.1;
  ex_counters : counters st.2 ⊆ counters st'.2;
  ex_new n x : st.1 !! n = None → st'.1 !! n = Some x → x ∉ dom (counters st.2);
  ex_fresh x : x ∉ dom (counters st.2) → counter_at x st'.2 = connection_default;
  ex_events : events st'.2 = events st.2;
  ex_wf : registry_wf st.1 st.2 → registry_wf st'.1 st'.2;
}.

Lemma counter_at_mono p p' x : counters p ⊆ counters p' → x ∈ dom (counters p) → counter_at x p' = counter_at x p.
Proof.
  intros Hsub [g Hg]%elem_of_dom. unfold counter_at. rewrite Hg. by erewrite lookup_weaken by eassumption.
Qed.

#[export] Instance extends_preorder : PreOrder extends.
Proof.
  split.
  - intros st. constructor; try done; [congruence|]. intros x Hx. unfold counter_at. by rewrite (not_elem_of_dom_1 _ _ Hx).
  - intros st1 st2 st3 [H1 H2 H6 H3 H4 H5] [K1 K2 K6 K3 K4 K5]. constructor; [by etrans|by etrans| | |congruence|tauto].
    { intros n x Hn Hx. destruct (st2.1 !! n) as [y|] eqn:Ey.
      - pose proof (lookup_weaken _ _ _ _ Ey K1). assert (y = x) as -> by congruence. by eapply H6.
      - intros Hd. apply (K6 n x Ey Hx). by apply (subseteq_dom _ _ H2). }
    intros x Hx. destruct (decide (x ∈ dom (counters st2.2))) as [Hx2|Hx2]; [|by apply K3].
    rewrite (counter_at_mono st2.2) by done. by apply H3.
Qed.

Lemma get_or_create_extends name st x st' :
  get_or_create_provider_connection name st = (x, st') → extends st st' ∧ st'.1 !! name = Some x.
Proof.
  destruct st as [connections p]. unfold get_or_create_provider_connection.
  destruct (connections !! name) as [y|] eqn:E; [by intros [= <- <-]|]. intros [= <- <-]. cbn [fst snd].
  set (y := fresh (dom (counters p))). assert (y ∉ dom (counters p)) as Hy by apply is_fresh.
  split; [|by rewrite lookup_insert_eq]. constructor; cbn [fst snd counters events].
  - by apply insert_subseteq.
  - apply insert_subseteq. by apply not_elem_of_dom.
  - intros n x Hn. destruct (decide (n = name)) as [->|]; [rewrite lookup_insert_eq; by intros [= <-]|].
    rewrite lookup_insert_ne by congruence. congruence.
  - intros x Hx. unfold counter_at. cbn [counters]. destruct (decide (x = y)) as [->|]; [by rewrite lookup_insert_eq|].
    rewrite lookup_insert_ne by congruence. by rewrite (not_elem_of_dom_1 _ _ Hx).
  - done.
  - intros [Ha Hi]. constructor; cbn [counters].
    + intros n x. rewrite dom_insert. destruct (decide (n = name)) as [->|].
      * rewrite lookup_insert_eq. intros [= <-]. by apply elem_of_union_l, elem_of_singleton.
      * rewrite lookup_insert_ne by congruence. intros Hn. apply elem_of_union_r. by eapply Ha.
    + intros n n' x. destruct (decide (n = name)) as [->|], (decide (n' = name)) as [->|]; try done;
        rewrite ?lookup_insert_eq, ?lookup_insert_ne by congruence.
      * intros [= <-] Hn. exfalso. apply Hy. by eapply Ha.
      * intros Hn [= <-]. exfalso. apply Hy. by eapply Ha.
      * apply Hi.
Qed.

Lemma registered_mono connections connections' c :
  connections ⊆ connections' → registered connections c → registered connections' c.
Proof. intros Hsub Hc. by eapply lookup_weaken. Qed.

Lemma push_aliases_extends cfg aliases : ∀ inputs,
  Forall (registered inputs.2.1) inputs.1 →
  let inputs' := foldl (push_alias cfg) inputs aliases in
  extends inputs.2 inputs'.2 ∧ Forall (registered inputs'.2.1) inputs'.1.
Proof.
  induction aliases as [|a aliases IH]; intros [cs st] Hcs; cbn [foldl]; [split; [reflexivity|done]|].
  cbn [fst snd] in *. destruct (get_or_create_provider_connection (alias_name a) st) as [x st1] eqn:E.
  assert (push_alias cfg (cs, st) a = (cs ++ [provider_config_new_alias cfg a x], st1)) as ->
    by (unfold push_alias; cbn [fst snd]; by rewrite E).
  destruct (get_or_create_extends _ _ _ _ E) as [Hext Hx].
  destruct (IH (cs ++ [provider_config_new_alias cfg a x], st1)) as [Hext' Hall].
  { apply Forall_app. split; [|by constructor]. eapply Forall_impl; [exact Hcs|]. intros c.
    apply registered_mono, Hext. }
  split; [by etrans|done].
Qed.

Lemma provider_inputs_extends cfg st :
  let inputs := provider_inputs cfg st in extends st inputs.2 ∧ Forall (registered inputs.2.1) inputs.1.
Proof.
  unfold provider_inputs. destruct (get_or_create_provider_connection _ st) as [x st1] eqn:E.
  destruct (get_or_create_extends _ _ _ _ E) as [Hext Hx].
  destruct (push_aliases_extends cfg (default [] (get_enabled_aliases cfg)) ([provider_config_new cfg x], st1)) as [H1 H2].
  { by constructor. }
  split; [by etrans|done].
Qed.

(** ** Lineups of the registry *)

Record lineup_ok (connections : registry) (l : ProviderLineup) : Prop := {
  lk_wf : lineup_wf l;
  lk_graded : lineup_graded l;
  lk_registered : Forall (registered connections) (lineup_members l);
}.

Lemma lineup_ok_mono connections connections' l :
  connections ⊆ connections' → lineup_ok connections l → lineup_ok connections' l.
Proof. intros Hsub [? ? H]. constructor; [done|done|]. eapply Forall_impl; [exact H|]. intros c. by apply registered_mono. Qed.

Lemma extends_equiv st st' p : extends st st' → p ≡ st'.2 → extends st (st'.1, p).
Proof.
  intros [H1 H2 H6 H3 H4 H5] [E1 E2]. constructor; cbn [fst snd]; [done|by rewrite E1|done| |congruence|].
  - intros x Hx. unfold counter_at. rewrite E1. by apply H3.
  - intros Hwf. destruct (H5 Hwf) as [Ha Hi]. constructor; [|done]. rewrite E1. done.
Qed.

Lemma create_lineup_extends cfg st l st' :
  create_lineup cfg st = (l, st') → extends st st' ∧ lineup_ok st'.1 l ∧ (indices_ok st.2 → indices_ok st'.2).
Proof.
  destruct st as [connections p]. intros E.
  destruct (create_lineup_spec _ _ _ _ _ E) as (H1 & H2 & H3 & Hwf & Hgr & Hm).
  destruct (provider_inputs_extends cfg (connections, p)) as [Hext Hreg]. split_and!; [| |done].
  - destruct st' as [connections' p']. cbn in H1, H2. subst connections'. by apply extends_equiv.
  - constructor; [done|done|]. rewrite H1. apply Forall_forall. intros c Hc. rewrite Forall_forall in Hreg.
    by apply Hreg, Hm.
Qed.

Lemma push_lineups_extends inputs : ∀ ls st,
  Forall (lineup_ok st.1) ls →
  let r := foldl push_lineup (ls, st) inputs in
  extends st r.2 ∧ Forall (lineup_ok r.2.1) r.1 ∧ (indices_ok st.2 → indices_ok r.2.2).
Proof.
  induction inputs as [|i inputs IH]; intros ls st Hls; cbn [foldl]; [split_and!; [reflexivity|done|done]|].
  destruct (create_lineup i st) as [l st1] eqn:E.
  assert (push_lineup (ls, st) i = (ls ++ [l], st1)) as -> by (unfold push_lineup; cbn [fst snd]; by rewrite E).
  destruct (create_lineup_extends _ _ _ _ E) as (Hext & Hl & Hi).
  destruct (IH (ls ++ [l]) st1) as (H1 & H2 & H3).
  { apply Forall_app. split; [|by constructor]. eapply Forall_impl; [exact Hls|]. intros l'. apply lineup_ok_mono, Hext. }
  split_and!; [by etrans|done|tauto].
Qed.

(** ** Lemmas: reconciliation *)

Lemma counter_at_store_counter x y g p :
  counter_at y (store_counter x g p) = if decide (y = x) then g else counter_at y p.
Proof.
  unfold counter_at, store_counter. cbn. case_decide as E; [subst; by rewrite lookup_insert_eq|].
  by rewrite lookup_insert_ne by congruence.
Qed.

Lemma dom_store_counter x g p : dom (counters p) ⊆ dom (counters (store_counter x g p)).
Proof. unfold store_counter. cbn. rewrite dom_insert_L. apply union_subseteq_r. Qed.

(** The counter of a provider that runs [count] streams. *)
Definition synced (count : Z) (g : ProviderConfigConnection) : ProviderConfigConnection :=
  {| current_connections := count; grace_started_at := if count =? 0 then None else grace_started_at g |}.

Record same_frame (p p' : Pool) : Prop := {
  sf_dom : dom (counters p) ⊆ dom (counters p');
  sf_indices : indices p' = indices p;
  sf_events : events p' = events p;
}.

#[export] Instance same_frame_preorder : PreOrder same_frame.
Proof. split; [by constructor|]. intros ??? [] []. constructor; [by etrans|congruence|congruence]. Qed.

Lemma sync_all counts es : ∀ p,
  NoDup (map snd es) →
  let p' := foldl (sync_connection counts) p es in
  same_frame p p' ∧
  (∀ n x, (n, x) ∈ es → counter_at x p' = synced (default 0 (counts !! n)) (counter_at x p)) ∧
  (∀ x, x ∉ map snd es → counter_at x p' = counter_at x p).
Proof.
  induction es as [|[n x] es IH]; intros p Hnd; cbn [foldl map] in *.
  { split_and!; [reflexivity|by intros n x ?%not_elem_of_nil|done]. }
  apply NoDup_cons in Hnd as [Hx Hnd]. set (p1 := sync_connection counts p (n, x)).
  assert (∀ y, counter_at y p1 = if decide (y = x) then synced (default 0 (counts !! n)) (counter_at x p) else counter_at y p) as E1
    by (intros y; apply counter_at_store_counter).
  destruct (IH p1 Hnd) as (Hf & Hin & Hout). split_and!.
  - etrans; [|exact Hf]. constructor; [apply dom_store_counter|done|done].
  - intros n' x' [[= -> ->]|Hin']%elem_of_cons.
    + rewrite Hout by done. rewrite E1. by rewrite decide_True.
    + rewrite (Hin n' x' Hin'), E1, decide_False; [done|]. intros ->. apply Hx. apply list_elem_of_fmap. by exists (n', x).
  - intros y [Hy Hy']%not_elem_of_cons. rewrite Hout by done. rewrite E1. by rewrite decide_False.
Qed.

Lemma add_all es : ∀ connections p,
  NoDup (map fst es) → registry_wf connections p → (∀ n c, (n, c) ∈ es → connections !! n = None) →
  let st' := foldl add_connection (connections, p) es in
  same_frame p st'.2 ∧ connections ⊆ st'.1 ∧ registry_wf st'.1 st'.2 ∧
  (∀ n, is_Some (st'.1 !! n) ↔ is_Some (connections !! n) ∨ n ∈ map fst es) ∧
  (∀ x, x ∈ dom (counters p) → counter_at x st'.2 = counter_at x p) ∧
  (∀ n c, (n, c) ∈ es → ∃ x, st'.1 !! n = Some x ∧
     counter_at x st'.2 = {| current_connections := c; grace_started_at := None |}).
Proof.
  induction es as [|[n c] es IH]; intros connections p Hnd Hwf Hnew; cbn [foldl map] in *.
  { split_and!; [reflexivity|done|done| |done|by intros n c ?%not_elem_of_nil].
    intros n. split; [by left|]. intros [?|?%not_elem_of_nil]; done. }
  apply NoDup_cons in Hnd as [Hn Hnd]. pose proof (Hnew n c ltac:(by left)) as Hnone.
  destruct (get_or_create_provider_connection n (connections, p)) as [x st1] eqn:E.
  destruct (get_or_create_extends _ _ _ _ E) as [Hext Hx]. destruct st1 as [connections1 p1]. cbn [fst snd] in *.
  pose proof E as E0. unfold get_or_create_provider_connection in E. rewrite Hnone in E. injection E as Ex Ec Ep.
  rewrite Ex in Ec, Ep.
  assert (x ∉ dom (counters p)) as Hfresh by (rewrite <- Ex; apply is_fresh).
  set (p2 := store_counter x {| current_connections := c; grace_started_at := None |} p1).
  assert (add_connection (connections, p) (n, c) = (connections1, p2)) as ->.
  { unfold add_connection. rewrite E0. subst p2. rewrite <- Ep. cbn [counters]. by rewrite lookup_insert_eq. }
  destruct (ex_wf _ _ Hext Hwf) as [Ha Hi]. cbn [fst snd] in *.
  assert (registry_wf connections1 p2) as Hwf2 by (constructor; [intros m y Hm; by eapply dom_store_counter, Ha|done]).
  destruct (IH connections1 p2 Hnd Hwf2) as (Hf & Hsub & Hwf' & Hdom & Hold & Hes).
  { intros n' c' Hin. rewrite <- Ec. rewrite lookup_insert_ne; [by eapply Hnew; right|].
    intros ->. apply Hn. apply list_elem_of_fmap. by exists (n', c'). }
  assert (dom (counters p) ⊆ dom (counters p1)) as Hd1 by (apply subseteq_dom, Hext).
  split_and!.
  - etrans; [|exact Hf]. constructor; [etrans; [exact Hd1|apply dom_store_counter]|unfold p2; cbn; by rewrite <- Ep|apply Hext].
  - etrans; [apply Hext|done].
  - done.
  - intros m. rewrite Hdom, elem_of_cons. rewrite <- Ec. destruct (decide (m = n)) as [->|Hm].
    + rewrite lookup_insert_eq. split; [by right; left|]. intros _. left. done.
    + rewrite lookup_insert_ne by congruence. tauto.
  - intros y Hy. rewrite Hold by (apply dom_store_counter, Hd1, Hy). unfold p2. rewrite counter_at_store_counter, decide_False by congruence.
    apply counter_at_mono; [apply Hext|done].
  - intros m k [[= -> ->]|Hin]%elem_of_cons; [|by apply Hes]. exists x. split; [by eapply lookup_weaken|].
    rewrite Hold; [unfold p2; by rewrite counter_at_store_counter, decide_True|].
    unfold p2, store_counter. cbn [counters]. rewrite dom_insert. by apply elem_of_union_l, elem_of_singleton.
Qed.

Lemma broadcast_all es : ∀ p,
  NoDup (map fst es) →
  let p' := foldl broadcast p es in
  counters p' = counters p ∧ indices p' = indices p ∧
  (∀ n x, (n, x) ∈ es → announced n (events p') = Some (current_connections (counter_at x p))) ∧
  (∀ n, n ∉ map fst es → announced n (events p') = announced n (events p)).
Proof.
  induction es as [|[n x] es IH]; intros p Hnd; cbn [foldl map] in *.
  { split_and!; [done|done|by intros n x ?%not_elem_of_nil|done]. }
  apply NoDup_cons in Hnd as [Hn Hnd]. destruct (IH (broadcast p (n, x)) Hnd) as (Hc & Hi & Hin & Hout). split_and!; [done|done| |].
  - intros n' x' [[= -> ->]|Hin']%elem_of_cons; [|by apply Hin].
    rewrite Hout by done. cbn. by rewrite decide_True.
  - intros n' [Hne Hn']%not_elem_of_cons. rewrite Hout by done. cbn. by rewrite decide_False.
Qed.

Lemma registry_addresses_nodup connections p : registry_wf connections p → NoDup (map snd (map_to_list connections)).
Proof.
  intros [_ Hi]. apply NoDup_fmap_2_strong; [|apply NoDup_map_to_list].
  intros [n x] [n' x'] Hn Hn' Ex. cbn in Ex. subst x'. apply elem_of_map_to_list in Hn, Hn'. by rewrite (Hi _ _ _ Hn Hn').
Qed.

(** Reconciliation before stale entries are purged. *)
Lemma reconcile_spec m counts referenced :
  registry_wf (provider_connections m) (pool m) →
  let m' := reconcile_connections m counts referenced in
  ∃ connections,
    provider_connections m' = filter (λ e, e.1 ∈ current_names m ∨ referenced e.2 = true) connections ∧
    snapshot_providers m' = snapshot_providers m ∧
    provider_connections m ⊆ connections ∧ registry_wf connections (pool m') ∧
    (∀ n, is_Some (connections !! n) ↔ is_Some (provider_connections m !! n) ∨ is_Some (counts !! n)) ∧
    (∀ n x, connections !! n = Some x →
       current_connections (counter_at x (pool m')) = default 0 (counts !! n) ∧
       (default 0 (counts !! n) = 0 → grace_started_at (counter_at x (pool m')) = None) ∧
       announced n (events (pool m')) = Some (default 0 (counts !! n))) ∧
    (∀ n, connections !! n = None → announced n (events (pool m')) = announced n (events (pool m))) ∧
    indices (pool m') = indices (pool m).
Proof.
  intros Hwf. unfold reconcile_connections.
  destruct (sync_all counts (map_to_list (provider_connections m)) (pool m) (registry_addresses_nodup _ _ Hwf)) as (Hf1 & Hin1 & _).
  set (p1 := foldl (sync_connection counts) (pool m) (map_to_list (provider_connections m))) in *.
  set (remaining := filter (λ e, provider_connections m !! e.1 = None) (map_to_list counts)).
  assert (registry_wf (provider_connections m) p1) as Hwf1.
  { destruct Hwf as [Ha Hi]. constructor; [|done]. intros n x Hn. by eapply (sf_dom _ _ Hf1), Ha. }
  assert (NoDup (map fst remaining)) as Hnd.
  { apply NoDup_fmap_2_strong; [|apply NoDup_filter, NoDup_map_to_list]. intros [n c] [n' c'] Hn Hn' En. cbn in En. subst n'.
    apply list_elem_of_filter in Hn as [_ Hn], Hn' as [_ Hn']. apply elem_of_map_to_list in Hn, Hn'. congruence. }
  destruct (add_all remaining (provider_connections m) p1 Hnd Hwf1) as (Hf2 & Hsub & Hwf2 & Hdom & Hold & Hnew).
  { intros n c Hn. by apply list_elem_of_filter in Hn as [? _]. }
  destruct (foldl add_connection _ remaining) as [connections p2]. cbn [fst snd] in *.
  destruct (broadcast_all (map_to_list connections) p2 (NoDup_fst_map_to_list _)) as (Hc & Hi & Hann & Hquiet).
  set (p3 := foldl broadcast p2 (map_to_list connections)) in *. exists connections. cbn [pool provider_connections snapshot_providers].
  assert (∀ x, counter_at x p3 = counter_at x p2) as E3 by (intros x; unfold counter_at; by rewrite Hc).
  assert (∀ n, is_Some (connections !! n) ↔ is_Some (provider_connections m !! n) ∨ is_Some (counts !! n)) as Hdom'.
  { intros n. rewrite Hdom. destruct (provider_connections m !! n) as [x|] eqn:En; [split; left; done|].
    split; (intros [[? ?]|H]; [done|]; right).
    - apply list_elem_of_fmap in H as ([n' c] & -> & Hn). apply list_elem_of_filter in Hn as [_ Hn].
      apply elem_of_map_to_list in Hn. by eexists.
    - destruct H as [c Hn]. apply list_elem_of_fmap. exists (n, c). split; [done|].
      apply list_elem_of_filter. split; [done|]. by apply elem_of_map_to_list. }
  split_and!; [done|done|done| |done| | |].
  - destruct Hwf2 as [Ha Hinj]. constructor; [|done]. rewrite Hc. done.
  - intros n x Hn. rewrite (Hann n x) by by apply elem_of_map_to_list. rewrite E3.
    destruct (provider_connections m !! n) as [y|] eqn:En.
    + pose proof (lookup_weaken _ _ _ _ En Hsub). assert (y = x) as -> by congruence.
      rewrite Hold by (eapply (rw_allocated _ _ Hwf1); done). rewrite (Hin1 n x) by by apply elem_of_map_to_list.
      unfold synced. cbn. split_and!; [done| |done]. intros ->. done.
    + assert (is_Some (counts !! n)) as [c Ec].
      { destruct (proj1 (Hdom' n)) as [[? ?]|?]; [by eexists|congruence|done]. }
      destruct (Hnew n c) as (y & Ey & Hy).
      { apply list_elem_of_filter. split; [done|]. by apply elem_of_map_to_list. }
      assert (y = x) as -> by congruence. rewrite Hy, Ec. done.
  - intros n Hn. rewrite Hquiet, (sf_events _ _ Hf2), (sf_events _ _ Hf1); [done|].
    intros ([n' x] & -> & Hin)%list_elem_of_fmap. apply elem_of_map_to_list in Hin. cbn in Hn. congruence.
  - rewrite Hi, (sf_indices _ _ Hf2). apply Hf1.
Qed.

(** ** Effects on the pool *)

(** Claiming a connection of [o], or none. *)
Record pool_step (o : option ProviderConfig) (p p' : Pool) : Prop := {
  ps_dom : dom (counters p) ⊆ dom (counters p');
  ps_indices : indices_ok p → indices_ok p';
  ps_counts x : current_connections (counter_at x p')
    = match o with
      | Some c => if decide (x = connection c) then wrapping_add64 (current_connections (counter_at x p)) 1
                  else current_connections (counter_at x p)
      | None => current_connections (counter_at x p)
      end;
  ps_events n : announced n (events p')
    = match o with
      | Some c => if decide (n = config_name c) then Some (wrapping_add64 (get_current_connections c p) 1)
                  else announced n (events p)
      | None => announced n (events p)
      end;
}.

#[export] Instance pool_step_preorder : PreOrder (pool_step None).
Proof.
  split; [by constructor|]. intros p1 p2 p3 [A1 A2 A3 A4] [B1 B2 B3 B4].
  constructor; [by etrans|tauto|intros; by rewrite B3|intros; by rewrite B4].
Qed.

Lemma pool_step_none_r o p p1 p2 : pool_step o p p1 → pool_step None p1 p2 → pool_step o p p2.
Proof.
  intros [A1 A2 A3 A4] [B1 B2 B3 B4]. constructor; [by etrans|tauto|intros; by rewrite B3|intros; by rewrite B4].
Qed.

Lemma pool_step_equiv o p p1 p2 : pool_step o p p1 → p2 ≡ p1 → (indices_ok p → indices_ok p2) → pool_step o p p2.
Proof.
  intros [A1 A2 A3 A4] [E1 E2] Hi. constructor; [by rewrite E1|done| |intros; by rewrite E2].
  intros x. unfold counter_at at 1. rewrite E1. apply A3.
Qed.

Lemma index_store_step i v p : 0 ≤ v → pool_step None p (index_store i v p).
Proof. intros Hv. constructor; [done|intros; by apply indices_ok_store|done|done]. Qed.

Lemma write_guard_step c g p :
  current_connections g = get_current_connections c p → pool_step None p (write_guard c g p).
Proof.
  intros Hg. constructor.
  - cbn. rewrite dom_insert_L. apply union_subseteq_r.
  - intros Hi. by apply (indices_ok_same p).
  - intros x. rewrite counter_at_write. case_decide as E; [|done]. by subst.
  - done.
Qed.

Lemma increment_step c g p :
  current_connections g = get_current_connections c p → pool_step (Some c) p (increment_connections c g p).
Proof.
  intros Hg. constructor.
  - cbn. rewrite dom_insert_L. apply union_subseteq_r.
  - intros Hi. by apply (indices_ok_same p).
  - intros x. unfold increment_connections. rewrite counter_at_store. case_decide as E; [|done]. cbn. rewrite Hg. by subst.
  - intros n. cbn. rewrite Hg. case_decide as E; case_decide as E'; congruence.
Qed.

Lemma claim_step c p : pool_step (Some c) p (claim c p).
Proof. apply increment_step. by destruct (is_unlimited c). Qed.

Lemma claim_grace_step clock c p : pool_step (Some c) p (claim_grace clock c p).
Proof. by apply increment_step. Qed.

Lemma send_report_step e p :
  match e with ActiveProvider _ _ => False | _ => True end → pool_step None p (send_event e p).
Proof. intros He. constructor; [done| |done|]; [intros Hi; by apply (indices_ok_same p)|]. intros n. by destruct e. Qed.

(** *** Probing *)

Lemma wrapper_get_next_step clock c grace secs p : pool_step None p (wrapper_get_next clock c grace secs p).2.
Proof.
  unfold wrapper_get_next, config_get_next. repeat case_match; simplify_eq/=; try reflexivity; by apply write_guard_step.
Qed.

Lemma is_over_limit_step c p : pool_step None p (is_over_limit c p).2.
Proof.
  unfold is_over_limit. case_match; [reflexivity|]. cbn [snd]. apply write_guard_step. by case_match.
Qed.

Section Probes.
Context {A : Type} (attempt : ProviderConfig → Pool → A * Pool) (failed : A → bool).
Hypothesis attempt_step : ∀ c p, pool_step None p (attempt c p).2.

Lemma cycle_step fuel index pg start : ∀ idx p, pool_step None p (cycle attempt failed fuel index pg start idx p).2.
Proof.
  induction fuel as [|fuel IH]; intros idx p; cbn [cycle]; [reflexivity|].
  destruct (pg !! Z.to_nat idx) as [c|] eqn:Ec; [|reflexivity]. pose proof (attempt_step c p) as Hs.
  assert (0 < len pg) as Hn by (unfold len; apply lookup_lt_Some in Ec; lia).
  destruct (attempt c p) as [r p1]. cbn [snd] in Hs. pose proof (Z.mod_pos_bound (idx + 1) (len pg) Hn).
  repeat case_match; (etrans; [exact Hs|]); try apply index_store_step; try lia. apply IH.
Qed.

Lemma round_robin_step index pg p : pool_step None p (round_robin attempt failed index pg p).2.
Proof. unfold round_robin. etrans; [|apply cycle_step]. apply index_store_step, Z.mod_pos_bound. lia. Qed.

Lemma first_group_step (visit : ProviderPriorityGroup → Pool → A * Pool) none groups : ∀ p,
  (∀ g p, pool_step None p (visit g p).2) → pool_step None p (first_group visit failed none groups p).2.
Proof.
  induction groups as [|g groups IH]; intros p Hv; cbn [first_group]; [reflexivity|].
  pose proof (Hv g p) as Hs. destruct (visit g p) as [r p1]. case_match; [done|]. etrans; [exact Hs|]. by apply IH.
Qed.
End Probes.

Lemma get_next_group_step clock grace secs g p : pool_step None p (get_next_provider_from_group clock g grace secs p).2.
Proof.
  destruct g as [c|index pg]; cbn [get_next_provider_from_group]; [apply wrapper_get_next_step|].
  pose proof (round_robin_step (λ c, wrapper_get_next clock c grace secs) (λ r, bool_decide (r = None))
    (λ c p, wrapper_get_next_step clock c grace secs p) index pg p) as Hs.
  by destruct (round_robin _ _ _ _ _).
Qed.

Lemma lineup_get_next_step clock l secs p : pool_step None p (lineup_get_next clock l secs p).2.
Proof.
  destruct l as [c|m]; cbn [lineup_get_next]; [apply wrapper_get_next_step|]. unfold multi_get_next.
  assert (∀ grace p, pool_step None p (first_group (λ g, get_next_provider_from_group clock g grace secs)
    (λ r, bool_decide (r = None)) None (lineup_providers m) p).2) as Hs.
  { intros grace q. apply first_group_step. intros. apply get_next_group_step. }
  pose proof (Hs false p) as H1. destruct (first_group _ _ _ _ _) as [r p1]. case_match; [|done].
  etrans; [exact H1|apply Hs].
Qed.

(** *** Acquiring *)

Lemma try_allocate_step clock c grace secs p :
  let '(a, p') := try_allocate clock c grace secs p in
  pool_step (allocation_provider a) p p' ∧ (∀ c', allocation_provider a = Some c' → c' = c).
Proof.
  pose proof (try_grace clock secs ∅ c p) as Hg. pose proof (try_no_grace clock secs ∅ c p) as Hn.
  unfold try_unless_excluded in *. rewrite bool_decide_eq_false_2 in Hg, Hn by set_solver.
  destruct grace; [rewrite Hg|rewrite Hn]; repeat case_match; simplify_eq/=; (split; [|congruence]); try reflexivity;
    first [apply claim_step|apply claim_grace_step].
Qed.

Lemma acquire_excluding_step clock l with_grace secs excluded p :
  lineup_wf l → indices_ok p →
  let '(a, p') := acquire_excluding clock l with_grace secs excluded p in
  pool_step (allocation_provider a) p p' ∧ (∀ c, allocation_provider a = Some c → c ∈ lineup_members l).
Proof.
  intros Hl Hp. destruct (acquire_excluding_choice clock secs excluded l with_grace p Hl Hp) as (Ha & He & Hi).
  destruct (acquire_excluding _ _ _ _ _ _) as [a p']. cbn [fst snd] in *. subst a. unfold chosen in *.
  destruct (find _ (lineup_scan_order p l)) as [c|] eqn:F; cbn [fst snd allocation_provider] in *.
  - split; [by eapply pool_step_equiv; [apply claim_step|done|]|]. intros ? [= <-].
    apply find_some in F as [Hin _]. apply list_elem_of_In in Hin. by rewrite lineup_scan_perm in Hin.
  - destruct (if with_grace then _ else _) as [c|] eqn:G; cbn [fst snd allocation_provider] in *.
    + split; [by eapply pool_step_equiv; [apply claim_grace_step|done|]|]. intros ? [= <-].
      destruct with_grace; [|done]. apply find_some in G as [Hin _]. by apply list_elem_of_In.
    + split; [by eapply pool_step_equiv; [reflexivity|done|]|done].
Qed.

(** ** The system: a manager and the connections its clients hold *)

Abbreviation system := (ProviderLineupManager * list ProviderConfig)%type.

Definition holding (x : Z) (handles : list ProviderConfig) : Z :=
  Z.of_nat (length (filter (λ c, connection c = x) handles)).

Definition holding_name (name : string) (handles : list ProviderConfig) : Z :=
  Z.of_nat (length (filter (λ c, config_name c = name) handles)).

Section System.
Context (sanitize_sensitive_info : string → string).

(** Reconciliation is given the true counts, and sees the references that held
    connections keep; there are never 2^64 connections. *)
Inductive system_step : system → system → Prop :=
| StepAcquire clock m hs input allow_grace excluded a m' :
    Z.of_nat (length hs) < 2 ^ 64 - 1 →
    acquire_connection_with_grace_override_excluding sanitize_sensitive_info clock m input allow_grace excluded = (a, m') →
    system_step (m, hs) (m', option_list (allocation_provider a) ++ hs)
| StepAcquireExact clock m hs provider allow_grace a m' :
    Z.of_nat (length hs) < 2 ^ 64 - 1 →
    acquire_exact_connection_with_grace_override clock m provider allow_grace = (a, m') →
    system_step (m, hs) (m', option_list (allocation_provider a) ++ hs)
| StepRelease m hs1 c hs2 :
    system_step (m, hs1 ++ c :: hs2) (with_pool m (config_release c (pool m)), hs1 ++ hs2)
| StepNext clock m hs input c m' :
    get_next_provider clock m input = (c, m') → system_step (m, hs) (m', hs)
| StepOverLimit m hs provider b m' :
    manager_is_over_limit m provider = (b, m') → system_step (m, hs) (m', hs)
| StepUpdate m hs inputs options :
    system_step (m, hs) (update_config m inputs options, hs)
| StepReconcile m hs counts referenced :
    (∀ n, default 0 (counts !! n) = holding_name n hs) → (∀ c, c ∈ hs → referenced (connection c) = true) →
    system_step (m, hs) (reconcile_connections m counts referenced, hs).

(** Every configuration in use counts on the counter registered under its name;
    a counter is the number of connections held on it, and the newest number
    announced for a provider is the number held under its name. *)
Record accounted (s : system) : Prop := {
  ac_registry : registry_wf (provider_connections s.1) (pool s.1);
  ac_indices : indices_ok (pool s.1);
  ac_lineups : Forall (lineup_ok (provider_connections s.1)) (snapshot_providers s.1);
  ac_handles : Forall (registered (provider_connections s.1)) s.2;
  ac_counts n x : provider_connections s.1 !! n = Some x → current_connections (counter_at x (pool s.1)) = holding x s.2;
  ac_events n : default 0 (announced n (events (pool s.1))) = holding_name n s.2;
}.

(** *** Counting *)

Lemma holding_app x hs hs' : holding x (hs ++ hs') = holding x hs + holding x hs'.
Proof. unfold holding. rewrite filter_app, length_app. lia. Qed.
Lemma holding_name_app n hs hs' : holding_name n (hs ++ hs') = holding_name n hs + holding_name n hs'.
Proof. unfold holding_name. rewrite filter_app, length_app. lia. Qed.
Lemma holding_one x c : holding x [c] = if decide (x = connection c) then 1 else 0.
Proof. unfold holding. rewrite filter_cons, filter_nil. do 2 case_decide; congruence || done. Qed.
Lemma holding_name_one n c : holding_name n [c] = if decide (n = config_name c) then 1 else 0.
Proof. unfold holding_name. rewrite filter_cons, filter_nil. do 2 case_decide; congruence || done. Qed.
Lemma holding_le x hs : 0 ≤ holding x hs ≤ Z.of_nat (length hs).
Proof. unfold holding. pose proof (length_filter (λ c, connection c = x) hs). lia. Qed.

(** Under the registry, holding a counter is holding its name. *)
Lemma holding_registered connections p hs n x :
  registry_wf connections p → Forall (registered connections) hs → connections !! n = Some x →
  holding x hs = holding_name n hs.
Proof.
  intros [_ Hinj] Hhs Hx. induction Hhs as [|c hs Hc Hhs IH]; [done|].
  change (c :: hs) with ([c] ++ hs). rewrite holding_app, holding_name_app, IH, holding_one, holding_name_one.
  f_equal. do 2 case_decide; [done| | |done]; exfalso; unfold registered in Hc; subst.
  - by apply (Hinj _ _ _ Hx) in Hc.
  - congruence.
Qed.

(** *** Claims and probes *)

Lemma accounted_pool_step m hs m' o :
  accounted (m, hs) → pool_step o (pool m) (pool m') →
  provider_connections m' = provider_connections m → snapshot_providers m' = snapshot_providers m →
  (∀ c, o = Some c → registered (provider_connections m) c) → Z.of_nat (length hs) < 2 ^ 64 - 1 ∨ o = None →
  accounted (m', option_list o ++ hs).
Proof.
  intros [Hr Hi Hl Hh Hc He] Hs Ep El Ho Hb. cbn [fst snd] in *.
  assert (∀ c, o = Some c → get_current_connections c (pool m) = holding (connection c) hs ∧
            wrapping_add64 (holding (connection c) hs) 1 = holding (connection c) hs + 1) as Hcount.
  { intros c ->. split; [by apply (Hc (config_name c)), Ho|]. pose proof (holding_le (connection c) hs).
    unfold wrapping_add64. apply Z.mod_small. destruct Hb; [lia|done]. }
  constructor; cbn [fst snd]; rewrite ?Ep, ?El.
  - destruct Hr as [Ha Hinj]. constructor; [|done]. intros n x Hn. by eapply (ps_dom _ _ _ Hs), Ha.
  - by apply (ps_indices _ _ _ Hs).
  - done.
  - destruct o as [c|]; [|done]. constructor; [by apply Ho|done].
  - intros n x Hx. rewrite (ps_counts _ _ _ Hs), (Hc n x Hx). destruct o as [c|]; [|done].
    change (option_list (Some c) ++ hs) with ([c] ++ hs). rewrite holding_app, holding_one. case_decide as E; [|lia]. subst.
    destruct (Hcount c eq_refl) as [_ ->]. lia.
  - intros n. rewrite (ps_events _ _ _ Hs). destruct o as [c|]; [|by rewrite He].
    change (option_list (Some c) ++ hs) with ([c] ++ hs). rewrite holding_name_app, holding_name_one. case_decide as E; [|by rewrite He].
    cbn. destruct (Hcount c eq_refl) as [-> ->]. subst. specialize (Ho c eq_refl).
    rewrite (holding_registered _ _ _ _ _ Hr Hh Ho). lia.
Qed.

Lemma provider_by_name_lineup name providers l c :
  get_provider_config_by_name name providers = Some (l, c) → l ∈ providers ∧ c ∈ lineup_members l ∧ config_name c = name.
Proof.
  induction providers as [|l' providers IH]; cbn; [done|].
  unfold lineup_provider. destruct (find _ (lineup_members l')) as [c'|] eqn:F; cbn.
  - intros [= <- <-]. apply find_some in F as [Hin Hn]. apply bool_decide_eq_true in Hn. apply list_elem_of_In in Hin.
    split_and!; [by left|done|done].
  - intros H. destruct (IH H) as (? & ? & ?). split_and!; [by right|done|done].
Qed.

Lemma accounted_lineup m hs l : accounted (m, hs) → l ∈ snapshot_providers m → lineup_ok (provider_connections m) l.
Proof. intros [_ _ Hl _ _ _] Hin. rewrite Forall_forall in Hl. by apply Hl. Qed.

Lemma accounted_acquire clock m hs input allow_grace excluded a m' :
  accounted (m, hs) → Z.of_nat (length hs) < 2 ^ 64 - 1 →
  acquire_connection_with_grace_override_excluding sanitize_sensitive_info clock m input allow_grace excluded = (a, m') →
  accounted (m', option_list (allocation_provider a) ++ hs).
Proof.
  intros Hac Hb. unfold acquire_connection_with_grace_override_excluding.
  destruct (get_provider_config_by_name input _) as [[l cfg]|] eqn:E; [|by intros [= <- <-]].
  apply provider_by_name_lineup in E as (Hl & _ & _). pose proof (accounted_lineup _ _ _ Hac Hl) as [Hwf _ Hreg].
  pose proof (acquire_excluding_step clock l (allow_grace && (0 <? grace_period_millis m)) (grace_period_timeout_secs m)
    excluded (pool m) Hwf (ac_indices _ Hac)) as Hs.
  destruct (acquire_excluding _ _ _ _ _ _) as [alloc p1]. destruct Hs as [Hs Hin]. rewrite Forall_forall in Hreg.
  assert (∀ c, allocation_provider alloc = Some c → registered (provider_connections m) c) as Ho by (intros c Hc; by apply Hreg, Hin).
  destruct (allocation_provider alloc) as [c|] eqn:Ea.
  - destruct (priority_group_of l (config_name c)) as [[index count]|]; intros [= <- <-]; rewrite Ea.
    + eapply accounted_pool_step; [exact Hac| | | |exact Ho|by left].
      * eapply pool_step_none_r; [exact Hs|]. unfold report_priority_group. case_match; [reflexivity|].
        by apply (send_report_step (ProviderPriorityFallback _ _ _ _ _) p1).
      * unfold report_priority_group. by case_match.
      * unfold report_priority_group. by case_match.
    + eapply accounted_pool_step; [exact Hac|exact Hs|done|done|exact Ho|by left].
  - intros [= <- <-]. rewrite Ea. eapply accounted_pool_step; [exact Hac| |done|done|exact Ho|by left].
    eapply pool_step_none_r; [exact Hs|]. by apply (send_report_step (ProviderPoolExhausted _ _) p1).
Qed.

Lemma accounted_acquire_exact clock m hs provider allow_grace a m' :
  accounted (m, hs) → Z.of_nat (length hs) < 2 ^ 64 - 1 →
  acquire_exact_connection_with_grace_override clock m provider allow_grace = (a, m') →
  accounted (m', option_list (allocation_provider a) ++ hs).
Proof.
  intros Hac Hb. unfold acquire_exact_connection_with_grace_override.
  destruct (get_provider_config_by_name provider _) as [[l cfg]|] eqn:E; [|by intros [= <- <-]].
  apply provider_by_name_lineup in E as (Hl & Hin & _). pose proof (accounted_lineup _ _ _ Hac Hl) as [_ _ Hreg].
  pose proof (try_allocate_step clock cfg (allow_grace && (0 <? grace_period_millis m)) (grace_period_timeout_secs m) (pool m)) as Hs.
  destruct (try_allocate _ _ _ _ _) as [alloc p1]. destruct Hs as [Hs Hc]. intros [= <- <-].
  rewrite Forall_forall in Hreg. eapply accounted_pool_step; [exact Hac|exact Hs|done|done| |by left].
  intros c' Hc'. rewrite (Hc c' Hc'). by apply Hreg.
Qed.

Lemma accounted_probe m hs p' :
  accounted (m, hs) → pool_step None (pool m) p' → accounted (with_pool m p', hs).
Proof. intros Hac Hs. by apply (accounted_pool_step m hs (with_pool m p') None Hac Hs eq_refl eq_refl); [|right]. Qed.

Lemma accounted_next clock m hs input c m' :
  accounted (m, hs) → get_next_provider clock m input = (c, m') → accounted (m', hs).
Proof.
  intros Hac. unfold get_next_provider. destruct (get_provider_config_by_name _ _) as [[l cfg]|]; [|by intros [= <- <-]].
  pose proof (lineup_get_next_step clock l (grace_period_timeout_secs m) (pool m)) as Hs.
  destruct (lineup_get_next _ _ _ _) as [r p1]. intros [= <- <-]. by apply accounted_probe.
Qed.

Lemma accounted_over_limit m hs provider b m' :
  accounted (m, hs) → manager_is_over_limit m provider = (b, m') → accounted (m', hs).
Proof.
  intros Hac. unfold manager_is_over_limit. destruct (get_provider_config_by_name _ _) as [[l cfg]|]; [|by intros [= <- <-]].
  pose proof (is_over_limit_step cfg (pool m)) as Hs. destruct (is_over_limit _ _) as [r p1]. intros [= <- <-].
  by apply accounted_probe.
Qed.

(** *** Releases *)

Lemma config_release_effect c p :
  0 < get_current_connections c p →
  let p' := config_release c p in
  dom (counters p) ⊆ dom (counters p') ∧ indices p' = indices p ∧
  (∀ x, current_connections (counter_at x p')
        = if decide (x = connection c) then current_connections (counter_at x p) - 1 else current_connections (counter_at x p)) ∧
  (∀ n, announced n (events p')
        = if decide (n = config_name c) then Some (get_current_connections c p - 1) else announced n (events p)).
Proof.
  unfold get_current_connections. intros Hpos. unfold config_release. set (g := if _ && _ then _ else _).
  assert (current_connections g = current_connections (guard_of c p)) as Eg by (unfold g; by case_match).
  rewrite Eg. replace (0 <? _) with true by lia. unfold decrement_connections. rewrite Eg.
  assert (saturating_sub (current_connections (guard_of c p)) 1 = current_connections (guard_of c p) - 1) as -> by (unfold saturating_sub; lia).
  cbv zeta. split_and!.
  - cbn. rewrite !dom_insert_L. etrans; [apply union_subseteq_r|apply union_subseteq_r].
  - done.
  - intros x. rewrite counter_at_store. case_decide as E; [by subst|]. by rewrite counter_at_write, decide_False.
  - intros n. cbn. do 2 case_decide; congruence.
Qed.

Lemma accounted_release m hs1 c hs2 :
  accounted (m, hs1 ++ c :: hs2) → accounted (with_pool m (config_release c (pool m)), hs1 ++ hs2).
Proof.
  intros [Hr Hi Hl Hh Hc He]. cbn [fst snd] in *.
  assert (registered (provider_connections m) c ∧ Forall (registered (provider_connections m)) (hs1 ++ hs2)) as [Hreg Hh'].
  { apply Forall_app in Hh as [H1 H2]. apply Forall_cons_1 in H2 as [H2 H3]. split; [done|]. by apply Forall_app. }
  assert (∀ x, holding x (hs1 ++ c :: hs2) = holding x (hs1 ++ hs2) + (if decide (x = connection c) then 1 else 0)) as Hx.
  { intros x. change (c :: hs2) with ([c] ++ hs2). rewrite !holding_app, holding_one. lia. }
  assert (∀ n, holding_name n (hs1 ++ c :: hs2) = holding_name n (hs1 ++ hs2) + (if decide (n = config_name c) then 1 else 0)) as Hn.
  { intros n. change (c :: hs2) with ([c] ++ hs2). rewrite !holding_name_app, holding_name_one. lia. }
  assert (get_current_connections c (pool m) = holding (connection c) (hs1 ++ hs2) + 1) as Hcur.
  { unfold get_current_connections. change (guard_of c (pool m)) with (counter_at (connection c) (pool m)).
    rewrite (Hc (config_name c)), Hx, decide_True by done. done. }
  pose proof (holding_le (connection c) (hs1 ++ hs2)).
  destruct (config_release_effect c (pool m) ltac:(lia)) as (Hd & Hix & Hcount & Hev).
  constructor; cbn [fst snd provider_connections pool snapshot_providers with_pool].
  - destruct Hr as [Ha Hinj]. constructor; [|done]. intros n x Hnx. by eapply Hd, Ha.
  - by apply (indices_ok_same (pool m)).
  - done.
  - done.
  - intros n x Hnx. rewrite Hcount, (Hc n x Hnx), Hx. case_decide; lia.
  - intros n. rewrite Hev. case_decide as E; cbn; [|by rewrite He, Hn, decide_False by done; lia].
    subst. rewrite Hcur, (holding_registered _ _ _ _ _ Hr Hh' Hreg). lia.
Qed.

(** *** Reconfiguration *)

Lemma unallocated_unheld connections p hs x :
  registry_wf connections p → Forall (registered connections) hs → x ∉ dom (counters p) → holding x hs = 0.
Proof.
  intros [Ha _] Hhs Hx. unfold holding. replace (filter _ hs) with (@nil ProviderConfig); [done|]. symmetry.
  apply elem_of_nil_inv. intros c [E Hc]%list_elem_of_filter. rewrite Forall_forall in Hhs. subst x. apply Hx.
  by eapply Ha, Hhs.
Qed.

Lemma accounted_create m hs inputs lineups connections p' :
  accounted (m, hs) → create_lineups inputs (provider_connections m, pool m) = (lineups, (connections, p')) →
  ∀ m', provider_connections m' = connections → snapshot_providers m' = lineups → pool m' = p' → accounted (m', hs).
Proof.
  intros [Hr Hi Hl Hh Hc He] E m' <- <- <-. cbn [fst snd] in *. unfold create_lineups in E.
  destruct (push_lineups_extends inputs [] (provider_connections m, pool m)) as (Hext & Hls & Hix); [done|].
  rewrite E in *. cbn [fst snd] in *. destruct Hext as [Hsub Hcs Hnew Hfresh Hev Hwf]. cbn [fst snd] in *.
  constructor; cbn [fst snd]; [tauto|tauto|done| | |by intros n; rewrite Hev].
  - eapply Forall_impl; [exact Hh|]. intros c. by apply registered_mono.
  - intros n x Hx. destruct (provider_connections m !! n) as [y|] eqn:Ey.
    + pose proof (lookup_weaken _ _ _ _ Ey Hsub). assert (y = x) as -> by congruence.
      rewrite (counter_at_mono (pool m)); [by eapply Hc|done|by eapply (rw_allocated _ _ Hr)].
    + pose proof (Hnew n x Ey Hx) as Hnd. rewrite Hfresh by done. by rewrite (unallocated_unheld _ _ _ _ Hr Hh).
Qed.

Lemma accounted_update m hs inputs options : accounted (m, hs) → accounted (update_config m inputs options, hs).
Proof.
  intros Hac. unfold update_config. destruct (negb _).
  - by destruct Hac; constructor.
  - destruct (create_lineups _ _) as [lineups [connections p']] eqn:E. by eapply accounted_create.
Qed.

Lemma accounted_new inputs options : accounted (manager_new inputs options, []).
Proof.
  unfold manager_new. destruct (create_lineups _ _) as [lineups [connections p']] eqn:E.
  set (m0 := Build_ProviderLineupManager 0 0 [] [] ∅ ∅ empty_pool).
  eapply (accounted_create m0); [|exact E|done|done|done]. constructor; cbn; try done.
Qed.

Lemma member_current_name m l c : l ∈ snapshot_providers m → c ∈ lineup_members l → config_name c ∈ current_names m.
Proof.
  intros Hl Hc. unfold current_names. apply elem_of_list_to_set, list_elem_of_join. exists (lineup_names l).
  split; [|by apply list_elem_of_fmap_2]. destruct l as [d|ml]; cbn in *.
  - apply list_elem_of_singleton in Hc as ->. by apply list_elem_of_singleton.
  - right. by apply list_elem_of_fmap_2.
Qed.

(** Reconciliation corrects the counters: connections [stale] that were counted
    and that nobody holds any more are forgotten. *)
Lemma accounted_reconcile_stale m hs stale counts referenced :
  accounted (m, hs ++ stale) → (∀ n, default 0 (counts !! n) = holding_name n hs) →
  (∀ c, c ∈ hs → referenced (connection c) = true) →
  accounted (reconcile_connections m counts referenced, hs).
Proof.
  intros [Hr Hi Hl Hh Hc He] Htrue Href. cbn [fst snd] in *. apply Forall_app in Hh as [Hh Hst].
  destruct (reconcile_spec m counts referenced Hr) as (connections & Ereg & Esnap & Hsub & Hwf & Hdom & Hcount & Hquiet & Hix).
  set (m' := reconcile_connections m counts referenced) in *.
  assert (∀ n x, provider_connections m' !! n = Some x → connections !! n = Some x) as Hfull
    by (intros n x; rewrite Ereg; intros [? _]%map_lookup_filter_Some; done).
  assert (∀ c, registered (provider_connections m) c → config_name c ∈ current_names m ∨ referenced (connection c) = true →
            registered (provider_connections m') c) as Hkeep.
  { intros c Hreg Hk. unfold registered. rewrite Ereg. apply map_lookup_filter_Some. split; [by eapply lookup_weaken|done]. }
  assert (Forall (registered connections) hs) as Hh'.
  { eapply Forall_impl; [exact Hh|]. intros c. by apply registered_mono. }
  constructor; cbn [fst snd].
  - destruct Hwf as [Ha Hinj]. constructor; [intros n x Hn; by eapply Ha, Hfull|intros n n' x Hn Hn'; by eapply Hinj; apply Hfull].
  - by apply (indices_ok_same (pool m)).
  - rewrite Esnap. apply Forall_forall. intros l Hin. rewrite Forall_forall in Hl. destruct (Hl l Hin) as [? ? Hm].
    constructor; [done|done|]. apply Forall_forall. intros c Hcin. rewrite Forall_forall in Hm.
    apply Hkeep; [by apply Hm|]. left. by eapply member_current_name.
  - apply Forall_forall. intros c Hcin. rewrite Forall_forall in Hh. apply Hkeep; [by apply Hh|]. right. by apply Href.
  - intros n x Hn%Hfull. destruct (Hcount n x Hn) as [-> _]. rewrite Htrue. symmetry. by eapply holding_registered.
  - intros n. destruct (connections !! n) as [x|] eqn:En.
    + destruct (Hcount n x En) as (_ & _ & ->). cbn. apply Htrue.
    + rewrite Hquiet, He, holding_name_app by done.
      assert (holding_name n stale = 0) as ->; [|lia]. unfold holding_name.
      destruct (filter _ stale) as [|c l] eqn:Ef; [done|].
      assert (c ∈ filter (λ c, config_name c = n) stale) as [Ecn Hin]%list_elem_of_filter by (rewrite Ef; by left).
      rewrite Forall_forall in Hst. apply Hst in Hin. unfold registered in Hin. rewrite Ecn in Hin.
      by rewrite (lookup_weaken _ _ _ _ Hin Hsub) in En.
Qed.

Lemma accounted_reconcile m hs counts referenced :
  accounted (m, hs) → (∀ n, default 0 (counts !! n) = holding_name n hs) →
  (∀ c, c ∈ hs → referenced (connection c) = true) →
  accounted (reconcile_connections m counts referenced, hs).
Proof. intros H. apply (accounted_reconcile_stale m hs []). by rewrite app_nil_r. Qed.

Lemma accounted_step s s' : system_step s s' → accounted s → accounted s'.
Proof.
  destruct 1; intros Hac; eauto using accounted_acquire, accounted_acquire_exact, accounted_release, accounted_next,
    accounted_over_limit, accounted_update, accounted_reconcile.
Qed.

Lemma accounted_reachable inputs options s : rtc system_step (manager_new inputs options, []) s → accounted s.
Proof.
  intros Hs. pose proof (accounted_new inputs options) as H0. remember (manager_new inputs options, []) as s0 eqn:E0.
  clear E0. induction Hs as [s0|s0 s1 s2 H01 H12 IH]; [done|]. by eapply IH, accounted_step.
Qed.
End System.

(** ** Lemmas: configurations that do not differ *)

(** The providers that an input describes, without their counters. *)
Definition described (cfg : ConfigInput) : list ProviderConfig :=
  provider_config_new cfg 0 :: map (λ a, provider_config_new_alias cfg a 0) (default [] (get_enabled_aliases cfg)).

(** What the comparison of configurations does not look at. *)
Record same_identity (a b : ConfigInput) : Prop := {
  si_id : input_id a = input_id b;
  si_panel : panel_api_enabled a = panel_api_enabled b;
  si_aliases x y : x ∈ default [] (input_aliases a) → y ∈ default [] (input_aliases b) →
    alias_name x = alias_name y → alias_id x = alias_id y;
}.

Lemma aliases_differ_false x y :
  alias_name x = alias_name y → alias_id x = alias_id y → aliases_differ x y = false → x = y.
Proof.
  unfold aliases_differ. rewrite !orb_false_iff, !negb_false_iff, !bool_decide_eq_true, !Z.eqb_eq, Bool.eqb_true_iff.
  destruct x, y; cbn. intros. destruct_and!. congruence.
Qed.

Lemma aliases_same_perm xs ys :
  (∀ x y, x ∈ xs → y ∈ ys → alias_name x = alias_name y → alias_id x = alias_id y) →
  NoDup ys → length xs = length ys → existsb (alias_changed xs) ys = false → xs ≡ₚ ys.
Proof.
  intros Hid Hnd Hlen Hex. symmetry. apply submseteq_length_Permutation; [|lia].
  apply NoDup_submseteq; [done|]. intros y Hy.
  assert (alias_changed xs y = false) as Hy'.
  { destruct (alias_changed xs y) eqn:E; [|done]. rewrite <- Hex. symmetry. apply existsb_exists. exists y.
    split; [by apply list_elem_of_In|done]. }
  unfold alias_changed in Hy'. destruct (find _ xs) as [x|] eqn:F; [|done].
  apply find_some in F as [Hin En]. apply bool_decide_eq_true in En. apply list_elem_of_In in Hin.
  rewrite <- (aliases_differ_false x y En (Hid x y Hin Hy En) Hy'). done.
Qed.

Lemma inputs_same_described a b :
  input_name a = input_name b → same_identity a b → NoDup (default [] (input_aliases b)) → inputs_differ a b = false →
  described a ≡ₚ described b.
Proof.
  intros Hn [Hid Hp Hal] Hnd. unfold inputs_differ. destruct (_ || _) eqn:E; [done|]. revert E.
  rewrite !orb_false_iff, !negb_false_iff, !bool_decide_eq_true, !Z.eqb_eq, Bool.eqb_true_iff. intros E Ha. destruct_and!.
  unfold described.
  assert (default [] (get_enabled_aliases a) ≡ₚ default [] (get_enabled_aliases b)) as Hperm.
  { unfold get_enabled_aliases. destruct (input_aliases a) as [xs|], (input_aliases b) as [ys|]; try done. cbn in *.
    apply orb_false_iff in Ha as [Hl Hex]. apply negb_false_iff, Z.eqb_eq in Hl. unfold len in Hl.
    assert (xs ≡ₚ ys) as Hxy by (apply aliases_same_perm; [done|done|lia|done]).
    assert (List.filter alias_enabled xs ≡ₚ List.filter alias_enabled ys) as Hf.
    { clear -Hxy. induction Hxy; cbn; repeat case_match; try done; [by constructor|by constructor|by etrans]. }
    destruct (List.filter alias_enabled xs) eqn:Ex, (List.filter alias_enabled ys) eqn:Ey; done. }
  assert (provider_config_new a 0 = provider_config_new b 0) as -> by (unfold provider_config_new; congruence).
  constructor. assert (∀ x, provider_config_new_alias a x 0 = provider_config_new_alias b x 0) as Hx
    by (intros x; unfold provider_config_new_alias; congruence).
  rewrite (map_ext _ _ Hx). by apply (Permutation_map (λ x, provider_config_new_alias b x 0)).
Qed.

(** ** Lemmas: switching the panel API *)

Definition enable_panel (i : ConfigInput) : ConfigInput :=
  {| input_id := input_id i; input_name := input_name i; input_type := input_type i; input_url := input_url i;
     input_username := input_username i; input_password := input_password i; input_enabled := input_enabled i;
     input_aliases := input_aliases i; input_priority := input_priority i; input_max_connections := input_max_connections i;
     input_exp_date := input_exp_date i; panel_api_enabled := true |}.

(** Inputs have distinct names, and so have the aliases of each input. *)
Definition uniquely_named (inputs : list ConfigInput) : Prop :=
  NoDup (map input_name inputs) ∧ Forall (λ i, NoDup (map alias_name (default [] (input_aliases i)))) inputs.

(** The lineups of the manager have the provider. *)
Definition offers (m : ProviderLineupManager) (c : ProviderConfig) : Prop :=
  ∃ l, l ∈ snapshot_providers m ∧ c ∈ lineup_members l.

Lemma find_unique {A} (name : A → string) (l : list A) x :
  NoDup (map name l) → x ∈ l → find (λ y, bool_decide (name y = name x)) l = Some x.
Proof.
  intros Hnd Hx. destruct (find _ l) as [y|] eqn:F.
  - apply find_some in F as [Hy E]. apply bool_decide_eq_true in E. apply list_elem_of_In in Hy. f_equal.
    apply list_elem_of_lookup in Hx as [i Hi]. apply list_elem_of_lookup in Hy as [j Hj].
    assert (i = j) as ->; [|congruence]. eapply (NoDup_lookup _ _ _ (name x) Hnd); rewrite list_lookup_fmap; [by rewrite Hi|by rewrite Hj; cbn; rewrite E].
  - apply find_none with (x := x) in F; [|by apply list_elem_of_In]. by rewrite bool_decide_true in F.
Qed.

Lemma enabled_not_differ i : NoDup (map alias_name (default [] (input_aliases i))) → inputs_differ i (enable_panel i) = false.
Proof.
  intros Hnd. unfold inputs_differ, enable_panel. cbn. rewrite !bool_decide_true, !Z.eqb_refl, Bool.eqb_reflx by done. cbn.
  destruct (input_aliases i) as [aliases|]; [|done]. rewrite Z.eqb_refl. cbn in *.
  destruct (existsb _ aliases) eqn:E; [|done]. apply existsb_exists in E as (a & Ha & E). apply list_elem_of_In in Ha.
  unfold alias_changed in E. rewrite (find_unique alias_name) in E by done. revert E. unfold aliases_differ.
  by rewrite !bool_decide_true, !Z.eqb_refl, Bool.eqb_reflx by done.
Qed.

Lemma enabled_unchanged m inputs :
  snapshot_inputs m = inputs → uniquely_named inputs → has_changed m (map enable_panel inputs) = false.
Proof.
  intros Es [Hn Ha]. unfold has_changed. rewrite Es. unfold len. rewrite length_map, Z.eqb_refl. cbn [negb orb].
  destruct (existsb _ _) eqn:E; [|done]. apply existsb_exists in E as (b & Hb & E). apply in_map_iff in Hb as (i & <- & Hi).
  apply list_elem_of_In in Hi. unfold input_changed in E. change (input_name (enable_panel i)) with (input_name i) in E.
  rewrite (find_unique input_name) in E by done. rewrite Forall_forall in Ha. by rewrite enabled_not_differ in E by (by apply Ha).
Qed.

Lemma manager_inputs inputs options : snapshot_inputs (manager_new inputs options) = inputs.
Proof. unfold manager_new. by destruct (create_lineups _ _) as [? [? ?]]. Qed.

Lemma updates_ignored inputs options options' n :
  uniquely_named inputs →
  let m := Nat.iter n (λ m, update_config m (map enable_panel inputs) options') (manager_new inputs options) in
  snapshot_providers m = snapshot_providers (manager_new inputs options) ∧ pool m = pool (manager_new inputs options) ∧
  snapshot_inputs m = inputs.
Proof.
  intros U. induction n as [|n (E1 & E2 & E3)]; cbn [Nat.iter nat_rect].
  { split_and!; [done|done|apply manager_inputs]. }
  cbv zeta. unfold update_config at 1 3 5. rewrite !(enabled_unchanged _ inputs) by done. by split_and!.
Qed.

Lemma provider_inputs_members cfg st :
  (∃ x, provider_config_new cfg x ∈ (provider_inputs cfg st).1) ∧
  ∀ c, c ∈ (provider_inputs cfg st).1 → ∃ x, c = provider_config_new cfg x ∨ ∃ a, c = provider_config_new_alias cfg a x.
Proof.
  unfold provider_inputs. destruct (get_or_create_provider_connection _ st) as [x st1].
  set (good := λ l : list ProviderConfig, (∃ x, provider_config_new cfg x ∈ l) ∧
    ∀ c, c ∈ l → ∃ x, c = provider_config_new cfg x ∨ ∃ a, c = provider_config_new_alias cfg a x).
  assert (good ([provider_config_new cfg x], st1).1) as H0.
  { split; [exists x; by left|]. intros c ->%list_elem_of_singleton. exists x. by left. }
  change (good (foldl (push_alias cfg) ([provider_config_new cfg x], st1) (default [] (get_enabled_aliases cfg))).1).
  revert H0. generalize ([provider_config_new cfg x], st1). induction (default [] _) as [|a aliases IH]; intros r H0; [done|]. cbn [foldl].
  apply IH. unfold push_alias. destruct (get_or_create_provider_connection _ r.2) as [y st2]. cbn [fst]. destruct H0 as [[z Hz] H0]. split.
  - exists z. apply elem_of_app. by left.
  - intros c [Hc| ->%list_elem_of_singleton]%elem_of_app; [by apply H0|]. exists y. right. by exists a.
Qed.

Lemma created_lineups inputs : ∀ ls st l,
  l ∈ (foldl push_lineup (ls, st) inputs).1 ↔ l ∈ ls ∨ ∃ k i, inputs !! k = Some i ∧
    l = (create_lineup i (foldl push_lineup (ls, st) (take k inputs)).2).1.
Proof.
  induction inputs as [|i inputs IH]; intros ls st l; cbn [foldl].
  { split; [by left|]. intros [?|(k & i & Hi & _)]; [done|]. by rewrite lookup_nil in Hi. }
  destruct (create_lineup i st) as [l1 st1] eqn:E.
  assert (push_lineup (ls, st) i = (ls ++ [l1], st1)) as Ep by (unfold push_lineup; cbn; by rewrite E).
  rewrite Ep, IH, elem_of_app, list_elem_of_singleton. split.
  - intros [[?| ->]|(k & j & Hj & El)]; [by left|right; exists 0%nat, i; cbn; by rewrite E|].
    right. exists (S k), j. cbn [take foldl]. by rewrite Ep.
  - intros [?|([|k] & j & Hj & El)]; [by left; left| |].
    + injection Hj as <-. cbn in El. rewrite E in El. left. by right.
    + right. exists k, j. cbn [take foldl] in El. by rewrite Ep in El.
Qed.

Lemma create_lineup_members i st c : c ∈ lineup_members (create_lineup i st).1 ↔ c ∈ (provider_inputs i st).1.
Proof.
  destruct st as [connections p]. destruct (create_lineup i (connections, p)) as [l st'] eqn:E.
  by destruct (create_lineup_spec _ _ _ _ _ E) as (_ & _ & _ & _ & _ & H).
Qed.

Lemma manager_lineups inputs options :
  snapshot_providers (manager_new inputs options) = (foldl push_lineup ([], (∅, empty_pool)) inputs).1.
Proof. unfold manager_new, create_lineups. by destruct (foldl push_lineup _ _) as [? [? ?]]. Qed.

Lemma input_offered inputs options i :
  i ∈ inputs → ∃ x l, l ∈ snapshot_providers (manager_new inputs options) ∧ provider_config_new i x ∈ lineup_members l.
Proof.
  intros [k Hk]%list_elem_of_lookup. destruct (provider_inputs_members i (foldl push_lineup ([], (∅, empty_pool)) (take k inputs)).2) as [[x Hx] _].
  exists x. eexists. rewrite manager_lineups. split; [apply created_lineups; right; by exists k, i|by apply create_lineup_members].
Qed.

Lemma offered_input inputs options l c :
  l ∈ snapshot_providers (manager_new inputs options) → c ∈ lineup_members l →
  ∃ i x, i ∈ inputs ∧ (c = provider_config_new i x ∨ ∃ a, c = provider_config_new_alias i a x).
Proof.
  rewrite manager_lineups. intros [?%not_elem_of_nil|(k & i & Hi & ->)]%created_lineups Hc; [done|].
  apply create_lineup_members, provider_inputs_members in Hc as [x Hx]. exists i, x. split; [by eapply list_elem_of_lookup_2|done].
Qed.

Lemma limited_by_panel n : (effective_max_connections true n =? 0) = false.
Proof. unfold effective_max_connections. cbn. destruct (Z.eqb_spec n 0); lia. Qed.

(** ** Theorems *)

(** A configuration of the current lineups, or one a client holds. *)
Definition in_use (m : ProviderLineupManager) (handles : list ProviderConfig) (c : ProviderConfig) : Prop :=
  c ∈ handles ∨ ∃ l, l ∈ snapshot_providers m ∧ c ∈ lineup_members l.

Lemma accounted_counts m handles :
  accounted (m, handles) →
  (∀ c, in_use m handles c →
     get_current_connections c (pool m) = holding_name (config_name c) handles ∧
     default 0 (announced (config_name c) (events (pool m))) = holding_name (config_name c) handles) ∧
  (∀ c c', in_use m handles c → in_use m handles c' → (config_name c = config_name c' ↔ connection c = connection c')).
Proof.
  intros Hs. pose proof Hs as [Hr _ Hl Hh Hc He]. cbn [fst snd] in *.
  assert (∀ c, in_use m handles c → registered (provider_connections m) c) as Hreg.
  { intros c [Hin|(l & Hin & Hcl)]; [rewrite Forall_forall in Hh; by apply Hh|].
    destruct (accounted_lineup _ _ _ Hs Hin) as [_ _ Hm]. rewrite Forall_forall in Hm. by apply Hm. }
  split.
  - intros c Hu%Hreg. split; [|apply He]. rewrite <- (holding_registered _ _ _ _ _ Hr Hh Hu). by eapply (Hc (config_name c)).
  - intros c c' Hu%Hreg Hu'%Hreg. unfold registered in *. split; intros E; [congruence|].
    rewrite <- E in Hu'. by apply (rw_injective _ _ Hr _ _ _ Hu Hu').
Qed.

(** C17: after any sequence of acquisitions, releases, probes, reconfigurations
    and reconciliations, however the configuration changed meanwhile, all
    configurations of a provider share one counter and different providers never
    do; the counter is the number of connections that clients hold of that
    provider, and that number is the one last announced. *)
Theorem connections_accounted sanitize inputs options m handles :
  rtc (system_step sanitize) (manager_new inputs options, []) (m, handles) →
  (∀ c, in_use m handles c →
     get_current_connections c (pool m) = holding_name (config_name c) handles ∧
     default 0 (announced (config_name c) (events (pool m))) = holding_name (config_name c) handles) ∧
  (∀ c c', in_use m handles c → in_use m handles c' → (config_name c = config_name c' ↔ connection c = connection c')).
Proof. intros Hs%accounted_reachable. by apply accounted_counts. Qed.

(** C35: reconciliation sets every counter that stays registered to the number
    of streams it is told of, zero when it is told of none, ends grace where
    that number is zero, and announces it.  An entry is purged exactly when its
    provider is in no lineup and nothing refers to its counter; the others keep
    their counters. *)
Theorem reconcile_connections_exact m counts referenced :
  registry_wf (provider_connections m) (pool m) →
  let m' := reconcile_connections m counts referenced in
  (∀ n x, provider_connections m' !! n = Some x →
     current_connections (counter_at x (pool m')) = default 0 (counts !! n) ∧
     (default 0 (counts !! n) = 0 → grace_started_at (counter_at x (pool m')) = None) ∧
     announced n (events (pool m')) = Some (default 0 (counts !! n)) ∧
     (n ∈ current_names m ∨ referenced x = true)) ∧
  (∀ n x, provider_connections m !! n = Some x → n ∈ current_names m ∨ referenced x = true →
     provider_connections m' !! n = Some x) ∧
  (∀ n, is_Some (provider_connections m' !! n) → is_Some (provider_connections m !! n) ∨ is_Some (counts !! n)) ∧
  registry_wf (provider_connections m') (pool m').
Proof.
  intros Hwf m'. destruct (reconcile_spec m counts referenced Hwf) as (connections & Ereg & _ & Hsub & [Ha Hinj] & Hdom & Hcount & _).
  fold m' in Ereg, Ha, Hcount. rewrite Ereg. split_and!.
  - intros n x [Hx Hk]%map_lookup_filter_Some. destruct (Hcount n x Hx) as (? & ? & ?). by split_and!.
  - intros n x Hx Hk. apply map_lookup_filter_Some. split; [by eapply lookup_weaken|done].
  - intros n [x [Hx _]%map_lookup_filter_Some]. apply Hdom. by eexists.
  - constructor.
    + intros n x [Hx _]%map_lookup_filter_Some. by eapply Ha.
    + intros n n' x [Hx _]%map_lookup_filter_Some [Hx' _]%map_lookup_filter_Some. by eapply Hinj.
Qed.

(** A reconfiguration is skipped only when it would change nothing: when
    [update_config] keeps the lineups, every new input describes the providers
    that an input of the current configuration describes, up to their order,
    provided that inputs and aliases kept their ids and the panel API its
    flag. *)
Theorem unchanged_config_same_providers m new_inputs options b :
  has_changed m new_inputs = false → b ∈ new_inputs → NoDup (default [] (input_aliases b)) →
  (∀ a, a ∈ snapshot_inputs m → input_name a = input_name b → same_identity a b) →
  snapshot_providers (update_config m new_inputs options) = snapshot_providers m ∧
  ∃ a, a ∈ snapshot_inputs m ∧ input_name a = input_name b ∧ described a ≡ₚ described b.
Proof.
  intros Hch Hb Hnd Hid. split; [unfold update_config; by rewrite Hch|].
  unfold has_changed in Hch. apply orb_false_iff in Hch as [_ Hex].
  assert (input_changed (snapshot_inputs m) b = false) as Hb'.
  { destruct (input_changed (snapshot_inputs m) b) eqn:E; [|done]. rewrite <- Hex. symmetry. apply existsb_exists.
    exists b. split; [by apply list_elem_of_In|done]. }
  unfold input_changed in Hb'. destruct (find _ (snapshot_inputs m)) as [a|] eqn:F; [|done].
  apply find_some in F as [Hin En]. apply bool_decide_eq_true in En. apply list_elem_of_In in Hin.
  exists a. split_and!; [done|done|]. apply inputs_same_described; [done|by apply Hid|done|done].
Qed.

Definition example_options : GracePeriodOptions := {| period_millis := 300; timeout_secs := 4; hold_stream := true |}.

(** An input without a limit, with and without the panel API. *)
Definition example_panel_input (panel : bool) : ConfigInput :=
  {| input_id := 1; input_name := "panel"; input_type := Xtream; input_url := "http://panel"; input_username := None;
     input_password := None; input_enabled := true; input_aliases := None; input_priority := 0;
     input_max_connections := 0; input_exp_date := None; panel_api_enabled := panel |}.

(** C40: enabling the panel API of inputs without a limit does not reach the
    running manager.  For every configuration whose inputs and aliases have
    distinct names, the update that enables the panel API of all inputs, sent
    any number of times, changes no capacity, and every unlimited input keeps
    an unlimited provider; a manager started with the new configuration has no
    unlimited provider. *)
Theorem panel_api_change_ignored inputs options options' n :
  uniquely_named inputs →
  let enabled := map enable_panel inputs in
  let running := Nat.iter n (λ m, update_config m enabled options') (manager_new inputs options) in
  (∀ name, provider_capacity running name = provider_capacity (manager_new inputs options) name) ∧
  (∀ i, i ∈ inputs → panel_api_enabled i = false → input_max_connections i = 0 →
     ∃ c, offers running c ∧ config_name c = input_name i ∧ is_unlimited c = true) ∧
  (∀ c, offers (manager_new enabled options') c → is_unlimited c = false).
Proof.
  intros U enabled running. destruct (updates_ignored inputs options options' n U) as (Es & Ep & _). fold enabled running in Es, Ep.
  split_and!.
  - intros name. unfold provider_capacity. by rewrite Es, Ep.
  - intros i Hi Hp Hm. destruct (input_offered inputs options i Hi) as (x & l & Hl & Hc).
    exists (provider_config_new i x). split_and!; [exists l; by rewrite Es|done|]. unfold is_unlimited, provider_config_new. cbn. by rewrite Hp, Hm.
  - intros c (l & Hl & Hc). destruct (offered_input _ _ _ _ Hl Hc) as (i & x & Hi & Hci).
    apply list_elem_of_In, in_map_iff in Hi as (j & <- & _). destruct Hci as [->|[a ->]]; apply limited_by_panel.
Qed.

(** *** Witnesses *)

Definition example_manager : ProviderLineupManager := manager_new [example_input] example_options.

(** A connection is acquired, the input loses its aliases, the registry is
    reconciled: the connection still counts. *)
Definition example_acquired : ProviderAllocation * ProviderLineupManager :=
  acquire_connection_with_grace_override_excluding id example_clock example_manager "main" true {["main"; "twin"]}.

Definition example_reconciled : ProviderLineupManager :=
  reconcile_connections (update_config example_acquired.2 [example_panel_input true] example_options) {[ "backup"%string := 1 ]}
    (λ x, x =? 1).

Lemma example_system :
  rtc (system_step id) (manager_new [example_input] example_options, []) (example_reconciled, [example_backup]).
Proof.
  eapply rtc_l; [apply (StepAcquire id example_clock _ _ "main" true {["main"; "twin"]} (Available example_backup)
    example_acquired.2); [reflexivity|vm_compute; reflexivity]|].
  eapply rtc_l; [apply (StepUpdate id _ _ [example_panel_input true] example_options)|].
  apply rtc_once. apply StepReconcile.
  - intros n. change (option_list _ ++ _) with [example_backup]. rewrite holding_name_one. case_decide as E.
    + by rewrite E, lookup_singleton_eq.
    + by rewrite lookup_singleton_ne by (intros <-; by apply E).
  - intros c. change (option_list _ ++ _) with [example_backup]. by intros ->%list_elem_of_singleton.
Qed.

Lemma connections_accounted_witness :
  get_current_connections example_backup (pool example_reconciled) = 1 ∧
  announced "backup" (events (pool example_reconciled)) = Some 1.
Proof.
  destruct (connections_accounted id [example_input] example_options example_reconciled [example_backup] example_system) as [T _].
  destruct (T example_backup) as [E _]; [left; by apply list_elem_of_singleton|].
  split; [rewrite E|]; vm_compute; reflexivity.
Defined.

Lemma reconcile_connections_exact_witness :
  let m' := reconcile_connections example_manager {[ "main"%string := 3 ]} (λ _, false) in
  ∃ x, provider_connections m' !! "main"%string = Some x ∧ current_connections (counter_at x (pool m')) = 3.
Proof.
  pose proof (ac_registry _ (accounted_new [example_input] example_options)) as Hwf. cbn [fst] in Hwf.
  destruct (reconcile_connections_exact example_manager {[ "main"%string := 3 ]} (λ _, false) Hwf) as (T & _).
  exists 0. assert (provider_connections (reconcile_connections example_manager {[ "main"%string := 3 ]} (λ _, false)) !! "main"%string
          = Some 0) as E by (vm_compute; reflexivity).
  split; [exact E|]. destruct (T _ _ E) as (-> & _). reflexivity.
Defined.

Lemma panel_api_change_ignored_witness :
  ∃ c, offers (update_config (manager_new [example_panel_input false] example_options) [example_panel_input true] example_options) c ∧
    config_name c = "panel"%string ∧ is_unlimited c = true.
Proof.
  destruct (panel_api_change_ignored [example_panel_input false] example_options example_options 1) as (_ & H & _).
  - split; [apply NoDup_singleton|]. constructor; [apply NoDup_nil_2|constructor].
  - apply (H (example_panel_input false)); [by left|done|done].
Defined.

Lemma unchanged_config_same_providers_witness :
  ∃ a, a ∈ [example_input] ∧ described a ≡ₚ described example_input.
Proof.
  destruct (unchanged_config_same_providers example_manager [example_input] example_options example_input) as (_ & a & Ha & _ & Hd).
  - vm_compute. reflexivity.
  - by left.
  - cbn. apply NoDup_cons. split; [by intros ?%list_elem_of_singleton|apply NoDup_singleton].
  - intros a Ha _. assert (snapshot_inputs example_manager = [example_input]) as Es by (vm_compute; reflexivity).
    rewrite Es in Ha. apply list_elem_of_singleton in Ha as ->. constructor; [done|done|]. cbn.
    intros x y [->|[->|?%not_elem_of_nil]%elem_of_cons]%elem_of_cons [->|[->|?%not_elem_of_nil]%elem_of_cons]%elem_of_cons; done.
  - exists a. assert (snapshot_inputs example_manager = [example_input]) as Es by (vm_compute; reflexivity).
    rewrite Es in Ha. split; [exact Ha|exact Hd].
Defined.
