(* ===== verification/ActiveConnections.v ===== *)
(** * The table of active provider connections

    Models [Connections] of backend/session/src/active_provider_manager.rs: the
    connections of the clients, single and shared, and the indices by provider
    and by priority from which victims of preemption are chosen.  Every
    critical section under the write lock of the table is a function on the
    table; the allocations that are released and the tokens that are cancelled
    after it are results.  The source iterates over hash maps, in an order it
    does not fix; the model takes the order of [map_to_list].  Client addresses and
    instants are only compared, so they are integers; a cancellation token is
    identified by the allocation it was created for. *)

From S2P Require Import Prelude ProviderPool ProviderLineup ProviderManager.
From stdpp Require Import gmap.

#[local] Open Scope Z_scope.

Inductive ConnectionKind := Normal | Soft.

#[export] Instance ConnectionKind_eq_dec : EqDecision ConnectionKind.
Proof. solve_decision. Defined.

Inductive PriorityOwner :=
| OwnerSingle (addr : Z)
| OwnerShared (allocation_id : Z).

#[export] Instance PriorityOwner_eq_dec : EqDecision PriorityOwner.
Proof. solve_decision. Defined.

(** Priority, time of creation, allocation. *)
Abbreviation PriorityKey := (Z * Z * Z)%type.

Record SharedSubscriber := { sub_priority : Z; sub_kind : ConnectionKind }.

Record SharedAllocation := {
  shared_id : Z;
  shared_allocation : ProviderAllocation;
  shared_connections : gmap Z SharedSubscriber;
  shared_priority : Z;
  shared_kind : ConnectionKind;
  shared_created_at : Z;
  shared_cancel_token : option Z;
  shared_session_owner : option string;
}.

Record ActiveConnectionInfo := {
  info_allocation : ProviderAllocation;
  info_cancel_token : Z;
  info_created_at : Z;
  info_priority : Z;
  info_kind : ConnectionKind;
  info_session_owner : option string;
}.

Abbreviation priority_tree := (gmap PriorityKey PriorityOwner).

Record Connections := {
  single : gmap Z (gmap Z ActiveConnectionInfo);
  by_key : gmap string SharedAllocation;
  key_by_addr : gmap Z string;
  shared_by_allocation_id : gmap Z string;
  by_provider : gmap string (gset (Z * Z));
  priority_index : gmap string priority_tree;
  soft_priority_index : gmap string priority_tree;
}.

Definition connections_default : Connections :=
  {| single := ∅; by_key := ∅; key_by_addr := ∅; shared_by_allocation_id := ∅; by_provider := ∅;
     priority_index := ∅; soft_priority_index := ∅ |}.

Definition set_single (c : Connections) (s : gmap Z (gmap Z ActiveConnectionInfo)) : Connections :=
  {| single := s; by_key := by_key c; key_by_addr := key_by_addr c; shared_by_allocation_id := shared_by_allocation_id c;
     by_provider := by_provider c; priority_index := priority_index c; soft_priority_index := soft_priority_index c |}.

Definition set_shared (c : Connections) (keys : gmap string SharedAllocation) (addrs ids : gmap Z string) : Connections :=
  {| single := single c; by_key := keys; key_by_addr := addrs; shared_by_allocation_id := ids;
     by_provider := by_provider c; priority_index := priority_index c; soft_priority_index := soft_priority_index c |}.

Definition set_by_provider (c : Connections) (b : gmap string (gset (Z * Z))) : Connections :=
  {| single := single c; by_key := by_key c; key_by_addr := key_by_addr c;
     shared_by_allocation_id := shared_by_allocation_id c; by_provider := b; priority_index := priority_index c;
     soft_priority_index := soft_priority_index c |}.

Definition set_indices (c : Connections) (normal soft : gmap string priority_tree) : Connections :=
  {| single := single c; by_key := by_key c; key_by_addr := key_by_addr c;
     shared_by_allocation_id := shared_by_allocation_id c; by_provider := by_provider c; priority_index := normal;
     soft_priority_index := soft |}.

(** ** The indices *)

Definition index_insert (name : string) (key : PriorityKey) (owner : PriorityOwner) (index : gmap string priority_tree)
    : gmap string priority_tree := <[name := <[key := owner]> (default ∅ (index !! name))]> index.

Definition index_remove (name : string) (key : PriorityKey) (index : gmap string priority_tree)
    : gmap string priority_tree :=
  match index !! name with Some tree => <[name := delete key tree]> index | None => index end.

Definition upsert_priority_entry (c : Connections) (provider_name : string) (key : PriorityKey) (owner : PriorityOwner)
    (kind : ConnectionKind) : Connections :=
  set_indices c (index_insert provider_name key owner (priority_index c))
    (if decide (kind = Soft) then index_insert provider_name key owner (soft_priority_index c) else soft_priority_index c).

Definition remove_priority_entry (c : Connections) (provider_name : string) (key : PriorityKey) (kind : ConnectionKind)
    : Connections :=
  set_indices c (index_remove provider_name key (priority_index c))
    (if decide (kind = Soft) then index_remove provider_name key (soft_priority_index c) else soft_priority_index c).

Definition provider_insert (c : Connections) (name : string) (entry : Z * Z) : Connections :=
  set_by_provider c (<[name := {[entry]} ∪ default ∅ (by_provider c !! name)]> (by_provider c)).

(** [list.remove] and [list.retain] on the list of a provider, if it has one. *)
Definition provider_update (c : Connections) (name : string) (f : gset (Z * Z) → gset (Z * Z)) : Connections :=
  match by_provider c !! name with
  | Some list => set_by_provider c (<[name := f list]> (by_provider c))
  | None => c
  end.

Definition provider_remove (c : Connections) (name : string) (entry : Z * Z) : Connections :=
  provider_update c name (λ list, list ∖ {[entry]}).

Definition provider_retain (c : Connections) (name : string) (id : Z) : Connections :=
  provider_update c name (filter (λ e, e.2 ≠ id)).

(** The limited provider of an allocation; unlimited ones are not indexed. *)
Definition indexed_name (a : ProviderAllocation) : option string :=
  if is_unlimited_provider a then None else get_provider_name a.

(** ** Shared streams *)

Definition shared_effective_priority (subscribers : gmap Z SharedSubscriber) (kind : ConnectionKind) : option Z :=
  match filter (λ s, sub_kind s = kind) (map snd (map_to_list subscribers)) with
  | [] => None
  | s :: l => Some (foldl (λ m s, Z.min m (sub_priority s)) (sub_priority s) l)
  end.

Definition shared_effective_kind (subscribers : gmap Z SharedSubscriber) : ConnectionKind :=
  if forallb (λ s, bool_decide (sub_kind s = Soft)) (map snd (map_to_list subscribers)) then Soft else Normal.

Definition shared_key (s : SharedAllocation) : PriorityKey := (shared_priority s, shared_created_at s, shared_id s).

Definition info_key (id : Z) (info : ActiveConnectionInfo) : PriorityKey := (info_priority info, info_created_at info, id).

Definition with_subscribers (s : SharedAllocation) (subscribers : gmap Z SharedSubscriber) : SharedAllocation :=
  {| shared_id := shared_id s; shared_allocation := shared_allocation s; shared_connections := subscribers;
     shared_priority := shared_priority s; shared_kind := shared_kind s; shared_created_at := shared_created_at s;
     shared_cancel_token := shared_cancel_token s; shared_session_owner := shared_session_owner s |}.

(** Kind and priority from the subscribers; the priority stays when no
    subscriber has the kind. *)
Definition reclassified (s : SharedAllocation) : SharedAllocation :=
  let kind := shared_effective_kind (shared_connections s) in
  {| shared_id := shared_id s; shared_allocation := shared_allocation s; shared_connections := shared_connections s;
     shared_priority := default (shared_priority s) (shared_effective_priority (shared_connections s) kind);
     shared_kind := kind; shared_created_at := shared_created_at s;
     shared_cancel_token := shared_cancel_token s; shared_session_owner := shared_session_owner s |}.

(** The entry of a shared stream moves from its old to its new place. *)
Definition reindex_shared (c : Connections) (old new : SharedAllocation) : Connections :=
  match indexed_name (shared_allocation old) with
  | Some name =>
      upsert_priority_entry (remove_priority_entry c name (shared_key old) (shared_kind old)) name (shared_key new)
        (OwnerShared (shared_id new)) (shared_kind new)
  | None => c
  end.

(** ** Registration *)

Definition register_connection (c : Connections) (addr id now : Z) (allocation : ProviderAllocation) (priority : Z)
    (kind : ConnectionKind) (session_owner : option string) : Connections :=
  let info := {| info_allocation := allocation; info_cancel_token := id; info_created_at := now; info_priority := priority;
                 info_kind := kind; info_session_owner := session_owner |} in
  let c := set_single c (<[addr := <[id := info]> (default ∅ (single c !! addr))]> (single c)) in
  let provider_name := default ""%string (get_provider_name allocation) in
  if is_unlimited_provider allocation then c else
  upsert_priority_entry (provider_insert c provider_name (addr, id)) provider_name (priority, now, id) (OwnerSingle addr) kind.

(** ** Release *)

(** A single connection of the provider [name] leaves the indices. *)
Definition unindex_single (name : option string) (addr id : Z) (info : ActiveConnectionInfo) (c : Connections) : Connections :=
  match name with
  | Some name => remove_priority_entry (provider_remove c name (addr, id)) name (info_key id info) (info_kind info)
  | None => c
  end.

(** A shared allocation, registered as [id], of the provider [name] leaves the indices. *)
Definition unindex_shared (name : option string) (id : Z) (s : SharedAllocation) (c : Connections) : Connections :=
  match name with
  | Some name =>
      remove_priority_entry (provider_retain c name id) name (shared_priority s, shared_created_at s, id) (shared_kind s)
  | None => c
  end.

Definition delete_all {A} (keys : list Z) (m : gmap Z A) : gmap Z A := foldl (λ m k, delete k m) m keys.

Definition unindex_all (addr : Z) (entries : list (Z * ActiveConnectionInfo)) (c : Connections) : Connections :=
  foldl (λ c e, unindex_single (indexed_name (info_allocation e.2)) addr e.1 e.2 c) c entries.

(** A subscriber leaves a shared stream that others still watch. *)
Definition leave_shared (c : Connections) (addr : Z) (key : string) (old : SharedAllocation) : Connections :=
  let shared := with_subscribers old (delete addr (shared_connections old)) in
  let c := set_shared c (by_key c) (delete addr (key_by_addr c)) (shared_by_allocation_id c) in
  let put shared c := set_shared c (<[key := shared]> (by_key c)) (key_by_addr c) (shared_by_allocation_id c) in
  if is_unlimited_provider (shared_allocation shared) then put shared c else
  let new := reclassified shared in
  match shared_effective_priority (shared_connections shared) (shared_kind new) with
  | Some _ =>
      put new (if decide ((shared_priority new, shared_kind new) = (shared_priority old, shared_kind old)) then c
               else reindex_shared c old new)
  | None => put new c
  end.

(** The connections of a client leave: the table and the allocations to
    release.  The function holds the lock twice: for the single connections and,
    when there are none, for the shared one. *)
Definition release_single (c : Connections) (addr : Z) : option (Connections * list ProviderAllocation) :=
  allocations ← single c !! addr;
  Some (unindex_all addr (map_to_list allocations) (set_single c (delete addr (single c))),
        map (λ e, info_allocation e.2) (map_to_list allocations)).

Definition release_shared (c : Connections) (addr : Z) : Connections * list ProviderAllocation :=
  match key_by_addr c !! addr ≫= λ key, s ← by_key c !! key; Some (key, s) with
  | None => (c, [])
  | Some (key, s) =>
      if decide (delete addr (shared_connections s) = ∅) then
        let c := set_shared c (delete key (by_key c)) (delete addr (key_by_addr c))
                   (delete (shared_id s) (shared_by_allocation_id c)) in
        (unindex_shared (indexed_name (shared_allocation s)) (shared_id s) s c, [shared_allocation s])
      else (leave_shared c addr key s, [])
  end.

Definition release_connection (c : Connections) (addr : Z) : Connections * list ProviderAllocation :=
  match release_single c addr with Some r => r | None => release_shared c addr end.

(** A shared allocation, registered as [id], is removed with all its subscribers. *)
Definition remove_shared (name : option string) (id : Z) (key : string) (s : SharedAllocation) (c : Connections) : Connections :=
  unindex_shared name id s
    (set_shared c (delete key (by_key c)) (delete_all (map fst (map_to_list (shared_connections s))) (key_by_addr c))
       (delete id (shared_by_allocation_id c))).

(** A single connection is removed; a client without connections leaves the table. *)
Definition remove_single (name : option string) (addr id : Z) (per_addr : gmap Z ActiveConnectionInfo)
    (info : ActiveConnectionInfo) (c : Connections) : Connections :=
  let per_addr := delete id per_addr in
  let s := if decide (per_addr = ∅) then delete addr (single c) else <[addr := per_addr]> (single c) in
  unindex_single name addr id info (set_single c s).

Definition lookup_single (c : Connections) (addr id : Z) : option (gmap Z ActiveConnectionInfo * ActiveConnectionInfo) :=
  per_addr ← single c !! addr; info ← per_addr !! id; Some (per_addr, info).

Definition release_handle (c : Connections) (client_id allocation_id : Z) : Connections * list ProviderAllocation :=
  match lookup_single c client_id allocation_id with
  | Some (per_addr, info) =>
      (remove_single (indexed_name (info_allocation info)) client_id allocation_id per_addr info c, [info_allocation info])
  | None =>
      match shared_by_allocation_id c !! allocation_id with
      | None => (c, [])
      | Some key =>
          match by_key c !! key with
          | None => (set_shared c (by_key c) (key_by_addr c) (delete allocation_id (shared_by_allocation_id c)), [])
          | Some s =>
              (remove_shared (indexed_name (shared_allocation s)) allocation_id key s c, [shared_allocation s])
          end
      end
  end.

(** ** Reclassification *)

Definition reclassify_info (kind : ConnectionKind) (priority : Z) (info : ActiveConnectionInfo) : ActiveConnectionInfo :=
  match get_provider_name (info_allocation info) with
  | Some _ =>
      {| info_allocation := info_allocation info; info_cancel_token := info_cancel_token info;
         info_created_at := info_created_at info; info_priority := priority; info_kind := kind;
         info_session_owner := info_session_owner info |}
  | None => info
  end.

(** The entry of a single connection moves from its old to its new place. *)
Definition reindex_single (addr : Z) (kind : ConnectionKind) (priority : Z) (c : Connections)
    (entry : Z * ActiveConnectionInfo) : Connections :=
  let '(id, info) := entry in
  match indexed_name (info_allocation info) with
  | Some name =>
      upsert_priority_entry (remove_priority_entry c name (info_key id info) (info_kind info)) name
        (info_key id (reclassify_info kind priority info)) (OwnerSingle addr) kind
  | None => c
  end.

Definition reclassify_connection (c : Connections) (addr : Z) (kind : ConnectionKind) (priority : Z) : Connections * bool :=
  match single c !! addr with
  | Some per_addr =>
      let c := set_single c (<[addr := reclassify_info kind priority <$> per_addr]> (single c)) in
      (foldl (reindex_single addr kind priority) c (map_to_list per_addr), true)
  | None =>
      match key_by_addr c !! addr ≫= λ key, s ← by_key c !! key; _ ← shared_connections s !! addr; Some (key, s) with
      | None => (c, false)
      | Some (key, s) =>
          let new := reclassified (with_subscribers s
                       (<[addr := {| sub_priority := priority; sub_kind := kind |}]> (shared_connections s))) in
          let c := set_shared c (<[key := new]> (by_key c)) (key_by_addr c) (shared_by_allocation_id c) in
          (reindex_shared c s new, true)
      end
  end.

(** ** Sharing *)

(** The single connection of a client becomes a shared one; the client's other
    connections are cancelled and released. *)
Definition make_shared_connection (c : Connections) (addr : Z) (key : string)
    : Connections * list ProviderAllocation * list Z :=
  match map_to_list <$> single c !! addr with
  | Some ((id, info) :: extras) =>
      let c := unindex_single (indexed_name (info_allocation info)) addr id info c in
      let c := unindex_all addr extras c in
      let c := set_single c (delete addr (single c)) in
      let subscriber := {| sub_priority := info_priority info; sub_kind := info_kind info |} in
      let shared := {| shared_id := id; shared_allocation := info_allocation info; shared_connections := {[ addr := subscriber ]};
                       shared_priority := info_priority info; shared_kind := info_kind info;
                       shared_created_at := info_created_at info; shared_cancel_token := Some (info_cancel_token info);
                       shared_session_owner := info_session_owner info |} in
      let c := set_shared c (<[key := shared]> (by_key c)) (<[addr := key]> (key_by_addr c))
                 (<[id := key]> (shared_by_allocation_id c)) in
      let c := if is_unlimited_provider (info_allocation info) then c else
               upsert_priority_entry c (default ""%string (get_provider_name (info_allocation info)))
                 (info_key id info) (OwnerShared id) (info_kind info) in
      (c, map (λ e, info_allocation e.2) extras, map (λ e, info_cancel_token e.2) extras)
  | _ => (c, [], [])
  end.

Definition add_shared_connection (c : Connections) (addr : Z) (key : string) (priority : Z) (kind : ConnectionKind)
    : option Connections :=
  old ← by_key c !! key;
  let new := reclassified (with_subscribers old
               (<[addr := {| sub_priority := priority; sub_kind := kind |}]> (shared_connections old))) in
  let c := set_shared c (<[key := new]> (by_key c)) (key_by_addr c) (shared_by_allocation_id c) in
  let c := if decide ((shared_priority new, shared_kind new) = (shared_priority old, shared_kind old)) then c
           else reindex_shared c old new in
  Some (set_shared c (by_key c) (<[addr := key]> (key_by_addr c)) (shared_by_allocation_id c)).

(** ** Victims *)

(** The order of the keys of a priority tree: by priority, then the older
    connection, then the allocation. *)
Definition key_above (a b : PriorityKey) : bool :=
  let '(pa, ta, ia) := a in
  let '(pb, tb, ib) := b in
  (pb <? pa) || ((pa =? pb) && ((ta <? tb) || ((ta =? tb) && (ib <? ia)))).

Definition above_last (last : option (PriorityKey * PriorityOwner)) (e : PriorityKey * PriorityOwner)
    : option (PriorityKey * PriorityOwner) :=
  match last with Some l => if key_above e.1 l.1 then Some e else Some l | None => Some e end.

(** [tree.iter().next_back()]. *)
Definition tree_last (tree : priority_tree) : option (PriorityKey * PriorityOwner) :=
  foldl above_last None (map_to_list tree).

(** Owner, allocation, priority, time of creation. *)
Abbreviation PreemptionCandidate := (PriorityOwner * Z * Z * Z)%type.

Definition is_better_preemption_candidate (current : option PreemptionCandidate) (candidate : PreemptionCandidate) : bool :=
  let '(_, id, priority, created_at) := candidate in
  match current with
  | None => true
  | Some (_, current_id, current_priority, current_created_at) =>
      (current_priority <? priority)
      || ((priority =? current_priority)
          && ((created_at <? current_created_at) || ((created_at =? current_created_at) && (id <? current_id))))
  end.

(** The loop over the trees of an index; [eligible] is the test of a provider
    and of its last entry. *)
Definition better_victim (eligible : string → PreemptionCandidate → bool) (victim : option PreemptionCandidate)
    (e : string * priority_tree) : option PreemptionCandidate :=
  match tree_last e.2 with
  | Some ((priority, created_at, id), owner) =>
      let candidate := (owner, id, priority, created_at) in
      if eligible e.1 candidate && is_better_preemption_candidate victim candidate then Some candidate else victim
  | None => victim
  end.

Section Selection.
Context (m : ProviderLineupManager) (input_name : string) (reserved_providers : gset string).

Definition preemptible_provider (name : string) : bool :=
  is_provider_for_input m name input_name && negb (bool_decide (name ∈ reserved_providers)).

Definition select_victim_from_index (index : gmap string priority_tree) (requester_priority : option Z)
    : option PreemptionCandidate :=
  foldl (better_victim (λ name candidate,
           preemptible_provider name
           && match requester_priority with Some req_prio => negb (candidate.1.2 <=? req_prio) | None => true end))
    None (map_to_list index).

Definition is_normal_preemption_candidate (c : Connections) (provider_name : string) (candidate : PreemptionCandidate) : bool :=
  let '(owner, id, _, _) := candidate in
  match owner with
  | OwnerSingle addr =>
      match lookup_single c addr id with
      | Some (_, info) =>
          bool_decide (info_kind info = Normal) && bool_decide (get_provider_name (info_allocation info) = Some provider_name)
      | None => false
      end
  | OwnerShared shared =>
      match shared_by_allocation_id c !! shared ≫= λ key, by_key c !! key with
      | Some s =>
          (shared_id s =? id) && bool_decide (shared_kind s = Normal)
          && bool_decide (get_provider_name (shared_allocation s) = Some provider_name)
      | None => false
      end
  end.

Definition select_preemption_candidate (c : Connections) (new_priority : Z) (kind_needed : ConnectionKind)
    : option PreemptionCandidate :=
  match kind_needed with
  | Normal =>
      match select_victim_from_index (soft_priority_index c) None with
      | Some victim => Some victim
      | None =>
          foldl (better_victim (λ name candidate,
                   preemptible_provider name && negb (candidate.1.2 <=? new_priority)
                   && is_normal_preemption_candidate c name candidate))
            None (map_to_list (priority_index c))
      end
  | Soft => select_victim_from_index (soft_priority_index c) (Some new_priority)
  end.
End Selection.

(** The victim is removed if it still is what was selected: the table, the
    allocation to release, the tokens to cancel and the stream to tear down. *)
Definition evict_victim (c : Connections) (victim : PreemptionCandidate)
    : option (Connections * ProviderAllocation * list Z * option string) :=
  let '(owner, alloc_id, v_prio, victim_created_at) := victim in
  match owner with
  | OwnerShared shared =>
      key ← shared_by_allocation_id c !! shared;
      s ← by_key c !! key;
      if (shared_id s =? alloc_id) && (shared_priority s =? v_prio) && (shared_created_at s =? victim_created_at)
      then Some (remove_shared (get_provider_name (shared_allocation s)) (shared_id s) key s c, shared_allocation s,
                 option_list (shared_cancel_token s), Some key)
      else None
  | OwnerSingle addr =>
      '(per_addr, info) ← lookup_single c addr alloc_id;
      if (info_priority info =? v_prio) && (info_created_at info =? victim_created_at)
      then Some (remove_single (get_provider_name (info_allocation info)) addr alloc_id per_addr info c,
                 info_allocation info, [info_cancel_token info], None)
      else None
  end.
