(* ===== verification/ActiveIndex.v ===== *)
(** * Consistency of the table of active connections

    The table of [ActiveConnections] holds every connection several times: under
    its client or its stream, and in the indices by provider and by priority.
    This file defines their agreement and proves that adding, removing and
    reindexing a connection keep it; the operations themselves follow in
    [ActiveTable]. *)

From S2P Require Import Prelude ProviderPool ProviderLineup ProviderManager ActiveConnections.
From stdpp Require Import gmap relations.

#[local] Open Scope Z_scope.

(** ** The connections behind the views *)

Inductive entry :=
| ESingle (addr : Z) (info : ActiveConnectionInfo)
| EShared (key : string) (s : SharedAllocation).

Definition entry_allocation (e : entry) : ProviderAllocation :=
  match e with ESingle _ info => info_allocation info | EShared _ s => shared_allocation s end.

Definition entry_name (e : entry) : option string := indexed_name (entry_allocation e).

Definition entry_key (id : Z) (e : entry) : PriorityKey :=
  match e with
  | ESingle _ info => info_key id info
  | EShared _ s => (shared_priority s, shared_created_at s, id)
  end.

Definition entry_owner (id : Z) (e : entry) : PriorityOwner :=
  match e with ESingle addr _ => OwnerSingle addr | EShared _ _ => OwnerShared id end.

Definition entry_kind (e : entry) : ConnectionKind :=
  match e with ESingle _ info => info_kind info | EShared _ s => shared_kind s end.

(** ** One index *)

Definition index_lookup (name : string) (key : PriorityKey) (index : gmap string priority_tree) : option PriorityOwner :=
  tree ← index !! name; tree !! key.

Lemma index_lookup_insert name key owner index name' key' :
  index_lookup name' key' (index_insert name key owner index)
  = if decide (name' = name ∧ key' = key) then Some owner else index_lookup name' key' index.
Proof.
  unfold index_lookup, index_insert. destruct (decide (name' = name)) as [->|Hn].
  - rewrite lookup_insert_eq. cbn. destruct (decide (key' = key)) as [->|Hk].
    + rewrite lookup_insert_eq, decide_True by done. done.
    + rewrite lookup_insert_ne, decide_False by naive_solver.
      by destruct (index !! name); cbn; [|rewrite lookup_empty].
  - rewrite lookup_insert_ne, decide_False by naive_solver. done.
Qed.

Lemma index_lookup_remove name key index name' key' :
  index_lookup name' key' (index_remove name key index)
  = if decide (name' = name ∧ key' = key) then None else index_lookup name' key' index.
Proof.
  unfold index_lookup, index_remove. destruct (index !! name) as [tree|] eqn:E.
  - destruct (decide (name' = name)) as [->|Hn].
    + rewrite lookup_insert_eq, E. cbn. destruct (decide (key' = key)) as [->|Hk].
      * rewrite lookup_delete_eq, decide_True by done. done.
      * rewrite lookup_delete_ne, decide_False by naive_solver. done.
    + rewrite lookup_insert_ne, decide_False by naive_solver. done.
  - case_decide as H; [|done]. destruct H as [-> ->]. by rewrite E.
Qed.

(** An index lists exactly the connections of limited providers that satisfy [P]. *)
Definition index_matches (P : entry → Prop) (V : gmap Z entry) (index : gmap string priority_tree) : Prop :=
  ∀ name key owner, index_lookup name key index = Some owner ↔
    ∃ id e, V !! id = Some e ∧ P e ∧ entry_name e = Some name ∧ entry_key id e = key ∧ entry_owner id e = owner.

Lemma entry_key_id id id' e e' : entry_key id e = entry_key id' e' → id = id'.
Proof. unfold entry_key, info_key. destruct e, e'; intros; simplify_eq; done. Qed.

Section OneIndex.
Context (P : entry → Prop) (V : gmap Z entry) (index : gmap string priority_tree) (Hm : index_matches P V index).

Lemma matches_insert id e name :
  V !! id = None → entry_name e = Some name → P e →
  index_matches P (<[id := e]> V) (index_insert name (entry_key id e) (entry_owner id e) index).
Proof.
  intros Hid Hn HP name' key' owner'. rewrite index_lookup_insert. case_decide as E.
  - destruct E as [-> ->]. split.
    + intros [= <-]. exists id, e. by rewrite lookup_insert_eq.
    + intros (id' & e' & He' & _ & _ & Hk & Ho). apply entry_key_id in Hk as ->. rewrite lookup_insert_eq in He'. congruence.
  - rewrite (Hm name' key' owner'). split; intros (id' & e' & He' & HP' & Hn' & Hk & Ho); exists id', e'.
    + rewrite lookup_insert_ne; [done|]. congruence.
    + rewrite lookup_insert_ne in He'; [done|]. intros ->. rewrite lookup_insert_eq in He'. simplify_eq. naive_solver.
Qed.

Lemma matches_insert_skip id e :
  V !! id = None → entry_name e = None ∨ ¬ P e → index_matches P (<[id := e]> V) index.
Proof.
  intros Hid Hskip name' key' owner'. rewrite (Hm name' key' owner').
  split; intros (id' & e' & He' & HP' & Hn' & Hk & Ho); exists id', e'.
  - rewrite lookup_insert_ne; [done|]. congruence.
  - rewrite lookup_insert_ne in He'; [done|]. intros ->. rewrite lookup_insert_eq in He'. simplify_eq. by destruct Hskip; [congruence|].
Qed.

(** An entry may also be looked for where a connection is not indexed. *)
Lemma matches_delete id e name :
  V !! id = Some e → (∀ n, entry_name e = Some n → n = name) →
  index_matches P (delete id V) (index_remove name (entry_key id e) index).
Proof.
  intros Hid Hn name' key' owner'. rewrite index_lookup_remove. case_decide as E.
  - destruct E as [-> ->]. split; [done|]. intros (id' & e' & He' & _ & _ & Hk & _).
    apply entry_key_id in Hk as ->. by rewrite lookup_delete_eq in He'.
  - rewrite (Hm name' key' owner'). split; intros (id' & e' & He' & HP' & Hn' & Hk & Ho); exists id', e'.
    + rewrite lookup_delete_ne; [done|]. intros ->. simplify_eq. apply Hn in Hn'. naive_solver.
    + destruct (decide (id = id')) as [->|]; [by rewrite lookup_delete_eq in He'|]. by rewrite lookup_delete_ne in He'.
Qed.

Lemma matches_delete_skip id e :
  V !! id = Some e → entry_name e = None ∨ ¬ P e → index_matches P (delete id V) index.
Proof.
  intros Hid Hskip name' key' owner'. rewrite (Hm name' key' owner').
  split; intros (id' & e' & He' & HP' & Hn' & Hk & Ho); exists id', e'.
  - rewrite lookup_delete_ne; [done|]. intros ->. simplify_eq. by destruct Hskip; [congruence|].
  - destruct (decide (id = id')) as [->|]; [by rewrite lookup_delete_eq in He'|]. by rewrite lookup_delete_ne in He'.
Qed.
End OneIndex.

(** ** Both indices *)

Record indices_match (V : gmap Z entry) (c : Connections) : Prop := {
  im_all : index_matches (λ _, True) V (priority_index c);
  im_soft : index_matches (λ e, entry_kind e = Soft) V (soft_priority_index c);
}.

Lemma indices_match_same V c c' :
  priority_index c' = priority_index c → soft_priority_index c' = soft_priority_index c →
  indices_match V c → indices_match V c'.
Proof. intros E1 E2 [H1 H2]. constructor; [by rewrite E1|by rewrite E2]. Qed.

(** A connection enters: nothing to do when its provider is unlimited. *)
Lemma indices_match_insert V c id e :
  indices_match V c → V !! id = None →
  indices_match (<[id := e]> V)
    (match entry_name e with
     | Some name => upsert_priority_entry c name (entry_key id e) (entry_owner id e) (entry_kind e)
     | None => c
     end).
Proof.
  intros [H1 H2] Hid. destruct (entry_name e) as [name|] eqn:En.
  - constructor; cbn; [by apply matches_insert|]. case_decide.
    + by apply matches_insert.
    + apply matches_insert_skip; auto.
  - constructor; apply matches_insert_skip; auto.
Qed.

Lemma indices_match_delete V c id e name :
  indices_match V c → V !! id = Some e → (∀ n, entry_name e = Some n → name = Some n) →
  indices_match (delete id V)
    (match name with Some name => remove_priority_entry c name (entry_key id e) (entry_kind e) | None => c end).
Proof.
  intros [H1 H2] Hid Hname. destruct name as [name|].
  - assert (∀ n, entry_name e = Some n → n = name) as Hn by naive_solver.
    constructor; cbn; [by apply matches_delete|]. case_decide.
    + by apply matches_delete.
    + eapply matches_delete_skip; eauto.
  - assert (entry_name e = None) as Hn by (destruct (entry_name e); naive_solver).
    constructor; eapply matches_delete_skip; eauto.
Qed.

(** A connection of the same provider moves. *)
Lemma indices_match_update V c id e e' :
  indices_match V c → V !! id = Some e → entry_name e' = entry_name e →
  indices_match (<[id := e']> V)
    (match entry_name e with
     | Some name =>
         upsert_priority_entry (remove_priority_entry c name (entry_key id e) (entry_kind e)) name (entry_key id e')
           (entry_owner id e') (entry_kind e')
     | None => c
     end).
Proof.
  intros Hm Hid Hn. pose proof (indices_match_delete _ _ _ _ (entry_name e) Hm Hid (λ _ E, E)) as Hd.
  pose proof (indices_match_insert _ _ id e' Hd (lookup_delete_eq _ _)) as Hi. rewrite insert_delete_eq, Hn in Hi.
  by destruct (entry_name e).
Qed.

(** Changes that the indices do not see. *)
Lemma indices_match_ignore V c id e e' :
  indices_match V c → V !! id = Some e → entry_name e' = entry_name e → entry_key id e' = entry_key id e →
  entry_owner id e' = entry_owner id e → entry_kind e' = entry_kind e → indices_match (<[id := e']> V) c.
Proof.
  intros [H1 H2] Hid En Ek Eo Ekind.
  assert (∀ P (index : gmap string priority_tree), (P e ↔ P e') → index_matches P V index → index_matches P (<[id := e']> V) index) as Hgen.
  { intros P index HPe Hm name key owner. rewrite (Hm name key owner).
    split; intros (i & x & Hx & HP & Hname & Hk & Ho).
    - destruct (decide (i = id)) as [->|Hne].
      + exists id, e'. rewrite lookup_insert_eq. simplify_eq. rewrite En, Ek, Eo. naive_solver.
      + exists i, x. by rewrite lookup_insert_ne.
    - destruct (decide (i = id)) as [->|Hne].
      + rewrite lookup_insert_eq in Hx. injection Hx as <-. exists id, e. rewrite <- En, <- Ek, <- Eo. naive_solver.
      + exists i, x. by rewrite lookup_insert_ne in Hx. }
  constructor; apply Hgen; auto. by rewrite Ekind.
Qed.

(** ** The lists by provider *)

Definition listed (c : Connections) (name : string) (x : Z * Z) : Prop := x ∈ default ∅ (by_provider c !! name).

(** Single connections of limited providers are listed; shared ones are not. *)
Definition provider_matches (V : gmap Z entry) (c : Connections) : Prop :=
  ∀ name addr id, listed c name (addr, id) ↔
    ∃ info, V !! id = Some (ESingle addr info) ∧ indexed_name (info_allocation info) = Some name.

Lemma listed_insert c name e name' x :
  listed (provider_insert c name e) name' x ↔ (name' = name ∧ x = e) ∨ listed c name' x.
Proof.
  unfold listed, provider_insert. cbn. destruct (decide (name' = name)) as [->|Hn].
  - rewrite lookup_insert_eq. cbn. set_solver.
  - rewrite lookup_insert_ne by congruence. naive_solver.
Qed.

Lemma listed_update c name f name' x :
  listed (provider_update c name f) name' x ↔ if decide (name' = name) then x ∈ from_option f ∅ (by_provider c !! name) else listed c name' x.
Proof.
  unfold listed, provider_update. destruct (by_provider c !! name) as [l|] eqn:E; cbn.
  - destruct (decide (name' = name)) as [->|Hn]; [by rewrite lookup_insert_eq|by rewrite lookup_insert_ne by congruence].
  - case_decide; [|done]. subst. by rewrite E.
Qed.

Lemma listed_remove c name e name' x :
  listed (provider_remove c name e) name' x ↔ listed c name' x ∧ ¬ (name' = name ∧ x = e).
Proof.
  unfold provider_remove. rewrite listed_update. case_decide as E; [|naive_solver]. subst. unfold listed.
  destruct (by_provider c !! name); cbn; set_solver.
Qed.

Lemma listed_retain c name id name' x :
  listed (provider_retain c name id) name' x ↔ listed c name' x ∧ ¬ (name' = name ∧ x.2 = id).
Proof.
  unfold provider_retain. rewrite listed_update. case_decide as E; [|naive_solver]. subst. unfold listed.
  destruct (by_provider c !! name); cbn; [|set_solver]. rewrite elem_of_filter. naive_solver.
Qed.

Lemma provider_matches_same V c c' : by_provider c' = by_provider c → provider_matches V c → provider_matches V c'.
Proof. intros E H name addr id. unfold listed. rewrite E. apply H. Qed.

Lemma provider_matches_insert V c id addr info :
  provider_matches V c → V !! id = None →
  provider_matches (<[id := ESingle addr info]> V)
    (match indexed_name (info_allocation info) with Some name => provider_insert c name (addr, id) | None => c end).
Proof.
  intros Hm Hid name addr' id'. destruct (indexed_name _) as [n|] eqn:En; [rewrite listed_insert|]; rewrite (Hm name addr' id').
  - destruct (decide (id' = id)) as [->|Hne].
    + rewrite lookup_insert_eq, Hid. split; [|intros (? & [= <- <-] & ?); left; split; congruence].
      intros [[-> [= ->]]|(? & ? & _)]; [by eauto|done].
    + rewrite lookup_insert_ne by done. naive_solver.
  - destruct (decide (id' = id)) as [->|Hne]; [|by rewrite lookup_insert_ne].
    rewrite lookup_insert_eq, Hid. naive_solver congruence.
Qed.

Lemma provider_matches_insert_shared V c id key s :
  provider_matches V c → V !! id = None → provider_matches (<[id := EShared key s]> V) c.
Proof.
  intros Hm Hid name addr' id'. rewrite (Hm name addr' id'). destruct (decide (id' = id)) as [->|Hne];
    [rewrite lookup_insert_eq, Hid; naive_solver|by rewrite lookup_insert_ne].
Qed.

Lemma provider_matches_delete V c id addr info name :
  provider_matches V c → V !! id = Some (ESingle addr info) →
  (∀ n, indexed_name (info_allocation info) = Some n → name = Some n) →
  provider_matches (delete id V) (match name with Some name => provider_remove c name (addr, id) | None => c end).
Proof.
  intros Hm Hid Hname name' addr' id'. destruct name as [n|]; [rewrite listed_remove|]; rewrite (Hm name' addr' id');
    (destruct (decide (id' = id)) as [->|Hne]; [|rewrite lookup_delete_ne by done; naive_solver]); rewrite lookup_delete_eq, Hid.
  - split; [|naive_solver]. intros [(? & [= <- <-] & E) Hno]. apply Hname in E. naive_solver.
  - split; [|naive_solver]. intros (? & [= <- <-] & E). by apply Hname in E.
Qed.

Lemma provider_matches_delete_shared V c id key s name :
  provider_matches V c → V !! id = Some (EShared key s) →
  provider_matches (delete id V) (match name with Some name => provider_retain c name id | None => c end).
Proof.
  intros Hm Hid name' addr' id'. destruct name as [n|]; [rewrite listed_retain|]; rewrite (Hm name' addr' id'); cbn [snd];
    (destruct (decide (id' = id)) as [->|Hne]; [rewrite lookup_delete_eq, Hid; naive_solver|rewrite lookup_delete_ne by done; naive_solver]).
Qed.

Lemma provider_matches_update_single V c id addr info info' :
  provider_matches V c → V !! id = Some (ESingle addr info) → info_allocation info' = info_allocation info →
  provider_matches (<[id := ESingle addr info']> V) c.
Proof.
  intros Hm Hid Ha name addr' id'. rewrite (Hm name addr' id'). destruct (decide (id' = id)) as [->|Hne]; [|by rewrite lookup_insert_ne].
  rewrite lookup_insert_eq, Hid. split; (intros (? & [= <- <-] & ?); eexists; split; [done|congruence]).
Qed.

Lemma provider_matches_update_shared V c id key s s' :
  provider_matches V c → V !! id = Some (EShared key s) → provider_matches (<[id := EShared key s']> V) c.
Proof.
  intros Hm Hid name addr' id'. rewrite (Hm name addr' id'). destruct (decide (id' = id)) as [->|Hne]; [|by rewrite lookup_insert_ne].
  rewrite lookup_insert_eq, Hid. naive_solver.
Qed.

(** ** The table *)

(** Kind and priority of a shared stream follow from its subscribers. *)
Record shared_ok (s : SharedAllocation) : Prop := {
  so_watched : shared_connections s ≠ ∅;
  so_kind : is_unlimited_provider (shared_allocation s) = false → shared_kind s = shared_effective_kind (shared_connections s);
  so_priority : is_unlimited_provider (shared_allocation s) = false →
    shared_effective_priority (shared_connections s) (shared_kind s) = Some (shared_priority s);
}.

Record table_core (V : gmap Z entry) (c : Connections) : Prop := {
  tc_single addr id info : (per_addr ← single c !! addr; per_addr !! id) = Some info ↔ V !! id = Some (ESingle addr info);
  tc_key key s : by_key c !! key = Some s ↔ V !! shared_id s = Some (EShared key s);
  tc_id id key s : V !! id = Some (EShared key s) → shared_id s = id;
  tc_ids id key : shared_by_allocation_id c !! id = Some key ↔ ∃ s, V !! id = Some (EShared key s);
  tc_addrs addr key : key_by_addr c !! addr = Some key ↔ ∃ s, by_key c !! key = Some s ∧ is_Some (shared_connections s !! addr);
  tc_shared key s : by_key c !! key = Some s → shared_ok s;
  tc_granted id e : V !! id = Some e → entry_allocation e ≠ Exhausted;
}.

Record table_ok (V : gmap Z entry) (c : Connections) : Prop := {
  ok_core : table_core V c;
  ok_indices : indices_match V c;
  ok_providers : provider_matches V c;
}.

(** *** Views *)

Record views_ok (V : gmap Z entry) (c : Connections) : Prop := {
  vo_indices : indices_match V c;
  vo_providers : provider_matches V c;
}.

(** Operations on the views leave the tables alone, and conversely. *)
Record same_tables (c c' : Connections) : Prop := {
  st_single : single c' = single c;
  st_by_key : by_key c' = by_key c;
  st_addrs : key_by_addr c' = key_by_addr c;
  st_ids : shared_by_allocation_id c' = shared_by_allocation_id c;
}.

#[export] Instance same_tables_preorder : PreOrder same_tables.
Proof. split; [done|]. intros ??? [] []. constructor; congruence. Qed.

Lemma core_same V c c' : same_tables c c' → table_core V c → table_core V c'.
Proof.
  intros Hs Hc. destruct c, c', Hs as [E1 E2 E3 E4]. cbn in E1, E2, E3, E4. subst. destruct Hc. constructor; assumption.
Qed.

Lemma views_set_single V c s : views_ok V c → views_ok V (set_single c s).
Proof. intros [? ?]. constructor; [by apply (indices_match_same V c)|by apply (provider_matches_same V c)]. Qed.

Lemma views_set_shared V c keys addrs ids : views_ok V c → views_ok V (set_shared c keys addrs ids).
Proof. intros [? ?]. constructor; [by apply (indices_match_same V c)|by apply (provider_matches_same V c)]. Qed.

Lemma same_tables_provider_update c name f : same_tables c (provider_update c name f).
Proof. unfold provider_update. by case_match. Qed.

Lemma views_provider_update V c name f : indices_match V c → indices_match V (provider_update c name f).
Proof. unfold provider_update. case_match; [|done]. by apply indices_match_same. Qed.

Lemma unindex_single_tables name addr id info c : same_tables c (unindex_single name addr id info c).
Proof.
  unfold unindex_single. case_match; [|done]. etrans; [apply (same_tables_provider_update c s (λ l, l ∖ {[(addr, id)]}))|done].
Qed.

Lemma unindex_shared_tables name id s c : same_tables c (unindex_shared name id s c).
Proof.
  unfold unindex_shared. case_match; [|done]. etrans; [apply (same_tables_provider_update c s0 (filter (λ e, e.2 ≠ id)))|done].
Qed.

Lemma unindex_single_views V c addr id info name :
  views_ok V c → V !! id = Some (ESingle addr info) → (∀ n, indexed_name (info_allocation info) = Some n → name = Some n) →
  views_ok (delete id V) (unindex_single name addr id info c).
Proof.
  intros [Hi Hp] Hid Hname. pose proof (provider_matches_delete _ _ _ _ _ _ Hp Hid Hname) as Hp'.
  destruct name as [n|]; cbn [unindex_single].
  - constructor; [|exact Hp']. eapply (indices_match_delete _ (provider_remove c n (addr, id)) id (ESingle addr info) (Some n)); eauto using views_provider_update.
  - constructor; [|exact Hp']. eapply (indices_match_delete _ _ _ _ None); eauto.
Qed.

Lemma unindex_shared_views V c id key s name :
  views_ok V c → V !! id = Some (EShared key s) → (∀ n, indexed_name (shared_allocation s) = Some n → name = Some n) →
  views_ok (delete id V) (unindex_shared name id s c).
Proof.
  intros [Hi Hp] Hid Hname. pose proof (provider_matches_delete_shared _ _ _ _ _ name Hp Hid) as Hp'.
  destruct name as [n|]; cbn [unindex_shared].
  - constructor; [|exact Hp']. eapply (indices_match_delete _ (provider_retain c n id) id (EShared key s) (Some n)); eauto using views_provider_update.
  - constructor; [|exact Hp']. eapply (indices_match_delete _ _ _ _ None); eauto.
Qed.

Lemma lookup_delete_all {A} ids (m : gmap Z A) i : delete_all ids m !! i = if decide (i ∈ ids) then None else m !! i.
Proof.
  unfold delete_all. revert m. induction ids as [|j ids IH]; intros m; cbn [foldl].
  { by rewrite decide_False by apply not_elem_of_nil. }
  rewrite IH. destruct (decide (i ∈ ids)); [by rewrite decide_True by (by right)|].
  destruct (decide (i = j)) as [->|]; [rewrite lookup_delete_eq, decide_True by (by left); done|].
  rewrite lookup_delete_ne by congruence. rewrite decide_False by (by intros [?|?]%elem_of_cons). done.
Qed.

Lemma unindex_all_ok addr es : ∀ V c,
  views_ok V c → NoDup (map fst es) → (∀ id info, (id, info) ∈ es → V !! id = Some (ESingle addr info)) →
  views_ok (delete_all (map fst es) V) (unindex_all addr es c) ∧ same_tables c (unindex_all addr es c).
Proof.
  induction es as [|[id info] es IH]; intros V c Hv Hnd Hes; cbn [map foldl unindex_all]; [by split|].
  apply NoDup_cons in Hnd as [Hid Hnd]. pose proof (Hes id info ltac:(by left)) as He.
  destruct (IH (delete id V) _ (unindex_single_views V c addr id info _ Hv He (λ _ E, E)) Hnd) as [Hv' Ht].
  { intros id' info' Hin. rewrite lookup_delete_ne; [by apply Hes; right|]. intros ->. apply Hid. apply list_elem_of_fmap. by exists (id', info'). }
  split; [exact Hv'|]. etrans; [apply unindex_single_tables|exact Ht].
Qed.

(** ** Operations *)

Definition lookup2 {A} (m : gmap Z (gmap Z A)) (a i : Z) : option A := per_addr ← m !! a; per_addr !! i.

Lemma lookup2_insert {A} (m : gmap Z (gmap Z A)) addr id x a i :
  lookup2 (<[addr := <[id := x]> (default ∅ (m !! addr))]> m) a i
  = if decide (a = addr ∧ i = id) then Some x else lookup2 m a i.
Proof.
  unfold lookup2. destruct (decide (a = addr)) as [->|Ha].
  - rewrite lookup_insert_eq. cbn. destruct (decide (i = id)) as [->|Hi].
    + rewrite lookup_insert_eq, decide_True by done. done.
    + rewrite lookup_insert_ne, decide_False by naive_solver. by destruct (m !! addr); cbn; [|rewrite lookup_empty].
  - rewrite lookup_insert_ne, decide_False by naive_solver. done.
Qed.

Lemma lookup2_delete {A} (m : gmap Z (gmap Z A)) addr a i :
  lookup2 (delete addr m) a i = if decide (a = addr) then None else lookup2 m a i.
Proof.
  unfold lookup2. case_decide as E; [subst; by rewrite lookup_delete_eq|by rewrite lookup_delete_ne by congruence].
Qed.

Lemma lookup2_remove {A} (m : gmap Z (gmap Z A)) addr id per_addr a i :
  m !! addr = Some per_addr →
  lookup2 (if decide (delete id per_addr = ∅) then delete addr m else <[addr := delete id per_addr]> m) a i
  = if decide (a = addr ∧ i = id) then None else lookup2 m a i.
Proof.
  intros Hm. assert (lookup2 m addr i = per_addr !! i) as E by (unfold lookup2; by rewrite Hm).
  assert (delete id per_addr !! i = if decide (i = id) then None else per_addr !! i) as Hd
    by (case_decide; [subst; by rewrite lookup_delete_eq|by rewrite lookup_delete_ne by congruence]).
  destruct (decide (delete id per_addr = ∅)) as [Hemp|Hemp].
  - rewrite lookup2_delete. rewrite Hemp, lookup_empty in Hd. destruct (decide (a = addr)) as [->|Ha].
    + destruct (decide (addr = addr ∧ i = id)) as [?|Hno]; [done|]. rewrite E. revert Hd. case_decide; naive_solver.
    + destruct (decide (a = addr ∧ i = id)); [naive_solver|done].
  - destruct (decide (a = addr)) as [->|Ha].
    + assert (lookup2 (<[addr := delete id per_addr]> m) addr i = delete id per_addr !! i) as -> by (unfold lookup2; by rewrite lookup_insert_eq).
      rewrite Hd, E. destruct (decide (i = id)), (decide (addr = addr ∧ i = id)); naive_solver.
    + assert (lookup2 (<[addr := delete id per_addr]> m) a i = lookup2 m a i) as -> by (unfold lookup2; by rewrite lookup_insert_ne by congruence).
      destruct (decide (a = addr ∧ i = id)); [naive_solver|done].
Qed.

(** A single connection enters or leaves the tables. *)
Lemma core_insert_single V c addr id info :
  table_core V c → V !! id = None → info_allocation info ≠ Exhausted →
  table_core (<[id := ESingle addr info]> V)
    (set_single c (<[addr := <[id := info]> (default ∅ (single c !! addr))]> (single c))).
Proof.
  intros [H1 H2 H3 H4 H5 H6 H7] Hid Hg. constructor; cbn [single by_key key_by_addr shared_by_allocation_id set_single]; try done.
  - intros a i x. change (lookup2 (<[addr := <[id := info]> (default ∅ (single c !! addr))]> (single c)) a i = Some x
      ↔ <[id := ESingle addr info]> V !! i = Some (ESingle a x)). rewrite lookup2_insert.
    destruct (decide (i = id)) as [->|Hi].
    + rewrite lookup_insert_eq. case_decide as E; [destruct E as [-> _]; naive_solver|].
      change (lookup2 (single c) a id) with (per_addr ← single c !! a; per_addr !! id). rewrite H1, Hid. naive_solver.
    + rewrite lookup_insert_ne, decide_False by naive_solver. apply H1.
  - intros key s. rewrite H2. destruct (decide (shared_id s = id)) as [E|E]; [rewrite E, Hid, lookup_insert_eq; naive_solver|].
    by rewrite lookup_insert_ne.
  - intros i key s. destruct (decide (i = id)) as [->|Hi]; [by rewrite lookup_insert_eq|]. rewrite lookup_insert_ne by done. apply H3.
  - intros i key. rewrite H4. destruct (decide (i = id)) as [->|Hi]; [rewrite lookup_insert_eq, Hid; naive_solver|].
    by rewrite lookup_insert_ne.
  - intros i e. destruct (decide (i = id)) as [->|Hi]; [rewrite lookup_insert_eq; by intros [= <-]|].
    rewrite lookup_insert_ne by done. apply H7.
Qed.

Lemma core_delete_singles V c s' ids :
  table_core V c → (∀ i, i ∈ ids → ∃ addr info, V !! i = Some (ESingle addr info)) →
  (∀ a i, lookup2 s' a i = if decide (i ∈ ids) then None else lookup2 (single c) a i) →
  table_core (delete_all ids V) (set_single c s').
Proof.
  intros [H1 H2 H3 H4 H5 H6 H7] Hids Hs.
  assert (∀ i key s, delete_all ids V !! i = Some (EShared key s) ↔ V !! i = Some (EShared key s)) as Hsh.
  { intros i key s. rewrite lookup_delete_all. case_decide as E; [|done]. destruct (Hids i E) as (? & ? & ->). naive_solver. }
  constructor; cbn [single by_key key_by_addr shared_by_allocation_id set_single]; try done.
  - intros a i x. change (lookup2 s' a i = Some x ↔ delete_all ids V !! i = Some (ESingle a x)). rewrite Hs, lookup_delete_all.
    case_decide; [naive_solver|]. apply H1.
  - intros key s. by rewrite Hsh.
  - intros i key s. rewrite Hsh. apply H3.
  - intros i key. setoid_rewrite Hsh. apply H4.
  - intros i e. rewrite lookup_delete_all. case_decide; [done|]. apply H7.
Qed.

Lemma granted_name a :
  a ≠ Exhausted → indexed_name a = if is_unlimited_provider a then None else Some (default ""%string (get_provider_name a)).
Proof. intros Hg. unfold indexed_name. case_match; [done|]. by destruct a. Qed.

Lemma register_ok V c addr id now allocation priority kind owner :
  table_ok V c → V !! id = None → allocation ≠ Exhausted →
  ∃ info, info_allocation info = allocation ∧ info_session_owner info = owner ∧
    table_ok (<[id := ESingle addr info]> V) (register_connection c addr id now allocation priority kind owner).
Proof.
  intros [Hc Hi Hp] Hid Hg. unfold register_connection.
  set (info := Build_ActiveConnectionInfo _ _ _ _ _ _). exists info. split; [done|]. split; [done|].
  pose proof (core_insert_single V c addr id info Hc Hid Hg) as Hc'. set (c1 := set_single c _) in *.
  assert (views_ok V c1) as [Hi1 Hp1] by (by apply views_set_single).
  pose proof (granted_name allocation Hg) as En.
  pose proof (provider_matches_insert _ _ _ addr info Hp1 Hid) as Hp'.
  change (indexed_name (info_allocation info)) with (indexed_name allocation) in Hp'. rewrite En in Hp'.
  destruct (is_unlimited_provider allocation) eqn:Eu.
  - constructor; [done| |done]. pose proof (indices_match_insert _ _ id (ESingle addr info) Hi1 Hid) as Hi'.
    unfold entry_name in Hi'. cbn [entry_allocation] in Hi'. change (info_allocation info) with allocation in Hi'. by rewrite En in Hi'.
  - set (n := default ""%string (get_provider_name allocation)) in *.
    assert (indices_match V (provider_insert c1 n (addr, id))) as Hi2 by (by apply (indices_match_same V c1)).
    pose proof (indices_match_insert _ _ id (ESingle addr info) Hi2 Hid) as Hi'.
    unfold entry_name in Hi'. cbn [entry_allocation] in Hi'. change (info_allocation info) with allocation in Hi'. rewrite En in Hi'.
    constructor; [by eapply core_same; [|exact Hc']|exact Hi'|]. by apply (provider_matches_same _ (provider_insert c1 n (addr, id))).
Qed.
