(* ===== verification/ActiveLedger.v ===== *)
(** * The ledger of the table of active connections

    What every operation of [ActiveConnections] does to the allocations that the
    table holds, whatever state the table is in: those that leave the table are
    given back for release, except for the stream that [make_shared_connection]
    overwrites when its key is taken.  Nothing here relies on the agreement of
    the views of the table. *)

From S2P Require Import Prelude ProviderPool ProviderLineup ProviderManager ActiveConnections ActiveIndex.
From stdpp Require Import gmap.

#[local] Open Scope Z_scope.

(** ** Sharing *)

(** A request to share the connection of a client under a key, or to join the
    stream of a key. *)
Inductive sharing := ToShare (addr : Z) (key : string) | ToJoin (addr : Z) (key : string).

(** The code checks nothing; a protocol that its callers may keep restricts the
    requests: a client shares under a key without a stream, and neither shares
    nor joins while it watches another stream. *)
Definition unrestricted (c : Connections) (r : sharing) : Prop := True.

Definition orderly (c : Connections) (r : sharing) : Prop :=
  match r with
  | ToShare addr key => key_by_addr c !! addr = None ∧ by_key c !! key = None
  | ToJoin addr key => key_by_addr c !! addr = None ∨ key_by_addr c !! addr = Some key
  end.

(** The allocation that [make_shared_connection] overwrites and nobody releases. *)
Definition overwritten (c : Connections) (addr : Z) (key : string) : list ProviderAllocation :=
  match map_to_list <$> single c !! addr with
  | Some (_ :: _) => option_list (shared_allocation <$> by_key c !! key)
  | _ => []
  end.

Lemma orderly_overwrites_nothing c addr key : orderly c (ToShare addr key) → overwritten c addr key = [].
Proof. intros [_ E]. unfold overwritten. rewrite E. by repeat case_match. Qed.

(** ** Allocations of the maps *)

Definition client_allocations (m : gmap Z ActiveConnectionInfo) : list ProviderAllocation :=
  (λ e, info_allocation e.2) <$> map_to_list m.

Definition single_allocations (m : gmap Z (gmap Z ActiveConnectionInfo)) : list ProviderAllocation :=
  map_to_list m ≫= λ p, client_allocations p.2.

Definition stream_allocations (m : gmap string SharedAllocation) : list ProviderAllocation :=
  (λ p, shared_allocation p.2) <$> map_to_list m.

(** The allocations of the single connections and of the streams. *)
Definition table_allocations (c : Connections) : list ProviderAllocation :=
  single_allocations (single c) ++ stream_allocations (by_key c).

Lemma client_insert m id info : m !! id = None → client_allocations (<[id := info]> m) ≡ₚ info_allocation info :: client_allocations m.
Proof. intros H. unfold client_allocations. by rewrite map_to_list_insert. Qed.

Lemma client_delete m id info : m !! id = Some info → client_allocations m ≡ₚ info_allocation info :: client_allocations (delete id m).
Proof. intros H. rewrite <- client_insert by apply lookup_delete_eq. by rewrite insert_delete_id. Qed.

Lemma single_insert m a x : m !! a = None → single_allocations (<[a := x]> m) ≡ₚ client_allocations x ++ single_allocations m.
Proof. intros H. unfold single_allocations. by rewrite map_to_list_insert. Qed.

Lemma single_delete m a x : m !! a = Some x → single_allocations m ≡ₚ client_allocations x ++ single_allocations (delete a m).
Proof. intros H. rewrite <- single_insert by apply lookup_delete_eq. by rewrite insert_delete_id. Qed.

Lemma single_update m a x y :
  m !! a = Some x → client_allocations y ++ single_allocations m ≡ₚ client_allocations x ++ single_allocations (<[a := y]> m).
Proof.
  intros H. rewrite (single_delete m a x H), <- (insert_delete_eq m), single_insert by apply lookup_delete_eq.
  rewrite !app_assoc. by rewrite (Permutation_app_comm (client_allocations y)).
Qed.

Lemma stream_insert m k s : m !! k = None → stream_allocations (<[k := s]> m) ≡ₚ shared_allocation s :: stream_allocations m.
Proof. intros H. unfold stream_allocations. by rewrite map_to_list_insert. Qed.

Lemma stream_delete m k s : m !! k = Some s → stream_allocations m ≡ₚ shared_allocation s :: stream_allocations (delete k m).
Proof. intros H. rewrite <- stream_insert by apply lookup_delete_eq. by rewrite insert_delete_id. Qed.

(** A stream is entered, in place of the one that the key had. *)
Lemma stream_put m k s :
  shared_allocation s :: stream_allocations m ≡ₚ stream_allocations (<[k := s]> m) ++ option_list (shared_allocation <$> m !! k).
Proof.
  destruct (m !! k) as [old|] eqn:E; cbn.
  - rewrite (stream_delete m k old E), <- (insert_delete_eq m), stream_insert by apply lookup_delete_eq.
    rewrite <- Permutation_cons_append. apply Permutation_swap.
  - by rewrite app_nil_r, stream_insert.
Qed.

Lemma stream_update m k s s' :
  m !! k = Some s → shared_allocation s' = shared_allocation s → stream_allocations (<[k := s']> m) ≡ₚ stream_allocations m.
Proof.
  intros H E. pose proof (stream_put m k s') as P. rewrite H in P. cbn in P. rewrite E, <- Permutation_cons_append in P.
  symmetry. by apply (Permutation_cons_inv (a := shared_allocation s)).
Qed.

(** ** Flows *)

(** The allocations [out] leave the table and nothing enters it. *)
Record flow (c c' : Connections) (out : list ProviderAllocation) : Prop := {
  fl_allocations : table_allocations c ≡ₚ table_allocations c' ++ out;
  fl_entries a i : is_Some (lookup2 (single c') a i) → is_Some (lookup2 (single c) a i);
}.

Lemma flow_tables c c1 c2 out : same_tables c1 c2 → flow c c1 out → flow c c2 out.
Proof. intros [E1 E2 _ _] [H1 H2]. constructor; unfold table_allocations in *; by rewrite ?E1, ?E2. Qed.

Lemma flow_refl c : flow c c [].
Proof. constructor; [by rewrite app_nil_r|done]. Qed.

(** Only streams change. *)
Lemma flow_streams c c' out :
  single c' = single c → stream_allocations (by_key c) ≡ₚ stream_allocations (by_key c') ++ out → flow c c' out.
Proof. intros E H. constructor; unfold table_allocations; rewrite E; [by rewrite H, app_assoc|done]. Qed.

(** Only single connections change. *)
Lemma flow_singles c m out :
  single_allocations (single c) ≡ₚ single_allocations m ++ out →
  (∀ a i, is_Some (lookup2 m a i) → is_Some (lookup2 (single c) a i)) → flow c (set_single c m) out.
Proof.
  intros H Hi. constructor; [|done]. unfold table_allocations. cbn [set_single single by_key]. rewrite H, <- !app_assoc.
  apply Permutation_app_head, Permutation_app_comm.
Qed.

Lemma reindex_shared_tables c old new : same_tables c (reindex_shared c old new).
Proof. unfold reindex_shared. by case_match. Qed.

Lemma unindex_all_tables addr es : ∀ c, same_tables c (unindex_all addr es c).
Proof.
  induction es as [|e es IH]; intros c; [done|]. cbn [unindex_all foldl]. etrans; [apply unindex_single_tables|apply IH].
Qed.

Lemma register_flow c addr id now a priority kind owner :
  lookup2 (single c) addr id = None →
  let c' := register_connection c addr id now a priority kind owner in
  table_allocations c' ≡ₚ a :: table_allocations c ∧
  ∀ x i, is_Some (lookup2 (single c') x i) → i = id ∨ is_Some (lookup2 (single c) x i).
Proof.
  intros Hid c'. unfold c', register_connection. set (info := Build_ActiveConnectionInfo _ _ _ _ _ _).
  set (c1 := set_single c _). assert (same_tables c1 (if is_unlimited_provider a then c1 else
    upsert_priority_entry (provider_insert c1 (default ""%string (get_provider_name a)) (addr, id)) (default ""%string (get_provider_name a))
      (priority, now, id) (OwnerSingle addr) kind)) as [E1 E2 _ _] by (by case_match).
  unfold table_allocations. rewrite E1, E2. cbn [c1 set_single single by_key]. split.
  - unfold lookup2 in Hid. destruct (single c !! addr) as [x|] eqn:Ex; cbn [default from_option] in *.
    + pose proof (single_update (single c) addr x (<[id := info]> x) Ex) as P. rewrite client_insert in P by done.
      change (a :: single_allocations (single c) ++ stream_allocations (by_key c))
        with ((a :: single_allocations (single c)) ++ stream_allocations (by_key c)). apply Permutation_app_tail.
      symmetry. apply (Permutation_app_inv_l (client_allocations x)). rewrite <- P. cbn. symmetry. apply Permutation_middle.
    + rewrite single_insert, client_insert by (done || apply lookup_empty). done.
  - intros x i. rewrite lookup2_insert. case_decide; [by left; naive_solver|by right].
Qed.

Lemma release_single_flow c addr c' released : release_single c addr = Some (c', released) → flow c c' released.
Proof.
  unfold release_single. destruct (single c !! addr) as [x|] eqn:Ex; [|done]. cbn. intros [= <- <-].
  eapply flow_tables; [apply unindex_all_tables|]. apply flow_singles.
  - rewrite (single_delete _ _ _ Ex). apply Permutation_app_comm.
  - intros a i. rewrite lookup2_delete. case_decide; [by intros [? ?]|done].
Qed.

Lemma leave_shared_flow c addr key s : by_key c !! key = Some s → flow c (leave_shared c addr key s) [].
Proof.
  intros Hs. unfold leave_shared. set (c1 := set_shared c (by_key c) _ _).
  assert (∀ c2 new, same_tables c1 c2 → shared_allocation new = shared_allocation s →
    flow c (set_shared c2 (<[key := new]> (by_key c2)) (key_by_addr c2) (shared_by_allocation_id c2)) []) as H.
  { intros c2 new [E1 E2 _ _] Ea. apply flow_streams; [done|]. cbn [set_shared by_key]. rewrite app_nil_r, E2. symmetry. by eapply stream_update. }
  cbv zeta. case_match; [by apply H|]. case_match; [|by apply H]. apply H; [|done]. case_match; [done|apply reindex_shared_tables].
Qed.

Lemma release_shared_flow c addr : flow c (release_shared c addr).1 (release_shared c addr).2.
Proof.
  unfold release_shared. destruct (key_by_addr c !! addr) as [key|]; cbn [mbind option_bind]; [|apply flow_refl].
  destruct (by_key c !! key) as [s|] eqn:Es; cbn [mbind option_bind]; [|apply flow_refl].
  case_decide; cbn [fst snd]; [|by apply leave_shared_flow]. eapply flow_tables; [apply unindex_shared_tables|].
  apply flow_streams; [done|]. rewrite (stream_delete _ _ _ Es). apply Permutation_cons_append.
Qed.

Lemma remove_single_flow name c addr id per_addr info :
  lookup_single c addr id = Some (per_addr, info) → flow c (remove_single name addr id per_addr info c) [info_allocation info].
Proof.
  unfold lookup_single. destruct (single c !! addr) as [x|] eqn:Ex; [|done]. cbn.
  destruct (x !! id) as [y|] eqn:Ey; [|done]. cbn. intros [= -> ->]. unfold remove_single. eapply flow_tables; [apply unindex_single_tables|].
  apply flow_singles.
  - rewrite <- Permutation_cons_append. pose proof (client_delete _ _ _ Ey) as Hd. case_decide as E.
    + rewrite (single_delete _ _ _ Ex), Hd, E. done.
    + pose proof (single_update (single c) addr per_addr (delete id per_addr) Ex) as P. rewrite Hd in P.
      apply (Permutation_app_inv_l (client_allocations (delete id per_addr))). rewrite P. cbn. apply Permutation_middle.
  - intros a i. rewrite lookup2_remove by done. case_decide; [by intros [? ?]|done].
Qed.

Lemma remove_shared_flow name c id key s : by_key c !! key = Some s → flow c (remove_shared name id key s c) [shared_allocation s].
Proof.
  intros Hs. unfold remove_shared. eapply flow_tables; [apply unindex_shared_tables|]. apply flow_streams; [done|].
  rewrite (stream_delete _ _ _ Hs). apply Permutation_cons_append.
Qed.

Lemma release_handle_flow c client id : flow c (release_handle c client id).1 (release_handle c client id).2.
Proof.
  unfold release_handle. destruct (lookup_single c client id) as [[x info]|] eqn:E; [by apply remove_single_flow|].
  destruct (shared_by_allocation_id c !! id) as [key|]; [|apply flow_refl].
  destruct (by_key c !! key) as [s|] eqn:Es; [by apply remove_shared_flow|]. apply flow_streams; [done|]. by rewrite app_nil_r.
Qed.

Lemma reindex_singles_tables addr kind priority es : ∀ c, same_tables c (foldl (reindex_single addr kind priority) c es).
Proof.
  induction es as [|[id info] es IH]; intros c; [done|]. cbn [foldl]. etrans; [|apply IH]. unfold reindex_single. by case_match.
Qed.

Lemma reclassify_flow c addr kind priority : flow c (reclassify_connection c addr kind priority).1 [].
Proof.
  unfold reclassify_connection. destruct (single c !! addr) as [x|] eqn:Ex.
  - eapply flow_tables; [apply reindex_singles_tables|]. apply flow_singles.
    + rewrite app_nil_r. pose proof (single_update (single c) addr x (reclassify_info kind priority <$> x) Ex) as P.
      assert (client_allocations (reclassify_info kind priority <$> x) = client_allocations x) as E.
      { unfold client_allocations. rewrite map_to_list_fmap, <- list_fmap_compose. apply list_fmap_ext. intros i [j y] _. cbn.
        unfold reclassify_info. by case_match. }
      rewrite E in P. by apply Permutation_app_inv_l in P.
    + intros a i. unfold lookup2. destruct (decide (a = addr)) as [->|Ha]; [|by rewrite lookup_insert_ne].
      rewrite lookup_insert_eq, Ex. cbn. by rewrite lookup_fmap, fmap_is_Some.
  - destruct (key_by_addr c !! addr) as [key|]; cbn [mbind option_bind]; [|apply flow_refl].
    destruct (by_key c !! key) as [s|] eqn:Es; cbn [mbind option_bind]; [|apply flow_refl].
    destruct (shared_connections s !! addr); cbn [mbind option_bind]; [|apply flow_refl].
    eapply flow_tables; [apply reindex_shared_tables|]. apply flow_streams; [done|]. rewrite app_nil_r. symmetry. by eapply stream_update.
Qed.

Lemma make_shared_flow c addr key c' released tokens :
  make_shared_connection c addr key = (c', released, tokens) → flow c c' (released ++ overwritten c addr key).
Proof.
  unfold make_shared_connection, overwritten. destruct (single c !! addr) as [x|] eqn:Ex; cbn [fmap option_fmap option_map];
    [|intros [= <- <- <-]; apply flow_refl].
  pose proof (eq_refl (client_allocations x)) as Hx. unfold client_allocations in Hx at 2.
  destruct (map_to_list x) as [|[id info] extras]; [intros [= <- <- <-]; apply flow_refl|].
  set (c1 := unindex_all addr extras _). assert (same_tables c c1) as [T1 T2 T3 T4]
    by (etrans; [apply unindex_single_tables|apply unindex_all_tables]). clearbody c1.
  set (shared := Build_SharedAllocation _ _ _ _ _ _ _ _). set (c2 := set_shared _ _ _ _).
  intros [= <- <- <-]. apply flow_tables with (c1 := c2); [by case_match|]. constructor; cbn [c2 set_shared set_single single by_key].
  - unfold table_allocations. cbn [c2 set_shared set_single single by_key]. rewrite T1, T2, (single_delete _ _ _ Ex), Hx. cbn [fmap list_fmap snd].
    change ((λ e : Z * ActiveConnectionInfo, info_allocation e.2) <$> extras) with (map (λ e : Z * ActiveConnectionInfo, info_allocation e.2) extras).
    pose proof (stream_put (by_key c) key shared) as P. change (shared_allocation shared) with (info_allocation info) in P.
    set (E := map _ extras). set (D := single_allocations _). set (S0 := stream_allocations (by_key c)) in *.
    trans (E ++ D ++ (info_allocation info :: S0)).
    { cbn. rewrite <- app_assoc. rewrite !app_assoc. apply Permutation_middle. }
    rewrite P, <- !app_assoc. rewrite (Permutation_app_comm E), <- !app_assoc. do 2 apply Permutation_app_head. apply Permutation_app_comm.
  - intros a i. rewrite T1, lookup2_delete. case_decide; [by intros [? ?]|done].
Qed.

Lemma add_shared_flow c addr key priority kind c' : add_shared_connection c addr key priority kind = Some c' → flow c c' [].
Proof.
  unfold add_shared_connection. destruct (by_key c !! key) as [s|] eqn:Es; [|done]. cbn [mbind option_bind]. intros [= <-].
  set (new := reclassified _). set (c1 := set_shared c _ _ _).
  set (c2 := if decide _ then c1 else reindex_shared c1 s new).
  assert (same_tables c1 c2) as [T1 T2 _ _] by (unfold c2; case_match; [done|apply reindex_shared_tables]). clearbody c2.
  apply flow_streams; cbn [set_shared single by_key]; [by rewrite T1|]. rewrite T2, app_nil_r. symmetry. by eapply stream_update.
Qed.

Lemma evict_flow c victim c' a tokens stream : evict_victim c victim = Some (c', a, tokens, stream) → flow c c' [a].
Proof.
  destruct victim as [[[owner id] prio] created]. unfold evict_victim. destruct owner as [addr|shared].
  - destruct (lookup_single c addr id) as [[x info]|] eqn:E; [|done]. cbn [mbind option_bind]. case_match; [|done].
    intros [= <- <- <- <-]. by apply remove_single_flow.
  - destruct (shared_by_allocation_id c !! shared) as [key|]; [|done]. cbn [mbind option_bind].
    destruct (by_key c !! key) as [s|] eqn:Es; [|done]. cbn [mbind option_bind]. case_match; [|done].
    intros [= <- <- <- <-]. by apply remove_shared_flow.
Qed.
