(* ===== verification/ActiveTable.v ===== *)
(** * Operations on the table of active connections

    The operations of [ActiveConnections] as a transition system.  When callers
    share and join as the sharing protocol asks, every operation keeps the views
    of the table in agreement, and kind and priority of a shared stream follow
    from the clients that watch it.  Whatever the callers do, no allocation is
    released twice, and none is lost but the stream that sharing under a taken
    key overwrites. *)

From S2P Require Import Prelude ProviderPool ProviderLineup ProviderManager ActiveConnections ActiveIndex ActiveLedger.
From stdpp Require Import gmap relations.

#[local] Open Scope Z_scope.

(** ** Allocations *)

Definition held (V : gmap Z entry) : list ProviderAllocation := map (λ e, entry_allocation e.2) (map_to_list V).

Lemma held_insert V id e : V !! id = None → held (<[id := e]> V) ≡ₚ entry_allocation e :: held V.
Proof. intros Hid. unfold held. by rewrite map_to_list_insert. Qed.

Lemma held_delete V id e : V !! id = Some e → held V ≡ₚ entry_allocation e :: held (delete id V).
Proof. intros Hid. rewrite <- held_insert by apply lookup_delete_eq. by rewrite insert_delete_id. Qed.

Lemma held_update V id e e' :
  V !! id = Some e → entry_allocation e' = entry_allocation e → held (<[id := e']> V) ≡ₚ held V.
Proof.
  intros Hid He. rewrite (held_delete V id e Hid), <- He, <- held_insert by apply lookup_delete_eq. by rewrite insert_delete_eq.
Qed.

Lemma held_delete_all addr es : ∀ V,
  NoDup (map fst es) → (∀ id info, (id, info) ∈ es → V !! id = Some (ESingle addr info)) →
  held V ≡ₚ held (delete_all (map fst es) V) ++ map (λ e, info_allocation e.2) es.
Proof.
  induction es as [|[id info] es IH]; intros V Hnd Hes; [by rewrite app_nil_r|].
  apply NoDup_cons in Hnd as [Hid Hnd]. rewrite (held_delete V id _ (Hes id info ltac:(by left))).
  rewrite (IH (delete id V) Hnd). { apply Permutation_middle. }
  intros id' info' Hin. rewrite lookup_delete_ne; [by apply Hes; right|]. intros ->. apply Hid.
  apply list_elem_of_fmap. by exists (id', info').
Qed.

(** ** Shared streams in the tables *)

Lemma elem_of_map_to_list_fst `{Countable K} {A} (m : gmap K A) a : a ∈ map fst (map_to_list m) ↔ is_Some (m !! a).
Proof.
  change (map fst (map_to_list m)) with ((map_to_list m).*1). rewrite list_elem_of_fmap. split.
  - intros ([k x] & -> & Hx%elem_of_map_to_list). by exists x.
  - intros [x Hx]. exists (a, x). by rewrite elem_of_map_to_list.
Qed.

Section SharedTables.
Context (V : gmap Z entry) (c : Connections) (Hc : table_core V c).

Lemma core_stream id key s : V !! id = Some (EShared key s) → shared_id s = id ∧ by_key c !! key = Some s.
Proof. intros H. pose proof (tc_id _ _ Hc _ _ _ H) as E. split; [done|]. apply (tc_key _ _ Hc). by rewrite E. Qed.

Lemma core_delete_shared id key s addrs :
  V !! id = Some (EShared key s) →
  (∀ a, addrs !! a = if decide (is_Some (shared_connections s !! a)) then None else key_by_addr c !! a) →
  table_core (delete id V) (set_shared c (delete key (by_key c)) addrs (delete id (shared_by_allocation_id c))).
Proof.
  intros Hid Ha. destruct (core_stream _ _ _ Hid) as [Es Ek]. destruct Hc as [H1 H2 H3 H4 H5 H6 H7].
  constructor; cbn [single by_key key_by_addr shared_by_allocation_id set_shared].
  - intros a i x. rewrite H1. destruct (decide (i = id)) as [->|Hi]; [rewrite lookup_delete_eq, Hid; naive_solver|by rewrite lookup_delete_ne].
  - intros k t. destruct (decide (k = key)) as [->|Hk].
    + rewrite lookup_delete_eq. split; [done|]. intros Ht. destruct (decide (shared_id t = id)) as [Et|Et]; [by rewrite Et, lookup_delete_eq in Ht|].
      rewrite lookup_delete_ne in Ht by done. apply H2 in Ht. congruence.
    + rewrite lookup_delete_ne, H2 by done. destruct (decide (shared_id t = id)) as [Et|Et]; [rewrite Et, lookup_delete_eq, Hid; naive_solver|].
      by rewrite lookup_delete_ne.
  - intros i k t. destruct (decide (i = id)) as [->|Hi]; [by rewrite lookup_delete_eq|]. rewrite lookup_delete_ne by done. apply H3.
  - intros i k. destruct (decide (i = id)) as [->|Hi]; [rewrite !lookup_delete_eq; naive_solver|]. rewrite !lookup_delete_ne by done. apply H4.
  - intros a k. rewrite Ha. destruct (decide (is_Some (shared_connections s !! a))) as [Hs|Hs].
    + split; [done|]. intros (t & Ht & Hta). apply lookup_delete_Some in Ht as [Hk Ht].
      assert (key_by_addr c !! a = Some key) as E1 by (apply H5; eauto). assert (key_by_addr c !! a = Some k) as E2 by (apply H5; eauto). congruence.
    + rewrite H5. split; intros (t & Ht & Hta); exists t; [|by apply lookup_delete_Some in Ht as [_ ?]].
      split; [|done]. apply lookup_delete_Some. split; [|done]. intros ->. congruence.
  - intros k t Ht. apply lookup_delete_Some in Ht as [_ Ht]. by apply (H6 k).
  - intros i e Hi. apply lookup_delete_Some in Hi as [_ Hi]. by apply (H7 i).
Qed.

Lemma core_insert_shared id key s addrs :
  V !! id = None → by_key c !! key = None → shared_id s = id → shared_ok s → shared_allocation s ≠ Exhausted →
  (∀ a, is_Some (shared_connections s !! a) → key_by_addr c !! a = None) →
  (∀ a, addrs !! a = if decide (is_Some (shared_connections s !! a)) then Some key else key_by_addr c !! a) →
  table_core (<[id := EShared key s]> V) (set_shared c (<[key := s]> (by_key c)) addrs (<[id := key]> (shared_by_allocation_id c))).
Proof.
  intros Hid Hkey Es Hok Hg Hfree Ha. destruct Hc as [H1 H2 H3 H4 H5 H6 H7].
  constructor; cbn [single by_key key_by_addr shared_by_allocation_id set_shared].
  - intros a i x. rewrite H1. destruct (decide (i = id)) as [->|Hi]; [rewrite lookup_insert_eq, Hid; naive_solver|by rewrite lookup_insert_ne].
  - intros k t. destruct (decide (k = key)) as [->|Hk].
    + rewrite lookup_insert_eq. split; [intros [= <-]; by rewrite Es, lookup_insert_eq|].
      destruct (decide (shared_id t = id)) as [Et|Et]; [rewrite Et, lookup_insert_eq; congruence|].
      rewrite lookup_insert_ne by done. intros Ht. apply H2 in Ht. congruence.
    + rewrite lookup_insert_ne, H2 by done. destruct (decide (shared_id t = id)) as [Et|Et]; [rewrite Et, lookup_insert_eq, Hid; naive_solver|].
      by rewrite lookup_insert_ne.
  - intros i k t. destruct (decide (i = id)) as [->|Hi]; [rewrite lookup_insert_eq; congruence|]. rewrite lookup_insert_ne by done. apply H3.
  - intros i k. destruct (decide (i = id)) as [->|Hi]; [rewrite !lookup_insert_eq; naive_solver|]. rewrite !lookup_insert_ne by done. apply H4.
  - intros a k. rewrite Ha. destruct (decide (is_Some (shared_connections s !! a))) as [Hs|Hs].
    + split; [intros [= <-]; exists s; by rewrite lookup_insert_eq|]. intros (t & Ht & Hta).
      apply lookup_insert_Some in Ht as [[-> ->]|[Hk Ht]]; [done|]. assert (key_by_addr c !! a = Some k) as E by (apply H5; eauto).
      rewrite (Hfree a Hs) in E. congruence.
    + rewrite H5. split; intros (t & Ht & Hta); exists t.
      * rewrite lookup_insert_ne; [done|]. congruence.
      * apply lookup_insert_Some in Ht as [[-> ->]|[Hk Ht]]; [congruence|done].
  - intros k t Ht. apply lookup_insert_Some in Ht as [[_ <-]|[_ Ht]]; [done|by apply (H6 k)].
  - intros i e Hi. apply lookup_insert_Some in Hi as [[_ <-]|[_ Hi]]; [done|by apply (H7 i)].
Qed.
End SharedTables.

(** The stream [key] changes its subscribers. *)
Lemma core_update_shared V c id key s s' addrs :
  table_core V c → V !! id = Some (EShared key s) → shared_id s' = id → shared_ok s' →
  shared_allocation s' = shared_allocation s →
  (∀ a, is_Some (shared_connections s' !! a) → key_by_addr c !! a = None ∨ key_by_addr c !! a = Some key) →
  (∀ a, addrs !! a = if decide (is_Some (shared_connections s' !! a)) then Some key else
                     if decide (is_Some (shared_connections s !! a)) then None else key_by_addr c !! a) →
  table_core (<[id := EShared key s']> V) (set_shared c (<[key := s']> (by_key c)) addrs (shared_by_allocation_id c)).
Proof.
  intros Hc Hid Es Hok Hal Hfree Ha. destruct (core_stream _ _ Hc _ _ _ Hid) as [_ Ek].
  set (gone := delete_all (map fst (map_to_list (shared_connections s))) (key_by_addr c)).
  assert (∀ a, gone !! a = if decide (is_Some (shared_connections s !! a)) then None else key_by_addr c !! a) as Hgone.
  { intros a. unfold gone. rewrite lookup_delete_all. pose proof (elem_of_map_to_list_fst (shared_connections s) a).
    destruct (decide (a ∈ _)), (decide (is_Some _)); naive_solver. }
  pose proof (core_delete_shared _ _ Hc id key s gone Hid Hgone) as Hd.
  eapply core_insert_shared with (id := id) (key := key) (s := s') (addrs := addrs) in Hd;
    cbn [by_key key_by_addr shared_by_allocation_id set_shared] in *; try done.
  - rewrite insert_delete_eq in Hd. cbn [set_shared single by_key key_by_addr shared_by_allocation_id by_provider priority_index soft_priority_index] in Hd.
    rewrite !insert_delete_eq in Hd. rewrite (insert_id (shared_by_allocation_id c)) in Hd; [exact Hd|].
    apply (tc_ids _ _ Hc). eauto.
  - apply lookup_delete_eq.
  - apply lookup_delete_eq.
  - rewrite Hal. apply (tc_granted _ _ Hc _ _ Hid).
  - intros a H'. rewrite Hgone. destruct (decide (is_Some (shared_connections s !! a))) as [|Hno]; [done|].
    destruct (Hfree a H') as [|E]; [done|]. apply (tc_addrs _ _ Hc) in E as (t & Ht & Hta). congruence.
  - intros a. rewrite Ha, Hgone. done.
Qed.

(** ** Kind and priority of a shared stream *)

Lemma effective_some subscribers :
  subscribers ≠ ∅ → is_Some (shared_effective_priority subscribers (shared_effective_kind subscribers)).
Proof.
  intros Hne. unfold shared_effective_priority, shared_effective_kind.
  assert (map snd (map_to_list subscribers) ≠ []) as Hl.
  { intros E. apply map_eq_nil in E. by apply map_to_list_empty_iff in E. }
  set (l := map snd (map_to_list subscribers)) in *. clearbody l. set (all := forallb _ l).
  assert (∃ x, x ∈ l ∧ sub_kind x = if all then Soft else Normal) as (x & Hx & Hk).
  { destruct all eqn:E; unfold all in E.
    - destruct l as [|x l]; [done|]. exists x. split; [by left|]. cbn in E. apply andb_true_iff in E as [E _]. by apply bool_decide_eq_true in E.
    - clear Hl. induction l as [|x l IH]; [done|]. cbn in E. destruct (sub_kind x) eqn:Ex.
      + exists x. split; [by left|done].
      + rewrite bool_decide_true in E by done. destruct IH as (y & Hy & Hky); [done|]. exists y. split; [by right|done]. }
  destruct (filter _ l) as [|y l'] eqn:Ef; [|by eexists].
  assert (x ∈ filter (λ s, sub_kind s = if all then Soft else Normal) l) as Hin by (by apply list_elem_of_filter).
  rewrite Ef in Hin. by apply not_elem_of_nil in Hin.
Qed.

Lemma reclassified_ok s : shared_connections s ≠ ∅ → shared_ok (reclassified s).
Proof.
  intros Hne. constructor; [done|done|]. intros _. cbn. destruct (effective_some _ Hne) as [p ->]. done.
Qed.

(** ** Moves in the indices *)

Lemma reindex_shared_providers V c old new : provider_matches V c → provider_matches V (reindex_shared c old new).
Proof. unfold reindex_shared. case_match; [|done]. by apply provider_matches_same. Qed.

Lemma reindex_shared_indices V c id key old new :
  indices_match V c → V !! id = Some (EShared key old) → shared_id old = id → shared_id new = id →
  shared_allocation new = shared_allocation old → indices_match (<[id := EShared key new]> V) (reindex_shared c old new).
Proof.
  intros Hm Hid Eo En Ea.
  assert (indices_match (<[id := EShared key new]> V) (match entry_name (EShared key old) with
    | Some name => upsert_priority_entry (remove_priority_entry c name (entry_key id (EShared key old)) (shared_kind old)) name
                     (entry_key id (EShared key new)) (OwnerShared id) (shared_kind new)
    | None => c end)) as H.
  { refine (indices_match_update V c id (EShared key old) (EShared key new) Hm Hid _). unfold entry_name. cbn. by rewrite Ea. }
  unfold reindex_shared, shared_key. rewrite Eo, En. exact H.
Qed.

Lemma reindex_if_changed V c id key old new :
  views_ok V c → V !! id = Some (EShared key old) → shared_id old = id → shared_id new = id →
  shared_allocation new = shared_allocation old → shared_created_at new = shared_created_at old →
  views_ok (<[id := EShared key new]> V)
    (if decide ((shared_priority new, shared_kind new) = (shared_priority old, shared_kind old)) then c
     else reindex_shared c old new).
Proof.
  intros [Hi Hp] Hid Eo En Ea Et. case_decide as E.
  - constructor; [|by eapply provider_matches_update_shared]. eapply indices_match_ignore; eauto; unfold entry_name; cbn; congruence.
  - constructor; [by eapply reindex_shared_indices|]. apply reindex_shared_providers. by eapply provider_matches_update_shared.
Qed.

(** ** Operations *)

(** An operation that turns [V] into [V'], taking in the allocations [acquired]
    and giving back [released]. *)
Record step_ok (V : gmap Z entry) (acquired : list ProviderAllocation) (c' : Connections)
    (released : list ProviderAllocation) (V' : gmap Z entry) : Prop := {
  so_table : table_ok V' c';
  so_held : held V ++ acquired ≡ₚ held V' ++ released;
}.

Lemma step_same V c : table_ok V c → step_ok V [] c [] V.
Proof. by constructor. Qed.

Lemma register_step V c addr id now allocation priority kind owner :
  table_ok V c → V !! id = None → allocation ≠ Exhausted →
  ∃ info, info_allocation info = allocation ∧ info_session_owner info = owner ∧
    step_ok V [allocation] (register_connection c addr id now allocation priority kind owner) [] (<[id := ESingle addr info]> V).
Proof.
  intros Hok Hid Hg. destruct (register_ok V c addr id now allocation priority kind owner Hok Hid Hg) as (info & Ea & Eo & Hok').
  exists info. split_and!; [done|done|]. constructor; [done|]. rewrite app_nil_r, held_insert by done. cbn. rewrite Ea. symmetry. apply Permutation_cons_append.
Qed.

(** The entries of a client. *)
Lemma client_entries V c addr per_addr :
  table_core V c → single c !! addr = Some per_addr →
  NoDup (map fst (map_to_list per_addr)) ∧
  (∀ id info, (id, info) ∈ map_to_list per_addr → V !! id = Some (ESingle addr info)) ∧
  (∀ a i, lookup2 (delete addr (single c)) a i
          = if decide (i ∈ map fst (map_to_list per_addr)) then None else lookup2 (single c) a i).
Proof.
  intros Hc Hs.
  assert (∀ id info, per_addr !! id = Some info → V !! id = Some (ESingle addr info)) as He.
  { intros id info H. apply (tc_single _ _ Hc). by rewrite Hs. }
  split_and!.
  - apply NoDup_fst_map_to_list.
  - intros id info. rewrite elem_of_map_to_list. apply He.
  - intros a i. rewrite lookup2_delete. pose proof (elem_of_map_to_list_fst per_addr i) as Hin.
    destruct (decide (i ∈ map fst (map_to_list per_addr))) as [Hi|Hi].
    + case_decide as Ea; [done|]. apply Hin in Hi as [info Hi]. apply He in Hi. destruct (lookup2 (single c) a i) as [x|] eqn:Ex; [|done].
      apply (tc_single _ _ Hc) in Ex. congruence.
    + case_decide as Ea; [|done]. subst a. unfold lookup2. rewrite Hs. cbn. destruct (per_addr !! i) eqn:E; [|done]. naive_solver.
Qed.

(** The single connections of a client leave. *)
Lemma withdraw_client V c c' addr per_addr :
  table_core V c → single c !! addr = Some per_addr → views_ok (delete_all (map fst (map_to_list per_addr)) V) c' →
  same_tables (set_single c (delete addr (single c))) c' → table_ok (delete_all (map fst (map_to_list per_addr)) V) c'.
Proof.
  intros Hc Es [Hi Hp] Ht. destruct (client_entries _ _ _ _ Hc Es) as (_ & Hes & Hl). constructor; [|done|done].
  eapply core_same; [exact Ht|]. apply core_delete_singles; [done| |done].
  intros i Hin. apply list_elem_of_fmap in Hin as ([i' info] & -> & Hin). eauto.
Qed.

Lemma dom_delete_all (V : gmap Z entry) ids : dom (delete_all ids V) ⊆ dom V.
Proof. apply subseteq_dom, map_subseteq_spec. intros i e. rewrite lookup_delete_all. by case_decide. Qed.

Lemma release_single_step V c addr c' released :
  table_ok V c → release_single c addr = Some (c', released) → ∃ V', dom V' ⊆ dom V ∧ step_ok V [] c' released V'.
Proof.
  intros [Hc Hi Hp] Hr. unfold release_single in Hr. destruct (single c !! addr) as [per_addr|] eqn:Es; [|done]. cbn in Hr. injection Hr as <- <-.
  destruct (client_entries _ _ _ _ Hc Es) as (Hnd & Hes & Hl). set (es := map_to_list per_addr) in *. set (c1 := set_single c _).
  destruct (unindex_all_ok addr es V c1) as [Hv Ht]; [by apply views_set_single|done|done|].
  exists (delete_all (map fst es) V). split; [apply dom_delete_all|].
  constructor; [by apply (withdraw_client V c _ addr)|rewrite app_nil_r; by eapply held_delete_all].
Qed.

(** A stream is removed with its subscribers. *)
Lemma remove_stream_step V c id key s addrs name :
  table_ok V c → V !! id = Some (EShared key s) → (∀ n, indexed_name (shared_allocation s) = Some n → name = Some n) →
  (∀ a, addrs !! a = if decide (is_Some (shared_connections s !! a)) then None else key_by_addr c !! a) →
  step_ok V [] (unindex_shared name id s (set_shared c (delete key (by_key c)) addrs (delete id (shared_by_allocation_id c))))
    [shared_allocation s] (delete id V).
Proof.
  intros [Hc Hi Hp] Hid Hn Ha. pose proof (core_delete_shared _ _ Hc _ _ _ _ Hid Ha) as Hc'. set (c1 := set_shared c _ _ _) in *.
  destruct (unindex_shared_views V c1 id key s name) as [Hi' Hp']; [by apply views_set_shared|done|done|].
  constructor; [constructor; [|done|done]|].
  - eapply core_same; [apply unindex_shared_tables|done].
  - rewrite app_nil_r, (held_delete V id _ Hid). apply Permutation_cons_append.
Qed.

Lemma remove_shared_step V c id key s name :
  table_ok V c → V !! id = Some (EShared key s) → (∀ n, indexed_name (shared_allocation s) = Some n → name = Some n) →
  step_ok V [] (remove_shared name id key s c) [shared_allocation s] (delete id V).
Proof.
  intros Hok Hid Hn. apply remove_stream_step; [done|done|done|]. intros a. rewrite lookup_delete_all.
  pose proof (elem_of_map_to_list_fst (shared_connections s) a). destruct (decide (a ∈ _)), (decide (is_Some _)); naive_solver.
Qed.

Lemma remove_single_step V c id addr per_addr info name :
  table_ok V c → single c !! addr = Some per_addr → per_addr !! id = Some info →
  (∀ n, indexed_name (info_allocation info) = Some n → name = Some n) →
  step_ok V [] (remove_single name addr id per_addr info c) [info_allocation info] (delete id V).
Proof.
  intros [Hc Hi Hp] Hs Hid Hn. assert (V !! id = Some (ESingle addr info)) as He by (apply (tc_single _ _ Hc); by rewrite Hs).
  unfold remove_single. set (s' := if decide _ then _ else _).
  assert (table_core (delete_all [id] V) (set_single c s')) as Hc'.
  { apply core_delete_singles; [done| |].
    - intros i Hin%list_elem_of_singleton. subst. eauto.
    - intros a i. unfold s'. rewrite (lookup2_remove _ _ _ _ _ _ Hs). pose proof (list_elem_of_singleton i id) as Hel.
      destruct (decide (i ∈ [id])) as [Hin|Hin].
      + apply Hel in Hin as ->. case_decide as E; [done|]. destruct (lookup2 (single c) a id) as [x|] eqn:Ex; [|done].
        apply (tc_single _ _ Hc) in Ex. naive_solver.
      + destruct (decide (a = addr ∧ i = id)) as [[_ ->]|]; [|done]. exfalso. apply Hin. by left. }
  set (c1 := set_single c s') in *.
  destruct (unindex_single_views V c1 addr id info name) as [Hi' Hp']; [by apply views_set_single|done|done|].
  constructor; [constructor; [|done|done]|].
  - eapply core_same; [apply unindex_single_tables|done].
  - rewrite app_nil_r, (held_delete V id _ He). apply Permutation_cons_append.
Qed.

(** The lookups of the source in terms of the connections. *)
Lemma stream_of_client V c addr key s :
  table_core V c → (key_by_addr c !! addr ≫= λ key, s ← by_key c !! key; Some (key, s)) = Some (key, s) →
  by_key c !! key = Some s ∧ V !! shared_id s = Some (EShared key s) ∧ is_Some (shared_connections s !! addr).
Proof.
  intros Hc H. destruct (key_by_addr c !! addr) as [k|] eqn:Ek; [|done]. cbn in H. destruct (by_key c !! k) as [t|] eqn:Et; [|done].
  cbn in H. injection H as -> ->. apply (tc_addrs _ _ Hc) in Ek as (t & Ht & Hta). simplify_eq. split_and!; [done| |done].
  by apply (tc_key _ _ Hc).
Qed.

Lemma subscriber_key V c key s a :
  table_core V c → by_key c !! key = Some s → is_Some (shared_connections s !! a) → key_by_addr c !! a = Some key.
Proof. intros Hc Hs Ha. apply (tc_addrs _ _ Hc). eauto. Qed.

Lemma update_stream V c id key old new addrs c' :
  table_ok V c → V !! id = Some (EShared key old) → shared_id new = id → shared_ok new →
  shared_allocation new = shared_allocation old →
  (∀ a, is_Some (shared_connections new !! a) → key_by_addr c !! a = None ∨ key_by_addr c !! a = Some key) →
  (∀ a, addrs !! a = if decide (is_Some (shared_connections new !! a)) then Some key else
                     if decide (is_Some (shared_connections old !! a)) then None else key_by_addr c !! a) →
  views_ok (<[id := EShared key new]> V) c' →
  same_tables (set_shared c (<[key := new]> (by_key c)) addrs (shared_by_allocation_id c)) c' →
  step_ok V [] c' [] (<[id := EShared key new]> V).
Proof.
  intros [Hc _ _] Hid En Hok Ea Hfree Ha [Hi Hp] Ht. constructor; [constructor; [|done|done]|].
  - eapply core_same; [exact Ht|]. by eapply core_update_shared.
  - rewrite !app_nil_r. symmetry. by eapply held_update.
Qed.

Lemma leave_shared_step V c addr key s :
  table_ok V c → V !! shared_id s = Some (EShared key s) → is_Some (shared_connections s !! addr) →
  delete addr (shared_connections s) ≠ ∅ →
  ∃ s', shared_id s' = shared_id s ∧ step_ok V [] (leave_shared c addr key s) [] (<[shared_id s := EShared key s']> V).
Proof.
  intros Hok Hid Hin Hne. pose proof (ok_core _ _ Hok) as Hc. destruct (core_stream _ _ Hc _ _ _ Hid) as [_ Hk].
  assert (∀ s', shared_connections s' = delete addr (shared_connections s) →
    (∀ a, is_Some (shared_connections s' !! a) → key_by_addr c !! a = None ∨ key_by_addr c !! a = Some key) ∧
    (∀ a, delete addr (key_by_addr c) !! a = if decide (is_Some (shared_connections s' !! a)) then Some key else
          if decide (is_Some (shared_connections s !! a)) then None else key_by_addr c !! a)) as Hside.
  { intros s' ->. split; intros a.
    - intros [x H]. apply lookup_delete_Some in H as [_ H]. right. eapply subscriber_key; eauto.
    - destruct (decide (a = addr)) as [->|Hane]; [rewrite !lookup_delete_eq, decide_False by (by intros [? ?]); by rewrite decide_True|].
      rewrite !lookup_delete_ne by done. destruct (decide (is_Some _)) as [Hs|Hs]; [|done]. by eapply subscriber_key. }
  unfold leave_shared. set (old' := with_subscribers s _). set (c1 := set_shared c (by_key c) (delete addr (key_by_addr c)) (shared_by_allocation_id c)).
  assert (views_ok V c1) as Hv by (apply views_set_shared; by destruct Hok).
  destruct (is_unlimited_provider (shared_allocation old')) eqn:Eu.
  - destruct (Hside old' eq_refl) as [Hf Ha]. exists old'. split; [done|].
    eapply update_stream; [done|exact Hid|done| |done|exact Hf|exact Ha| |done].
    + constructor; [done| |]; intros E; congruence.
    + apply views_set_shared. pose proof (reindex_if_changed V c1 _ key s old' Hv Hid eq_refl eq_refl eq_refl eq_refl) as H.
      by rewrite decide_True in H.
  - destruct (effective_some (shared_connections old') Hne) as [p Hp].
    change (shared_kind (reclassified old')) with (shared_effective_kind (shared_connections old')). rewrite Hp.
    change (shared_effective_kind (shared_connections old')) with (shared_kind (reclassified old')).
    set (new := reclassified old'). destruct (Hside new eq_refl) as [Hf Ha]. exists new. split; [done|].
    eapply update_stream; [done|exact Hid|done|by apply reclassified_ok|done|exact Hf|exact Ha| |].
    + apply views_set_shared. by apply reindex_if_changed.
    + case_decide; [done|]. destruct (reindex_shared_tables c1 s new) as [E1 E2 E3 E4].
      constructor; cbn [set_shared single by_key key_by_addr shared_by_allocation_id]; rewrite ?E1, ?E2, ?E3, ?E4; done.
Qed.

Lemma release_shared_step V c addr :
  table_ok V c →
  ∃ V', dom V' ⊆ dom V ∧ step_ok V [] (release_shared c addr).1 (release_shared c addr).2 V'.
Proof.
  intros Hok. unfold release_shared. destruct (_ ≫= _) as [[key s]|] eqn:E; [|exists V; split; [done|by apply step_same]].
  destruct (stream_of_client _ _ _ _ _ (ok_core _ _ Hok) E) as (Hk & Hid & Hin). case_decide as Hemp.
  - exists (delete (shared_id s) V). split; [rewrite dom_delete; set_solver|]. eapply remove_stream_step; [done|done|done|].
    intros a. destruct (decide (a = addr)) as [->|Hne]; [by rewrite lookup_delete_eq, decide_True|]. rewrite lookup_delete_ne by done.
    assert (shared_connections s !! a = None) as -> by (rewrite <- (lookup_delete_ne _ addr) by done; by rewrite Hemp, lookup_empty).
    rewrite decide_False; [done|]. by intros [? ?].
  - destruct (leave_shared_step _ _ _ _ _ Hok Hid Hin Hemp) as (s' & _ & H). eexists. split; [|exact H].
    rewrite dom_insert. apply elem_of_dom_2 in Hid. set_solver.
Qed.

Lemma lookup_single_Some c addr id per_addr info :
  lookup_single c addr id = Some (per_addr, info) → single c !! addr = Some per_addr ∧ per_addr !! id = Some info.
Proof.
  unfold lookup_single. destruct (single c !! addr) as [p|]; [|done]. cbn. destruct (p !! id) as [i|] eqn:E; [|done]. cbn. naive_solver.
Qed.

Lemma release_handle_step V c client_id id :
  table_ok V c →
  ∃ V', dom V' ⊆ dom V ∧ step_ok V [] (release_handle c client_id id).1 (release_handle c client_id id).2 V'.
Proof.
  intros Hok. pose proof (ok_core _ _ Hok) as Hc. unfold release_handle. destruct (lookup_single c client_id id) as [[per_addr info]|] eqn:E.
  - apply lookup_single_Some in E as [Hs Hi]. exists (delete id V). split; [rewrite dom_delete; set_solver|]. by eapply remove_single_step.
  - destruct (shared_by_allocation_id c !! id) as [key|] eqn:Ei; [|exists V; split; [done|by apply step_same]].
    apply (tc_ids _ _ Hc) in Ei as [s Hs]. destruct (core_stream _ _ Hc _ _ _ Hs) as [_ ->].
    exists (delete id V). split; [rewrite dom_delete; set_solver|]. by eapply remove_shared_step.
Qed.

Lemma evict_victim_step V c owner id prio created c' allocation tokens stream :
  table_ok V c → evict_victim c (owner, id, prio, created) = Some (c', allocation, tokens, stream) →
  ∃ e, V !! id = Some e ∧ entry_allocation e = allocation ∧ step_ok V [] c' [allocation] (delete id V).
Proof.
  intros Hok He. pose proof (ok_core _ _ Hok) as Hc.
  assert (∀ a n, indexed_name a = Some n → get_provider_name a = Some n) as Hn by (unfold indexed_name; intros a n; by case_match).
  destruct owner as [addr|sid]; cbn in He.
  - destruct (lookup_single c addr id) as [[per_addr info]|] eqn:E; [|done]. cbn in He. case_match; [|done]. injection He as <- <- <- <-.
    apply lookup_single_Some in E as [Hs Hi]. exists (ESingle addr info). split_and!; [|done|eapply remove_single_step; eauto].
    apply (tc_single _ _ Hc). by rewrite Hs.
  - destruct (shared_by_allocation_id c !! sid) as [key|] eqn:Ei; [|done]. cbn in He. destruct (by_key c !! key) as [s|] eqn:Ek; [|done].
    cbn in He. destruct ((shared_id s =? id) && _ && _) eqn:E; [|done]. injection He as <- <- <- <-. apply (tc_key _ _ Hc) in Ek.
    assert (shared_id s = id) as <- by lia. exists (EShared key s). split_and!; [done|done|]. eapply remove_shared_step; eauto.
Qed.

(** *** Reclassification *)

Definition reclass_entry (addr : Z) (kind : ConnectionKind) (priority : Z) (e : entry) : entry :=
  match e with
  | ESingle a info => if decide (a = addr) then ESingle a (reclassify_info kind priority info) else e
  | EShared _ _ => e
  end.

Lemma reclassify_info_allocation kind priority info :
  info_allocation (reclassify_info kind priority info) = info_allocation info.
Proof. unfold reclassify_info. by case_match. Qed.

Lemma reindex_single_views V c addr kind priority id info :
  views_ok V c → V !! id = Some (ESingle addr info) →
  views_ok (<[id := ESingle addr (reclassify_info kind priority info)]> V) (reindex_single addr kind priority c (id, info)).
Proof.
  intros [Hi Hp] Hid. set (info' := reclassify_info kind priority info).
  assert (provider_matches (<[id := ESingle addr info']> V) c) as Hp'.
  { eapply provider_matches_update_single; [done|exact Hid|]. apply reclassify_info_allocation. }
  assert (entry_name (ESingle addr info') = entry_name (ESingle addr info)) as En
    by (unfold entry_name, info'; cbn; by rewrite reclassify_info_allocation).
  pose proof (indices_match_update V c id _ (ESingle addr info') Hi Hid En) as Hi'.
  unfold reindex_single. change (entry_name (ESingle addr info)) with (indexed_name (info_allocation info)) in Hi'.
  destruct (indexed_name (info_allocation info)) as [n|] eqn:E; [|by constructor].
  assert (info_kind info' = kind) as Ek.
  { unfold info', reclassify_info. unfold indexed_name in E. destruct (is_unlimited_provider _); [done|]. by rewrite E. }
  constructor; [|by apply (provider_matches_same _ c)]. cbn [entry_kind entry_key entry_owner] in Hi'. by rewrite Ek in Hi'.
Qed.

Lemma reindex_all_views addr kind priority es : ∀ V c,
  views_ok V c → NoDup (map fst es) → (∀ id info, (id, info) ∈ es → V !! id = Some (ESingle addr info)) →
  views_ok (foldl (λ V e, <[e.1 := reclass_entry addr kind priority (ESingle addr e.2)]> V) V es)
    (foldl (reindex_single addr kind priority) c es)
  ∧ same_tables c (foldl (reindex_single addr kind priority) c es).
Proof.
  induction es as [|[id info] es IH]; intros V c Hv Hnd Hes; [by split|]. apply NoDup_cons in Hnd as [Hid Hnd].
  pose proof (reindex_single_views V c addr kind priority id info Hv (Hes id info ltac:(by left))) as Hv1.
  destruct (IH _ _ Hv1 Hnd) as [Hv2 Ht].
  { intros id' info' Hin. rewrite lookup_insert_ne; [by apply Hes; right|]. intros ->. apply Hid. apply list_elem_of_fmap. by exists (id', info'). }
  cbn [foldl fst snd reclass_entry]. rewrite decide_True by done. split; [exact Hv2|]. etrans; [|exact Ht].
  unfold reindex_single. by case_match.
Qed.

Lemma lookup_foldl_insert {A B} (f : A → B) es : ∀ (V : gmap Z B) i,
  NoDup (map fst es) →
  foldl (λ V e, <[e.1 := f e.2]> V) V es !! i
  = match list_to_map (M := gmap Z A) es !! i with Some x => Some (f x) | None => V !! i end.
Proof.
  induction es as [|[j x] es IH]; intros V i Hnd; [done|]. apply NoDup_cons in Hnd as [Hj Hnd].
  cbn [foldl fst snd]. rewrite IH by done. rewrite list_to_map_cons. destruct (decide (i = j)) as [->|Hne].
  - rewrite lookup_insert_eq. rewrite not_elem_of_list_to_map_1; [by rewrite lookup_insert_eq|exact Hj].
  - rewrite !lookup_insert_ne by done. done.
Qed.

Lemma reclass_fold V c addr per_addr kind priority :
  table_core V c → single c !! addr = Some per_addr →
  foldl (λ V e, <[e.1 := reclass_entry addr kind priority (ESingle addr e.2)]> V) V (map_to_list per_addr)
  = reclass_entry addr kind priority <$> V.
Proof.
  intros Hc Hs. apply map_eq. intros i. destruct (client_entries _ _ _ _ Hc Hs) as (Hnd & Hes & _).
  rewrite (lookup_foldl_insert (λ info, reclass_entry addr kind priority (ESingle addr info))) by done.
  rewrite list_to_map_to_list, lookup_fmap. destruct (per_addr !! i) as [info|] eqn:Ei.
  - rewrite (Hes i info); [done|]. by apply elem_of_map_to_list.
  - destruct (V !! i) as [[a info|key s]|] eqn:Ev; [|done|done]. cbn. case_decide as E; [|done]. subst a.
    apply (tc_single _ _ Hc) in Ev. rewrite Hs in Ev. cbn in Ev. congruence.
Qed.

Lemma core_reclass V c addr per_addr kind priority :
  table_core V c → single c !! addr = Some per_addr →
  table_core (reclass_entry addr kind priority <$> V)
    (set_single c (<[addr := reclassify_info kind priority <$> per_addr]> (single c))).
Proof.
  intros Hc Hs. pose proof Hc as [H1 H2 H3 H4 H5 H6 H7].
  assert (∀ i key s, (reclass_entry addr kind priority <$> V) !! i = Some (EShared key s) ↔ V !! i = Some (EShared key s)) as Hsh.
  { intros i key s. rewrite lookup_fmap. destruct (V !! i) as [[a info|]|]; cbn; [case_decide|..]; naive_solver. }
  constructor; cbn [single by_key key_by_addr shared_by_allocation_id set_single].
  - intros a i x. rewrite lookup_fmap. destruct (decide (a = addr)) as [->|Ha].
    + rewrite lookup_insert_eq. cbn. rewrite lookup_fmap. pose proof (λ y, H1 addr i y) as H1'. rewrite Hs in H1'. cbn in H1'.
      destruct (per_addr !! i) as [info|] eqn:Ei.
      * rewrite (proj1 (H1' info) eq_refl). cbn. rewrite decide_True by done. naive_solver.
      * split; [done|]. destruct (V !! i) as [[a info|]|] eqn:Ev; cbn; [|done|done]. case_decide; [|intros [= -> ->]; naive_solver].
        subst a. by pose proof (proj2 (H1' info) eq_refl).
    + rewrite lookup_insert_ne, H1 by done. destruct (V !! i) as [[b info|]|]; cbn; [|naive_solver|naive_solver].
      case_decide; [|naive_solver]. subst b. naive_solver.
  - intros key s. by rewrite Hsh.
  - intros i key s. rewrite Hsh. apply H3.
  - intros i key. setoid_rewrite Hsh. apply H4.
  - done.
  - done.
  - intros i e. rewrite lookup_fmap. destruct (V !! i) as [e0|] eqn:Ev; [|done]. intros [= <-]. apply H7 in Ev.
    destruct e0; cbn; [|done]. case_decide; [|done]. cbn. by rewrite reclassify_info_allocation.
Qed.

Lemma held_reclass V addr kind priority : held (reclass_entry addr kind priority <$> V) = held V.
Proof.
  unfold held. rewrite map_to_list_fmap. induction (map_to_list V) as [|[i e] l IH]; [done|].
  cbn. f_equal; [|exact IH]. destruct e; cbn; [|done]. case_decide; [|done]. apply reclassify_info_allocation.
Qed.

Lemma reclassify_connection_step V c addr kind priority :
  table_ok V c →
  ∃ V', dom V' ⊆ dom V ∧ step_ok V [] (reclassify_connection c addr kind priority).1 [] V'.
Proof.
  intros Hok. pose proof (ok_core _ _ Hok) as Hc. unfold reclassify_connection. destruct (single c !! addr) as [per_addr|] eqn:Es.
  - exists (reclass_entry addr kind priority <$> V). split; [by rewrite dom_fmap|]. cbn [fst].
    destruct (client_entries _ _ _ _ Hc Es) as (Hnd & Hes & _). set (c1 := set_single c _).
    destruct (reindex_all_views addr kind priority (map_to_list per_addr) V c1) as [[Hi Hp] Ht];
      [apply views_set_single; by destruct Hok|done|done|].
    rewrite (reclass_fold V c addr per_addr kind priority Hc Es) in Hi, Hp.
    constructor; [constructor; [|done|done]|by rewrite held_reclass]. eapply core_same; [exact Ht|]. by apply core_reclass.
  - destruct (_ ≫= _) as [[key s]|] eqn:E; [|exists V; split; [done|by apply step_same]].
    assert (by_key c !! key = Some s ∧ V !! shared_id s = Some (EShared key s) ∧ is_Some (shared_connections s !! addr)) as (Hk & Hid & Hin).
    { destruct (key_by_addr c !! addr) as [k|] eqn:Ek; [|done]. cbn in E. destruct (by_key c !! k) as [t|] eqn:Et; [|done]. cbn in E.
      destruct (shared_connections t !! addr) eqn:Ea; [|done]. cbn in E. injection E as -> ->. split_and!; [done| |done]. by apply (tc_key _ _ Hc). }
    cbn [fst]. set (new := reclassified _). exists (<[shared_id s := EShared key new]> V).
    split; [rewrite dom_insert; apply elem_of_dom_2 in Hid; set_solver|].
    assert (∀ a, is_Some (shared_connections new !! a) ↔ is_Some (shared_connections s !! a)) as Hsame.
    { intros a. cbn. destruct (decide (a = addr)) as [->|]; [by rewrite lookup_insert_eq|by rewrite lookup_insert_ne]. }
    eapply (update_stream V c _ key s new (key_by_addr c)); [done|exact Hid|done| |done| | | |].
    + apply reclassified_ok. cbn. apply insert_non_empty.
    + intros a Ha%Hsame. right. eapply subscriber_key; eauto.
    + intros a. destruct (decide (is_Some (shared_connections new !! a))) as [Ha|Ha].
      * eapply subscriber_key; eauto. by apply Hsame.
      * rewrite decide_False; [done|]. by rewrite <- Hsame.
    + constructor; [eapply reindex_shared_indices; [|exact Hid|done..]|
                    apply reindex_shared_providers; eapply provider_matches_update_shared; [|exact Hid]];
        apply (views_set_shared V c); by destruct Hok.
    + apply reindex_shared_tables.
Qed.

(** *** Sharing *)

Lemma add_shared_step V c addr key priority kind c' :
  table_ok V c → key_by_addr c !! addr = None ∨ key_by_addr c !! addr = Some key →
  add_shared_connection c addr key priority kind = Some c' → ∃ V', dom V' ⊆ dom V ∧ step_ok V [] c' [] V'.
Proof.
  intros Hok Hfree H. pose proof (ok_core _ _ Hok) as Hc. unfold add_shared_connection in H.
  destruct (by_key c !! key) as [s|] eqn:Hk; [|done]. cbn [mbind option_bind] in H.
  assert (V !! shared_id s = Some (EShared key s)) as Hid by (by apply (tc_key _ _ Hc)).
  set (new := reclassified _) in H. set (c1 := set_shared c (<[key := new]> (by_key c)) (key_by_addr c) (shared_by_allocation_id c)) in H.
  injection H as <-. exists (<[shared_id s := EShared key new]> V). split; [rewrite dom_insert; apply elem_of_dom_2 in Hid; set_solver|].
  assert (views_ok V c1) as Hv by (apply views_set_shared; by destruct Hok).
  eapply (update_stream V c _ key s new (<[addr := key]> (key_by_addr c))); [done|exact Hid|done| |done| | | |].
  - apply reclassified_ok. cbn. apply insert_non_empty.
  - intros a. cbn. destruct (decide (a = addr)) as [->|]; [done|]. rewrite lookup_insert_ne by done. right. by eapply subscriber_key.
  - intros a. cbn. destruct (decide (a = addr)) as [->|Hne]; [rewrite !lookup_insert_eq; by rewrite decide_True|].
    rewrite !lookup_insert_ne by done. destruct (decide (is_Some _)); [by eapply subscriber_key|done].
  - apply views_set_shared. by apply reindex_if_changed.
  - case_decide; [done|]. destruct (reindex_shared_tables c1 s new) as [E1 E2 E3 E4].
    constructor; cbn [set_shared single by_key key_by_addr shared_by_allocation_id]; rewrite ?E1, ?E2, ?E3, ?E4; done.
Qed.

(** The stream a single connection becomes. *)
Definition promoted (addr id : Z) (info : ActiveConnectionInfo) : SharedAllocation :=
  {| shared_id := id; shared_allocation := info_allocation info;
     shared_connections := {[ addr := {| sub_priority := info_priority info; sub_kind := info_kind info |} ]};
     shared_priority := info_priority info; shared_kind := info_kind info; shared_created_at := info_created_at info;
     shared_cancel_token := Some (info_cancel_token info); shared_session_owner := info_session_owner info |}.

Lemma promoted_ok addr id info : shared_ok (promoted addr id info).
Proof.
  constructor; cbn.
  - apply map_non_empty_singleton.
  - intros _. unfold shared_effective_kind. rewrite map_to_list_singleton. cbn. by destruct (info_kind info).
  - intros _. unfold shared_effective_priority. rewrite map_to_list_singleton. cbn. by destruct (info_kind info).
Qed.

(** A stream of one client enters. *)
Lemma promote_step V c addr id key info :
  table_ok V c → V !! id = None → key_by_addr c !! addr = None → by_key c !! key = None → info_allocation info ≠ Exhausted →
  let new := promoted addr id info in
  let c' := set_shared c (<[key := new]> (by_key c)) (<[addr := key]> (key_by_addr c)) (<[id := key]> (shared_by_allocation_id c)) in
  step_ok V [info_allocation info]
    (if is_unlimited_provider (info_allocation info) then c' else
     upsert_priority_entry c' (default ""%string (get_provider_name (info_allocation info)))
       (info_key id info) (OwnerShared id) (info_kind info)) [] (<[id := EShared key new]> V).
Proof.
  intros [Hc Hi Hp] Hid Haddr Hkey Hg new c'.
  assert (table_core (<[id := EShared key new]> V) c') as Hc'.
  { apply core_insert_shared; [done|done|done|done|apply promoted_ok|done| |].
    - intros a [x Hx]. change (shared_connections new) with ({[ addr := {| sub_priority := info_priority info; sub_kind := info_kind info |} ]} : gmap Z SharedSubscriber) in Hx.
      by apply lookup_singleton_Some in Hx as [<- _].
    - intros a. cbn. destruct (decide (a = addr)) as [->|Hne]; [rewrite lookup_singleton_eq, lookup_insert_eq; by rewrite decide_True|].
      rewrite lookup_insert_ne, lookup_singleton_ne by done. rewrite decide_False; [done|]. by intros [? ?]. }
  assert (indices_match V c') as Hi' by (by apply (indices_match_same _ c)).
  pose proof (indices_match_insert V c' id (EShared key new) Hi' Hid) as Hi2.
  assert (provider_matches (<[id := EShared key new]> V) c') as Hp'.
  { apply provider_matches_insert_shared; [|done]. by apply (provider_matches_same _ c). }
  assert (held V ++ [info_allocation info] ≡ₚ held (<[id := EShared key new]> V) ++ []) as Hh.
  { rewrite app_nil_r, held_insert by done. symmetry. apply Permutation_cons_append. }
  change (entry_name (EShared key new)) with (indexed_name (info_allocation info)) in Hi2. rewrite (granted_name _ Hg) in Hi2.
  destruct (is_unlimited_provider (info_allocation info)); (constructor; [constructor|exact Hh]).
  - exact Hc'.
  - exact Hi2.
  - exact Hp'.
  - by apply (core_same _ c').
  - exact Hi2.
  - by apply (provider_matches_same _ c').
Qed.

Lemma make_shared_step V c addr key :
  table_ok V c → key_by_addr c !! addr = None → by_key c !! key = None →
  ∃ V', dom V' ⊆ dom V ∧ step_ok V [] (make_shared_connection c addr key).1.1 (make_shared_connection c addr key).1.2 V'.
Proof.
  intros Hok Haddr Hkey. pose proof (ok_core _ _ Hok) as Hc. unfold make_shared_connection.
  destruct (single c !! addr) as [per_addr|] eqn:Es; cbn [fmap option_fmap option_map];
    [|exists V; split; [done|by apply step_same]].
  destruct (client_entries _ _ _ _ Hc Es) as (Hnd & Hes & _).
  pose proof (λ c', withdraw_client V c c' addr per_addr Hc Es) as Hw.
  destruct (map_to_list per_addr) as [|[id info] extras] eqn:El; [exists V; split; [done|by apply step_same]|]. cbn [fst snd].
  pose proof (Hes id info ltac:(by left)) as Hid. set (es := (id, info) :: extras) in *.
  change (unindex_all addr extras (unindex_single (indexed_name (info_allocation info)) addr id info c)) with (unindex_all addr es c).
  destruct (unindex_all_ok addr es V c) as [Hv Ht]; [by destruct Hok|done|done|]. set (c1 := unindex_all addr es c) in *.
  set (V1 := delete_all (map fst es) V) in *. set (c2 := set_single c1 (delete addr (single c1))).
  assert (table_ok V1 c2) as Hok2.
  { apply Hw; [by apply views_set_single|]. destruct Ht as [E1 E2 E3 E4].
    constructor; cbn [c2 set_single single by_key key_by_addr shared_by_allocation_id]; congruence. }
  assert (V1 !! id = None) as Hid1 by (unfold V1; rewrite lookup_delete_all; rewrite decide_True; [done|by left]).
  assert (by_key c2 = by_key c ∧ key_by_addr c2 = key_by_addr c) as [Ek Ea] by (destruct Ht; done).
  destruct (promote_step V1 c2 addr id key info) as [Hok3 Hh]; [done|done|by rewrite Ea|by rewrite Ek|apply (tc_granted _ _ Hc _ _ Hid)|].
  exists (<[id := EShared key (promoted addr id info)]> V1). split.
  { rewrite dom_insert. apply elem_of_dom_2 in Hid. pose proof (dom_delete_all V (map fst es)). set_solver. }
  constructor; [exact Hok3|]. rewrite app_nil_r in Hh. rewrite app_nil_r, <- Hh, (held_delete_all addr es V) by done. cbn. by rewrite <- app_assoc.
Qed.

(** ** Runs *)

(** The table and the allocation ids given out so far. *)
Abbreviation table := (Connections * gset Z)%type.

(** A critical section, with the allocations it takes in, those it gives back
    for release, and those it drops.  [allowed] restricts the requests to share
    and to join; with [unrestricted] every call that the code accepts is a step. *)
Inductive table_step (allowed : Connections → sharing → Prop)
    : table → list ProviderAllocation → list ProviderAllocation → list ProviderAllocation → table → Prop :=
| TRegister c ids addr id now a priority kind owner :
    id ∉ ids → a ≠ Exhausted →
    table_step allowed (c, ids) [a] [] [] (register_connection c addr id now a priority kind owner, {[id]} ∪ ids)
| TReleaseSingle c ids addr c' released :
    release_single c addr = Some (c', released) → table_step allowed (c, ids) [] released [] (c', ids)
| TReleaseShared c ids addr c' released :
    release_shared c addr = (c', released) → table_step allowed (c, ids) [] released [] (c', ids)
| TReleaseHandle c ids client id c' released :
    release_handle c client id = (c', released) → table_step allowed (c, ids) [] released [] (c', ids)
| TReclassify c ids addr kind priority c' b :
    reclassify_connection c addr kind priority = (c', b) → table_step allowed (c, ids) [] [] [] (c', ids)
| TMakeShared c ids addr key c' released cancelled :
    allowed c (ToShare addr key) →
    make_shared_connection c addr key = (c', released, cancelled) →
    table_step allowed (c, ids) [] released (overwritten c addr key) (c', ids)
| TAddShared c ids addr key priority kind c' :
    allowed c (ToJoin addr key) →
    add_shared_connection c addr key priority kind = Some c' → table_step allowed (c, ids) [] [] [] (c', ids)
| TEvict c ids victim c' a cancelled stream :
    evict_victim c victim = Some (c', a, cancelled, stream) → table_step allowed (c, ids) [] [a] [] (c', ids).

Inductive table_run (allowed : Connections → sharing → Prop)
    : table → list ProviderAllocation → list ProviderAllocation → list ProviderAllocation → table → Prop :=
| TNil t : table_run allowed t [] [] [] t
| TSnoc t t1 t2 acquired released dropped acquired1 released1 dropped1 :
    table_run allowed t acquired released dropped t1 → table_step allowed t1 acquired1 released1 dropped1 t2 →
    table_run allowed t (acquired ++ acquired1) (released ++ released1) (dropped ++ dropped1) t2.

Lemma table_step_ok t acquired released dropped t' V :
  table_step orderly t acquired released dropped t' → table_ok V t.1 → dom V ⊆ t.2 →
  ∃ V', dom V' ⊆ t'.2 ∧ step_ok V acquired t'.1 released V'.
Proof.
  intros Hstep Hok Hdom.
  assert (∀ c' released', (∃ V', dom V' ⊆ dom V ∧ step_ok V [] c' released' V') → ∃ V', dom V' ⊆ t.2 ∧ step_ok V [] c' released' V') as Hsub.
  { intros c' released' (V' & Hd & H). exists V'. split; [set_solver|done]. }
  destruct Hstep as [c ids addr id now a priority kind owner Hid Hg|c ids addr c' released E|c ids addr c' released E|c ids client id c' released E|
    c ids addr kind priority c' b E|c ids addr key c' released cancelled [Ha Hk] E|c ids addr key priority kind c' Ha E|c ids victim c' a cancelled stream E];
    cbn [fst snd] in *.
  - assert (V !! id = None) as Hnone by (apply not_elem_of_dom; set_solver).
    destruct (register_step V c addr id now a priority kind owner Hok Hnone Hg) as (info & _ & _ & H). eexists. split; [|exact H]. rewrite dom_insert. set_solver.
  - apply Hsub. by eapply release_single_step.
  - apply Hsub. pose proof (release_shared_step V c addr Hok) as H. by rewrite E in H.
  - apply Hsub. pose proof (release_handle_step V c client id Hok) as H. by rewrite E in H.
  - apply Hsub. pose proof (reclassify_connection_step V c addr kind priority Hok) as H. by rewrite E in H.
  - apply Hsub. pose proof (make_shared_step V c addr key Hok Ha Hk) as H. by rewrite E in H.
  - apply Hsub. by eapply add_shared_step.
  - apply Hsub. destruct victim as [[[owner id] prio] created]. destruct (evict_victim_step V _ _ _ _ _ _ _ _ _ Hok E) as (e & _ & _ & Hs).
    exists (delete id V). split; [rewrite dom_delete; set_solver|done].
Qed.

Lemma table_default_ok : table_ok ∅ connections_default.
Proof.
  assert (∀ (P : entry → Prop), index_matches P ∅ ∅) as Him.
  { intros P name key owner. unfold index_lookup. rewrite lookup_empty. cbn. split; [done|]. intros (id & e & He & _). by rewrite lookup_empty in He. }
  constructor; [constructor; cbn|by constructor|].
  - intros addr id info. rewrite !lookup_empty. done.
  - intros key s. rewrite !lookup_empty. done.
  - intros id key s. by rewrite lookup_empty.
  - intros id key. rewrite lookup_empty. split; [done|]. intros [s Hs]. by rewrite lookup_empty in Hs.
  - intros addr key. rewrite lookup_empty. split; [done|]. intros (s & Hs & _). by rewrite lookup_empty in Hs.
  - intros key s. by rewrite lookup_empty.
  - intros id e. by rewrite lookup_empty.
  - intros name addr id. unfold listed. cbn. rewrite lookup_empty. cbn. split; [set_solver|]. intros (info & Hi & _). by rewrite lookup_empty in Hi.
Qed.

Lemma table_run_ok t acquired released dropped :
  table_run orderly (connections_default, ∅) acquired released dropped t → ∃ V, dom V ⊆ t.2 ∧ table_ok V t.1.
Proof.
  remember (connections_default, ∅) as t0. induction 1 as [t|t t1 t2 acq rel dr acq1 rel1 dr1 _ IH Hstep]; subst.
  - exists ∅. split; [done|apply table_default_ok].
  - destruct IH as (V & Hd & Hok); [done|]. destruct (table_step_ok _ _ _ _ _ _ Hstep Hok Hd) as (V' & Hd' & [Hok' _]).
    by exists V'.
Qed.

(** The ids of the single connections were given out. *)
Definition ids_known (t : table) : Prop := ∀ a i, is_Some (lookup2 (single t.1) a i) → i ∈ t.2.

Lemma table_step_ledger allowed t acquired released dropped t' :
  table_step allowed t acquired released dropped t' → ids_known t →
  table_allocations t.1 ++ acquired ≡ₚ table_allocations t'.1 ++ released ++ dropped ∧ ids_known t'.
Proof.
  intros Hstep Hids.
  assert (∀ c' released dropped, flow t.1 c' (released ++ dropped) →
    table_allocations t.1 ++ [] ≡ₚ table_allocations c' ++ released ++ dropped ∧ ids_known (c', t.2)) as Hflow.
  { intros c' released' dropped' [Hf He]. split; [by rewrite app_nil_r|]. intros a i Hi. by eapply Hids, He. }
  destruct Hstep as [c ids addr id now a priority kind owner Hid Hg|c ids addr c' released E|c ids addr c' released E|c ids client id c' released E|
    c ids addr kind priority c' b E|c ids addr key c' released cancelled Ha E|c ids addr key priority kind c' Ha E|c ids victim c' a cancelled stream E];
    cbn [fst snd] in *.
  - assert (lookup2 (single c) addr id = None) as Hnone.
    { destruct (lookup2 (single c) addr id) eqn:E; [|done]. destruct Hid. apply (Hids addr). by eexists. }
    destruct (register_flow c addr id now a priority kind owner Hnone) as [Hp He]. split.
    + rewrite Hp, app_nil_r. symmetry. apply Permutation_cons_append.
    + intros x i [->|Hi]%He; [set_solver|]. specialize (Hids x i Hi). set_solver.
  - apply Hflow; rewrite app_nil_r. by eapply release_single_flow.
  - apply Hflow; rewrite app_nil_r. pose proof (release_shared_flow c addr) as H. by rewrite E in H.
  - apply Hflow; rewrite app_nil_r. pose proof (release_handle_flow c client id) as H. by rewrite E in H.
  - apply Hflow; rewrite app_nil_r. pose proof (reclassify_flow c addr kind priority) as H. by rewrite E in H.
  - apply Hflow. by eapply make_shared_flow.
  - apply Hflow. by eapply add_shared_flow.
  - apply Hflow. by eapply evict_flow.
Qed.

Lemma table_run_ledger allowed t acquired released dropped :
  table_run allowed (connections_default, ∅) acquired released dropped t →
  acquired ≡ₚ table_allocations t.1 ++ released ++ dropped ∧ ids_known t.
Proof.
  remember (connections_default, ∅) as t0. induction 1 as [t|t t1 t2 acq rel dr acq1 rel1 dr1 _ IH Hstep]; subst.
  { split; [done|]. intros a i [x Hx]. cbn in Hx. unfold lookup2 in Hx. by rewrite lookup_empty in Hx. }
  destruct IH as [Hp Hi]; [done|]. destruct (table_step_ledger _ _ _ _ _ _ Hstep Hi) as [Hp' Hi']. split; [|done].
  rewrite Hp. trans ((table_allocations t1.1 ++ acq1) ++ rel ++ dr); [rewrite <- !app_assoc; apply Permutation_app_head;
    rewrite (app_assoc rel dr); apply Permutation_app_comm|].
  rewrite Hp', <- !app_assoc. apply Permutation_app_head. solve_Permutation.
Qed.

(** ** The connections of a table *)

Definition table_entries (c : Connections) : list (Z * entry) :=
  (map_to_list (single c) ≫= λ p, (λ e, (e.1, ESingle p.1 e.2)) <$> map_to_list p.2)
  ++ ((λ p, (shared_id p.2, EShared p.1 p.2)) <$> map_to_list (by_key c)).

Lemma table_entries_ok V c : table_core V c → map_to_list V ≡ₚ table_entries c.
Proof.
  intros [H1 H2 H3 _ _ _ _]. apply NoDup_Permutation; [apply NoDup_map_to_list| |].
  - apply NoDup_app. split_and!.
    + apply NoDup_bind; [|intros p _|apply NoDup_map_to_list].
      * intros [a1 m1] [a2 m2] x Ha1 Ha2 (e1 & -> & _)%list_elem_of_fmap (e2 & [= _ -> _] & _)%list_elem_of_fmap.
        cbn in *. apply elem_of_map_to_list in Ha1, Ha2. congruence.
      * apply NoDup_fmap_2; [|apply NoDup_map_to_list]. intros [] [] [= -> ->]. done.
    + intros x Hx. apply list_elem_of_bind in Hx as ([a m] & Hx & _). apply list_elem_of_fmap in Hx as (e & -> & _).
      intros ([k s] & Hk & _)%list_elem_of_fmap. discriminate Hk.
    + apply NoDup_fmap_2; [|apply NoDup_map_to_list]. intros [] [] [= _ -> ->]. done.
  - intros [id e]. rewrite elem_of_map_to_list. unfold table_entries. rewrite elem_of_app, list_elem_of_bind.
    setoid_rewrite list_elem_of_fmap. split.
    + intros He. destruct e as [a info|k s].
      * left. apply H1 in He. destruct (single c !! a) as [m|] eqn:Em; [|done]. cbn in He. exists (a, m). split; [|by apply elem_of_map_to_list].
        exists (id, info). split; [done|]. by apply elem_of_map_to_list.
      * right. pose proof (H3 _ _ _ He) as E. exists (k, s). split; [by subst|]. apply elem_of_map_to_list, H2. by rewrite E.
    + intros [([a m] & ([i info] & [= -> ->] & Hi) & Hm)|([k s] & [= -> ->] & Hk)].
      * apply elem_of_map_to_list in Hi, Hm. apply H1. cbn in *. by rewrite Hm.
      * apply elem_of_map_to_list, H2 in Hk. done.
Qed.

Lemma table_allocations_held V c : table_core V c → table_allocations c ≡ₚ held V.
Proof.
  intros Hc. unfold held. change (map ?f ?l) with (f <$> l). rewrite (table_entries_ok _ _ Hc). unfold table_allocations, single_allocations, client_allocations, stream_allocations, table_entries.
  rewrite fmap_app, <- !list_fmap_compose. apply reflexive_eq. f_equal. generalize (map_to_list (single c)). intros l.
  induction l as [|[a m] l IH]; [done|]. cbn. rewrite fmap_app, <- list_fmap_compose. f_equal. exact IH.
Qed.

(** ** Properties *)

(** C21: as long as the callers keep the sharing protocol [orderly], that is, a
    connection is shared only under a key that has no stream, and no client
    shares or joins while it watches another stream, the views of the table agree
    whatever the clients do: the ids of the connections differ, the indices by
    priority and the lists by provider hold exactly the connections of providers
    with a limit, the soft index the soft ones, a client is entered under exactly
    the stream that lists it, and every stream has a client and the kind and
    priority its clients give it. *)
Theorem table_views_agree c ids acquired released dropped :
  table_run orderly (connections_default, ∅) acquired released dropped (c, ids) →
  NoDup (table_entries c).*1 ∧
  (∀ name key owner, index_lookup name key (priority_index c) = Some owner ↔
     ∃ id e, (id, e) ∈ table_entries c ∧ entry_name e = Some name ∧ entry_key id e = key ∧ entry_owner id e = owner) ∧
  (∀ name key owner, index_lookup name key (soft_priority_index c) = Some owner ↔
     ∃ id e, (id, e) ∈ table_entries c ∧ entry_kind e = Soft ∧
       entry_name e = Some name ∧ entry_key id e = key ∧ entry_owner id e = owner) ∧
  (∀ name addr id, listed c name (addr, id) ↔
     ∃ info, (id, ESingle addr info) ∈ table_entries c ∧ indexed_name (info_allocation info) = Some name) ∧
  (∀ id key, shared_by_allocation_id c !! id = Some key ↔ ∃ s, by_key c !! key = Some s ∧ shared_id s = id) ∧
  (∀ addr key, key_by_addr c !! addr = Some key ↔ ∃ s, by_key c !! key = Some s ∧ is_Some (shared_connections s !! addr)) ∧
  (∀ key s, by_key c !! key = Some s → shared_ok s).
Proof.
  intros (V & _ & [Hc [H1 H2] H3])%table_run_ok. cbn [fst] in *. pose proof (table_entries_ok V c Hc) as He.
  assert (∀ id e, (id, e) ∈ table_entries c ↔ V !! id = Some e) as Hin by (intros id e; by rewrite <- He, elem_of_map_to_list).
  split_and!.
  - rewrite <- He. apply NoDup_fst_map_to_list.
  - intros name key owner. rewrite (H1 name key owner). setoid_rewrite Hin. naive_solver.
  - intros name key owner. rewrite (H2 name key owner). by setoid_rewrite Hin.
  - intros name addr id. rewrite (H3 name addr id). by setoid_rewrite Hin.
  - intros id key. rewrite (tc_ids _ _ Hc). split; intros [s Hs]; exists s.
    + destruct (core_stream _ _ Hc _ _ _ Hs). done.
    + destruct Hs as [Hs <-]. by apply (tc_key _ _ Hc).
  - apply (tc_addrs _ _ Hc).
  - apply (tc_shared _ _ Hc).
Qed.

(** C22: every allocation that entered the table is still in it, was given back
    for release exactly once, or was dropped by a request to share under a key
    that already had a stream, which is the only way to lose one.  This holds for
    every sequence of operations, in whatever way the callers share and join.
    When they keep the sharing protocol, nothing is dropped. *)
Theorem allocations_conserved allowed c ids acquired released dropped :
  table_run allowed (connections_default, ∅) acquired released dropped (c, ids) →
  acquired ≡ₚ table_allocations c ++ released ++ dropped ∧
  ((∀ c r, allowed c r → orderly c r) → dropped = []).
Proof.
  intros Hrun. destruct (table_run_ledger _ _ _ _ _ Hrun) as [Hp _]. split; [exact Hp|]. intros Ho.
  remember (connections_default, ∅) as t0. remember (c, ids) as t'. clear Hp Heqt0 Heqt'.
  induction Hrun as [t|t t1 t2 acq rel dr acq1 rel1 dr1 _ IH Hstep]; [done|]. rewrite IH.
  destruct Hstep; try done. by apply orderly_overwrites_nothing, Ho.
Qed.

(** A request to share under a key that has a stream loses the stream: its
    allocation leaves the table and is not released, and a client that watched
    the old stream remains entered under the key whose stream does not list it. *)
Theorem sharing_taken_key_leaks c addr key id info extras s other :
  map_to_list <$> single c !! addr = Some ((id, info) :: extras) → by_key c !! key = Some s →
  key_by_addr c !! other = Some key → other ≠ addr →
  let '(c', released, _) := make_shared_connection c addr key in
  table_allocations c ≡ₚ shared_allocation s :: table_allocations c' ++ released ∧
  key_by_addr c' !! other = Some key ∧
  ∃ s', by_key c' !! key = Some s' ∧ shared_id s' = id ∧ shared_connections s' !! other = None.
Proof.
  intros Es Hk Hother Hne. destruct (make_shared_connection c addr key) as [[c' released] tokens] eqn:E.
  pose proof (make_shared_flow _ _ _ _ _ _ E) as [Hf _]. unfold overwritten in Hf. rewrite Es, Hk in Hf. cbn in Hf. split_and!.
  - rewrite Hf, app_assoc. symmetry. apply Permutation_cons_append.
  - revert E. unfold make_shared_connection. rewrite Es. set (c1 := unindex_all addr extras _).
    assert (same_tables c c1) as [T1 T2 T3 T4] by (etrans; [apply unindex_single_tables|apply unindex_all_tables]). clearbody c1.
    intros [= <- _ _]. case_match; cbn [upsert_priority_entry set_indices set_shared set_single key_by_addr]; by rewrite lookup_insert_ne, T3.
  - revert E. unfold make_shared_connection. rewrite Es. set (c1 := unindex_all addr extras _). clearbody c1.
    intros [= <- _ _]. eexists. split_and!; [case_match; cbn [upsert_priority_entry set_indices set_shared set_single by_key]; apply lookup_insert_eq|done|].
    by apply lookup_singleton_ne.
Qed.

(** *** Witnesses *)

Definition example_allocation : ProviderAllocation := Available (example_config "a" 2 0).

(** Client 7 has two connections and shares one; client 8 joins; client 7 leaves. *)
Definition example_registered : Connections :=
  register_connection (register_connection connections_default 7 1 100 example_allocation 3 Normal None)
    7 2 101 example_allocation 5 Soft None.

Definition example_shared : Connections * list ProviderAllocation * list Z :=
  make_shared_connection example_registered 7 "stream".

Definition example_joined : Connections := default connections_default (add_shared_connection example_shared.1.1 8 "stream" 9 Soft).

Definition example_left : Connections * list ProviderAllocation := release_shared example_joined 7.

Lemma share_step allowed c ids addr key c' released dropped cancelled :
  allowed c (ToShare addr key) → make_shared_connection c addr key = (c', released, cancelled) → overwritten c addr key = dropped →
  table_step allowed (c, ids) [] released dropped (c', ids).
Proof. intros Ha E <-. by eapply TMakeShared. Qed.

Lemma example_run :
  table_run orderly (connections_default, ∅) [example_allocation; example_allocation] [example_allocation] []
    (example_left.1, {[2]} ∪ ({[1]} ∪ ∅)).
Proof.
  apply (TSnoc _ _ (example_joined, {[2]} ∪ ({[1]} ∪ ∅)) _ [example_allocation; example_allocation] [example_allocation] [] [] [] []);
    [|eapply (TReleaseShared _ _ _ 7); vm_compute; reflexivity].
  apply (TSnoc _ _ (example_shared.1.1, {[2]} ∪ ({[1]} ∪ ∅)) _ [example_allocation; example_allocation] [example_allocation] [] [] [] []);
    [|eapply (TAddShared _ _ _ 8 "stream"%string 9 Soft); [left|]; vm_compute; reflexivity].
  apply (TSnoc _ _ (example_registered, {[2]} ∪ ({[1]} ∪ ∅)) _ [example_allocation; example_allocation] [] [] [] [example_allocation] []);
    [|eapply (share_step _ _ _ 7 "stream"%string); [split|..]; vm_compute; reflexivity].
  apply (TSnoc _ _ (register_connection connections_default 7 1 100 example_allocation 3 Normal None, {[1]} ∪ ∅) _ [example_allocation] [] [] [example_allocation] [] []);
    [|apply TRegister; [set_solver|done]].
  apply (TSnoc _ _ (connections_default, ∅) _ [] [] [] [example_allocation] [] []); [constructor|]. apply TRegister; [set_solver|done].
Qed.

Lemma table_views_agree_witness :
  index_lookup "a" (9, 101, 2) (soft_priority_index example_left.1) = Some (OwnerShared 2).
Proof.
  destruct (table_views_agree _ _ _ _ _ example_run) as (_ & _ & T & _). apply T.
  assert (∀ x, head (table_entries example_left.1) = Some x → x ∈ table_entries example_left.1) as Hh
    by (by destruct (table_entries _) as [|y l]; [|intros x [= <-]; left]).
  exists 2. eexists. split; [apply Hh; vm_compute; reflexivity|split_and!; vm_compute; reflexivity].
Defined.

(** Two clients share under one key: the first stream is dropped. *)
Definition example_both : Connections :=
  register_connection (register_connection connections_default 7 1 100 example_allocation 3 Normal None)
    8 2 101 (Available (example_config "b" 1 0)) 5 Normal None.

Definition example_first : Connections := (make_shared_connection example_both 7 "stream").1.1.
Definition example_second : Connections := (make_shared_connection example_first 8 "stream").1.1.

Lemma example_unruly_run :
  table_run unrestricted (connections_default, ∅) [example_allocation; Available (example_config "b" 1 0)] [] [example_allocation]
    (example_second, {[2]} ∪ ({[1]} ∪ ∅)).
Proof.
  apply (TSnoc _ _ (example_first, {[2]} ∪ ({[1]} ∪ ∅)) _ [example_allocation; Available (example_config "b" 1 0)] [] [] [] [] [example_allocation]);
    [|eapply (share_step _ _ _ 8 "stream"%string); [done|vm_compute; reflexivity..]].
  apply (TSnoc _ _ (example_both, {[2]} ∪ ({[1]} ∪ ∅)) _ [example_allocation; Available (example_config "b" 1 0)] [] [] [] [] []);
    [|eapply (share_step _ _ _ 7 "stream"%string); [done|vm_compute; reflexivity..]].
  apply (TSnoc _ _ (register_connection connections_default 7 1 100 example_allocation 3 Normal None, {[1]} ∪ ∅) _ [example_allocation] [] []
    [Available (example_config "b" 1 0)] [] []); [|apply TRegister; [set_solver|done]].
  apply (TSnoc _ _ (connections_default, ∅) _ [] [] [] [example_allocation] [] []); [constructor|]. apply TRegister; [set_solver|done].
Qed.

Lemma allocations_conserved_witness :
  [example_allocation; Available (example_config "b" 1 0)] ≡ₚ table_allocations example_second ++ [] ++ [example_allocation] ∧
  [example_allocation; example_allocation] ≡ₚ table_allocations example_left.1 ++ [example_allocation] ++ [].
Proof.
  split; [exact (proj1 (allocations_conserved _ _ _ _ _ _ example_unruly_run))|exact (proj1 (allocations_conserved _ _ _ _ _ _ example_run))].
Defined.

Lemma sharing_taken_key_leaks_witness :
  ∃ s', by_key example_second !! "stream"%string = Some s' ∧ shared_connections s' !! 7 = None ∧
    key_by_addr example_second !! 7 = Some "stream"%string.
Proof.
  pose proof (sharing_taken_key_leaks example_first 8 "stream" 2) as T. cbv zeta in T.
  assert (∃ info s, map_to_list <$> single example_first !! 8 = Some [(2, info)] ∧ by_key example_first !! "stream"%string = Some s)
    as (info & s & E1 & E2) by (do 2 eexists; split; vm_compute; reflexivity).
  specialize (T info [] s 7 E1 E2 ltac:(vm_compute; reflexivity) ltac:(done)).
  change (make_shared_connection example_first 8 "stream") with (example_second, @nil ProviderAllocation, @nil Z) in T. cbn beta iota in T.
  destruct T as (_ & Ha & s' & Hs & _ & Hc). exists s'. exact (conj Hs (conj Hc Ha)).
Defined.
