(* ===== verification/ActiveVictim.v ===== *)
(** * The choice of a victim

    A request that finds no free provider may take the place of a less important
    connection.  The source looks at the last entry of the priority tree of every
    provider; this file proves that the result is the least important of all the
    connections of the table that may be preempted. *)

From S2P Require Import Prelude ProviderPool ProviderLineup ProviderManager ProviderAccounting ActiveConnections ActiveIndex ActiveLedger ActiveTable.
From stdpp Require Import gmap relations.

#[local] Open Scope Z_scope.

(** ** The last entry of a tree *)

Lemma key_above_spec pa ta ia pb tb ib :
  key_above (pa, ta, ia) (pb, tb, ib) = true ↔ pb < pa ∨ pa = pb ∧ (ta < tb ∨ ta = tb ∧ ib < ia).
Proof. unfold key_above. rewrite !orb_true_iff, !andb_true_iff, !orb_true_iff, !andb_true_iff. lia. Qed.

Lemma key_above_false pa ta ia pb tb ib :
  key_above (pa, ta, ia) (pb, tb, ib) = false ↔ pa < pb ∨ pa = pb ∧ (tb < ta ∨ ta = tb ∧ ia ≤ ib).
Proof. rewrite <- not_true_iff_false, key_above_spec. lia. Qed.

Lemma key_below_trans a b c : key_above a b = false → key_above b c = false → key_above a c = false.
Proof. destruct a as [[? ?] ?], b as [[? ?] ?], c as [[? ?] ?]. rewrite !key_above_false. lia. Qed.

Lemma key_above_below a b : key_above a b = true → key_above b a = false.
Proof. destruct a as [[? ?] ?], b as [[? ?] ?]. rewrite key_above_spec, key_above_false. lia. Qed.

Lemma key_below_refl a : key_above a a = false.
Proof. destruct a as [[? ?] ?]. rewrite key_above_false. lia. Qed.

Lemma above_last_fold l : ∀ e0,
  ∃ e, foldl above_last (Some e0) l = Some e ∧ (e = e0 ∨ e ∈ l) ∧
    key_above e0.1 e.1 = false ∧ ∀ x, x ∈ l → key_above x.1 e.1 = false.
Proof.
  induction l as [|y l IH]; intros e0; cbn [foldl above_last].
  { exists e0. split_and!; [done|by left|apply key_below_refl|by intros x ?%not_elem_of_nil]. }
  destruct (key_above y.1 e0.1) eqn:E.
  - destruct (IH y) as (e & -> & Hin & Hy & Hl). exists e. split_and!; [done| |by eapply key_below_trans; [apply key_above_below|]|].
    + right. destruct Hin as [->|?]; [by left|by right].
    + intros x [->|Hx]%elem_of_cons; [done|by apply Hl].
  - destruct (IH e0) as (e & -> & Hin & Hy & Hl). exists e. split_and!; [done| |done|].
    + destruct Hin as [->|?]; [by left|right; by right].
    + intros x [->|Hx]%elem_of_cons; [by eapply key_below_trans|by apply Hl].
Qed.

Lemma tree_last_spec tree :
  match tree_last tree with
  | Some (key, owner) => tree !! key = Some owner ∧ ∀ k, is_Some (tree !! k) → key_above k key = false
  | None => ∀ k, tree !! k = None
  end.
Proof.
  unfold tree_last. destruct (map_to_list tree) as [|e0 l] eqn:E; cbn [foldl above_last].
  { apply map_to_list_empty_iff in E as ->. intros k. apply lookup_empty. }
  destruct (above_last_fold l e0) as ([key owner] & -> & Hin & H0 & Hl).
  assert (∀ k o, tree !! k = Some o ↔ (k, o) ∈ e0 :: l) as Hel by (intros; rewrite <- E; by rewrite elem_of_map_to_list).
  split.
  - apply Hel. destruct Hin as [->|?]; [by left|by right].
  - intros k [o Ho]. apply Hel in Ho as [<-|Ho]%elem_of_cons; [exact H0|]. exact (Hl _ Ho).
Qed.

(** ** The loop over the trees *)

(** Less important: a greater priority number, or the same and older. *)
Definition less_important (a b : PreemptionCandidate) : Prop :=
  let '(_, _, pa, ta) := a in let '(_, _, pb, tb) := b in pb < pa ∨ pa = pb ∧ ta < tb.

Definition tree_candidate (tree : priority_tree) : option PreemptionCandidate :=
  '((priority, created_at, id), owner) ← tree_last tree; Some (owner, id, priority, created_at).

Lemma better_candidate current candidate :
  if is_better_preemption_candidate (Some current) candidate then ¬ less_important current candidate
  else ¬ less_important candidate current.
Proof.
  destruct current as [[[? ?] ?] ?], candidate as [[[? ?] ?] ?]. cbn.
  destruct (_ || _) eqn:E; [rewrite orb_true_iff, andb_true_iff, orb_true_iff, andb_true_iff in E; lia|].
  rewrite orb_false_iff, andb_false_iff, orb_false_iff, andb_false_iff in E. lia.
Qed.

Lemma less_important_trans a b c : ¬ less_important a b → ¬ less_important b c → ¬ less_important a c.
Proof. destruct a as [[[? ?] ?] ?], b as [[[? ?] ?] ?], c as [[[? ?] ?] ?]. cbn. lia. Qed.

Section Loop.
Context (eligible : string → PreemptionCandidate → bool).

Definition offered (l : list (string * priority_tree)) (x : PreemptionCandidate) : Prop :=
  ∃ name tree, (name, tree) ∈ l ∧ tree_candidate tree = Some x ∧ eligible name x = true.

Lemma better_victim_step v e :
  better_victim eligible v e
  = match tree_candidate e.2 with
    | Some x => if eligible e.1 x && is_better_preemption_candidate v x then Some x else v
    | None => v
    end.
Proof. unfold better_victim, tree_candidate. by destruct (tree_last e.2) as [[[[? ?] ?] ?]|]. Qed.

Lemma victim_fold l : ∀ v,
  let r := foldl (better_victim eligible) v l in
  (r = v ∨ ∃ x, r = Some x ∧ offered l x) ∧
  (∀ x, v = Some x ∨ offered l x → ∃ y, r = Some y ∧ ¬ less_important x y).
Proof.
  induction l as [|[name tree] l IH]; intros v; cbn [foldl].
  { split; [by left|]. intros x [->|(? & ? & ?%not_elem_of_nil & _)]; [|done]. exists x. split; [done|]. destruct x as [[[? ?] ?] ?]. cbn. lia. }
  specialize (IH (better_victim eligible v (name, tree))). cbn zeta in IH. rewrite better_victim_step in *. cbn [fst snd] in *.
  set (r := foldl _ _ l) in *. destruct IH as [IH1 IH2].
  assert (∀ x, offered l x → offered ((name, tree) :: l) x) as Hweak by (intros x (n & t & Hin & H); exists n, t; split; [by right|done]).
  assert (∀ x, offered ((name, tree) :: l) x → (tree_candidate tree = Some x ∧ eligible name x = true) ∨ offered l x) as Hcases.
  { intros x (n & t & [[= -> ->]|Hin]%elem_of_cons & H); [by left|right]. by exists n, t. }
  destruct (tree_candidate tree) as [x|] eqn:Ex;
    [|split; [destruct IH1 as [?|(y & ? & ?)]; eauto|intros z [?|[[? _]|?]%Hcases]; [auto|done|auto]]].
  destruct (eligible name x) eqn:Ee; cbn [andb] in *;
    [|split; [destruct IH1 as [?|(y & ? & ?)]; eauto|intros z [?|[[? ?]|?]%Hcases]; [auto|congruence|auto]]].
  destruct (is_better_preemption_candidate v x) eqn:Eb.
  - split.
    + right. destruct IH1 as [E|(y & E & Hy)]; [|by exists y; auto]. exists x. split; [done|]. exists name, tree. split; [by left|done].
    + destruct (IH2 x (or_introl eq_refl)) as (y & Hy & Hxy). intros z [->|[[[= <-] _]|Hz]%Hcases]; [|eauto|auto].
      exists y. split; [done|]. pose proof (better_candidate z x) as Hb. rewrite Eb in Hb. by eapply less_important_trans.
  - destruct v as [v|]; [|by destruct x as [[[? ?] ?] ?]]. split; [destruct IH1 as [?|(y & ? & ?)]; eauto|].
    destruct (IH2 v (or_introl eq_refl)) as (y & Hy & Hvy). intros z [[= <-]|[[[= <-] _]|Hz]%Hcases]; [eauto| |auto].
    exists y. split; [done|]. pose proof (better_candidate v x) as Hb. rewrite Eb in Hb. by eapply less_important_trans.
Qed.
End Loop.

(** ** From the trees to the connections *)

Definition entry_priority (e : entry) : Z :=
  match e with ESingle _ info => info_priority info | EShared _ s => shared_priority s end.

Definition entry_created_at (e : entry) : Z :=
  match e with ESingle _ info => info_created_at info | EShared _ s => shared_created_at s end.

Definition candidate_of (id : Z) (e : entry) : PreemptionCandidate :=
  (entry_owner id e, id, entry_priority e, entry_created_at e).

Lemma entry_key_eq id e : entry_key id e = (entry_priority e, entry_created_at e, id).
Proof. by destruct e. Qed.

Section Index.
Context (P : entry → Prop) (V : gmap Z entry) (index : gmap string priority_tree) (Hm : index_matches P V index).
Context (provider_ok : string → bool) (priority_ok : Z → bool) (eligible : string → PreemptionCandidate → bool).
Context (Hmono : ∀ p p', p ≤ p' → priority_ok p = true → priority_ok p' = true).
Context (Helig : ∀ name id e, V !! id = Some e → P e → entry_name e = Some name →
  eligible name (candidate_of id e) = provider_ok name && priority_ok (entry_priority e)).

Definition selectable (e : entry) : Prop :=
  P e ∧ ∃ name, entry_name e = Some name ∧ provider_ok name = true ∧ priority_ok (entry_priority e) = true.

(** The last entry of a tree is a connection, and no other connection of the
    provider is less important. *)
Lemma tree_candidate_entry name tree x :
  (name, tree) ∈ map_to_list index → tree_candidate tree = Some x →
  (∃ id e, V !! id = Some e ∧ P e ∧ entry_name e = Some name ∧ x = candidate_of id e) ∧
  (∀ id e, V !! id = Some e → P e → entry_name e = Some name → ¬ less_important (candidate_of id e) x).
Proof.
  intros Hin Hx. apply elem_of_map_to_list in Hin. unfold tree_candidate in Hx. pose proof (tree_last_spec tree) as Hl.
  destruct (tree_last tree) as [[[[p t] i] o]|]; [|done]. cbn in Hx. injection Hx as <-. destruct Hl as [Hk Hmax].
  assert (∀ k o', tree !! k = Some o' ↔ index_lookup name k index = Some o') as Hlk by (intros; unfold index_lookup; by rewrite Hin).
  split.
  - apply Hlk, Hm in Hk as (id & e & He & HP & Hn & Ek & Eo). exists id, e. split_and!; try done. rewrite entry_key_eq in Ek.
    unfold candidate_of. injection Ek as -> -> ->. by rewrite Eo.
  - intros id e He HP Hn. assert (tree !! entry_key id e = Some (entry_owner id e)) as Hk' by (apply Hlk, Hm; eauto 8).
    specialize (Hmax _ (mk_is_Some _ _ Hk')). rewrite entry_key_eq, key_above_false in Hmax. cbn. lia.
Qed.

Lemma select_spec :
  match foldl (better_victim eligible) None (map_to_list index) with
  | Some x => ∃ id e, V !! id = Some e ∧ selectable e ∧ x = candidate_of id e ∧
      ∀ id' e', V !! id' = Some e' → selectable e' → ¬ less_important (candidate_of id' e') x
  | None => ∀ id e, V !! id = Some e → ¬ selectable e
  end.
Proof.
  destruct (victim_fold eligible (map_to_list index) None) as [H1 H2]. cbn zeta in *.
  assert (∀ id e, V !! id = Some e → selectable e →
    ∃ x, offered eligible (map_to_list index) x ∧ ¬ less_important (candidate_of id e) x) as Hoff.
  { intros id e He (HP & name & Hn & Hp & Hq).
    assert (index_lookup name (entry_key id e) index = Some (entry_owner id e)) as Hlk by (apply Hm; eauto 8).
    unfold index_lookup in Hlk. destruct (index !! name) as [tree|] eqn:Et; [|done]. cbn in Hlk. apply elem_of_map_to_list in Et.
    destruct (tree_candidate tree) as [x|] eqn:Ex.
    - destruct (tree_candidate_entry _ _ _ Et Ex) as [(id' & e' & He' & HP' & Hn' & ->) Hmax]. specialize (Hmax id e He HP Hn).
      exists (candidate_of id' e'). split; [|done]. exists name, tree. split_and!; [done|done|]. rewrite (Helig _ _ _ He' HP' Hn').
      rewrite Hp. apply (Hmono (entry_priority e)); [|done]. unfold candidate_of, less_important in Hmax. lia.
    - pose proof (tree_last_spec tree) as Hl. unfold tree_candidate in Ex. destruct (tree_last tree) as [[[[? ?] ?] ?]|]; [done|].
      by rewrite Hl in Hlk. }
  destruct (foldl _ _ _) as [x|].
  - destruct H1 as [?|(y & [= <-] & name & tree & Hin & Hx & Hel)]; [done|].
    destruct (tree_candidate_entry _ _ _ Hin Hx) as [(id & e & He & HP & Hn & ->) _]. exists id, e. split_and!; [done| |done|].
    + rewrite (Helig _ _ _ He HP Hn) in Hel. apply andb_true_iff in Hel as [? ?]. split; [done|]. eauto.
    + intros id' e' He' Hs. destruct (Hoff _ _ He' Hs) as (y & Hy & Hly). destruct (H2 y (or_intror Hy)) as (z & [= <-] & Hz).
      by eapply less_important_trans.
  - intros id e He Hs. destruct (Hoff _ _ He Hs) as (y & Hy & _). by destruct (H2 y (or_intror Hy)) as (z & ? & _).
Qed.
End Index.

(** ** Selection *)

Section Selected.
Context (m : ProviderLineupManager) (input_name : string) (reserved_providers : gset string).

(** The connections that a request may take the place of. *)
Definition preemptible_for (new_priority : Z) (kind_needed : ConnectionKind) (e : entry) : Prop :=
  ∃ name, entry_name e = Some name ∧ preemptible_provider m input_name reserved_providers name = true ∧
    match kind_needed with
    | Normal => entry_kind e = Soft ∨ new_priority < entry_priority e
    | Soft => entry_kind e = Soft ∧ new_priority < entry_priority e
    end.

(** No connection of the set [P] is less important than the chosen one, which is in it. *)
Definition least_of (V : gmap Z entry) (P : entry → Prop) (r : option PreemptionCandidate) : Prop :=
  match r with
  | Some x => ∃ id e, V !! id = Some e ∧ P e ∧ x = candidate_of id e ∧
      ∀ id' e', V !! id' = Some e' → P e' → ¬ less_important (candidate_of id' e') x
  | None => ∀ id e, V !! id = Some e → ¬ P e
  end.

Lemma least_of_iff (V : gmap Z entry) P Q r : (∀ id e, V !! id = Some e → P e ↔ Q e) → least_of V P r → least_of V Q r.
Proof.
  intros H. unfold least_of. destruct r.
  - intros (id & e & He & HP & Hx & Hall). exists id, e. split_and!; [done|by apply (H id)|done|].
    intros id' e' He' HQ. apply (Hall id' e' He'). by apply (H id').
  - intros Hn id e He HQ. apply (Hn id e He). by apply (H id).
Qed.

Lemma soft_selection V c requester_priority :
  indices_match V c →
  least_of V (λ e, entry_kind e = Soft ∧ ∃ name, entry_name e = Some name ∧
      preemptible_provider m input_name reserved_providers name = true ∧
      match requester_priority with Some p => p < entry_priority e | None => True end)
    (select_victim_from_index m input_name reserved_providers (soft_priority_index c) requester_priority).
Proof.
  intros [_ Hm]. unfold select_victim_from_index.
  set (ok := λ p, match requester_priority with Some req_prio => negb (p <=? req_prio) | None => true end).
  pose proof (select_spec _ V (soft_priority_index c) Hm (preemptible_provider m input_name reserved_providers) ok
    (λ name x, preemptible_provider m input_name reserved_providers name && ok x.1.2)) as H.
  eapply least_of_iff; [|apply H].
  - intros _ e _. unfold selectable, ok. destruct requester_priority; [setoid_rewrite negb_true_iff; setoid_rewrite Z.leb_gt; naive_solver|naive_solver].
  - intros p p' Hp. unfold ok. destruct requester_priority; [rewrite !negb_true_iff, !Z.leb_gt; lia|done].
  - done.
Qed.

(** In a table whose indices match, the test of the source against the tables
    only repeats what the index says. *)
Lemma normal_candidate_valid V c name id e :
  table_core V c → V !! id = Some e → entry_name e = Some name → entry_kind e = Normal →
  is_normal_preemption_candidate c name (candidate_of id e) = true.
Proof.
  intros Hc He Hn Hk.
  assert (get_provider_name (entry_allocation e) = Some name) as Hg by (unfold entry_name, indexed_name in Hn; by destruct (is_unlimited_provider _)).
  destruct e as [addr info|key s]; cbn in *.
  - assert ((per_addr ← single c !! addr; per_addr !! id) = Some info) as Hl by (by apply (tc_single _ _ Hc)). unfold lookup_single.
    destruct (single c !! addr) as [per_addr|]; [|done]. cbn in *. rewrite Hl. cbn. by rewrite !bool_decide_true by done.
  - destruct (core_stream _ _ Hc _ _ _ He) as [<- Hs]. assert (shared_by_allocation_id c !! shared_id s = Some key) as -> by (apply (tc_ids _ _ Hc); eauto).
    cbn. rewrite Hs, Z.eqb_refl. by rewrite !bool_decide_true by done.
Qed.

Lemma normal_selection V c new_priority :
  table_ok V c → (∀ id e, V !! id = Some e → ¬ (entry_kind e = Soft ∧ ∃ name, entry_name e = Some name ∧
      preemptible_provider m input_name reserved_providers name = true ∧ True)) →
  least_of V (preemptible_for new_priority Normal)
    (foldl (better_victim (λ name x, preemptible_provider m input_name reserved_providers name && negb (x.1.2 <=? new_priority)
        && is_normal_preemption_candidate c name x)) None (map_to_list (priority_index c))).
Proof.
  intros [Hc [Hm _] _] Hsoft.
  pose proof (select_spec _ V (priority_index c) Hm (preemptible_provider m input_name reserved_providers) (λ p, negb (p <=? new_priority))
    (λ name x, preemptible_provider m input_name reserved_providers name && negb (x.1.2 <=? new_priority)
        && is_normal_preemption_candidate c name x)) as H.
  eapply least_of_iff; [|apply H].
  - intros id e He. unfold selectable, preemptible_for. setoid_rewrite negb_true_iff. setoid_rewrite Z.leb_gt. split.
    + intros (_ & name & ? & ? & ?). eauto.
    + intros (name & Hn & Hp & [Hk|Hlt]); [|eauto]. exfalso. apply (Hsoft id e He). eauto.
  - intros p p' Hp. rewrite !negb_true_iff, !Z.leb_gt. lia.
  - intros name id e He _ Hn. cbn [candidate_of fst snd]. destruct (preemptible_provider m input_name reserved_providers name) eqn:Ep; [|done].
    rewrite (normal_candidate_valid V c name id e Hc He Hn), andb_true_r; [done|].
    destruct (entry_kind e) eqn:Ek; [done|]. exfalso. apply (Hsoft id e He). eauto.
Qed.

(** A chosen connection can be evicted from the table it was chosen in. *)
Lemma evict_candidate V c id e :
  table_core V c → V !! id = Some e →
  ∃ c' tokens stream, evict_victim c (candidate_of id e) = Some (c', entry_allocation e, tokens, stream).
Proof.
  intros Hc He. destruct e as [addr info|key s]; cbn.
  - assert ((per_addr ← single c !! addr; per_addr !! id) = Some info) as Hl by (by apply (tc_single _ _ Hc)). unfold lookup_single.
    destruct (single c !! addr) as [per_addr|]; [|done]. cbn in *. rewrite Hl. cbn. rewrite !Z.eqb_refl. cbn. eauto.
  - destruct (core_stream _ _ Hc _ _ _ He) as [<- Hs]. assert (shared_by_allocation_id c !! shared_id s = Some key) as -> by (apply (tc_ids _ _ Hc); eauto).
    cbn. rewrite Hs. cbn. rewrite !Z.eqb_refl. cbn. eauto.
Qed.

Lemma select_candidate_spec V c new_priority kind_needed :
  table_ok V c →
  match select_preemption_candidate m input_name reserved_providers c new_priority kind_needed with
  | Some victim => ∃ id e, V !! id = Some e ∧ victim = candidate_of id e ∧ preemptible_for new_priority kind_needed e ∧
      ∀ id' e', V !! id' = Some e' → preemptible_for new_priority kind_needed e' →
        (entry_kind e' = Soft → entry_kind e = Soft) ∧
        (entry_kind e' = entry_kind e → ¬ less_important (candidate_of id' e') victim)
  | None => ∀ id e, V !! id = Some e → ¬ preemptible_for new_priority kind_needed e
  end.
Proof.
  intros Hok. unfold select_preemption_candidate. destruct kind_needed.
  - pose proof (soft_selection V c None (ok_indices _ _ Hok)) as Hs. destruct (select_victim_from_index _ _ _ _ None) as [x|].
    + destruct Hs as (id & e & He & (Hk & name & Hn & Hp & _) & Hx & Hall). exists id, e. split_and!; [done|done|exists name; auto|].
      intros id' e' He' (name' & Hn' & Hp' & _). split; [done|]. intros Ek. apply (Hall id' e' He'). split; [congruence|eauto].
    + pose proof (normal_selection V c new_priority Hok Hs) as Hr. destruct (foldl _ _ _) as [x|]; [|exact Hr].
      destruct Hr as (id & e & He & Hp & Hx & Hall). exists id, e. split_and!; [done|done|done|]. intros id' e' He' Hp'. split; [|intros _; by eapply Hall].
      intros Ek. exfalso. destruct Hp' as (name & Hn & Hpp & _). apply (Hs id' e' He'). eauto.
  - pose proof (soft_selection V c (Some new_priority) (ok_indices _ _ Hok)) as Hs. destruct (select_victim_from_index _ _ _ _ _) as [x|].
    + destruct Hs as (id & e & He & (Hk & name & Hn & Hp & Hlt) & Hx & Hall). exists id, e. split_and!; [done|done|exists name; auto|].
      intros id' e' He' (name' & Hn' & Hp' & Hk' & Hlt'). split; [done|]. intros _. apply (Hall id' e' He'). split; [done|eauto].
    + intros id e He (name & Hn & Hp & Hk & Hlt). apply (Hs id e He). split; [done|eauto].
Qed.
End Selected.

(** ** Property *)

(** C20: in every table that callers who keep the sharing protocol can reach, the
    victim of a preemption is a connection of a provider of the input that is not
    reserved for others.  A normal request takes any soft connection before a
    normal one, and a normal one only if it is less important than the request; a
    soft request takes only less important soft ones.  Among the connections of
    the kind none has a greater priority number, or the same and is older, and the
    victim can be evicted.  There is no victim only when no connection may be
    preempted. *)
Theorem victim_least_important m input_name reserved_providers c ids acquired released dropped new_priority kind_needed :
  table_run orderly (connections_default, ∅) acquired released dropped (c, ids) →
  match select_preemption_candidate m input_name reserved_providers c new_priority kind_needed with
  | Some victim =>
      ∃ id e, (id, e) ∈ table_entries c ∧ victim = candidate_of id e ∧
        preemptible_for m input_name reserved_providers new_priority kind_needed e ∧
        (∀ id' e', (id', e') ∈ table_entries c → preemptible_for m input_name reserved_providers new_priority kind_needed e' →
           (entry_kind e' = Soft → entry_kind e = Soft) ∧
           (entry_kind e' = entry_kind e → ¬ less_important (candidate_of id' e') victim)) ∧
        ∃ c' tokens stream, evict_victim c victim = Some (c', entry_allocation e, tokens, stream)
  | None => ∀ id e, (id, e) ∈ table_entries c → ¬ preemptible_for m input_name reserved_providers new_priority kind_needed e
  end.
Proof.
  intros (V & _ & Hok)%table_run_ok. cbn [fst] in *. pose proof (ok_core _ _ Hok) as Hc.
  assert (∀ id e, (id, e) ∈ table_entries c ↔ V !! id = Some e) as Hin
    by (intros id e; by rewrite <- (table_entries_ok V c Hc), elem_of_map_to_list).
  pose proof (select_candidate_spec m input_name reserved_providers V c new_priority kind_needed Hok) as H.
  destruct (select_preemption_candidate _ _ _ _ _ _) as [victim|].
  - destruct H as (id & e & He & -> & Hp & Hall). exists id, e. split_and!; [by apply Hin|done|done| |by eapply evict_candidate].
    intros id' e' He'%Hin. by apply (Hall id').
  - intros id e He%Hin. by apply (H id).
Qed.

(** *** Witness *)

(** Three clients hold the backup provider; the older of the two less important
    ones is chosen. *)
Definition example_backups : Connections :=
  register_connection (register_connection (register_connection connections_default
    7 1 100 (Available example_backup) 1 Normal None) 8 2 101 (Available example_backup) 9 Normal None)
    9 3 102 (GracePeriod example_backup) 9 Normal None.

Lemma example_backups_run :
  table_run orderly (connections_default, ∅) [Available example_backup; Available example_backup; GracePeriod example_backup] [] []
    (example_backups, {[3]} ∪ ({[2]} ∪ ({[1]} ∪ ∅))).
Proof.
  eapply (TSnoc _ _ (_, {[2]} ∪ ({[1]} ∪ ∅)) _ [Available example_backup; Available example_backup] [] [] [GracePeriod example_backup] [] []);
    [|apply TRegister; [set_solver|done]].
  eapply (TSnoc _ _ (_, {[1]} ∪ ∅) _ [Available example_backup] [] [] [Available example_backup] [] []); [|apply TRegister; [set_solver|done]].
  apply (TSnoc _ _ (connections_default, ∅) _ [] [] [] [Available example_backup] [] []); [constructor|]. apply TRegister; [set_solver|done].
Qed.

Lemma victim_least_important_witness :
  select_preemption_candidate example_manager "main" ∅ example_backups 4 Normal = Some (OwnerSingle 8, 2, 9, 101) ∧
  (∀ id' e', (id', e') ∈ table_entries example_backups → preemptible_for example_manager "main" ∅ 4 Normal e' →
     entry_kind e' = Normal → ¬ less_important (candidate_of id' e') (OwnerSingle 8, 2, 9, 101)).
Proof.
  pose proof (victim_least_important example_manager "main" ∅ _ _ _ _ _ 4 Normal example_backups_run) as T.
  assert (select_preemption_candidate example_manager "main" ∅ example_backups 4 Normal = Some (OwnerSingle 8, 2, 9, 101)) as E
    by (vm_compute; reflexivity).
  rewrite E in T. split; [exact E|]. destruct T as (id & e & He & Hx & _ & Hall & _). intros id' e' He' Hp' Hk.
  apply (Hall id' e' He' Hp'). rewrite Hk. destruct (entry_kind e) eqn:Ek; [done|].
  exfalso. revert He. unfold table_entries. vm_compute (map_to_list (single example_backups)). vm_compute (map_to_list (by_key example_backups)).
  cbn. intros He. repeat (apply elem_of_cons in He as [[= -> ->]|He]; [discriminate Ek|]). by apply not_elem_of_nil in He.
Defined.
