(* ===== verification/ActiveManager.v ===== *)
(** * The active provider manager

    Models [ActiveProviderManager] of
    backend/session/src/active_provider_manager.rs over the lineup manager and the
    table of active connections: reservations of providers for sessions,
    acquisition with preemption, release, reconfiguration and reconciliation.  An
    operation is a function from the manager to its result and the manager after
    it, the critical sections of its locks in sequence.  An operation reads the
    clocks once; expiry of reservations and creation of connections use the
    monotonic one.  Cancellation of tokens and teardown of shared streams, which
    other components carry out, are recorded in the state. *)

From S2P Require Import Prelude ProviderPool ProviderLineup ProviderManager ActiveConnections.
From stdpp Require Import gmap.

#[local] Open Scope Z_scope.

(** Provider, session owner, expiry. *)
Abbreviation ProviderReservations := (gmap string (gmap string Z)).

Record ActiveProviderManager := {
  providers : ProviderLineupManager;
  connections : Connections;
  reservations : ProviderReservations;
  next_allocation_id : Z;
  cancelled : list Z;
  torn_down : list string;
}.

Definition with_providers (s : ActiveProviderManager) (m : ProviderLineupManager) : ActiveProviderManager :=
  {| providers := m; connections := connections s; reservations := reservations s;
     next_allocation_id := next_allocation_id s; cancelled := cancelled s; torn_down := torn_down s |}.

Definition with_connections (s : ActiveProviderManager) (c : Connections) : ActiveProviderManager :=
  {| providers := providers s; connections := c; reservations := reservations s;
     next_allocation_id := next_allocation_id s; cancelled := cancelled s; torn_down := torn_down s |}.

Definition with_reservations (s : ActiveProviderManager) (r : ProviderReservations) : ActiveProviderManager :=
  {| providers := providers s; connections := connections s; reservations := r;
     next_allocation_id := next_allocation_id s; cancelled := cancelled s; torn_down := torn_down s |}.

(** Tokens are cancelled and streams torn down, in this order. *)
Definition signal (s : ActiveProviderManager) (tokens : list Z) (streams : list string) : ActiveProviderManager :=
  {| providers := providers s; connections := connections s; reservations := reservations s;
     next_allocation_id := next_allocation_id s; cancelled := cancelled s ++ tokens; torn_down := torn_down s ++ streams |}.

(** [allocation.release()]. *)
Definition release_allocation (s : ActiveProviderManager) (a : ProviderAllocation) : ActiveProviderManager :=
  with_providers s (with_pool (providers s) (allocation_release a (pool (providers s)))).

Definition release_allocations (s : ActiveProviderManager) (l : list ProviderAllocation) : ActiveProviderManager :=
  foldl release_allocation s l.

(** [inputs] of the configuration are filtered by [enabled]. *)
Definition get_config_inputs (inputs : list ConfigInput) : list ConfigInput := List.filter input_enabled inputs.

Definition active_provider_manager_new (inputs : list ConfigInput) (options : GracePeriodOptions) : ActiveProviderManager :=
  {| providers := manager_new (get_config_inputs inputs) options; connections := connections_default; reservations := ∅;
     next_allocation_id := 1; cancelled := []; torn_down := [] |}.

(** ** Reconciliation *)

Definition count_provider (counts : gmap string Z) (a : ProviderAllocation) : gmap string Z :=
  match get_provider_name a with
  | Some name => <[name := default 0 (counts !! name) + 1]> counts
  | None => counts
  end.

Definition connection_counts (c : Connections) : gmap string Z :=
  let counts := foldl (λ counts per_addr, foldl (λ counts e, count_provider counts (info_allocation e.2)) counts
                                            (map_to_list per_addr.2)) ∅ (map_to_list (single c)) in
  foldl (λ counts e, count_provider counts (shared_allocation e.2)) counts (map_to_list (by_key c)).

Definition active_reconcile_connections (s : ActiveProviderManager) (referenced : Z → bool) : ActiveProviderManager :=
  with_providers s (reconcile_connections (providers s) (connection_counts (connections s)) referenced).

Definition active_update_config (s : ActiveProviderManager) (inputs : list ConfigInput) (options : GracePeriodOptions)
    (referenced : Z → bool) : ActiveProviderManager :=
  active_reconcile_connections (with_providers s (update_config (providers s) (get_config_inputs inputs) options)) referenced.

(** ** Reservations *)

Definition non_empty_map {A} (m : gmap string A) : option (gmap string A) := if decide (m = ∅) then None else Some m.

Definition prune_expired_reservations (now : Z) (r : ProviderReservations) : ProviderReservations :=
  omap (λ provider_reservations, non_empty_map (filter (λ e, now < e.2) provider_reservations)) r.

Definition prune (clock : Clock) (s : ActiveProviderManager) : ActiveProviderManager :=
  with_reservations s (prune_expired_reservations (instant clock) (reservations s)).

Definition has_foreign_reservation (clock : Clock) (s : ActiveProviderManager) (provider_name : string)
    (session_owner : option string) : bool * ActiveProviderManager :=
  if negb (reservation_blocks_other_sessions (providers s) provider_name) then (false, s) else
  let s := prune clock s in
  (match reservations s !! provider_name with
   | None => false
   | Some provider_reservations =>
       match session_owner with
       | None => negb (bool_decide (provider_reservations = ∅))
       | Some owner => existsb (λ e, negb (bool_decide (e.1 = owner))) (map_to_list provider_reservations)
       end
   end, s).

Definition get_reserved_provider_for_owner (clock : Clock) (s : ActiveProviderManager) (input_name session_owner : string)
    : option string * ActiveProviderManager :=
  let s := prune clock s in
  (fst <$> find (λ e, bool_decide (is_Some (e.2 !! session_owner)) && is_provider_for_input (providers s) e.1 input_name)
             (map_to_list (reservations s)), s).

(** The owners of the connections of a provider. *)
Definition owner_on (provider_name : string) (a : ProviderAllocation) (owner : option string) : gset string :=
  match owner with
  | Some o => if bool_decide (get_provider_name a = Some provider_name) then {[o]} else ∅
  | None => ∅
  end.

Definition active_reservation_owners (c : Connections) (provider_name : string) : gset string :=
  foldl (λ owners per_addr,
           foldl (λ owners e, owners ∪ owner_on provider_name (info_allocation e.2) (info_session_owner e.2)) owners
             (map_to_list per_addr.2)) ∅ (map_to_list (single c))
  ∪ foldl (λ owners e, owners ∪ owner_on provider_name (shared_allocation e.2) (shared_session_owner e.2)) ∅
      (map_to_list (by_key c)).

(** Connections, limit, and reservations of other sessions that are not connected. *)
Definition reservation_capacity_usage (clock : Clock) (s : ActiveProviderManager) (provider_name : string)
    (session_owner : option string) : option (Z * Z * Z) * ActiveProviderManager :=
  match provider_capacity (providers s) provider_name with
  | None => (None, s)
  | Some (current, max) =>
      if max =? 0 then (Some (current, max, 0), s) else
      let active_owners := active_reservation_owners (connections s) provider_name in
      let s := prune clock s in
      let idle := match reservations s !! provider_name with
                  | None => 0
                  | Some provider_reservations =>
                      len (filter (λ o, session_owner ≠ Some o ∧ o ∉ active_owners) (map fst (map_to_list provider_reservations)))
                  end in
      (Some (current, max, idle), s)
  end.

Definition reserved_capacity_blocks_next (clock : Clock) (s : ActiveProviderManager) (provider_name : string)
    (session_owner : option string) : bool * ActiveProviderManager :=
  let '(usage, s) := reservation_capacity_usage clock s provider_name session_owner in
  (match usage with
   | None => true
   | Some (current, max, idle) => (0 <? max) && (0 <? idle) && (max <=? saturating_add current idle)
   end, s).

Definition exceeds_reserved_capacity (clock : Clock) (s : ActiveProviderManager) (provider_name : string)
    (session_owner : option string) : bool * ActiveProviderManager :=
  let '(usage, s) := reservation_capacity_usage clock s provider_name session_owner in
  (match usage with
   | None => true
   | Some (current, max, idle) => (0 <? max) && (0 <? idle) && (max <? saturating_add current idle)
   end, s).

Fixpoint collect_reserved (clock : Clock) (session_owner : option string) (names : list string) (s : ActiveProviderManager)
    : gset string * ActiveProviderManager :=
  match names with
  | [] => (∅, s)
  | name :: names =>
      let '(reserved, s) := has_foreign_reservation clock s name session_owner in
      let '(rest, s) := collect_reserved clock session_owner names s in
      (if reserved then {[name]} ∪ rest else rest, s)
  end.

Definition reserved_provider_names_for_other (clock : Clock) (s : ActiveProviderManager) (input_name : string)
    (session_owner : option string) : gset string * ActiveProviderManager :=
  collect_reserved clock session_owner (provider_names_for_input (providers s) input_name) s.

Definition drop_owner (session_owner : string) (r : ProviderReservations) : ProviderReservations :=
  omap (λ provider_reservations, non_empty_map (delete session_owner provider_reservations)) r.

Definition refresh_provider_reservation (clock : Clock) (s : ActiveProviderManager) (provider_name session_owner : string)
    (ttl_secs : Z) : ActiveProviderManager :=
  let r := drop_owner session_owner (reservations (prune clock s)) in
  with_reservations s
    (if ttl_secs =? 0 then r else
     <[provider_name := <[session_owner := instant clock + ttl_secs * 10 ^ 9]> (default ∅ (r !! provider_name))]> r).

Definition clear_provider_reservation (clock : Clock) (s : ActiveProviderManager) (session_owner : string)
    : ActiveProviderManager :=
  with_reservations s (drop_owner session_owner (reservations (prune clock s))).

(** ** Acquisition *)

Record AcquireProviderParams := {
  param_addr : Z;
  param_priority : Z;
  param_kind : ConnectionKind;
  param_session_owner : option string;
}.

(** Client, allocation id, allocation, token. *)
Record ProviderHandle := {
  client_id : Z;
  allocation_id : Z;
  handle_allocation : ProviderAllocation;
  handle_cancel_token : option Z;
}.

Definition register_allocation (clock : Clock) (s : ActiveProviderManager) (allocation : ProviderAllocation)
    (params : AcquireProviderParams) : option ProviderHandle * ActiveProviderManager :=
  let id := next_allocation_id s in
  let c := register_connection (connections s) (param_addr params) id (instant clock) allocation (param_priority params)
             (param_kind params) (param_session_owner params) in
  (Some {| client_id := param_addr params; allocation_id := id; handle_allocation := allocation; handle_cancel_token := Some id |},
   {| providers := providers s; connections := c; reservations := reservations s;
      next_allocation_id := wrapping_add64 id 1; cancelled := cancelled s; torn_down := torn_down s |}).

Definition acquire_exact_connection_inner (clock : Clock) (s : ActiveProviderManager) (provider_name : string)
    (allow_grace : bool) (params : AcquireProviderParams) : option ProviderHandle * ActiveProviderManager :=
  let '(allocation, m) := acquire_exact_connection_with_grace_override clock (providers s) provider_name allow_grace in
  let s := with_providers s m in
  match allocation with
  | Exhausted => (None, s)
  | _ =>
      let '(exceeds, s) := exceeds_reserved_capacity clock s provider_name (param_session_owner params) in
      if exceeds then (None, release_allocation s allocation) else register_allocation clock s allocation params
  end.

(** A victim is selected under the read lock and removed under the write lock:
    its allocation is released, its token cancelled, its stream torn down. *)
Definition evict_candidate_of (s : ActiveProviderManager) (victim : PreemptionCandidate) : option ActiveProviderManager :=
  '(c, allocation, tokens, stream) ← evict_victim (connections s) victim;
  Some (release_allocation (signal (with_connections s c) tokens (option_list stream)) allocation).

Definition select_victim (clock : Clock) (s : ActiveProviderManager) (input_name : string) (new_priority : Z)
    (kind_needed : ConnectionKind) (session_owner : option string)
    : option PreemptionCandidate * gset string * ActiveProviderManager :=
  let '(reserved_providers, s) := reserved_provider_names_for_other clock s input_name session_owner in
  (select_preemption_candidate (providers s) input_name reserved_providers (connections s) new_priority kind_needed,
   reserved_providers, s).

Definition evict_lower_priority_on_input (clock : Clock) (s : ActiveProviderManager) (input_name : string) (new_priority : Z)
    (kind_needed : ConnectionKind) (session_owner : option string) : bool * ActiveProviderManager :=
  let '(victim, _, s) := select_victim clock s input_name new_priority kind_needed session_owner in
  match victim ≫= evict_candidate_of s with
  | Some s => (true, s)
  | None => (false, s)
  end.

Section Acquisition.
Context (sanitize_sensitive_info : string → string).

Definition acquire_lineup (clock : Clock) (s : ActiveProviderManager) (input_name : string) (allow_grace : bool)
    (excluded : gset string) : ProviderAllocation * ActiveProviderManager :=
  let '(allocation, m) := acquire_connection_with_grace_override_excluding sanitize_sensitive_info clock (providers s)
                            input_name allow_grace excluded in
  (allocation, with_providers s m).

Definition finalize_lineup_allocation (clock : Clock) (s : ActiveProviderManager) (input_name : string) (allow_grace : bool)
    (allocation : ProviderAllocation) (params : AcquireProviderParams) : option ProviderHandle * ActiveProviderManager :=
  match allocation with
  | GracePeriod _ =>
      let '(evicted, s) := evict_lower_priority_on_input clock s input_name (param_priority params) (param_kind params)
                             (param_session_owner params) in
      if negb evicted then register_allocation clock s allocation params else
      let '(over_limit, m) := manager_is_over_limit (providers s) (default ""%string (get_provider_name allocation)) in
      let s := with_providers s m in
      if negb over_limit then register_allocation clock s allocation params else
      let '(new_alloc, s) := acquire_lineup clock s input_name allow_grace ∅ in
      match get_provider_name new_alloc with
      | None => register_allocation clock s allocation params
      | Some provider_name =>
          let '(exceeds, s) := exceeds_reserved_capacity clock s provider_name (param_session_owner params) in
          if exceeds then register_allocation clock (release_allocation s new_alloc) allocation params
          else register_allocation clock (release_allocation s allocation) new_alloc params
      end
  | _ => register_allocation clock s allocation params
  end.

(** The loop that acquires, passing over providers whose free connections are
    reserved: the allocation, if any, and the state. *)
Fixpoint acquire_unreserved (attempts : nat) (clock : Clock) (s : ActiveProviderManager) (input_name : string)
    (allow_grace : bool) (session_owner : option string) (excluded : gset string)
    : option ProviderAllocation * ActiveProviderManager :=
  match attempts with
  | O => (None, s)
  | S attempts =>
      let '(allocation, s) := acquire_lineup clock s input_name allow_grace excluded in
      match get_provider_name allocation with
      | None => (None, s)
      | Some provider_name =>
          let '(exceeds, s) := exceeds_reserved_capacity clock s provider_name session_owner in
          if exceeds
          then acquire_unreserved attempts clock (release_allocation s allocation) input_name allow_grace session_owner
                 ({[provider_name]} ∪ excluded)
          else (Some allocation, s)
      end
  end.

Definition acquire_attempts (s : ActiveProviderManager) (input_name : string) : nat :=
  Nat.max (length (provider_names_for_input (providers s) input_name)) 1.

Definition try_preempt_connection (clock : Clock) (s : ActiveProviderManager) (input_name : string) (new_priority : Z)
    (allow_grace : bool) (kind_needed : ConnectionKind) (session_owner : option string)
    : option ProviderAllocation * ActiveProviderManager :=
  let '(victim, reserved_providers, s) := select_victim clock s input_name new_priority kind_needed session_owner in
  match victim ≫= evict_candidate_of s with
  | None => (None, s)
  | Some s => acquire_unreserved (acquire_attempts s input_name) clock s input_name allow_grace session_owner reserved_providers
  end.

Definition acquire_connection_inner (clock : Clock) (s : ActiveProviderManager) (provider_or_input_name : string)
    (allow_grace : bool) (params : AcquireProviderParams) : option ProviderHandle * ActiveProviderManager :=
  let '(reserved, s) := match param_session_owner params with
                        | Some owner => get_reserved_provider_for_owner clock s provider_or_input_name owner
                        | None => (None, s)
                        end in
  match reserved with
  | Some reserved_provider => acquire_exact_connection_inner clock s reserved_provider allow_grace params
  | None =>
      let '(allocation, s) := acquire_unreserved (acquire_attempts s provider_or_input_name) clock s provider_or_input_name
                                allow_grace (param_session_owner params) ∅ in
      match allocation with
      | Some allocation => finalize_lineup_allocation clock s provider_or_input_name allow_grace allocation params
      | None =>
          let '(allocation, s) := try_preempt_connection clock s provider_or_input_name (param_priority params) allow_grace
                                    (param_kind params) (param_session_owner params) in
          match allocation with
          | Some allocation => register_allocation clock s allocation params
          | None => (None, s)
          end
      end
  end.

(** *** Entry points *)

Definition acquire_exact_connection_with_grace_for_session (clock : Clock) (s : ActiveProviderManager) (provider_name : string)
    (addr : Z) (allow_grace : bool) (priority : Z) (kind : ConnectionKind) (session_owner : option string)
    : option ProviderHandle * ActiveProviderManager :=
  acquire_exact_connection_inner clock s provider_name allow_grace
    {| param_addr := addr; param_priority := priority; param_kind := kind; param_session_owner := session_owner |}.

Definition acquire_exact_connection_with_grace (clock : Clock) (s : ActiveProviderManager) (provider_name : string)
    (addr : Z) (allow_grace : bool) (priority : Z) (kind : ConnectionKind) : option ProviderHandle * ActiveProviderManager :=
  acquire_exact_connection_with_grace_for_session clock s provider_name addr allow_grace priority kind None.

Definition force_exact_acquire_connection (clock : Clock) (s : ActiveProviderManager) (provider_name : string) (addr : Z)
    (priority : Z) (kind : ConnectionKind) : option ProviderHandle * ActiveProviderManager :=
  acquire_exact_connection_with_grace clock s provider_name addr false priority kind.

Definition acquire_connection_with_grace_for_session (clock : Clock) (s : ActiveProviderManager) (input_name : string)
    (addr : Z) (allow_grace : bool) (priority : Z) (kind : ConnectionKind) (session_owner : option string)
    : option ProviderHandle * ActiveProviderManager :=
  acquire_connection_inner clock s input_name allow_grace
    {| param_addr := addr; param_priority := priority; param_kind := kind; param_session_owner := session_owner |}.

Definition acquire_connection_with_grace (clock : Clock) (s : ActiveProviderManager) (input_name : string) (addr : Z)
    (allow_grace : bool) (priority : Z) (kind : ConnectionKind) : option ProviderHandle * ActiveProviderManager :=
  acquire_connection_with_grace_for_session clock s input_name addr allow_grace priority kind None.

Definition acquire_connection (clock : Clock) (s : ActiveProviderManager) (input_name : string) (addr : Z) (priority : Z)
    (kind : ConnectionKind) : option ProviderHandle * ActiveProviderManager :=
  acquire_connection_inner clock s input_name true
    {| param_addr := addr; param_priority := priority; param_kind := kind; param_session_owner := None |}.

(** Probes and downloads use a fixed address of their own and no grace. *)
Definition acquire_connection_for_background (DUMMY_ADDR : Z) (clock : Clock) (s : ActiveProviderManager) (input_name : string)
    (priority : Z) : option ProviderHandle * ActiveProviderManager :=
  acquire_connection_inner clock s input_name false
    {| param_addr := DUMMY_ADDR; param_priority := priority; param_kind := Normal; param_session_owner := None |}.
End Acquisition.

(** ** Release and sharing *)

Definition active_release_connection (s : ActiveProviderManager) (addr : Z) : ActiveProviderManager :=
  let '(c, released) := release_connection (connections s) addr in release_allocations (with_connections s c) released.

Definition active_release_handle (s : ActiveProviderManager) (handle : ProviderHandle) : ActiveProviderManager :=
  let '(c, released) := release_handle (connections s) (client_id handle) (allocation_id handle) in
  release_allocations (with_connections s c) released.

Definition active_reclassify_connection (s : ActiveProviderManager) (addr : Z) (kind : ConnectionKind) (priority : Z)
    : bool * ActiveProviderManager :=
  let '(c, b) := reclassify_connection (connections s) addr kind priority in (b, with_connections s c).

Definition active_make_shared_connection (s : ActiveProviderManager) (addr : Z) (key : string) : ActiveProviderManager :=
  let '(c, released, tokens) := make_shared_connection (connections s) addr key in
  release_allocations (signal (with_connections s c) tokens []) released.

Definition active_add_shared_connection (s : ActiveProviderManager) (addr : Z) (key : string) (priority : Z)
    (kind : ConnectionKind) : bool * ActiveProviderManager :=
  match add_shared_connection (connections s) addr key priority kind with
  | Some c => (true, with_connections s c)
  | None => (false, s)
  end.

Definition provider_capacities_for_input (s : ActiveProviderManager) (input_name : string) : list (string * Z * Z) :=
  omap (λ name, '(current, max) ← provider_capacity (providers s) name; Some (name, current, max))
    (provider_names_for_input (providers s) input_name).
