(* ===== verification/ActiveAccounting.v ===== *)
(** * Accounting of the active provider manager

    The counters of the providers against the table of active connections: the
    manager takes and releases provider connections in step with the entries it
    adds to the table and removes from it, also when it preempts, retries or
    gives a connection back because its place is reserved.  The lemmas here are on
    tables whose views agree; [ActiveCount] does without that. *)

From S2P Require Import Prelude ProviderPool ProviderLineup ProviderManager ProviderAccounting ActiveConnections ActiveIndex ActiveLedger ActiveTable ActiveManager.
From stdpp Require Import gmap relations.

#[local] Open Scope Z_scope.

(** The provider configurations behind a list of allocations. *)
Definition configs (l : list ProviderAllocation) : list ProviderConfig := omap allocation_provider l.

Lemma configs_app l l' : configs (l ++ l') = configs l ++ configs l'.
Proof. apply omap_app. Qed.

Lemma configs_length l : (length (configs l) ≤ length l)%nat.
Proof. induction l as [|a l IH]; cbn; [done|]. destruct (allocation_provider a); cbn; unfold configs in IH; lia. Qed.

#[export] Instance configs_proper : Proper ((≡ₚ) ==> (≡ₚ)) configs.
Proof. intros l l' H. unfold configs. by rewrite H. Qed.

Lemma holding_perm x hs hs' : hs ≡ₚ hs' → holding x hs = holding x hs'.
Proof. intros H. unfold holding. by rewrite H. Qed.

Lemma holding_name_perm n hs hs' : hs ≡ₚ hs' → holding_name n hs = holding_name n hs'.
Proof. intros H. unfold holding_name. by rewrite H. Qed.

(** The order in which connections are held does not matter. *)
Lemma accounted_perm m hs hs' : hs ≡ₚ hs' → accounted (m, hs) → accounted (m, hs').
Proof.
  intros H [Hr Hi Hl Hh Hc He]. constructor; cbn [fst snd] in *; [done|done|done|by rewrite <- H| |].
  - intros n x Hx. rewrite <- (holding_perm x _ _ H). by eapply Hc.
  - intros n. rewrite <- (holding_name_perm n _ _ H). apply He.
Qed.

(** ** The counts of a table *)

Lemma count_fold l : ∀ counts n,
  default 0 (foldl count_provider counts l !! n) = default 0 (counts !! n) + holding_name n (configs l).
Proof.
  induction l as [|a l IH]; intros counts n; cbn [foldl]; [unfold holding_name; cbn; lia|]. rewrite IH. unfold count_provider, get_provider_name.
  change (a :: l) with ([a] ++ l). rewrite configs_app. unfold configs at 2. cbn [omap list_omap]. destruct (allocation_provider a) as [c|]; cbn [fmap option_fmap option_map].
  - rewrite holding_name_app, holding_name_one. case_decide as E; [subst; rewrite lookup_insert_eq; cbn; lia|].
    rewrite lookup_insert_ne by congruence. lia.
  - done.
Qed.

Lemma connection_counts_fold c : connection_counts c = foldl count_provider ∅ (table_allocations c).
Proof.
  unfold connection_counts, table_allocations, single_allocations, client_allocations, stream_allocations. rewrite foldl_app, foldl_fmap. f_equal.
  generalize (∅ : gmap string Z). generalize (map_to_list (single c)). intros l. induction l as [|[a m] l IH]; intros counts; [done|].
  cbn [foldl snd mbind list_bind]. rewrite foldl_app, IH. f_equal. by rewrite foldl_fmap.
Qed.

Lemma connection_counts_exact V c n :
  table_core V c → default 0 (connection_counts c !! n) = holding_name n (configs (held V)).
Proof.
  intros Hc. rewrite connection_counts_fold, count_fold, lookup_empty. cbn. by rewrite (holding_name_perm n _ _ (configs_proper _ _ (table_allocations_held V c Hc))).
Qed.

(** ** The invariant *)

(** Besides the connections of the table, the operation in progress holds the
    allocations [pending]. *)
Record pending_ok (s : ActiveProviderManager) (pending : list ProviderAllocation) (V : gmap Z entry) : Prop := {
  po_table : table_ok V (connections s);
  po_next : 1 ≤ next_allocation_id s;
  po_ids : ∀ id e, V !! id = Some e → 1 ≤ id < next_allocation_id s;
  po_counts : accounted (providers s, configs (pending ++ held V));
}.

Definition manager_ok (s : ActiveProviderManager) : Prop := ∃ V, pending_ok s [] V.

Lemma pending_perm s l l' V : l ≡ₚ l' → pending_ok s l V → pending_ok s l' V.
Proof. intros H [Ht Hp Hi Hc]. constructor; [done|done|done|]. eapply accounted_perm; [|exact Hc]. by rewrite H. Qed.

(** The number of connections is bounded by the ids given out. *)
Lemma held_bound V n : (∀ id e, V !! id = Some e → 1 ≤ id < n) → Z.of_nat (length (held V)) ≤ Z.max 0 (n - 1).
Proof.
  intros Hid. unfold held. rewrite length_map, length_map_to_list.
  assert (size (dom V) ≤ size (list_to_set (seqZ 1 (n - 1)) : gset Z))%nat as Hle.
  { apply subseteq_size. intros id [e He]%elem_of_dom. apply elem_of_list_to_set, elem_of_seqZ. specialize (Hid id e He). lia. }
  rewrite size_dom, size_list_to_set, length_seqZ in Hle by apply NoDup_seqZ. lia.
Qed.

(** Steps that touch neither the table nor the counters. *)
Lemma pending_frame s s' l V :
  providers s' = providers s → connections s' = connections s → next_allocation_id s' = next_allocation_id s →
  pending_ok s l V → pending_ok s' l V.
Proof. intros Ep Ec En [Ht Hp Hi Hc]. constructor; [by rewrite Ec|by rewrite En|by rewrite En|by rewrite Ep]. Qed.

Lemma configs_cons a l : configs (a :: l) = option_list (allocation_provider a) ++ configs l.
Proof. unfold configs. cbn. by destruct (allocation_provider a). Qed.

Lemma release_allocation_ok s a l V : pending_ok s (a :: l) V → pending_ok (release_allocation s a) l V.
Proof.
  intros [Ht Hp Hi Hc]. constructor; [done|done|done|]. cbn [app] in Hc. rewrite configs_cons in Hc.
  unfold release_allocation, allocation_release. destruct a as [|c|c]; cbn in *.
  - by destruct (providers s).
  - by apply (accounted_release _ [] c).
  - by apply (accounted_release _ [] c).
Qed.

Lemma release_allocations_ok released : ∀ s l V, pending_ok s (released ++ l) V → pending_ok (release_allocations s released) l V.
Proof. induction released as [|a released IH]; intros s l V H; [done|]. cbn. by apply IH, release_allocation_ok. Qed.

(** A step of the table hands its released allocations to the operation. *)
Lemma table_step_pending s acquired l c' released V V' :
  step_ok V acquired c' released V' → dom V' ⊆ dom V ∪ (if decide (acquired = []) then ∅ else {[next_allocation_id s]}) →
  ∀ s',
  connections s' = c' → providers s' = providers s →
  next_allocation_id s' = next_allocation_id s + (if decide (acquired = []) then 0 else 1) →
  pending_ok s (acquired ++ l) V → pending_ok s' (released ++ l) V'.
Proof.
  intros [Hok Hh] Hdom s' <- Ep En [_ Hpos Hid Hc]. constructor; [done|rewrite En; case_decide; lia| |].
  - intros id e He%elem_of_dom_2. rewrite En. apply Hdom, elem_of_union in He as [[e' He']%elem_of_dom|He].
    + specialize (Hid id e' He'). case_decide; lia.
    + case_decide; set_solver by lia.
  - rewrite Ep. eapply accounted_perm; [|exact Hc]. apply configs_proper.
    trans (l ++ (held V ++ acquired)); [rewrite (Permutation_app_comm acquired l), <- app_assoc; apply Permutation_app_head, Permutation_app_comm|].
    rewrite Hh, (Permutation_app_comm released l), <- app_assoc. apply Permutation_app_head, Permutation_app_comm.
Qed.

(** ** Acquisition *)

Definition pruned (clock : Clock) (s : ActiveProviderManager) : ProviderReservations :=
  prune_expired_reservations (instant clock) (reservations s).

Lemma pruned_prune clock s : pruned clock (prune clock s) = pruned clock s.
Proof.
  unfold pruned, prune. cbn. unfold prune_expired_reservations. apply map_eq. intros p. rewrite !lookup_omap.
  destruct (reservations s !! p) as [r|]; [|done]. cbn. unfold non_empty_map at 2. case_decide as E; [by unfold non_empty_map; rewrite decide_True|].
  cbn. f_equal. apply map_filter_filter_l. done.
Qed.

(** What an acquisition does not change, and whom it serves. *)
Lemma acquire_frame sanitize clock m input allow_grace excluded a m' :
  acquire_connection_with_grace_override_excluding sanitize clock m input allow_grace excluded = (a, m') →
  snapshot_providers m' = snapshot_providers m ∧
  ((∀ l, l ∈ snapshot_providers m → lineup_wf l) → indices_ok (pool m) →
   ∀ p, get_provider_name a = Some p → p ∈ provider_names_for_input m input).
Proof.
  unfold acquire_connection_with_grace_override_excluding, provider_names_for_input.
  destruct (get_provider_config_by_name input _) as [[l cfg]|] eqn:E; [|by intros [= <- <-]].
  apply provider_by_name_lineup in E as (Hl & _ & _).
  pose proof (acquire_excluding_step clock l (allow_grace && (0 <? grace_period_millis m)) (grace_period_timeout_secs m) excluded (pool m)) as Hs.
  destruct (acquire_excluding _ _ _ _ _ _) as [a' p']. intros H. split.
  - repeat case_match; simplify_eq; try done. unfold report_priority_group. by case_match.
  - assert (a = a') as -> by (repeat case_match; by simplify_eq). intros Hok Hi p Hp.
    destruct (Hs (Hok l Hl) Hi) as [_ Hin]. unfold get_provider_name in Hp. destruct (allocation_provider a') as [c|]; [|done].
    injection Hp as <-. specialize (Hin c eq_refl).
    assert (provider_names l = config_name <$> lineup_members l) as -> by (by destruct l). apply list_elem_of_fmap. by exists c.
Qed.

Lemma acquire_exact_frame clock m provider allow_grace a m' :
  acquire_exact_connection_with_grace_override clock m provider allow_grace = (a, m') →
  snapshot_providers m' = snapshot_providers m ∧ ∀ p, get_provider_name a = Some p → p = provider.
Proof.
  unfold acquire_exact_connection_with_grace_override.
  destruct (get_provider_config_by_name provider _) as [[l cfg]|] eqn:E; [|by intros [= <- <-]].
  apply provider_by_name_lineup in E as (_ & _ & En).
  pose proof (try_allocate_step clock cfg (allow_grace && (0 <? grace_period_millis m)) (grace_period_timeout_secs m) (pool m)) as Hs.
  destruct (try_allocate _ _ _ _ _) as [a' p']. destruct Hs as [_ Hs]. intros [= <- <-]. split; [done|]. intros p Hp.
  unfold get_provider_name in Hp. destruct (allocation_provider a') as [c|]; [|done]. injection Hp as <-. by rewrite (Hs c eq_refl).
Qed.

Section Acquire.
Context (sanitize : string → string) (clock : Clock) (n : Z) (Hn : 1 ≤ n < 2 ^ 64 - 2).
Context (lineups : list ProviderLineup) (R : ProviderReservations).

(** The state between the steps of an operation: the connections [V] of the
    table, the allocations the operation holds, at most two, and what does not
    change until it registers one: the next id, the lineups, the reservations. *)
Record busy (s : ActiveProviderManager) (l : list ProviderAllocation) (V : gmap Z entry) : Prop := {
  busy_pending : pending_ok s l V;
  busy_next : next_allocation_id s = n;
  busy_length : (length l ≤ 2)%nat;
  busy_lineups : snapshot_providers (providers s) = lineups;
  busy_reservations : pruned clock s = R;
}.

Lemma busy_perm s l l' V : l ≡ₚ l' → busy s l V → busy s l' V.
Proof. intros H [HV En Hl El Er]. constructor; [by eapply pending_perm|done|by rewrite <- H|done|done]. Qed.

Lemma busy_frame s s' l V :
  providers s' = providers s → connections s' = connections s → next_allocation_id s' = next_allocation_id s →
  pruned clock s' = pruned clock s → busy s l V → busy s' l V.
Proof.
  intros Ep Ec En Er [HV E Hl El Er']. constructor; [by eapply pending_frame|congruence|done|by rewrite Ep|congruence].
Qed.

Lemma busy_providers s l l' m V :
  (length l' ≤ 2)%nat → snapshot_providers m = snapshot_providers (providers s) →
  (Z.of_nat (length (configs (l ++ held V))) < 2 ^ 64 - 1 →
     accounted (providers s, configs (l ++ held V)) → accounted (m, configs (l' ++ held V))) → (length l ≤ 1)%nat →
  busy s l V → busy (with_providers s m) l' V.
Proof.
  intros Hl' Em Hm Hl [[Ht Hp Hi Hc] En _ El Er]. constructor; [|done|done|by cbn; rewrite Em|done]. constructor; [done|done|done|]. cbn. apply Hm; [|done].
  pose proof (held_bound V _ Hi) as Hb. pose proof (configs_length (l ++ held V)) as Hcl. rewrite length_app in Hcl. lia.
Qed.

(** An allocation of a lineup is of one of its providers. *)
Lemma busy_acquire_lineup s l V input_name allow_grace excluded :
  busy s l V → (length l ≤ 1)%nat →
  let '(a, s') := acquire_lineup sanitize clock s input_name allow_grace excluded in
  busy s' (a :: l) V ∧ ∀ p, get_provider_name a = Some p → p ∈ provider_names_for_input (providers s) input_name.
Proof.
  intros Hb Hl. unfold acquire_lineup. destruct (acquire_connection_with_grace_override_excluding _ _ _ _ _ _) as [a m] eqn:E.
  destruct (acquire_frame _ _ _ _ _ _ _ _ E) as [Em Hp]. split.
  - apply (busy_providers s l); [cbn; lia|done| |done|done]. intros Hlen Hac. cbn [app]. rewrite configs_cons. by eapply accounted_acquire.
  - apply Hp; [|apply (ac_indices _ (po_counts _ _ _ (busy_pending _ _ _ Hb)))].
    intros lu Hlu. by destruct (accounted_lineup _ _ lu (po_counts _ _ _ (busy_pending _ _ _ Hb)) Hlu).
Qed.

Lemma busy_acquire_exact s l V provider_name allow_grace :
  busy s l V → (length l ≤ 1)%nat →
  let '(a, m) := acquire_exact_connection_with_grace_override clock (providers s) provider_name allow_grace in
  busy (with_providers s m) (a :: l) V ∧ ∀ p, get_provider_name a = Some p → p = provider_name.
Proof.
  intros Hb Hl. destruct (acquire_exact_connection_with_grace_override _ _ _ _) as [a m] eqn:E.
  destruct (acquire_exact_frame _ _ _ _ _ _ E) as [Em Hp]. split; [|done].
  apply (busy_providers s l); [cbn; lia|done| |done|done]. intros Hlen Hac. cbn [app]. rewrite configs_cons. by eapply accounted_acquire_exact.
Qed.

Lemma busy_release s a l V : busy s (a :: l) V → busy (release_allocation s a) l V.
Proof. intros [HV En Hl El Er]. constructor; [by apply release_allocation_ok|done|cbn in Hl; lia|done|done]. Qed.

Lemma busy_over_limit s l V name b m :
  busy s l V → manager_is_over_limit (providers s) name = (b, m) → busy (with_providers s m) l V.
Proof.
  intros [[Ht Hp Hi Hc] En Hl El Er] E. constructor; [|done|done| |done].
  - constructor; [done|done|done|]. by eapply accounted_over_limit.
  - cbn. rewrite <- El. unfold manager_is_over_limit in E. repeat case_match; simplify_eq; done.
Qed.

Lemma busy_exhausted s l V : busy s (Exhausted :: l) V → busy s l V.
Proof. intros [[Ht Hp Hi Hc] En Hl El Er]. constructor; [by constructor|done|cbn in Hl; lia|done|done]. Qed.

Lemma busy_exceeds s l V name owner : busy s l V → busy (exceeds_reserved_capacity clock s name owner).2 l V.
Proof.
  apply busy_frame; unfold exceeds_reserved_capacity, reservation_capacity_usage; repeat case_match; simplify_eq; done || apply pruned_prune.
Qed.

Lemma busy_foreign s l V name owner : busy s l V → busy (has_foreign_reservation clock s name owner).2 l V.
Proof. apply busy_frame; unfold has_foreign_reservation; case_match; done || apply pruned_prune. Qed.

Lemma busy_collect owner names : ∀ s l V, busy s l V → busy (collect_reserved clock owner names s).2 l V.
Proof.
  induction names as [|name names IH]; intros s l V Hb; [done|]. cbn [collect_reserved].
  pose proof (busy_foreign s l V name owner Hb) as Hb1.
  destruct (has_foreign_reservation _ _ _ _) as [b s1]. specialize (IH s1 l V Hb1). by destruct (collect_reserved _ _ _ _).
Qed.

Lemma busy_select s l V input_name priority kind owner :
  busy s l V → busy (select_victim clock s input_name priority kind owner).2 l V.
Proof.
  intros Hb. unfold select_victim, reserved_provider_names_for_other.
  pose proof (busy_collect owner (provider_names_for_input (providers s) input_name) s l V Hb) as H. by destruct (collect_reserved _ _ _ _).
Qed.

Lemma busy_evict s l V owner id prio created s' :
  busy s l V → (length l ≤ 1)%nat → evict_candidate_of s (owner, id, prio, created) = Some s' →
  ∃ e, V !! id = Some e ∧ busy s' l (delete id V).
Proof.
  intros [HV En _ El Er] Hl. unfold evict_candidate_of. destruct (evict_victim _ _) as [[[[c a] tokens] stream]|] eqn:E; [|done].
  cbn [mbind option_bind]. intros [= <-].
  destruct (evict_victim_step V _ _ _ _ _ _ _ _ _ (po_table _ _ _ HV) E) as (e & He & _ & Hs). exists e. split; [done|].
  constructor; [|done|lia|done|done]. apply release_allocation_ok. eapply (table_step_pending s [] l _ [a] V _ Hs);
    [rewrite dom_delete; set_solver|done|done|rewrite decide_True by done; cbn; lia|done].
Qed.

(** Registration ends the operation. *)
Lemma register_done s a V params :
  busy s [a] V → a ≠ Exhausted →
  ∃ info, info_allocation info = a ∧ info_session_owner info = param_session_owner params ∧
    pending_ok (register_allocation clock s a params).2 [] (<[n := ESingle (param_addr params) info]> V).
Proof.
  intros [HV En _ _ _] Hg. unfold register_allocation. set (s' := Build_ActiveProviderManager _ _ _ _ _ _). cbn [snd].
  assert (V !! n = None) as Hfresh.
  { destruct (V !! n) as [e|] eqn:E; [|done]. apply (po_ids _ _ _ HV) in E. lia. }
  destruct (register_step V (connections s) (param_addr params) n (instant clock) a (param_priority params) (param_kind params)
    (param_session_owner params) (po_table _ _ _ HV) Hfresh Hg) as (info & Ea & Eo & Hs).
  exists info. split_and!; [done|done|]. eapply (table_step_pending s [a] [] _ [] V _ Hs); [|by rewrite <- En|done| |done].
  - rewrite decide_False by done. rewrite dom_insert, En. set_solver.
  - rewrite decide_False by done. cbn. unfold wrapping_add64. rewrite En. apply Z.mod_small. lia.
Qed.

Lemma name_granted a name : get_provider_name a = Some name → a ≠ Exhausted.
Proof. by intros H ->. Qed.

Lemma name_exhausted a : get_provider_name a = None → a = Exhausted.
Proof. by destruct a. Qed.

End Acquire.
