(* ===== verification/ActiveCount.v ===== *)
(** * Counting without a protocol

    The counters of the providers against the table of active connections when
    nothing is known of how callers share connections: every counter is the
    number of the connections of the table and of the streams that were
    overwritten since the last reconciliation. *)

From S2P Require Import Prelude ProviderPool ProviderLineup ProviderManager ProviderAccounting ActiveConnections ActiveIndex ActiveLedger ActiveTable ActiveManager ActiveAccounting.
From stdpp Require Import gmap.

#[local] Open Scope Z_scope.

(** The table, the allocations [pending] of the operation in progress and the
    connections [leaked] together are what the counters count. *)
Record ledger (s : ActiveProviderManager) (pending leaked : list ProviderAllocation) : Prop := {
  lg_next : 1 ≤ next_allocation_id s;
  lg_ids a i : is_Some (lookup2 (single (connections s)) a i) → i < next_allocation_id s;
  lg_size : Z.of_nat (length (table_allocations (connections s) ++ leaked)) ≤ next_allocation_id s - 1;
  lg_counts : accounted (providers s, configs (pending ++ table_allocations (connections s) ++ leaked));
}.

Lemma ledger_frame s s' l leaked :
  providers s' = providers s → connections s' = connections s → next_allocation_id s' = next_allocation_id s →
  ledger s l leaked → ledger s' l leaked.
Proof. intros Ep Ec En [H1 H2 H3 H4]. constructor; rewrite ?Ep, ?Ec, ?En; done. Qed.

Lemma ledger_perm s l l' leaked : l ≡ₚ l' → ledger s l leaked → ledger s l' leaked.
Proof. intros H [H1 H2 H3 H4]. constructor; [done..|]. eapply accounted_perm; [|exact H4]. by rewrite H. Qed.

Lemma ledger_release s a l leaked : ledger s (a :: l) leaked → ledger (release_allocation s a) l leaked.
Proof.
  intros [H1 H2 H3 H4]. constructor; [done..|]. cbn [app] in H4. rewrite configs_cons in H4.
  unfold release_allocation, allocation_release. destruct a as [|c|c]; cbn in *.
  - by destruct (providers s).
  - by apply (accounted_release _ [] c).
  - by apply (accounted_release _ [] c).
Qed.

Lemma ledger_releases released : ∀ s l leaked, ledger s (released ++ l) leaked → ledger (release_allocations s released) l leaked.
Proof. induction released as [|a released IH]; intros s l leaked H; [done|]. cbn. by apply IH, ledger_release. Qed.

(** What flows out of the table is released or leaked. *)
Lemma ledger_flow s s' l leaked released dropped :
  flow (connections s) (connections s') (released ++ dropped) →
  providers s' = providers s → next_allocation_id s' = next_allocation_id s →
  ledger s l leaked → ledger s' (released ++ l) (leaked ++ dropped).
Proof.
  intros [Hf He] Ep En [H1 H2 H3 H4]. constructor; rewrite ?En; [done| | |].
  - intros a i Hi. by eapply H2, He.
  - rewrite Hf in H3. rewrite !length_app in *. lia.
  - rewrite Ep. eapply accounted_perm; [|exact H4]. apply configs_proper. rewrite Hf. solve_Permutation.
Qed.

Section Working.
Context (sanitize : string → string) (clock : Clock) (n : Z) (Hn : 1 ≤ n < 2 ^ 64 - 2) (leaked : list ProviderAllocation).

(** Between the steps of an operation, which holds at most two allocations. *)
Record working (s : ActiveProviderManager) (l : list ProviderAllocation) : Prop := {
  wk_ledger : ledger s l leaked;
  wk_next : next_allocation_id s = n;
  wk_length : (length l ≤ 2)%nat;
}.

Lemma working_frame s s' l :
  providers s' = providers s → connections s' = connections s → next_allocation_id s' = next_allocation_id s →
  working s l → working s' l.
Proof. intros Ep Ec En [HL E Hl]. constructor; [by eapply ledger_frame|congruence|done]. Qed.

Lemma working_perm s l l' : l ≡ₚ l' → working s l → working s l'.
Proof. intros H [HL E Hl]. constructor; [by eapply ledger_perm|done|by rewrite <- H]. Qed.

Lemma working_providers s l l' m :
  (length l' ≤ 2)%nat → (length l ≤ 1)%nat →
  (∀ hs, Z.of_nat (length (configs l ++ hs)) < 2 ^ 64 - 1 → accounted (providers s, configs l ++ hs) → accounted (m, configs l' ++ hs)) →
  working s l → working (with_providers s m) l'.
Proof.
  intros Hl' Hl Hm [[H1 H2 H3 H4] En _]. constructor; [|done|done]. constructor; [done..|]. cbn. rewrite configs_app in *. apply Hm; [|done].
  pose proof (configs_length l) as C1. pose proof (configs_length (table_allocations (connections s) ++ leaked)) as C2. rewrite length_app. lia.
Qed.

Lemma working_acquire_lineup s l input_name allow_grace excluded :
  working s l → (length l ≤ 1)%nat →
  let '(a, s') := acquire_lineup sanitize clock s input_name allow_grace excluded in working s' (a :: l).
Proof.
  intros Hw Hl. unfold acquire_lineup. destruct (acquire_connection_with_grace_override_excluding _ _ _ _ _ _) as [a m] eqn:E.
  apply (working_providers s l); [cbn; lia|done| |done]. intros hs Hlen Hac. rewrite configs_cons, <- app_assoc. by eapply accounted_acquire.
Qed.

Lemma working_acquire_exact s l provider_name allow_grace :
  working s l → (length l ≤ 1)%nat →
  let '(a, m) := acquire_exact_connection_with_grace_override clock (providers s) provider_name allow_grace in
  working (with_providers s m) (a :: l).
Proof.
  intros Hw Hl. destruct (acquire_exact_connection_with_grace_override _ _ _ _) as [a m] eqn:E.
  apply (working_providers s l); [cbn; lia|done| |done]. intros hs Hlen Hac. rewrite configs_cons, <- app_assoc. by eapply accounted_acquire_exact.
Qed.

Lemma working_release s a l : working s (a :: l) → working (release_allocation s a) l.
Proof. intros [HL En Hl]. constructor; [by apply ledger_release|done|cbn in Hl; lia]. Qed.

Lemma working_exhausted s l : working s (Exhausted :: l) → working s l.
Proof. intros [[H1 H2 H3 H4] En Hl]. constructor; [by constructor|done|cbn in Hl; lia]. Qed.

Lemma working_over_limit s l name b m :
  working s l → manager_is_over_limit (providers s) name = (b, m) → working (with_providers s m) l.
Proof.
  intros [[H1 H2 H3 H4] En Hl] E. constructor; [|done|done]. constructor; [done..|]. by eapply accounted_over_limit.
Qed.

Lemma working_exceeds s l name owner : working s l → working (exceeds_reserved_capacity clock s name owner).2 l.
Proof. apply working_frame; unfold exceeds_reserved_capacity, reservation_capacity_usage; repeat case_match; simplify_eq; done. Qed.

Lemma working_collect owner names : ∀ s l, working s l → working (collect_reserved clock owner names s).2 l.
Proof.
  induction names as [|name names IH]; intros s l Hw; [done|]. cbn [collect_reserved].
  assert (working (has_foreign_reservation clock s name owner).2 l) as H1
    by (eapply working_frame; [..|exact Hw]; unfold has_foreign_reservation; by case_match).
  destruct (has_foreign_reservation _ _ _ _) as [b s1]. specialize (IH s1 l H1). by destruct (collect_reserved _ _ _ _).
Qed.

(** A victim is selected and removed, or nothing happens. *)
Lemma working_select s l input_name priority kind owner :
  working s l → (length l ≤ 1)%nat →
  let '(victim, _, s1) := select_victim clock s input_name priority kind owner in
  working s1 l ∧ ∀ s2, victim ≫= evict_candidate_of s1 = Some s2 → working s2 l.
Proof.
  intros Hw Hl. unfold select_victim, reserved_provider_names_for_other.
  pose proof (working_collect owner (provider_names_for_input (providers s) input_name) s l Hw) as H. destruct (collect_reserved _ _ _ _) as [r s1].
  split; [exact H|]. destruct (select_preemption_candidate _ _ _ _ _ _) as [victim|]; [|done]. cbn [mbind option_bind]. intros s2.
  unfold evict_candidate_of. destruct (evict_victim _ _) as [[[[c a] tokens] stream]|] eqn:E; [|done]. cbn [mbind option_bind].
  intros [= <-]. destruct H as [HL En _]. constructor; [|done|lia]. apply ledger_release. rewrite <- (app_nil_r leaked).
  eapply (ledger_flow s1 _ l leaked [a] []); [by eapply evict_flow|done..].
Qed.

(** Registration ends the operation. *)
Lemma working_register s a params : working s [a] → ledger (register_allocation clock s a params).2 [] leaked.
Proof.
  intros [[H1 H2 H3 H4] En _]. unfold register_allocation. cbn [snd]. rewrite En in *.
  assert (lookup2 (single (connections s)) (param_addr params) n = None) as Hfresh.
  { destruct (lookup2 _ _ n) eqn:E; [|done]. assert (n < n); [|lia]. eapply H2. by eexists. }
  destruct (register_flow (connections s) (param_addr params) n (instant clock) a (param_priority params) (param_kind params)
    (param_session_owner params) Hfresh) as [Hp He].
  assert (wrapping_add64 n 1 = n + 1) as Ew by (unfold wrapping_add64; apply Z.mod_small; lia).
  constructor; cbn [next_allocation_id connections providers]; rewrite ?Ew; [lia| | |].
  - intros x i [->|Hi]%He; [lia|]. apply H2 in Hi. lia.
  - rewrite Hp. cbn [app length]. lia.
  - eapply accounted_perm; [|exact H4]. apply configs_proper. by rewrite Hp.
Qed.

Lemma exact_ledger s provider_name allow_grace params :
  working s [] → ledger (acquire_exact_connection_inner clock s provider_name allow_grace params).2 [] leaked.
Proof.
  intros Hw. pose proof (working_acquire_exact s [] provider_name allow_grace Hw ltac:(cbn; lia)) as Ha.
  unfold acquire_exact_connection_inner. destruct (acquire_exact_connection_with_grace_override _ _ _ _) as [a m].
  pose proof (working_exceeds _ [a] provider_name (param_session_owner params) Ha) as Hx.
  destruct (exceeds_reserved_capacity _ _ _ _) as [b s2]. cbn [snd] in Hx.
  destruct a as [|c|c]; [by apply wk_ledger, working_exhausted| |];
    (destruct b; [by apply wk_ledger, working_release|by apply working_register]).
Qed.

Lemma unreserved_working input_name allow_grace owner attempts : ∀ s excluded,
  working s [] →
  let '(r, s') := acquire_unreserved sanitize attempts clock s input_name allow_grace owner excluded in working s' (option_list r).
Proof.
  induction attempts as [|attempts IH]; intros s excluded Hw; [done|]. cbn [acquire_unreserved].
  pose proof (working_acquire_lineup s [] input_name allow_grace excluded Hw ltac:(cbn; lia)) as Ha.
  destruct (acquire_lineup _ _ _ _ _ _) as [a s1]. destruct (get_provider_name a) as [p|] eqn:Ename.
  - pose proof (working_exceeds s1 [a] p owner Ha) as Hx. destruct (exceeds_reserved_capacity _ _ _ _) as [b s2]. cbn [snd] in Hx.
    destruct b; [apply IH; by apply working_release|done].
  - apply name_exhausted in Ename as ->. by apply working_exhausted.
Qed.

Lemma preempt_working s input_name priority allow_grace kind owner :
  working s [] →
  let '(r, s') := try_preempt_connection sanitize clock s input_name priority allow_grace kind owner in working s' (option_list r).
Proof.
  intros Hw. unfold try_preempt_connection. pose proof (working_select s [] input_name priority kind owner Hw ltac:(cbn; lia)) as Hs.
  destruct (select_victim _ _ _ _ _ _) as [[victim reserved] s1]. destruct Hs as [Hs He].
  destruct (victim ≫= evict_candidate_of s1) as [s2|]; [|done]. by apply unreserved_working, He.
Qed.

Lemma finalize_ledger s input_name allow_grace a params :
  working s [a] → ledger (finalize_lineup_allocation sanitize clock s input_name allow_grace a params).2 [] leaked.
Proof.
  intros Hw. unfold finalize_lineup_allocation, evict_lower_priority_on_input. destruct a as [|c|c]; [by apply working_register..|].
  pose proof (working_select s _ input_name (param_priority params) (param_kind params) (param_session_owner params) Hw ltac:(cbn; lia)) as Hs.
  destruct (select_victim _ _ _ _ _ _) as [[victim reserved] s1]. destruct Hs as [Hs He].
  destruct (victim ≫= evict_candidate_of s1) as [s2|]; cbn [negb]; [|by apply working_register]. specialize (He s2 eq_refl).
  destruct (manager_is_over_limit _ _) as [over m] eqn:Eo. pose proof (working_over_limit _ _ _ _ _ He Eo) as Hb3.
  destruct over; cbn [negb]; [|by apply working_register].
  pose proof (working_acquire_lineup _ _ input_name allow_grace ∅ Hb3 ltac:(cbn; lia)) as Ha.
  destruct (acquire_lineup _ _ _ _ _ _) as [a s4]. destruct (get_provider_name a) as [p'|] eqn:Ename.
  - pose proof (working_exceeds _ _ p' (param_session_owner params) Ha) as Hx. destruct (exceeds_reserved_capacity _ _ _ _) as [b s5]. cbn [snd] in Hx.
    destruct b; [by apply working_register, working_release|]. apply working_register, working_release.
    eapply working_perm; [apply Permutation_swap|exact Hx].
  - apply name_exhausted in Ename as ->. by apply working_register, working_exhausted.
Qed.

Lemma acquire_ledger s name allow_grace params :
  working s [] → ledger (acquire_connection_inner sanitize clock s name allow_grace params).2 [] leaked.
Proof.
  intros Hw. unfold acquire_connection_inner. set (r := match param_session_owner params with Some _ => _ | None => _ end).
  assert (working r.2 []) as Hr by (unfold r; case_match; [by eapply working_frame; [..|exact Hw]|done]).
  destruct r as [reserved s1]. cbn [snd] in Hr. destruct reserved as [reserved|]; [by apply exact_ledger|].
  pose proof (unreserved_working name allow_grace (param_session_owner params) (acquire_attempts s1 name) s1 ∅ Hr) as Hu.
  destruct (acquire_unreserved _ _ _ _ _ _ _ _) as [a s2]. destruct a as [a|]; [by apply finalize_ledger|].
  pose proof (preempt_working s2 name (param_priority params) allow_grace (param_kind params) (param_session_owner params) Hu) as Hpre.
  destruct (try_preempt_connection _ _ _ _ _ _ _ _) as [a s3]. destruct a as [a|]; [by apply working_register|by apply wk_ledger].
Qed.
End Working.
