(* ===== verification/ActiveReservations.v ===== *)
(** * Reservations

    A session may reserve a place on a provider.  The manager passes over a
    provider when a connection would take a place that other sessions reserved
    and do not use.  This file computes that test from the connections of the
    table and proves that a connection that is granted respects it, also when
    other connections were preempted meanwhile. *)

From S2P Require Import Prelude ProviderPool ProviderLineup ProviderManager ProviderAccounting ActiveConnections ActiveIndex ActiveLedger ActiveTable ActiveVictim ActiveManager ActiveAccounting.
From stdpp Require Import gmap relations.

#[local] Open Scope Z_scope.

(** ** Sessions that are connected *)

Definition entry_session (e : entry) : option string :=
  match e with ESingle _ info => info_session_owner info | EShared _ s => shared_session_owner s end.

Definition session_on (p : string) (e : entry) : option string :=
  if bool_decide (get_provider_name (entry_allocation e) = Some p) then entry_session e else None.

(** The sessions with a connection on the provider [p]. *)
Definition sessions_on (V : gmap Z entry) (p : string) : gset string := list_to_set (omap (λ x, session_on p x.2) (map_to_list V)).

Lemma elem_of_sessions_on V p o : o ∈ sessions_on V p ↔ ∃ id e, V !! id = Some e ∧ session_on p e = Some o.
Proof.
  unfold sessions_on. rewrite elem_of_list_to_set, list_elem_of_omap. split.
  - intros ([id e] & He%elem_of_map_to_list & H). eauto.
  - intros (id & e & He & H). exists (id, e). by rewrite elem_of_map_to_list.
Qed.

Lemma elem_of_fold_union {A} (f : A → gset string) l : ∀ s o, o ∈ foldl (λ s x, s ∪ f x) s l ↔ o ∈ s ∨ ∃ x, x ∈ l ∧ o ∈ f x.
Proof.
  induction l as [|y l IH]; intros s o; cbn [foldl]; [set_solver|]. rewrite IH, elem_of_union. setoid_rewrite elem_of_cons. naive_solver.
Qed.

Lemma elem_of_owner_on p a owner o : o ∈ owner_on p a owner ↔ owner = Some o ∧ get_provider_name a = Some p.
Proof. unfold owner_on. destruct owner as [o'|]; [|set_solver]. case_bool_decide; set_solver. Qed.

Lemma active_owners_sessions V c p : table_core V c → active_reservation_owners c p = sessions_on V p.
Proof.
  intros Hc. apply set_eq. intros o. rewrite elem_of_sessions_on. unfold active_reservation_owners.
  assert (∀ e, session_on p e = Some o ↔ entry_session e = Some o ∧ get_provider_name (entry_allocation e) = Some p) as Hs.
  { intros e. unfold session_on. case_bool_decide; naive_solver. }
  assert (∀ l s, o ∈ foldl (λ owners (per_addr : Z * gmap Z ActiveConnectionInfo),
      foldl (λ owners e, owners ∪ owner_on p (info_allocation e.2) (info_session_owner e.2)) owners (map_to_list per_addr.2)) s l
      ↔ o ∈ s ∨ ∃ x, x ∈ l ∧ ∃ i, i ∈ map_to_list x.2 ∧ info_session_owner i.2 = Some o ∧ get_provider_name (info_allocation i.2) = Some p) as Hsingle.
  { induction l as [|x l IH]; intros s; cbn [foldl]; [set_solver|]. rewrite IH, elem_of_fold_union. setoid_rewrite elem_of_owner_on.
    setoid_rewrite elem_of_cons. naive_solver. }
  rewrite elem_of_union, Hsingle, elem_of_fold_union. setoid_rewrite elem_of_owner_on. setoid_rewrite Hs. split.
  - intros [[?|([a m] & Ha & [id info] & Hi & Ho & Hp)]|[?|([key s] & Hk & Ho & Hp)]]; [set_solver| |set_solver|].
    + apply elem_of_map_to_list in Ha, Hi. exists id, (ESingle a info). split; [|done]. apply (tc_single _ _ Hc). cbn in Hi. by rewrite Ha.
    + apply elem_of_map_to_list in Hk. exists (shared_id s), (EShared key s). split; [|done]. by apply (tc_key _ _ Hc).
  - intros (id & [a info|key s] & He & Ho & Hp).
    + left. right. apply (tc_single _ _ Hc) in He. destruct (single c !! a) as [m|] eqn:Em; [|done]. exists (a, m).
      split; [by apply elem_of_map_to_list|]. exists (id, info). split; [by apply elem_of_map_to_list|done].
    + right. right. destruct (core_stream _ _ Hc _ _ _ He) as [_ Hk]. exists (key, s). split; [by apply elem_of_map_to_list|done].
Qed.

(** ** The test of the source, from the connections *)

Definition idle_reservations (R : ProviderReservations) (sessions : gset string) (p : string) (owner : option string) : Z :=
  match R !! p with
  | None => 0
  | Some r => len (filter (λ o, owner ≠ Some o ∧ o ∉ sessions) (map fst (map_to_list r)))
  end.

Definition exceeds_spec (lineups : list ProviderLineup) (R : ProviderReservations) (V : gmap Z entry)
    (l : list ProviderAllocation) (p : string) (owner : option string) : bool :=
  match get_provider_config_by_name p lineups with
  | None => true
  | Some (_, cfg) =>
      let idle := idle_reservations R (sessions_on V p) p owner in
      (0 <? max_connections cfg) && (0 <? idle)
      && (max_connections cfg <? saturating_add (holding_name p (configs (l ++ held V))) idle)
  end.

Lemma exceeds_is_spec clock s l V p owner :
  pending_ok s l V →
  (exceeds_reserved_capacity clock s p owner).1
  = exceeds_spec (snapshot_providers (providers s)) (pruned clock s) V l p owner.
Proof.
  intros [Ht _ _ Hc]. unfold exceeds_reserved_capacity, reservation_capacity_usage, exceeds_spec, provider_capacity.
  destruct (get_provider_config_by_name p _) as [[lu cfg]|] eqn:E; [|done]. cbn [mbind option_bind].
  apply provider_by_name_lineup in E as (Hlu & Hin & En).
  destruct (accounted_counts _ _ Hc) as [Hcount _]. destruct (Hcount cfg) as [Hcur _]; [right; eauto|]. rewrite En in Hcur.
  destruct (max_connections cfg =? 0) eqn:Em; cbn [fst].
  - apply Z.eqb_eq in Em. by rewrite Em.
  - rewrite Hcur, (active_owners_sessions V _ p (ok_core _ _ Ht)). reflexivity.
Qed.

Lemma filter_length_le {A} (P Q : A → Prop) `{∀ x, Decision (P x), ∀ x, Decision (Q x)} (l : list A) :
  (∀ x, P x → Q x) → (length (filter P l) ≤ length (filter Q l))%nat.
Proof.
  intros HPQ. induction l as [|x l IH]; [done|]. rewrite !filter_cons. destruct (decide (P x)), (decide (Q x)); cbn; naive_solver lia.
Qed.

Lemma idle_mono R sessions sessions' p owner :
  sessions ⊆ sessions' → 0 ≤ idle_reservations R sessions' p owner ≤ idle_reservations R sessions p owner.
Proof.
  intros Hs. unfold idle_reservations. destruct (R !! p) as [r|]; [|done].
  pose proof (filter_length_le (λ o, owner ≠ Some o ∧ o ∉ sessions') (λ o, owner ≠ Some o ∧ o ∉ sessions) (map fst (map_to_list r))) as H.
  unfold len. split; [lia|]. apply inj_le, H. set_solver.
Qed.

(** Fewer connections and more connected sessions leave more room. *)
Lemma exceeds_spec_mono lineups R V V' l l' p owner :
  exceeds_spec lineups R V l p owner = false →
  sessions_on V p ⊆ sessions_on V' p →
  holding_name p (configs (l' ++ held V')) ≤ holding_name p (configs (l ++ held V)) →
  exceeds_spec lineups R V' l' p owner = false.
Proof.
  intros H Hs Hc. unfold exceeds_spec in *. destruct (get_provider_config_by_name p lineups) as [[lu cfg]|]; [|done].
  pose proof (idle_mono R _ _ p owner Hs) as Hi. revert H. rewrite !andb_false_iff. unfold saturating_add. rewrite !Z.ltb_ge. lia.
Qed.

(** Without reservations of others there is nothing to respect. *)
Lemma exceeds_spec_no_foreign lineups R V l p owner :
  is_Some (get_provider_config_by_name p lineups) →
  (∀ r o, R !! p = Some r → is_Some (r !! o) → owner = Some o) → exceeds_spec lineups R V l p owner = false.
Proof.
  intros [[lu cfg] E] Hr. unfold exceeds_spec. rewrite E. assert (idle_reservations R (sessions_on V p) p owner = 0) as ->; [|by rewrite andb_false_r].
  unfold idle_reservations. destruct (R !! p) as [r|] eqn:Er; [|done].
  destruct (filter _ _) as [|o rest] eqn:Ef; [done|]. assert (o ∈ o :: rest) as Hin by (by left). rewrite <- Ef in Hin.
  apply list_elem_of_filter in Hin as [[Hne _] Hin]. apply elem_of_map_to_list_fst in Hin. by destruct Hne; apply (Hr r).
Qed.

Lemma exceeds_spec_unlimited lineups R V l p owner lu cfg :
  get_provider_config_by_name p lineups = Some (lu, cfg) → max_connections cfg ≤ 0 → exceeds_spec lineups R V l p owner = false.
Proof. intros E Hm. unfold exceeds_spec. rewrite E. by rewrite (proj2 (Z.ltb_ge _ _) Hm). Qed.

(** ** Providers reserved for others *)

Lemma has_foreign_false clock s p owner :
  (has_foreign_reservation clock s p owner).1 = false → reservation_blocks_other_sessions (providers s) p = true →
  ∀ r o, pruned clock s !! p = Some r → is_Some (r !! o) → owner = Some o.
Proof.
  unfold has_foreign_reservation. intros H Hb r o Hr Ho. rewrite Hb in H. cbn in H.
  change (prune_expired_reservations (instant clock) (reservations s)) with (pruned clock s) in H. rewrite Hr in H. destruct owner as [owner|].
  - destruct (decide (o = owner)) as [->|Hne]; [done|]. apply not_true_iff_false in H. destruct H. apply existsb_exists. destruct Ho as [t Ht].
    exists (o, t). split; [by apply list_elem_of_In, elem_of_map_to_list|]. cbn. by rewrite bool_decide_false.
  - apply negb_false_iff, bool_decide_eq_true in H. subst r. destruct Ho as [t Ht]. by rewrite lookup_empty in Ht.
Qed.

Lemma has_foreign_frame clock s p owner :
  providers (has_foreign_reservation clock s p owner).2 = providers s ∧
  pruned clock (has_foreign_reservation clock s p owner).2 = pruned clock s.
Proof. unfold has_foreign_reservation. case_match; [done|]. split; [done|apply pruned_prune]. Qed.

Lemma not_collected clock owner names p : ∀ s,
  p ∈ names → p ∉ (collect_reserved clock owner names s).1 → reservation_blocks_other_sessions (providers s) p = true →
  ∀ r o, pruned clock s !! p = Some r → is_Some (r !! o) → owner = Some o.
Proof.
  induction names as [|name names IH]; intros s Hp Hnot Hb; [by apply not_elem_of_nil in Hp|]. cbn [collect_reserved] in Hnot.
  pose proof (has_foreign_frame clock s name owner) as [Ep Er]. pose proof (has_foreign_false clock s p owner) as Hf.
  destruct (has_foreign_reservation clock s name owner) as [b s1] eqn:Eh. specialize (IH s1). cbn [snd] in *.
  destruct (collect_reserved clock owner names s1) as [rest s2]. cbn [fst] in *. rewrite Ep, Er in IH.
  apply elem_of_cons in Hp as [<-|Hp]; [|apply IH; [done|destruct b; set_solver|done]].
  rewrite Eh in Hf. apply Hf; [|done]. destruct b; [set_solver|done].
Qed.

Lemma unreserved_fits clock owner names s V l p :
  p ∈ names → p ∉ (collect_reserved clock owner names s).1 →
  is_Some (get_provider_config_by_name p (snapshot_providers (providers s))) →
  exceeds_spec (snapshot_providers (providers s)) (pruned clock s) V l p owner = false.
Proof.
  intros Hp Hnot Hsome. pose proof (not_collected clock owner names p s Hp Hnot) as Hr. unfold reservation_blocks_other_sessions in Hr.
  destruct Hsome as [[lu cfg] E]. rewrite E in Hr. destruct (0 <? max_connections cfg) eqn:Em.
  - apply exceeds_spec_no_foreign; [by rewrite E|]. by apply Hr.
  - eapply exceeds_spec_unlimited; [exact E|]. by apply Z.ltb_ge.
Qed.

(** ** Preemption leaves reserved places free *)

Lemma holding_delete p V id e l :
  V !! id = Some e → holding_name p (configs (l ++ held (delete id V))) ≤ holding_name p (configs (l ++ held V)).
Proof.
  intros He. rewrite !configs_app, !holding_name_app, (holding_name_perm p _ _ (configs_proper _ _ (held_delete V id e He))).
  change (entry_allocation e :: ?l) with ([entry_allocation e] ++ l). rewrite configs_app, holding_name_app. unfold holding_name. lia.
Qed.

Lemma sessions_delete V id e p q :
  V !! id = Some e → get_provider_name (entry_allocation e) = Some q → q ≠ p → sessions_on V p ⊆ sessions_on (delete id V) p.
Proof.
  intros He Hq Hne o. rewrite !elem_of_sessions_on. intros (i & x & Hx & Hs). exists i, x. split; [|done].
  rewrite lookup_delete_ne; [done|]. intros ->. simplify_eq. unfold session_on in Hs. rewrite bool_decide_false in Hs by congruence. done.
Qed.

Section Fits.
Context (sanitize : string → string) (clock : Clock) (n : Z) (Hn : 1 ≤ n < 2 ^ 64 - 2).
Context (lineups : list ProviderLineup) (R : ProviderReservations).
#[local] Abbreviation busy := (busy clock n lineups R).
#[local] Abbreviation fits V l p owner := (exceeds_spec lineups R V l p owner = false).

Lemma busy_spec s l V p owner :
  busy s l V → (exceeds_reserved_capacity clock s p owner).1 = exceeds_spec lineups R V l p owner.
Proof. intros [HV _ _ <- <-]. by apply exceeds_is_spec. Qed.

(** A victim is selected and evicted: its provider is not reserved for others, so
    no place that was left free is taken. *)
Lemma preempt_fits s l V input_name priority kind owner victim reserved s1 s2 :
  busy s l V → (length l ≤ 1)%nat → select_victim clock s input_name priority kind owner = (Some victim, reserved, s1) →
  evict_candidate_of s1 victim = Some s2 →
  ∃ V', busy s2 l V' ∧
    ∀ p, p ∈ provider_names_for_input (providers s) input_name → fits V l p owner → fits V' l p owner.
Proof.
  intros Hb Hl Hsel Hev. pose proof (busy_select clock n lineups R s l V input_name priority kind owner Hb) as Hb1. rewrite Hsel in Hb1. cbn [snd] in Hb1.
  unfold select_victim, reserved_provider_names_for_other in Hsel. set (names := provider_names_for_input _ _) in *.
  destruct (collect_reserved clock owner names s) as [rs s1'] eqn:Ec. injection Hsel as Hsel <- <-.
  destruct victim as [[[o id] pr] cr]. destruct (busy_evict clock n Hn lineups R s1' l V o id pr cr s2 Hb1 Hl Hev) as (e & He & Hb2).
  exists (delete id V). split; [done|]. intros p Hp Hfit.
  pose proof (select_candidate_spec (providers s1') input_name rs V (connections s1') priority kind (po_table _ _ _ (busy_pending _ _ _ _ _ _ _ Hb1))) as Hspec.
  rewrite Hsel in Hspec. destruct Hspec as (id' & e' & He' & [= -> -> -> ->] & (q & Hq & Hpre & _) & _). rewrite He in He'. injection He' as <-.
  assert (get_provider_name (entry_allocation e) = Some q) as Hname by (unfold entry_name, indexed_name in Hq; by destruct (is_unlimited_provider _)).
  destruct (decide (q = p)) as [->|Hne].
  - apply andb_true_iff in Hpre as [_ Hnot]. apply negb_true_iff, bool_decide_eq_false in Hnot.
    pose proof (unreserved_fits clock owner names s (delete id' V) l p Hp) as Hu. rewrite Ec in Hu. destruct Hb as [_ _ _ El Er]. rewrite El, Er in Hu.
    apply Hu; [done|]. unfold exceeds_spec in Hfit. by destruct (get_provider_config_by_name p lineups).
  - eapply exceeds_spec_mono; [exact Hfit|by eapply sessions_delete|by eapply holding_delete].
Qed.

(** ** The outcomes of an acquisition *)

(** No connection, or a registered one on a provider whose reserved places were
    left free. *)
Inductive outcome_ok (params : AcquireProviderParams) : option ProviderHandle * ActiveProviderManager → Prop :=
| outcome_none s V : busy s [] V → outcome_ok params (None, s)
| outcome_some s a V p :
    busy s [a] V → get_provider_name a = Some p → fits V [a] p (param_session_owner params) →
    outcome_ok params (register_allocation clock s a params).

Lemma exact_outcome s V provider_name allow_grace params :
  busy s [] V → outcome_ok params (acquire_exact_connection_inner clock s provider_name allow_grace params).
Proof.
  intros Hb. pose proof (busy_acquire_exact clock n Hn lineups R s [] V provider_name allow_grace Hb ltac:(cbn; lia)) as Ha.
  unfold acquire_exact_connection_inner. destruct (acquire_exact_connection_with_grace_override _ _ _ _) as [a m]. destruct Ha as [Ha Hname].
  set (s1 := with_providers s m) in *. pose proof (busy_exceeds clock n lineups R s1 [a] V provider_name (param_session_owner params) Ha) as Hx.
  pose proof (busy_spec s1 [a] V provider_name (param_session_owner params) Ha) as Hsp.
  destruct (exceeds_reserved_capacity _ _ _ _) as [b s2]. cbn [fst snd] in Hx, Hsp.
  destruct a as [|c|c]; [apply (outcome_none _ _ V); by apply busy_exhausted| |];
    (destruct b; [apply (outcome_none _ _ V); by apply busy_release|]; rewrite <- (Hname (config_name c) eq_refl) in Hsp;
     by eapply outcome_some).
Qed.

(** An allocation that the loop returns is of a provider of the input and fits. *)
Lemma unreserved_outcome input_name allow_grace owner attempts : ∀ s V excluded,
  busy s [] V →
  let '(r, s') := acquire_unreserved sanitize attempts clock s input_name allow_grace owner excluded in
  busy s' (option_list r) V ∧
  match r with
  | Some a => ∃ p, get_provider_name a = Some p ∧ p ∈ provider_names_for_input (providers s') input_name ∧ fits V [a] p owner
  | None => True
  end.
Proof.
  induction attempts as [|attempts IH]; intros s V excluded Hb; [by split|]. cbn [acquire_unreserved].
  pose proof (busy_acquire_lineup sanitize clock n Hn lineups R s [] V input_name allow_grace excluded Hb ltac:(cbn; lia)) as Ha.
  destruct (acquire_lineup _ _ _ _ _ _) as [a s1]. destruct Ha as [Ha Hin]. destruct (get_provider_name a) as [p|] eqn:Ename.
  - pose proof (busy_exceeds clock n lineups R s1 [a] V p owner Ha) as Hx. pose proof (busy_spec s1 [a] V p owner Ha) as Hsp.
    destruct (exceeds_reserved_capacity _ _ _ _) as [b s2]. cbn [fst snd] in Hx, Hsp.
    destruct b; [apply IH; by apply busy_release|]. split; [exact Hx|]. exists p. split_and!; [done| |done].
    specialize (Hin p eq_refl). unfold provider_names_for_input in *. rewrite (busy_lineups _ _ _ _ _ _ _ Hx). by rewrite (busy_lineups _ _ _ _ _ _ _ Hb) in Hin.
  - apply name_exhausted in Ename as ->. split; [by apply busy_exhausted|done].
Qed.

Lemma preempt_outcome s V input_name priority allow_grace kind owner :
  busy s [] V →
  let '(r, s') := try_preempt_connection sanitize clock s input_name priority allow_grace kind owner in
  ∃ V', busy s' (option_list r) V' ∧
    match r with Some a => ∃ p, get_provider_name a = Some p ∧ fits V' [a] p owner | None => True end.
Proof.
  intros Hb. unfold try_preempt_connection. pose proof (busy_select clock n lineups R s [] V input_name priority kind owner Hb) as Hs.
  destruct (select_victim _ _ _ _ _ _) as [[victim reserved] s1] eqn:Esel. cbn [snd] in Hs.
  destruct victim as [victim|]; cbn [mbind option_bind]; [|by exists V].
  destruct (evict_candidate_of s1 victim) as [s2|] eqn:E; [|by exists V].
  destruct (preempt_fits s [] V input_name priority kind owner victim reserved s1 s2 Hb ltac:(cbn; lia) Esel E) as (V' & Hb2 & _).
  pose proof (unreserved_outcome input_name allow_grace owner (acquire_attempts s2 input_name) s2 V' reserved Hb2) as Hu.
  destruct (acquire_unreserved _ _ _ _ _ _ _ _) as [r s3]. exists V'. destruct Hu as [Hu Hr]. split; [done|].
  destruct r as [a|]; [|done]. destruct Hr as (p & ? & _ & ?). eauto.
Qed.

Lemma holding_pending p l l' V : holding_name p (configs l') ≤ holding_name p (configs l) →
  holding_name p (configs (l' ++ held V)) ≤ holding_name p (configs (l ++ held V)).
Proof. rewrite !configs_app, !holding_name_app. lia. Qed.

Lemma finalize_outcome s V input_name allow_grace a p params :
  busy s [a] V → get_provider_name a = Some p → p ∈ provider_names_for_input (providers s) input_name →
  fits V [a] p (param_session_owner params) →
  outcome_ok params (finalize_lineup_allocation sanitize clock s input_name allow_grace a params).
Proof.
  intros Hb Hp Hin Hfit. unfold finalize_lineup_allocation, evict_lower_priority_on_input.
  assert (∀ s V', busy s [a] V' → fits V' [a] p (param_session_owner params) → outcome_ok params (register_allocation clock s a params)) as Hdone
    by (intros; by eapply outcome_some).
  destruct a as [|c|c]; [done|by eapply Hdone|].
  pose proof (busy_select clock n lineups R s _ V input_name (param_priority params) (param_kind params) (param_session_owner params) Hb) as Hs.
  destruct (select_victim _ _ _ _ _ _) as [[victim reserved] s1] eqn:Esel. cbn [snd] in Hs.
  destruct (victim ≫= evict_candidate_of s1) as [s2|] eqn:E; cbn [negb]; [|by eapply Hdone].
  destruct victim as [victim|]; [|done]. cbn [mbind option_bind] in E.
  destruct (preempt_fits s _ V _ _ _ _ victim reserved s1 s2 Hb ltac:(cbn; lia) Esel E) as (V' & Hb2 & Hfits). specialize (Hfits p Hin Hfit).
  destruct (manager_is_over_limit _ _) as [over m] eqn:Eo. pose proof (busy_over_limit clock n Hn lineups R _ _ _ _ _ _ Hb2 Eo) as Hb3.
  destruct over; cbn [negb]; [|by eapply Hdone].
  pose proof (busy_acquire_lineup sanitize clock n Hn lineups R _ _ _ input_name allow_grace ∅ Hb3 ltac:(cbn; lia)) as Ha.
  destruct (acquire_lineup _ _ _ _ _ _) as [a s4]. destruct Ha as [Hb4 _]. destruct (get_provider_name a) as [p'|] eqn:Ename.
  - pose proof (busy_exceeds clock n lineups R _ _ _ p' (param_session_owner params) Hb4) as Hx. pose proof (busy_spec _ _ _ p' (param_session_owner params) Hb4) as Hsp.
    destruct (exceeds_reserved_capacity _ _ _ _) as [b s5]. cbn [fst snd] in Hx, Hsp.
    destruct b; [eapply Hdone; [by apply busy_release|done]|].
    eapply outcome_some; [apply busy_release; eapply busy_perm; [apply Permutation_swap|exact Hx]|exact Ename|].
    eapply exceeds_spec_mono; [exact (eq_sym Hsp)|done|]. apply holding_pending. change [a; GracePeriod c] with ([a] ++ [GracePeriod c]).
    rewrite configs_app, holding_name_app. unfold holding_name. lia.
  - apply name_exhausted in Ename as ->. eapply Hdone; [by apply busy_exhausted|done].
Qed.

Lemma acquire_outcome s V name allow_grace params :
  busy s [] V → outcome_ok params (acquire_connection_inner sanitize clock s name allow_grace params).
Proof.
  intros Hb. unfold acquire_connection_inner. set (r := match param_session_owner params with Some _ => _ | None => _ end).
  assert (busy r.2 [] V) as Hr.
  { unfold r. case_match; [|done]. eapply busy_frame; [..|exact Hb]; try done. apply pruned_prune. }
  destruct r as [reserved s1]. cbn [snd] in Hr. destruct reserved as [reserved|]; [by eapply exact_outcome|].
  pose proof (unreserved_outcome name allow_grace (param_session_owner params) (acquire_attempts s1 name) s1 V ∅ Hr) as Hu.
  destruct (acquire_unreserved _ _ _ _ _ _ _ _) as [a s2]. destruct Hu as [Hu Hg].
  destruct a as [a|]; [destruct Hg as (p & Hp & Hin & Hfit); by eapply finalize_outcome|].
  pose proof (preempt_outcome s2 V name (param_priority params) allow_grace (param_kind params) (param_session_owner params) Hu) as Hpre.
  destruct (try_preempt_connection _ _ _ _ _ _ _ _) as [a s3]. destruct Hpre as (V' & Hb' & Hg').
  destruct a as [a|]; [destruct Hg' as (p & Hp & Hfit); by eapply outcome_some|by eapply outcome_none].
Qed.

(** *** After the registration *)

Lemma outcome_manager_ok params r : outcome_ok params r → manager_ok r.2.
Proof.
  intros [s V H|s a V p H Hp _]; [by exists V; destruct H|].
  destruct (register_done clock n Hn lineups R s a V params H (name_granted _ _ Hp)) as (info & _ & _ & H'). by eexists.
Qed.

Lemma outcome_respects params h s' :
  outcome_ok params (Some h, s') →
  ∃ p, get_provider_name (handle_allocation h) = Some p ∧
    (exceeds_reserved_capacity clock s' p (param_session_owner params)).1 = false ∧
    ∃ info, lookup_single (connections s') (client_id h) (allocation_id h) = Some (info.1, info.2) ∧
      info_allocation info.2 = handle_allocation h ∧ info_session_owner info.2 = param_session_owner params.
Proof.
  remember (Some h, s') as r eqn:Eq. intros Ho. revert Eq. destruct Ho as [s V Hb|s a V p Hb Hp Hfit]; intros Eq; [done|]. exists p.
  destruct (register_done clock n Hn lineups R s a V params Hb (name_granted _ _ Hp)) as (info & Ea & Eo & Hok).
  unfold register_allocation in Eq, Hok. injection Eq as Eh Es. rewrite Es in Hok. cbn [snd] in Hok. rewrite <- Eh. cbn [handle_allocation client_id allocation_id].
  split_and!; [done| |].
  - rewrite (exceeds_is_spec clock s' [] _ p (param_session_owner params) Hok).
    assert (snapshot_providers (providers s') = lineups ∧ pruned clock s' = R) as [-> ->] by (rewrite <- Es; destruct Hb; done).
    assert (V !! n = None) as Hfresh.
    { destruct (V !! n) as [e|] eqn:E; [|done]. apply (po_ids _ _ _ (busy_pending _ _ _ _ _ _ _ Hb)) in E. rewrite (busy_next _ _ _ _ _ _ _ Hb) in E. lia. }
    eapply exceeds_spec_mono; [exact Hfit| |].
    + intros o. rewrite !elem_of_sessions_on. intros (i & x & Hx & Hs). exists i, x. split; [|done]. rewrite lookup_insert_ne; [done|]. congruence.
    + apply Z.eq_le_incl, holding_name_perm, configs_proper. cbn [app]. rewrite held_insert by done. cbn. by rewrite Ea.
  - pose proof (po_table _ _ _ Hok) as Ht. pose proof (tc_single _ _ (ok_core _ _ Ht) (param_addr params) n info) as [_ Hl].
    specialize (Hl (lookup_insert_eq _ _ _)). rewrite (busy_next _ _ _ _ _ _ _ Hb). unfold lookup_single.
    destruct (single (connections s') !! param_addr params) as [per_addr|]; [|done]. cbn in Hl |- *. rewrite Hl. cbn.
    exists (per_addr, info). done.
Qed.
End Fits.
