(* ===== verification/ActiveSystem.v ===== *)
(** * The active provider manager as a system

    The operations of [ActiveManager] as steps of a transition system over the
    manager, together with the streams that sharing under a taken key overwrote
    since the last reconciliation, and the theorems on its reachable states:
    counters agree with the table and these streams, and, when callers keep the
    sharing protocol, a granted connection leaves reserved places free. *)

From S2P Require Import Prelude ProviderPool ProviderLineup ProviderManager ProviderAccounting ActiveConnections ActiveIndex ActiveLedger ActiveTable ActiveVictim ActiveManager ActiveAccounting ActiveCount ActiveReservations.
From stdpp Require Import gmap relations.

#[local] Open Scope Z_scope.

(** ** Other operations *)

(** A step of the table that takes in nothing, followed by its releases. *)
Lemma table_operation_ok s s' c' released V V' :
  pending_ok s [] V → step_ok V [] c' released V' → dom V' ⊆ dom V →
  connections s' = c' → providers s' = providers s → next_allocation_id s' = next_allocation_id s →
  manager_ok (release_allocations s' released).
Proof.
  intros HV Hs Hd Ec Ep En. exists V'. apply release_allocations_ok.
  eapply (table_step_pending s [] [] c' released V V' Hs); [set_solver|done|done|rewrite decide_True by done; lia|done].
Qed.

Definition room (s : ActiveProviderManager) : Prop := 1 ≤ next_allocation_id s < 2 ^ 64 - 2.

Lemma busy_start clock s :
  manager_ok s → ∃ V, busy clock (next_allocation_id s) (snapshot_providers (providers s)) (pruned clock s) s [] V.
Proof. intros [V HV]. exists V. constructor; [done|done|cbn; lia|done|done]. Qed.

(** The manager, and the allocations of the streams that were overwritten since
    the last reconciliation, which the code keeps nowhere. *)
Abbreviation state := (ActiveProviderManager * list ProviderAllocation)%type.

(** The operations of the manager.  Fewer than 2^64 - 2 connections are ever
    acquired; a connection in the table keeps a reference to its provider.
    [allowed] restricts the requests to share and to join; with [unrestricted]
    every call that the code accepts is a step. *)
Inductive manager_step (sanitize : string → string) (allowed : Connections → sharing → Prop) : state → state → Prop :=
| MAcquire clock s lost name allow_grace params :
    room s → manager_step sanitize allowed (s, lost) ((acquire_connection_inner sanitize clock s name allow_grace params).2, lost)
| MAcquireExact clock s lost name allow_grace params :
    room s → manager_step sanitize allowed (s, lost) ((acquire_exact_connection_inner clock s name allow_grace params).2, lost)
| MRelease s lost addr : manager_step sanitize allowed (s, lost) (active_release_connection s addr, lost)
| MReleaseHandle s lost handle : manager_step sanitize allowed (s, lost) (active_release_handle s handle, lost)
| MReclassify s lost addr kind priority :
    manager_step sanitize allowed (s, lost) ((active_reclassify_connection s addr kind priority).2, lost)
| MMakeShared s lost addr key :
    allowed (connections s) (ToShare addr key) →
    manager_step sanitize allowed (s, lost) (active_make_shared_connection s addr key, lost ++ overwritten (connections s) addr key)
| MAddShared s lost addr key priority kind :
    allowed (connections s) (ToJoin addr key) →
    manager_step sanitize allowed (s, lost) ((active_add_shared_connection s addr key priority kind).2, lost)
| MRefresh clock s lost provider owner ttl :
    manager_step sanitize allowed (s, lost) (refresh_provider_reservation clock s provider owner ttl, lost)
| MClear clock s lost owner : manager_step sanitize allowed (s, lost) (clear_provider_reservation clock s owner, lost)
| MBlocksNext clock s lost provider owner :
    manager_step sanitize allowed (s, lost) ((reserved_capacity_blocks_next clock s provider owner).2, lost)
| MNext clock s lost input c m :
    get_next_provider clock (providers s) input = (c, m) → manager_step sanitize allowed (s, lost) (with_providers s m, lost)
| MOverLimit s lost provider b m :
    manager_is_over_limit (providers s) provider = (b, m) → manager_step sanitize allowed (s, lost) (with_providers s m, lost)
| MUpdate s lost inputs options referenced :
    (∀ c, c ∈ configs (table_allocations (connections s)) → referenced (connection c) = true) →
    manager_step sanitize allowed (s, lost) (active_update_config s inputs options referenced, [])
| MReconcile s lost referenced :
    (∀ c, c ∈ configs (table_allocations (connections s)) → referenced (connection c) = true) →
    manager_step sanitize allowed (s, lost) (active_reconcile_connections s referenced, []).

Lemma reconcile_ok s referenced :
  manager_ok s → (∀ c, c ∈ configs (table_allocations (connections s)) → referenced (connection c) = true) →
  manager_ok (active_reconcile_connections s referenced).
Proof.
  intros [V [Ht Hp Hi Hc]] Href. exists V. constructor; [done|done|done|]. cbn in Hc |- *. apply accounted_reconcile; [done| |].
  - intros n. by apply connection_counts_exact, ok_core.
  - intros c Hin. apply Href. by rewrite (table_allocations_held V _ (ok_core _ _ Ht)).
Qed.

Lemma manager_step_ok sanitize x y : manager_step sanitize orderly x y → manager_ok x.1 → manager_ok y.1.
Proof.
  intros Hstep Hok. destruct Hstep as [clock s lost name allow_grace params Hr|clock s lost name allow_grace params Hr|s lost addr|s lost handle|s lost addr kind priority|
    s lost addr key [Ha Hk]|s lost addr key priority kind Ha|clock s lost provider owner ttl|clock s lost owner|clock s lost provider owner|clock s lost input c m E|
    s lost provider b m E|s lost inputs options referenced Href|s lost referenced Href]; cbn [fst] in *.
  - destruct (busy_start clock s Hok) as [V Hb]. eapply outcome_manager_ok; [exact Hr|by eapply acquire_outcome].
  - destruct (busy_start clock s Hok) as [V Hb]. eapply outcome_manager_ok; [exact Hr|by eapply exact_outcome].
  - destruct Hok as [V HV]. unfold active_release_connection, release_connection. destruct (release_single _ addr) as [[c released]|] eqn:E.
    + destruct (release_single_step V _ _ _ _ (po_table _ _ _ HV) E) as (V' & Hd & Hs). by eapply table_operation_ok.
    + destruct (release_shared_step V _ addr (po_table _ _ _ HV)) as (V' & Hd & Hs). destruct (release_shared _ _). by eapply table_operation_ok.
  - destruct Hok as [V HV]. unfold active_release_handle. destruct (release_handle_step V _ (client_id handle) (allocation_id handle) (po_table _ _ _ HV)) as (V' & Hd & Hs).
    destruct (release_handle _ _ _). by eapply table_operation_ok.
  - destruct Hok as [V HV]. unfold active_reclassify_connection. destruct (reclassify_connection_step V _ addr kind priority (po_table _ _ _ HV)) as (V' & Hd & Hs).
    destruct (reclassify_connection _ _ _ _) as [c b]. eapply (table_operation_ok s (with_connections s c) c [] V V'); done.
  - destruct Hok as [V HV]. unfold active_make_shared_connection. destruct (make_shared_step V _ addr key (po_table _ _ _ HV) Ha Hk) as (V' & Hd & Hs).
    destruct (make_shared_connection _ _ _) as [[c released] tokens]. by eapply table_operation_ok.
  - unfold active_add_shared_connection. destruct (add_shared_connection _ _ _ _ _) as [c|] eqn:E; [|done]. destruct Hok as [V HV].
    destruct (add_shared_step V _ _ _ _ _ _ (po_table _ _ _ HV) Ha E) as (V' & Hd & Hs).
    eapply (table_operation_ok s (with_connections s c) c [] V V'); done.
  - destruct Hok as [V HV]. exists V. by eapply pending_frame; [..|exact HV].
  - destruct Hok as [V HV]. exists V. by eapply pending_frame; [..|exact HV].
  - destruct Hok as [V HV]. exists V. eapply pending_frame; [..|exact HV];
      unfold reserved_capacity_blocks_next, reservation_capacity_usage; repeat case_match; simplify_eq; done.
  - destruct Hok as [V [Ht Hp Hi Hc]]. exists V. constructor; [done|done|done|]. by eapply accounted_next.
  - destruct Hok as [V [Ht Hp Hi Hc]]. exists V. constructor; [done|done|done|]. by eapply accounted_over_limit.
  - apply reconcile_ok; [|done]. destruct Hok as [V [Ht Hp Hi Hc]]. exists V. constructor; [done|done|done|]. by apply accounted_update.
  - by apply reconcile_ok.
Qed.

Lemma manager_new_ok inputs options : manager_ok (active_provider_manager_new inputs options).
Proof.
  exists ∅. constructor; [apply table_default_ok|cbn; lia|intros id e; by rewrite lookup_empty|]. apply accounted_new.
Qed.

Lemma manager_reachable_ok sanitize inputs options x :
  rtc (manager_step sanitize orderly) (active_provider_manager_new inputs options, []) x → manager_ok x.1.
Proof.
  intros Hs. pose proof (manager_new_ok inputs options) as H0. change (active_provider_manager_new inputs options)
    with (active_provider_manager_new inputs options, @nil ProviderAllocation).1 in H0.
  remember (active_provider_manager_new inputs options, []) as s0 eqn:E0. clear E0.
  induction Hs as [s0|s0 s1 s2 H01 H12 IH]; [done|]. by eapply IH, manager_step_ok.
Qed.

(** *** Counting without the protocol *)

(** An operation of the table, followed by its releases. *)
Lemma flow_ledger s s' lost released dropped :
  ledger s [] lost → flow (connections s) (connections s') (released ++ dropped) →
  providers s' = providers s → next_allocation_id s' = next_allocation_id s →
  ledger (release_allocations s' released) [] (lost ++ dropped).
Proof.
  intros HL Hf Ep En. apply ledger_releases. eapply ledger_flow; [exact Hf|done..].
Qed.

Lemma flow_ledger_kept s s' lost released :
  ledger s [] lost → flow (connections s) (connections s') released →
  providers s' = providers s → next_allocation_id s' = next_allocation_id s → ledger (release_allocations s' released) [] lost.
Proof. intros HL Hf Ep En. rewrite <- (app_nil_r lost). eapply flow_ledger; [exact HL|by rewrite app_nil_r|done..]. Qed.

Lemma reconcile_ledger s lost referenced :
  ledger s [] lost → (∀ c, c ∈ configs (table_allocations (connections s)) → referenced (connection c) = true) →
  ledger (active_reconcile_connections s referenced) [] [].
Proof.
  intros [H1 H2 H3 H4] Href. constructor; [done|done| |].
  - cbn. rewrite app_nil_r. rewrite length_app in H3. lia.
  - cbn [active_reconcile_connections with_providers providers connections app]. rewrite app_nil_r. cbn [app] in H4. rewrite configs_app in H4.
    eapply accounted_reconcile_stale; [exact H4| |exact Href]. intros n. rewrite connection_counts_fold, count_fold, lookup_empty. done.
Qed.

Lemma manager_step_ledger sanitize allowed x y : manager_step sanitize allowed x y → ledger x.1 [] x.2 → ledger y.1 [] y.2.
Proof.
  intros Hstep HL. destruct Hstep as [clock s lost name allow_grace params Hr|clock s lost name allow_grace params Hr|s lost addr|s lost handle|s lost addr kind priority|
    s lost addr key Ha|s lost addr key priority kind Ha|clock s lost provider owner ttl|clock s lost owner|clock s lost provider owner|clock s lost input c m E|
    s lost provider b m E|s lost inputs options referenced Href|s lost referenced Href]; cbn [fst snd] in *.
  - eapply acquire_ledger; [exact Hr|]. by constructor; [|done|cbn; lia].
  - eapply exact_ledger; [exact Hr|]. by constructor; [|done|cbn; lia].
  - unfold active_release_connection, release_connection. destruct (release_single _ addr) as [[c released]|] eqn:E.
    + eapply flow_ledger_kept; [exact HL|by eapply release_single_flow|done..].
    + pose proof (release_shared_flow (connections s) addr) as Hf. destruct (release_shared _ _) as [c released].
      by eapply flow_ledger_kept.
  - unfold active_release_handle. pose proof (release_handle_flow (connections s) (client_id handle) (allocation_id handle)) as Hf.
    destruct (release_handle _ _ _) as [c released]. by eapply flow_ledger_kept.
  - unfold active_reclassify_connection. pose proof (reclassify_flow (connections s) addr kind priority) as Hf.
    destruct (reclassify_connection _ _ _ _) as [c b]. by eapply (flow_ledger_kept s (with_connections s c) lost []).
  - unfold active_make_shared_connection. destruct (make_shared_connection _ _ _) as [[c released] tokens] eqn:E.
    eapply flow_ledger; [exact HL|by eapply make_shared_flow|done..].
  - unfold active_add_shared_connection. destruct (add_shared_connection _ _ _ _ _) as [c|] eqn:E; [|done].
    eapply (flow_ledger_kept s (with_connections s c) lost []); [exact HL|by eapply add_shared_flow|done..].
  - by eapply ledger_frame; [..|exact HL].
  - by eapply ledger_frame; [..|exact HL].
  - eapply ledger_frame; [..|exact HL]; unfold reserved_capacity_blocks_next, reservation_capacity_usage; repeat case_match; simplify_eq; done.
  - destruct HL as [H1 H2 H3 H4]. constructor; [done..|]. by eapply accounted_next.
  - destruct HL as [H1 H2 H3 H4]. constructor; [done..|]. by eapply accounted_over_limit.
  - eapply reconcile_ledger; [|exact Href]. destruct HL as [H1 H2 H3 H4]. constructor; [done..|]. by apply accounted_update.
  - by eapply reconcile_ledger.
Qed.

Lemma manager_reachable_ledger sanitize allowed inputs options x :
  rtc (manager_step sanitize allowed) (active_provider_manager_new inputs options, []) x → ledger x.1 [] x.2.
Proof.
  intros Hs. assert (ledger (active_provider_manager_new inputs options, @nil ProviderAllocation).1 [] []) as H0.
  { constructor; [done| |done|apply accounted_new]. intros a i [e He]. cbn in He. unfold lookup2 in He. by rewrite lookup_empty in He. }
  change (@nil ProviderAllocation) with (active_provider_manager_new inputs options, @nil ProviderAllocation).2 in H0 at 3.
  remember (active_provider_manager_new inputs options, []) as s0 eqn:E0. clear E0.
  induction Hs as [s0|s0 s1 s2 H01 H12 IH]; [done|]. by eapply IH, manager_step_ledger.
Qed.

(** ** Properties *)

(** C18: whatever clients request, release, share, join and reserve, and however
    the configuration changes, the counter of every provider, and the number last
    announced for it, is the number of connections in the table on that provider
    plus the number of its streams that were overwritten, by sharing under a key
    that had a stream, since the last reconciliation.  Preemption, retries and
    connections given back leave no trace.  When the callers keep the sharing
    protocol, no stream is overwritten and the counters are those of the table. *)
Theorem active_connections_counted sanitize allowed inputs options s lost :
  rtc (manager_step sanitize allowed) (active_provider_manager_new inputs options, []) (s, lost) →
  let counted := configs (table_allocations (connections s) ++ lost) in
  (∀ c, in_use (providers s) counted c →
    get_current_connections c (pool (providers s)) = holding_name (config_name c) counted ∧
    default 0 (announced (config_name c) (events (pool (providers s)))) = holding_name (config_name c) counted) ∧
  ((∀ c r, allowed c r → orderly c r) → lost = []).
Proof.
  intros Hrun counted. split.
  - destruct (manager_reachable_ledger _ _ _ _ _ Hrun) as [_ _ _ Hc]. cbn [fst snd app] in Hc. by apply accounted_counts.
  - intros Ho. remember (active_provider_manager_new inputs options, []) as x0 eqn:E0. remember (s, lost) as x eqn:E.
    assert (x0.2 = []) as H0 by (by subst). clear E0. change lost with (s, lost).2. rewrite <- E. clear E counted.
    induction Hrun as [x|x y z Hstep _ IH]; [done|]. apply IH. destruct Hstep; cbn [snd] in *; try done.
    by rewrite H0, orderly_overwrites_nothing by (by apply Ho).
Qed.

(** C19: a connection that is granted to a session is registered for it in the
    table and takes no place that other sessions reserved on its provider: unless
    the provider has no limit, or no other session without a connection has an
    unexpired reservation there, connections and such reservations together stay
    within the limit.  This holds on every path, with a place of its own reserved,
    through the lineup, by grace and by preemption, in every state that callers
    who keep the sharing protocol can reach. *)
Theorem reservations_respected sanitize inputs options s lost clock name allow_grace params h s' :
  rtc (manager_step sanitize orderly) (active_provider_manager_new inputs options, []) (s, lost) → room s →
  acquire_connection_inner sanitize clock s name allow_grace params = (Some h, s') →
  ∃ p lu cfg info,
    get_provider_name (handle_allocation h) = Some p ∧
    get_provider_config_by_name p (snapshot_providers (providers s')) = Some (lu, cfg) ∧
    lookup_single (connections s') (client_id h) (allocation_id h) = Some info ∧
    info_allocation info.2 = handle_allocation h ∧
    let idle := idle_reservations (pruned clock s') (active_reservation_owners (connections s') p) p (param_session_owner params) in
    max_connections cfg ≤ 0 ∨ idle ≤ 0 ∨
    saturating_add (holding_name p (configs (table_allocations (connections s')))) idle ≤ max_connections cfg.
Proof.
  intros Hs%manager_reachable_ok Hr E. cbn [fst] in Hs. destruct (busy_start clock s Hs) as [V Hb].
  pose proof (acquire_outcome sanitize clock _ Hr _ _ s V name allow_grace params Hb) as Ho. rewrite E in Ho.
  pose proof (outcome_manager_ok clock _ Hr _ _ params _ Ho) as [V' HV']. cbn [snd] in HV'.
  destruct (outcome_respects clock _ Hr _ _ params h s' Ho) as (p & Hp & Hx & [per_addr info] & Hl & Ha & _). pose proof (ok_core _ _ (po_table _ _ _ HV')) as Hc.
  rewrite (exceeds_is_spec clock s' [] V' p _ HV') in Hx. unfold exceeds_spec in Hx.
  destruct (get_provider_config_by_name p _) as [[lu cfg]|] eqn:Ec; [|done]. exists p, lu, cfg, (per_addr, info). split_and!; [done|done|done|done|].
  rewrite (active_owners_sessions V' _ p Hc), (holding_name_perm p _ _ (configs_proper _ _ (table_allocations_held V' _ Hc))).
  rewrite !andb_false_iff, !Z.ltb_ge in Hx. cbn [app] in Hx. naive_solver.
Qed.

(** *** Witness *)

Definition example_params (addr priority : Z) : AcquireProviderParams :=
  {| param_addr := addr; param_priority := priority; param_kind := Normal; param_session_owner := None |}.

Definition example_acquire (s : ActiveProviderManager) (addr priority : Z) : option ProviderHandle * ActiveProviderManager :=
  acquire_connection_inner id example_clock s "main" false (example_params addr priority).

(** Three clients take the three providers of the input; a fourth, more important
    one preempts. *)
Definition example_full : ActiveProviderManager :=
  (example_acquire (example_acquire (example_acquire (active_provider_manager_new [example_input] example_options) 7 5).2 8 6).2 9 7).2.

Definition example_preempted : ActiveProviderManager := (example_acquire example_full 10 1).2.

Lemma example_manager_run :
  rtc (manager_step id unrestricted) (active_provider_manager_new [example_input] example_options, []) (example_preempted, []).
Proof.
  assert (∀ s addr priority, room s → manager_step id unrestricted (s, []) ((example_acquire s addr priority).2, [])) as Hstep by (intros; by apply MAcquire).
  do 4 (eapply rtc_r; [|apply Hstep; vm_compute; split; discriminate || reflexivity]). apply rtc_refl.
Qed.

(** Two of the clients share under one key: the first stream is lost and still
    counted, until the counters are reconciled. *)
Definition example_leaked : ActiveProviderManager :=
  active_make_shared_connection (active_make_shared_connection example_full 7 "stream") 8 "stream".

Definition example_lost : list ProviderAllocation :=
  overwritten (connections (active_make_shared_connection example_full 7 "stream")) 8 "stream".

Lemma example_leak_run :
  rtc (manager_step id unrestricted) (active_provider_manager_new [example_input] example_options, []) (example_leaked, example_lost).
Proof.
  assert (∀ s addr priority, room s → manager_step id unrestricted (s, []) ((example_acquire s addr priority).2, [])) as Hstep by (intros; by apply MAcquire).
  eapply rtc_r; [|exact (MMakeShared id unrestricted (active_make_shared_connection example_full 7 "stream") [] 8 "stream" I)].
  eapply rtc_r; [|exact (MMakeShared id unrestricted example_full [] 7 "stream" I)].
  do 3 (eapply rtc_r; [|apply Hstep; vm_compute; split; discriminate || reflexivity]). apply rtc_refl.
Qed.

Lemma active_connections_counted_witness :
  get_current_connections example_backup (pool (providers example_preempted)) = 1 ∧
  length example_lost = 1%nat ∧ length (table_allocations (connections example_leaked)) = 2%nat ∧
  ∀ c, in_use (providers example_leaked) (configs (table_allocations (connections example_leaked) ++ example_lost)) c →
    get_current_connections c (pool (providers example_leaked))
    = holding_name (config_name c) (configs (table_allocations (connections example_leaked) ++ example_lost)).
Proof.
  split; [|split; [vm_compute; reflexivity|split; [vm_compute; reflexivity|]]].
  - destruct (active_connections_counted id unrestricted [example_input] example_options example_preempted [] example_manager_run) as [T _].
    destruct (T example_backup) as [-> _].
    + left. apply (list_elem_of_lookup_2 _ 1). vm_compute. reflexivity.
    + vm_compute. reflexivity.
  - intros c Hc. exact (proj1 (proj1 (active_connections_counted id unrestricted [example_input] example_options example_leaked example_lost example_leak_run) c Hc)).
Defined.

(** A session reserves a place on the backup provider; another session is served
    elsewhere. *)
Definition example_reserved : ActiveProviderManager :=
  refresh_provider_reservation example_clock (active_provider_manager_new [example_input] example_options) "backup" "alice" 30.

Definition example_session : AcquireProviderParams :=
  {| param_addr := 7; param_priority := 5; param_kind := Normal; param_session_owner := Some "bob"%string |}.

Lemma reservations_respected_witness :
  ∃ h s', acquire_connection_inner id example_clock example_reserved "main" false example_session = (Some h, s') ∧
    ∃ p, get_provider_name (handle_allocation h) = Some p ∧ p ≠ "backup"%string.
Proof.
  destruct (acquire_connection_inner id example_clock example_reserved "main" false example_session) as [[h|] s'] eqn:E;
    [|vm_compute in E; discriminate E].
  assert (rtc (manager_step id orderly) (active_provider_manager_new [example_input] example_options, []) (example_reserved, [])) as Hrun
    by (apply rtc_once, MRefresh).
  destruct (reservations_respected id [example_input] example_options example_reserved [] example_clock "main" false example_session h s' Hrun)
    as (p & lu & cfg & info & Hp & _); [vm_compute; split; [discriminate|reflexivity]|exact E|].
  exists h, s'. split; [done|]. exists p. split; [exact Hp|]. vm_compute in E. injection E as <- _. vm_compute in Hp. injection Hp as <-. discriminate.
Defined.
